(* ===== verification/_CoqProject ===== *)
-Q . S2P
Prelude.v
GoStrings.v
GoTime.v
CronSchedule.v
CronNext.v
CronParser.v
CronParse.v
SqlSplit.v
Breaker.v
CacheConfig.v
Cache.v
CacheSpec.v
Flight.v
Replay.v
Tickets.v
Hub.v
HubSpec.v
Utf8.v
JobsStore.v
Relay.v
RelaySafe.v
RelayQuiet.v
RelayRetry.v
JobsCore.v
JobsCoreSpec.v
JobsDeadSpec.v
JobsConfig.v
JobsSched.v
StoreWhere.v
StoreWhereSpec.v
Store.v
StoreCursor.v
StoreRead.v
StoreList.v
StoreKeyset.v
StoreWrite.v
StoreDemo.v
StorePages.v
StoreLock.v
StoreFence.v
StoreTrash.v
StoreDecl.v
StoreRid.v
Migrate.v
MigrateSpec.v
MigrateTx.v
MigrateGuard.v
LoginLimiter.v
LoginCodes.v
LoginCodesSpec.v
OauthSession.v
AccountText.v
AuthTokens.v
Accounts.v
AccountsInv.v
AccountsSpec.v
Redirect.v
ClientIP.v
AuditLog.v
AuditSpec.v
App.v
AppSpec.v
Rbac.v
RbacSpec.v
GoMaps.v
Conf.v
ConfSpec.v
Mail.v
MailSpec.v
StoreAgg.v
StoreAggSpec.v
StoreUpsert.v
StoreUpsertSpec.v
Http.v
HttpSpec.v
OauthFlow.v
OauthFlowSpec.v
