(* ===== verification/Prelude.v ===== *)
(** * chok: a verification library

    chok is a Go framework for web services: an application shell around
    stores over SQL tables, migrations, jobs delivered from an outbox, a
    cache, realtime topics, and accounts that sign in.  This library models
    the parts of it that keep state of their own or decide something, as
    definitions that compute, and proves what makes them correct.

    ** Parts and files

    Each part has one file (or a few) of definitions, in the order and under
    the names of the Go code, and files of properties named [...Spec] or
    after what they prove.

    - Shared: [Prelude] (results, machine integers, lists, automation),
      [GoStrings], [Utf8] and [GoTime] (what the code uses of the packages
      strings, strconv, unicode/utf8 and time; strings are lists of bytes,
      instants are nanoseconds), [GoMaps] (maps from strings).
    - Cron, jobs/internal/cron: [CronSchedule] is spec.go and
      constantdelay.go, [CronParser] is parser.go.  [CronNext] proves that the
      search of [Next] finds the earliest activation; [CronParse] that parsing
      yields well-formed schedules and reads back what is printed.
    - Migrations, db: [SqlSplit] is sqlsplit.go with its grammar; [Migrate] is
      migrate.go and the versioned modes of db.go.  [MigrateSpec] proves that
      a MySQL file that stopped halfway resumes, [MigrateTx] that files run
      exactly once elsewhere, [MigrateGuard] what may run at all.
    - Cache, cache: [Breaker], [Flight], [CacheConfig] and [Cache] are the
      files of those names; a layer is an instance of a class with laws in
      [CacheSpec], against which the cache is proved.
    - Realtime, realtime: [Replay] is event.go and replay.go, [Tickets] is
      ticket.go, [Hub] is conn.go and hub.go; [HubSpec] proves the invariant
      of every reachable hub, privacy of user topics, and resuming.
    - Jobs, jobs: [JobsStore] is message.go and state.go, [Relay] is relay.go,
      [JobsCore] is core.go and dead.go, [JobsSched] is scheduler.go and
      [JobsConfig] is config.go.  [RelaySafe] holds beside any other
      transactions, failures and stops; [RelayQuiet] is what a sweep does when
      nothing interferes; [RelayRetry], [JobsCoreSpec] and [JobsDeadSpec] the
      waits, the cleanup and the dead letters.
    - Stores, store and db: [StoreWhere] is store/where and store/internal/q,
      [Store] is store.go and locator.go, [StoreCursor] is cursor.go,
      [StoreRead] is read.go, [StoreWrite] is changes.go and write.go with
      db/model.go and db/rid.go, [StoreAgg] is aggregate.go with
      [StoreAggSpec], [StoreUpsert] the upserts of write.go with
      [StoreUpsertSpec].  [StoreDemo] is a concrete database for the
      witnesses; [StoreWhereSpec], [StoreList], [StoreKeyset], [StorePages],
      [StoreLock], [StoreFence], [StoreTrash], [StoreDecl] and [StoreRid] hold
      the properties.
    - Identity, identity: [LoginLimiter] is ratelimit.go, [LoginCodes] is
      passwordless.go and confirm.go as concurrent requests, with
      [LoginCodesSpec]; [OauthSession] is oauth_session.go and [OauthFlow] the
      sign-in of oauth.go over it, with [OauthFlowSpec].  [AccountText] is
      password.go and the role lists, [AuthTokens] is token.go, [Accounts] is
      routes.go, users.go, authn.go, admins.go and the accounts of oauth.go,
      passwordless.go and confirm.go, as requests that run beside each other a
      statement at a time; [AccountsInv] is its invariant, [AccountsSpec] its
      properties.  [Redirect] is redirect.go.  [AuditLog] is audit.go, with
      [AuditSpec].
    - Access control, identity/rbac: [Rbac] is adapter.go, engine.go, model.go,
      policy.go, rbac.go and watcher.go, with casbin's enforcer as a class;
      [RbacSpec] proves that the table is a set of rules, that tenants are
      apart and that replicas converge.
    - Client addresses, internal/clientip: [ClientIP].
    - The application, the root package: [App] is app.go, health.go and
      signal.go, on a clock; [AppSpec] proves how long a stop takes, what a
      run returns and that one call closes every component once.
    - Configuration, internal/conf: [Conf] is schema.go, tree.go, decode.go,
      conf.go and dump.go over descriptions of Go types; [ConfSpec] proves
      which source a value comes from, that the tree the sources make holds no
      key its type does not name and that what is printed holds no secret.
    - Mail, mail: [Mail] is message.go, template.go, transport.go, mail.go and
      config.go, with the relay as a function from what was said to its reply;
      [MailSpec] proves what a reader finds in a composed header, when the
      password is sent and that encoded texts come back.
    - Requests, the root package: [Http] is errors.go, render.go,
      middleware.go, router.go and handler.go, a handler being a function on
      the state of its response; [HttpSpec] proves that every request is
      answered once and by whom, what of an error is seen, and which requests
      the CSRF check keeps from the routes.

    ** How the parts interact

    A trigger of [JobsSched] comes at the instant [CronSchedule.Next] answers
    for a schedule [CronParser.Parse] accepts.  A job is enqueued by
    [JobsCore.Enqueue] in a caller's transaction, [Relay.run] delivers it
    and moves the watermark, the cleanup deletes below the watermark only, and
    a message out of attempts becomes a dead letter that [Requeue] enqueues
    again: all four share the tables of [JobsStore].  [Migrate] runs the
    statements [SqlSplit] cuts.  [Cache] calls its layers through an interface
    and loads through [Flight]; [Breaker] wraps the Redis layer.  [Hub] keeps a
    [Replay] buffer and connections come with the claims of [Tickets].  [Store]
    turns options of [StoreWhere] into one query that [StoreRead] and
    [StoreWrite] run, always through the owner scope.  What a code of
    [LoginCodes] or a session of [OauthSession] proves is where the requests
    of [Accounts] begin, whose tokens [AuthTokens] signs; the addresses of
    [ClientIP] are the keys of [LoginLimiter] and go in the records of
    [AuditLog].

    ** Effects

    State is passed explicitly, and errors are values ([result], [option], or
    an enumeration with one constructor per error of the code).  Concurrency is
    a step relation or a list of steps in any order, where a step is one
    critical section, or one statement of a database.  A database call that
    can fail, or beside which others can commit, takes the moment at which it
    happens: what fails, what the clock says, and what others wrote are
    functions of the moment, over which the theorems quantify.

    Code outside the repository is an argument: how a database compares
    values, JSON, base64, SHA-256, HMAC, JWT, bcrypt, net/mail, net/netip and
    net/url, quoted-printable, text/template, the zone database, ServeMux, a
    job's handler, a cache loader.  What is relied on of it is a named hypothesis, and the
    witnesses instantiate it with a concrete function.

    ** Integers, fuel and bounds

    Integers are [Z]; where Go's 64 bits can overflow ([Page] of store/where,
    ids, durations) the wrap-around is written with [int64] or [uint64].  Loops
    that are not structural have fuel, and theorems say the fuel is enough:
    [CronSchedule.Next] has budgets per loop that [Next_earliest] proves
    sufficient, the relay's sweep and the cleanup take fuel from the number of
    rows ([run_delivers_all], [cleanup_exact]), following cursors needs one page
    more than there are rows ([keyset_complete]), a sweep of the audit log one
    round more than there are expired records ([purge_exact]), and the wait for
    health a poll for every ten milliseconds of its timeout ([run_returns]).

    ** What the properties show

    - Nothing is lost: jobs (run_loses_nothing, run_delivers_all,
      Requeue_all_or_nothing), updates (no_lost_update), rows of pages
      (keyset_stable, List_pages), events (resume_no_gap), and migrations
      (mysql_resumes, tx_runs_once), upserts (upsert_exact), audit events (audit_accounts,
      audit_close_complete).
    - Nothing leaks: rows to other owners (reads_fenced, writes_fenced,
      aggregates_fenced,
      preloads_fenced, FromQuery_fenced), events of other users
      (hub_private), codes and tickets used twice (codes_once,
      tickets_refine), guesses (throttle_bound, codes_guesses).
    - Numbers are right: GroupBy_agrees, ListIn_complete, Sum_exact.
    - Nobody gets in who should not: sign-ins handed to another browser
      (oauth_bound), revoked tokens and old passwords
      (revoked_tokens_dead, let_in_now, parse_sign), the admin role
      (admin_needs_proof), accounts taken over (takeover_clean, and where it
      fails pending_link_survives), redirects (redirect_back_ok), forged
      addresses (ClientIP_no_spoof), other tenants (tenants_apart), other
      sites' forms (csrf_blocks).
    - Secrets stay in: readers of the printed configuration (dump_masks), of
      responses and logs (error_texts_unseen), of mail headers
      (compose_reads, bcc_hidden) and of the wire (credentials_encrypted).
    - It starts, serves and stops: run_returns, stop_bounded,
      stop_closes_all, app_closes_once, replicas_converge, layers_precedence,
      load_sound, one_response.
    - A component is its abstract specification: ring buffer, ticket store,
      limiter, session store, policy table and cache each refine a simpler one.
    - Texts are read as they are written: cron fields, SQL scripts, cursors,
      mail headers (encodeText_decode).
    - State machines keep their invariants: hub, breaker, scheduler, parsed
      schedules.

    ** Not modelled

    Sockets, TLS, files, signals, metrics and the formats of HTTP and WebSocket:
    input and output with no decision of chok's own.  The engines behind it: GORM, SQL drivers,
    Redis, otter, casbin, JWT, bcrypt, YAML, OpenTelemetry.  Code that works by
    reflection over the caller's types (request binding, OpenAPI documents, the validation of configurations).  Of the modelled parts:
    the plan a patch type is compiled to; automatic
    tables and rebuilds of db; goroutine start-up and shut-down of jobs and of
    the hub; zone transitions in the search of [CronNext] (the definitions have
    them, the theorem does not). *)

From Stdlib Require Import ZArith Lia Ascii String List.
From stdpp Require Import base decidable list gmap.

#[global] Open Scope Z_scope.

(** ** Results: Go's [(value, error)] pairs *)

Inductive result (E A : Type) : Type :=
| Ok (a : A)
| Err (e : E).
Arguments Ok {E A} _.
Arguments Err {E A} _.

Definition rbind {E A B} (r : result E A) (f : A -> result E B) : result E B :=
  match r with
  | Ok a => f a
  | Err e => Err e
  end.

Declare Scope go_scope.
Delimit Scope go_scope with go.
Notation "'let?' x ':=' r 'in' k" := (rbind r (fun x => k))
  (at level 10, x name, r at level 100, k at level 200) : go_scope.
Notation "'let?' ' p ':=' r 'in' k" := (rbind r (fun x => match x with p => k end))
  (at level 10, p pattern, r at level 100, k at level 200) : go_scope.
#[global] Open Scope go_scope.

Definition is_ok {E A} (r : result E A) : bool :=
  match r with Ok _ => true | Err _ => false end.

Lemma rbind_Ok {E A B} (r : result E A) (f : A -> result E B) b :
  rbind r f = Ok b <-> exists a, r = Ok a /\ f a = Ok b.
Proof. destruct r; naive_solver. Qed.

Lemma rbind_Err {E A B} (r : result E A) (f : A -> result E B) e :
  rbind r f = Err e <-> r = Err e \/ exists a, r = Ok a /\ f a = Err e.
Proof. destruct r; naive_solver. Qed.

#[global] Instance result_eq_dec {E A} `{EqDecision E, EqDecision A} : EqDecision (result E A).
Proof. solve_decision. Defined.

(** The lemmas that automate the common cases, collected by the components. *)
Create HintDb chok.

(** ** Machine integers *)

(** Go's [int] is 64 bits wide on every platform the program targets. *)
Definition MaxInt64 : Z := 2 ^ 63 - 1.
Definition MinInt64 : Z := - 2 ^ 63.
Definition MaxInt32 : Z := 2 ^ 31 - 1.
Definition MaxUint64 : Z := 2 ^ 64 - 1.

(** The value of a signed, or unsigned, 64-bit computation whose exact
    result is [z]: Go's arithmetic wraps around. *)
Definition int64 (z : Z) : Z := (z + 2 ^ 63) mod 2 ^ 64 - 2 ^ 63.
Definition uint64 (z : Z) : Z := z mod 2 ^ 64.

Lemma int64_id z : MinInt64 <= z <= MaxInt64 -> int64 z = z.
Proof. unfold MinInt64, MaxInt64, int64. intros. rewrite Z.mod_small by lia. lia. Qed.

Lemma int64_range z : MinInt64 <= int64 z <= MaxInt64.
Proof. unfold MinInt64, MaxInt64, int64. pose proof (Z.mod_pos_bound (z + 2 ^ 63) (2 ^ 64)). lia. Qed.

Lemma uint64_id z : 0 <= z <= MaxUint64 -> uint64 z = z.
Proof. unfold MaxUint64, uint64. intros. apply Z.mod_small. lia. Qed.

Lemma uint64_range z : 0 <= uint64 z <= MaxUint64.
Proof. unfold MaxUint64, uint64. pose proof (Z.mod_pos_bound z (2 ^ 64)). lia. Qed.

(** ** Loops

    [iter_until n body s] runs [body] from [s] until it yields [inr], at
    most [2 ^ n] times: [inl] is the state the budget ran out in.  The
    binary budget keeps [n] small where a loop may take many rounds. *)

Section loops.
Context {St R : Type} (body : St -> St + R).

Fixpoint iter_until (n : nat) (s : St) : St + R :=
  match n with
  | O => body s
  | S n' => match iter_until n' s with
            | inl s' => iter_until n' s'
            | inr r => inr r
            end
  end.

(** An invariant of the body holds of whatever the loop ends in. *)
Lemma iter_until_inv (I : St -> Prop) (Q : R -> Prop) :
  (forall s, I s -> match body s with inl s' => I s' | inr r => Q r end) ->
  forall n s, I s -> match iter_until n s with inl s' => I s' | inr r => Q r end.
Proof.
  intros Hb n. induction n as [|n IH]; intros s Hs; simpl; [by apply Hb|].
  specialize (IH s Hs) as IH1. destruct (iter_until n s); [by apply IH|done].
Qed.

(** A measure that every round decreases bounds the rounds. *)
Lemma iter_until_measure (I : St -> Prop) (m : St -> Z) :
  (forall s, I s -> match body s with inl s' => I s' /\ 0 <= m s' < m s | inr _ => True end) ->
  forall n s, I s ->
    match iter_until n s with
    | inl s' => I s' /\ m s' + 2 ^ Z.of_nat n <= m s /\ 0 <= m s'
    | inr _ => True
    end.
Proof.
  intros Hb n. induction n as [|n IH]; intros s Hs.
  - simpl. specialize (Hb s Hs). destruct (body s); [|done]. destruct Hb. split; [done|]. lia.
  - cbn [iter_until]. specialize (IH s Hs) as IH1.
    destruct (iter_until n s) as [s'|]; [|done]. destruct IH1 as (I1 & ? & ?).
    specialize (IH s' I1). destruct (iter_until n s'); [|done].
    destruct IH as (? & ? & ?). rewrite Nat2Z.inj_succ, Z.pow_succ_r by lia.
    split; [done|]. lia.
Qed.

(** So a loop whose measure starts below the budget ends by itself. *)
Lemma iter_until_terminates (I : St -> Prop) (m : St -> Z) (Q : R -> Prop) n s :
  (forall s, I s -> match body s with inl s' => I s' /\ 0 <= m s' < m s | inr r => Q r end) ->
  I s -> m s < 2 ^ Z.of_nat n ->
  exists r, iter_until n s = inr r /\ Q r.
Proof.
  intros Hb Hs Hm.
  assert (M := iter_until_measure I m
    (fun s0 H0 => ltac:(specialize (Hb s0 H0); by destruct (body s0))) n s Hs).
  assert (V := iter_until_inv I Q
    (fun s0 H0 => ltac:(specialize (Hb s0 H0); destruct (body s0); [by destruct Hb|done])) n s Hs).
  destruct (iter_until n s) as [s'|r]; [lia|eauto].
Qed.
End loops.

(** ** Arithmetic with division and remainder by constants *)

(** A filter that refuses one element is shorter. *)
Lemma filter_shorter {A} (g : A -> bool) l x : In x l -> g x = false -> (length (List.filter g l) < length l)%nat.
Proof.
  induction l as [|y l IH]; intros Hx Eg; [destruct Hx|]. destruct Hx as [->|Hx]; cbn.
  - rewrite Eg. pose proof (List.filter_length_le g l). lia.
  - specialize (IH Hx Eg). destruct (g y); cbn; lia.
Qed.

Ltac dlia := Z.div_mod_to_equations; lia.

(** Case analysis on the comparisons of a goal or its hypotheses. *)
Ltac Zbool :=
  repeat match goal with
  | H : context [Z.eqb ?a ?b] |- _ => destruct (Z.eqb_spec a b)
  | H : context [Z.ltb ?a ?b] |- _ => destruct (Z.ltb_spec a b)
  | H : context [Z.leb ?a ?b] |- _ => destruct (Z.leb_spec a b)
  | |- context [Z.eqb ?a ?b] => destruct (Z.eqb_spec a b)
  | |- context [Z.ltb ?a ?b] => destruct (Z.ltb_spec a b)
  | |- context [Z.leb ?a ?b] => destruct (Z.leb_spec a b)
  end; cbn [negb andb orb] in *; try lia.
