(* ===== verification/GoStrings.v ===== *)
(** Go strings: sequences of bytes, and the functions of the packages
    strings and strconv that the modelled code calls.  Nothing here models a
    file of the repository; the definitions give the standard library's
    documented behaviour on byte sequences. *)

From Stdlib Require Import ZArith Lia Ascii String List.
From stdpp Require Import base decidable list strings.
From S2P Require Import Prelude.

(** A Go string is its bytes. *)
Abbreviation gostring := (list ascii).

(** The Go literal ["..."]. *)
Definition str (s : string) : gostring := list_ascii_of_string s.
Arguments str : simpl nomatch.

(** The value of a byte, 0 to 255. *)
Definition byte_val (c : ascii) : Z := Z.of_N (N_of_ascii c).

Lemma byte_val_range c : 0 <= byte_val c < 256.
Proof. unfold byte_val. pose proof (N_ascii_bounded c). lia. Qed.

Lemma byte_val_inj c d : byte_val c = byte_val d -> c = d.
Proof.
  unfold byte_val. intros H. apply N2Z.inj in H.
  by rewrite <- (ascii_N_embedding c), <- (ascii_N_embedding d), H.
Qed.

(** Byte equality as the code tests it. *)
Definition beq (c d : ascii) : bool := bool_decide (c = d).

Lemma beq_true c d : beq c d = true <-> c = d.
Proof. unfold beq. apply bool_decide_eq_true. Qed.

Lemma beq_false c d : beq c d = false <-> c <> d.
Proof. unfold beq. apply bool_decide_eq_false. Qed.

Lemma beq_refl c : beq c c = true.
Proof. by apply beq_true. Qed.

(** String equality, and [len(s) == 0]. *)
Definition seq_eqb (s t : gostring) : bool := bool_decide (s = t).

(** ** Prefixes *)

(** strings.HasPrefix(s, p). *)
Fixpoint has_prefix (p s : gostring) : bool :=
  match p, s with
  | [], _ => true
  | c :: p', d :: s' => beq c d && has_prefix p' s'
  | _ :: _, [] => false
  end.

Lemma has_prefix_spec p s : has_prefix p s = true <-> exists t, s = p ++ t.
Proof.
  revert s. induction p as [|c p IH]; intros s; simpl.
  - split; [eauto|done].
  - destruct s as [|d s].
    + split; [done|]. intros (t & Ht). discriminate.
    + rewrite andb_true_iff, beq_true, IH. split.
      * intros (-> & t & ->). eauto.
      * intros (t & Ht). simplify_eq/=. eauto.
Qed.

Lemma has_prefix_app p s : has_prefix p (p ++ s) = true.
Proof. apply has_prefix_spec. eauto. Qed.

(** strings.HasSuffix(s, p). *)
Definition has_suffix (p s : gostring) : bool := has_prefix (rev p) (rev s).

(** strings.CutPrefix(s, p). *)
Definition cut_prefix (p s : gostring) : option gostring :=
  if has_prefix p s then Some (drop (length p) s) else None.

(** ** Searching and splitting on one byte *)

(** strings.IndexByte(s, c): -1 when [c] is not in [s]. *)
Fixpoint index_byte (c : ascii) (s : gostring) : Z :=
  match s with
  | [] => -1
  | d :: s' => if beq c d then 0
               else let i := index_byte c s' in if i <? 0 then -1 else i + 1
  end.

(** strings.Split(s, sep) with a one-byte separator: the pieces between the
    separators, always at least one. *)
Fixpoint split (sep : ascii) (s : gostring) : list gostring :=
  match s with
  | [] => [[]]
  | c :: s' =>
      if beq c sep then [] :: split sep s'
      else match split sep s' with
           | [] => [[c]]
           | p :: ps => (c :: p) :: ps
           end
  end.

(** strings.Join(parts, sep). *)
Fixpoint join (sep : gostring) (parts : list gostring) : gostring :=
  match parts with
  | [] => []
  | [p] => p
  | p :: ps => p ++ sep ++ join sep ps
  end.

Lemma split_cons sep s : exists p ps, split sep s = p :: ps.
Proof. destruct s as [|c s]; simpl; [eauto|]. destruct (beq c sep); [eauto|]. destruct (split sep s); eauto. Qed.

Lemma split_nonempty sep s : split sep s <> [].
Proof. destruct (split_cons sep s) as (p & ps & ->). done. Qed.

Lemma join_cons2 sep p q ps : join sep (p :: q :: ps) = p ++ sep ++ join sep (q :: ps).
Proof. reflexivity. Qed.

Lemma join_split sep s : join [sep] (split sep s) = s.
Proof.
  induction s as [|c s IH]; [done|]. simpl.
  destruct (split_cons sep s) as (p & ps & E). destruct (beq c sep) eqn:Ec.
  - apply beq_true in Ec as ->. rewrite E in IH |- *. rewrite join_cons2, IH. done.
  - rewrite E in IH |- *. destruct ps as [|q ps].
    + cbn [join] in *. by rewrite IH.
    + rewrite join_cons2 in *. rewrite <- IH. done.
Qed.

Lemma split_pieces sep s : Forall (fun p => sep ∉ p) (split sep s).
Proof.
  induction s as [|c s IH]; simpl.
  - constructor; [apply not_elem_of_nil|constructor].
  - destruct (beq c sep) eqn:Ec.
    + constructor; [apply not_elem_of_nil|done].
    + destruct (split_cons sep s) as (p & ps & E). rewrite E in *. inversion IH; subst.
      constructor; [|done]. apply not_elem_of_cons. split; [|done].
      apply beq_false in Ec. congruence.
Qed.

(** Splitting what was joined from pieces without the separator gives them
    back. *)
Lemma split_app_sep sep p s :
  sep ∉ p -> split sep (p ++ sep :: s) = p :: split sep s.
Proof.
  induction p as [|c p IH]; intros Hp; simpl; [by rewrite beq_refl|].
  apply not_elem_of_cons in Hp as [Hc Hp].
  destruct (beq c sep) eqn:E; [apply beq_true in E; congruence|].
  by rewrite IH.
Qed.

Lemma split_no_sep sep p : sep ∉ p -> split sep p = [p].
Proof.
  induction p as [|c p IH]; intros Hp; simpl; [done|].
  apply not_elem_of_cons in Hp as [Hc Hp].
  destruct (beq c sep) eqn:E; [apply beq_true in E; congruence|].
  by rewrite IH.
Qed.

(** strings.FieldsFunc(s, func(r) bool { return r == sep }): the non-empty
    pieces. *)
Definition fields_func (sep : ascii) (s : gostring) : list gostring :=
  List.filter (fun p => negb (seq_eqb p [])) (split sep s).

(** ** White space *)

(** The UTF-8 encodings of the runes unicode.IsSpace admits. *)
Definition space_rune (l : list Z) : bool :=
  match l with
  | [a] => ((9 <=? a) && (a <=? 13)) || (a =? 32)
  | [a; b] => (a =? 194) && ((b =? 133) || (b =? 160))
  | [a; b; c] =>
      ((a =? 225) && (b =? 154) && (c =? 128))
      || ((a =? 226) && (b =? 128)
          && (((128 <=? c) && (c <=? 138)) || (c =? 168) || (c =? 169) || (c =? 175)))
      || ((a =? 226) && (b =? 129) && (c =? 159))
      || ((a =? 227) && (b =? 128) && (c =? 128))
  | _ => false
  end.

(** The width of the white-space rune [s] starts with, 0 when it starts
    with none.  No encoding of another rune contains these sequences, so
    they can be looked for at any byte. *)
Definition space_width (s : gostring) : nat :=
  if space_rune (map byte_val (take 1 s)) then 1%nat
  else if space_rune (map byte_val (take 2 s)) then 2%nat
  else if space_rune (map byte_val (take 3 s)) then 3%nat
  else 0%nat.

(** The same at the end of the string whose reverse is [r]. *)
Definition space_width_end (r : gostring) : nat :=
  if space_rune (map byte_val (rev (take 1 r))) then 1%nat
  else if space_rune (map byte_val (rev (take 2 r))) then 2%nat
  else if space_rune (map byte_val (rev (take 3 r))) then 3%nat
  else 0%nat.

Fixpoint drop_while_width (w : gostring -> nat) (fuel : nat) (s : gostring) : gostring :=
  match fuel with
  | O => s
  | S fuel' => match w s with
               | O => s
               | n => drop_while_width w fuel' (drop n s)
               end
  end.

(** strings.TrimSpace(s). *)
Definition trim_space (s : gostring) : gostring :=
  let l := drop_while_width space_width (length s) s in
  rev (drop_while_width space_width_end (length l) (rev l)).

(** strings.Fields(s): the maximal runs without white space. *)
Fixpoint fields_go (fuel : nat) (cur s : gostring) : list gostring :=
  let flush := if seq_eqb cur [] then [] else [rev cur] in
  match fuel, s with
  | O, _ | _, [] => flush
  | S fuel', c :: s' =>
      match space_width s with
      | O => fields_go fuel' (c :: cur) s'
      | n => flush ++ fields_go fuel' [] (drop n s)
      end
  end.

Definition fields (s : gostring) : list gostring := fields_go (length s) [] s.

Lemma drop_while_width_length w fuel s :
  (length (drop_while_width w fuel s) <= length s)%nat.
Proof.
  revert s. induction fuel as [|fuel IH]; intros s; simpl; [lia|].
  destruct (w s); [lia|]. etransitivity; [apply IH|]. rewrite length_drop. lia.
Qed.

Lemma drop_while_width_nil w fuel : w [] = 0%nat -> drop_while_width w fuel [] = [].
Proof. intros H. destruct fuel; simpl; [done|]. by rewrite H. Qed.

Lemma trim_space_nil : trim_space [] = [].
Proof. reflexivity. Qed.

(** ** Case folding

    strings.ToLower on bytes: ASCII letters, and the two other runes whose
    lower case is an ASCII letter, U+0130 and U+212A.  The remaining runes
    lower to runes outside ASCII and stand as they are here, so the result
    is exact wherever it is compared with ASCII text. *)
Definition lower_byte (c : ascii) : ascii :=
  let v := byte_val c in
  if (65 <=? v) && (v <=? 90) then ascii_of_N (Z.to_N (v + 32)) else c.

Fixpoint to_lower (s : gostring) : gostring :=
  match s with
  | [] => []
  | c :: s1 =>
      match s1 with
      | d :: s2 =>
          if (byte_val c =? 196) && (byte_val d =? 176) then "i"%char :: to_lower s2
          else match s2 with
               | e :: s3 =>
                   if (byte_val c =? 226) && (byte_val d =? 132) && (byte_val e =? 170)
                   then "k"%char :: to_lower s3
                   else lower_byte c :: to_lower s1
               | [] => lower_byte c :: to_lower s1
               end
      | [] => lower_byte c :: to_lower s1
      end
  end.

(** ** Decimal integers *)

Definition digit_val (c : ascii) : option Z :=
  let v := byte_val c in
  if (48 <=? v) && (v <=? 57) then Some (v - 48) else None.

Fixpoint digits_val (acc : Z) (s : gostring) : option Z :=
  match s with
  | [] => Some acc
  | c :: s' => d ← digit_val c; digits_val (10 * acc + d) s'
  end.

(** strconv.Atoi(s): an optional sign and at least one digit, the value an
    int; [None] is its error. *)
Definition atoi (s : gostring) : option Z :=
  let number (s : gostring) :=
    match s with [] => None | _ => digits_val 0 s end in
  n ← match s with
      | c :: s' => if beq c "+" then number s'
                   else if beq c "-" then n ← number s'; Some (- n)
                   else number s
      | [] => None
      end;
  if (MinInt64 <=? n) && (n <=? MaxInt64) then Some n else None.

Lemma atoi_range s n : atoi s = Some n -> MinInt64 <= n <= MaxInt64.
Proof.
  unfold atoi. intros H.
  apply bind_Some in H as (m & _ & H).
  destruct ((MinInt64 <=? m) && (m <=? MaxInt64)) eqn:E; [|done].
  apply andb_true_iff in E as [?%Z.leb_le ?%Z.leb_le]. simplify_eq. lia.
Qed.

(** strconv.FormatUint(n, 10). *)
Definition digit_char (d : Z) : ascii := ascii_of_N (Z.to_N (48 + d)).

Fixpoint format_go (fuel : nat) (n : Z) (acc : gostring) : gostring :=
  match fuel with
  | O => acc
  | S fuel' =>
      let acc' := digit_char (n mod 10) :: acc in
      if n <? 10 then acc' else format_go fuel' (n / 10) acc'
  end.

Definition format_uint (n : Z) : gostring := format_go 20 n [].

(** strconv.FormatInt in base 10. *)
Definition format_int (z : Z) : gostring := if z <? 0 then "-"%char :: format_uint (- z) else format_uint z.

(** *** Printing and reading back *)

Definition is_digit (c : ascii) : Prop := exists d, digit_val c = Some d /\ 0 <= d < 10.

Lemma digit_char_val d : 0 <= d < 10 -> digit_val (digit_char d) = Some d.
Proof.
  intros H. assert (d = 0 \/ d = 1 \/ d = 2 \/ d = 3 \/ d = 4 \/ d = 5 \/ d = 6 \/ d = 7
    \/ d = 8 \/ d = 9) as Hc by lia.
  repeat destruct Hc as [->|Hc]; try reflexivity. subst. reflexivity.
Qed.

Lemma is_digit_char d : 0 <= d < 10 -> is_digit (digit_char d).
Proof. intros. exists d. split; [by apply digit_char_val|done]. Qed.

Lemma format_go_digits fuel n acc :
  0 <= n -> Forall is_digit acc -> Forall is_digit (format_go fuel n acc).
Proof.
  revert n acc. induction fuel as [|fuel IH]; intros n acc Hn Hacc; simpl; [done|].
  assert (Forall is_digit (digit_char (n mod 10) :: acc))
    by (constructor; [apply is_digit_char; dlia|done]).
  destruct (n <? 10); [done|]. apply IH; [dlia|done].
Qed.

Lemma format_go_cons fuel n acc : (0 < fuel)%nat -> exists c t, format_go fuel n acc = c :: t.
Proof.
  revert n acc. induction fuel as [|fuel IH]; intros n acc Hf; simpl; [lia|].
  destruct (n <? 10); [eauto|]. destruct fuel; [simpl; eauto|]. apply IH. lia.
Qed.

Lemma format_go_val fuel n acc : 0 <= n < 10 ^ Z.of_nat fuel -> (0 < fuel)%nat ->
  digits_val 0 (format_go fuel n acc) = digits_val n acc.
Proof.
  revert n acc. induction fuel as [|fuel IH]; intros n acc Hn Hf; [lia|].
  cbn [format_go]. destruct (Z.ltb_spec n 10) as [Hlt|Hge].
  - cbn [digits_val]. rewrite digit_char_val by dlia. simpl. f_equal. dlia.
  - rewrite Nat2Z.inj_succ, Z.pow_succ_r in Hn by lia.
    destruct fuel as [|fuel]; [simpl in Hn; lia|].
    rewrite IH by (dlia || lia). cbn [digits_val].
    rewrite digit_char_val by dlia. simpl. f_equal. dlia.
Qed.

(** The text of an int that is not negative. *)
Lemma format_uint_digits n : 0 <= n -> Forall is_digit (format_uint n).
Proof. intros. by apply format_go_digits. Qed.

Lemma format_uint_cons n : 0 <= n -> exists c t, format_uint n = c :: t /\ is_digit c.
Proof.
  intros H. destruct (format_go_cons 20 n []) as (c & t & E); [lia|].
  pose proof (format_uint_digits n H) as D. unfold format_uint in *. rewrite E in *.
  inversion D; subst. eauto.
Qed.

Lemma digit_byte c : is_digit c -> 48 <= byte_val c <= 57.
Proof. intros (d & H & _). unfold digit_val in H. destruct (_ && _) eqn:E; [|done]. lia. Qed.

Lemma digit_neq c d : is_digit c -> ~ is_digit d -> c <> d.
Proof. congruence. Qed.

Lemma atoi_format_uint n : 0 <= n <= MaxInt64 -> atoi (format_uint n) = Some n.
Proof.
  intros H. destruct (format_uint_cons n ltac:(lia)) as (c & t & E & D).
  unfold atoi. rewrite E.
  assert (beq c "+" = false) as ->.
  { apply beq_false. intros ->. apply digit_byte in D. vm_compute in D. destruct D. done. }
  assert (beq c "-" = false) as ->.
  { apply beq_false. intros ->. apply digit_byte in D. vm_compute in D. destruct D. done. }
  rewrite <- E. unfold format_uint.
  rewrite format_go_val; [|unfold MaxInt64 in H; simpl Z.of_nat; lia|lia].
  simpl. unfold MinInt64, MaxInt64 in *.
  destruct (Z.leb_spec (- 2 ^ 63) n), (Z.leb_spec n (2 ^ 63 - 1)); done || lia.
Qed.

(** A digit stays itself under ToLower. *)
Lemma to_lower_digit c s : is_digit c -> exists t, to_lower (c :: s) = c :: t.
Proof.
  intros D. apply digit_byte in D.
  assert (L : lower_byte c = c).
  { unfold lower_byte. destruct (Z.leb_spec 65 (byte_val c)); [lia|done]. }
  cbn [to_lower]. destruct s as [|d s]; [rewrite L; eauto|].
  destruct (Z.eqb_spec (byte_val c) 196); [lia|]. cbn [andb].
  destruct s as [|e s]; [rewrite L; eauto|].
  destruct (Z.eqb_spec (byte_val c) 226); [lia|]. cbn [andb]. rewrite L. eauto.
Qed.

Lemma not_in_digits c s : ~ is_digit c -> Forall is_digit s -> c ∉ s.
Proof. intros Hc Hs Hin. rewrite Forall_forall in Hs. by apply Hc, Hs. Qed.

(** ** Order: the [<=] of Go's strings, byte by byte *)

Fixpoint str_leb (a b : gostring) : bool :=
  match a, b with
  | [], _ => true
  | _ :: _, [] => false
  | c :: a', d :: b' => if byte_val c <? byte_val d then true else if byte_val d <? byte_val c then false else str_leb a' b'
  end.

Definition str_le (a b : gostring) : Prop := str_leb a b = true.
#[global] Instance str_le_dec : RelDecision str_le.
Proof. intros a b. unfold str_le. apply _. Defined.

(** a < b. *)
Definition str_ltb (a b : gostring) : bool := negb (str_leb b a).

(** max(a, b). *)
Definition str_max (a b : gostring) : gostring := if str_leb b a then a else b.

Lemma str_leb_refl a : str_leb a a = true.
Proof. induction a as [|c a IH]; [done|]. simpl. by rewrite Z.ltb_irrefl. Qed.

Lemma str_leb_antisym a b : str_leb a b = true -> str_leb b a = true -> a = b.
Proof.
  revert b. induction a as [|c a IH]; intros [|d b]; simpl; try done.
  Zbool; intros L1 L2. assert (c = d) as -> by (apply byte_val_inj; lia). f_equal. auto.
Qed.

Lemma str_leb_trans a b c : str_leb a b = true -> str_leb b c = true -> str_leb a c = true.
Proof.
  revert b c. induction a as [|x a IH]; intros [|y b] [|z c]; simpl; try done.
  Zbool; intros L1 L2; try done. by apply (IH b).
Qed.

Lemma str_leb_total a b : str_leb a b = true \/ str_leb b a = true.
Proof. revert b. induction a as [|c a IH]; intros [|d b]; simpl; auto. Zbool; auto. Qed.

#[global] Instance str_le_total : Total str_le.
Proof. intros a b. apply str_leb_total. Qed.
#[global] Instance str_le_trans : Transitive str_le.
Proof. intros a b c. apply str_leb_trans. Qed.
#[global] Instance str_le_antisym : AntiSymm eq str_le.
Proof. intros a b. apply str_leb_antisym. Qed.

Lemma str_ltb_le a b : str_ltb a b = true -> str_leb a b = true.
Proof. unfold str_ltb. destruct (str_leb_total a b) as [E|E]; rewrite E; done. Qed.
