(* ===== verification/GoTime.v ===== *)
(** The part of Go's package time the modelled code uses: instants,
    durations, locations and the proleptic Gregorian calendar.

    An instant is its nanoseconds since the Unix epoch; a [*time.Location]
    is the offset it starts with and its transitions, as a zone file lists
    them.  A [time.Time]'s location only matters to the methods that read
    its calendar fields, so it is an argument of those. *)

From Stdlib Require Import ZArith Lia List.
From stdpp Require Import base decidable list.
From S2P Require Import Prelude.

(** ** Durations and instants *)

Definition Nanosecond : Z := 1.
Definition Millisecond : Z := 1000000.
Definition Second : Z := 1000000000.
Definition Minute : Z := 60 * Second.
Definition Hour : Z := 60 * Minute.

(** The zero [time.Time]: January 1, year 1, 00:00:00 UTC. *)
Definition zero_time : Z := -62135596800 * Second.
Definition IsZero (t : Z) : bool := t =? zero_time.

(** [t.Unix()] and [t.Nanosecond()]. *)
Definition unix (t : Z) : Z := t / Second.
Definition nanosecond (t : Z) : Z := t mod Second.

(** [t.Truncate(d)]: rounded down to a multiple of [d] since the zero time. *)
Definition truncate (t d : Z) : Z := if d <=? 0 then t else t - (t - zero_time) mod d.

(** ** The calendar *)

Definition leap (y : Z) : bool :=
  ((y mod 4 =? 0) && negb (y mod 100 =? 0)) || (y mod 400 =? 0).

Definition leap_day (y : Z) : Z := if leap y then 1 else 0.

(** Days from January 1, year 1 to January 1, year [y]. *)
Definition year_days (y : Z) : Z :=
  let p := y - 1 in 365 * p + p / 4 - p / 100 + p / 400.

(** Days of the year before month [m] (1 to 12), [l] the leap day. *)
Definition month_days (l m : Z) : Z :=
  if m <=? 1 then 0 else if m <=? 2 then 31
  else if m <=? 3 then 59 + l else if m <=? 4 then 90 + l
  else if m <=? 5 then 120 + l else if m <=? 6 then 151 + l
  else if m <=? 7 then 181 + l else if m <=? 8 then 212 + l
  else if m <=? 9 then 243 + l else if m <=? 10 then 273 + l
  else if m <=? 11 then 304 + l else 334 + l.

(** The epoch, 1970-01-01, counted from January 1, year 1. *)
Definition epoch_days : Z := 719162.

(** The day number, from the epoch, of the first of the month [k], which
    counts the months from January of year 0. *)
Definition month_start (k : Z) : Z :=
  let y := k / 12 in year_days y + month_days (leap_day y) (k mod 12 + 1) - epoch_days.

(** The day number of a date whose month and day may lie outside their
    usual ranges, which Date and AddDate normalise. *)
Definition days_of_date (y m d : Z) : Z := month_start (12 * y + (m - 1)) + (d - 1).

(** The year of a day counted from January 1, year 1, and its date. *)
Definition year_of (n : Z) : Z :=
  let y := (400 * n) / 146097 + 1 in
  if n <? year_days (y + 1) then y else y + 1.

Definition month_of_doy (l doy : Z) : Z :=
  if doy <? 31 then 1 else if doy <? 59 + l then 2
  else if doy <? 90 + l then 3 else if doy <? 120 + l then 4
  else if doy <? 151 + l then 5 else if doy <? 181 + l then 6
  else if doy <? 212 + l then 7 else if doy <? 243 + l then 8
  else if doy <? 273 + l then 9 else if doy <? 304 + l then 10
  else if doy <? 334 + l then 11 else 12.

(** The date of the day [n] from the epoch: year, month, day. *)
Definition civil (n : Z) : Z * Z * Z :=
  let e := n + epoch_days in
  let y := year_of e in
  let doy := e - year_days y in
  let m := month_of_doy (leap_day y) doy in
  (y, m, doy - month_days (leap_day y) m + 1).

#[global] Arguments year_days : simpl never.
#[global] Arguments month_days : simpl never.
#[global] Arguments month_start : simpl never.
#[global] Arguments days_of_date : simpl never.
#[global] Arguments civil : simpl never.

Definition year_of_day (n : Z) : Z := (civil n).1.1.
Definition month_of_day (n : Z) : Z := (civil n).1.2.
Definition dom_of_day (n : Z) : Z := (civil n).2.

(** The month of the day [n], counted from January of year 0. *)
Definition month_index (n : Z) : Z := 12 * year_of_day n + (month_of_day n - 1).

(** ** Locations *)

Record location := Location {
  loc_base : Z;              (* seconds east of UTC before the first transition *)
  loc_tx : list (Z * Z);     (* (from when, the offset then), ascending *)
}.

Definition UTC : location := Location 0 [].

(** A location without transitions, as [time.FixedZone] makes. *)
Definition fixed_zone (o : Z) : location := Location o [].

(** The offset at the Unix second [sec] and the interval it holds in. *)
Fixpoint lookup_tx (off start : Z) (tx : list (Z * Z)) (sec : Z) : Z * Z * Z :=
  match tx with
  | [] => (off, start, MaxInt64)
  | (w, o) :: tx' => if sec <? w then (off, start, w) else lookup_tx o w tx' sec
  end.

Definition lookup_zone (l : location) (sec : Z) : Z * Z * Z :=
  lookup_tx (loc_base l) MinInt64 (loc_tx l) sec.

Definition offset_at (l : location) (sec : Z) : Z := (lookup_zone l sec).1.1.

(** ** Calendar fields and their inverse *)

Section fields.
Context (l : location).

Definition local_second (t : Z) : Z := unix t + offset_at l (unix t).
Definition local_day (t : Z) : Z := local_second t / 86400.
Definition year (t : Z) : Z := year_of_day (local_day t).
Definition month (t : Z) : Z := month_of_day (local_day t).
Definition day (t : Z) : Z := dom_of_day (local_day t).
Definition weekday (t : Z) : Z := (local_day t + 4) mod 7.
Definition hour (t : Z) : Z := local_second t mod 86400 / 3600.
Definition minute (t : Z) : Z := local_second t mod 3600 / 60.
Definition second (t : Z) : Z := local_second t mod 60.

(** [time.Date(y, m, d, h, mi, s, ns, l)].  The offset is looked up for
    the expected time first, and again when that lies outside the
    interval the first answer holds in. *)
Definition Date (y m d h mi s ns : Z) : Z :=
  let total := (days_of_date y m d * 86400 + h * 3600 + mi * 60 + s) * Second + ns in
  let u := total / Second in
  let '(off, start, stop) := lookup_zone l u in
  let utc := u - off in
  let off' := if (utc <? start) || (stop <=? utc) then offset_at l utc else off in
  total - off' * Second.

(** [t.AddDate(years, months, days)]. *)
Definition AddDate (t years months days : Z) : Z :=
  Date (year t + years) (month t + months) (day t + days)
    (hour t) (minute t) (second t) (nanosecond t).
End fields.

(** ** Facts of the calendar *)

Lemma leap_day_01 y : leap_day y = 0 \/ leap_day y = 1.
Proof. unfold leap_day. destruct (leap y); auto. Qed.

(** A year has 365 days and its leap day. *)
Lemma year_days_succ y : year_days (y + 1) = year_days y + 365 + leap_day y.
Proof.
  unfold year_days, leap_day, leap. cbv zeta.
  replace (y + 1 - 1) with y by lia.
  assert (E4 : y / 4 = (y - 1) / 4 + if y mod 4 =? 0 then 1 else 0) by (Zbool; dlia).
  assert (E100 : y / 100 = (y - 1) / 100 + if y mod 100 =? 0 then 1 else 0) by (Zbool; dlia).
  assert (E400 : y / 400 = (y - 1) / 400 + if y mod 400 =? 0 then 1 else 0) by (Zbool; dlia).
  rewrite E4, E100, E400. clear E4 E100 E400.
  assert (H1 : y mod 400 = 0 -> y mod 100 = 0) by dlia.
  assert (H2 : y mod 100 = 0 -> y mod 4 = 0) by dlia.
  Zbool.
Qed.

Lemma year_of_spec n : year_days (year_of n) <= n < year_days (year_of n + 1).
Proof.
  unfold year_of. cbv zeta. set (q := 400 * n / 146097).
  assert (Hq : 146097 * q <= 400 * n < 146097 * (q + 1)) by (unfold q; dlia).
  assert (L : year_days (q + 1) <= n) by (unfold year_days; dlia).
  assert (R : n < year_days (q + 1 + 1 + 1)) by (unfold year_days; dlia).
  destruct (Z.ltb_spec n (year_days (q + 1 + 1))); lia.
Qed.

Lemma year_days_mono y y' : y <= y' -> year_days y <= year_days y'.
Proof. unfold year_days. dlia. Qed.

Ltac month_cases :=
  repeat match goal with
  | |- context [Z.ltb ?a ?b] => destruct (Z.ltb_spec a b)
  | H : context [Z.ltb ?a ?b] |- _ => destruct (Z.ltb_spec a b)
  end; simpl in *.

Lemma month_of_doy_spec l doy :
  0 <= l <= 1 -> 0 <= doy < 365 + l ->
  1 <= month_of_doy l doy <= 12 /\
  month_days l (month_of_doy l doy) <= doy /\
  (month_of_doy l doy < 12 -> doy < month_days l (month_of_doy l doy + 1)).
Proof.
  intros. unfold month_of_doy. month_cases; unfold month_days; simpl; lia.
Qed.

Lemma month_start_year y j : 0 <= j < 12 ->
  month_start (12 * y + j) = year_days y + month_days (leap_day y) (j + 1) - epoch_days.
Proof.
  intros. unfold month_start. cbv zeta.
  replace ((12 * y + j) / 12) with y by dlia. replace ((12 * y + j) mod 12) with j by dlia. done.
Qed.

Lemma month_start_next_year y :
  month_start (12 * y + 12) = year_days y + 365 + leap_day y - epoch_days.
Proof.
  replace (12 * y + 12) with (12 * (y + 1) + 0) by lia.
  rewrite month_start_year by lia. rewrite year_days_succ. unfold month_days. simpl. lia.
Qed.

(** A month has 28 to 31 days. *)
Lemma month_start_succ k : month_start k + 28 <= month_start (k + 1) <= month_start k + 31.
Proof.
  pose proof (leap_day_01 (k / 12)).
  replace k with (12 * (k / 12) + k mod 12) by dlia.
  pose proof (Z.mod_pos_bound k 12 ltac:(lia)) as Hj.
  revert Hj. generalize (k mod 12) as j. generalize dependent (k / 12). intros y Hl j Hj.
  rewrite (month_start_year y j Hj).
  destruct (Z.eq_dec j 11) as [->|].
  - replace (12 * y + 11 + 1) with (12 * y + 12) by lia.
    rewrite month_start_next_year. unfold month_days. simpl. lia.
  - replace (12 * y + j + 1) with (12 * y + (j + 1)) by lia.
    rewrite month_start_year by lia. unfold month_days. Zbool.
Qed.

Lemma month_start_mono k k' : k <= k' -> month_start k <= month_start k'.
Proof.
  intros H. pattern k'. revert k' H. apply Zlt_lower_bound_ind. intros k' IH Hk.
  destruct (Z.eq_dec k k') as [->|]; [lia|].
  pose proof (IH (k' - 1) ltac:(lia)). pose proof (month_start_succ (k' - 1)).
  replace (k' - 1 + 1) with k' in * by lia. lia.
Qed.

(** The date of a day: its month is one of 1 to 12 and it is the day's
    place in that month. *)
Lemma civil_spec n :
  1 <= month_of_day n <= 12 /\
  month_start (month_index n) <= n < month_start (month_index n + 1) /\
  dom_of_day n = n - month_start (month_index n) + 1.
Proof.
  unfold month_index, year_of_day, month_of_day, dom_of_day, civil. cbv zeta. cbn [fst snd].
  set (e := n + epoch_days). pose proof (year_of_spec e) as Hy.
  rewrite year_days_succ in Hy. set (y := year_of e) in *.
  pose proof (leap_day_01 y). set (l := leap_day y) in *.
  destruct (month_of_doy_spec l (e - year_days y) ltac:(lia) ltac:(lia)) as (Hm & H1 & H2).
  set (m := month_of_doy l (e - year_days y)) in *.
  split; [done|].
  rewrite (month_start_year y (m - 1)) by lia. replace (m - 1 + 1) with m by lia. fold l.
  split; [|lia]. split; [lia|].
  destruct (Z.eq_dec m 12) as [E|].
  - rewrite E. replace (12 * y + (12 - 1) + 1) with (12 * y + 12) by lia.
    rewrite month_start_next_year. fold l. lia.
  - replace (12 * y + (m - 1) + 1) with (12 * y + m) by lia.
    rewrite (month_start_year y m) by lia. fold l. lia.
Qed.

Lemma month_of_day_range n : 1 <= month_of_day n <= 12.
Proof. apply civil_spec. Qed.

Lemma month_index_spec n : month_start (month_index n) <= n < month_start (month_index n + 1).
Proof. apply civil_spec. Qed.

Lemma dom_of_day_eq n : dom_of_day n = n - month_start (month_index n) + 1.
Proof. apply civil_spec. Qed.

Lemma dom_of_day_range n : 1 <= dom_of_day n <= 31.
Proof.
  rewrite dom_of_day_eq. pose proof (month_index_spec n).
  pose proof (month_start_succ (month_index n)). lia.
Qed.

(** The month a day lies in is the only one that contains it. *)
Lemma month_index_unique n k : month_start k <= n < month_start (k + 1) -> month_index n = k.
Proof.
  intros H. pose proof (month_index_spec n) as H'.
  destruct (Z.lt_trichotomy (month_index n) k) as [L|[->|L]]; [|done|].
  - pose proof (month_start_mono (month_index n + 1) k ltac:(lia)). lia.
  - pose proof (month_start_mono (k + 1) (month_index n) ltac:(lia)). lia.
Qed.

Lemma month_index_start k : month_index (month_start k) = k.
Proof. apply month_index_unique. pose proof (month_start_succ k). lia. Qed.

Lemma month_index_mono n n' : n <= n' -> month_index n <= month_index n'.
Proof.
  intros H. pose proof (month_index_spec n). pose proof (month_index_spec n').
  destruct (Z.le_gt_cases (month_index n) (month_index n')); [done|].
  pose proof (month_start_mono (month_index n' + 1) (month_index n) ltac:(lia)). lia.
Qed.

Lemma month_of_day_index n : month_of_day n = month_index n mod 12 + 1.
Proof. pose proof (month_of_day_range n). unfold month_index. dlia. Qed.

Lemma year_of_day_index n : year_of_day n = month_index n / 12.
Proof. pose proof (month_of_day_range n). unfold month_index. dlia. Qed.

(** Date and AddDate on a day of its own month. *)
Lemma days_of_date_self n : days_of_date (year_of_day n) (month_of_day n) (dom_of_day n) = n.
Proof.
  unfold days_of_date. rewrite dom_of_day_eq.
  change (12 * year_of_day n + (month_of_day n - 1)) with (month_index n). lia.
Qed.

(** ** Locations without transitions *)

Lemma offset_fixed o sec : offset_at (fixed_zone o) sec = o.
Proof. reflexivity. Qed.

Lemma Date_fixed o y m d h mi s ns :
  Date (fixed_zone o) y m d h mi s ns
  = (days_of_date y m d * 86400 + h * 3600 + mi * 60 + s - o) * Second + ns.
Proof.
  unfold Date, offset_at, lookup_zone, fixed_zone. cbn [lookup_tx loc_base loc_tx fst snd].
  destruct (_ || _); unfold Second; dlia.
Qed.
