(* ===== verification/CronSchedule.v ===== *)
(** jobs/internal/cron/spec.go and constantdelay.go: a cron schedule as bit
    sets, and the search for its next activation. *)

From Stdlib Require Import ZArith Lia List Ascii.
From stdpp Require Import base decidable list strings.
From S2P Require Import Prelude GoStrings GoTime.

(** ** Schedules *)

(** A [*time.Location] field: time.Local, which the code compares with by
    identity, or another location. *)
Inductive loc_ref := Local | Zone (l : location).

(** [SpecSchedule]: a 64-bit set per calendar field. *)
Record SpecSchedule := {
  s_Second : Z; s_Minute : Z; s_Hour : Z; s_Dom : Z; s_Month : Z; s_Dow : Z;
  s_Location : loc_ref;
}.

(** [bounds]: the range of a field, and the names of its values. *)
Record bounds := { b_min : Z; b_max : Z; b_names : list (gostring * Z) }.

Definition seconds : bounds := {| b_min := 0; b_max := 59; b_names := [] |}.
Definition minutes : bounds := {| b_min := 0; b_max := 59; b_names := [] |}.
Definition hours : bounds := {| b_min := 0; b_max := 23; b_names := [] |}.
Definition dom : bounds := {| b_min := 1; b_max := 31; b_names := [] |}.
Definition months : bounds := {| b_min := 1; b_max := 12; b_names :=
  [ (str "jan", 1); (str "feb", 2); (str "mar", 3); (str "apr", 4);
    (str "may", 5); (str "jun", 6); (str "jul", 7); (str "aug", 8);
    (str "sep", 9); (str "oct", 10); (str "nov", 11); (str "dec", 12) ] |}.
Definition dow : bounds := {| b_min := 0; b_max := 6; b_names :=
  [ (str "sun", 0); (str "mon", 1); (str "tue", 2); (str "wed", 3);
    (str "thu", 4); (str "fri", 5); (str "sat", 6) ] |}.

(** The bit that marks a star in the expression. *)
Definition starBit : Z := Z.shiftl 1 63.

(** [1<<uint(v)&set == 0] is [negb (bit set v)]. *)
Definition bit (set v : Z) : bool := negb (Z.land (uint64 (Z.shiftl 1 v)) set =? 0).

(** [dayMatches]: with a star in either day field both must match, without
    one it is enough that one does. *)
Definition dayMatches (s : SpecSchedule) (l : location) (t : Z) : bool :=
  let domMatch := Z.land (uint64 (Z.shiftl 1 (day l t))) (s_Dom s) >? 0 in
  let dowMatch := Z.land (uint64 (Z.shiftl 1 (weekday l t))) (s_Dow s) >? 0 in
  if (Z.land (s_Dom s) starBit >? 0) || (Z.land (s_Dow s) starBit >? 0)
  then domMatch && dowMatch
  else domMatch || dowMatch.

(** ** SpecSchedule.Next

    Each [for] loop of Next is a body for [iter_until] on the state
    ([added], [t]); a loop is left by [goto WRAP] or by falling through. *)

Inductive leave := Wrap (t : Z) | Through (added : bool) (t : Z).

Section next.
Context (s : SpecSchedule) (loc : location).

(** The month loop, lines 102 to 115. *)
Definition month_body (st : bool * Z) : (bool * Z) + leave :=
  let '(added, t) := st in
  if bit (s_Month s) (month loc t) then inr (Through added t)
  else
    let t := if added then t else Date loc (year loc t) (month loc t) 1 0 0 0 0 in
    let t := AddDate loc t 0 1 0 in
    if month loc t =? 1 then inr (Wrap t) else inl (true, t).

(** The day loop, with its correction of a midnight that daylight saving
    moves. *)
Definition day_body (st : bool * Z) : (bool * Z) + leave :=
  let '(added, t) := st in
  if dayMatches s loc t then inr (Through added t)
  else
    let t := if added then t
             else Date loc (year loc t) (month loc t) (day loc t) 0 0 0 0 in
    let t := AddDate loc t 0 0 1 in
    let t := if negb (hour loc t =? 0)
             then if hour loc t >? 12 then t + (24 - hour loc t) * Hour
                  else t + (- hour loc t) * Hour
             else t in
    if day loc t =? 1 then inr (Wrap t) else inl (true, t).

Definition hour_body (st : bool * Z) : (bool * Z) + leave :=
  let '(added, t) := st in
  if bit (s_Hour s) (hour loc t) then inr (Through added t)
  else
    let t := if added then t
             else Date loc (year loc t) (month loc t) (day loc t) (hour loc t) 0 0 0 in
    let t := t + Hour in
    if hour loc t =? 0 then inr (Wrap t) else inl (true, t).

Definition minute_body (st : bool * Z) : (bool * Z) + leave :=
  let '(added, t) := st in
  if bit (s_Minute s) (minute loc t) then inr (Through added t)
  else
    let t := if added then t else truncate t Minute in
    let t := t + Minute in
    if minute loc t =? 0 then inr (Wrap t) else inl (true, t).

Definition second_body (st : bool * Z) : (bool * Z) + leave :=
  let '(added, t) := st in
  if bit (s_Second s) (second loc t) then inr (Through added t)
  else
    let t := if added then t else truncate t Second in
    let t := t + Second in
    if second loc t =? 0 then inr (Wrap t) else inl (true, t).

(** The rounds a loop may take: 2^32 seconds are more than 130 years. *)
Definition budget : nat := 32.

(** The loops from [level] on, in the order of the code; [None] is a
    budget that ran out. *)
Fixpoint levels (bodies : list (bool * Z -> (bool * Z) + leave)) (st : bool * Z)
  : option leave :=
  match bodies with
  | [] => Some (Through st.1 st.2)
  | body :: rest =>
      match iter_until body budget st with
      | inl _ => None
      | inr (Wrap t) => Some (Wrap t)
      | inr (Through added t) => levels rest (added, t)
      end
  end.

(** One pass from the label WRAP: the year limit, then the five loops. *)
Definition wrap_body (yearLimit : Z) (st : bool * Z) : (bool * Z) + option Z :=
  if year loc st.2 >? yearLimit then inr (Some zero_time)
  else match levels [month_body; day_body; hour_body; minute_body; second_body] st with
       | None => inr None
       | Some (Wrap t) => inl (true, t)
       | Some (Through _ t) => inr (Some t)
       end.
End next.

(** The location the fields are read in: the schedule's own, or the time's
    for a schedule without one. *)
Definition next_zone (s : SpecSchedule) (tl : location) : location :=
  match s_Location s with Local => tl | Zone l => l end.

(** Next for a time [t] in the location [tl]; [None] when a budget runs out. *)
Definition Next (s : SpecSchedule) (tl : location) (t : Z) : option Z :=
  let loc := next_zone s tl in
  let t := t + (1 * Second - nanosecond t) in
  let yearLimit := year loc t + 5 in
  match iter_until (wrap_body s loc yearLimit) budget (false, t) with
  | inl _ => None
  | inr r => r
  end.

(** ** ConstantDelaySchedule *)

Record ConstantDelaySchedule := { Delay : Z }.

(** [Every]: at least a second, and without the part below a second. *)
Definition Every (duration : Z) : ConstantDelaySchedule :=
  let duration := if duration <? Second then Second else duration in
  {| Delay := duration - Z.rem duration Second |}.

Definition ConstantDelay_Next (sch : ConstantDelaySchedule) (t : Z) : Z :=
  t + (Delay sch - nanosecond t).

(** The [Schedule] interface: what the parser returns. *)
Inductive Schedule :=
| SSpec (s : SpecSchedule)
| SEvery (c : ConstantDelaySchedule).

Definition Schedule_Next (sch : Schedule) (tl : location) (t : Z) : option Z :=
  match sch with
  | SSpec s => Next s tl t
  | SEvery c => Some (ConstantDelay_Next c t)
  end.
