(* ===== verification/CronNext.v ===== *)
(** The search of [CronSchedule.Next] in locations without transitions whose
    offset is a whole number of minutes: it ends, and finds the earliest
    activation.

    The five loops work on the calendar units of one time line.  Each unit
    is a monotone function of the second, so "the start of the next unit" is
    one operation for every loop, and the loops share one proof. *)

From Stdlib Require Import ZArith Lia List.
From stdpp Require Import base decidable list.
From S2P Require Import Prelude GoTime CronSchedule.

(** ** Calendar units as levels *)

Inductive level := LYear | LMonth | LDay | LHour | LMinute | LSecond.

Definition rank (l : level) : nat :=
  match l with
  | LYear => 0 | LMonth => 1 | LDay => 2 | LHour => 3 | LMinute => 4 | LSecond => 5
  end.

(** The number of the unit the local second [x] lies in, and the second a
    unit starts with. *)
Definition unit_of (l : level) (x : Z) : Z :=
  match l with
  | LYear => month_index (x / 86400) / 12
  | LMonth => month_index (x / 86400)
  | LDay => x / 86400
  | LHour => x / 3600
  | LMinute => x / 60
  | LSecond => x
  end.

Definition start_of (l : level) (k : Z) : Z :=
  match l with
  | LYear => 86400 * month_start (12 * k)
  | LMonth => 86400 * month_start k
  | LDay => 86400 * k
  | LHour => 3600 * k
  | LMinute => 60 * k
  | LSecond => k
  end.

Definition aligned (l : level) (x : Z) : Prop := start_of l (unit_of l x) = x.
Definition bump (l : level) (x : Z) : Z := start_of l (unit_of l x + 1).

Lemma bump_eq l x : bump l x = start_of l (unit_of l x + 1).
Proof. reflexivity. Qed.

Lemma aligned_ex l x : aligned l x -> exists k, x = start_of l k.
Proof. unfold aligned. eauto. Qed.

Lemma month_start_le k n : month_start k <= n <-> k <= month_index n.
Proof.
  pose proof (month_index_spec n). split; intros H'.
  - destruct (Z.le_gt_cases k (month_index n)); [done|].
    pose proof (month_start_mono (month_index n + 1) k ltac:(lia)). lia.
  - pose proof (month_start_mono k (month_index n) H'). lia.
Qed.

(** [start_of] and [unit_of] are adjoint. *)
Lemma start_le l k x : start_of l k <= x <-> k <= unit_of l x.
Proof.
  destruct l; unfold start_of, unit_of.
  1: transitivity (month_start (12 * k) <= x / 86400); [dlia|]; rewrite month_start_le; dlia.
  1: transitivity (month_start k <= x / 86400); [dlia|]; by rewrite month_start_le.
  all: dlia.
Qed.

Lemma start_lt l k x : x < start_of l k <-> unit_of l x < k.
Proof. pose proof (start_le l k x). lia. Qed.

Lemma unit_start l k : unit_of l (start_of l k) = k.
Proof.
  assert (D : forall z, 86400 * z / 86400 = z) by (intros; dlia).
  destruct l; unfold unit_of, start_of; rewrite ?D, ?month_index_start; dlia.
Qed.

Lemma unit_mono l x y : x <= y -> unit_of l x <= unit_of l y.
Proof. intros. apply start_le. etransitivity; [by apply start_le|done]. Qed.

Lemma start_mono l j k : j <= k -> start_of l j <= start_of l k.
Proof. intros. apply start_le. by rewrite unit_start. Qed.

Lemma start_unit_le l x : start_of l (unit_of l x) <= x.
Proof. by apply start_le. Qed.

Lemma bump_gt l x : x < bump l x.
Proof. apply start_lt. lia. Qed.

(** Between [x] and the start of the next unit lies [x]'s unit. *)
Lemma unit_before_bump l x y : x <= y < bump l x -> unit_of l y = unit_of l x.
Proof.
  intros [H1 H2]. apply start_lt in H2. pose proof (unit_mono l x y H1). lia.
Qed.

(** The start of a unit is the start of units of every finer level. *)
Lemma aligned_start l f k : (rank l <= rank f)%nat -> aligned f (start_of l k).
Proof.
  unfold aligned. intros H.
  assert (D : forall z, 86400 * z / 86400 = z) by (intros; dlia).
  destruct l, f; cbn [rank] in H; try lia; rewrite ?unit_start; try reflexivity;
    unfold unit_of, start_of; rewrite ?D, ?month_index_start; try reflexivity; dlia.
Qed.

Lemma aligned_finer l f x : (rank l <= rank f)%nat -> aligned l x -> aligned f x.
Proof. intros H E. rewrite <- E. by apply aligned_start. Qed.

Lemma bump_aligned l f x : (rank l <= rank f)%nat -> aligned f (bump l x).
Proof. apply aligned_start. Qed.

(** Going to the next unit of a level stays in the coarser unit or reaches
    the start of the next. *)
Lemma bump_coarser l k x :
  (rank k <= rank l)%nat -> unit_of k (bump l x) = unit_of k x \/ aligned k (bump l x).
Proof.
  intros Hr. destruct (Z.eq_dec (unit_of k (bump l x)) (unit_of k x)) as [|Hne]; [by left|].
  right. unfold aligned. set (u := unit_of k (bump l x)) in *.
  pose proof (unit_mono k x (bump l x) ltac:(pose proof (bump_gt l x); lia)).
  pose proof (start_unit_le k (bump l x)) as Hle. fold u in Hle.
  assert (Hx : x < start_of k u) by (apply start_lt; lia).
  assert (bump l x <= start_of k u); [|lia].
  pose proof (aligned_start k l u Hr) as Ha. unfold aligned in Ha. rewrite <- Ha.
  apply start_mono. assert (unit_of l x < unit_of l (start_of k u)); [|lia].
  apply start_lt. by rewrite Ha.
Qed.

Lemma bump_le_start l k x u :
  (rank k <= rank l)%nat -> unit_of k x < u -> bump l x <= start_of k u.
Proof.
  intros Hr Hu. apply start_lt in Hu.
  rewrite <- (aligned_start k l u Hr). apply start_mono.
  assert (unit_of l x < unit_of l (start_of k u)); [|lia].
  apply start_lt. by rewrite (aligned_start k l u Hr).
Qed.

(** ** The time line of a fixed zone *)

Section fixed_zone.
Context (o : Z).
#[local] Abbreviation loc := (fixed_zone o).

(** The instant at the local second [x]. *)
Definition instant (x : Z) : Z := (x - o) * Second.

Lemma unix_instant x : unix (instant x) = x - o.
Proof. unfold unix, instant, Second. dlia. Qed.

Lemma nanosecond_instant x : nanosecond (instant x) = 0.
Proof. unfold nanosecond, instant, Second. dlia. Qed.

Lemma local_second_instant x : local_second loc (instant x) = x.
Proof. unfold local_second. rewrite unix_instant, offset_fixed. lia. Qed.

Lemma local_day_instant x : local_day loc (instant x) = unit_of LDay x.
Proof. unfold local_day. by rewrite local_second_instant. Qed.

Lemma instant_second u : nanosecond u = 0 -> u = instant (unix u + o).
Proof. unfold nanosecond, instant, unix, Second. dlia. Qed.

(** [Date] at the start of a minute-aligned unit, and [AddDate]. *)
Lemma Date_start y m d h :
  Date loc y m d h 0 0 0 = instant (days_of_date y m d * 86400 + h * 3600).
Proof. rewrite Date_fixed. unfold instant, Second. lia. Qed.

Lemma reset_month x :
  Date loc (year loc (instant x)) (month loc (instant x)) 1 0 0 0 0
  = instant (start_of LMonth (unit_of LMonth x)).
Proof.
  rewrite Date_start. unfold year, month. rewrite local_day_instant. f_equal.
  unfold days_of_date.
  change (12 * year_of_day ?n + (month_of_day ?n - 1)) with (month_index n).
  unfold start_of, unit_of. lia.
Qed.

Lemma reset_day x :
  Date loc (year loc (instant x)) (month loc (instant x)) (day loc (instant x)) 0 0 0 0
  = instant (start_of LDay (unit_of LDay x)).
Proof.
  rewrite Date_start. unfold year, month, day. rewrite local_day_instant, days_of_date_self.
  unfold start_of, unit_of. f_equal. lia.
Qed.

Lemma hour_instant x : hour loc (instant x) = unit_of LHour x mod 24.
Proof. unfold hour. rewrite local_second_instant. unfold unit_of. dlia. Qed.

Lemma minute_instant x : minute loc (instant x) = unit_of LMinute x mod 60.
Proof. unfold minute. rewrite local_second_instant. unfold unit_of. dlia. Qed.

Lemma second_instant x : second loc (instant x) = unit_of LSecond x mod 60.
Proof. unfold second. rewrite local_second_instant. done. Qed.

Lemma month_instant x : month loc (instant x) = unit_of LMonth x mod 12 + 1.
Proof. unfold month. rewrite local_day_instant. apply month_of_day_index. Qed.

Lemma year_instant x : year loc (instant x) = unit_of LYear x.
Proof. unfold year. rewrite local_day_instant. apply year_of_day_index. Qed.

Lemma day_instant x : day loc (instant x) = dom_of_day (unit_of LDay x).
Proof. unfold day. by rewrite local_day_instant. Qed.

Lemma weekday_instant x : weekday loc (instant x) = (unit_of LDay x + 4) mod 7.
Proof. unfold weekday. by rewrite local_day_instant. Qed.

Lemma reset_hour x :
  Date loc (year loc (instant x)) (month loc (instant x)) (day loc (instant x))
    (hour loc (instant x)) 0 0 0 = instant (start_of LHour (unit_of LHour x)).
Proof.
  rewrite Date_start, hour_instant. unfold year, month, day.
  rewrite local_day_instant, days_of_date_self. f_equal.
  unfold start_of, unit_of. dlia.
Qed.

Lemma reset_minute x : o mod 60 = 0 ->
  truncate (instant x) Minute = instant (start_of LMinute (unit_of LMinute x)).
Proof.
  intros Ho. unfold truncate, Minute. replace (60 * Second <=? 0) with false by reflexivity.
  unfold instant, zero_time, start_of, unit_of, Second.
  replace ((x - o) * 1000000000 - -62135596800 * 1000000000)
    with ((x - o + 62135596800) * 1000000000) by lia.
  rewrite (Z.mul_mod_distr_r (x - o + 62135596800) 60 1000000000) by lia. dlia.
Qed.

Lemma reset_second x : truncate (instant x) Second = instant x.
Proof.
  unfold truncate. replace (Second <=? 0) with false by reflexivity.
  unfold instant, zero_time.
  replace ((x - o) * Second - -62135596800 * Second)
    with ((x - o + 62135596800) * Second) by lia.
  rewrite Z.mod_mul by (unfold Second; lia). lia.
Qed.

Lemma add_month k :
  AddDate loc (instant (start_of LMonth k)) 0 1 0 = instant (start_of LMonth (k + 1)).
Proof.
  unfold AddDate. rewrite year_instant, month_instant, day_instant, hour_instant,
    minute_instant, second_instant, nanosecond_instant.
  rewrite Date_fixed. unfold instant. rewrite Z.add_0_r.
  replace (unit_of LMonth (start_of LMonth k)) with k by (by rewrite unit_start).
  replace (unit_of LYear (start_of LMonth k)) with (k / 12).
  2: { unfold unit_of, start_of. replace (86400 * month_start k / 86400) with (month_start k) by dlia.
       by rewrite month_index_start. }
  replace (unit_of LDay (start_of LMonth k)) with (month_start k).
  2: { unfold unit_of, start_of. dlia. }
  rewrite dom_of_day_eq, month_index_start.
  unfold days_of_date. unfold unit_of, start_of.
  replace (12 * (k / 12 + 0) + (k mod 12 + 1 + 1 - 1)) with (k + 1) by dlia.
  f_equal. dlia.
Qed.

Lemma add_day k :
  AddDate loc (instant (start_of LDay k)) 0 0 1 = instant (start_of LDay (k + 1)).
Proof.
  unfold AddDate, year, month, day. rewrite local_day_instant, hour_instant,
    minute_instant, second_instant, nanosecond_instant, unit_start.
  rewrite Date_fixed. unfold instant. rewrite !Z.add_0_r.
  replace (days_of_date (year_of_day k) (month_of_day k) (dom_of_day k + 1)) with (k + 1).
  2: { pose proof (days_of_date_self k). unfold days_of_date in *. lia. }
  unfold unit_of, start_of. f_equal. dlia.
Qed.
End fixed_zone.

(** ** What an activation is *)

(** The day rule of cron: a day of the month and a day of the week that are both
    in their sets; where neither field is a star, which is bit 63 of its set,
    one of the two is enough. *)
Definition on_day (s : SpecSchedule) (l : location) (t : Z) : bool :=
  let dom := bit (s_Dom s) (day l t) in
  let dow := bit (s_Dow s) (weekday l t) in
  dom && dow || negb (bit (s_Dom s) 63) && negb (bit (s_Dow s) 63) && (dom || dow).

Lemma land_bit set v : (Z.land (uint64 (Z.shiftl 1 v)) set >? 0) = bit set v.
Proof.
  unfold bit. assert (0 <= Z.land (uint64 (Z.shiftl 1 v)) set).
  { apply Z.land_nonneg. left. unfold uint64. apply Z.mod_pos_bound. lia. }
  destruct (Z.gtb_spec (Z.land (uint64 (Z.shiftl 1 v)) set) 0), (Z.eqb_spec (Z.land (uint64 (Z.shiftl 1 v)) set) 0); cbn; lia || done.
Qed.

Lemma dayMatches_rule s l t : dayMatches s l t = on_day s l t.
Proof.
  unfold dayMatches, on_day. rewrite !land_bit. rewrite !(Z.land_comm _ starBit). change starBit with (uint64 (Z.shiftl 1 63)). rewrite !land_bit.
  by destruct (bit (s_Dom s) 63), (bit (s_Dow s) 63), (bit (s_Dom s) (day l t)), (bit (s_Dow s) (weekday l t)).
Qed.

(** The instant [t] is on a whole second and every field of it is in the
    schedule's sets. *)
Definition Matches (s : SpecSchedule) (l : location) (t : Z) : bool :=
  (nanosecond t =? 0) && bit (s_Month s) (month l t) && on_day s l t
  && bit (s_Hour s) (hour l t) && bit (s_Minute s) (minute l t) && bit (s_Second s) (second l t).

Section search.
Context (s : SpecSchedule) (o limit first : Z).
#[local] Abbreviation loc := (fixed_zone o).
#[local] Abbreviation T := (instant o).

Definition day_ok (n : Z) : bool := dayMatches s UTC (instant 0 (start_of LDay n)).

(** The schedule at one level: a property of the unit alone. *)
Definition ok (l : level) (x : Z) : bool :=
  let u := unit_of l x in
  match l with
  | LYear => u <=? limit
  | LMonth => bit (s_Month s) (u mod 12 + 1)
  | LDay => day_ok u
  | LHour => bit (s_Hour s) (u mod 24)
  | LMinute => bit (s_Minute s) (u mod 60)
  | LSecond => bit (s_Second s) (u mod 60)
  end.

Lemma ok_unit l x y : unit_of l x = unit_of l y -> ok l x = ok l y.
Proof. unfold ok. by intros ->. Qed.

Lemma dayMatches_instant x : dayMatches s loc (T x) = day_ok (unit_of LDay x).
Proof.
  unfold day_ok, dayMatches. rewrite day_instant, weekday_instant.
  change UTC with (fixed_zone 0). by rewrite day_instant, weekday_instant, unit_start.
Qed.

Lemma Matches_instant x :
  Matches s loc (T x)
  = ok LMonth x && ok LDay x && ok LHour x && ok LMinute x && ok LSecond x.
Proof.
  unfold Matches. rewrite <- dayMatches_rule, nanosecond_instant, month_instant, dayMatches_instant,
    hour_instant, minute_instant, second_instant. done.
Qed.

(** Every level accepts [x]: it is an activation within the year limit. *)
Definition hit (x : Z) : Prop := forall l, ok l x = true.

Lemma hit_Matches x : hit x <-> Matches s loc (T x) = true /\ year loc (T x) <= limit.
Proof.
  rewrite Matches_instant, year_instant, !andb_true_iff. unfold hit. split.
  - intros H. split; [by rewrite !H|]. specialize (H LYear). unfold ok in H. lia.
  - intros [[[[[]]]]] []; try done. unfold ok. by apply Z.leb_le.
Qed.

(** ** The invariant of the search

    Between [first] and the position nothing is an activation; once a
    field has been incremented, every level the position does not satisfy
    starts at the position. *)
Record inv (added : bool) (x : Z) : Prop := {
  inv_first : first <= x;
  inv_bound : x <= start_of LYear (limit + 1);
  inv_none : forall u, first <= u < x -> ~ hit u;
  inv_aligned : added = true -> forall l, (1 <= rank l)%nat -> ok l x = true \/ aligned l x;
}.

Definition coarser_ok (l : level) (x : Z) : Prop :=
  forall k, (rank k < rank l)%nat -> ok k x = true.

Lemma inv_bump added l x :
  inv added x -> coarser_ok l x -> (1 <= rank l)%nat -> ok l x = false ->
  inv true (bump l x).
Proof.
  intros [H1 H2 H3 H4] Hc Hl Hn. pose proof (bump_gt l x). split.
  - lia.
  - apply bump_le_start; [simpl; lia|]. specialize (Hc LYear ltac:(simpl; lia)).
    unfold ok in Hc. lia.
  - intros u Hu Hhit. destruct (Z.lt_ge_cases u x) as [Hx|Hx]; [by apply (H3 u); [lia|]|].
    specialize (Hhit l). rewrite (ok_unit l u x) in Hhit; [congruence|].
    apply unit_before_bump. lia.
  - intros _ k Hk. destruct (Nat.le_gt_cases (rank l) (rank k)) as [Hr|Hr].
    + right. by apply bump_aligned.
    + destruct (bump_coarser l k x ltac:(lia)) as [E|E]; [left|by right].
      rewrite (ok_unit k _ _ E). by apply Hc.
Qed.

(** ** One loop

    A loop at level [l], left by [goto WRAP] when its increment reaches a
    new unit of [p], the level above it. *)
Definition step_spec (l p : level) (body : bool * Z -> (bool * Z) + leave) : Prop :=
  forall added x, (added = true -> ok l x = false -> aligned l x) ->
    if ok l x then body (added, T x) = inr (Through added (T x))
    else exists wrap : bool, (aligned p (bump l x) -> wrap = true) /\
         body (added, T x) = if wrap then inr (Wrap (T (bump l x)))
                             else inl (true, T (bump l x)).

Definition loop_result (l : level) (x : Z) (r : leave) : Prop :=
  match r with
  | Wrap t => exists x', t = T x' /\ x < x' /\ inv true x'
  | Through added t => exists x', t = T x' /\ x <= x' /\ inv added x' /\
      forall k, (rank k <= rank l)%nat -> ok k x' = true
  end.

Lemma loop_spec l p body x added :
  rank l = S (rank p) -> step_spec l p body ->
  start_of LYear (limit + 1) - first < 2 ^ 32 ->
  inv added x -> coarser_ok l x ->
  exists r, iter_until body budget (added, T x) = inr r /\ loop_result l x r.
Proof.
  intros Hr Hstep Hbound Hinv Hc.
  set (st_inv := fun st : bool * Z => exists y, st.2 = T y /\ x <= y /\ inv st.1 y /\ coarser_ok l y).
  set (m := fun st : bool * Z => start_of LYear (limit + 1) - (unix st.2 + o)).
  assert (Em : forall a y, m (a, T y) = start_of LYear (limit + 1) - y)
    by (intros; unfold m; cbn [snd]; rewrite unix_instant; lia).
  apply (iter_until_terminates body st_inv m).
  - intros [a t] (y & Hy & Hxy & Iy & Cy). cbn [fst snd] in *. subst t.
    specialize (Hstep a y (fun Ha Hn => ltac:(destruct (inv_aligned _ _ Iy Ha l ltac:(lia)); [congruence|done]))).
    pose proof (bump_gt l y). destruct (ok l y) eqn:Eok.
    + rewrite Hstep. exists y. split_and!; try done.
      intros k Hk. destruct (decide (rank k < rank l)%nat) as [|Hge]; [by apply Cy|].
      assert (k = l) as -> by (destruct k, l; simpl in *; lia || done). done.
    + pose proof (inv_bump a l y Iy Cy ltac:(lia) Eok) as Ib.
      destruct Hstep as ([|] & Hw & ->).
      * exists (bump l y). split_and!; [done|lia|done].
      * rewrite !Em. split; [|pose proof (inv_bound _ _ Ib); lia].
        exists (bump l y). cbn [fst snd]. split_and!; [done|lia|done|].
        intros k Hk. destruct (bump_coarser l p y ltac:(lia)) as [E|E].
        2: { by apply Hw in E. }
        rewrite (ok_unit k (bump l y) y); [by apply Cy|].
        destruct (bump_coarser l k y ltac:(lia)) as [?|Ak]; [done|].
        apply (aligned_finer k p) in Ak; [|lia]. by apply Hw in Ak.
  - exists x. by split_and!.
  - rewrite Em. pose proof (inv_first _ _ Hinv). unfold budget. simpl Z.of_nat. lia.
Qed.

(** ** The five loops of Next *)

(** The position a loop increments from is the start of its unit, whether
    the reset put it there or an earlier increment did. *)
Lemma reset_or_aligned (added : bool) l x (t : Z) :
  (added = true -> aligned l x) -> t = T (start_of l (unit_of l x)) ->
  (if added then T x else t) = T (start_of l (unit_of l x)).
Proof. intros Ha ->. destruct added; [|done]. by rewrite Ha. Qed.

Lemma month_step : step_spec LMonth LYear (month_body s loc).
Proof.
  intros added x Ha. unfold month_body. 
  replace (bit (s_Month s) (month loc (T x))) with (ok LMonth x) by (by rewrite month_instant).
  destruct (ok LMonth x) eqn:E; [done|].
  rewrite (reset_or_aligned added LMonth x); [|auto|apply reset_month].
  rewrite add_month, <- bump_eq.
  exists (month loc (T (bump LMonth x)) =? 1). split; [|by destruct (_ =? 1)].
  intros (k & ->)%aligned_ex. rewrite month_instant.
  change (start_of LYear k) with (start_of LMonth (12 * k)).
  rewrite unit_start. apply Z.eqb_eq. dlia.
Qed.

Lemma day_step : step_spec LDay LMonth (day_body s loc).
Proof.
  intros added x Ha. unfold day_body. rewrite dayMatches_instant.
  change (day_ok (unit_of LDay x)) with (ok LDay x).
  destruct (ok LDay x) eqn:E; [done|].
  rewrite (reset_or_aligned added LDay x); [|auto|apply reset_day].
  rewrite add_day, <- bump_eq.
  replace (hour loc (T (bump LDay x))) with 0
    by (rewrite hour_instant; unfold bump, start_of, unit_of; dlia).
  cbn [Z.eqb negb].
  exists (day loc (T (bump LDay x)) =? 1). split; [|by destruct (_ =? 1)].
  intros (k & ->)%aligned_ex. rewrite day_instant.
  change (start_of LMonth k) with (start_of LDay (month_start k)).
  rewrite unit_start, dom_of_day_eq, month_index_start. apply Z.eqb_eq. lia.
Qed.

Lemma hour_step : step_spec LHour LDay (hour_body s loc).
Proof.
  intros added x Ha. unfold hour_body. 
  replace (bit (s_Hour s) (hour loc (T x))) with (ok LHour x) by (by rewrite hour_instant).
  destruct (ok LHour x) eqn:E; [done|].
  rewrite (reset_or_aligned added LHour x); [|auto|apply reset_hour].
  replace (T (start_of LHour (unit_of LHour x)) + Hour) with (T (bump LHour x))
    by (unfold bump, start_of, instant, Hour, Minute, Second; lia).
  exists (hour loc (T (bump LHour x)) =? 0). split; [|by destruct (_ =? 0)].
  intros (k & ->)%aligned_ex. rewrite hour_instant. apply Z.eqb_eq. unfold start_of, unit_of. dlia.
Qed.

Lemma minute_step : o mod 60 = 0 -> step_spec LMinute LHour (minute_body s loc).
Proof.
  intros Ho added x Ha. unfold minute_body. 
  replace (bit (s_Minute s) (minute loc (T x))) with (ok LMinute x) by (by rewrite minute_instant).
  destruct (ok LMinute x) eqn:E; [done|].
  rewrite (reset_or_aligned added LMinute x); [|auto|by apply reset_minute].
  replace (T (start_of LMinute (unit_of LMinute x)) + Minute) with (T (bump LMinute x))
    by (unfold bump, start_of, instant, Minute, Second; lia).
  exists (minute loc (T (bump LMinute x)) =? 0). split; [|by destruct (_ =? 0)].
  intros (k & ->)%aligned_ex. rewrite minute_instant. apply Z.eqb_eq. unfold start_of, unit_of. dlia.
Qed.

Lemma second_step : step_spec LSecond LMinute (second_body s loc).
Proof.
  intros added x Ha. unfold second_body. 
  replace (bit (s_Second s) (second loc (T x))) with (ok LSecond x) by (by rewrite second_instant).
  destruct (ok LSecond x) eqn:E; [done|].
  rewrite (reset_or_aligned added LSecond x); [|auto|apply reset_second].
  replace (T (start_of LSecond (unit_of LSecond x)) + Second) with (T (bump LSecond x))
    by (unfold bump, start_of, unit_of, instant, Second; lia).
  exists (second loc (T (bump LSecond x)) =? 0). split; [|by destruct (_ =? 0)].
  intros (k & ->)%aligned_ex. rewrite second_instant. apply Z.eqb_eq. unfold start_of, unit_of. dlia.
Qed.

(** ** A pass over the loops, and the whole search *)

Lemma levels_cons body rest l p x added (Q : leave -> Prop) :
  rank l = S (rank p) -> step_spec l p body ->
  start_of LYear (limit + 1) - first < 2 ^ 32 ->
  inv added x -> coarser_ok l x ->
  (forall x', x < x' -> inv true x' -> Q (Wrap (T x'))) ->
  (forall a x', x <= x' -> inv a x' -> (forall k, (rank k <= rank l)%nat -> ok k x' = true) ->
     exists r, levels rest (a, T x') = Some r /\ Q r) ->
  exists r, levels (body :: rest) (added, T x) = Some r /\ Q r.
Proof.
  intros Hr Hs Hb Hi Hc HW HT.
  destruct (loop_spec l p body x added Hr Hs Hb Hi Hc) as (r & E & Hres).
  cbn [levels]. rewrite E. destruct r as [t|a t]; destruct Hres as (x' & -> & Hres).
  - destruct Hres. exists (Wrap (T x')). split; [done|]. by apply HW.
  - destruct Hres as (? & ? & ?). by apply HT.
Qed.

Definition pass_result (x : Z) (r : leave) : Prop :=
  match r with
  | Wrap t => exists x', t = T x' /\ x < x' /\ inv true x'
  | Through _ t => exists x' a, t = T x' /\ inv a x' /\ hit x'
  end.

Lemma pass_spec added x :
  o mod 60 = 0 -> start_of LYear (limit + 1) - first < 2 ^ 32 ->
  inv added x -> ok LYear x = true ->
  exists r, levels [month_body s loc; day_body s loc; hour_body s loc; minute_body s loc;
                    second_body s loc] (added, T x) = Some r /\ pass_result x r.
Proof.
  intros Ho Hb Hi Hy.
  assert (HW : forall y, x <= y -> forall x', y < x' -> inv true x' -> pass_result x (Wrap (T x')))
    by (intros; exists x'; split_and!; [done|lia|done]).
  assert (Hc : forall l k y, rank k = S (rank l) ->
    (forall k, (rank k <= rank l)%nat -> ok k y = true) -> coarser_ok k y)
    by (intros l k y Hk Hle j Hj; apply Hle; lia).
  refine (levels_cons _ _ LMonth LYear _ _ _ eq_refl month_step Hb Hi _ (HW x _) _); [|lia|].
  { intros [] Hk; simpl in Hk; try lia. done. }
  intros a1 x1 L1 I1 O1.
  refine (levels_cons _ _ LDay LMonth _ _ _ eq_refl day_step Hb I1 _ (HW x1 _) _);
    [by apply (Hc LMonth)|lia|].
  intros a2 x2 L2 I2 O2.
  refine (levels_cons _ _ LHour LDay _ _ _ eq_refl hour_step Hb I2 _ (HW x2 _) _);
    [by apply (Hc LDay)|lia|].
  intros a3 x3 L3 I3 O3.
  refine (levels_cons _ _ LMinute LHour _ _ _ eq_refl (minute_step Ho) Hb I3 _ (HW x3 _) _);
    [by apply (Hc LHour)|lia|].
  intros a4 x4 L4 I4 O4.
  refine (levels_cons _ _ LSecond LMinute _ _ _ eq_refl second_step Hb I4 _ (HW x4 _) _);
    [by apply (Hc LMinute)|lia|].
  intros a5 x5 L5 I5 O5. eexists. split; [done|]. exists x5, a5. split_and!; try done.
  intros l. apply O5. destruct l; simpl; lia.
Qed.

Definition search_result (r : option Z) : Prop :=
  exists t, r = Some t /\
  ((t = zero_time /\ forall u, first <= u -> ~ hit u) \/
   (exists x, t = T x /\ first <= x /\ hit x /\ forall u, first <= u < x -> ~ hit u)).

Lemma search_spec :
  o mod 60 = 0 -> start_of LYear (limit + 1) - first < 2 ^ 32 -> ok LYear first = true ->
  exists r, iter_until (wrap_body s loc limit) budget (false, T first) = inr r /\ search_result r.
Proof.
  intros Ho Hb Hy.
  set (st_inv := fun st : bool * Z => exists y, st.2 = T y /\ inv st.1 y).
  set (m := fun st : bool * Z => start_of LYear (limit + 1) - (unix st.2 + o)).
  assert (Em : forall a y, m (a, T y) = start_of LYear (limit + 1) - y)
    by (intros; unfold m; cbn [snd]; rewrite unix_instant; lia).
  apply (iter_until_terminates _ st_inv m).
  - intros [a t] (y & Hty & Iy). cbn [fst snd] in *. subst t.
    unfold wrap_body. cbn [snd]. rewrite year_instant.
    destruct (Z.gtb_spec (unit_of LYear y) limit) as [Hgt|Hle].
    + exists zero_time. split; [done|]. left. split; [done|]. intros u Hu Hhit.
      destruct (Z.lt_ge_cases u y); [by apply (inv_none _ _ Iy u)|].
      specialize (Hhit LYear). unfold ok in Hhit. pose proof (unit_mono LYear y u). lia.
    + destruct (pass_spec a y Ho Hb Iy) as (r & -> & Hr); [unfold ok; lia|].
      destruct r as [t|b t]; [destruct Hr as (x' & -> & Hlt & I')|destruct Hr as (x' & b' & -> & I' & Hh)].
      * rewrite !Em. split; [by exists x'|]. pose proof (inv_bound _ _ I'). lia.
      * eexists. split; [done|]. right. exists x'. split_and!; try done.
        { apply (inv_first _ _ I'). } { apply (inv_none _ _ I'). }
  - exists first. split; [done|]. split.
    + lia.
    + apply Z.lt_le_incl, start_lt. unfold ok in Hy. lia.
    + lia.
    + done.
  - rewrite Em. unfold budget. simpl Z.of_nat. lia.
Qed.
End search.

(** ** Next *)

Lemma month_start_add k (n : nat) : month_start (k + Z.of_nat n) <= month_start k + 31 * Z.of_nat n.
Proof.
  induction n as [|n IH]; [rewrite Z.add_0_r; lia|].
  pose proof (month_start_succ (k + Z.of_nat n)).
  replace (k + Z.of_nat (S n)) with (k + Z.of_nat n + 1) by lia. lia.
Qed.

(** Six years are within the loops' budget. *)
Lemma six_years x : start_of LYear (unit_of LYear x + 5 + 1) - x < 2 ^ 32.
Proof.
  pose proof (start_unit_le LYear x) as H. unfold start_of in *.
  pose proof (month_start_add (12 * unit_of LYear x) 72) as H'.
  replace (12 * (unit_of LYear x + 5 + 1)) with (12 * unit_of LYear x + Z.of_nat 72) by lia.
  lia.
Qed.

(** The first whole second after [t], where the search starts. *)
Definition next_second (t : Z) : Z := t + (Second - nanosecond t).

Lemma next_second_instant o t : next_second t = instant o (unix t + 1 + o).
Proof. unfold next_second, instant, nanosecond, unix, Second. dlia. Qed.

(** The whole seconds after [t]. *)
Lemma after_second o t u :
  nanosecond u = 0 -> (t < u <-> unix t + 1 + o <= unix u + o).
Proof. unfold nanosecond, unix, Second. intros. dlia. Qed.

Lemma Next_search s tl o t :
  next_zone s tl = fixed_zone o -> o mod 60 = 0 ->
  exists r, Next s tl t = r /\
    search_result s o (year (fixed_zone o) (next_second t) + 5) (unix t + 1 + o) r.
Proof.
  intros Hz Ho. unfold Next. rewrite Hz. cbv zeta. rewrite Z.mul_1_l.
  change (t + (Second - nanosecond t)) with (next_second t).
  rewrite (next_second_instant o), year_instant.
  set (x := unix t + 1 + o).
  destruct (search_spec s o (unit_of LYear x + 5) x Ho (six_years x)) as (r & -> & Hr).
  { unfold ok. lia. }
  eauto.
Qed.

Lemma Matches_nanosecond s l u : Matches s l u = true -> nanosecond u = 0.
Proof. unfold Matches. rewrite !andb_true_iff. intros [[[[[H%Z.eqb_eq]]]]]. done. Qed.

(** [C18] Next is total and returns the earliest activation.  For every
    schedule read in a location without transitions (UTC, or any fixed zone
    of whole minutes), Next ends within its loops' budgets; it returns the
    zero time exactly when no instant after [t] up to the end of the fifth
    year matches the schedule, and otherwise an instant that matches every
    field, lies after [t], and has no matching instant between. *)
Theorem Next_earliest (s : SpecSchedule) (tl : location) (o t : Z)
  (Hz : next_zone s tl = fixed_zone o) (Ho : o mod 60 = 0) :
  exists r, Next s tl t = Some r /\
    let limit := year (fixed_zone o) (next_second t) + 5 in
    ((r = zero_time /\
      forall u, t < u -> year (fixed_zone o) u <= limit -> Matches s (fixed_zone o) u = false)
     \/
     (t < r /\ Matches s (fixed_zone o) r = true /\ year (fixed_zone o) r <= limit /\
      forall u, t < u < r -> Matches s (fixed_zone o) u = false)).
Proof.
  destruct (Next_search s tl o t Hz Ho) as (r' & E & r & -> & H).
  exists r. split; [done|]. cbv zeta.
  set (limit := year (fixed_zone o) (next_second t) + 5) in *.
  assert (Hit : forall u, t < u -> Matches s (fixed_zone o) u = true ->
    year (fixed_zone o) u <= limit -> exists x, u = instant o x /\ unix t + 1 + o <= x /\ hit s limit x).
  { intros u Htu Hm Hy. pose proof (Matches_nanosecond _ _ _ Hm) as Hn.
    exists (unix u + o). rewrite (instant_second o u Hn) in Hm, Hy.
    split; [by apply instant_second|]. split; [by apply (after_second o)|].
    by apply (hit_Matches s o limit). }
  destruct H as [[-> H]|(x & -> & Hx & Hh & Hmin)].
  - left. split; [done|]. intros u Hu Hy. apply not_true_is_false. intros Hm.
    destruct (Hit u Hu Hm Hy) as (x & -> & Hx & Hh). by apply (H x).
  - right. destruct (proj1 (hit_Matches s o limit x) Hh) as [Hm Hy].
    split_and!; try done.
    + apply (after_second o); [apply nanosecond_instant|]. rewrite unix_instant. lia.
    + intros u Hu. apply not_true_is_false. intros Hm'.
      assert (year (fixed_zone o) u <= limit) as Hy'.
      { rewrite (instant_second o u (Matches_nanosecond _ _ _ Hm')), year_instant in *.
        etransitivity; [|apply Hy]. apply unit_mono. unfold instant, unix, Second in *. dlia. }
      destruct (Hit u ltac:(lia) Hm' Hy') as (y & -> & Hy1 & Hh').
      apply (Hmin y); [|done]. unfold instant, Second in Hu. lia.
Qed.

(** A yearly schedule after 2023-11-14 22:13:20.5 UTC. *)
Definition yearly_utc : SpecSchedule :=
  {| s_Second := 1; s_Minute := 1; s_Hour := 1; s_Dom := 2; s_Month := 2;
     s_Dow := 127 + starBit; s_Location := Zone UTC |}.

Lemma Next_earliest_witness :
  next_zone yearly_utc UTC = fixed_zone 0 /\ Next yearly_utc UTC 1700000000500000000 = Some 1704067200000000000.
Proof.
  split; [reflexivity|].
  destruct (Next_earliest yearly_utc UTC 0 1700000000500000000 eq_refl eq_refl) as (r & E & _).
  rewrite E. vm_compute in E. by rewrite <- E.
Defined.

(** ** Schedules that always fire *)

(** The sets name some value of each field, and some day that every month
    has: a day of month up to the 28th with every weekday allowed, or a
    weekday with every day of month allowed. *)
Record possible (s : SpecSchedule) (m d w h mi se : Z) : Prop := {
  pos_month : 1 <= m <= 12 /\ bit (s_Month s) m = true;
  pos_hour : 0 <= h < 24 /\ bit (s_Hour s) h = true;
  pos_minute : 0 <= mi < 60 /\ bit (s_Minute s) mi = true;
  pos_second : 0 <= se < 60 /\ bit (s_Second s) se = true;
  pos_day : 1 <= d <= 28 /\ bit (s_Dom s) d = true;
  pos_weekday : 0 <= w < 7 /\ bit (s_Dow s) w = true;
  pos_full : (forall w', 0 <= w' < 7 -> bit (s_Dow s) w' = true) \/
             (forall d', 1 <= d' <= 31 -> bit (s_Dom s) d' = true);
}.

(** In every month there is a day whose day of month and weekday are both in
    the sets. *)
Lemma possible_day s m d w h mi se k :
  possible s m d w h mi se -> 0 <= s_Dom s -> 0 <= s_Dow s ->
  exists n, month_start k <= n < month_start (k + 1) /\ day_ok s n = true.
Proof.
  intros P Hdom Hdow. pose proof (month_start_succ k) as Hk.
  destruct (pos_day _ _ _ _ _ _ _ P) as [Hd Bd], (pos_weekday _ _ _ _ _ _ _ P) as [Hw Bw].
  assert (Hn : exists n, month_start k <= n < month_start (k + 1)
     /\ bit (s_Dom s) (dom_of_day n) = true /\ bit (s_Dow s) ((n + 4) mod 7) = true).
  { destruct (pos_full _ _ _ _ _ _ _ P) as [F|F].
    - assert (Hr : month_start k <= month_start k + d - 1 < month_start (k + 1)) by lia.
      exists (month_start k + d - 1).
      split; [done|]. rewrite dom_of_day_eq, (month_index_unique _ k Hr).
      replace (month_start k + d - 1 - month_start k + 1) with d by lia.
      split; [done|]. apply F. dlia.
    - set (j := (w - 4 - month_start k) mod 7). assert (0 <= j < 7) by (unfold j; dlia).
      exists (month_start k + j).
      split; [lia|]. split; [apply F, dom_of_day_range|].
      replace ((month_start k + j + 4) mod 7) with w by (unfold j; dlia). done. }
  destruct Hn as (n & ? & B1 & B2). exists n.
  split; [done|].
  unfold day_ok, dayMatches. change UTC with (fixed_zone 0).
  rewrite day_instant, weekday_instant, unit_start, !land_bit, B1, B2 by done.
  by destruct (_ || _).
Qed.

(** A schedule with a value in every field and a day every month has always
    finds an activation within the year limit. *)
Lemma Next_finds (s : SpecSchedule) (tl : location) (o t m d w h mi se : Z)
  (Hz : next_zone s tl = fixed_zone o) (Ho : o mod 60 = 0)
  (Hdom : 0 <= s_Dom s) (Hdow : 0 <= s_Dow s) (P : possible s m d w h mi se) :
  exists r, Next s tl t = Some r /\ t < r /\ Matches s (fixed_zone o) r = true.
Proof.
  destruct (Next_search s tl o t Hz Ho) as (r' & E & r & -> & H).
  exists r. split; [done|].
  rewrite (next_second_instant o), year_instant in H.
  set (x0 := unix t + 1 + o) in *. set (limit := unit_of LYear x0 + 5) in *.
  set (k := 12 * (unit_of LYear x0 + 1) + (m - 1)).
  destruct (possible_day s m d w h mi se k P Hdom Hdow) as (n & Hn & Hd).
  destruct P as [[Hm Bm] [Hh Bh] [Hmi Bmi] [Hse Bse] _ _ _].
  set (x := 86400 * n + 3600 * h + 60 * mi + se).
  assert (Un : x / 86400 = n) by (unfold x; dlia).
  assert (Uk : unit_of LMonth x = k) by (unfold unit_of; rewrite Un; by apply month_index_unique).
  assert (Hx : hit s limit x).
  { intros []; unfold ok; cbv zeta.
    - unfold unit_of. rewrite Un, (month_index_unique n k Hn). unfold k, limit. dlia.
    - rewrite Uk. replace (k mod 12 + 1) with m by (unfold k; dlia). done.
    - unfold unit_of. by rewrite Un.
    - replace (unit_of LHour x mod 24) with h by (unfold unit_of, x; dlia). done.
    - replace (unit_of LMinute x mod 60) with mi by (unfold unit_of, x; dlia). done.
    - replace (unit_of LSecond x mod 60) with se by (unfold unit_of, x; dlia). done. }
  assert (Hge : x0 <= x).
  { assert (unit_of LYear x0 < unit_of LYear x); [|pose proof (unit_mono LYear x x0); lia].
    unfold unit_of at 2. rewrite Un, (month_index_unique n k Hn). unfold k. dlia. }
  destruct H as [[-> H]|(y & -> & Hy & Hh' & _)]; [by apply H in Hx|].
  split; [|by apply (hit_Matches s o limit)].
  apply (after_second o); [apply nanosecond_instant|]. rewrite unix_instant. unfold x0 in *. lia.
Qed.

(** a schedule with a value in every field and a day every month has
    always fires: Next returns an activation after [t], never the zero
    time that stops a job. *)
Theorem Next_fires (s : SpecSchedule) (tl : location) (o t m d w h mi se : Z)
  (Hz : next_zone s tl = fixed_zone o) (Ho : o mod 60 = 0)
  (Hdom : 0 <= s_Dom s) (Hdow : 0 <= s_Dow s) (P : possible s m d w h mi se) :
  exists r, Next s tl t = Some r /\ t < r /\ Matches s (fixed_zone o) r = true.
Proof. by apply (Next_finds s tl o t m d w h mi se). Qed.

Lemma Next_fires_witness :
  exists r, Next yearly_utc UTC 0 = Some r /\ 0 < r /\ Matches yearly_utc (fixed_zone 0) r = true.
Proof.
  apply (Next_fires yearly_utc UTC 0 0 1 1 0 0 0 0);
    [reflexivity|reflexivity|by vm_compute|by vm_compute|].
  split; try (split; [lia|reflexivity]). left. intros w' Hw.
  assert (w' = 0 \/ w' = 1 \/ w' = 2 \/ w' = 3 \/ w' = 4 \/ w' = 5 \/ w' = 6) as Hc by lia.
  repeat destruct Hc as [->|Hc]; try reflexivity. subst. reflexivity.
Defined.
