(* ===== verification/CronParser.v ===== *)
(** jobs/internal/cron/parser.go: cron specs to schedules. *)

From Stdlib Require Import ZArith Lia List Ascii.
From stdpp Require Import base decidable list strings.
From S2P Require Import Prelude GoStrings GoTime CronSchedule.

(** ** Options *)

(** [ParseOption]: one bit each, from [1 << iota]. *)
Definition OptSecond : Z := 1.
Definition OptSecondOptional : Z := 2.
Definition OptMinute : Z := 4.
Definition OptHour : Z := 8.
Definition OptDom : Z := 16.
Definition OptMonth : Z := 32.
Definition OptDow : Z := 64.
Definition OptDowOptional : Z := 128.
Definition OptDescriptor : Z := 256.

Definition places : list Z := [OptSecond; OptMinute; OptHour; OptDom; OptMonth; OptDow].

Definition defaults : list gostring :=
  [str "0"; str "0"; str "0"; str "*"; str "*"; str "*"].

(** [options&place > 0]. *)
Definition has (options place : Z) : bool := Z.land options place >? 0.

(** The errors of the parser; [PIndex] is the run-time panic of an index out
    of range. *)
Inductive error :=
| EmptySpec
| ZoneWithoutSchedule
| BadLocation (name : gostring)
| NoDescriptors
| MultipleOptionals
| ExpectedFields (min max count : Z)
| UnknownOptional
| FailedInt (expr : gostring)
| NegativeNumber (n : Z)
| TooManyHyphens (expr : gostring)
| TooManySlashes (expr : gostring)
| BelowMinimum (start min : Z)
| AboveMaximum (stop max : Z)
| BeyondEnd (start stop : Z)
| ZeroStep (expr : gostring)
| BadDuration (descriptor : gostring)
| Unrecognized (descriptor : gostring)
| PIndex.

#[global] Instance error_eq_dec : EqDecision error.
Proof. solve_decision. Defined.

Record Parser := { options : Z }.

(** [NewParser]: [None] is its panic on two optional fields. *)
Definition NewParser (opts : Z) : option Parser :=
  let optionals := (if has opts OptDowOptional then 1 else 0)
                   + (if has opts OptSecondOptional then 1 else 0) in
  if optionals >? 1 then None else Some {| options := opts |}.

(** ** Fields *)

(** [mustParseInt]. *)
Definition mustParseInt (expr : gostring) : result error Z :=
  match atoi expr with
  | None => Err (FailedInt expr)
  | Some num => if num <? 0 then Err (NegativeNumber num) else Ok num
  end.

(** [names[key]] of a map literal. *)
Fixpoint lookup_name (names : list (gostring * Z)) (key : gostring) : option Z :=
  match names with
  | [] => None
  | (n, v) :: names' => if seq_eqb n key then Some v else lookup_name names' key
  end.

(** [parseIntOrName]. *)
Definition parseIntOrName (expr : gostring) (names : list (gostring * Z)) : result error Z :=
  match lookup_name names (to_lower expr) with
  | Some v => Ok v
  | None => mustParseInt expr
  end.

(** The loop of [getBits]: the state is [i] and [bits]. *)
Definition bits_body (max step : Z) (st : Z * Z) : (Z * Z) + Z :=
  let '(i, bits) := st in
  if i <=? max then inl (uint64 (i + step), Z.lor bits (uint64 (Z.shiftl 1 i))) else inr bits.

Definition uint64_not (z : Z) : Z := MaxUint64 - z.

(** [getBits]: the bits from [min] to [max], every [step]-th. *)
Definition getBits (min max step : Z) : Z :=
  if step =? 1 then
    Z.land (uint64_not (uint64 (Z.shiftl MaxUint64 (max + 1)))) (uint64 (Z.shiftl MaxUint64 min))
  else match iter_until (bits_body max step) 16 (min, 0) with
       | inl (_, bits) => bits
       | inr bits => bits
       end.

(** [all]. *)
Definition all (r : bounds) : Z := Z.lor (getBits (b_min r) (b_max r) 1) starBit.

(** [getRange]: one element of a field's list. *)
Definition getRange (expr : gostring) (r : bounds) : result error Z :=
  let rangeAndStep := split "/" expr in
  let lowAndHigh := split "-" (hd [] rangeAndStep) in
  let low := hd [] lowAndHigh in
  let singleDigit := (length lowAndHigh =? 1)%nat in
  let? '(start, stop, extra) :=
    (if seq_eqb low (str "*") || seq_eqb low (str "?")
     then Ok (b_min r, b_max r, starBit)
     else let? start := parseIntOrName low (b_names r) in
          match lowAndHigh with
          | [_] => Ok (start, start, 0)
          | [_; high] => let? stop := parseIntOrName high (b_names r) in Ok (start, stop, 0)
          | _ => Err (TooManyHyphens expr)
          end) in
  let? '(stop, step, extra) :=
    (match rangeAndStep with
     | [_] => Ok (stop, 1, extra)
     | [_; st] =>
         let? step := mustParseInt st in
         Ok (if singleDigit then b_max r else stop, step, if step >? 1 then 0 else extra)
     | _ => Err (TooManySlashes expr)
     end) in
  if start <? b_min r then Err (BelowMinimum start (b_min r))
  else if stop >? b_max r then Err (AboveMaximum stop (b_max r))
  else if start >? stop then Err (BeyondEnd start stop)
  else if step =? 0 then Err (ZeroStep expr)
  else Ok (Z.lor (getBits start stop step) extra).

(** [getField]: the union of the ranges of a comma-separated list. *)
Fixpoint getField_go (bits : Z) (ranges : list gostring) (r : bounds) : result error Z :=
  match ranges with
  | [] => Ok bits
  | expr :: ranges' => let? b := getRange expr r in getField_go (Z.lor bits b) ranges' r
  end.

Definition getField (field : gostring) (r : bounds) : result error Z :=
  getField_go 0 (fields_func "," field) r.

(** ** Field normalisation *)

(** The last loop of [normalizeFields]: a field of [options] takes the next
    of the given ones, the others keep their default. *)
Fixpoint expand (opts : Z) (pls : list Z) (defs fs : list gostring) : result error (list gostring) :=
  match pls, defs with
  | p :: pls', d :: defs' =>
      if has opts p then
        match fs with
        | f :: fs' => let? rest := expand opts pls' defs' fs' in Ok (f :: rest)
        | [] => Err PIndex
        end
      else let? rest := expand opts pls' defs' fs in Ok (d :: rest)
  | _, _ => Ok []
  end.

(** [normalizeFields]. *)
Definition normalizeFields (fs : list gostring) (opts : Z) : result error (list gostring) :=
  let so := has opts OptSecondOptional in
  let opts1 := if so then Z.lor opts OptSecond else opts in
  let dowo := has opts1 OptDowOptional in
  let opts2 := if dowo then Z.lor opts1 OptDow else opts1 in
  let optionals := (if so then 1 else 0) + (if dowo then 1 else 0) in
  if optionals >? 1 then Err MultipleOptionals
  else
    let max := Z.of_nat (length (List.filter (has opts2) places)) in
    let min := max - optionals in
    let count := Z.of_nat (length fs) in
    if (count <? min) || (count >? max) then Err (ExpectedFields min max count)
    else
      let? fs :=
        (if (min <? max) && (count =? min)
         then if has opts2 OptDowOptional then Ok (fs ++ [str "*"])
              else if has opts2 OptSecondOptional then Ok (str "0" :: fs)
              else Err UnknownOptional
         else Ok fs) in
      expand opts2 places defaults fs.

(** ** Descriptors and specs *)

Section parse.
(** time.LoadLocation reads the machine's time zone database;
    time.ParseDuration is the decimal-fraction parser of the standard
    library, whose result is a duration or an error. *)
Context (load_location : gostring -> option loc_ref) (parse_duration : gostring -> option Z).

(** The schedules of the descriptors: at second and minute 0. *)
Definition fixed_spec (dm mo dw h : Z) (loc : loc_ref) : SpecSchedule :=
  {| s_Second := Z.shiftl 1 (b_min seconds); s_Minute := Z.shiftl 1 (b_min minutes);
     s_Hour := h; s_Dom := dm; s_Month := mo; s_Dow := dw; s_Location := loc |}.

Definition fixed_schedule (dm mo dw h : Z) (loc : loc_ref) : Schedule :=
  SSpec (fixed_spec dm mo dw h loc).

(** [parseDescriptor]. *)
Definition parseDescriptor (descriptor : gostring) (loc : loc_ref) : result error Schedule :=
  let named d := seq_eqb descriptor (str d) in
  if named "@yearly"%string || named "@annually"%string then
    Ok (fixed_schedule (Z.shiftl 1 (b_min dom)) (Z.shiftl 1 (b_min months)) (all dow)
          (Z.shiftl 1 (b_min hours)) loc)
  else if named "@monthly"%string then
    Ok (fixed_schedule (Z.shiftl 1 (b_min dom)) (all months) (all dow)
          (Z.shiftl 1 (b_min hours)) loc)
  else if named "@weekly"%string then
    Ok (fixed_schedule (all dom) (all months) (Z.shiftl 1 (b_min dow))
          (Z.shiftl 1 (b_min hours)) loc)
  else if named "@daily"%string || named "@midnight"%string then
    Ok (fixed_schedule (all dom) (all months) (all dow) (Z.shiftl 1 (b_min hours)) loc)
  else if named "@hourly"%string then
    Ok (fixed_schedule (all dom) (all months) (all dow) (all hours) loc)
  else if has_prefix (str "@every ") descriptor then
    match parse_duration (drop (length (str "@every ")) descriptor) with
    | None => Err (BadDuration descriptor)
    | Some d => Ok (SEvery (Every d))
    end
  else Err (Unrecognized descriptor).

(** [Parser.Parse]. *)
Definition Parse (p : Parser) (spec : gostring) : result error Schedule :=
  match spec with
  | [] => Err EmptySpec
  | _ =>
      let? '(loc, spec) :=
        (if has_prefix (str "TZ=") spec || has_prefix (str "CRON_TZ=") spec then
           let i := index_byte " " spec in
           let eq := index_byte "=" spec in
           if i <? 0 then Err ZoneWithoutSchedule
           else
             let name := drop (Z.to_nat (eq + 1)) (take (Z.to_nat i) spec) in
             match load_location name with
             | None => Err (BadLocation name)
             | Some loc => Ok (loc, trim_space (drop (Z.to_nat i) spec))
             end
         else Ok (Local, spec)) in
      if has_prefix (str "@") spec then
        if Z.land (options p) OptDescriptor =? 0 then Err NoDescriptors
        else parseDescriptor spec loc
      else
        let? fs := normalizeFields (fields spec) (options p) in
        match fs with
        | [f0; f1; f2; f3; f4; f5] =>
            let? second := getField f0 seconds in
            let? minute := getField f1 minutes in
            let? hour := getField f2 hours in
            let? dayofmonth := getField f3 dom in
            let? month := getField f4 months in
            let? dayofweek := getField f5 dow in
            Ok (SSpec {| s_Second := second; s_Minute := minute; s_Hour := hour;
                         s_Dom := dayofmonth; s_Month := month; s_Dow := dayofweek;
                         s_Location := loc |})
        | _ => Err PIndex
        end
  end.

(** [ParseStandard]. *)
Definition standardParser : Parser :=
  {| options := OptMinute + OptHour + OptDom + OptMonth + OptDow + OptDescriptor |}.

Definition ParseStandard (spec : gostring) : result error Schedule := Parse standardParser spec.
End parse.

(** The parser of package jobs (scheduler.go): five fields, or six with
    leading seconds, or a descriptor. *)
Definition specParser : Parser :=
  {| options := OptSecondOptional + OptMinute + OptHour + OptDom + OptMonth + OptDow + OptDescriptor |}.
