(* ===== verification/CronParse.v ===== *)
(** What the cron parser yields: the bit sets of a field, the schedules of a
    spec, and the texts it reads back. *)

From Stdlib Require Import ZArith Lia List Ascii.
From stdpp Require Import base decidable list strings.
From S2P Require Import Prelude GoStrings GoTime CronSchedule CronNext CronParser.

(** ** getBits *)

Lemma MaxUint64_ones : MaxUint64 = Z.ones 64.
Proof. reflexivity. Qed.

Lemma testbit_uint64 z i : 0 <= i -> Z.testbit (uint64 z) i = (i <? 64) && Z.testbit z i.
Proof.
  intros Hi. unfold uint64. destruct (Z.ltb_spec i 64).
  - by rewrite Z.mod_pow2_bits_low by lia.
  - by rewrite Z.mod_pow2_bits_high by lia.
Qed.

Lemma testbit_ones i : 0 <= i -> Z.testbit MaxUint64 i = (i <? 64).
Proof. intros. rewrite MaxUint64_ones, Z.testbit_ones_nonneg by lia. done. Qed.

Lemma testbit_not z i : 0 <= z <= MaxUint64 -> 0 <= i ->
  Z.testbit (uint64_not z) i = (i <? 64) && negb (Z.testbit z i).
Proof.
  intros Hz Hi. unfold uint64_not. rewrite MaxUint64_ones in *.
  rewrite Z.sub_nocarry_ldiff.
  - rewrite Z.ldiff_spec, Z.testbit_ones_nonneg by lia. done.
  - apply Z.bits_inj_0. intros j. rewrite Z.ldiff_spec.
    destruct (Z.lt_ge_cases j 0); [by rewrite Z.testbit_neg_r|].
    rewrite Z.testbit_ones_nonneg by lia.
    destruct (Z.ltb_spec j 64); [by rewrite andb_false_r|].
    rewrite andb_true_r. destruct (decide (z = 0)) as [->|]; [apply Z.bits_0|].
    apply Z.bits_above_log2; [lia|]. apply Z.log2_lt_pow2; [lia|].
    apply Z.lt_le_trans with (2 ^ 64); [rewrite Z.ones_equiv in Hz; lia|].
    apply Z.pow_le_mono_r; lia.
Qed.

Lemma testbit_one i j : 0 <= i -> 0 <= j -> Z.testbit (Z.shiftl 1 i) j = (i =? j).
Proof.
  intros. rewrite Z.shiftl_1_l, Z.pow2_bits_eqb by lia. done.
Qed.

(** The set getBits stands for. *)
Definition in_steps (min max step i : Z) : bool :=
  (min <=? i) && (i <=? max) && ((i - min) mod step =? 0).

Lemma getBits_shift min max i : 0 <= min -> 0 <= max <= 62 -> 0 <= i ->
  Z.testbit (getBits min max 1) i = in_steps min max 1 i.
Proof.
  intros. unfold getBits, in_steps. rewrite Z.eqb_refl.
  rewrite Z.land_spec, testbit_not, !testbit_uint64, !Z.shiftl_spec by (lia || apply uint64_range).
  replace ((i - min) mod 1) with 0 by (by rewrite Z.mod_1_r). rewrite Z.eqb_refl, andb_true_r.
  assert (B : forall k, Z.testbit MaxUint64 k = (0 <=? k) && (k <? 64)).
  { intros k. destruct (Z.leb_spec 0 k); [by apply testbit_ones|by rewrite Z.testbit_neg_r]. }
  rewrite !B. Zbool.
Qed.

Lemma bits_step min i j step : 1 <= step ->
  (i - min) mod step = 0 -> (j - min) mod step = 0 -> i <= j < i + step -> j = i.
Proof.
  intros Hs Hi Hj H. apply Z.mod_divide in Hi as [q Hq]; [|lia].
  apply Z.mod_divide in Hj as [q' Hq']; [|lia]. assert (q = q') by nia. subst. lia.
Qed.

Lemma getBits_loop min max step : 0 <= min <= 62 -> 0 <= max <= 62 -> 1 <= step <= MaxInt64 ->
  exists bits, iter_until (bits_body max step) 16 (min, 0) = inr bits /\
    forall j, 0 <= j -> Z.testbit bits j = in_steps min max step j.
Proof.
  intros Hmin Hmax Hstep.
  set (I := fun st : Z * Z => min <= st.1 <= 62 + step /\ (st.1 - min) mod step = 0 /\
    forall j, 0 <= j -> Z.testbit st.2 j = in_steps min max step j && (j <? st.1)).
  apply (iter_until_terminates _ I (fun st => Z.max 0 (max + 1 - st.1))).
  - intros [i bits] (Hi & Hm & Hb). cbn [fst snd] in *. unfold bits_body.
    destruct (Z.leb_spec i max) as [Hle|Hgt].
    + rewrite uint64_id by (unfold MaxUint64, MaxInt64 in *; lia).
      cbn [fst snd]. split; [|lia]. split_and!; cbn [fst snd]; try lia.
      { replace (i + step - min) with (i - min + 1 * step) by lia. by rewrite Z.mod_add by lia. }
      intros j Hj. rewrite Z.lor_spec, testbit_uint64, testbit_one, Hb by lia.
      unfold in_steps. destruct (Z.eqb_spec i j) as [<-|Hne].
      * rewrite Hm, Z.eqb_refl. Zbool.
      * rewrite andb_false_r, orb_false_r.
        destruct (Z.eqb_spec ((j - min) mod step) 0) as [Hj0|]; [|by rewrite !andb_false_r].
        assert (~ i <= j < i + step) 
          by (intros ?; apply Hne; symmetry; apply (bits_step min i j step); try lia; done).
        Zbool.
    + intros j Hj. rewrite Hb by done. unfold in_steps. Zbool; by rewrite ?andb_false_r.
  - split_and!; cbn [fst snd]; try lia.
    + by rewrite Z.sub_diag, Z.mod_0_l by lia.
    + intros j Hj. rewrite Z.bits_0. unfold in_steps. Zbool; by rewrite ?andb_false_r.
  - cbn [fst]. simpl Z.of_nat. lia.
Qed.

(** getBits, by shifts when the step is 1 and by its loop otherwise,
    sets exactly the bits [min], [min+step], ... up to [max]; the loop ends
    and never wraps around, whatever step an int can hold. *)
Theorem getBits_spec (min max step i : Z) (Hmin : 0 <= min <= 62) (Hmax : 0 <= max <= 62)
  (Hstep : 1 <= step <= MaxInt64) (Hi : 0 <= i) :
  Z.testbit (getBits min max step) i
  = (min <=? i) && (i <=? max) && ((i - min) mod step =? 0).
Proof.
  destruct (Z.eqb_spec step 1) as [->|Hne]; [apply getBits_shift; lia|].
  destruct (getBits_loop min max step Hmin Hmax Hstep) as (bits & E & Hb).
  unfold getBits. rewrite (proj2 (Z.eqb_neq _ _) Hne), E. by apply Hb.
Qed.

Lemma getBits_spec_witness : Z.testbit (getBits 3 59 15) 48 = true.
Proof.
  rewrite (getBits_spec 3 59 15 48); [reflexivity|lia|lia|split; [lia|by vm_compute]|lia].
Defined.

(** ** The sets of a field *)

(** Bounds whose values fit below the star bit, their names included. *)
Definition bounds_ok (r : bounds) : Prop :=
  0 <= b_min r /\ b_min r <= b_max r <= 62 /\ Forall (fun nv => 0 <= nv.2) (b_names r).

(** A set of values of the field, and possibly the star bit. *)
Definition set_ok (r : bounds) (set : Z) : Prop :=
  0 <= set /\ forall i, 0 <= i -> Z.testbit set i = true -> b_min r <= i <= b_max r \/ i = 63.

Lemma testbit_star i : 0 <= i -> Z.testbit starBit i = (i =? 63).
Proof. intros. unfold starBit. rewrite testbit_one by lia. Zbool. Qed.

Lemma mustParseInt_nonneg expr n : mustParseInt expr = Ok n -> 0 <= n <= MaxInt64.
Proof.
  unfold mustParseInt. destruct (atoi expr) as [m|] eqn:E; [|done]. intros H.
  apply atoi_range in E. destruct (Z.ltb_spec m 0); [done|]. simplify_eq. lia.
Qed.

Lemma lookup_name_nonneg names key v :
  Forall (fun nv => 0 <= nv.2) names -> lookup_name names key = Some v -> 0 <= v.
Proof.
  induction 1 as [|[n w] names Hw _ IH]; simpl; [done|].
  destruct (seq_eqb n key); [intros; simplify_eq; done|done].
Qed.

Lemma parseIntOrName_nonneg expr names n :
  Forall (fun nv => 0 <= nv.2) names -> parseIntOrName expr names = Ok n -> 0 <= n.
Proof.
  intros Hn. unfold parseIntOrName. destruct (lookup_name _ _) as [v|] eqn:E.
  - intros. simplify_eq. by eapply lookup_name_nonneg.
  - intros H%mustParseInt_nonneg. lia.
Qed.

(** What getRange computes: a stepped interval within the bounds, and
    possibly the star bit. *)
Definition is_range (r : bounds) (set : Z) : Prop :=
  exists start stop step extra,
    b_min r <= start <= stop /\ stop <= b_max r /\ 1 <= step <= MaxInt64 /\
    (extra = 0 \/ extra = starBit) /\ set = Z.lor (getBits start stop step) extra.

Lemma getRange_is_range expr r set :
  bounds_ok r -> getRange expr r = Ok set -> is_range r set.
Proof.
  intros (H0 & H1 & Hn) H. unfold getRange in H.
  apply rbind_Ok in H as ([[start stop] extra] & Ha & H).
  apply rbind_Ok in H as ([[stop' step] extra'] & Hb & H).
  assert (Hst : 0 <= start /\ (extra = 0 \/ extra = starBit)).
  { destruct (_ || _); [simplify_eq; auto|].
    apply rbind_Ok in Ha as (st & Hs & Ha). apply parseIntOrName_nonneg in Hs; [|done].
    destruct (split _ _) as [|? [|? [|]]]; simplify_eq; auto.
    apply rbind_Ok in Ha as (? & _ & Ha). simplify_eq. auto. }
  assert (Hsp : 0 <= step <= MaxInt64 /\ (extra' = 0 \/ extra' = starBit)).
  { destruct (split "/" expr) as [|? [|? [|]]]; simplify_eq.
    - split; [by vm_compute|tauto].
    - apply rbind_Ok in Hb as (sp & Hs & Hb). apply mustParseInt_nonneg in Hs.
      simplify_eq. split; [done|]. destruct (step >? 1); tauto. }
  clear Ha Hb. revert H.
  destruct (Z.ltb_spec start (b_min r)); [done|].
  rewrite Z.gtb_ltb. destruct (Z.ltb_spec (b_max r) stop'); [done|].
  rewrite Z.gtb_ltb. destruct (Z.ltb_spec stop' start); [done|].
  destruct (Z.eqb_spec step 0); [done|]. intros. simplify_eq.
  exists start, stop', step, extra'. split_and!; lia || tauto || done.
Qed.

Lemma is_range_bits r set : bounds_ok r -> is_range r set ->
  set_ok r set /\ exists i, b_min r <= i <= b_max r /\ Z.testbit set i = true.
Proof.
  intros (H0 & H1 & _) (start & stop & step & extra & Hs1 & Hs2 & Hstep & He & ->).
  assert (E : forall i, 0 <= i -> Z.testbit extra i = true -> i = 63).
  { intros i Hi. destruct He as [->| ->]; [by rewrite Z.bits_0|]. rewrite testbit_star by done. lia. }
  assert (He0 : 0 <= extra) by (destruct He as [->| ->]; [lia|by vm_compute]).
  assert (B : 0 <= getBits start stop step).
  { apply Z.bits_iff_nonneg_ex. exists 63. intros i Hi. rewrite getBits_spec by lia.
    destruct (Z.leb_spec i stop); [lia|]. by rewrite andb_false_r. }
  split; [split|].
  - apply Z.lor_nonneg. done.
  - intros i Hi. rewrite Z.lor_spec, getBits_spec by lia.
    intros [Hb|Hb]%orb_true_iff; [lia|]. right. by apply E.
  - exists start. split; [lia|]. rewrite Z.lor_spec, getBits_spec by lia.
    rewrite Z.sub_diag, Z.mod_0_l by lia. destruct (Z.leb_spec start start), (Z.leb_spec start stop); lia || done.
Qed.

Lemma set_ok_lor r a b : set_ok r a -> set_ok r b -> set_ok r (Z.lor a b).
Proof.
  intros [Ha HA] [Hb HB]. split; [by apply Z.lor_nonneg|].
  intros i Hi. rewrite Z.lor_spec. intros [H|H]%orb_true_iff; auto.
Qed.

Lemma getField_go_ok r ranges : bounds_ok r -> forall bits set, set_ok r bits ->
  getField_go bits ranges r = Ok set -> set_ok r set.
Proof.
  intros Hr. induction ranges as [|expr ranges IH]; intros bits set Hb H; simpl in H; [by simplify_eq|].
  apply rbind_Ok in H as (b & Hg & H). eapply IH; [|done].
  apply set_ok_lor; [done|]. eapply (is_range_bits r b); [done|]. by eapply getRange_is_range.
Qed.

Lemma getField_ok r field set : bounds_ok r -> getField field r = Ok set -> set_ok r set.
Proof.
  intros Hr. apply getField_go_ok; [done|]. split; [lia|]. intros i _. by rewrite Z.bits_0.
Qed.

Ltac solve_bounds := split; [vm_compute; discriminate|split; [split; vm_compute; discriminate|
  repeat constructor; vm_compute; discriminate]].

Lemma seconds_ok : bounds_ok seconds. Proof. solve_bounds. Qed.
Lemma minutes_ok : bounds_ok minutes. Proof. solve_bounds. Qed.
Lemma hours_ok : bounds_ok hours. Proof. solve_bounds. Qed.
Lemma dom_ok : bounds_ok dom. Proof. solve_bounds. Qed.
Lemma months_ok : bounds_ok months. Proof. solve_bounds. Qed.
Lemma dow_ok : bounds_ok dow. Proof. solve_bounds. Qed.

#[export] Hint Resolve seconds_ok minutes_ok hours_ok dom_ok months_ok dow_ok : chok.

(** ** Schedules *)

(** A schedule whose sets hold values of their fields only, or whose delay
    is whole seconds and at least one. *)
Definition schedule_ok (sch : Schedule) : Prop :=
  match sch with
  | SSpec s =>
      set_ok seconds (s_Second s) /\ set_ok minutes (s_Minute s) /\ set_ok hours (s_Hour s) /\
      set_ok dom (s_Dom s) /\ set_ok months (s_Month s) /\ set_ok dow (s_Dow s)
  | SEvery c => Second <= Delay c /\ Delay c mod Second = 0
  end.

Lemma all_is_range r : bounds_ok r -> is_range r (all r).
Proof.
  intros (H0 & H1 & _). exists (b_min r), (b_max r), 1, starBit.
  unfold MaxInt64. split_and!; try lia; auto.
Qed.

Lemma all_ok r : bounds_ok r -> set_ok r (all r).
Proof. intros H. apply is_range_bits; [done|]. by apply all_is_range. Qed.

Lemma one_ok r v : bounds_ok r -> b_min r <= v <= b_max r -> set_ok r (Z.shiftl 1 v).
Proof.
  intros (H0 & H1 & _) Hv. split; [apply Z.shiftl_nonneg; lia|].
  intros i Hi. rewrite testbit_one by lia. lia.
Qed.

Lemma Every_ok d : schedule_ok (SEvery (Every d)).
Proof.
  simpl. unfold Every. cbn [Delay]. unfold Second.
  destruct (Z.ltb_spec d 1000000000); [by vm_compute|].
  rewrite Z.rem_mod_nonneg by lia. dlia.
Qed.

Lemma fixed_schedule_ok dm mo dw h loc :
  set_ok dom dm -> set_ok months mo -> set_ok dow dw -> set_ok hours h ->
  schedule_ok (fixed_schedule dm mo dw h loc).
Proof.
  intros. simpl. split_and!; try done; apply one_ok; auto with chok; vm_compute; split; discriminate.
Qed.

Section parse_ok.
Context (load_location : gostring -> option loc_ref) (parse_duration : gostring -> option Z).

Lemma parseDescriptor_ok d loc sch :
  parseDescriptor parse_duration d loc = Ok sch -> schedule_ok sch.
Proof.
  unfold parseDescriptor. intros H.
  repeat (case_match; [simplify_eq; apply fixed_schedule_ok;
    (apply all_ok || (apply one_ok; [|vm_compute; split; discriminate])); auto with chok|]).
  repeat case_match; simplify_eq. apply Every_ok.
Qed.

(** Whatever the spec, its options and the zone database, a schedule
    the parser returns is well formed: every bit of a field's set is a value
    within the field's bounds or the star bit, and a fixed delay is a whole
    number of seconds, at least one. *)
Theorem Parse_schedule_ok (p : Parser) (spec : gostring) (sch : Schedule)
  (H : Parse load_location parse_duration p spec = Ok sch) : schedule_ok sch.
Proof.
  unfold Parse in H. destruct spec as [|c spec]; [done|].
  apply rbind_Ok in H as ([loc rest] & _ & H).
  destruct (has_prefix _ rest).
  { destruct (_ =? _); [done|]. by eapply parseDescriptor_ok. }
  apply rbind_Ok in H as (fs & _ & H).
  destruct fs as [|f0 [|f1 [|f2 [|f3 [|f4 [|f5 [|]]]]]]]; try done.
  repeat (apply rbind_Ok in H as (? & ?%getField_ok & H); [|by auto with chok]).
  simplify_eq. simpl. tauto.
Qed.
End parse_ok.

Lemma Parse_schedule_ok_witness :
  Parse (fun _ => None) (fun _ => Some (90 * Second)) specParser (str "@every 1m30s")
    = Ok (SEvery {| Delay := 90 * Second |})
  /\ schedule_ok (SEvery {| Delay := 90 * Second |}).
Proof.
  assert (E : Parse (fun _ => None) (fun _ => Some (90 * Second)) specParser (str "@every 1m30s")
    = Ok (SEvery {| Delay := 90 * Second |})) by reflexivity.
  split; [exact E|].
  exact (Parse_schedule_ok (fun _ => None) (fun _ => Some (90 * Second)) specParser _ _ E).
Defined.

(** ** Descriptors fire *)

Definition descriptors : list gostring :=
  [str "@yearly"; str "@annually"; str "@monthly"; str "@weekly"; str "@daily";
   str "@midnight"; str "@hourly"].

Lemma bit_testbit set v : 0 <= v < 64 -> bit set v = Z.testbit set v.
Proof.
  intros Hv. unfold bit. rewrite uint64_id.
  2: { rewrite Z.shiftl_1_l. unfold MaxUint64.
       pose proof (Z.pow_lt_mono_r 2 v 64 ltac:(lia) ltac:(lia) ltac:(lia)).
       pose proof (Z.pow_pos_nonneg 2 v ltac:(lia) ltac:(lia)). lia. }
  destruct (Z.testbit set v) eqn:E.
  - apply negb_true_iff, Z.eqb_neq. intros H0.
    assert (Z.testbit (Z.land (Z.shiftl 1 v) set) v = false) as Hf by (rewrite H0; apply Z.bits_0).
    rewrite Z.land_spec, testbit_one, E, Z.eqb_refl in Hf by lia. done.
  - apply negb_false_iff, Z.eqb_eq, Z.bits_inj_0. intros i.
    destruct (Z.lt_ge_cases i 0); [by apply Z.testbit_neg_r|].
    rewrite Z.land_spec, testbit_one by lia. destruct (Z.eqb_spec v i) as [<-|]; [by rewrite E|done].
Qed.

Lemma bit_all r v : bounds_ok r -> b_min r <= v <= b_max r -> bit (all r) v = true.
Proof.
  intros (H0 & H1 & _) Hv. rewrite bit_testbit by lia. unfold all.
  rewrite Z.lor_spec, getBits_spec by (unfold MaxInt64; lia).
  rewrite Z.mod_1_r. destruct (Z.leb_spec (b_min r) v), (Z.leb_spec v (b_max r)); done || lia.
Qed.

Lemma bit_one v : 0 <= v < 63 -> bit (Z.shiftl 1 v) v = true.
Proof. intros. rewrite bit_testbit, testbit_one, Z.eqb_refl by lia. done. Qed.

Ltac solve_bit :=
  first [ apply bit_all; [auto with chok|vm_compute; split; discriminate]
        | apply bit_one; vm_compute; split; [discriminate|reflexivity] ].

Lemma fixed_schedule_possible dm mo dw h loc (d m w : Z) :
  1 <= m <= 12 /\ bit mo m = true -> bit h 0 = true ->
  1 <= d <= 28 /\ bit dm d = true -> 0 <= w < 7 /\ bit dw w = true ->
  dw = all dow \/ dm = all dom ->
  possible (fixed_spec dm mo dw h loc) m d w 0 0 0.
Proof.
  intros Hm Hh Hd Hw Hf. simpl. split; simpl; try done; try (split; [lia|done || solve_bit]).
  destruct Hf as [->| ->]; [left|right]; intros v Hv; apply bit_all; auto with chok; simpl; lia.
Qed.

Ltac fires dm mo dw h :=
  exists (fixed_spec dm mo dw h Local), 1, 1, 0;
  split; [reflexivity|]; split; [reflexivity|];
  split; [vm_compute; discriminate|]; split; [vm_compute; discriminate|];
  apply fixed_schedule_possible;
  first [left; reflexivity | right; reflexivity | solve_bit | (split; [lia|solve_bit])].

(** Every predefined descriptor parses to a schedule that always fires:
    in any location of whole minutes, after any time, Next returns a later
    activation that matches the schedule. *)
Theorem descriptors_fire load pd (d : gostring) (o t : Z)
  (Hd : d ∈ descriptors) (Ho : o mod 60 = 0) :
  exists s r, Parse load pd specParser d = Ok (SSpec s) /\
    Next s (fixed_zone o) t = Some r /\ t < r /\ Matches s (fixed_zone o) r = true.
Proof.
  assert (Hp : exists s m dd w, Parse load pd specParser d = Ok (SSpec s) /\
    s_Location s = Local /\ 0 <= s_Dom s /\ 0 <= s_Dow s /\ possible s m dd w 0 0 0).
  { unfold descriptors in Hd. rewrite !elem_of_cons, elem_of_nil in Hd.
    destruct Hd as [-> | [-> | [-> | [-> | [-> | [-> | [-> | []]]]]]]].
    - fires (Z.shiftl 1 1) (Z.shiftl 1 1) (all dow) (Z.shiftl 1 0).
    - fires (Z.shiftl 1 1) (Z.shiftl 1 1) (all dow) (Z.shiftl 1 0).
    - fires (Z.shiftl 1 1) (all months) (all dow) (Z.shiftl 1 0).
    - fires (all dom) (all months) (Z.shiftl 1 0) (Z.shiftl 1 0).
    - fires (all dom) (all months) (all dow) (Z.shiftl 1 0).
    - fires (all dom) (all months) (all dow) (Z.shiftl 1 0).
    - fires (all dom) (all months) (all dow) (all hours). }
  destruct Hp as (s & m & dd & w & E & Hl & Hdm & Hdw & P).
  destruct (Next_finds s (fixed_zone o) o t m dd w 0 0 0) as (r & Hr); try done.
  { unfold next_zone. by rewrite Hl. }
  exists s, r. done.
Qed.

Lemma descriptors_fire_witness :
  exists s r, Parse (fun _ => None) (fun _ => None) specParser (str "@weekly") = Ok (SSpec s) /\
    Next s (fixed_zone 3600) 0 = Some r /\ 0 < r /\ Matches s (fixed_zone 3600) r = true.
Proof.
  apply (descriptors_fire (fun _ => None) (fun _ => None) (str "@weekly") 3600 0); [|reflexivity].
  unfold descriptors. rewrite !elem_of_cons. tauto.
Defined.

(** ** Reading field expressions back *)

(** One element of a field's list, as the package documentation writes it:
    a star, a number or a range, and an increment. *)
Inductive base := BStar | BFrom (a : Z) | BRange (a b : Z).

Definition item : Type := base * option Z.

Definition print_base (b : base) : gostring :=
  match b with
  | BStar => str "*"
  | BFrom a => format_uint a
  | BRange a b => format_uint a ++ str "-" ++ format_uint b
  end.

Definition print_item (it : item) : gostring :=
  match it.2 with
  | None => print_base it.1
  | Some st => print_base it.1 ++ str "/" ++ format_uint st
  end.

Definition print_items (its : list item) : gostring := join (str ",") (map print_item its).

Definition item_ok (r : bounds) (it : item) : Prop :=
  match it.1 with
  | BStar => True
  | BFrom a => b_min r <= a <= b_max r
  | BRange a b => b_min r <= a <= b /\ b <= b_max r
  end /\ match it.2 with Some st => 1 <= st <= MaxInt64 | None => True end.

(** The values an element stands for; an increment of 1 keeps the star. *)
Definition item_set (r : bounds) (it : item) (i : Z) : bool :=
  let step := default 1 it.2 in
  match it.1 with
  | BStar => in_steps (b_min r) (b_max r) step i || ((i =? 63) && (step =? 1))
  | BFrom a => in_steps a (match it.2 with Some _ => b_max r | None => a end) step i
  | BRange a b => in_steps a b step i
  end.

(** Names that do not start with a digit never shadow a number. *)
Definition names_ok (r : bounds) : Prop :=
  Forall (fun nv => match nv.1 with c :: _ => ~ is_digit c | [] => True end) (b_names r).

Lemma lookup_name_digit r n : names_ok r -> 0 <= n ->
  lookup_name (b_names r) (to_lower (format_uint n)) = None.
Proof.
  intros H Hn. destruct (format_uint_cons n Hn) as (c & t & -> & D).
  destruct (to_lower_digit c t D) as (t' & ->).
  unfold names_ok in H. induction H as [|[k v] names Hk _ IH]; [done|]. simpl in *.
  unfold seq_eqb. case_bool_decide; [subst; done|done].
Qed.

Lemma parse_number r n : names_ok r -> 0 <= n <= MaxInt64 ->
  parseIntOrName (format_uint n) (b_names r) = Ok n.
Proof.
  intros. unfold parseIntOrName. rewrite lookup_name_digit by (done || lia).
  unfold mustParseInt. rewrite atoi_format_uint by done.
  destruct (Z.ltb_spec n 0); [lia|done].
Qed.

Lemma not_digit_comma : ~ is_digit ","%char. Proof. intros H%digit_byte. vm_compute in H. by destruct H. Qed.
Lemma not_digit_slash : ~ is_digit "/"%char. Proof. intros H%digit_byte. vm_compute in H. by destruct H. Qed.
Lemma not_digit_hyphen : ~ is_digit "-"%char. Proof. intros H%digit_byte. vm_compute in H. by destruct H. Qed.
Lemma not_digit_star : ~ is_digit "*"%char. Proof. intros H%digit_byte. vm_compute in H. by destruct H. Qed.
Lemma not_digit_question : ~ is_digit "?"%char. Proof. intros H%digit_byte. vm_compute in H. by destruct H. Qed.

Lemma number_free c n : ~ is_digit c -> 0 <= n -> c ∉ format_uint n.
Proof. intros. apply not_in_digits; [done|]. by apply format_uint_digits. Qed.

#[export] Hint Resolve not_digit_comma not_digit_slash not_digit_hyphen : chok.

Lemma print_base_free r b c : item_ok r (b, None) -> bounds_ok r ->
  c = ","%char \/ c = "/"%char -> c ∉ print_base b.
Proof.
  intros [H _] (H0 & _) Hc. assert (D : ~ is_digit c) by (destruct Hc as [->| ->]; auto with chok).
  assert (F : forall n, 0 <= n -> c ∉ format_uint n) by (intros; by apply number_free).
  destruct b; cbn [print_base fst] in *.
  - apply not_elem_of_cons. split; [destruct Hc as [->| ->]; done|apply not_elem_of_nil].
  - apply F. lia.
  - rewrite !elem_of_app. intros [Hi|[Hi|Hi]].
    + revert Hi. apply F. lia.
    + apply list_elem_of_singleton in Hi. destruct Hc; congruence.
    + revert Hi. apply F. lia.
Qed.

Lemma print_item_free r it : item_ok r it -> bounds_ok r -> ","%char ∉ print_item it.
Proof.
  destruct it as [b st]. intros [H1 H2] Hr. unfold print_item. cbn [fst snd] in *.
  assert (Hb : ","%char ∉ print_base b) by (eapply print_base_free; [by split|done|by left]).
  destruct st as [st|]; [|done].
  rewrite !elem_of_app. intros [?|[Hi|Hi]]; [done| |].
  - by apply list_elem_of_singleton in Hi.
  - revert Hi. apply number_free; [auto with chok|lia].
Qed.

(** The first loop of getRange on a printed base. *)
Lemma print_base_parts b r : item_ok r (b, None) -> bounds_ok r ->
  split "-" (print_base b) =
  match b with
  | BStar => [str "*"]
  | BFrom a => [format_uint a]
  | BRange a b => [format_uint a; format_uint b]
  end.
Proof.
  intros [H _] (H0 & _). destruct b; simpl in *; [reflexivity| |].
  - apply split_no_sep, number_free; [auto with chok|lia].
  - rewrite split_app_sep by (apply number_free; [auto with chok|lia]).
    by rewrite split_no_sep by (apply number_free; [auto with chok|lia]).
Qed.

Lemma number_not_star n : 0 <= n ->
  seq_eqb (format_uint n) (str "*") || seq_eqb (format_uint n) (str "?") = false.
Proof.
  intros H. destruct (format_uint_cons n H) as (c & t & -> & D). unfold seq_eqb.
  rewrite !bool_decide_eq_false_2; [done| |]; intros [= -> _].
  - by apply not_digit_question.
  - by apply not_digit_star.
Qed.

Lemma print_item_split r it : item_ok r it -> bounds_ok r ->
  split "/" (print_item it)
  = match it.2 with
    | None => [print_base it.1]
    | Some st => [print_base it.1; format_uint st]
    end.
Proof.
  destruct it as [b st]. intros [H1 H2] Hr. cbn [fst snd] in *.
  assert (Hb : "/"%char ∉ print_base b) by (eapply print_base_free; [by split|done|by right]).
  unfold print_item. cbn [fst snd]. destruct st as [st|]; [|by apply split_no_sep].
  change (str "/" ++ format_uint st) with ("/"%char :: format_uint st).
  rewrite split_app_sep by done.
  by rewrite split_no_sep by (apply number_free; [auto with chok|lia]).
Qed.

Lemma in_steps_one a i : in_steps a a 1 i = (a =? i).
Proof. unfold in_steps. rewrite Z.mod_1_r. Zbool. Qed.

(** getRange on the text of an element computes the element's values. *)
Lemma getRange_print r it : bounds_ok r -> names_ok r -> item_ok r it ->
  exists set, getRange (print_item it) r = Ok set /\
    forall i, 0 <= i -> Z.testbit set i = item_set r it i.
Proof.
  intros Hr Hn Hit. unfold getRange. rewrite (print_item_split r) by done.
  assert (Hhd : hd [] match it.2 with None => [print_base it.1]
                      | Some st => [print_base it.1; format_uint st] end = print_base it.1)
    by (by destruct (it.2)).
  rewrite Hhd, (print_base_parts it.1 r); [|by destruct it, Hit; split|done].
  destruct it as [b st], Hit as [Hb Hst], Hr as (H0 & H1 & _). cbn [fst snd] in *.
  assert (Hstep : 1 <= default 1 st <= MaxInt64) by (destruct st; simpl; [done|unfold MaxInt64; lia]).
  assert (P : forall n, 0 <= n <= 62 -> parseIntOrName (format_uint n) (b_names r) = Ok n)
    by (intros; apply parse_number; [done|unfold MaxInt64; lia]).
  assert (Q : forall n, 1 <= n <= MaxInt64 -> mustParseInt (format_uint n) = Ok n).
  { intros n Hn'. unfold mustParseInt. rewrite atoi_format_uint by lia.
    destruct (Z.ltb_spec n 0); [lia|done]. }
  assert (Hend : forall start stop step extra,
    b_min r <= start <= stop -> stop <= b_max r -> 1 <= step <= MaxInt64 ->
    (if start <? b_min r then Err (BelowMinimum start (b_min r))
     else if stop >? b_max r then Err (AboveMaximum stop (b_max r))
     else if start >? stop then Err (BeyondEnd start stop)
     else if step =? 0 then Err (ZeroStep (print_item (b, st)))
     else Ok (Z.lor (getBits start stop step) extra)) = Ok (Z.lor (getBits start stop step) extra)).
  { intros. rewrite !Z.gtb_ltb. destruct (Z.ltb_spec start (b_min r)), (Z.ltb_spec (b_max r) stop),
      (Z.ltb_spec stop start), (Z.eqb_spec step 0); lia || done. }
  assert (G : forall start stop step i, b_min r <= start <= stop -> stop <= b_max r ->
    1 <= step <= MaxInt64 -> 0 <= i ->
    Z.testbit (getBits start stop step) i = in_steps start stop step i)
    by (intros; apply getBits_spec; lia).
  destruct b as [|a|a c]; cbn [hd]; cbn beta iota in Hb.
  - change (seq_eqb (str "*") (str "*") || seq_eqb (str "*") (str "?")) with true. cbn [rbind].
    destruct st as [st|]; cbn [rbind default length Nat.eqb]; cbn beta iota in Hst.
    + rewrite Q by done. cbn [rbind]. rewrite Hend by lia. eexists. split; [done|].
      intros i Hi. rewrite Z.lor_spec, G by lia. unfold item_set. cbn [fst snd default from_option id]. f_equal.
      rewrite Z.gtb_ltb. destruct (Z.ltb_spec 1 st), (Z.eqb_spec st 1);
        rewrite ?Z.bits_0, ?testbit_star, ?andb_true_r, ?andb_false_r by done; done || lia.
    + rewrite Hend by (lia || unfold MaxInt64; lia). eexists. split; [done|].
      intros i Hi. rewrite Z.lor_spec, G, testbit_star by (unfold MaxInt64; lia).
      unfold item_set. cbn [fst snd default from_option id]. by rewrite andb_true_r.
  - rewrite number_not_star, P by lia. cbn [rbind].
    destruct st as [st|]; cbn [rbind default length Nat.eqb]; cbn beta iota in Hst.
    + rewrite Q by done. cbn [rbind]. rewrite Hend by lia. eexists. split; [done|].
      intros i Hi. rewrite Z.lor_spec, G by lia. unfold item_set. cbn [fst snd default from_option id].
      destruct (st >? 1); by rewrite Z.bits_0, orb_false_r.
    + rewrite Hend by (lia || unfold MaxInt64; lia). eexists. split; [done|].
      intros i Hi. rewrite Z.lor_spec, G by (unfold MaxInt64; lia). by rewrite Z.bits_0, orb_false_r.
  - rewrite number_not_star, P by lia. cbn [rbind]. rewrite P by lia. cbn [rbind].
    destruct st as [st|]; cbn [rbind default length Nat.eqb]; cbn beta iota in Hst.
    + rewrite Q by done. cbn [rbind]. rewrite Hend by lia. eexists. split; [done|].
      intros i Hi. rewrite Z.lor_spec, G by lia. unfold item_set. cbn [fst snd default from_option id].
      destruct (st >? 1); by rewrite Z.bits_0, orb_false_r.
    + rewrite Hend by (lia || unfold MaxInt64; lia). eexists. split; [done|].
      intros i Hi. rewrite Z.lor_spec, G by (unfold MaxInt64; lia). by rewrite Z.bits_0, orb_false_r.
Qed.

Lemma getField_go_print r its : bounds_ok r -> names_ok r -> Forall (item_ok r) its ->
  forall bits, exists set, getField_go bits (map print_item its) r = Ok set /\
    forall i, 0 <= i -> Z.testbit set i = Z.testbit bits i || existsb (fun it => item_set r it i) its.
Proof.
  intros Hr Hn. induction 1 as [|it its Hit _ IH]; intros bits.
  - exists bits. split; [done|]. intros. by rewrite orb_false_r.
  - destruct (getRange_print r it Hr Hn Hit) as (b & E & Hb).
    cbn [map getField_go]. rewrite E. cbn [rbind].
    destruct (IH (Z.lor bits b)) as (set & -> & Hset).
    exists set. split; [done|]. intros i Hi. rewrite Hset, Z.lor_spec, Hb by done. simpl.
    by rewrite orb_assoc.
Qed.

Lemma print_item_nonempty r it : item_ok r it -> bounds_ok r -> print_item it <> [].
Proof.
  destruct it as [b st]. intros [Hb _] (H0 & _).
  assert (print_base b <> []).
  { destruct b as [|a|a c]; cbn [fst] in Hb; simpl; [done| |].
    all: destruct (format_uint_cons a ltac:(lia)) as (? & ? & -> & _); done. }
  unfold print_item. cbn [fst snd]. destruct st; [|done].
  destruct (print_base b); done.
Qed.

Lemma fields_func_join r its : bounds_ok r -> Forall (item_ok r) its ->
  fields_func "," (print_items its) = map print_item its.
Proof.
  intros Hr H. unfold fields_func, print_items.
  destruct its as [|it its]; [reflexivity|].
  assert (Hs : split "," (join (str ",") (map print_item (it :: its))) = map print_item (it :: its)).
  { revert it H. induction its as [|jt its IH]; intros it H.
    - simpl. apply split_no_sep. eapply print_item_free; [by inversion H|done].
    - change (map print_item (it :: jt :: its)) with (print_item it :: print_item jt :: map print_item its).
      rewrite join_cons2. change (str "," ++ ?x) with (","%char :: x). inversion H; subst.
      rewrite split_app_sep by (by eapply print_item_free). f_equal. by apply (IH jt). }
  rewrite Hs. clear Hs. induction H as [|jt jts Hj _ IH]; [done|]. simpl. unfold seq_eqb at 1.
  rewrite bool_decide_eq_false_2 by (by eapply print_item_nonempty). simpl. by rewrite IH.
Qed.

(** The parser reads field expressions as the package documents them:
    for a list of stars, numbers and ranges within the bounds, with
    increments, getField of its text succeeds and yields exactly the values
    the elements stand for ("N/step" runs to the maximum, and a star keeps
    the star bit unless an increment above 1 thins it). *)
Theorem getField_print (r : bounds) (its : list item)
  (Hr : bounds_ok r) (Hn : names_ok r) (Hits : Forall (item_ok r) its) :
  exists set, getField (print_items its) r = Ok set /\
    forall i, 0 <= i -> Z.testbit set i = existsb (fun it => item_set r it i) its.
Proof.
  unfold getField. rewrite (fields_func_join r) by done.
  destruct (getField_go_print r its Hr Hn Hits 0) as (set & -> & H).
  exists set. split; [done|]. intros i Hi. by rewrite H, Z.bits_0.
Qed.

Lemma getField_print_witness :
  exists set, getField (print_items [(BRange 9 17, Some 4); (BFrom 20, None)]) hours = Ok set /\
    Z.testbit set 13 = true.
Proof.
  destruct (getField_print hours [(BRange 9 17, Some 4); (BFrom 20, None)]) as (set & E & H).
  - exact hours_ok.
  - constructor.
  - repeat constructor; vm_compute; discriminate.
  - exists set. split; [exact E|]. rewrite (H 13) by lia. reflexivity.
Defined.

(** ** No run-time panic *)

Definition no_panic {A} (r : result error A) : Prop := r <> Err PIndex.

Lemma no_panic_bind {A B} (r : result error A) (f : A -> result error B) :
  no_panic r -> (forall a, r = Ok a -> no_panic (f a)) -> no_panic (rbind r f).
Proof. unfold no_panic. destruct r; simpl; [eauto|congruence]. Qed.

Lemma mustParseInt_no_panic expr : no_panic (mustParseInt expr).
Proof. unfold no_panic, mustParseInt. repeat case_match; done. Qed.

Lemma parseIntOrName_no_panic expr names : no_panic (parseIntOrName expr names).
Proof. unfold parseIntOrName. case_match; [done|apply mustParseInt_no_panic]. Qed.

Lemma getRange_no_panic expr r : no_panic (getRange expr r).
Proof.
  unfold getRange. apply no_panic_bind.
  - case_match; [done|]. apply no_panic_bind; [apply parseIntOrName_no_panic|].
    intros. destruct (split _ _) as [|? [|? [|]]]; try done.
    apply no_panic_bind; [apply parseIntOrName_no_panic|done].
  - intros [[start stop] extra] _. apply no_panic_bind.
    + destruct (split _ _) as [|? [|? [|]]]; try done.
      apply no_panic_bind; [apply mustParseInt_no_panic|done].
    + intros [[stop' step] extra'] _. unfold no_panic. repeat case_match; done.
Qed.

Lemma getField_no_panic field r : no_panic (getField field r).
Proof.
  unfold getField. generalize 0 as bits. induction (fields_func "," field) as [|expr l IH];
    intros bits; simpl; [done|]. apply no_panic_bind; [apply getRange_no_panic|]. intros. apply IH.
Qed.

Lemma expand_ok opts pls : forall defs fs, length defs = length pls ->
  (length (List.filter (has opts) pls) <= length fs)%nat ->
  exists l, expand opts pls defs fs = Ok l /\ length l = length pls.
Proof.
  induction pls as [|p pls IH]; intros [|d defs] fs Hd Hf; simpl in *; try lia; [eauto|].
  destruct (has opts p); simpl in *.
  - destruct fs as [|f fs]; simpl in *; [lia|].
    destruct (IH defs fs) as (l & -> & Hl); [lia..|]. simpl. eexists. split; [done|]. simpl. lia.
  - destruct (IH defs fs) as (l & -> & Hl); [lia..|]. simpl. eexists. split; [done|]. simpl. lia.
Qed.

(** Whatever fields are given, the normalised list has one per place, and
    the indexing of the given fields stays in range. *)
Lemma normalizeFields_ok fs opts :
  no_panic (normalizeFields fs opts) /\
  forall l, normalizeFields fs opts = Ok l -> length l = 6%nat.
Proof.
  unfold normalizeFields. cbv zeta.
  set (so := has opts OptSecondOptional).
  set (opts1 := if so then Z.lor opts OptSecond else opts).
  set (dowo := has opts1 OptDowOptional).
  set (opts2 := if dowo then Z.lor opts1 OptDow else opts1).
  set (optionals := (if so then 1 else 0) + (if dowo then 1 else 0)).
  assert (Ho : 0 <= optionals) by (unfold optionals; destruct so, dowo; lia).
  clearbody optionals opts2. clear opts1 dowo so.
  rewrite Z.gtb_ltb. destruct (Z.ltb_spec 1 optionals); [done|].
  set (n := length (List.filter (has opts2) places)).
  destruct ((Z.of_nat (length fs) <? Z.of_nat n - optionals) || (Z.of_nat (length fs) >? Z.of_nat n)) eqn:E;
    [done|].
  apply orb_false_iff in E as [E1%Z.ltb_ge E2]. rewrite Z.gtb_ltb in E2. apply Z.ltb_ge in E2.
  assert (X : forall fs', (n <= length fs')%nat ->
    no_panic (expand opts2 places defaults fs') /\
    forall l, expand opts2 places defaults fs' = Ok l -> length l = 6%nat).
  { intros fs' Hf. destruct (expand_ok opts2 places defaults fs' eq_refl Hf) as (l & -> & Hl).
    split; [done|]. intros. by simplify_eq. }
  destruct ((Z.of_nat n - optionals <? Z.of_nat n) && (Z.of_nat (length fs) =? Z.of_nat n - optionals)) eqn:F.
  - apply andb_true_iff in F as [F1%Z.ltb_lt F2%Z.eqb_eq].
    destruct (has opts2 OptDowOptional); [|destruct (has opts2 OptSecondOptional)];
      cbn [rbind]; try done; apply X; rewrite ?length_app; simpl; lia.
  - cbn [rbind]. apply X. apply andb_false_iff in F as [F%Z.ltb_ge|F%Z.eqb_neq]; lia.
Qed.

(** Parse never indexes its fields out of range: no spec and no set of
    options makes it panic, and what it rejects it rejects with an error. *)
Theorem Parse_no_panic load pd (p : Parser) (spec : gostring) :
  Parse load pd p spec <> Err PIndex.
Proof.
  fold (no_panic (Parse load pd p spec)).
  unfold Parse. destruct spec as [|c spec]; [done|].
  apply no_panic_bind; [unfold no_panic; repeat case_match; done|].
  intros [loc rest] _. destruct (has_prefix _ rest).
  { case_match; [done|]. unfold no_panic, parseDescriptor. repeat case_match; done. }
  destruct (normalizeFields_ok (fields rest) (options p)) as [Hn Hl].
  apply no_panic_bind; [done|]. intros fs E. specialize (Hl fs E).
  destruct fs as [|f0 [|f1 [|f2 [|f3 [|f4 [|f5 [|]]]]]]]; simpl in Hl; try lia.
  repeat (apply no_panic_bind; [apply getField_no_panic|intros ? _]). done.
Qed.
