(* ===== verification/SqlSplit.v ===== *)
(** db/sqlsplit.go: cutting a migration script into statements at its
    top-level semicolons. *)

From Stdlib Require Import ZArith Lia List Ascii.
From stdpp Require Import base decidable list strings.
From S2P Require Import Prelude GoStrings.

(** ** The scanner *)

Inductive mode :=
| modeNormal | modeLineComment | modeBlockComment
| modeSingleQuote | modeDoubleQuote | modeBacktick | modeDollar.

#[global] Instance mode_eq_dec : EqDecision mode.
Proof. solve_decision. Defined.

(** The variables of splitSQLStatements, but for the position, which is the
    part of the script still to read. *)
Record scan := Scan {
  out : list gostring;
  buf : gostring;
  md : mode;
  tag : gostring;         (* active dollar-quote tag, delimiters included *)
  meaningful : bool;      (* statement content beyond comments/whitespace seen *)
}.

Definition quote : ascii := "'"%char.
Definition dquote : ascii := "034"%char.
Definition backtick : ascii := "`"%char.
Definition dollar : ascii := "$"%char.
Definition semi : ascii := ";"%char.
Definition newline : ascii := "010"%char.
Definition backslash : ascii := "\"%char.

(** The bytes of a dollar-quote tag. *)
Definition tag_byte (c : ascii) : bool :=
  let v := byte_val c in
  beq c "_" || ((97 <=? v) && (v <=? 122)) || ((65 <=? v) && (v <=? 90)) || ((48 <=? v) && (v <=? 57)).

(** The loop of [dollarTagAt]: the rest of the tag, up to its dollar. *)
Fixpoint tag_rest (s : gostring) : option gostring :=
  match s with
  | [] => None
  | c :: s' => if beq c dollar then Some [c]
               else if tag_byte c then (t ← tag_rest s'; Some (c :: t)) else None
  end.

Definition dollarTagAt (s : gostring) : option gostring :=
  match s with
  | c :: s' => if beq c dollar then (t ← tag_rest s'; Some (c :: t)) else None
  | [] => None
  end.

(** [s[i+1]] is [c]. *)
Definition next_is (c : ascii) (s' : gostring) : bool :=
  match s' with d :: _ => beq d c | [] => false end.

Definition flush (st : scan) : scan :=
  let stmt := trim_space (buf st) in
  {| out := if negb (seq_eqb stmt []) && meaningful st then out st ++ [stmt] else out st;
     buf := []; md := md st; tag := tag st; meaningful := false |}.

Definition write (st : scan) (s : gostring) : scan :=
  {| out := out st; buf := buf st ++ s; md := md st; tag := tag st; meaningful := meaningful st |}.

Definition set_mode (st : scan) (m : mode) : scan :=
  {| out := out st; buf := buf st; md := m; tag := tag st; meaningful := meaningful st |}.

Definition mark (st : scan) (b : bool) : scan :=
  {| out := out st; buf := buf st; md := md st; tag := tag st; meaningful := meaningful st || b |}.

Definition set_tag (st : scan) (t : gostring) : scan :=
  {| out := out st; buf := buf st; md := md st; tag := t; meaningful := meaningful st |}.

(** One round of the loop at the byte [c], with [s'] after it: the new state
    and how many bytes the position advances. *)
Definition step (st : scan) (c : ascii) (s' : gostring) : scan * nat :=
  match md st with
  | modeNormal =>
      if beq c "-" && next_is "-" s' then (write (set_mode st modeLineComment) [c], 1%nat)
      else if beq c "/" && next_is "*" s' then (write (set_mode st modeBlockComment) [c], 1%nat)
      else if beq c quote then (write (mark (set_mode st modeSingleQuote) true) [c], 1%nat)
      else if beq c dquote then (write (mark (set_mode st modeDoubleQuote) true) [c], 1%nat)
      else if beq c backtick then (write (mark (set_mode st modeBacktick) true) [c], 1%nat)
      else if beq c dollar then
        match dollarTagAt (c :: s') with
        | Some t => (write (set_tag (mark (set_mode st modeDollar) true) t) t, length t)
        | None => (write (mark st true) [c], 1%nat)
        end
      else if beq c semi then (flush st, 1%nat)
      else (write (mark st (negb (beq c " " || beq c "009" || beq c newline || beq c "013"))) [c], 1%nat)
  | modeLineComment =>
      let st := write st [c] in
      (if beq c newline then set_mode st modeNormal else st, 1%nat)
  | modeBlockComment =>
      let st := write st [c] in
      if beq c "*" && next_is "/" s' then (set_mode (write st (str "/")) modeNormal, 2%nat)
      else (st, 1%nat)
  | modeSingleQuote =>
      let st := write st [c] in
      if beq c backslash then
        match s' with
        | d :: _ => (write st [d], 2%nat)
        | [] => (st, 1%nat)
        end
      else if beq c quote then
        if next_is quote s' then (write st [quote], 2%nat) else (set_mode st modeNormal, 1%nat)
      else (st, 1%nat)
  | modeDoubleQuote =>
      let st := write st [c] in
      if beq c dquote then
        if next_is dquote s' then (write st [dquote], 2%nat) else (set_mode st modeNormal, 1%nat)
      else (st, 1%nat)
  | modeBacktick =>
      let st := write st [c] in
      (if beq c backtick then set_mode st modeNormal else st, 1%nat)
  | modeDollar =>
      if has_prefix (tag st) (c :: s')
      then (set_mode (write st (tag st)) modeNormal, length (tag st))
      else (write st [c], 1%nat)
  end.

Fixpoint scan_from (fuel : nat) (st : scan) (s : gostring) : scan :=
  match fuel, s with
  | O, _ | _, [] => st
  | S fuel', c :: s' => let '(st', n) := step st c s' in scan_from fuel' st' (drop n s)
  end.

Definition scan_init : scan :=
  {| out := []; buf := []; md := modeNormal; tag := []; meaningful := false |}.

(** [splitSQLStatements].  Every round reads a byte at least, so the length
    of the script is fuel enough. *)
Definition splitSQLStatements (script : gostring) : list gostring :=
  out (flush (scan_from (length script) scan_init script)).

(** ** Fuel

    Every round advances, so a run depends on its fuel only up to the length
    of the script. *)

Definition tag_ok (st : scan) : Prop := md st = modeDollar -> tag st <> [].

Lemma tag_rest_length s t : tag_rest s = Some t -> (1 <= length t <= length s)%nat.
Proof.
  revert t. induction s as [|c s IH]; intros t H; simpl in H; [done|].
  destruct (beq c dollar); [simplify_eq; simpl; lia|].
  destruct (tag_byte c); [|done].
  destruct (tag_rest s) as [u|]; simpl in H; [|done].
  specialize (IH u eq_refl). simplify_eq. simpl. lia.
Qed.

Lemma dollarTagAt_length s t : dollarTagAt s = Some t -> (2 <= length t <= length s)%nat.
Proof.
  destruct s as [|c s]; simpl; [done|]. destruct (beq c dollar); [|done].
  destruct (tag_rest s) as [u|] eqn:E; simpl; [|done].
  apply tag_rest_length in E. intros [= <-]. simpl. lia.
Qed.

#[local] Arguments dollarTagAt : simpl never.
#[local] Arguments has_prefix : simpl never.

Lemma step_ok st c s' : tag_ok st -> tag_ok (step st c s').1 /\ (1 <= (step st c s').2)%nat.
Proof.
  unfold tag_ok. intros H. unfold step. destruct (md st) eqn:E;
    repeat case_match; simplify_eq/=; (split; [try congruence; intros _|try lia]);
    try (specialize (H eq_refl); destruct (tag st); simpl in *; done || lia);
    match goal with
    | T : dollarTagAt _ = Some ?t |- _ =>
        apply dollarTagAt_length in T; destruct t; simpl in *; done || lia
    end.
Qed.

Definition scan_all (st : scan) (s : gostring) : scan := scan_from (length s) st s.

Lemma scan_from_fuel n st s : tag_ok st -> (length s <= n)%nat -> scan_from n st s = scan_all st s.
Proof.
  unfold scan_all. remember (length s) as k eqn:Hk.
  revert n st s Hk. induction k as [k IH] using lt_wf_ind. intros n st s -> Ht Hn.
  destruct s as [|c s]; [by destruct n|]. cbn [length] in Hn. destruct n as [|n]; [lia|].
  cbn [scan_from length]. pose proof (step_ok st c s Ht) as [Ht' Hp].
  destruct (step st c s) as [st' p]. simpl in Ht', Hp. destruct p as [|p]; [lia|].
  change (drop (S p) (c :: s)) with (drop p s).
  assert (length (drop p s) <= length s)%nat by (rewrite length_drop; lia).
  rewrite (IH (length (drop p s)) ltac:(simpl; lia) n), (IH (length (drop p s)) ltac:(simpl; lia) (length s));
    done || lia.
Qed.

Lemma scan_all_cons st c s : tag_ok st ->
  scan_all st (c :: s) = scan_all (step st c s).1 (drop (step st c s).2 (c :: s)).
Proof.
  intros Ht. unfold scan_all at 1. cbn [length scan_from].
  pose proof (step_ok st c s Ht) as [Ht' Hp]. destruct (step st c s) as [st' p]. cbn [fst snd] in *.
  apply scan_from_fuel; [done|]. rewrite length_drop. cbn [length]. lia.
Qed.

Lemma scan_all_nil st : scan_all st [] = st.
Proof. reflexivity. Qed.

Lemma scan_all_step st c s st' : tag_ok st -> step st c s = (st', 1%nat) ->
  scan_all st (c :: s) = scan_all st' s.
Proof. intros Ht E. by rewrite (scan_all_cons st c s Ht), E. Qed.

Lemma scan_all_step2 st c d s st' : tag_ok st -> step st c (d :: s) = (st', 2%nat) ->
  scan_all st (c :: d :: s) = scan_all st' s.
Proof. intros Ht E. by rewrite (scan_all_cons st c (d :: s) Ht), E. Qed.

(** ** Chunks: the reference grammar of a script *)

(** An element of a single-quoted string. *)
Inductive sq_item := SqByte (c : ascii) | SqEscape (c : ascii) | SqQuote.

Inductive chunk :=
| Byte (c : ascii)
| LineComment (body : gostring)
| BlockComment (body : gostring)
| SingleQuoted (items : list sq_item)
| DoubleQuoted (name : gostring)
| Backticked (name : gostring)
| DollarQuoted (name body : gostring).

Definition print_sq (i : sq_item) : gostring :=
  match i with SqByte c => [c] | SqEscape c => [backslash; c] | SqQuote => [quote; quote] end.

(** An identifier's quotes are doubled. *)
Definition print_dq (c : ascii) : gostring := if beq c dquote then [dquote; dquote] else [c].

Definition dollar_tag (name : gostring) : gostring := dollar :: name ++ [dollar].

Definition print_chunk (ch : chunk) : gostring :=
  match ch with
  | Byte c => [c]
  | LineComment body => str "--" ++ body ++ [newline]
  | BlockComment body => str "/*" ++ body ++ str "*/"
  | SingleQuoted items => quote :: concat (map print_sq items) ++ [quote]
  | DoubleQuoted name => dquote :: concat (map print_dq name) ++ [dquote]
  | Backticked name => backtick :: name ++ [backtick]
  | DollarQuoted name body => dollar_tag name ++ body ++ dollar_tag name
  end.

Definition blank (c : ascii) : bool := beq c " " || beq c "009" || beq c newline || beq c "013".

Definition chunk_meaningful (ch : chunk) : bool :=
  match ch with
  | Byte c => negb (blank c)
  | LineComment _ | BlockComment _ => false
  | _ => true
  end.

(** [pat] first occurs in [body ++ pat] at its end. *)
Fixpoint first_at (pat body : gostring) : bool :=
  match body with
  | [] => true
  | c :: b => negb (has_prefix pat (c :: b ++ pat)) && first_at pat b
  end.

(** [ch] is one chunk before [rest]: its delimiters are read where it prints
    them. *)
Definition chunk_ok (ch : chunk) (rest : gostring) : Prop :=
  match ch with
  | Byte c =>
      (c ∉ [quote; dquote; backtick; semi])
      /\ (c = "-"%char -> next_is "-" rest = false)
      /\ (c = "/"%char -> next_is "*" rest = false)
      /\ (c = dollar -> dollarTagAt (c :: rest) = None)
  | LineComment body => newline ∉ body
  | BlockComment body => first_at (str "*/") body = true
  | SingleQuoted items =>
      Forall (fun i => match i with SqByte c => c <> quote /\ c <> backslash | _ => True end) items
      /\ next_is quote rest = false
  | DoubleQuoted _ => next_is dquote rest = false
  | Backticked name => backtick ∉ name
  | DollarQuoted name body => forallb tag_byte name = true /\ first_at (dollar_tag name) body = true
  end.

(** Not a block comment that begins with a slash: the star that opens one is read
    again as the star that closes it (splitSQLStatements_slash_star_slash). *)
Definition no_slash (ch : chunk) : bool := match ch with BlockComment body => negb (next_is "/" body) | _ => true end.

Definition chunk_tag (ch : chunk) (old : gostring) : gostring :=
  match ch with DollarQuoted name _ => dollar_tag name | _ => old end.

(** What scanning a chunk does to the state. *)
Definition add_chunk (st : scan) (ch : chunk) : scan :=
  {| out := out st; buf := buf st ++ print_chunk ch; md := modeNormal;
     tag := chunk_tag ch (tag st); meaningful := meaningful st || chunk_meaningful ch |}.

Definition print_stmt (cs : list chunk) : gostring := concat (map print_chunk cs).

(** The text of a script from its second statement on. *)
Definition print_tail (ss : list (list chunk)) : gostring := concat (map (fun s => semi :: print_stmt s) ss).

Fixpoint stmt_ok (cs : list chunk) (rest : gostring) : Prop :=
  match cs with
  | [] => True
  | ch :: cs' => chunk_ok ch (print_stmt cs' ++ rest) /\ stmt_ok cs' rest
  end.

Fixpoint script_ok (ss : list (list chunk)) : Prop :=
  match ss with
  | [] => True
  | s :: ss' => stmt_ok s (print_tail ss') /\ script_ok ss'
  end.

(** What the splitter owes for a statement. *)
Definition statement_of (cs : list chunk) : list gostring :=
  let text := trim_space (print_stmt cs) in
  if negb (seq_eqb text []) && existsb chunk_meaningful cs then [text] else [].

(** *** Each chunk is scanned as a whole *)

Section modes.
Variables (o : list gostring) (m : bool).
#[local] Abbreviation st b t k := (Scan o b k t m).

Lemma scan_line body b t rest : newline ∉ body ->
  scan_all (st b t modeLineComment) (body ++ newline :: rest)
  = scan_all (st (b ++ body ++ [newline]) t modeNormal) rest.
Proof.
  revert b. induction body as [|c body IH]; intros b H.
  - simpl. erewrite scan_all_step; [reflexivity|by intros ?|reflexivity].
  - apply not_elem_of_cons in H as [Hc H]. cbn [app].
    erewrite scan_all_step; [|by intros ?|reflexivity].
    assert (beq c newline = false) as -> by (apply beq_false; congruence).
    cbv [write set_mode out buf md tag meaningful]. rewrite (IH (b ++ [c]) H). by rewrite <- !app_assoc.
Qed.

Lemma scan_backtick name b t rest : backtick ∉ name ->
  scan_all (st b t modeBacktick) (name ++ backtick :: rest)
  = scan_all (st (b ++ name ++ [backtick]) t modeNormal) rest.
Proof.
  revert b. induction name as [|c name IH]; intros b H.
  - simpl. erewrite scan_all_step; [reflexivity|by intros ?|reflexivity].
  - apply not_elem_of_cons in H as [Hc H]. cbn [app].
    erewrite scan_all_step; [|by intros ?|reflexivity].
    assert (beq c backtick = false) as -> by (apply beq_false; congruence).
    cbv [write set_mode out buf md tag meaningful]. rewrite (IH (b ++ [c]) H). by rewrite <- !app_assoc.
Qed.

Lemma scan_double name b t rest : next_is dquote rest = false ->
  scan_all (st b t modeDoubleQuote) (concat (map print_dq name) ++ dquote :: rest)
  = scan_all (st (b ++ concat (map print_dq name) ++ [dquote]) t modeNormal) rest.
Proof.
  intros Hr. revert b. induction name as [|c name IH]; intros b.
  - simpl. erewrite scan_all_step; [|by intros ?|unfold step; cbn; rewrite Hr; reflexivity].
    reflexivity.
  - cbn [map concat]. unfold print_dq at 1 3. destruct (beq c dquote) eqn:E; cbn [app].
    + erewrite scan_all_step2; [|by intros ?|reflexivity].
      cbv [write set_mode out buf md tag meaningful]. rewrite <- app_assoc.
      rewrite (IH (b ++ [dquote] ++ [dquote])). by rewrite <- !app_assoc.
    + erewrite scan_all_step; [|by intros ?|unfold step; cbn; rewrite E; reflexivity].
      cbv [write set_mode out buf md tag meaningful]. rewrite (IH (b ++ [c])). by rewrite <- !app_assoc.
Qed.

Lemma scan_single items b t rest :
  Forall (fun i => match i with SqByte c => c <> quote /\ c <> backslash | _ => True end) items ->
  next_is quote rest = false ->
  scan_all (st b t modeSingleQuote) (concat (map print_sq items) ++ quote :: rest)
  = scan_all (st (b ++ concat (map print_sq items) ++ [quote]) t modeNormal) rest.
Proof.
  intros Hi Hr. revert b. induction Hi as [|i items Hi _ IH]; intros b.
  - simpl. erewrite scan_all_step; [|by intros ?|unfold step; cbn; rewrite Hr; reflexivity].
    reflexivity.
  - cbn [map concat]. destruct i as [c|c|]; cbn [print_sq app].
    + destruct Hi as [H1 H2]. apply beq_false in H1, H2.
      erewrite scan_all_step; [|by intros ?|unfold step; cbn; rewrite H1, H2; reflexivity].
      cbv [write set_mode out buf md tag meaningful]. rewrite (IH (b ++ [c])). by rewrite <- !app_assoc.
    + erewrite scan_all_step2; [|by intros ?|reflexivity].
      cbv [write set_mode out buf md tag meaningful]. rewrite <- app_assoc.
      rewrite (IH (b ++ [backslash] ++ [c])). by rewrite <- !app_assoc.
    + erewrite scan_all_step2; [|by intros ?|reflexivity].
      cbv [write set_mode out buf md tag meaningful]. rewrite <- app_assoc.
      rewrite (IH (b ++ [quote] ++ [quote])). by rewrite <- !app_assoc.
Qed.

(** A delimiter's first occurrence does not depend on what follows it. *)
Lemma has_prefix_long p s u : (length p <= length s)%nat -> has_prefix p (s ++ u) = has_prefix p s.
Proof.
  revert s. induction p as [|c p IH]; intros [|d s] H; simpl in H; try done; try lia.
  unfold has_prefix; fold has_prefix. cbn [app]. f_equal. apply IH. lia.
Qed.

Lemma first_at_here c body pat rest :
  first_at pat (c :: body) = true ->
  has_prefix pat (c :: (body ++ pat) ++ rest) = false /\ first_at pat body = true.
Proof.
  cbn [first_at]. rewrite andb_true_iff, negb_true_iff. intros [H1 H2]. split; [|done].
  rewrite <- H1. apply (has_prefix_long pat (c :: body ++ pat) rest).
  cbn [length]. rewrite length_app. lia.
Qed.

Lemma close_prefix c s : beq c "*" && next_is "/" s = has_prefix (str "*/") (c :: s).
Proof.
  unfold has_prefix, str. cbn. unfold beq, next_is. destruct s as [|d s].
  - by rewrite !andb_false_r.
  - rewrite andb_true_r. f_equal; apply bool_decide_ext; naive_solver.
Qed.

Lemma scan_block body b t rest : first_at (str "*/") body = true ->
  scan_all (st b t modeBlockComment) (body ++ str "*/" ++ rest)
  = scan_all (st (b ++ body ++ str "*/") t modeNormal) rest.
Proof.
  revert b. induction body as [|c body IH]; intros b H.
  - cbn [app str String.list_ascii_of_string].
    erewrite scan_all_step2; [|by intros ?|reflexivity].
    cbv [write set_mode out buf md tag meaningful]. by rewrite <- app_assoc.
  - destruct (first_at_here _ _ _ rest H) as [Hn Hf]. cbn [app]. rewrite app_assoc.
    erewrite scan_all_step; [|by intros ?|].
    2: { unfold step. cbn [md]. rewrite close_prefix, Hn. reflexivity. }
    cbv [write set_mode out buf md tag meaningful]. rewrite <- app_assoc, (IH (b ++ [c]) Hf).
    by rewrite <- !app_assoc.
Qed.

Lemma scan_dollar body b t rest : t <> [] -> first_at t body = true ->
  scan_all (st b t modeDollar) (body ++ t ++ rest)
  = scan_all (st (b ++ body ++ t) t modeNormal) rest.
Proof.
  intros Ht. revert b. induction body as [|c body IH]; intros b H.
  - cbn [app]. destruct t as [|d t]; [done|]. cbn [app].
    rewrite scan_all_cons by (by unfold tag_ok). unfold step. cbn [md tag].
    change (d :: t ++ rest) with ((d :: t) ++ rest). rewrite has_prefix_app.
    cbn [fst snd]. by rewrite drop_app_length.
  - destruct (first_at_here _ _ _ rest H) as [Hn Hf]. cbn [app]. rewrite app_assoc.
    erewrite scan_all_step; [|by unfold tag_ok|].
    2: { unfold step. cbn [md tag]. rewrite Hn. reflexivity. }
    cbv [write set_mode out buf md tag meaningful]. rewrite <- app_assoc, (IH (b ++ [c]) Hf).
    by rewrite <- !app_assoc.
Qed.
End modes.

Lemma tag_rest_name name s : forallb tag_byte name = true ->
  tag_rest (name ++ dollar :: s) = Some (name ++ [dollar]).
Proof.
  induction name as [|c name IH]; intros H; [done|].
  cbn [forallb] in H. apply andb_true_iff in H as [Hc H]. cbn [app tag_rest].
  destruct (beq c dollar) eqn:E; [apply beq_true in E; subst; by vm_compute in Hc|].
  by rewrite Hc, IH.
Qed.

Lemma dollarTagAt_name name s : forallb tag_byte name = true ->
  dollarTagAt (dollar_tag name ++ s) = Some (dollar_tag name).
Proof.
  intros H. unfold dollarTagAt, dollar_tag. cbn [app]. rewrite beq_refl, <- app_assoc.
  cbn [app]. by rewrite tag_rest_name.
Qed.

(** The scanner reads the body of a block comment from the opener's star on. *)
Lemma first_at_star body : first_at (str "*/") body = true -> next_is "/" body = false -> first_at (str "*/") ("*"%char :: body) = true.
Proof. intros F N. cbn [first_at]. rewrite F, andb_true_r, <- close_prefix. by destruct body; cbn in *; rewrite ?N. Qed.

Lemma scan_chunk st ch rest : md st = modeNormal -> chunk_ok ch rest -> no_slash ch = true ->
  scan_all st (print_chunk ch ++ rest) = scan_all (add_chunk st ch) rest.
Proof.
  destruct st as [o b k t m]. cbn [md]. intros -> H NS. unfold add_chunk; cbn [out buf tag meaningful].
  destruct ch as [c|body|body|items|name|name|name body]; cbn [print_chunk chunk_meaningful chunk_tag].
  - destruct H as (Hin & Hd & Hs & Hdl). cbn [app].
    rewrite !not_elem_of_cons in Hin. destruct Hin as (Hq & Hdq & Hb & Hsc & _).
    erewrite scan_all_step; [reflexivity|by intros ?|]. unfold step. cbn [md].
    assert (beq c "-" && next_is "-" rest = false) as ->
      by (destruct (beq c "-") eqn:E; [apply beq_true in E; by rewrite Hd|done]).
    assert (beq c "/" && next_is "*" rest = false) as ->
      by (destruct (beq c "/") eqn:E; [apply beq_true in E; by rewrite Hs|done]).
    apply beq_false in Hq, Hdq, Hb, Hsc. rewrite Hq, Hdq, Hb.
    destruct (beq c dollar) eqn:E; [|by rewrite Hsc].
    apply beq_true in E as ->. rewrite Hdl by done. reflexivity.
  - cbn [app str String.list_ascii_of_string]. rewrite <- app_assoc. cbn [app].
    erewrite scan_all_step; [|by intros ?|reflexivity].
    cbv [write set_mode out buf md tag meaningful].
    etrans; [apply (scan_line o m ("-"%char :: body)); by apply not_elem_of_cons|].
    by rewrite <- !app_assoc, orb_false_r.
  - cbn [app str String.list_ascii_of_string]. rewrite <- app_assoc.
    erewrite scan_all_step; [|by intros ?|reflexivity].
    cbv [write set_mode out buf md tag meaningful].
    apply negb_true_iff in NS. etrans; [apply (scan_block o m ("*"%char :: body) _ _ _ (first_at_star _ H NS))|]. by rewrite <- !app_assoc, orb_false_r.
  - destruct H as [Hi Hr]. cbn [app]. rewrite <- app_assoc.
    erewrite scan_all_step; [|by intros ?|reflexivity].
    cbv [write set_mode mark out buf md tag meaningful]. cbn [app].
    rewrite (scan_single o (m || true) _ _ _ _ Hi Hr). by rewrite <- !app_assoc.
  - cbn [app]. rewrite <- app_assoc.
    erewrite scan_all_step; [|by intros ?|reflexivity].
    cbv [write set_mode mark out buf md tag meaningful]. cbn [app].
    rewrite (scan_double o (m || true) _ _ _ _ H). by rewrite <- !app_assoc.
  - cbn [app]. rewrite <- app_assoc.
    erewrite scan_all_step; [|by intros ?|reflexivity].
    cbv [write set_mode mark out buf md tag meaningful]. cbn [app].
    rewrite (scan_backtick o (m || true) _ _ _ _ H). by rewrite <- !app_assoc.
  - destruct H as [Hn Hf]. rewrite <- !app_assoc. unfold dollar_tag at 1. cbn [app].
    rewrite scan_all_cons by (by intros ?). unfold step. cbn [md].
    change (dollar :: (name ++ [dollar]) ++ body ++ dollar_tag name ++ rest)
      with (dollar_tag name ++ body ++ dollar_tag name ++ rest).
    change (beq dollar "-" && _) with false. change (beq dollar "/" && _) with false.
    change (beq dollar quote) with false. change (beq dollar dquote) with false.
    change (beq dollar backtick) with false. change (beq dollar dollar) with true.
    cbn iota. rewrite dollarTagAt_name by done. cbn [fst snd]. rewrite drop_app_length.
    cbv [write set_mode set_tag mark out buf md tag meaningful].
    rewrite scan_dollar by done. by rewrite <- !app_assoc.
Qed.

(** *** Statements and scripts *)

Definition add_chunks (st : scan) (cs : list chunk) : scan := fold_left add_chunk cs st.

Lemma scan_stmt cs st rest : md st = modeNormal -> stmt_ok cs rest -> forallb no_slash cs = true ->
  scan_all st (print_stmt cs ++ rest) = scan_all (add_chunks st cs) rest.
Proof.
  revert st. induction cs as [|ch cs IH]; intros st Hm H NS; [done|].
  destruct H as [Hc H]. cbn [forallb] in NS. apply andb_true_iff in NS as [NS1 NS]. unfold print_stmt. cbn [map concat]. rewrite <- app_assoc.
  rewrite scan_chunk by done. by rewrite IH.
Qed.

Lemma add_chunks_fields cs st :
  out (add_chunks st cs) = out st
  /\ buf (add_chunks st cs) = buf st ++ print_stmt cs
  /\ meaningful (add_chunks st cs) = meaningful st || existsb chunk_meaningful cs
  /\ (md st = modeNormal -> md (add_chunks st cs) = modeNormal).
Proof.
  unfold print_stmt. revert st. induction cs as [|ch cs IH]; intros st.
  - simpl. by rewrite app_nil_r, orb_false_r.
  - destruct (IH (add_chunk st ch)) as (H1 & H2 & H3 & H4). cbn [add_chunks fold_left].
    fold (add_chunks (add_chunk st ch) cs). rewrite H1, H2, H3. unfold add_chunk at 1 2 3.
    cbn [out buf meaningful map concat existsb]. rewrite <- app_assoc, orb_assoc.
    repeat split; try done. intros _. by apply H4.
Qed.

Lemma flush_chunks st cs : buf st = [] -> meaningful st = false ->
  out (flush (add_chunks st cs)) = out st ++ statement_of cs.
Proof.
  intros Hb Hm. destruct (add_chunks_fields cs st) as (H1 & H2 & H3 & _).
  unfold flush. cbn [out]. rewrite H1, H2, H3, Hb, Hm. cbn [app orb]. unfold statement_of.
  destruct (_ && _); [done|]. by rewrite app_nil_r.
Qed.

Lemma scan_tail ss st : md st = modeNormal -> buf st = [] -> meaningful st = false ->
  forall cs, script_ok (cs :: ss) -> forallb (forallb no_slash) (cs :: ss) = true ->
  out (flush (scan_all st (print_stmt cs ++ print_tail ss)))
  = out st ++ flat_map statement_of (cs :: ss).
Proof.
  revert st. induction ss as [|cs' ss IH]; intros st Hm Hb Hf cs [Hs H] [NS1 NS]%andb_true_iff.
  - rewrite scan_stmt by done. rewrite scan_all_nil, flush_chunks by done.
    cbn [flat_map]. by rewrite app_nil_r.
  - rewrite scan_stmt by done. unfold print_tail. cbn [map concat app].
    destruct (add_chunks_fields cs st) as (_ & _ & _ & Hm'). specialize (Hm' Hm).
    rewrite (scan_all_step _ _ _ (flush (add_chunks st cs))).
    + fold (print_tail ss). cbn [flat_map]. rewrite IH; try done.
      rewrite flush_chunks by done. by rewrite <- app_assoc.
    + unfold tag_ok. congruence.
    + unfold step. by rewrite Hm'.
Qed.

Lemma print_script_join cs ss :
  join [semi] (map print_stmt (cs :: ss)) = print_stmt cs ++ print_tail ss.
Proof.
  revert cs. induction ss as [|cs' ss IH]; intros cs; [by rewrite app_nil_r|].
  cbn [map]. rewrite join_cons2. cbn [map] in IH. rewrite IH. reflexivity.
Qed.

(** [C40] The splitter reads the documented grammar, but for block comments that
    begin with a slash: a script printed from statements made of ordinary bytes,
    comments, quoted strings and identifiers and dollar-quoted bodies, joined by
    semicolons, is cut into exactly those statements, trimmed, without the ones
    that hold only comments and white space; semicolons inside the quotes and
    the comments cut nothing. *)
Theorem splitSQLStatements_print (cs : list chunk) (ss : list (list chunk))
  (H : script_ok (cs :: ss)) (NS : forallb (forallb no_slash) (cs :: ss) = true) :
  splitSQLStatements (join [semi] (map print_stmt (cs :: ss))) = flat_map statement_of (cs :: ss).
Proof. rewrite print_script_join. by apply (scan_tail ss scan_init). Qed.

Definition script_example : list chunk * list (list chunk) :=
  ( [Byte "S"; Byte " "; SingleQuoted [SqByte ";"; SqQuote; SqEscape "'"]],
    [ [Byte " "; LineComment (str " a;b")];
      [BlockComment (str " ; "); Byte "x"; DollarQuoted (str "f") (str "a;$$")] ] ).

Lemma splitSQLStatements_print_witness :
  splitSQLStatements (str "S ';''\''; -- a;b
;/* ; */x$f$a;$$$f$") = [str "S ';''\''"; str "/* ; */x$f$a;$$$f$"].
Proof.
  apply (splitSQLStatements_print script_example.1 script_example.2); [|reflexivity].
  repeat split; try done.
  3: { apply Forall_cons; split; [split; intros [=]|]. by repeat constructor. }
  all: apply (bool_decide_unpack _); vm_compute; done.
Defined.

(** Every round keeps what it reads: the text of a run is the statements it
    flushed, their semicolons, and the buffer. *)
Definition piece_kept (p : gostring * bool) : bool := negb (seq_eqb (trim_space p.1) []) && p.2.

Definition kept (pieces : list (gostring * bool)) (st : scan) : Prop :=
  out st = map (fun p => trim_space p.1) (List.filter piece_kept pieces).

Definition cut_text (pieces : list (gostring * bool)) : gostring :=
  concat (map (fun p => p.1 ++ [semi]) pieces).

Lemma tag_rest_take s t : tag_rest s = Some t -> take (length t) s = t.
Proof.
  revert t. induction s as [|c s IH]; intros t H; simpl in H; [done|].
  destruct (beq c dollar); [by simplify_eq|]. destruct (tag_byte c); [|done].
  destruct (tag_rest s) as [u|]; simpl in H; [|done]. simplify_eq. simpl. by rewrite IH.
Qed.

Lemma dollarTagAt_take s t : dollarTagAt s = Some t -> take (length t) s = t.
Proof.
  unfold dollarTagAt. destruct s as [|c s]; [done|]. destruct (beq c dollar); [|done].
  destruct (tag_rest s) as [u|] eqn:E; simpl; [|done]. apply tag_rest_take in E.
  intros [= <-]. simpl. by rewrite E.
Qed.

Lemma has_prefix_take p s : has_prefix p s = true -> take (length p) s = p.
Proof. intros (u & ->)%has_prefix_spec. by rewrite take_app_length. Qed.

(** A round that flushes nothing appends what it reads to the buffer. *)
Lemma step_reads st c s' : ~ (md st = modeNormal /\ c = semi) ->
  out (step st c s').1 = out st
  /\ buf (step st c s').1 = buf st ++ take (step st c s').2 (c :: s').
Proof.
  intros Hn.
  assert (Es : md st = modeNormal -> beq c semi = false) by (intros; apply beq_false; naive_solver).
  clear Hn. unfold step. destruct (md st) eqn:E; try rewrite (Es eq_refl); clear Es E.
  all: repeat case_match; cbn [fst snd write set_mode set_tag mark out buf md tag meaningful take];
    rewrite <- ?app_assoc; (split; [done|]); f_equal;
    repeat match goal with
    | H : _ && _ = true |- _ => apply andb_true_iff in H as []
    | H : next_is _ ?l = true |- _ => destruct l; cbn in H; [done|apply beq_true in H; subst]
    end; try done;
    match goal with
    | T : dollarTagAt _ = Some _ |- _ => by apply dollarTagAt_take in T
    | T : has_prefix _ _ = true |- _ => by apply has_prefix_take in T
    end.
Qed.

Lemma step_flush st s' : md st = modeNormal -> step st semi s' = (flush st, 1%nat).
Proof. intros E. unfold step. by rewrite E. Qed.

Lemma step_keeps st c s' pieces : kept pieces st ->
  exists pieces', kept pieces' (step st c s').1
    /\ cut_text pieces' ++ buf (step st c s').1 ++ drop (step st c s').2 (c :: s')
       = cut_text pieces ++ buf st ++ c :: s'.
Proof.
  intros K. destruct (decide (md st = modeNormal /\ c = semi)) as [[E ->]|Hn].
  - rewrite step_flush by done. exists (pieces ++ [(buf st, meaningful st)]).
    unfold kept, flush, cut_text in *. cbn [out buf fst snd drop app].
    rewrite List.filter_app, !map_app, <- K, concat_app. cbn [map concat fst List.filter].
    rewrite !app_nil_r, <- !app_assoc. split; [|done]. unfold piece_kept at 1. cbn [fst snd].
    destruct (_ && _); [done|by rewrite app_nil_r].
  - destruct (step_reads st c s' Hn) as [Ho Hb]. exists pieces. unfold kept in *.
    by rewrite Ho, Hb, <- (app_assoc (buf st)), take_drop.
Qed.

Lemma scan_keeps s st pieces : tag_ok st -> kept pieces st ->
  exists pieces', kept pieces' (scan_all st s)
    /\ cut_text pieces' ++ buf (scan_all st s) = cut_text pieces ++ buf st ++ s.
Proof.
  remember (length s) as n eqn:Hn. revert s st pieces Hn.
  induction n as [n IH] using lt_wf_ind. intros s st pieces -> Ht K.
  destruct s as [|c s].
  - exists pieces. rewrite scan_all_nil, app_nil_r. done.
  - rewrite scan_all_cons by done. destruct (step_ok st c s Ht) as [Ht' Hp].
    destruct (step_keeps st c s pieces K) as (ps & K' & E).
    edestruct (IH (length (drop (step st c s).2 (c :: s)))) as (ps' & K2 & E2);
      [rewrite length_drop; cbn [length]; lia|reflexivity|exact Ht'|exact K'|].
    exists ps'. by rewrite E2, E.
Qed.

(** The splitter loses and reorders nothing, on any script: the script
    is some pieces joined by the semicolons it is cut at, and the result is
    the pieces' trimmed texts in order, without the empty ones and those
    without content; and its loop has ended, however much longer it might
    run. *)
Theorem splitSQLStatements_conserves (script : gostring) (fuel : nat)
  (Hfuel : (length script <= fuel)%nat) :
  splitSQLStatements script = out (flush (scan_from fuel scan_init script))
  /\ exists pieces : list (gostring * bool),
    join [semi] (map fst pieces) = script
    /\ splitSQLStatements script
       = map (fun p => trim_space p.1)
           (List.filter piece_kept pieces).
Proof.
  assert (T : tag_ok scan_init) by done. unfold splitSQLStatements. split.
  - by rewrite !scan_from_fuel by done.
  - destruct (scan_keeps script scan_init [] T eq_refl) as (ps & K & E).
    fold (scan_all scan_init script). set (st := scan_all scan_init script) in *.
    exists (ps ++ [(buf st, meaningful st)]). split.
    + cbn in E. rewrite <- E. clear. unfold cut_text. induction ps as [|p ps IH]; [done|].
      cbn [app map concat]. rewrite <- !app_assoc, <- IH.
      destruct (map fst (ps ++ _)) eqn:F; [by destruct ps|]. by rewrite join_cons2.
    + unfold flush; cbn [out]. unfold kept in K.
      rewrite List.filter_app, map_app. cbn [List.filter fst snd map].
      change (piece_kept (buf st, meaningful st)) with
        (negb (seq_eqb (trim_space (buf st)) []) && meaningful st).
      rewrite <- K. destruct (_ && _); [done|]. by rewrite app_nil_r.
Qed.

Lemma splitSQLStatements_conserves_witness :
  exists pieces : list (gostring * bool), join [semi] (map fst pieces) = str "a;b".
Proof.
  destruct (splitSQLStatements_conserves (str "a;b") 9 ltac:(cbn; lia)) as (_ & ps & H & _).
  by exists ps.
Defined.

(** *** A comment that opens with "/*/" *)

Definition plain_byte (c : ascii) : bool :=
  negb (existsb (beq c) [quote; dquote; backtick; semi; dollar; "-"%char; "/"%char]).

Lemma stmt_ok_bytes a rest : forallb plain_byte a = true -> stmt_ok (map Byte a) rest.
Proof.
  induction a as [|c a IH]; intros H; [done|]. cbn [forallb] in H.
  apply andb_true_iff in H as [Hc H]. cbn [map stmt_ok]. split; [|by apply IH].
  unfold plain_byte in Hc. cbn [existsb] in Hc.
  rewrite negb_true_iff, !orb_false_iff, !beq_false in Hc.
  destruct Hc as (? & ? & ? & ? & ? & ? & ? & _). cbn [chunk_ok]. split; [|done].
  rewrite !not_elem_of_cons. repeat split; try done. apply not_elem_of_nil.
Qed.

Lemma print_stmt_bytes a : print_stmt (map Byte a) = a.
Proof. unfold print_stmt. induction a as [|c a IH]; [done|]. simpl. by rewrite IH. Qed.

Lemma no_slash_bytes a : forallb no_slash (map Byte a) = true.
Proof. by induction a. Qed.

Lemma existsb_bytes a : existsb chunk_meaningful (map Byte a) = existsb (fun c => negb (blank c)) a.
Proof. induction a as [|c a IH]; [done|]. simpl. by rewrite IH. Qed.

(** The star that opens a block comment is read again as the star that
    closes it: after "/*/" the scanner is outside the comment, so a
    semicolon in what SQL reads as the comment's text cuts the script. *)
Theorem splitSQLStatements_slash_star_slash (a b : gostring)
  (Ha : forallb plain_byte a = true) (Hb : forallb plain_byte b = true) :
  splitSQLStatements (str "/*/" ++ a ++ semi :: b)
  = (let text := trim_space (str "/*/" ++ a) in
     if negb (seq_eqb text []) && existsb (fun c => negb (blank c)) a then [text] else [])
    ++ statement_of (map Byte b).
Proof.
  unfold splitSQLStatements. fold (scan_all scan_init (str "/*/" ++ a ++ semi :: b)).
  assert (E : scan_all scan_init (str "/*/" ++ a ++ semi :: b)
              = scan_all (Scan [] (str "/*/") modeNormal [] false) (a ++ semi :: b)).
  { cbn [app str String.list_ascii_of_string].
    erewrite scan_all_step; [|by intros ?|reflexivity].
    erewrite scan_all_step2; [|by intros ?|reflexivity]. reflexivity. }
  rewrite E. set (st := Scan [] (str "/*/") modeNormal [] false).
  rewrite <- (print_stmt_bytes a) at 1. rewrite scan_stmt by (done || (by apply stmt_ok_bytes) || apply no_slash_bytes).
  destruct (add_chunks_fields (map Byte a) st) as (H1 & H2 & H3 & H4).
  rewrite (scan_all_step _ _ _ (flush (add_chunks st (map Byte a))));
    [|unfold tag_ok; by rewrite H4|unfold step; by rewrite H4].
  rewrite <- (print_stmt_bytes b) at 1. rewrite <- (app_nil_r (print_stmt (map Byte b))).
  rewrite scan_stmt by (first [by apply stmt_ok_bytes|by apply H4|apply no_slash_bytes]).
  rewrite scan_all_nil, flush_chunks by done. f_equal.
  unfold flush. cbn [out]. rewrite H1, H2, H3, print_stmt_bytes, existsb_bytes. done.
Qed.

Lemma splitSQLStatements_slash_star_slash_witness :
  splitSQLStatements (str "/*/ a; b *") = [str "/*/ a"; str "b *"].
Proof. apply (splitSQLStatements_slash_star_slash (str " a") (str " b *")); reflexivity. Defined.
