(* ===== verification/Breaker.v ===== *)
(** cache/breaker.go: the circuit breaker in front of the Redis layer, as a
    state machine driven by interleaved calls. *)

From Stdlib Require Import ZArith Lia List.
From stdpp Require Import base decidable list relations.
From S2P Require Import Prelude.

(** ** The breaker *)

Inductive breakerState := closed | open | halfOpen.

#[global] Instance breakerState_eq_dec : EqDecision breakerState.
Proof. solve_decision. Defined.

(** The fields newBreaker fixes. *)
Record breaker_config := {
  threshold : Z; reset : Z; successes : Z; probeTimeout : Z;
}.

(** The fields the mutex guards. *)
Record breaker := Breaker {
  state : breakerState;
  failures : Z;       (* in a row, while closed *)
  streak : Z;         (* successful probes in a row, while half-open *)
  openedAt : Z;       (* when it last opened *)
  probing : bool;     (* a probe is in flight *)
  probeAt : Z;        (* when it started *)
}.

(** [newBreaker]: the zero time stands in the instants not yet set. *)
Definition new_config (threshold reset successes probeTimeout : Z) : breaker_config :=
  {| threshold := threshold; reset := reset; successes := successes;
     probeTimeout := Z.min probeTimeout reset |}.

Definition newBreaker : breaker :=
  {| state := closed; failures := 0; streak := 0; openedAt := 0; probing := false; probeAt := 0 |}.

Section breaker.
Context (cfg : breaker_config).

Definition reopen (b : breaker) (now : Z) : breaker :=
  {| state := open; failures := failures b; streak := 0; openedAt := now;
     probing := false; probeAt := probeAt b |}.

(** The end of [allow], half-open. *)
Definition allow_half (now : Z) (b : breaker) : breaker * (bool * bool) :=
  if probing b then
    if now - probeAt b <? reset cfg then (b, (false, false))
    else (reopen b now, (false, false))
  else
    ({| state := state b; failures := failures b; streak := streak b; openedAt := openedAt b;
        probing := true; probeAt := now |}, (true, true)).

(** [allow] at [now]: the pair is (probe, ok). *)
Definition allow (now : Z) (b : breaker) : breaker * (bool * bool) :=
  match state b with
  | closed => (b, (false, true))
  | open =>
      if now - openedAt b <? reset cfg then (b, (false, false))
      else allow_half now
             {| state := halfOpen; failures := failures b; streak := 0; openedAt := openedAt b;
                probing := false; probeAt := probeAt b |}
  | halfOpen => allow_half now b
  end.

(** [record] at [now]: [ended] is [ctx.Err() != nil], [failed] is
    [err != nil]. *)
Definition record (now : Z) (ended failed probe : bool) (b : breaker) : breaker :=
  let b := if probe
           then {| state := state b; failures := failures b; streak := streak b;
                   openedAt := openedAt b; probing := false; probeAt := probeAt b |}
           else b in
  if failed && negb probe && ended then b
  else match state b with
       | closed =>
           if negb failed
           then {| state := closed; failures := 0; streak := streak b; openedAt := openedAt b;
                   probing := probing b; probeAt := probeAt b |}
           else
             let n := failures b + 1 in
             if n >=? threshold cfg
             then {| state := open; failures := n; streak := streak b; openedAt := now;
                     probing := probing b; probeAt := probeAt b |}
             else {| state := closed; failures := n; streak := streak b; openedAt := openedAt b;
                     probing := probing b; probeAt := probeAt b |}
       | halfOpen =>
           if probe then
             if negb failed then
               let n := streak b + 1 in
               if n >=? successes cfg
               then {| state := closed; failures := 0; streak := 0; openedAt := openedAt b;
                       probing := probing b; probeAt := probeAt b |}
               else {| state := halfOpen; failures := failures b; streak := n;
                       openedAt := openedAt b; probing := probing b; probeAt := probeAt b |}
             else reopen b now
           else b
       | open => b
       end.

(** [callContext]: a probe runs under its own deadline, another call under
    its caller's. *)
Definition callDeadline (now : Z) (caller : option Z) (probe : bool) : option Z :=
  if probe then Some (now + probeTimeout cfg) else caller.

(** ** Guarded calls

    [get], [set] and [del] put one call of the inner layer between allow, at
    [t0], and record, at [t1].  The inner call is given the deadline and
    yields its answer; while it runs other calls may change the breaker, so
    the three are modelled by their two locked halves, and by their
    composition [guard] where nothing runs between. *)

Definition guard {A} (t0 t1 : Z) (ended : bool) (caller : option Z) (miss : A)
  (inner : option Z -> result unit A) (b : breaker) : breaker * A :=
  let '(b, (probe, ok)) := allow t0 b in
  if negb ok then (b, miss)
  else
    let r := inner (callDeadline t0 caller probe) in
    let b := record t1 ended (negb (is_ok r)) probe b in
    (b, match r with Ok v => v | Err _ => miss end).

Definition breaker_get {V} (t0 t1 : Z) (ended : bool) (caller : option Z)
  (inner : option Z -> result unit (option V)) (b : breaker) : breaker * option V :=
  guard t0 t1 ended caller None inner b.

(** [set] and [del] answer nil whatever the inner layer says. *)
Definition breaker_set (t0 t1 : Z) (ended : bool) (caller : option Z)
  (inner : option Z -> result unit unit) (b : breaker) : breaker * unit :=
  guard t0 t1 ended caller tt inner b.

(** ** Interleaved calls

    The calls in flight: whether each is a probe, and when allow let it
    through. *)

Record system := System { clock : Z; brk : breaker; flight : list (bool * Z) }.

Inductive sys_step : system -> system -> Prop :=
| sys_tick s now : clock s <= now ->
    sys_step s {| clock := now; brk := brk s; flight := flight s |}
| sys_denied s b probe :
    allow (clock s) (brk s) = (b, (probe, false)) ->
    sys_step s {| clock := clock s; brk := b; flight := flight s |}
| sys_allowed s b probe :
    allow (clock s) (brk s) = (b, (probe, true)) ->
    sys_step s {| clock := clock s; brk := b; flight := (probe, clock s) :: flight s |}
| sys_recorded s l1 l2 probe t ended failed :
    flight s = l1 ++ (probe, t) :: l2 ->
    sys_step s {| clock := clock s; brk := record (clock s) ended failed probe (brk s);
                  flight := l1 ++ l2 |}.

Definition sys_init : system := {| clock := 0; brk := newBreaker; flight := [] |}.

(** Runs in which a property of states holds throughout. *)
Inductive sys_run (P : system -> Prop) : system -> Prop :=
| run_init : P sys_init -> sys_run P sys_init
| run_step s s' : sys_run P s -> sys_step s s' -> P s' -> sys_run P s'.

(** The start times of the probes in flight. *)
Definition probes (s : system) : list Z := map snd (List.filter fst (flight s)).

(** Every probe has returned before the reset period is over: what its
    deadline is for. *)
Definition prompt (s : system) : Prop := Forall (fun t => clock s < t + reset cfg) (probes s).
End breaker.

(** ** Invariants *)

Section proofs.
Context (cfg : breaker_config) (Ht : 0 < threshold cfg) (Hs : 0 < successes cfg).

Record breaker_wf (b : breaker) : Prop := {
  wf_failures : 0 <= failures b;
  wf_closed : state b = closed -> failures b < threshold cfg;
  wf_half : state b = halfOpen -> 0 <= streak b < successes cfg;
  wf_probing : probing b = true -> state b = halfOpen;
}.

Ltac brk :=
  repeat match goal with
  | b : breaker |- _ => destruct b
  end;
  unfold allow, allow_half, record, reopen in *; cbn [state failures streak openedAt probing probeAt fst snd] in *;
  repeat case_match; simplify_eq/=.

Lemma newBreaker_wf : breaker_wf newBreaker.
Proof. split; cbn; intros; done || lia. Qed.

Lemma allow_wf now b : breaker_wf b -> breaker_wf (allow cfg now b).1.
Proof. intros []. brk; split; cbn in *; intros; try done; try lia; auto. Qed.

Lemma record_wf now ended failed probe b : breaker_wf b -> breaker_wf (record cfg now ended failed probe b).
Proof.
  intros []. brk; split; cbn in *; intros; try done; Zbool; auto.
  all: rewrite ?Z.geb_leb in *; Zbool; try naive_solver lia.
Qed.

Lemma run_wf P s : sys_run cfg P s -> breaker_wf (brk s).
Proof.
  induction 1 as [|s s' _ IH St _]; [apply newBreaker_wf|].
  inversion St; subst; cbn [brk]; try done.
  1-2: pose proof (allow_wf (clock s) (brk s) IH) as W; by rewrite H in W.
  by apply record_wf.
Qed.

(** allow lets a call through exactly in these ways. *)
Lemma allow_cases now b : breaker_wf b ->
  match allow cfg now b with
  | (b', (probe, true)) =>
      if probe then probing b = false /\ state b <> closed /\ probing b' = true /\ probeAt b' = now
      else b' = b /\ state b = closed
  | (b', (probe, false)) =>
      probe = false
      /\ ((b' = b /\ state b <> closed) \/ (probing b = true /\ reset cfg <= now - probeAt b))
  end.
Proof.
  intros []. brk; repeat split; try done; Zbool; auto.
  destruct probing0; [by specialize (wf_probing0 eq_refl)|done].
Qed.

Lemma record_probing now ended failed probe b :
  probing (record cfg now ended failed probe b) = probing b && negb probe
  \/ (probe = true /\ probing (record cfg now ended failed probe b) = false).
Proof. brk; rewrite ?andb_true_r; auto. Qed.

Lemma record_probeAt now ended failed probe b :
  probeAt (record cfg now ended failed probe b) = probeAt b.
Proof. brk; done. Qed.

(** *** One probe at a time *)

Definition probes_ok (s : system) : Prop :=
  probes s = if probing (brk s) then [probeAt (brk s)] else [].

Lemma probes_app l1 x l2 :
  map snd (List.filter (@fst bool Z) (l1 ++ x :: l2))
  = map snd (List.filter fst l1) ++ (if x.1 then [x.2] else []) ++ map snd (List.filter fst l2).
Proof. rewrite List.filter_app, map_app. cbn. by destruct x.1. Qed.

Lemma step_probes s s' : breaker_wf (brk s) -> probes_ok s -> prompt cfg s -> sys_step cfg s s' -> probes_ok s'.
Proof.
  intros W O P St. unfold probes_ok, prompt, probes in *.
  inversion St as [? now Hn|? b probe A|? b probe A|? l1 l2 probe t ended failed F]; subst; cbn [flight brk clock] in *.
  - done.
  - pose proof (allow_cases (clock s) (brk s) W) as C. rewrite A in C.
    destruct C as [_ [[-> _]|[Hp Hr]]]; [done|].
    rewrite O, Hp in P. apply Forall_inv in P. lia.
  - pose proof (allow_cases (clock s) (brk s) W) as C. rewrite A in C.
    destruct probe; cbn [List.filter fst map snd].
    + destruct C as (Hp & _ & -> & ->). by rewrite O, Hp.
    + by destruct C as [-> _].
  - rewrite F, probes_app in O. cbn [fst snd] in O. rewrite List.filter_app, map_app, record_probeAt.
    destruct probe.
    + destruct (record_probing (clock s) ended failed true (brk s)) as [->|[_ ->]].
      * rewrite andb_false_r. destruct (probing (brk s)); cbn in *.
        -- destruct (map snd (List.filter fst l1)) as [|? [|]]; cbn in *; by simplify_eq/=.
        -- by destruct (map snd (List.filter fst l1)).
      * destruct (probing (brk s)); cbn in *.
        -- destruct (map snd (List.filter fst l1)) as [|? [|]]; cbn in *; by simplify_eq/=.
        -- by destruct (map snd (List.filter fst l1)).
    + destruct (record_probing (clock s) ended failed false (brk s)) as [->|[? _]]; [|done].
      by rewrite andb_true_r.
Qed.

Lemma run_probes s : sys_run cfg (prompt cfg) s -> probes_ok s /\ prompt cfg s.
Proof.
  induction 1 as [H|s s' R [IH P] St P']; [done|].
  split; [|done]. apply (step_probes s s'); try done. by apply (run_wf (prompt cfg)).
Qed.

(** *** Opening after a run of failures *)

Definition settle (b : breaker) (outcomes : list (Z * bool)) : breaker :=
  fold_left (fun b o => record cfg o.1 false o.2 false b) outcomes b.

Definition streak_in (n : nat) (l : list bool) : Prop :=
  exists pre suf, l = pre ++ replicate n true ++ suf.

Lemma settle_open b os : state b = open -> state (settle b os) = open.
Proof.
  revert b. induction os as [|[t f] os IH]; intros b H; [done|]. apply IH.
  unfold record. cbn. rewrite H, andb_false_r. by destruct f.
Qed.

Lemma replicate_true_prefix m n l : (n <= m)%nat -> streak_in n (replicate m true ++ l).
Proof.
  intros H. exists [], (replicate (m - n) true ++ l). cbn [app].
  rewrite app_assoc, <- replicate_add. do 2 f_equal. lia.
Qed.

(** A run of [n] cannot start before a success that fewer precede. *)
Lemma streak_in_false m n l : (m < n)%nat ->
  streak_in n (replicate m true ++ false :: l) <-> streak_in n l.
Proof.
  intros Hm. split.
  - intros (pre & suf & E). revert m Hm E. induction pre as [|x pre IH]; intros m Hm E.
    + exfalso. assert (L : (replicate m true ++ false :: l) !! m = Some false).
      { rewrite lookup_app_r by (rewrite length_replicate; lia). rewrite length_replicate, Nat.sub_diag. done. }
      rewrite E in L. cbn [app] in L. rewrite lookup_app_l in L by (rewrite length_replicate; lia).
      rewrite lookup_replicate_2 in L by lia. done.
    + destruct m as [|m]; cbn in E; simplify_eq/=; [by exists pre, suf|].
      apply (IH m); [lia|done].
  - intros (pre & suf & ->). exists (replicate m true ++ false :: pre), suf. by rewrite <- app_assoc.
Qed.

Lemma settle_state b os : breaker_wf b -> state b = closed ->
  state (settle b os) = open
  <-> streak_in (Z.to_nat (threshold cfg)) (replicate (Z.to_nat (failures b)) true ++ map snd os).
Proof.
  revert b. induction os as [|[t f] os IH]; intros b W Hc.
  - cbn. rewrite Hc, app_nil_r. split; [done|]. intros (pre & suf & E).
    apply (f_equal length) in E. rewrite !length_app, !length_replicate in E.
    pose proof (wf_closed _ W Hc). pose proof (wf_failures _ W). lia.
  - cbn [settle fold_left map fst snd]. fold (settle (record cfg t false f false b) os).
    pose proof (record_wf t false f false b W) as W'. pose proof (wf_closed _ W Hc).
    pose proof (wf_failures _ W).
    destruct f.
    + replace (replicate (Z.to_nat (failures b)) true ++ true :: map snd os)
        with (replicate (Z.to_nat (failures b + 1)) true ++ map snd os).
      2: { rewrite Z2Nat.inj_add by lia. change (Z.to_nat 1) with 1%nat.
           rewrite replicate_add. by rewrite <- app_assoc. }
      unfold record in *. cbn [andb negb] in *. rewrite Hc in *.
      destruct (Z.geb_spec (failures b + 1) (threshold cfg)).
      * split; intros _; [apply replicate_true_prefix; lia|by apply settle_open].
      * by apply IH.
    + rewrite streak_in_false by lia. unfold record in *. cbn [andb negb] in *. rewrite Hc in *.
      by rewrite IH.
Qed.
End proofs.

(** ** What the breaker promises *)

(** One probe at a time: however calls interleave, as long as probes
    return before the reset period is over (their deadline is at most that),
    the probes in flight are the one the breaker remembers, or none. *)
Theorem breaker_one_probe (cfg : breaker_config) (s : system)
  (Ht : 0 < threshold cfg) (Hs : 0 < successes cfg) (R : sys_run cfg (prompt cfg) s) :
  probes s = (if probing (brk s) then [probeAt (brk s)] else [])
  /\ (length (probes s) <= 1)%nat.
Proof.
  destruct (run_probes cfg Ht Hs s R) as [E _]. split; [done|].
  rewrite E. destruct (probing (brk s)); cbn; lia.
Qed.

Definition cfg_example : breaker_config := new_config 1 30 1 40.

Lemma breaker_one_probe_witness : exists s, flight s = [(true, 30)] /\ (length (probes s) <= 1)%nat.
Proof.
  set (s1 := System 0 newBreaker [(false, 0)]).
  set (s2 := System 0 (record cfg_example 0 false true false newBreaker) []).
  set (s3 := System 30 (brk s2) []).
  set (s4 := System 30 (allow cfg_example 30 (brk s2)).1 [(true, 30)]).
  exists s4. split; [done|].
  apply (breaker_one_probe cfg_example s4); [done..|].
  apply (run_step _ _ s3); [|by apply sys_allowed|by repeat constructor].
  apply (run_step _ _ s2); [|by apply (sys_tick _ s2 30)|by constructor].
  apply (run_step _ _ s1); [|by apply (sys_recorded _ s1 [] [] false 0 false true)|by constructor].
  apply (run_step _ _ sys_init); [|by apply sys_allowed|by constructor].
  apply run_init. by constructor.
Defined.

(** A closed breaker opens exactly on [threshold] failures in a row:
    counting the failures it already has, a sequence of recorded outcomes
    leaves it open if and only if that many failures stand next to each other
    in it. *)
Theorem breaker_opens (cfg : breaker_config) (b : breaker) (os : list (Z * bool))
  (Ht : 0 < threshold cfg) (Hs : 0 < successes cfg) (W : breaker_wf cfg b) (Hc : state b = closed) :
  state (settle cfg b os) = open
  <-> streak_in (Z.to_nat (threshold cfg)) (replicate (Z.to_nat (failures b)) true ++ map snd os).
Proof. by apply settle_state. Qed.

Lemma breaker_opens_witness :
  state (settle (new_config 2 30 1 5) newBreaker [(1, true); (2, false); (3, true); (4, true)]) = open.
Proof.
  apply (breaker_opens (new_config 2 30 1 5) newBreaker); [done..| |done|].
  - by apply newBreaker_wf.
  - by exists [true; false], [].
Defined.

(** While it is open, and until the reset period has passed, the
    breaker lets nothing through: whatever calls come and whatever outcomes of
    earlier ones are recorded, it stays open and no call joins those in
    flight. *)
Theorem breaker_shields (cfg : breaker_config) (s s' : system)
  (Ho : state (brk s) = open) (R : rtc (sys_step cfg) s s')
  (Hr : clock s' < openedAt (brk s) + reset cfg) :
  state (brk s') = open /\ openedAt (brk s') = openedAt (brk s)
  /\ forall c, c ∈ flight s' -> c ∈ flight s.
Proof.
  revert Hr. revert s' R. apply (rtc_ind_r (fun s' => clock s' < openedAt (brk s) + reset cfg ->
    state (brk s') = open /\ openedAt (brk s') = openedAt (brk s)
    /\ forall c, c ∈ flight s' -> c ∈ flight s)); [done|].
  intros x y R St IH Hr.
  assert (Hxy : clock x <= clock y) by (inversion St; subst; cbn; lia).
  destruct (IH ltac:(lia)) as (Hx & Hox & Hf).
  assert (A : allow cfg (clock x) (brk x) = (brk x, (false, false))).
  { unfold allow. rewrite Hx, Hox. by rewrite (proj2 (Z.ltb_lt _ _)) by lia. }
  inversion St as [? now Hn|? b probe B|? b probe B|? l1 l2 probe t ended failed F];
    subst; cbn [brk clock flight] in *; try rewrite A in B; simplify_eq/=; try done.
  split; [|split].
  - unfold record. cbn. destruct probe; cbn; repeat case_match; done.
  - unfold record. cbn. rewrite <- Hox. destruct probe; cbn; repeat case_match; simplify_eq/=; done.
  - intros c Hc. apply Hf. rewrite F. rewrite elem_of_app in *. rewrite elem_of_cons. tauto.
Qed.

Lemma breaker_shields_witness :
  state (brk (System 29 (Breaker open 1 0 0 false 0) [])) = open.
Proof.
  apply (breaker_shields cfg_example (System 5 (Breaker open 1 0 0 false 0) [])); [done| |done].
  apply rtc_once. by apply (sys_tick _ (System 5 (Breaker open 1 0 0 false 0) []) 29).
Defined.

(** A sequence of guarded calls the inner layer answers. *)
Fixpoint serve {V} (cfg : breaker_config) (calls : list (Z * Z * V)) (b : breaker)
  : breaker * list (option V) :=
  match calls with
  | [] => (b, [])
  | (t0, t1, v) :: calls' =>
      let '(b, r) := breaker_get cfg t0 t1 false None (fun _ => Ok (Some v)) b in
      let '(b, rs) := serve cfg calls' b in (b, r :: rs)
  end.

Lemma serve_half {V} cfg (calls : list (Z * Z * V)) b k :
  state b = halfOpen -> probing b = false -> streak b = successes cfg - Z.of_nat (length calls) ->
  calls <> [] -> k = streak b ->
  state (serve cfg calls b).1 = closed /\ failures (serve cfg calls b).1 = 0
  /\ (serve cfg calls b).2 = map (fun c => Some c.2) calls.
Proof.
  revert b k. induction calls as [|[[t0 t1] v] calls IH]; intros b k Hh Hp Hk Hn ->; [done|].
  cbn [serve]. unfold breaker_get, guard, allow, allow_half. rewrite Hh, Hp. cbn [negb is_ok].
  unfold record. cbn [state failures streak openedAt probing probeAt negb andb].
  cbn [length] in Hk. destruct (Z.geb_spec (streak b + 1) (successes cfg)).
  - destruct calls; [done|]. cbn [length] in *. lia.
  - edestruct (IH (Breaker halfOpen (failures b) (streak b + 1) (openedAt b) false t0))
      as (E1 & E2 & E3); [done|done|cbn; lia|intros ->; cbn in *; lia|reflexivity|].
    destruct (serve cfg calls _) as [b' rs]. cbn in *. by rewrite E1, E2, E3.
Qed.

(** An open breaker recovers: once the reset period has passed,
    [successes] calls in a row that Redis answers all go through, their
    values reach the callers, and the last of them closes the breaker with
    its count of failures cleared. *)
Theorem breaker_recovers {V} (cfg : breaker_config) (b : breaker) (t0 t1 : Z) (v : V)
  (calls : list (Z * Z * V))
  (Ho : state b = open) (Hr : openedAt b + reset cfg <= t0)
  (Hl : Z.of_nat (length ((t0, t1, v) :: calls)) = successes cfg) :
  let '(b', rs) := serve cfg ((t0, t1, v) :: calls) b in
  state b' = closed /\ failures b' = 0 /\ rs = map (fun c => Some c.2) ((t0, t1, v) :: calls).
Proof.
  set (b1 := Breaker halfOpen (failures b) 0 (openedAt b) false (probeAt b)).
  assert (E : serve cfg ((t0, t1, v) :: calls) b = serve cfg ((t0, t1, v) :: calls) b1).
  { cbn [serve]. unfold breaker_get, guard, allow. rewrite Ho.
    rewrite (proj2 (Z.ltb_ge (t0 - openedAt b) (reset cfg))) by lia. done. }
  rewrite E. pose proof (serve_half cfg ((t0, t1, v) :: calls) b1 0) as S.
  destruct (serve cfg ((t0, t1, v) :: calls) b1) as [b' rs]. cbn [fst snd] in S. apply S; try done.
  cbn [streak b1]. lia.
Qed.

Lemma breaker_recovers_witness :
  (serve (new_config 2 30 2 5) [(30, 31, 7); (32, 33, 8)] (Breaker open 2 0 0 false 0)).2 = [Some 7; Some 8].
Proof.
  pose proof (breaker_recovers (new_config 2 30 2 5) (Breaker open 2 0 0 false 0) 30 31 7 [(32, 33, 8)]
    eq_refl ltac:(cbn; lia) eq_refl) as H.
  destruct (serve _ _ _) as [b' rs]. destruct H as (_ & _ & ->). reflexivity.
Defined.
