(* ===== verification/CacheConfig.v ===== *)
(** cache/config.go: the cache section of a configuration, its defaults and
    its checks. *)

From Stdlib Require Import ZArith Lia List.
From stdpp Require Import base decidable list strings.
From S2P Require Import Prelude GoStrings GoTime.

Record MemoryConfig := { mc_Enabled : bool; mc_Capacity : Z; mc_TTL : Z }.

Record RedisConfig := {
  rc_Enabled : bool; rc_Addr : gostring; rc_Username : gostring; rc_Password : gostring;
  rc_DB : Z; rc_TLS : bool; rc_CACert : gostring;
  rc_DialTimeout : Z; rc_ReadTimeout : Z; rc_WriteTimeout : Z; rc_PoolSize : Z; rc_TTL : Z;
}.

Record BreakerConfig := {
  bc_Enabled : bool; bc_Threshold : Z; bc_ResetTimeout : Z; bc_HalfOpenSuccesses : Z;
  bc_ProbeTimeout : Z;
}.

Record Config := { Memory : MemoryConfig; Redis : RedisConfig; BreakerSection : BreakerConfig }.

(** *** Defaults *)

Definition defaultCapacity : Z := 10000.
Definition defaultMemoryTTL : Z := 5 * Minute.
Definition defaultAddr : gostring := str "127.0.0.1:6379".
Definition defaultDialTimeout : Z := Second.
Definition defaultIOTimeout : Z := 500 * Millisecond.
Definition defaultPoolSize : Z := 10.
Definition defaultRedisTTL : Z := 10 * Minute.
Definition defaultThreshold : Z := 5.
Definition defaultResetTimeout : Z := 30 * Second.
Definition defaultHalfOpenSuccesses : Z := 3.
Definition defaultProbeTimeout : Z := 2 * Second.

(** [setInt] and [setDuration]. *)
Definition setInt (v def : Z) : Z := if v =? 0 then def else v.
Definition setDuration (v def : Z) : Z := if v =? 0 then def else v.

Definition withDefaults (c : Config) : Config :=
  let m := Memory c in let r := Redis c in let b := BreakerSection c in
  {| Memory := {| mc_Enabled := mc_Enabled m; mc_Capacity := setInt (mc_Capacity m) defaultCapacity;
                  mc_TTL := setDuration (mc_TTL m) defaultMemoryTTL |};
     Redis := {| rc_Enabled := rc_Enabled r;
                 rc_Addr := if seq_eqb (rc_Addr r) [] then defaultAddr else rc_Addr r;
                 rc_Username := rc_Username r; rc_Password := rc_Password r; rc_DB := rc_DB r;
                 rc_TLS := rc_TLS r; rc_CACert := rc_CACert r;
                 rc_DialTimeout := setDuration (rc_DialTimeout r) defaultDialTimeout;
                 rc_ReadTimeout := setDuration (rc_ReadTimeout r) defaultIOTimeout;
                 rc_WriteTimeout := setDuration (rc_WriteTimeout r) defaultIOTimeout;
                 rc_PoolSize := setInt (rc_PoolSize r) defaultPoolSize;
                 rc_TTL := setDuration (rc_TTL r) defaultRedisTTL |};
     BreakerSection := {| bc_Enabled := bc_Enabled b;
                   bc_Threshold := setInt (bc_Threshold b) defaultThreshold;
                   bc_ResetTimeout := setDuration (bc_ResetTimeout b) defaultResetTimeout;
                   bc_HalfOpenSuccesses := setInt (bc_HalfOpenSuccesses b) defaultHalfOpenSuccesses;
                   bc_ProbeTimeout := setDuration (bc_ProbeTimeout b) defaultProbeTimeout |} |}.

(** *** Checks *)

Inductive config_error :=
| NotPositive (key : gostring) (v : Z)
| EmptyAddr
| NegativeDB (db : Z)
| BreakerWithoutRedis.

(** The closure [positive] of Validate. *)
Definition positive (key : gostring) (ok : bool) (v : Z) : list config_error :=
  if negb ok then [NotPositive key v] else [].

(** [Validate]: every complaint, in order; none is valid. *)
Definition Validate (c : Config) : list config_error :=
  let m := Memory c in let r := Redis c in let b := BreakerSection c in
  (if mc_Enabled m then
     positive (str "memory.capacity") (mc_Capacity m >? 0) (mc_Capacity m)
     ++ positive (str "memory.ttl") (mc_TTL m >? 0) (mc_TTL m)
   else [])
  ++ (if rc_Enabled r then
        (if seq_eqb (rc_Addr r) [] then [EmptyAddr] else [])
        ++ (if rc_DB r <? 0 then [NegativeDB (rc_DB r)] else [])
        ++ positive (str "redis.dial_timeout") (rc_DialTimeout r >? 0) (rc_DialTimeout r)
        ++ positive (str "redis.read_timeout") (rc_ReadTimeout r >? 0) (rc_ReadTimeout r)
        ++ positive (str "redis.write_timeout") (rc_WriteTimeout r >? 0) (rc_WriteTimeout r)
        ++ positive (str "redis.pool_size") (rc_PoolSize r >? 0) (rc_PoolSize r)
        ++ positive (str "redis.ttl") (rc_TTL r >? 0) (rc_TTL r)
      else [])
  ++ (if bc_Enabled b then
        (if negb (rc_Enabled r) then [BreakerWithoutRedis] else [])
        ++ positive (str "breaker.threshold") (bc_Threshold b >? 0) (bc_Threshold b)
        ++ positive (str "breaker.reset_timeout") (bc_ResetTimeout b >? 0) (bc_ResetTimeout b)
        ++ positive (str "breaker.half_open_successes") (bc_HalfOpenSuccesses b >? 0) (bc_HalfOpenSuccesses b)
        ++ positive (str "breaker.probe_timeout") (bc_ProbeTimeout b >? 0) (bc_ProbeTimeout b)
      else []).

(** [Config.String] and [GoString] print this copy. *)
Definition redact (c : Config) : Config :=
  let r := Redis c in
  if seq_eqb (rc_Password r) [] then c
  else {| Memory := Memory c;
          Redis := {| rc_Enabled := rc_Enabled r; rc_Addr := rc_Addr r; rc_Username := rc_Username r;
                      rc_Password := str "***"; rc_DB := rc_DB r; rc_TLS := rc_TLS r;
                      rc_CACert := rc_CACert r; rc_DialTimeout := rc_DialTimeout r;
                      rc_ReadTimeout := rc_ReadTimeout r; rc_WriteTimeout := rc_WriteTimeout r;
                      rc_PoolSize := rc_PoolSize r; rc_TTL := rc_TTL r |};
          BreakerSection := BreakerSection c |}.

(** *** Facts *)

Lemma positive_nil key ok v : positive key ok v = [] <-> ok = true.
Proof. unfold positive. by destruct ok. Qed.

Lemma app_nil_iff {A} (l k : list A) : l ++ k = [] <-> l = [] /\ k = [].
Proof. split; [apply app_nil|by intros [-> ->]]. Qed.

Lemma Validate_memory c : Validate c = [] -> mc_Enabled (Memory c) = true ->
  0 < mc_Capacity (Memory c) /\ 0 < mc_TTL (Memory c).
Proof.
  unfold Validate. rewrite !app_nil_iff. intros (H & _) E. rewrite E, app_nil_iff, !positive_nil in H. lia.
Qed.

Lemma Validate_redis c : Validate c = [] -> rc_Enabled (Redis c) = true ->
  rc_Addr (Redis c) <> [] /\ 0 <= rc_DB (Redis c) /\ 0 < rc_PoolSize (Redis c) /\ 0 < rc_TTL (Redis c).
Proof.
  unfold Validate. rewrite !app_nil_iff. intros (_ & H & _) E.
  rewrite E, !app_nil_iff, !positive_nil in H. destruct H as (Ha & Hd & ? & ? & ? & ? & ?).
  unfold seq_eqb in Ha. case_bool_decide; [done|]. destruct (Z.ltb_spec (rc_DB (Redis c)) 0); [done|].
  repeat split; done || lia.
Qed.

Lemma Validate_breaker c : Validate c = [] -> bc_Enabled (BreakerSection c) = true ->
  rc_Enabled (Redis c) = true
  /\ 0 < bc_Threshold (BreakerSection c) /\ 0 < bc_ResetTimeout (BreakerSection c)
  /\ 0 < bc_HalfOpenSuccesses (BreakerSection c) /\ 0 < bc_ProbeTimeout (BreakerSection c).
Proof.
  unfold Validate. rewrite !app_nil_iff. intros (_ & _ & H) E.
  rewrite E, !app_nil_iff, !positive_nil in H. destruct H as (Hr & ?). destruct (rc_Enabled (Redis c)); [|done].
  lia.
Qed.
