(* ===== verification/Cache.v ===== *)
(** cache/cache.go and cache/layers.go: the layers and the operations over
    them, proved against the interface a layer keeps. *)

From Stdlib Require Import ZArith Lia List.
From stdpp Require Import base decidable list gmap strings.
From S2P Require Import Prelude GoStrings Breaker CacheConfig.

(** Keys are strings, values byte slices; the operations clone a value where
    it enters or leaves the memory layer, so a value is its bytes here. *)
Abbreviation key := gostring.
Abbreviation val := gostring.

(** ** The layer interface

    An operation takes the context it runs under, which also stands for what
    the outside does meanwhile, and the layer's state. *)

Class Layer (ctx lerr L : Type) := {
  l_get : ctx -> key -> L -> L * result lerr (option val);
  l_set : ctx -> key -> val -> Z -> L -> L * result lerr unit;
  l_del : ctx -> key -> L -> L * result lerr unit;
}.

(** What a layer promises a cache: what it holds under a key is what it held
    before or what is being set there, and a hit is held.  An [exact] layer
    also promises that a set or delete that answers nil has been done; the
    breaker, which skips writes while open, does not.  Entries may vanish at
    any time. *)
Class LayerLaws (exact : bool) (ctx lerr L : Type) `{Layer ctx lerr L} := {
  view : L -> key -> option val;
  get_law : forall c k l,
    (forall k' v', view (l_get c k l).1 k' = Some v' -> view l k' = Some v')
    /\ (forall v, (l_get c k l).2 = Ok (Some v) -> view l k = Some v);
  set_law : forall c k v t l k' v', view (l_set c k v t l).1 k' = Some v' ->
    (k' = k /\ v' = v)
    \/ (view l k' = Some v' /\ (k' = k -> exact && is_ok (l_set c k v t l).2 = false));
  del_law : forall c k l k' v', view (l_del c k l).1 k' = Some v' ->
    view l k' = Some v' /\ (k' = k -> exact && is_ok (l_del c k l).2 = false);
}.

(** ** The layers *)

(** [entry]: a value with the TTL it was stored for. *)
Record entry := Entry { e_val : val; e_ttl : Z }.

Section layers.
Context {ctx lerr : Type}.

(** The memory layer on an otter cache, which is not this repository's:
    GetIfPresent, Set and Invalidate are parameters. *)
Section memory.
Context {M : Type}
  (GetIfPresent : ctx -> key -> M -> M * option entry)
  (SetEntry : ctx -> key -> entry -> M -> M) (Invalidate : ctx -> key -> M -> M).

Record memory := { m_c : M; m_ttl : Z }.

Definition memory_get (c : ctx) (k : key) (m : memory) : memory * result lerr (option val) :=
  let '(mc, e) := GetIfPresent c k (m_c m) in
  ({| m_c := mc; m_ttl := m_ttl m |}, Ok (option_map e_val e)).

Definition memory_set (c : ctx) (k : key) (v : val) (ttl : Z) (m : memory) : memory * result lerr unit :=
  let ttl := if ttl =? 0 then m_ttl m else ttl in
  ({| m_c := SetEntry c k (Entry v ttl) (m_c m); m_ttl := m_ttl m |}, Ok tt).

Definition memory_del (c : ctx) (k : key) (m : memory) : memory * result lerr unit :=
  ({| m_c := Invalidate c k (m_c m); m_ttl := m_ttl m |}, Ok tt).

#[export] Instance memory_layer : Layer ctx lerr memory :=
  {| l_get := memory_get; l_set := memory_set; l_del := memory_del |}.
End memory.

(** The Redis layer on a go-redis client: GET, SET and DEL are parameters,
    [is_nil] is [errors.Is(err, redis.Nil)]. *)
Section redis.
Context {R : Type}
  (client_Get : ctx -> key -> R -> R * result lerr val)
  (client_Set : ctx -> key -> val -> Z -> R -> R * result lerr unit)
  (client_Del : ctx -> key -> R -> R * result lerr unit)
  (is_nil : lerr -> bool).

Record redisLayer := { r_client : R; r_ttl : Z }.

Definition redis_get (c : ctx) (k : key) (r : redisLayer) : redisLayer * result lerr (option val) :=
  let '(cl, a) := client_Get c k (r_client r) in
  ({| r_client := cl; r_ttl := r_ttl r |},
   match a with
   | Err e => if is_nil e then Ok None else Err e
   | Ok v => Ok (Some v)
   end).

Definition redis_set (c : ctx) (k : key) (v : val) (ttl : Z) (r : redisLayer) : redisLayer * result lerr unit :=
  let ttl := if ttl =? 0 then r_ttl r else ttl in
  let '(cl, a) := client_Set c k v ttl (r_client r) in
  ({| r_client := cl; r_ttl := r_ttl r |}, a).

Definition redis_del (c : ctx) (k : key) (r : redisLayer) : redisLayer * result lerr unit :=
  let '(cl, a) := client_Del c k (r_client r) in
  ({| r_client := cl; r_ttl := r_ttl r |}, a).

#[export] Instance redis_layer : Layer ctx lerr redisLayer :=
  {| l_get := redis_get; l_set := redis_set; l_del := redis_del |}.
End redis.

(** The breaker around a layer: the clock at its two locked halves and
    [ctx.Err() != nil] are read off the context, and [with_deadline] gives a
    probe its own. *)
Section breaker_layer.
Context {L : Type} `{Layer ctx lerr L}
  (begins ends : ctx -> Z) (ended : ctx -> bool) (with_probe_timeout : ctx -> ctx).

Record breakerLayer := { b_cfg : breaker_config; b_brk : breaker; b_inner : L }.

Definition guarded {A} (miss : A) (c : ctx) (inner : ctx -> L -> L * result lerr A) (b : breakerLayer)
  : breakerLayer * result lerr A :=
  let '(bk, (probe, ok)) := allow (b_cfg b) (begins c) (b_brk b) in
  if negb ok then ({| b_cfg := b_cfg b; b_brk := bk; b_inner := b_inner b |}, Ok miss)
  else
    let '(l, r) := inner (if probe then with_probe_timeout c else c) (b_inner b) in
    ({| b_cfg := b_cfg b; b_brk := record (b_cfg b) (ends c) (ended c) (negb (is_ok r)) probe bk; b_inner := l |},
     Ok (match r with Ok a => a | Err _ => miss end)).

#[export] Instance breaker_layer : Layer ctx lerr breakerLayer :=
  {| l_get := fun c k => guarded None c (fun c => l_get c k);
     l_set := fun c k v t => guarded tt c (fun c => l_set c k v t);
     l_del := fun c k => guarded tt c (fun c => l_del c k) |}.
End breaker_layer.
End layers.

(** ** The cache *)

(** Errors of the cache's operations. *)
Inductive cache_error (lerr : Type) :=
| CtxEnded (e : lerr)
| LayersFailed (es : list lerr)
| NegativeTTL (ttl : Z)
| NilLoad
| LoadFailed (e : lerr).
Arguments CtxEnded {lerr} _.
Arguments LayersFailed {lerr} _.
Arguments NegativeTTL {lerr} _.
Arguments NilLoad {lerr}.
Arguments LoadFailed {lerr} _.

Section cache.
Context {ctx lerr L W : Type} `{Layer ctx lerr L} (ctx_Err : ctx -> option lerr).

(** [memory] is [c.memory != nil]: the memory layer is then the first. *)
Record Cache := { layers : list L; has_memory : bool }.

(** How the loop of Get is left: by an ended context, by a hit in layer
    [i], or at its end. *)
Inductive lookup_end := LEnded (e : lerr) | LHit (i : nat) (v : val) | LMiss.

(** The loop of [Get] from layer [i] on; [cs i] is the context as layer [i]
    sees it.  The errors collected so far are returned with the rest. *)
Fixpoint get_loop (cs : nat -> ctx) (i : nat) (k : key) (ls : list L)
  : list L * (list lerr * lookup_end) :=
  match ls with
  | [] => ([], ([], LMiss))
  | l :: ls' =>
      match ctx_Err (cs i) with
      | Some e => (ls, ([], LEnded e))
      | None =>
          let '(l, r) := l_get (cs i) k l in
          match r with
          | Ok (Some v) => (l :: ls', ([], LHit i v))
          | Ok None => let '(ls', (es, o)) := get_loop cs (S i) k ls' in (l :: ls', (es, o))
          | Err e => let '(ls', (es, o)) := get_loop cs (S i) k ls' in (l :: ls', (e :: es, o))
          end
      end
  end.

(** [c.memory.set(ctx, key, v, 0)], its error ignored. *)
Definition fill_memory (c : ctx) (k : key) (v : val) (ls : list L) : list L :=
  match ls with
  | m :: ls' => (l_set c k v 0 m).1 :: ls'
  | [] => []
  end.

(** [Get]. *)
Definition Get (cs : nat -> ctx) (k : key) (c : Cache) : Cache * result (cache_error lerr) (option val) :=
  let '(ls, (es, o)) := get_loop cs 0 k (layers c) in
  match o with
  | LEnded e => ({| layers := ls; has_memory := has_memory c |}, Err (CtxEnded e))
  | LHit i v =>
      let ls := if (0 <? i)%nat && has_memory c then fill_memory (cs i) k v ls else ls in
      ({| layers := ls; has_memory := has_memory c |}, Ok (Some v))
  | LMiss =>
      ({| layers := ls; has_memory := has_memory c |},
       if (0 <? length es)%nat && (length es =? length (layers c))%nat
       then Err (LayersFailed es) else Ok None)
  end.

(** The loops of [Set] and [Delete]: every layer is tried, the errors are
    collected. *)
Fixpoint each_layer (f : nat -> L -> L * result lerr unit) (i : nat) (ls : list L)
  : list L * list lerr :=
  match ls with
  | [] => ([], [])
  | l :: ls' =>
      let '(l, r) := f i l in
      let '(ls', es) := each_layer f (S i) ls' in
      (l :: ls', match r with Ok _ => es | Err e => e :: es end)
  end.

Definition finish (c : Cache) (p : list L * list lerr) : Cache * result (cache_error lerr) unit :=
  ({| layers := p.1; has_memory := has_memory c |},
   match p.2 with [] => Ok tt | es => Err (LayersFailed es) end).

Definition Set_ (cs : nat -> ctx) (k : key) (v : val) (ttl : Z) (c : Cache)
  : Cache * result (cache_error lerr) unit :=
  if ttl <? 0 then (c, Err (NegativeTTL ttl))
  else finish c (each_layer (fun i => l_set (cs i) k v ttl) 0 (layers c)).

Definition Delete (cs : nat -> ctx) (k : key) (c : Cache) : Cache * result (cache_error lerr) unit :=
  finish c (each_layer (fun i => l_del (cs i) k) 0 (layers c)).

(** A load function: it may change the world, and fail. *)
Definition load_fn : Type := W -> W * result lerr val.

(** The function GetOrLoad hands to the flight: look again, load, store.
    The contexts of its Get and of its Set are [cs 1] and [cs 2]. *)
Definition fill (cs : nat -> nat -> ctx) (k : key) (ttl : Z) (load : load_fn) (s : Cache * W)
  : (Cache * W) * result (cache_error lerr) val :=
  let '(c, w) := s in
  let '(c, r) := Get (cs 1%nat) k c in
  match r with
  | Ok (Some v) => ((c, w), Ok v)
  | _ =>
      let '(w, r) := load w in
      match r with
      | Err e => ((c, w), Err (LoadFailed e))
      | Ok v => let '(c, _) := Set_ (cs 2%nat) k v ttl c in ((c, w), Ok v)
      end
  end.

(** [GetOrLoad] where its call is the flight's first for the key; a caller
    that joins a call in flight gets that call's answer (Flight).  [load] is
    [None] for a nil function. *)
Definition GetOrLoad (entry_ctx : ctx) (cs : nat -> nat -> ctx) (k : key) (ttl : Z)
  (load : option load_fn) (s : Cache * W) : (Cache * W) * result (cache_error lerr) val :=
  match load with
  | None => (s, Err NilLoad)
  | Some load =>
      if ttl <? 0 then (s, Err (NegativeTTL ttl))
      else match ctx_Err entry_ctx with
           | Some e => (s, Err (CtxEnded e))
           | None =>
               let '(c, w) := s in
               let '(c, r) := Get (cs 0%nat) k c in
               match r with
               | Ok (Some v) => ((c, w), Ok v)
               | _ => fill cs k ttl load (c, w)
               end
           end
  end.
End cache.
Arguments Cache L : clear implicits.
Arguments Build_Cache {L} _ _.

(** Two kinds of layers in one list. *)
#[export] Instance sum_layer {ctx lerr A B} `{Layer ctx lerr A, Layer ctx lerr B} : Layer ctx lerr (A + B) := {|
  l_get c k l := match l with
                 | inl a => let '(a, r) := l_get c k a in (inl a, r)
                 | inr b => let '(b, r) := l_get c k b in (inr b, r)
                 end;
  l_set c k v t l := match l with
                     | inl a => let '(a, r) := l_set c k v t a in (inl a, r)
                     | inr b => let '(b, r) := l_set c k v t b in (inr b, r)
                     end;
  l_del c k l := match l with
                 | inl a => let '(a, r) := l_del c k a in (inl a, r)
                 | inr b => let '(b, r) := l_del c k b in (inr b, r)
                 end;
|}.

(** ** Construction *)

Section construction.
Context {M R : Type} (newMemory : Z -> Z -> option M) (newClient : Config -> option R).

Inductive new_error := InvalidConfig (es : list config_error) | NoLayer | BadClient | BadMemory.

(** A layer of the cache: memory, or Redis behind the breaker or bare. *)
Definition cache_layer : Type := memory (M:=M) + (redisLayer (R:=R) + breakerLayer (L:=redisLayer (R:=R))).

(** [New]: the layers the configuration enables, memory first. *)
Definition New (cfg : Config) : result new_error (Cache cache_layer) :=
  let cfg := withDefaults cfg in
  match Validate cfg with
  | (_ :: _) as es => Err (InvalidConfig es)
  | [] =>
      let m := Memory cfg in let r := Redis cfg in let b := BreakerSection cfg in
      if negb (mc_Enabled m) && negb (rc_Enabled r) then Err NoLayer
      else
        let? client := (if rc_Enabled r
                        then match newClient cfg with Some cl => Ok (Some cl) | None => Err BadClient end
                        else Ok None) in
        let? mem := (if mc_Enabled m
                     then match newMemory (mc_Capacity m) (mc_TTL m) with
                          | Some mc => Ok [inl {| m_c := mc; m_ttl := mc_TTL m |}]
                          | None => Err BadMemory
                          end
                     else Ok []) in
        let red := match client with
                   | None => []
                   | Some cl =>
                       let l := {| r_client := cl; r_ttl := rc_TTL r |} in
                       if bc_Enabled b
                       then [inr (inr {| b_cfg := new_config (bc_Threshold b) (bc_ResetTimeout b)
                                               (bc_HalfOpenSuccesses b) (bc_ProbeTimeout b);
                                    b_brk := newBreaker; b_inner := l |})]
                       else [inr (inl l)]
                   end in
        Ok {| layers := mem ++ red; has_memory := mc_Enabled m |}
  end.
End construction.
