(* ===== verification/CacheSpec.v ===== *)
(** The cache against the layer interface: which values its reads may
    return, what GetOrLoad does, and the layers that keep the interface. *)

From Stdlib Require Import ZArith Lia List.
From stdpp Require Import base decidable list gmap strings.
From S2P Require Import Prelude GoStrings Breaker CacheConfig Cache.

(** ** The layers keep the interface *)

Section memory_laws.
Context {ctx lerr M : Type}
  (GetIfPresent : ctx -> key -> M -> M * option entry)
  (SetEntry : ctx -> key -> entry -> M -> M) (Invalidate : ctx -> key -> M -> M)
  (present : M -> key -> option val).

(** What otter documents: a cache whose entries may be evicted or expire. *)
Record otter_ok : Prop := {
  otter_get : forall c k m,
    (forall k' v', present (GetIfPresent c k m).1 k' = Some v' -> present m k' = Some v')
    /\ (forall e, (GetIfPresent c k m).2 = Some e -> present m k = Some (e_val e));
  otter_set : forall c k e m k' v', present (SetEntry c k e m) k' = Some v' ->
    if decide (k' = k) then v' = e_val e else present m k' = Some v';
  otter_invalidate : forall c k m k' v', present (Invalidate c k m) k' = Some v' ->
    present m k' = Some v' /\ k' <> k;
}.

Context (O : otter_ok).

#[local] Instance mem : Layer ctx lerr memory := memory_layer GetIfPresent SetEntry Invalidate.

#[local] Program Instance memory_laws exact : LayerLaws exact ctx lerr memory :=
  {| view m := present (m_c m) |}.
Next Obligation.
  intros exact c k m. cbn. unfold memory_get. destruct (otter_get O c k (m_c m)) as [H1 H2].
  destruct (GetIfPresent c k (m_c m)) as [mc e]. cbn in *. split; [done|].
  intros v [= Hv]. destruct e; simplify_eq/=. by apply H2.
Qed.
Next Obligation.
  intros exact c k v t m k' v' H. cbn in H. apply (otter_set O) in H. case_decide; [left|right]; done.
Qed.
Next Obligation.
  intros exact c k m k' v' H. cbn in H. apply (otter_invalidate O) in H as []. done.
Qed.
End memory_laws.

Section redis_laws.
Context {ctx lerr R : Type}
  (client_Get : ctx -> key -> R -> R * result lerr val)
  (client_Set : ctx -> key -> val -> Z -> R -> R * result lerr unit)
  (client_Del : ctx -> key -> R -> R * result lerr unit)
  (is_nil : lerr -> bool) (stored : R -> key -> option val).

(** What the client documents: a command that answers has been done; one
    that fails may have been. *)
Record redis_ok : Prop := {
  redis_get_ok : forall c k r,
    (forall k' v', stored (client_Get c k r).1 k' = Some v' -> stored r k' = Some v')
    /\ (forall v, (client_Get c k r).2 = Ok v -> stored r k = Some v);
  redis_set_ok : forall c k v t r k' v', stored (client_Set c k v t r).1 k' = Some v' ->
    (k' = k /\ v' = v)
    \/ (stored r k' = Some v' /\ (k' = k -> is_ok (client_Set c k v t r).2 = false));
  redis_del_ok : forall c k r k' v', stored (client_Del c k r).1 k' = Some v' ->
    stored r k' = Some v' /\ (k' = k -> is_ok (client_Del c k r).2 = false);
}.

Context (O : redis_ok).

#[local] Instance red : Layer ctx lerr redisLayer := redis_layer client_Get client_Set client_Del is_nil.

#[local] Program Instance redis_laws exact : LayerLaws exact ctx lerr redisLayer :=
  {| view r := stored (r_client r) |}.
Next Obligation.
  intros exact c k r. cbn. unfold redis_get. destruct (redis_get_ok O c k (r_client r)) as [H1 H2].
  destruct (client_Get c k (r_client r)) as [cl a]. cbn in *. split; [done|].
  intros v Hv. destruct a as [w|e]; [by simplify_eq; apply H2|]. by destruct (is_nil e).
Qed.
Next Obligation.
  intros exact c k v t r k' v'. cbn. unfold redis_set.
  pose proof (redis_set_ok O c k v (if t =? 0 then r_ttl r else t) (r_client r) k' v') as H.
  destruct (client_Set _ _ _ _ _) as [cl a]. cbn in *. intros [?|[? Hk]]%H; [by left|right].
  split; [done|]. intros E. by rewrite Hk, andb_false_r.
Qed.
Next Obligation.
  intros exact c k r k' v'. cbn. unfold redis_del.
  pose proof (redis_del_ok O c k (r_client r) k' v') as H.
  destruct (client_Del _ _ _) as [cl a]. cbn in *. intros [? Hk]%H. split; [done|].
  intros E. by rewrite Hk, andb_false_r.
Qed.
End redis_laws.

(** The breaker keeps the interface of a layer that is not exact, whatever
    it guards. *)
Section breaker_laws.
Context {exact : bool} {ctx lerr L : Type} `{LayerLaws exact ctx lerr L}
  (begins ends : ctx -> Z) (ended : ctx -> bool) (with_probe_timeout : ctx -> ctx).

#[local] Instance brk : Layer ctx lerr breakerLayer := breaker_layer begins ends ended with_probe_timeout.

#[local] Program Instance breaker_laws : LayerLaws false ctx lerr breakerLayer :=
  {| view b := view (b_inner b) |}.
Next Obligation.
  intros c k b. cbn. unfold guarded. destruct (allow _ _ _) as [bk [probe ok]].
  destruct ok; cbn; [|split; [done|by intros ? [=]]].
  set (c' := if probe then _ else _). pose proof (get_law c' k (b_inner b)) as [H1 H2].
  destruct (l_get c' k (b_inner b)) as [l r]. cbn in *. split; [done|].
  intros v [= Hv]. apply H2. by destruct r; simplify_eq/=.
Qed.
Next Obligation.
  intros c k v t b k' v'. cbn. unfold guarded. destruct (allow _ _ _) as [bk [probe ok]].
  destruct ok; cbn; [|by right].
  set (c' := if probe then _ else _). pose proof (set_law c' k v t (b_inner b) k' v') as H1.
  destruct (l_set c' k v t (b_inner b)) as [l r]. cbn in *. naive_solver.
Qed.
Next Obligation.
  intros c k b k' v'. cbn. unfold guarded. destruct (allow _ _ _) as [bk [probe ok]].
  destruct ok; cbn; [|done].
  set (c' := if probe then _ else _). pose proof (del_law c' k (b_inner b) k' v') as H1.
  destruct (l_del c' k (b_inner b)) as [l r]. cbn in *. naive_solver.
Qed.
End breaker_laws.

#[local] Program Instance sum_laws {exact ctx lerr A B} `{LayerLaws exact ctx lerr A, LayerLaws exact ctx lerr B} :
  LayerLaws exact ctx lerr (A + B) :=
  {| view l := match l with inl a => view a | inr b => view b end |}.
Next Obligation.
  intros. destruct l as [a|b]; cbn.
  - pose proof (get_law c k a) as X. by destruct (l_get c k a).
  - pose proof (get_law c k b) as X. by destruct (l_get c k b).
Qed.
Next Obligation.
  intros ? ? ? ? ? ? ? ? ? c k v t l k' v'. destruct l as [a|b]; cbn.
  - pose proof (set_law c k v t a k' v') as X. by destruct (l_set c k v t a).
  - pose proof (set_law c k v t b k' v') as X. by destruct (l_set c k v t b).
Qed.
Next Obligation.
  intros ? ? ? ? ? ? ? ? ? c k l k' v'. destruct l as [a|b]; cbn.
  - pose proof (del_law c k a k' v') as X. by destruct (l_del c k a).
  - pose proof (del_law c k b k' v') as X. by destruct (l_del c k b).
Qed.

(** ** What a cache may answer

    [A k v] says that the cache may hold [v] under [k]. *)

Definition allowed : Type := key -> val -> Prop.

(** After a set: the new value; the old ones too, unless the layers are
    exact and the set answered nil. *)
Definition after_set (done_ : bool) (k : key) (v : val) (A : allowed) : allowed :=
  fun k' v' => (k' = k /\ v' = v) \/ (A k' v' /\ (k' = k -> done_ = false)).

Definition after_delete (done_ : bool) (k : key) (A : allowed) : allowed :=
  fun k' v' => A k' v' /\ (k' = k -> done_ = false).

Section spec.
Context {exact : bool} {ctx lerr L W : Type} `{LayerLaws exact ctx lerr L} (ctx_Err : ctx -> option lerr).

Definition holds (A : allowed) (l : L) : Prop := forall k v, view l k = Some v -> A k v.
Definition agrees (A : allowed) (c : Cache L) : Prop := Forall (holds A) (layers c).

Lemma get_loop_agrees A cs i k ls : Forall (holds A) ls ->
  Forall (holds A) (get_loop ctx_Err cs i k ls).1
  /\ (forall j v, (get_loop ctx_Err cs i k ls).2.2 = LHit j v -> A k v).
Proof.
  intros F. revert i. induction F as [|l ls Hl F IH]; intros i; cbn; [done|].
  destruct (ctx_Err (cs i)); cbn; [split; [by constructor|done]|].
  destruct (get_law (cs i) k l) as [G1 G2]. specialize (IH (S i)).
  assert (Hl' : holds A (l_get (cs i) k l).1) by (intros k' v' E; by apply Hl, G1).
  destruct (l_get (cs i) k l) as [l' r]. cbn in *.
  destruct r as [[v|]|e].
  - cbn. split; [by constructor|]. intros j w [= _ <-]. apply Hl. by apply G2.
  - destruct (get_loop ctx_Err cs (S i) k ls) as [ls' [es o]]. cbn in *.
    destruct IH. split; [by constructor|done].
  - destruct (get_loop ctx_Err cs (S i) k ls) as [ls' [es o]]. cbn in *.
    destruct IH. split; [by constructor|done].
Qed.

Lemma fill_memory_agrees A c k v ls : Forall (holds A) ls -> A k v -> Forall (holds A) (fill_memory c k v ls).
Proof.
  intros F Hv. destruct F as [|l ls Hl F]; cbn; constructor; [|done].
  intros k' v' [[-> ->]|[E _]]%set_law; [done|by apply Hl].
Qed.

Lemma Get_agrees A cs k c : agrees A c ->
  agrees A (Get ctx_Err cs k c).1 /\ (forall v, (Get ctx_Err cs k c).2 = Ok (Some v) -> A k v).
Proof.
  intros F. unfold Get. destruct (get_loop_agrees A cs 0 k (layers c) F) as [F' Hv].
  destruct (get_loop ctx_Err cs 0 k (layers c)) as [ls [es o]]. cbn in *.
  destruct o as [e|i v|]; cbn; (split; [|try (by intros ? [=])]); try done.
  - unfold agrees. cbn. case_match; [|done]. apply fill_memory_agrees; [done|by eapply Hv].
  - intros w [= <-]. by eapply Hv.
  - intros w E. by case_match.
Qed.

Lemma each_layer_ok (f : nat -> L -> L * result lerr unit) i ls :
  (each_layer f i ls).2 = [] -> forall n l, ls !! n = Some l -> is_ok (f (i + n)%nat l).2 = true.
Proof.
  revert i. induction ls as [|l ls IH]; intros i E n m Hn; [done|]. cbn in E.
  destruct (f i l) as [l' r] eqn:Ef. specialize (IH (S i)).
  destruct (each_layer f (S i) ls) as [ls' es]. cbn in *. destruct r; [|done]. subst.
  destruct n as [|n]; cbn in Hn; simplify_eq.
  - by rewrite Nat.add_0_r, Ef.
  - rewrite <- Nat.add_succ_comm. by apply IH.
Qed.

(** One write to every layer, where each layer ends with what [B] allows,
    knowing the layer's answer was nil if every one was. *)
Lemma each_layer_agrees (A : allowed) (B : bool -> allowed)
  (f : nat -> L -> L * result lerr unit) i ls :
  Forall (holds A) ls ->
  (forall n l k v, holds A l -> view (f n l).1 k = Some v -> B (exact && is_ok (f n l).2) k v) ->
  (forall k v, B true k v -> B false k v) ->
  Forall (holds (B (exact && bool_decide ((each_layer f i ls).2 = [])))) (each_layer f i ls).1.
Proof.
  intros F Hf Hb. set (d := exact && bool_decide _).
  assert (X : forall n l, ls !! n = Some l -> holds (B d) (f (i + n)%nat l).1).
  { intros n l Hn k v Hv. pose proof (Forall_lookup_1 _ _ _ _ F Hn) as Hl.
    apply (Hf _ _ _ _ Hl) in Hv. unfold d. case_bool_decide as E.
    - by rewrite (each_layer_ok f i ls E n l Hn) in Hv.
    - rewrite andb_false_r. revert Hv. destruct (exact && is_ok (f (i + n)%nat l).2); auto. }
  clearbody d. clear F. revert i X. induction ls as [|l ls IH]; intros i X; cbn; [constructor|].
  pose proof (X 0%nat l eq_refl) as X0. rewrite Nat.add_0_r in X0.
  assert (Xs : Forall (holds (B d)) (each_layer f (S i) ls).1).
  { apply IH. intros n m Hn. specialize (X (S n) m Hn). by rewrite <- Nat.add_succ_comm in X. }
  destruct (f i l) as [l' r]. destruct (each_layer f (S i) ls) as [ls' es]. cbn in *. by constructor.
Qed.

Lemma finish_ok (c : Cache L) p : is_ok (finish (lerr:=lerr) c p).2 = bool_decide (p.2 = []).
Proof. unfold finish. cbn. by destruct p.2. Qed.

Lemma Set_agrees A cs k v ttl c : agrees A c ->
  agrees (after_set (exact && is_ok (Set_ cs k v ttl c).2) k v A) (Set_ cs k v ttl c).1.
Proof.
  intros F. unfold Set_. destruct (ttl <? 0).
  - cbn. rewrite andb_false_r. eapply Forall_impl; [exact F|]. intros l Hl k' v' E. right. auto.
  - rewrite finish_ok. apply (each_layer_agrees A (fun d => after_set d k v A)); [done| |].
    + intros n l k' v' Hl [?|[E ?]]%set_law; [by left|right]. auto.
    + intros k' v' [?|[? E]]; [by left|right]. auto.
Qed.

Lemma Delete_agrees A cs k c : agrees A c ->
  agrees (after_delete (exact && is_ok (Delete cs k c).2) k A) (Delete cs k c).1.
Proof.
  intros F. unfold Delete. rewrite finish_ok.
  apply (each_layer_agrees A (fun d => after_delete d k A)); [done| |].
  - intros n l k' v' Hl [E ?]%del_law. split; auto.
  - intros k' v' [? E]. split; auto.
Qed.

(** A history of a cache: what was asked, and what it answered. *)
Inductive cache_op :=
| OpGet (cs : nat -> ctx) (k : key)
| OpSet (cs : nat -> ctx) (k : key) (v : val) (ttl : Z)
| OpDelete (cs : nat -> ctx) (k : key).

Inductive cache_answer :=
| AnGet (r : result (cache_error lerr) (option val))
| AnDone (r : result (cache_error lerr) unit).

Definition run_op (o : cache_op) (c : Cache L) : Cache L * cache_answer :=
  match o with
  | OpGet cs k => let '(c, r) := Get ctx_Err cs k c in (c, AnGet r)
  | OpSet cs k v ttl => let '(c, r) := Set_ cs k v ttl c in (c, AnDone r)
  | OpDelete cs k => let '(c, r) := Delete cs k c in (c, AnDone r)
  end.

Fixpoint run_ops (os : list cache_op) (c : Cache L) : list cache_answer :=
  match os with
  | [] => []
  | o :: os' => let '(c, a) := run_op o c in a :: run_ops os' c
  end.

(** The answers a map of allowed values admits. *)
Fixpoint admits (A : allowed) (os : list cache_op) (ans : list cache_answer) : Prop :=
  match os, ans with
  | OpGet _ k :: os', AnGet r :: ans' =>
      (forall v, r = Ok (Some v) -> A k v) /\ admits A os' ans'
  | OpSet _ k v _ :: os', AnDone r :: ans' => admits (after_set (exact && is_ok r) k v A) os' ans'
  | OpDelete _ k :: os', AnDone r :: ans' => admits (after_delete (exact && is_ok r) k A) os' ans'
  | [], [] => True
  | _, _ => False
  end.

Lemma run_ops_admits os A c : agrees A c -> admits A os (run_ops os c).
Proof.
  revert A c. induction os as [|o os IH]; intros A c F; [done|].
  destruct o as [cs k|cs k v ttl|cs k]; cbn [run_ops run_op].
  - destruct (Get_agrees A cs k c F) as [F' Hv].
    destruct (Get ctx_Err cs k c) as [c' r]. cbn [fst snd admits] in *. split; [exact Hv|by apply IH].
  - pose proof (Set_agrees A cs k v ttl c F) as F'.
    destruct (Set_ cs k v ttl c) as [c' r]. cbn [fst snd admits] in *. by apply IH.
  - pose proof (Delete_agrees A cs k c F) as F'.
    destruct (Delete cs k c) as [c' r]. cbn [fst snd admits] in *. by apply IH.
Qed.

Lemma fill_agrees A cs k ttl (f : load_fn (lerr:=lerr) (W:=W)) (c : Cache L) (w : W) : agrees A c ->
  let '((c', w'), r) := fill ctx_Err cs k ttl f (c, w) in
  match r with
  | Ok v => (w' = w /\ A k v /\ agrees A c')
            \/ (f w = (w', Ok v) /\ agrees (after_set false k v A) c')
  | Err e => agrees A c' /\ exists x, e = LoadFailed x /\ f w = (w', Err x)
  end.
Proof.
  intros F. unfold fill. destruct (Get_agrees A (cs 1%nat) k c F) as [F' Hv].
  destruct (Get ctx_Err (cs 1%nat) k c) as [c1 r]. cbn in F', Hv.
  assert (X : let '((c', w'), r) :=
      (let '(w, r) := f w in
       match r with
       | Err e => ((c1, w), Err (LoadFailed e))
       | Ok v => let '(c, _) := Set_ (cs 2%nat) k v ttl c1 in ((c, w), Ok v)
       end) in
    match r with
    | Ok v => (w' = w /\ A k v /\ agrees A c')
              \/ (f w = (w', Ok v) /\ agrees (after_set false k v A) c')
    | Err e => agrees A c' /\ exists x, e = LoadFailed x /\ f w = (w', Err x)
    end).
  { destruct (f w) as [w' [v|e]]; [|eauto].
    pose proof (Set_agrees A (cs 2%nat) k v ttl c1 F') as S.
    destruct (Set_ (cs 2%nat) k v ttl c1) as [c2 r2]. right. split; [done|].
    eapply Forall_impl; [exact S|]. intros l Hl k' v' [?|[? ?]]%Hl; [by left|right]. auto. }
  destruct r as [[v|]|e]; [left; auto|exact X|exact X].
Qed.
End spec.

(** ** What the cache promises *)

(** [C38] Reads are coherent: whatever Get, Set and Delete are called and
    however their layers fail, evict and expire, a hit is a value that was set
    for its key; and over exact layers, one that no later Set or Delete that
    answered nil has replaced. *)
Theorem cache_coherent {exact : bool} {ctx lerr L : Type} `{LayerLaws exact ctx lerr L}
  (ctx_Err : ctx -> option lerr) (A : allowed) (c : Cache L) (os : list cache_op)
  (F : agrees A c) :
  admits (exact:=exact) A os (run_ops ctx_Err os c).
Proof. by apply run_ops_admits. Qed.

(** GetOrLoad answers a held value without calling load, or calls load
    exactly once: its value is answered even when it cannot be stored, its
    error is answered as it is, and then nothing was stored.  The other errors
    come before anything is read. *)
Theorem GetOrLoad_spec {exact : bool} {ctx lerr L W : Type} `{LayerLaws exact ctx lerr L}
  (ctx_Err : ctx -> option lerr) (A : allowed) (c : Cache L) (w : W)
  (x : ctx) cs k ttl (load : option (load_fn (lerr:=lerr) (W:=W))) (F : agrees A c) :
  let '((c', w'), r) := GetOrLoad ctx_Err x cs k ttl load (c, w) in
  match r with
  | Ok v => exists f, load = Some f /\
      ((w' = w /\ A k v /\ agrees A c')
       \/ (f w = (w', Ok v) /\ agrees (after_set false k v A) c'))
  | Err e => agrees A c' /\
      match e with
      | NilLoad => load = None /\ (c', w') = (c, w)
      | NegativeTTL t => t = ttl /\ ttl < 0 /\ (c', w') = (c, w)
      | CtxEnded e => ctx_Err x = Some e /\ (c', w') = (c, w)
      | LoadFailed e => exists f, load = Some f /\ f w = (w', Err e)
      | LayersFailed _ => False
      end
  end.
Proof.
  unfold GetOrLoad. destruct load as [f|]; [|done].
  destruct (Z.ltb_spec ttl 0); [done|]. destruct (ctx_Err x) eqn:Ex; [done|].
  destruct (Get_agrees ctx_Err A (cs 0%nat) k c F) as [F' Hv].
  destruct (Get ctx_Err (cs 0%nat) k c) as [c1 r]. cbn in F', Hv.
  pose proof (fill_agrees ctx_Err A cs k ttl f c1 w F') as X.
  destruct (fill ctx_Err cs k ttl f (c1, w)) as [[c' w'] a].
  assert (Y : match a with
    | Ok v => exists f0, Some f = Some f0 /\ ((w' = w /\ A k v /\ agrees A c')
       \/ (f0 w = (w', Ok v) /\ agrees (after_set false k v A) c'))
    | Err e => agrees A c' /\
      match e with
      | LoadFailed e => exists f0, Some f = Some f0 /\ f0 w = (w', Err e)
      | _ => False
      end
    end).
  { destruct a as [v|e]; [by exists f|]. destruct X as [? (y & -> & ?)]. eauto. }
  destruct r as [[v|]|e].
  - exists f. split; [done|]. left. auto.
  - destruct a as [v|[]]; try done; by destruct Y.
  - destruct a as [v|[]]; try done; by destruct Y.
Qed.

(** A cache of two memory layers over a map, for the witnesses. *)
Definition map_get (_ : unit) (k : key) (m : gmap key entry) := (m, m !! k).
Definition map_set (_ : unit) (k : key) (e : entry) (m : gmap key entry) := <[k := e]> m.
Definition map_del (_ : unit) (k : key) (m : gmap key entry) := delete k m.

Lemma map_otter_ok : otter_ok map_get map_set map_del (fun m k => option_map e_val (m !! k)).
Proof.
  split.
  - intros c k m. cbn. split; [done|]. by intros e ->.
  - intros c k e m k' v'. unfold map_set. case_decide; subst.
    + rewrite lookup_insert_eq. by intros [= <-].
    + by rewrite lookup_insert_ne.
  - intros c k m k' v'. unfold map_del. destruct (decide (k' = k)) as [->|].
    + by rewrite lookup_delete_eq.
    + by rewrite lookup_delete_ne.
Qed.

Definition map_cache : Cache (memory (M := gmap key entry)) :=
  {| layers := [{| m_c := ∅; m_ttl := 5 |}; {| m_c := ∅; m_ttl := 9 |}]; has_memory := true |}.

Lemma map_cache_agrees :
  agrees (H0 := memory_laws (lerr:=unit) map_get map_set map_del _ map_otter_ok true) (fun _ _ => False) map_cache.
Proof. repeat constructor; intros k v E; cbn in E; by rewrite lookup_empty in E. Qed.

Lemma cache_coherent_witness :
  exists ans : list (cache_answer (lerr:=unit)),
  admits (exact:=true) (ctx:=unit) (fun _ _ => False)
    [OpSet (fun _ => tt) (str "k") (str "v") 0; OpGet (fun _ => tt) (str "k")] ans.
Proof.
  eexists. exact (cache_coherent (H0 := memory_laws (lerr:=unit) map_get map_set map_del _ map_otter_ok true)
    (fun _ => None) _ map_cache _ map_cache_agrees).
Defined.

Lemma GetOrLoad_spec_witness :
  exists c' : Cache (memory (M := gmap key entry)), agrees
    (H0 := memory_laws (lerr:=unit) map_get map_set map_del _ map_otter_ok true)
    (after_set false (str "k") (str "v") (fun _ _ => False)) c'.
Proof.
  pose proof (GetOrLoad_spec (H0 := memory_laws (lerr:=unit) map_get map_set map_del _ map_otter_ok true)
    (fun _ => None) (fun _ _ => False) map_cache 0%nat tt (fun _ _ => tt) (str "k") 0
    (Some (fun n => (S n, Ok (str "v")))) map_cache_agrees) as X.
  set (r := GetOrLoad _ _ _ _ _ _ _) in X.
  assert (E : r.2 = Ok (str "v")) by (vm_compute; reflexivity).
  destruct r as [[c' w'] a]. cbn [snd] in E. rewrite E in X.
  destruct X as (f & [= <-] & [(_ & [] & _)|[_ X]]). exists c'. exact X.
Defined.

(** What New builds: with a layer enabled and the configuration valid,
    the memory layer comes first when it is on, and a breaker is closed, with
    a positive threshold, reset period and number of successes, and probes
    whose deadline is at most the reset period: the conditions under which
    the breaker's theorems hold. *)
Theorem New_ok {M R : Type} (newMemory : Z -> Z -> option M) (newClient : Config -> option R)
  (cfg : Config) (c : Cache cache_layer) (E : New newMemory newClient cfg = Ok c) :
  layers c <> []
  /\ (has_memory c = true <-> exists m ls, layers c = inl m :: ls)
  /\ (length (layers c) <= 2)%nat
  /\ forall b, inr (inr b) ∈ layers c ->
      b_brk b = newBreaker /\ 0 < threshold (b_cfg b) /\ 0 < reset (b_cfg b) /\ 0 < successes (b_cfg b)
      /\ 0 < probeTimeout (b_cfg b) <= reset (b_cfg b).
Proof.
  unfold New in E. set (d := withDefaults cfg) in E. clearbody d.
  destruct (Validate d) eqn:V; [|done].
  destruct (mc_Enabled (Memory d)) eqn:Em, (rc_Enabled (Redis d)) eqn:Er; cbn [negb andb] in E; try done;
    repeat (apply rbind_Ok in E as (? & ? & E)); repeat case_match; simplify_eq/=; cbn.
  all: (split; [done|]); (split; [split; [try done; intros _; eauto|by intros (? & ? & ?)]|]); (split; [repeat constructor|]);
    intros b Hb; repeat (apply elem_of_cons in Hb as [Hb|Hb]; [|]); simplify_eq/=;
    try by apply not_elem_of_nil in Hb.
  all: match goal with Eb : bc_Enabled _ = true |- _ =>
    destruct (Validate_breaker d V Eb) as (_ & ? & ? & ? & ?) end;
    unfold new_config; cbn; repeat split; done || lia.
Qed.

Definition cfg_on : Config :=
  {| Memory := {| mc_Enabled := true; mc_Capacity := 0; mc_TTL := 0 |};
     Redis := {| rc_Enabled := true; rc_Addr := []; rc_Username := []; rc_Password := []; rc_DB := 0;
                 rc_TLS := false; rc_CACert := []; rc_DialTimeout := 0; rc_ReadTimeout := 0;
                 rc_WriteTimeout := 0; rc_PoolSize := 0; rc_TTL := 0 |};
     BreakerSection := {| bc_Enabled := true; bc_Threshold := 0; bc_ResetTimeout := 0;
                          bc_HalfOpenSuccesses := 0; bc_ProbeTimeout := 0 |} |}.

Lemma New_ok_witness :
  exists c : Cache (cache_layer (M:=unit) (R:=unit)), has_memory c = true /\ layers c <> [].
Proof.
  eexists. split; [|eapply (New_ok (fun _ _ => Some tt) (fun _ => Some tt) cfg_on); reflexivity]. reflexivity.
Defined.
