(* ===== verification/Flight.v ===== *)
(** cache/flight.go: concurrent loads of one key share a call. *)

From Stdlib Require Import ZArith Lia List.
From stdpp Require Import base decidable list gmap strings relations.
From S2P Require Import Prelude GoStrings.

Section flight.
Context {lerr V : Type} (errLoadPanicked : lerr).

(** [call]: [c_done] is its channel closed; the result is meant to be read
    once it is. *)
Record call := Call { c_done : bool; c_res : result lerr V }.

(** [flight]: the map under its mutex, and the store of calls it points
    into. *)
Record flight := Flight { calls : gmap gostring nat; objs : list call }.

(** The locked part of [do]: join the call in flight for [k], or start one;
    the flag says that this caller leads. *)
Definition do_begin (k : gostring) (f : flight) : flight * (bool * nat) :=
  match calls f !! k with
  | Some id => (f, (false, id))
  | None =>
      let id := length (objs f) in
      ({| calls := <[k := id]> (calls f);
          objs := objs f ++ [{| c_done := false; c_res := Err errLoadPanicked |}] |}, (true, id))
  end.

(** What the leader does when its function ends with [o], [None] when the
    function panicked: the assignment and the deferred clean-up. *)
Definition do_end (k : gostring) (id : nat) (o : option (result lerr V)) (f : flight) : flight :=
  {| calls := delete k (calls f);
     objs := alter (fun c => {| c_done := true; c_res := default (c_res c) o |}) id (objs f) |}.

(** A waiter's read of [c.done] and of the result; [None] while it blocks. *)
Definition do_wait (id : nat) (f : flight) : option (result lerr V) :=
  match objs f !! id with
  | Some c => if c_done c then Some (c_res c) else None
  | None => None
  end.

(** The waiter's select: the answers it may take now, none while it blocks.
    [ctx_err] is its own context's error once that has ended. *)
Definition do_select (id : nat) (ctx_err : option lerr) (f : flight) : list (result lerr V) :=
  option_list (do_wait id f) ++ option_list (option_map Err ctx_err).

(** The callers: the leaders whose function runs, the waiters with the call
    they joined, and, as a record of the past, how each call's function
    ended. *)
Record callers := Callers {
  fl : flight;
  running : list (gostring * nat);
  waiting : list (gostring * nat);
  ended : gmap nat (gostring * option (result lerr V));
}.

Inductive fl_step : callers -> callers -> Prop :=
| fl_lead s k f id : do_begin k (fl s) = (f, (true, id)) ->
    fl_step s {| fl := f; running := (k, id) :: running s; waiting := waiting s; ended := ended s |}
| fl_join s k f id : do_begin k (fl s) = (f, (false, id)) ->
    fl_step s {| fl := f; running := running s; waiting := (k, id) :: waiting s; ended := ended s |}
| fl_end s l1 k id l2 o : running s = l1 ++ (k, id) :: l2 ->
    fl_step s {| fl := do_end k id o (fl s); running := l1 ++ l2; waiting := waiting s;
                 ended := <[id := (k, o)]> (ended s) |}.

Definition fl_init : callers :=
  {| fl := {| calls := ∅; objs := [] |}; running := []; waiting := []; ended := ∅ |}.

Record fl_inv (s : callers) : Prop := {
  inv_calls : forall k id, calls (fl s) !! k = Some id <-> (k, id) ∈ running s;
  inv_ids : NoDup (map snd (running s));
  inv_keys : NoDup (map fst (running s));
  inv_old : forall id, id ∈ map snd (running s) \/ is_Some (ended s !! id) <-> (id < length (objs (fl s)))%nat;
  inv_res : forall id c, objs (fl s) !! id = Some c ->
    match ended s !! id with
    | Some (_, o) => c = {| c_done := true; c_res := default (Err errLoadPanicked) o |} /\ id ∉ map snd (running s)
    | None => c = {| c_done := false; c_res := Err errLoadPanicked |}
    end;
  inv_wait : forall k id, (k, id) ∈ waiting s ->
    (k, id) ∈ running s \/ exists o, ended s !! id = Some (k, o);
}.

Lemma fl_init_inv : fl_inv fl_init.
Proof.
  split; cbn; try apply NoDup_nil_2; try done.
  - intros k id. rewrite lookup_empty. split; [done|]. by intros ?%not_elem_of_nil.
  - intros id. split; [|lia]. intros [?%not_elem_of_nil|[? E]]; [done|]. by rewrite lookup_empty in E.
  - by intros k id ?%not_elem_of_nil.
Qed.

Lemma fl_step_inv s s' : fl_inv s -> fl_step s s' -> fl_inv s'.
Proof.
  intros I St. destruct I as [Ic Ii Ik Io Ir Iw].
  destruct St as [s k f id B|s k f id B|s l1 k id l2 o R]; try unfold do_begin in B.
  - destruct (calls (fl s) !! k) eqn:E; simplify_eq.
    assert (Hk : forall id, (k, id) ∉ running s) by (intros i Hi; apply Ic in Hi; congruence).
    assert (Hn : length (objs (fl s)) ∉ map snd (running s) /\ ended s !! length (objs (fl s)) = None).
    { split; [intros Hi; assert (length (objs (fl s)) < length (objs (fl s)))%nat by (apply Io; auto); lia|].
      destruct (ended s !! length (objs (fl s))) eqn:X; [|done].
      assert (length (objs (fl s)) < length (objs (fl s)))%nat by (apply Io; eauto). lia. }
    destruct Hn as [Hn1 Hn2].
    split; cbn.
    + intros k' i. rewrite elem_of_cons. destruct (decide (k' = k)) as [->|Hne].
      * rewrite lookup_insert_eq. split; [intros [= <-]; auto|]. intros [[= ->]|?]; [done|]. by destruct (Hk i).
      * rewrite lookup_insert_ne by done. rewrite Ic. naive_solver.
    + by constructor.
    + constructor; [|done]. intros ((k', i) & -> & Hi)%list_elem_of_fmap. by apply (Hk i).
    + intros i. rewrite length_app. cbn. rewrite elem_of_cons.
      transitivity ((i < length (objs (fl s)))%nat \/ i = length (objs (fl s))); [rewrite <- Io; tauto|lia].
    + intros i c [Hc|[-> Hc]]%lookup_snoc_Some.
      * destruct Hc as [Hl Hc]. specialize (Ir i c Hc). destruct (ended s !! i) as [[? o]|]; [|done].
        destruct Ir as [-> Hi]. split; [done|]. rewrite elem_of_cons. intros [->|?]; [lia|done].
      * by rewrite Hn2.
    + intros k' i Hw. apply Iw in Hw as [?|?]; [left; by apply elem_of_cons; right|by right].
  - destruct (calls (fl s) !! k) eqn:E; simplify_eq.
    split; cbn; try done. intros k' i [[= -> ->]|Hw]%elem_of_cons; [|by apply Iw]. left. by apply Ic.
  - unfold do_end. rewrite R in *. rewrite !map_app in *. cbn in *.
    apply NoDup_app in Ii as (N1 & N2 & [N3 N4]%NoDup_cons).
    apply NoDup_app in Ik as (K1 & K2 & [K3 K4]%NoDup_cons).
    assert (Hid : id ∉ map snd l1 ++ map snd l2).
    { rewrite elem_of_app. intros [X|X]; [|done]. apply (N2 id X). by apply elem_of_cons; left. }
    assert (Hkk : forall i, (k, i) ∉ l1 ++ l2).
    { intros i [X|X]%elem_of_app.
      - apply (K2 k); [|by apply elem_of_cons; left]. by apply (list_elem_of_fmap_2 fst _ _ X).
      - apply K3. by apply (list_elem_of_fmap_2 fst _ _ X). }
    split; cbn; rewrite ?map_app.
    + intros k' i. destruct (decide (k' = k)) as [->|Hne].
      * rewrite lookup_delete_eq. split; [done|]. intros X. by destruct (Hkk i).
      * rewrite lookup_delete_ne by done. rewrite Ic, !elem_of_app, elem_of_cons. naive_solver.
    + apply NoDup_app. split; [done|]. split; [|done]. intros x X Y. apply (N2 x X). by apply elem_of_cons; right.
    + apply NoDup_app. split; [done|]. split; [|done]. intros x X Y. apply (K2 x X). by apply elem_of_cons; right.
    + intros i. rewrite length_alter, <- Io, !elem_of_app, elem_of_cons.
      destruct (decide (i = id)) as [->|Hne]; [rewrite lookup_insert_eq; naive_solver|].
      rewrite lookup_insert_ne by done. naive_solver.
    + intros i c Hc. destruct (decide (i = id)) as [->|Hne].
      * rewrite lookup_insert_eq. rewrite list_lookup_alter_eq in Hc.
        destruct (objs (fl s) !! id) as [c0|] eqn:E0; [|done]. cbn in Hc. specialize (Ir id c0 E0).
        destruct (ended s !! id) as [[? ?]|].
        -- destruct Ir as [_ X]. exfalso. apply X. apply elem_of_app; right. by apply elem_of_cons; left.
        -- subst c0. simplify_eq/=. done.
      * rewrite lookup_insert_ne by done. rewrite list_lookup_alter_ne in Hc by done.
        specialize (Ir i c Hc). destruct (ended s !! i) as [[? ?]|]; [|done].
        destruct Ir as [? X]. split; [done|]. intros Y. apply X. rewrite elem_of_app, elem_of_cons.
        apply elem_of_app in Y. naive_solver.
    + intros k' i Hw. destruct (Iw k' i Hw) as [X|[o' X]].
      * apply elem_of_app in X. rewrite elem_of_cons in X.
        destruct X as [X|[[= -> ->]|X]]; [left; by apply elem_of_app; left|right|left; by apply elem_of_app; right].
        rewrite lookup_insert_eq. eauto.
      * right. destruct (decide (i = id)) as [->|]; [|rewrite lookup_insert_ne by done; eauto].
        assert (Y : id ∈ map snd l1 ++ id :: map snd l2)
          by (apply elem_of_app; right; by apply elem_of_cons; left).
        assert (id < length (objs (fl s)))%nat as [c0 Hc0]%lookup_lt_is_Some by (apply Io; auto).
        specialize (Ir id c0 Hc0). rewrite X in Ir. by destruct Ir.
Qed.

Lemma fl_reachable s : rtc fl_step fl_init s -> fl_inv s.
Proof.
  intros R. assert (X : forall s0, fl_inv s0 -> rtc fl_step s0 s -> fl_inv s).
  { clear R. intros s0 I R. induction R; [done|]. apply IHR. by eapply fl_step_inv. }
  apply (X fl_init fl_init_inv R).
Qed.
End flight.

(** However calls of do interleave, at most one function runs for a
    key.  A caller that joined a call for its key waits while that function
    runs and its own context lasts; what it then answers is exactly what the
    function returned, the panic error when the function panicked, or its own
    context's error. *)
Theorem flight_shares {lerr V} (errLoadPanicked : lerr) (s : callers (V:=V)) (k : gostring) (id : nat)
  (ctx_err : option lerr)
  (R : rtc (fl_step errLoadPanicked) fl_init s) (J : (k, id) ∈ waiting s) :
  NoDup (map fst (running s))
  /\ (do_select id ctx_err (fl s) = [] <-> (k, id) ∈ running s /\ ctx_err = None)
  /\ forall r, r ∈ do_select id ctx_err (fl s) ->
      (exists o, ended s !! id = Some (k, o) /\ r = default (Err errLoadPanicked) o)
      \/ (exists e, ctx_err = Some e /\ r = Err e).
Proof.
  destruct (fl_reachable errLoadPanicked s R) as [Ic Ii Ik Io Ir Iw]. split; [done|].
  assert (X : match do_wait id (fl s) with
     | None => (k, id) ∈ running s
     | Some r => (k, id) ∉ running s
                 /\ exists o, ended s !! id = Some (k, o) /\ r = default (Err errLoadPanicked) o
     end).
  { unfold do_wait. destruct (Iw k id J) as [X|[o X]].
    - destruct (objs (fl s) !! id) as [c|] eqn:E; [|done]. specialize (Ir id c E).
      destruct (ended s !! id) as [[? ?]|].
      + destruct Ir as [_ Y]. exfalso. apply Y. by apply (list_elem_of_fmap_2 snd _ _ X).
      + by subst c.
    - assert (id < length (objs (fl s)))%nat as [c E]%lookup_lt_is_Some by (apply Io; eauto).
      rewrite E. specialize (Ir id c E). rewrite X in Ir. destruct Ir as [-> Y]. cbn. split; [|eauto].
      intros Z. apply Y. by apply (list_elem_of_fmap_2 snd _ _ Z). }
  unfold do_select. destruct (do_wait id (fl s)) as [r0|], ctx_err as [e|]; cbn;
    (split; [naive_solver|]); intros r Hr; rewrite ?elem_of_cons, ?elem_of_nil in Hr; naive_solver.
Qed.

Lemma flight_shares_witness :
  exists s : callers (lerr:=unit) (V:=Z), waiting s = [(str "k", 0%nat)]
    /\ forall r, r ∈ do_select 0 None (fl s) ->
      (exists o, ended s !! 0%nat = Some (str "k", o) /\ r = default (Err tt) o)
      \/ (exists e, None = Some e /\ r = Err e).
Proof.
  set (f1 := (do_begin (V:=Z) tt (str "k") (fl fl_init)).1).
  set (s1 := Callers f1 [(str "k", 0%nat)] [] ∅).
  set (s2 := Callers f1 [(str "k", 0%nat)] [(str "k", 0%nat)] ∅).
  set (s3 := Callers (do_end (str "k") 0 (Some (Ok 7)) f1) [] [(str "k", 0%nat)]
               (<[0%nat := (str "k", Some (Ok 7))]> ∅)).
  exists s3. split; [done|].
  apply (flight_shares tt s3 (str "k") 0 None); [|by apply list_elem_of_here].
  apply (rtc_l _ _ s1); [by apply fl_lead|].
  apply (rtc_l _ _ s2); [by apply fl_join|].
  apply rtc_once. by apply (fl_end tt s2 [] (str "k") 0 [] (Some (Ok 7))).
Defined.
