(* ===== verification/Replay.v ===== *)
(** realtime/event.go and realtime/replay.go: events, their names, and the
    ring buffer of the latest ones, which refines a list. *)

From Stdlib Require Import ZArith Lia List Ascii.
From stdpp Require Import base decidable list gmap strings.
From S2P Require Import Prelude GoStrings.

(** ** Events (event.go) *)

(** [frame]: an event encoded once for every connection that gets it. *)
Record frame := Frame { f_id : gostring; f_topic : gostring; f_typ : gostring; f_json : gostring }.

#[global] Instance frame_eq_dec : EqDecision frame.
Proof. solve_decision. Defined.

Definition typeRefused : gostring := str "refused".
Definition typeReset : gostring := str "reset".
Definition typeError : gostring := str "error".

Definition reserved (typ : gostring) : bool :=
  seq_eqb typ typeRefused || seq_eqb typ typeReset || seq_eqb typ typeError.

(** A byte [validName] admits. *)
Definition name_byte (c : ascii) : bool :=
  let v := byte_val c in
  ((97 <=? v) && (v <=? 122)) || ((65 <=? v) && (v <=? 90)) || ((48 <=? v) && (v <=? 57))
  || beq c "_" || beq c "." || beq c ":" || beq c "-".

Definition validName (s : gostring) : bool :=
  if (length s =? 0)%nat || (128 <? length s)%nat then false else forallb name_byte s.

(** ** The ring buffer (replay.go) *)

Record replay := Replay {
  buf : list (option frame);
  head : nat;          (* index of the oldest event *)
  n : nat;             (* events kept *)
  first : nat;         (* position of the oldest event in the hub's sequence *)
  pos : gmap gostring nat;
}.

Definition newReplay (size : nat) : replay :=
  {| buf := replicate size None; head := 0; n := 0; first := 0; pos := ∅ |}.

(** The first half of [add]: making room when full. *)
Definition evict (r : replay) : replay :=
  if (n r =? length (buf r))%nat then
    let pos' := match buf r !! head r with
                | Some (Some old) =>
                    if bool_decide (pos r !! f_id old = Some (first r)) then delete (f_id old) (pos r) else pos r
                | _ => pos r
                end in
    {| buf := <[head r := None]> (buf r); head := (head r + 1) mod length (buf r);
       n := n r - 1; first := first r + 1; pos := pos' |}
  else r.

(** [add]. *)
Definition add (f : frame) (r : replay) : replay :=
  if (length (buf r) =? 0)%nat then r
  else
    let r := evict r in
    {| buf := <[(head r + n r) mod length (buf r) := Some f]> (buf r); head := head r;
       n := n r + 1; first := first r; pos := <[f_id f := first r + n r]> (pos r) |}%nat.

(** The loop of [since] over the [k] positions from [q] on. *)
Fixpoint collect (r : replay) (topics : list gostring) (q k : nat) : list frame :=
  match k with
  | O => []
  | S k' =>
      let rest := collect r topics (S q) k' in
      match buf r !! ((head r + (q - first r)) mod length (buf r))%nat with
      | Some (Some f) => if bool_decide (f_topic f ∈ topics) then f :: rest else rest
      | _ => rest
      end
  end.

(** [since]: [None] when the event with [id] is not kept. *)
Definition since (id : gostring) (topics : list gostring) (r : replay) : option (list frame) :=
  match pos r !! id with
  | None => None
  | Some p => Some (collect r topics (p + 1) (first r + n r - (p + 1)))
  end.

(** ** The list it stands for *)

(** The events after the last one with [id] in [l]. *)
Fixpoint after_last (id : gostring) (l : list frame) : option (list frame) :=
  match l with
  | [] => None
  | f :: l' => match after_last id l' with
               | Some s => Some s
               | None => if bool_decide (f_id f = id) then Some l' else None
               end
  end.

Definition on_topics (topics : list gostring) (l : list frame) : list frame :=
  List.filter (fun f => bool_decide (f_topic f ∈ topics)) l.

(** The last [size] of [l]. *)
Definition latest (size : nat) (l : list frame) : list frame := drop (length l - size) l.

(** The position of the last event with [id]. *)
Fixpoint last_index (id : gostring) (l : list frame) : option nat :=
  match l with
  | [] => None
  | f :: l' => match last_index id l' with
               | Some i => Some (S i)
               | None => if bool_decide (f_id f = id) then Some 0%nat else None
               end
  end.

Lemma after_last_index id l :
  after_last id l = match last_index id l with Some i => Some (drop (S i) l) | None => None end.
Proof.
  induction l as [|f l IH]; [done|]. cbn. rewrite IH. destruct (last_index id l); [done|].
  by case_bool_decide.
Qed.

Lemma last_index_lt id l i : last_index id l = Some i -> (i < length l)%nat.
Proof.
  revert i. induction l as [|f l IH]; intros i H; [done|]. cbn in *.
  destruct (last_index id l); [specialize (IH _ eq_refl); simplify_eq; lia|].
  case_bool_decide; simplify_eq; lia.
Qed.

Lemma last_index_snoc id l f :
  last_index id (l ++ [f]) = if bool_decide (f_id f = id) then Some (length l) else last_index id l.
Proof.
  induction l as [|g l IH]; cbn; [by case_bool_decide|]. rewrite IH. by case_bool_decide.
Qed.

Lemma last_index_cons id f l :
  last_index id (f :: l) = match last_index id l with
                           | Some i => Some (S i)
                           | None => if bool_decide (f_id f = id) then Some 0%nat else None
                           end.
Proof. reflexivity. Qed.

(** The buffer [r] keeps exactly [l]. *)
Record keeps (size : nat) (r : replay) (l : list frame) : Prop := {
  keeps_size : length (buf r) = size;
  keeps_n : n r = length l;
  keeps_le : (length l <= size)%nat;
  keeps_head : (head r < size)%nat;
  keeps_buf : forall i f, l !! i = Some f -> buf r !! ((head r + i) mod size)%nat = Some (Some f);
  keeps_pos : forall id, pos r !! id = match last_index id l with
                                       | Some i => Some (first r + i)%nat
                                       | None => None
                                       end;
}.

Lemma keeps_new size : (0 < size)%nat -> keeps size (newReplay size) [].
Proof.
  intros H. split; cbn; try done; try lia.
  apply length_replicate.
Qed.

Lemma mod_inj size h i j : (i < size)%nat -> (j < size)%nat ->
  ((h + i) mod size = (h + j) mod size)%nat -> i = j.
Proof.
  intros Hi Hj E. assert (forall a b, (a <= b)%nat -> (b < size)%nat ->
    ((h + a) mod size = (h + b) mod size)%nat -> a = b) as X.
  { intros a b Hab Hb Eab.
    pose proof (Nat.div_mod_eq (h + a) size). pose proof (Nat.div_mod_eq (h + b) size).
    assert (size * ((h + b) / size - (h + a) / size) = b - a)%nat by (rewrite Nat.mul_sub_distr_l; lia).
    destruct ((h + b) / size - (h + a) / size)%nat eqn:D; [lia|]. nia. }
  destruct (Nat.le_ge_cases i j); [by apply X|symmetry; by apply X].
Qed.

Lemma evict_keeps size r f l : keeps size r (f :: l) -> length (f :: l) = size ->
  keeps size (evict r) l.
Proof.
  intros [Hs Hn Hle Hh Hb Hp] El. unfold evict. rewrite Hn, Hs, El, Nat.eqb_refl.
  assert (Hf : buf r !! head r = Some (Some f)).
  { specialize (Hb 0%nat f eq_refl). by rewrite Nat.add_0_r, Nat.mod_small in Hb. }
  rewrite Hf. cbn [length] in *.
  split; cbn [buf head n pos first].
  - by rewrite length_insert.
  - lia.
  - lia.
  - apply Nat.mod_upper_bound. lia.
  - intros i g Hi. specialize (Hb (S i) g Hi).
    assert (i < length l)%nat by by eapply lookup_lt_Some.
    rewrite Nat.Div0.add_mod_idemp_l. replace (head r + 1 + i)%nat with (head r + S i)%nat by lia.
    rewrite list_lookup_insert_ne; [done|]. intros E.
    assert (0%nat = S i); [|lia]. apply (mod_inj size (head r)); [lia|lia|].
    by rewrite Nat.add_0_r, (Nat.mod_small (head r)).
  - intros id. specialize (Hp id) as Hpi. pose proof (Hp (f_id f)) as Hpf. rewrite last_index_cons in Hpi, Hpf.
    rewrite bool_decide_true in Hpf by done.
    destruct (decide (f_id f = id)) as [<-|Hne].
    + clear Hpi. destruct (last_index (f_id f) l) as [i|].
      * rewrite bool_decide_false; [rewrite Hpf; f_equal; lia|]. rewrite Hpf. intros [= X]. lia.
      * rewrite bool_decide_true; [by rewrite lookup_delete_eq|]. rewrite Hpf. f_equal; lia.
    + rewrite bool_decide_false in Hpi by done.
      assert (E : (if bool_decide (pos r !! f_id f = Some (first r)) then delete (f_id f) (pos r) else pos r) !! id
                  = pos r !! id) by (case_bool_decide; [by rewrite lookup_delete_ne|done]).
      rewrite E, Hpi. destruct (last_index id l); [f_equal; lia|done].
Qed.

Lemma evict_not_full size r l : keeps size r l -> (length l < size)%nat -> evict r = r.
Proof.
  intros [Hs Hn _ _ _ _] Hl. unfold evict. rewrite Hn, Hs.
  destruct (Nat.eqb_spec (length l) size); [lia|done].
Qed.

Lemma put_keeps size r l f : keeps size r l -> (length l < size)%nat ->
  keeps size {| buf := <[((head r + n r) mod length (buf r))%nat := Some f]> (buf r); head := head r;
                n := n r + 1; first := first r; pos := <[f_id f := (first r + n r)%nat]> (pos r) |} (l ++ [f]).
Proof.
  intros [Hs Hn Hle Hh Hb Hp] Hl. split; cbn [buf head n pos first].
  - by rewrite length_insert.
  - rewrite length_app. cbn. lia.
  - rewrite length_app. cbn. lia.
  - done.
  - intros i g [[Hi Hg]|[-> ->]]%lookup_snoc_Some; rewrite Hn, Hs.
    + rewrite list_lookup_insert_ne; [by apply Hb|]. intros E. apply mod_inj in E; lia.
    + rewrite list_lookup_insert_eq; [done|]. rewrite Hs. apply Nat.mod_upper_bound. lia.
  - intros id. rewrite last_index_snoc. case_bool_decide as E.
    + subst. by rewrite lookup_insert_eq, Hn.
    + by rewrite lookup_insert_ne.
Qed.

Lemma add_keeps size r l f : keeps size r l -> (0 < size)%nat ->
  keeps size (add f r) (latest size (l ++ [f])).
Proof.
  intros K Hsz. unfold add. rewrite (keeps_size _ _ _ K).
  destruct (Nat.eqb_spec size 0); [lia|]. unfold latest. rewrite length_app. cbn [length].
  destruct (Nat.eq_dec (length l) size) as [El|].
  - destruct l as [|g l]; [cbn in *; lia|]. pose proof (evict_keeps _ _ _ _ K El) as K'.
    replace (length (g :: l) + 1 - size)%nat with 1%nat by lia. cbn [drop app].
    apply put_keeps; [done|]. cbn in El. lia.
  - pose proof (keeps_le _ _ _ K). rewrite (evict_not_full _ _ _ K) by lia.
    replace (length l + 1 - size)%nat with 0%nat by lia. apply put_keeps; [done|lia].
Qed.

Lemma latest_snoc size l f : latest size (latest size l ++ [f]) = latest size (l ++ [f]).
Proof.
  unfold latest. rewrite !length_app, !length_drop. cbn [length].
  destruct (Nat.le_ge_cases (length l) size).
  - replace (length l - size)%nat with 0%nat by lia. rewrite drop_0. do 2 f_equal; lia.
  - rewrite <- (drop_app_le l [f]) by lia. rewrite drop_drop. f_equal. lia.
Qed.

Lemma adds_keep size fs : (0 < size)%nat ->
  keeps size (fold_left (fun r f => add f r) fs (newReplay size)) (latest size fs).
Proof.
  intros H. induction fs as [|f fs IH] using rev_ind; [by apply keeps_new|].
  rewrite fold_left_app. cbn. rewrite <- latest_snoc. by apply add_keeps.
Qed.

Lemma collect_keeps size r l topics i : keeps size r l -> (i <= length l)%nat ->
  collect r topics (first r + i) (length l - i) = on_topics topics (drop i l).
Proof.
  intros K Hi. remember (length l - i)%nat as k eqn:Ek. revert i Hi Ek.
  induction k as [|k IH]; intros i Hi Ek.
  - rewrite drop_ge by lia. done.
  - cbn [collect]. replace (first r + i - first r)%nat with i by lia. rewrite (keeps_size _ _ _ K).
    destruct (lookup_lt_is_Some_2 l i) as [f Hf]; [lia|].
    rewrite (keeps_buf _ _ _ K i f Hf), (drop_S _ _ _ Hf). unfold on_topics. cbn [List.filter].
    rewrite Nat.add_succ_comm || rewrite <- Nat.add_succ_r. rewrite (IH (S i)) by lia. done.
Qed.

Lemma since_keeps size r l id topics : keeps size r l ->
  since id topics r = option_map (on_topics topics) (after_last id l).
Proof.
  intros K. unfold since. rewrite (keeps_pos _ _ _ K), after_last_index.
  destruct (last_index id l) as [i|] eqn:E; [|done]. apply last_index_lt in E. cbn [option_map]. f_equal.
  rewrite (keeps_n _ _ _ K). rewrite <- (collect_keeps size r l topics (S i) K) by lia. f_equal; lia.
Qed.

Lemma replay_refines_list (size : nat) (fs : list frame) (id : gostring) (topics : list gostring) :
  since id topics (fold_left (fun r f => add f r) fs (newReplay size))
  = option_map (on_topics topics) (after_last id (latest size fs)).
Proof.
  destruct size as [|size]; [|by apply (since_keeps (S size)), adds_keep; lia].
  unfold latest. rewrite Nat.sub_0_r, drop_all.
  assert (E : fold_left (fun r f => add f r) fs (newReplay 0) = newReplay 0)
    by (induction fs; [done|by cbn]).
  rewrite E. unfold since. cbn [pos newReplay]. by rewrite lookup_empty.
Qed.

(** The ring buffer refines the list of the latest events: after any
    sequence of adds, wrapping around and evicting, since answers the events
    on the topics after the last one with the id among the latest [size], and
    that the id is no longer kept exactly when it is not among them; a buffer
    of size 0 keeps nothing. *)
Theorem replay_refines (size : nat) (fs : list frame) (id : gostring) (topics : list gostring) :
  since id topics (fold_left (fun r f => add f r) fs (newReplay size))
  = option_map (on_topics topics) (after_last id (latest size fs)).
Proof. apply replay_refines_list. Qed.
