(* ===== verification/Tickets.v ===== *)
(** realtime/ticket.go: tickets, redeemed once or expired.  The store of a
    single replica refines a map that forgets nothing, and holds no expired
    ticket. *)

From Stdlib Require Import ZArith Lia List Sorted.
From stdpp Require Import base decidable list gmap strings sorting.
From S2P Require Import Prelude GoStrings.

(** ** Tickets *)

(** [claims]: the UserID of the principal a ticket binds, if any.  The rest
    of the principal travels with it and is opaque. *)
Record claims {P : Type} := Claims { c_principal : option (gostring * P) }.
Arguments claims : clear implicits.
Arguments Claims {P} _.

Definition claims_userID {P} (c : claims P) : gostring :=
  match c_principal c with None => [] | Some (id, _) => id end.

Definition ticketBytes : Z := 32.

(** base64.RawURLEncoding.EncodedLen(n). *)
Definition raw_encoded_len (n : Z) : Z := n / 3 * 4 + (n mod 3 * 8 + 5) / 6.

Definition ticketLen : Z := raw_encoded_len ticketBytes.

(** [wellFormed]: [decodes] is base64.RawURLEncoding.DecodeString without
    error. *)
Definition wellFormed (decodes : gostring -> bool) (s : gostring) : bool :=
  if negb (Z.of_nat (length s) =? ticketLen) then false else decodes s.

Section tickets.
Context {P : Type}.

Record memTicket := MemTicket { t_claims : claims P; t_expires : Z }.

Record memTickets := MemTickets { byID : gmap gostring memTicket; order : list gostring }.

Definition newMemTickets : memTickets := {| byID := ∅; order := [] |}.

(** The loop of [expire] over the rest of the order. *)
Fixpoint expire_go (now : Z) (byID : gmap gostring memTicket) (order : list gostring)
  : gmap gostring memTicket * list gostring :=
  match order with
  | [] => (byID, [])
  | t :: order' =>
      match byID !! t with
      | Some tk => if now <? t_expires tk then (byID, order) else expire_go now (delete t byID) order'
      | None => expire_go now (delete t byID) order'
      end
  end.

Definition expire (now : Z) (m : memTickets) : memTickets :=
  let '(b, o) := expire_go now (byID m) (order m) in {| byID := b; order := o |}.

(** [put] and [take] at the instant they read. *)
Definition put (now : Z) (ticket : gostring) (c : claims P) (ttl : Z) (m : memTickets) : memTickets :=
  let m := expire now m in
  {| byID := <[ticket := {| t_claims := c; t_expires := now + ttl |}]> (byID m);
     order := order m ++ [ticket] |}.

Definition take (now : Z) (ticket : gostring) (m : memTickets) : memTickets * option (claims P) :=
  let m := expire now m in
  match byID m !! ticket with
  | Some t =>
      if negb (now <? t_expires t) then (m, None)
      else ({| byID := delete ticket (byID m); order := order m |}, Some (t_claims t))
  | None => (m, None)
  end.

(** ** The abstract store *)

Inductive ticket_op :=
| Put (now : Z) (ticket : gostring) (c : claims P) (ttl : Z)
| Take (now : Z) (ticket : gostring).

Definition op_time (o : ticket_op) : Z := match o with Put now _ _ _ => now | Take now _ => now end.

Fixpoint run_tickets (os : list ticket_op) (m : memTickets) : memTickets * list (option (claims P)) :=
  match os with
  | [] => (m, [])
  | Put now t c ttl :: os' => run_tickets os' (put now t c ttl m)
  | Take now t :: os' =>
      let '(m, r) := take now t m in
      let '(m, rs) := run_tickets os' m in (m, r :: rs)
  end.

(** A map from tickets to claims and expiry that only redeeming removes
    from. *)
Fixpoint run_spec (os : list ticket_op) (s : gmap gostring memTicket) : list (option (claims P)) :=
  match os with
  | [] => []
  | Put now t c ttl :: os' => run_spec os' (<[t := MemTicket c (now + ttl)]> s)
  | Take now t :: os' =>
      match s !! t with
      | Some tk => if now <? t_expires tk then Some (t_claims tk) :: run_spec os' (delete t s)
                   else None :: run_spec os' s
      | None => None :: run_spec os' s
      end
  end.

(** Time does not go back. *)
Fixpoint in_time (now : Z) (os : list ticket_op) : Prop :=
  match os with
  | [] => True
  | o :: os' => now <= op_time o /\ in_time (op_time o) os'
  end.

(** What the store keeps of the map from [now] on. *)
Definition same_from (now : Z) (b s : gmap gostring memTicket) : Prop :=
  forall t, (forall tk, b !! t = Some tk -> s !! t = Some tk)
            /\ (forall tk, s !! t = Some tk -> now < t_expires tk -> b !! t = Some tk).

Lemma same_from_mono now now' b s : now <= now' -> same_from now b s -> same_from now' b s.
Proof. intros Hn R t. destruct (R t) as [R1 R2]. split; [done|]. intros tk E L. apply R2; [done|lia]. Qed.

Lemma same_from_delete now b s t : same_from now b s ->
  (forall tk, b !! t = Some tk -> t_expires tk <= now) -> same_from now (delete t b) s.
Proof.
  intros R Ht u. destruct (R u) as [R1 R2]. destruct (decide (u = t)) as [->|].
  - rewrite lookup_delete_eq. split; [done|]. intros tk E L. specialize (R2 tk E L). apply Ht in R2. lia.
  - by rewrite lookup_delete_ne.
Qed.

Lemma expire_go_same now o b s : same_from now b s -> same_from now (expire_go now b o).1 s.
Proof.
  revert b. induction o as [|t o IH]; intros b R; cbn; [done|].
  destruct (b !! t) as [tk|] eqn:E; [destruct (Z.ltb_spec now (t_expires tk)); [done|]|];
    apply IH, same_from_delete; try done; intros tk' E'; simplify_eq; lia.
Qed.

Lemma expire_same now now' m s : now <= now' -> same_from now (byID m) s -> same_from now' (byID (expire now' m)) s.
Proof.
  intros Hn R. unfold expire. pose proof (expire_go_same now' (order m) _ _ (same_from_mono _ _ _ _ Hn R)) as X.
  by destruct (expire_go now' (byID m) (order m)).
Qed.

Lemma run_tickets_spec os now m s : in_time now os -> same_from now (byID m) s ->
  (run_tickets os m).2 = run_spec os s.
Proof.
  revert now m s. induction os as [|[t k c ttl|t k] os IH]; intros now m s Ht R; [done| |];
    destruct Ht as [Hn Ht]; cbn [op_time] in Hn, Ht; pose proof (expire_same _ _ _ _ Hn R) as R'.
  - cbn [run_tickets run_spec]. apply (IH t); [done|]. unfold put. cbn [byID].
    intros u. destruct (R' u) as [R1 R2]. destruct (decide (u = k)) as [->|].
    + by rewrite !lookup_insert_eq.
    + by rewrite !lookup_insert_ne.
  - cbn [run_tickets run_spec]. unfold take. destruct (R' k) as [R1 R2].
    destruct (byID (expire t m) !! k) as [tk|] eqn:E.
    + rewrite (R1 tk eq_refl). destruct (Z.ltb_spec t (t_expires tk)); cbn [negb].
      * pose proof (IH t {| byID := delete k (byID (expire t m)); order := order (expire t m) |} (delete k s) Ht) as X.
        destruct (run_tickets os _) as [m' rs]. cbn [snd byID] in *. rewrite X; [done|].
        intros u. destruct (R' u). destruct (decide (u = k)) as [->|].
        -- by rewrite !lookup_delete_eq.
        -- by rewrite !lookup_delete_ne.
      * pose proof (IH t (expire t m) s Ht R') as X.
        destruct (run_tickets os _) as [m' rs]. cbn [snd] in *. by rewrite X.
    + assert (Y : match s !! k with
        | Some tk => if t <? t_expires tk then Some (t_claims tk) :: run_spec os (delete k s) else None :: run_spec os s
        | None => None :: run_spec os s end = None :: run_spec os s).
      { destruct (s !! k) as [tk|] eqn:Es; [|done]. destruct (Z.ltb_spec t (t_expires tk)); [|done].
        specialize (R2 tk eq_refl ltac:(done)). done. }
      rewrite Y. pose proof (IH t (expire t m) s Ht R') as X.
      destruct (run_tickets os _) as [m' rs]. cbn [snd] in *. by rewrite X.
Qed.

(** *** Nothing expired is kept *)

Definition put_of (ttl : Z) (o : ticket_op) : list (gostring * Z) :=
  match o with Put now t _ _ => [(t, now + ttl)] | Take _ _ => [] end.

(** The puts of a history, with the expiries they give. *)
Definition puts (ttl : Z) (os : list ticket_op) : list (gostring * Z) := flat_map (put_of ttl) os.

Definition one_ttl (ttl : Z) (o : ticket_op) : Prop :=
  match o with Put _ _ _ ttl' => ttl' = ttl | Take _ _ => True end.

(** [g] is the order with the expiries the tickets were issued with: by
    expiry, and with every ticket held. *)
Record tracked (m : memTickets) (g : list (gostring * Z)) : Prop := {
  tr_order : map fst g = order m;
  tr_sorted : StronglySorted Z.le (map snd g);
  tr_held : forall t tk, byID m !! t = Some tk -> (t, t_expires tk) ∈ g;
  tr_unique : NoDup (map fst g);
}.

Lemma tracked_tail m t e g : tracked m ((t, e) :: g) ->
  tracked {| byID := delete t (byID m); order := map fst g |} g.
Proof.
  intros [O S B N]. apply StronglySorted_inv in S as [S _]. apply NoDup_cons in N as [_ N].
  split; cbn; try done. intros u tk E. apply lookup_delete_Some in E as [Hne E].
  apply B in E. apply elem_of_cons in E as [[= <- _]|E]; done.
Qed.

Lemma expire_tracked now m g : tracked m g ->
  exists g', tracked (expire now m) g' /\ (forall p, p ∈ g' -> p ∈ g /\ now < p.2).
Proof.
  revert m. induction g as [|[t e] g IH]; intros m T; pose proof T as [O S B N].
  - exists []. unfold expire. rewrite <- O. cbn. split; [|by intros p ?%not_elem_of_nil].
    split; cbn; try done.
  - assert (X : expire now m = expire now {| byID := delete t (byID m); order := map fst g |} ->
      exists g', tracked (expire now m) g' /\ (forall p, p ∈ g' -> p ∈ (t, e) :: g /\ now < p.2)).
    { intros ->. destruct (IH _ (tracked_tail _ _ _ _ T)) as (g' & T' & H). exists g'. split; [done|].
      intros p Hp. destruct (H p Hp). split; [by apply elem_of_cons; right|done]. }
    unfold expire at 1 3 in X. unfold expire at 1. rewrite <- O in *. cbn [map fst expire_go] in *.
    destruct (byID m !! t) as [tk|] eqn:E; [|by apply X].
    destruct (Z.ltb_spec now (t_expires tk)); [|by apply X].
    clear X. exists ((t, e) :: g). split; [split; cbn; done|]. intros [u x] Hp. split; [done|].
    assert (e = t_expires tk).
    { apply B in E. apply elem_of_cons in E as [[= ->]|E]; [done|]. exfalso. apply NoDup_cons in N as [Nt _].
      apply Nt. by apply (list_elem_of_fmap_2 fst _ _ E). }
    apply elem_of_cons in Hp as [[= _ ->]|Hp]; [by rewrite H0|].
    apply StronglySorted_inv in S as [_ F]. rewrite Forall_forall in F.
    pose proof (F x (list_elem_of_fmap_2 snd _ _ Hp)) as Hx. cbn [snd] in *. lia.
Qed.

Lemma StronglySorted_snoc l x : StronglySorted Z.le l -> Forall (fun y => y <= x) l -> StronglySorted Z.le (l ++ [x]).
Proof.
  induction 1 as [|y l S IH F]; intros B; [repeat constructor|].
  inversion B; subst. cbn. constructor; [by apply IH|]. apply Forall_app. split; [done|by constructor].
Qed.

Lemma run_tracked ttl os now m g : 0 < ttl -> in_time now os -> Forall (one_ttl ttl) os ->
  NoDup (map fst (g ++ puts ttl os)) -> tracked m g -> (forall p, p ∈ g -> p.2 <= now + ttl) ->
  os <> [] ->
  exists g', tracked (run_tickets os m).1 g'
    /\ forall p, p ∈ g' -> p ∈ g ++ puts ttl os /\ default now (last (map op_time os)) < p.2.
Proof.
  intros Hl. revert now m g. induction os as [|o os IH]; intros now m g Ht F N T Hb Hne; [done|].
  destruct Ht as [Hn Ht]. inversion F as [|? ? Fo F']; subst.
  assert (X : forall m1 g1, (run_tickets (o :: os) m).1 = (run_tickets os m1).1 ->
    tracked m1 g1 -> (forall p, p ∈ g1 -> p ∈ g ++ put_of ttl o /\ op_time o < p.2) ->
    (forall p, p ∈ g1 -> p.2 <= op_time o + ttl) -> NoDup (map fst (g1 ++ puts ttl os)) ->
    exists g', tracked (run_tickets (o :: os) m).1 g'
    /\ forall p, p ∈ g' -> p ∈ g ++ puts ttl (o :: os) /\ default now (last (map op_time (o :: os))) < p.2).
  { intros m1 g1 -> T1 H1 Hb1 N1. destruct os as [|o' os].
    - exists g1. cbn. rewrite app_nil_r. by split.
    - destruct (IH (op_time o) m1 g1 Ht F' N1 T1 Hb1 ltac:(done)) as (g' & T' & H'). exists g'. split; [done|].
      intros p Hp. destruct (H' p Hp) as [Hin Hlt]. split.
      + unfold puts. cbn [flat_map]. rewrite app_assoc. fold (puts ttl (o' :: os)).
        apply elem_of_app in Hin as [Hin|Hin]; apply elem_of_app; [left; by apply H1|by right].
      + cbn [map last] in *. destruct (last (op_time o' :: map op_time os)) eqn:L; [done|].
        destruct (map op_time os) eqn:M; cbn in L; [done|]. by apply last_None in L. }
  clear IH. destruct o as [t k c ttl'|t k]; cbn [op_time one_ttl] in *; subst.
  - destruct (expire_tracked t m g T) as (g1 & T1 & H1).
    unfold puts in N. cbn [flat_map put_of] in N. rewrite map_app in N. cbn [map app fst] in N.
    apply NoDup_app in N as (N1 & N2 & N3). apply NoDup_cons in N3 as [N3 N4].
    apply (X (put t k c ttl m) (g1 ++ [(k, t + ttl)])); [done|..].
    + destruct T1 as [O S B U]. unfold put. split; cbn [byID order].
      * by rewrite map_app, O.
      * rewrite map_app. apply StronglySorted_snoc; [done|]. apply Forall_forall.
        intros x (p & -> & Hp)%list_elem_of_fmap. destruct (H1 p Hp) as [Hp' _]. specialize (Hb p Hp'). cbn. lia.
      * intros u tk E. apply elem_of_app. destruct (decide (u = k)) as [->|].
        -- rewrite lookup_insert_eq in E. simplify_eq/=. right. by apply elem_of_cons; left.
        -- rewrite lookup_insert_ne in E by done. left. by apply B.
      * rewrite map_app. apply NoDup_app. split; [done|]. split; [|apply NoDup_singleton].
        intros x (p & -> & Hp)%list_elem_of_fmap Hk. cbn in Hk. apply list_elem_of_singleton in Hk.
        destruct (H1 p Hp) as [Hp' _].
        apply (N2 p.1); [by apply list_elem_of_fmap_2|]. rewrite Hk. by apply elem_of_cons; left.
    + intros p [Hp| ->%list_elem_of_singleton]%elem_of_app; cbn.
      * destruct (H1 p Hp). split; [by apply elem_of_app; left|done].
      * split; [apply elem_of_app; right; by apply elem_of_cons; left|lia].
    + intros p [Hp| ->%list_elem_of_singleton]%elem_of_app; cbn; [|lia].
      destruct (H1 p Hp) as [Hp' _]. specialize (Hb p Hp'). lia.
    + rewrite map_app. destruct T1 as [O S B U]. rewrite map_app. cbn [map fst].
      apply NoDup_app. split; [|split; [|done]].
      * apply NoDup_app. split; [done|]. split; [|apply NoDup_singleton].
        intros x (p & -> & Hp)%list_elem_of_fmap Hk. cbn in Hk. apply list_elem_of_singleton in Hk.
        destruct (H1 p Hp) as [Hp' _].
        apply (N2 p.1); [by apply list_elem_of_fmap_2|]. rewrite Hk. by apply elem_of_cons; left.
      * intros x [(p & -> & Hp)%list_elem_of_fmap|Hk]%elem_of_app Hx; [|by apply list_elem_of_singleton in Hk; subst].
        destruct (H1 p Hp) as [Hp' _]. apply (N2 p.1); [by apply list_elem_of_fmap_2|].
        apply elem_of_cons; by right.
  - destruct (expire_tracked t m g T) as (g1 & T1 & H1). cbn [puts flat_map put_of app] in N.
    assert (N1 : NoDup (map fst (g1 ++ puts ttl os))).
    { rewrite map_app in *. destruct T1 as [_ _ _ U]. apply NoDup_app in N as (_ & N2 & N3).
      apply NoDup_app. split; [done|]. split; [|done]. intros x (p & -> & Hp)%list_elem_of_fmap.
      apply N2. destruct (H1 p Hp) as [Hp' _]. by apply list_elem_of_fmap_2. }
    cbn [put_of] in X. rewrite app_nil_r in X. apply (X (take t k m).1 g1); [| |exact H1| |exact N1].
    + cbn [run_tickets]. destruct (take t k m) as [m1 r]. cbn [fst]. by destruct (run_tickets os m1).
    + unfold take. destruct (byID (expire t m) !! k) as [tk|] eqn:E; [|done].
      destruct (t <? t_expires tk); cbn [negb fst]; [|done].
      destruct T1 as [O S B U]. split; cbn; try done.
      intros u tku Eu. apply lookup_delete_Some in Eu as [_ Eu]. by apply B.
    + intros p Hp. destruct (H1 p Hp) as [Hp' _]. specialize (Hb p Hp'). lia.
Qed.
End tickets.

(** The in-process store redeems a ticket exactly once and in time:
    over any history, however tickets expire and are forgotten, every take
    answers what a store that forgets nothing would: the claims put last under
    the ticket, unless it has been redeemed since or its time has come. *)
Theorem tickets_refine {P : Type} (os : list (ticket_op (P:=P))) (now : Z) (H : in_time now os) :
  (run_tickets os newMemTickets).2 = run_spec os ∅.
Proof. by apply (run_tickets_spec os now). Qed.

Definition tickets_example : list (ticket_op (P:=unit)) :=
  [Put 0 (str "a") (Claims None) 60; Take 10 (str "a"); Take 20 (str "a"); Put 30 (str "b") (Claims None) 60; Take 90 (str "b")].

Lemma tickets_refine_witness :
  (run_tickets tickets_example newMemTickets).2 = [Some (Claims None); None; None].
Proof. rewrite (tickets_refine tickets_example 0); [vm_compute; reflexivity|cbn; lia]. Defined.

(** The store does not grow with its past: when every ticket is new and
    lives the same TTL, what it holds after an operation, redeemed tickets
    still in its order included, was issued within one TTL before it. *)
Theorem tickets_forget {P : Type} (os : list (ticket_op (P:=P))) (now ttl : Z) (Httl : 0 < ttl)
  (H : in_time now os) (F : Forall (one_ttl ttl) os) (N : NoDup (map fst (puts ttl os))) (Hne : os <> []) :
  let m := (run_tickets os newMemTickets).1 in
  (forall t, is_Some (byID m !! t) -> t ∈ order m)
  /\ forall t, t ∈ order m ->
      exists e, (t, e) ∈ puts ttl os /\ default now (last (map op_time os)) < e.
Proof.
  destruct (run_tracked ttl os now newMemTickets [] Httl H F N) as (g & T & Hg); try done.
  - split; cbn; try constructor. intros t tk E. by rewrite lookup_empty in E.
  - by intros p ?%not_elem_of_nil.
  - destruct T as [O S B U]. cbn zeta. rewrite <- O. split.
    + intros t [tk E]. by apply B, (list_elem_of_fmap_2 fst) in E.
    + intros t ((u, e) & -> & Hp)%list_elem_of_fmap. exists e. by apply Hg in Hp.
Qed.

Lemma tickets_forget_witness :
  let m := (run_tickets tickets_example newMemTickets).1 in
  (forall t, is_Some (byID m !! t) -> t ∈ order m)
  /\ forall t, t ∈ order m -> exists e, (t, e) ∈ puts 60 tickets_example /\ 90 < e.
Proof.
  apply (tickets_forget tickets_example 0 60); [lia|cbn; lia|by repeat constructor| |done].
  apply (bool_decide_unpack _). vm_compute. exact I.
Defined.
