(* ===== verification/Hub.v ===== *)
(** realtime/conn.go and the state of realtime/hub.go: connections, their
    send queues, subscriptions, delivery and the operations that end
    connections.  An operation is one stretch under the hub's lock. *)

From Stdlib Require Import ZArith Lia List Ascii.
From stdpp Require Import base decidable list gmap strings.
From S2P Require Import Prelude GoStrings Replay.

(** ** Data *)

Record Event := MkEvent { ev_ID : gostring; ev_Topic : gostring; ev_Type : gostring; ev_Data : gostring; ev_At : Z }.

(** The fields of Config the hub reads. *)
Record hub_config := { SendBuffer : Z; ReplaySize : Z; MaxSubscriptions : Z }.

Definition closeNormal : Z := 1000.
Definition closeGoingAway : Z := 1001.
Definition closePolicy : Z := 1008.
Definition closeSlow : Z := 4408.
Definition closeDead : Z := -1.

Inductive conn_kind := kindWS | kindSSE.

#[global] Instance conn_kind_eq_dec : EqDecision conn_kind.
Proof. solve_decision. Defined.

Record queued := Queued { q_f : frame; q_live : bool }.

(** [conn].  [wake] is the token of its one-slot channel; the channel done is
    closed exactly when [ended] is set; the timer, the logger and the abort
    function are the transport's. *)
Record conn := Conn {
  kind : conn_kind;
  userID : gostring;
  srv : option nat;
  limit : Z;
  cap : Z;
  c_topics : gset gostring;
  queue : list queued;
  live : Z;
  wake : bool;
  ended : bool;
  code : Z;
  reason : gostring;
}.

(** [chok.Error], as far as a refused event carries it. *)
Record api_error := ApiError { Reason : gostring; Message : gostring }.

(** [refusal]. *)
Record refusal := Refusal { r_topic : gostring; r_err : api_error }.

(** Connections are pointers: [store] maps them to their state, [conns] holds
    the registered ones. *)
Record hub := Hub {
  cfg : hub_config;
  origin : gostring;
  seq : Z;
  conns : gset nat;
  store : gmap nat conn;
  topics : gmap gostring (gset nat);
  users : gmap gostring Z;
  h_replay : replay;
  closed : bool;
  published : Z;
  delivered : Z;
  dropped : Z;
}.

(** ** A connection's queue *)

(** [newConn]. *)
Definition newConn (g : hub_config) (k : conn_kind) (user : gostring) (s : option nat) : conn :=
  {| kind := k; userID := user; srv := s; limit := SendBuffer g;
     cap := SendBuffer g + ReplaySize g + 2 * MaxSubscriptions g;
     c_topics := ∅; queue := []; live := 0; wake := false; ended := false; code := 0; reason := [] |}.

Inductive push_result := queuedOK | full | gone.

(** [push]. *)
Definition push (f : frame) (lv : bool) (c : conn) : conn * push_result :=
  if ended c then (c, gone)
  else if (lv && (live c >=? limit c)) || (Z.of_nat (length (queue c)) >=? cap c) then (c, full)
  else
    ({| kind := kind c; userID := userID c; srv := srv c; limit := limit c; cap := cap c;
        c_topics := c_topics c; queue := queue c ++ [Queued f lv];
        live := if lv then live c + 1 else live c; wake := true;
        ended := ended c; code := code c; reason := reason c |}, queuedOK).

(** [pop]. *)
Definition pop (c : conn) : conn * option frame :=
  match queue c with
  | q :: rest =>
      if ended c then (c, None)
      else
        ({| kind := kind c; userID := userID c; srv := srv c; limit := limit c; cap := cap c;
            c_topics := c_topics c; queue := rest;
            live := if q_live q then live c - 1 else live c; wake := wake c;
            ended := ended c; code := code c; reason := reason c |}, Some (q_f q))
  | [] => (c, None)
  end.

(** [end]: the first call wins. *)
Definition end_ (cd : Z) (why : gostring) (c : conn) : conn * bool :=
  if ended c then (c, false)
  else
    ({| kind := kind c; userID := userID c; srv := srv c; limit := limit c; cap := cap c;
        c_topics := c_topics c; queue := []; live := live c; wake := wake c;
        ended := true; code := cd; reason := why |}, true).

Definition with_topics (ts : gset gostring) (c : conn) : conn :=
  {| kind := kind c; userID := userID c; srv := srv c; limit := limit c; cap := cap c;
     c_topics := ts; queue := queue c; live := live c; wake := wake c;
     ended := ended c; code := code c; reason := reason c |}.

(** ** The hub's tables *)

Definition set_store (h : hub) (s : gmap nat conn) : hub :=
  {| cfg := cfg h; origin := origin h; seq := seq h; conns := conns h; store := s; topics := topics h;
     users := users h; h_replay := h_replay h; closed := closed h; published := published h;
     delivered := delivered h; dropped := dropped h |}.

Definition set_topics (h : hub) (t : gmap gostring (gset nat)) : hub :=
  {| cfg := cfg h; origin := origin h; seq := seq h; conns := conns h; store := store h; topics := t;
     users := users h; h_replay := h_replay h; closed := closed h; published := published h;
     delivered := delivered h; dropped := dropped h |}.

Definition set_conns (h : hub) (cs : gset nat) (us : gmap gostring Z) : hub :=
  {| cfg := cfg h; origin := origin h; seq := seq h; conns := cs; store := store h; topics := topics h;
     users := us; h_replay := h_replay h; closed := closed h; published := published h;
     delivered := delivered h; dropped := dropped h |}.

Definition set_replay (h : hub) (r : replay) : hub :=
  {| cfg := cfg h; origin := origin h; seq := seq h; conns := conns h; store := store h; topics := topics h;
     users := users h; h_replay := r; closed := closed h; published := published h;
     delivered := delivered h; dropped := dropped h |}.

Definition set_seq (h : hub) (s : Z) : hub :=
  {| cfg := cfg h; origin := origin h; seq := s; conns := conns h; store := store h; topics := topics h;
     users := users h; h_replay := h_replay h; closed := closed h; published := published h;
     delivered := delivered h; dropped := dropped h |}.

Definition set_closed (h : hub) : hub :=
  {| cfg := cfg h; origin := origin h; seq := seq h; conns := conns h; store := store h; topics := topics h;
     users := users h; h_replay := h_replay h; closed := true; published := published h;
     delivered := delivered h; dropped := dropped h |}.

(** The atomic counters. *)
Definition count (h : hub) (p dl dr : Z) : hub :=
  {| cfg := cfg h; origin := origin h; seq := seq h; conns := conns h; store := store h; topics := topics h;
     users := users h; h_replay := h_replay h; closed := closed h;
     published := uint64 (published h + p); delivered := uint64 (delivered h + dl);
     dropped := uint64 (dropped h + dr) |}.

(** A change of the connection [c] points to. *)
Definition on_conn (h : hub) (c : nat) (f : conn -> conn) : hub := set_store h (alter f c (store h)).

(** [New], the state of it. *)
Definition newHub (g : hub_config) (org : gostring) : hub :=
  {| cfg := g; origin := org; seq := 0; conns := ∅; store := ∅; topics := ∅; users := ∅;
     h_replay := newReplay (Z.to_nat (ReplaySize g)); closed := false;
     published := 0; delivered := 0; dropped := 0 |}.

(** ** Registration *)

(** [register] of a new connection, which has the pointer [c]. *)
Definition register (c : nat) (x : conn) (h : hub) : hub * bool :=
  if closed h then (h, false)
  else
    let us := if seq_eqb (userID x) [] then users h
              else <[userID x := default 0 (users h !! userID x) + 1]> (users h) in
    (set_conns (set_store h (<[c := x]> (store h))) ({[c]} ∪ conns h) us, true).

(** [detachLocked] for one topic. *)
Definition detach_one (c : nat) (h : hub) (t : gostring) : hub :=
  match store h !! c with
  | None => h
  | Some x =>
      if bool_decide (t ∉ c_topics x) then h
      else
        let h := on_conn h c (with_topics (c_topics x ∖ {[t]})) in
        match topics h !! t with
        | None => h
        | Some subs =>
            let subs := subs ∖ {[c]} in
            set_topics h (if bool_decide (subs = ∅) then delete t (topics h) else <[t := subs]> (topics h))
        end
  end.

Definition detachTopics (c : nat) (ts : list gostring) (h : hub) : hub := fold_left (detach_one c) ts h.

(** [detachLocked]: from [ts], or from every topic. *)
Definition detachLocked (c : nat) (ts : option (list gostring)) (h : hub) : hub :=
  match ts with
  | Some ts => detachTopics c ts h
  | None => match store h !! c with
            | Some x => detachTopics c (elements (c_topics x)) h
            | None => h
            end
  end.

Definition detach (c : nat) (ts : list gostring) (h : hub) : hub := detachLocked c (Some ts) h.

(** [unregister]. *)
Definition unregister (c : nat) (h : hub) : hub :=
  let h := detachLocked c None h in
  match store h !! c with
  | None => h
  | Some x =>
      let n := default 0 (users h !! userID x) - 1 in
      let us := if seq_eqb (userID x) [] then users h
                else if n <=? 0 then delete (userID x) (users h) else <[userID x := n]> (users h) in
      set_conns h (conns h ∖ {[c]}) us
  end.

(** ** Subscribing *)

(** [fresh]. *)
Fixpoint fresh_go (have : gset gostring) (out : list gostring) (ts : list gostring) : list gostring :=
  match ts with
  | [] => out
  | t :: ts' =>
      if bool_decide (t ∉ have) && bool_decide (t ∉ out) then fresh_go have (out ++ [t]) ts'
      else fresh_go have out ts'
  end.

Definition fresh (c : nat) (ts : list gostring) (h : hub) : list gostring * Z :=
  match store h !! c with
  | None => ([], MaxSubscriptions (cfg h))
  | Some x => (fresh_go (c_topics x) [] ts, MaxSubscriptions (cfg h) - Z.of_nat (size (c_topics x)))
  end.

(** What the application's Authorize answers: nil, a [*chok.Error], a
    [chok.Coder] with the error it names, or another error. *)
Inductive auth_answer := Allowed | Refused (e : api_error) | RefusedCoder (e : option api_error) | RefusedOther.

Definition forbidden (msg : gostring) : api_error := ApiError (str "Forbidden") msg.
Definition own_topic_prefix : gostring := str "user:".

(** [allowed] for a connection of [user]; [authorize] is the hub's function
    applied to the connection's context. *)
Definition allowed (authorize : option (gostring -> auth_answer)) (user topic : gostring) : option api_error :=
  match cut_prefix own_topic_prefix topic with
  | Some id =>
      if negb (seq_eqb user []) && seq_eqb id user then None
      else Some (forbidden (topic ++ str " is another user's topic"))
  | None =>
      match authorize with
      | None => Some (forbidden (str "subscribing to " ++ topic ++ str " is not allowed"))
      | Some auth =>
          match auth topic with
          | Allowed => None
          | Refused e => Some e
          | RefusedCoder (Some e) => Some e
          | RefusedCoder None | RefusedOther =>
              Some (forbidden (str "subscribing to " ++ topic ++ str " is not allowed"))
          end
      end
  end.

(** [check]. *)
Fixpoint check (authorize : option (gostring -> auth_answer)) (user : gostring) (ts : list gostring)
  : list gostring * list refusal :=
  match ts with
  | [] => ([], [])
  | t :: ts' =>
      let '(ok, refused) := check authorize user ts' in
      match allowed authorize user t with
      | Some e => (ok, Refusal t e :: refused)
      | None => (t :: ok, refused)
      end
  end.

Section encode.
(** encoding/json on an Event and on a refusal's data. *)
Context (marshal : Event -> gostring) (marshal_refusal : api_error -> gostring).

(** [newFrame]. *)
Definition newFrame (ev : Event) : frame := Frame (ev_ID ev) (ev_Topic ev) (ev_Type ev) (marshal ev).

(** [ownEvent], without an ID. *)
Definition ownEvent (at_ : Z) (topic typ data : gostring) : frame :=
  newFrame (MkEvent [] topic typ data at_).

(** The closure [queue] of attachLocked: the hub, whether the queue has
    overflowed, and whether the event was queued. *)
Definition queue_on (c : nat) (f : frame) (s : hub * bool) : hub * bool * bool :=
  let '(h, overflow) := s in
  match store h !! c with
  | None => (h, overflow, false)
  | Some x =>
      let '(x', r) := push f false x in
      match r with
      | full => (h, true, false)
      | queuedOK => (on_conn h c (fun _ => x'), overflow, true)
      | gone => (h, overflow, false)
      end
  end.

Definition queue_all (c : nat) (fs : list frame) (s : hub * bool) : hub * bool :=
  fold_left (fun s f => (queue_on c f s).1) fs s.

(** The same, counting what is delivered. *)
Definition replay_all (c : nat) (fs : list frame) (s : hub * bool) : hub * bool :=
  fold_left (fun s f => let '(h, o, q) := queue_on c f s in (if q : bool then count h 0 1 0 else h, o)) fs s.

(** Subscribing [c] to one topic, in attachLocked. *)
Definition attach_one (c : nat) (h : hub) (t : gostring) : hub :=
  let h := on_conn h c (fun x => with_topics ({[t]} ∪ c_topics x) x) in
  set_topics h (<[t := {[c]} ∪ default ∅ (topics h !! t)]> (topics h)).

(** [attachLocked]. *)
Definition attachLocked (at_ : Z) (c : nat) (ts : list gostring) (refused : list refusal) (after : gostring) (h : hub)
  : hub * bool :=
  let s := queue_all c (map (fun r => ownEvent at_ (r_topic r) typeRefused (marshal_refusal (r_err r))) refused)
             (h, false) in
  if (length ts =? 0)%nat then s
  else
    let s := (fold_left (attach_one c) ts s.1, s.2) in
    if seq_eqb after [] then s
    else match since after ts (h_replay s.1) with
         | None => queue_all c (map (fun t => ownEvent at_ t typeReset []) ts) s
         | Some frames => replay_all c frames s
         end.

(** [dropLocked]. *)
Definition dropLocked (c : nat) (h : hub) : hub :=
  let h := count (detachLocked c None h) 0 0 1 in
  on_conn h c (fun x => (end_ closeSlow (str "slow consumer") x).1).

(** [attach]. *)
Definition attach (at_ : Z) (c : nat) (ts : list gostring) (refused : list refusal) (after : gostring) (h : hub) : hub :=
  let '(h, overflow) := attachLocked at_ c ts refused after h in
  if overflow then dropLocked c h else h.

(** ** Publishing *)

(** The body of deliverLocked's loop. *)
Definition deliver_one (f : frame) (s : hub * list nat) (c : nat) : hub * list nat :=
  let '(h, slow) := s in
  match store h !! c with
  | None => s
  | Some x =>
      let '(x', r) := push f true x in
      match r with
      | queuedOK => (count (on_conn h c (fun _ => x')) 0 1 0, slow)
      | full => (dropLocked c h, slow ++ [c])
      | gone => s
      end
  end.

(** [deliverLocked]: the subscribers in the order of the range over the map,
    which Go leaves open; dropping one removes only itself from the map. *)
Definition deliverLocked (f : frame) (h : hub) : hub * list nat :=
  fold_left (deliver_one f) (elements (default ∅ (topics h !! f_topic f))) (h, []).

Inductive publish_error := BadTopic | BadType | BadData.

(** The part of Publish under the lock, for a frame: keep it for resuming and
    deliver it. *)
Definition emit (f : frame) (h : hub) : hub * list nat :=
  deliverLocked f (set_replay h (add f (h_replay h))).

(** [Publish] up to the backplane; [data] is the encoded value, [None] when
    it does not encode. *)
Definition Publish (now : Z) (topic typ : gostring) (data : option gostring) (h : hub)
  : hub * result publish_error (frame * list nat) :=
  if negb (validName topic) then (h, Err BadTopic)
  else if negb (validName typ) || reserved typ then (h, Err BadType)
  else
    match data with
    | None => (h, Err BadData)
    | Some raw =>
        let h := set_seq h (uint64 (seq h + 1)) in
        let f := newFrame (MkEvent (origin h ++ str "-" ++ format_uint (seq h)) topic typ raw now) in
        let '(h, slow) := emit f h in
        (count h 1 0 0, Ok (f, slow))
    end.

(** [Send]. *)
Definition Send (now : Z) (user typ : gostring) (data : option gostring) (h : hub) :=
  Publish now (own_topic_prefix ++ user) typ data h.

(** strings.Cut(s, "-"). *)
Fixpoint cut_dash (s : gostring) : option (gostring * gostring) :=
  match s with
  | [] => None
  | c :: s' => if beq c "-" then Some ([], s')
               else match cut_dash s' with Some (a, b) => Some (c :: a, b) | None => None end
  end.

(** [receive] of an event from the backplane; [None] did not decode. *)
Definition receive (ev : option Event) (h : hub) : hub :=
  match ev with
  | None => h
  | Some ev =>
      match cut_dash (ev_ID ev) with
      | None => h
      | Some (org, sq) =>
          if seq_eqb org [] || seq_eqb sq [] || negb (validName (ev_ID ev)) || negb (validName (ev_Topic ev))
             || negb (validName (ev_Type ev)) || reserved (ev_Type ev) then h
          else if seq_eqb org (origin h) then h
          else (emit (newFrame ev) h).1
      end
  end.

(** ** Ending connections *)

(** [Disconnect]. *)
Definition disconnect_one (user : gostring) (h : hub) (c : nat) : hub :=
  match store h !! c with
  | Some x => if seq_eqb (userID x) user
              then on_conn (detachLocked c None h) c (fun x => (end_ closePolicy (str "session revoked") x).1)
              else h
  | None => h
  end.

Definition Disconnect (user : gostring) (h : hub) : hub :=
  if seq_eqb user [] then h else fold_left (disconnect_one user) (elements (conns h)) h.

(** The part of [Close] under the lock. *)
Definition end_going_away (h : hub) (c : nat) : hub :=
  on_conn h c (fun x => (end_ closeGoingAway (str "the server is shutting down") x).1).

Definition Close (h : hub) : hub :=
  if closed h then h
  else let h := set_closed h in fold_left end_going_away (elements (conns h)) h.

(** [endStreams] (sse.go), the shutdown hook of the server [s]. *)
Definition endStreams (s : nat) (h : hub) : hub :=
  fold_left (fun h c =>
    match store h !! c with
    | Some x => if bool_decide (kind x = kindSSE) && bool_decide (srv x = Some s) then end_going_away h c else h
    | None => h
    end) (elements (conns h)) h.

(** ** A client's frame (ws.go) *)

Definition reasonTopic : gostring := str "a topic is 1 to 128 of A-Z a-z 0-9 _ . : -".
Definition reasonTooMany : gostring := str "too many subscriptions".

Definition allValid (ts : list gostring) : bool := forallb validName ts.

(** [wsSubscribe], with nothing between its locked parts: the reason to close
    with, empty for none. *)
Definition wsSubscribe (authorize : option (gostring -> auth_answer)) (at_ : Z) (c : nat) (ts : list gostring)
  (after : gostring) (h : hub) : hub * gostring :=
  if negb (allValid ts) then (h, reasonTopic)
  else
    let '(fr, room) := fresh c ts h in
    if Z.of_nat (length fr) >? room then (h, reasonTooMany)
    else
      let user := match store h !! c with Some x => userID x | None => [] end in
      let '(ok, refused) := check authorize user fr in
      (attach at_ c ok refused after h, []).
End encode.
