(* ===== verification/HubSpec.v ===== *)
(** The hub's invariants, who receives what, and resuming. *)

From Stdlib Require Import ZArith Lia List Ascii.
From stdpp Require Import base decidable list gmap sets strings relations.
From S2P Require Import Prelude GoStrings Replay Hub.

(** ** How the operations change the tables *)

Lemma on_conn_store h c f : store (on_conn h c f) = alter f c (store h).
Proof. reflexivity. Qed.

Lemma with_topics_id x : with_topics (c_topics x) x = x.
Proof. by destruct x. Qed.

Lemma with_topics_twice a b x : with_topics a (with_topics b x) = with_topics a x.
Proof. reflexivity. Qed.

Lemma detach_one_store c h t :
  store (detach_one c h t) = alter (fun x => with_topics (c_topics x ∖ {[t]}) x) c (store h).
Proof.
  unfold detach_one. destruct (store h !! c) as [x|] eqn:E.
  - case_bool_decide as Ht.
    + apply map_eq. intros c'. destruct (decide (c' = c)) as [->|];
        [|by rewrite lookup_alter_ne]. rewrite lookup_alter_eq, E. cbn. f_equal.
      rewrite difference_disjoint_L by set_solver. by rewrite with_topics_id.
    + assert (X : alter (with_topics (c_topics x ∖ {[t]})) c (store h)
                  = alter (fun x => with_topics (c_topics x ∖ {[t]}) x) c (store h)).
      { apply map_eq. intros c'. destruct (decide (c' = c)) as [->|];
          [by rewrite !lookup_alter_eq, E|by rewrite !lookup_alter_ne]. }
      rewrite <- X. cbn. by destruct (topics h !! t).
  - apply map_eq. intros c'. destruct (decide (c' = c)) as [->|];
      [by rewrite lookup_alter_eq, E|by rewrite lookup_alter_ne].
Qed.

Lemma detachTopics_store c ts h :
  store (detachTopics c ts h) = alter (fun x => with_topics (c_topics x ∖ list_to_set ts) x) c (store h).
Proof.
  unfold detachTopics. revert h. induction ts as [|t ts IH]; intros h; cbn [fold_left].
  - apply map_eq. intros c'. destruct (decide (c' = c)) as [->|]; [|by rewrite lookup_alter_ne].
    rewrite lookup_alter_eq. destruct (store h !! c) as [x|]; [|done]. cbn. f_equal.
    rewrite difference_empty_L. by rewrite with_topics_id.
  - rewrite IH, detach_one_store. apply map_eq. intros c'.
    destruct (decide (c' = c)) as [->|]; [|by rewrite !lookup_alter_ne].
    rewrite !lookup_alter_eq. destruct (store h !! c) as [x|]; [|done]. cbn. f_equal.
    rewrite with_topics_twice. f_equal. cbn [c_topics with_topics]. set_solver.
Qed.

Lemma detachLocked_store c h :
  store (detachLocked c None h) = alter (with_topics ∅) c (store h).
Proof.
  unfold detachLocked. destruct (store h !! c) as [x|] eqn:E.
  - rewrite detachTopics_store. apply map_eq. intros c'.
    destruct (decide (c' = c)) as [->|]; [|by rewrite !lookup_alter_ne].
    rewrite !lookup_alter_eq, E. cbn. do 2 f_equal. rewrite list_to_set_elements_L. set_solver.
  - apply map_eq. intros c'. destruct (decide (c' = c)) as [->|]; [by rewrite lookup_alter_eq, E|by rewrite lookup_alter_ne].
Qed.

(** What dropLocked does to its connection. *)
Definition drop_conn (x : conn) : conn := (end_ closeSlow (str "slow consumer") (with_topics ∅ x)).1.

Lemma dropLocked_store c h : store (dropLocked c h) = alter drop_conn c (store h).
Proof.
  unfold dropLocked. rewrite on_conn_store. cbn [store count]. rewrite detachLocked_store.
  apply map_eq. intros c'. destruct (decide (c' = c)) as [->|]; [|by rewrite !lookup_alter_ne].
  rewrite !lookup_alter_eq. by destruct (store h !! c).
Qed.

(** What delivering [f] does to a subscriber. *)
Definition received (f : frame) (x : conn) : conn :=
  let '(x', r) := push f true x in
  match r with queuedOK => x' | full => drop_conn x | gone => x end.

Lemma deliver_one_store f h slow c :
  store (deliver_one f (h, slow) c).1 = alter (received f) c (store h).
Proof.
  unfold deliver_one. destruct (store h !! c) as [x|] eqn:E.
  - unfold received. destruct (push f true x) as [x' r] eqn:P. destruct r; cbn [fst].
    + cbn. apply map_eq. intros c'. destruct (decide (c' = c)) as [->|]; [|by rewrite !lookup_alter_ne].
      rewrite !lookup_alter_eq, E. cbn. by rewrite P.
    + rewrite dropLocked_store. apply map_eq. intros c'. destruct (decide (c' = c)) as [->|]; [|by rewrite !lookup_alter_ne].
      rewrite !lookup_alter_eq, E. cbn. by rewrite P.
    + apply map_eq. intros c'. destruct (decide (c' = c)) as [->|]; [|by rewrite !lookup_alter_ne].
      rewrite !lookup_alter_eq, E. cbn. by rewrite P.
  - apply map_eq. intros c'. destruct (decide (c' = c)) as [->|]; [by rewrite lookup_alter_eq, E|by rewrite lookup_alter_ne].
Qed.

Lemma deliver_all_store f cs h slow c : NoDup cs ->
  store (fold_left (deliver_one f) cs (h, slow)).1 !! c
  = if decide (c ∈ cs) then received f <$> store h !! c else store h !! c.
Proof.
  revert h slow. induction cs as [|d cs IH]; intros h slow N; cbn [fold_left].
  - by rewrite decide_False by apply not_elem_of_nil.
  - apply NoDup_cons in N as [Nd N]. pose proof (deliver_one_store f h slow d) as S.
    destruct (deliver_one f (h, slow) d) as [h' slow']. cbn [fst] in S. rewrite (IH h' slow' N), S.
    destruct (decide (c = d)) as [->|].
    + rewrite (decide_False (P := d ∈ cs)) by done. rewrite decide_True by (by apply elem_of_cons; left).
      by rewrite lookup_alter_eq.
    + rewrite lookup_alter_ne by done. destruct (decide (c ∈ cs)).
      * by rewrite decide_True by (by apply elem_of_cons; right).
      * by rewrite decide_False by (rewrite elem_of_cons; tauto).
Qed.

Lemma deliverLocked_store f h c :
  store (deliverLocked f h).1 !! c
  = if decide (c ∈ default ∅ (topics h !! f_topic f)) then received f <$> store h !! c else store h !! c.
Proof.
  unfold deliverLocked. rewrite deliver_all_store by apply NoDup_elements.
  destruct (decide (c ∈ default ∅ (topics h !! f_topic f))) as [H|H].
  - by rewrite decide_True by (by apply elem_of_elements).
  - by rewrite decide_False by (by rewrite elem_of_elements).
Qed.

(** ** Subscriptions from both sides *)

Definition subscribed (h : hub) (c : nat) (t : gostring) : Prop :=
  exists x, store h !! c = Some x /\ t ∈ c_topics x.

(** The topics table is the connections' topics, without empty entries. *)
Record linked (h : hub) : Prop := {
  link_iff : forall c t, subscribed h c t <-> c ∈ default ∅ (topics h !! t);
  link_nonempty : forall t subs, topics h !! t = Some subs -> subs <> ∅;
}.

(** An operation that keeps every connection's topics keeps the link. *)
Lemma linked_same h h' : topics h' = topics h ->
  (forall c, c_topics <$> store h' !! c = c_topics <$> store h !! c) -> linked h -> linked h'.
Proof.
  intros Ht Hs [L N]. split.
  - intros c t. rewrite Ht, <- L. unfold subscribed. specialize (Hs c).
    destruct (store h !! c), (store h' !! c); cbn in Hs; simplify_eq; [|naive_solver].
    split; intros (? & [= <-] & ?); eexists; (split; [done|congruence]).
  - intros t subs. rewrite Ht. apply N.
Qed.

Lemma linked_on_conn h c f : (forall x, c_topics (f x) = c_topics x) -> linked h -> linked (on_conn h c f).
Proof.
  intros Hf. apply linked_same; [done|]. intros c'. cbn. destruct (decide (c' = c)) as [->|].
  - rewrite lookup_alter_eq. destruct (store h !! c); cbn; [by rewrite Hf|done].
  - by rewrite lookup_alter_ne.
Qed.

Lemma detach_one_linked c t h : linked h -> linked (detach_one c h t).
Proof.
  intros [L N]. assert (S : forall c' t', subscribed (detach_one c h t) c' t' <-> subscribed h c' t' /\ ~ (c' = c /\ t' = t)).
  { intros c' t'. unfold subscribed. rewrite detach_one_store. destruct (decide (c' = c)) as [->|].
    - rewrite lookup_alter_eq. destruct (store h !! c) as [x|]; cbn; [|naive_solver].
      split; [intros (? & [= <-] & H); cbn in H; set_solver|].
      intros [(? & [= <-] & H) Hn]. eexists. split; [done|]. cbn. set_solver.
    - rewrite lookup_alter_ne by done. naive_solver. }
  assert (T : topics (detach_one c h t) = topics h
    \/ topics (detach_one c h t) = (let subs := default ∅ (topics h !! t) ∖ {[c]} in
         if bool_decide (subs = ∅) then delete t (topics h) else <[t := subs]> (topics h))).
  { unfold detach_one. destruct (store h !! c) as [x|]; [|by left]. case_bool_decide; [by left|].
    cbn. destruct (topics h !! t) as [subs|] eqn:E; cbn; [by right|by left]. }
  assert (Hc : c ∈ default ∅ (topics h !! t) -> topics (detach_one c h t)
     = (let subs := default ∅ (topics h !! t) ∖ {[c]} in
         if bool_decide (subs = ∅) then delete t (topics h) else <[t := subs]> (topics h))).
  { intros Hc. apply L in Hc as (x & Ex & Hx). unfold detach_one. rewrite Ex.
    rewrite bool_decide_false by tauto. cbn. destruct (topics h !! t) as [subs|] eqn:E; [done|].
    cbn. exfalso. assert (c ∈ default ∅ (topics h !! t)) as X by (apply L; by exists x). rewrite E in X. set_solver. }
  assert (Q : forall t' c', c' ∈ default ∅ (topics (detach_one c h t) !! t')
              <-> c' ∈ default ∅ (topics h !! t') /\ ~ (c' = c /\ t' = t)).
  { intros t' c'. destruct (decide (c ∈ default ∅ (topics h !! t))) as [Hin|Hnin].
    - rewrite (Hc Hin). cbn zeta. destruct (decide (t' = t)) as [->|].
      + case_bool_decide as Em.
        * rewrite lookup_delete_eq. cbn. split; [set_solver|]. intros [? ?].
          assert (c' ∈ default ∅ (topics h !! t) ∖ {[c]}) as X by set_solver. rewrite Em in X. set_solver.
        * rewrite lookup_insert_eq. cbn. set_solver.
      + case_bool_decide; [rewrite lookup_delete_ne by done|rewrite lookup_insert_ne by done]; naive_solver.
    - assert (topics (detach_one c h t) = topics h) as ->.
      { unfold detach_one. destruct (store h !! c) as [x|] eqn:Ex; [|done]. case_bool_decide as Hx; [done|].
        exfalso. apply Hnin, L. exists x. split; [done|]. set_solver. }
      split; [|naive_solver]. intros H. split; [done|]. intros [-> ->]. done. }
  split.
  - intros c' t'. rewrite S, Q, L. done.
  - intros t' subs. destruct T as [-> | ->]; [apply N|]. cbn zeta. destruct (decide (t' = t)) as [->|].
    + case_bool_decide; [by rewrite lookup_delete_eq|]. rewrite lookup_insert_eq. by intros [= <-].
    + case_bool_decide; [rewrite lookup_delete_ne by done|rewrite lookup_insert_ne by done]; apply N.
Qed.

Lemma detachTopics_linked c ts h : linked h -> linked (detachTopics c ts h).
Proof.
  unfold detachTopics. revert h. induction ts as [|t ts IH]; intros h H; [done|]. cbn. by apply IH, detach_one_linked.
Qed.

Lemma detachLocked_linked c ts h : linked h -> linked (detachLocked c ts h).
Proof.
  intros H. destruct ts as [ts|]; cbn; [by apply detachTopics_linked|].
  destruct (store h !! c); [by apply detachTopics_linked|done].
Qed.

Lemma attach_one_linked c t h : is_Some (store h !! c) -> linked h -> linked (attach_one c h t).
Proof.
  intros [x Ex] [L N]. split.
  - intros c' t'. unfold subscribed, attach_one. cbn. destruct (decide (t' = t)) as [->|].
    + rewrite lookup_insert_eq. cbn. rewrite elem_of_union, elem_of_singleton, <- L. unfold subscribed.
      destruct (decide (c' = c)) as [->|].
      * rewrite lookup_alter_eq, Ex. cbn. split; [auto|]. intros _. eexists. split; [done|]. cbn. set_solver.
      * rewrite lookup_alter_ne by done. naive_solver.
    + rewrite lookup_insert_ne by done. rewrite <- L. unfold subscribed. destruct (decide (c' = c)) as [->|].
      * rewrite lookup_alter_eq, Ex. cbn. split; intros (? & [= <-] & H); eexists; (split; [done|]); cbn in *; set_solver.
      * by rewrite lookup_alter_ne.
  - intros t' subs. unfold attach_one. cbn. destruct (decide (t' = t)) as [->|].
    + rewrite lookup_insert_eq. intros [= <-]. set_solver.
    + rewrite lookup_insert_ne by done. apply N.
Qed.

(** ** What holds of a connection *)

(** The user: rule: such a topic is its user's alone. *)
Definition user_rule (user topic : gostring) : Prop :=
  forall id, cut_prefix own_topic_prefix topic = Some id -> user <> [] /\ id = user.

Definition live_in (q : list queued) : list queued := List.filter q_live q.

Record conn_ok (g : hub_config) (x : conn) : Prop := {
  ok_limit : limit x = SendBuffer g;
  ok_cap : cap x = SendBuffer g + ReplaySize g + 2 * MaxSubscriptions g;
  ok_live : ended x = false -> live x = Z.of_nat (length (live_in (queue x)));
  ok_live_le : Z.of_nat (length (live_in (queue x))) <= Z.max 0 (limit x);
  ok_cap_le : Z.of_nat (length (queue x)) <= Z.max 0 (cap x);
  ok_ended : ended x = true -> queue x = [];
  ok_topics : forall t, t ∈ c_topics x -> user_rule (userID x) t;
  ok_queue : forall q, q ∈ queue x -> f_id (q_f q) <> [] -> user_rule (userID x) (f_topic (q_f q));
}.

Lemma newConn_ok g k u s : conn_ok g (newConn g k u s).
Proof.
  split; cbn; try done; try lia.
  intros q Hq. by apply not_elem_of_nil in Hq.
Qed.

Lemma live_in_app a b : live_in (a ++ b) = live_in a ++ live_in b.
Proof. apply List.filter_app. Qed.

Lemma push_ok g f lv x : (f_id f <> [] -> user_rule (userID x) (f_topic f)) ->
  conn_ok g x -> conn_ok g (push f lv x).1.
Proof.
  intros Hf K. pose proof K as [H1 H2 H3 H4 H5 H6 H7 H8]. unfold push. destruct (ended x) eqn:E; [done|].
  destruct ((lv && (live x >=? limit x)) || (Z.of_nat (length (queue x)) >=? cap x)) eqn:B; [done|].
  apply orb_false_iff in B as [B1 B2]. specialize (H3 eq_refl).
  split; cbn [limit cap ended live queue c_topics userID fst]; try done.
  - intros _. rewrite live_in_app, length_app. unfold live_in at 2. cbn. destruct lv; cbn; lia.
  - rewrite live_in_app, length_app. unfold live_in at 2. cbn. destruct lv; cbn in *; lia.
  - rewrite length_app. cbn. lia.
  - intros q [Hq| ->%list_elem_of_singleton]%elem_of_app; [by apply H8|done].
Qed.

Lemma pop_ok g x : conn_ok g x -> conn_ok g (pop x).1.
Proof.
  intros K. pose proof K as [H1 H2 H3 H4 H5 H6 H7 H8]. unfold pop. destruct (queue x) as [|q rest] eqn:Q; [done|].
  destruct (ended x) eqn:E; [done|]. unfold live_in in *. cbn [List.filter length] in *.
  split; unfold live_in; cbn [limit cap ended live queue c_topics userID fst]; try done.
  - intros _. rewrite (H3 eq_refl). destruct (q_live q); cbn [length]; lia.
  - destruct (q_live q); cbn [length] in *; lia.
  - lia.
  - intros p Hp. apply H8. by apply elem_of_cons; right.
Qed.

Lemma end_ok g cd why x : conn_ok g x -> conn_ok g (end_ cd why x).1.
Proof.
  intros K. pose proof K as [H1 H2 H3 H4 H5 H6 H7 H8]. unfold end_. destruct (ended x) eqn:E; [done|].
  split; cbn; try done; try lia. by intros q ?%not_elem_of_nil.
Qed.

Lemma with_topics_ok g ts x : (forall t, t ∈ ts -> user_rule (userID x) t) -> conn_ok g x -> conn_ok g (with_topics ts x).
Proof. intros Hts [H1 H2 H3 H4 H5 H6 H7 H8]. by split. Qed.

Lemma drop_conn_ok g x : conn_ok g x -> conn_ok g (drop_conn x).
Proof. intros K. apply end_ok, with_topics_ok; [set_solver|done]. Qed.

Lemma received_ok g f x : (f_id f <> [] -> user_rule (userID x) (f_topic f)) -> conn_ok g x -> conn_ok g (received f x).
Proof.
  intros Hf K. pose proof (push_ok g f true x Hf K) as P. unfold received.
  destruct (push f true x) as [x' []]; [done|by apply drop_conn_ok|done].
Qed.

(** What no queue operation touches. *)
Lemma push_userID f lv x : userID (push f lv x).1 = userID x /\ c_topics (push f lv x).1 = c_topics x.
Proof. unfold push. by repeat case_match. Qed.

Lemma end_userID cd why x : userID (end_ cd why x).1 = userID x /\ c_topics (end_ cd why x).1 = c_topics x.
Proof. unfold end_. by repeat case_match. Qed.

Lemma pop_userID x : userID (pop x).1 = userID x /\ c_topics (pop x).1 = c_topics x.
Proof. unfold pop. by repeat case_match. Qed.

Lemma received_userID f x : userID (received f x) = userID x.
Proof.
  unfold received. pose proof (push_userID f true x) as [P _]. destruct (push f true x) as [x' []]; [done| |done].
  unfold drop_conn. by rewrite (proj1 (end_userID _ _ _)).
Qed.

(** ** The invariant *)

(** How many registered connections carry a user. *)
Definition user_count (h : hub) (u : gostring) : Z :=
  Z.of_nat (size (filter (fun c => userID <$> store h !! c = Some u) (conns h))).

Record hub_inv (h : hub) : Prop := {
  inv_link : linked h;
  inv_conn : forall c x, store h !! c = Some x -> conn_ok (cfg h) x;
  inv_known : forall c, c ∈ conns h -> is_Some (store h !! c);
  inv_left : forall c x, store h !! c = Some x -> c ∉ conns h -> c_topics x = ∅;
  inv_users : forall u, default 0 (users h !! u) = (if decide (u = []) then 0 else user_count h u)
              /\ users h !! u <> Some 0;
}.

(** An operation that changes the state of known connections only, keeping
    their users, and leaves registration alone. *)
Record quiet (h h' : hub) : Prop := {
  quiet_cfg : cfg h' = cfg h;
  quiet_conns : conns h' = conns h;
  quiet_users : users h' = users h;
  quiet_store : forall c, userID <$> store h' !! c = userID <$> store h !! c;
}.

Lemma quiet_refl h : quiet h h.
Proof. done. Qed.

Lemma quiet_trans h1 h2 h3 : quiet h1 h2 -> quiet h2 h3 -> quiet h1 h3.
Proof. intros [] []. split; congruence. Qed.

Lemma quiet_count h h' u : quiet h h' -> user_count h' u = user_count h u.
Proof.
  intros [_ Hc _ Hs]. unfold user_count. rewrite Hc. do 2 f_equal. apply set_eq. intros c.
  rewrite !elem_of_filter. by rewrite Hs.
Qed.

Lemma quiet_inv h h' : quiet h h' -> linked h' ->
  (forall c x, store h' !! c = Some x -> conn_ok (cfg h') x) ->
  (forall c x, store h' !! c = Some x -> c ∉ conns h' -> c_topics x = ∅) ->
  hub_inv h -> hub_inv h'.
Proof.
  intros Q L C E [_ _ K _ U]. pose proof Q as [Hc Hn Hu Hs]. split; try done.
  - intros c Hin. rewrite Hn in Hin. destruct (K c Hin) as [x Hx]. specialize (Hs c). rewrite Hx in Hs.
    destruct (store h' !! c); [eauto|done].
  - intros u. by rewrite Hu, (quiet_count h h' u Q).
Qed.

(** A change of one known connection that keeps its user and topics. *)
Lemma on_conn_quiet h c f : (forall x, userID (f x) = userID x) -> quiet h (on_conn h c f).
Proof.
  intros Hf. split; try done. intros c'. cbn. destruct (decide (c' = c)) as [->|]; [|by rewrite lookup_alter_ne].
  rewrite lookup_alter_eq. destruct (store h !! c); cbn; [by rewrite Hf|done].
Qed.

Lemma alter_Some {A} (m : gmap nat A) (f : A -> A) c c' y : alter f c m !! c' = Some y ->
  (c' = c /\ exists x, m !! c = Some x /\ y = f x) \/ (c' <> c /\ m !! c' = Some y).
Proof.
  destruct (decide (c' = c)) as [->|]; [|rewrite lookup_alter_ne by done; auto].
  rewrite lookup_alter_eq. destruct (m !! c); cbn; [|done]. intros [= <-]. left. eauto.
Qed.

Lemma on_conn_inv h c f : (forall x, store h !! c = Some x -> conn_ok (cfg h) x -> conn_ok (cfg h) (f x)) ->
  (forall x, userID (f x) = userID x /\ c_topics (f x) = c_topics x) -> hub_inv h -> hub_inv (on_conn h c f).
Proof.
  intros Hf Hu I. apply (quiet_inv h); [| | | |done].
  - apply on_conn_quiet. intros x. apply Hu.
  - apply linked_on_conn; [|apply I]. intros x. apply Hu.
  - intros c' y Hy. cbn in *. apply alter_Some in Hy as [[-> (x & Hx & ->)]|[_ Hy]]; [|by apply (inv_conn h I c')].
    apply Hf; [done|]. by apply (inv_conn h I c).
  - intros c' y Hy Hn. cbn in *. apply alter_Some in Hy as [[-> (x & Hx & ->)]|[_ Hy]]; [|by apply (inv_left h I c')].
    rewrite (proj2 (Hu x)). by apply (inv_left h I c).
Qed.

(** ** Every operation keeps the invariant *)

Lemma detach_one_quiet c h t : quiet h (detach_one c h t).
Proof.
  split; [unfold detach_one; by repeat case_match..|].
  intros c'. rewrite detach_one_store. destruct (decide (c' = c)) as [->|]; [|by rewrite lookup_alter_ne].
  rewrite lookup_alter_eq. by destruct (store h !! c).
Qed.

Lemma detachTopics_quiet c ts h : quiet h (detachTopics c ts h).
Proof.
  unfold detachTopics. revert h. induction ts as [|t ts IH]; intros h; [apply quiet_refl|].
  cbn. eapply quiet_trans; [apply detach_one_quiet|apply IH].
Qed.

Lemma detachTopics_inv c ts h : hub_inv h -> hub_inv (detachTopics c ts h).
Proof.
  intros I. pose proof (detachTopics_quiet c ts h) as Q. apply (quiet_inv h); [done| | | |done].
  - apply detachTopics_linked, I.
  - rewrite (quiet_cfg _ _ Q), detachTopics_store.
    intros c' y [[-> (x & Hx & ->)]|[_ Hy]]%alter_Some; [|by apply (inv_conn h I c')].
    pose proof (inv_conn h I c x Hx) as K. apply with_topics_ok; [|done].
    intros t Ht. apply (ok_topics _ _ K). set_solver.
  - rewrite (quiet_conns _ _ Q), detachTopics_store.
    intros c' y [[-> (x & Hx & ->)]|[_ Hy]]%alter_Some Hn; [|by apply (inv_left h I c')].
    cbn. rewrite (inv_left h I c x Hx Hn). set_solver.
Qed.

Lemma detachLocked_inv c ts h : hub_inv h -> hub_inv (detachLocked c ts h).
Proof.
  intros I. destruct ts as [ts|]; cbn; [by apply detachTopics_inv|].
  destruct (store h !! c); [by apply detachTopics_inv|done].
Qed.

Lemma detachLocked_quiet c ts h : quiet h (detachLocked c ts h).
Proof.
  destruct ts as [ts|]; cbn; [apply detachTopics_quiet|].
  destruct (store h !! c); [apply detachTopics_quiet|apply quiet_refl].
Qed.

Lemma count_inv h a b c : hub_inv h -> hub_inv (count h a b c).
Proof. by intros [[] ? ? ? ?]. Qed.

Lemma set_replay_inv h r : hub_inv h -> hub_inv (set_replay h r).
Proof. by intros [[] ? ? ? ?]. Qed.

Lemma set_seq_inv h s : hub_inv h -> hub_inv (set_seq h s).
Proof. by intros [[] ? ? ? ?]. Qed.

Lemma set_closed_inv h : hub_inv h -> hub_inv (set_closed h).
Proof. by intros [[] ? ? ? ?]. Qed.

Lemma end_inv h c cd why : hub_inv h -> hub_inv (on_conn h c (fun x => (end_ cd why x).1)).
Proof.
  intros I. apply on_conn_inv; [|intros x; apply end_userID|done]. intros x _. apply end_ok.
Qed.

Lemma dropLocked_inv c h : hub_inv h -> hub_inv (dropLocked c h).
Proof. intros I. unfold dropLocked. by apply end_inv, count_inv, detachLocked_inv. Qed.

Lemma dropLocked_quiet c h : quiet h (dropLocked c h).
Proof.
  unfold dropLocked. eapply quiet_trans; [apply detachLocked_quiet|].
  eapply (quiet_trans _ (count (detachLocked c None h) 0 0 1)); [done|].
  apply on_conn_quiet. intros x. apply end_userID.
Qed.

(** A connection replaced by what a push made of it. *)
Lemma pushed_inv h c x f lv : store h !! c = Some x -> (f_id f <> [] -> user_rule (userID x) (f_topic f)) ->
  hub_inv h -> hub_inv (on_conn h c (fun _ => (push f lv x).1)) /\ quiet h (on_conn h c (fun _ => (push f lv x).1)).
Proof.
  intros Hx Hf I.
  assert (E : store (on_conn h c (fun _ => (push f lv x).1)) = <[c := (push f lv x).1]> (store h)).
  { cbn. apply map_eq. intros c'. destruct (decide (c' = c)) as [->|].
    - by rewrite lookup_alter_eq, Hx, lookup_insert_eq.
    - by rewrite lookup_alter_ne, lookup_insert_ne. }
  assert (Q : quiet h (on_conn h c (fun _ => (push f lv x).1))).
  { split; try done. intros c'. rewrite E. destruct (decide (c' = c)) as [->|].
    - rewrite lookup_insert_eq, Hx. cbn. by rewrite (proj1 (push_userID f lv x)).
    - by rewrite lookup_insert_ne. }
  split; [|done]. apply (quiet_inv h); [done| | | |done].
  - apply (linked_same h); [reflexivity| |apply I]. intros c'. rewrite E. destruct (decide (c' = c)) as [->|].
    + rewrite lookup_insert_eq, Hx. cbn. by rewrite (proj2 (push_userID f lv x)).
    + by rewrite lookup_insert_ne.
  - rewrite E. intros c' y [[<- <-]|[_ Hy]]%lookup_insert_Some; [|by apply (inv_conn h I c')].
    apply push_ok; [done|]. by apply (inv_conn h I c).
  - rewrite E. intros c' y [[<- <-]|[_ Hy]]%lookup_insert_Some Hn; [|by apply (inv_left h I c')].
    rewrite (proj2 (push_userID f lv x)). by apply (inv_left h I c).
Qed.

Lemma deliver_one_inv f h slow c :
  (forall x, store h !! c = Some x -> f_id f <> [] -> user_rule (userID x) (f_topic f)) ->
  hub_inv h -> hub_inv (deliver_one f (h, slow) c).1 /\ quiet h (deliver_one f (h, slow) c).1.
Proof.
  intros Hf I. unfold deliver_one. destruct (store h !! c) as [x|] eqn:E; [|done].
  destruct (pushed_inv h c x f true E (Hf x eq_refl) I) as [P Q].
  destruct (push f true x) as [x' []]; cbn [fst] in *.
  - split; [by apply count_inv|]. by eapply quiet_trans.
  - split; [by apply dropLocked_inv|apply dropLocked_quiet].
  - done.
Qed.

Lemma deliver_all_inv f cs h slow :
  (forall c x, c ∈ cs -> store h !! c = Some x -> f_id f <> [] -> user_rule (userID x) (f_topic f)) ->
  hub_inv h -> hub_inv (fold_left (deliver_one f) cs (h, slow)).1 /\ quiet h (fold_left (deliver_one f) cs (h, slow)).1.
Proof.
  revert h slow. induction cs as [|c cs IH]; intros h slow Hf I; [done|]. cbn [fold_left].
  destruct (deliver_one_inv f h slow c) as [I' Q]; [|done|].
  { intros x. apply Hf. by apply elem_of_cons; left. }
  destruct (deliver_one f (h, slow) c) as [h' slow']. cbn [fst] in *.
  destruct (IH h' slow') as [I2 Q2]; [|done|].
  - intros d y Hd Hy Hid. pose proof (quiet_store _ _ Q d) as E. rewrite Hy in E.
    destruct (store h !! d) as [z|] eqn:Ez; [|done]. cbn in E. injection E as ->.
    apply (Hf d z); [by apply elem_of_cons; right|done|done].
  - split; [done|]. by eapply quiet_trans.
Qed.

Lemma emit_inv f h : hub_inv h -> hub_inv (emit f h).1 /\ quiet h (emit f h).1.
Proof.
  intros I. unfold emit, deliverLocked. destruct (deliver_all_inv f
    (elements (default ∅ (topics (set_replay h (add f (h_replay h))) !! f_topic f)))
    (set_replay h (add f (h_replay h))) []) as [I' Q].
  - intros c x Hc Hx _. apply elem_of_elements in Hc. cbn in Hc, Hx.
    apply (link_iff _ (inv_link h I)) in Hc as (y & Hy & Ht). assert (y = x) as -> by congruence.
    by apply (ok_topics _ _ (inv_conn h I c x Hx)).
  - by apply set_replay_inv.
  - split; [done|]. destruct Q. by split.
Qed.

Lemma fold_inv {A} (P : hub -> Prop) (f : hub -> A -> hub) l h :
  (forall h a, P h -> P (f h a)) -> P h -> P (fold_left f l h).
Proof. intros Hf. revert h. induction l as [|a l IH]; intros h H; [done|]. by apply IH, Hf. Qed.

Lemma Disconnect_inv u h : hub_inv h -> hub_inv (Disconnect u h).
Proof.
  intros I. unfold Disconnect. destruct (seq_eqb u []); [done|]. apply fold_inv; [|done].
  intros h' c I'. unfold disconnect_one. destruct (store h' !! c); [|done].
  destruct (seq_eqb _ _); [|done]. by apply end_inv, detachLocked_inv.
Qed.

Lemma Close_inv h : hub_inv h -> hub_inv (Close h).
Proof.
  intros I. unfold Close. destruct (closed h); [done|]. apply fold_inv; [|by apply set_closed_inv].
  intros h' c. apply end_inv.
Qed.

Lemma endStreams_inv s h : hub_inv h -> hub_inv (endStreams s h).
Proof.
  intros I. unfold endStreams. apply fold_inv; [|done]. intros h' c I'.
  destruct (store h' !! c); [|done]. destruct (_ && _); [by apply end_inv|done].
Qed.

Lemma pop_inv h c : hub_inv h -> hub_inv (on_conn h c (fun x => (pop x).1)).
Proof. intros I. apply on_conn_inv; [|intros x; apply pop_userID|done]. intros x _. apply pop_ok. Qed.

(** *** Attaching *)

Definition queue_ok (user : gostring) (f : frame) : Prop := f_id f <> [] -> user_rule user (f_topic f).

Lemma queue_on_inv c f h o u : userID <$> store h !! c = Some u -> queue_ok u f -> hub_inv h ->
  let h' := (queue_on c f (h, o)).1.1 in hub_inv h' /\ quiet h h'.
Proof.
  intros Hu Hf I. unfold queue_on. destruct (store h !! c) as [x|] eqn:E; [|done].
  cbn in Hu. injection Hu as Hu. destruct (pushed_inv h c x f false E) as [P Q]; [by rewrite Hu|done|].
  destruct (push f false x) as [x' []]; by cbn [fst] in *.
Qed.

Lemma queue_all_inv c fs h o u : userID <$> store h !! c = Some u -> Forall (queue_ok u) fs -> hub_inv h ->
  let h' := (queue_all c fs (h, o)).1 in hub_inv h' /\ quiet h h'.
Proof.
  intros Hu F. revert h o Hu. induction F as [|f fs Hf F IH]; intros h o Hu I; [done|].
  cbn [queue_all fold_left]. destruct (queue_on_inv c f h o u Hu Hf I) as [I1 Q1].
  destruct (queue_on c f (h, o)) as [[h1 o1] q1]. cbn [fst] in *.
  destruct (IH h1 o1) as [I2 Q2]; [by rewrite (quiet_store _ _ Q1)|done|].
  split; [done|]. by eapply quiet_trans.
Qed.

Lemma replay_all_inv c fs h o u : userID <$> store h !! c = Some u -> Forall (queue_ok u) fs -> hub_inv h ->
  let h' := (replay_all c fs (h, o)).1 in hub_inv h' /\ quiet h h'.
Proof.
  intros Hu F. revert h o Hu. induction F as [|f fs Hf F IH]; intros h o Hu I; [done|].
  cbn [replay_all fold_left]. destruct (queue_on_inv c f h o u Hu Hf I) as [I1 Q1].
  destruct (queue_on c f (h, o)) as [[h1 o1] q1]. cbn [fst] in *.
  assert (Q1' : quiet h (if q1 then count h1 0 1 0 else h1)) by (destruct q1; [by destruct Q1|done]).
  destruct (IH (if q1 then count h1 0 1 0 else h1) o1) as [I2 Q2];
    [by rewrite (quiet_store _ _ Q1')|destruct q1; [by apply count_inv|done]|].
  split; [done|]. by eapply quiet_trans.
Qed.

Lemma attach_one_inv c t h u : c ∈ conns h -> userID <$> store h !! c = Some u -> user_rule u t ->
  hub_inv h -> hub_inv (attach_one c h t) /\ quiet h (attach_one c h t).
Proof.
  intros Hc Hu Ht I. destruct (store h !! c) as [x|] eqn:Ex; [|done]. cbn in Hu. injection Hu as Hu.
  assert (Q : quiet h (attach_one c h t)).
  { split; try done. intros c'. unfold attach_one. cbn. destruct (decide (c' = c)) as [->|].
    - by rewrite lookup_alter_eq, Ex.
    - by rewrite lookup_alter_ne. }
  split; [|done]. apply (quiet_inv h); [done| | | |done].
  - apply attach_one_linked; [eauto|apply I].
  - unfold attach_one. cbn. intros c' y [[-> (x' & Hx & ->)]|[_ Hy]]%alter_Some; [|by apply (inv_conn h I c')].
    assert (x' = x) as -> by congruence. pose proof (inv_conn h I c x Ex) as K. apply with_topics_ok; [|done].
    intros t' [->%elem_of_singleton|Hin]%elem_of_union; [by rewrite Hu|by apply (ok_topics _ _ K)].
  - unfold attach_one. cbn. intros c' y [[-> (x' & Hx & ->)]|[_ Hy]]%alter_Some Hn; [done|by apply (inv_left h I c')].
Qed.

Lemma attach_all_inv c ts h u : c ∈ conns h -> userID <$> store h !! c = Some u -> Forall (user_rule u) ts ->
  hub_inv h -> hub_inv (fold_left (attach_one c) ts h) /\ quiet h (fold_left (attach_one c) ts h).
Proof.
  intros Hc Hu F. revert h Hc Hu. induction F as [|t ts Ht F IH]; intros h Hc Hu I; [done|].
  cbn [fold_left]. destruct (attach_one_inv c t h u Hc Hu Ht I) as [I1 Q1].
  destruct (IH (attach_one c h t)) as [I2 Q2]; [done|by rewrite (quiet_store _ _ Q1)|done|].
  split; [done|]. by eapply quiet_trans.
Qed.

Lemma collect_topics r ts k q f : f ∈ collect r ts q k -> f_topic f ∈ ts.
Proof.
  revert q. induction k as [|k IH]; intros q H; cbn in H; [by apply not_elem_of_nil in H|].
  destruct (buf r !! _) as [[g|]|]; try by apply IH in H.
  case_bool_decide; [|by apply IH in H]. apply elem_of_cons in H as [->|H]; [done|by apply IH in H].
Qed.

Lemma since_topics id ts r fs f : since id ts r = Some fs -> f ∈ fs -> f_topic f ∈ ts.
Proof. unfold since. destruct (pos r !! id); [|done]. intros [= <-]. apply collect_topics. Qed.

Section encode.
Context (marshal : Event -> gostring) (marshal_refusal : api_error -> gostring).

Lemma ownEvent_ok u at_ t ty d : queue_ok u (ownEvent marshal at_ t ty d).
Proof. done. Qed.

Lemma drop_inv c h (o : bool) : hub_inv h ->
  hub_inv (if o then dropLocked c h else h) /\ quiet h (if o then dropLocked c h else h).
Proof. intros I. destruct o; [split; [by apply dropLocked_inv|apply dropLocked_quiet]|done]. Qed.

Lemma attachLocked_inv at_ c ts refused after h u :
  c ∈ conns h -> userID <$> store h !! c = Some u -> Forall (user_rule u) ts -> hub_inv h ->
  let h' := (attachLocked marshal marshal_refusal at_ c ts refused after h).1 in hub_inv h' /\ quiet h h'.
Proof.
  intros Hc Hu F I. unfold attachLocked. set (own := map _ refused).
  assert (Fo : Forall (queue_ok u) own)
    by (apply Forall_forall; intros f (r & -> & _)%list_elem_of_fmap; apply ownEvent_ok).
  destruct (queue_all_inv c own h false u Hu Fo I) as [I1 Q1].
  destruct (queue_all c own (h, false)) as [h1 o1]. cbn [fst snd] in *.
  assert (Hu1 : userID <$> store h1 !! c = Some u) by by rewrite (quiet_store _ _ Q1).
  assert (Hc1 : c ∈ conns h1) by by rewrite (quiet_conns _ _ Q1).
  destruct (length ts =? 0)%nat; [done|].
  destruct (attach_all_inv c ts h1 u Hc1 Hu1 F I1) as [I2 Q2].
  assert (Hu2 : userID <$> store (fold_left (attach_one c) ts h1) !! c = Some u)
    by by rewrite (quiet_store _ _ Q2).
  set (h2 := fold_left (attach_one c) ts h1) in *. clearbody h2.
  pose proof (quiet_trans _ _ _ Q1 Q2) as Q12. destruct (seq_eqb after []); [done|].
  destruct (since after ts (h_replay h2)) as [fs|] eqn:S.
  - destruct (replay_all_inv c fs h2 o1 u) as [I3 Q3]; [done| |done|split; [done|by eapply quiet_trans]].
    apply Forall_forall. intros f Hf _. rewrite Forall_forall in F. apply F. by eapply since_topics.
  - destruct (queue_all_inv c (map (fun t => ownEvent marshal at_ t typeReset []) ts) h2 o1 u) as [I3 Q3];
      [done| |done|split; [done|by eapply quiet_trans]].
    apply Forall_forall. intros f (t & -> & _)%list_elem_of_fmap. apply ownEvent_ok.
Qed.

Lemma attach_inv at_ c ts refused after h u :
  c ∈ conns h -> userID <$> store h !! c = Some u -> Forall (user_rule u) ts -> hub_inv h ->
  let h' := attach marshal marshal_refusal at_ c ts refused after h in hub_inv h' /\ quiet h h'.
Proof.
  intros Hc Hu F I. destruct (attachLocked_inv at_ c ts refused after h u Hc Hu F I) as [I1 Q1].
  unfold attach. destruct (attachLocked _ _ _ _ _ _ _ _) as [h1 o]. cbn [fst] in *.
  destruct (drop_inv c h1 o I1) as [I2 Q2]. split; [done|by eapply quiet_trans].
Qed.

(** check lets through only what the rule allows. *)
Lemma allowed_rule authorize u t : allowed authorize u t = None -> user_rule u t.
Proof.
  unfold allowed, user_rule. destruct (cut_prefix own_topic_prefix t) as [id|]; [|done].
  destruct (negb (seq_eqb u []) && seq_eqb id u) eqn:E; [|done]. intros _ id' [= <-].
  apply andb_true_iff in E as [E1 E2]. unfold seq_eqb in *.
  apply negb_true_iff, bool_decide_eq_false in E1. by apply bool_decide_eq_true in E2.
Qed.

Lemma check_rule authorize u ts : Forall (user_rule u) (check authorize u ts).1.
Proof.
  induction ts as [|t ts IH]; cbn; [constructor|]. destruct (check authorize u ts) as [ok refused].
  destruct (allowed authorize u t) eqn:E; [done|]. constructor; [by eapply allowed_rule|done].
Qed.

(** *** Registering *)

Lemma user_count_with c k u s h us v : c ∉ conns h ->
  user_count (set_conns (set_store h (<[c:=newConn (cfg h) k u s]> (store h))) ({[c]} ∪ conns h) us) v
  = user_count h v + (if decide (v = u) then 1 else 0).
Proof.
  intros Hn.
  unfold user_count. cbn. rewrite filter_union_L.
  assert (E : filter (fun c0 => userID <$> <[c:=newConn (cfg h) k u s]> (store h) !! c0 = Some v) (conns h)
              = filter (fun c0 => userID <$> store h !! c0 = Some v) (conns h)).
  { apply set_eq. intros d. rewrite !elem_of_filter. destruct (decide (d = c)) as [->|]; [tauto|].
    by rewrite lookup_insert_ne. }
  rewrite E. destruct (decide (v = u)) as [->|].
  - match goal with |- context [filter ?P ({[c]} : gset nat)] =>
      assert (F : filter P ({[c]} : gset nat) = {[c]}) end.
    { apply set_eq. intros d. rewrite elem_of_filter, elem_of_singleton.
      split; [tauto|]. intros ->. by rewrite lookup_insert_eq. }
    rewrite F, size_union by (apply disjoint_singleton_l; rewrite elem_of_filter; tauto).
    rewrite size_singleton. lia.
  - match goal with |- context [filter ?P ({[c]} : gset nat)] =>
      assert (F : filter P ({[c]} : gset nat) = ∅) end.
    { apply set_eq. intros d. rewrite elem_of_filter, elem_of_singleton.
      split; [|set_solver]. intros [X ->]. rewrite lookup_insert_eq in X. cbn in X. congruence. }
    rewrite F, union_empty_l_L. lia.
  - apply _.
Qed.

Lemma user_count_without c x h us v : c ∈ conns h -> store h !! c = Some x ->
  user_count (set_conns h (conns h ∖ {[c]}) us) v = user_count h v - (if decide (v = userID x) then 1 else 0).
Proof.
  intros Hc1 Hx.
  unfold user_count. cbn. destruct (decide (v = userID x)) as [->|].
  - assert (E : filter (fun c0 => userID <$> store h !! c0 = Some (userID x)) (conns h ∖ {[c]})
              = filter (fun c0 => userID <$> store h !! c0 = Some (userID x)) (conns h) ∖ {[c]}) by set_solver.
    rewrite E, size_difference by (apply singleton_subseteq_l, elem_of_filter; by rewrite Hx).
    rewrite size_singleton.
    assert (size ({[c]} : gset nat) <= size (filter (fun c0 => userID <$> store h !! c0 = Some (userID x)) (conns h)))%nat.
    { apply subseteq_size, singleton_subseteq_l, elem_of_filter. by rewrite Hx. }
    rewrite size_singleton in *. lia.
  - assert (E : filter (fun c0 => userID <$> store h !! c0 = Some v) (conns h ∖ {[c]})
              = filter (fun c0 => userID <$> store h !! c0 = Some v) (conns h)).
    { apply set_eq. intros d. rewrite !elem_of_filter, elem_of_difference, elem_of_singleton.
      split; [tauto|]. intros [Hd ?]. repeat split; try done. intros ->. rewrite Hx in Hd. cbn in Hd. congruence. }
    rewrite E. lia.
Qed.

Lemma register_inv c k u s h : store h !! c = None -> hub_inv h ->
  hub_inv (register c (newConn (cfg h) k u s) h).1.
Proof.
  intros Hc I. unfold register. destruct (closed h); [done|]. cbn [fst].
  assert (Hn : c ∉ conns h) by (intros X; destruct (inv_known h I c X); congruence).
  split; cbn.
  - split; cbn.
    + intros c' t. rewrite <- (link_iff _ (inv_link h I)). unfold subscribed. cbn.
      destruct (decide (c' = c)) as [->|].
      * rewrite lookup_insert_eq, Hc. split; [|naive_solver]. intros (? & [= <-] & X). cbn in X. set_solver.
      * by rewrite lookup_insert_ne.
    + apply (link_nonempty _ (inv_link h I)).
  - intros c' x [[<- <-]|[_ Hx]]%lookup_insert_Some; [apply newConn_ok|by apply (inv_conn h I c')].
  - intros c' [->%elem_of_singleton|Hin]%elem_of_union.
    + rewrite lookup_insert_eq. eauto.
    + destruct (decide (c' = c)) as [->|]; [done|]. rewrite lookup_insert_ne by done. by apply (inv_known h I).
  - intros c' x [[<- <-]|[Hne Hx]]%lookup_insert_Some Hnin; [done|]. apply (inv_left h I c'); [done|]. set_solver.
  - intros v.
    destruct (inv_users h I v) as [U1 U2]. rewrite user_count_with by done. unfold seq_eqb.
    destruct (decide (u = [])) as [->|Hu].
    + rewrite bool_decide_true by done. split; [|done]. rewrite U1. repeat case_decide; done || lia.
    + rewrite bool_decide_false by done. destruct (decide (v = u)) as [->|].
      * rewrite lookup_insert_eq. rewrite !(decide_False (P := u = [])) in * by done. cbn. rewrite U1.
        split; [done|]. intros [= X]. unfold user_count in X. lia.
      * rewrite lookup_insert_ne by done. split; [|done]. rewrite U1. repeat case_decide; done || lia.
Qed.

Lemma unregister_inv c h : c ∈ conns h -> hub_inv h -> hub_inv (unregister c h).
Proof.
  intros Hc I. unfold unregister. pose proof (detachLocked_inv c None h I) as I1.
  pose proof (detachLocked_quiet c None h) as Q1. pose proof (detachLocked_store c h) as S1.
  set (h1 := detachLocked c None h) in *. clearbody h1.
  assert (Hc1 : c ∈ conns h1) by by rewrite (quiet_conns _ _ Q1).
  destruct (inv_known h1 I1 c Hc1) as [x Hx]. rewrite Hx.
  assert (Ht : c_topics x = ∅).
  { rewrite S1 in Hx. apply alter_Some in Hx as [[_ (y & _ & ->)]|[? _]]; done. }
  split; cbn.
  - destruct (inv_link h1 I1) as [L N]. by split.
  - apply (inv_conn h1 I1).
  - intros c' Hin. apply (inv_known h1 I1). set_solver.
  - intros c' y Hy Hn. destruct (decide (c' = c)) as [->|]; [congruence|].
    apply (inv_left h1 I1 c'); [done|]. set_solver.
  - intros v. destruct (inv_users h1 I1 v) as [U1 U2].
    rewrite (user_count_without _ x) by done. unfold seq_eqb. destruct (decide (userID x = [])) as [Hu|Hu].
    + rewrite bool_decide_true by done. split; [|done]. rewrite U1, Hu. repeat case_decide; done || lia.
    + rewrite bool_decide_false by done. destruct (decide (v = userID x)) as [->|].
      * rewrite (decide_False (P := userID x = [])) in * by done. rewrite U1.
        destruct (Z.leb_spec (user_count h1 (userID x) - 1) 0).
        -- rewrite lookup_delete_eq. cbn. split; [|done].
           assert (0 < user_count h1 (userID x)); [|lia]. unfold user_count.
           assert (size (filter (fun c0 => userID <$> store h1 !! c0 = Some (userID x)) (conns h1)) <> 0)%nat; [|lia].
           intros X%size_empty_inv.
           assert (c ∈ filter (fun c0 => userID <$> store h1 !! c0 = Some (userID x)) (conns h1)) as Y
             by (apply elem_of_filter; by rewrite Hx).
           rewrite X in Y. set_solver.
        -- rewrite lookup_insert_eq. cbn. split; [done|]. intros [= X]. lia.
      * assert (X : (if user_count h1 (userID x) - 1 <=? 0 then delete (userID x) (users h1)
            else <[userID x := user_count h1 (userID x) - 1]> (users h1)) !! v = users h1 !! v).
        { destruct (_ <=? _); [by rewrite lookup_delete_ne|by rewrite lookup_insert_ne]. }
        assert (Y : default 0 (users h1 !! userID x) = user_count h1 (userID x)).
        { destruct (inv_users h1 I1 (userID x)) as [U _]. by rewrite decide_False in U. }
        rewrite Y, X. split; [|done]. rewrite U1. repeat case_decide; done || lia.
Qed.
End encode.

(** ** Running a hub *)

Section runs.
Context (marshal : Event -> gostring) (marshal_refusal : api_error -> gostring).

(** What happens to a hub: the transports' calls, the publishers, the
    backplane, and the timers.  Each is a stretch under the hub's lock, or
    under a connection's; a transport registers a connection before it
    attaches topics, with what check let through at some moment, and
    unregisters it last. *)
Inductive hub_step : hub -> hub -> Prop :=
| st_register h c k u s : store h !! c = None -> hub_step h (register c (newConn (cfg h) k u s) h).1
| st_unregister h c : c ∈ conns h -> hub_step h (unregister c h)
| st_attach h c x authorize ts at_ after : c ∈ conns h -> store h !! c = Some x ->
    hub_step h (attach marshal marshal_refusal at_ c (check authorize (userID x) ts).1
                  (check authorize (userID x) ts).2 after h)
| st_detach h c ts : hub_step h (detach c ts h)
| st_publish h now topic typ data : hub_step h (Publish marshal now topic typ data h).1
| st_receive h ev : hub_step h (receive marshal ev h)
| st_pop h c : hub_step h (on_conn h c (fun x => (pop x).1))
| st_end h c cd why : hub_step h (on_conn h c (fun x => (end_ cd why x).1))
| st_disconnect h u : hub_step h (Disconnect u h)
| st_end_streams h s : hub_step h (endStreams s h)
| st_close h : hub_step h (Close h).

Lemma newHub_inv g org : hub_inv (newHub g org).
Proof.
  split; cbn.
  - split; cbn.
    + intros c t. rewrite lookup_empty. cbn. split; [|set_solver]. intros (x & Hx & _). cbn in Hx. by rewrite lookup_empty in Hx.
    + intros t subs. by rewrite lookup_empty.
  - intros c x Hx. by rewrite lookup_empty in Hx.
  - set_solver.
  - intros c x Hx. by rewrite lookup_empty in Hx.
  - intros u. rewrite lookup_empty. split; [|done]. by case_decide.
Qed.

Lemma Publish_inv now topic typ data h : hub_inv h -> hub_inv (Publish marshal now topic typ data h).1.
Proof.
  intros I. unfold Publish. repeat case_match; try done; cbn [fst]. apply count_inv.
  match goal with E : emit ?f ?h1 = _ |- _ => pose proof (emit_inv f h1 (set_seq_inv _ _ I)) as [X _]; by rewrite E in X end.
Qed.

Lemma receive_inv ev h : hub_inv h -> hub_inv (receive marshal ev h).
Proof. intros I. unfold receive. repeat case_match; try done. by apply emit_inv. Qed.

Lemma hub_step_inv h h' : hub_step h h' -> hub_inv h -> hub_inv h'.
Proof.
  intros St I. destruct St.
  - by apply register_inv.
  - by apply unregister_inv.
  - apply (attach_inv marshal marshal_refusal at_ c _ _ after h (userID x)); [done|by rewrite H0|apply check_rule|done].
  - by apply detachLocked_inv.
  - by apply Publish_inv.
  - by apply receive_inv.
  - by apply pop_inv.
  - by apply end_inv.
  - by apply Disconnect_inv.
  - by apply endStreams_inv.
  - by apply Close_inv.
Qed.

Lemma hub_run_inv h h' : rtc hub_step h h' -> hub_inv h -> hub_inv h'.
Proof. induction 1; [done|]. intros I. by apply IHrtc, (hub_step_inv x y). Qed.
End runs.

(** *** Resuming *)

Definition replayed (fs : list frame) : list queued := map (fun f => Queued f false) fs.
Definition lived (fs : list frame) : list queued := map (fun f => Queued f true) fs.

(** [x] with more events waiting. *)
Definition more (x y : conn) (q : list queued) : Prop :=
  ended y = false /\ c_topics y = c_topics x /\ userID y = userID x /\ queue y = queue x ++ q.

Lemma more_trans x y z q r : more x y q -> more y z r -> more x z (q ++ r).
Proof. intros (? & ? & ? & E1) (? & ? & ? & E2). repeat split; try congruence. by rewrite E2, E1, app_assoc. Qed.

Lemma queue_on_more c f h o x : store h !! c = Some x -> ended x = false ->
  (queue_on c f (h, o)).1.2 = false ->
  o = false /\ h_replay (queue_on c f (h, o)).1.1 = h_replay h
  /\ exists y, store (queue_on c f (h, o)).1.1 !! c = Some y /\ more x y (replayed [f]).
Proof.
  intros Hx He. unfold queue_on. rewrite Hx. unfold push. rewrite He. cbn [andb orb].
  destruct (_ >=? _); cbn [fst snd]; [done|]. intros ->. split; [done|]. split; [done|].
  cbn. rewrite lookup_alter_eq, Hx. cbn. by eexists.
Qed.

Lemma queue_on_sticky c f h : (queue_on c f (h, true)).1.2 = true.
Proof. unfold queue_on. by repeat case_match. Qed.

Lemma queue_fold_sticky (k : hub -> bool -> hub) c fs h :
  (fold_left (fun s f => let '(h, o, q) := queue_on c f s in (k h q, o)) fs (h, true)).2 = true.
Proof.
  revert h. induction fs as [|g fs IH]; intros h; cbn [fold_left]; [done|].
  pose proof (queue_on_sticky c g h) as S. destruct (queue_on c g (h, true)) as [[h3 o3] q3].
  cbn in S. subst. apply IH.
Qed.

Lemma queue_all_fold c fs s :
  queue_all c fs s = fold_left (fun s f => let '(h, o, q) := queue_on c f s in ((fun h _ => h) h q, o)) fs s.
Proof.
  unfold queue_all. revert s. induction fs as [|f fs IH]; intros s; [done|]. cbn [fold_left].
  destruct (queue_on c f s) as [[h1 o1] q1]. apply IH.
Qed.

Lemma queue_all_sticky c fs h : (queue_all c fs (h, true)).2 = true.
Proof. rewrite queue_all_fold. apply (queue_fold_sticky (fun h _ => h)). Qed.

Lemma replay_all_sticky c fs h : (replay_all c fs (h, true)).2 = true.
Proof. apply (queue_fold_sticky (fun h q => if q : bool then count h 0 1 0 else h)). Qed.

(** Both loops of attachLocked: [k] is what is done to the hub after an event
    was queued. *)
Lemma queue_fold_more (k : hub -> bool -> hub) c fs h o x :
  (forall h q, store (k h q) = store h /\ h_replay (k h q) = h_replay h) ->
  store h !! c = Some x -> ended x = false ->
  let s := fold_left (fun s f => let '(h, o, q) := queue_on c f s in (k h q, o)) fs (h, o) in
  s.2 = false -> h_replay s.1 = h_replay h /\ exists y, store s.1 !! c = Some y /\ more x y (replayed fs).
Proof.
  intros Hk. revert h o x. induction fs as [|f fs IH]; intros h o x Hx He; cbn [fold_left].
  - intros _. split; [done|]. exists x. split; [done|]. repeat split; try done. by rewrite app_nil_r.
  - destruct (queue_on c f (h, o)) as [[h1 o1] q1] eqn:E. cbn zeta. intros Hs.
    assert (o1 = false) as ->.
    { destruct o1; [|done]. pose proof (queue_fold_sticky k c fs (k h1 q1)). congruence. }
    destruct (queue_on_more c f h o x Hx He) as (_ & R & y & Hy & M); [by rewrite E|].
    rewrite E in R, Hy. cbn [fst] in R, Hy. destruct (Hk h1 q1) as [K1 K2].
    destruct (IH (k h1 q1) false y) as (R2 & z & Hz & M2); [by rewrite K1|by destruct M|done|].
    split; [congruence|]. exists z. split; [done|]. by apply (more_trans x y z (replayed [f])).
Qed.

Lemma queue_all_more c fs h o x : store h !! c = Some x -> ended x = false ->
  (queue_all c fs (h, o)).2 = false ->
  h_replay (queue_all c fs (h, o)).1 = h_replay h
  /\ exists y, store (queue_all c fs (h, o)).1 !! c = Some y /\ more x y (replayed fs).
Proof.
  intros Hx He. rewrite queue_all_fold. by apply (queue_fold_more (fun h _ => h)).
Qed.

Lemma replay_all_more c fs h o x : store h !! c = Some x -> ended x = false ->
  (replay_all c fs (h, o)).2 = false ->
  h_replay (replay_all c fs (h, o)).1 = h_replay h
  /\ exists y, store (replay_all c fs (h, o)).1 !! c = Some y /\ more x y (replayed fs).
Proof.
  intros Hx He. apply (queue_fold_more (fun h q => if q : bool then count h 0 1 0 else h)); try done.
  by intros h' [|].
Qed.

Lemma attach_all_store c ts h x : store h !! c = Some x ->
  h_replay (fold_left (attach_one c) ts h) = h_replay h
  /\ store (fold_left (attach_one c) ts h) !! c = Some (with_topics (list_to_set ts ∪ c_topics x) x).
Proof.
  revert h x. induction ts as [|t ts IH]; intros h x Hx; cbn [fold_left].
  - split; [done|]. rewrite Hx. f_equal. cbn. by rewrite union_empty_l_L, with_topics_id.
  - destruct (IH (attach_one c h t) (with_topics ({[t]} ∪ c_topics x) x)) as [R S].
    { unfold attach_one. cbn. by rewrite lookup_alter_eq, Hx. }
    rewrite R, S. split; [done|]. f_equal. cbn. unfold with_topics; cbn. f_equal. set_solver.
Qed.

Lemma end_ended cd why x : ended (end_ cd why x).1 = true.
Proof. unfold end_. destruct (ended x) eqn:E; done. Qed.

Lemma received_ended f x : ended x = true -> received f x = x.
Proof. intros E. unfold received, push. by rewrite E. Qed.

Lemma received_more f x : ended (received f x) = false -> more x (received f x) (lived [f]).
Proof.
  unfold received, push. destruct (ended x) eqn:E; [congruence|].
  destruct (_ || _); [by unfold drop_conn; rewrite end_ended|]. done.
Qed.

Lemma emit_conn f h c x : hub_inv h -> store h !! c = Some x ->
  store (emit f h).1 !! c = Some (if decide (f_topic f ∈ c_topics x) then received f x else x).
Proof.
  intros I Hx. unfold emit. rewrite deliverLocked_store. cbn [topics store set_replay].
  assert (E : c ∈ default ∅ (topics h !! f_topic f) <-> f_topic f ∈ c_topics x).
  { rewrite <- (link_iff _ (inv_link h I)). unfold subscribed. naive_solver. }
  destruct (decide (c ∈ default ∅ (topics h !! f_topic f))) as [H|H].
  - rewrite decide_True by tauto. by rewrite Hx.
  - rewrite decide_False by tauto. done.
Qed.

Definition emits (gs : list frame) (h : hub) : hub := fold_left (fun h g => (emit g h).1) gs h.

Definition on_set (ts : gset gostring) (gs : list frame) : list frame :=
  List.filter (fun f => bool_decide (f_topic f ∈ ts)) gs.

Lemma emits_more gs h c x : hub_inv h -> store h !! c = Some x ->
  exists y, store (emits gs h) !! c = Some y /\ (ended x = true -> ended y = true)
    /\ (ended y = false -> more x y (lived (on_set (c_topics x) gs))).
Proof.
  revert h x. induction gs as [|g gs IH]; intros h x I Hx; cbn [emits fold_left].
  - exists x. repeat split; try done. by rewrite app_nil_r.
  - destruct (emit_inv g h I) as [I1 _]. pose proof (emit_conn g h c x I Hx) as S.
    destruct (IH _ _ I1 S) as (y & Hy & St & M). exists y. split; [done|].
    unfold on_set. cbn [List.filter]. fold (on_set (c_topics x) gs).
    destruct (decide (f_topic g ∈ c_topics x)) as [Hin|Hin].
    + rewrite (bool_decide_true (f_topic g ∈ c_topics x)) by done. split.
      * intros E. apply St. by rewrite received_ended.
      * intros E. assert (E1 : ended (received g x) = false)
          by (destruct (ended (received g x)); [rewrite St in E|]; done).
        pose proof (received_more g x E1) as M1. specialize (M E).
        assert (T : c_topics (received g x) = c_topics x) by apply M1. rewrite T in M.
        exact (more_trans _ _ _ _ _ M1 M).
    + rewrite (bool_decide_false (f_topic g ∈ c_topics x)) by done. by split.
Qed.

(** ** What the hub promises *)

(** The hub's tables never drift apart, whatever the transports,
    publishers, the backplane and the timers do and in whatever order: the
    topics table is exactly the connections' subscriptions, without empty
    entries; the user table counts the registered connections of each user;
    an unregistered connection has no subscription; every queue is within its
    bounds, with the count of live events exact, and empty once the connection
    has ended. *)
Theorem hub_invariant marshal marshal_refusal (g : hub_config) (org : gostring) (h : hub)
  (R : rtc (hub_step marshal marshal_refusal) (newHub g org) h) :
  (forall c t, subscribed h c t <-> c ∈ default ∅ (topics h !! t))
  /\ (forall t, topics h !! t <> Some ∅)
  /\ (forall u, u <> [] -> default 0 (users h !! u) = user_count h u)
  /\ (forall c x, store h !! c = Some x ->
        (c ∉ conns h -> c_topics x = ∅)
        /\ Z.of_nat (length (queue x)) <= Z.max 0 (cap x)
        /\ (ended x = false -> live x = Z.of_nat (length (live_in (queue x))) /\ live x <= Z.max 0 (limit x))
        /\ (ended x = true -> queue x = [])).
Proof.
  pose proof (hub_run_inv _ _ _ _ R (newHub_inv g org)) as I. split; [apply I|]. split; [|split].
  - intros t E. by apply (link_nonempty _ (inv_link h I) t ∅).
  - intros u Hu. destruct (inv_users h I u) as [U _]. by rewrite decide_False in U.
  - intros c x Hx. pose proof (inv_conn h I c x Hx) as K. split; [by apply (inv_left h I c)|].
    split; [apply K|]. split; [|apply K]. intros E. rewrite (ok_live _ _ K E). split; [done|apply K].
Qed.

(** A user's own topic reaches that user alone: whatever Authorize
    answers and whatever is published, by this replica or another, no
    connection is ever subscribed to a topic user:<id>, or has an event of it
    waiting, unless it acts for the user <id>.  (The hub's own refused events,
    which have no ID, name the topic that was asked for.) *)
Theorem hub_private marshal marshal_refusal (g : hub_config) (org : gostring) (h : hub) (c : nat) (x : conn)
  (R : rtc (hub_step marshal marshal_refusal) (newHub g org) h) (Hx : store h !! c = Some x) :
  (forall id, (own_topic_prefix ++ id) ∈ c_topics x -> userID x = id /\ id <> [])
  /\ (forall q id, q ∈ queue x -> f_id (q_f q) <> [] -> f_topic (q_f q) = own_topic_prefix ++ id ->
        userID x = id /\ id <> []).
Proof.
  pose proof (inv_conn h (hub_run_inv _ _ _ _ R (newHub_inv g org)) c x Hx) as K.
  assert (P : forall id, cut_prefix own_topic_prefix (own_topic_prefix ++ id) = Some id).
  { intros id. unfold cut_prefix. rewrite has_prefix_app. by rewrite drop_app_length. }
  split.
  - intros id Hin. destruct (ok_topics _ _ K _ Hin id (P id)) as [? ->]. done.
  - intros q id Hq Hid Ht. destruct (ok_queue _ _ K q Hq Hid id) as [? ->]; [by rewrite Ht|done].
Qed.

(** An event is delivered to exactly its subscribers: each that has
    room gets it at the end of its queue, each that has not is dropped as a
    slow consumer (ended with 4408, unsubscribed, its queue gone), one that
    has ended is left alone, and no other connection changes. *)
Theorem emit_delivers (f : frame) (h : hub) (c : nat) (x : conn) (I : hub_inv h) (Hx : store h !! c = Some x) :
  exists y, store (emit f h).1 !! c = Some y /\
    (if decide (f_topic f ∈ c_topics x) then
       if ended x then y = x
       else if decide (live x < limit x /\ Z.of_nat (length (queue x)) < cap x)
            then ended y = false /\ queue y = queue x ++ [Queued f true] /\ c_topics y = c_topics x
            else ended y = true /\ code y = closeSlow /\ queue y = [] /\ c_topics y = ∅
     else y = x).
Proof.
  eexists. split; [by apply emit_conn|]. destruct (decide (f_topic f ∈ c_topics x)); [|done].
  unfold received, push. destruct (ended x) eqn:E; [done|]. cbn [andb].
  destruct ((live x >=? limit x) || (Z.of_nat (length (queue x)) >=? cap x)) eqn:B.
  - rewrite decide_False by lia. unfold drop_conn, end_. cbn. by rewrite E.
  - by rewrite decide_True by lia.
Qed.

Section resume.
Context (marshal : Event -> gostring) (marshal_refusal : api_error -> gostring).

Lemma on_no_topics l : on_topics [] l = [].
Proof.
  induction l as [|f l IH]; [done|]. unfold on_topics. cbn [List.filter].
  by rewrite bool_decide_false by apply not_elem_of_nil.
Qed.

Lemma attachLocked_more h c x size fs at_ ts refused id :
  store h !! c = Some x -> ended x = false -> id <> [] ->
  h_replay h = fold_left (fun r f => add f r) fs (newReplay size) ->
  let s := attachLocked marshal marshal_refusal at_ c ts refused id h in
  s.2 = false ->
  exists z, store s.1 !! c = Some z /\ c_topics z = list_to_set ts ∪ c_topics x /\
    queue z = queue x
      ++ replayed (map (fun r => ownEvent marshal at_ (r_topic r) typeRefused (marshal_refusal (r_err r))) refused)
      ++ replayed (match after_last id (latest size fs) with
                   | Some missed => on_topics ts missed
                   | None => map (fun t => ownEvent marshal at_ t typeReset []) ts
                   end).
Proof.
  intros Hx He Hid Hfs. unfold attachLocked. set (own := map _ refused).
  assert (Hsince : since id ts (h_replay h) = option_map (on_topics ts) (after_last id (latest size fs)))
    by (rewrite Hfs; apply replay_refines_list).
  destruct (queue_all c own (h, false)) as [h1 o1] eqn:E1.
  pose proof (queue_all_more c own h false x Hx He) as X1. rewrite E1 in X1. cbn [fst snd] in *.
  destruct ts as [|t ts'].
  { cbn [length Nat.eqb]. intros Ho. destruct (X1 Ho) as (_ & z & Hz & _ & T & _ & Q).
    exists z. split; [done|]. split; [rewrite T; cbn; by rewrite union_empty_l_L|].
    rewrite Q. destruct (after_last _ _) as [l|]; rewrite ?on_no_topics; cbn [replayed map];
      by rewrite app_nil_r. }
  set (ts := t :: ts') in *. change (length ts =? 0)%nat with false. cbn iota. cbn [fst snd].
  assert (seq_eqb id [] = false) as -> by (unfold seq_eqb; by apply bool_decide_eq_false).
  assert (Y : o1 = false -> exists x1, store (fold_left (attach_one c) ts h1) !! c = Some x1 /\ ended x1 = false
     /\ c_topics x1 = list_to_set ts ∪ c_topics x /\ queue x1 = queue x ++ replayed own
     /\ since id ts (h_replay (fold_left (attach_one c) ts h1))
        = option_map (on_topics ts) (after_last id (latest size fs))).
  { intros Ho. destruct (X1 Ho) as (R & z & Hz & Ez & T & _ & Q).
    destruct (attach_all_store c ts h1 z Hz) as [R2 S2]. eexists. split; [exact S2|]. cbn [ended c_topics queue with_topics].
    rewrite T, R2, R. done. }
  clear X1 E1. set (h2 := fold_left (attach_one c) ts h1) in *. clearbody h2.
  destruct o1.
  { destruct (since id ts (h_replay h2)); [rewrite replay_all_sticky|rewrite queue_all_sticky]; done. }
  destruct (Y eq_refl) as (x1 & Hx1 & Ex1 & T1 & Q1 & S1). rewrite S1.
  destruct (after_last id (latest size fs)) as [l|]; cbn [option_map]; intros Ho.
  - destruct (replay_all_more c (on_topics ts l) h2 false x1 Hx1 Ex1 Ho) as (_ & z & Hz & _ & T & _ & Q).
    exists z. split; [done|]. split; [congruence|]. by rewrite Q, Q1, <- app_assoc.
  - destruct (queue_all_more c _ h2 false x1 Hx1 Ex1 Ho) as (_ & z & Hz & _ & T & _ & Q).
    exists z. split; [done|]. split; [congruence|]. by rewrite Q, Q1, <- app_assoc.
Qed.

(** [C37] A client that resumes misses nothing and sees nothing twice.  When
    a connection without subscriptions attaches after the event [id] and
    events are emitted afterwards, then as long as it has not been dropped,
    what was queued is: a refused event per refusal; then, of the events
    emitted before it attached, exactly those on its topics after [id] when
    [id] is among the latest [size], and otherwise a reset event per topic;
    then exactly the later events on its topics; all in order. *)
Theorem resume_no_gap (h : hub) (c : nat) (x y : conn) (size : nat) (fs gs : list frame)
  authorize (req : list gostring) (at_ : Z) (id : gostring)
  (I : hub_inv h) (Hc : c ∈ conns h) (Hx : store h !! c = Some x) (Hend : ended x = false)
  (Hnone : c_topics x = ∅) (Hid : id <> [])
  (Hfs : h_replay h = fold_left (fun r f => add f r) fs (newReplay size))
  (Hy : store (emits gs (attach marshal marshal_refusal at_ c (check authorize (userID x) req).1
                           (check authorize (userID x) req).2 id h)) !! c = Some y)
  (Hok : ended y = false) :
  let ts := (check authorize (userID x) req).1 in
  let refused := (check authorize (userID x) req).2 in
  queue y = queue x
    ++ replayed (map (fun r => ownEvent marshal at_ (r_topic r) typeRefused (marshal_refusal (r_err r))) refused)
    ++ replayed (match after_last id (latest size fs) with
                 | Some missed => on_topics ts missed
                 | None => map (fun t => ownEvent marshal at_ t typeReset []) ts
                 end)
    ++ lived (on_topics ts gs).
Proof.
  set (ts := (check authorize (userID x) req).1) in *. set (refused := (check authorize (userID x) req).2) in *.
  cbn zeta. set (own := map _ refused).
  destruct (attach_inv marshal marshal_refusal at_ c ts refused id h (userID x)) as [I1 Qt];
    [done|by rewrite Hx|apply check_rule|done|].
  assert (Hon : forall l, on_set (list_to_set ts ∪ ∅) l = on_topics ts l).
  { intros l. unfold on_set, on_topics. apply List.filter_ext. intros f.
    apply bool_decide_ext. set_solver. }
  assert (c ∈ conns (attach marshal marshal_refusal at_ c ts refused id h)) as [z Hz]%(inv_known _ I1)
    by by rewrite (quiet_conns _ _ Qt).
  destruct (emits_more gs _ c z I1 Hz) as (y' & Hy' & St & M).
  assert (y' = y) as -> by congruence. destruct (M Hok) as (_ & _ & _ & E).
  assert (Ez : ended z = false) by (destruct (ended z); [rewrite St in Hok|]; done).
  pose proof (attachLocked_more h c x size fs at_ ts refused id Hx Hend Hid Hfs) as A.
  unfold attach in Hz. destruct (attachLocked _ _ _ _ _ _ _ _) as [h1 o]. cbn [fst snd] in A. destruct o.
  - exfalso. rewrite dropLocked_store in Hz. apply alter_Some in Hz as [[_ (x' & _ & ->)]|[? _]]; [|done].
    unfold drop_conn in Ez. by rewrite end_ended in Ez.
  - destruct (A eq_refl) as (z' & Hz' & T & Q). assert (z' = z) as -> by congruence.
    rewrite E, T, Q, Hnone, Hon. by rewrite <- !app_assoc.
Qed.
End resume.

(** *** An example run *)

Definition g_example : hub_config := {| SendBuffer := 2; ReplaySize := 3; MaxSubscriptions := 4 |}.
Definition marshal_example (ev : Event) : gostring := ev_Data ev.
Definition auth_example : option (gostring -> auth_answer) := Some (fun _ => Allowed).

(** One user connects. *)
Definition hub1 : hub :=
  (register 0 (newConn g_example kindWS (str "ann") None) (newHub g_example (str "ab12"))).1.

(** Asks for her topic, another's, and a room. *)
Definition asked : list gostring := [str "user:ann"; str "user:bob"; str "room"].
Definition hub2 : hub :=
  attach marshal_example Reason 5 0 (check auth_example (str "ann") asked).1
    (check auth_example (str "ann") asked).2 [] hub1.

Definition hub3 : hub := (Send marshal_example 6 (str "ann") (str "ping") (Some (str "1")) hub2).1.

Lemma hub3_reachable : rtc (hub_step marshal_example Reason) (newHub g_example (str "ab12")) hub3.
Proof.
  apply (rtc_l _ _ hub1); [apply st_register; reflexivity|].
  apply (rtc_l _ _ hub2); [|apply rtc_once, st_publish].
  eapply (st_attach _ _ hub1 0 (newConn g_example kindWS (str "ann") None) auth_example asked).
  - apply (bool_decide_unpack _). vm_compute. exact Logic.I.
  - reflexivity.
Qed.

Lemma hub_invariant_witness :
  default 0 (users hub3 !! str "ann") = user_count hub3 (str "ann").
Proof. by apply (hub_invariant marshal_example Reason g_example (str "ab12") hub3 hub3_reachable). Defined.

Lemma hub_private_witness :
  exists x, store hub3 !! 0%nat = Some x /\ map (fun q => f_topic (q_f q)) (queue x) = [str "user:bob"; str "user:ann"]
    /\ forall id, (own_topic_prefix ++ id) ∈ c_topics x -> userID x = id /\ id <> [].
Proof.
  destruct (store hub3 !! 0%nat) as [x|] eqn:E; [|vm_compute in E; discriminate].
  exists x. split; [done|]. split.
  - assert (Some (map (fun q => f_topic (q_f q)) (queue x)) = Some [str "user:bob"; str "user:ann"]) as [=]; [|done].
    change (Some (map (fun q => f_topic (q_f q)) (queue x)))
      with (option_map (fun x => map (fun q => f_topic (q_f q)) (queue x)) (Some x)).
    rewrite <- E. vm_compute. reflexivity.
  - apply (hub_private marshal_example Reason g_example (str "ab12") hub3 0 x hub3_reachable E).
Defined.

Definition news : frame := Frame (str "x-1") (str "room") (str "news") (str "2").

Lemma emit_delivers_witness :
  exists x y, store hub2 !! 0%nat = Some x /\ store (emit news hub2).1 !! 0%nat = Some y
    /\ (if decide (f_topic news ∈ c_topics x) then
          if ended x then y = x
          else if decide (live x < limit x /\ Z.of_nat (length (queue x)) < cap x)
               then ended y = false /\ queue y = queue x ++ [Queued news true] /\ c_topics y = c_topics x
               else ended y = true /\ code y = closeSlow /\ queue y = [] /\ c_topics y = ∅
        else y = x).
Proof.
  destruct (store hub2 !! 0%nat) as [x|] eqn:E; [|vm_compute in E; discriminate].
  exists x. assert (I : hub_inv hub2).
  { apply (attach_inv marshal_example Reason 5 0 _ _ [] hub1 (str "ann"));
      [apply (bool_decide_unpack _); vm_compute; exact Logic.I|reflexivity|apply check_rule|].
    apply (hub_step_inv marshal_example Reason (newHub g_example (str "ab12"))); [|apply newHub_inv].
    apply st_register. reflexivity. }
  destruct (emit_delivers news hub2 0 x I E) as (y & Hy & H). by exists y.
Defined.

(** The room's past, and a connection that resumes after its first event. *)
Definition past : list frame := [Frame (str "x-0") (str "room") (str "news") (str "0"); news].
Definition hub4 : hub := set_replay hub1 (fold_left (fun r f => add f r) past (newReplay 3)).

Lemma resume_no_gap_witness :
  exists y, store (emits [news] (attach marshal_example Reason 5 0 (check auth_example (str "ann") [str "room"]).1
      (check auth_example (str "ann") [str "room"]).2 (str "x-0") hub4)) !! 0%nat = Some y
    /\ queue y = [Queued news false; Queued news true].
Proof.
  destruct (store (emits [news] (attach marshal_example Reason 5 0 (check auth_example (str "ann") [str "room"]).1
      (check auth_example (str "ann") [str "room"]).2 (str "x-0") hub4)) !! 0%nat) as [y|] eqn:E;
    [|vm_compute in E; discriminate].
  exists y. split; [done|].
  assert (I : hub_inv hub4).
  { apply set_replay_inv, (hub_step_inv marshal_example Reason (newHub g_example (str "ab12"))); [|apply newHub_inv].
    apply st_register. reflexivity. }
  apply (resume_no_gap marshal_example Reason hub4 0 (newConn g_example kindWS (str "ann") None) y 3 past [news]
    auth_example [str "room"] 5 (str "x-0") I); try done.
  assert (option_map ended (Some y) = Some false) as [= ->]; [|done]. rewrite <- E. vm_compute. reflexivity.
Defined.
