(* ===== verification/Utf8.v ===== *)
(** unicode/utf8.ValidString, of the standard library: the well-formed byte
    sequences of UTF-8 (RFC 3629), and where a valid string can be cut. *)

From Stdlib Require Import ZArith Lia Ascii List.
From stdpp Require Import base decidable list.
From S2P Require Import Prelude GoStrings.

(** The bytes that may continue a rune after its first byte. *)
Definition cont (lo hi : Z) (c : ascii) : bool := (lo <=? byte_val c) && (byte_val c <=? hi).

(** How many bytes follow a rune's first byte, and the range of the first of
    them; [None] for a byte that starts no rune. *)
Definition rune_start (c : ascii) : option (nat * (Z * Z)) :=
  let b := byte_val c in
  if b <? 0x80 then Some (0%nat, (0, 0))
  else if b <? 0xC2 then None
  else if b <? 0xE0 then Some (1%nat, (0x80, 0xBF))
  else if b =? 0xE0 then Some (2%nat, (0xA0, 0xBF))
  else if b =? 0xED then Some (2%nat, (0x80, 0x9F))
  else if b <? 0xF0 then Some (2%nat, (0x80, 0xBF))
  else if b =? 0xF0 then Some (3%nat, (0x90, 0xBF))
  else if b <? 0xF4 then Some (3%nat, (0x80, 0xBF))
  else if b =? 0xF4 then Some (3%nat, (0x80, 0x8F))
  else None.

(** A string of whole runes: [k] bytes of the rune begun are missing, the
    next of them between [lo] and [hi]. *)
Fixpoint runes (k : nat) (lo hi : Z) (s : gostring) : bool :=
  match k, s with
  | O, [] => true
  | S _, [] => false
  | O, c :: s' => match rune_start c with Some (k', (lo', hi')) => runes k' lo' hi' s' | None => false end
  | S k', c :: s' => cont lo hi c && runes k' 0x80 0xBF s'
  end.

Definition ValidString (s : gostring) : bool := runes 0 0 0 s.

Lemma rune_start_short c k r : rune_start c = Some (k, r) -> (k <= 3)%nat.
Proof. unfold rune_start. intros E. repeat case_match; simplify_eq; lia. Qed.

(** [k] missing bytes end the rune. *)
Lemma runes_rest k lo hi s : runes k lo hi s = true ->
  (k <= length s)%nat /\ ValidString (drop k s) = true.
Proof.
  revert lo hi s. induction k as [|k IH]; intros lo hi s H.
  - split; [lia|]. rewrite drop_0. by destruct s.
  - destruct s as [|c s]; [done|]. cbn in *. apply andb_true_iff in H as [_ H].
    destruct (IH _ _ _ H). split; [lia|done].
Qed.

Lemma runes_take k lo hi s n : runes k lo hi s = true -> (k <= n)%nat ->
  runes k lo hi (take n s) = ValidString (take (n - k) (drop k s)).
Proof.
  revert lo hi s n. induction k as [|k IH]; intros lo hi s n H L.
  - rewrite drop_0, Nat.sub_0_r. by destruct (take n s).
  - destruct s as [|c s]; [done|]. destruct n as [|n]; [lia|]. cbn in *. apply andb_true_iff in H as [-> H].
    cbn. apply IH; [done|lia].
Qed.

(** Every cut of a valid string is at most three bytes past a rune's end. *)
Lemma valid_cut s n : ValidString s = true -> (n <= length s)%nat ->
  exists m, (m <= n <= m + 3)%nat /\ ValidString (take m s) = true.
Proof.
  remember (length s) as l eqn:E. revert s E n. induction (lt_wf l) as [l _ IH]. intros s -> n V L.
  destruct s as [|c s]; [cbn in L; exists 0%nat; split; [lia|done]|].
  destruct n as [|n]; [exists 0%nat; split; [lia|done]|]. unfold ValidString in V. cbn in V.
  destruct (rune_start c) as [[k [lo hi]]|] eqn:R; [|done].
  destruct (runes_rest _ _ _ _ V) as [Lk Vk]. apply rune_start_short in R as K3. cbn in L.
  destruct (decide (k <= n)%nat) as [Hk|Hk]; [|exists 0%nat; split; [lia|done]].
  destruct (IH (length (drop k s))) with (s := drop k s) (n := (n - k)%nat) as (m & Hm & Vm); [|done|done| |].
  - rewrite length_drop. cbn. lia.
  - rewrite length_drop. lia.
  - exists (S (k + m)). split; [lia|]. unfold ValidString. cbn. rewrite R, (runes_take _ _ _ _ _ V) by lia.
    by replace (k + m - k)%nat with m by lia.
Qed.
