(* ===== verification/JobsStore.v ===== *)
(** jobs/message.go, state.go, the queries of relay.go and core.go: the
    tables of the jobs, watermarks, and the world a worker runs in.

    The database is a table of rows under their ids; a query means what its
    SQL says: the rows that satisfy WHERE, in the order of ORDER BY, after
    OFFSET, at most LIMIT.  Each call of the database is a moment at which
    other transactions may have committed and at which the call may fail. *)

From Stdlib Require Import ZArith Lia List Ascii Sorted.
From stdpp Require Import base decidable list gmap strings sorting.
From S2P Require Import Prelude GoStrings GoTime.

(** ** Rows (message.go) *)

Record message := Message {
  ID : Z; CreatedAt : Z; Topic : gostring; Payload : gostring;
  Attempts : Z; RetryAt : option Z; LastError : gostring; CompletedAt : option Z;
}.

Record deadRow := DeadRow {
  d_ID : Z; d_Topic : gostring; d_Payload : gostring; d_CreatedAt : Z;
  d_ParkedAt : Z; d_Attempts : Z; d_LastError : gostring;
}.

(** [rawMessage]: what the handler gets. *)
Record rawMessage := RawMessage {
  rm_ID : Z; rm_Topic : gostring; rm_Payload : gostring; rm_CreatedAt : Z; rm_Attempt : Z;
}.

Definition toMessage (m : message) : rawMessage :=
  {| rm_ID := ID m; rm_Topic := Topic m; rm_Payload := Payload m; rm_CreatedAt := CreatedAt m;
     rm_Attempt := Attempts m + 1 |}.

(** [DeadMessage] and [toDead]. *)
Definition toDead (r : deadRow) : deadRow := r.

Definition maxTopicLen : Z := 200.

(** [checkTopic]: [true] is its nil. *)
Definition checkTopic (topic : gostring) : bool :=
  negb (seq_eqb topic [] || (maxTopicLen <? Z.of_nat (length topic))).

(** ** Watermarks (state.go) *)

Record watermark := Watermark { At : Z; wID : Z; ok : bool }.

Definition no_watermark : watermark := Watermark zero_time 0 false.

Definition covers (w : watermark) (at_ id : Z) : bool :=
  if negb (ok w) then false
  else if at_ <? At w then true
  else (at_ =? At w) && (id <=? wID w).

Definition after (w : watermark) (at_ id : Z) : bool := negb (covers w at_ id).

(** ** Queries *)

(** The delivery order: created_at, then id. *)
Definition pos_le (a b : message) : Prop := CreatedAt a < CreatedAt b \/ (CreatedAt a = CreatedAt b /\ ID a <= ID b).

#[global] Instance pos_le_dec : RelDecision pos_le.
Proof. intros a b. unfold pos_le. apply _. Defined.

Definition in_order (l : list message) : list message := merge_sort pos_le l.

Notation table := (gmap Z message).

Definition rows (t : table) : list message := map snd (map_to_list t).

(** SELECT ... WHERE p ORDER BY created_at, id LIMIT n OFFSET k. *)
Definition select (p : message -> bool) (offset limit : nat) (t : table) : list message :=
  take limit (drop offset (in_order (List.filter p (rows t)))).

Definition is_pending (m : message) : bool := match CompletedAt m with None => true | Some _ => false end.

(** The scope of a worker's queries, and their conditions. *)
Definition of_topic (topic : gostring) (m : message) : bool := seq_eqb (Topic m) topic.

Definition where_behind (topic : gostring) (w : watermark) (m : message) : bool :=
  of_topic topic m && is_pending m
  && ((CreatedAt m <? At w) || ((CreatedAt m =? At w) && (ID m <=? wID w))).

Definition where_boundary (topic : gostring) (at_ lastID : Z) (m : message) : bool :=
  of_topic topic m && ((CreatedAt m =? at_) && (ID m >? lastID)).

Definition where_beyond (topic : gostring) (ts : Z) (m : message) : bool :=
  of_topic topic m && (CreatedAt m >? ts).

Definition where_from (topic : gostring) (ts : Z) (m : message) : bool :=
  of_topic topic m && (IsZero ts || (CreatedAt m >=? ts)).

(** ** The world *)

Record headState := HeadState { attempts : Z; next : Z }.
Record backlogState := BacklogState { pending : Z; oldest : Z }.

Definition no_head : headState := HeadState 0 zero_time.

(** How a call of the handler ended. *)
Inductive delivery := Taken | Failed | Parked | Stopped.

(** The database, the worker's counters and Stats, and, as a record of the
    past, the handler's calls.  [tick] counts the moments. *)
Record world := World {
  tick : nat;
  messages : table;
  dead : gmap Z deadRow;
  watermarks : gmap gostring watermark;
  head : headState;
  backlog : backlogState;
  delivered : Z;
  parked : Z;
  calls : list (Z * delivery);
}.

Definition set_messages (t : table) (s : world) : world :=
  {| tick := tick s; messages := t; dead := dead s; watermarks := watermarks s; head := head s;
     backlog := backlog s; delivered := delivered s; parked := parked s; calls := calls s |}.

Definition set_dead (d : gmap Z deadRow) (s : world) : world :=
  {| tick := tick s; messages := messages s; dead := d; watermarks := watermarks s; head := head s;
     backlog := backlog s; delivered := delivered s; parked := parked s; calls := calls s |}.

Definition set_watermarks (w : gmap gostring watermark) (s : world) : world :=
  {| tick := tick s; messages := messages s; dead := dead s; watermarks := w; head := head s;
     backlog := backlog s; delivered := delivered s; parked := parked s; calls := calls s |}.

Definition set_head (h : headState) (s : world) : world :=
  {| tick := tick s; messages := messages s; dead := dead s; watermarks := watermarks s; head := h;
     backlog := backlog s; delivered := delivered s; parked := parked s; calls := calls s |}.

Definition set_backlog (b : backlogState) (s : world) : world :=
  {| tick := tick s; messages := messages s; dead := dead s; watermarks := watermarks s; head := head s;
     backlog := b; delivered := delivered s; parked := parked s; calls := calls s |}.

Definition set_counts (dl pk : Z) (s : world) : world :=
  {| tick := tick s; messages := messages s; dead := dead s; watermarks := watermarks s; head := head s;
     backlog := backlog s; delivered := dl; parked := pk; calls := calls s |}.

Definition log_call (id : Z) (d : delivery) (s : world) : world :=
  {| tick := tick s; messages := messages s; dead := dead s; watermarks := watermarks s; head := head s;
     backlog := backlog s; delivered := delivered s; parked := parked s; calls := calls s ++ [(id, d)] |}.

Section moments.
(** What transactions of others do to the messages before each moment, and
    which of the worker's calls fail. *)
Context (others : nat -> table -> table) (db_fails : nat -> bool).

(** The next moment: others have committed changes to messages.  Their changes to
    dead letters - an operator's replay or discard - are not among these; see
    the operations on dead letters for those. *)
Definition advance (s : world) : world :=
  {| tick := S (tick s); messages := others (tick s) (messages s); dead := dead s; watermarks := watermarks s;
     head := head s; backlog := backlog s; delivered := delivered s; parked := parked s; calls := calls s |}.

(** A read of the database, [None] when it fails. *)
Definition read {A} (f : world -> A) (s : world) : world * option A :=
  let s := advance s in (s, if db_fails (tick s) then None else Some (f s)).

(** A write, in one transaction: it happens or it does not. *)
Definition write_db (f : world -> world) (s : world) : world * bool :=
  let s := advance s in if db_fails (tick s) then (s, false) else (f s, true).

(** ** The watermark store (state.go) *)

Definition load (topic : gostring) (s : world) : world * option watermark :=
  read (fun s => default no_watermark (watermarks s !! topic)) s.

(** [save], [false] for its error; it refuses a zero watermark. *)
Definition save (topic : gostring) (w : watermark) (s : world) : world * bool :=
  if negb (ok w) then (s, false)
  else write_db (fun s => set_watermarks (<[topic := Watermark (At w) (wID w) true]> (watermarks s)) s) s.

(** [all]. *)
Definition all_watermarks (s : world) : world * option (gmap gostring watermark) := read watermarks s.
End moments.

(** ** Positions *)

#[global] Instance pos_le_trans : Transitive pos_le.
Proof. intros a b c. unfold pos_le. lia. Qed.

#[global] Instance pos_le_total : Total pos_le.
Proof. intros a b. unfold pos_le. lia. Qed.

Lemma pos_le_refl a : pos_le a a.
Proof. unfold pos_le. lia. Qed.

Lemma in_order_sorted l : StronglySorted pos_le (in_order l).
Proof. apply (StronglySorted_merge_sort pos_le). Qed.

Lemma in_order_perm l : in_order l ≡ₚ l.
Proof. apply merge_sort_Permutation. Qed.

Lemma elem_of_select p offset limit t m : m ∈ select p offset limit t -> m ∈ rows t /\ p m = true.
Proof.
  unfold select. intros H. apply elem_of_take in H as (i & H & _).
  apply list_elem_of_lookup_2 in H.
  assert (H2 : m ∈ in_order (List.filter p (rows t))).
  { rewrite <- (take_drop offset (in_order _)). by apply elem_of_app; right. }
  rewrite in_order_perm in H2. rewrite list_elem_of_In, filter_In, <- list_elem_of_In in H2. done.
Qed.

(** Rows under their own ids. *)
Definition keyed (t : table) : Prop := forall id m, t !! id = Some m -> ID m = id.

Lemma elem_of_rows t m : keyed t -> m ∈ rows t <-> t !! ID m = Some m.
Proof.
  intros K. unfold rows. rewrite list_elem_of_fmap. split.
  - intros ((id, m') & -> & H). apply elem_of_map_to_list in H. cbn. by rewrite (K id m' H).
  - intros H. exists (ID m, m). split; [done|]. by apply elem_of_map_to_list.
Qed.
