(* ===== verification/Relay.v ===== *)
(** jobs/relay.go: a worker's sweep over its topic. *)

From Stdlib Require Import ZArith Lia List Ascii.
From stdpp Require Import base decidable list gmap strings.
From S2P Require Import Prelude GoStrings GoTime Utf8 JobsStore.

(** ** The retry policy *)

Record retryPolicy := RetryPolicy { maxAttempts : Z; backoff : Z; maxBackoff : Z }.

(** The loop of [delay]: [k] rounds are left, [None] is its early return. *)
Fixpoint delay_loop (maxB : Z) (k : nat) (d : Z) : Z :=
  match k with
  | O => Z.min d maxB
  | S k' => if d <? maxB
            then if d >? Z.quot maxB 2 then maxB else delay_loop maxB k' (int64 (d * 2))
            else Z.min d maxB
  end.

(** [delay] after the [n]-th failure. *)
Definition delay (p : retryPolicy) (n : Z) : Z := delay_loop (maxBackoff p) (Z.to_nat (n - 1)) (backoff p).

(** ** Error texts *)

Definition maxErrorLen : nat := 2000.

(** The loop of [errorText]: bytes go from the end until what is left is
    valid UTF-8. *)
Fixpoint cut_back (fuel : nat) (s : gostring) : gostring :=
  match fuel with
  | O => s
  | S fuel' => if (0 <? length s)%nat && negb (ValidString s) then cut_back fuel' (take (length s - 1) s) else s
  end.

Definition errorText (s : gostring) : gostring :=
  if (length s <=? maxErrorLen)%nat then s
  else cut_back maxErrorLen (take maxErrorLen s).

(** ** Errors *)

(** The handler's error: its text, whether it is a cancellation
    ([context.Canceled] or [context.DeadlineExceeded]) and whether the payload
    did not decode. *)
Record handler_error := HandlerError { he_text : gostring; he_cancelled : bool; he_undecodable : bool }.

Inductive handler_result := HOk | HErr (e : handler_error) | HPanic (text : gostring).

Inductive relay_error :=
| ESweepRunning
| ERetryLater
| EStopped                       (* the sweep's context has ended *)
| EHandlerStopped (e : handler_error)
| EDatabase
| EFailed (id attempt : Z) (e : handler_error).

Record scanPos := ScanPos { ts : Z; offset : nat }.

(** A step of a sweep: it changes the world, and may fail. *)
Definition step (A : Type) : Type := world -> world * result relay_error A.

Definition ret {A} (a : A) : step A := fun s => (s, Ok a).
Definition fail_with {A} (e : relay_error) : step A := fun s => (s, Err e).
Definition bind {A B} (m : step A) (f : A -> step B) : step B := fun s =>
  let '(s, r) := m s in match r with Ok a => f a s | Err e => (s, Err e) end.

Notation "'do!' x '<-' m 'in' k" := (bind m (fun x => k))
  (at level 10, x name, m at level 100, k at level 200) : go_scope.

Section relay.
(** The database's other users, its failures, the clock, whether a stop has
    begun, the handler, and whether the handler's time has run out when it
    returns, each at a moment. *)
Context (others : nat -> table -> table) (db_fails : nat -> bool) (now : nat -> Z) (stopped : nat -> bool)
  (handler : nat -> rawMessage -> handler_result) (deadline : nat -> bool).

(** The fields of [relay] that do not change. *)
Context (topic : gostring) (retry : retryPolicy) (settle : Z) (batch maxPages : nat).

(** ** One message *)

(** [call]: the handler's error, with a timeout of its own. *)
Definition call_ (m : rawMessage) (s : world) : world * option handler_error :=
  let r := handler (tick s) m in
  let s := advance others s in
  let timedOut := negb (stopped (tick s)) && deadline (tick s) in
  let err := match r with
             | HOk => None
             | HErr e => Some e
             | HPanic t => Some (HandlerError (str "panic: " ++ t) false false)
             end in
  (s, if negb timedOut then err
      else match err with
           | None => Some (HandlerError (str "jobs: the handler ran past handler_timeout") false false)
           | Some e => Some (HandlerError (str "jobs: the handler ran past handler_timeout: " ++ he_text e)
                               (he_cancelled e) (he_undecodable e))
           end).

Definition update_message (id : Z) (f : message -> message) (s : world) : world :=
  set_messages (alter f id (messages s)) s.

(** [complete]. *)
Definition acknowledge (at_ : Z) (m : message) : message :=
  if is_pending m
  then {| ID := ID m; CreatedAt := CreatedAt m; Topic := Topic m; Payload := Payload m; Attempts := Attempts m;
          RetryAt := RetryAt m; LastError := LastError m; CompletedAt := Some at_ |}
  else m.

Definition complete (id : Z) (s : world) : world * bool :=
  write_db others db_fails (fun s => update_message id (acknowledge (now (tick s))) s) s.

(** [fail]. *)
Definition failed_row (n : Z) (retryAt : option Z) (text : gostring) (m : message) : message :=
  {| ID := ID m; CreatedAt := CreatedAt m; Topic := Topic m; Payload := Payload m; Attempts := n;
     RetryAt := retryAt; LastError := text; CompletedAt := CompletedAt m |}.

Definition fail_ (row : message) (n : Z) (cause : handler_error) : step unit := fun s =>
  let d := delay retry n in
  let next := if d >? 0 then now (tick s) + d else zero_time in
  let retryAt := if d >? 0 then Some next else None in
  let '(s, done_) := write_db others db_fails
    (fun s => update_message (ID row) (failed_row n retryAt (errorText (he_text cause))) s) s in
  let s := log_call (ID row) Failed s in
  if negb done_ then (s, Err EDatabase)
  else (set_head (HeadState n next) s, Err (EFailed (ID row) n cause)).

(** [park]: the dead letter and the row's last failure in one transaction. *)
Definition parked_row (n parkedAt : Z) (text : gostring) (m : message) : message :=
  {| ID := ID m; CreatedAt := CreatedAt m; Topic := Topic m; Payload := Payload m; Attempts := n;
     RetryAt := None; LastError := text; CompletedAt := Some parkedAt |}.

Definition dead_of (row : message) (n parkedAt : Z) (text : gostring) : deadRow :=
  {| d_ID := ID row; d_Topic := Topic row; d_Payload := Payload row; d_CreatedAt := CreatedAt row;
     d_ParkedAt := parkedAt; d_Attempts := n; d_LastError := text |}.

Definition park (row : message) (n : Z) (cause : handler_error) : step unit := fun s =>
  let text := errorText (he_text cause) in
  let parkedAt := now (tick s) in
  let '(s, done_) := write_db others db_fails (fun s =>
    let d := match dead s !! ID row with
             | Some _ => dead s   (* ON CONFLICT DO NOTHING *)
             | None => <[ID row := dead_of row n parkedAt text]> (dead s)
             end in
    update_message (ID row) (parked_row n parkedAt text) (set_dead d s)) s in
  if negb done_ then (log_call (ID row) Failed s, Err EDatabase)
  else
    let s := log_call (ID row) Parked s in
    (set_counts (delivered s) (parked s + 1) s, Ok tt).

(** [attempt]. *)
Definition attempt (row : message) : step unit := fun s =>
  let due := match RetryAt row with Some t => negb (t >? now (tick s)) | None => true end in
  if negb due then
    (set_head (HeadState (Attempts row) (default zero_time (RetryAt row))) s, Err ERetryLater)
  else if stopped (tick s) then (s, Err EStopped)
  else
    let '(s, err) := call_ (toMessage row) s in
    match err with
    | None =>
        let s := log_call (ID row) Taken s in
        let '(s, done_) := complete (ID row) s in
        if negb done_ then (s, Err EDatabase) else (set_counts (delivered s + 1) (parked s) s, Ok tt)
    | Some e =>
        if stopped (tick s) && he_cancelled e then (log_call (ID row) Stopped s, Err (EHandlerStopped e))
        else
          let n := Attempts row + 1 in
          if he_undecodable e || (n >=? maxAttempts retry) then park row n e s else fail_ row n e s
    end.

(** [deliver]: the candidate it leaves is returned in either case. *)
Definition deliver (row : message) (cutoff : Z) (cand : watermark) (s : world)
  : world * (watermark * option relay_error) :=
  let '(s, r) := (if is_pending row then attempt row s else (s, Ok tt)) in
  match r with
  | Err e => (s, (cand, Some e))
  | Ok _ => (s, (if negb (CreatedAt row >? cutoff) then Watermark (CreatedAt row) (ID row) true else cand, None))
  end.

(** The loops over a page: up to the first error. *)
Fixpoint attempt_all (page : list message) : step unit :=
  match page with
  | [] => ret tt
  | row :: page' => do! _ <- attempt row in attempt_all page'
  end.

Fixpoint deliver_all (page : list message) (cutoff : Z) (cand : watermark) (s : world)
  : world * (watermark * option relay_error) :=
  match page with
  | [] => (s, (cand, None))
  | row :: page' =>
      let '(s, (cand, e)) := deliver row cutoff cand s in
      match e with
      | Some e => (s, (cand, Some e))
      | None => deliver_all page' cutoff cand s
      end
  end.

(** ** The sweep *)

(** [persist]: the stored watermark as the sweep knows it. *)
Definition persist (w cand : watermark) (s : world) : world * watermark :=
  if negb (ok cand) || negb (after w (At cand) (wID cand)) then (s, w)
  else
    let '(s, done_) := save others db_fails topic cand s in
    (s, if done_ then cand else w).

Definition query (p : message -> bool) (off limit : nat) : step (list message) := fun s =>
  let '(s, r) := read others db_fails (fun s => select p off limit (messages s)) s in
  (s, match r with Some l => Ok l | None => Err EDatabase end).

(** The pending rows behind the watermark, for at most [pages] pages; the
    pages left. *)
Fixpoint lookbehind (pages : nat) (w : watermark) : step nat :=
  match pages with
  | O => ret O
  | S pages' =>
      do! page <- query (where_behind topic w) 0 batch in
      match page with
      | [] => ret pages
      | _ => do! _ <- attempt_all page in lookbehind pages' w
      end
  end.

(** What the scanning stages carry: the stored watermark and the settled
    candidate.  A failing stage persists the candidate first. *)
Definition fail_after {A} (w cand : watermark) (e : relay_error) : step A := fun s =>
  let '(s, _) := persist w cand s in (s, Err e).

(** [page]: the loop body's end, after a page was fetched. *)
Definition deliver_page {A} (page : list message) (cutoff : Z) (w cand : watermark)
  (k : watermark -> watermark -> step A) : step A := fun s =>
  let '(s, (cand, e)) := deliver_all page cutoff cand s in
  let '(s, w) := persist w cand s in
  match e with
  | Some e => (s, Err e)
  | None => k w cand s
  end.

(** Stage 1: the rest of the watermark's own timestamp, by id. *)
Fixpoint stage1 (pages : nat) (bAt lastID cutoff : Z) (w cand : watermark)
  : step (nat * (watermark * watermark)) :=
  match pages with
  | O => ret (O, (w, cand))
  | S pages' => fun s =>
      if stopped (tick s) then fail_after w cand EStopped s
      else
        let '(s, r) := query (where_boundary topic bAt lastID) 0 batch s in
        match r with
        | Err e => fail_after w cand e s
        | Ok page =>
            let lastID := match last page with Some m => ID m | None => lastID end in
            deliver_page page cutoff w cand (fun w cand =>
              if (length page <? batch)%nat then ret (pages', (w, cand))
              else stage1 pages' bAt lastID cutoff w cand) s
        end
  end.

(** [scanForward]. *)
Definition scanForward (pos : scanPos) (limit : nat) (strict : bool) : step (list message) :=
  if strict then query (where_beyond topic (ts pos)) 0 limit
  else query (where_from topic (ts pos)) (offset pos) limit.

(** The cursor after a row. *)
Definition advance_pos (pos : scanPos) (row : message) : scanPos :=
  if CreatedAt row =? ts pos then ScanPos (ts pos) (S (offset pos)) else ScanPos (CreatedAt row) 1.

(** Stage 2: beyond it; the flag says that the topic is drained. *)
Fixpoint stage2 (pages : nat) (pos : scanPos) (strict : bool) (cutoff : Z) (w cand : watermark)
  : step (bool * (watermark * watermark)) :=
  match pages with
  | O => ret (false, (w, cand))
  | S pages' => fun s =>
      if stopped (tick s) then fail_after w cand EStopped s
      else
        let '(s, r) := scanForward pos batch strict s in
        match r with
        | Err e => fail_after w cand e s
        | Ok [] => (s, Ok (true, (w, cand)))
        | Ok items =>
            deliver_page items cutoff w cand (fun w cand =>
              if (length items <? batch)%nat then ret (true, (w, cand))
              else stage2 pages' (fold_left advance_pos items pos) false cutoff w cand) s
        end
  end.

(** [frontier]: the newest position at or before the cutoff, over every
    topic. *)
Definition frontier (cutoff : Z) : world -> world * option watermark :=
  read others db_fails (fun s =>
    match last (in_order (List.filter (fun m => CreatedAt m <=? cutoff) (rows (messages s)))) with
    | Some m => Watermark (CreatedAt m) (ID m) true
    | None => no_watermark
    end).

(** [sweep]. *)
Definition sweep : step unit := fun s =>
  let '(s, r) := load others db_fails topic s in
  match r with
  | None => (s, Err EDatabase)
  | Some w =>
      let cutoff := now (tick s) - settle in
      (do! pages <- (if ok w then lookbehind maxPages w else ret maxPages) in
       do! st <- (if ok w then stage1 pages (At w) (wID w) cutoff w w else ret (pages, (w, w))) in
       do! fin <- stage2 st.1 (ScanPos (At w) 0) (ok w) cutoff st.2.1 st.2.2 in
       fun s =>
         let '(s, cand) :=
           (if fin.1 : bool then
              let '(s, f) := frontier cutoff s in
              match f with
              | Some f => (s, if ok f && after fin.2.2 (At f) (wID f) then f else fin.2.2)
              | None => (s, fin.2.2)
              end
            else (s, fin.2.2)) in
         let '(s, _) := persist fin.2.1 cand s in (s, Ok tt)) s
  end.

(** [countBacklog], [None] when Stats keep the count before. *)
Definition countBacklog (s : world) : world * option backlogState :=
  if stopped (tick s) then (s, None)
  else
    read others db_fails (fun s =>
      let l := in_order (List.filter (fun m => of_topic topic m && is_pending m) (rows (messages s))) in
      BacklogState (Z.of_nat (length l)) (match l with m :: _ => CreatedAt m | [] => zero_time end)) s.

(** [run]: one sweep, unless another holds the lock. *)
Definition run (locked : bool) : step unit := fun s =>
  if locked then (s, Err ESweepRunning)
  else
    let '(s, r) := sweep (set_head no_head s) in
    let '(s, b) := countBacklog s in
    (match b with Some b => set_backlog b s | None => s end, r).
End relay.
