(* ===== verification/RelaySafe.v ===== *)
(** What a sweep never does, whatever other transactions commit, whichever
    calls of the database fail and whenever a stop begins. *)

From Stdlib Require Import ZArith Lia List Ascii.
From stdpp Require Import base decidable list gmap strings.
From S2P Require Import Prelude GoStrings GoTime JobsStore Relay.

(** ** The database's other users

    A pending message of theirs stays as it is until a worker is done with
    it; a completed one may be cleaned up; new ones are pending. *)
Definition others_ok (others : nat -> table -> table) : Prop :=
  forall n t id,
    (forall m, t !! id = Some m -> is_pending m = true -> others n t !! id = Some m)
    /\ (forall m, others n t !! id = Some m -> is_pending m = false -> t !! id = Some m).

(** What identifies a message and what it carries. *)
Definition content (m : message) : Z * Z * gostring * gostring := (ID m, CreatedAt m, Topic m, Payload m).

(** A handler's call after which the topic moves on. *)
Definition settled (c : Z * delivery) : Prop := c.2 = Taken \/ c.2 = Parked.

(** The handler took the message, or it is parked in the dead letters. *)
Definition handled (id : Z) (new : list (Z * delivery)) (s' : world) : Prop :=
  (id, Taken) ∈ new \/ ((id, Parked) ∈ new /\ is_Some (dead s' !! id)).

(** From [s] to [s'], with the handler's calls [new] between. *)
Record sound (s : world) (new : list (Z * delivery)) (s' : world) : Prop := {
  sound_calls : calls s' = calls s ++ new;
  sound_done : forall id m', messages s' !! id = Some m' -> is_pending m' = false ->
    (exists m, messages s !! id = Some m /\ is_pending m = false) \/ handled id new s';
  sound_kept : forall id m, messages s !! id = Some m -> is_pending m = true ->
    (exists m', messages s' !! id = Some m' /\ is_pending m' = true /\ content m' = content m)
    \/ handled id new s';
  sound_dead : dead s ⊆ dead s';
}.

(** How a step that ended in [r] may have called the handler: after a call
    that did not settle its message it has failed, and called no more. *)
Definition orderly {A} (new : list (Z * delivery)) (r : result relay_error A) : Prop :=
  exists good bad, new = good ++ bad /\ Forall settled good /\ (length bad <= 1)%nat /\ (is_ok r = true -> bad = []).

Lemma handled_mono id new l1 l2 s s' : dead s ⊆ dead s' -> handled id new s -> handled id (l1 ++ new ++ l2) s'.
Proof.
  intros X [H|[H [d Hd]]]; [left|right; split].
  - apply elem_of_app; right. by apply elem_of_app; left.
  - apply elem_of_app; right. by apply elem_of_app; left.
  - exists d. by eapply lookup_weaken.
Qed.

Lemma sound_refl s : sound s [] s.
Proof. split; eauto. by rewrite app_nil_r. Qed.

Lemma sound_trans s1 l1 s2 l2 s3 : sound s1 l1 s2 -> sound s2 l2 s3 -> sound s1 (l1 ++ l2) s3.
Proof.
  intros [C1 D1 K1 X1] [C2 D2 K2 X2].
  assert (H1 : forall id, handled id l1 s2 -> handled id (l1 ++ l2) s3)
    by (intros id H; apply (handled_mono id l1 [] l2 s2 s3 X2 H)).
  assert (H2 : forall id, handled id l2 s3 -> handled id (l1 ++ l2) s3).
  { intros id H. pose proof (handled_mono id l2 l1 [] s3 s3 (reflexivity _) H) as X. by rewrite app_nil_r in X. }
  split.
  - by rewrite C2, C1, app_assoc.
  - intros id m' Hm' Hp. destruct (D2 id m' Hm' Hp) as [(m & Hm & Hpm)|H]; [|auto].
    destruct (D1 id m Hm Hpm); auto.
  - intros id m Hm Hp. destruct (K1 id m Hm Hp) as [(m1 & Hm1 & Hp1 & E1)|H]; [|auto].
    destruct (K2 id m1 Hm1 Hp1) as [(m2 & Hm2 & Hp2 & E2)|H]; [|auto]. left. exists m2. by rewrite E2.
  - by etrans.
Qed.

Section safe.
Context (others : nat -> table -> table) (db_fails : nat -> bool) (now : nat -> Z) (stopped : nat -> bool)
  (handler : nat -> rawMessage -> handler_result) (deadline : nat -> bool).
Context (topic : gostring) (retry : retryPolicy) (settle : Z) (batch maxPages : nat).
Context (Ho : others_ok others).

(** *** Moments and writes *)

Lemma advance_sound s : sound s [] (advance others s).
Proof.
  split; cbn; [by rewrite app_nil_r| | |done].
  - intros id m' H Hp. left. exists m'. split; [|done]. by apply (proj2 (Ho (tick s) (messages s) id)).
  - intros id m H Hp. left. exists m. split; [|done]. by apply (proj1 (Ho (tick s) (messages s) id)).
Qed.

Lemma read_sound {A} (f : world -> A) s : sound s [] (read others db_fails f s).1.
Proof. apply advance_sound. Qed.

(** What leaves the messages, the dead letters and the calls alone. *)
Lemma quiet_sound s s' : messages s' = messages s -> dead s' = dead s -> calls s' = calls s -> sound s [] s'.
Proof. intros E1 E2 E3. split; rewrite ?E1, ?E2, ?E3, ?app_nil_r; eauto. Qed.

Lemma head_sound h s : sound s [] (set_head h s).
Proof. by apply quiet_sound. Qed.

Lemma counts_sound a b s : sound s [] (set_counts a b s).
Proof. by apply quiet_sound. Qed.

Lemma log_sound id d s : sound s [(id, d)] (log_call id d s).
Proof. split; cbn; eauto. Qed.

(** An update of one message that keeps its content, together with the call
    [d] of the handler and the new dead letters. *)
Lemma update_sound id d f D s :
  (forall m, content (f m) = content m) -> dead s ⊆ D ->
  ((forall m, is_pending (f m) = is_pending m) \/ d = Taken \/ (d = Parked /\ is_Some (D !! id))) ->
  sound s [(id, d)] (log_call id d (update_message id f (set_dead D s))).
Proof.
  intros Hf HD Hd.
  assert (H : (exists m, is_pending (f m) <> is_pending m) -> handled id [(id, d)] (log_call id d (update_message id f (set_dead D s)))).
  { intros [m Hm]. destruct Hd as [E|[->|[-> X]]]; [by destruct Hm|left|right; split]; try done;
      by apply elem_of_cons; left. }
  split; [done| | |done]; change (messages (log_call id d _)) with (alter f id (messages s)).
  - intros i m' E Hp. destruct (decide (i = id)) as [->|Hne].
    + rewrite lookup_alter_eq in E. destruct (messages s !! id) as [m|] eqn:Em; [|done]. cbn in E. injection E as <-.
      destruct (is_pending m) eqn:Pm; [right; apply H; exists m; congruence|eauto].
    + rewrite lookup_alter_ne in E by done. eauto.
  - intros i m E Hp. destruct (decide (i = id)) as [->|Hne].
    + rewrite lookup_alter_eq, E. cbn. destruct (is_pending (f m)) eqn:Pm; [left; eauto|].
      right. apply H. exists m. congruence.
    + rewrite lookup_alter_ne by done. eauto.
Qed.

Lemma log_update id d i f s : log_call i d (update_message id f s) = update_message id f (log_call i d s).
Proof. reflexivity. Qed.

(** *** One message *)

Definition good {A} (s : world) (p : world * result relay_error A) : Prop :=
  exists new, sound s new p.1 /\ orderly new p.2.

Lemma good_error {A} s s' new e : sound s new s' -> (length new <= 1)%nat -> good (A:=A) s (s', Err e).
Proof. intros S L. exists new. split; [done|]. by exists [], new. Qed.

Lemma good_settled {A} s s' id d (r : result relay_error A) : sound s [(id, d)] s' -> settled (id, d) -> good s (s', r).
Proof. intros S Hs. exists [(id, d)]. split; [done|]. exists [(id, d)], []. cbn. split; [done|]. split; [by apply Forall_singleton|]. split; [lia|done]. Qed.

Lemma sound_after s s1 new s2 : sound s [] s1 -> sound s1 new s2 -> sound s new s2.
Proof. apply (sound_trans s [] s1 new s2). Qed.

Lemma sound_before s new s1 s2 : sound s new s1 -> sound s1 [] s2 -> sound s new s2.
Proof. intros A B. rewrite <- (app_nil_r new). by apply (sound_trans s new s1 [] s2). Qed.

Lemma set_dead_same s : set_dead (dead s) s = s.
Proof. by destruct s. Qed.

Lemma fail_good row n e s : good s (fail_ others db_fails now retry row n e s).
Proof.
  unfold fail_, write_db. destruct (db_fails _); cbn [negb].
  - eapply good_error; [eapply sound_after; [apply advance_sound|apply log_sound]|done].
  - apply (good_error s _ [(ID row, Failed)]); [|done]. eapply sound_after; [apply advance_sound|].
    eapply sound_before; [|apply head_sound].
    rewrite <- (set_dead_same (advance others s)) at 2. apply update_sound; [done|done|by left].
Qed.

Lemma park_good row n e s : good s (park others db_fails now row n e s).
Proof.
  unfold park, write_db. destruct (db_fails _); cbn [negb].
  - eapply good_error; [eapply sound_after; [apply advance_sound|apply log_sound]|done].
  - eapply good_settled; [|by right]. eapply sound_after; [apply advance_sound|].
    eapply sound_before; [|apply counts_sound]. apply update_sound; [done| |right; right].
    + case_match; [done|]. by apply insert_subseteq.
    + split; [done|]. case_match; [eauto|]. rewrite lookup_insert_eq. eauto.
Qed.

Lemma acknowledge_content t m : content (acknowledge t m) = content m.
Proof. unfold acknowledge. by destruct (is_pending m). Qed.

Lemma complete_good id s :
  good s (let s := log_call id Taken s in
    let '(s, done_) := complete others db_fails now id s in
    if negb done_ then (s, Err EDatabase) else (set_counts (delivered s + 1) (parked s) s, Ok tt)).
Proof.
  unfold complete, write_db. destruct (db_fails _); cbn [negb].
  - eapply good_settled; [|by left]. eapply sound_before; [apply log_sound|apply advance_sound].
  - eapply good_settled; [|by left]. eapply sound_after; [apply advance_sound|].
    eapply sound_before; [|apply counts_sound].
    pose proof (update_sound id Taken (acknowledge (now (tick (advance others (log_call id Taken s)))))
      (dead (advance others s)) (advance others s)) as X.
    rewrite set_dead_same in X. apply X; [apply acknowledge_content|done|by right; left].
Qed.

Lemma attempt_is_good row s :
  good s (attempt others db_fails now stopped handler deadline retry row s).
Proof.
  unfold attempt. destruct (match RetryAt row with Some _ => _ | None => _ end); cbn [negb].
  2: { apply (good_error s _ []); [apply head_sound|cbn; lia]. }
  destruct (stopped (tick s)); [apply (good_error s _ []); [apply sound_refl|cbn; lia]|].
  unfold call_. set (err := if negb _ then _ else _). set (s1 := advance others s).
  assert (S1 : sound s [] s1) by apply advance_sound. clearbody s1 err.
  assert (X : forall p : world * result relay_error unit, good s1 p -> good s p).
  { intros p (new & Sp & O). exists new. split; [by eapply sound_after|done]. }
  destruct err as [e|]; [|apply X, complete_good].
  destruct (stopped (tick s1) && he_cancelled e).
  - apply X. eapply good_error; [apply log_sound|done].
  - destruct (he_undecodable e || _); apply X; [apply park_good|apply fail_good].
Qed.

(** *** Steps one after the other *)

Lemma good_quiet {A} s s' (r : result relay_error A) : sound s [] s' -> good s (s', r).
Proof. intros S. exists []. split; [done|]. exists [], []. cbn. repeat split; [constructor|lia]. Qed.

Lemma good_then {A} s s1 l (p : world * result relay_error A) :
  sound s l s1 -> Forall settled l -> good s1 p -> good s p.
Proof.
  intros S F (new & Sp & ok & bad & -> & Fok & L & B). exists (l ++ ok ++ bad).
  split; [by eapply sound_trans|]. exists (l ++ ok), bad. rewrite app_assoc. repeat split; try done.
  by apply Forall_app.
Qed.

Lemma good_after {A} s s1 (p : world * result relay_error A) : sound s [] s1 -> good s1 p -> good s p.
Proof. intros S G. eapply (good_then s s1 []); [exact S|constructor|exact G]. Qed.

(** What a step did when it did not fail. *)
Lemma good_ok {A} s s1 (a : A) : good s (s1, Ok a) -> exists l, sound s l s1 /\ Forall settled l.
Proof.
  intros (new & S & ok & bad & -> & F & _ & B). rewrite (B eq_refl), app_nil_r in S. eauto.
Qed.

(** A quiet end does not change what happened before it. *)
Lemma good_before {A B} s s1 s2 (r : result relay_error A) (r' : result relay_error B) :
  good s (s1, r) -> (is_ok r' = true -> is_ok r = true) -> sound s1 [] s2 -> good s (s2, r').
Proof.
  intros (new & S & ok & bad & E & F & L & Hb) I S2. exists new. split; [by eapply sound_before|].
  exists ok, bad. repeat split; [done..|]. intros X. by apply Hb, I.
Qed.

Lemma good_bind {A B} (m : step A) (f : A -> step B) s :
  good s (m s) -> (forall a s', good s' (f a s')) -> good s (bind m f s).
Proof.
  intros H1 H2. unfold bind. destruct (m s) as [s1 [a|e]].
  - apply good_ok in H1 as (l & S & F). by eapply good_then.
  - by eapply good_before; [exact H1| |apply sound_refl].
Qed.

Lemma query_good p off limit s : good s (query others db_fails p off limit s).
Proof. unfold query, read. apply good_quiet, advance_sound. Qed.

Lemma save_sound w s : sound s [] (save others db_fails topic w s).1.
Proof.
  unfold save, write_db. destruct (ok w); [|apply sound_refl]. cbn [negb].
  destruct (db_fails _); [apply advance_sound|]. eapply sound_before; [apply advance_sound|by apply quiet_sound].
Qed.

Lemma persist_sound w c s : sound s [] (persist others db_fails topic w c s).1.
Proof.
  unfold persist. destruct (_ || _); [apply sound_refl|].
  pose proof (save_sound c s). by destruct (save _ _ _ _ _).
Qed.

(** *** Pages *)

Notation attempt := (attempt others db_fails now stopped handler deadline retry).

Lemma attempt_all_good page s : good s (attempt_all others db_fails now stopped handler deadline retry page s).
Proof.
  revert s. induction page as [|row page IH]; intros s; [apply good_quiet, sound_refl|].
  apply good_bind; [apply attempt_is_good|intros _ s'; apply IH].
Qed.

(** How [deliver] and [deliver_all] ended. *)
Definition ended {A} (a : A) (e : option relay_error) : result relay_error A :=
  match e with Some e => Err e | None => Ok a end.

Definition good_delivery (s : world) (p : world * (watermark * option relay_error)) : Prop :=
  good s (p.1, ended p.2.1 p.2.2).

Lemma deliver_good row cutoff cand s :
  good_delivery s (deliver others db_fails now stopped handler deadline retry row cutoff cand s).
Proof.
  unfold deliver, good_delivery.
  assert (G : good s (if is_pending row then attempt row s else (s, Ok tt))).
  { destruct (is_pending row); [apply attempt_is_good|apply good_quiet, sound_refl]. }
  destruct (if is_pending row then _ else _) as [s1 [u|e]]; cbn;
    by eapply good_before; [exact G| |apply sound_refl].
Qed.

Lemma deliver_all_good page cutoff cand s :
  good_delivery s (deliver_all others db_fails now stopped handler deadline retry page cutoff cand s).
Proof.
  revert cand s. induction page as [|row page IH]; intros cand s; [apply good_quiet, sound_refl|]. cbn [stage1 stage2 deliver_all].
  pose proof (deliver_good row cutoff cand s) as G. unfold good_delivery in *.
  destruct (deliver _ _ _ _ _ _ _ _ _ _ _) as [s1 [c [e|]]]; cbn in *; [done|].
  apply good_ok in G as (l & S & F). eapply good_then; [done|done|apply IH].
Qed.

Lemma deliver_page_good {A} page cutoff w cand (k : watermark -> watermark -> step A) s :
  (forall w c s, good s (k w c s)) ->
  good s (deliver_page others db_fails now stopped handler deadline topic retry page cutoff w cand k s).
Proof.
  intros Hk. unfold deliver_page. pose proof (deliver_all_good page cutoff cand s) as G. unfold good_delivery in G.
  destruct (deliver_all _ _ _ _ _ _ _ _ _ _ _) as [s1 [c e]].
  pose proof (persist_sound w c s1) as P. destruct (persist _ _ _ _ _ _) as [s2 w2]. cbn in *.
  destruct e as [e|]; cbn in G.
  - by eapply good_before.
  - apply good_ok in G as (l & S & F). eapply good_then; [by eapply sound_before|done|apply Hk].
Qed.

Lemma fail_after_good {A} w c e s : good (A:=A) s (fail_after others db_fails topic w c e s).
Proof.
  unfold fail_after. pose proof (persist_sound w c s) as P. destruct (persist _ _ _ _ _ _). by apply good_quiet.
Qed.

(** *** Stages *)

Lemma lookbehind_good pages w s :
  good s (lookbehind others db_fails now stopped handler deadline topic retry batch pages w s).
Proof.
  revert s. induction pages as [|pages IH]; intros s; [apply good_quiet, sound_refl|].
  apply good_bind; [apply query_good|]. intros [|m page] s1; [apply good_quiet, sound_refl|].
  apply good_bind; [apply attempt_all_good|intros _ s2; apply IH].
Qed.

(** What both scanning stages do with a query that failed. *)
Lemma scan_error {A B} s s1 e w c :
  good (A:=A) s (s1, Err e) -> good (A:=B) s (fail_after others db_fails topic w c e s1).
Proof.
  intros G. unfold fail_after. pose proof (persist_sound w c s1) as P. destruct (persist _ _ _ _ _ _).
  by eapply good_before.
Qed.

Lemma stage1_good pages bAt lastID cutoff w c s :
  good s (stage1 others db_fails now stopped handler deadline topic retry batch pages bAt lastID cutoff w c s).
Proof.
  revert lastID w c s. induction pages as [|pages IH]; intros lastID w c s; [apply good_quiet, sound_refl|]. cbn [stage1 stage2 deliver_all].
  destruct (stopped _); [apply fail_after_good|]. pose proof (query_good (where_boundary topic bAt lastID) 0 batch s) as G.
  destruct (query _ _ _ _ _ _) as [s1 [page|e]]; [|by eapply scan_error].
  apply good_ok in G as (l & S & F). eapply good_then; [done..|]. apply deliver_page_good. intros w2 c2 s2.
  destruct (_ <? _)%nat; [apply good_quiet, sound_refl|apply IH].
Qed.

Lemma stage2_good pages pos strict cutoff w c s :
  good s (stage2 others db_fails now stopped handler deadline topic retry batch pages pos strict cutoff w c s).
Proof.
  revert pos strict w c s. induction pages as [|pages IH]; intros pos strict w c s; [apply good_quiet, sound_refl|]. cbn [stage1 stage2 deliver_all].
  destruct (stopped _); [apply fail_after_good|].
  assert (G : good s (scanForward others db_fails topic pos batch strict s))
    by (unfold scanForward; destruct strict; apply query_good).
  destruct (scanForward _ _ _ _ _ _ _) as [s1 [[|m page]|e]].
  - by eapply good_before; [exact G| |apply sound_refl].
  - apply good_ok in G as (l & S & F). eapply good_then; [done..|]. apply deliver_page_good. intros w2 c2 s2.
    destruct (_ <? _)%nat; [apply good_quiet, sound_refl|apply IH].
  - by eapply scan_error.
Qed.

Lemma finish_good cutoff fin s :
  good s (let '(s, cand) :=
           (if fin.1 : bool then
              let '(s, f) := frontier others db_fails cutoff s in
              match f with
              | Some f => (s, if ok f && after fin.2.2 (At f) (wID f) then f else fin.2.2)
              | None => (s, fin.2.2)
              end
            else (s, fin.2.2)) in
         let '(s, _) := persist others db_fails topic fin.2.1 cand s in (s, Ok tt)).
Proof.
  assert (E : forall c s, good s (let '(s, _) := persist others db_fails topic fin.2.1 c s in (s, Ok tt))).
  { intros c s1. pose proof (persist_sound fin.2.1 c s1) as P. destruct (persist _ _ _ _ _ _). by apply good_quiet. }
  destruct fin.1; [|apply E]. unfold frontier, read.
  destruct (db_fails _); (eapply good_after; [apply advance_sound|apply E]).
Qed.

Lemma sweep_good s :
  good s (sweep others db_fails now stopped handler deadline topic retry settle batch maxPages s).
Proof.
  unfold sweep, load, read. destruct (db_fails _); [apply good_quiet, advance_sound|].
  eapply good_after; [apply advance_sound|]. apply good_bind.
  { destruct (ok _); [apply lookbehind_good|apply good_quiet, sound_refl]. }
  intros pages s1. apply good_bind.
  { destruct (ok _); [apply stage1_good|apply good_quiet, sound_refl]. }
  intros st s2. apply good_bind; [apply stage2_good|]. intros fin s3. apply finish_good.
Qed.

Lemma run_good locked s :
  good s (run others db_fails now stopped handler deadline topic retry settle batch maxPages locked s).
Proof.
  unfold run. destruct locked; [apply good_quiet, sound_refl|].
  eapply good_after; [apply (head_sound no_head)|]. pose proof (sweep_good (set_head no_head s)) as G.
  destruct (sweep _ _ _ _ _ _ _ _ _ _ _ _) as [s1 r]. unfold countBacklog, read.
  destruct (stopped _); [exact G|].
  assert (Q : forall b s, sound s [] (set_backlog b s)) by (intros; by apply quiet_sound).
  destruct (db_fails _); eapply good_before; [exact G|done|apply advance_sound|exact G|done|].
  eapply sound_before; [apply advance_sound|apply Q].
Qed.
End safe.

(** ** A database of two messages, whose handler fails on the first *)

Definition two_messages : table :=
  <[1 := Message 1 10 (str "mail") (str "{}") 0 None [] None]>
    (<[2 := Message 2 20 (str "mail") (str "{}") 0 None [] None]> ∅).

Definition idle_world (t : table) : world :=
  World 0 t ∅ ∅ no_head (BacklogState 0 zero_time) 0 0 [].

Definition fails_on (id : Z) (_ : nat) (m : rawMessage) : handler_result :=
  if rm_ID m =? id then HErr (HandlerError (str "no") false false) else HOk.

(** A run over [t] at the time 100, with a budget of 5 pages of 2. *)
Definition run_over (handler : nat -> rawMessage -> handler_result) (t : table) : world * result relay_error unit :=
  run (fun _ t => t) (fun _ => false) (fun _ => 100) (fun _ => false) handler (fun _ => false)
    (str "mail") (RetryPolicy 3 7 60) 5 2 5 false (idle_world t).

Lemma quiet_others : others_ok (fun _ t => t).
Proof. by intros n t id. Qed.

(** [C1] A sweep loses no message.  Whatever other transactions do, whichever
    calls of the database fail and whenever a stop begins: a message that is
    acknowledged afterwards was acknowledged before, or the sweep's handler
    took it, or its last failure is in the dead letters; a pending message is
    still pending with its content, or was handled so; no dead letter is
    lost. *)
Theorem run_loses_nothing others db_fails now stopped handler deadline topic retry settle batch maxPages locked s :
  others_ok others ->
  let s' := (run others db_fails now stopped handler deadline topic retry settle batch maxPages locked s).1 in
  exists new,
    calls s' = calls s ++ new
    /\ (forall id m', messages s' !! id = Some m' -> is_pending m' = false ->
          (exists m, messages s !! id = Some m /\ is_pending m = false)
          \/ (id, Taken) ∈ new \/ ((id, Parked) ∈ new /\ is_Some (dead s' !! id)))
    /\ (forall id m, messages s !! id = Some m -> is_pending m = true ->
          (exists m', messages s' !! id = Some m' /\ is_pending m' = true /\ content m' = content m)
          \/ (id, Taken) ∈ new \/ ((id, Parked) ∈ new /\ is_Some (dead s' !! id)))
    /\ dead s ⊆ dead s'.
Proof.
  intros Ho s'. subst s'.
  destruct (run_good others db_fails now stopped handler deadline topic retry settle batch maxPages Ho locked s)
    as (new & [C D K X] & _).
  by exists new.
Qed.

Lemma run_loses_nothing_witness :
  let s' := (run_over (fails_on 1) two_messages).1 in
  calls s' = [(1, Failed)]
  /\ exists new, calls s' = calls (idle_world two_messages) ++ new
    /\ (forall id m', messages s' !! id = Some m' -> is_pending m' = false ->
          (exists m, two_messages !! id = Some m /\ is_pending m = false)
          \/ (id, Taken) ∈ new \/ ((id, Parked) ∈ new /\ is_Some (dead s' !! id)))
    /\ (forall id m, two_messages !! id = Some m -> is_pending m = true ->
          (exists m', messages s' !! id = Some m' /\ is_pending m' = true /\ content m' = content m)
          \/ (id, Taken) ∈ new \/ ((id, Parked) ∈ new /\ is_Some (dead s' !! id)))
    /\ ∅ ⊆ dead s'.
Proof.
  split; [vm_compute; reflexivity|].
  exact (run_loses_nothing (fun _ t => t) (fun _ => false) (fun _ => 100) (fun _ => false) (fails_on 1)
    (fun _ => false) (str "mail") (RetryPolicy 3 7 60) 5 2 5 false (idle_world two_messages) quiet_others).
Defined.

(** Delivery is head-of-line: every message the handler was called with
    was taken or parked before the handler was called with the next one, and
    after a call that settled nothing, the sweep has called the handler no
    more and has failed. *)
Theorem run_head_of_line others db_fails now stopped handler deadline topic retry settle batch maxPages locked s :
  others_ok others ->
  let p := run others db_fails now stopped handler deadline topic retry settle batch maxPages locked s in
  exists before last,
    calls p.1 = calls s ++ before ++ last
    /\ Forall (fun c => c.2 = Taken \/ c.2 = Parked) before
    /\ (length last <= 1)%nat
    /\ (is_ok p.2 = true -> last = []).
Proof.
  intros Ho p. subst p.
  destruct (run_good others db_fails now stopped handler deadline topic retry settle batch maxPages Ho locked s)
    as (new & S & ok & bad & -> & F & L & B).
  exists ok, bad. by rewrite (sound_calls _ _ _ S).
Qed.

Lemma run_head_of_line_witness :
  calls (run_over (fails_on 2) two_messages).1 = [(1, Taken); (2, Failed)]
  /\ is_ok (run_over (fails_on 2) two_messages).2 = false
  /\ exists before last,
    calls (run_over (fails_on 2) two_messages).1 = [] ++ before ++ last
    /\ Forall (fun c => c.2 = Taken \/ c.2 = Parked) before
    /\ (length last <= 1)%nat
    /\ (is_ok (run_over (fails_on 2) two_messages).2 = true -> last = []).
Proof.
  split; [vm_compute; reflexivity|]. split; [vm_compute; reflexivity|].
  exact (run_head_of_line (fun _ t => t) (fun _ => false) (fun _ => 100) (fun _ => false) (fails_on 2)
    (fun _ => false) (str "mail") (RetryPolicy 3 7 60) 5 2 5 false (idle_world two_messages) quiet_others).
Defined.
