(* ===== verification/RelayQuiet.v ===== *)
(** What a sweep does when nothing interferes: no other transaction, no
    failure, no stop, and a handler that takes every message. *)

From Stdlib Require Import ZArith Lia List Ascii Sorted.
From stdpp Require Import base decidable list gmap strings sorting.
From S2P Require Import Prelude GoStrings GoTime JobsStore Relay.

(** ** The rows in their order *)

Definition ordered (t : table) : list message := in_order (rows t).

Definition distinct (l : list message) : Prop := NoDup (map ID l).

Lemma distinct_inj l a b : distinct l -> a ∈ l -> b ∈ l -> ID a = ID b -> a = b.
Proof.
  unfold distinct. induction l as [|x l IH]; [set_solver|]. cbn.
  intros [N H]%NoDup_cons Ha Hb E.
  assert (X : forall m, m ∈ l -> ID m = ID x -> False).
  { intros m Hm Em. apply N. rewrite <- Em. apply list_elem_of_fmap. eauto. }
  apply elem_of_cons in Ha as [->|Ha]; apply elem_of_cons in Hb as [->|Hb]; [done| | |by apply IH].
  - exfalso. by apply (X b).
  - exfalso. by apply (X a).
Qed.

Lemma distinct_perm l l' : l ≡ₚ l' -> distinct l -> distinct l'.
Proof. unfold distinct. intros P H. assert (E : map ID l ≡ₚ map ID l') by by apply fmap_Permutation. by rewrite <- E. Qed.

Lemma elem_of_filter_bool {A} (p : A -> bool) l x : x ∈ List.filter p l <-> x ∈ l /\ p x = true.
Proof. by rewrite list_elem_of_In, filter_In, <- list_elem_of_In. Qed.

Lemma StronglySorted_filter {A} (R : A -> A -> Prop) (p : A -> bool) l :
  StronglySorted R l -> StronglySorted R (List.filter p l).
Proof.
  induction 1 as [|x l H IH F]; cbn; [constructor|]. destruct (p x); [|done]. constructor; [done|].
  apply Forall_forall. intros y [Hy _]%elem_of_filter_bool. by eapply Forall_forall in F.
Qed.

Lemma filter_perm {A} (p : A -> bool) l l' : l ≡ₚ l' -> List.filter p l ≡ₚ List.filter p l'.
Proof.
  induction 1; cbn; repeat destruct (p _); try done; try by constructor.
  by etrans.
Qed.

Lemma sorted_unique l l' :
  distinct l -> StronglySorted pos_le l -> StronglySorted pos_le l' -> l ≡ₚ l' -> l = l'.
Proof.
  intros D S S' P. apply (StronglySorted_unique_strong pos_le); try done.
  intros a b Ha Hb L1 L2. rewrite <- P in Hb. apply (distinct_inj l); try done. unfold pos_le in *. lia.
Qed.

Lemma distinct_filter p l : distinct l -> distinct (List.filter p l).
Proof.
  unfold distinct. induction l as [|x l IH]; cbn; [done|]. intros [N H]%NoDup_cons.
  destruct (p x); cbn; [|auto]. apply NoDup_cons. split; [|auto].
  intros (m & E & [Hm _]%elem_of_filter_bool)%list_elem_of_fmap. apply N. apply list_elem_of_fmap. eauto.
Qed.

Lemma in_order_filter p l : distinct l -> in_order (List.filter p l) = List.filter p (in_order l).
Proof.
  intros D. apply sorted_unique.
  - eapply distinct_perm; [symmetry; apply in_order_perm|by apply distinct_filter].
  - apply in_order_sorted.
  - apply StronglySorted_filter, in_order_sorted.
  - rewrite in_order_perm. apply filter_perm. by rewrite in_order_perm.
Qed.

Lemma rows_distinct t : keyed t -> distinct (rows t).
Proof.
  intros K. unfold distinct, rows.
  assert (E : map ID (map snd (map_to_list t)) = map fst (map_to_list t)).
  { rewrite map_map. apply map_ext_in. intros [i m] H%list_elem_of_In%elem_of_map_to_list. by apply K. }
  rewrite E. apply NoDup_fst_map_to_list.
Qed.

Lemma ordered_distinct t : keyed t -> distinct (ordered t).
Proof. intros K. eapply distinct_perm; [symmetry; apply in_order_perm|by apply rows_distinct]. Qed.

Lemma elem_of_ordered t m : keyed t -> m ∈ ordered t <-> t !! ID m = Some m.
Proof. intros K. unfold ordered. rewrite in_order_perm. by apply elem_of_rows. Qed.

Lemma select_filter p off limit t : keyed t ->
  select p off limit t = take limit (drop off (List.filter p (ordered t))).
Proof. intros K. unfold select. by rewrite in_order_filter by by apply rows_distinct. Qed.

(** Strictly, in a table. *)
Definition pos_lt (a b : message) : Prop := CreatedAt a < CreatedAt b \/ (CreatedAt a = CreatedAt b /\ ID a < ID b).

Lemma sorted_strict l : distinct l -> StronglySorted pos_le l -> StronglySorted pos_lt l.
Proof.
  unfold distinct. intros D S. induction S as [|x l S IH F]; [constructor|]. cbn in D.
  apply NoDup_cons in D as [N D]. constructor; [auto|]. apply Forall_forall. intros y Hy.
  apply (proj1 (Forall_forall _ _) F) in Hy as L. assert (ID x <> ID y).
  { intros E. apply N. rewrite E. apply list_elem_of_fmap. eauto. }
  unfold pos_le, pos_lt in *. lia.
Qed.

(** A filter whose predicate only the first, or only the last, part has. *)
Lemma filter_first {A} (p : A -> bool) l1 l2 :
  (forall x, x ∈ l1 -> p x = true) -> (forall x, x ∈ l2 -> p x = false) -> List.filter p (l1 ++ l2) = l1.
Proof.
  intros H1 H2. rewrite List.filter_app.
  rewrite (filter_ext_in p (fun _ => true) l1), (filter_ext_in p (fun _ => false) l2), filter_true, filter_false, app_nil_r;
    [done|intros x Hx%list_elem_of_In; auto..].
Qed.

Lemma filter_last {A} (p : A -> bool) l1 l2 :
  (forall x, x ∈ l1 -> p x = false) -> (forall x, x ∈ l2 -> p x = true) -> List.filter p (l1 ++ l2) = l2.
Proof.
  intros H1 H2. rewrite List.filter_app.
  rewrite (filter_ext_in p (fun _ => false) l1), (filter_ext_in p (fun _ => true) l2), filter_true, filter_false;
    [done|intros x Hx%list_elem_of_In; auto..].
Qed.

Lemma filter_filter {A} (p q : A -> bool) l : List.filter p (List.filter q l) = List.filter (fun x => q x && p x) l.
Proof. induction l as [|x l IH]; cbn; [done|]. destruct (q x); cbn; [destruct (p x)|]; by rewrite IH. Qed.

(** A prefix of the order splits the rows. *)
Lemma split_sorted (p : message -> bool) l : StronglySorted pos_le l ->
  (forall a b, pos_le a b -> p b = true -> p a = true) ->
  l = List.filter p l ++ List.filter (fun m => negb (p m)) l.
Proof.
  intros S Hp. induction S as [|x l S IH F]; cbn; [done|]. destruct (p x) eqn:E; cbn; [by rewrite <- IH|].
  assert (N : forall y, y ∈ l -> p y = false).
  { intros y Hy. apply not_true_iff_false. intros X. apply (proj1 (Forall_forall _ _) F) in Hy. rewrite (Hp x y) in E; done. }
  rewrite (filter_ext_in p (fun _ => false) l), filter_false by (intros y Hy%list_elem_of_In; auto). cbn.
  rewrite (filter_ext_in (fun m => negb (p m)) (fun _ => true) l), filter_true; [done|].
  intros y Hy%list_elem_of_In. by rewrite N.
Qed.

(** ** Tables some of whose messages were acknowledged *)

(** What an acknowledgement leaves. *)
Definition fixed (m : message) : Z * Z * gostring * gostring * Z * option Z :=
  (ID m, CreatedAt m, Topic m, Payload m, Attempts m, RetryAt m).

(** [t]: the table [t0] after the messages [D] were acknowledged. *)
Record acked (t0 : table) (D : list Z) (t : table) : Prop := {
  acked_dom : forall id, is_Some (t !! id) <-> is_Some (t0 !! id);
  acked_row : forall id m m', t0 !! id = Some m -> t !! id = Some m' ->
    fixed m' = fixed m /\ is_pending m' = is_pending m && negb (bool_decide (id ∈ D));
}.

Definition upd (t : table) (m : message) : message := default m (t !! ID m).

Section acked.
Context (t0 t : table) (D : list Z) (K : keyed t0) (A : acked t0 D t).

Lemma acked_keyed : keyed t.
Proof.
  intros id m' H. destruct (proj1 (acked_dom _ _ _ A id)) as [m Hm]; [eauto|].
  destruct (acked_row _ _ _ A id m m' Hm H) as [E _]. rewrite <- (K id m Hm). unfold fixed in E. congruence.
Qed.

Lemma upd_in m : m ∈ ordered t0 -> t !! ID m = Some (upd t m) /\ fixed (upd t m) = fixed m
  /\ is_pending (upd t m) = is_pending m && negb (bool_decide (ID m ∈ D)).
Proof.
  intros H%elem_of_ordered; [|done]. destruct (proj2 (acked_dom _ _ _ A (ID m))) as [m' Hm']; [eauto|].
  unfold upd. rewrite Hm'. split; [done|]. by apply (acked_row _ _ _ A (ID m)).
Qed.

Lemma upd_ID m : m ∈ ordered t0 -> ID (upd t m) = ID m.
Proof. intros (_ & E & _)%upd_in. unfold fixed in E. congruence. Qed.

Lemma upd_pos_le a b : a ∈ ordered t0 -> b ∈ ordered t0 -> pos_le a b -> pos_le (upd t a) (upd t b).
Proof.
  intros (_ & E1 & _)%upd_in (_ & E2 & _)%upd_in. unfold fixed in *. unfold pos_le.
  injection E1 as -> -> _ _ _ _. by injection E2 as -> -> _ _ _ _.
Qed.

Lemma acked_ordered : ordered t = map (upd t) (ordered t0).
Proof.
  symmetry. apply sorted_unique.
  - unfold distinct. rewrite map_map.
    replace (map (fun m => ID (upd t m)) (ordered t0)) with (map ID (ordered t0)); [by apply ordered_distinct|].
    apply map_ext_in. intros m H%list_elem_of_In. by rewrite upd_ID.
  - assert (S : StronglySorted pos_le (ordered t0)) by apply in_order_sorted.
    assert (I : forall m, m ∈ ordered t0 -> m ∈ ordered t0) by done. revert S I.
    generalize (ordered t0) at 1 2 4. intros l S. induction S as [|x l S IH F]; intros I; cbn; constructor.
    + apply IH. set_solver.
    + apply Forall_fmap. apply Forall_forall. intros y Hy.
      apply upd_pos_le; [set_solver..|]. by eapply Forall_forall in F.
  - apply in_order_sorted.
  - apply NoDup_Permutation.
    + apply (NoDup_fmap_1 ID). rewrite <- list_fmap_compose.
      replace ((ID ∘ upd t) <$> ordered t0) with (ID <$> ordered t0); [by apply ordered_distinct|].
      apply map_ext_in. intros m H%list_elem_of_In. cbn. by rewrite upd_ID.
    + apply (NoDup_fmap_1 ID). apply ordered_distinct, acked_keyed.
    + intros m'. rewrite list_elem_of_fmap, elem_of_ordered by apply acked_keyed. split.
      * intros (m & -> & H). rewrite upd_ID by done. by apply upd_in.
      * intros H. destruct (proj1 (acked_dom _ _ _ A (ID m'))) as [m Hm]; [eauto|].
        exists m. unfold upd. rewrite (K _ _ Hm), H. split; [done|]. apply elem_of_ordered; [done|].
        by rewrite (K _ _ Hm).
Qed.

(** A query, in terms of the first table. *)
Lemma acked_select p off limit :
  select p off limit t = map (upd t) (take limit (drop off (List.filter (fun m => p (upd t m)) (ordered t0)))).
Proof.
  rewrite select_filter by apply acked_keyed. rewrite acked_ordered, filter_map_swap.
  by rewrite <- fmap_drop, <- fmap_take.
Qed.
End acked.

Lemma acked_refl t0 : acked t0 [] t0.
Proof.
  split; [done|]. intros id m m' E E'. rewrite E in E'. injection E' as <-. split; [done|].
  rewrite bool_decide_false by set_solver. by rewrite andb_true_r.
Qed.

Lemma acked_one t0 t D id n : acked t0 D t -> acked t0 (D ++ [id]) (alter (acknowledge n) id t).
Proof.
  intros [Hd Hr]. split.
  - intros i. by rewrite lookup_alter_is_Some.
  - intros i m m' E0 E. destruct (decide (i = id)) as [->|Hne].
    + rewrite lookup_alter_eq in E. destruct (t !! id) as [m1|] eqn:E1; [|done]. cbn in E. injection E as <-.
      destruct (Hr id m m1 E0 E1) as [F P]. rewrite bool_decide_true by set_solver.
      unfold acknowledge. destruct (is_pending m1) eqn:P1; cbn; rewrite ?andb_false_r; done.
    + rewrite lookup_alter_ne in E by done. destruct (Hr i m m' E0 E) as [F P]. split; [done|]. rewrite P.
      do 2 f_equal. apply bool_decide_ext. set_solver.
Qed.

Definition taken (m : message) : Z * delivery := (ID m, Taken).

Section quiet.
Context (now : nat -> Z) (handler : nat -> rawMessage -> handler_result).
Context (topic : gostring) (retry : retryPolicy) (settle : Z) (batch maxPages : nat).
Context (t0 : table) (c0 : list (Z * delivery)).

Notation quietly f := (f (fun _ t => t) (fun _ => false)).
Notation attempt := (quietly attempt now (fun _ => false) handler (fun _ => false) retry).
Notation attempt_all := (quietly attempt_all now (fun _ => false) handler (fun _ => false) retry).
Notation deliver := (quietly deliver now (fun _ => false) handler (fun _ => false) retry).
Notation deliver_all := (quietly deliver_all now (fun _ => false) handler (fun _ => false) retry).
Notation deliver_page := (quietly deliver_page now (fun _ => false) handler (fun _ => false) topic retry).
Notation lookbehind := (quietly lookbehind now (fun _ => false) handler (fun _ => false) topic retry batch).
Notation stage1 := (quietly stage1 now (fun _ => false) handler (fun _ => false) topic retry batch).
Notation stage2 := (quietly stage2 now (fun _ => false) handler (fun _ => false) topic retry batch).
Notation persist := (quietly persist topic).
Notation query := (quietly query).

(** The handler takes every message; rows have their ids, Go's times, and no
    try that is not due. *)
Context (Hh : forall n m, handler n m = HOk) (K : keyed t0) (Hb : (0 < batch)%nat).
Context (Hzero : forall m, m ∈ ordered t0 -> zero_time <= CreatedAt m).
Context (Hdue : forall m, m ∈ ordered t0 -> of_topic topic m = true -> is_pending m = true ->
  match RetryAt m with Some t => forall n, t <= now n | None => True end).

Definition due (m : message) : Prop := match RetryAt m with Some t => forall n, t <= now n | None => True end.

(** The world after the messages [D], in their order. *)
Definition at_ (D : list message) (s : world) : Prop :=
  acked t0 (map ID D) (messages s) /\ calls s = c0 ++ map taken D.

Lemma at_same D s s' : messages s' = messages s -> calls s' = calls s -> at_ D s -> at_ D s'.
Proof. unfold at_. by intros -> ->. Qed.

Lemma attempt_at D m row s : ID row = ID m -> due row -> at_ D s ->
  exists s', attempt row s = (s', Ok tt) /\ at_ (D ++ [m]) s'.
Proof.
  intros E Hd [A C]. unfold Relay.attempt, call_.
  replace (match RetryAt row with Some _ => _ | None => _ end) with true.
  2: { unfold due in Hd. destruct (RetryAt row) as [t|]; [|done]. specialize (Hd (tick s)). destruct (t >? now (tick s)) eqn:X; [lia|done]. }
  rewrite Hh. cbn. eexists. split; [reflexivity|]. unfold at_. cbn. rewrite map_app. split.
  - rewrite E. by apply acked_one.
  - rewrite C. rewrite <- app_assoc, map_app. cbn. unfold taken. by rewrite E.
Qed.

(** Rows of a page, fetched when the messages [D] were acknowledged. *)
Definition fetched (M : list message) (page : list message) : Prop :=
  Forall2 (fun m row => ID row = ID m /\ RetryAt row = RetryAt m) M page.

Lemma attempt_all_at M page D s : fetched M page -> Forall due M -> at_ D s ->
  exists s', attempt_all page s = (s', Ok tt) /\ at_ (D ++ M) s'.
Proof.
  intros F. revert D s. induction F as [|m row M page [E R] F IH]; intros D s Hd A; cbn.
  - exists s. by rewrite app_nil_r.
  - apply Forall_cons in Hd as [Hm Hd].
    destruct (attempt_at D m row s E) as (s1 & E1 & A1); [by unfold due in *; rewrite R|done|].
    unfold bind. rewrite E1. destruct (IH _ _ Hd A1) as (s2 & E2 & A2). exists s2. by rewrite <- app_assoc in A2.
Qed.

Lemma deliver_all_at M page cutoff cand D s : fetched M page -> Forall (fun m => is_pending m = true -> due m) M ->
  Forall2 (fun m row => is_pending row = is_pending m) M page -> at_ D s ->
  exists s' cand', deliver_all page cutoff cand s = (s', (cand', None)) /\ at_ (D ++ List.filter is_pending M) s'.
Proof.
  intros F. revert cand D s. induction F as [|m row M page [E R] F IH]; intros cand D s Hd Hp A; cbn.
  - exists s, cand. by rewrite app_nil_r.
  - apply Forall_cons in Hd as [Hm Hd]. apply Forall2_cons in Hp as [Pm Hp]. unfold Relay.deliver. rewrite Pm.
    destruct (is_pending m) eqn:P.
    + destruct (attempt_at D m row s E) as (s1 & E1 & A1); [unfold due in *; rewrite R; by apply Hm|done|].
      rewrite E1. set (c := if negb _ then _ else _).
      destruct (IH c _ _ Hd Hp A1) as (s2 & c2 & E2 & A2). exists s2, c2. by rewrite <- app_assoc in A2.
    + set (c := if negb _ then _ else _). destruct (IH c _ _ Hd Hp A) as (s2 & c2 & E2 & A2). by exists s2, c2.
Qed.

Lemma persist_at D w c s : at_ D s -> exists s' w', persist w c s = (s', w') /\ at_ D s'.
Proof.
  intros A. unfold Relay.persist. destruct (_ || _); [eauto|]. unfold save. destruct (ok c); cbn; [|eauto].
  eexists _, _. split; [reflexivity|]. done.
Qed.

Lemma query_at D p off limit s : at_ D s ->
  exists s', query p off limit s = (s', Ok (select p off limit (messages s))) /\ at_ D s'.
Proof. intros A. eexists. split; [reflexivity|]. done. Qed.

Lemma deliver_page_at {B} M page cutoff w cand (k : watermark -> watermark -> step B) (Q : world * result relay_error B -> Prop) D s :
  fetched M page -> Forall (fun m => is_pending m = true -> due m) M ->
  Forall2 (fun m row => is_pending row = is_pending m) M page -> at_ D s ->
  (forall w c s', at_ (D ++ List.filter is_pending M) s' -> Q (k w c s')) ->
  Q (deliver_page page cutoff w cand k s).
Proof.
  intros F Hd Hp A Hk. destruct (deliver_all_at M page cutoff cand D s F Hd Hp A) as (s1 & c1 & E1 & A1).
  unfold Relay.deliver_page. rewrite E1. destruct (persist_at _ w c1 s1 A1) as (s2 & w2 & E2 & A2). rewrite E2. by apply Hk.
Qed.

Notation L := (ordered t0).

Lemma due_in m : m ∈ L -> of_topic topic m = true -> is_pending m = true -> due m.
Proof. apply Hdue. Qed.

(** *** The lookbehind *)

Lemma fetched_upd D t M : acked t0 D t -> (forall m, m ∈ M -> m ∈ L) -> fetched M (map (upd t) M).
Proof.
  intros A H. induction M as [|m M IH]; cbn; [constructor|]. constructor; [|apply IH; set_solver].
  destruct (upd_in t0 t D K A m) as (_ & E & _); [set_solver|]. unfold fixed in E. split; congruence.
Qed.

Lemma not_acked D m : m ∈ L -> (forall x, x ∈ D -> x ∈ L) -> m ∉ D -> ID m ∉ map ID D.
Proof.
  intros Hm HD N (x & E & Hx)%list_elem_of_fmap. apply N.
  rewrite (distinct_inj L m x); auto. by apply ordered_distinct.
Qed.

(** What the lookbehind's query finds: the messages behind the watermark
    that are not acknowledged yet. *)
Lemma behind_select w P1 P2 s limit :
  List.filter (where_behind topic w) L = P1 ++ P2 -> at_ P1 s ->
  select (where_behind topic w) 0 limit (messages s) = map (upd (messages s)) (take limit P2).
Proof.
  intros E [A _].
  assert (In_ : forall m, m ∈ P1 ++ P2 -> m ∈ L) by (intros m Hm; rewrite <- E in Hm; by apply elem_of_filter_bool in Hm as [? _]).
  assert (ND : NoDup (P1 ++ P2)).
  { apply (NoDup_fmap_1 ID). rewrite <- E. by apply distinct_filter, ordered_distinct. }
  rewrite (acked_select t0 _ _ K A). cbn [drop]. do 2 f_equal.
  rewrite (filter_ext_in _ (fun m => where_behind topic w m && negb (bool_decide (ID m ∈ map ID P1)))).
  - rewrite <- filter_filter, E. apply NoDup_app in ND as (N1 & N2 & N3).
    apply filter_last; intros m Hm; [by rewrite bool_decide_true by (apply list_elem_of_fmap; eauto)|].
    rewrite bool_decide_false; [done|]. apply not_acked; [apply In_; set_solver|set_solver|set_solver].
  - intros m Hm%list_elem_of_In. destruct (upd_in t0 _ _ K A m Hm) as (_ & F & P).
    unfold fixed in F. injection F as F1 F2 F3 _ _ _. unfold where_behind, of_topic. rewrite F1, F2, F3, P.
    destruct (seq_eqb _ _), (is_pending m), (bool_decide _), (_ || _); done.
Qed.

Lemma lookbehind_at w pages P1 P2 s :
  List.filter (where_behind topic w) L = P1 ++ P2 -> at_ P1 s -> (length P2 <= pages * batch)%nat ->
  exists left s', lookbehind pages w s = (s', Ok left) /\ at_ (P1 ++ P2) s' /\ (pages * batch < left * batch + length P2 + batch)%nat.
Proof.
  revert P1 P2 s. induction pages as [|pages IH]; intros P1 P2 s E A Hl.
  { destruct P2; [|cbn in Hl; lia]. exists 0%nat, s. rewrite app_nil_r. split; [done|]. split; [done|cbn; lia]. }
  rewrite Nat.mul_succ_l in *. cbn [Relay.lookbehind]. unfold bind at 1. destruct (query_at P1 (where_behind topic w) 0 batch s A) as (s1 & E1 & A1).
  rewrite E1, (behind_select w P1 P2 s batch E A). destruct P2 as [|m P2].
  { rewrite take_nil. cbn. exists (S pages), s1. rewrite app_nil_r. split; [done|]. split; [done|cbn; lia]. }
  set (M := take batch (m :: P2)). set (R := drop batch (m :: P2)).
  assert (ER : m :: P2 = M ++ R) by (symmetry; apply take_drop). rewrite ER in *.
  assert (HM : (0 < length M)%nat) by (unfold M; rewrite length_take; cbn; lia).
  assert (Hfull : length M = batch \/ R = []).
  { unfold M, R. destruct (decide (batch <= length (m :: P2))%nat); [left; rewrite length_take; lia|right; apply drop_ge; lia]. }
  clearbody M R.
  assert (In_ : forall x, x ∈ M -> x ∈ L /\ due x).
  { intros x Hx. assert (Hx' : x ∈ P1 ++ M ++ R) by set_solver. rewrite <- E in Hx'.
    apply elem_of_filter_bool in Hx' as [I W]. split; [done|].
    apply andb_true_iff in W as [[? ?]%andb_true_iff _]. by apply due_in. }
  destruct (map (upd (messages s)) M) as [|r page] eqn:EM; [by destruct M; cbn in *; [lia|]|]. rewrite <- EM. unfold bind.
  destruct (attempt_all_at M (map (upd (messages s)) M) P1 s1) as (s2 & E2 & A2).
  { eapply fetched_upd; [apply A|]. intros x Hx. by apply In_. }
  { apply Forall_forall. intros x Hx. by apply In_. }
  { done. }
  rewrite E2. rewrite length_app in Hl. destruct (IH (P1 ++ M) R s2) as (left & s3 & E3 & A3 & G).
  { by rewrite <- app_assoc. }
  { done. }
  { destruct Hfull as [Hf| ->]; cbn in *; lia. }
  exists left, s3. rewrite <- app_assoc in A3. rewrite length_app. split; [done|]. split; [done|].
  destruct Hfull as [Hf| ->]; cbn in *; [lia|]. assert (pages <= left)%nat by nia. nia.
Qed.

(** *** Pages of a scan *)

(** The messages [M] at the head of what is left to scan. *)
Definition pick (D M R : list message) : Prop :=
  (forall m, m ∈ M ++ R -> m ∈ L /\ of_topic topic m = true) /\ (forall m, m ∈ M ++ R -> m ∉ D) /\ (forall m, m ∈ D -> m ∈ L)
  /\ NoDup (M ++ R).

Lemma pick_page D M R t : pick D M R -> acked t0 (map ID D) t ->
  fetched M (map (upd t) M) /\ Forall (fun m => is_pending m = true -> due m) M
  /\ Forall2 (fun m row => is_pending row = is_pending m) M (map (upd t) M).
Proof.
  intros (HM & HN & HD & _) A. split; [|split].
  - eapply fetched_upd; [done|]. intros m Hm. apply HM. set_solver.
  - apply Forall_forall. intros m Hm. apply due_in; apply HM; set_solver.
  - assert (H : forall m, m ∈ M -> is_pending (upd t m) = is_pending m).
    { intros m Hm. destruct (HM m) as [I _]; [set_solver|]. destruct (upd_in t0 t _ K A m I) as (_ & _ & ->).
      rewrite bool_decide_false; [by rewrite andb_true_r|]. apply not_acked; [done|done|apply HN; set_solver]. }
    clear -H. induction M as [|m M IH]; cbn; constructor; [apply H; set_solver|apply IH; set_solver].
Qed.

Lemma pick_rest D M R : pick D M R -> pick (D ++ List.filter is_pending M) [] R.
Proof.
  intros (HM & HN & HD & ND). apply NoDup_app in ND as (N1 & N2 & N3). split; [|split; [|split]]; cbn; [set_solver| | |done].
  - intros m Hm [X|[X _]%elem_of_filter_bool]%elem_of_app; [|set_solver]. by apply (HN m); [set_solver|].
  - intros m [X|[X _]%elem_of_filter_bool]%elem_of_app; [by apply HD|]. apply HM. set_solver.
Qed.

Lemma pick_split D R n : pick D [] R -> pick D (take n R) (drop n R).
Proof. unfold pick. by rewrite take_drop. Qed.

Lemma deliver_pick {B} D M R page cutoff w cand (k : watermark -> watermark -> step B) (Q : world * result relay_error B -> Prop) s :
  pick D M R -> page = map (upd (messages s)) M -> at_ D s ->
  (forall w c s', at_ (D ++ List.filter is_pending M) s' -> Q (k w c s')) ->
  Q (deliver_page page cutoff w cand k s).
Proof.
  intros P -> A Hk. destruct (pick_page _ _ _ _ P (proj1 A)) as (F & Hd & Hp). by eapply deliver_page_at.
Qed.

Lemma L_sorted : StronglySorted pos_lt L.
Proof. apply sorted_strict; [by apply ordered_distinct|apply in_order_sorted]. Qed.

(** *** Stage 1 *)

Lemma boundary_select bAt lastID D s limit : at_ D s ->
  select (where_boundary topic bAt lastID) 0 limit (messages s)
  = map (upd (messages s)) (take limit (List.filter (where_boundary topic bAt lastID) L)).
Proof.
  intros [A _]. rewrite (acked_select t0 _ _ K A). cbn [drop]. do 2 f_equal. apply filter_ext_in.
  intros m Hm%list_elem_of_In. destruct (upd_in t0 _ _ K A m Hm) as (_ & F & _). unfold fixed in F.
  injection F as F1 F2 F3 _ _ _. unfold where_boundary, of_topic. by rewrite F1, F2, F3.
Qed.

(** The page after a page. *)
Lemma boundary_next bAt lastID M m R :
  List.filter (where_boundary topic bAt lastID) L = M ++ m :: R ->
  List.filter (where_boundary topic bAt (ID m)) L = R.
Proof.
  intros E. assert (H : forall x, x ∈ M ++ m :: R -> of_topic topic x = true /\ CreatedAt x = bAt /\ ID x > lastID).
  { intros x Hx. rewrite <- E in Hx. apply elem_of_filter_bool in Hx as [_ [T [E1 E2]%andb_true_iff]%andb_true_iff].
    split; [done|]. lia. }
  rewrite (filter_ext _ (fun x => where_boundary topic bAt lastID x && (ID x >? ID m))).
  2: { intros x. unfold where_boundary. destruct (H m) as (_ & _ & G); [set_solver|].
       destruct (of_topic topic x), (CreatedAt x =? bAt), (ID x >? lastID) eqn:X1, (ID x >? ID m) eqn:X2; try done; lia. }
  rewrite <- filter_filter, E. assert (S := StronglySorted_filter _ (where_boundary topic bAt lastID) _ L_sorted).
  rewrite E in S. rewrite cons_middle, app_assoc in *. apply StronglySorted_app in S as (S1 & S2 & _).
  apply StronglySorted_app in S2 as (S2 & _ & _). apply filter_last.
  - intros x [Hx| ->%list_elem_of_singleton]%elem_of_app; [|lia].
    destruct (S2 x m Hx) as [?|?]; [set_solver| |lia].
    destruct (H x) as (_ & ? & _); [set_solver|]. destruct (H m) as (_ & ? & _); [set_solver|]. lia.
  - intros x Hx. destruct (S1 m x) as [?|?]; [set_solver|done| |lia].
    destruct (H x) as (_ & ? & _); [set_solver|]. destruct (H m) as (_ & ? & _); [set_solver|]. lia.
Qed.

Lemma boundary_pick bAt lastID D : (forall m, m ∈ List.filter (where_boundary topic bAt lastID) L -> m ∉ D) ->
  (forall m, m ∈ D -> m ∈ L) -> pick D [] (List.filter (where_boundary topic bAt lastID) L).
Proof.
  intros H HD. split; [|split; [|split]]; [|done|done|].
  - intros m [I W]%elem_of_filter_bool. apply andb_true_iff in W. by split; [|apply W].
  - apply (NoDup_fmap_1 ID). by apply distinct_filter, ordered_distinct.
Qed.

Lemma stage1_at bAt cutoff pages lastID B D w c s :
  List.filter (where_boundary topic bAt lastID) L = B -> pick D [] B -> at_ D s -> (length B < pages * batch)%nat ->
  exists left w' c' s', stage1 pages bAt lastID cutoff w c s = (s', Ok (left, (w', c')))
    /\ at_ (D ++ List.filter is_pending B) s' /\ (pages * batch <= left * batch + length B + batch)%nat.
Proof.
  revert lastID B D w c s. induction pages as [|pages IH]; intros lastID B D w c s E P A Hl; [lia|]. rewrite Nat.mul_succ_l in *.
  cbn [Relay.stage1]. destruct (query_at D (where_boundary topic bAt lastID) 0 batch s A) as (s1 & E1 & A1).
  rewrite E1, (boundary_select bAt lastID D s batch A), E. apply (pick_split _ _ batch) in P.
  assert (EB : B = take batch B ++ drop batch B) by by rewrite take_drop.
  assert (Hd : (length (take batch B) = batch \/ drop batch B = [])%nat).
  { destruct (decide (batch <= length B)%nat); [left; rewrite length_take; lia|right; apply drop_ge; lia]. }
  set (M := take batch B) in *. set (R := drop batch B) in *. clearbody M R.
  assert (LB : length B = (length M + length R)%nat) by by rewrite EB, length_app.
  apply (deliver_pick D M R); [done| |done|].
  { f_equal. unfold Relay.query, read in E1. by injection E1 as <-. }
  intros w2 c2 s2 A2. rewrite length_map. destruct (Nat.ltb_spec (length M) batch) as [Hlt|Hge].
  - exists pages, w2, c2, s2. split; [done|]. destruct Hd as [|R0]; [lia|]. rewrite EB, R0, app_nil_r. split; [done|]. cbn. lia.
  - destruct (exists_last (l := M)) as (M' & m & EM); [intros ->; cbn in *; lia|].
    apply pick_rest in P. rewrite EM in *. rewrite map_app, last_app. cbn [map last].
    assert (Hm : m ∈ L). { assert (X : m ∈ List.filter (where_boundary topic bAt lastID) L) by (rewrite E, EB; set_solver).
      by apply elem_of_filter_bool in X as [? _]. }
    rewrite (upd_ID t0 _ _ K (proj1 A) m Hm).
    destruct (IH (ID m) R (D ++ List.filter is_pending (M' ++ [m])) w2 c2 s2) as (left & w3 & c3 & s3 & E3 & A3 & G); try done.
    { apply (boundary_next bAt lastID M'). by rewrite E, EB, <- app_assoc. }
    { rewrite length_app in LB, Hge. cbn in LB, Hge. lia. }
    exists left, w3, c3, s3. split; [done|]. rewrite EB. rewrite !List.filter_app in *. rewrite app_assoc in A3. split; [by rewrite <- !app_assoc in *|].
    rewrite !length_app in *. cbn in *. lia.
Qed.

(** *** Stage 2 *)

(** The cursor, between the rows scanned and those left. *)
Definition cursor (before rest : list message) (pos : scanPos) (strict : bool) : Prop :=
  (forall m, m ∈ before -> CreatedAt m <= ts pos)
  /\ if strict then forall m, m ∈ rest -> ts pos < CreatedAt m
     else (forall m, m ∈ rest -> ts pos <= CreatedAt m)
          /\ offset pos = length (List.filter (fun m => CreatedAt m =? ts pos) before).

Lemma filter_none {A} (p : A -> bool) l : (forall x, x ∈ l -> p x = false) -> List.filter p l = [].
Proof. intros H. rewrite (filter_ext_in p (fun _ => false)), filter_false; [done|]. intros x Hx%list_elem_of_In. auto. Qed.

Lemma cursor_next before m rest pos strict : StronglySorted pos_lt (m :: rest) ->
  cursor before (m :: rest) pos strict -> cursor (before ++ [m]) rest (advance_pos pos m) false.
Proof.
  intros S [H1 H2]. apply StronglySorted_inv in S as [_ F].
  assert (G : forall x, x ∈ rest -> CreatedAt m <= CreatedAt x).
  { intros x Hx. apply (proj1 (Forall_forall _ _) F) in Hx. unfold pos_lt in Hx. lia. }
  assert (H0 : ts pos <= CreatedAt m /\ (strict = true -> ts pos < CreatedAt m)).
  { destruct strict; [pose proof (H2 m); split; [|intros _]; set_solver by lia|]. destruct H2 as [H2 _].
    split; [apply H2; set_solver|done]. }
  unfold advance_pos. destruct (Z.eqb_spec (CreatedAt m) (ts pos)) as [E|E].
  - destruct strict; [lia|]. destruct H2 as [H2 H3]. split; cbn.
    + intros x [Hx| ->%list_elem_of_singleton]%elem_of_app; [auto|lia].
    + split; [intros x Hx; specialize (G x Hx); lia|]. rewrite List.filter_app, length_app, H3. cbn.
      rewrite E, Z.eqb_refl. cbn. lia.
  - split; cbn.
    + intros x [Hx| ->%list_elem_of_singleton]%elem_of_app; [|lia]. specialize (H1 x Hx). lia.
    + split; [done|]. rewrite List.filter_app, filter_none; cbn; [by rewrite Z.eqb_refl|].
      intros x Hx. specialize (H1 x Hx). lia.
Qed.

Lemma cursor_page before M rest pos strict : StronglySorted pos_lt (M ++ rest) -> M <> [] ->
  cursor before (M ++ rest) pos strict -> cursor (before ++ M) rest (fold_left advance_pos M pos) false.
Proof.
  revert before pos strict. induction M as [|m M IH]; intros before pos strict S N C; [done|]. cbn.
  apply cursor_next in C; [|done]. apply StronglySorted_inv in S as [S _].
  rewrite cons_middle, app_assoc. destruct M as [|m2 M]; [by rewrite app_nil_r|]. by eapply IH.
Qed.

Lemma fold_advance t D M pos : acked t0 D t -> (forall m, m ∈ M -> m ∈ L) ->
  fold_left advance_pos (map (upd t) M) pos = fold_left advance_pos M pos.
Proof.
  intros A. revert pos. induction M as [|m M IH]; intros pos H; cbn; [done|]. rewrite IH by set_solver. f_equal.
  destruct (upd_in t0 t D K A m) as (_ & F & _); [set_solver|]. unfold fixed in F. injection F as F1 F2 _ _ _ _.
  unfold advance_pos. by rewrite F2.
Qed.

(** What [scanForward] finds at the cursor. *)
Lemma scan_select before R D pos strict limit s : List.filter (of_topic topic) L = before ++ R ->
  cursor before R pos strict -> at_ D s ->
  exists s', scanForward (fun _ t => t) (fun _ => false) topic pos limit strict s
             = (s', Ok (map (upd (messages s)) (take limit R))) /\ at_ D s'.
Proof.
  intros E [C1 C2] [A CC].
  assert (X : forall q off, drop off (List.filter q L) = R -> (forall m, m ∈ L -> q (upd (messages s) m) = q m) ->
    exists s', query q off limit s = (s', Ok (map (upd (messages s)) (take limit R))) /\ at_ D s').
  { intros q off Hq Hu. destruct (query_at D q off limit s) as (s1 & E1 & A1); [done|]. exists s1.
    rewrite E1, (acked_select t0 _ _ K A), <- Hq. split; [|done]. do 5 f_equal. apply filter_ext_in.
    intros m Hm%list_elem_of_In. by apply Hu. }
  assert (U : forall m, m ∈ L -> Topic (upd (messages s) m) = Topic m /\ CreatedAt (upd (messages s) m) = CreatedAt m).
  { intros m Hm. destruct (upd_in t0 _ _ K A m Hm) as (_ & F & _). unfold fixed in F. by injection F. }
  unfold scanForward. destruct strict; apply X; try done; cbn.
  - unfold where_beyond. rewrite <- filter_filter, E. apply filter_last; intros m Hm; [specialize (C1 m Hm)|specialize (C2 m Hm)]; lia.
  - intros m Hm. unfold where_beyond, of_topic. by destruct (U m Hm) as [-> ->].
  - destruct C2 as [C2 C3]. rewrite C3.
    assert (F : List.filter (where_from topic (ts pos)) L = List.filter (fun m => CreatedAt m =? ts pos) before ++ R).
    { rewrite (filter_ext_in _ (fun m => of_topic topic m && (CreatedAt m >=? ts pos))).
      - rewrite <- filter_filter, E, List.filter_app. f_equal.
        + apply filter_ext_in. intros m Hm%list_elem_of_In. specialize (C1 m Hm). lia.
        + rewrite (filter_ext_in _ (fun _ => true)), filter_true; [done|]. intros m Hm%list_elem_of_In. specialize (C2 m Hm). lia.
      - intros m Hm%list_elem_of_In. unfold where_from, IsZero. specialize (Hzero m Hm).
        destruct (Z.eqb_spec (ts pos) zero_time); cbn; [|done]. f_equal. lia. }
    by rewrite F, drop_app_length.
  - intros m Hm. unfold where_from, of_topic. by destruct (U m Hm) as [-> ->].
Qed.

Lemma stage2_at cutoff pages before R D pos strict w c s :
  List.filter (of_topic topic) L = before ++ R -> cursor before R pos strict ->
  pick D [] R -> at_ D s -> (length R < pages * batch)%nat ->
  exists w' c' s', stage2 pages pos strict cutoff w c s = (s', Ok (true, (w', c'))) /\ at_ (D ++ List.filter is_pending R) s'.
Proof.
  revert before R D pos strict w c s. induction pages as [|pages IH]; intros before R D pos strict w c s E C P A Hl; [lia|]. rewrite Nat.mul_succ_l in Hl.
  cbn [Relay.stage2]. destruct (scan_select before R D pos strict batch s E C A) as (s1 & E1 & A1). rewrite E1.
  destruct R as [|r R'].
  { rewrite take_nil. cbn. exists w, c, s1. by rewrite app_nil_r. }
  set (R := r :: R') in *. apply (pick_split _ _ batch) in P.
  assert (EB : R = take batch R ++ drop batch R) by by rewrite take_drop.
  assert (Hd : (length (take batch R) = batch \/ drop batch R = [])%nat).
  { destruct (decide (batch <= length R)%nat); [left; rewrite length_take; lia|right; apply drop_ge; lia]. }
  assert (HM : (0 < length (take batch R))%nat) by (unfold R; rewrite length_take; cbn; lia).
  set (M := take batch R) in *. set (R2 := drop batch R) in *. clearbody M R2 R.
  assert (LB : length R = (length M + length R2)%nat) by by rewrite EB, length_app.
  assert (HL : forall m, m ∈ M -> m ∈ L) by (intros m Hm; apply (proj1 P m); rewrite elem_of_app; by left).
  destruct (map (upd (messages s)) M) as [|x page] eqn:EM; [by destruct M; cbn in *; [lia|]|]. rewrite <- EM.
  assert (Em : messages s1 = messages s). { destruct A as [A _]. unfold scanForward, Relay.query, read in E1. destruct strict; by injection E1 as <-. }
  apply (deliver_pick D M R2); [done|by rewrite Em|done|].
  intros w2 c2 s2 A2. rewrite length_map. destruct (Nat.ltb_spec (length M) batch) as [Hlt|Hge].
  - exists w2, c2, s2. split; [done|]. destruct Hd as [|R0]; [lia|]. by rewrite EB, R0, app_nil_r.
  - rewrite (fold_advance _ _ _ _ (proj1 A) HL).
    assert (S : StronglySorted pos_lt (M ++ R2)).
    { assert (X := StronglySorted_filter _ (of_topic topic) _ L_sorted). rewrite E, EB in X. by apply StronglySorted_app_1_r in X. }
    rewrite EB in C. apply cursor_page in C; [|done|by intros ->; cbn in HM; lia].
    destruct (IH (before ++ M) R2 (D ++ List.filter is_pending M) (fold_left advance_pos M pos) false w2 c2 s2)
      as (w3 & c3 & s3 & E3 & A3); try done.
    { by rewrite E, EB, app_assoc. }
    { by apply pick_rest in P. }
    { lia. }
    exists w3, c3, s3. split; [done|]. by rewrite EB, List.filter_app, app_assoc.
Qed.

(** *** The sweep *)

Notation T := (List.filter (of_topic topic) L).

(** At or before the watermark; at or before its timestamp. *)
Definition at_or_before (w : watermark) (m : message) : bool :=
  (CreatedAt m <? At w) || ((CreatedAt m =? At w) && (ID m <=? wID w)).

Definition todo : list message := List.filter (fun m => of_topic topic m && is_pending m) L.

Lemma topic_split w :
  T = List.filter (at_or_before w) T ++ List.filter (where_boundary topic (At w) (wID w)) L
      ++ List.filter (where_beyond topic (At w)) L.
Proof.
  assert (S : StronglySorted pos_le T) by apply StronglySorted_filter, in_order_sorted.
  rewrite (split_sorted (at_or_before w) T S) at 1.
  2: { intros a b. unfold pos_le, at_or_before. lia. }
  f_equal. rewrite (split_sorted (fun m => CreatedAt m <=? At w) (List.filter (fun m => negb (at_or_before w m)) T)).
  2: { by apply StronglySorted_filter. }
  2: { intros a b. unfold pos_le. lia. }
  rewrite !filter_filter. f_equal; apply filter_ext; intros m; unfold at_or_before, where_boundary, where_beyond;
    destruct (of_topic topic m); cbn; lia.
Qed.

Lemma todo_split w :
  todo = List.filter (where_behind topic w) L ++ List.filter is_pending (List.filter (where_boundary topic (At w) (wID w)) L)
      ++ List.filter is_pending (List.filter (where_beyond topic (At w)) L).
Proof.
  unfold todo. rewrite <- filter_filter, (topic_split w), !List.filter_app. f_equal. rewrite !filter_filter.
  apply filter_ext. intros m. unfold where_behind, at_or_before.
  by destruct (of_topic topic m), (is_pending m), (_ || _).
Qed.

Lemma finish_at cutoff D w c s : at_ D s ->
  exists s', (let '(s, cand) := (let '(s, f) := quietly frontier cutoff s in
              match f with
              | Some f => (s, if ok f && after c (At f) (wID f) then f else c)
              | None => (s, c)
              end) in
         let '(s, _) := persist w cand s in (s, Ok tt)) = (s', Ok (E:=relay_error) tt) /\ at_ D s'.
Proof.
  intros A. unfold frontier, read. cbn. set (c' := if _ && _ then _ else _). set (s1 := advance _ _).
  destruct (persist_at D w c' s1 A) as (s2 & w2 & E2 & A2). rewrite E2. eauto.
Qed.

Lemma pick_beyond w D : (forall m, m ∈ D -> m ∈ L /\ CreatedAt m <= At w) ->
  pick D [] (List.filter (where_beyond topic (At w)) L).
Proof.
  intros HD. split; [|split; [|split]].
  - intros m [I W]%elem_of_filter_bool. apply andb_true_iff in W. by split; [|apply W].
  - intros m [I [_ W]%andb_true_iff]%elem_of_filter_bool X. apply HD in X. lia.
  - intros m X. by apply HD in X as [X _].
  - apply (NoDup_fmap_1 ID). by apply distinct_filter, ordered_distinct.
Qed.

(** The scan from a stored watermark. *)
Lemma scan_at cutoff w pages s :
  at_ [] s -> (length T + 2 * batch <= pages * batch)%nat ->
  exists w' c' s', (do! pages <- lookbehind pages w in
       do! st <- stage1 pages (At w) (wID w) cutoff w w in
       stage2 st.1 (ScanPos (At w) 0) true cutoff st.2.1 st.2.2) s = (s', Ok (true, (w', c'))) /\ at_ todo s'.
Proof.
  intros A Hp. pose proof (topic_split w) as ET.
  set (P1 := List.filter (where_behind topic w) L). set (B := List.filter (where_boundary topic (At w) (wID w)) L) in *.
  set (R := List.filter (where_beyond topic (At w)) L) in *.
  assert (L1 : (length P1 <= length (List.filter (at_or_before w) T))%nat).
  { transitivity (length (List.filter is_pending (List.filter (at_or_before w) T))); [|apply filter_length_le].
    rewrite !filter_filter. apply Nat.eq_le_incl, f_equal, filter_ext. intros m. unfold where_behind, at_or_before.
    by destruct (of_topic topic m), (is_pending m), (_ || _). }
  assert (LT : length T = (length (List.filter (at_or_before w) T) + (length B + length R))%nat)
    by (rewrite ET at 1; by rewrite !length_app).
  assert (H1 : forall m, m ∈ P1 -> m ∈ L /\ at_or_before w m = true).
  { intros m [I W]%elem_of_filter_bool. split; [done|]. by apply andb_true_iff in W as [_ W]. }
  assert (HB : forall m, m ∈ B -> m ∈ L /\ CreatedAt m = At w /\ wID w < ID m).
  { intros m [I W]%elem_of_filter_bool. split; [done|]. apply andb_true_iff in W as [_ W]. lia. }
  destruct (lookbehind_at w pages [] P1 s) as (p1 & s1 & E1 & A1 & G1); [done|done|lia|].
  unfold bind. rewrite E1. cbn in A1.
  destruct (stage1_at (At w) cutoff p1 (wID w) B P1 w w s1) as (p2 & w2 & c2 & s2 & E2 & A2 & G2); [done| |done|lia|].
  { apply boundary_pick; [|intros m Hm; by apply H1]. intros m Hm Hm1. apply HB in Hm. apply H1 in Hm1 as [_ Hm1].
    unfold at_or_before in Hm1. lia. }
  rewrite E2. cbn.
  destruct (stage2_at cutoff p2 (List.filter (at_or_before w) T ++ B) R (P1 ++ List.filter is_pending B)
    (ScanPos (At w) 0) true w2 c2 s2) as (w3 & c3 & s3 & E3 & A3).
  - by rewrite <- app_assoc.
  - split; cbn.
    + intros m [[_ Hm]%elem_of_filter_bool|Hm%HB]%elem_of_app; [unfold at_or_before in Hm; lia|lia].
    + intros m [_ W]%elem_of_filter_bool. apply andb_true_iff in W as [_ W]. lia.
  - apply pick_beyond. intros m [[I W]%H1|[[I W]%HB _]%elem_of_filter_bool]%elem_of_app; split; try done; [|lia].
    unfold at_or_before in W. lia.
  - done.
  - lia.
  - exists w3, c3, s3. split; [done|]. by rewrite (todo_split w), app_assoc.
Qed.

Notation sweep := (quietly sweep now (fun _ => false) handler (fun _ => false) topic retry settle batch maxPages).
Notation run := (quietly run now (fun _ => false) handler (fun _ => false) topic retry settle batch maxPages).

(** A scan from the beginning. *)
Lemma scan_all cutoff pages pos w c s :
  at_ [] s -> pos = ScanPos zero_time 0 -> (length T < pages * batch)%nat ->
  exists w' c' s', stage2 pages pos false cutoff w c s = (s', Ok (true, (w', c'))) /\ at_ todo s'.
Proof.
  intros A -> Hp. destruct (stage2_at cutoff pages [] T [] (ScanPos zero_time 0) false w c s) as (w3 & c3 & s3 & E3 & A3); try done.
  - split; [intros m []%not_elem_of_nil|]. split; [|done]. intros m [I _]%elem_of_filter_bool. by apply Hzero.
  - split; [|split; [|split]]; cbn; [|set_solver|set_solver|].
    + by intros m ?%elem_of_filter_bool.
    + apply (NoDup_fmap_1 ID). by apply distinct_filter, ordered_distinct.
  - exists w3, c3, s3. split; [done|]. cbn in A3. by rewrite filter_filter in A3.
Qed.

(** The watermarks that are stored: [save] stores no other. *)
Definition stored_ok (s : world) : Prop := forall w, watermarks s !! topic = Some w -> ok w = true.

Lemma sweep_at s : at_ [] s -> stored_ok s -> (length T + 2 * batch <= maxPages * batch)%nat ->
  exists s', sweep s = (s', Ok tt) /\ at_ todo s'.
Proof.
  intros A W Hp. unfold Relay.sweep, load, read. cbn. set (w := default _ _).
  set (cutoff := now _ - _). set (s1 := advance _ _). assert (A1 : at_ [] s1) by done. clearbody s1 cutoff.
  destruct (ok w) eqn:Ew.
  - destruct (scan_at cutoff w maxPages s1 A1 Hp) as (w3 & c3 & s3 & E3 & A3).
    unfold bind in *. destruct (lookbehind maxPages w s1) as [s2 [p2|e]]; [|done].
    destruct (stage1 p2 _ _ _ _ _ s2) as [s4 [st|e]]; [|done]. rewrite E3. apply finish_at. done.
  - unfold bind at 1 2, ret. cbn.
    destruct (scan_all cutoff maxPages (ScanPos (At w) 0) w w s1) as (w3 & c3 & s3 & E3 & A3); [done| |lia|].
    { subst w. destruct (watermarks s !! topic) as [w|] eqn:E; [|done]. cbn in Ew. by rewrite (W w E) in Ew. }
    unfold bind. rewrite E3. apply finish_at. done.
Qed.

(** After the sweep nothing of the topic is pending. *)
Lemma todo_done s : at_ todo s ->
  List.filter (fun m => of_topic topic m && is_pending m) (rows (messages s)) = [].
Proof.
  intros [A _]. apply filter_none. intros m' H.
  apply elem_of_rows in H; [|by eapply acked_keyed].
  destruct (proj1 (acked_dom _ _ _ A (ID m'))) as [m Hm]; [eauto|].
  destruct (acked_row _ _ _ A _ _ _ Hm H) as [F P]. pose proof (K _ _ Hm) as Em.
  apply not_true_iff_false. intros [Ht Hp]%andb_true_iff. rewrite P in Hp. apply andb_true_iff in Hp as [Hp Hd].
  rewrite bool_decide_true in Hd; [done|]. unfold fixed in F. injection F as F1 _ F3 _ _ _.
  rewrite F1. apply list_elem_of_fmap. exists m. split; [done|]. apply elem_of_filter_bool. split.
  - apply elem_of_ordered; [done|]. by rewrite Em.
  - unfold of_topic in *. rewrite <- F3, Ht. done.
Qed.

Lemma run_at s : at_ [] s -> stored_ok s -> (length T + 2 * batch <= maxPages * batch)%nat ->
  exists s', run false s = (s', Ok tt) /\ at_ todo s' /\ backlog s' = BacklogState 0 zero_time.
Proof.
  intros A W Hp. unfold Relay.run. destruct (sweep_at (set_head no_head s)) as (s1 & E1 & A1); [done..|].
  rewrite E1. unfold countBacklog, read. cbn. rewrite (todo_done s1 A1). cbn. eexists. split; [reflexivity|]. done.
Qed.
End quiet.

(** [C11] A sweep that nothing disturbs finishes a topic that fits in its page
    budget.  From any table and any stored watermark, whatever it claims: when
    the handler takes every message, no pending message's next try is in the
    future, nothing fails, stops or writes beside it, and the topic's messages
    fill at most two pages less than the budget - the code's maxSweepPages is
    100, so 9800 messages at its batch of 100 - the sweep succeeds; it has handed exactly the
    topic's pending messages to the handler, each once, in the order of
    created_at and id; it leaves none pending and Stats without a backlog. *)
Theorem run_delivers_all now handler topic retry settle batch maxPages s :
  (forall n m, handler n m = HOk) ->
  keyed (messages s) -> (0 < batch)%nat ->
  (forall m, m ∈ rows (messages s) -> zero_time <= CreatedAt m) ->
  (forall m, m ∈ rows (messages s) -> of_topic topic m = true -> is_pending m = true ->
    match RetryAt m with Some t => forall n, t <= now n | None => True end) ->
  (forall w, watermarks s !! topic = Some w -> ok w = true) ->
  (length (List.filter (of_topic topic) (rows (messages s))) + 2 * batch <= maxPages * batch)%nat ->
  exists s',
    run (fun _ t => t) (fun _ => false) now (fun _ => false) handler (fun _ => false) topic retry settle
      batch maxPages false s = (s', Ok tt)
    /\ calls s' = calls s ++ map (fun m => (ID m, Taken))
         (in_order (List.filter (fun m => of_topic topic m && is_pending m) (rows (messages s))))
    /\ (forall id m, messages s' !! id = Some m -> of_topic topic m = true -> is_pending m = false)
    /\ backlog s' = BacklogState 0 zero_time.
Proof.
  intros Hh K Hb Hz Hd W Hp.
  assert (O : forall m, m ∈ ordered (messages s) -> m ∈ rows (messages s)) by (intros m Hm; by rewrite <- (in_order_perm (rows _))).
  destruct (run_at now handler topic retry settle batch maxPages (messages s) (calls s) Hh K Hb) with (s := s)
    as (s' & E & A & B); [intros m Hm; by apply Hz, O|intros m Hm; by apply Hd, O| |done| |].
  - split; [apply acked_refl|]. by rewrite app_nil_r.
  - unfold ordered. rewrite <- in_order_filter by by apply rows_distinct. by rewrite (Permutation_length (in_order_perm _)).
  - exists s'. split; [done|]. rewrite in_order_filter by by apply rows_distinct. split; [apply A|]. split; [|done].
    intros id m Hm Ht. apply not_true_iff_false. intros Hpend.
    assert (K' : keyed (messages s')) by (eapply acked_keyed; [exact K|apply A]).
    assert (X : m ∈ List.filter (fun m => of_topic topic m && is_pending m) (rows (messages s'))).
    { apply elem_of_filter_bool. split; [|by rewrite Ht]. apply elem_of_rows; [done|]. by rewrite (K' id m Hm). }
    rewrite (todo_done topic (messages s) (calls s) K s' A) in X. set_solver.
Qed.

(** Four messages, one of them done and one of another topic, and a stored
    watermark in their middle: [behind] has committed late. *)
Definition late_commit : world :=
  let t : table := <[7 := Message 7 10 (str "mail") (str "late") 0 None [] None]>
    (<[2 := Message 2 20 (str "mail") (str "b") 0 None [] (Some 25)]>
    (<[3 := Message 3 20 (str "mail") (str "c") 1 (Some 50) [] None]>
    (<[4 := Message 4 20 (str "other") (str "d") 0 None [] None]> ∅))) in
  World 0 t ∅ {[ str "mail" := Watermark 20 2 true ]} no_head (BacklogState 9 9) 0 0 [].

Lemma run_delivers_all_witness :
  exists s',
    run (fun _ t => t) (fun _ => false) (fun _ => 100) (fun _ => false) (fun _ _ => HOk) (fun _ => false)
      (str "mail") (RetryPolicy 3 7 60) 5 2 5 false late_commit = (s', Ok tt)
    /\ calls s' = [(7, Taken); (3, Taken)]
    /\ (forall id m, messages s' !! id = Some m -> of_topic (str "mail") m = true -> is_pending m = false)
    /\ backlog s' = BacklogState 0 zero_time.
Proof.
  apply (run_delivers_all (fun _ => 100) (fun _ _ => HOk) (str "mail") (RetryPolicy 3 7 60) 5 2 5 late_commit).
  - done.
  - intros id m H. cbn in H. repeat (apply lookup_insert_Some in H as [[<- <-]|[_ H]]; [done|]). done.
  - lia.
  - refine (proj1 (Forall_forall _ _) _). vm_compute. repeat (apply Forall_cons_2; [discriminate|]). apply Forall_nil_2.
  - refine (proj1 (Forall_forall _ _) _). vm_compute. repeat (apply Forall_cons_2; [discriminate || done|]). apply Forall_nil_2.
  - intros w Hw. vm_compute in Hw. by injection Hw as <-.
  - vm_compute. lia.
Defined.
