(* ===== verification/RelayRetry.v ===== *)
(** The waits between the tries of a failing message, and the error texts
    kept with it (jobs/relay.go). *)

From Stdlib Require Import ZArith Lia List Ascii.
From stdpp Require Import base decidable list.
From S2P Require Import Prelude GoStrings Utf8 JobsStore Relay.

(** ** Waits *)

Lemma delay_loop_spec maxB k d : 0 <= d <= MaxInt64 -> 0 <= maxB <= MaxInt64 ->
  delay_loop maxB k d = Z.min (d * 2 ^ Z.of_nat k) maxB.
Proof.
  intros Hd Hm. revert d Hd. induction k as [|k IH]; intros d Hd; cbn [delay_loop]; [lia|].
  rewrite Nat2Z.inj_succ, Z.pow_succ_r by lia. assert (1 <= 2 ^ Z.of_nat k) by (apply (Z.pow_le_mono_r 2 0); lia).
  pose proof (Z.quot_rem' maxB 2). pose proof (Z.rem_bound_pos maxB 2).
  destruct (Z.ltb_spec d maxB).
  - destruct (d >? maxB ÷ 2) eqn:E.
    + rewrite Z.min_r; [done|]. nia.
    + rewrite int64_id by (unfold MinInt64, MaxInt64 in *; lia). rewrite IH by lia. f_equal. lia.
  - rewrite Z.min_r by lia. rewrite Z.min_r; [done|]. nia.
Qed.

(** The wait after a message's [n]-th failure is the backoff doubled
    [n - 1] times, at most the maximum: for every backoff and maximum that a
    time.Duration holds and for every count, without an overflow on the way.
    So it never decreases from one failure to the next. *)
Theorem delay_spec p n :
  0 <= backoff p <= MaxInt64 -> 0 <= maxBackoff p <= MaxInt64 -> 1 <= n ->
  delay p n = Z.min (backoff p * 2 ^ (n - 1)) (maxBackoff p)
  /\ delay p n <= delay p (n + 1) <= maxBackoff p.
Proof.
  intros Hb Hm Hn. unfold delay. rewrite !delay_loop_spec by done. rewrite !Z2Nat.id by lia.
  replace (n + 1 - 1) with (Z.succ (n - 1)) by lia. rewrite Z.pow_succ_r by lia.
  assert (0 < 2 ^ (n - 1)) by (apply Z.pow_pos_nonneg; lia). split; [done|]. split; [|lia].
  apply Z.min_le_compat_r. nia.
Qed.

Lemma delay_spec_witness :
  map (delay (RetryPolicy 10 1 300)) [1; 2; 3; 4; 9; 10; 70] = [1; 2; 4; 8; 256; 300; 300]
  /\ delay (RetryPolicy 10 (2 ^ 62) MaxInt64) 2 = Z.min (2 ^ 62 * 2 ^ (2 - 1)) MaxInt64
  /\ delay (RetryPolicy 10 (2 ^ 62) MaxInt64) 2 <= delay (RetryPolicy 10 (2 ^ 62) MaxInt64) (2 + 1) <= MaxInt64.
Proof.
  split; [vm_compute; reflexivity|].
  apply (delay_spec (RetryPolicy 10 (2 ^ 62) MaxInt64) 2); cbn [backoff maxBackoff]; unfold MaxInt64; lia.
Defined.

(** ** Error texts *)

Lemma cut_back_spec fuel s : (length s <= fuel)%nat ->
  exists k, (k <= length s)%nat /\ cut_back fuel s = take k s /\ (k = 0%nat \/ ValidString (take k s) = true)
    /\ forall j, (k < j <= length s)%nat -> ValidString (take j s) = false.
Proof.
  revert s. induction fuel as [|fuel IH]; intros s L; cbn [cut_back].
  - exists 0%nat. destruct s; [|cbn in L; lia]. cbn. split; [lia|]. split; [done|]. split; [by left|lia].
  - destruct (Nat.ltb_spec 0 (length s)) as [H|H].
    + destruct (ValidString s) eqn:V; cbn [negb andb].
      * exists (length s). rewrite firstn_all. split; [lia|]. split; [done|]. split; [by right|lia].
      * destruct (IH (take (length s - 1) s)) as (k & Hk & E & O & N); [rewrite length_take; lia|].
        rewrite length_take in Hk, N. rewrite take_take in E, O. rewrite Nat.min_l in E, O by lia.
        exists k. split; [lia|]. split; [done|]. split; [done|]. intros j Hj.
        destruct (decide (j = length s)) as [->|]; [by rewrite firstn_all|].
        rewrite <- (N j) by lia. rewrite take_take. by rewrite Nat.min_l by lia.
    + exists 0%nat. destruct s; [|cbn in H; lia]. cbn. split; [lia|]. split; [done|]. split; [by left|lia].
Qed.

(** What is stored of an error: all of a text of at most 2000 bytes; of
    a longer one the longest prefix of at most 2000 bytes that is UTF-8, which
    loses at most three of the 2000 when the text is UTF-8. *)
Theorem errorText_spec s :
  exists k, errorText s = take k s /\ (length (errorText s) <= maxErrorLen)%nat
    /\ ((length s <= maxErrorLen)%nat -> errorText s = s)
    /\ ((maxErrorLen < length s)%nat ->
          (k = 0%nat \/ ValidString (errorText s) = true)
          /\ (forall j, (k < j <= maxErrorLen)%nat -> ValidString (take j s) = false)
          /\ (ValidString s = true -> (maxErrorLen - 3 <= length (errorText s))%nat)).
Proof.
  unfold errorText. destruct (Nat.leb_spec (length s) maxErrorLen) as [H|H].
  { exists (length s). rewrite firstn_all. split; [done|]. split; [done|]. split; [done|]. lia. }
  destruct (cut_back_spec maxErrorLen (take maxErrorLen s)) as (k & Hk & E & O & N); [rewrite length_take; lia|].
  rewrite length_take in Hk, N. rewrite take_take in E, O. rewrite Nat.min_l in E, O by lia.
  assert (N' : forall j, (k < j <= maxErrorLen)%nat -> ValidString (take j s) = false).
  { intros j Hj. rewrite <- (N j) by lia. by rewrite take_take, Nat.min_l by lia. }
  exists k. rewrite E, length_take. split; [done|]. split; [lia|]. split; [lia|]. intros _. split; [done|]. split; [done|].
  intros V. destruct (valid_cut s maxErrorLen V) as (m & Hm & Vm); [lia|].
  destruct (decide (k < m)%nat); [|lia]. rewrite (N' m) in Vm; [done|lia].
Qed.
