(* ===== verification/JobsCore.v ===== *)
(** jobs/core.go and jobs/dead.go: enqueueing in the caller's transaction,
    the retention cleanup, and the calls that read, requeue and discard dead
    letters. *)

From Stdlib Require Import ZArith Lia List Ascii Sorted.
From stdpp Require Import base decidable list gmap strings sorting.
From S2P Require Import Prelude GoStrings GoTime JobsStore.

(** ** Enqueue (core.go) *)

Inductive enqueue_error := EBadTopic | EOutsideTx | EEncode | EInsert.

(** The caller's transaction: whether its context carries one of this
    handle, the rows it has written, the next id, and the clock. *)
Record txn := Txn { InTx : bool; staged : list message; next_id : Z; clock : Z }.

Definition new_message (id at_ : Z) (topic payload : gostring) : message :=
  {| ID := id; CreatedAt := at_; Topic := topic; Payload := payload; Attempts := 0; RetryAt := None;
     LastError := []; CompletedAt := None |}.

(** [gate]. *)
Definition gate (t : txn) (topic : gostring) : option enqueue_error :=
  if negb (checkTopic topic) then Some EBadTopic
  else if negb (InTx t) then Some EOutsideTx
  else None.

(** [insert]; [fails]: the database refuses. *)
Definition insert_message (fails : bool) (topic payload : gostring) (t : txn) : txn * option enqueue_error :=
  if fails then (t, Some EInsert)
  else ({| InTx := InTx t; staged := staged t ++ [new_message (next_id t) (clock t) topic payload];
           next_id := next_id t + 1; clock := clock t |}, None).

(** [enqueueJSON]; [json] is the encoded payload, [None] when it does not
    encode. *)
Definition enqueueJSON (fails : bool) (topic : gostring) (json : option gostring) (t : txn) : txn * option enqueue_error :=
  match gate t topic with
  | Some e => (t, Some e)
  | None => match json with
            | None => (t, Some EEncode)
            | Some raw => insert_message fails topic raw t
            end
  end.

(** ** The retention cleanup (core.go) *)

(** The lowest watermark, [None] when there is none. *)
Definition lower (floor : option Z) (w : watermark) : option Z :=
  match floor with
  | None => Some (At w)
  | Some f => if At w <? f then Some (At w) else Some f
  end.

Definition floor_of (states : gmap gostring watermark) : option Z :=
  fold_left lower (map snd (map_to_list states)) None.

(** WHERE created_at < cutoff AND completed_at IS NOT NULL AND topic IN topics. *)
Definition eligible (topics : list gostring) (cutoff : Z) (m : message) : bool :=
  (CreatedAt m <? cutoff) && negb (is_pending m) && bool_decide (Topic m ∈ topics).

Inductive cleanup_error := EAll | ESelect | EDelete | ECtx.

Section cleanup.
Context (others : nat -> table -> table) (db_fails : nat -> bool) (now : nat -> Z) (stopped : nat -> bool).

Definition delete_ids (ids : list Z) (t : table) : table :=
  filter (fun p => p.1 ∉ ids) t.

(** The loop: a batch is selected, then deleted, until one is short.  [None]
    when [fuel] runs out. *)
Fixpoint cleanup_loop (topics : list gostring) (cutoff : Z) (batchSize : nat) (fuel : nat) (total : Z) (s : world)
  : world * option (Z * option cleanup_error) :=
  match fuel with
  | O => (s, None)
  | S fuel' =>
      if stopped (tick s) then (s, Some (total, Some ECtx))
      else
        let '(s, r) := read others db_fails (fun s => map ID (select (eligible topics cutoff) 0 batchSize (messages s))) s in
        match r with
        | None => (s, Some (total, Some ESelect))
        | Some [] => (s, Some (total, None))
        | Some ids =>
            let s0 := advance others s in
            let affected := Z.of_nat (size (filter (fun p : Z * message => p.1 ∈ ids) (messages s0))) in
            let '(s, done_) := write_db others db_fails (fun s => set_messages (delete_ids ids (messages s)) s) s in
            if negb done_ then (s, Some (total, Some EDelete))
            else if (length ids <? batchSize)%nat then (s, Some (total + affected, None))
            else cleanup_loop topics cutoff batchSize fuel' (total + affected) s
        end
  end.

(** [cleanupOnce]. *)
Definition cleanupOnce (topics : list gostring) (retention : Z) (batchSize : nat) (fuel : nat) (s : world)
  : world * option (Z * option cleanup_error) :=
  match topics with
  | [] => (s, Some (0, None))
  | _ =>
      let '(s, r) := all_watermarks others db_fails s in
      match r with
      | None => (s, Some (0, Some EAll))
      | Some states =>
          if negb (forallb (fun topic => bool_decide (is_Some (states !! topic))) topics) then (s, Some (0, None))
          else
            match floor_of states with
            | None => (s, Some (0, None))
            | Some floor =>
                let cutoff := now (tick s) - retention in
                let cutoff := if floor <? cutoff then floor else cutoff in
                cleanup_loop topics cutoff batchSize fuel 0 s
            end
      end
  end.
End cleanup.

(** ** The dead letters (dead.go) *)

Definition defaultDeadLimit : Z := 100.
Definition maxDeadLimit : Z := 1000.
Definition deadChunk : nat := 500.

Definition parked_le (a b : deadRow) : Prop :=
  d_ParkedAt a < d_ParkedAt b \/ (d_ParkedAt a = d_ParkedAt b /\ d_ID a <= d_ID b).

#[global] Instance parked_le_dec : RelDecision parked_le.
Proof. intros a b. unfold parked_le. apply _. Defined.

(** [Dead]: [None] is its limitError. *)
Definition Dead (dl : gmap Z deadRow) (topic : gostring) (limit : Z) : option (list deadRow) :=
  if negb (limit =? 0) && ((limit <? 0) || (limit >? maxDeadLimit)) then None
  else
    let limit := if limit =? 0 then defaultDeadLimit else limit in
    let l := map snd (map_to_list dl) in
    let l := if seq_eqb topic [] then l else List.filter (fun r => seq_eqb (d_Topic r) topic) l in
    Some (map toDead (take (Z.to_nat limit) (merge_sort parked_le l))).

Inductive dead_error := ENotParked (ids : list Z) | ETakenMeanwhile | EDead.

(** slices.Compact. *)
Fixpoint compact (l : list Z) : list Z :=
  match l with
  | [] => []
  | x :: l' => match l' with
               | [] => [x]
               | y :: _ => if x =? y then compact l' else x :: compact l'
               end
  end.

(** slices.Chunk; [fuel] is at most the number of elements. *)
Fixpoint chunks {A} (n fuel : nat) (l : list A) : list (list A) :=
  match fuel, l with
  | O, _ | _, [] => []
  | S fuel', _ => take n l :: chunks n fuel' (drop n l)
  end.

(** The database in a transaction: what it would be if the transaction were
    rolled back, and what the transaction sees. *)
Record db_state := DB { db_messages : table; db_dead : gmap Z deadRow; db_next : Z }.
Record dtx := DTx { base : db_state; cur : db_state; stmt : nat }.

Section dead_letters.
(** The dead letters that other calls take before each statement, which
    statements fail, the clock. *)
Context (gone : nat -> list Z) (fails : nat -> bool) (now : Z).

Definition without (ids : list Z) (d : db_state) : db_state :=
  {| db_messages := db_messages d; db_dead := filter (fun p => p.1 ∉ ids) (db_dead d); db_next := db_next d |}.

(** One statement: other calls have committed; it may fail. *)
Definition statement {A} (f : db_state -> db_state * A) (t : dtx) : dtx * option A :=
  let b := without (gone (stmt t)) (base t) in
  let c := without (gone (stmt t)) (cur t) in
  if fails (stmt t) then ({| base := b; cur := c; stmt := S (stmt t) |}, None)
  else let '(c, a) := f c in
       (* an id once given is not given again, committed or not *)
       ({| base := {| db_messages := db_messages b; db_dead := db_dead b; db_next := db_next c |}; cur := c; stmt := S (stmt t) |},
        Some a).

(** The rows of a chunk of ids. *)
Fixpoint read_chunks (cs : list (list Z)) (t : dtx) : dtx * option (list deadRow) :=
  match cs with
  | [] => (t, Some [])
  | c :: cs' =>
      let '(t, r) := statement (fun d => (d, omap (fun id => db_dead d !! id) c)) t in
      match r with
      | None => (t, None)
      | Some part =>
          let '(t, rest) := read_chunks cs' t in
          (t, match rest with Some rest => Some (part ++ rest) | None => None end)
      end
  end.

Definition completed_at (at_ : Z) (m : message) : message :=
  match CompletedAt m with
  | Some _ => m
  | None => {| ID := ID m; CreatedAt := CreatedAt m; Topic := Topic m; Payload := Payload m; Attempts := Attempts m;
               RetryAt := RetryAt m; LastError := LastError m; CompletedAt := Some at_ |}
  end.

Definition complete_ids (ids : list Z) (d : db_state) : db_state * unit :=
  ({| db_messages := foldr (fun id t => alter (completed_at now) id t) (db_messages d) ids;
      db_dead := db_dead d; db_next := db_next d |}, tt).

Definition delete_dead (ids : list Z) (d : db_state) : db_state * Z :=
  (without ids d, Z.of_nat (size (filter (fun p : Z * deadRow => p.1 ∈ ids) (db_dead d)))).

Fixpoint delete_chunks (cs : list (list Z)) (deleted : Z) (t : dtx) : dtx * option Z :=
  match cs with
  | [] => (t, Some deleted)
  | c :: cs' =>
      let '(t, r) := statement (complete_ids c) t in
      match r with
      | None => (t, None)
      | Some _ =>
          let '(t, r) := statement (delete_dead c) t in
          match r with
          | None => (t, None)
          | Some n => delete_chunks cs' (deleted + n) t
          end
      end
  end.

(** [takeDead], in RunInTx: an error rolls the transaction back. *)
Definition commit (t : dtx) (e : option dead_error) : db_state * option dead_error :=
  match e with
  | Some e => (base t, Some e)
  | None => (cur t, None)
  end.

Definition take_body (ids : list Z) (then_ : list deadRow -> dtx -> dtx * option dead_error) (t : dtx) : dtx * option dead_error :=
  let '(t, r) := read_chunks (chunks deadChunk (length ids) ids) t in
  match r with
  | None => (t, Some EDead)
  | Some rows =>
      if (length rows <? length ids)%nat then
        let found := map d_ID rows in
        (t, Some (ENotParked (List.filter (fun id => negb (bool_decide (id ∈ found))) ids)))
      else
        let '(t, r) := delete_chunks (chunks deadChunk (length ids) ids) 0 t in
        match r with
        | None => (t, Some EDead)
        | Some deleted =>
            if negb (deleted =? Z.of_nat (length ids)) then (t, Some ETakenMeanwhile)
            else then_ rows t
        end
  end.

Definition takeDead (ids : list Z) (then_ : list deadRow -> dtx -> dtx * option dead_error) (d : db_state)
  : db_state * option dead_error :=
  let ids := compact (merge_sort Z.le ids) in
  if (length ids =? 0)%nat then (d, None)
  else let '(t, e) := take_body ids then_ {| base := d; cur := d; stmt := 0 |} in commit t e.

(** [Discard]. *)
Definition Discard (ids : list Z) : db_state -> db_state * option dead_error := takeDead ids (fun _ t => (t, None)).

(** [Requeue]: the rows in the order their messages were enqueued in. *)
Definition enqueued_le (a b : deadRow) : Prop :=
  d_CreatedAt a < d_CreatedAt b \/ (d_CreatedAt a = d_CreatedAt b /\ d_ID a <= d_ID b).

#[global] Instance enqueued_le_dec : RelDecision enqueued_le.
Proof. intros a b. unfold enqueued_le. apply _. Defined.

Definition requeue_row (r : deadRow) (d : db_state) : db_state * unit :=
  ({| db_messages := <[db_next d := new_message (db_next d) now (d_Topic r) (d_Payload r)]> (db_messages d);
      db_dead := db_dead d; db_next := db_next d + 1 |}, tt).

Fixpoint requeue_rows (rows : list deadRow) (t : dtx) : dtx * option dead_error :=
  match rows with
  | [] => (t, None)
  | r :: rows' =>
      let '(t, ok) := statement (requeue_row r) t in
      match ok with
      | None => (t, Some EDead)
      | Some _ => requeue_rows rows' t
      end
  end.

Definition Requeue (ids : list Z) : db_state -> db_state * option dead_error :=
  takeDead ids (fun rows t => requeue_rows (merge_sort enqueued_le rows) t).
End dead_letters.
