(* ===== verification/JobsCoreSpec.v ===== *)
(** What the cleanup deletes, and that taking dead letters is all or
    nothing. *)

From Stdlib Require Import ZArith Lia List Ascii Sorted.
From stdpp Require Import base decidable list gmap strings sorting.
From S2P Require Import Prelude GoStrings GoTime JobsStore JobsCore.

(** ** The cleanup *)

(** The database's other users: a pending message stays as it is, and rows
    are under their ids. *)
Definition keeps_pending (others : nat -> table -> table) : Prop :=
  forall n t, (keyed t -> keyed (others n t))
    /\ forall id m, t !! id = Some m -> is_pending m = true -> others n t !! id = Some m.

(** Lookups in a table without some ids. *)
Lemma delete_ids_Some ids t id m : delete_ids ids t !! id = Some m <-> t !! id = Some m /\ id ∉ ids.
Proof. unfold delete_ids. by rewrite map_lookup_filter_Some. Qed.

Lemma selected p n t m : keyed t -> ID m ∈ map ID (select p 0 n t) -> t !! ID m = Some m -> p m = true.
Proof.
  intros K (m' & E & [Hr Hp]%elem_of_select)%list_elem_of_fmap H. apply elem_of_rows in Hr; [|done].
  rewrite <- E in Hr. by simplify_eq.
Qed.

Section cleanup_safe.
Context (others : nat -> table -> table) (db_fails : nat -> bool) (now : nat -> Z) (stopped : nat -> bool).
Context (Ho : keeps_pending others) (t0 : table).

(** What was pending is still there. *)
Definition safe (s : world) : Prop :=
  keyed (messages s) /\ forall id m, t0 !! id = Some m -> is_pending m = true -> messages s !! id = Some m.

Lemma advance_safe s : safe s -> safe (advance others s).
Proof.
  intros [K H]. destruct (Ho (tick s) (messages s)) as [Hk Hp]. split; [by apply Hk|]. intros id m Hm P. cbn. auto.
Qed.

Lemma delete_safe topics cutoff n s s0 : safe s0 -> safe s -> 
  safe (set_messages (delete_ids (map ID (select (eligible topics cutoff) 0 n (messages s0))) (messages s)) s).
Proof.
  intros [K0 H0] [K H]. split; cbn.
  - intros id m [Hm _]%delete_ids_Some. by apply K.
  - intros id m Hm P. apply delete_ids_Some. split; [by apply H|]. intros X. pose proof (H0 id m Hm P) as E.
    pose proof (K0 id m E) as <-. apply selected in X; [|done..]. unfold eligible in X. rewrite P in X.
    by rewrite andb_false_r in X.
Qed.

Lemma cleanup_loop_safe topics cutoff n fuel total s : safe s ->
  safe (cleanup_loop others db_fails stopped topics cutoff n fuel total s).1.
Proof.
  revert total s. induction fuel as [|fuel IH]; intros total s S; cbn [cleanup_loop]; [done|].
  destruct (stopped _); [done|]. unfold read, write_db.
  set (s1 := advance others s). assert (S1 : safe s1) by by apply advance_safe.
  destruct (db_fails _); [done|]. destruct (map ID _) as [|id ids] eqn:E; [done|]. rewrite <- E.
  set (s2 := advance others s1). assert (S2 : safe s2) by by apply advance_safe.
  destruct (db_fails (tick s2)); cbn [negb]; [done|].
  assert (S3 := delete_safe topics cutoff n s2 s1 S1 S2).
  destruct (_ <? _)%nat; [|apply IH]; by apply (delete_safe topics cutoff n s2 s1).
Qed.

Lemma cleanupOnce_safe topics retention n fuel s : safe s ->
  safe (cleanupOnce others db_fails now stopped topics retention n fuel s).1.
Proof.
  intros S. unfold cleanupOnce, all_watermarks, read. destruct topics as [|t topics]; [done|].
  apply advance_safe in S. destruct (db_fails _); [done|]. destruct (negb _); [done|].
  destruct (floor_of _); [|done]. by apply cleanup_loop_safe.
Qed.
End cleanup_safe.

(** *** Alone *)

Section cleanup_alone.
Context (now : nat -> Z).
Notation alone f := (f (fun _ t => t) (fun _ => false)).

Definition size_of (t : table) : Z := Z.of_nat (size t).

Lemma delete_size ids t :
  size_of (delete_ids ids t) + Z.of_nat (size (filter (fun p : Z * message => p.1 ∈ ids) t)) = size_of t.
Proof.
  unfold size_of, delete_ids. rewrite <- Nat2Z.inj_add, Nat.add_comm. f_equal.
  rewrite <- (map_filter_union_complement (fun p : Z * message => p.1 ∈ ids) t) at 3.
  rewrite map_size_disj_union; [done|]. apply map_disjoint_filter_complement.
Qed.

(** What a batch leaves to do. *)
Lemma delete_eligible p n t : keyed t ->
  let t' := delete_ids (map ID (select p 0 n t)) t in
  keyed t' /\ filter (fun q => p q.2 = false) t' = filter (fun q => p q.2 = false) t
  /\ ((length (select p 0 n t) < n)%nat -> t' = filter (fun q => p q.2 = false) t).
Proof.
  intros K t'. split; [|split].
  - intros id m [H _]%delete_ids_Some. by apply K.
  - apply map_eq. intros id. apply option_eq. intros m. rewrite map_lookup_filter_Some. unfold t'. rewrite delete_ids_Some, map_lookup_filter_Some. cbn.
    split; [tauto|]. intros [Hm Hp]. split; [|done]. split; [done|]. pose proof (K id m Hm) as <-.
    intros X. apply selected in X; [congruence|done..].
  - intros L. assert (E : select p 0 n t = in_order (List.filter p (rows t))).
    { unfold select in *. rewrite length_take in L. cbn in *. rewrite take_ge; [done|]. lia. }
    apply map_eq. intros id. apply option_eq. intros m. unfold t'. rewrite map_lookup_filter_Some, delete_ids_Some. cbn.
    split; intros [Hm Hp]; (split; [done|]); pose proof (K id m Hm) as <-.
    + apply not_true_iff_false. intros X. apply Hp. rewrite E. apply list_elem_of_fmap. exists m. split; [done|].
      rewrite in_order_perm. rewrite list_elem_of_In, filter_In, <- list_elem_of_In. split; [|done]. by apply elem_of_rows.
    + intros X. apply selected in X; [congruence|done..].
Qed.

Lemma batch_size p n t id ids : keyed t -> map ID (select p 0 n t) = id :: ids ->
  (0 < size (filter (fun q : Z * message => q.1 ∈ map ID (select p 0 n t)) t))%nat.
Proof.
  intros K E. assert (X : exists m, m ∈ select p 0 n t).
  { destruct (select _ _ _ _) as [|m l]; [done|]. exists m. by left. }
  destruct X as [m X]. pose proof X as [Hr _]%elem_of_select. apply elem_of_rows in Hr; [|done].
  apply Nat.neq_0_lt_0. intros Z0. apply map_size_empty_inv in Z0.
  assert (Y : filter (fun q : Z * message => q.1 ∈ map ID (select p 0 n t)) t !! ID m = Some m).
  { apply map_lookup_filter_Some. split; [done|]. cbn. apply list_elem_of_fmap. eauto. }
  rewrite Z0 in Y. by rewrite lookup_empty in Y.
Qed.

Lemma ends_with {E} (s : world) (a b : Z) (e : option E) : a = b -> (s, Some (a, e)) = (s, Some (b, e)).
Proof. by intros ->. Qed.

Lemma cleanup_loop_alone topics cutoff n fuel total s :
  keyed (messages s) -> (0 < n)%nat -> (size (messages s) < fuel)%nat ->
  exists s', alone cleanup_loop (fun _ => false) topics cutoff n fuel total s
      = (s', Some (total + (size_of (messages s) - size_of (messages s')), None))
    /\ messages s' = filter (fun q => eligible topics cutoff q.2 = false) (messages s)
    /\ dead s' = dead s.
Proof.
  intros K Hn. revert total s K. induction fuel as [|fuel IH]; intros total s K L; [lia|]. cbn [cleanup_loop].
  unfold read, write_db.
  destruct (delete_eligible (eligible topics cutoff) n (messages s) K) as (K' & E1 & E2).
  pose proof (delete_size (map ID (select (eligible topics cutoff) 0 n (messages s))) (messages s)) as Sz.
  pose proof (batch_size (eligible topics cutoff) n (messages s)) as Bs. cbn -[Nat.ltb].
  destruct (map ID _) as [|id ids] eqn:E.
  { exists (advance (fun _ t => t) s). split; [apply ends_with; cbn; lia|]. split; [|done]. cbn.
    apply map_eq_nil in E. rewrite E in E2. cbn in E2. rewrite <- E2 by lia. apply map_eq. intros id. apply option_eq. intros m.
    rewrite delete_ids_Some. set_solver. }
  specialize (Bs id ids K eq_refl). rewrite <- E in *. set (ids' := map ID _) in *.
  destruct (Nat.ltb_spec (length ids') n) as [Hlt|Hge].
  - eexists. split; [apply ends_with; cbn; lia|]. split; [|done]. cbn. apply E2. unfold ids' in Hlt. by rewrite length_map in Hlt.
  - set (s2 := set_messages _ _). destruct (IH (total + Z.of_nat (size (filter (fun p : Z * message => p.1 ∈ ids') (messages s)))) s2)
      as (s3 & E3 & M3 & D3); [done| |].
    { unfold size_of in Sz. cbn. lia. }
    exists s3. split; [|split; [by rewrite M3, <- E1|done]]. rewrite E3. apply ends_with. cbn. lia.
Qed.

(** The lowest of the watermarks. *)
Lemma lower_spec l f : fold_left lower l (Some f) <> None
  /\ forall g, fold_left lower l (Some f) = Some g -> g <= f /\ (forall w, w ∈ l -> g <= At w) /\ (g = f \/ exists w, w ∈ l /\ g = At w).
Proof.
  revert f. induction l as [|w l IH]; intros f; cbn.
  - split; [done|]. intros g [= <-]. split; [lia|]. split; [set_solver|by left].
  - set (f' := if At w <? f then At w else f).
    replace (if At w <? f then Some (At w) else Some f) with (Some f') by (unfold f'; by destruct (_ <? _)).
    destruct (IH f') as [N H]. split; [done|]. intros g E. destruct (H g E) as (L & M & O).
    assert (Hf : f' <= f /\ f' <= At w /\ (f' = f \/ f' = At w)) by (unfold f'; destruct (Z.ltb_spec (At w) f); lia).
    split; [lia|]. split; [intros x [-> |Hx]%elem_of_cons; [lia|by apply M]|].
    destruct O as [-> |(x & Hx & ->)]; [|right; exists x; set_solver].
    destruct Hf as (_ & _ & [-> | ->]); [by left|right; exists w; set_solver].
Qed.

Lemma floor_of_spec states topic w0 : states !! topic = Some w0 -> exists g, floor_of states = Some g
  /\ (forall t w, states !! t = Some w -> g <= At w) /\ (exists t w, states !! t = Some w /\ g = At w).
Proof.
  intros H0. unfold floor_of.
  assert (M : forall w, w ∈ map snd (map_to_list states) <-> exists t, states !! t = Some w).
  { intros w. rewrite list_elem_of_fmap. split.
    - intros ([t w'] & -> & H%elem_of_map_to_list). eauto.
    - intros [t H]. exists (t, w). split; [done|]. by apply elem_of_map_to_list. }
  destruct (map snd (map_to_list states)) as [|w l]; [exfalso; apply (not_elem_of_nil w0), M; eauto|]. cbn.
  destruct (lower_spec l (At w)) as [N H]. destruct (fold_left lower l (Some (At w))) as [g|]; [|done].
  destruct (H g eq_refl) as (L & Hm & O). exists g. split; [done|]. split.
  - intros t x Hx. assert (X : x ∈ w :: l) by (apply M; eauto). apply elem_of_cons in X as [-> |X]; [done|auto].
  - destruct O as [-> |(x & Hx & ->)]; [assert (X : w ∈ w :: l) by by left|assert (X : x ∈ w :: l) by by right];
      apply M in X as [t X]; eauto.
Qed.

Lemma cleanupOnce_alone topics retention n fuel s :
  keyed (messages s) -> (0 < n)%nat -> (size (messages s) < fuel)%nat ->
  topics <> [] -> (forall t, t ∈ topics -> is_Some (watermarks s !! t)) ->
  exists s' floor, alone cleanupOnce now (fun _ => false) topics retention n fuel s
      = (s', Some (size_of (messages s) - size_of (messages s'), None))
    /\ messages s' = filter (fun q => eligible topics (Z.min floor (now (S (tick s)) - retention)) q.2 = false) (messages s)
    /\ dead s' = dead s
    /\ (forall t w, watermarks s !! t = Some w -> floor <= At w) /\ (exists t w, watermarks s !! t = Some w /\ floor = At w).
Proof.
  intros K Hn L Ht Hw. unfold cleanupOnce, all_watermarks, read. destruct topics as [|t0 topics]; [done|]. cbn -[forallb].
  rewrite (proj2 (forallb_forall _ _)).
  2: { intros t Hin%list_elem_of_In. apply bool_decide_eq_true. auto. }
  destruct (Hw t0) as [w0 H0]; [by left|].
  destruct (floor_of_spec (watermarks s) t0 w0 H0) as (floor & -> & F1 & F2). cbn [negb].
  set (cutoff := if _ <? _ then _ else _).
  destruct (cleanup_loop_alone (t0 :: topics) cutoff n fuel 0 (advance (fun _ t => t) s)) as (s' & E & M & D); [done..|].
  exists s', floor. split; [exact E|]. split; [|split; [done|split; done]]. rewrite M.
  replace cutoff with (Z.min floor (now (S (tick s)) - retention)); [done|].
  unfold cutoff. destruct (Z.ltb_spec floor (now (S (tick s)) - retention)); lia.
Qed.
End cleanup_alone.

(** The cleanup never deletes a message that is not acknowledged:
    whatever other transactions commit between its statements, whichever of
    them fail and whenever a stop begins, every message that was pending when
    it started is there when it ends, unchanged. *)
Theorem cleanup_keeps_pending others db_fails now stopped topics retention n fuel s :
  keeps_pending others -> keyed (messages s) ->
  forall id m, messages s !! id = Some m -> is_pending m = true ->
    messages (cleanupOnce others db_fails now stopped topics retention n fuel s).1 !! id = Some m.
Proof.
  intros Ho K. destruct (cleanupOnce_safe others db_fails now stopped Ho (messages s) topics retention n fuel s) as [_ H]; [|done].
  split; [done|]. by intros id m Hm _.
Qed.

(** Messages of a topic that is swept and of one that is not. *)
Definition old_messages : world :=
  let t : table := <[1 := Message 1 10 (str "mail") (str "a") 0 None [] (Some 11)]>
    (<[2 := Message 2 20 (str "mail") (str "b") 0 None [] None]>
    (<[3 := Message 3 30 (str "mail") (str "c") 0 None [] (Some 31)]>
    (<[4 := Message 4 10 (str "other") (str "d") 0 None [] (Some 12)]>
    (<[5 := Message 5 70 (str "mail") (str "e") 0 None [] (Some 71)]> ∅)))) in
  World 0 t ∅ (<[ str "mail" := Watermark 60 5 true ]> (<[ str "gone" := Watermark 50 1 true ]> ∅)) no_head
    (BacklogState 0 zero_time) 0 0 [].

Lemma old_messages_keyed : keyed (messages old_messages).
Proof. intros id m H. cbn in H. repeat (apply lookup_insert_Some in H as [[<- <-]|[_ H]]; [done|]). done. Qed.

Lemma cleanup_keeps_pending_witness :
  messages old_messages !! 2 = Some (Message 2 20 (str "mail") (str "b") 0 None [] None)
  /\ messages (cleanupOnce (fun _ t => t) (fun k => Nat.eqb k 3) (fun _ => 100) (fun _ => false) [str "mail"] 5 1 9 old_messages).1 !! 2
     = Some (Message 2 20 (str "mail") (str "b") 0 None [] None).
Proof.
  split; [vm_compute; reflexivity|].
  apply (cleanup_keeps_pending (fun _ t => t) (fun k => Nat.eqb k 3) (fun _ => 100) (fun _ => false) [str "mail"] 5 1 9 old_messages).
  - intros k t. by split.
  - apply old_messages_keyed.
  - vm_compute. reflexivity.
  - reflexivity.
Defined.

(** Undisturbed, the cleanup ends, and deletes exactly what it may: with
    every registered worker's watermark stored, the messages of the
    registered topics that are acknowledged, older than the retention and
    below every stored watermark, those of unknown workers included.  It
    counts them, and leaves the dead letters alone. *)
Theorem cleanup_exact now topics retention n fuel s :
  keyed (messages s) -> (0 < n)%nat -> (size (messages s) < fuel)%nat ->
  topics <> [] -> (forall t, t ∈ topics -> is_Some (watermarks s !! t)) ->
  exists s' floor,
    cleanupOnce (fun _ t => t) (fun _ => false) now (fun _ => false) topics retention n fuel s
      = (s', Some (Z.of_nat (size (messages s)) - Z.of_nat (size (messages s')), None))
    /\ (forall t w, watermarks s !! t = Some w -> floor <= At w) /\ (exists t w, watermarks s !! t = Some w /\ floor = At w)
    /\ (forall id m, messages s' !! id = Some m <-> messages s !! id = Some m
          /\ ~ (Topic m ∈ topics /\ is_pending m = false /\ CreatedAt m < floor /\ CreatedAt m < now (S (tick s)) - retention))
    /\ dead s' = dead s.
Proof.
  intros K Hn L Ht Hw. destruct (cleanupOnce_alone now topics retention n fuel s K Hn L Ht Hw) as (s' & floor & E & M & D & F1 & F2).
  exists s', floor. split; [exact E|]. split; [done|]. split; [done|]. split; [|done]. intros id m.
  rewrite M, map_lookup_filter_Some. apply and_iff_compat_l. cbn. rewrite <- not_true_iff_false. apply not_iff_compat.
  unfold eligible. rewrite !andb_true_iff, negb_true_iff, bool_decide_eq_true, Z.ltb_lt, Z.min_glb_lt_iff. tauto.
Qed.

Lemma cleanup_exact_witness :
  map fst (map_to_list (messages (cleanupOnce (fun _ t => t) (fun _ => false) (fun _ => 100) (fun _ => false) [str "mail"] 5 1 9 old_messages).1))
    = [5; 4; 2]
  /\ exists s' floor,
    cleanupOnce (fun _ t => t) (fun _ => false) (fun _ => 100) (fun _ => false) [str "mail"] 5 1 9 old_messages
      = (s', Some (Z.of_nat (size (messages old_messages)) - Z.of_nat (size (messages s')), None))
    /\ (forall t w, watermarks old_messages !! t = Some w -> floor <= At w)
    /\ (exists t w, watermarks old_messages !! t = Some w /\ floor = At w)
    /\ (forall id m, messages s' !! id = Some m <-> messages old_messages !! id = Some m
          /\ ~ (Topic m ∈ [str "mail"] /\ is_pending m = false /\ CreatedAt m < floor /\ CreatedAt m < 100 - 5))
    /\ dead s' = dead old_messages.
Proof.
  split; [vm_compute; reflexivity|].
  apply (cleanup_exact (fun _ => 100) [str "mail"] 5 1 9 old_messages).
  - apply old_messages_keyed.
  - lia.
  - vm_compute. lia.
  - done.
  - intros t ->%list_elem_of_singleton. eexists. vm_compute. reflexivity.
Defined.
