(* ===== verification/JobsDeadSpec.v ===== *)
(** Taking dead letters (jobs/dead.go) is all or nothing, beside other calls
    that take some of them meanwhile. *)

From Stdlib Require Import ZArith Lia List Ascii Sorted.
From stdpp Require Import base decidable list gmap strings sorting.
From S2P Require Import Prelude GoStrings GoTime JobsStore JobsCore.

(** ** The ids *)


Lemma compact_spec l : StronglySorted Z.le l -> StronglySorted Z.lt (compact l) /\ forall x, x ∈ compact l <-> x ∈ l.
Proof.
  induction 1 as [|x l S [IH1 IH2] F]; [by split; [constructor|]|]. cbn. destruct l as [|y l].
  - split; [by repeat constructor|done].
  - apply Forall_cons in F as [Hxy F]. destruct (Z.eqb_spec x y) as [-> |N].
    + split; [done|]. intros z. rewrite IH2. set_solver.
    + split; [|intros z; rewrite !elem_of_cons, IH2; set_solver]. constructor; [done|].
      apply Forall_forall. intros z Hz%IH2. apply elem_of_cons in Hz as [-> |Hz]; [lia|].
      apply StronglySorted_inv in S as [_ Fy]. pose proof (proj1 (Forall_forall _ _) Fy z Hz). cbn in *. lia.
Qed.

#[local] Instance Zle_total : Total Z.le.
Proof. intros a b. lia. Qed.

Definition distinct_ids (ids : list Z) : list Z := compact (merge_sort Z.le ids).

Lemma distinct_ids_spec ids :
  StronglySorted Z.lt (distinct_ids ids) /\ NoDup (distinct_ids ids) /\ forall x, x ∈ distinct_ids ids <-> x ∈ ids.
Proof.
  destruct (compact_spec (merge_sort Z.le ids)) as [S H]; [apply (StronglySorted_merge_sort Z.le)|].
  split; [done|]. split; [|intros x; unfold distinct_ids; by rewrite H, merge_sort_Permutation].
  clear H. unfold distinct_ids. induction S as [|x l S IH F]; constructor; [|done].
  intros X. pose proof (proj1 (Forall_forall _ _) F x X). cbn in *. lia.
Qed.

Lemma chunks_concat {A} n fuel (l : list A) : (0 < n)%nat -> (length l <= fuel)%nat -> concat (chunks n fuel l) = l.
Proof.
  intros Hn. revert l. induction fuel as [|fuel IH]; intros l L; [by destruct l; [|cbn in L; lia]|].
  destruct l as [|x l]; [done|]. cbn [chunks List.concat]. rewrite IH; [apply take_drop|]. rewrite length_drop. cbn in *. lia.
Qed.

Lemma chunks_ids (ids : list Z) : concat (chunks deadChunk (length ids) ids) = ids.
Proof. apply chunks_concat; unfold deadChunk; lia. Qed.

Lemma sublist_all {A} (l1 l2 : list A) : l1 `sublist_of` l2 -> (length l2 <= length l1)%nat -> l1 = l2.
Proof.
  induction 1 as [|x l1 l2 S IH|x l1 l2 S IH]; cbn; intros L; [done| |].
  - rewrite IH; [done|lia].
  - apply sublist_length in S. lia.
Qed.

(** ** A transaction *)

Section transaction.
Context (gone : nat -> list Z) (fails : nat -> bool) (now : Z) (d : db_state).

(** The dead letters of [D], but for those of [X] and those other calls took. *)
Definition left_of (X : list Z) (D : gmap Z deadRow) : Prop :=
  D ⊆ db_dead d /\ (forall id, id ∈ X -> D !! id = None)
  /\ (forall id row, db_dead d !! id = Some row -> id ∉ X -> (forall n, id ∉ gone n) -> D !! id = Some row).

(** In the transaction, before its statement [k]: the messages are [M], the
    next id [N], and the dead letters [X] are deleted. *)
Record at_tx (M : table) (N : Z) (X : list Z) (k : nat) (t : dtx) : Prop := {
  at_base : db_messages (base t) = db_messages d;
  at_base_dead : left_of [] (db_dead (base t));
  at_messages : db_messages (cur t) = M;
  at_next : db_next (cur t) = N;
  at_dead : left_of X (db_dead (cur t));
  at_stmt : stmt t = k;
  at_gone : forall id n, (n < k)%nat -> id ∈ gone n -> db_dead (cur t) !! id = None;
}.

Lemma left_gone X D n : left_of X D -> left_of X (filter (fun p : Z * deadRow => p.1 ∉ gone n) D).
Proof.
  intros (S & H1 & H2). split; [|split].
  - etrans; [apply map_filter_subseteq|done].
  - intros id Hid. apply map_lookup_filter_None. left. auto.
  - intros id row Hd Hx Hg. apply map_lookup_filter_Some. split; [auto|]. apply Hg.
Qed.

Lemma left_delete X D ids : left_of X D -> left_of (X ++ ids) (filter (fun p : Z * deadRow => p.1 ∉ ids) D).
Proof.
  intros (S & H1 & H2). split; [|split].
  - etrans; [apply map_filter_subseteq|done].
  - intros id [Hid|Hid]%elem_of_app; apply map_lookup_filter_None; [left; auto|right]. intros row _ Hn. by apply Hn.
  - intros id row Hd Hx Hg. apply map_lookup_filter_Some. split; [apply H2|]; set_solver.
Qed.

(** A statement that fails, or does [f] to what the transaction sees. *)
Lemma statement_at {A} (f : db_state -> db_state * A) M N X M' N' X' k t (Q : A -> Prop) :
  at_tx M N X k t ->
  (forall c, db_messages c = M -> db_next c = N -> left_of X (db_dead c) ->
     (forall id n, (n <= k)%nat -> id ∈ gone n -> db_dead c !! id = None) ->
     db_messages (f c).1 = M' /\ db_next (f c).1 = N' /\ left_of X' (db_dead (f c).1)
     /\ db_dead (f c).1 ⊆ db_dead c /\ Q (f c).2) ->
  let '(t', r) := statement gone fails f t in
  match r with
  | Some a => at_tx M' N' X' (S k) t' /\ Q a
  | None => at_tx M N X (S k) t'
  end.
Proof.
  intros [B BD CM CN CD <- CG] Hf. unfold statement, without.
  assert (B' := left_gone _ _ (stmt t) BD). assert (C' := left_gone _ _ (stmt t) CD).
  assert (G : forall id n, (n < S (stmt t))%nat -> id ∈ gone n ->
    filter (fun p : Z * deadRow => p.1 ∉ gone (stmt t)) (db_dead (cur t)) !! id = None).
  { intros id n L H. apply map_lookup_filter_None. destruct (decide (n = stmt t)) as [->|]; [right; intros r _ Hn; by apply Hn|].
    left. apply (CG id n); [lia|done]. }
  destruct (fails (stmt t)); [by split|].
  destruct (Hf {| db_messages := db_messages (cur t); db_dead := filter (fun p => p.1 ∉ gone (stmt t)) (db_dead (cur t));
    db_next := db_next (cur t) |}) as (E1 & E2 & E3 & E4 & q); [done..| |].
  { intros id n L. apply G. lia. }
  destruct (f _) as [c a]. cbn in *. split; [|done]. split; try done. intros id n L H.
  eapply lookup_weaken_None; [by apply (G id n)|done].
Qed.

(** What a rolled-back transaction leaves. *)
Definition rolled_back (d' : db_state) : Prop := db_messages d' = db_messages d /\ left_of [] (db_dead d').

Lemma at_rolled_back M N X k t : at_tx M N X k t -> rolled_back (base t).
Proof. intros []. by split. Qed.

(** *** Reading *)

Context (Kd : forall id row, db_dead d !! id = Some row -> d_ID row = id).

(** Rows found for [ids], which are rows of [d]. *)
Definition found_of (ids : list Z) (rows : list deadRow) : Prop :=
  sublist (map d_ID rows) ids /\ forall r, r ∈ rows -> db_dead d !! d_ID r = Some r.

Lemma omap_found D ids : D ⊆ db_dead d -> found_of ids (omap (fun id => D !! id) ids).
Proof.
  intros S. induction ids as [|id ids [IH1 IH2]]; [split; [constructor|set_solver]|]. cbn.
  destruct (D !! id) as [r|] eqn:E; [|by split; [constructor|]].
  assert (E' : db_dead d !! id = Some r) by by eapply lookup_weaken. pose proof (Kd _ _ E') as Er. split; cbn.
  - rewrite Er. by constructor.
  - intros x [-> |Hx]%elem_of_cons; [by rewrite Er|auto].
Qed.

Lemma read_chunks_at M N X cs k t : at_tx M N X k t ->
  let '(t', r) := read_chunks gone fails cs t in
  match r with
  | Some rows => at_tx M N X (k + length cs) t' /\ found_of (concat cs) rows
  | None => exists k', at_tx M N X k' t'
  end.
Proof.
  revert k t. induction cs as [|c cs IH]; intros k t A; cbn.
  { split; [by rewrite Nat.add_0_r|split; [constructor|set_solver]]. }
  pose proof (statement_at (fun d0 => (d0, omap (fun id => db_dead d0 !! id) c)) M N X M N X k t (found_of c) A) as St.
  assert (Pre : forall c0, db_messages c0 = M -> db_next c0 = N -> left_of X (db_dead c0) ->
    (forall id n, (n <= k)%nat -> id ∈ gone n -> db_dead c0 !! id = None) ->
    db_messages c0 = M /\ db_next c0 = N /\ left_of X (db_dead c0) /\ db_dead c0 ⊆ db_dead c0
    /\ found_of c (omap (fun id => db_dead c0 !! id) c)).
  { intros c0 E1 E2 E3 _. split; [done|]. split; [done|]. split; [done|]. split; [done|]. apply omap_found, E3. }
  specialize (St Pre). destruct (statement _ _ _ t) as [t1 [part|]]; [|by eauto].
  destruct St as [A1 [S1 H1]]. specialize (IH (S k) t1 A1). destruct (read_chunks _ _ cs t1) as [t2 [rest|]]; [|done].
  destruct IH as [A2 [S2 H2]]. split; [by rewrite Nat.add_succ_r|]. split.
  - rewrite map_app. by apply sublist_app.
  - intros r [H|H]%elem_of_app; auto.
Qed.

(** As many rows as ids: every id is parked. *)
Lemma all_found ids rows : found_of ids rows -> (length ids <= length rows)%nat ->
  rows = omap (fun id => db_dead d !! id) ids /\ map d_ID rows = ids /\ (forall id, id ∈ ids -> is_Some (db_dead d !! id)).
Proof.
  intros [S H] L. assert (E : map d_ID rows = ids) by (apply sublist_all; [done|by rewrite length_map]).
  split; [|split; [done|]].
  - rewrite <- E. clear -H. induction rows as [|r rows IH]; [done|]. cbn.
    rewrite (H r) by set_solver. f_equal. apply IH. set_solver.
  - intros id Hid. rewrite <- E in Hid. apply list_elem_of_fmap in Hid as (r & -> & Hr). eauto.
Qed.

(** *** Deleting *)

Definition complete_all (ids : list Z) (M : table) : table := foldr (fun id t => alter (completed_at now) id t) M ids.

(** Ids without duplicates, counted where they are. *)
Lemma present_count c (D : gmap Z deadRow) : NoDup c ->
  (size (filter (fun p : Z * deadRow => p.1 ∈ c) D) <= length c)%nat
  /\ (size (filter (fun p : Z * deadRow => p.1 ∈ c) D) = length c -> forall id, id ∈ c -> is_Some (D !! id)).
Proof.
  intros ND. set (F := filter (fun p : Z * deadRow => p.1 ∈ c) D).
  assert (S : dom F ⊆ list_to_set (C := gset Z) c).
  { intros id [r [_ H]%map_lookup_filter_Some]%elem_of_dom. by apply elem_of_list_to_set. }
  assert (E : size (list_to_set (C := gset Z) c) = length c) by by apply size_list_to_set.
  rewrite <- (size_dom F), <- E. split; [by apply subseteq_size|]. intros Es id Hid.
  assert (X : dom F = list_to_set c) by (apply set_eq; by apply set_subseteq_size_equiv; [|rewrite Es]).
  assert (Hi : id ∈ dom F) by (rewrite X; by apply elem_of_list_to_set).
  apply elem_of_dom in Hi as [r [Hr _]%map_lookup_filter_Some]. eauto.
Qed.

Fixpoint complete_chunks (cs : list (list Z)) (M : table) : table :=
  match cs with [] => M | c :: cs' => complete_chunks cs' (complete_all c M) end.

(** Nobody else took [id] before statement [k]. *)
Definition ours (k : nat) (id : Z) : Prop := forall n, (n < k)%nat -> id ∉ gone n.

Lemma ours_mono k k' id : (k <= k')%nat -> ours k' id -> ours k id.
Proof. intros L H n Hn. apply H. lia. Qed.

Lemma delete_chunks_at M N X cs k acc t : at_tx M N X k t -> NoDup (concat cs) ->
  let '(t', r) := delete_chunks gone fails now cs acc t in
  match r with
  | Some n => at_tx (complete_chunks cs M) N (X ++ concat cs) (k + 2 * length cs) t'
      /\ n <= acc + Z.of_nat (length (concat cs))
      /\ (n = acc + Z.of_nat (length (concat cs)) -> Forall (ours (k + 2)) (concat cs))
  | None => exists M' X' k', at_tx M' N X' k' t'
  end.
Proof.
  revert M X k acc t. induction cs as [|c cs IH]; intros M X k acc t A ND; cbn [delete_chunks complete_chunks concat].
  { cbn. rewrite app_nil_r, Nat.add_0_r. split; [done|]. split; [lia|]. by constructor. }
  cbn [concat] in ND. apply NoDup_app in ND as (NDc & _ & ND).
  pose proof (statement_at (complete_ids now c) M N X (complete_all c M) N X k t (fun _ => True) A) as St.
  destruct (statement _ _ (complete_ids now c) t) as [t1 [u|]].
  2: { eexists _, _, _. apply St. intros c0 <- <- H _. by repeat split; try apply H. }
  destruct St as [A1 _]; [intros c0 <- <- H _; by repeat split; try apply H|].
  pose proof (statement_at (delete_dead c) _ N X (complete_all c M) N (X ++ c) (S k) t1
    (fun n => n <= Z.of_nat (length c) /\ (n = Z.of_nat (length c) -> Forall (ours (k + 2)) c)) A1) as St2.
  assert (Pre : forall c0, db_messages c0 = complete_all c M -> db_next c0 = N -> left_of X (db_dead c0) ->
    (forall id n, (n <= S k)%nat -> id ∈ gone n -> db_dead c0 !! id = None) ->
    db_messages (delete_dead c c0).1 = complete_all c M /\ db_next (delete_dead c c0).1 = N
    /\ left_of (X ++ c) (db_dead (delete_dead c c0).1) /\ db_dead (delete_dead c c0).1 ⊆ db_dead c0
    /\ (delete_dead c c0).2 <= Z.of_nat (length c)
    /\ ((delete_dead c c0).2 = Z.of_nat (length c) -> Forall (ours (k + 2)) c)).
  { intros c0 E1 E2 E3 G. cbn. split; [done|]. split; [done|]. split; [by apply left_delete|].
    split; [apply map_filter_subseteq|]. destruct (present_count c (db_dead c0) NDc) as [L P]. split; [lia|].
    intros Es. apply Forall_forall. intros id Hid n Hn Hg. destruct (P ltac:(lia) id Hid) as [r Hr].
    rewrite (G id n) in Hr; [done|lia|done]. }
  specialize (St2 Pre). destruct (statement _ _ (delete_dead c) t1) as [t2 [n|]]; [|by eauto].
  destruct St2 as [A2 [L2 F2]]. specialize (IH _ _ _ (acc + n) t2 A2 ND).
  destruct (delete_chunks _ _ _ cs _ t2) as [t3 [n'|]]; [|done]. destruct IH as (A3 & L3 & F3).
  rewrite length_app. split; [|split; [lia|]].
  - rewrite <- app_assoc in A3. cbn [length]. by replace (k + 2 * S (length cs))%nat with (S (S k) + 2 * length cs)%nat by lia.
  - intros E. apply Forall_app. split; [apply F2; lia|]. eapply Forall_impl; [apply F3; lia|].
    intros id. apply ours_mono. lia.
Qed.

Lemma completed_at_twice m : completed_at now (completed_at now m) = completed_at now m.
Proof. unfold completed_at at 1. destruct (CompletedAt (completed_at now m)) eqn:E; [done|]. unfold completed_at in E. by destruct (CompletedAt m) eqn:E2; [rewrite E2 in E|]. Qed.

Lemma complete_all_lookup ids M id :
  complete_all ids M !! id = if bool_decide (id ∈ ids) then completed_at now <$> M !! id else M !! id.
Proof.
  unfold complete_all. induction ids as [|i ids IH]; [done|]. cbn. destruct (decide (id = i)) as [->|N].
  - rewrite lookup_alter_eq, IH. rewrite (bool_decide_true (i ∈ i :: ids)) by by left.
    destruct (bool_decide (i ∈ ids)); [|done]. destruct (M !! i); [|done]. cbn. by rewrite completed_at_twice.
  - rewrite lookup_alter_ne, IH by done. by rewrite (bool_decide_ext (id ∈ i :: ids) (id ∈ ids)) by set_solver.
Qed.

Lemma complete_chunks_lookup cs M id :
  complete_chunks cs M !! id = if bool_decide (id ∈ concat cs) then completed_at now <$> M !! id else M !! id.
Proof.
  revert M. induction cs as [|c cs IH]; intros M; [done|]. cbn. rewrite IH, complete_all_lookup.
  destruct (decide (id ∈ c)) as [H|H].
  - rewrite (bool_decide_true (id ∈ c)), (bool_decide_true (id ∈ c ++ concat cs)) by set_solver.
    destruct (bool_decide _); [|done]. destruct (M !! id); [|done]. cbn. by rewrite completed_at_twice.
  - rewrite (bool_decide_false (id ∈ c)) by done. by rewrite (bool_decide_ext (id ∈ c ++ concat cs) (id ∈ concat cs)) by set_solver.
Qed.

(** *** Requeueing *)

Fixpoint requeued (rows : list deadRow) (N : Z) (M : table) : table :=
  match rows with
  | [] => M
  | r :: rows' => requeued rows' (N + 1) (<[N := new_message N now (d_Topic r) (d_Payload r)]> M)
  end.

Lemma requeued_old rows N M id : id < N \/ N + Z.of_nat (length rows) <= id -> requeued rows N M !! id = M !! id.
Proof.
  revert N M. induction rows as [|r rows IH]; intros N M H; [done|]. cbn in *. rewrite IH by lia.
  apply lookup_insert_ne. lia.
Qed.

Lemma requeued_new rows N M i r : rows !! i = Some r ->
  requeued rows N M !! (N + Z.of_nat i) = Some (new_message (N + Z.of_nat i) now (d_Topic r) (d_Payload r)).
Proof.
  revert N M i. induction rows as [|r0 rows IH]; intros N M i H; [done|]. destruct i as [|i]; cbn in *.
  - injection H as ->. rewrite Z.add_0_r, requeued_old by lia. apply lookup_insert_eq.
  - replace (N + Z.of_nat (S i)) with (N + 1 + Z.of_nat i) by lia. by apply IH.
Qed.

Lemma requeue_rows_at M N X k rows t : at_tx M N X k t ->
  let '(t', e) := requeue_rows gone fails now rows t in
  match e with
  | None => exists k', at_tx (requeued rows N M) (N + Z.of_nat (length rows)) X k' t'
  | Some _ => exists M' N' k', at_tx M' N' X k' t'
  end.
Proof.
  revert M N k t. induction rows as [|r rows IH]; intros M N k t A; cbn [requeue_rows requeued length].
  { exists k. by rewrite Z.add_0_r. }
  pose proof (statement_at (requeue_row now r) M N X (<[N := new_message N now (d_Topic r) (d_Payload r)]> M) (N + 1) X k t
    (fun _ => True) A) as St.
  destruct (statement _ _ _ t) as [t1 [u|]].
  2: { eexists _, _, _. apply St. intros c0 <- <- H _. by repeat split; try apply H. }
  destruct St as [A1 _]; [intros c0 <- <- H _; by repeat split; try apply H|].
  specialize (IH _ _ _ _ A1). destruct (requeue_rows _ _ _ rows t1) as [t2 [e|]]; [done|].
  replace (N + Z.of_nat (S (length rows))) with (N + 1 + Z.of_nat (length rows)) by lia. done.
Qed.

(** *** The whole transaction *)

Lemma start_at : at_tx (db_messages d) (db_next d) [] 0 {| base := d; cur := d; stmt := 0 |}.
Proof.
  assert (L : left_of [] (db_dead d)) by (split; [done|split; [set_solver|done]]). split; try done. lia.
Qed.

(** What [takeDead] has done when it hands the rows on. *)
Definition taken (ids : list Z) (t : dtx) : Prop := exists M k,
  at_tx M (db_next d) ids k t
  /\ (forall id, M !! id = if bool_decide (id ∈ ids) then completed_at now <$> db_messages d !! id else db_messages d !! id).

Lemma take_body_at ids then_ (Q : dtx * option dead_error -> Prop) t : ids <> [] -> NoDup ids ->
  at_tx (db_messages d) (db_next d) [] 0 t ->
  (forall M N X k t e, at_tx M N X k t -> Q (t, Some e)) ->
  (forall t', taken ids t' -> Forall (ours 3) ids -> (forall id, id ∈ ids -> is_Some (db_dead d !! id)) ->
     Q (then_ (omap (fun id => db_dead d !! id) ids) t')) ->
  Q (take_body gone fails now ids then_ t).
Proof.
  intros Ne ND A Qe Qt. unfold take_body. set (cs := chunks deadChunk (length ids) ids).
  assert (Ecs : concat cs = ids) by apply chunks_ids.
  assert (Lcs : (1 <= length cs)%nat) by (destruct cs; [by rewrite <- Ecs in Ne|cbn; lia]). clearbody cs.
  pose proof (read_chunks_at _ _ _ cs 0 t A) as R. destruct (read_chunks _ _ cs t) as [t1 [rows|]].
  2: { destruct R as [k' R]. by eapply Qe. }
  destruct R as [A1 F]. destruct (Nat.ltb_spec (length rows) (length ids)); [by eapply Qe|].
  rewrite Ecs in F. destruct (all_found ids rows F) as (-> & Em & Hp); [lia|].
  pose proof (delete_chunks_at _ _ _ cs _ 0 t1 A1) as Dl. rewrite Ecs in Dl. specialize (Dl ND).
  destruct (delete_chunks _ _ _ cs 0 t1) as [t2 [n|]]; [|destruct Dl as (M' & X' & k' & Dl); by eapply Qe].
  destruct Dl as (A2 & L2 & F2). destruct (Z.eqb_spec n (Z.of_nat (length ids))) as [E|]; cbn [negb]; [|by eapply Qe].
  apply Qt; [| |done].
  - eexists _, _. split; [exact A2|]. intros id. by rewrite complete_chunks_lookup, Ecs.
  - eapply Forall_impl; [apply F2; lia|]. intros id. apply ours_mono. lia.
Qed.
End transaction.

(** A call that failed: no message has changed, and no dead letter is gone but
    those that other calls took. *)
Definition nothing_changed (gone : nat -> list Z) (d d' : db_state) : Prop :=
  db_messages d' = db_messages d /\ db_dead d' ⊆ db_dead d
  /\ (forall id row, db_dead d !! id = Some row -> (forall n, id ∉ gone n) -> db_dead d' !! id = Some row).

(** The dead letters a call took: they were parked, no other call took one up
    to its deletion, and the others stay. *)
Definition ids_taken (gone : nat -> list Z) (ids : list Z) (d d' : db_state) : Prop :=
  (forall id, id ∈ ids -> is_Some (db_dead d !! id) /\ (forall n, (n <= 2)%nat -> id ∉ gone n) /\ db_dead d' !! id = None)
  /\ (forall id row, db_dead d !! id = Some row -> id ∉ ids -> (forall n, id ∉ gone n) -> db_dead d' !! id = Some row).

(** The parked rows of [ids], in the order their messages were enqueued in. *)
Definition parked_rows (ids : list Z) (d : db_state) : list deadRow :=
  merge_sort enqueued_le (omap (fun id => db_dead d !! id) (distinct_ids ids)).

(** The messages with those [ids] acknowledged and [rows] enqueued. *)
Definition enqueued_again (now : Z) (ids : list Z) (rows : list deadRow) (d d' : db_state) : Prop :=
  db_next d' = db_next d + Z.of_nat (length rows)
  /\ (forall i r, rows !! i = Some r -> db_messages d' !! (db_next d + Z.of_nat i)
        = Some (new_message (db_next d + Z.of_nat i) now (d_Topic r) (d_Payload r)))
  /\ (forall id, id < db_next d \/ db_next d' <= id -> db_messages d' !! id
        = if bool_decide (id ∈ ids) then completed_at now <$> db_messages d !! id else db_messages d !! id).

Definition requeue_outcome (gone : nat -> list Z) (now : Z) (ids : list Z) (d d' : db_state) (e : option dead_error) : Prop :=
  match e with
  | Some _ => nothing_changed gone d d'
  | None => ids_taken gone ids d d' /\ length (parked_rows ids d) = length (distinct_ids ids)
            /\ enqueued_again now ids (parked_rows ids d) d d'
  end.

Lemma rolled_back_unchanged gone d d' : rolled_back gone d d' -> nothing_changed gone d d'.
Proof. intros [M (S & _ & H)]. split; [done|]. split; [done|]. intros id row Hd G. apply H; [done|set_solver|done]. Qed.

Lemma omap_all {A B} (f : A -> option B) l : (forall x, x ∈ l -> is_Some (f x)) -> length (omap f l) = length l.
Proof.
  induction l as [|x l IH]; [done|]. cbn. intros H. destruct (H x) as [y E]; [by left|]. rewrite E. cbn.
  rewrite IH; [done|]. intros z Hz. apply H. by right.
Qed.

(** What a transaction that took [ids] and enqueued [rows] has done. *)
Lemma taken_done gone now ids ids' d M N rows k t : at_tx gone d M N ids' k t ->
  (forall id, id ∈ ids' <-> id ∈ ids) -> Forall (ours gone 3) ids' -> (forall id, id ∈ ids' -> is_Some (db_dead d !! id)) ->
  N = db_next d + Z.of_nat (length rows) ->
  (exists M0, M = requeued now rows (db_next d) M0
    /\ (forall id, M0 !! id = if bool_decide (id ∈ ids') then completed_at now <$> db_messages d !! id else db_messages d !! id)) ->
  ids_taken gone ids d (cur t) /\ enqueued_again now ids rows d (cur t).
Proof.
  intros [_ _ EM EN (S & D1 & D2) _ _] Hin Ho Hp -> (M0 & -> & HM). split; [split|split; [|split]].
  - intros id Hid%Hin. split; [by apply Hp|]. split; [|by apply D1].
    intros n Hn. apply (proj1 (Forall_forall _ _) Ho id Hid). lia.
  - intros id row Hd Hn Hg. apply D2; [done|by rewrite Hin|done].
  - done.
  - intros i r Hr. rewrite EM. by apply requeued_new.
  - intros id Hid. rewrite EM. rewrite EN in Hid. rewrite requeued_old by lia. rewrite HM.
    by rewrite (bool_decide_ext (id ∈ ids') (id ∈ ids)).
Qed.

(** Requeueing dead letters is all or nothing, whichever statements fail
    and whatever dead letters other calls take meanwhile.  When it fails, no
    message has changed and no dead letter is gone but those the others took.
    When it succeeds, every id was parked and none was taken by another call
    up to its deletion; the ids are no longer parked and their messages are
    acknowledged; the others stay; and each parked message is enqueued again
    exactly once, under its topic and with its payload, under a new id, the
    new ids in the order the messages were first enqueued in. *)
Theorem Requeue_all_or_nothing gone fails now ids d :
  (forall id row, db_dead d !! id = Some row -> d_ID row = id) ->
  let p := Requeue gone fails now ids d in requeue_outcome gone now ids d p.1 p.2.
Proof.
  intros Kd. unfold Requeue, takeDead. fold (distinct_ids ids). unfold requeue_outcome, parked_rows.
  destruct (distinct_ids_spec ids) as (_ & ND & Hin).
  destruct (Nat.eqb_spec (length (distinct_ids ids)) 0) as [L|L].
  { apply nil_length_inv in L. rewrite L in *. assert (N : forall id, id ∉ ids) by (intros id H%Hin; set_solver). cbn.
    split; [split; [by intros id H%N|done]|]. split; [done|]. split; [cbn; lia|]. split; [done|].
    intros id _. cbn. by rewrite bool_decide_false by apply N. }
  set (il := distinct_ids ids) in *. assert (Ne : il <> []) by (intros E; by rewrite E in L). clearbody il.
  set (rows := merge_sort enqueued_le (omap (fun id => db_dead d !! id) il)).
  set (k := fun rows t => requeue_rows gone fails now (merge_sort enqueued_le rows) t).
  assert (T : (fun q => let '(d', e) := commit q.1 q.2 in match e with
              | Some _ => nothing_changed gone d d'
              | None => ids_taken gone ids d d' /\ length rows = length il /\ enqueued_again now ids rows d d'
              end) (take_body gone fails now il k {| base := d; cur := d; stmt := 0 |})).
  { apply (take_body_at gone fails now d Kd); [done|done|by apply start_at| |].
    - intros M N X k0 t e A. by eapply rolled_back_unchanged, at_rolled_back.
    - intros t (M & k0 & A & HM) Ho Hp. subst k. cbn beta. fold rows.
      pose proof (requeue_rows_at gone fails now d _ _ _ _ rows t A) as R. destruct (requeue_rows _ _ _ rows t) as [t2 [e|]].
      + destruct R as (M' & N' & k' & R). by eapply rolled_back_unchanged, at_rolled_back.
      + destruct R as (k' & R). cbn. destruct (taken_done gone now ids il d _ _ rows _ _ R) as [T1 T2]; try done; [by exists M|].
        split; [done|]. split; [|done]. unfold rows. rewrite merge_sort_Permutation. by apply omap_all. }
  destruct (take_body _ _ _ _ _ _) as [t e]. cbn in T. by destruct e.
Qed.

(** Three parked messages, two of them requeued beside a call that takes the
    third. *)
Definition parked_three : db_state :=
  {| db_messages := <[1 := Message 1 10 (str "mail") (str "a") 3 None (str "no") (Some 40)]>
       (<[2 := Message 2 5 (str "mail") (str "b") 3 None (str "no") None]> ∅);
     db_dead := <[1 := DeadRow 1 (str "mail") (str "a") 10 40 3 (str "no")]>
       (<[2 := DeadRow 2 (str "mail") (str "b") 5 41 3 (str "no")]>
       (<[3 := DeadRow 3 (str "mail") (str "c") 7 42 3 (str "no")]> ∅));
     db_next := 10 |}.

Lemma Requeue_all_or_nothing_witness :
  (let p := Requeue (fun _ => [3]) (fun _ => false) 50 [2; 1; 2] parked_three in
   p.2 = None /\ map fst (map_to_list (db_dead p.1)) = []
   /\ map Payload (omap (fun id => db_messages p.1 !! id) [10; 11; 12]) = [str "b"; str "a"])
  /\ (Requeue (fun _ => [3]) (fun _ => false) 50 [2; 3] parked_three).2 = Some (ENotParked [3])
  /\ requeue_outcome (fun _ => [3]) 50 [2; 1; 2] parked_three
       (Requeue (fun _ => [3]) (fun _ => false) 50 [2; 1; 2] parked_three).1
       (Requeue (fun _ => [3]) (fun _ => false) 50 [2; 1; 2] parked_three).2.
Proof.
  split; [vm_compute; done|]. split; [vm_compute; reflexivity|].
  apply (Requeue_all_or_nothing (fun _ => [3]) (fun _ => false) 50 [2; 1; 2] parked_three).
  intros id row H. cbn in H. repeat (apply lookup_insert_Some in H as [[<- <-]|[_ H]]; [done|]). done.
Defined.
