(* ===== verification/JobsConfig.v ===== *)
(** jobs/config.go: the jobs' configuration and its checks. *)

From Stdlib Require Import ZArith Lia List Ascii.
From stdpp Require Import base decidable list.
From S2P Require Import Prelude GoStrings GoTime.

Module Jobs.

Record Config := MkConfig {
  Enabled : bool; PollInterval : Z; BatchSize : Z; SettleWindow : Z; MaxAttempts : Z; RetryBackoff : Z;
  MaxBackoff : Z; Retention : Z; CleanupInterval : Z; StopBudget : Z; HandlerTimeout : Z;
}.

Definition defaultPollInterval : Z := Second.
Definition defaultBatchSize : Z := 100.
Definition defaultSettleWindow : Z := 30 * Second.
Definition defaultMaxAttempts : Z := 10.
Definition defaultRetryBackoff : Z := Second.
Definition defaultMaxBackoff : Z := 5 * Minute.
Definition defaultCleanupInterval : Z := Hour.
Definition defaultStopBudget : Z := 15 * Second.
Definition defaultHandlerTimeout : Z := 10 * Minute.
Definition maxBatchSize : Z := 10000.

Definition or_default (v def : Z) : Z := if v =? 0 then def else v.

Definition withDefaults (c : Config) : Config :=
  {| Enabled := Enabled c;
     PollInterval := or_default (PollInterval c) defaultPollInterval;
     BatchSize := or_default (BatchSize c) defaultBatchSize;
     SettleWindow := or_default (SettleWindow c) defaultSettleWindow;
     MaxAttempts := or_default (MaxAttempts c) defaultMaxAttempts;
     RetryBackoff := or_default (RetryBackoff c) defaultRetryBackoff;
     MaxBackoff := or_default (MaxBackoff c) defaultMaxBackoff;
     Retention := Retention c;
     CleanupInterval := or_default (CleanupInterval c) defaultCleanupInterval;
     StopBudget := or_default (StopBudget c) defaultStopBudget;
     HandlerTimeout := or_default (HandlerTimeout c) defaultHandlerTimeout |}.

(** What [Validate] finds wrong; it sorts and joins their texts. *)
Inductive config_error :=
| EPollInterval | ESettleWindow | ECleanupInterval | EStopBudget | EBatchSize | ERetention | EMaxAttempts
| ERetryBackoff | EMaxBackoff | EBackoffOrder.

Definition err_if (bad : bool) (e : config_error) : list config_error := if bad then [e] else [].

Definition Validate (c : Config) : list config_error :=
  if negb (Enabled c) then []
  else
    err_if (PollInterval c <=? 0) EPollInterval ++ err_if (SettleWindow c <=? 0) ESettleWindow
    ++ err_if (CleanupInterval c <=? 0) ECleanupInterval ++ err_if (StopBudget c <=? 0) EStopBudget
    ++ err_if ((BatchSize c <? 1) || (BatchSize c >? maxBatchSize)) EBatchSize
    ++ err_if (Retention c <? 0) ERetention
    ++ err_if (MaxAttempts c <? 0) EMaxAttempts
    ++ (if RetryBackoff c <? 0 then [ERetryBackoff]
        else if MaxBackoff c <? 0 then [EMaxBackoff]
        else
          let d := withDefaults c in
          err_if (RetryBackoff d >? MaxBackoff d) EBackoffOrder).

(** What a running process relies on: [New] validates the configuration after
    the defaults. *)
Record runnable (c : Config) : Prop := {
  run_poll : 0 < PollInterval c; run_settle : 0 < SettleWindow c; run_cleanup : 0 < CleanupInterval c;
  run_budget : 0 < StopBudget c; run_batch : 1 <= BatchSize c <= maxBatchSize; run_retention : 0 <= Retention c;
  run_attempts : 1 <= MaxAttempts c; run_backoff : 0 < RetryBackoff c <= MaxBackoff c;
}.

Lemma err_if_nil b e : err_if b e = [] <-> b = false.
Proof. by destruct b. Qed.

Lemma or_default_pos v def : 0 < def -> 0 <= or_default v def <-> 0 < or_default v def.
Proof. unfold or_default. destruct (Z.eqb_spec v 0); lia. Qed.

Lemma or_default_twice v def : def <> 0 -> or_default (or_default v def) def = or_default v def.
Proof. intros H. unfold or_default. destruct (Z.eqb_spec v 0); [by destruct (Z.eqb_spec def 0)|]. by destruct (Z.eqb_spec v 0). Qed.

Lemma withDefaults_twice c : withDefaults (withDefaults c) = withDefaults c.
Proof. unfold withDefaults; cbn. by rewrite !or_default_twice by done. Qed.

(** An enabled configuration that passes is runnable. *)
Lemma Validate_runnable c : Enabled c = true -> Validate (withDefaults c) = [] -> runnable (withDefaults c).
Proof.
  intros En. unfold Validate. rewrite withDefaults_twice.
  replace (Enabled (withDefaults c)) with true by done. cbn [negb].
  rewrite !app_nil, !err_if_nil, !orb_false_iff. intros (H1 & H2 & H3 & H4 & [H5 H5'] & H6 & H7 & H8).
  destruct (RetryBackoff (withDefaults c) <? 0) eqn:B1; [done|]. destruct (MaxBackoff (withDefaults c) <? 0) eqn:B2; [done|].
  apply err_if_nil in H8. split; try lia.
  - assert (X : 0 <= MaxAttempts (withDefaults c)) by lia. apply (or_default_pos _ defaultMaxAttempts) in X; [|done]. cbn in *. lia.
  - assert (X : 0 <= RetryBackoff (withDefaults c)) by lia. apply (or_default_pos _ defaultRetryBackoff) in X; [|done]. cbn in *. lia.
Qed.
End Jobs.
