(* ===== verification/JobsSched.v ===== *)
(** jobs/scheduler.go: an entry's triggers and runs, and what its statistics
    and the log say of them. *)

From Stdlib Require Import ZArith Lia List Ascii.
From stdpp Require Import base decidable list strings.
From S2P Require Import Prelude GoStrings GoTime JobsStore Relay.

(** ** Entries *)

Inductive Overlap := OverlapSkip | OverlapQueue | OverlapAllow.

#[global] Instance Overlap_eq_dec : EqDecision Overlap.
Proof. solve_decision. Defined.

(** [every]: a fixed interval after the previous activation. *)
Definition every_Next (e t : Z) : Z := t + e.

Record JobStats := MkStats {
  s_Next : Z; LastStart : Z; LastEnd : Z; LastError : gostring; Runs : Z; Failures : Z; Skipped : Z; AvgDuration : Z;
}.

Record entry := Entry {
  overlap : Overlap; quiet : bool;
  busy : bool; queued : bool; running : Z; total : Z; stats : JobStats; lastInfo : Z; faltered : bool;
}.

Definition zero_stats : JobStats := MkStats zero_time zero_time zero_time [] 0 0 0 0.

(** [newEntry]; the workers and the cleanup are quiet. *)
Definition newEntry (o : Overlap) (q : bool) : entry := Entry o q false false 0 0 zero_stats zero_time false.

Definition set_flags (b q : bool) (e : entry) : entry :=
  {| overlap := overlap e; quiet := quiet e; busy := b; queued := q; running := running e; total := total e;
     stats := stats e; lastInfo := lastInfo e; faltered := faltered e |}.

Definition set_stats (st : JobStats) (e : entry) : entry :=
  {| overlap := overlap e; quiet := quiet e; busy := busy e; queued := queued e; running := running e; total := total e;
     stats := st; lastInfo := lastInfo e; faltered := faltered e |}.

(** [setNext]. *)
Definition setNext (t : Z) (e : entry) : entry :=
  let st := stats e in
  set_stats (MkStats t (LastStart st) (LastEnd st) (LastError st) (Runs st) (Failures st) (Skipped st) (AvgDuration st)) e.

Definition skip (e : entry) : entry :=
  let st := stats e in
  set_stats (MkStats (s_Next st) (LastStart st) (LastEnd st) (LastError st) (Runs st) (Failures st) (Skipped st + 1)
    (AvgDuration st)) e.

(** [snapshot]. *)
Definition snapshot (e : entry) : JobStats :=
  let st := stats e in
  MkStats (s_Next st) (LastStart st) (LastEnd st) (LastError st) (Runs st) (Failures st) (Skipped st)
    (if Runs st >? 0 then Z.quot (total e) (Runs st) else AvgDuration st).

(** ** Triggers *)

(** [trigger]: the flag tells whether a run starts. *)
Definition trigger (e : entry) : entry * bool :=
  match overlap e with
  | OverlapAllow => (e, true)
  | OverlapQueue =>
      if busy e then
        let folded := queued e in
        let e := if folded then skip e else e in
        (set_flags (busy e) true e, false)
      else (set_flags true (queued e) e, true)
  | OverlapSkip =>
      if busy e then (skip e, false)
      else (set_flags true (queued e) e, true)
  end.

(** The end of the loop of [runs]: whether it goes round again. *)
Definition next_round (stopped : bool) (e : entry) : entry * bool :=
  match overlap e with
  | OverlapAllow => (e, false)
  | _ => if queued e && negb stopped then (set_flags (busy e) false e, true)
         else (set_flags false false e, false)
  end.

(** ** Runs *)

Definition infoHeartbeat : Z := Hour.

Definition set_running (n : Z) (e : entry) : entry :=
  {| overlap := overlap e; quiet := quiet e; busy := busy e; queued := queued e; running := n; total := total e;
     stats := stats e; lastInfo := lastInfo e; faltered := faltered e |}.

(** How an entry's function ends; its error: the text, and whether it is the
    context's error, errRetryLater or a failure logged already. *)
Record run_error := RunError { re_text : gostring; re_ctx : bool; re_later : bool; re_logged : bool }.

Inductive run_result := RNil | RErr (e : run_error) | RPanic (text : gostring).

Inductive level := LDebug | LInfo | LWarn.

(** [execute], before the function runs. *)
Definition begin_run (e : entry) : entry := set_running (running e + 1) e.

(** [execute], after it: the entry and the level of the log line. *)
Definition end_run (start dur : Z) (stopped_ : bool) (r : run_result) (e : entry) : entry * level :=
  let err := match r with
             | RNil => None
             | RErr e => Some e
             | RPanic t => Some (RunError (str "panic: " ++ t) false false false)
             end in
  let stopped := match err with Some x => stopped_ && re_ctx x | None => false end in
  let waiting := match err with Some x => re_later x | None => false end in
  let err := if stopped || waiting then None else err in
  let st := stats e in
  let failures := match err with Some _ => Failures st + 1 | None => Failures st end in
  let lastError := match err with Some x => re_text x | None => if negb waiting then [] else LastError st end in
  let failed := match err with Some _ => true | None => false end in
  let end_ := start + dur in
  let news := negb (quiet e) && negb (failed || stopped)
              && (IsZero (lastInfo e) || faltered e || (end_ - lastInfo e >=? infoHeartbeat)) in
  ({| overlap := overlap e; quiet := quiet e; busy := busy e; queued := queued e; running := running e - 1;
      total := total e + dur;
      stats := {| s_Next := s_Next st; LastStart := start; LastEnd := end_; LastError := lastError;
                  Runs := Runs st + 1; Failures := failures; Skipped := Skipped st; AvgDuration := AvgDuration st |};
      lastInfo := if news then end_ else lastInfo e;
      faltered := if quiet e then faltered e else failed || stopped |},
   match err with
   | Some x => if re_logged x then LDebug else LWarn
   | None => if stopped then LDebug else if news then LInfo else LDebug
   end).

(** ** Goroutines

    [runs], a goroutine for each run a trigger starts: about to begin a round,
    in the entry's function, or after it. *)
Inductive phase := PBegin | PRun (start : Z) | PEnd.

#[global] Instance phase_eq_dec : EqDecision phase.
Proof. solve_decision. Defined.

Record sched := Sched {
  ent : entry; runners : list phase; stopped_ : bool;
  (* records of the past: triggers, runs begun, queued triggers that a stop dropped *)
  triggers : Z; begun : Z; dropped : Z;
}.

Definition start_sched (o : Overlap) (q : bool) : sched := Sched (newEntry o q) [] false 0 0 0.

Inductive event :=
| Trigger                                             (* the schedule fires *)
| Begin (i : nat) (now : Z)                           (* a goroutine begins a round *)
| End (i : nat) (dur : Z) (r : run_result)            (* its function returns *)
| Round (i : nat)                                     (* it looks for a queued trigger *)
| Stop.                                               (* the context ends *)

(** One step; [None] when the event cannot happen. *)
Definition sched_step (ev : event) (s : sched) : option sched :=
  match ev with
  | Trigger =>
      let '(e, spawn) := trigger (ent s) in
      Some (Sched e (if spawn then runners s ++ [PBegin] else runners s) (stopped_ s) (triggers s + 1) (begun s) (dropped s))
  | Begin i now =>
      match runners s !! i with
      | Some PBegin => Some (Sched (begin_run (ent s)) (<[i := PRun now]> (runners s)) (stopped_ s) (triggers s) (begun s + 1) (dropped s))
      | _ => None
      end
  | End i dur r =>
      match runners s !! i with
      | Some (PRun start) =>
          let '(e, _) := end_run start dur (stopped_ s) r (ent s) in
          Some (Sched e (<[i := PEnd]> (runners s)) (stopped_ s) (triggers s) (begun s) (dropped s))
      | _ => None
      end
  | Round i =>
      match runners s !! i with
      | Some PEnd =>
          let '(e, again) := next_round (stopped_ s) (ent s) in
          Some (Sched e (if again then <[i := PBegin]> (runners s) else delete i (runners s)) (stopped_ s) (triggers s) (begun s)
            (if queued (ent s) && negb again then dropped s + 1 else dropped s))
      | _ => None
      end
  | Stop => Some (Sched (ent s) (runners s) true (triggers s) (begun s) (dropped s))
  end.

Fixpoint sched_steps (evs : list event) (s : sched) : option sched :=
  match evs with
  | [] => Some s
  | ev :: evs' => match sched_step ev s with Some s' => sched_steps evs' s' | None => None end
  end.

(** ** Every trigger is accounted for *)

Definition is_begin (p : phase) : bool := match p with PBegin => true | _ => false end.
Definition is_run (p : phase) : bool := match p with PRun _ => true | _ => false end.

Definition count (f : phase -> bool) (l : list phase) : Z := Z.of_nat (length (List.filter f l)).

Definition one (b : bool) : Z := if b then 1 else 0.

Lemma count_snoc f l p : count f (l ++ [p]) = count f l + one (f p).
Proof. unfold count, one. rewrite List.filter_app, length_app. cbn. destruct (f p); cbn [length]; lia. Qed.

Lemma count_cons f p l : count f (p :: l) = one (f p) + count f l.
Proof. unfold count, one. cbn. destruct (f p); cbn [length]; lia. Qed.

Lemma count_insert f l i p q : l !! i = Some p -> count f (<[i := q]> l) = count f l - one (f p) + one (f q).
Proof.
  revert i. induction l as [|x l IH]; intros [|i] H; try done; cbn in H.
  - injection H as ->. change (<[0%nat:=q]> (p :: l)) with (q :: l). rewrite !count_cons. lia.
  - change (<[S i:=q]> (x :: l)) with (x :: <[i:=q]> l). rewrite !count_cons, (IH i H). lia.
Qed.

Lemma count_delete f l i p : l !! i = Some p -> count f (delete i l) = count f l - one (f p).
Proof.
  revert i. induction l as [|x l IH]; intros [|i] H; try done; cbn in H.
  - injection H as ->. change (delete 0%nat (p :: l)) with l. rewrite count_cons. lia.
  - change (delete (S i) (x :: l)) with (x :: delete i l). rewrite !count_cons, (IH i H). lia.
Qed.

Lemma length_delete_at (l : list phase) i p : l !! i = Some p -> Z.of_nat (length (delete i l)) = Z.of_nat (length l) - 1.
Proof. intros H. rewrite length_delete by eauto. apply lookup_lt_Some in H. lia. Qed.

Record accounted (s : sched) : Prop := {
  acc_triggers : triggers s = begun s + count is_begin (runners s) + Skipped (stats (ent s)) + one (queued (ent s)) + dropped s;
  acc_runs : begun s = Runs (stats (ent s)) + count is_run (runners s);
  acc_running : running (ent s) = count is_run (runners s);
  acc_failures : 0 <= Failures (stats (ent s)) <= Runs (stats (ent s));
  acc_one : overlap (ent s) <> OverlapAllow -> Z.of_nat (length (runners s)) = one (busy (ent s));
  acc_queued : queued (ent s) = true -> overlap (ent s) = OverlapQueue /\ busy (ent s) = true;
  acc_dropped : 0 <= dropped s /\ (stopped_ s = false -> dropped s = 0);
}.

Lemma start_accounted o q : accounted (start_sched o q).
Proof. by split. Qed.

Lemma trigger_accounted s s' : sched_step Trigger s = Some s' -> accounted s -> accounted s'.
Proof.
  intros E A. destruct A as [T R N F O Q D]. cbn in E. unfold trigger in E.
  destruct (overlap (ent s)) eqn:Eo.
  - destruct (busy (ent s)) eqn:Eb; injection E as <-; split; cbn in *; rewrite ?count_snoc, ?length_app, ?Eb, ?Eo; cbn;
      try done; try lia; intros H; try (specialize (O H); lia); destruct (Q H); congruence.
  - destruct (busy (ent s)) eqn:Eb; [destruct (queued (ent s)) eqn:Eq|]; injection E as <-; split; cbn in *;
      rewrite ?count_snoc, ?length_app, ?Eb, ?Eo; cbn; try done; try lia; intros H; specialize (O H); lia.
  - injection E as <-; split; cbn in *; rewrite ?count_snoc, ?length_app, ?Eo; cbn; try done; try lia.
Qed.

Lemma begin_accounted i now s s' : sched_step (Begin i now) s = Some s' -> accounted s -> accounted s'.
Proof.
  intros E [T R N F O Q D]. cbn in E. destruct (runners s !! i) as [[| |]|] eqn:Ei; try done. injection E as <-.
  split; cbn; rewrite ?(count_insert _ _ _ _ _ Ei), ?length_insert; cbn; try done; lia.
Qed.

Lemma end_accounted i dur r s s' : sched_step (End i dur r) s = Some s' -> accounted s -> accounted s'.
Proof.
  intros E [T R N F O Q D]. cbn in E. destruct (runners s !! i) as [[|start|]|] eqn:Ei; try done. injection E as <-.
  split; cbn; rewrite ?(count_insert _ _ _ _ _ Ei), ?length_insert; cbn; try done; try lia. case_match; lia.
Qed.

Lemma round_accounted i s s' : sched_step (Round i) s = Some s' -> accounted s -> accounted s'.
Proof.
  intros E [T R N F O Q D]. cbn in E. destruct (runners s !! i) as [[| |]|] eqn:Ei; try done.
  pose proof (length_delete_at _ _ _ Ei) as Ld. unfold next_round in E.
  destruct (overlap (ent s)) eqn:Eo.
  3: { assert (Eq : queued (ent s) = false) by (destruct (queued (ent s)); [by destruct Q|done]). rewrite Eq in *. cbn in T.
       injection E as <-. split; cbn; rewrite ?(count_delete _ _ _ _ Ei), ?Eq, ?Eo; cbn; try done; try lia. }
  all: specialize (O ltac:(done)); apply lookup_lt_Some in Ei as Li.
  all: destruct (queued (ent s)) eqn:Eq; cbn in E.
  all: try (destruct (stopped_ s) eqn:Es; cbn in E); injection E as <-; split; cbn;
    rewrite ?(count_delete _ _ _ _ Ei), ?(count_insert _ _ _ _ _ Ei), ?length_insert, ?Eq; cbn in *; try done;
    try (intros; destruct (busy (ent s)); cbn in *; lia); try lia; try (by destruct Q).
Qed.

Lemma step_accounted ev s s' : sched_step ev s = Some s' -> accounted s -> accounted s'.
Proof.
  destruct ev; [apply trigger_accounted|apply begin_accounted|apply end_accounted|apply round_accounted|].
  intros [= <-] [T R N F O Q D]. split; cbn; try done. by split; [lia|].
Qed.

Lemma steps_accounted evs s s' : sched_steps evs s = Some s' -> accounted s -> accounted s'.
Proof.
  revert s. induction evs as [|ev evs IH]; intros s E A; cbn in E; [by injection E as <-|].
  destruct (sched_step ev s) eqn:E1; [|done]. eapply IH; [done|]. by eapply step_accounted.
Qed.

Lemma step_overlap ev s s' : sched_step ev s = Some s' -> overlap (ent s') = overlap (ent s).
Proof.
  destruct ev; cbn; intros E; repeat case_match; simplify_eq/=; try done;
    unfold trigger, next_round, end_run, begin_run, skip, set_stats, set_flags in *; repeat case_match; simplify_eq/=; done.
Qed.

Lemma steps_overlap evs s s' : sched_steps evs s = Some s' -> overlap (ent s') = overlap (ent s).
Proof.
  revert s. induction evs as [|ev evs IH]; intros s E; cbn in E; [by injection E as <-|].
  destruct (sched_step ev s) as [s1|] eqn:E1; [|done]. rewrite (IH s1 E). by eapply step_overlap.
Qed.

(** No trigger is lost and none runs twice.  In every order of triggers,
    goroutine steps and a stop: under Skip and Queue at most one run is in
    flight; every trigger is a run begun or about to begin, is counted in
    Stats as skipped, is the one queued, or was dropped by a stop; every run
    begun is counted in Stats or in flight; and when nothing is in flight and
    no stop has begun, the triggers are the runs and the skipped ones. *)
Theorem triggers_accounted o q evs s :
  sched_steps evs (start_sched o q) = Some s ->
  (o <> OverlapAllow -> (length (runners s) <= 1)%nat /\ running (ent s) <= 1)
  /\ triggers s = begun s + count is_begin (runners s) + Skipped (stats (ent s)) + one (queued (ent s)) + dropped s
  /\ begun s = Runs (stats (ent s)) + running (ent s)
  /\ 0 <= Failures (stats (ent s)) <= Runs (stats (ent s))
  /\ (stopped_ s = false -> dropped s = 0)
  /\ (runners s = [] -> stopped_ s = false -> triggers s = Runs (stats (ent s)) + Skipped (stats (ent s))).
Proof.
  intros E. pose proof (steps_overlap _ _ _ E) as Eo. cbn in Eo.
  destruct (steps_accounted _ _ _ E (start_accounted o q)) as [T R N F O Q D]. rewrite Eo in *.
  split; [|split; [done|split; [lia|split; [done|split; [tauto|]]]]].
  - intros Ho. specialize (O Ho).
    assert (L : count is_run (runners s) <= Z.of_nat (length (runners s))) by (unfold count; pose proof (filter_length_le is_run (runners s)); lia).
    destruct (busy (ent s)); cbn in O; lia.
  - intros En Es. rewrite En in *. cbn in T, R. assert (Eq : queued (ent s) = false).
    { destruct (queued (ent s)) eqn:Eq; [|done]. destruct (Q eq_refl) as [-> Eb]. rewrite Eb in O. cbn in O.
      specialize (O ltac:(done)). lia. }
    rewrite Eq in T. cbn in T. destruct D as [_ D]. specialize (D Es). change (count is_begin []) with 0 in T. change (count is_run []) with 0 in R. lia.
Qed.

(** Three triggers during a run under Queue: one more run, and two folded. *)
Definition queue_events : list event :=
  [Trigger; Begin 0 100; Trigger; Trigger; Trigger; End 0 5 RNil; Round 0; Begin 0 105; End 0 1 (RPanic (str "x")); Round 0].

Lemma triggers_accounted_witness :
  (match sched_steps queue_events (start_sched OverlapQueue false) with
   | Some s => (triggers s, Runs (stats (ent s)), Skipped (stats (ent s)), Failures (stats (ent s)), length (runners s))
   | None => (0, 0, 0, 0, 9%nat)
   end = (4, 2, 2, 1, 0%nat))
  /\ exists s, sched_steps queue_events (start_sched OverlapQueue false) = Some s
    /\ (OverlapQueue <> OverlapAllow -> (length (runners s) <= 1)%nat /\ running (ent s) <= 1)
    /\ triggers s = begun s + count is_begin (runners s) + Skipped (stats (ent s)) + one (queued (ent s)) + dropped s
    /\ begun s = Runs (stats (ent s)) + running (ent s)
    /\ 0 <= Failures (stats (ent s)) <= Runs (stats (ent s))
    /\ (stopped_ s = false -> dropped s = 0)
    /\ (runners s = [] -> stopped_ s = false -> triggers s = Runs (stats (ent s)) + Skipped (stats (ent s))).
Proof.
  split; [vm_compute; reflexivity|].
  destruct (sched_steps queue_events (start_sched OverlapQueue false)) as [s|] eqn:E; [|vm_compute in E; discriminate].
  exists s. split; [reflexivity|]. exact (triggers_accounted OverlapQueue false queue_events s E).
Defined.
