(* ===== verification/StoreWhere.v ===== *)
(** store/internal/q and store/where: field names, SQL conditions and what
    they mean of a row, the options of a query, and the options of a URL. *)

From Stdlib Require Import ZArith Lia List Ascii.
From stdpp Require Import base decidable list gmap strings sorting.
From S2P Require Import Prelude GoStrings.

(** ** Values and columns *)

Inductive value :=
| VNull | VInt (z : Z) | VUint (z : Z) | VBool (b : bool) | VStr (s : gostring) | VTime (t : Z) | VFloat (f : Z).

#[global] Instance value_eq_dec : EqDecision value.
Proof. solve_decision. Defined.

Definition is_null (v : value) : bool := match v with VNull => true | _ => false end.

(** SafeIdent (q.go). *)
Definition between (lo hi : Z) (c : ascii) : bool := (lo <=? byte_val c) && (byte_val c <=? hi).
Definition ident_byte (c : ascii) : bool :=
  (byte_val c =? 95) || between 97 122 c || between 65 90 c || between 48 57 c.

Definition ident_part (p : gostring) : bool :=
  match p with
  | [] => false
  | c :: _ => negb (between 48 57 c) && forallb ident_byte p
  end.

Definition SafeIdent (s : gostring) : bool :=
  negb (seq_eqb s [] || (128 <? Z.of_nat (length s)))
  && (let parts := split "."%char s in negb (2 <? Z.of_nat (length parts)) && forallb ident_part parts).

Inductive where_error := EInvalidParam | EUnknownField (field : gostring) | EUnsafeColumn (field col : gostring).

(** Column (q.go). *)
Definition Column (fields : gmap gostring gostring) (field : gostring) : result where_error gostring :=
  match fields !! field with
  | None => Err (EUnknownField field)
  | Some col => if SafeIdent col then Ok col else Err (EUnsafeColumn field col)
  end.

(** ** Conditions *)

Inductive cmp_op := OpEq | OpNe | OpGt | OpGte | OpLt | OpLte.

(** One fragment of WHERE.  [CRow] is the row comparison of a cursor page. *)
Inductive cond :=
| CFalse                                                  (* 1 = 0 *)
| CCmp (col : gostring) (op : cmp_op) (v : value)
| CIn (col : gostring) (vs : list value)
| CLike (col : gostring) (pattern : gostring)
| CLikeEscaped (col : gostring) (pattern : gostring)      (* ESCAPE '!' *)
| CNull (col : gostring)
| CNotNull (col : gostring)
| CRow (col1 col2 : gostring) (op : cmp_op) (v1 v2 : value).

(** The part of a name after its last dot: its column in a row. *)
Definition bare (col : gostring) : gostring := default [] (last (split "."%char col)).

(** LIKE: [%] matches any bytes and [_] one, unless the escape byte [esc]
    stands before them. *)
Fixpoint like_from (fuel : nat) (esc : option ascii) (p s : gostring) : bool :=
  match fuel with
  | O => false
  | S fuel' =>
      match p with
      | [] => seq_eqb s []
      | c :: p' =>
          if (match esc with Some e => beq c e | None => false end) then
            match p', s with
            | d :: p'', x :: s' => beq d x && like_from fuel' esc p'' s'
            | _, _ => false
            end
          else if beq c "%" then
            like_from fuel' esc p' s || match s with [] => false | _ :: s' => like_from fuel' esc p s' end
          else if beq c "_" then match s with [] => false | _ :: s' => like_from fuel' esc p' s' end
          else match s with [] => false | x :: s' => beq c x && like_from fuel' esc p' s' end
      end
  end.

Definition like (esc : option ascii) (p s : gostring) : bool := like_from (S (length p + length s)) esc p s.

Section conditions.
(** How the database compares two values: [None] when one is NULL or they do
    not compare. *)
Context (vcmp : value -> value -> option comparison).

Definition holds (op : cmp_op) (c : comparison) : bool :=
  match op, c with
  | OpEq, Eq => true
  | OpNe, (Lt | Gt) => true
  | OpGt, Gt => true
  | OpGte, (Gt | Eq) => true
  | OpLt, Lt => true
  | OpLte, (Lt | Eq) => true
  | _, _ => false
  end.

Definition sat_cmp (op : cmp_op) (a b : value) : bool :=
  match vcmp a b with Some c => holds op c | None => false end.

(** (a1, a2) op (b1, b2), lexicographically. *)
Definition sat_row (op : cmp_op) (a1 a2 b1 b2 : value) : bool :=
  match vcmp a1 b1 with
  | Some Eq => sat_cmp op a2 b2
  | Some c => holds op c
  | None => false
  end.

(** Whether a condition is true of a row, given by its columns; LIKE is the
    case-sensitive one. *)
Definition sat (get : gostring -> value) (c : cond) : bool :=
  match c with
  | CFalse => false
  | CCmp col op v => sat_cmp op (get (bare col)) v
  | CIn col vs => existsb (sat_cmp OpEq (get (bare col))) vs
  | CLike col p => match get (bare col) with VStr s => like None p s | _ => false end
  | CLikeEscaped col p => match get (bare col) with VStr s => like (Some "!"%char) p s | _ => false end
  | CNull col => is_null (get (bare col))
  | CNotNull col => negb (is_null (get (bare col)))
  | CRow c1 c2 op v1 v2 => sat_row op (get (bare c1)) (get (bare c2)) v1 v2
  end.

Definition sat_all (get : gostring -> value) (cs : list cond) : bool := forallb (sat get) cs.
End conditions.

(** ** Queries and their configuration *)

Record orderBy := OrderBy { o_Field : gostring; o_Column : gostring; o_Desc : bool }.

Record Config := MkConfig {
  Count : bool; HasFilter : bool; HasPage : bool; HasOrder : bool; Degenerate : bool; WithTrashed : bool;
  OnlyTrashed : bool; Version : Z; Preloads : list gostring; Cursor : gostring; CursorSize : Z; FirstPage : bool;
  Orders : list orderBy; FiltersOnly : bool; PageNumber : Z; Offset : Z; Limit : Z; FromQuery_ : bool;
}.

Definition new_Config (filtersOnly : bool) : Config :=
  MkConfig false false false false false false false 0 [] [] 0 false [] filtersOnly 0 0 0 false.

Definition set_filter (deg : bool) (c : Config) : Config :=
  MkConfig (Count c) true (HasPage c) (HasOrder c) (deg || Degenerate c) (WithTrashed c) (OnlyTrashed c) (Version c)
    (Preloads c) (Cursor c) (CursorSize c) (FirstPage c) (Orders c) (FiltersOnly c) (PageNumber c) (Offset c) (Limit c) (FromQuery_ c).

Definition set_paging (pageNumber offset limit : Z) (cursor : gostring) (cursorSize : Z) (first : bool) (c : Config) : Config :=
  MkConfig (Count c) (HasFilter c) true (HasOrder c) (Degenerate c) (WithTrashed c) (OnlyTrashed c) (Version c)
    (Preloads c) cursor cursorSize first (Orders c) (FiltersOnly c) pageNumber offset limit (FromQuery_ c).

Definition add_order (o : orderBy) (c : Config) : Config :=
  MkConfig (Count c) (HasFilter c) (HasPage c) true (Degenerate c) (WithTrashed c) (OnlyTrashed c) (Version c)
    (Preloads c) (Cursor c) (CursorSize c) (FirstPage c) (Orders c ++ [o]) (FiltersOnly c) (PageNumber c) (Offset c) (Limit c) (FromQuery_ c).

Definition set_count (c : Config) : Config :=
  MkConfig true (HasFilter c) (HasPage c) (HasOrder c) (Degenerate c) (WithTrashed c) (OnlyTrashed c) (Version c)
    (Preloads c) (Cursor c) (CursorSize c) (FirstPage c) (Orders c) (FiltersOnly c) (PageNumber c) (Offset c) (Limit c) (FromQuery_ c).

Definition add_preload (r : gostring) (c : Config) : Config :=
  MkConfig (Count c) (HasFilter c) (HasPage c) (HasOrder c) (Degenerate c) (WithTrashed c) (OnlyTrashed c) (Version c)
    (Preloads c ++ [r]) (Cursor c) (CursorSize c) (FirstPage c) (Orders c) (FiltersOnly c) (PageNumber c) (Offset c) (Limit c) (FromQuery_ c).

Definition set_trashed (w o : bool) (c : Config) : Config :=
  MkConfig (Count c) (HasFilter c) (HasPage c) (HasOrder c) (Degenerate c) w o (Version c)
    (Preloads c) (Cursor c) (CursorSize c) (FirstPage c) (Orders c) (FiltersOnly c) (PageNumber c) (Offset c) (Limit c) (FromQuery_ c).

Definition set_version (v : Z) (c : Config) : Config :=
  MkConfig (Count c) (HasFilter c) (HasPage c) (HasOrder c) (Degenerate c) (WithTrashed c) (OnlyTrashed c) v
    (Preloads c) (Cursor c) (CursorSize c) (FirstPage c) (Orders c) (FiltersOnly c) (PageNumber c) (Offset c) (Limit c) (FromQuery_ c).

Definition mark_query (c : Config) : Config :=
  MkConfig (Count c) (HasFilter c) (HasPage c) (HasOrder c) (Degenerate c) (WithTrashed c) (OnlyTrashed c) (Version c)
    (Preloads c) (Cursor c) (CursorSize c) (FirstPage c) (Orders c) (FiltersOnly c) (PageNumber c) (Offset c) (Limit c) true.

(** ** Options

    An option is what its constructor was given; [apply_option] is the
    function it returns, over the conditions so far and the configuration. *)
Definition maxPageSize : Z := 10000.
Definition maxInList : Z := 500.

(** The arguments of In: values, or one slice of them. *)
Inductive in_args := Values (vs : list value) | OneSlice (vs : list value).

Inductive where_option :=
| OCompare (op : cmp_op) (field : gostring) (v : value)
| OIn (field : gostring) (args : list value)
| OLike (field pattern : gostring)
| OLikeEscaped (field pattern : gostring)
| ONull (field : gostring)
| ONotNull (field : gostring)
| OOrder (field : gostring) (desc : bool)
| OPage (page size : Z)
| OLimit (n : Z)
| OOffset (n : Z)
| OCursor (c : gostring) (size : Z)
| OCursorDefault (c : gostring)
| OCount
| OPreload (relation : gostring)
| OWithTrashed
| OOnlyTrashed
| OVersion (v : Z)
| OFromQuery (o : where_option).

Definition Eq_ (field : gostring) (v : value) : where_option := OCompare OpEq field v.

(** In: one slice argument is unwrapped, and a nil one is no value. *)
Definition In_ (field : gostring) (values : in_args) : where_option :=
  OIn field (match values with
             | Values [VNull] => []
             | OneSlice vs | Values vs => vs
             end).

(** escapeLike, with strings.NewReplacer of three single bytes. *)
Definition escapeLike (s : gostring) : gostring :=
  concat (map (fun c => if beq c "!" || beq c "%" || beq c "_" then ["!"%char; c] else [c]) s).

Definition Contains (field s : gostring) : where_option := OLikeEscaped field (str "%" ++ escapeLike s ++ str "%").
Definition StartsWith (field s : gostring) : where_option := OLikeEscaped field (escapeLike s ++ str "%").
Definition EndsWith (field s : gostring) : where_option := OLikeEscaped field (str "%" ++ escapeLike s).

Notation fields_t := (gmap gostring gostring).
Definition st : Type := list cond * Config.

(** A filter on a field. *)
Definition filter_on (fields : fields_t) (field : gostring) (deg : bool) (c : gostring -> cond) (s : st) : result where_error st :=
  let? col := Column fields field in Ok (s.1 ++ [c col], set_filter deg s.2).

Definition apply_compare (op : cmp_op) (field : gostring) (v : value) (fields : fields_t) (s : st) : result where_error st :=
  filter_on fields field (is_null v) (fun col => if is_null v then CFalse else CCmp col op v) s.

Definition apply_In (field : gostring) (args : list value) (fields : fields_t) (s : st) : result where_error st :=
  let? col := Column fields field in
  let n := Z.of_nat (length args) in
  if n >? maxInList then Err EInvalidParam
  else if n =? 0 then Ok (s.1 ++ [CFalse], set_filter true s.2)
  else Ok (s.1 ++ [CIn col args], set_filter false s.2).

Definition apply_Order (field : gostring) (desc : bool) (fields : fields_t) (s : st) : result where_error st :=
  let? col := Column fields field in Ok (s.1, add_order (OrderBy field col desc) s.2).

Definition apply_Page (page size : Z) (s : st) : result where_error st :=
  if page <? 1 then Err EInvalidParam
  else if (size <? 0) || (size >? maxPageSize) then Err EInvalidParam
  else
    let offset := int64 ((page - 1) * size) in
    if offset >? MaxInt32 then Err EInvalidParam
    else Ok (s.1, set_paging page offset size (Cursor s.2) (CursorSize s.2) (FirstPage s.2) s.2).

Definition apply_Limit (n : Z) (s : st) : result where_error st :=
  if (n <? 1) || (n >? maxPageSize) then Err EInvalidParam
  else Ok (s.1, set_paging (PageNumber s.2) (Offset s.2) n (Cursor s.2) (CursorSize s.2) (FirstPage s.2) s.2).

Definition apply_Offset (n : Z) (s : st) : result where_error st :=
  if n <? 0 then Err EInvalidParam
  else Ok (s.1, set_paging (PageNumber s.2) n (Limit s.2) (Cursor s.2) (CursorSize s.2) (FirstPage s.2) s.2).

Definition apply_Cursor (c : gostring) (size : Z) (s : st) : result where_error st :=
  if (size <? 1) || (size >? maxPageSize) then Err EInvalidParam
  else Ok (s.1, set_paging (PageNumber s.2) (Offset s.2) (Limit s.2) c size (seq_eqb c []) s.2).

Fixpoint apply_option (o : where_option) (fields : fields_t) (s : st) : result where_error st :=
  match o with
  | OCompare op f v => apply_compare op f v fields s
  | OIn f args => apply_In f args fields s
  | OLike f p => filter_on fields f false (fun col => CLike col p) s
  | OLikeEscaped f p => filter_on fields f false (fun col => CLikeEscaped col p) s
  | ONull f => filter_on fields f false CNull s
  | ONotNull f => filter_on fields f false CNotNull s
  | OOrder f d => apply_Order f d fields s
  | OPage p n => apply_Page p n s
  | OLimit n => apply_Limit n s
  | OOffset n => apply_Offset n s
  | OCursor c n => apply_Cursor c n s
  | OCursorDefault c => Ok (s.1, set_paging (PageNumber s.2) (Offset s.2) (Limit s.2) c 0 (seq_eqb c []) s.2)
  | OCount => Ok (s.1, if FiltersOnly s.2 then s.2 else set_count s.2)
  | OPreload r => Ok (s.1, add_preload r s.2)
  | OWithTrashed => Ok (s.1, set_trashed true (OnlyTrashed s.2) s.2)
  | OOnlyTrashed => Ok (s.1, set_trashed (WithTrashed s.2) true s.2)
  | OVersion v => if v <? 1 then Err EInvalidParam else Ok (s.1, set_version v s.2)
  | OFromQuery o => let? s := apply_option o fields s in Ok (s.1, mark_query s.2)
  end.

Fixpoint apply_options (os : list where_option) (fields : fields_t) (s : st) : result where_error st :=
  match os with
  | [] => Ok s
  | o :: os' => let? s := apply_option o fields s in apply_options os' fields s
  end.

(** ** The options of a URL (query.go) *)

Definition reserved : list gostring := [str "page"; str "size"; str "order"; str "cursor"].

Definition sortedKeys {A} (m : gmap gostring A) : list gostring := merge_sort str_le (map fst (map_to_list m)).

(** url.Values.Get. *)
Definition get1 (q : gmap gostring (list gostring)) (key : gostring) : gostring :=
  match q !! key with Some (v :: _) => v | _ => [] end.

(** strings.Cut at a byte. *)
Fixpoint cut (sep : ascii) (s : gostring) : gostring * gostring :=
  match s with
  | [] => ([], [])
  | c :: s' => if beq c sep then ([], s') else let '(a, b) := cut sep s' in (c :: a, b)
  end.

(** A positive integer parameter, 0 when it is empty. *)
Definition positive_param (v : gostring) : result where_error Z :=
  if seq_eqb v [] then Ok 0
  else match atoi v with
       | Some n => if n <? 1 then Err EInvalidParam else Ok n
       | None => Err EInvalidParam
       end.

Definition cursorOrDefault (c : gostring) (size : Z) : where_option :=
  if size >? 0 then OCursor c size else OCursorDefault c.

(** One part of order=. *)
Definition order_part (allowed : fields_t) (part : gostring) : result where_error where_option :=
  let '(field, dir) := cut ":" (trim_space part) in
  match allowed !! field with
  | None => Err (EUnknownField field)
  | Some _ =>
      let dir := to_lower dir in
      if seq_eqb dir [] || seq_eqb dir (str "asc") then Ok (OOrder field false)
      else if seq_eqb dir (str "desc") then Ok (OOrder field true)
      else Err EInvalidParam
  end.

Fixpoint rmap {E A B} (f : A -> result E B) (l : list A) : result E (list B) :=
  match l with
  | [] => Ok []
  | a :: l' => let? b := f a in let? bs := rmap f l' in Ok (b :: bs)
  end.

(** The filters of one parameter: none, or one option. *)
Definition filter_param (allowed : fields_t) (strict : bool) (q : gmap gostring (list gostring)) (key : gostring)
  : result where_error (list where_option) :=
  if bool_decide (key ∈ reserved) then Ok []
  else match allowed !! key with
       | None => if strict then Err (EUnknownField key) else Ok []
       | Some _ =>
           match List.filter (fun v => negb (seq_eqb v [])) (default [] (q !! key)) with
           | [] => Ok []
           | [v] => Ok [Eq_ key (VStr v)]
           | vs => Ok [In_ key (Values (map VStr vs))]
           end
       end.

Definition FromQuery (q : gmap gostring (list gostring)) (allowed : fields_t) (strict : bool)
  : result where_error (list where_option) :=
  let? page := positive_param (get1 q (str "page")) in
  let? size := positive_param (get1 q (str "size")) in
  let? paging :=
    (match q !! str "cursor" with
     | Some cursor =>
         let c := match cursor with [] => [] | v :: _ => v end in
         if page >? 0 then Err EInvalidParam
         else Ok (OFromQuery (cursorOrDefault c (if size =? 0 then -1 else size)))
     | None => Ok (OFromQuery (OPage (Z.max page 1) size))
     end) in
  let? orders := (if seq_eqb (get1 q (str "order")) [] then Ok []
                  else rmap (order_part allowed) (split "," (get1 q (str "order")))) in
  let? filters := rmap (filter_param allowed strict q) (sortedKeys q) in
  Ok (paging :: orders ++ concat filters).
