(* ===== verification/StoreWhereSpec.v ===== *)
(** What the options of a query promise: literal matching, plain columns,
    page bounds, and what a URL can ask for. *)

From Stdlib Require Import ZArith Lia List Ascii.
From stdpp Require Import base decidable list gmap strings sorting.
From S2P Require Import Prelude GoStrings StoreWhere.

(** ** LIKE *)

Lemma like_from_enough esc fuel p s : (S (length p + length s) <= fuel)%nat -> like_from fuel esc p s = like esc p s.
Proof.
  unfold like. remember (S (length p + length s)) as f0 eqn:E0. assert (L0 : (S (length p + length s) <= f0)%nat) by lia.
  clear E0. revert p s fuel L0. induction f0 as [|f0 IH]; intros p s fuel L0 L; [lia|]. destruct fuel as [|fuel]; [lia|].
  cbn. destruct p as [|c p]; [done|]. cbn in L0, L.
  destruct (match esc with Some e => beq c e | None => false end).
  - destruct p as [|d p], s as [|x s]; try done. cbn in *. by rewrite (IH p s fuel) by lia.
  - destruct (beq c "%"); [|destruct (beq c "_")]; destruct s as [|x s]; cbn in *; try done;
      rewrite ?(IH p [] fuel), ?(IH p (x :: s) fuel), ?(IH (c :: p) s fuel), ?(IH p s fuel) by (cbn; lia); done.
Qed.

Lemma like_from_S fuel esc p s :
  like_from (S fuel) esc p s
  = match p with
    | [] => seq_eqb s []
    | c :: p' =>
        if (match esc with Some e => beq c e | None => false end) then
          match p', s with
          | d :: p'', x :: s' => beq d x && like_from fuel esc p'' s'
          | _, _ => false
          end
        else if beq c "%" then
          like_from fuel esc p' s || match s with [] => false | _ :: s' => like_from fuel esc p s' end
        else if beq c "_" then match s with [] => false | _ :: s' => like_from fuel esc p' s' end
        else match s with [] => false | x :: s' => beq c x && like_from fuel esc p' s' end
    end.
Proof. reflexivity. Qed.

Section escaped.
Notation esc := (Some "!"%char).

Lemma like_nil s : like esc [] s = seq_eqb s [].
Proof. reflexivity. Qed.

Lemma like_escaped d p s :
  like esc ("!"%char :: d :: p) s = match s with [] => false | x :: s' => beq d x && like esc p s' end.
Proof.
  unfold like at 1. rewrite like_from_S. change (beq "!" "!") with true. cbn iota.
  destruct s as [|x s]; [done|]. by rewrite like_from_enough by (cbn; lia).
Qed.

Lemma like_percent p s :
  like esc ("%"%char :: p) s = like esc p s || match s with [] => false | _ :: s' => like esc ("%"%char :: p) s' end.
Proof.
  unfold like at 1. rewrite like_from_S. change (beq "%" "!") with false. change (beq "%" "%") with true. cbn iota.
  rewrite like_from_enough by (cbn; lia). destruct s as [|x s]; [done|]. by rewrite like_from_enough by (cbn; lia).
Qed.

Lemma like_plain c p s : c <> "!"%char -> c <> "%"%char -> c <> "_"%char ->
  like esc (c :: p) s = match s with [] => false | x :: s' => beq c x && like esc p s' end.
Proof.
  intros H1 H2 H3. unfold like at 1. rewrite like_from_S. apply beq_false in H1, H2, H3. rewrite H1, H2, H3.
  destruct s as [|x s]; [done|]. by rewrite like_from_enough by (cbn; lia).
Qed.

(** An escaped string matches itself. *)
Lemma like_escapeLike w p s :
  like esc (escapeLike w ++ p) s = true <-> exists s', s = w ++ s' /\ like esc p s' = true.
Proof.
  revert s. induction w as [|c w IH]; intros s; [naive_solver|].
  assert (E : like esc (escapeLike (c :: w) ++ p) s
    = match s with [] => false | x :: s' => beq c x && like esc (escapeLike w ++ p) s' end).
  { unfold escapeLike. cbn [map concat]. destruct (beq c "!" || beq c "%" || beq c "_") eqn:B.
    - apply like_escaped.
    - apply orb_false_iff in B as [[B1 B2]%orb_false_iff B3]. apply beq_false in B1, B2, B3. by apply like_plain. }
  rewrite E. destruct s as [|x s]; [naive_solver|]. rewrite andb_true_iff, beq_true, IH. split.
  - intros (-> & s' & -> & H). eauto.
  - intros (s' & Hs & H). cbn in Hs. injection Hs as -> ->. eauto.
Qed.

Lemma like_percent_spec p s : like esc ("%"%char :: p) s = true <-> exists a b, s = a ++ b /\ like esc p b = true.
Proof.
  induction s as [|x s IH]; rewrite like_percent, orb_true_iff.
  - split; [intros [H|H]; [by exists [], []|done]|]. intros (a & b & E & H). destruct a; [|done]. cbn in E. subst. by left.
  - rewrite IH. split.
    + intros [H|(a & b & -> & H)]; [by exists [], (x :: s)|by exists (x :: a), b].
    + intros ([|y a] & b & E & H); cbn in E; [subst; by left|]. injection E as -> ->. right. eauto.
Qed.

Lemma like_all s : like esc (str "%") s = true.
Proof. apply like_percent_spec. exists s, []. by rewrite app_nil_r. Qed.
End escaped.

(** A filter option on one field: it adds one condition, true of a row exactly
    when [P]. *)
Definition selects (vcmp : value -> value -> option comparison) (fields : fields_t) (get : gostring -> value)
  (o : where_option) (P : Prop) : Prop :=
  exists c cfg, apply_option o fields ([], new_Config false) = Ok ([c], cfg) /\ (sat vcmp get c = true <-> P).

(** Contains, StartsWith and EndsWith match their input literally: for
    every input, wildcards and escape characters included, a text field is
    selected exactly when it contains, starts with or ends with the input. *)
Theorem escaped_literal vcmp fields field col w text get :
  Column fields field = Ok col -> get (bare col) = VStr text ->
  selects vcmp fields get (Contains field w) (exists a b, text = a ++ w ++ b)
  /\ selects vcmp fields get (StartsWith field w) (exists b, text = w ++ b)
  /\ selects vcmp fields get (EndsWith field w) (exists a, text = a ++ w).
Proof.
  intros Hc Ht.
  assert (S : forall p P, (like (Some "!"%char) p text = true <-> P) -> selects vcmp fields get (OLikeEscaped field p) P).
  { intros p P H. eexists _, _. cbn. unfold filter_on. rewrite Hc. cbn. split; [reflexivity|]. cbn. by rewrite Ht. }
  split; [|split]; apply S.
  - change (str "%" ++ escapeLike w ++ str "%") with ("%"%char :: (escapeLike w ++ str "%")). rewrite like_percent_spec. split.
    + intros (a & b & -> & (b' & -> & _)%like_escapeLike). eauto.
    + intros (a & b & ->). exists a, (w ++ b). split; [done|]. apply like_escapeLike. exists b. split; [done|apply like_all].
  - rewrite like_escapeLike. split; [intros (b & -> & _); eauto|]. intros (b & ->). exists b. split; [done|apply like_all].
  - change (str "%" ++ escapeLike w) with ("%"%char :: escapeLike w). rewrite like_percent_spec. split.
    + intros (a & b & -> & H). rewrite <- (app_nil_r (escapeLike w)) in H. apply like_escapeLike in H as (s' & -> & H).
      rewrite like_nil in H. apply bool_decide_eq_true in H as ->. exists a. by rewrite app_nil_r.
    + intros (a & ->). exists a, w. split; [done|]. rewrite <- (app_nil_r (escapeLike w)). apply like_escapeLike.
      exists []. by rewrite app_nil_r.
Qed.

(** A field of whatever name, as itself. *)
Definition one_field : fields_t := {[ str "title" := str "title" ]}.

Definition title_is (text : gostring) (col : gostring) : value := if seq_eqb col (str "title") then VStr text else VNull.

Lemma escaped_literal_witness :
  sat (fun _ _ => None) (title_is (str "50%_off!")) (CLikeEscaped (str "title") (escapeLike (str "50%_") ++ str "%")) = true
  /\ sat (fun _ _ => None) (title_is (str "500 off")) (CLikeEscaped (str "title") (escapeLike (str "50%_") ++ str "%")) = false
  /\ selects (fun _ _ => None) one_field (title_is (str "50%_off!")) (Contains (str "title") (str "%_o"))
       (exists a b, str "50%_off!" = a ++ str "%_o" ++ b)
  /\ selects (fun _ _ => None) one_field (title_is (str "50%_off!")) (StartsWith (str "title") (str "%_o"))
       (exists b, str "50%_off!" = str "%_o" ++ b)
  /\ selects (fun _ _ => None) one_field (title_is (str "50%_off!")) (EndsWith (str "title") (str "%_o"))
       (exists a, str "50%_off!" = a ++ str "%_o").
Proof.
  split; [vm_compute; reflexivity|]. split; [vm_compute; reflexivity|].
  apply (escaped_literal (fun _ _ => None) one_field (str "title") (str "title") (str "%_o") (str "50%_off!")); vm_compute; reflexivity.
Defined.

(** ** Columns *)

(** The columns a condition names. *)
Definition cond_columns (c : cond) : list gostring :=
  match c with
  | CFalse => []
  | CCmp col _ _ | CIn col _ | CLike col _ | CLikeEscaped col _ | CNull col | CNotNull col => [col]
  | CRow a b _ _ _ => [a; b]
  end.

(** A column of the map, made of letters, digits, underscores and one dot at
    most: nothing that could carry SQL. *)
Definition plain_byte (c : ascii) : Prop := ident_byte c = true \/ c = "."%char.
Definition plain_column (fields : fields_t) (col : gostring) : Prop :=
  (exists field, fields !! field = Some col) /\ col <> [] /\ (length col <= 128)%nat /\ Forall plain_byte col.

Lemma join_Forall (P : ascii -> Prop) sep ps : P sep -> Forall (Forall P) ps -> Forall P (join [sep] ps).
Proof.
  intros Hs. induction 1 as [|p ps Hp Hps IH]; [constructor|]. destruct ps as [|q ps]; [done|].
  rewrite join_cons2. apply Forall_app. split; [done|]. by apply Forall_cons.
Qed.

Lemma SafeIdent_plain s : SafeIdent s = true -> s <> [] /\ (length s <= 128)%nat /\ Forall plain_byte s.
Proof.
  unfold SafeIdent. rewrite andb_true_iff, negb_true_iff, orb_false_iff. intros [[N L] H].
  apply andb_true_iff in H as [_ H]. split; [|split; [lia|]].
  - intros ->. by apply bool_decide_eq_false in N.
  - rewrite <- (join_split "."%char s). apply join_Forall; [by right|]. apply Forall_forall. intros p Hp.
    rewrite forallb_forall in H. apply list_elem_of_In in Hp. specialize (H p Hp). unfold ident_part in H.
    destruct p as [|c p]; [done|]. apply andb_true_iff in H as [_ H]. rewrite forallb_forall in H.
    apply Forall_forall. intros x Hx%list_elem_of_In. left. by apply H.
Qed.

Lemma Column_plain fields field col : Column fields field = Ok col -> plain_column fields col.
Proof.
  unfold Column. destruct (fields !! field) as [c|] eqn:E; [|done]. destruct (SafeIdent c) eqn:S; [|done].
  intros [= ->]. split; [eauto|]. by apply SafeIdent_plain.
Qed.

(** The columns of a state: its conditions' and its orders'. *)
Definition columns_ok (fields : fields_t) (s : st) : Prop :=
  Forall (plain_column fields) (concat (map cond_columns s.1)) /\ Forall (fun o => plain_column fields (o_Column o)) (Orders s.2).

Lemma columns_filter fields field deg c s s' : (forall col, c col = CFalse \/ cond_columns (c col) = [col]) ->
  filter_on fields field deg c s = Ok s' -> columns_ok fields s -> columns_ok fields s'.
Proof.
  intros Hc E [H1 H2]. unfold filter_on in E. apply rbind_Ok in E as (col & Ec & [= <-]). split; cbn; [|done].
  rewrite map_app, concat_app. apply Forall_app. split; [done|]. cbn. rewrite app_nil_r.
  destruct (Hc col) as [->| ->]; [constructor|]. apply Forall_singleton. by eapply Column_plain.
Qed.

Lemma columns_In f args fields s s' : apply_In f args fields s = Ok s' -> columns_ok fields s -> columns_ok fields s'.
Proof.
  intros E [H1 H2]. unfold apply_In in E. apply rbind_Ok in E as (col & Ec & E). destruct (_ >? _); [done|].
  destruct (_ =? 0); injection E as <-; (split; cbn; [|done]); rewrite map_app, concat_app; apply Forall_app; (split; [done|]);
    cbn; [constructor|]. apply Forall_singleton. by eapply Column_plain.
Qed.

Lemma columns_same fields s s' : s'.1 = s.1 -> Orders s'.2 = Orders s.2 -> columns_ok fields s -> columns_ok fields s'.
Proof. unfold columns_ok. by intros -> ->. Qed.

Lemma apply_option_columns o fields s s' : apply_option o fields s = Ok s' -> columns_ok fields s -> columns_ok fields s'.
Proof.
  revert s'. induction o as [op f v|f args|f p|f p|f|f|f d|p n|n|n|c n|c| |r| | |v|o IH]; intros s' E C; cbn in E.
  1: { eapply columns_filter; [|exact E|done]. intros col. destruct (is_null v); [by left|by right]. }
  1: { by eapply columns_In. }
  1-4: eapply columns_filter; [|exact E|done]; by right.
  1: { unfold apply_Order in E. apply rbind_Ok in E as (col & Ec & [= <-]). destruct C as [H1 H2]. split; cbn; [done|].
       apply Forall_app. split; [done|]. apply Forall_singleton. by eapply Column_plain. }
  11: { apply rbind_Ok in E as (s1 & E1 & [= <-]). eapply columns_same; [| |by apply IH]; done. }
  all: unfold apply_Page, apply_Limit, apply_Offset, apply_Cursor in E; repeat (case_match; try done); simplify_eq;
    (eapply columns_same; [| |exact C]; done).
Qed.

(** The options of a query never carry SQL: whatever fields, values and
    patterns they were given, every column that their conditions and orders
    name is a column of the store's map and an identifier of at most 128
    letters, digits, underscores and dots. *)
Theorem options_plain_columns os fields filtersOnly cs cfg :
  apply_options os fields ([], new_Config filtersOnly) = Ok (cs, cfg) ->
  Forall (plain_column fields) (concat (map cond_columns cs) ++ map o_Column (Orders cfg)).
Proof.
  intros E. assert (H : columns_ok fields (cs, cfg)).
  { assert (C : columns_ok fields ([], new_Config filtersOnly)) by by split. revert E C.
    generalize ([] : list cond, new_Config filtersOnly). induction os as [|o os IH]; intros s E C; cbn in E.
    - by injection E as ->.
    - apply rbind_Ok in E as (s1 & E1 & E). eapply IH; [exact E|]. by eapply apply_option_columns. }
  destruct H as [H1 H2]. apply Forall_app. split; [done|]. by apply Forall_fmap.
Qed.

Lemma options_plain_columns_witness :
  is_ok (apply_options [Eq_ (str "title; --") (VStr [])] one_field ([], new_Config false)) = false
  /\ exists cs cfg, apply_options [Eq_ (str "title") (VStr (str "x' OR 1=1")); OOrder (str "title") true] one_field ([], new_Config false) = Ok (cs, cfg)
  /\ Forall (plain_column one_field) (concat (map cond_columns cs) ++ map o_Column (Orders cfg)).
Proof.
  split; [vm_compute; reflexivity|]. eexists _, _. split; [vm_compute; reflexivity|].
  apply (options_plain_columns [Eq_ (str "title") (VStr (str "x' OR 1=1")); OOrder (str "title") true] one_field false).
  vm_compute. reflexivity.
Defined.

(** ** Pages *)

Lemma far_product page size : 0 <= page < 2 ^ 48 -> 0 <= size <= maxPageSize -> int64 (page * size) = page * size.
Proof. intros Hp Hs. apply int64_id. unfold MinInt64, MaxInt64, maxPageSize in *. nia. Qed.

(** Page takes exactly the pages up to 2^48 of 0 to 10,000 rows whose
    first row is within a 32-bit offset, and asks for exactly that offset.
    Beyond that the product of its int64 arithmetic may wrap around, and a
    page far past any table is taken as one near its start. *)
Theorem Page_bounds page size s :
  (page <= 2 ^ 48 ->
     match apply_Page page size s with
     | Ok s' => 1 <= page /\ 0 <= size <= maxPageSize /\ (page - 1) * size <= MaxInt32
                /\ PageNumber s'.2 = page /\ Offset s'.2 = (page - 1) * size /\ Limit s'.2 = size /\ HasPage s'.2 = true
     | Err _ => page < 1 \/ size < 0 \/ maxPageSize < size \/ MaxInt32 < (page - 1) * size
     end)
  /\ (exists far, far <= MaxInt64 /\ MaxInt32 < (far - 1) * 4
       /\ exists s', apply_Page far 4 s = Ok s' /\ PageNumber s'.2 = far /\ Offset s'.2 = 0).
Proof.
  split.
  - intros Hp. unfold apply_Page. destruct (Z.ltb_spec page 1); [by left|].
    destruct ((size <? 0) || (size >? maxPageSize)) eqn:Es; [lia|].
    rewrite far_product by lia. destruct ((page - 1) * size >? MaxInt32) eqn:Eo; [lia|]. cbn. lia.
  - exists (2 ^ 62 + 1). split; [vm_compute; discriminate|]. split; [vm_compute; reflexivity|].
    eexists. split; [vm_compute; reflexivity|]. split; reflexivity.
Qed.

(** ** What a URL can ask for *)

Lemma rmap_Ok {E A B} (f : A -> result E B) l bs : rmap f l = Ok bs -> Forall2 (fun a b => f a = Ok b) l bs.
Proof.
  revert bs. induction l as [|a l IH]; intros bs H; cbn in H; [injection H as <-; constructor|].
  apply rbind_Ok in H as (b & Eb & H). apply rbind_Ok in H as (bs' & Ebs & [= <-]). constructor; [done|]. by apply IH.
Qed.

(** The options a URL's filters and orders become. *)
Definition on_allowed (allowed : fields_t) (o : where_option) : Prop :=
  match o with
  | OCompare OpEq f v => is_Some (allowed !! f) /\ f ∉ reserved /\ exists s, v = VStr s /\ s <> []
  | OIn f vs => is_Some (allowed !! f) /\ f ∉ reserved /\ (2 <= length vs)%nat /\ Forall (fun v => exists s, v = VStr s /\ s <> []) vs
  | OOrder f _ => is_Some (allowed !! f)
  | _ => False
  end.

Definition url_paging (o : where_option) : Prop :=
  match o with
  | OFromQuery (OPage p n) => 1 <= p <= MaxInt64 /\ 0 <= n <= MaxInt64
  | OFromQuery (OCursor _ n) => 1 <= n <= MaxInt64
  | OFromQuery (OCursorDefault _) => True
  | _ => False
  end.

Lemma positive_param_Ok v n : positive_param v = Ok n -> 0 <= n <= MaxInt64.
Proof.
  unfold positive_param. destruct (seq_eqb v []); [intros [= <-]; unfold MaxInt64; lia|].
  destruct (atoi v) as [m|] eqn:E; [|done]. apply atoi_range in E. destruct (Z.ltb_spec m 1); [done|]. intros [= <-]. lia.
Qed.

Lemma order_part_allowed allowed part o : order_part allowed part = Ok o -> on_allowed allowed o.
Proof.
  unfold order_part. destruct (cut _ _) as [field dir]. destruct (allowed !! field) eqn:E; [|done].
  destruct (_ || _); [intros [= <-]; cbn; eauto|]. destruct (seq_eqb _ _); [intros [= <-]; cbn; eauto|done].
Qed.

Lemma filter_param_allowed allowed strict q key os : filter_param allowed strict q key = Ok os -> Forall (on_allowed allowed) os.
Proof.
  unfold filter_param. destruct (bool_decide (key ∈ reserved)) eqn:R; [intros [= <-]; constructor|].
  apply bool_decide_eq_false in R. destruct (allowed !! key) eqn:E; [|destruct strict; [done|intros [= <-]; constructor]].
  set (vs := List.filter _ _).
  assert (N : forall v, v ∈ vs -> v <> []).
  { intros v Hv. apply list_elem_of_In, filter_In in Hv as [_ Hv]. apply negb_true_iff, bool_decide_eq_false in Hv. done. }
  destruct vs as [|v [|w vs']]; intros [= <-]; [constructor| |]; apply Forall_singleton; cbn.
  - split; [by eauto|]. split; [done|]. exists v. split; [done|]. apply N. by left.
  - split; [by eauto|]. split; [done|]. split; [lia|].
    assert (F : Forall (fun v => v <> []) (v :: w :: vs')) by by apply Forall_forall.
    change (Forall (fun v => exists s, v = VStr s /\ s <> []) (map VStr (v :: w :: vs'))).
    apply List.Forall_map. apply (Forall_impl _ _ _ F). eauto.
Qed.

(** A URL is fenced: whatever its parameters, FromQuery answers one
    pagination first, marked as read from a URL with positive numbers, and
    then only equalities, IN lists and orders on the allowed fields, with
    values that are not empty; and in strict mode every parameter is
    reserved or an allowed field. *)
Theorem FromQuery_fenced q allowed strict os :
  FromQuery q allowed strict = Ok os ->
  (exists paging filters, os = paging :: filters /\ url_paging paging /\ Forall (on_allowed allowed) filters)
  /\ (strict = true -> forall key, is_Some (q !! key) -> key ∈ reserved \/ is_Some (allowed !! key)).
Proof.
  unfold FromQuery. intros H. apply rbind_Ok in H as (page & Ep & H). apply rbind_Ok in H as (size & Es & H).
  apply rbind_Ok in H as (paging & Epg & H). apply rbind_Ok in H as (orders & Eo & H). apply rbind_Ok in H as (fs & Ef & [= <-]).
  apply positive_param_Ok in Ep, Es. apply rmap_Ok in Ef. split.
  - exists paging, (orders ++ concat fs). split; [done|]. split.
    + destruct (q !! str "cursor").
      * destruct (page >? 0); [done|]. injection Epg as <-. unfold cursorOrDefault.
        destruct (Z.eqb_spec size 0); [done|]. destruct (size >? 0) eqn:Eg; cbn; [lia|done].
      * injection Epg as <-. cbn. unfold MaxInt64 in *. lia.
    + apply Forall_app. split.
      * destruct (seq_eqb _ _); [injection Eo as <-; constructor|]. apply rmap_Ok in Eo.
        clear -Eo. induction Eo as [|a o la lo E _ IH]; constructor; [by eapply order_part_allowed|done].
      * apply Forall_concat. clear -Ef. induction Ef as [|a o la lo E _ IH]; constructor; [by eapply filter_param_allowed|done].
  - intros -> key [vs Hk].
    assert (Hin : key ∈ sortedKeys q).
    { unfold sortedKeys. rewrite merge_sort_Permutation. apply list_elem_of_fmap. exists (key, vs).
      split; [done|]. by apply elem_of_map_to_list. }
    apply list_elem_of_lookup in Hin as [i Hi]. destruct (Forall2_lookup_l _ _ _ _ _ Ef Hi) as (o & _ & Eo').
    unfold filter_param in Eo'. destruct (bool_decide (key ∈ reserved)) eqn:R; [left; by apply bool_decide_eq_true in R|].
    right. destruct (allowed !! key); [eauto|done].
Qed.

Definition url_example : gmap gostring (list gostring) :=
  <[str "page" := [str "2"]]> (<[str "size" := [str "20"]]> (<[str "order" := [str "title:desc, title"]]>
    (<[str "title" := [str "a"; []; str "b"]]> ∅))).

Lemma FromQuery_fenced_witness :
  FromQuery (<[str "owner" := [str "x"]]> url_example) one_field true = Err (EUnknownField (str "owner"))
  /\ exists os, FromQuery url_example one_field true = Ok os /\ length os = 4%nat
  /\ (exists paging filters, os = paging :: filters /\ url_paging paging /\ Forall (on_allowed one_field) filters)
  /\ (true = true -> forall key, is_Some (url_example !! key) -> key ∈ reserved \/ is_Some (one_field !! key)).
Proof.
  split; [vm_compute; reflexivity|]. eexists. split; [vm_compute; reflexivity|]. split; [reflexivity|].
  apply (FromQuery_fenced url_example one_field true). vm_compute. reflexivity.
Defined.
