(* ===== verification/Store.v ===== *)
(** store: the store of a model - its declaration, its owner scope, its
    locators, and the query every operation starts from.  A row is its columns
    by name; a table is its rows by numeric key. *)

From Stdlib Require Import ZArith Lia List Ascii.
From stdpp Require Import base decidable list gmap strings sorting.
From S2P Require Import Prelude GoStrings StoreWhere.

(** ** Principals and policies *)

Record Principal := MkPrincipal { UserID : gostring; Roles : list gostring }.

Definition HasRole (p : Principal) (role : gostring) : bool := bool_decide (role ∈ Roles p).

(** What PrincipalFrom reads from the context of a call. *)
Definition ctx : Type := option Principal.

Record StorePolicy := MkPolicy {
  RequirePrincipal : bool; AdminRoles : list gostring; OwnerScope : option bool; DefaultPageSize : Z; MaxPageSize : Z;
}.

(** ** Rows and tables *)

Notation row := (gmap gostring value).
Notation table := (gmap Z row).

(** A column of a row; the numeric key is the column id. *)
Definition get (x : Z * row) (col : gostring) : value :=
  if seq_eqb col (str "id") then VUint x.1 else default VNull (x.2 !! col).

(** ** The declaration of a model *)

(** One struct on the path to a field: whether it is embedded, and its json tag. *)
Record step := Step { anonymous : bool; step_json : gostring }.

(** The Go kinds of a model's fields, as the store sees them. *)
Inductive gokind := KTime | KString | KBool | KInt (bits : Z) | KUint (bits : Z) | KFloat (bits : Z) | KOther.

(** A field gorm knows: its column (empty for none), the structs it is
    promoted through, its json and store tags, its kind behind pointers, and
    whether its type is a driver.Valuer. *)
Record field := Field {
  DBName : gostring; path : list step; json_tag : gostring; store_tag : option gostring; kind_of : gokind; valuer : bool;
}.

Definition promoted_step (p : step) : bool :=
  let '(jname, opts) := cut "," (step_json p) in
  (anonymous p && seq_eqb jname []) || bool_decide (str "embed" ∈ split "," opts).

Definition promoted (l : list step) : bool := forallb promoted_step l.

Definition publicName (f : field) : gostring :=
  if negb (promoted (path f)) then DBName f
  else let name := (cut "," (json_tag f)).1 in
       if seq_eqb name [] || seq_eqb name (str "-") then DBName f else name.

(** The panics of New. *)
Inductive declaration_error :=
| PDuplicateField (name : gostring)
| PStoreTag (tag : gostring)
| PNoTags
| PAliasUndeclared (field : gostring)
| PAliasColumn (col : gostring)
| PManagedUpdate (field : gostring)
| PBlankRole
| PBlankConstraint.

Definition protectedColumns : list gostring :=
  map str ["id"; "rid"; "version"; "created_at"; "updated_at"; "deleted_at"; "delete_token"; "owner_id"]%string.

Definition protected (col : gostring) : bool := existsb (seq_eqb col) protectedColumns.

Definition addField (m : fields_t) (name : gostring) (f : field) : result declaration_error fields_t :=
  match m !! name with
  | Some prev => if seq_eqb prev (DBName f) then Ok (<[name := DBName f]> m) else Err (PDuplicateField name)
  | None => Ok (<[name := DBName f]> m)
  end.

(** The three maps of declaredFields, and whether a tag was seen. *)
Record declared := Declared { d_query : fields_t; d_update : fields_t; d_columns : fields_t; tagged : bool }.

(** One value of a store tag. *)
Definition tag_part (name : gostring) (f : field) (tag : gostring) (d : declared) (part : gostring) : result declaration_error declared :=
  let part := trim_space part in
  if seq_eqb part (str "query") then
    let? q := addField (d_query d) name f in Ok (Declared q (d_update d) (d_columns d) true)
  else if seq_eqb part (str "update") then
    let? u := addField (d_update d) name f in Ok (Declared (d_query d) u (d_columns d) true)
  else Err (PStoreTag tag).

Fixpoint rfold {E A B} (f : A -> B -> result E A) (l : list B) (a : A) : result E A :=
  match l with
  | [] => Ok a
  | b :: l' => let? a := f a b in rfold f l' a
  end.

Definition declare_field (d : declared) (f : field) : result declaration_error declared :=
  if seq_eqb (DBName f) [] || seq_eqb (DBName f) (str "id") then Ok d
  else
    let name := publicName f in
    let? c := addField (d_columns d) name f in
    let d := Declared (d_query d) (d_update d) c (tagged d) in
    match store_tag f with
    | None => Ok d
    | Some tag => rfold (tag_part name f tag) (split "," tag) (Declared (d_query d) (d_update d) (d_columns d) true)
    end.

(** id, created_at and updated_at join the query fields. *)
Definition always_query (columns : fields_t) (q : fields_t) (name : gostring) : fields_t :=
  match columns !! name, q !! name with
  | Some col, None => <[name := col]> q
  | _, _ => q
  end.

Definition declaredFields (fs : list field) : result declaration_error (fields_t * fields_t * fields_t) :=
  let? d := rfold declare_field fs (Declared ∅ ∅ ∅ false) in
  if negb (tagged d) then Err PNoTags
  else Ok (fold_left (always_query (d_columns d)) (map str ["id"; "created_at"; "updated_at"]%string) (d_query d), d_update d, d_columns d).

(** filterTypes: the query fields whose URL values are parsed. *)
Definition filter_type (query : fields_t) (types : gmap gostring gokind) (f : field) : gmap gostring gokind :=
  if seq_eqb (DBName f) [] || seq_eqb (DBName f) (str "id") then types
  else match query !! publicName f with
       | None => types
       | Some _ =>
           if valuer f then types
           else match kind_of f with
                | KString | KOther => types
                | k => <[publicName f := k]> types
                end
       end.

Definition filterTypes_of (fs : list field) (query : fields_t) : gmap gostring gokind := fold_left (filter_type query) fs ∅.

(** ** The store *)

(** A custom scope adds conditions to a query; it may fail, or answer nil. *)
Definition ScopeFunc : Type := ctx -> result Z (option (list cond)).

(** An associated model: whether it embeds an Owned base, its table, and its
    own associations. *)
Record model_schema := MkSchema { sch_owned : bool; sch_table : gostring; sch_rels : gmap gostring gostring }.

Inductive store_error :=
| ENotFound
| EVersionConflict (version : Z)
| EDuplicate (constraint : gostring)
| EEmptyChanges
| ENoPrincipal
| EMissingConditions
| EQuery (e : where_error)          (* 400 *)
| ECode (e : where_error)           (* 500: a field name of the code *)
| ENilLocator
| EScope (e : Z)
| EScopeNil
| EHook (e : Z)
| ENoAssociation (relation : gostring)
| ENotInTx
| ELockPreload
| ENoSoftDelete
| EManagedColumn (name : gostring)
| EPatch (name : gostring)
| ENoColumn (col : gostring)
| EBoundary (field : gostring)
| ERid
| EDatabase.

Record store := MkStore {
  s_table : gostring;                          (* schema.Table *)
  kinds : gmap gostring (gokind * bool);       (* the columns, their kind, and whether the field is a pointer *)
  queryFields : fields_t; updateFields : fields_t; columns : fields_t; filterTypes : gmap gostring gokind;
  soft : bool; owned : bool; policy : StorePolicy; scopes : list ScopeFunc;
  relations : gmap gostring gostring;          (* association -> model *)
  schemas : gmap gostring model_schema;
  BeforeCreateHook : ctx -> row -> result Z row;
  BeforeUpdateHook : ctx -> gmap gostring value -> option Z;
  BeforeDeleteHook : ctx -> option Z;
}.

(** One alias of New. *)
Definition set_alias (field col : gostring) (m : fields_t) : fields_t :=
  match m !! field with Some _ => <[field := col]> m | None => m end.

Definition alias (d : fields_t * fields_t * fields_t) (a : gostring * gostring) : result declaration_error (fields_t * fields_t * fields_t) :=
  let '(q, u, c) := d in
  let '(field, col) := a in
  match c !! field with
  | None => Err (PAliasUndeclared field)
  | Some _ => if SafeIdent col then Ok (set_alias field col q, set_alias field col u, set_alias field col c) else Err (PAliasColumn col)
  end.

Definition blank (s : gostring) : bool := seq_eqb (trim_space s) [].

(** What New is given besides the model: its declaration and the options. *)
Record declaration := Declare_ {
  fields_of : list field; aliases : gmap gostring gostring; constraint_names : list (gostring * gostring);
  pol : StorePolicy; embeds_owner : bool; embeds_soft : bool; base : store;
}.

(** New; [base] carries what it copies unread (the schema, the custom scopes
    and the hooks). *)
Definition New (d : declaration) : result declaration_error store :=
  let? maps := declaredFields (fields_of d) in
  let types := filterTypes_of (fields_of d) maps.1.1 in
  let? maps := rfold alias (map_to_list (aliases d)) maps in
  let '(q, u, c) := maps in
  let? _ := (match List.find (fun fc => protected fc.2) (map_to_list u) with
             | Some (f, _) => Err (PManagedUpdate f)
             | None => Ok tt
             end) in
  if existsb (fun nf => blank nf.1 || blank nf.2) (constraint_names d) then Err PBlankConstraint
  else if existsb blank (AdminRoles (pol d)) then Err PBlankRole
  else
    let b := base d in
    Ok (MkStore (s_table b) (kinds b) q u c types (embeds_soft d)
          (embeds_owner d && match OwnerScope (pol d) with None => true | Some on => on end)
          (pol d) (scopes b) (relations b) (schemas b) (BeforeCreateHook b) (BeforeUpdateHook b) (BeforeDeleteHook b)).

(** ** Scopes *)

(** The query under construction: its conditions, whether it is Unscoped, and
    its preloads with their conditions. *)
Record query := MkQuery { conds : list cond; unscoped : bool; preloads : gmap gostring (list cond) }.

Definition start_query : query := MkQuery [] false ∅.
Definition where_ (cs : list cond) (tx : query) : query := MkQuery (conds tx ++ cs) (unscoped tx) (preloads tx).
Definition Unscoped (tx : query) : query := MkQuery (conds tx) true (preloads tx).

Definition isAdmin (s : store) (p : Principal) : bool := existsb (HasRole p) (AdminRoles (policy s)).

(** The principal of a call, when it has one with an id. *)
Definition caller (c : ctx) : option Principal :=
  match c with
  | Some p => if seq_eqb (UserID p) [] then None else Some p
  | None => None
  end.

Definition owner_is (tbl u : gostring) : cond := CCmp (tbl ++ str ".owner_id") OpEq (VStr u).

Definition ownerScope (s : store) (c : ctx) (tx : query) : result store_error query :=
  match caller c with
  | None => Err ENoPrincipal
  | Some p => if isAdmin s p then Ok tx else Ok (where_ [owner_is (s_table s) (UserID p)] tx)
  end.

Definition custom_scope (c : ctx) (tx : query) (f : ScopeFunc) : result store_error query :=
  match f c with
  | Err e => Err (EScope e)
  | Ok None => Err EScopeNil
  | Ok (Some cs) => Ok (where_ cs tx)
  end.

Definition scoped (s : store) (c : ctx) (tx : query) : result store_error query :=
  let? tx := (if owned s then ownerScope s c tx else Ok tx) in
  rfold (custom_scope c) (scopes s) tx.

Definition readScoped (s : store) (c : ctx) (tx : query) : result store_error query :=
  match scoped s c tx with
  | Err ENoPrincipal => Ok (where_ [CFalse] tx)
  | r => r
  end.

(** fillOwner, over the object's columns. *)
Definition owner_of (r : row) : gostring := match r !! str "owner_id" with Some (VStr o) => o | _ => [] end.
Definition set_owner (o : gostring) (r : row) : row := <[str "owner_id" := VStr o]> r.

Definition fillOwner (s : store) (c : ctx) (obj : row) : result store_error row :=
  if negb (owned s) then Ok obj
  else match caller c with
       | None => if RequirePrincipal (policy s) || seq_eqb (owner_of obj) [] then Err ENoPrincipal else Ok obj
       | Some p => if isAdmin s p && negb (seq_eqb (owner_of obj) []) then Ok obj else Ok (set_owner (UserID p) obj)
       end.

Definition pageSizes (s : store) : Z * Z :=
  let def := if DefaultPageSize (policy s) <=? 0 then 20 else DefaultPageSize (policy s) in
  let maxSize := if MaxPageSize (policy s) <=? 0 then 100 else MaxPageSize (policy s) in
  let maxSize := Z.min maxSize 10000 in
  (Z.min def maxSize, maxSize).

(** ** Locators *)

Inductive Locator := RID (rid : gostring) | ID (id : Z) | Where (opts : list where_option).

(** codeError: an unknown field of the code is a 500, a bad parameter a 400. *)
Definition codeError (e : where_error) : store_error :=
  match e with
  | EInvalidParam => EQuery e
  | EUnknownField _ | EUnsafeColumn _ _ => ECode e
  end.

Definition locate (s : store) (l : Locator) (tx : query) : result store_error query :=
  match l with
  | RID r => Ok (where_ [CCmp (s_table s ++ str ".rid") OpEq (VStr r)] tx)
  | ID i => Ok (where_ [CCmp (s_table s ++ str ".id") OpEq (VUint i)] tx)
  | Where opts =>
      match apply_options opts (columns s) ([], new_Config true) with
      | Err e => Err (codeError e)
      | Ok (cs, cfg) => if HasFilter cfg then Ok (where_ cs tx) else Err EMissingConditions
      end
  end.

(** ** Preloads *)

(** associationFence: the conditions of an owned association, [None] for one
    that is not fenced. *)
Definition associationFence (s : store) (c : ctx) (m : model_schema) : option (list cond) :=
  if match OwnerScope (policy s) with Some on => negb on | None => false end then None
  else if negb (sch_owned m) then None
  else Some (match caller c with
             | None => [CFalse]
             | Some p => if isAdmin s p then [] else [owner_is (sch_table m) (UserID p)]
             end).

(** The walk along a relation's parts; the path so far, and the associations
    at its end. *)
Fixpoint preload_walk (s : store) (c : ctx) (relation : gostring) (parts : list gostring) (path : gostring)
    (rels : gmap gostring gostring) (tx : query) : result store_error query :=
  match parts with
  | [] => Ok tx
  | part :: parts' =>
      match rels !! part with
      | None => Err (ENoAssociation relation)
      | Some m =>
          match schemas s !! m with
          | None => Err (ENoAssociation relation)
          | Some sch =>
              let path := if seq_eqb path [] then part else path ++ str "." ++ part in
              let tx := (match associationFence s c sch with
                         | Some fence => MkQuery (conds tx) (unscoped tx) (<[path := fence]> (preloads tx))
                         | None => tx
                         end) in
              preload_walk s c relation parts' path (sch_rels sch) tx
          end
      end
  end.

Definition preload1 (s : store) (c : ctx) (tx : query) (relation : gostring) : result store_error query :=
  let? tx := preload_walk s c relation (split "." relation) [] (relations s) tx in
  Ok (match preloads tx !! relation with
      | Some _ => tx
      | None => MkQuery (conds tx) (unscoped tx) (<[relation := []]> (preloads tx))
      end).

(** gorm's clause.Associations. *)
Definition Associations : gostring := str "~~~as~~~".

Definition preload (s : store) (c : ctx) (tx : query) (relation : gostring) : result store_error query :=
  if seq_eqb relation (str "*") || seq_eqb relation Associations then rfold (preload1 s c) (sortedKeys (relations s)) tx
  else preload1 s c tx relation.

(** ** Options on a query *)

Definition trash_scope (s : store) (cfg : Config) (tx : query) : query :=
  if OnlyTrashed cfg then
    if soft s then where_ [CNotNull (s_table s ++ str ".deleted_at")] (Unscoped tx) else where_ [CFalse] tx
  else if WithTrashed cfg then Unscoped tx
  else tx.

(** apply. *)
Definition apply (s : store) (c : ctx) (tx : query) (filtersOnly : bool) (opts : list where_option) : result store_error (query * Config) :=
  match apply_options opts (columns s) ([], new_Config filtersOnly) with
  | Err e => Err (codeError e)
  | Ok (cs, cfg) =>
      let tx := trash_scope s cfg (where_ cs tx) in
      let? tx := (if FiltersOnly cfg then Ok tx else rfold (preload s c) (Preloads cfg) tx) in
      Ok (tx, cfg)
  end.

Definition read (s : store) (c : ctx) (filtersOnly : bool) (opts : list where_option) : result store_error (query * Config) :=
  let? tx := readScoped s c start_query in
  apply s c tx filtersOnly opts.

(** write: the query of an update or a delete. *)
Definition write (s : store) (c : ctx) (loc : option Locator) (opts : list where_option) : result store_error (query * Config) :=
  match loc with
  | None => Err ENilLocator
  | Some l =>
      let? tx := scoped s c start_query in
      let? '(tx, cfg) := apply s c tx true opts in
      let? tx := locate s l tx in
      Ok (tx, cfg)
  end.

(** ** The rows of a query *)
Section rows.
Context (vcmp : value -> value -> option comparison).

(** gorm's soft delete hides deleted rows unless the query is Unscoped. *)
Definition visible (s : store) (tx : query) (x : Z * row) : bool :=
  unscoped tx || negb (soft s) || is_null (get x (str "deleted_at")).

Definition matches (s : store) (tx : query) (x : Z * row) : bool :=
  visible s tx x && sat_all vcmp (get x) (conds tx).

Definition selected (s : store) (tx : query) (tb : table) : list (Z * row) :=
  List.filter (matches s tx) (map_to_list tb).
End rows.
