(* ===== verification/StoreCursor.v ===== *)
(** store/cursor.go: the boundary values of a keyset page, and the token that
    carries them. *)

From Stdlib Require Import ZArith Lia List Ascii.
From stdpp Require Import base decidable list gmap strings sorting.
From S2P Require Import Prelude GoStrings Utf8 StoreWhere Store.

(** ** Numbers and booleans as text (strconv) *)

(** ParseInt(s, 10, bits) and ParseUint(s, 10, bits). *)
Definition parse_int (s : gostring) (bits : Z) : option Z :=
  n ← atoi s; if (- 2 ^ (bits - 1) <=? n) && (n <? 2 ^ (bits - 1)) then Some n else None.

Definition parse_uint (s : gostring) (bits : Z) : option Z :=
  n ← (match s with [] => None | _ => digits_val 0 s end); if n <? 2 ^ bits then Some n else None.

Definition format_bool (b : bool) : gostring := str (if b then "true" else "false").

Definition parse_bool (s : gostring) : option bool :=
  if bool_decide (s ∈ map str ["1"; "t"; "T"; "true"; "TRUE"; "True"]%string) then Some true
  else if bool_decide (s ∈ map str ["0"; "f"; "F"; "false"; "FALSE"; "False"]%string) then Some false
  else None.

(** ** Kinds *)

Definition cursorVersion : Z := 1.
Definition maxCursorToken : Z := 4096.
Definition maxCursorValue : Z := 1024.

Definition kindTime : gostring := str "time".
Definition kindString : gostring := str "str".
Definition kindInt : gostring := str "int".
Definition kindUint : gostring := str "uint".
Definition kindFloat : gostring := str "float".
Definition kindBool : gostring := str "bool".

Record cursorToken := MkToken { V : Z; t_Field : gostring; t_Desc : bool; Kind : gostring; Value : gostring; t_RID : gostring }.

Record fieldSpec := MkSpec { spec_kind : gostring; spec_bits : Z }.

Definition scalarSpec (k : gokind) : option fieldSpec :=
  match k with
  | KTime => Some (MkSpec kindTime 0)
  | KString => Some (MkSpec kindString 0)
  | KBool => Some (MkSpec kindBool 0)
  | KInt b => Some (MkSpec kindInt b)
  | KUint b => Some (MkSpec kindUint b)
  | KFloat b => Some (MkSpec kindFloat b)
  | KOther => None
  end.

(** ** The token *)

(** The standard library's text forms of times and floats, and the token's
    JSON in base64url; a value that has no text, or a text that is no value,
    is [None]. *)
Record Codec := MkCodec {
  fmt_time : Z -> option gostring; parse_time : gostring -> option Z;
  fmt_float : Z -> gostring; parse_float : gostring -> Z -> option Z; is_nan : Z -> bool;
  pack : cursorToken -> gostring; unpack : gostring -> option cursorToken;
}.

Section cursor.
Context (K : Codec).

(** encodeValue: the kind and the text; [None] is its error. *)
Definition encodeValue (v : value) : option (gostring * gostring) :=
  match v with
  | VNull => None
  | VTime t => b ← fmt_time K t; Some (kindTime, b)
  | VStr s => if maxCursorValue <? Z.of_nat (length s) then None
              else if ValidString s then Some (kindString, s) else None
  | VBool b => Some (kindBool, format_bool b)
  | VInt z => Some (kindInt, format_int z)
  | VUint z => Some (kindUint, format_uint z)
  | VFloat f => if is_nan K f then None else Some (kindFloat, fmt_float K f)
  end.

Definition decodeValue (kind text : gostring) (bits : Z) : option value :=
  let bits := if bits =? 0 then 64 else bits in
  if seq_eqb kind kindTime then VTime <$> parse_time K text
  else if seq_eqb kind kindString then Some (VStr text)
  else if seq_eqb kind kindBool then VBool <$> parse_bool text
  else if seq_eqb kind kindInt then VInt <$> parse_int text bits
  else if seq_eqb kind kindUint then VUint <$> parse_uint text bits
  else if seq_eqb kind kindFloat then
    f ← parse_float K text bits; if is_nan K f then None else Some (VFloat f)
  else None.

Definition decodeCursor (token field : gostring) (desc : bool) (spec : fieldSpec) : result where_error (value * gostring) :=
  if maxCursorToken <? Z.of_nat (length token) then Err EInvalidParam
  else match unpack K token with
       | None => Err EInvalidParam
       | Some tok =>
           if negb (V tok =? cursorVersion) then Err EInvalidParam
           else if negb (seq_eqb (t_Field tok) field) || negb (Bool.eqb (t_Desc tok) desc) then Err EInvalidParam
           else if seq_eqb (t_RID tok) [] then Err EInvalidParam
           else if negb (seq_eqb (Kind tok) (spec_kind spec)) then Err EInvalidParam
           else match decodeValue (Kind tok) (Value tok) (spec_bits spec) with
                | None => Err EInvalidParam
                | Some v => Ok (v, t_RID tok)
                end
       end.

(** encodeCursor, over a row's column [bare] and its RID. *)
Definition encodeCursor (x : Z * row) (field : gostring) (desc : bool) (bare : gostring) (spec : fieldSpec) : result store_error gostring :=
  match get x (str "rid") with
  | VStr rid =>
      if seq_eqb rid [] then Err ERid
      else match encodeValue (get x bare) with
           | None => Err (EBoundary field)
           | Some (kind, text) =>
               if negb (seq_eqb kind (spec_kind spec)) then Err (EBoundary field)
               else match decodeValue kind text (spec_bits spec) with
                    | None => Err (EBoundary field)
                    | Some _ =>
                        let token := pack K (MkToken cursorVersion field desc kind text rid) in
                        if maxCursorToken <? Z.of_nat (length token) then Err (EBoundary field) else Ok token
                    end
           end
  | _ => Err ERid
  end.
End cursor.

(** ** Round trip *)

(** The values a Go field holds: its integers fit in 64 bits. *)
Definition go_value (v : value) : Prop :=
  match v with
  | VInt z => MinInt64 <= z <= MaxInt64
  | VUint z => 0 <= z <= MaxUint64
  | _ => True
  end.

Lemma digits_format_uint n : 0 <= n <= MaxUint64 -> digits_val 0 (format_uint n) = Some n.
Proof. intros L. unfold format_uint, MaxUint64 in *. by rewrite (format_go_val 20 n []) by lia. Qed.

Lemma atoi_format_int z : MinInt64 <= z <= MaxInt64 -> atoi (format_int z) = Some z.
Proof.
  intros L. unfold format_int. destruct (Z.ltb_spec z 0) as [N|N]; [|apply atoi_format_uint; lia].
  destruct (format_uint_cons (- z)) as (c & t & Ec & _); [lia|].
  pose proof (digits_format_uint (- z)) as D. unfold MinInt64, MaxInt64, MaxUint64 in *. specialize (D ltac:(lia)).
  unfold atoi. change (beq "-" "+") with false. change (beq "-" "-") with true. cbn iota.
  rewrite Ec in *. rewrite D. cbn [mbind option_bind]. unfold MinInt64, MaxInt64.
  destruct (Z.leb_spec (- 2 ^ 63) (- - z)), (Z.leb_spec (- - z) (2 ^ 63 - 1)); try lia. f_equal. lia.
Qed.

Lemma parse_int_format z bits n : MinInt64 <= z <= MaxInt64 -> parse_int (format_int z) bits = Some n -> n = z.
Proof. intros L. unfold parse_int. rewrite atoi_format_int by done. cbn. destruct (_ && _); [|done]. by intros [= <-]. Qed.

Lemma parse_uint_format z bits n : 0 <= z <= MaxUint64 -> parse_uint (format_uint z) bits = Some n -> n = z.
Proof.
  intros L. unfold parse_uint. destruct (format_uint_cons z) as (c & t & Ec & _); [lia|].
  pose proof (digits_format_uint z L) as D. rewrite Ec in *. rewrite D. cbn. destruct (z <? 2 ^ bits); [|done]. by intros [= <-].
Qed.

Section roundtrip.
Context (K : Codec).

(** What the standard library documents of its texts: a time and a JSON token
    read back as they were written, and no JSON object is empty. *)
Record codec_ok : Prop := {
  parse_fmt_time t b : fmt_time K t = Some b -> parse_time K b = Some t;
  unpack_pack tok : unpack K (pack K tok) = Some tok;
  pack_nonempty tok : pack K tok <> [];
}.

(** A float the field's width holds reads back as itself. *)
Definition float_ok (v : value) (spec : fieldSpec) : Prop :=
  match v with VFloat f => parse_float K (fmt_float K f) (spec_bits spec) = Some f | _ => True end.

Definition spec_widths (spec : fieldSpec) : Prop := spec_kind spec = kindFloat -> spec_bits spec <> 0.

Lemma decode_encode v kind text spec w :
  codec_ok -> go_value v -> float_ok v spec -> spec_widths spec -> kind = spec_kind spec ->
  encodeValue K v = Some (kind, text) -> decodeValue K kind text (spec_bits spec) = Some w -> w = v.
Proof.
  intros CO GV FO SW Ek E D. destruct v as [|z|z|b|s|t|f]; cbn [encodeValue] in E; [done|..].
  - injection E as <- <-. change (decodeValue K kindInt) with (fun tx bits => VInt <$> parse_int tx (if bits =? 0 then 64 else bits)) in D.
    apply fmap_Some in D as (n & D & ->). f_equal. by eapply parse_int_format.
  - injection E as <- <-. change (decodeValue K kindUint) with (fun tx bits => VUint <$> parse_uint tx (if bits =? 0 then 64 else bits)) in D.
    apply fmap_Some in D as (n & D & ->). f_equal. by eapply parse_uint_format.
  - injection E as <- <-. destruct b; vm_compute in D; by injection D as <-.
  - destruct (_ <? _); [done|]. destruct (ValidString s); [|done]. injection E as <- <-. by injection D as <-.
  - apply bind_Some in E as (b & E & [= <- <-]). change (VTime <$> parse_time K b = Some w) in D.
    rewrite (parse_fmt_time CO t b E) in D. by injection D as <-.
  - destruct (is_nan K f) eqn:N; [done|]. injection E as <- <-. cbn in FO.
    change (decodeValue K kindFloat (fmt_float K f) (spec_bits spec))
      with (g ← parse_float K (fmt_float K f) (if spec_bits spec =? 0 then 64 else spec_bits spec); if is_nan K g then None else Some (VFloat g)) in D.
    destruct (Z.eqb_spec (spec_bits spec) 0) as [Z0|_]; [by destruct (SW (eq_sym Ek))|].
    rewrite FO in D. cbn in D. rewrite N in D. by injection D as <-.
Qed.

Lemma encode_cursor x field desc bare spec token :
  codec_ok -> go_value (get x bare) -> float_ok (get x bare) spec -> spec_widths spec ->
  encodeCursor K x field desc bare spec = Ok token ->
  token <> [] /\ exists rid, get x (str "rid") = VStr rid /\ rid <> [] /\ decodeCursor K token field desc spec = Ok (get x bare, rid)
  /\ (forall field' desc' spec' a, decodeCursor K token field' desc' spec' = Ok a -> field' = field /\ desc' = desc).
Proof.
  intros CO GV FO SW. unfold encodeCursor. destruct (get x (str "rid")) as [| | | |rid| |] eqn:R; try done.
  destruct (seq_eqb rid []) eqn:R0; [done|]. destruct (encodeValue K (get x bare)) as [[kind text]|] eqn:E; [|done].
  destruct (seq_eqb kind (spec_kind spec)) eqn:Ek; [|done]. apply bool_decide_eq_true in Ek. cbn [negb].
  destruct (decodeValue K kind text (spec_bits spec)) as [w|] eqn:D; [|done].
  destruct (maxCursorToken <? Z.of_nat (length (pack K _))) eqn:L; [done|]. intros [= <-].
  rewrite (decode_encode _ _ _ _ w CO GV FO SW Ek E D) in D. clear w. split; [apply (pack_nonempty CO)|].
  exists rid. split; [done|]. split; [by apply bool_decide_eq_false in R0|]. split.
  - unfold decodeCursor. rewrite L, (unpack_pack CO). cbn [V t_Field t_Desc t_RID Kind Value].
    rewrite R0, D, <- Ek. unfold seq_eqb. rewrite !bool_decide_eq_true_2 by done. by rewrite Bool.eqb_reflx.
  - intros field' desc' spec' a. unfold decodeCursor. rewrite L, (unpack_pack CO). cbn [V t_Field t_Desc t_RID Kind Value].
    destruct (seq_eqb field field') eqn:F; [|done]. destruct (Bool.eqb desc desc') eqn:Dd; [|done].
    apply bool_decide_eq_true in F as ->. apply eqb_prop in Dd as ->. done.
Qed.
End roundtrip.
