(* ===== verification/StoreRead.v ===== *)
(** store/read.go: Get, Exists, Count, List, ListWithCursor and
    ListFromQuery. *)

From Stdlib Require Import ZArith Lia List Ascii.
From stdpp Require Import base decidable list gmap strings sorting.
From S2P Require Import Prelude GoStrings StoreWhere Store StoreCursor.

(** The statements a call may send. *)
Inductive stmt := StSelect | StExists | StCount | StUpdate | StDelete | StInsert.

(** The database of one call: how it compares two values in a condition, how
    ORDER BY sorts them, and which of the call's statements fail. *)
Record Db := MkDb {
  vcmp : value -> value -> option comparison;
  ocmp : value -> value -> comparison;
  fails : stmt -> bool;
}.

(** chok.Page. *)
Record Page := MkPage { Items : list (Z * row); PageNo : Z; Size : Z; HasMore : bool; Total : Z; NextCursor : gostring }.

Section read.
Context (D : Db) (K : Codec).

(** ** ORDER BY *)

(** Two rows by the keys of ORDER BY, each with whether it descends. *)
Fixpoint order_cmp (keys : list (gostring * bool)) (a b : Z * row) : comparison :=
  match keys with
  | [] => Eq
  | (col, desc) :: keys' =>
      match ocmp D (get a col) (get b col) with
      | Eq => order_cmp keys' a b
      | c => if desc then CompOpp c else c
      end
  end.

Definition order_le (keys : list (gostring * bool)) (a b : Z * row) : Prop := order_cmp keys a b <> Gt.

#[local] Instance order_le_dec keys : RelDecision (order_le keys).
Proof. intros a b. unfold order_le. apply _. Defined.

Definition order_by (keys : list (gostring * bool)) (l : list (Z * row)) : list (Z * row) := merge_sort (order_le keys) l.

(** ** One row *)

(** First orders by the numeric key. *)
Definition first_row (l : list (Z * row)) : option (Z * row) := head (order_by [(str "id", false)] l).

(** get; [in_tx] says whether the call is in a transaction. *)
Definition get_ (s : store) (c : ctx) (loc : option Locator) (opts : list where_option) (lock : bool) (tb : table)
  : result store_error (Z * row) :=
  match loc with
  | None => Err ENilLocator
  | Some l =>
      let? '(tx, cfg) := read s c false opts in
      if lock && negb (0 =? Z.of_nat (length (Preloads cfg))) then Err ELockPreload
      else
        let? tx := locate s l tx in
        if fails D StSelect then Err EDatabase
        else match first_row (selected (vcmp D) s tx tb) with Some x => Ok x | None => Err ENotFound end
  end.

Definition Get (s : store) (c : ctx) (loc : option Locator) (opts : list where_option) (tb : table) : result store_error (Z * row) :=
  get_ s c loc opts false tb.

Definition GetForUpdate (s : store) (c : ctx) (in_tx : bool) (loc : option Locator) (opts : list where_option) (tb : table)
  : result store_error (Z * row) :=
  if negb in_tx then Err ENotInTx else get_ s c loc opts true tb.

Definition exists_ (s : store) (tx : query) (l : Locator) (tb : table) : result store_error bool :=
  let? tx := locate s l tx in
  if fails D StExists then Err EDatabase
  else Ok (negb (0 =? Z.of_nat (length (selected (vcmp D) s tx tb)))).

Definition Exists (s : store) (c : ctx) (loc : option Locator) (tb : table) : result store_error bool :=
  match loc with
  | None => Err ENilLocator
  | Some l => let? tx := readScoped s c start_query in exists_ s tx l tb
  end.

Definition CountRows (s : store) (c : ctx) (opts : list where_option) (tb : table) : result store_error Z :=
  let? '(tx, _) := read s c true opts in
  if fails D StCount then Err EDatabase
  else Ok (Z.of_nat (length (selected (vcmp D) s tx tb))).

(** The total of a page, when Count was asked for. *)
Definition total (s : store) (c : ctx) (cfg : Config) (opts : list where_option) (tb : table) : result store_error Z :=
  if Count cfg then CountRows s c opts tb else Ok 0.

(** ** Keyset pages *)

(** One more row than the page is asked for, to know whether rows follow. *)
Definition cut_page (size : Z) (l : list (Z * row)) : list (Z * row) * bool :=
  let items := take (Z.to_nat (size + 1)) l in
  if size <? Z.of_nat (length items) then (take (Z.to_nat size) items, true) else (items, false).

Definition qualify (s : store) (col : gostring) : gostring :=
  if bool_decide ("."%char ∈ col) then col else s_table s ++ str "." ++ col.

(** The order of a keyset request: the field, its column and the direction. *)
Definition keyset_order (cfg : Config) : gostring * gostring * bool :=
  match Orders cfg with
  | o :: _ => (o_Field o, o_Column o, o_Desc o)
  | [] => (str "id", str "rid", false)
  end.

(** The condition that continues after a boundary. *)
Definition after_boundary (s : store) (col : gostring) (desc : bool) (v : value) (rid : gostring) : cond :=
  let op := if desc then OpLt else OpGt in
  let rid_col := s_table s ++ str ".rid" in
  if seq_eqb (bare col) (str "rid") then CCmp rid_col op (VStr rid)
  else CRow (qualify s col) rid_col op v (VStr rid).

Definition keyset_keys (bare_col : gostring) (desc : bool) : list (gostring * bool) :=
  if seq_eqb bare_col (str "rid") then [(bare_col, desc)] else [(bare_col, desc); (str "rid", desc)].

Definition keyset_size (s : store) (cfg : Config) : Z :=
  let '(def, maxSize) := pageSizes s in
  let size := if CursorSize cfg =? 0 then def else CursorSize cfg in
  if FromQuery_ cfg then Z.min size maxSize else size.

Definition keyset (s : store) (c : ctx) (tx : query) (cfg : Config) (opts : list where_option) (tb : table) : result store_error Page :=
  if (PageNumber cfg >? 0) || (Offset cfg >? 0) || (Limit cfg >? 0) then Err (EQuery EInvalidParam)
  else if 1 <? Z.of_nat (length (Orders cfg)) then Err (EQuery EInvalidParam)
  else
    let '(field, col, desc) := keyset_order cfg in
    let bare_col := bare col in
    match (kinds s !! bare_col : option (gokind * bool)), kinds s !! str "rid" with
    | Some (k, pointer), Some _ =>
        match scalarSpec k with
        | Some spec =>
            if pointer then Err (EQuery EInvalidParam)
            else
              let size := keyset_size s cfg in
              let? n := total s c cfg opts tb in
              let? tx := (if seq_eqb (Cursor cfg) [] then Ok tx
                          else match decodeCursor K (Cursor cfg) field desc spec with
                               | Err e => Err (EQuery e)
                               | Ok (v, rid) => Ok (where_ [after_boundary s col desc v rid] tx)
                               end) in
              if fails D StSelect then Err EDatabase
              else
                let '(items, more) := cut_page size (order_by (keyset_keys bare_col desc) (selected (vcmp D) s tx tb)) in
                if more then
                  match last items with
                  | Some x => let? next := encodeCursor K x field desc bare_col spec in Ok (MkPage items 0 size true n next)
                  | None => Ok (MkPage items 0 size true n [])  (* not reached: the size is positive *)
                  end
                else Ok (MkPage items 0 size false n [])
        | None => Err (EQuery EInvalidParam)
        end
    | _, _ => Err (ENoColumn bare_col)
    end.

Definition ListWithCursor (s : store) (c : ctx) (opts : list where_option) (tb : table) : result store_error Page :=
  let? '(tx, cfg) := read s c false opts in
  keyset s c tx cfg opts tb.

(** ** Offset pages *)

(** The size and the offset of a page, [None] without pagination. *)
Definition page_window (s : store) (cfg : Config) : result store_error (option (Z * Z)) :=
  if negb (HasPage cfg) then Ok None
  else
    let '(def, maxSize) := pageSizes s in
    let size := if Limit cfg =? 0 then def else Limit cfg in
    let size := if FromQuery_ cfg then Z.min size maxSize else size in
    let offset := if PageNumber cfg >? 0 then int64 ((PageNumber cfg - 1) * size) else Offset cfg in
    if offset >? MaxInt32 then Err (EQuery EInvalidParam) else Ok (Some (size, offset)).

Definition order_keys (cfg : Config) : list (gostring * bool) :=
  map (fun o => (bare (o_Column o), o_Desc o)) (Orders cfg) ++ [(str "id", false)].

(** OFFSET of a number that is not positive skips nothing. *)
Definition offset_rows (offset : Z) (l : list (Z * row)) : list (Z * row) := drop (Z.to_nat offset) l.

Definition ListRows (s : store) (c : ctx) (opts : list where_option) (tb : table) : result store_error Page :=
  let? '(tx, cfg) := read s c false opts in
  if negb (seq_eqb (Cursor cfg) []) || FirstPage cfg then keyset s c tx cfg opts tb
  else
    let? window := page_window s cfg in
    let? n := total s c cfg opts tb in
    if fails D StSelect then Err EDatabase
    else
      let rows := order_by (order_keys cfg) (selected (vcmp D) s tx tb) in
      match window with
      | None => Ok (MkPage rows 1 (Z.of_nat (length rows)) false n [])
      | Some (size, offset) =>
          let '(items, more) := cut_page size (offset_rows offset rows) in
          Ok (MkPage items (PageNumber cfg) size more n [])
      end.

(** ** ListFromQuery *)

(** parseFilter; a kind filterTypes leaves out is not parsed. *)
Definition parseFilter (k : gokind) (v : gostring) : option value :=
  match k with
  | KTime => VTime <$> parse_time K v
  | KBool => VBool <$> parse_bool v
  | KInt b => VInt <$> parse_int v b
  | KUint b => VUint <$> parse_uint v b
  | KFloat b => f ← parse_float K v b; if is_nan K f then None else Some (VFloat f)
  | KString | KOther => None
  end.

Fixpoint parse_all (k : gokind) (vs : list gostring) : result where_error (list value) :=
  match vs with
  | [] => Ok []
  | v :: vs' =>
      if seq_eqb v [] then parse_all k vs'
      else match parseFilter k v with
           | None => Err EInvalidParam
           | Some x => let? xs := parse_all k vs' in Ok (x :: xs)
           end
  end.

Definition url_values : Type := gmap gostring (list gostring).

(** One parameter of typedFilters. *)
Definition typed_param (s : store) (acc : url_values * list where_option) (p : gostring) : result where_error (url_values * list where_option) :=
  match filterTypes s !! p with
  | Some k =>
      if bool_decide (p ∈ reserved) then Ok acc
      else
        let? args := parse_all k (default [] (acc.1 !! p)) in
        Ok (delete p acc.1, acc.2 ++ match args with [] => [] | [v] => [Eq_ p v] | vs => [In_ p (Values vs)] end)
  | None => Ok acc
  end.

Definition typedFilters (s : store) (q : url_values) : result where_error (url_values * list where_option) :=
  rfold (typed_param s) (sortedKeys q) (q, []).

Definition ListFromQuery (s : store) (c : ctx) (q : url_values) (tb : table) : result store_error Page :=
  match typedFilters s q with
  | Err e => Err (EQuery e)
  | Ok (q, typed) =>
      match FromQuery q (queryFields s) true with
      | Err e => Err (EQuery e)
      | Ok opts => ListRows s c (opts ++ typed ++ [OCount]) tb
      end
  end.
End read.
