(* ===== verification/StoreList.v ===== *)
(** What lists promise: offset pages cut one sorted list, and keyset pages
    deliver it once and in order. *)

From Stdlib Require Import ZArith Lia List Ascii.
From stdpp Require Import base decidable list gmap strings sorting.
From S2P Require Import Prelude GoStrings StoreWhere Store StoreCursor StoreRead.

(** ** ORDER BY is a total preorder *)

(** What SQL promises of ORDER BY on one column. *)
Record ocmp_ok (oc : value -> value -> comparison) : Prop := {
  ocmp_opp a b : oc b a = CompOpp (oc a b);
  ocmp_trans a b c : oc a b <> Gt -> oc b c <> Gt -> oc a c <> Gt;
}.

Section order.
Context (D : Db) (O : ocmp_ok (ocmp D)).

Lemma ocmp_Eq_l a b c : ocmp D a b = Eq -> ocmp D a c = ocmp D b c.
Proof.
  intros E. pose proof (ocmp_opp _ O a b) as Ea. rewrite E in Ea. cbn in Ea.
  pose proof (ocmp_trans _ O a b c ltac:(by rewrite E)). pose proof (ocmp_trans _ O b a c ltac:(by rewrite Ea)).
  pose proof (ocmp_trans _ O c a b) as T1. pose proof (ocmp_trans _ O c b a) as T2.
  rewrite E in T1. rewrite Ea in T2. rewrite (ocmp_opp _ O a c), (ocmp_opp _ O b c) in *.
  destruct (ocmp D a c), (ocmp D b c); cbn in *; try done; exfalso; naive_solver.
Qed.

Lemma ocmp_refl a : ocmp D a a = Eq.
Proof. pose proof (ocmp_opp _ O a a) as H. by destruct (ocmp D a a). Qed.

Lemma order_cmp_opp keys x y : order_cmp D keys y x = CompOpp (order_cmp D keys x y).
Proof.
  induction keys as [|[col desc] keys IH]; [done|]. cbn. rewrite (ocmp_opp _ O (get x col) (get y col)).
  destruct (ocmp D (get x col) (get y col)), desc; done.
Qed.

Lemma order_cmp_refl keys x : order_cmp D keys x x = Eq.
Proof. pose proof (order_cmp_opp keys x x) as H. by destruct (order_cmp D keys x x). Qed.

Lemma order_cmp_Eq keys x y z : order_cmp D keys x y = Eq -> order_cmp D keys x z = order_cmp D keys y z.
Proof.
  induction keys as [|[col desc] keys IH]; [done|]. cbn. destruct (ocmp D (get x col) (get y col)) eqn:E; [|by destruct desc..].
  rewrite (ocmp_Eq_l _ _ (get z col) E). intros H. by rewrite (IH H).
Qed.

(** Steps down the order compose, strictly when one of them is. *)
Lemma order_cmp_trans keys x y z :
  order_cmp D keys x y <> Gt -> order_cmp D keys y z <> Gt ->
  order_cmp D keys x z <> Gt /\ (order_cmp D keys x z = Eq -> order_cmp D keys x y = Eq /\ order_cmp D keys y z = Eq).
Proof.
  induction keys as [|[col desc] keys IH]; [done|]. cbn.
  set (a := get x col). set (b := get y col). set (c := get z col).
  destruct (ocmp D a b) eqn:Eab.
  - rewrite (ocmp_Eq_l _ _ c Eab). destruct (ocmp D b c); [apply IH|destruct desc; done..].
  - destruct (ocmp D b c) eqn:Ebc.
    + pose proof (ocmp_Eq_l _ _ a Ebc) as E. rewrite (ocmp_opp _ O a b), (ocmp_opp _ O a c), Eab in E.
      destruct (ocmp D a c); try done. destruct desc; done.
    + pose proof (ocmp_trans _ O a b c ltac:(by rewrite Eab) ltac:(by rewrite Ebc)) as T.
      destruct (ocmp D a c) eqn:Eac; [exfalso|by destruct desc|done].
      rewrite (ocmp_Eq_l _ _ b Eac), (ocmp_opp _ O b c), Ebc in Eab. done.
    + destruct desc; done.
  - destruct desc; [|done]. destruct (ocmp D b c) eqn:Ebc; [| done |].
    + pose proof (ocmp_Eq_l _ _ a Ebc) as E. rewrite (ocmp_opp _ O a b), (ocmp_opp _ O a c), Eab in E.
      destruct (ocmp D a c); done.
    + pose proof (ocmp_trans _ O c b a) as T. rewrite (ocmp_opp _ O b c), (ocmp_opp _ O a b), (ocmp_opp _ O a c), Ebc, Eab in T.
      destruct (ocmp D a c) eqn:Eac; cbn in T; [|naive_solver|done].
      rewrite (ocmp_Eq_l _ _ b Eac), (ocmp_opp _ O b c), Ebc in Eab. done.
Qed.

#[local] Instance order_le_dec' keys : RelDecision (order_le D keys).
Proof. intros a b. unfold order_le. apply _. Defined.

#[local] Instance order_le_trans keys : Transitive (order_le D keys).
Proof. intros x y z H1 H2. by apply (order_cmp_trans keys x y z). Qed.

#[local] Instance order_le_total keys : base.Total (order_le D keys).
Proof.
  intros x y. unfold order_le. rewrite (order_cmp_opp keys x y). destruct (order_cmp D keys x y); cbn; [left|left|right]; done.
Qed.

Lemma order_by_perm keys l : order_by D keys l ≡ₚ l.
Proof. apply merge_sort_Permutation. Qed.

Lemma order_by_sorted keys l : StronglySorted (order_le D keys) (order_by D keys l).
Proof. apply StronglySorted_merge_sort; apply _. Qed.

Lemma elem_of_order_by keys l x : x ∈ order_by D keys l <-> x ∈ l.
Proof. by rewrite order_by_perm. Qed.
End order.

(** ** The rows of a query *)

Lemma elem_of_selected vc s tx tb x : x ∈ selected vc s tx tb <-> tb !! x.1 = Some x.2 /\ matches vc s tx x = true.
Proof.
  unfold selected. rewrite list_elem_of_In, filter_In, <- list_elem_of_In. destruct x as [i r].
  pose proof (elem_of_map_to_list tb i r) as E. cbn [fst snd]. tauto.
Qed.

Lemma NoDup_filter_bool {A} (f : A -> bool) (l : list A) : NoDup l -> NoDup (List.filter f l).
Proof.
  induction 1 as [|x l N _ IH]; cbn; [constructor|]. destruct (f x); [|done]. constructor; [|done].
  rewrite list_elem_of_In, filter_In, <- list_elem_of_In. naive_solver.
Qed.

Lemma NoDup_selected vc s tx tb : NoDup (selected vc s tx tb).
Proof. apply NoDup_filter_bool, NoDup_map_to_list. Qed.

(** ** Cutting a page *)

Lemma cut_page_spec size l : 0 <= size ->
  cut_page size l = (take (Z.to_nat size) l, size <? Z.of_nat (length l)).
Proof.
  intros S. unfold cut_page. rewrite length_take.
  destruct (Z.ltb_spec size (Z.of_nat (Z.to_nat (size + 1) `min` length l))), (Z.ltb_spec size (Z.of_nat (length l))); try lia.
  - by rewrite take_take, Nat.min_l by lia.
  - by rewrite !take_ge by lia.
Qed.

(** ** Options that do not page *)

Definition pages_nothing (o : where_option) : bool :=
  match o with
  | OPage _ _ | OLimit _ | OOffset _ | OCursor _ _ | OCursorDefault _ | OFromQuery _ => false
  | _ => true
  end.

(** What a configuration says of pagination. *)
Definition paging_of (cfg : Config) : bool * Z * Z * Z * gostring * Z * bool * bool :=
  (HasPage cfg, PageNumber cfg, Offset cfg, Limit cfg, Cursor cfg, CursorSize cfg, FirstPage cfg, FromQuery_ cfg).

Lemma apply_option_paging o fields s s' :
  pages_nothing o = true -> apply_option o fields s = Ok s' -> paging_of s'.2 = paging_of s.2.
Proof.
  destruct o; try done; intros _; cbn; unfold apply_compare, filter_on, apply_In, apply_Order;
    rewrite ?rbind_Ok; intros H; repeat case_match; naive_solver.
Qed.

Lemma apply_options_paging os fields s s' :
  forallb pages_nothing os = true -> apply_options os fields s = Ok s' -> paging_of s'.2 = paging_of s.2.
Proof.
  revert s. induction os as [|o os IH]; intros s; cbn; [by intros _ [= ->]|].
  intros [F Fs]%andb_true_iff (s1 & E & E')%rbind_Ok. rewrite (IH s1 Fs E'). by eapply apply_option_paging.
Qed.

Lemma apply_options_snoc os o fields s :
  apply_options (os ++ [o]) fields s = (let? s := apply_options os fields s in apply_option o fields s).
Proof.
  revert s. induction os as [|o' os IH]; intros s; cbn; [by destruct (apply_option o fields s)|].
  destruct (apply_option o' fields s) as [s1|]; [|done]. apply IH.
Qed.

(** A last option that only touches the configuration's pagination. *)
Lemma read_snoc s c fo opts o g :
  (forall st, apply_option o (columns s) st = Ok (st.1, g st.2)) ->
  (forall cfg, OnlyTrashed (g cfg) = OnlyTrashed cfg /\ WithTrashed (g cfg) = WithTrashed cfg
    /\ FiltersOnly (g cfg) = FiltersOnly cfg /\ Preloads (g cfg) = Preloads cfg) ->
  read s c fo (opts ++ [o]) = (let? q := read s c fo opts in Ok (q.1, g q.2)).
Proof.
  intros A G. unfold read. destruct (readScoped s c start_query) as [tx|]; [|done]. cbn. unfold apply.
  rewrite apply_options_snoc. destruct (apply_options opts (columns s) _) as [[cs cfg]|]; [|done]. cbn [rbind].
  rewrite A. cbn [fst snd]. destruct (G cfg) as (G1 & G2 & G3 & G4). unfold trash_scope. rewrite G1, G2, G3, G4.
  by destruct (if FiltersOnly cfg then _ else _).
Qed.

(** Page numbers and sizes that where.Page accepts. *)
Definition page_ok (p n : Z) : Prop := 1 <= p /\ 1 <= n <= maxPageSize /\ (p - 1) * n <= MaxInt32.

Definition paged (p n : Z) (cfg : Config) : Config :=
  set_paging p ((p - 1) * n) n (Cursor cfg) (CursorSize cfg) (FirstPage cfg) cfg.

Lemma read_page s c fo opts p n : page_ok p n ->
  read s c fo (opts ++ [OPage p n]) = (let? q := read s c fo opts in Ok (q.1, paged p n q.2)).
Proof.
  unfold page_ok, MaxInt32, maxPageSize. intros (P & N & L). apply read_snoc; [|by intros cfg]. intros st. cbn. unfold apply_Page, MaxInt32, maxPageSize.
  destruct (Z.ltb_spec p 1); [lia|]. destruct (Z.ltb_spec n 0), (Z.gtb_spec n 10000); try lia. cbn.
  rewrite int64_id by (unfold MinInt64, MaxInt64; nia).
  destruct (Z.gtb_spec ((p - 1) * n) (2 ^ 31 - 1)); [lia|]. done.
Qed.

Lemma read_paging s c fo opts tx cfg :
  forallb pages_nothing opts = true -> read s c fo opts = Ok (tx, cfg) -> paging_of cfg = (false, 0, 0, 0, [], 0, false, false).
Proof.
  intros F (tx0 & _ & E)%rbind_Ok. unfold apply in E. destruct (apply_options opts (columns s) _) as [[cs cfg']|] eqn:A; [|done].
  apply rbind_Ok in E as (tx' & _ & [= <- <-]). by apply (apply_options_paging _ _ _ _ F) in A.
Qed.

(** Whether a row is one a request asks for. *)
Definition listed (D : Db) (s : store) (c : ctx) (opts : list where_option) (tb : table) (x : Z * row) : Prop :=
  exists tx cfg, read s c false opts = Ok (tx, cfg) /\ tb !! x.1 = Some x.2 /\ matches (vcmp D) s tx x = true.

(** The ORDER BY of a request. *)
Definition listed_keys (s : store) (c : ctx) (opts : list where_option) : list (gostring * bool) :=
  match read s c false opts with Ok (_, cfg) => order_keys cfg | Err _ => [] end.

(** A total counts the rows asked for, whatever the page. *)
Lemma total_paged D s c cfg opts tb p n : page_ok p n ->
  total D s c (paged p n cfg) (opts ++ [OPage p n]) tb = total D s c cfg opts tb.
Proof.
  intros P. unfold total. change (Count (paged p n cfg)) with (Count cfg). destruct (Count cfg); [|done].
  unfold CountRows. rewrite (read_page _ _ _ _ _ _ P). by destruct (read s c true opts) as [[tx' cfg']|].
Qed.

Lemma page_window_paged s p n cfg : page_ok p n -> paging_of cfg = (false, 0, 0, 0, [], 0, false, false) ->
  page_window s (paged p n cfg) = Ok (Some (n, (p - 1) * n)).
Proof.
  unfold page_ok, maxPageSize, MaxInt32. intros (P1 & P2 & P3) [= _ _ _ _ _ _ _ Hq]. unfold page_window, paged, set_paging.
  cbn [HasPage negb Limit FromQuery_ PageNumber Offset]. rewrite Hq. destruct (pageSizes s) as [def maxSize].
  destruct (Z.eqb_spec n 0); [lia|]. destruct (Z.gtb_spec p 0); [|lia].
  rewrite int64_id by (unfold MinInt64, MaxInt64; nia). unfold MaxInt32. by destruct (Z.gtb_spec ((p - 1) * n) (2 ^ 31 - 1)); [lia|].
Qed.

(** A request without pagination. *)
Lemma ListRows_whole D K s c opts tb tx cfg : read s c false opts = Ok (tx, cfg) ->
  paging_of cfg = (false, 0, 0, 0, [], 0, false, false) ->
  ListRows D K s c opts tb
  = (let? n := total D s c cfg opts tb in
     if fails D StSelect then Err EDatabase
     else let rows := order_by D (order_keys cfg) (selected (vcmp D) s tx tb) in
          Ok (MkPage rows 1 (Z.of_nat (length rows)) false n [])).
Proof.
  intros R [= Hp _ _ _ Hc _ Hf _]. unfold ListRows. rewrite R. cbn [rbind]. rewrite Hc, Hf.
  change (negb (seq_eqb [] []) || false) with false. cbn iota. unfold page_window. by rewrite Hp.
Qed.

(** The same request for one page. *)
Lemma ListRows_paged D K s c opts tb tx cfg p n : page_ok p n -> read s c false opts = Ok (tx, cfg) ->
  paging_of cfg = (false, 0, 0, 0, [], 0, false, false) ->
  ListRows D K s c (opts ++ [OPage p n]) tb
  = (let? t := total D s c cfg opts tb in
     if fails D StSelect then Err EDatabase
     else let rows := order_by D (order_keys cfg) (selected (vcmp D) s tx tb) in
          let '(items, more) := cut_page n (offset_rows ((p - 1) * n) rows) in Ok (MkPage items p n more t [])).
Proof.
  intros P R G. unfold ListRows. rewrite (read_page _ _ _ _ _ _ P), R. cbn [rbind fst snd].
  rewrite (page_window_paged s p n cfg P G), (total_paged D s c cfg opts tb p n P). injection G as Hp _ _ _ Hc _ Hf _.
  change (Cursor (paged p n cfg)) with (Cursor cfg). change (FirstPage (paged p n cfg)) with (FirstPage cfg).
  change (PageNumber (paged p n cfg)) with p. change (order_keys (paged p n cfg)) with (order_keys cfg).
  by rewrite Hc, Hf.
Qed.
