(* ===== verification/StoreKeyset.v ===== *)
(** What ListWithCursor promises: following the cursors visits every row once,
    in order, whatever is written between two pages. *)

From Stdlib Require Import ZArith Lia List Ascii.
From stdpp Require Import base decidable list gmap strings sorting.
From S2P Require Import Prelude GoStrings StoreWhere Store StoreCursor StoreRead StoreList.

(** ** Qualified columns *)

Lemma last_split_dot a c : "."%char ∉ c -> last (split "." (a ++ "."%char :: c)) = Some c.
Proof.
  intros N. induction a as [|x a IH].
  - change ([] ++ "."%char :: c) with ([] ++ "."%char :: c). rewrite split_app_sep by set_solver. by rewrite split_no_sep.
  - cbn [app]. destruct (beq x ".") eqn:B.
    + apply beq_true in B as ->. change ("."%char :: a ++ "."%char :: c) with ([] ++ "."%char :: (a ++ "."%char :: c)).
      rewrite split_app_sep by set_solver. destruct (split_cons "." (a ++ "."%char :: c)) as (p & ps & E). rewrite E in *. done.
    + cbn [split]. rewrite B. destruct (split_cons "." (a ++ "."%char :: c)) as (p & ps & E). rewrite E in *.
      destruct ps; [|done]. exfalso. clear -E N IH.
      assert (L : join ["."%char] (split "." (a ++ "."%char :: c)) = p) by by rewrite E.
      rewrite (join_split "." (a ++ "."%char :: c)) in L. injection IH as ->.
      apply (f_equal length) in L. rewrite length_app in L. cbn in L. lia.
Qed.

Lemma bare_qualified t c : "."%char ∉ c -> bare (t ++ str "." ++ c) = c.
Proof. intros N. unfold bare. change (t ++ str "." ++ c) with (t ++ "."%char :: c). by rewrite last_split_dot. Qed.

Lemma bare_plain c : "."%char ∉ c -> bare c = c.
Proof. intros N. unfold bare. by rewrite split_no_sep. Qed.

Lemma bare_qualify s col : bare (qualify s col) = bare col.
Proof.
  unfold qualify. destruct (bool_decide _) eqn:B; [done|]. apply bool_decide_eq_false in B.
  by rewrite bare_qualified, bare_plain.
Qed.

Lemma dot_free (c : gostring) : bool_decide ("."%char ∈ c) = false -> "."%char ∉ c.
Proof. apply bool_decide_eq_false. Qed.

Lemma bare_rid t : bare (t ++ str ".rid") = str "rid".
Proof. change (t ++ str ".rid") with (t ++ str "." ++ str "rid"). apply bare_qualified, dot_free. reflexivity. Qed.

(** ** One request, page by page *)

(** The kind of a value that is not NULL. *)
Definition value_kind (v : value) : option gostring :=
  match v with
  | VNull => None
  | VTime _ => Some kindTime
  | VStr _ => Some kindString
  | VBool _ => Some kindBool
  | VInt _ => Some kindInt
  | VUint _ => Some kindUint
  | VFloat _ => Some kindFloat
  end.

(** What the database promises: two values of one kind compare in a condition
    the way ORDER BY sorts them. *)
Record db_ok (D : Db) : Prop := {
  db_order : ocmp_ok (ocmp D);
  db_compare v w k : value_kind v = Some k -> value_kind w = Some k -> vcmp D v w = Some (ocmp D v w);
}.

(** A table the order can key: the rows have RIDs, which a unique index keeps
    apart, and a value of the field's kind in its column. *)
Record keyed (D : Db) (K : Codec) (col : gostring) (spec : fieldSpec) (tb : table) : Prop := {
  keyed_rid x : tb !! x.1 = Some x.2 -> exists r, get x (str "rid") = VStr r /\ r <> [];
  keyed_unique x y : tb !! x.1 = Some x.2 -> tb !! y.1 = Some y.2 ->
    ocmp D (get x (str "rid")) (get y (str "rid")) = Eq -> x.1 = y.1;
  keyed_value x : tb !! x.1 = Some x.2 ->
    value_kind (get x col) = Some (spec_kind spec) /\ go_value (get x col) /\ float_ok K (get x col) spec;
}.

Section keyset.
Context (D : Db) (K : Codec) (s : store) (c : ctx) (opts : list where_option) (size : Z).
Context (tx : query) (cfg : Config) (field col : gostring) (desc : bool) (k : gokind) (spec : fieldSpec).

(** A keyset request: filters and at most one order, on a column that is not
    a pointer; a page of [size] rows. *)
Record keyset_request : Prop := {
  kr_plain : forallb pages_nothing opts = true;
  kr_read : read s c false opts = Ok (tx, cfg);
  kr_orders : (length (Orders cfg) <= 1)%nat;
  kr_order : keyset_order cfg = (field, col, desc);
  kr_kind : (kinds s !! bare col : option (gokind * bool)) = Some (k, false);
  kr_rid : is_Some (kinds s !! str "rid");
  kr_spec : scalarSpec k = Some spec;
  kr_widths : spec_widths spec;
  kr_size : 1 <= size <= maxPageSize;
}.

(** The page after a cursor. *)
Definition page_after (cursor : gostring) (tb : table) : result store_error Page :=
  ListWithCursor D K s c (opts ++ [OCursor cursor size]) tb.

Definition keys : list (gostring * bool) := keyset_keys (bare col) desc.

(** A position in the order: the start, or after a row. *)
Definition after (pos : option (Z * row)) (x : Z * row) : bool :=
  match pos with
  | None => true
  | Some y => bool_decide (order_cmp D keys y x = Lt)
  end.

(** The rows from a position on, in order. *)
Definition rows_after (pos : option (Z * row)) (tb : table) : list (Z * row) :=
  order_by D keys (List.filter (after pos) (selected (vcmp D) s tx tb)).

(** What a cursor says: the start, or the boundary of a row. *)
Definition cursor_at (pos : option (Z * row)) (cursor : gostring) : Prop :=
  match pos with
  | None => cursor = []
  | Some y => cursor <> [] /\ value_kind (get y (bare col)) = Some (spec_kind spec)
      /\ exists r, get y (str "rid") = VStr r /\ decodeCursor K cursor field desc spec = Ok (get y (bare col), r)
  end.

Context (R : keyset_request) (DO : db_ok D) (CO : codec_ok K).

Lemma sat_boundary y x v r :
  value_kind (get y (bare col)) = Some (spec_kind spec) -> get y (bare col) = v -> get y (str "rid") = VStr r ->
  value_kind (get x (bare col)) = Some (spec_kind spec) -> (exists r', get x (str "rid") = VStr r') ->
  sat (vcmp D) (get x) (after_boundary s col desc v r) = after (Some y) x.
Proof.
  intros Ky <- Er Kx [r' Er']. unfold after_boundary, after, keys, keyset_keys.
  assert (C : vcmp D (get x (str "rid")) (get y (str "rid")) = Some (ocmp D (get x (str "rid")) (get y (str "rid")))).
  { rewrite Er, Er'. by apply (db_compare D DO _ _ kindString). }
  pose proof (ocmp_opp _ (db_order D DO) (get x (str "rid")) (get y (str "rid"))) as OR.
  destruct (seq_eqb (bare col) (str "rid")) eqn:B.
  - apply bool_decide_eq_true in B. cbn [sat order_cmp]. rewrite bare_rid, B, <- Er. unfold sat_cmp. rewrite C, OR.
    destruct desc, (ocmp D (get x (str "rid")) (get y (str "rid"))); reflexivity.
  - cbn [sat order_cmp]. rewrite bare_rid, bare_qualify, <- Er. unfold sat_row, sat_cmp.
    rewrite (db_compare D DO _ _ _ Kx Ky), C.
    pose proof (ocmp_opp _ (db_order D DO) (get x (bare col)) (get y (bare col))) as OV. rewrite OV, OR.
    destruct desc, (ocmp D (get x (bare col)) (get y (bare col))), (ocmp D (get x (str "rid")) (get y (str "rid"))); reflexivity.
Qed.

Lemma selected_where cd tb :
  selected (vcmp D) s (where_ [cd] tx) tb = List.filter (fun x => sat (vcmp D) (get x) cd) (selected (vcmp D) s tx tb).
Proof.
  unfold selected. induction (map_to_list tb) as [|x l IH]; [done|]. cbn [List.filter].
  assert (M : matches (vcmp D) s (where_ [cd] tx) x = matches (vcmp D) s tx x && sat (vcmp D) (get x) cd).
  { unfold matches, visible, where_, sat_all. cbn [unscoped conds]. rewrite forallb_app. cbn. rewrite andb_true_r. apply andb_assoc. }
  rewrite M. destruct (matches (vcmp D) s tx x); cbn [andb List.filter]; [|done].
  destruct (sat (vcmp D) (get x) cd); by rewrite IH.
Qed.

Lemma filter_ext_in {A} (f g : A -> bool) l : (forall x, x ∈ l -> f x = g x) -> List.filter f l = List.filter g l.
Proof. intros H. apply List.filter_ext_in. intros x I. apply H. by apply list_elem_of_In. Qed.

(** The rows a page is cut from. *)
Lemma page_rows pos cursor tb : keyed D K (bare col) spec tb -> cursor_at pos cursor ->
  exists tx', (if seq_eqb cursor [] then Ok tx
               else match decodeCursor K cursor field desc spec with
                    | Err e => Err (EQuery e)
                    | Ok (v, rid) => Ok (where_ [after_boundary s col desc v rid] tx)
                    end) = Ok tx'
    /\ order_by D keys (selected (vcmp D) s tx' tb) = rows_after pos tb.
Proof.
  intros KT. unfold rows_after. destruct pos as [y|]; cbn [cursor_at].
  - intros (N & Ky & r & Er & Ed). exists (where_ [after_boundary s col desc (get y (bare col)) r] tx).
    unfold seq_eqb. rewrite bool_decide_eq_false_2 by done. rewrite Ed. split; [done|].
    rewrite selected_where. f_equal. apply filter_ext_in. intros x [Hx _]%elem_of_selected.
    apply sat_boundary; [done..| |].
    + by apply (keyed_value _ _ _ _ _ KT).
    + destruct (keyed_rid _ _ _ _ _ KT x Hx) as (r' & E & _). by exists r'.
  - intros ->. exists tx. split; [done|]. f_equal. cbn [after]. clear. induction (selected (vcmp D) s tx tb) as [|x l IH]; [done|]. cbn. by rewrite <- IH.
Qed.

Lemma encode_boundary y tb token : keyed D K (bare col) spec tb -> tb !! y.1 = Some y.2 ->
  encodeCursor K y field desc (bare col) spec = Ok token -> cursor_at (Some y) token.
Proof.
  intros KT Hy E. destruct (keyed_value _ _ _ _ _ KT y Hy) as (Kv & GV & FO).
  destruct (encode_cursor K y field desc (bare col) spec token CO GV FO (kr_widths R) E) as (N & r & Er & _ & Ed & _).
  split; [done|]. split; [done|]. eauto.
Qed.

Definition cursored (cursor : gostring) : Config := set_paging (PageNumber cfg) (Offset cfg) (Limit cfg) cursor size (seq_eqb cursor []) cfg.

Lemma read_cursor fo cursor :
  read s c fo (opts ++ [OCursor cursor size])
  = (let? q := read s c fo opts in
     Ok (q.1, set_paging (PageNumber q.2) (Offset q.2) (Limit q.2) cursor size (seq_eqb cursor []) q.2)).
Proof.
  apply (read_snoc s c fo opts (OCursor cursor size)
    (fun cf => set_paging (PageNumber cf) (Offset cf) (Limit cf) cursor size (seq_eqb cursor []) cf)); [|by intros cf].
  intros st. cbn. unfold apply_Cursor. destruct (kr_size R) as [S1 S2].
  unfold maxPageSize in *. destruct (Z.ltb_spec size 1), (Z.gtb_spec size 10000); try lia. done.
Qed.

Lemma total_cursored cursor tb : total D s c (cursored cursor) (opts ++ [OCursor cursor size]) tb = total D s c cfg opts tb.
Proof.
  unfold total. change (Count (cursored cursor)) with (Count cfg). destruct (Count cfg); [|done].
  unfold CountRows. rewrite read_cursor. by destruct (read s c true opts) as [[tx' cfg']|].
Qed.

Lemma page_after_eq cursor tb :
  page_after cursor tb
  = (let? n := total D s c cfg opts tb in
     let? tx' := (if seq_eqb cursor [] then Ok tx
                  else match decodeCursor K cursor field desc spec with
                       | Err e => Err (EQuery e)
                       | Ok (v, rid) => Ok (where_ [after_boundary s col desc v rid] tx)
                       end) in
     if fails D StSelect then Err EDatabase
     else let '(items, more) := cut_page size (order_by D keys (selected (vcmp D) s tx' tb)) in
          if more then match last items with
                       | Some x => let? next := encodeCursor K x field desc (bare col) spec in Ok (MkPage items 0 size true n next)
                       | None => Ok (MkPage items 0 size true n [])
                       end
          else Ok (MkPage items 0 size false n [])).
Proof.
  unfold page_after, ListWithCursor. rewrite read_cursor, (kr_read R). cbn [rbind fst snd]. fold (cursored cursor).
  pose proof (read_paging _ _ _ _ _ _ (kr_plain R) (kr_read R)) as [= _ Hn Ho Hl _ _ _ Hq].
  unfold keyset. rewrite (total_cursored cursor tb).
  change (PageNumber (cursored cursor)) with (PageNumber cfg). change (Offset (cursored cursor)) with (Offset cfg).
  change (Limit (cursored cursor)) with (Limit cfg). change (Orders (cursored cursor)) with (Orders cfg).
  change (keyset_order (cursored cursor)) with (keyset_order cfg). change (Cursor (cursored cursor)) with cursor.
  rewrite Hn, Ho, Hl. cbn [Z.gtb Z.compare orb]. destruct (Z.ltb_spec 1 (Z.of_nat (length (Orders cfg)))) as [L|_]; [pose proof (kr_orders R); lia|].
  rewrite (kr_order R), (kr_kind R). destruct (kr_rid R) as [rk ->]. rewrite (kr_spec R).
  assert (keyset_size s (cursored cursor) = size) as ->.
  { unfold keyset_size. change (CursorSize (cursored cursor)) with size. change (FromQuery_ (cursored cursor)) with (FromQuery_ cfg).
    rewrite Hq. destruct (pageSizes s). pose proof (kr_size R). destruct (Z.eqb_spec size 0); [lia|done]. }
  done.
Qed.

(** *** One page *)

Definition lt_key (x y : Z * row) : Prop := order_cmp D keys x y = Lt.

Lemma elem_of_rows_after pos tb x :
  x ∈ rows_after pos tb <-> x ∈ selected (vcmp D) s tx tb /\ after pos x = true.
Proof.
  unfold rows_after. rewrite elem_of_order_by, list_elem_of_In, filter_In, <- list_elem_of_In. done.
Qed.

Lemma rows_after_sorted pos tb : keyed D K (bare col) spec tb -> StronglySorted lt_key (rows_after pos tb).
Proof.
  intros KT. assert (N : NoDup (rows_after pos tb)).
  { unfold rows_after. rewrite order_by_perm. apply NoDup_filter_bool, NoDup_selected. }
  assert (I : forall x, x ∈ rows_after pos tb -> tb !! x.1 = Some x.2).
  { intros x [H _]%elem_of_rows_after. by apply elem_of_selected in H as [H _]. }
  pose proof (order_by_sorted D (db_order D DO) keys (List.filter (after pos) (selected (vcmp D) s tx tb))) as S.
  change (order_by D keys _) with (rows_after pos tb) in S.
  induction S as [|x l S IH F]; [constructor|]. apply NoDup_cons in N as [Nx N].
  constructor; [apply IH; [done|]; intros y Hy; apply I; by right|].
  apply Forall_forall. intros y Hy. rewrite Forall_forall in F. specialize (F y Hy). unfold order_le in F. unfold lt_key.
  destruct (order_cmp D keys x y) eqn:E; [|done..]. exfalso. apply Nx.
  pose proof (I x ltac:(by left)) as Ix. pose proof (I y ltac:(by right)) as Iy.
  assert (x.1 = y.1) as E1.
  { apply (keyed_unique _ _ _ _ _ KT x y Ix Iy). clear -E DO. unfold keys, keyset_keys in E.
    destruct (seq_eqb (bare col) (str "rid")) eqn:B; cbn [order_cmp] in E.
    - apply bool_decide_eq_true in B. rewrite B in E. destruct (ocmp D _ _), desc; done.
    - destruct (ocmp D (get x (bare col)) _); [|destruct desc; done..]. destruct (ocmp D _ _), desc; done. }
  assert (x = y) as ->; [|done]. destruct x as [i r], y as [j r']. cbn in *. subst. congruence.
Qed.

Lemma page_after_spec pos cursor tb p :
  keyed D K (bare col) spec tb -> cursor_at pos cursor -> page_after cursor tb = Ok p ->
  Items p = take (Z.to_nat size) (rows_after pos tb)
  /\ (if size <? Z.of_nat (length (rows_after pos tb))
      then exists y, last (Items p) = Some y /\ cursor_at (Some y) (NextCursor p)
      else NextCursor p = [] /\ Items p = rows_after pos tb).
Proof.
  intros KT CA. rewrite page_after_eq. destruct (page_rows pos cursor tb KT CA) as (tx' & -> & E2).
  intros (n & _ & H)%rbind_Ok. cbn [rbind] in H. rewrite E2 in H. destruct (fails D StSelect); [done|].
  pose proof (kr_size R) as [S1 _]. rewrite cut_page_spec in H by lia.
  destruct (Z.ltb_spec size (Z.of_nat (length (rows_after pos tb)))) as [L|L].
  - destruct (last (take (Z.to_nat size) (rows_after pos tb))) as [y|] eqn:Ey.
    + apply rbind_Ok in H as (next & E & [= <-]). cbn. split; [done|]. exists y. split; [done|]. eapply encode_boundary; [done| |done].
      apply last_Some_elem_of, elem_of_take in Ey as (i & Hi & _). apply list_elem_of_lookup_2 in Hi.
      apply elem_of_rows_after in Hi as [Hi _]. by apply elem_of_selected in Hi as [Hi _].
    + apply last_None in Ey. apply (f_equal length) in Ey. rewrite length_take in Ey. cbn in Ey. lia.
  - injection H as <-. cbn. split; [done|]. split; [done|]. apply take_ge. lia.
Qed.

(** *** The walk: one page after another, each from its own table *)

Fixpoint walk (cursor : gostring) (tbs : list table) : result store_error (option (list Page)) :=
  match tbs with
  | [] => Ok None
  | tb :: tbs' =>
      let? p := page_after cursor tb in
      if seq_eqb (NextCursor p) [] then Ok (Some [p])
      else let? rest := walk (NextCursor p) tbs' in Ok (fmap (cons p) rest)
  end.

Lemma walk_cons cursor tb tbs pos ps :
  keyed D K (bare col) spec tb -> cursor_at pos cursor -> walk cursor (tb :: tbs) = Ok (Some ps) ->
  exists p rest, ps = p :: rest /\ Items p = take (Z.to_nat size) (rows_after pos tb)
  /\ (rest = [] /\ Items p = rows_after pos tb
      \/ exists y cursor', last (Items p) = Some y /\ cursor_at (Some y) cursor' /\ walk cursor' tbs = Ok (Some rest)).
Proof.
  intros KT CA (p & P & H)%rbind_Ok. destruct (page_after_spec pos cursor tb p KT CA P) as (I & M).
  destruct (size <? Z.of_nat (length (rows_after pos tb))).
  - destruct M as (y & Ly & Cy). destruct (seq_eqb (NextCursor p) []) eqn:E.
    { apply bool_decide_eq_true in E. by destruct Cy as [Cy _]. }
    apply rbind_Ok in H as ([rest|] & W & H); [|done]. injection H as <-. exists p, rest. split; [done|]. split; [done|]. right. eauto.
  - destruct M as (N & Iw). rewrite N in H. change (seq_eqb [] []) with true in H. injection H as <-. exists p, []. auto.
Qed.

Lemma lt_key_trans x y z : lt_key x y -> lt_key y z -> lt_key x z.
Proof.
  unfold lt_key. intros H1 H2. destruct (order_cmp_trans D (db_order D DO) keys x y z) as [T E]; [by rewrite H1|by rewrite H2|].
  destruct (order_cmp D keys x z); [|done..]. destruct (E eq_refl) as [E1 _]. congruence.
Qed.

Lemma after_lt y x : after (Some y) x = true <-> lt_key y x.
Proof. unfold after, lt_key. apply bool_decide_eq_true. Qed.

Lemma sorted_take_last l n y : StronglySorted lt_key l -> last (take n l) = Some y ->
  Forall (fun x => x = y \/ lt_key x y) (take n l) /\ Forall (lt_key y) (drop n l).
Proof.
  intros S L. rewrite <- (take_drop n l) in S. apply StronglySorted_app in S as (S3 & S1 & S2).
  apply last_Some in L as [l1 E]. rewrite E in *. apply StronglySorted_app in S1 as (S1 & _ & _). split.
  - apply Forall_app. split; [|by repeat constructor]. apply Forall_forall. intros x Hx. right. apply S1; [done|by left].
  - apply Forall_forall. intros x Hx. apply S3; [|done]. apply elem_of_app. right. by left.
Qed.

(** What a walk delivered, against the tables it read. *)
Lemma walk_spec tbs : Forall (keyed D K (bare col) spec) tbs -> forall pos cursor ps,
  cursor_at pos cursor -> walk cursor tbs = Ok (Some ps) ->
  let rows := concat (map Items ps) in
  StronglySorted lt_key rows
  /\ (forall x, x ∈ rows -> after pos x = true /\ exists tb, tb ∈ tbs /\ x ∈ selected (vcmp D) s tx tb)
  /\ (forall x, (forall tb, tb ∈ tbs -> x ∈ selected (vcmp D) s tx tb) -> after pos x = true -> x ∈ rows).
Proof.
  induction 1 as [|tb tbs KT _ IH]; intros pos cursor ps CA W; [done|].
  destruct (walk_cons _ _ _ _ _ KT CA W) as (p & rest & -> & I & M). cbn [map concat].
  pose proof (rows_after_sorted pos tb KT) as S.
  assert (Hp : forall x, x ∈ Items p -> x ∈ rows_after pos tb).
  { intros x Hx. rewrite I in Hx. by apply elem_of_take in Hx as (i & Hi%list_elem_of_lookup_2 & _). }
  destruct M as [[-> Iw]|(y & cursor' & Ly & Cy & Wr)].
  - cbn [map concat]. rewrite app_nil_r, Iw. split; [done|]. split.
    + intros x Hx. apply elem_of_rows_after in Hx as [Hx Ha]. split; [done|]. exists tb. split; [by left|done].
    + intros x Hx Ha. apply elem_of_rows_after. split; [apply Hx; by left|done].
  - destruct (IH (Some y) cursor' rest Cy Wr) as (S' & F' & C').
    rewrite I in Ly. destruct (sorted_take_last _ _ _ S Ly) as [Tk Dr]. rewrite Forall_forall in Tk, Dr.
    assert (Ry : forall x, lt_key y x -> after pos x = true).
    { intros x Lx. destruct pos as [z|]; [|done]. apply after_lt. apply lt_key_trans with y; [|done].
      apply last_Some_elem_of in Ly. rewrite <- I in Ly. apply Hp, elem_of_rows_after in Ly as [_ Ly]. by apply after_lt. }
    split; [|split].
    + apply StronglySorted_app_2; [|rewrite I; rewrite <- (take_drop (Z.to_nat size) (rows_after pos tb)) in S; by eapply StronglySorted_app_1_l|done].
      intros a b Ha Hb. destruct (F' b Hb) as [Lb%after_lt _]. rewrite I in Ha. destruct (Tk a Ha) as [->|La]; [done|by eapply lt_key_trans].
    + intros x [Hx|Hx]%elem_of_app.
      * apply Hp, elem_of_rows_after in Hx as [Hx Ha]. split; [done|]. exists tb. split; [by left|done].
      * destruct (F' x Hx) as [Lx%after_lt (tb' & Ht & Hs)]. split; [by apply Ry|]. exists tb'. split; [by right|done].
    + intros x Hx Ha. apply elem_of_app.
      assert (x ∈ rows_after pos tb) as Hr by (apply elem_of_rows_after; split; [apply Hx; by left|done]).
      rewrite <- (take_drop (Z.to_nat size) (rows_after pos tb)) in Hr. apply elem_of_app in Hr as [Hr|Hr]; [left; by rewrite I|right].
      apply C'; [intros tb' Ht; apply Hx; by right|]. apply after_lt, Dr, Hr.
Qed.

Lemma lt_key_irrefl x : ~ lt_key x x.
Proof. unfold lt_key. by rewrite (order_cmp_refl D (db_order D DO)). Qed.

Lemma after_trans pos y x : after pos y = true -> lt_key y x -> after pos x = true.
Proof. destruct pos as [z|]; [|done]. rewrite !after_lt. intros. by eapply lt_key_trans. Qed.

Lemma rows_after_NoDup pos tb : NoDup (rows_after pos tb).
Proof. unfold rows_after. rewrite order_by_perm. apply NoDup_filter_bool, NoDup_selected. Qed.

(** The rows after a page's last row are the ones the page left. *)
Lemma rows_left pos tb y : keyed D K (bare col) spec tb -> last (take (Z.to_nat size) (rows_after pos tb)) = Some y ->
  rows_after (Some y) tb ⊆+ drop (Z.to_nat size) (rows_after pos tb).
Proof.
  intros KT Ly. destruct (sorted_take_last _ _ _ (rows_after_sorted pos tb KT) Ly) as [Tk Dr]. rewrite Forall_forall in Tk, Dr.
  apply NoDup_submseteq; [apply rows_after_NoDup|]. intros x [Hx Lx%after_lt]%elem_of_rows_after.
  assert (Hy : y ∈ rows_after pos tb) by by apply last_Some_elem_of, elem_of_take in Ly as (i & Hi%list_elem_of_lookup_2 & _).
  apply elem_of_rows_after in Hy as [_ Ay].
  assert (Hr : x ∈ rows_after pos tb) by (apply elem_of_rows_after; split; [done|by eapply after_trans]).
  rewrite <- (take_drop (Z.to_nat size) (rows_after pos tb)) in Hr. apply elem_of_app in Hr as [Hr|Hr]; [|done].
  exfalso. destruct (Tk x Hr) as [->|L]; [by eapply lt_key_irrefl|]. apply (lt_key_irrefl x). by eapply lt_key_trans.
Qed.

(** A walk over one table ends. *)
Lemma walk_ends tb n : keyed D K (bare col) spec tb ->
  total D s c cfg opts tb = Ok n -> fails D StSelect = false ->
  (forall x, tb !! x.1 = Some x.2 -> exists token, encodeCursor K x field desc (bare col) spec = Ok token) ->
  forall fuel pos cursor, (length (rows_after pos tb) <= fuel)%nat -> cursor_at pos cursor ->
    exists ps, walk cursor (tb :: replicate fuel tb) = Ok (Some ps).
Proof.
  intros KT T Fl En. pose proof (kr_size R) as [S1 _]. induction fuel as [|fuel IH]; intros pos cursor L CA.
  all: change (walk cursor (tb :: replicate ?f tb)) with (let? p := page_after cursor tb in
    if seq_eqb (NextCursor p) [] then Ok (Some [p])
    else let? rest := walk (NextCursor p) (replicate f tb) in Ok (fmap (cons p) rest)).
  all: rewrite page_after_eq, T; destruct (page_rows pos cursor tb KT CA) as (tx' & -> & E2); cbn [rbind].
  all: rewrite Fl, E2, cut_page_spec by lia.
  - destruct (Z.ltb_spec size (Z.of_nat (length (rows_after pos tb)))); [lia|]. cbn. eauto.
  - destruct (Z.ltb_spec size (Z.of_nat (length (rows_after pos tb)))) as [Ls|Ls]; [|cbn; eauto].
    destruct (last (take (Z.to_nat size) (rows_after pos tb))) as [y|] eqn:Ly.
    2: { apply last_None, (f_equal length) in Ly. rewrite length_take in Ly. cbn in Ly. lia. }
    assert (Hy : y ∈ rows_after pos tb) by by apply last_Some_elem_of, elem_of_take in Ly as (i & Hi%list_elem_of_lookup_2 & _).
    apply elem_of_rows_after in Hy as [Hy _]. apply elem_of_selected in Hy as [Ty _].
    destruct (En y Ty) as [token Ek]. rewrite Ek. cbn [rbind NextCursor].
    pose proof (encode_boundary y tb token KT Ty Ek) as CA'. unfold seq_eqb. rewrite bool_decide_eq_false_2 by apply CA'.
    destruct (IH (Some y) token) as [ps' W]; [|done|].
    + pose proof (submseteq_length _ _ (rows_left pos tb y KT Ly)) as P. rewrite length_drop in P. lia.
    + change (replicate (S fuel) tb) with (tb :: replicate fuel tb). rewrite W. cbn. eauto.
Qed.

(** Two sorted lists of the same rows are one. *)
Lemma keyset_sorted_unique l1 l2 : StronglySorted lt_key l1 -> StronglySorted lt_key l2 -> (forall x, x ∈ l1 <-> x ∈ l2) -> l1 = l2.
Proof.
  intros S1. revert l2. induction S1 as [|x l1 S1 IH F1]; intros l2 S2 E.
  - destruct l2 as [|y l2]; [done|]. exfalso. apply (not_elem_of_nil y), E. by left.
  - destruct S2 as [|y l2 S2 F2]; [exfalso; apply (not_elem_of_nil x), E; by left|].
    rewrite Forall_forall in F1, F2.
    assert (x = y) as ->.
    { assert (x ∈ y :: l2) as [|Hx]%elem_of_cons by (apply E; by left); [done|].
      assert (y ∈ x :: l1) as [|Hy]%elem_of_cons by (apply E; by left); [done|].
      destruct (lt_key_irrefl x). apply lt_key_trans with y; auto. }
    f_equal. apply IH; [done|]. intros z. split; intros Hz.
    + assert (z ∈ y :: l2) as [->|]%elem_of_cons by (apply E; by right); [|done]. destruct (lt_key_irrefl y). auto.
    + assert (z ∈ y :: l1) as [->|]%elem_of_cons by (apply E; by right); [|done]. destruct (lt_key_irrefl y). auto.
Qed.

(** *** Rows that are changed between two pages *)

(** A row at a place of the order: its RID, and the value it is ordered by. *)
Definition place (x : Z * row) : value * value := (get x (str "rid"), get x (bare col)).

Lemma place_is x r v : place x = (r, v) -> get x (str "rid") = r /\ get x (bare col) = v.
Proof. intros E. split; [exact (f_equal fst E)|exact (f_equal snd E)]. Qed.

Lemma order_cmp_place x x' y y' : place x = place x' -> place y = place y' -> order_cmp D keys x y = order_cmp D keys x' y'.
Proof.
  intros E F. apply place_is in E as [E1 E2], F as [E3 E4]. unfold keys, keyset_keys. destruct (seq_eqb _ _); cbn [order_cmp]; rewrite ?E1, ?E2, ?E3, ?E4; done.
Qed.

Lemma after_place pos x y : place x = place y -> after pos x = after pos y.
Proof. intros E. destruct pos as [z|]; [|done]. unfold after. by rewrite (order_cmp_place z z x y). Qed.

(** Rows in order have different places. *)
Lemma sorted_places l : StronglySorted lt_key l -> NoDup (map place l).
Proof.
  induction 1 as [|x l _ IH F]; [constructor|]. cbn. constructor; [|done]. intros (y & E & Hy)%list_elem_of_fmap. rewrite Forall_forall in F.
  apply (lt_key_irrefl y). unfold lt_key. rewrite (order_cmp_place y x y y) by done. by apply F.
Qed.

(** Each page holds rows of the table it was read from. *)
Lemma walk_pages tbs : Forall (keyed D K (bare col) spec) tbs -> forall pos cursor ps, cursor_at pos cursor -> walk cursor tbs = Ok (Some ps) ->
  forall i p, ps !! i = Some p -> exists tb, tbs !! i = Some tb /\ forall x, x ∈ Items p -> x ∈ selected (vcmp D) s tx tb.
Proof.
  induction 1 as [|tb tbs KT _ IH]; intros pos cursor ps CA W; [done|]. destruct (walk_cons _ _ _ _ _ KT CA W) as (p0 & rest & -> & I & M).
  intros [|i] p Hp; cbn in Hp.
  - injection Hp as <-. exists tb. split; [done|]. intros x Hx. rewrite I in Hx. apply elem_of_take in Hx as (j & Hj%list_elem_of_lookup_2 & _).
    by apply elem_of_rows_after in Hj as [Hj _].
  - destruct M as [[-> _]|(y & cursor' & _ & Cy & Wr)]; [done|]. by apply (IH _ _ _ Cy Wr).
Qed.

(** A row that keeps its place is delivered, whatever else of it is changed. *)
Lemma walk_places tbs r v : Forall (keyed D K (bare col) spec) tbs -> forall pos cursor ps x0, cursor_at pos cursor -> walk cursor tbs = Ok (Some ps) ->
  (forall tb, tb ∈ tbs -> exists x, x ∈ selected (vcmp D) s tx tb /\ place x = (r, v)) -> place x0 = (r, v) -> after pos x0 = true ->
  exists x, x ∈ concat (map Items ps) /\ place x = (r, v).
Proof.
  induction 1 as [|tb tbs KT _ IH]; intros pos cursor ps x0 CA W H E0 A0; [done|].
  destruct (walk_cons _ _ _ _ _ KT CA W) as (p & rest & -> & I & M). cbn [map concat].
  destruct (H tb ltac:(by left)) as (x & Hx & Ex). assert (Hr : x ∈ rows_after pos tb).
  { apply elem_of_rows_after. split; [done|]. by rewrite (after_place pos x x0) by congruence. }
  destruct M as [[-> Iw]|(y & cursor' & Ly & Cy & Wr)].
  - exists x. split; [|done]. apply elem_of_app. left. by rewrite Iw.
  - rewrite I in Ly. destruct (sorted_take_last _ _ _ (rows_after_sorted pos tb KT) Ly) as [_ Dr]. rewrite Forall_forall in Dr.
    rewrite <- (take_drop (Z.to_nat size) (rows_after pos tb)) in Hr. apply elem_of_app in Hr as [Hr|Hr].
    + exists x. split; [|done]. apply elem_of_app. left. by rewrite I.
    + destruct (IH (Some y) cursor' rest x Cy Wr) as (z & Hz & Ez); [intros tb' Ht; apply H; by right|done|by apply after_lt, Dr|].
      exists z. split; [|done]. apply elem_of_app. by right.
Qed.

(** And once: no other row of that RID is. *)
Lemma walk_once tbs cursor ps r v : Forall (keyed D K (bare col) spec) tbs -> cursor_at None cursor -> walk cursor tbs = Ok (Some ps) ->
  (forall tb, tb ∈ tbs -> exists x, x ∈ selected (vcmp D) s tx tb /\ place x = (r, v)) ->
  exists x, List.filter (fun y => bool_decide (get y (str "rid") = r)) (concat (map Items ps)) = [x] /\ get x (bare col) = v.
Proof.
  intros KT CA W H. destruct (walk_spec tbs KT None cursor ps CA W) as (S & F & _).
  assert (All : forall y, y ∈ concat (map Items ps) -> get y (str "rid") = r -> place y = (r, v)).
  { intros y Hy Ey. destruct (F y Hy) as (_ & tb & Ht & Hs). destruct (H tb Ht) as (x & Hx & Ex). rewrite Forall_forall in KT.
    apply elem_of_selected in Hs as [Ty _]. apply elem_of_selected in Hx as [Tx _]. assert (E1 : y.1 = x.1).
    { apply (keyed_unique _ _ _ _ _ (KT tb Ht)); [done|done|]. apply place_is in Ex as [-> _]. rewrite Ey. by apply (ocmp_refl D (db_order D DO)). }
    assert (y = x) as ->; [|done]. destruct x, y. cbn in *. subst. congruence. }
  assert (Ex : exists x, x ∈ concat (map Items ps) /\ place x = (r, v)).
  { destruct tbs as [|tb tbs]; [done|]. destruct (H tb ltac:(by left)) as (x & _ & Ex). by apply (walk_places (tb :: tbs) r v KT None cursor ps x). }
  destruct Ex as (x & Hx & Ex). pose proof (sorted_places _ S) as N. set (rows := concat (map Items ps)) in *. clearbody rows. clear -N Hx Ex All.
  exists x. split; [|by destruct (place_is _ _ _ Ex)]. apply list_elem_of_split in Hx as (l1 & l2 & ->). rewrite map_app in N. cbn [map] in N.
  assert (Out : forall l, (forall y, y ∈ l -> y ∈ l1 ++ x :: l2) -> (forall y, y ∈ l -> place y <> place x) -> List.filter (fun y => bool_decide (get y (str "rid") = r)) l = []).
  { induction l as [|y l IH]; intros Sub Ne; [done|]. cbn. rewrite bool_decide_false; [apply IH; intros; [apply Sub|apply Ne]; by right|].
    intros Ey. apply (Ne y); [by left|]. rewrite Ex. apply All; [apply Sub; by left|done]. }
  apply NoDup_app in N as (_ & N1 & N2). apply NoDup_cons in N2 as [N2 _].
  rewrite List.filter_app. cbn [List.filter]. rewrite (Out l1), (Out l2), bool_decide_true; [done|by destruct (place_is _ _ _ Ex)|..].
  - intros y Hy. apply elem_of_app. right. by right.
  - intros y Hy Ey. apply N2. rewrite <- Ey. by apply list_elem_of_fmap_2.
  - intros y Hy. apply elem_of_app. by left.
  - intros y Hy Ey. apply (N1 (place y)); [by apply list_elem_of_fmap_2|]. rewrite Ey. by left.
Qed.
End keyset.
