(* ===== verification/StoreWrite.v ===== *)
(** store/changes.go and store/write.go: the changes of an update, and Create,
    BatchCreate, Update, Delete and Restore; db/model.go and db/rid.go: what a
    row starts with. *)

From Stdlib Require Import ZArith Lia List Ascii.
From stdpp Require Import base decidable list gmap strings sorting.
From S2P Require Import Prelude GoStrings StoreWhere Store StoreCursor StoreRead.

(** ** RIDs *)

Definition ridIDLen : nat := 12.
Definition ridMaxLen : Z := 23.
Definition ridMaxPrefix : Z := 10.

Definition lower (c : ascii) : bool := between 97 122 c.
Definition digit (c : ascii) : bool := between 48 57 c.
Definition base62 (c : ascii) : bool := digit c || between 65 90 c || lower c.

Definition validatePrefix (p : gostring) : bool :=
  let n := Z.of_nat (length p) in
  (1 <=? n) && (n <=? ridMaxPrefix)
  && match p with [] => false | c :: p' => lower c && forallb (fun d => lower d || digit d) p' end.

(** validateRID; the id is what follows the first underscore. *)
Definition validateRID (s : gostring) : bool :=
  negb (seq_eqb s []) && (Z.of_nat (length s) <=? ridMaxLen)
  && if bool_decide ("_"%char ∈ s) then
       let '(before, after) := cut "_" s in
       validatePrefix before && negb (seq_eqb after []) && forallb base62 after
     else forallb base62 s.

Definition ParseRID (rid : gostring) : option gostring :=
  if validateRID rid then Some (if bool_decide ("_"%char ∈ rid) then (cut "_" rid).1 else []) else None.

Definition ridAlphabet : gostring := str "0123456789ABCDEFGHIJKLMNOPQRSTUVWXYZabcdefghijklmnopqrstuvwxyz".

(** randBase62 over the random bytes it reads: [n] characters, a byte from 248
    on drawn again, and the bytes left; [None] when they run out. *)
Fixpoint randBase62 (n : nat) (random : list Z) {struct random} : option (gostring * list Z) :=
  match n, random with
  | O, _ => Some ([], random)
  | S _, [] => None
  | S n', b :: random' =>
      if 248 <=? b then randBase62 n random'
      else '(s, rest) ← randBase62 n' random'; Some (nth (Z.to_nat (b mod 62)) ridAlphabet "0"%char :: s, rest)
  end.

(** ** The database of a write *)

Record Env := MkEnv {
  db : Db;
  now : Z;
  token : gostring;                      (* a random delete_token *)
  dup : table -> option gostring;        (* the unique constraint a table would break *)
  next_id : table -> Z;                  (* the key the database gives *)
  rid_prefix : option gostring;          (* of a model that is a RIDPrefixer *)
  rid_random : list Z;
}.

(** ** Changes *)

(** One patchable field of a request: its public name, whether its type fits
    the column's, and its value when the request set it. *)
Record patch_field := PatchField { pf_public : gostring; pf_assignable : bool; pf_value : option value }.

(** The object given to Onto. *)
Inductive onto := NoOnto | OntoOther | Onto (obj : row).

(** The version of a request: none, an int, or a pointer to one. *)
Inductive request_version := NoVersion | IntVersion (v : Z) | PtrVersion (v : option Z).

(** A patch: the plan of its request's type, or that it has none, with the
    request's values. *)
Record PatchBuilder := MkPatch { plan : option (list patch_field); plan_version : request_version; p_onto : onto }.

Inductive Changes := Set_ (kv : gmap gostring value) | Patch (p : PatchBuilder).

Definition IsEmpty (ch : option Changes) : bool :=
  match ch with
  | None => true
  | Some (Set_ kv) => bool_decide (kv = ∅)
  | Some (Patch p) => match plan p with
                      | None => false
                      | Some fs => forallb (fun f => match pf_value f with None => true | Some _ => false end) fs
                      end
  end.

(** What an Update executes. *)
Record built := Built { payload : gmap gostring value; b_fields : gmap gostring value; lock : Z; model : option row }.

(** One entry of Set. *)
Definition set_entry (s : store) (b : built) (nv : gostring * value) : result store_error built :=
  match Column (columns s) nv.1 with
  | Err e => Err (ECode e)
  | Ok col =>
      if protected col then Err (EManagedColumn nv.1)
      else Ok (Built (<[col := nv.2]> (payload b)) (<[nv.1 := nv.2]> (b_fields b)) (lock b) (model b))
  end.

Definition buildSet (s : store) (kv : gmap gostring value) : result store_error built :=
  if bool_decide (kv = ∅) then Err EEmptyChanges
  else rfold (set_entry s) (map_to_list kv) (Built ∅ ∅ 0 None).

(** The check of one planned field. *)
Definition check_field (s : store) (_u : unit) (f : patch_field) : result store_error unit :=
  match updateFields s !! pf_public f with
  | None => Err (EPatch (pf_public f))
  | Some col =>
      match (kinds s !! col : option (gokind * bool)) with
      | None => Err (EPatch (pf_public f))
      | Some _ =>
          if protected col then Err (EManagedColumn (pf_public f))
          else if pf_assignable f then Ok tt else Err (EPatch (pf_public f))
      end
  end.

(** A field the request set is assigned to the target and becomes a change. *)
Definition patch_entry (s : store) (b : built) (f : patch_field) : built :=
  match pf_value f, updateFields s !! pf_public f with
  | Some v, Some col => Built (<[col := v]> (payload b)) (<[pf_public f := v]> (b_fields b)) (lock b) (fmap (<[col := v]>) (model b))
  | _, _ => b
  end.

Definition version_of (r : row) : Z := match r !! str "version" with Some (VInt n) => n | _ => 0 end.

Definition request_lock (v : request_version) (lock : Z) : Z :=
  match v with
  | NoVersion => lock
  | IntVersion n => if n =? 0 then lock else n
  | PtrVersion None => lock
  | PtrVersion (Some n) => n
  end.

Definition build_patch (s : store) (p : PatchBuilder) : result store_error built :=
  match plan p with
  | None => Err (EPatch [])
  | Some fs =>
      let? _ := rfold (check_field s) fs tt in
      match p_onto p with
      | OntoOther => Err (EPatch [])
      | o =>
          let target := match o with Onto obj => Some obj | _ => None end in
          let b := fold_left (patch_entry s) fs (Built ∅ ∅ 0 target) in
          let lock := request_lock (plan_version p) (match target with Some obj => version_of obj | None => 0 end) in
          if bool_decide (payload b = ∅) then Err EEmptyChanges
          else Ok (Built (payload b) (b_fields b) lock (model b))
      end
  end.

Definition build (s : store) (ch : option Changes) : result store_error built :=
  match ch with
  | None => Err EEmptyChanges
  | Some (Set_ kv) => buildSet s kv
  | Some (Patch p) => build_patch s p
  end.

(** ** Statements *)

Definition incr (r : row) : row := <[str "version" := VInt (version_of r + 1)]> r.

(** An UPDATE of the rows of a query: refused by a unique constraint, or the
    number of rows and the table. *)
Definition update_rows (E : Env) (s : store) (tx : query) (f : row -> row) (tb : table) : result store_error (Z * table) :=
  if fails (db E) StUpdate then Err EDatabase
  else
    let hit (i : Z) (r : row) := matches (vcmp (db E)) s tx (i, r) in
    let tb' := map_imap (fun i r => Some (if hit i r then f r else r)) tb in
    match dup E tb' with
    | Some constraint => Err (EDuplicate constraint)
    | None => Ok (Z.of_nat (length (selected (vcmp (db E)) s tx tb)), tb')
    end.

(** A DELETE of the rows of a query. *)
Definition delete_rows (E : Env) (s : store) (tx : query) (tb : table) : result store_error (Z * table) :=
  if fails (db E) StDelete then Err EDatabase
  else Ok (Z.of_nat (length (selected (vcmp (db E)) s tx tb)),
           map_imap (fun i r => if matches (vcmp (db E)) s tx (i, r) then None else Some r) tb).

(** What a write leaves: the table, and its error. *)
Definition written : Type := table * option store_error.

Definition refused (tb : table) (e : store_error) : written := (tb, Some e).

Definition version_is (s : store) (v : Z) (tx : query) : query :=
  if v >? 0 then where_ [CCmp (s_table s ++ str ".version") OpEq (VInt v)] tx else tx.

(** missed. *)
Definition missed (E : Env) (s : store) (c : ctx) (l : Locator) (lock : Z) (tb : table) : store_error :=
  if lock >? 0 then
    match (let? tx := scoped s c (Unscoped start_query) in exists_ (db E) s tx l tb) with
    | Err e => e
    | Ok true => EVersionConflict lock
    | Ok false => ENotFound
    end
  else ENotFound.

(** ** Update *)

(** The columns of an update: the changes, the version and updated_at. *)
Definition updated (E : Env) (changes : gmap gostring value) (r : row) : row :=
  <[str "updated_at" := VTime (now E)]> (<[str "version" := VInt (version_of r + 1)]> (changes ∪ r)).

(** Update; it also answers the object given to Onto as it leaves it. *)
Definition Update (E : Env) (s : store) (c : ctx) (loc : option Locator) (ch : option Changes) (opts : list where_option) (tb : table)
  : written * option row :=
  match build s ch with
  | Err e => (refused tb e, None)
  | Ok b =>
      match write s c loc opts, loc with
      | Err e, _ => (refused tb e, model b)
      | Ok (tx, cfg), Some l =>
          match BeforeUpdateHook s c (b_fields b) with
          | Some e => (refused tb (EHook e), model b)
          | None =>
              let lock := if Version cfg >? 0 then Version cfg else lock b in
              match update_rows E s (version_is s lock tx) (updated E (payload b)) tb with
              | Err e => (refused tb e, model b)
              | Ok (n, tb') =>
                  if n =? 0 then (refused tb (missed E s c l lock tb), model b)
                  else ((tb', None),
                        fmap (fun m => let m := <[str "updated_at" := VTime (now E)]> m in
                                       if lock >? 0 then <[str "version" := VInt (lock + 1)]> m else m) (model b))
              end
          end
      | Ok _, None => (refused tb ENilLocator, model b)  (* not reached: write refuses a nil locator *)
      end
  end.

(** ** Delete and Restore *)

(** gorm moves updated_at along on the Updates of a map (autoUpdateTime). *)
Definition touch (E : Env) (r : row) : row := <[str "updated_at" := VTime (now E)]> r.

Definition trashed (E : Env) (r : row) : row :=
  touch E (<[str "deleted_at" := VTime (now E)]> (<[str "delete_token" := VStr (token E)]> (incr r))).

Definition restored (E : Env) (r : row) : row :=
  touch E (<[str "deleted_at" := VNull]> (<[str "delete_token" := VStr []]> (incr r))).

Definition Delete (E : Env) (s : store) (c : ctx) (loc : option Locator) (opts : list where_option) (tb : table) : written :=
  match write s c loc opts, loc with
  | Err e, _ => refused tb e
  | Ok (tx, cfg), Some l =>
      match BeforeDeleteHook s c with
      | Some e => refused tb (EHook e)
      | None =>
          let tx := version_is s (Version cfg) tx in
          match (if soft s then update_rows E s tx (trashed E) tb else delete_rows E s tx tb) with
          | Err e => refused tb e
          | Ok (n, tb') => if (n =? 0) && (Version cfg >? 0) then refused tb (missed E s c l (Version cfg) tb) else (tb', None)
          end
      end
  | Ok _, None => refused tb ENilLocator  (* not reached *)
  end.

Definition Restore (E : Env) (s : store) (c : ctx) (loc : option Locator) (tb : table) : written :=
  if negb (soft s) then refused tb ENoSoftDelete
  else
    match write s c loc [OOnlyTrashed], loc with
    | Err e, _ => refused tb e
    | Ok (tx, _), Some l =>
        match update_rows E s tx (restored E) tb with
        | Err e => refused tb e
        | Ok (n, tb') =>
            if n >? 0 then (tb', None)
            else match (let? live := scoped s c start_query in exists_ (db E) s live l tb) with
                 | Err e => refused tb e
                 | Ok found => if found then (tb', None) else refused tb ENotFound
                 end
        end
    | Ok _, None => refused tb ENilLocator  (* not reached *)
    end.

(** ** Create *)

Definition beforeCreate (s : store) (c : ctx) (obj : row) : result store_error row :=
  let? obj := fillOwner s c obj in
  match BeforeCreateHook s c obj with Ok obj => Ok obj | Err e => Err (EHook e) end.

Definition text_of (v : option value) : gostring := match v with Some (VStr t) => t | _ => [] end.

(** prefixOf and Model.BeforeCreate: the version, and the RID; it also answers
    the random bytes left. *)
Definition BeforeCreate (E : Env) (random : list Z) (obj : row) : result store_error (row * list Z) :=
  let obj := if version_of obj =? 0 then <[str "version" := VInt 1]> obj else obj in
  let rid := text_of (obj !! str "rid") in
  if negb (seq_eqb rid []) then if validateRID rid then Ok (obj, random) else Err ERid
  else match rid_prefix E with
       | Some p =>
           if validatePrefix p then
             match randBase62 ridIDLen random with
             | Some (id, rest) => Ok (<[str "rid" := VStr (p ++ str "_" ++ id)]> obj, rest)
             | None => Err ERid
             end
           else Err ERid
       | None =>
           match randBase62 ridIDLen random with
           | Some (id, rest) => Ok (<[str "rid" := VStr id]> obj, rest)
           | None => Err ERid
           end
       end.

(** gorm fills in timestamps that are not set. *)
Definition stamp (E : Env) (col : gostring) (obj : row) : row :=
  match obj !! col with Some (VTime _) => obj | _ => <[col := VTime (now E)]> obj end.

Definition insert_row (E : Env) (acc : table * list Z) (obj : row) : result store_error (table * list Z) :=
  let? '(obj, rest) := BeforeCreate E acc.2 obj in
  Ok (<[next_id E acc.1 := stamp E (str "updated_at") (stamp E (str "created_at") obj)]> acc.1, rest).

(** The objects of an INSERT, in order; nothing is kept of a refused one. *)
Definition insert_all (E : Env) (objs : list row) (tb : table) : written :=
  match rfold (insert_row E) objs (tb, rid_random E) with
  | Err e => refused tb e
  | Ok (tb', _) =>
      if fails (db E) StInsert then refused tb EDatabase
      else match dup E tb' with Some constraint => refused tb (EDuplicate constraint) | None => (tb', None) end
  end.

Definition Create (E : Env) (s : store) (c : ctx) (obj : row) (tb : table) : written :=
  match beforeCreate s c obj with
  | Err e => refused tb e
  | Ok obj => insert_all E [obj] tb
  end.

Fixpoint before_all (s : store) (c : ctx) (objs : list row) : result store_error (list row) :=
  match objs with
  | [] => Ok []
  | obj :: objs' => let? obj := beforeCreate s c obj in let? objs' := before_all s c objs' in Ok (obj :: objs')
  end.

Definition BatchCreate (E : Env) (s : store) (c : ctx) (objs : list row) (tb : table) : written :=
  match objs with
  | [] => (tb, None)
  | _ => match before_all s c objs with
         | Err e => refused tb e
         | Ok objs => insert_all E objs tb
         end
  end.
