(* ===== verification/StoreDemo.v ===== *)
(** A database, a codec and a store to try the properties of store on. *)

From Stdlib Require Import ZArith Lia List Ascii.
From stdpp Require Import base decidable list gmap strings sorting.
From S2P Require Import Prelude GoStrings StoreWhere Store StoreCursor StoreRead StoreList StoreKeyset StoreWrite.

(** ** A database that orders values by kind, then by content *)

Fixpoint list_cmp (a b : list Z) : comparison :=
  match a, b with
  | [], [] => Eq
  | [], _ :: _ => Lt
  | _ :: _, [] => Gt
  | x :: a', y :: b' => match x ?= y with Eq => list_cmp a' b' | c => c end
  end.

Lemma list_cmp_opp a b : list_cmp b a = CompOpp (list_cmp a b).
Proof. revert b. induction a as [|x a IH]; intros [|y b]; cbn; try done. rewrite (Z.compare_antisym x y). destruct (x ?= y); cbn; auto. Qed.

Lemma list_cmp_Eq a b : list_cmp a b = Eq -> a = b.
Proof.
  revert b. induction a as [|x a IH]; intros [|y b]; cbn; try done. destruct (Z.compare_spec x y) as [->| |]; try done. intros H. by rewrite (IH b).
Qed.

Lemma list_cmp_trans a b c : list_cmp a b <> Gt -> list_cmp b c <> Gt -> list_cmp a c <> Gt.
Proof.
  revert b c. induction a as [|x a IH]; intros [|y b] [|z c]; cbn; try done.
  destruct (Z.compare_spec x y), (Z.compare_spec y z), (Z.compare_spec x z); try done; try lia. subst. apply IH.
Qed.

Definition code (v : value) : list Z :=
  match v with
  | VNull => [0]
  | VInt z => [1; z]
  | VUint z => [2; z]
  | VBool b => [3; if b then 1 else 0]
  | VStr s => 4 :: map byte_val s
  | VTime t => [5; t]
  | VFloat f => [6; f]
  end.

Definition demo_ocmp (a b : value) : comparison := list_cmp (code a) (code b).
Definition demo_vcmp (a b : value) : option comparison := if is_null a || is_null b then None else Some (demo_ocmp a b).
Definition demo_db : Db := MkDb demo_vcmp demo_ocmp (fun _ => false).

Lemma code_inj a b : code a = code b -> a = b.
Proof.
  destruct a as [| | |[]| | |], b as [| | |[]| | |]; cbn; intros H; try discriminate H; try (by injection H as ->); try done.
  injection H as H. f_equal. revert s0 H. induction s as [|c s IH]; intros [|d s0] H; try discriminate H; [done|].
  cbn in H. injection H as Hc H. f_equal; [by apply byte_val_inj|by apply IH].
Qed.

Lemma demo_ocmp_ok : ocmp_ok (ocmp demo_db).
Proof.
  split; cbn; unfold demo_ocmp.
  - intros a b. apply list_cmp_opp.
  - intros a b c. apply list_cmp_trans.
Qed.

Lemma demo_ocmp_Eq a b : demo_ocmp a b = Eq -> a = b.
Proof. intros H. by apply code_inj, list_cmp_Eq. Qed.

Lemma demo_db_ok : db_ok demo_db.
Proof.
  split; [apply demo_ocmp_ok|]. intros v w k Hv Hw. cbn. unfold demo_vcmp. by destruct v, w.
Qed.

(** ** A codec *)

Fixpoint pos_text (p : positive) : gostring :=
  match p with
  | xH => ["1"%char]
  | xO p => "0"%char :: pos_text p
  | xI p => "i"%char :: pos_text p
  end.

Fixpoint text_pos (s : gostring) : option (positive * gostring) :=
  match s with
  | [] => None
  | c :: s' =>
      if beq c "1" then Some (xH, s')
      else if beq c "0" then '(p, r) ← text_pos s'; Some (xO p, r)
      else if beq c "i" then '(p, r) ← text_pos s'; Some (xI p, r)
      else None
  end.

Lemma text_pos_text p r : text_pos (pos_text p ++ r) = Some (p, r).
Proof. induction p as [p IH|p IH|]; cbn; [by rewrite IH|by rewrite IH|done]. Qed.

Definition z_text (z : Z) : gostring :=
  match z with Z0 => ["z"%char] | Zpos p => "p"%char :: pos_text p | Zneg p => "n"%char :: pos_text p end.

Definition text_z (s : gostring) : option (Z * gostring) :=
  match s with
  | [] => None
  | c :: s' =>
      if beq c "z" then Some (0, s')
      else if beq c "p" then '(p, r) ← text_pos s'; Some (Zpos p, r)
      else if beq c "n" then '(p, r) ← text_pos s'; Some (Zneg p, r)
      else None
  end.

Lemma text_z_text z r : text_z (z_text z ++ r) = Some (z, r).
Proof. destruct z; cbn; [done|by rewrite text_pos_text..]. Qed.

(** A string, each byte after an x, up to a y. *)
Fixpoint quote (s : gostring) : gostring := match s with [] => ["y"%char] | c :: s' => "x"%char :: c :: quote s' end.

Fixpoint unquote (s : gostring) : option (gostring * gostring) :=
  match s with
  | x :: s' =>
      if beq x "y" then Some ([], s')
      else match s' with c :: s'' => '(q, r) ← unquote s''; Some (c :: q, r) | [] => None end
  | [] => None
  end.

Lemma unquote_quote s r : unquote (quote s ++ r) = Some (s, r).
Proof. induction s as [|c s IH]; [done|]. cbn. by rewrite IH. Qed.

Definition demo_pack (t : cursorToken) : gostring :=
  z_text (V t) ++ (if t_Desc t then ["d"%char] else ["a"%char]) ++ quote (t_Field t) ++ quote (Kind t) ++ quote (Value t) ++ quote (t_RID t).

Definition demo_unpack (s : gostring) : option cursorToken :=
  '(v, s) ← text_z s;
  match s with
  | d :: s =>
      '(f, s) ← unquote s; '(k, s) ← unquote s; '(x, s) ← unquote s; '(r, _) ← unquote s;
      Some (MkToken v f (beq d "d") k x r)
  | [] => None
  end.

Definition demo_codec : Codec :=
  MkCodec (fun t => Some (z_text t)) (fun s => fst <$> text_z s) z_text (fun s _ => fst <$> text_z s) (fun _ => false) demo_pack demo_unpack.

Lemma demo_codec_ok : codec_ok demo_codec.
Proof.
  split; cbn.
  - intros t b [= <-]. pose proof (text_z_text t []) as H. rewrite app_nil_r in H. by rewrite H.
  - intros [v f d k x r]. unfold demo_unpack, demo_pack. cbn [V t_Desc t_Field Kind Value t_RID]. rewrite text_z_text. cbn [mbind option_bind].
    pose proof (unquote_quote r []) as Hr. rewrite app_nil_r in Hr.
    destruct d; cbn [app]; rewrite unquote_quote; cbn [mbind option_bind]; rewrite unquote_quote; cbn [mbind option_bind];
      rewrite unquote_quote; cbn [mbind option_bind]; rewrite Hr; done.
  - intros t. unfold demo_pack. by destruct (V t).
Qed.

(** ** A store of posts: owned, with soft delete *)

Definition fields_of_ (l : list (String.string * String.string)) : fields_t := list_to_map (map (fun p => (str p.1, str p.2)) l).

Definition posts_columns : fields_t :=
  fields_of_ [("id", "rid"); ("title", "title"); ("rank", "rank"); ("created_at", "created_at"); ("updated_at", "updated_at"); ("version", "version")]%string.

Definition posts_kinds : gmap gostring (gokind * bool) :=
  list_to_map (map (fun p => (str p.1, p.2))
    [("id", (KUint 64, false)); ("rid", (KString, false)); ("title", (KString, false)); ("rank", (KInt 64, false)); ("version", (KInt 64, false));
     ("created_at", (KTime, false)); ("updated_at", (KTime, false)); ("deleted_at", (KTime, true)); ("delete_token", (KString, false));
     ("owner_id", (KString, false))]%string).

Definition posts (owned_ soft_ : bool) : store :=
  MkStore (str "posts") posts_kinds posts_columns (fields_of_ [("title", "title"); ("rank", "rank")]%string) posts_columns ∅ soft_ owned_
    (MkPolicy false [str "admin"] None 20 100) [] {[ str "Author" := str "User" ]} {[ str "User" := MkSchema true (str "users") ∅ ]}
    (fun _ obj => Ok obj) (fun _ _ => None) (fun _ => None).

Definition post (rid title owner : String.string) (rank version : Z) : row :=
  list_to_map (map (fun p => (str p.1, p.2))
    [("rid", VStr (str rid)); ("title", VStr (str title)); ("owner_id", VStr (str owner)); ("rank", VInt rank); ("version", VInt version);
     ("created_at", VTime 1); ("updated_at", VTime 1); ("deleted_at", VNull); ("delete_token", VStr [])]%string).

Definition some_posts : table :=
  list_to_map [(1, post "aaa" "one" "ann" 3 1); (2, post "bbb" "two" "bob" 1 1); (3, post "ccc" "three" "ann" 2 4); (4, post "ddd" "four" "ann" 2 1)].

Definition demo_env : Env := MkEnv demo_db 100 (str "tok") (fun _ => None) (fun _ => 9) None [1; 2; 3; 4; 5; 6; 7; 8; 9; 10; 11; 12].

Definition ann : ctx := Some (MkPrincipal (str "ann") []).
Definition bob : ctx := Some (MkPrincipal (str "bob") []).

Lemma demo_ints : forall a b, sat_cmp (vcmp demo_db) OpEq (VInt a) (VInt b) = true <-> a = b.
Proof.
  intros a b. unfold sat_cmp. cbn. unfold demo_vcmp, demo_ocmp. cbn. split; [|intros ->; by rewrite Z.compare_refl].
  destruct (Z.compare_spec a b) as [->| |]; done.
Qed.

(** What holds of every row of a table can be checked row by row. *)
Lemma all_rows (P : Z * row -> bool) (tb : table) : forallb P (map_to_list tb) = true -> forall x, tb !! x.1 = Some x.2 -> P x = true.
Proof.
  intros H [i r] Hx. rewrite forallb_forall in H. apply H, list_elem_of_In, elem_of_map_to_list, Hx.
Qed.

Definition keyed_row (K : Codec) (col : gostring) (spec : fieldSpec) (x : Z * row) : bool :=
  match get x (str "rid") with VStr (_ :: _) => true | _ => false end
  && bool_decide (value_kind (get x col) = Some (spec_kind spec))
  && match get x col with
     | VInt z => (MinInt64 <=? z) && (z <=? MaxInt64)
     | VUint z => (0 <=? z) && (z <=? MaxUint64)
     | VFloat _ => false
     | _ => true
     end.

Lemma keyed_by_rows D K col spec tb :
  (forall a b, ocmp D a b = Eq -> a = b) -> forallb (keyed_row K col spec) (map_to_list tb) = true ->
  (forall x y, tb !! x.1 = Some x.2 -> tb !! y.1 = Some y.2 -> get x (str "rid") = get y (str "rid") -> x.1 = y.1) ->
  keyed D K col spec tb.
Proof.
  intros OE H U. pose proof (all_rows _ _ H) as R. split.
  - intros x Hx. specialize (R x Hx). unfold keyed_row in R. destruct (get x (str "rid")) as [| | | |[|c s]| |]; try done. eauto.
  - intros x y Hx Hy E. by apply U, OE.
  - intros x Hx. specialize (R x Hx). unfold keyed_row in R. apply andb_true_iff in R as [[_ R2]%andb_true_iff R3].
    apply bool_decide_eq_true in R2. split; [done|]. unfold go_value, float_ok. destruct (get x col); try done.
    all: apply andb_true_iff in R3 as [?%Z.leb_le ?%Z.leb_le]; done.
Qed.

Definition distinct_rids (tb : table) : bool := bool_decide (NoDup (map (fun x => get x (str "rid")) (map_to_list tb))).

Lemma distinct_rids_spec tb : distinct_rids tb = true ->
  forall x y, tb !! x.1 = Some x.2 -> tb !! y.1 = Some y.2 -> get x (str "rid") = get y (str "rid") -> x.1 = y.1.
Proof.
  intros N%bool_decide_eq_true [i r] [j r'] Hx Hy E. cbn [fst snd] in *.
  apply elem_of_map_to_list, list_elem_of_lookup in Hx as [n Hn]. apply elem_of_map_to_list, list_elem_of_lookup in Hy as [m Hm].
  assert (n = m) as ->; [|congruence].
  eapply (NoDup_lookup _ n m _ N); (rewrite (list_lookup_fmap (fun x => get x (str "rid")) (map_to_list tb))); [rewrite Hn|rewrite Hm]; cbn [fmap option_fmap option_map]; [done|by rewrite E].
Qed.

Lemma keyed_check col spec tb : forallb (keyed_row demo_codec col spec) (map_to_list tb) && distinct_rids tb = true ->
  keyed demo_db demo_codec col spec tb.
Proof.
  intros [H U]%andb_true_iff. apply keyed_by_rows; [apply demo_ocmp_Eq|done|by apply distinct_rids_spec].
Qed.
