(* ===== verification/StorePages.v ===== *)
(** The properties of lists and cursors, each tried on the posts of
    StoreDemo. *)

From Stdlib Require Import ZArith Lia List Ascii.
From stdpp Require Import base decidable list gmap strings sorting.
From S2P Require Import Prelude GoStrings StoreWhere Store StoreCursor StoreRead StoreList StoreKeyset StoreWrite StoreDemo.

(** A cursor takes a request back to exactly the row it was issued
    after: decoding it under the same order answers the row's value of the
    order field and its RID, and under any other field or direction it is
    refused. *)
Theorem cursor_roundtrip K x field desc bare spec token :
  codec_ok K -> go_value (get x bare) -> float_ok K (get x bare) spec -> spec_widths spec ->
  encodeCursor K x field desc bare spec = Ok token ->
  (exists rid, get x (str "rid") = VStr rid /\ rid <> [] /\ decodeCursor K token field desc spec = Ok (get x bare, rid))
  /\ (forall field' desc' spec' a, decodeCursor K token field' desc' spec' = Ok a -> field' = field /\ desc' = desc).
Proof. intros CO GV FO SW E. destruct (encode_cursor _ _ _ _ _ _ _ CO GV FO SW E) as (_ & rid & H1 & H2 & H3 & H4). eauto 6. Qed.

Lemma cursor_roundtrip_witness :
  let x := (3, post "ccc" "three" "ann" (-7) 1) in
  let spec := MkSpec kindInt 64 in
  exists token, encodeCursor demo_codec x (str "rank") true (str "rank") spec = Ok token
  /\ ((exists rid, get x (str "rid") = VStr rid /\ rid <> [] /\ decodeCursor demo_codec token (str "rank") true spec = Ok (get x (str "rank"), rid))
      /\ (forall field' desc' spec' a, decodeCursor demo_codec token field' desc' spec' = Ok a -> field' = str "rank" /\ desc' = true)).
Proof.
  intros x spec. destruct (encodeCursor demo_codec x (str "rank") true (str "rank") spec) as [token|e] eqn:E; [|vm_compute in E; discriminate E].
  exists token. split; [reflexivity|].
  apply (cursor_roundtrip demo_codec x (str "rank") true (str "rank") spec token); [apply demo_codec_ok| | | |exact E].
  - vm_compute. split; discriminate.
  - exact I.
  - discriminate.
Defined.

(** Offset pages cut one list: without pagination List answers every
    row asked for, once, in the order asked for; and page [p] of size [n]
    is the [n] of those rows after the first [(p - 1) * n], says rightly
    whether rows follow, and carries the same total. *)
Theorem List_pages D K s c opts tb whole p n :
  ocmp_ok (ocmp D) -> forallb pages_nothing opts = true -> page_ok p n -> ListRows D K s c opts tb = Ok whole ->
  NoDup (Items whole) /\ StronglySorted (order_le D (listed_keys s c opts)) (Items whole)
  /\ (forall x, x ∈ Items whole <-> listed D s c opts tb x)
  /\ ListRows D K s c (opts ++ [OPage p n]) tb
     = Ok (MkPage (take (Z.to_nat n) (drop (Z.to_nat ((p - 1) * n)) (Items whole))) p n
             (p * n <? Z.of_nat (length (Items whole))) (Total whole) []).
Proof.
  intros O F P H. destruct (read s c false opts) as [[tx cfg]|] eqn:R; [|by unfold ListRows in H; rewrite R in H].
  pose proof (read_paging _ _ _ _ _ _ F R) as G. rewrite (ListRows_whole D K s c opts tb tx cfg R G) in H.
  apply rbind_Ok in H as (t & T & H). destruct (fails D StSelect) eqn:Fs; [done|].
  rewrite (ListRows_paged D K s c opts tb tx cfg p n P R G), T. cbn [rbind]. rewrite Fs. unfold listed_keys, listed. rewrite R.
  remember (order_by D (order_keys cfg) (selected (vcmp D) s tx tb)) as rows eqn:Er. injection H as <-. cbn [Items Total].
  split; [rewrite Er, order_by_perm; apply NoDup_selected|]. split; [rewrite Er; by apply order_by_sorted|]. split.
  - intros x. rewrite Er, elem_of_order_by, elem_of_selected. naive_solver.
  - destruct P as (P1 & P2 & P3). rewrite cut_page_spec by lia. unfold offset_rows. rewrite length_drop. do 2 f_equal.
    destruct (Z.ltb_spec n (Z.of_nat (length rows - Z.to_nat ((p - 1) * n)))), (Z.ltb_spec (p * n) (Z.of_nat (length rows))); nia || done.
Qed.

(** Ann's posts by rank. *)
Definition by_rank : list where_option := [OCompare OpNe (str "title") (VStr (str "x")); OOrder (str "rank") false; OCount].

Lemma List_pages_witness :
  let s := posts true true in
  exists whole, ListRows demo_db demo_codec s ann by_rank some_posts = Ok whole
  /\ map fst (Items whole) = [3; 4; 1]
  /\ (NoDup (Items whole) /\ StronglySorted (order_le demo_db (listed_keys s ann by_rank)) (Items whole)
      /\ (forall x, x ∈ Items whole <-> listed demo_db s ann by_rank some_posts x)
      /\ ListRows demo_db demo_codec s ann (by_rank ++ [OPage 2 2]) some_posts
         = Ok (MkPage (take (Z.to_nat 2) (drop (Z.to_nat ((2 - 1) * 2)) (Items whole))) 2 2
                 (2 * 2 <? Z.of_nat (length (Items whole))) (StoreRead.Total whole) [])).
Proof.
  intros s.
  assert (C : match ListRows demo_db demo_codec s ann by_rank some_posts with Ok w => map fst (Items w) | Err _ => [] end = [3; 4; 1])
    by (vm_compute; reflexivity).
  destruct (ListRows demo_db demo_codec s ann by_rank some_posts) as [whole|e] eqn:E; [|discriminate C].
  exists whole. split; [reflexivity|]. split; [exact C|].
  apply (List_pages demo_db demo_codec s ann by_rank some_posts whole 2 2); [apply demo_ocmp_ok|reflexivity| |exact E].
  split; [|split]; vm_compute; try split; discriminate.
Defined.

(** [C26] Writes between two pages never shift a cursor.  Each page is read from
    whatever the table is by then and holds rows asked for of that table; the
    pages together are strictly in order; no RID comes twice with the same order
    value, so a row comes again only if a write moved it forward; and a row that
    is there, asked for and of one order value at every page is delivered
    exactly once, whatever else of it is written. *)
Theorem keyset_stable D K s c opts size tx cfg field col desc k spec tbs ps :
  keyset_request s c opts size tx cfg field col desc k spec -> db_ok D -> codec_ok K ->
  Forall (keyed D K (bare col) spec) tbs ->
  walk D K s c opts size [] tbs = Ok (Some ps) ->
  let rows := concat (map Items ps) in
  StronglySorted (fun x y => order_cmp D (keys col desc) x y = Lt) rows
  /\ NoDup (map (fun x => (get x (str "rid"), get x (bare col))) rows)
  /\ (forall i p, ps !! i = Some p -> exists tb, tbs !! i = Some tb /\ forall x, x ∈ Items p -> x ∈ selected (vcmp D) s tx tb)
  /\ (forall r v, (forall tb, tb ∈ tbs -> exists x, x ∈ selected (vcmp D) s tx tb /\ (get x (str "rid"), get x (bare col)) = (r, v)) ->
      exists x, List.filter (fun y => bool_decide (get y (str "rid") = r)) rows = [x] /\ get x (bare col) = v).
Proof.
  intros R DO CO KT W. destruct (walk_spec D K s c opts size tx cfg field col desc k spec R DO CO tbs KT None [] ps) as (S & _ & _); [done|done|].
  split; [done|]. split; [by apply (sorted_places D col desc DO)|]. split; [by apply (walk_pages D K s c opts size tx cfg field col desc k spec R DO CO tbs KT None [])|].
  intros r v. by apply (walk_once D K s c opts size tx cfg field col desc k spec R DO CO tbs [] ps).
Qed.

(** A keyset request of Ann's posts by rank, one row a page. *)
Definition rank_opts : list where_option := [OOrder (str "rank") false].
Definition rank_read : query * Config :=
  match read (posts true true) ann false rank_opts with Ok q => q | Err _ => (start_query, new_Config false) end.

Lemma rank_request :
  keyset_request (posts true true) ann rank_opts 1 rank_read.1 rank_read.2 (str "rank") (str "rank") false (KInt 64) (MkSpec kindInt 64).
Proof.
  split; try (vm_compute; reflexivity).
  - exists (KString, false). vm_compute. reflexivity.
  - discriminate.
  - vm_compute. split; discriminate.
Qed.

(** A post of Ann's comes between two pages, and one that was delivered is moved
    forward: it comes again at its new place. *)
Definition more_posts : table := <[5 := post "eee" "five" "ann" 2 1]> some_posts.
Definition moved_posts : table := <[3 := post "ccc" "three" "ann" 4 2]> more_posts.

Lemma keyset_stable_witness :
  let tbs := [some_posts; more_posts; moved_posts; moved_posts; moved_posts] in
  exists ps, walk demo_db demo_codec (posts true true) ann rank_opts 1 [] tbs = Ok (Some ps)
  /\ map (fun x => x.1) (concat (map Items ps)) = [3; 4; 5; 1; 3]
  /\ (let rows := concat (map Items ps) in
      exists x, List.filter (fun y => bool_decide (get y (str "rid") = VStr (str "aaa"))) rows = [x] /\ get x (str "rank") = VInt 3).
Proof.
  intros tbs.
  assert (C : match walk demo_db demo_codec (posts true true) ann rank_opts 1 [] tbs with
              | Ok (Some ps) => map (fun x => x.1) (concat (map Items ps)) | _ => []
              end = [3; 4; 5; 1; 3]) by (vm_compute; reflexivity).
  destruct (walk demo_db demo_codec (posts true true) ann rank_opts 1 [] tbs) as [[ps|]|e] eqn:W; [|discriminate C..].
  exists ps. split; [reflexivity|]. split; [exact C|].
  apply (keyset_stable demo_db demo_codec (posts true true) ann rank_opts 1 rank_read.1 rank_read.2 (str "rank") (str "rank") false (KInt 64) (MkSpec kindInt 64) tbs);
    [apply rank_request|apply demo_db_ok|apply demo_codec_ok| |exact W|].
  - repeat (apply Forall_cons_2; [apply keyed_check; vm_compute; reflexivity|]). apply Forall_nil_2.
  - intros tb Ht. exists (1, post "aaa" "one" "ann" 3 1).
    assert (I : Forall (fun tb => bool_decide ((1, post "aaa" "one" "ann" 3 1) ∈ selected (vcmp demo_db) (posts true true) rank_read.1 tb) = true) tbs).
    { repeat constructor; vm_compute; reflexivity. }
    rewrite Forall_forall in I. split; [apply (bool_decide_eq_true_1 _ (I tb Ht))|vm_compute; reflexivity].
Defined.

(** Following the cursors over a table that does not change ends, after
    at most one page more than there are rows, and answers exactly the rows
    asked for, once each, in the order asked for. *)
Theorem keyset_complete D K s c opts size tx cfg field col desc k spec tb n :
  keyset_request s c opts size tx cfg field col desc k spec -> db_ok D -> codec_ok K -> keyed D K (bare col) spec tb ->
  total D s c cfg opts tb = Ok n -> fails D StSelect = false ->
  (forall x, tb !! x.1 = Some x.2 -> exists token, encodeCursor K x field desc (bare col) spec = Ok token) ->
  exists ps, walk D K s c opts size [] (replicate (S (length (selected (vcmp D) s tx tb))) tb) = Ok (Some ps)
  /\ concat (map Items ps) = order_by D (keys col desc) (selected (vcmp D) s tx tb).
Proof.
  intros R DO CO KT T Fl En.
  assert (E0 : List.filter (after D col desc None) (selected (vcmp D) s tx tb) = selected (vcmp D) s tx tb).
  { clear. induction (selected (vcmp D) s tx tb) as [|x l IH]; [done|]. cbn. by rewrite IH. }
  pose proof (rows_after_sorted D K s tx col desc spec DO None tb KT) as So. unfold rows_after in So. rewrite E0 in So.
  edestruct (walk_ends D K s c opts size tx cfg field col desc k spec R DO CO tb n KT T Fl En) with (pos := @None (Z * row)) (cursor := @nil ascii)
    as [ps W]; [|done|].
  { unfold rows_after. rewrite order_by_perm, E0. reflexivity. }
  exists ps. split; [exact W|]. apply (keyset_sorted_unique D col desc DO); [|done|].
  all: destruct (walk_spec D K s c opts size tx cfg field col desc k spec R DO CO _ (Forall_replicate _ (S (length (selected (vcmp D) s tx tb))) tb KT) None [] ps) as (S & F & C); [done|exact W|].
  - done.
  - intros x. rewrite elem_of_order_by. split.
    + intros Hx. destruct (F x Hx) as (_ & tb' & Ht & Hs). by apply elem_of_replicate in Ht as [-> _].
    + intros Hx. apply C; [|done]. intros tb' [-> _]%elem_of_replicate. done.
Qed.

Lemma keyset_complete_witness :
  let s := posts true true in
  exists ps, walk demo_db demo_codec s ann rank_opts 1 []
      (replicate (S (length (selected (vcmp demo_db) s rank_read.1 some_posts))) some_posts) = Ok (Some ps)
  /\ concat (map Items ps) = order_by demo_db (keys (str "rank") false) (selected (vcmp demo_db) s rank_read.1 some_posts).
Proof.
  intros s. apply (keyset_complete demo_db demo_codec s ann rank_opts 1 rank_read.1 rank_read.2 (str "rank") (str "rank") false (KInt 64) (MkSpec kindInt 64) some_posts 0);
    [apply rank_request|apply demo_db_ok|apply demo_codec_ok|apply keyed_check; vm_compute; reflexivity|vm_compute; reflexivity|reflexivity|].
  intros x Hx. assert (T : (if encodeCursor demo_codec x (str "rank") false (bare (str "rank")) (MkSpec kindInt 64) then true else false) = true).
  { apply (all_rows (fun x => if encodeCursor demo_codec x (str "rank") false (bare (str "rank")) (MkSpec kindInt 64) then true else false) some_posts); [vm_compute; reflexivity|exact Hx]. }
  destruct (encodeCursor _ x _ _ _ _) as [token|]; [by exists token|discriminate T].
Defined.
