(* ===== verification/StoreLock.v ===== *)
(** What writes promise: the managed columns, the optimistic lock, and soft
    delete. *)

From Stdlib Require Import ZArith Lia List Ascii.
From stdpp Require Import base decidable list gmap strings sorting.
From S2P Require Import Prelude GoStrings StoreWhere Store StoreCursor StoreRead StoreList StoreKeyset StoreWrite StoreDemo.

(** ** Folds that may fail *)

Lemma rfold_inv {X A B} (I : A -> Prop) (f : A -> B -> result X A) l a a' :
  (forall a b a', I a -> f a b = Ok a' -> I a') -> I a -> rfold f l a = Ok a' -> I a'.
Proof. intros H. revert a. induction l as [|b l IH]; intros a Ia; cbn; [by intros [= <-]|]. intros (a1 & E & R)%rbind_Ok. eauto. Qed.

Lemma rfold_each {X B} (f : unit -> B -> result X unit) l u u' : rfold f l u = Ok u' -> forall b, b ∈ l -> f tt b = Ok tt.
Proof.
  revert u. induction l as [|b l IH]; intros u; cbn; [by intros _ b ?%elem_of_nil|].
  intros (u1 & E & R)%rbind_Ok b' [->|Hb]%elem_of_cons; [by destruct u, u1|eauto].
Qed.

(** ** Changes never touch a managed column *)

Definition unmanaged (m : gmap gostring value) : Prop := forall col, protected col = true -> m !! col = None.

Lemma unmanaged_insert m col v : protected col = false -> unmanaged m -> unmanaged (<[col := v]> m).
Proof. intros N U c Hc. rewrite lookup_insert_ne by congruence. by apply U. Qed.

Lemma build_unmanaged s ch b : build s ch = Ok b -> unmanaged (payload b).
Proof.
  destruct ch as [[kv|p]|]; cbn [build]; [| |done].
  - unfold buildSet. destruct (bool_decide _); [done|]. apply (rfold_inv (fun b => unmanaged (payload b))); [|done].
    intros b0 [n v] b1 I. unfold set_entry. destruct (Column _ _) as [col|]; [|done].
    destruct (protected col) eqn:P; [done|]. intros [= <-]. by apply unmanaged_insert.
  - unfold build_patch. destruct (plan p) as [fs|]; [|done]. intros (u & C & H)%rbind_Ok.
    assert (G : forall fs' b0, (forall f, f ∈ fs' -> f ∈ fs) -> unmanaged (payload b0) -> unmanaged (payload (fold_left (patch_entry s) fs' b0))).
    { induction fs' as [|f fs' IH]; intros b0 Hf I; [done|]. cbn. apply IH; [intros g Hg; apply Hf; by right|].
      unfold patch_entry. destruct (pf_value f); [|done]. pose proof (rfold_each _ _ _ _ C f (Hf f ltac:(by left))) as Cf.
      unfold check_field in Cf. destruct (updateFields s !! pf_public f) as [col|]; [|done]. destruct (kinds s !! col); [|done].
      destruct (protected col) eqn:P; [done|]. by apply unmanaged_insert. }
    destruct (p_onto p) as [| |obj]; [| done |]; destruct (bool_decide (_ = ∅)); try done; injection H as <-; by apply G.
Qed.

(** ** One UPDATE *)

Lemma get_column i r col : seq_eqb col (str "id") = false -> get (i, r) col = default VNull (r !! col).
Proof. unfold get. by intros ->. Qed.

Definition hit (E : Env) (s : store) (tx : query) (i : Z) (r : row) : bool := matches (vcmp (db E)) s tx (i, r).

Lemma update_rows_spec E s tx f tb n tb' : update_rows E s tx f tb = Ok (n, tb') ->
  n = Z.of_nat (length (selected (vcmp (db E)) s tx tb))
  /\ (forall i, tb' !! i = fmap (fun r => if hit E s tx i r then f r else r) (tb !! i)).
Proof.
  unfold update_rows. destruct (fails _ _); [done|]. destruct (dup E _); [done|]. intros [= <- <-]. split; [done|].
  intros i. rewrite map_lookup_imap. by destruct (tb !! i).
Qed.

Lemma delete_rows_spec E s tx tb n tb' : delete_rows E s tx tb = Ok (n, tb') ->
  n = Z.of_nat (length (selected (vcmp (db E)) s tx tb))
  /\ (forall i, tb' !! i = r ← tb !! i; if hit E s tx i r then None else Some r).
Proof.
  unfold delete_rows. destruct (fails _ _); [done|]. intros [= <- <-]. split; [done|]. intros i. by rewrite map_lookup_imap.
Qed.

Lemma selected_some E s tx tb : 0 < Z.of_nat (length (selected (vcmp (db E)) s tx tb)) <-> exists i r, tb !! i = Some r /\ hit E s tx i r = true.
Proof.
  split.
  - destruct (selected _ _ _ _) as [|[i r] l] eqn:S; [cbn; lia|]. intros _.
    assert ((i, r) ∈ selected (vcmp (db E)) s tx tb) as [H1 H2]%elem_of_selected by (rewrite S; by left). exists i, r. done.
  - intros (i & r & H1 & H2). assert ((i, r) ∈ selected (vcmp (db E)) s tx tb) as H by by apply elem_of_selected.
    destruct (selected _ _ _ _); [by apply elem_of_nil in H|]. cbn. lia.
Qed.

(** The rows a lock lets through. *)
Lemma hit_version E s v tx i r : hit E s (version_is s v tx) i r = true ->
  hit E s tx i r = true /\ (0 < v -> sat_cmp (vcmp (db E)) OpEq (get (i, r) (str "version")) (VInt v) = true).
Proof.
  unfold version_is. destruct (Z.gtb_spec v 0) as [V|V]; [|intros H; split; [done|lia]].
  unfold hit, matches, visible, where_, sat_all. cbn [unscoped conds]. rewrite forallb_app. cbn [forallb sat].
  change (s_table s ++ str ".version") with (s_table s ++ str "." ++ str "version").
  rewrite bare_qualified by (apply dot_free; reflexivity). rewrite !andb_true_iff. tauto.
Qed.

(** Two integers are equal in a condition exactly when they are. *)
Definition ints_compare (E : Env) : Prop := forall a b, sat_cmp (vcmp (db E)) OpEq (VInt a) (VInt b) = true <-> a = b.

(** The rows of a model have a version, an integer. *)
Definition versioned (tb : table) : Prop := forall i r, tb !! i = Some r -> exists v, r !! str "version" = Some (VInt v).

Lemma version_known tb i r : versioned tb -> tb !! i = Some r -> r !! str "version" = Some (VInt (version_of r)).
Proof. intros Vd H. destruct (Vd i r H) as [v Ev]. unfold version_of. by rewrite Ev. Qed.

Lemma hit_lock E s v tx tb i r : ints_compare E -> versioned tb -> tb !! i = Some r -> 0 < v ->
  hit E s (version_is s v tx) i r = true -> version_of r = v.
Proof.
  intros IC Vd H V Hh. apply hit_version in Hh as [_ Hh]. specialize (Hh V). rewrite get_column in Hh by reflexivity.
  rewrite (version_known tb i r Vd H) in Hh. by apply IC in Hh.
Qed.

(** ** Update *)

(** The lock of an update. *)
Definition lock_of (cfg : Config) (b : built) : Z := if Version cfg >? 0 then Version cfg else lock b.

Lemma Update_Ok E s c loc ch opts tb tb' obj : Update E s c loc ch opts tb = (tb', None, obj) ->
  exists b l tx cfg, loc = Some l /\ build s ch = Ok b /\ write s c loc opts = Ok (tx, cfg)
  /\ (forall i, tb' !! i = fmap (fun r => if hit E s (version_is s (lock_of cfg b) tx) i r then updated E (payload b) r else r) (tb !! i))
  /\ (exists i r, tb !! i = Some r /\ hit E s (version_is s (lock_of cfg b) tx) i r = true)
  /\ obj = fmap (fun m => let m := <[str "updated_at" := VTime (now E)]> m in
                          if lock_of cfg b >? 0 then <[str "version" := VInt (lock_of cfg b + 1)]> m else m) (model b).
Proof.
  unfold Update. destruct (build s ch) as [b|]; [|done]. destruct (write s c loc opts) as [[tx cfg]|] eqn:W; [|done].
  destruct loc as [l|]; [|done]. destruct (BeforeUpdateHook _ _ _); [done|]. fold (lock_of cfg b).
  destruct (update_rows _ _ _ _ _) as [[n tb1]|] eqn:U; [|done]. apply update_rows_spec in U as [-> U].
  destruct (Z.eqb_spec (Z.of_nat (length (selected (vcmp (db E)) s (version_is s (lock_of cfg b) tx) tb))) 0) as [Z0|Z0]; [done|].
  intros [= -> <-]. exists b, l, tx, cfg. split; [done|]. split; [done|]. split; [done|]. split; [done|]. split; [|done].
  apply selected_some. lia.
Qed.

Lemma Update_Err E s c loc ch opts tb tb' e obj : Update E s c loc ch opts tb = (tb', Some e, obj) -> tb' = tb.
Proof.
  unfold Update. destruct (build s ch) as [b|]; [|by intros [= <-]]. destruct (write s c loc opts) as [[tx cfg]|]; [|by intros [= <-]].
  destruct loc; [|by intros [= <-]]. destruct (BeforeUpdateHook _ _ _); [by intros [= <-]|].
  destruct (update_rows _ _ _ _ _) as [[n tb1]|]; [|by intros [= <-]]. destruct (n =? 0); by intros [= <-].
Qed.

Lemma updated_version E changes r : version_of (updated E changes r) = version_of r + 1.
Proof. unfold updated, version_of at 1. by rewrite lookup_insert_ne, lookup_insert_eq. Qed.

(** The columns an update may write besides its changes. *)
Definition advanced (col : gostring) : Prop := col = str "version" \/ col = str "updated_at".

Lemma updated_lookup E changes r col : ~ advanced col -> updated E changes r !! col = (changes ∪ r) !! col.
Proof. unfold advanced, updated. intros N. rewrite !lookup_insert_ne by (intros <-; tauto). done. Qed.

(** A successful update writes what it was asked and nothing else: every
    row the locator, the options and the lock select - at least one, and none
    at another version - has its version advanced by one, updated_at set,
    and of its other columns exactly the named changes written, none of them
    managed; every other row stays as it is; the object given to Onto shows
    the new version.  A failed update changes no row. *)
Theorem Update_writes E s c loc ch opts tb tb' obj res :
  ints_compare E -> versioned tb -> Update E s c loc ch opts tb = (tb', res, obj) ->
  match res with
  | Some _ => tb' = tb
  | None =>
      exists b tx cfg, build s ch = Ok b /\ write s c loc opts = Ok (tx, cfg) /\ unmanaged (payload b)
      /\ (exists i r, tb !! i = Some r /\ hit E s (version_is s (lock_of cfg b) tx) i r = true)
      /\ (0 < lock_of cfg b -> forall o, obj = Some o -> version_of o = lock_of cfg b + 1)
      /\ forall i, match tb !! i with
                   | None => tb' !! i = None
                   | Some r =>
                       if hit E s (version_is s (lock_of cfg b) tx) i r then
                         (0 < lock_of cfg b -> version_of r = lock_of cfg b)
                         /\ exists r', tb' !! i = Some r' /\ version_of r' = version_of r + 1
                            /\ r' !! str "updated_at" = Some (VTime (now E))
                            /\ forall col, ~ advanced col -> r' !! col = (payload b ∪ r) !! col
                       else tb' !! i = Some r
                   end
  end.
Proof.
  intros IC Vd U. destruct res as [e|]; [by apply Update_Err in U|].
  apply Update_Ok in U as (b & l & tx & cfg & -> & B & W & T & Hh & O). exists b, tx, cfg.
  split; [done|]. split; [done|]. split; [by eapply build_unmanaged|]. split; [done|]. split.
  - intros L o ->. destruct (model b) as [m|]; [|done]. apply (inj Some) in O as ->. destruct (Z.gtb_spec (lock_of cfg b) 0); [|lia].
    unfold version_of. by rewrite lookup_insert_eq.
  - intros i. rewrite T. destruct (tb !! i) as [r|] eqn:Ti; [|done]. cbn [fmap option_fmap option_map].
    destruct (hit _ _ _ i r) eqn:Hi; [|done]. split; [intros L; by eapply hit_lock|]. exists (updated E (payload b) r).
    split; [done|]. split; [apply updated_version|]. split; [by unfold updated; rewrite lookup_insert_eq|].
    intros col N. by apply updated_lookup.
Qed.

(** A request that sets a title, onto the post it was read as. *)
Definition retitle (obj : row) : option Changes :=
  Some (Patch (MkPatch (Some [PatchField (str "title") true (Some (VStr (str "new"))); PatchField (str "rank") true None]) NoVersion (Onto obj))).

Lemma versioned_check tb : forallb (fun x => match x.2 !! str "version" with Some (VInt _) => true | _ => false end) (map_to_list tb) = true -> versioned tb.
Proof.
  intros H i r Hi. pose proof (all_rows _ _ H (i, r) Hi) as V. cbn [snd] in V. destruct (r !! str "version") as [[]|]; try done. eauto.
Qed.

Lemma Update_writes_witness :
  let ch := retitle (post "aaa" "one" "ann" 3 1) in
  exists tb' obj, Update demo_env (posts true true) ann (Some (RID (str "aaa"))) ch [] some_posts = (tb', None, obj)
  /\ exists b tx cfg, build (posts true true) ch = Ok b /\ write (posts true true) ann (Some (RID (str "aaa"))) [] = Ok (tx, cfg)
  /\ unmanaged (payload b).
Proof.
  intros ch.
  destruct (Update demo_env (posts true true) ann (Some (RID (str "aaa"))) ch [] some_posts) as [[tb' res] obj] eqn:U.
  assert (R : (Update demo_env (posts true true) ann (Some (RID (str "aaa"))) ch [] some_posts).1.2 = None) by (vm_compute; reflexivity).
  rewrite U in R. cbn [fst snd] in R. subst res. exists tb', obj. split; [reflexivity|].
  destruct (Update_writes demo_env (posts true true) ann (Some (RID (str "aaa"))) ch [] some_posts tb' obj None) as (b & tx & cfg & B & W & P & _);
    [exact demo_ints|apply versioned_check; vm_compute; reflexivity|exact U|]. exists b, tx, cfg. auto.
Defined.

(** ** Histories of writes *)

Inductive op :=
| OpUpdate (c : ctx) (loc : option Locator) (ch : option Changes) (opts : list where_option)
| OpDelete (c : ctx) (loc : option Locator) (opts : list where_option)
| OpRestore (c : ctx) (loc : option Locator)
| OpCreate (c : ctx) (objs : list row).

Definition run_op (s : store) (tb : table) (e : Env * op) : table :=
  match e.2 with
  | OpUpdate c loc ch opts => (Update e.1 s c loc ch opts tb).1.1
  | OpDelete c loc opts => (Delete e.1 s c loc opts tb).1
  | OpRestore c loc => (Restore e.1 s c loc tb).1
  | OpCreate c objs => (BatchCreate e.1 s c objs tb).1
  end.

Definition run_history (s : store) (h : list (Env * op)) (tb : table) : table := fold_left (run_op s) h tb.

(** What a write may do to a row: remove it, leave it, or advance its version
    by one. *)
Definition moved (r : row) (o : option row) : Prop :=
  match o with
  | None => True
  | Some r' => r' = r \/ version_of r' = version_of r + 1
  end.

Lemma incr_version r : version_of (incr r) = version_of r + 1.
Proof. unfold incr, version_of at 1. by rewrite lookup_insert_eq. Qed.

Lemma version_insert col v r : col <> str "version" -> version_of (<[col := v]> r) = version_of r.
Proof. intros N. unfold version_of. by rewrite lookup_insert_ne. Qed.

Lemma trashed_version E r : version_of (trashed E r) = version_of r + 1.
Proof. unfold trashed, touch. rewrite !version_insert by done. apply incr_version. Qed.

Lemma restored_version E r : version_of (restored E r) = version_of r + 1.
Proof. unfold restored, touch. rewrite !version_insert by done. apply incr_version. Qed.

(** The keys an operation leaves to the rows they had. *)
Lemma update_rows_moved E s tx f tb n tb' i : (forall r, version_of (f r) = version_of r + 1) ->
  update_rows E s tx f tb = Ok (n, tb') ->
  match tb !! i with Some r => moved r (tb' !! i) | None => tb' !! i = None end.
Proof.
  intros V U. apply update_rows_spec in U as [_ U]. rewrite U. destruct (tb !! i) as [r|]; [|done]. cbn.
  destruct (hit E s tx i r); [by right|by left].
Qed.

Lemma delete_rows_moved E s tx tb n tb' i : delete_rows E s tx tb = Ok (n, tb') ->
  match tb !! i with Some r => moved r (tb' !! i) | None => tb' !! i = None end.
Proof.
  intros U. apply delete_rows_spec in U as [_ U]. rewrite U. destruct (tb !! i) as [r|]; [|done]. cbn.
  destruct (hit E s tx i r); [done|by left].
Qed.

(** A table in which every row moved at most, and key [i] was not given anew. *)
Definition stepped (i : Z) (tb tb' : table) : Prop :=
  match tb !! i with Some r => moved r (tb' !! i) | None => tb' !! i = None end.

Lemma stepped_refl i tb : stepped i tb tb.
Proof. unfold stepped. destruct (tb !! i) eqn:E; [by left|done]. Qed.
#[local] Hint Resolve stepped_refl : chok.

Lemma Update_stepped E s c loc ch opts tb i : stepped i tb (Update E s c loc ch opts tb).1.1.
Proof.
  destruct (Update E s c loc ch opts tb) as [[tb' [e|]] obj] eqn:U; cbn [fst snd].
  - apply Update_Err in U as ->. apply stepped_refl.
  - apply Update_Ok in U as (b & l & tx & cfg & _ & _ & _ & T & _). unfold stepped. rewrite T.
    destruct (tb !! i) as [r|]; [|done]. cbn. destruct (hit _ _ _ i r); [right; apply updated_version|by left].
Qed.

Lemma Delete_stepped E s c loc opts tb i : stepped i tb (Delete E s c loc opts tb).1.
Proof.
  unfold Delete. destruct (write s c loc opts) as [[tx cfg]|]; [|apply stepped_refl]. destruct loc as [l|]; [|apply stepped_refl].
  destruct (BeforeDeleteHook s c); [apply stepped_refl|]. destruct (soft s).
  - destruct (update_rows _ _ _ _ _) as [[n tb']|] eqn:U; [|apply stepped_refl]. destruct (_ && _); [apply stepped_refl|].
    eapply update_rows_moved, U. apply trashed_version.
  - destruct (delete_rows _ _ _ _) as [[n tb']|] eqn:U; [|apply stepped_refl]. destruct (_ && _); [apply stepped_refl|].
    eapply delete_rows_moved, U.
Qed.

Lemma Restore_stepped E s c loc tb i : stepped i tb (Restore E s c loc tb).1.
Proof.
  unfold Restore. destruct (negb (soft s)); [apply stepped_refl|].
  destruct (write s c loc [OOnlyTrashed]) as [[tx cfg]|]; [|apply stepped_refl]. destruct loc as [l|]; [|apply stepped_refl].
  destruct (update_rows _ _ _ _ _) as [[n tb']|] eqn:U; [|apply stepped_refl].
  pose proof (update_rows_moved _ _ _ _ _ _ _ i (restored_version E) U) as M. destruct (n >? 0); [done|].
  destruct (rbind _ _) as [[]|]; [done|apply stepped_refl..].
Qed.

Lemma insert_all_stepped E objs tb i : (forall t, next_id E t <> i) -> stepped i tb (insert_all E objs tb).1.
Proof.
  intros N. unfold insert_all. destruct (rfold _ objs _) as [[tb' rest]|] eqn:R; [|apply stepped_refl].
  destruct (fails _ _); [apply stepped_refl|]. destruct (dup E tb'); [apply stepped_refl|]. cbn [fst].
  assert (I : tb' !! i = tb !! i).
  { apply (rfold_inv (fun a : table * list Z => a.1 !! i = tb !! i)) in R; [done| |done]. clear R. intros [t rs] obj [t' rs'] I.
    unfold insert_row. intros ([o rs''] & _ & [= <- <-])%rbind_Ok. cbn [fst] in *. rewrite <- I. apply lookup_insert_ne, N. }
  unfold stepped. rewrite I. destruct (tb !! i); [by left|done].
Qed.

Lemma run_op_stepped s tb e i : (forall t, next_id e.1 t <> i) -> stepped i tb (run_op s tb e).
Proof.
  intros N. unfold run_op. destruct e as [E [c loc ch opts|c loc opts|c loc|c objs]]; cbn [fst snd].
  - apply Update_stepped.
  - apply Delete_stepped.
  - apply Restore_stepped.
  - unfold BatchCreate. destruct objs as [|o objs]; [apply stepped_refl|]. destruct (before_all s c _); [by apply insert_all_stepped|apply stepped_refl].
Qed.

(** Over a history a row is gone, as it was, or at a later version. *)
Lemma history_version s h i : Forall (fun e => forall t, next_id e.1 t <> i) h -> forall tb,
  match tb !! i with
  | None => run_history s h tb !! i = None
  | Some r => match run_history s h tb !! i with None => True | Some r' => r' = r \/ version_of r < version_of r' end
  end.
Proof.
  induction 1 as [|e h N _ IH]; intros tb; cbn; [destruct (tb !! i); [by left|done]|].
  pose proof (run_op_stepped s tb e i N) as S. unfold stepped, moved in S. specialize (IH (run_op s tb e)).
  destruct (tb !! i) as [r|].
  - destruct (run_op s tb e !! i) as [r1|] eqn:E1; [|fold (run_history s h (run_op s tb e)); by rewrite IH].
    fold (run_history s h (run_op s tb e)). destruct (run_history s h (run_op s tb e) !! i) as [r2|]; [|done].
    destruct S as [->|S], IH as [->|IH]; auto; right; lia.
  - rewrite S in IH. done.
Qed.

(** [C4] No update is lost: when an update locked on the version at which a
    caller read a row changes that row - whatever updates, deletes, restores
    and creates ran in between, by anyone - the row is still exactly what the
    caller read, and the update is applied to that. *)
Theorem no_lost_update s h tb i r E c loc ch opts b tx cfg tb' obj :
  let tb1 := run_history s h tb in
  ints_compare E -> versioned tb1 ->
  tb !! i = Some r -> Forall (fun e => forall t, next_id e.1 t <> i) h ->
  build s ch = Ok b -> write s c loc opts = Ok (tx, cfg) -> 0 < lock_of cfg b -> lock_of cfg b = version_of r ->
  Update E s c loc ch opts tb1 = (tb', None, obj) -> tb' !! i <> tb1 !! i ->
  tb1 !! i = Some r /\ tb' !! i = Some (updated E (payload b) r).
Proof.
  intros tb1 IC Vd H0 Hk Hb Hw Hl Hv U Hi. pose proof (history_version s h i Hk tb) as HV. rewrite H0 in HV. fold tb1 in HV.
  apply Update_Ok in U as (b' & l & tx' & cfg' & -> & B & W & T & _ & _). rewrite Hb in B. injection B as <-.
  rewrite Hw in W. injection W as <- <-. rewrite T in *. destruct (tb1 !! i) as [r1|] eqn:E1; [|done]. cbn in *.
  destruct (hit E s (version_is s (lock_of cfg b) tx) i r1) eqn:Hh; [|done].
  apply (hit_lock E s _ tx tb1 i r1 IC Vd E1 Hl) in Hh. destruct HV as [->|HV]; [done|]. lia.
Qed.

(** Bob touches another post of his, and Ann creates one, before Ann's update. *)
Definition meanwhile : list (Env * op) :=
  [(demo_env, OpUpdate bob (Some (RID (str "bbb"))) (Some (Set_ {[ str "rank" := VInt 9 ]})) []);
   (demo_env, OpCreate ann [{[ str "title" := VStr (str "more") ]}]);
   (demo_env, OpUpdate bob (Some (RID (str "aaa"))) (Some (Set_ {[ str "rank" := VInt 9 ]})) [])].

Lemma no_lost_update_witness :
  let s := posts true true in
  let ch := retitle (post "aaa" "one" "ann" 3 1) in
  let tb1 := run_history s meanwhile some_posts in
  exists b (tb' : table), build s ch = Ok b
  /\ tb1 !! 1 = Some (post "aaa" "one" "ann" 3 1) /\ tb' !! 1 = Some (updated demo_env (payload b) (post "aaa" "one" "ann" 3 1)).
Proof.
  intros s ch tb1. set (loc := Some (RID (str "aaa"))).
  assert (L : match build s ch, write s ann loc [] with Ok b, Ok (_, cfg) => lock_of cfg b | _, _ => 0 end = 1) by (vm_compute; reflexivity).
  assert (R : (Update demo_env s ann loc ch [] tb1).1.2 = None) by (vm_compute; reflexivity).
  assert (N : (version_of <$> ((Update demo_env s ann loc ch [] tb1).1.1 !! 1)) = Some 2) by (vm_compute; reflexivity).
  assert (V : versioned tb1) by (apply versioned_check; vm_compute; reflexivity).
  assert (N1 : (version_of <$> tb1 !! 1) = Some 1) by (vm_compute; reflexivity).
  assert (H0 : some_posts !! 1 = Some (post "aaa" "one" "ann" 3 1)) by apply lookup_insert_eq.
  assert (V0 : 1 = version_of (post "aaa" "one" "ann" 3 1)) by (vm_compute; reflexivity).
  assert (K : Forall (fun e : Env * op => forall t, next_id e.1 t <> 1) meanwhile) by (repeat constructor; intros t; discriminate).
  destruct (build s ch) as [b|e] eqn:B; [|discriminate L].
  destruct (write s ann loc []) as [[tx cfg]|e] eqn:W; [|discriminate L].
  destruct (Update demo_env s ann loc ch [] tb1) as [[tb' res] obj] eqn:U. cbn [fst snd] in R, N. subst res.
  exists b, tb'. split; [reflexivity|].
  apply (no_lost_update s meanwhile some_posts 1 _ demo_env ann loc ch [] b tx cfg tb' obj demo_ints V H0 K B W); [rewrite L; reflexivity|by rewrite L|exact U|].
  intros E. assert (X : Some 2 = Some 1) by (etransitivity; [symmetry; exact N|]; rewrite E; exact N1). discriminate X.
Defined.
