(* ===== verification/StoreFence.v ===== *)
(** The owner fence: what a caller reads is what it would read were other
    owners' rows not there, and what it writes leaves them as they are. *)

From Stdlib Require Import ZArith Lia List Ascii.
From stdpp Require Import base decidable list gmap strings sorting.
From S2P Require Import Prelude GoStrings StoreWhere Store StoreCursor StoreRead StoreList StoreKeyset StoreWrite StoreDemo StoreLock.

(** ** Permuted rows sort alike *)

(** Rows of a table the order tells apart. *)
Definition told_apart (D : Db) (keys : list (gostring * bool)) (tb : table) : Prop :=
  forall x y, tb !! x.1 = Some x.2 -> tb !! y.1 = Some y.2 -> order_cmp D keys x y = Eq -> x = y.

Lemma order_by_permuted D keys l1 l2 : ocmp_ok (ocmp D) ->
  (forall x y, x ∈ l1 -> y ∈ l1 -> order_cmp D keys x y = Eq -> x = y) -> l1 ≡ₚ l2 -> order_by D keys l1 = order_by D keys l2.
Proof.
  intros O T P. pose proof (order_by_sorted D O keys l1) as S1. pose proof (order_by_sorted D O keys l2) as S2.
  assert (Q : order_by D keys l1 ≡ₚ order_by D keys l2) by by rewrite !order_by_perm.
  assert (T' : forall x y, x ∈ order_by D keys l1 -> y ∈ order_by D keys l1 -> order_cmp D keys x y = Eq -> x = y).
  { intros x y. rewrite !elem_of_order_by. apply T. }
  clear -S1 S2 Q T' O. revert S2 Q. generalize (order_by D keys l2) as m2. revert T'. induction S1 as [|x m1 S1 IH F1]; intros T' m2 S2 Q.
  - by apply Permutation_nil_l in Q as ->.
  - destruct S2 as [|y m2 S2 F2]; [by apply Permutation_nil_r in Q|]. rewrite Forall_forall in F1, F2.
    assert (x = y) as ->.
    { assert (x ∈ y :: m2) as [|Hx]%elem_of_cons by (rewrite <- Q; by left); [done|].
      assert (y ∈ x :: m1) as [|Hy]%elem_of_cons by (rewrite Q; by left); [done|].
      apply T'; [by left|by right|]. pose proof (F1 y Hy) as L1. pose proof (F2 x Hx) as L2. unfold order_le in *.
      rewrite (order_cmp_opp D O keys x y) in L2. by destruct (order_cmp D keys x y). }
    f_equal. apply IH; [|done|by apply Permutation_cons_inv in Q]. intros a b Ha Hb. apply T'; by right.
Qed.

Section fence.
Context (D : Db) (K : Codec) (s : store) (c : ctx).

(** Whether a row is one the caller may see. *)
Definition mine (x : Z * row) : bool :=
  match caller c with
  | None => false
  | Some p => isAdmin s p || sat_cmp (vcmp D) OpEq (get x (str "owner_id")) (VStr (UserID p))
  end.

(** A table without the rows the caller may not see. *)
Definition visible_to (tb : table) : table := filter (fun x => mine x = true) tb.

Lemma visible_to_lookup tb x : visible_to tb !! x.1 = Some x.2 <-> tb !! x.1 = Some x.2 /\ mine x = true.
Proof. destruct x as [i r]. unfold visible_to. by rewrite map_lookup_filter_Some. Qed.

(** A query that selects none of the others. *)
Definition fenced (tx : query) : Prop := forall x, sat_all (vcmp D) (get x) (conds tx) = true -> mine x = true.

Lemma fenced_where tx cs : fenced tx -> fenced (where_ cs tx).
Proof. intros F x. cbn [where_ conds]. unfold sat_all. rewrite forallb_app, andb_true_iff. intros [H _]. by apply F. Qed.

Lemma fenced_same tx tx' : conds tx' = conds tx -> fenced tx -> fenced tx'.
Proof. unfold fenced. by intros ->. Qed.

Lemma selected_fenced tx tb : fenced tx -> selected (vcmp D) s tx tb ≡ₚ selected (vcmp D) s tx (visible_to tb).
Proof.
  intros F. apply NoDup_Permutation; [apply NoDup_selected..|]. intros x. rewrite !elem_of_selected, visible_to_lookup.
  split; [|tauto]. intros [H M]. unfold matches in M. pose proof M as [_ S]%andb_true_iff. auto.
Qed.

Lemma selected_fenced_length tx tb : fenced tx ->
  length (selected (vcmp D) s tx tb) = length (selected (vcmp D) s tx (visible_to tb)).
Proof. intros F. by rewrite (selected_fenced tx tb F). Qed.

Lemma selected_fenced_order keys tx tb : ocmp_ok (ocmp D) -> told_apart D keys tb -> fenced tx ->
  order_by D keys (selected (vcmp D) s tx tb) = order_by D keys (selected (vcmp D) s tx (visible_to tb)).
Proof.
  intros O T F. apply order_by_permuted; [done| |by apply selected_fenced].
  intros x y [Hx _]%elem_of_selected [Hy _]%elem_of_selected. by apply T.
Qed.

Context (OW : owned s = true).

Lemma ownerScope_fenced tx tx' : ownerScope s c tx = Ok tx' -> fenced tx'.
Proof.
  unfold ownerScope. intros H x Sx. unfold mine. destruct (caller c) as [p|]; [|done]. destruct (isAdmin s p); [done|].
  injection H as <-. cbn [where_ conds] in Sx. unfold sat_all in Sx. rewrite forallb_app in Sx. apply andb_true_iff in Sx as [_ Sx].
  cbn [forallb owner_is sat] in Sx. rewrite andb_true_r in Sx. change (s_table s ++ str ".owner_id") with (s_table s ++ str "." ++ str "owner_id") in Sx.
  rewrite bare_qualified in Sx by (apply dot_free; reflexivity). done.
Qed.

Lemma scoped_fenced tx tx' : scoped s c tx = Ok tx' -> fenced tx'.
Proof.
  unfold scoped. rewrite OW. intros (tx1 & E & R)%rbind_Ok. apply ownerScope_fenced in E. revert R. apply (rfold_inv fenced); [|done].
  intros a f a' Fa. unfold custom_scope. destruct (f c) as [[cs|]|]; [|done..]. intros [= <-]. by apply fenced_where.
Qed.

Lemma readScoped_fenced tx tx' : readScoped s c tx = Ok tx' -> fenced tx'.
Proof.
  unfold readScoped. destruct (scoped s c tx) as [t|e] eqn:E; [intros [= <-]; by eapply scoped_fenced|].
  destruct e; try done. intros [= <-] x. cbn [where_ conds]. unfold sat_all. rewrite forallb_app. cbn. by rewrite andb_false_r.
Qed.

(** Preloads add no condition. *)
Lemma preload1_conds tx r tx' : preload1 s c tx r = Ok tx' -> conds tx' = conds tx.
Proof.
  unfold preload1. intros (tx1 & W & H)%rbind_Ok. assert (conds tx1 = conds tx) as <-.
  { revert W. generalize (relations s) as rels. generalize (@nil ascii) as path. revert tx. induction (split "." r) as [|p parts IH]; intros tx path rels; cbn; [by intros [= <-]|].
    destruct (rels !! p) as [m|]; [|done]. destruct (schemas s !! m) as [sch|]; [|done]. intros H1%IH. rewrite H1.
    by destruct (associationFence s c sch). }
  injection H as <-. by destruct (preloads tx1 !! r).
Qed.

Lemma preload_conds tx r tx' : preload s c tx r = Ok tx' -> conds tx' = conds tx.
Proof.
  unfold preload. destruct (_ || _); [|apply preload1_conds].
  apply (rfold_inv (fun t => conds t = conds tx)); [|done]. intros a b a' Ea E. by rewrite (preload1_conds _ _ _ E).
Qed.

Lemma apply_fenced tx fo opts tx' cfg : fenced tx -> apply s c tx fo opts = Ok (tx', cfg) -> fenced tx'.
Proof.
  intros F. unfold apply. destruct (apply_options _ _ _) as [[cs cf]|]; [|done]. intros (tx1 & P & [= <- <-])%rbind_Ok.
  assert (F1 : fenced (trash_scope s cf (where_ cs tx))).
  { pose proof (fenced_where _ cs F) as F0. unfold trash_scope. destruct (OnlyTrashed cf); [destruct (soft s)|destruct (WithTrashed cf)].
    - by apply fenced_where, (fenced_same (where_ cs tx)).
    - by apply fenced_where.
    - by apply (fenced_same (where_ cs tx)).
    - done. }
  destruct (FiltersOnly cf); [by injection P as <-|]. revert P. apply (rfold_inv fenced); [|done].
  intros a r a' Fa E. by eapply fenced_same; [eapply preload_conds|].
Qed.

Lemma read_fenced fo opts tx cfg : read s c fo opts = Ok (tx, cfg) -> fenced tx.
Proof. intros (tx1 & E & A)%rbind_Ok. eapply apply_fenced; [|exact A]. by eapply readScoped_fenced. Qed.

Lemma locate_fenced l tx tx' : fenced tx -> locate s l tx = Ok tx' -> fenced tx'.
Proof.
  intros F. destruct l as [r|i|opts]; cbn; [intros [= <-]; by apply fenced_where..|].
  destruct (apply_options _ _ _) as [[cs cf]|]; [|done]. destruct (HasFilter cf); [|done]. intros [= <-]. by apply fenced_where.
Qed.

Lemma write_fenced loc opts tx cfg : write s c loc opts = Ok (tx, cfg) -> fenced tx.
Proof.
  unfold write. destruct loc as [l|]; [|done]. intros (tx1 & E & H)%rbind_Ok. apply rbind_Ok in H as ([tx2 cf] & A & H).
  apply rbind_Ok in H as (tx3 & L & [= <- <-]). eapply locate_fenced; [|exact L]. eapply apply_fenced; [|exact A]. by eapply scoped_fenced.
Qed.

(** *** Reads *)

(** What the keys of a table promise: numeric keys and RIDs tell rows apart. *)
Record apart (tb : table) : Prop := {
  apart_ids a b : ocmp D (VUint a) (VUint b) = Eq -> a = b;
  apart_rids x y : tb !! x.1 = Some x.2 -> tb !! y.1 = Some y.2 ->
    ocmp D (get x (str "rid")) (get y (str "rid")) = Eq -> x.1 = y.1;
}.

Lemma same_row (tb : table) (x y : Z * row) : tb !! x.1 = Some x.2 -> tb !! y.1 = Some y.2 -> x.1 = y.1 -> x = y.
Proof. destruct x as [i r], y as [j r']. cbn. intros Hx Hy ->. congruence. Qed.

Lemma order_cmp_app keys1 keys2 x y : order_cmp D (keys1 ++ keys2) x y = Eq -> order_cmp D keys2 x y = Eq.
Proof. induction keys1 as [|[col d] keys1 IH]; [done|]. cbn. destruct (ocmp D _ _); [done|destruct d; done..]. Qed.

Lemma id_keys_apart keys tb : apart tb -> told_apart D (keys ++ [(str "id", false)]) tb.
Proof.
  intros A x y Hx Hy E%order_cmp_app. apply (same_row tb); [done..|]. apply (apart_ids tb A). cbn [order_cmp] in E.
  change (get x (str "id")) with (VUint x.1) in E. change (get y (str "id")) with (VUint y.1) in E. by destruct (ocmp D _ _).
Qed.

Lemma keyset_keys_apart col desc tb : apart tb -> told_apart D (keyset_keys col desc) tb.
Proof.
  intros A x y Hx Hy E. apply (same_row tb); [done..|]. apply (apart_rids tb A); [done..|]. unfold keyset_keys in E.
  destruct (seq_eqb col (str "rid")) eqn:B.
  - apply bool_decide_eq_true in B as ->. cbn [order_cmp] in E. destruct (ocmp D _ _), desc; done.
  - cbn [order_cmp] in E. destruct (ocmp D (get x col) _); [|destruct desc; done..]. destruct (ocmp D _ _), desc; done.
Qed.

Section reads.
Context (tb : table) (O : ocmp_ok (ocmp D)) (A : apart tb).

Lemma get_fenced loc opts l : get_ D s c loc opts l tb = get_ D s c loc opts l (visible_to tb).
Proof.
  unfold get_. destruct loc as [lc|]; [|done]. destruct (read s c false opts) as [[tx cfg]|] eqn:R; [|done]. cbn [rbind].
  destruct (l && _); [done|]. destruct (locate s lc tx) as [tx'|] eqn:L; [|done]. cbn [rbind]. unfold first_row.
  rewrite (selected_fenced_order [(str "id", false)] tx' tb O (id_keys_apart [] tb A)); [done|].
  eapply locate_fenced; [|exact L]. by eapply read_fenced.
Qed.

Lemma exists_fenced tx l : fenced tx -> exists_ D s tx l tb = exists_ D s tx l (visible_to tb).
Proof.
  intros F. unfold exists_. destruct (locate s l tx) as [tx'|] eqn:L; [|done]. cbn [rbind].
  rewrite (selected_fenced_length tx' tb); [done|]. by eapply locate_fenced.
Qed.

Lemma Exists_fenced loc : Exists D s c loc tb = Exists D s c loc (visible_to tb).
Proof.
  unfold Exists. destruct loc as [l|]; [|done]. destruct (readScoped s c start_query) as [tx|] eqn:R; [|done].
  by apply exists_fenced, (readScoped_fenced _ _ R).
Qed.

Lemma CountRows_fenced opts : CountRows D s c opts tb = CountRows D s c opts (visible_to tb).
Proof.
  unfold CountRows. destruct (read s c true opts) as [[tx cfg]|] eqn:R; [|done]. cbn [rbind].
  rewrite (selected_fenced_length tx tb); [done|]. by eapply read_fenced.
Qed.

Lemma total_fenced cfg opts : total D s c cfg opts tb = total D s c cfg opts (visible_to tb).
Proof. unfold total. by rewrite CountRows_fenced. Qed.

Lemma keyset_fenced tx cfg opts : fenced tx -> keyset D K s c tx cfg opts tb = keyset D K s c tx cfg opts (visible_to tb).
Proof.
  intros F. unfold keyset. destruct (_ || _); [done|]. destruct (1 <? _); [done|]. destruct (keyset_order cfg) as [[field col] desc].
  destruct (kinds s !! bare col) as [[k ptr]|]; [|done]. destruct (kinds s !! str "rid"); [|done]. destruct (scalarSpec k) as [spec|]; [|done].
  destruct ptr; [done|]. rewrite total_fenced. destruct (total D s c cfg opts _) as [n|]; [|done]. cbn [rbind].
  destruct (seq_eqb (Cursor cfg) []); cbn [rbind].
  - by rewrite (selected_fenced_order _ tx tb O (keyset_keys_apart (bare col) desc tb A) F).
  - destruct (decodeCursor K (Cursor cfg) field desc spec) as [[v rid]|]; [|done]. cbn [rbind].
    by rewrite (selected_fenced_order _ _ tb O (keyset_keys_apart (bare col) desc tb A) (fenced_where _ _ F)).
Qed.

Lemma ListRows_fenced opts : ListRows D K s c opts tb = ListRows D K s c opts (visible_to tb).
Proof.
  unfold ListRows. destruct (read s c false opts) as [[tx cfg]|] eqn:R; [|done]. cbn [rbind]. pose proof (read_fenced _ _ _ _ R) as F.
  destruct (_ || _); [by apply keyset_fenced|]. destruct (page_window s cfg) as [w|]; [|done]. cbn [rbind].
  rewrite total_fenced. unfold order_keys. by rewrite (selected_fenced_order _ tx tb O (id_keys_apart _ tb A) F).
Qed.
End reads.
End fence.

(** [C2] Reads are fenced: on an owner-scoped store, whatever the locator, the
    options or the URL, Get, GetForUpdate, Exists, Count, List,
    ListWithCursor and ListFromQuery answer what they would on a table that
    holds the caller's rows alone - none for a caller without a principal,
    all for an admin - and so no row, count, page, or error tells of another
    owner's rows. *)
Theorem reads_fenced D K s c tb :
  owned s = true -> ocmp_ok (ocmp D) -> apart D tb ->
  let own := visible_to D s c tb in
  (forall loc opts, Get D s c loc opts tb = Get D s c loc opts own)
  /\ (forall in_tx loc opts, GetForUpdate D s c in_tx loc opts tb = GetForUpdate D s c in_tx loc opts own)
  /\ (forall loc, Exists D s c loc tb = Exists D s c loc own)
  /\ (forall opts, CountRows D s c opts tb = CountRows D s c opts own)
  /\ (forall opts, ListRows D K s c opts tb = ListRows D K s c opts own)
  /\ (forall opts, ListWithCursor D K s c opts tb = ListWithCursor D K s c opts own)
  /\ (forall q, ListFromQuery D K s c q tb = ListFromQuery D K s c q own).
Proof.
  intros OW O A own. repeat split.
  - intros. by apply get_fenced.
  - intros. unfold GetForUpdate. destruct in_tx; [|done]. by apply get_fenced.
  - intros. by apply Exists_fenced.
  - intros. by apply CountRows_fenced.
  - intros. by apply ListRows_fenced.
  - intros. unfold ListWithCursor. destruct (read s c false opts) as [[tx cfg]|] eqn:R; [|done]. apply keyset_fenced; [done..|]. by eapply read_fenced.
  - intros. unfold ListFromQuery. destruct (typedFilters K s q) as [[q' typed]|]; [|done]. destruct (FromQuery _ _ _); [|done]. by apply ListRows_fenced.
Qed.

Lemma demo_apart tb : distinct_rids tb = true -> apart demo_db tb.
Proof.
  intros H. split.
  - intros a b E. by injection (demo_ocmp_Eq _ _ E).
  - intros x y Hx Hy E. by apply (distinct_rids_spec tb H); [| |apply demo_ocmp_Eq].
Qed.

Lemma reads_fenced_witness :
  let s := posts true true in
  CountRows demo_db s ann [] some_posts = Ok 3
  /\ Get demo_db s ann (Some (RID (str "bbb"))) [] some_posts = Err ENotFound
  /\ CountRows demo_db s None [] some_posts = Ok 0
  /\ (forall q, ListFromQuery demo_db demo_codec s ann q some_posts = ListFromQuery demo_db demo_codec s ann q (visible_to demo_db s ann some_posts)).
Proof.
  intros s. split; [vm_compute; reflexivity|]. split; [vm_compute; reflexivity|]. split; [vm_compute; reflexivity|].
  apply (reads_fenced demo_db demo_codec s ann some_posts); [reflexivity|apply demo_ocmp_ok|apply demo_apart; vm_compute; reflexivity].
Defined.

(** *** Writes *)
Section writes.
Context (E : Env) (s : store) (c : ctx) (OW : owned s = true).
Notation D := (db E).

Lemma hit_fenced tx i r : fenced D s c tx -> hit E s tx i r = true -> mine D s c (i, r) = true.
Proof. intros F [_ H]%andb_true_iff. by apply F. Qed.

Lemma version_is_fenced v tx : fenced D s c tx -> fenced D s c (version_is s v tx).
Proof. intros F. unfold version_is. destruct (v >? 0); [by apply fenced_where|done]. Qed.

(** A table in which the rows the caller may not see are as they were, and no
    row appeared. *)
Definition others_kept (tb tb' : table) : Prop :=
  forall i, match tb !! i with
            | None => tb' !! i = None
            | Some r => mine D s c (i, r) = false -> tb' !! i = Some r
            end.

Lemma others_kept_refl tb : others_kept tb tb.
Proof. intros i. by destruct (tb !! i). Qed.

Lemma update_rows_kept tx f tb n tb' : fenced D s c tx -> update_rows E s tx f tb = Ok (n, tb') -> others_kept tb tb'.
Proof.
  intros F [_ U]%update_rows_spec i. rewrite U. destruct (tb !! i) as [r|]; [|done]. intros M. cbn.
  destruct (hit E s tx i r) eqn:H; [|done]. apply (hit_fenced _ _ _ F) in H. congruence.
Qed.

Lemma delete_rows_kept tx tb n tb' : fenced D s c tx -> delete_rows E s tx tb = Ok (n, tb') -> others_kept tb tb'.
Proof.
  intros F [_ U]%delete_rows_spec i. rewrite U. destruct (tb !! i) as [r|]; [|done]. intros M. cbn.
  destruct (hit E s tx i r) eqn:H; [|done]. apply (hit_fenced _ _ _ F) in H. congruence.
Qed.

Lemma Update_kept loc ch opts tb : others_kept tb (Update E s c loc ch opts tb).1.1.
Proof.
  unfold Update. destruct (build s ch) as [b|]; [|apply others_kept_refl].
  destruct (write s c loc opts) as [[tx cfg]|] eqn:W; [|apply others_kept_refl]. destruct loc as [l|]; [|apply others_kept_refl].
  destruct (BeforeUpdateHook _ _ _); [apply others_kept_refl|].
  destruct (update_rows _ _ _ _ _) as [[n tb']|] eqn:U; [|apply others_kept_refl]. destruct (n =? 0); [apply others_kept_refl|].
  eapply update_rows_kept, U. eapply version_is_fenced, write_fenced, W. done.
Qed.

Lemma Delete_kept loc opts tb : others_kept tb (Delete E s c loc opts tb).1.
Proof.
  unfold Delete. destruct (write s c loc opts) as [[tx cfg]|] eqn:W; [|apply others_kept_refl]. destruct loc as [l|]; [|apply others_kept_refl].
  destruct (BeforeDeleteHook s c); [apply others_kept_refl|]. apply write_fenced with (D := D) in W; [|done].
  destruct (if soft s then _ else _) as [[n tb']|] eqn:U; [|apply others_kept_refl].
  destruct (_ && _); [apply others_kept_refl|]. cbn [fst]. destruct (soft s).
  - eapply update_rows_kept, U. by apply version_is_fenced.
  - eapply delete_rows_kept, U. by apply version_is_fenced.
Qed.

Lemma Restore_kept loc tb : others_kept tb (Restore E s c loc tb).1.
Proof.
  unfold Restore. destruct (negb (soft s)); [apply others_kept_refl|].
  destruct (write s c loc [OOnlyTrashed]) as [[tx cfg]|] eqn:W; [|apply others_kept_refl]. destruct loc as [l|]; [|apply others_kept_refl].
  apply write_fenced with (D := D) in W; [|done].
  destruct (update_rows _ _ _ _ _) as [[n tb']|] eqn:U; [|apply others_kept_refl]. pose proof (update_rows_kept _ _ _ _ _ W U).
  destruct (n >? 0); [done|]. destruct (rbind _ _) as [[]|]; [done|apply others_kept_refl..].
Qed.

(** A unique constraint that some rows break, these break beside others too. *)
Definition dup_grows : Prop := forall t t' : table, t ⊆ t' -> is_Some (dup E t) -> is_Some (dup E t').
Context (DG : dup_grows).

(** An answer that but for a DuplicateError is the other. *)
Definition told_alike (a b : option store_error) : Prop := (exists k, a = Some (EDuplicate k)) \/ a = b.

Lemma told_same a : told_alike a a.
Proof. by right. Qed.

Lemma update_rows_count tx f tb : fenced D s c tx ->
  (exists tb1 tb2 n, update_rows E s tx f tb = Ok (n, tb1) /\ update_rows E s tx f (visible_to D s c tb) = Ok (n, tb2))
  \/ update_rows E s tx f tb = Err EDatabase /\ update_rows E s tx f (visible_to D s c tb) = Err EDatabase
  \/ exists k, update_rows E s tx f tb = Err (EDuplicate k).
Proof.
  intros F. unfold update_rows. destruct (fails (db E) StUpdate); [by right; left|]. rewrite <- (selected_fenced_length D s c tx tb F).
  set (g := fun i r => _). destruct (dup E (map_imap g tb)) as [k|] eqn:Da; [right; right; eauto|left].
  destruct (dup E (map_imap g (visible_to D s c tb))) as [k|] eqn:Db; [|eauto 6]. exfalso.
  destruct (DG (map_imap g (visible_to D s c tb)) (map_imap g tb)) as [k' Dk]; [|by eexists|congruence].
  apply map_subseteq_spec. intros i r. rewrite !map_lookup_imap. destruct (visible_to D s c tb !! i) as [r0|] eqn:V; [|done].
  destruct (proj1 (visible_to_lookup D s c tb (i, r0)) V) as [V' _]. cbn in V'. by rewrite V'.
Qed.

Lemma delete_rows_count tx tb : fenced D s c tx ->
  (exists tb1 tb2 n, delete_rows E s tx tb = Ok (n, tb1) /\ delete_rows E s tx (visible_to D s c tb) = Ok (n, tb2))
  \/ delete_rows E s tx tb = Err EDatabase /\ delete_rows E s tx (visible_to D s c tb) = Err EDatabase.
Proof.
  intros F. unfold delete_rows. destruct (fails (db E) StDelete); [by right|left]. rewrite <- (selected_fenced_length D s c tx tb F). eauto 6.
Qed.

Lemma scoped_exists_same q l tb :
  (let? tx := scoped s c q in exists_ D s tx l tb) = (let? tx := scoped s c q in exists_ D s tx l (visible_to D s c tb)).
Proof. destruct (scoped s c q) as [tx|] eqn:S; [|done]. cbn. by apply exists_fenced, (scoped_fenced _ _ _ OW _ _ S). Qed.

Lemma missed_same l lock tb : missed E s c l lock tb = missed E s c l lock (visible_to D s c tb).
Proof. unfold missed. by rewrite scoped_exists_same. Qed.

Lemma Update_same loc ch opts tb : told_alike (Update E s c loc ch opts tb).1.2 (Update E s c loc ch opts (visible_to D s c tb)).1.2.
Proof.
  unfold Update. destruct (build s ch) as [b|]; [|apply told_same]. destruct (write s c loc opts) as [[tx cfg]|] eqn:W; [|apply told_same].
  destruct loc as [l|]; [|apply told_same]. destruct (BeforeUpdateHook _ _ _); [apply told_same|]. apply write_fenced with (D := D) in W; [|done].
  set (lk := if Version cfg >? 0 then _ else _).
  destruct (update_rows_count (version_is s lk tx) (updated E (payload b)) tb) as [(t1 & t2 & n & -> & ->)|[[-> ->]|[k ->]]];
    [by apply version_is_fenced| |apply told_same|left; by exists k].
  destruct (n =? 0); [|apply told_same]. cbn. rewrite missed_same. apply told_same.
Qed.

Lemma Delete_same loc opts tb : told_alike (Delete E s c loc opts tb).2 (Delete E s c loc opts (visible_to D s c tb)).2.
Proof.
  unfold Delete. destruct (write s c loc opts) as [[tx cfg]|] eqn:W; [|apply told_same].
  destruct loc as [l|]; [|apply told_same]. destruct (BeforeDeleteHook _ _); [apply told_same|]. apply write_fenced with (D := D) in W; [|done].
  apply (version_is_fenced (Version cfg)) in W. destruct (soft s).
  - destruct (update_rows_count (version_is s (Version cfg) tx) (trashed E) tb W) as [(t1 & t2 & n & -> & ->)|[[-> ->]|[k ->]]]; [|apply told_same|left; by exists k].
    destruct (_ && _); [|apply told_same]. cbn. rewrite missed_same. apply told_same.
  - destruct (delete_rows_count (version_is s (Version cfg) tx) tb W) as [(t1 & t2 & n & -> & ->)|[-> ->]]; [|apply told_same].
    destruct (_ && _); [|apply told_same]. cbn. rewrite missed_same. apply told_same.
Qed.

Lemma Restore_same loc tb : told_alike (Restore E s c loc tb).2 (Restore E s c loc (visible_to D s c tb)).2.
Proof.
  unfold Restore. destruct (negb (soft s)); [apply told_same|]. destruct (write s c loc [OOnlyTrashed]) as [[tx cfg]|] eqn:W; [|apply told_same].
  destruct loc as [l|]; [|apply told_same]. apply write_fenced with (D := D) in W; [|done].
  destruct (update_rows_count tx (restored E) tb W) as [(t1 & t2 & n & -> & ->)|[[-> ->]|[k ->]]]; [|apply told_same|left; by exists k].
  destruct (n >? 0); [apply told_same|]. rewrite scoped_exists_same. destruct (rbind _ _) as [[]|]; apply told_same.
Qed.

(** A hard delete breaks no unique constraint. *)
Lemma Delete_hard_same loc opts tb : soft s = false -> (Delete E s c loc opts tb).2 = (Delete E s c loc opts (visible_to D s c tb)).2.
Proof.
  intros Hs. unfold Delete. rewrite Hs. destruct (write s c loc opts) as [[tx cfg]|] eqn:W; [|done].
  destruct loc as [l|]; [|done]. destruct (BeforeDeleteHook _ _); [done|]. apply write_fenced with (D := D) in W; [|done].
  apply (version_is_fenced (Version cfg)) in W.
  destruct (delete_rows_count (version_is s (Version cfg) tx) tb W) as [(t1 & t2 & n & -> & ->)|[-> ->]]; [|done].
  destruct (_ && _); [|done]. cbn. by rewrite missed_same.
Qed.
End writes.

(** A hook that leaves the owner alone. *)
Definition hook_keeps_owner (s : store) : Prop :=
  forall c obj obj', BeforeCreateHook s c obj = Ok obj' -> obj' !! str "owner_id" = obj !! str "owner_id".

(** The rows an insert adds, of objects with [P] columns. *)
Lemma BeforeCreate_owner E rs obj obj' rs' : BeforeCreate E rs obj = Ok (obj', rs') -> obj' !! str "owner_id" = obj !! str "owner_id".
Proof.
  unfold BeforeCreate. set (o := if version_of obj =? 0 then _ else _). assert (Eo : o !! str "owner_id" = obj !! str "owner_id").
  { unfold o. destruct (_ =? _); [by apply lookup_insert_ne|done]. } rewrite <- Eo. clearbody o. clear Eo.
  intros H. repeat case_match; simplify_eq; try done; by apply lookup_insert_ne.
Qed.

Lemma stamp_owner E col obj : col <> str "owner_id" -> stamp E col obj !! str "owner_id" = obj !! str "owner_id".
Proof. intros N. unfold stamp. repeat case_match; try done; by apply lookup_insert_ne. Qed.

Lemma insert_all_owner E objs tb o i r : Forall (fun obj : row => obj !! str "owner_id" = Some o) objs ->
  (insert_all E objs tb).1 !! i = Some r -> tb !! i = Some r \/ r !! str "owner_id" = Some o.
Proof.
  intros F. unfold insert_all. destruct (rfold _ objs _) as [[tb' rest]|] eqn:R; [|by left].
  destruct (fails _ _); [by left|]. destruct (dup E tb'); [by left|]. cbn [fst].
  enough (G : forall objs acc, Forall (fun obj : row => obj !! str "owner_id" = Some o) objs ->
    (forall i r, acc.1 !! i = Some r -> tb !! i = Some r \/ r !! str "owner_id" = Some o) ->
    forall acc', rfold (insert_row E) objs acc = Ok acc' -> forall i r, acc'.1 !! i = Some r -> tb !! i = Some r \/ r !! str "owner_id" = Some o).
  { intros H. apply (G objs (tb, rid_random E) F) with (acc' := (tb', rest)); [by left|done|done]. }
  clear. induction objs as [|obj objs IH]; intros acc F I acc'; cbn; [by intros [= <-]|].
  intros (acc1 & S & R)%rbind_Ok. apply (IH acc1); [by inversion F| |done]. unfold insert_row in S.
  apply rbind_Ok in S as ([obj' rs] & B & [= <-]). cbn [fst]. intros i r. destruct (decide (next_id E acc.1 = i)) as [->|N].
  - rewrite lookup_insert_eq. intros [= <-]. right. rewrite !stamp_owner by done. rewrite (BeforeCreate_owner _ _ _ _ _ B). by inversion F.
  - rewrite lookup_insert_ne by done. apply I.
Qed.

Lemma before_all_owner s c p objs objs' : owned s = true -> caller c = Some p -> isAdmin s p = false -> hook_keeps_owner s ->
  before_all s c objs = Ok objs' -> Forall (fun obj : row => obj !! str "owner_id" = Some (VStr (UserID p))) objs'.
Proof.
  intros OW Cp Ad HK. revert objs'. induction objs as [|obj objs IH]; intros objs'; cbn; [by intros [= <-]|].
  intros (o & B & H)%rbind_Ok. apply rbind_Ok in H as (os & B' & [= <-]). constructor; [|by apply IH].
  unfold beforeCreate, fillOwner in B. rewrite OW, Cp, Ad in B. cbn [negb andb rbind] in B.
  destruct (BeforeCreateHook s c _) as [o'|] eqn:Hk; [|done]. injection B as <-. refine (eq_trans (HK _ _ _ Hk) _). apply lookup_insert_eq.
Qed.


(** A database in which no two rows may have a title. *)
Definition titles_env : Env :=
  let titles (t : table) := map (fun x => get x (str "title")) (map_to_list t) in
  MkEnv demo_db 100 (str "tok") (fun t => if bool_decide (NoDup (titles t)) then None else Some (str "uk_title")) (fun _ => 9) None [].

Lemma titles_grow : dup_grows titles_env.
Proof.
  intros t t' Sub [k H]. cbn in *. destruct (bool_decide (NoDup (map _ (map_to_list t)))) eqn:Nt; [done|]. apply bool_decide_eq_false in Nt.
  rewrite bool_decide_false; [by eexists|]. intros N. apply Nt.
  assert (M : map (fun x => get x (str "title")) (map_to_list t) ⊆+ map (fun x => get x (str "title")) (map_to_list t')) by by apply fmap_submseteq, map_to_list_submseteq.
  apply submseteq_Permutation in M as [k' P]. rewrite P in N. by apply NoDup_app in N as [N _].
Qed.

