(* ===== verification/StoreTrash.v ===== *)
(** Soft delete and restore are inverse, and what a store's declaration, its
    preloads and its RIDs promise. *)

From Stdlib Require Import ZArith Lia List Ascii.
From stdpp Require Import base decidable list gmap strings sorting.
From S2P Require Import Prelude GoStrings StoreWhere StoreWhereSpec Store StoreCursor StoreRead StoreList StoreKeyset StoreWrite StoreDemo StoreLock.

(** ** Conditions that do not look at the columns a write touches *)

(** The columns a soft delete or a restore writes. *)
Definition touched : list gostring := map str ["version"; "updated_at"; "deleted_at"; "delete_token"]%string.

Definition looks_away (c : cond) : Prop := Forall (fun col => bare col ∉ touched) (cond_columns c).

(** Two rows that differ in touched columns only. *)
Definition same_but_touched (r r' : row) : Prop := forall col, col ∉ touched -> r' !! col = r !! col.

Lemma get_untouched i r r' col : same_but_touched r r' -> col ∉ touched -> get (i, r') col = get (i, r) col.
Proof. intros S N. unfold get. destruct (seq_eqb col (str "id")); [done|]. cbn. by rewrite (S col N). Qed.

Lemma sat_untouched vc i r r' c : same_but_touched r r' -> looks_away c -> sat vc (get (i, r')) c = sat vc (get (i, r)) c.
Proof.
  intros S L. unfold looks_away in L. rewrite Forall_forall in L.
  assert (G : forall col, col ∈ cond_columns c -> get (i, r') (bare col) = get (i, r) (bare col)).
  { intros col Hc. by apply get_untouched, L. }
  destruct c; cbn in *; rewrite ?G by set_solver; done.
Qed.

Lemma sat_all_untouched vc i r r' cs : same_but_touched r r' -> Forall looks_away cs ->
  sat_all vc (get (i, r')) cs = sat_all vc (get (i, r)) cs.
Proof.
  intros S. unfold sat_all. induction 1 as [|c cs L _ IH]; [done|]. cbn. by rewrite IH, (sat_untouched vc i r r').
Qed.

Lemma trashed_same E r : same_but_touched r (trashed E r).
Proof.
  intros col N. unfold trashed, touch, incr. unfold touched in N. cbn in N.
  rewrite !lookup_insert_ne; [done|..]; intros <-; apply N; vm_compute; set_solver.
Qed.

Lemma restored_same E r : same_but_touched r (restored E r).
Proof.
  intros col N. unfold restored, touch, incr. unfold touched in N. cbn in N.
  rewrite !lookup_insert_ne; [done|..]; intros <-; apply N; vm_compute; set_solver.
Qed.

(** ** The queries of a delete and of the restore that follows *)

(** A locator is conditions. *)
Lemma locate_where s l tx tx' : locate s l tx = Ok tx' -> exists L, tx' = where_ L tx /\ forall t, locate s l t = Ok (where_ L t).
Proof.
  destruct l as [r|i|opts]; cbn; [intros [= <-]; eauto..|].
  destruct (apply_options _ _ _) as [[cs cf]|]; [|done]. destruct (HasFilter cf); [|done]. intros [= <-]. eauto.
Qed.

Lemma write_plain s c l tx cfg : write s c (Some l) [] = Ok (tx, cfg) ->
  exists A L, conds tx = A ++ L /\ unscoped tx = false /\ Version cfg = 0
  /\ (soft s = true -> exists cfg', write s c (Some l) [OOnlyTrashed]
      = Ok (MkQuery ((A ++ [CNotNull (s_table s ++ str ".deleted_at")]) ++ L) true (preloads tx), cfg')).
Proof.
  unfold write. intros (tx0 & Sc & H)%rbind_Ok. cbn [apply apply_options rbind] in H. unfold apply in H. cbn in H.
  apply rbind_Ok in H as (tx1 & L0 & [= <- <-]). destruct (locate_where _ _ _ _ L0) as (L & -> & HL).
  assert (U0 : unscoped tx0 = false).
  { revert Sc. unfold scoped. intros (t & O & R)%rbind_Ok.
    assert (unscoped t = false) as Ut.
    { destruct (owned s); [|by injection O as <-]. unfold ownerScope in O. destruct (caller c); [|done]. destruct (isAdmin s _); by injection O as <-. }
    revert Ut R. apply (rfold_inv (fun t => unscoped t = false)). intros a f a' Ia. unfold custom_scope.
    destruct (f c) as [[cs|]|]; [|done..]. by intros [= <-]. }
  exists (conds tx0), L. split; [cbn; by rewrite app_nil_r|]. split; [done|]. split; [done|].
  intros So. eexists. rewrite Sc. cbn [rbind]. unfold apply. cbn [apply_options apply_option rbind]. unfold trash_scope. cbn [OnlyTrashed set_trashed fst snd].
  rewrite So. cbn. rewrite HL. unfold where_, Unscoped. cbn. by rewrite !app_nil_r.
Qed.

(** The columns a restored row has. *)
Definition brought_back (r r' : row) : Prop :=
  (forall col, col ∉ touched -> r' !! col = r !! col) /\ version_of r' = version_of r + 2
  /\ r' !! str "deleted_at" = Some VNull /\ r' !! str "delete_token" = Some (VStr []).

Lemma sat_all_vcmp vc vc' g cs : (forall v w, vc v w = vc' v w) -> sat_all vc g cs = sat_all vc' g cs.
Proof.
  intros VC. assert (S : forall op v w, sat_cmp vc op v w = sat_cmp vc' op v w) by (intros; unfold sat_cmp; by rewrite VC).
  unfold sat_all. induction cs as [|c cs IH]; [done|]. cbn [forallb]. rewrite IH. f_equal. destruct c; cbn [sat]; try done.
  - induction vs as [|v vs IHv]; [done|]. cbn [existsb]. by rewrite IHv, S.
  - unfold sat_row. by rewrite VC, S.
Qed.

Lemma trashed_deleted_at E i r : get (i, trashed E r) (str "deleted_at") = VTime (now E).
Proof. rewrite get_column by reflexivity. unfold trashed, touch. rewrite lookup_insert_ne by done. by rewrite lookup_insert_eq. Qed.

Lemma restored_brought_back E1 E2 r : brought_back r (restored E2 (trashed E1 r)).
Proof.
  split; [|split; [rewrite restored_version, trashed_version; lia|split]].
  - intros col N. rewrite (restored_same E2 (trashed E1 r) col N). by apply trashed_same.
  - unfold restored, touch. rewrite lookup_insert_ne by done. by rewrite lookup_insert_eq.
  - unfold restored, touch. rewrite !(lookup_insert_ne _ (str "updated_at")), (lookup_insert_ne _ (str "deleted_at")) by done.
    by rewrite lookup_insert_eq.
Qed.

(** The restore's query selects the rows the delete's did. *)
Lemma restore_hits E1 E2 s tx A L p i r : (forall v w, vcmp (db E1) v w = vcmp (db E2) v w) ->
  conds tx = A ++ L -> Forall looks_away (conds tx) -> hit E1 s tx i r = true ->
  hit E2 s (MkQuery ((A ++ [CNotNull (s_table s ++ str ".deleted_at")]) ++ L) true p) i (trashed E1 r) = true.
Proof.
  intros VC Ec LA [_ Hh]%andb_true_iff. rewrite Ec in *. apply Forall_app in LA as [LA LL].
  assert (S : forall cs, Forall looks_away cs -> sat_all (vcmp (db E2)) (get (i, trashed E1 r)) cs = sat_all (vcmp (db E1)) (get (i, r)) cs).
  { intros cs Lc. rewrite (sat_all_untouched _ i r _ cs (trashed_same E1 r) Lc). by apply sat_all_vcmp. }
  unfold hit, matches, visible. cbn [unscoped conds orb andb]. unfold sat_all in *. rewrite !forallb_app in *.
  apply andb_true_iff in Hh as [Ha Hl]. rewrite (S A LA), (S L LL), Ha, Hl. cbn [forallb sat].
  change (s_table s ++ str ".deleted_at") with (s_table s ++ str "." ++ str "deleted_at").
  rewrite bare_qualified by (apply dot_free; reflexivity). by rewrite trashed_deleted_at.
Qed.

(** What a soft delete without options does to the rows of its query. *)
Lemma Delete_trashes E s c l tx cfg tb tb' : soft s = true -> Version cfg = 0 -> write s c (Some l) [] = Ok (tx, cfg) ->
  Delete E s c (Some l) [] tb = (tb', None) ->
  forall i r, tb !! i = Some r -> hit E s tx i r = true -> tb' !! i = Some (trashed E r).
Proof.
  intros So V W De i r Hi Hh. unfold Delete in De. rewrite W, V, So in De. destruct (BeforeDeleteHook s c); [done|].
  change (version_is s 0 tx) with tx in De. destruct (update_rows E s tx _ tb) as [[n t]|] eqn:U; [|done].
  rewrite andb_false_r in De. injection De as ->. apply update_rows_spec in U as [_ T]. rewrite T, Hi. cbn. by rewrite Hh.
Qed.

Lemma Restore_restores E s c l tx cfg tb tb' : soft s = true -> write s c (Some l) [OOnlyTrashed] = Ok (tx, cfg) ->
  Restore E s c (Some l) tb = (tb', None) ->
  forall i r, tb !! i = Some r -> hit E s tx i r = true -> tb' !! i = Some (restored E r).
Proof.
  intros So W Re i r Hi Hh. unfold Restore in Re. rewrite So, W in Re. cbn [negb] in Re.
  destruct (update_rows E s tx _ tb) as [[n t]|] eqn:U; [|done]. apply update_rows_spec in U as [_ T].
  assert (t = tb') as <-.
  { destruct (n >? 0); [by injection Re|]. destruct (rbind _ _) as [[]|]; by injection Re. }
  rewrite T, Hi. cbn. by rewrite Hh.
Qed.

(** Restore undoes Delete: a soft delete hides the rows it selects from
    every query that does not ask for deleted rows, without losing them; and
    restoring them by the same locator brings each back live with every
    column it had, at a version two further on.  (The custom scopes, and the
    filters of a Where locator, must not look at the columns a delete
    writes.) *)
Theorem Restore_undoes_Delete E1 E2 s c l tb tb1 tb2 tx cfg :
  soft s = true -> (forall v w, vcmp (db E1) v w = vcmp (db E2) v w) ->
  write s c (Some l) [] = Ok (tx, cfg) -> Forall looks_away (conds tx) ->
  Delete E1 s c (Some l) [] tb = (tb1, None) -> Restore E2 s c (Some l) tb1 = (tb2, None) ->
  forall i r, tb !! i = Some r -> hit E1 s tx i r = true ->
    (exists r1, tb1 !! i = Some r1 /\ same_but_touched r r1 /\ forall q, unscoped q = false -> visible s q (i, r1) = false)
    /\ exists r2, tb2 !! i = Some r2 /\ brought_back r r2 /\ forall q, visible s q (i, r2) = true.
Proof.
  intros So VC W LA De Re i r Hi Hh. destruct (write_plain _ _ _ _ _ W) as (A & L & Ec & U & V & W2). destruct (W2 So) as [cfg' W2'].
  pose proof (Delete_trashes E1 s c l tx cfg tb tb1 So V W De i r Hi Hh) as T1.
  pose proof (restore_hits E1 E2 s tx A L (preloads tx) i r VC Ec LA Hh) as H2.
  pose proof (Restore_restores E2 s c l _ cfg' tb1 tb2 So W2' Re i _ T1 H2) as T2. split.
  - exists (trashed E1 r). split; [done|]. split; [apply trashed_same|]. intros q Uq. unfold visible. by rewrite Uq, So, trashed_deleted_at.
  - exists (restored E2 (trashed E1 r)). split; [done|]. pose proof (restored_brought_back E1 E2 r) as B. split; [done|].
    intros q. unfold visible. destruct B as (_ & _ & DN & _). rewrite get_column, DN by reflexivity. by rewrite orb_true_r.
Qed.

Lemma Restore_undoes_Delete_witness :
  let s := posts true true in
  exists tb1 tb2, Delete demo_env s ann (Some (RID (str "aaa"))) [] some_posts = (tb1, None)
  /\ Restore demo_env s ann (Some (RID (str "aaa"))) tb1 = (tb2, None)
  /\ exists r2, tb2 !! 1 = Some r2 /\ brought_back (post "aaa" "one" "ann" 3 1) r2 /\ forall q, visible s q (1, r2) = true.
Proof.
  intros s.
  destruct (Delete demo_env s ann (Some (RID (str "aaa"))) [] some_posts) as [tb1 res1] eqn:De.
  assert (R1 : (Delete demo_env s ann (Some (RID (str "aaa"))) [] some_posts).2 = None) by (vm_compute; reflexivity).
  assert (R2 : (Restore demo_env s ann (Some (RID (str "aaa"))) (Delete demo_env s ann (Some (RID (str "aaa"))) [] some_posts).1).2 = None)
    by (vm_compute; reflexivity).
  rewrite De in R1, R2. cbn [fst snd] in R1, R2. subst res1.
  destruct (Restore demo_env s ann (Some (RID (str "aaa"))) tb1) as [tb2 res2] eqn:Re. cbn [snd] in R2. subst res2.
  destruct (write s ann (Some (RID (str "aaa"))) []) as [[tx cfg]|e] eqn:W; [|vm_compute in W; discriminate W].
  assert (Q : tx = MkQuery [owner_is (str "posts") (str "ann"); CCmp (str "posts.rid") OpEq (VStr (str "aaa"))] false ∅).
  { vm_compute in W. injection W as <- _. vm_compute. reflexivity. }
  exists tb1, tb2. split; [reflexivity|]. split; [exact Re|].
  apply (Restore_undoes_Delete demo_env demo_env s ann (RID (str "aaa")) some_posts tb1 tb2 tx cfg); try reflexivity; try exact W; try exact De; try exact Re.
  - rewrite Q. cbn [conds]. repeat (apply Forall_cons_2; [apply Forall_cons_2; [apply (bool_decide_eq_false _); vm_compute; reflexivity|apply Forall_nil_2]|]). apply Forall_nil_2.
  - rewrite Q. vm_compute. reflexivity.
Defined.
