(* ===== verification/StoreDecl.v ===== *)
(** What a store's declaration, its preloads and its RIDs promise. *)

From Stdlib Require Import ZArith Lia List Ascii.
From stdpp Require Import base decidable list gmap strings sorting.
From S2P Require Import Prelude GoStrings StoreWhere Store StoreCursor StoreRead StoreList StoreKeyset StoreWrite StoreDemo StoreLock.

(** ** New *)

(** One field map within another. *)
Definition within (m c : fields_t) : Prop := forall f col, m !! f = Some col -> c !! f = Some col.

Lemma addField_within m name f m' c : addField m name f = Ok m' -> within m c -> c !! name = Some (DBName f) -> within m' c.
Proof.
  unfold addField. intros A W N g col.
  assert (m' = <[name := DBName f]> m) as ->. { destruct (m !! name); [destruct (seq_eqb _ _); [|done]|]; by injection A. }
  destruct (decide (name = g)) as [->|E]; [rewrite lookup_insert_eq; by intros [= <-]|]. rewrite lookup_insert_ne by done. apply W.
Qed.

Lemma addField_grows m name f m' : addField m name f = Ok m' -> m' !! name = Some (DBName f) /\ within m m'.
Proof.
  unfold addField. intros A. assert (m' = <[name := DBName f]> m /\ forall p, m !! name = Some p -> p = DBName f) as [-> P].
  { destruct (m !! name) as [p|]; [destruct (seq_eqb p _) eqn:B; [|done]; apply bool_decide_eq_true in B as ->|]; injection A as <-; naive_solver. }
  split; [apply lookup_insert_eq|]. intros g col. destruct (decide (name = g)) as [->|E]; [intros H; rewrite lookup_insert_eq; by rewrite (P _ H)|].
  by rewrite lookup_insert_ne.
Qed.

Lemma within_trans a b c : within a b -> within b c -> within a c.
Proof. unfold within. eauto. Qed.

Definition declared_ok (d : declared) : Prop := within (d_query d) (d_columns d) /\ within (d_update d) (d_columns d).

Lemma declare_field_ok d f d' : declare_field d f = Ok d' -> declared_ok d -> declared_ok d'.
Proof.
  unfold declare_field. destruct (_ || _); [by intros [= <-]|]. intros (c & A & H)%rbind_Ok [Q U].
  apply addField_grows in A as [N W].
  assert (I : within (d_query d) c /\ within (d_update d) c) by (split; eapply within_trans; eauto).
  destruct (store_tag f) as [tag|]; [|by injection H as <-].
  enough (G : d_columns d' = c /\ declared_ok d') by apply G. revert H. apply (rfold_inv (fun x => d_columns x = c /\ declared_ok x)); [|done].
  intros x part x' [Ec [Qx Ux]]. rewrite Ec in *. unfold tag_part. destruct (seq_eqb _ (str "query")); [|destruct (seq_eqb _ (str "update")); [|done]].
  - intros (q & Aq & [= <-])%rbind_Ok. rewrite Ec. split; [done|]. split; [|done]. by eapply addField_within.
  - intros (u & Au & [= <-])%rbind_Ok. rewrite Ec. split; [done|]. split; [done|]. by eapply addField_within.
Qed.

Lemma declaredFields_ok fs q u c : declaredFields fs = Ok (q, u, c) -> within q c /\ within u c.
Proof.
  unfold declaredFields. intros (d & R & H)%rbind_Ok. destruct (negb (tagged d)); [done|]. injection H as <- <- <-.
  apply (rfold_inv declared_ok) in R; [|intros; by eapply declare_field_ok|done]. destruct R as [Q U]. split; [|done].
  assert (G : forall names q, within q (d_columns d) -> within (fold_left (always_query (d_columns d)) names q) (d_columns d)).
  { induction names as [|n names IH]; intros q0 W; [done|]. cbn. apply IH. unfold always_query.
    destruct (d_columns d !! n) as [col|] eqn:E; [|done]. destruct (q0 !! n); [done|]. intros g cl.
    destruct (decide (n = g)) as [->|N]; [rewrite lookup_insert_eq; by intros [= <-]|]. rewrite lookup_insert_ne by done. apply W. }
  by apply (G (map str ["id"; "created_at"; "updated_at"]%string)).
Qed.

Lemma set_alias_within f col m c : within m c -> within (set_alias f col m) (set_alias f col c).
Proof.
  intros W g cl. unfold set_alias. destruct (m !! f) as [x|] eqn:E.
  - rewrite (W _ _ E). destruct (decide (f = g)) as [->|N]; [by rewrite !lookup_insert_eq|]. rewrite !lookup_insert_ne by done. apply W.
  - intros H. destruct (c !! f); [|by apply W]. destruct (decide (f = g)) as [->|N]; [congruence|]. rewrite lookup_insert_ne by done. by apply W.
Qed.

(** What New promises of a store: a client's fields are columns of the model,
    and no update field is a managed column. *)
Record store_ok (s : store) : Prop := {
  ok_query : within (queryFields s) (columns s);
  ok_update : within (updateFields s) (columns s);
  ok_managed f col : updateFields s !! f = Some col -> protected col = false;
  ok_roles : Forall (fun r => blank r = false) (AdminRoles (policy s));
}.

(** A store that New answers is well formed: what a URL filters on and
    what a patch writes are columns of the model, under the same names, no
    patch field is a managed column - aliases included -, no admin role is
    blank, and a model with an owner is fenced unless its policy says
    otherwise. *)
Theorem New_store_ok d s :
  New d = Ok s -> store_ok s /\ (embeds_owner d = true -> OwnerScope (pol d) <> Some false -> owned s = true).
Proof.
  unfold New. intros ([[q u] c] & D & H)%rbind_Ok. apply rbind_Ok in H as ([[q' u'] c'] & A & H). apply declaredFields_ok in D.
  apply (rfold_inv (fun m : fields_t * fields_t * fields_t => within m.1.1 m.2 /\ within m.1.2 m.2)) in A; [|clear|done].
  2: { intros [[q u] c] [f col] [[q' u'] c'] [Q U]. unfold alias. destruct (c !! f); [|done]. destruct (SafeIdent col); [|done].
       intros [= <- <- <-]. split; by apply set_alias_within. }
  apply rbind_Ok in H as (z & P & H). destruct (existsb _ (constraint_names d)); [done|]. destruct (existsb blank _) eqn:B; [done|].
  injection H as <-. split; [split; cbn|].
  - apply A.
  - apply A.
  - intros f col Hf. destruct (List.find _ _) as [[]|] eqn:F; [done|].
    assert (I : In (f, col) (map_to_list u')) by by apply list_elem_of_In, elem_of_map_to_list.
    by apply (find_none _ _ F) in I.
  - apply Forall_forall. intros r Hr. destruct (blank r) eqn:Br; [|done]. apply not_true_iff_false in B. destruct B.
    apply existsb_exists. exists r. by rewrite <- list_elem_of_In.
  - intros -> N. cbn. by destruct (OwnerScope (pol d)) as [[]|].
Qed.

(** A model of posts: an embedded base, a title a client may filter on and
    write, and a rank kept under an alias. *)
Definition base_field (db json : String.string) : field := Field (str db) [Step true []] (str json) None KString false.

Definition posts_declaration : declaration :=
  Declare_
    [base_field "id" "-"; base_field "rid" "id"; base_field "version" "version"; base_field "created_at" "created_at";
     base_field "updated_at" "updated_at"; base_field "owner_id" "-";
     Field (str "title") [] (str "title,omitempty") (Some (str "query, update")) KString false;
     Field (str "rank") [] (str "rank") (Some (str "query,update")) (KInt 64) false]
    {[ str "rank" := str "position" ]} [(str "uk_title", str "title")] (MkPolicy false [str "admin"] None 20 100) true true (posts true true).

Lemma New_store_ok_witness :
  exists s, New posts_declaration = Ok s
  /\ updateFields s !! str "rank" = Some (str "position")
  /\ (store_ok s /\ (embeds_owner posts_declaration = true -> OwnerScope (pol posts_declaration) <> Some false -> owned s = true)).
Proof.
  assert (C : match New posts_declaration with Ok s => bool_decide (updateFields s !! str "rank" = Some (str "position")) | Err _ => false end = true)
    by (vm_compute; reflexivity).
  destruct (New posts_declaration) as [s|e] eqn:E; [|discriminate C]. exists s. split; [reflexivity|].
  split; [exact (proj1 (bool_decide_eq_true _) C)|]. apply (New_store_ok posts_declaration s E).
Defined.

(** ** Preloads *)

(** The model at the end of a path of associations. *)
Fixpoint resolve (s : store) (rels : gmap gostring gostring) (parts : list gostring) : option model_schema :=
  match parts with
  | [] => None
  | part :: parts' =>
      m ← rels !! part;
      sch ← schemas s !! m;
      match parts' with [] => Some sch | _ => resolve s (sch_rels sch) parts' end
  end.

Definition resolve_path (s : store) (path : gostring) : option model_schema := resolve s (relations s) (split "." path).

Lemma resolve_snoc s rels done_ part sch m sch' : resolve s rels done_ = Some sch -> sch_rels sch !! part = Some m ->
  schemas s !! m = Some sch' -> resolve s rels (done_ ++ [part]) = Some sch'.
Proof.
  revert rels. induction done_ as [|p ps IH]; intros rels; [done|]. cbn. intros H Hm Hs.
  destruct (rels !! p) as [m0|]; [|done]. cbn in *. destruct (schemas s !! m0) as [sch0|]; [|done]. cbn in *.
  destruct ps as [|p2 ps]; cbn [app]; [injection H as ->|].
  - cbn. rewrite Hm. cbn. by rewrite Hs.
  - by apply IH.
Qed.

Definition join_path (path part : gostring) : gostring := if seq_eqb path [] then part else path ++ str "." ++ part.

Lemma split_snoc path part : "."%char ∉ part -> split "." (path ++ str "." ++ part) = split "." path ++ [part].
Proof.
  intros N. induction path as [|x path IH].
  - change ([] ++ str "." ++ part) with ([] ++ "."%char :: part). rewrite split_app_sep by set_solver. by rewrite split_no_sep.
  - cbn [app]. destruct (beq x ".") eqn:B.
    + cbn [split]. rewrite B. by rewrite IH.
    + cbn [split]. rewrite B, IH. destruct (split_cons "." path) as (p & ps & ->). done.
Qed.

(** What a path's conditions must be. *)
Definition fence_ok (s : store) (c : ctx) (sch : model_schema) (cs : list cond) : Prop :=
  match associationFence s c sch with Some f => cs = f | None => True end.

Definition preloads_ok (s : store) (c : ctx) (tx : query) : Prop :=
  forall path cs sch, preloads tx !! path = Some cs -> resolve_path s path = Some sch -> fence_ok s c sch cs.

Lemma preload_insert_ok s c tx path cs p :
  preloads_ok s c tx -> (forall sch, resolve_path s path = Some sch -> fence_ok s c sch cs) -> preloads p = <[path := cs]> (preloads tx) ->
  preloads_ok s c p.
Proof.
  intros I H E q cq sch. rewrite E. destruct (decide (path = q)) as [->|N].
  - rewrite lookup_insert_eq. intros [= <-]. apply H.
  - rewrite lookup_insert_ne by done. apply I.
Qed.

(** The fences of the steps of a path are registered. *)
Definition registered (s : store) (c : ctx) (tx : query) (path : gostring) : Prop :=
  forall sch f, resolve_path s path = Some sch -> associationFence s c sch = Some f -> is_Some (preloads tx !! path).

Lemma preload_walk_ok s c relation parts : relations s !! [] = None -> Forall (fun p => "."%char ∉ p) parts -> forall path rels tx tx',
  (path = [] /\ rels = relations s \/ path <> [] /\ exists sch, resolve_path s path = Some sch /\ rels = sch_rels sch) ->
  preloads_ok s c tx -> preload_walk s c relation parts path rels tx = Ok tx' ->
  preloads_ok s c tx' /\ (forall q, is_Some (preloads tx !! q) -> is_Some (preloads tx' !! q))
  /\ (forall k, (1 <= k <= length parts)%nat -> registered s c tx' (fold_left join_path (take k parts) path))
  /\ (parts <> [] -> exists sch, resolve_path s (fold_left join_path parts path) = Some sch).
Proof.
  intros NR ND. induction ND as [|part parts Np _ IH]; intros path rels tx tx' HP I; cbn [preload_walk].
  { intros [= <-]. split; [done|]. split; [done|]. split; [intros k ?; cbn in *; lia|done]. }
  destruct (rels !! part) as [m|] eqn:Em; [|done]. destruct (schemas s !! m) as [sch|] eqn:Es; [|done].
  change (if seq_eqb path [] then part else path ++ str "." ++ part) with (join_path path part).
  assert (RP : resolve_path s (join_path path part) = Some sch).
  { unfold join_path, resolve_path. destruct HP as [[-> ->]|(N & sch0 & R0 & ->)].
    - change (seq_eqb [] []) with true. cbn iota. rewrite split_no_sep by done. cbn. rewrite Em. cbn. by rewrite Es.
    - unfold seq_eqb. rewrite bool_decide_eq_false_2 by done. rewrite split_snoc by done. by eapply resolve_snoc. }
  assert (NE : join_path path part <> []).
  { unfold join_path. destruct HP as [[-> ->]|(N & _)]; [change (seq_eqb [] []) with true; cbn iota; intros ->; congruence|]. unfold seq_eqb.
    rewrite bool_decide_eq_false_2 by done. by destruct path. }
  set (tx1 := match associationFence s c sch with Some fence => _ | None => tx end).
  assert (I1 : preloads_ok s c tx1 /\ (forall q, is_Some (preloads tx !! q) -> is_Some (preloads tx1 !! q)) /\ registered s c tx1 (join_path path part)).
  { unfold tx1. destruct (associationFence s c sch) as [f|] eqn:F.
    - split; [eapply preload_insert_ok; [exact I| |reflexivity]; intros sch1 R1; rewrite RP in R1; injection R1 as <-; unfold fence_ok; by rewrite F|].
      cbn [preloads]. split; [intros q Hq; destruct (decide (join_path path part = q)) as [->|N]; [rewrite lookup_insert_eq; eauto|by rewrite lookup_insert_ne]|].
      intros sch1 f1 _ _. cbn [preloads]. rewrite lookup_insert_eq. eauto.
    - split; [done|]. split; [done|]. intros sch1 f1 R1 F1. congruence. }
  destruct I1 as (I1 & G1 & R1). intros W. destruct (IH (join_path path part) (sch_rels sch) tx1 tx') as (I2 & G2 & R2 & L2); [right; eauto|done|done|].
  split; [done|]. split; [auto|]. split.
  - intros k Hk. destruct k as [|[|k]]; [lia| |]; cbn [take fold_left].
    + intros sch1 f1 Rs Fs. rewrite take_0 in *. cbn [fold_left] in *. apply G2. by eapply R1.
    + apply (R2 (S k)). cbn in Hk. lia.
  - intros _. cbn [fold_left]. destruct parts as [|p2 ps]; [cbn; eauto|apply L2; done].
Qed.

(** The path of a relation's first [k] steps. *)
Definition prefix_path (relation : gostring) (k : nat) : gostring := fold_left join_path (take k (split "." relation)) [].

Lemma fold_join_path parts path : path <> [] -> fold_left join_path parts path = fold_left (fun p q => p ++ str "." ++ q) parts path.
Proof.
  revert path. induction parts as [|p parts IH]; intros path N; [done|]. cbn. unfold join_path at 2, seq_eqb.
  rewrite bool_decide_eq_false_2 by done. apply IH. by destruct path.
Qed.

Lemma fold_dots parts path : fold_left (fun p q => p ++ str "." ++ q) parts path = join (str ".") (path :: parts).
Proof.
  revert path. induction parts as [|p parts IH]; intros path; [done|]. cbn [fold_left]. rewrite IH. destruct parts as [|q parts].
  - done.
  - rewrite !join_cons2. by rewrite <- !app_assoc.
Qed.

Lemma prefix_path_whole relation p ps : split "." relation = p :: ps -> p <> [] ->
  prefix_path relation (length (p :: ps)) = relation.
Proof.
  intros E N. unfold prefix_path. rewrite E, take_ge by done. cbn [fold_left]. change (join_path [] p) with p.
  rewrite (fold_join_path ps p N), fold_dots. rewrite <- E. apply join_split.
Qed.

Lemma preload1_ok s c tx r tx' : relations s !! [] = None -> preloads_ok s c tx -> preload1 s c tx r = Ok tx' ->
  preloads_ok s c tx' /\ (forall q, is_Some (preloads tx !! q) -> is_Some (preloads tx' !! q))
  /\ (forall k, (1 <= k <= length (split "." r))%nat -> registered s c tx' (prefix_path r k)).
Proof.
  intros NR I. unfold preload1. intros (tx1 & W & H)%rbind_Ok.
  destruct (preload_walk_ok s c r (split "." r) NR (split_pieces "." r) [] (relations s) tx tx1) as (I1 & G1 & R1 & _); [by left|done|done|].
  destruct (split_cons "." r) as (p & ps & E). assert (N : p <> []).
  { rewrite E in W. cbn in W. intros ->. by rewrite NR in W. }
  pose proof (R1 (length (split "." r)) ltac:(rewrite E; cbn; lia)) as RW. rewrite E in RW at 1.
  change (fold_left join_path (take (length (p :: ps)) (split "." r)) []) with (prefix_path r (length (p :: ps))) in RW.
  rewrite (prefix_path_whole r p ps E N) in RW.
  destruct (preloads tx1 !! r) as [cs|] eqn:Er; injection H as <-; [done|]. split; [|split].
  - eapply preload_insert_ok; [exact I1| |reflexivity]. intros sch R. unfold fence_ok. destruct (associationFence s c sch) as [f|] eqn:F; [|done].
    destruct (RW sch f R F) as [x Hx]. congruence.
  - intros q Hq. cbn [preloads]. destruct (decide (r = q)) as [->|Nq]; [rewrite lookup_insert_eq; eauto|]. rewrite lookup_insert_ne by done. auto.
  - intros k Hk sch f Rs Fs. cbn [preloads]. destruct (decide (r = prefix_path r k)) as [Eq|Nq].
    + rewrite <- Eq, lookup_insert_eq. eauto.
    + rewrite lookup_insert_ne by done. by eapply R1.
Qed.

Lemma preload_ok s c tx r tx' : relations s !! [] = None -> preloads_ok s c tx -> preload s c tx r = Ok tx' ->
  preloads_ok s c tx' /\ (forall q, is_Some (preloads tx !! q) -> is_Some (preloads tx' !! q))
  /\ (r <> str "*" -> r <> Associations -> forall k, (1 <= k <= length (split "." r))%nat -> registered s c tx' (prefix_path r k)).
Proof.
  intros NR I. unfold preload. destruct (seq_eqb r (str "*") || seq_eqb r Associations) eqn:St.
  - intros H. apply (rfold_inv (fun t => preloads_ok s c t /\ (forall q, is_Some (preloads tx !! q) -> is_Some (preloads t !! q)))) in H; [|clear H|split; done].
    + destruct H as [I' G']. split; [done|]. split; [done|]. intros N1 N2. exfalso.
      apply orb_true_iff in St as [St|St]; by apply bool_decide_eq_true in St.
    + intros t q t' [It Gt] E. destruct (preload1_ok s c t q t' NR It E) as (I' & G' & _). split; auto.
  - intros H. destruct (preload1_ok s c tx r tx' NR I H) as (I' & G' & R'). auto.
Qed.

(** Options leave FiltersOnly as it was. *)
Lemma apply_option_filtersOnly o fields st st' : apply_option o fields st = Ok st' -> FiltersOnly st'.2 = FiltersOnly st.2.
Proof.
  revert st st'. induction o; intros st st'; cbn; unfold apply_compare, filter_on, apply_In, apply_Order, apply_Page, apply_Limit, apply_Offset, apply_Cursor;
    rewrite ?rbind_Ok; intros E; repeat case_match; simplify_eq; try done; naive_solver.
Qed.

Lemma apply_options_filtersOnly os fields st st' : apply_options os fields st = Ok st' -> FiltersOnly st'.2 = FiltersOnly st.2.
Proof.
  revert st. induction os as [|o os IH]; intros st; cbn; [by intros [= ->]|]. intros (st1 & E & H)%rbind_Ok.
  rewrite (IH _ H). by eapply apply_option_filtersOnly.
Qed.

(** Scopes preload nothing. *)
Lemma scoped_preloads s c q q' : scoped s c q = Ok q' -> preloads q' = preloads q.
Proof.
  intros (t & O & R)%rbind_Ok. assert (preloads t = preloads q) as Et.
  { destruct (owned s); [|by injection O as <-]. unfold ownerScope in O. destruct (caller c); [|done]. destruct (isAdmin s _); by injection O as <-. }
  revert Et R. apply (rfold_inv (fun t => preloads t = preloads q)). intros a f a' Ia. unfold custom_scope.
  destruct (f c) as [[x|]|]; [|done..]. by intros [= <-].
Qed.

Lemma readScoped_preloads s c q q' : readScoped s c q = Ok q' -> preloads q' = preloads q.
Proof.
  unfold readScoped. destruct (scoped s c q) as [t|e] eqn:Sc; [intros [= <-]; by eapply scoped_preloads|].
  destruct e; try done. by intros [= <-].
Qed.

Lemma preload_all_ok s c rels : relations s !! [] = None -> forall q q', preloads_ok s c q -> rfold (preload s c) rels q = Ok q' ->
  preloads_ok s c q' /\ (forall x, is_Some (preloads q !! x) -> is_Some (preloads q' !! x))
  /\ forall r, r ∈ rels -> r <> str "*" -> r <> Associations -> forall k, (1 <= k <= length (split "." r))%nat -> registered s c q' (prefix_path r k).
Proof.
  intros NR. induction rels as [|r rels IH]; intros q q' I; cbn; [intros [= <-]; split; [done|]; split; [done|]; intros r Hr; by apply elem_of_nil in Hr|].
  intros (q1 & E & H)%rbind_Ok. destruct (preload_ok s c q r q1 NR I E) as (I1 & G1 & R1). destruct (IH q1 q' I1 H) as (I2 & G2 & R2).
  split; [done|]. split; [auto|]. intros r' [->|Hr]%elem_of_cons; [|by apply R2]. intros N1 N2 k Hk sch f Rs Fs. apply G2. by eapply R1.
Qed.

(** Preloads are fenced: of the associations a query loads, by whatever
    paths it names them, every one whose model has an owner carries the
    caller's fence - its rows only, none without a principal, all of them for
    an admin -, at each step of each path. *)
Theorem preloads_fenced s c opts tx cfg :
  relations s !! [] = None -> read s c false opts = Ok (tx, cfg) ->
  (forall path cs sch f, preloads tx !! path = Some cs -> resolve_path s path = Some sch -> associationFence s c sch = Some f -> cs = f)
  /\ (forall r k sch f, r ∈ Preloads cfg -> r <> str "*" -> r <> Associations -> (1 <= k <= length (split "." r))%nat ->
      resolve_path s (prefix_path r k) = Some sch -> associationFence s c sch = Some f -> preloads tx !! prefix_path r k = Some f)
  /\ (forall sch, sch_owned sch = true -> OwnerScope (policy s) <> Some false ->
      associationFence s c sch
      = Some (match caller c with
              | None => [CFalse]
              | Some p => if isAdmin s p then [] else [owner_is (sch_table sch) (UserID p)]
              end)).
Proof.
  intros NR (tx0 & R0 & A)%rbind_Ok. unfold apply in A. destruct (apply_options opts (columns s) _) as [[cs cf]|] eqn:AO; [|done].
  apply rbind_Ok in A as (tx1 & P & [= <- <-]). apply apply_options_filtersOnly in AO. cbn [snd new_Config FiltersOnly] in AO. rewrite AO in P.
  assert (P0 : preloads (trash_scope s cf (where_ cs tx0)) = ∅).
  { apply readScoped_preloads in R0. cbn in R0. unfold trash_scope. by repeat case_match. }
  destruct (preload_all_ok s c (Preloads cf) NR _ tx1 ltac:(intros p x sch; by rewrite P0, lookup_empty) P) as (I' & _ & R').
  assert (F1 : forall path cs0 sch f, preloads tx1 !! path = Some cs0 -> resolve_path s path = Some sch -> associationFence s c sch = Some f -> cs0 = f).
  { intros path cs0 sch f Hp Rp Fp. specialize (I' path cs0 sch Hp Rp). unfold fence_ok in I'. by rewrite Fp in I'. }
  split; [done|]. split.
  - intros r k sch f Hr N1 N2 Hk Rp Fp. destruct (R' r Hr N1 N2 k Hk sch f Rp Fp) as [x Hx]. rewrite Hx. f_equal. by eapply F1.
  - intros sch Os N. unfold associationFence. rewrite Os. destruct (OwnerScope (policy s)) as [[]|]; done.
Qed.

Lemma preloads_fenced_witness :
  let s := posts true true in
  exists tx cfg, read s ann false [OPreload (str "Author")] = Ok (tx, cfg)
  /\ forall r k sch f, r ∈ Preloads cfg -> r <> str "*" -> r <> Associations -> (1 <= k <= length (split "." r))%nat ->
      resolve_path s (prefix_path r k) = Some sch -> associationFence s ann sch = Some f -> preloads tx !! prefix_path r k = Some f.
Proof.
  intros s. assert (C : is_ok (read s ann false [OPreload (str "Author")]) = true) by (vm_compute; reflexivity).
  destruct (read s ann false [OPreload (str "Author")]) as [[tx cfg]|e] eqn:R; [|discriminate C]. exists tx, cfg. split; [reflexivity|].
  apply (preloads_fenced s ann [OPreload (str "Author")] tx cfg); [vm_compute; reflexivity|exact R].
Defined.
