(* ===== verification/StoreRid.v ===== *)
(** What RIDs promise (db/rid.go): the ones handed out are well formed, keep
    their prefix, and are drawn without bias. *)

From Stdlib Require Import ZArith Lia List Ascii.
From stdpp Require Import base decidable list gmap strings sorting.
From S2P Require Import Prelude GoStrings StoreWhere Store StoreCursor StoreRead StoreWrite.

Lemma cut_app p s : "_"%char ∉ p -> cut "_" (p ++ "_"%char :: s) = (p, s).
Proof.
  induction p as [|c p IH]; intros N; cbn [app cut].
  - by rewrite beq_refl.
  - destruct (beq c "_") eqn:B; [apply beq_true in B as ->; set_solver|]. rewrite IH by set_solver. done.
Qed.

Lemma base62_not_underscore c : base62 c = true -> c <> "_"%char.
Proof. intros H ->. discriminate H. Qed.

Lemma base62_free s : forallb base62 s = true -> "_"%char ∉ s.
Proof.
  intros H Hc. rewrite forallb_forall in H. apply list_elem_of_In in Hc. by apply (base62_not_underscore "_"%char (H "_"%char Hc)).
Qed.

Lemma prefix_free p : validatePrefix p = true -> "_"%char ∉ p.
Proof.
  unfold validatePrefix. destruct p as [|c p]; [by rewrite andb_false_r|].
  intros [_ [L P]%andb_true_iff]%andb_true_iff. intros [<-|Hc]%elem_of_cons; [discriminate L|].
  rewrite forallb_forall in P. specialize (P "_"%char). rewrite <- list_elem_of_In in P. specialize (P Hc). discriminate P.
Qed.

Lemma alphabet_base62 i : (i < 62)%nat -> base62 (nth i ridAlphabet "0"%char) = true.
Proof.
  intros L. assert (H : forallb base62 ridAlphabet = true) by reflexivity. rewrite forallb_forall in H. apply H, nth_In. exact L.
Qed.

Lemma randBase62_spec n random s rest : Forall (fun b => 0 <= b) random -> randBase62 n random = Some (s, rest) ->
  length s = n /\ forallb base62 s = true.
Proof.
  intros F. revert n s. induction F as [|b random Hb _ IH]; intros n s.
  - destruct n; [|done]. by intros [= <- <-].
  - destruct n as [|n]; cbn [randBase62]; [by intros [= <- <-]|]. destruct (248 <=? b); [apply IH|].
    intros ([s' rest'] & E & [= <- <-])%bind_Some. destruct (IH _ _ E) as [<- B]. split; [done|]. apply andb_true_iff.
    split; [|done]. apply (alphabet_base62 (Z.to_nat (b mod 62))). pose proof (Z.mod_pos_bound b 62). lia.
Qed.

(** The bytes that are drawn as the character [c]. *)
Definition draws (c : ascii) : list Z :=
  List.filter (fun b => (b <? 248) && beq c (nth (Z.to_nat (b mod 62)) ridAlphabet "0"%char)) (map Z.of_nat (seq 0 256)).

(** A RID that is handed out reads back: whatever the random bytes, twelve
    drawn characters are a well-formed RID, without a prefix or with the one
    they are given, within the column's 24 bytes; and each of the 62
    characters is drawn by exactly four byte values, so none is likelier than
    another. *)
Theorem rid_wellformed p random id rest :
  Forall (fun b => 0 <= b) random -> randBase62 ridIDLen random = Some (id, rest) ->
  length id = 12%nat /\ ParseRID id = Some []
  /\ (validatePrefix p = true -> ParseRID (p ++ str "_" ++ id) = Some p /\ Z.of_nat (length (p ++ str "_" ++ id)) < 24)
  /\ forallb (fun c => Nat.eqb (length (draws c)) 4) ridAlphabet = true.
Proof.
  intros F R. destruct (randBase62_spec _ _ _ _ F R) as [L B]. pose proof (base62_free id B) as U. split; [done|].
  unfold ParseRID, validateRID. rewrite (bool_decide_eq_false_2 _ U), B, L. split.
  { destruct id; [done|]. done. }
  split; [|vm_compute; reflexivity]. intros V. pose proof (prefix_free p V) as N.
  assert (Lp : (length p <= 10)%nat).
  { unfold validatePrefix, ridMaxPrefix in V. apply andb_true_iff in V as [[_ V]%andb_true_iff _]. lia. }
  assert (Ll : length (p ++ str "_" ++ id) = (length p + 13)%nat).
  { rewrite !length_app, L. cbn. unfold ridIDLen. lia. }
  rewrite bool_decide_eq_true_2 by (apply elem_of_app; right; by left).
  change (p ++ str "_" ++ id) with (p ++ "_"%char :: id) in *. rewrite (cut_app p id N), V, B, Ll.
  assert (seq_eqb (p ++ "_"%char :: id) [] = false) as -> by (apply bool_decide_eq_false; by destruct p).
  assert (seq_eqb id [] = false) as -> by (apply bool_decide_eq_false; by destruct id).
  unfold ridMaxLen. destruct (Z.leb_spec (Z.of_nat (length p + 13)) 23); [|lia]. cbn. split; [done|lia].
Qed.

Lemma rid_wellformed_witness :
  let random := [255; 0; 61; 62; 247; 10; 36; 100; 200; 5; 6; 7; 8] in
  exists s, randBase62 ridIDLen random = Some (s, [])
  /\ (length s = 12%nat /\ ParseRID s = Some []
      /\ (validatePrefix (str "pst") = true -> ParseRID (str "pst" ++ str "_" ++ s) = Some (str "pst") /\ Z.of_nat (length (str "pst" ++ str "_" ++ s)) < 24)
      /\ forallb (fun c => Nat.eqb (length (draws c)) 4) ridAlphabet = true).
Proof.
  eexists. split; [vm_compute; reflexivity|].
  apply (rid_wellformed (str "pst") [255; 0; 61; 62; 247; 10; 36; 100; 200; 5; 6; 7; 8] _ []); [|vm_compute; reflexivity].
  repeat constructor; lia.
Defined.
