(* ===== verification/Migrate.v ===== *)
(** db/migrate.go and the versioned modes of db/db.go: an owner's SQL files,
    the ledger of what has run, and the engine that runs the rest — a file in
    one transaction on SQLite and Postgres, statement by statement on MySQL,
    where a file that stopped halfway resumes after the statements recorded.

    Each call of the database is a moment at which it may fail; a failed call
    has no effect, and neither has a transaction that is rolled back. *)

From Stdlib Require Import ZArith Lia List Ascii.
From stdpp Require Import base decidable list gmap strings sorting.
From S2P Require Import Prelude GoStrings SqlSplit.

(** ** Files *)

Record migration := Migration {
  owner : gostring; version : gostring; name : gostring; file : gostring;
  stmts : list gostring; sum : gostring;
}.

(** A directory: names and what they hold. [None] is a file that cannot be
    read, and a directory that cannot. *)
Inductive fnode :=
| FFile (raw : option gostring)
| FDir (entries : option (list (gostring * fnode))).

Inductive migrate_error :=
| EReadDir
| EBadName (file : gostring)
| ESharedVersion (prev file : gostring)
| EReadFile (file : gostring)
| ENoStatements (file : gostring)
| ELock
| ELedger                                (* the ledger table, or reading it *)
| EChecksumDrift (drifted : list gostring)
| EFilesGone (missing : list gostring)
| EOlder (file newest : gostring)
| EBegin | ECommit
| EStatement (file : gostring) (i : nat)
| ERecord (file : gostring) (i : nat)
| EChanged (file : gostring) (i : Z)
| EMark
| ENotMigrated (behind : list gostring)
| EUnknownVersion | EAmbiguous (n : nat).

Definition name_byte (c : ascii) : bool :=
  let b := byte_val c in
  ((65 <=? b) && (b <=? 90)) || ((97 <=? b) && (b <=? 122)) || ((48 <=? b) && (b <=? 57)) || (b =? 95) || (b =? 45).

Definition digit_byte_b (c : ascii) : bool := match digit_val c with Some d => (0 <=? d) && (d <? 10) | None => false end.

(** [fileName]: the version and the name of "<14 digits>_<name>.sql". *)
Definition fileName (f : gostring) : option (gostring * gostring) :=
  let v := take 14 f in
  match drop 14 f with
  | sep :: rest =>
      let n := take (length rest - 4) rest in
      if (length v =? 14)%nat && forallb digit_byte_b v && beq sep "_" && has_suffix (str ".sql") rest
         && negb (seq_eqb n []) && forallb name_byte n
      then Some (v, n) else None
  | [] => None
  end.

(** strings.ReplaceAll(s, "\r\n", "\n"). *)
Fixpoint unix_lines (s : gostring) : gostring :=
  match s with
  | [] => []
  | c :: s' =>
      match s' with
      | d :: s'' => if beq c "013" && beq d newline then newline :: unix_lines s'' else c :: unix_lines s'
      | [] => [c]
      end
  end.

Inductive dialect := SQLite | MySQL | Postgres.

#[global] Instance dialect_eq_dec : EqDecision dialect.
Proof. solve_decision. Defined.

(** The name gorm's dialector answers, and the sub-directory of the files. *)
Definition dialect_name (d : dialect) : gostring :=
  match d with SQLite => str "sqlite" | MySQL => str "mysql" | Postgres => str "postgres" end.

Fixpoint find_entry (n : gostring) (entries : list (gostring * fnode)) : option fnode :=
  match entries with
  | [] => None
  | (m, x) :: entries' => if seq_eqb m n then Some x else find_entry n entries'
  end.

Definition version_le (a b : migration) : Prop := str_le (version a) (version b).
#[global] Instance version_le_dec : RelDecision version_le.
Proof. intros a b. unfold version_le. apply _. Defined.

Section engine.
(** [checksum] is the hex of crypto/sha256. *)
Context (checksum : gostring -> gostring).

Definition prefixSum (stmts : list gostring) (n : nat) : gostring := checksum (join (str ";" ++ [newline]) (take n stmts)).

(** The loop of [loadMigrations] over the entries; [seen] is its map. *)
Fixpoint load_entries (own : gostring) (seen : gmap gostring gostring) (entries : list (gostring * fnode))
  : result migrate_error (list migration) :=
  match entries with
  | [] => Ok []
  | (n, FDir _) :: entries' => load_entries own seen entries'
  | (n, FFile raw) :: entries' =>
      if negb (has_suffix (str ".sql") n) then load_entries own seen entries'
      else match fileName n with
           | None => Err (EBadName n)
           | Some (v, nm) =>
               match seen !! v with
               | Some prev => Err (ESharedVersion prev n)
               | None =>
                   match raw with
                   | None => Err (EReadFile n)
                   | Some raw =>
                       let text := unix_lines raw in
                       match splitSQLStatements text with
                       | [] => Err (ENoStatements n)
                       | ss =>
                           let? out := load_entries own (<[v := n]> seen) entries' in
                           Ok (Migration own v nm n ss (checksum text) :: out)
                       end
                   end
               end
           end
  end.

(** The directory of the dialect's files. *)
Definition sql_dir (root : list (gostring * fnode)) (d : dialect) : result migrate_error (list (gostring * fnode)) :=
  match find_entry (dialect_name d) root with
  | Some (FDir (Some l)) => Ok l
  | Some (FDir None) => Err EReadDir
  | Some (FFile _) | None => Ok root
  end.

Definition loadMigrations (root : list (gostring * fnode)) (own : gostring) (d : dialect) : result migrate_error (list migration) :=
  let? entries := sql_dir root d in
  let? out := load_entries own ∅ entries in
  Ok (merge_sort version_le out).

(** ** The ledger and the world *)

Record ledgerRow := LedgerRow { l_Name : gostring; l_Checksum : gostring; AppliedAt : option Z; StatementIndex : Z }.

(** chok_migrations by owner and version; [None] before it is created.
    [ran] is the record of the statements that took effect, oldest first. *)
Record world := World {
  tick : nat;
  ledger : option (gmap gostring (gmap gostring ledgerRow));
  ran : list gostring;
}.

Inductive call := Lock | CreateLedger | ReadLedger | Begin | Commit | Exec | WriteLedger.

(** Which calls fail, and the clock. *)
Context (fails : call -> nat -> bool) (now : nat -> Z).

Definition step (A : Type) : Type := world -> world * result migrate_error A.

Definition ret {A} (a : A) : step A := fun w => (w, Ok a).
Definition fail_with {A} (e : migrate_error) : step A := fun w => (w, Err e).
Definition bind {A B} (m : step A) (f : A -> step B) : step B := fun w =>
  let '(w, r) := m w in
  match r with Ok a => f a w | Err e => (w, Err e) end.
Notation "'do!' x <- m 'in' k" := (bind m (fun x => k)) (at level 10, x name, m at level 100, k at level 200).

(** One call: [f] is its effect. *)
Definition db_call (c : call) (e : migrate_error) (f : world -> world) : step unit := fun w =>
  let w' := World (S (tick w)) (ledger w) (ran w) in
  if fails c (tick w) then (w', Err e) else (f w', Ok tt).

Definition rows_of (own : gostring) (w : world) : gmap gostring ledgerRow :=
  default ∅ (match ledger w with Some l => l !! own | None => None end).

Definition set_rows (own : gostring) (m : gmap gostring ledgerRow) (w : world) : world :=
  World (tick w) (Some (<[own := m]> (default ∅ (ledger w)))) (ran w).

Definition lockMigrations (d : dialect) : step unit :=
  match d with SQLite => ret tt | MySQL | Postgres => db_call Lock ELock (fun w => w) end.

Definition ensureLedger : step unit :=
  db_call CreateLedger ELedger (fun w => World (tick w) (Some (default ∅ (ledger w))) (ran w)).

Definition readLedger (own : gostring) : step (gmap gostring ledgerRow) := fun w =>
  match ledger w with
  | None => (w, Ok ∅)
  | Some _ => let '(w', r) := db_call ReadLedger ELedger (fun w => w) w in
              match r with Ok _ => (w', Ok (rows_of own w')) | Err e => (w', Err e) end
  end.

(** A statement of the ledger that inserts a row: refused on its key. *)
Definition insert_row (own v : gostring) (r : ledgerRow) (e : migrate_error) : step unit := fun w =>
  match rows_of own w !! v with
  | Some _ => (World (S (tick w)) (ledger w) (ran w), Err e)
  | None => db_call WriteLedger e (fun w => set_rows own (<[v := r]> (rows_of own w)) w) w
  end.

(** One that updates it: no row is no error. *)
Definition update_row (own v : gostring) (f : ledgerRow -> ledgerRow) (e : migrate_error) : step unit :=
  db_call WriteLedger e (fun w => set_rows own (alter f v (rows_of own w)) w).

(** pool.ExecContext on a migration's statement. *)
Definition exec (s : gostring) (e : migrate_error) : step unit :=
  db_call Exec e (fun w => World (tick w) (ledger w) (ran w ++ [s])).

(** ** Status *)

Inductive mstate := applied | pending | partial | drifted | missing.

#[global] Instance mstate_eq_dec : EqDecision mstate.
Proof. solve_decision. Defined.

Record MigrationStatus := MkStatus {
  s_Owner : gostring; s_Version : gostring; s_Name : gostring; State : mstate; s_AppliedAt : option Z; Statements : Z;
}.

Definition file_status (rows : gmap gostring ledgerRow) (f : migration) : MigrationStatus :=
  match rows !! version f with
  | None => MkStatus (owner f) (version f) (name f) pending None 0
  | Some r =>
      match AppliedAt r with
      | None => MkStatus (owner f) (version f) (name f) partial None (StatementIndex r)
      | Some t => MkStatus (owner f) (version f) (name f)
                    (if seq_eqb (l_Checksum r) (sum f) then applied else drifted) (Some t) (StatementIndex r)
      end
  end.

Definition gone_status (own : gostring) (p : gostring * ledgerRow) : MigrationStatus :=
  MkStatus own p.1 (l_Name p.2) missing (AppliedAt p.2) (StatementIndex p.2).

Definition status_le (a b : MigrationStatus) : Prop := str_le (s_Version a) (s_Version b).
#[global] Instance status_le_dec : RelDecision status_le.
Proof. intros a b. unfold status_le. apply _. Defined.

Definition has_file (files : list migration) (v : gostring) : bool := existsb (fun f => seq_eqb (version f) v) files.

(** [status]. *)
Definition status (own : gostring) (files : list migration) (rows : gmap gostring ledgerRow) : list MigrationStatus :=
  merge_sort status_le
    (map (file_status rows) files
     ++ map (gone_status own) (List.filter (fun p => negb (has_file files p.1)) (map_to_list rows))).

Definition in_state (x : mstate) (s : MigrationStatus) : bool := bool_decide (State s = x).
Definition label (s : MigrationStatus) : gostring := s_Version s ++ str "_" ++ s_Name s.

Definition newest (sts : list MigrationStatus) : gostring :=
  fold_left (fun n s => if in_state applied s || in_state drifted s then str_max n (s_Version s) else n) sts [].

(** ** Running *)

(** The statements of [f] from the [i]-th on, in a transaction. *)
Fixpoint exec_all (f : gostring) (i : nat) (ss : list gostring) : step unit :=
  match ss with
  | [] => ret tt
  | s :: ss' => do! _ <- exec s (EStatement f (S i)) in exec_all f (S i) ss'
  end.

(** [runTransaction]: on an error, or a commit that fails, only the moments
    that passed remain. *)
Definition runTransaction (body : step unit) : step unit := fun w =>
  let '(w1, b) := db_call Begin EBegin (fun w => w) w in
  match b with
  | Err e => (w1, Err e)
  | Ok _ =>
      let '(w2, r) := body w1 in
      let back (t : nat) : world := World t (ledger w) (ran w) in
      match r with
      | Err e => (back (tick w2), Err e)
      | Ok _ => let '(w3, c) := db_call Commit ECommit (fun w => w) w2 in
                match c with Ok _ => (w3, Ok tt) | Err e => (back (tick w3), Err e) end
      end
  end.

Definition applied_row (row : option ledgerRow) : bool :=
  match row with Some r => match AppliedAt r with Some _ => true | None => false end | None => false end.

Definition is_applied (own v : gostring) (w : world) : bool := applied_row (rows_of own w !! v).

(** [applyInTx]. *)
Definition applyInTx (f : migration) : step unit :=
  runTransaction
    (do! _ <- db_call ReadLedger ELedger (fun w => w) in
     fun w =>
       if is_applied (owner f) (version f) w then (w, Ok tt)
       else (do! _ <- exec_all (file f) 0 (stmts f) in
             fun w => insert_row (owner f) (version f)
                        (LedgerRow (name f) (sum f) (Some (now (tick w))) (Z.of_nat (length (stmts f))))
                        (ERecord (file f) (length (stmts f))) w) w).

(** The loop of [applyByStatement] from the [i]-th statement on. *)
Fixpoint resume (f : migration) (i : nat) (ss : list gostring) (has : bool) : step unit :=
  match ss with
  | [] => ret tt
  | s :: ss' =>
      do! _ <- exec s (EStatement (file f) (S i)) in
      do! _ <- (if negb has
                then insert_row (owner f) (version f) (LedgerRow (name f) (prefixSum (stmts f) (S i)) None (Z.of_nat (S i)))
                       (ERecord (file f) (S i))
                else update_row (owner f) (version f)
                       (fun r => LedgerRow (name f) (prefixSum (stmts f) (S i)) (AppliedAt r) (Z.of_nat (S i)))
                       (ERecord (file f) (S i))) in
      resume f (S i) ss' true
  end.

(** [applyByStatement]. *)
Definition applyByStatement (f : migration) (row : option ledgerRow) : step unit := fun w =>
  let changed (r : ledgerRow) : bool :=
    (StatementIndex r >? Z.of_nat (length (stmts f)))
    || negb (seq_eqb (prefixSum (stmts f) (Z.to_nat (StatementIndex r))) (l_Checksum r)) in
  match row with
  | Some r =>
      if changed r then (w, Err (EChanged (file f) (StatementIndex r)))
      else let start := Z.to_nat (StatementIndex r) in
           (do! _ <- resume f start (drop start (stmts f)) true in
            fun w => update_row (owner f) (version f)
                       (fun r => LedgerRow (l_Name r) (sum f) (Some (now (tick w))) (Z.of_nat (length (stmts f))))
                       (ERecord (file f) (length (stmts f))) w) w
  | None =>
      (do! _ <- resume f 0 (stmts f) false in
       fun w => update_row (owner f) (version f)
                  (fun r => LedgerRow (l_Name r) (sum f) (Some (now (tick w))) (Z.of_nat (length (stmts f))))
                  (ERecord (file f) (length (stmts f))) w) w
  end.

(** The loop of [apply]: [rows] and [n] are what it read before. *)
Definition apply_file (d : dialect) (rows : gmap gostring ledgerRow) (n : gostring) (f : migration) : step unit :=
  let row := rows !! version f in
  if applied_row row then ret tt
  else if match row with Some _ => false | None => true end && str_ltb (version f) n then fail_with (EOlder (file f) n)
  else if decide (d = MySQL) then applyByStatement f row else applyInTx f.

Fixpoint apply_files (d : dialect) (rows : gmap gostring ledgerRow) (n : gostring) (files : list migration) : step unit :=
  match files with
  | [] => ret tt
  | f :: files' => do! _ <- apply_file d rows n f in apply_files d rows n files'
  end.

(** What [apply] does once it has read the ledger. *)
Definition apply_rows (d : dialect) (own : gostring) (files : list migration) (rows : gmap gostring ledgerRow) : step unit :=
  let sts := status own files rows in
  match List.filter (in_state drifted) sts with
  | (_ :: _) as l => fail_with (EChecksumDrift (map label l))
  | [] => match List.filter (in_state missing) sts with
          | (_ :: _) as l => fail_with (EFilesGone (map label l))
          | [] => apply_files d rows (newest sts) files
          end
  end.

(** [apply]. *)
Definition apply (d : dialect) (own : gostring) (files : list migration) : step unit :=
  do! _ <- lockMigrations d in
  do! _ <- ensureLedger in
  do! rows <- readLedger own in
  apply_rows d own files rows.

(** [markApplied]: an UPDATE, and an INSERT where it met no row. *)
Definition markApplied (d : dialect) (f : migration) : step unit :=
  do! _ <- lockMigrations d in
  do! _ <- ensureLedger in
  fun w =>
    let done_ (nm : gostring) := LedgerRow nm (sum f) (Some (now (tick w))) (Z.of_nat (length (stmts f))) in
    match rows_of (owner f) w !! version f with
    | Some _ => update_row (owner f) (version f) (fun _ => done_ (name f)) EMark w
    | None => (do! _ <- db_call WriteLedger EMark (fun w => w) in
               insert_row (owner f) (version f) (done_ (name f)) EMark) w
    end.

(** ** The modes of db.go *)

(** A registered schema, without its tables. *)
Record ownerSchema := OwnerSchema { o_owner : gostring; migrations : option (list (gostring * fnode)) }.

Definition lift {A} (r : result migrate_error A) : step A := fun w => (w, r).

Definition statusOf (d : dialect) (s : ownerSchema) : step (list MigrationStatus) :=
  match migrations s with
  | None => ret []
  | Some root =>
      do! files <- lift (loadMigrations root (o_owner s) d) in
      do! rows <- readLedger (o_owner s) in
      ret (status (o_owner s) files rows)
  end.

(** [migrate] with migrate: versioned, for a schema with migrations, and with
    migrate: off. *)
Definition migrate_versioned (d : dialect) (s : ownerSchema) : step unit :=
  match migrations s with
  | None => ret tt
  | Some root => do! files <- lift (loadMigrations root (o_owner s) d) in apply d (o_owner s) files
  end.

Definition migrate_off (d : dialect) (s : ownerSchema) : step unit :=
  do! sts <- statusOf d s in
  match List.filter (fun s => negb (in_state applied s)) sts with
  | (_ :: _) as l => fail_with (ENotMigrated (map label l))
  | [] => ret tt
  end.

(** [DB.MigrationStatus]. *)
Fixpoint all_status (d : dialect) (ss : list ownerSchema) : step (list MigrationStatus) :=
  match ss with
  | [] => ret []
  | s :: ss' => do! sts <- statusOf d s in do! rest <- all_status d ss' in ret (sts ++ rest)
  end.

(** [MarkApplied]: the migration of that version, of one schema. *)
Fixpoint find_version (d : dialect) (v : gostring) (ss : list ownerSchema) : result migrate_error (list migration) :=
  match ss with
  | [] => Ok []
  | s :: ss' =>
      match migrations s with
      | None => find_version d v ss'
      | Some root =>
          let? files := loadMigrations root (o_owner s) d in
          let? rest := find_version d v ss' in
          Ok (List.filter (fun f => seq_eqb (version f) v) files ++ rest)
      end
  end.

Definition MarkApplied (d : dialect) (v : gostring) (ss : list ownerSchema) : step unit :=
  do! found <- lift (find_version d v ss) in
  match found with
  | [] => fail_with EUnknownVersion
  | [f] => markApplied d f
  | l => fail_with (EAmbiguous (length l))
  end.
End engine.
