(* ===== verification/MigrateSpec.v ===== *)
(** What the migration engine promises: on MySQL a file that stopped halfway
    resumes where it stopped, in whatever calls of whatever runs the database
    fails; on SQLite and Postgres every file runs exactly once, all or
    nothing, however many processes start at once; and nothing runs on a
    ledger the files contradict. *)

From Stdlib Require Import ZArith Lia List Ascii Sorted.
From stdpp Require Import base decidable list gmap strings sorting.
From S2P Require Import Prelude GoStrings SqlSplit Migrate.

(** ** Logs *)

(** [replay d o l]: [l] is the statements [d], in order, each run again only
    until it was recorded; [o] is a statement run since and not recorded. *)
Inductive replay {A} : list A -> option A -> list A -> Prop :=
| replay_nil : replay [] None []
| replay_exec d o l x : replay d o l -> (forall y, o = Some y -> y = x) -> replay d (Some x) (l ++ [x])
| replay_record d l x : replay d (Some x) l -> replay (d ++ [x]) None l.

Lemma replay_length {A} (d : list A) o l :
  replay d o l -> (length d + match o with Some _ => 1 | None => 0 end <= length l)%nat.
Proof.
  induction 1 as [|d o l x H IH Ho|d l x H IH]; rewrite ?length_app; cbn in *; [lia| |lia].
  destruct o; lia.
Qed.

(** Without a repetition the log is what was recorded. *)
Lemma replay_exact {A} (d : list A) o l :
  replay d o l -> (length l <= length d + match o with Some _ => 1 | None => 0 end)%nat ->
  l = d ++ match o with Some x => [x] | None => [] end.
Proof.
  induction 1 as [|d o l x H IH Ho|d l x H IH]; rewrite ?length_app; cbn in *; [done| |].
  - intros L. pose proof (replay_length _ _ _ H). destruct o; [lia|]. rewrite IH by lia. by rewrite app_nil_r.
  - intros L. rewrite app_nil_r. apply IH. lia.
Qed.

Lemma alter_found {A} (f : A -> A) (k : gostring) (m : gmap gostring A) x :
  m !! k = Some x -> alter f k m = <[k := f x]> m.
Proof.
  intros E. apply map_eq. intros j. destruct (decide (k = j)) as [<-|N].
  - by rewrite lookup_alter_eq, lookup_insert_eq, E.
  - by rewrite lookup_alter_ne, lookup_insert_ne.
Qed.

(** ** Files in order *)

Definition before (f g : migration) : Prop := str_ltb (version f) (version g) = true.

(** An owner's files as [loadMigrations] answers them. *)
Record files_ok (own : gostring) (files : list migration) : Prop := {
  fo_owner : Forall (fun f => owner f = own) files;
  fo_sorted : StronglySorted before files;
  fo_stmts : Forall (fun f => stmts f <> []) files;
}.

Lemma before_irrefl f : ~ before f f.
Proof. unfold before, str_ltb. by rewrite str_leb_refl. Qed.

Lemma sorted_lookup {A} (R : A -> A -> Prop) l i j x y :
  StronglySorted R l -> l !! i = Some x -> l !! j = Some y -> (i < j)%nat -> R x y.
Proof.
  intros H. revert i j. induction H as [|a l H IH F]; intros i j Hi Hj L; [done|].
  destruct j as [|j]; [lia|]. cbn in Hj. destruct i as [|i].
  - cbn in Hi. injection Hi as <-. rewrite Forall_lookup in F. by apply (F j).
  - cbn in Hi. apply (IH i j); [done..|lia].
Qed.

Lemma files_ok_before own files i j f g :
  files_ok own files -> files !! i = Some f -> files !! j = Some g -> (i < j)%nat -> before f g.
Proof. intros F. by apply sorted_lookup, (fo_sorted _ _ F). Qed.

Lemma files_ok_inj own files i j f g :
  files_ok own files -> files !! i = Some f -> files !! j = Some g -> version f = version g -> i = j.
Proof.
  intros F Hi Hj E. destruct (Nat.lt_trichotomy i j) as [L|[->|L]]; [exfalso|done|exfalso];
    (eapply files_ok_before in L; [|done..]); unfold before, str_ltb in L; by rewrite E, str_leb_refl in L.
Qed.

Lemma files_ok_stmts own files i f : files_ok own files -> files !! i = Some f -> owner f = own /\ stmts f <> [].
Proof.
  intros F E. split.
  - exact (proj1 (Forall_lookup _ _) (fo_owner _ _ F) _ _ E).
  - exact (proj1 (Forall_lookup _ _) (fo_stmts _ _ F) _ _ E).
Qed.

Section engine.
Context (checksum : gostring -> gostring).

(** ** Where a ledger stands

    The first [i] files are applied, [j] statements of the next one are
    recorded, and nothing else is. *)

Definition applied_as (rows : gmap gostring ledgerRow) (f : migration) : Prop :=
  exists r, rows !! version f = Some r /\ is_Some (AppliedAt r) /\ l_Checksum r = sum f.

Definition partial_row (f : migration) (j : nat) : option ledgerRow :=
  match j with O => None | S _ => Some (LedgerRow (name f) (prefixSum checksum (stmts f) j) None (Z.of_nat j)) end.

Record ledger_at (files : list migration) (i j : nat) (rows : gmap gostring ledgerRow) : Prop := {
  la_done : forall n f, files !! n = Some f -> (n < i)%nat -> applied_as rows f;
  la_here : forall f, files !! i = Some f -> rows !! version f = partial_row f j /\ (j <= length (stmts f))%nat;
  la_later : forall n f, files !! n = Some f -> (i < n)%nat -> rows !! version f = None;
  la_known : forall v r, rows !! v = Some r -> exists n f, files !! n = Some f /\ version f = v;
  la_size : (i <= length files)%nat;
  la_end : files !! i = None -> j = O;
}.

Lemma ledger_at_empty files : ledger_at files 0 0 ∅.
Proof.
  constructor.
  - intros. lia.
  - intros f _. split; [apply lookup_empty|lia].
  - intros n f _ _. apply lookup_empty.
  - intros v r. by rewrite lookup_empty.
  - lia.
  - done.
Qed.

Lemma ledger_at_partial own files i j rows f :
  files_ok own files -> ledger_at files i j rows -> files !! i = Some f -> (S j <= length (stmts f))%nat ->
  ledger_at files i (S j) (<[version f := LedgerRow (name f) (prefixSum checksum (stmts f) (S j)) None (Z.of_nat (S j))]> rows).
Proof.
  intros F [D H L K Z Q] E Hj. constructor; try done.
  - intros n g Eg Ln. destruct (D n g Eg Ln) as (r & Er & X). exists r. split; [|done].
    rewrite lookup_insert_ne; [done|]. intros V. assert (i = n) by (by eapply files_ok_inj). lia.
  - intros g Eg. rewrite E in Eg. injection Eg as <-. rewrite lookup_insert_eq. by split.
  - intros n g Eg Ln. rewrite lookup_insert_ne; [by apply (L n)|].
    intros V. assert (i = n) by (by eapply files_ok_inj). lia.
  - intros v r. destruct (decide (version f = v)) as [<-|N]; [by eauto|]. rewrite lookup_insert_ne by done. apply K.
  - by rewrite E.
Qed.

Lemma ledger_at_applied own files i j rows f r :
  files_ok own files -> ledger_at files i j rows -> files !! i = Some f -> is_Some (AppliedAt r) -> l_Checksum r = sum f ->
  ledger_at files (S i) 0 (<[version f := r]> rows).
Proof.
  intros F [D H L K Z Q] E Ha Hc. constructor.
  - intros n g Eg Ln. destruct (decide (n = i)) as [->|N].
    + rewrite E in Eg. injection Eg as <-. exists r. by rewrite lookup_insert_eq.
    + destruct (D n g Eg ltac:(lia)) as (r' & Er & X). exists r'. split; [|done].
      rewrite lookup_insert_ne; [done|]. intros V. assert (i = n) by (by eapply files_ok_inj). lia.
  - intros g Eg. split; [|lia]. rewrite lookup_insert_ne; [apply (L (S i)); [done|lia]|].
    intros V. assert (i = S i) by (by eapply files_ok_inj). lia.
  - intros n g Eg Ln. rewrite lookup_insert_ne; [apply (L n); [done|lia]|].
    intros V. assert (i = n) by (by eapply files_ok_inj). lia.
  - intros v r'. destruct (decide (version f = v)) as [<-|N]; [by eauto|]. rewrite lookup_insert_ne by done. apply K.
  - apply lookup_lt_Some in E. lia.
  - done.
Qed.

(** The row of a file tells where it stands. *)
Lemma ledger_at_row own files i j rows n f :
  files_ok own files -> ledger_at files i j rows -> files !! n = Some f ->
  applied_row (rows !! version f) = (n <? i)%nat.
Proof.
  intros F [D H L K Z Q] E. destruct (Nat.ltb_spec n i) as [Ln|Ln].
  - destruct (D n f E Ln) as (r & -> & [t Ht] & _). cbn. by rewrite Ht.
  - destruct (decide (n = i)) as [->|N].
    + rewrite (proj1 (H f E)). by destruct j.
    + rewrite (L n f E) by lia. done.
Qed.

(** ** What was recorded *)

Definition script (files : list migration) : list gostring := concat (map stmts files).

Definition recorded (files : list migration) (i j : nat) : list gostring :=
  script (take i files) ++ match files !! i with Some f => take j (stmts f) | None => [] end.

Lemma recorded_next files i f : files !! i = Some f -> recorded files i (length (stmts f)) = recorded files (S i) 0.
Proof.
  intros E. unfold recorded, script. rewrite E, (take_S_r _ _ _ E), map_app, concat_app. cbn.
  rewrite firstn_all. rewrite app_nil_r. destruct (files !! S i); cbn; by rewrite app_nil_r.
Qed.

Lemma recorded_statement files i j f x :
  files !! i = Some f -> stmts f !! j = Some x -> recorded files i (S j) = recorded files i j ++ [x].
Proof. intros E Ex. unfold recorded. by rewrite E, (take_S_r _ _ _ Ex), app_assoc. Qed.

Lemma recorded_zero files i : recorded files i 0 = script (take i files).
Proof. unfold recorded. destruct (files !! i); cbn; by rewrite app_nil_r. Qed.

Lemma recorded_prefix files i j : recorded files i j `prefix_of` script files.
Proof.
  unfold recorded. destruct (files !! i) as [f|] eqn:E.
  - rewrite <- (take_drop_middle files i f E) at 2. unfold script. rewrite map_app, concat_app. cbn.
    apply prefix_app. apply prefix_app_r. exists (drop j (stmts f)). by rewrite firstn_skipn.
  - rewrite app_nil_r. exists (script (drop i files)). unfold script. by rewrite <- concat_app, <- map_app, firstn_skipn.
Qed.
End engine.

Section runs.
Context (checksum : gostring -> gostring) (fails : call -> nat -> bool) (now : nat -> Z).

Lemma rows_of_set own m w : rows_of own (set_rows own m w) = m.
Proof. unfold rows_of, set_rows. cbn. by rewrite lookup_insert_eq. Qed.

(** The ledger writes that failed from one moment to another. *)
Definition failed_writes (a b : nat) : nat := length (List.filter (fails WriteLedger) (seq a (b - a))).

#[local] Arguments failed_writes : simpl never.
#[local] Arguments recorded : simpl never.

Lemma failed_writes_S a b : (a <= b)%nat ->
  failed_writes a (S b) = (failed_writes a b + if fails WriteLedger b then 1 else 0)%nat.
Proof.
  intros H. unfold failed_writes. replace (S b - a)%nat with (S (b - a)) by lia.
  rewrite seq_S, List.filter_app, length_app. cbn. replace (a + (b - a))%nat with b by lia.
  by destruct (fails WriteLedger b).
Qed.

Lemma failed_writes_mono a b c : (a <= b)%nat -> (b <= c)%nat -> (failed_writes a b <= failed_writes a c)%nat.
Proof. intros H1 H2. induction H2; [done|]. rewrite failed_writes_S by lia. lia. Qed.

(** Time passes: every step of the engine ends no earlier than it starts. *)
Definition mono {A} (m : step A) : Prop := forall w, (tick w <= tick (m w).1)%nat.

Lemma mono_call c e f : (forall w, tick (f w) = tick w) -> mono (db_call fails c e f).
Proof. intros H w. unfold db_call. case_match; cbn; rewrite ?H; cbn; lia. Qed.

Lemma mono_bind {A B} (m : step A) (k : A -> step B) : mono m -> (forall a, mono (k a)) -> mono (bind m k).
Proof.
  intros Hm Hk w. unfold bind. specialize (Hm w). destruct (m w) as [w1 [a|e]]; [|done].
  specialize (Hk a w1). cbn in *. lia.
Qed.

Lemma mono_here {A} (m : world -> step A) : (forall w, mono (m w)) -> mono (fun w => m w w).
Proof. intros H w. apply H. Qed.

Lemma mono_update own v f e : mono (update_row fails own v f e).
Proof. by apply mono_call. Qed.

Lemma mono_insert own v r e : mono (insert_row fails own v r e).
Proof. intros w. unfold insert_row. case_match; cbn; [lia|]. by apply mono_call. Qed.

Lemma mono_exec s e : mono (exec fails s e).
Proof. by apply mono_call. Qed.

Lemma mono_resume f i ss has : mono (resume checksum fails f i ss has).
Proof.
  revert i has. induction ss as [|s ss IH]; intros i has; cbn; [intros w; done|].
  apply mono_bind; [apply mono_exec|]. intros _. apply mono_bind; [|auto]. destruct has; [apply mono_update|apply mono_insert].
Qed.

Lemma mono_byStatement f row : mono (applyByStatement checksum fails now f row).
Proof.
  intros w. unfold applyByStatement. destruct row as [r|]; [case_match; [done|]|];
    (apply mono_bind; [apply mono_resume|intros _; apply (mono_here (fun w => update_row fails _ _ _ _)); intros; apply mono_update]).
Qed.

(** What a sequence answers, by what its first part does. *)
Lemma bind_case {A B} (m : step A) (k : A -> step B) w (P : world * result migrate_error B -> Prop) :
  (forall w1 a, m w = (w1, Ok a) -> P (k a w1)) -> (forall w1 e, m w = (w1, Err e) -> P (w1, Err e)) -> P (bind m k w).
Proof. intros H1 H2. unfold bind. destruct (m w) as [w1 [a|e]]; auto. Qed.

(** No call fails from now on. *)
Definition calm (w : world) : Prop := forall c t, (tick w <= t)%nat -> fails c t = false.

Lemma calm_le w w' : (tick w <= tick w')%nat -> calm w -> calm w'.
Proof. intros L C c t H. apply C. lia. Qed.

(** ** MySQL *)

Section mysql.
Context (own : gostring) (files : list migration) (F : files_ok own files) (w0 : world).

(** The log since [w0], where the ledger stands at [i] and [j]. *)
Definition stands (i j : nat) (o : option gostring) (w : world) : Prop :=
  ledger_at checksum files i j (rows_of own w)
  /\ (tick w0 <= tick w)%nat
  /\ exists l, ran w = ran w0 ++ l
       /\ replay (recorded files i j) o l
       /\ (forall x, o = Some x -> exists f, files !! i = Some f /\ stmts f !! j = Some x)
       /\ (length l <= length (recorded files i j) + failed_writes (tick w0) (tick w))%nat.

Lemma stands_tick i j o w t : stands i j o w -> (tick w <= t)%nat ->
  stands i j o (World t (ledger w) (ran w)).
Proof.
  intros (L & T & l & R & P & X & N) Ht. split; [done|]. cbn. split; [lia|]. exists l. split_and!; try done.
  pose proof (failed_writes_mono (tick w0) (tick w) t T Ht). lia.
Qed.

Lemma stands_lock d i j o w : stands i j o w ->
  stands i j o (lockMigrations fails d w).1 /\ (calm w -> (lockMigrations fails d w).2 = Ok tt).
Proof.
  intros S. assert (S' := stands_tick _ _ _ _ (tick w + 1) S ltac:(lia)). rewrite Nat.add_1_r in S'.
  destruct d; cbn [lockMigrations]; unfold ret, db_call; cbn; try (by split); case_match; cbn; split; try done; intros NF; rewrite NF in *; done.
Qed.

Lemma stands_set i j o w g : stands i j o w -> rows_of own (World (tick w) g (ran w)) = rows_of own w ->
  stands i j o (World (tick w) g (ran w)).
Proof. intros (L & T & l & R) E. split; [by rewrite E|]. split; [done|]. by exists l. Qed.

Lemma rows_of_ensure w : rows_of own (World (tick w) (Some (default ∅ (ledger w))) (ran w)) = rows_of own w.
Proof. unfold rows_of. cbn. by destruct (ledger w). Qed.

Lemma stands_ensure i j o w : stands i j o w ->
  stands i j o (ensureLedger fails w).1 /\ (calm w -> (ensureLedger fails w).2 = Ok tt).
Proof.
  intros S. assert (S' := stands_tick _ _ _ _ (tick w + 1) S ltac:(lia)). rewrite Nat.add_1_r in S'.
  unfold ensureLedger, db_call. case_match; cbn; split; try done; [intros NF; by rewrite NF in *|].
  apply (stands_set _ _ _ _ (Some (default ∅ (ledger w))) S'). apply (rows_of_ensure w).
Qed.

(** One statement and its record. *)
Lemma stands_exec i j o w f x : stands i j o w -> files !! i = Some f -> stmts f !! j = Some x -> forall e,
  let p := exec fails x e w in
  (p.2 = Ok tt /\ tick w0 <= tick p.1 /\ rows_of own p.1 = rows_of own w
     /\ (exists l, ran p.1 = ran w0 ++ l /\ replay (recorded files i j) (Some x) l
          /\ (length l <= length (recorded files i j) + failed_writes (tick w0) (tick p.1) + 1)%nat))%nat
  \/ (p.2 = Err e /\ fails Exec (tick w) = true /\ stands i j o p.1).
Proof.
  intros S Ef Ex e p. subst p. unfold exec, db_call. destruct (fails Exec (tick w)) eqn:E; [right|left]; cbn.
  - split_and!; try done. apply stands_tick; [done|lia].
  - destruct S as (L & T & l & R & P & X & N). split_and!; [done|lia|done|].
    exists (l ++ [x]). split_and!.
    + by rewrite R, app_assoc.
    + econstructor; [exact P|]. intros y Hy. destruct (X y Hy) as (g & Eg & Ey).
      rewrite Ef in Eg. injection Eg as <-. rewrite Ex in Ey. by injection Ey.
    + rewrite length_app. cbn. pose proof (failed_writes_mono (tick w0) (tick w) (S (tick w)) T ltac:(lia)). lia.
Qed.

Lemma stands_write i j w f x e : files !! i = Some f -> stmts f !! j = Some x -> (tick w0 <= tick w)%nat ->
  ledger_at checksum files i j (rows_of own w) ->
  (exists l, ran w = ran w0 ++ l /\ replay (recorded files i j) (Some x) l
     /\ (length l <= length (recorded files i j) + failed_writes (tick w0) (tick w) + 1)%nat) ->
  let row := LedgerRow (name f) (prefixSum checksum (stmts f) (S j)) None (Z.of_nat (S j)) in
  let p := db_call fails WriteLedger e (fun w => set_rows own (<[version f := row]> (rows_of own w)) w) w in
  (p.2 = Ok tt /\ stands i (S j) None p.1)
  \/ (p.2 = Err e /\ fails WriteLedger (tick w) = true /\ stands i j (Some x) p.1).
Proof.
  intros Ef Ex T L (l & R & P & N) row p. subst p. unfold db_call.
  destruct (fails WriteLedger (tick w)) eqn:E; [right|left]; cbn.
  - split_and!; [done..|]. split; [done|]. cbn. split; [lia|]. exists l. split_and!; try done.
    + intros y [= <-]. eauto.
    + rewrite failed_writes_S, E by lia. lia.
  - split; [done|]. split; [|cbn; split; [lia|]].
    + rewrite rows_of_set. apply (ledger_at_partial _ own); try done. apply lookup_lt_Some in Ex. done.
    + exists l. rewrite (recorded_statement _ _ _ _ _ Ef Ex). split_and!; try done.
      * by constructor.
      * rewrite length_app. cbn. rewrite failed_writes_S, E by lia. lia.
Qed.

Lemma no_statement_left i j o w f : stands i j o w -> files !! i = Some f -> (length (stmts f) <= j)%nat -> o = None.
Proof.
  intros (L & T & l & R & P & X & N) Ef Hj. destruct o as [x|]; [|done].
  destruct (X x eq_refl) as (g & Eg & Ex). rewrite Ef in Eg. injection Eg as <-. apply lookup_lt_Some in Ex. lia.
Qed.

(** The write after the [j]-th statement: the first one inserts the row. *)
Lemma record_write i j w f e : files !! i = Some f -> ledger_at checksum files i j (rows_of own w) ->
  (if negb (0 <? j)%nat
   then insert_row fails (owner f) (version f) (LedgerRow (name f) (prefixSum checksum (stmts f) (S j)) None (Z.of_nat (S j))) e
   else update_row fails (owner f) (version f)
          (fun r => LedgerRow (name f) (prefixSum checksum (stmts f) (S j)) (AppliedAt r) (Z.of_nat (S j))) e) w
  = db_call fails WriteLedger e (fun w => set_rows own
      (<[version f := LedgerRow (name f) (prefixSum checksum (stmts f) (S j)) None (Z.of_nat (S j))]> (rows_of own w)) w) w.
Proof.
  intros Ef L. destruct (files_ok_stmts _ _ _ _ F Ef) as [-> _].
  destruct (la_here _ _ _ _ _ L f Ef) as [Er _]. destruct j as [|j]; cbn [Nat.ltb Nat.leb negb].
  - unfold insert_row. rewrite Er. done.
  - unfold update_row, db_call. case_match; [done|]. f_equal. f_equal.
    change (rows_of own (World (S (tick w)) (ledger w) (ran w))) with (rows_of own w).
    by rewrite (alter_found _ _ _ _ Er).
Qed.

Lemma resume_stands i f ss : files !! i = Some f -> forall j o w, stands i j o w -> drop j (stmts f) = ss ->
  let p := resume checksum fails f j ss (0 <? j)%nat w in
  (exists j' o', stands i j' o' p.1 /\ (p.2 = Ok tt -> j' = length (stmts f)))
  /\ (calm w -> p.2 = Ok tt).
Proof.
  intros Ef. induction ss as [|x ss IH]; intros j o w S D; cbn.
  - split; [|done]. exists j, o. split; [done|]. intros _.
    pose proof (proj2 (la_here _ _ _ _ _ (proj1 S) f Ef)). apply (f_equal length) in D. rewrite length_drop in D. cbn in D. lia.
  - assert (Ex : stmts f !! j = Some x) by (rewrite <- (Nat.add_0_r j), <- lookup_drop, D; done).
    assert (D' : drop (Datatypes.S j) (stmts f) = ss) by (rewrite <- Nat.add_1_r, <- drop_drop, D; done).
    unfold bind. set (e1 := EStatement (file f) (Datatypes.S j)). pose proof (stands_exec i j o w f x S Ef Ex e1) as H.
    pose proof (mono_exec x e1 w) as M1. destruct (exec fails x e1 w) as [w1 r1]; cbn in H, M1.
    destruct H as [(-> & T1 & R1 & H1)|(-> & E1 & S1)]; [|split; [by exists j, o|intros NF; by rewrite NF in E1]].
    assert (L1 : ledger_at checksum files i j (rows_of own w1)) by (rewrite R1; apply S).
    rewrite (record_write i j w1 f _ Ef L1). set (wr := fun w => set_rows own _ w).
    pose proof (mono_call WriteLedger (ERecord (file f) (Datatypes.S j)) wr (fun _ => eq_refl) w1) as M2.
    destruct (stands_write i j w1 f x (ERecord (file f) (Datatypes.S j)) Ef Ex T1 L1 H1) as [(E2 & S2)|(E2 & FW & S2)]; fold wr in E2, S2;
      destruct (db_call fails WriteLedger _ _ w1) as [w2 r2]; cbn in E2, S2, M2; subst r2.
    + destruct (IH (Datatypes.S j) None w2 S2 D') as [X NF2]. split; [exact X|]. intros NF. apply NF2. apply (calm_le w); [lia|done].
    + split; [by exists j, (Some x)|]. intros NF. rewrite NF in FW; [done|lia].
Qed.

(** The last write of a file. *)
Lemma finish_stands i f w e : files !! i = Some f -> stands i (length (stmts f)) None w ->
  let p := update_row fails (owner f) (version f)
             (fun r => LedgerRow (l_Name r) (sum f) (Some (now (tick w))) (Z.of_nat (length (stmts f)))) e w in
  (exists i' j' o', (i <= i')%nat /\ stands i' j' o' p.1 /\ (p.2 = Ok tt -> i' = Datatypes.S i /\ j' = O /\ o' = None))
  /\ (calm w -> p.2 = Ok tt).
Proof.
  intros Ef S p. subst p. destruct (files_ok_stmts _ _ _ _ F Ef) as [-> Hne].
  unfold update_row, db_call. destruct (fails WriteLedger (tick w)) eqn:E; cbn.
  - split; [|intros NF; by rewrite NF in E]. exists i, (length (stmts f)), None. split; [lia|]. split; [|done].
    apply stands_tick; [done|lia].
  - split; [|done]. exists (Datatypes.S i), O, None. split; [lia|]. split; [|done].
    destruct S as (L & T & l & R & P & X & N). destruct (la_here _ _ _ _ _ L f Ef) as [Er _].
    split; [|cbn; split; [lia|]].
    + rewrite rows_of_set. change (rows_of own (World _ (ledger w) (ran w))) with (rows_of own w).
      destruct (stmts f) as [|x ss] eqn:Es; [done|]. cbn [length partial_row] in Er.
      rewrite (alter_found _ _ _ _ Er). eapply ledger_at_applied; done.
    + exists l. rewrite <- (recorded_next _ _ _ Ef). split_and!; try done.
      pose proof (failed_writes_S (tick w0) (tick w) T) as E'. rewrite E in E'. lia.
Qed.

Lemma applyByStatement_stands i j o w f : stands i j o w -> files !! i = Some f ->
  let p := applyByStatement checksum fails now f (rows_of own w !! version f) w in
  (exists i' j' o', (i <= i')%nat /\ stands i' j' o' p.1 /\ (p.2 = Ok tt -> i' = Datatypes.S i /\ j' = O /\ o' = None))
  /\ (calm w -> p.2 = Ok tt).
Proof.
  intros S Ef p. destruct (la_here _ _ _ _ _ (proj1 S) f Ef) as [Er Hj].
  assert (E : p = bind (resume checksum fails f j (drop j (stmts f)) (0 <? j)%nat)
      (fun _ w => update_row fails (owner f) (version f)
        (fun r => LedgerRow (l_Name r) (sum f) (Some (now (tick w))) (Z.of_nat (length (stmts f)))) (ERecord (file f) (length (stmts f))) w) w).
  { subst p. unfold applyByStatement. rewrite Er. destruct j as [|j]; [done|]. cbn [partial_row StatementIndex l_Checksum].
    rewrite Nat2Z.id. unfold seq_eqb. rewrite bool_decide_true by done.
    rewrite Z.gtb_ltb, (proj2 (Z.ltb_ge _ _)) by lia. done. }
  rewrite E. unfold bind. destruct (resume_stands i f _ Ef j o w S eq_refl) as [(j' & o' & S1 & Q1) NF1].
  pose proof (mono_resume f j (drop j (stmts f)) (0 <? j)%nat w) as M1.
  destruct (resume checksum fails f j _ _ w) as [w1 r1]; cbn in S1, Q1, NF1, M1.
  destruct r1 as [[]|e1].
  - specialize (Q1 eq_refl). subst j'. rewrite (no_statement_left _ _ _ _ _ S1 Ef ltac:(lia)) in S1.
    destruct (finish_stands i f w1 (ERecord (file f) (length (stmts f))) Ef S1) as [X NF2]. split; [exact X|].
    intros NF. apply NF2. by apply (calm_le w).
  - cbn. split; [|intros NF; by specialize (NF1 NF)]. exists i, j', o'. split; [lia|]. by split.
Qed.

(** The loop of [apply] over the files not yet applied. *)
Lemma apply_files_stands rows n fs rest : fs `prefix_of` files ->
  (forall f, f ∈ rest -> str_ltb (version f) n = false) -> forall i j o w, stands i j o w -> drop i fs = rest ->
  (i < length fs \/ i = length fs /\ j = O)%nat ->
  (forall f, files !! i = Some f -> rows !! version f = rows_of own w !! version f) ->
  (forall k f, files !! k = Some f -> (i < k)%nat -> rows !! version f = None) ->
  let p := apply_files checksum fails now MySQL rows n rest w in
  (exists i' j' o', (i <= i')%nat /\ stands i' j' o' p.1 /\ (p.2 = Ok tt -> i' = length fs /\ j' = O))
  /\ (calm w -> p.2 = Ok tt).
Proof.
  intros Hfs. induction rest as [|f rest IH]; intros Hn i j o w S D Hi Hr Hl; cbn.
  - split; [|done]. exists i, j, o. split; [done|]. split; [done|]. intros _.
    apply (f_equal length) in D. rewrite length_drop in D. cbn in D. lia.
  - assert (Ef : files !! i = Some f).
    { destruct Hfs as [tl ->]. apply lookup_app_l_Some. rewrite <- (Nat.add_0_r i), <- lookup_drop, D. done. }
    assert (D' : drop (Datatypes.S i) fs = rest) by (rewrite <- Nat.add_1_r, <- drop_drop, D; done).
    assert (Hi' : (i < length fs)%nat) by (apply (f_equal length) in D; rewrite length_drop in D; cbn in D; lia).
    unfold bind, apply_file. rewrite (Hr f Ef), (ledger_at_row _ _ _ _ _ _ _ _ F (proj1 S) Ef), Nat.ltb_irrefl.
    rewrite (Hn f) by set_solver. rewrite andb_false_r, decide_True by done.
    destruct (applyByStatement_stands i j o w f S Ef) as [(i1 & j1 & o1 & L1 & S1 & Q1) NF1].
    pose proof (mono_byStatement f (rows_of own w !! version f) w) as M1.
    destruct (applyByStatement checksum fails now f _ w) as [w1 r1]; cbn in S1, Q1, NF1, M1.
    destruct r1 as [[]|e1].
    + destruct (Q1 eq_refl) as (-> & -> & ->).
      destruct (IH ltac:(set_solver) (Datatypes.S i) O None w1 S1 D') as [(i2 & j2 & o2 & L2 & X2) NF2].
      * lia.
      * intros g Eg. rewrite (Hl (Datatypes.S i) g Eg) by lia.
        by destruct (la_here _ _ _ _ _ (proj1 S1) g Eg) as [-> _].
      * intros k g Eg Lk. apply (Hl k g Eg). lia.
      * split; [exists i2, j2, o2; split; [lia|done]|]. intros NF. apply NF2. by apply (calm_le w).
    + cbn. split; [|intros NF; by specialize (NF1 NF)]. exists i1, j1, o1. by split.
Qed.

(** ** The states of the files *)

Lemma in_states (p : mstate) fs rows s : s ∈ List.filter (in_state p) (status own fs rows) <->
  (State s = p /\ ((exists f, f ∈ fs /\ s = file_status rows f)
     \/ exists v r, rows !! v = Some r /\ has_file fs v = false /\ s = gone_status own (v, r))).
Proof.
  rewrite list_elem_of_In, filter_In, <- list_elem_of_In. unfold in_state, status. rewrite bool_decide_eq_true.
  assert (E : forall x, x ∈ merge_sort status_le (map (file_status rows) fs
      ++ map (gone_status own) (List.filter (fun p => negb (has_file fs p.1)) (map_to_list rows)))
    <-> x ∈ map (file_status rows) fs \/ x ∈ map (gone_status own) (List.filter (fun p => negb (has_file fs p.1)) (map_to_list rows))).
  { intros x. rewrite (merge_sort_Permutation status_le). apply elem_of_app. }
  rewrite E, !list_elem_of_fmap. split.
  - intros [[(f & -> & Hf)|((v & r) & -> & Hr)] <-]; (split; [done|]); [left; eauto|right].
    apply list_elem_of_In, filter_In in Hr as [Hr Hh]. apply list_elem_of_In, elem_of_map_to_list in Hr.
    exists v, r. split; [done|]. split; [|done]. by apply negb_true_iff.
  - intros [<- [(f & Hf & ->)|(v & r & Hr & Hh & ->)]]; (split; [|done]); [left; eauto|right].
    exists (v, r). split; [done|]. apply list_elem_of_In, filter_In. split; [|cbn; by rewrite Hh].
    by apply list_elem_of_In, elem_of_map_to_list.
Qed.

Lemma newest_of sts : newest sts = [] \/ exists s, s ∈ sts /\ (State s = applied \/ State s = drifted) /\ newest sts = s_Version s.
Proof.
  unfold newest. assert (G : forall acc, (acc = [] \/ exists s, s ∈ sts /\ (State s = applied \/ State s = drifted) /\ acc = s_Version s) ->
    forall l, (forall s, s ∈ l -> s ∈ sts) ->
    let n := fold_left (fun n s => if in_state applied s || in_state drifted s then str_max n (s_Version s) else n) l acc in
    n = [] \/ exists s, s ∈ sts /\ (State s = applied \/ State s = drifted) /\ n = s_Version s).
  { intros acc Ha l. revert acc Ha. induction l as [|s l IH]; intros acc Ha Hl; [done|]. cbn. apply IH; [|set_solver].
    destruct (in_state applied s || in_state drifted s) eqn:E; [|done]. unfold str_max. case_match; [done|]. right. exists s.
    split; [set_solver|]. split; [|done]. apply orb_true_iff in E as [E|E]; apply bool_decide_eq_true in E; auto. }
  apply G; auto.
Qed.

Lemma file_state_applied rows f : State (file_status rows f) = applied -> applied_as rows f.
Proof.
  unfold file_status, applied_as. case_match; [|done]. destruct (AppliedAt _) eqn:E; [|done]. cbn.
  case_match eqn:X; [|done]. intros _. eexists. split; [done|]. split; [by rewrite E|]. by apply bool_decide_eq_true in X.
Qed.

Lemma applied_as_state rows f : applied_as rows f -> State (file_status rows f) = applied.
Proof.
  intros (r & Er & [t Et] & Ec). unfold file_status. rewrite Er, Et, Ec. cbn. unfold seq_eqb. by rewrite bool_decide_true.
Qed.

Lemma has_file_spec fs v : has_file fs v = true <-> exists f, f ∈ fs /\ version f = v.
Proof.
  unfold has_file. rewrite existsb_exists. split; intros (f & Hf & E); exists f.
  - split; [by apply list_elem_of_In|]. by apply bool_decide_eq_true in E.
  - split; [by apply list_elem_of_In|]. by apply bool_decide_eq_true_2.
Qed.

(** On a ledger the files explain, a run with the first [length fs] files. *)
Lemma prefix_file fs f : fs `prefix_of` files -> f ∈ fs -> exists k, files !! k = Some f /\ (k < length fs)%nat.
Proof.
  intros [tl E] [k Ek]%list_elem_of_lookup. exists k. split; [|by eapply lookup_lt_Some]. rewrite E. by apply lookup_app_l_Some.
Qed.

Lemma prefix_file_in fs k f : fs `prefix_of` files -> files !! k = Some f -> (k < length fs)%nat -> f ∈ fs.
Proof. intros [tl E] Ek L. rewrite E, lookup_app_l in Ek by done. by eapply list_elem_of_lookup_2. Qed.

Lemma ledger_file_state i j rows fs f : ledger_at checksum files i j rows -> fs `prefix_of` files -> f ∈ fs ->
  exists k, files !! k = Some f
    /\ (State (file_status rows f) = applied /\ (k < i)%nat \/ State (file_status rows f) = pending \/ State (file_status rows f) = partial).
Proof.
  intros L Hfs Hf. destruct (prefix_file fs f Hfs Hf) as (k & Ek & _). exists k. split; [done|].
  destruct (Nat.lt_trichotomy k i) as [H|[->|H]].
  - left. split; [|done]. by apply applied_as_state, (la_done _ _ _ _ _ L k).
  - right. unfold file_status. destruct (la_here _ _ _ _ _ L f Ek) as [-> _]. destruct j; [by left|by right].
  - right. left. unfold file_status. by rewrite (la_later _ _ _ _ _ L k f Ek) by lia.
Qed.

Lemma ledger_no_drift i j rows fs : ledger_at checksum files i j rows -> fs `prefix_of` files ->
  List.filter (in_state drifted) (status own fs rows) = [].
Proof.
  intros L Hfs. destruct (List.filter _ _) as [|s l] eqn:E; [done|exfalso].
  assert (Hs : s ∈ List.filter (in_state drifted) (status own fs rows)) by (rewrite E; apply list_elem_of_here).
  apply in_states in Hs as [Hd [(f & Hf & ->)|(v & r & _ & _ & ->)]]; [|done].
  destruct (ledger_file_state i j rows fs f L Hfs Hf) as (k & _ & [[X _]|[X|X]]); congruence.
Qed.

(** The row of a file that is not given is missing. *)
Lemma ledger_missing rows fs k f r : fs `prefix_of` files -> files !! k = Some f -> (length fs <= k)%nat ->
  rows !! version f = Some r -> List.filter (in_state missing) (status own fs rows) <> [].
Proof.
  intros Hfs Ek Lk Er E. assert (Hm : gone_status own (version f, r) ∈ List.filter (in_state missing) (status own fs rows)).
  { apply in_states. split; [done|]. right. exists (version f), r. split; [done|]. split; [|done].
    apply not_true_is_false. rewrite has_file_spec. intros (g & Hg & Ev). destruct (prefix_file fs g Hfs Hg) as (k' & Ek' & Lk').
    assert (k' = k) by (by eapply files_ok_inj). lia. }
  rewrite E in Hm. by apply elem_of_nil in Hm.
Qed.

Lemma ledger_within i j rows fs : ledger_at checksum files i j rows -> fs `prefix_of` files ->
  List.filter (in_state missing) (status own fs rows) = [] -> (i < length fs \/ i = length fs /\ j = O)%nat.
Proof.
  intros L Hfs E. destruct (Nat.lt_trichotomy i (length fs)) as [|[H|H]]; [by left|right|exfalso].
  - split; [done|]. destruct (files !! i) as [f|] eqn:Ef; [|by apply (la_end _ _ _ _ _ L)].
    destruct j as [|j]; [done|exfalso]. destruct (la_here _ _ _ _ _ L f Ef) as [Er _].
    exact (ledger_missing rows fs i f _ Hfs Ef ltac:(lia) Er E).
  - destruct (lookup_lt_is_Some_2 files (length fs)) as [f Ef]; [pose proof (la_size _ _ _ _ _ L); lia|].
    destruct (la_done _ _ _ _ _ L _ f Ef H) as (r & Er & _). exact (ledger_missing rows fs (length fs) f _ Hfs Ef ltac:(lia) Er E).
Qed.

Lemma ledger_none_missing i j rows fs : ledger_at checksum files i j rows -> fs `prefix_of` files ->
  (i < length fs \/ i = length fs /\ j = O)%nat -> List.filter (in_state missing) (status own fs rows) = [].
Proof.
  intros L Hfs Hi. destruct (List.filter _ _) as [|s l] eqn:E; [done|exfalso].
  assert (Hs : s ∈ List.filter (in_state missing) (status own fs rows)) by (rewrite E; apply list_elem_of_here).
  apply in_states in Hs as [Hd [(f & Hf & ->)|(v & r & Er & Hh & _)]].
  - destruct (ledger_file_state i j rows fs f L Hfs Hf) as (k & _ & [[X _]|[X|X]]); congruence.
  - destruct (la_known _ _ _ _ _ L v r Er) as (k & f & Ek & <-). apply not_true_iff_false in Hh. apply Hh, has_file_spec.
    exists f. split; [|done]. apply (prefix_file_in fs k f Hfs Ek). destruct (Nat.lt_trichotomy k i) as [|[->|]]; [lia| |].
    + destruct (la_here _ _ _ _ _ L f Ek) as [X _]. rewrite Er in X. destruct j; [done|lia].
    + by rewrite (la_later _ _ _ _ _ L k f Ek) in Er by lia.
Qed.

Lemma file_status_version rows f : s_Version (file_status rows f) = version f.
Proof. unfold file_status. by repeat case_match. Qed.

Lemma ledger_newest i j rows fs k f : ledger_at checksum files i j rows -> fs `prefix_of` files ->
  files !! k = Some f -> (i <= k)%nat -> str_ltb (version f) (newest (status own fs rows)) = false.
Proof.
  intros L Hfs Ek Lk. unfold str_ltb. apply negb_false_iff.
  destruct (newest_of (status own fs rows)) as [->|(s & Hs & Ha & ->)]; [done|].
  assert (Hx : s ∈ List.filter (in_state (State s)) (status own fs rows))
    by (apply list_elem_of_In, filter_In; split; [by apply list_elem_of_In|by apply bool_decide_eq_true]).
  apply in_states in Hx as [_ [(g & Hg & ->)|(v & r & _ & _ & ->)]]; [|by destruct Ha].
  rewrite file_status_version. destruct (ledger_file_state i j rows fs g L Hfs Hg) as (k' & Ek' & [[_ Lk']|X]).
  - apply str_ltb_le. eapply files_ok_before; [done..|lia].
  - destruct Ha as [Ha|Ha], X as [X|X]; congruence.
Qed.


(** The loop starts where the ledger read stands. *)
Lemma apply_rows_stands fs i j o w : fs `prefix_of` files -> stands i j o w ->
  let p := apply_rows checksum fails now MySQL own fs (rows_of own w) w in
  (exists i' j' o', (i <= i')%nat /\ stands i' j' o' p.1 /\ (p.2 = Ok tt -> i' = length fs /\ j' = O))
  /\ ((i < length fs \/ i = length fs /\ j = O)%nat -> calm w -> p.2 = Ok tt).
Proof.
  intros Hfs S. pose proof (proj1 S) as L. unfold apply_rows. rewrite (ledger_no_drift i j _ fs L Hfs).
  destruct (List.filter (in_state missing) (status own fs (rows_of own w))) as [|m ms] eqn:M.
  2:{ cbn. split; [by exists i, j, o|]. intros Hi. by rewrite (ledger_none_missing i j _ fs L Hfs Hi) in M. }
  pose proof (ledger_within i j _ fs L Hfs M) as Hi.
  assert (E : apply_files checksum fails now MySQL (rows_of own w) (newest (status own fs (rows_of own w))) fs w
    = apply_files checksum fails now MySQL (rows_of own w) (newest (status own fs (rows_of own w))) (drop i fs) w).
  { rewrite <- (take_drop i fs) at 2.
    assert (Hd : forall f, f ∈ take i fs -> applied_row (rows_of own w !! version f) = true).
    { intros f [k Ek]%list_elem_of_lookup. apply lookup_take_Some in Ek as [Ek Lk].
      rewrite (ledger_at_row checksum own files i j _ k f F L); [by apply Nat.ltb_lt|].
      destruct Hfs as [tl ->]. by apply lookup_app_l_Some. }
    induction (take i fs) as [|f l IH]; [done|]. cbn. unfold bind at 1, apply_file. rewrite (Hd f) by set_solver. apply IH. set_solver. }
  rewrite E. destruct (apply_files_stands (rows_of own w) (newest (status own fs (rows_of own w))) fs (drop i fs) Hfs) with (i := i) (j := j) (o := o) (w := w)
    as [X NF]; try done.
  - intros f [k Ek]%list_elem_of_lookup. rewrite lookup_drop in Ek. apply (ledger_newest i j _ fs (i + k) f L Hfs); [|lia].
    destruct Hfs as [tl ->]. by apply lookup_app_l_Some.
  - intros k f Ek Lk. by apply (la_later _ _ _ _ _ L k).
Qed.

Lemma apply_stands fs i j o w : fs `prefix_of` files -> stands i j o w ->
  let p := apply checksum fails now MySQL own fs w in
  (exists i' j' o', (i <= i')%nat /\ stands i' j' o' p.1 /\ (p.2 = Ok tt -> i' = length fs /\ j' = O))
  /\ ((i < length fs \/ i = length fs /\ j = O)%nat -> calm w -> p.2 = Ok tt).
Proof.
  intros Hfs S p. subst p. pattern (apply checksum fails now MySQL own fs w). unfold apply.
  assert (M1 : mono (lockMigrations fails MySQL)) by (by apply mono_call). specialize (M1 w).
  destruct (stands_lock MySQL i j o w S) as [S1 NF1].
  apply bind_case; intros w1 a E1; rewrite E1 in S1, NF1, M1; cbn in S1, NF1, M1;
    [|cbn; split; [by exists i, j, o|intros _ NF; by specialize (NF1 NF)]].
  assert (M2 : mono (ensureLedger fails)) by (by apply mono_call). specialize (M2 w1).
  destruct (stands_ensure i j o w1 S1) as [S2 NF2].
  apply bind_case; intros w2 b E2; rewrite E2 in S2, NF2, M2; cbn in S2, NF2, M2;
    [|cbn; split; [by exists i, j, o|intros _ NF; by specialize (NF2 (calm_le _ _ M1 NF))]].
  assert (S3 := stands_tick _ _ _ _ (Datatypes.S (tick w2)) S2 ltac:(lia)).
  assert (E3 : readLedger fails own w2
    = if fails ReadLedger (tick w2) then (World (Datatypes.S (tick w2)) (ledger w2) (ran w2), Err ELedger)
      else (World (Datatypes.S (tick w2)) (ledger w2) (ran w2), Ok (rows_of own w2))).
  { unfold readLedger. assert (X : is_Some (ledger w2)) by
      (unfold ensureLedger, db_call in E2; destruct (fails CreateLedger _); [done|]; injection E2 as <- _; done).
    destruct X as [l El]. unfold db_call. rewrite El. destruct (fails ReadLedger (tick w2)); cbn; [done|].
    unfold rows_of. cbn. by rewrite El. }
  apply bind_case; intros w3 c H3; rewrite E3 in H3; destruct (fails ReadLedger (tick w2)) eqn:FR; try done; injection H3 as <- <-.
  - destruct (apply_rows_stands fs i j o _ Hfs S3) as [X NF3]. split; [exact X|].
    intros Hi NF. apply (NF3 Hi). apply (calm_le w); [cbn; lia|done].
  - cbn. split; [by exists i, j, o|]. intros _ NF. rewrite (NF ReadLedger) in FR; [done|lia].
Qed.

(** Runs one after the other, whatever each answers. *)
Definition run_all (runs : list (list migration)) (w : world) : world :=
  fold_left (fun w fs => (apply checksum fails now MySQL own fs w).1) runs w.

Lemma run_all_stands runs i j o w : Forall (fun fs => fs `prefix_of` files) runs -> stands i j o w ->
  exists i' j' o', stands i' j' o' (run_all runs w).
Proof.
  intros H. revert i j o w. induction H as [|fs runs Hfs _ IH]; intros i j o w S; cbn; [by exists i, j, o|].
  destruct (apply_stands fs i j o w Hfs S) as [(i' & j' & o' & _ & S' & _) _]. by eapply IH.
Qed.

Lemma stands_start : rows_of own w0 = ∅ -> stands 0 0 None w0.
Proof.
  intros E. split; [rewrite E; apply ledger_at_empty|]. split; [done|]. exists []. rewrite app_nil_r. split_and!; try done.
  - rewrite recorded_zero. cbn. constructor.
  - cbn. lia.
Qed.
End mysql.
End runs.

(** [C6] On MySQL migrations resume.  However many runs there were, of this
    release's files or of earlier releases', whichever calls of the database
    failed and wherever the runs stopped, the statements that took effect are
    those recorded in the ledger, in order, each run again only where its
    record failed, and at most one more.  Then a run that succeeds completes
    the files: every statement once, if no write of the ledger ever failed;
    and a run that no call fails succeeds. *)
Theorem mysql_resumes checksum fails now own files runs w0 :
  files_ok own files -> rows_of own w0 = ∅ -> Forall (fun fs => fs `prefix_of` files) runs ->
  let w := run_all checksum fails now own runs w0 in
  (exists d o l, ran w = ran w0 ++ l /\ replay d o l /\ (d ++ match o with Some x => [x] | None => [] end) `prefix_of` script files
     /\ (length l <= length d + failed_writes fails (tick w0) (tick w))%nat)
  /\ let p := apply checksum fails now MySQL own files w in
     (p.2 = Ok tt -> exists l, ran p.1 = ran w0 ++ l /\ replay (script files) None l
        /\ (failed_writes fails (tick w0) (tick p.1) = O -> l = script files))
     /\ (calm fails w -> p.2 = Ok tt).
Proof.
  intros F E H w. destruct (run_all_stands checksum fails now own files F w0 runs 0 0 None w0 H) as (i & j & o & S);
    [by apply stands_start|]. fold w in S. split.
  - destruct S as (L & T & l & R & P & X & N). exists (recorded files i j), o, l. split_and!; try done.
    destruct o as [x|]; [|rewrite app_nil_r; apply recorded_prefix].
    destruct (X x eq_refl) as (f & Ef & Ex). rewrite <- (recorded_statement _ _ _ _ _ Ef Ex). apply recorded_prefix.
  - destruct (apply_stands checksum fails now own files F w0 files i j o w ltac:(done) S) as [(i' & j' & o' & _ & S' & Q) NF]. split.
    + intros Hok. destruct (Q Hok) as [-> ->]. destruct S' as (L & T & l & R & P & X & N). exists l. split; [done|].
      rewrite recorded_zero, firstn_all in P, N. destruct o' as [x|].
      { destruct (X x eq_refl) as (f & Ef & _). apply lookup_lt_Some in Ef. lia. }
      split; [done|]. intros Z. rewrite (replay_exact _ _ _ P); [by rewrite app_nil_r|lia].
    + apply NF. pose proof (la_size _ _ _ _ _ (proj1 S)).
      destruct (files !! i) eqn:Ef; [left; by eapply lookup_lt_Some|]. right.
      split; [apply lookup_ge_None in Ef; lia|by apply (la_end _ _ _ _ _ (proj1 S))].
Qed.

(** A release of two files whose first run dies after one statement, and
    whose second fails to record one. *)
Definition demo_files : list migration :=
  [Migration (str "app") (str "20260101000000") (str "posts") (str "20260101000000_posts.sql") [str "create posts"; str "index posts"] (str "s1");
   Migration (str "app") (str "20260201000000") (str "tags") (str "20260201000000_tags.sql") [str "create tags"] (str "s2")].

Definition demo_fails (c : call) (t : nat) : bool :=
  match c with Exec => (t =? 5)%nat | WriteLedger => (t =? 10)%nat | _ => false end.

Lemma demo_files_ok : files_ok (str "app") demo_files.
Proof. split; repeat constructor; done. Qed.

Lemma mysql_resumes_witness :
  let w := run_all (fun s => s) demo_fails (fun _ => 0) (str "app") [take 1 demo_files; demo_files; demo_files] (World 0 None []) in
  ran w = [str "create posts"; str "index posts"; str "index posts"; str "create tags"]
  /\ (calm demo_fails w -> (apply (fun s => s) demo_fails (fun _ => 0) MySQL (str "app") demo_files w).2 = Ok tt).
Proof.
  intros w. split; [vm_compute; reflexivity|].
  exact (proj2 (proj2 (mysql_resumes (fun s => s) demo_fails (fun _ => 0) (str "app") demo_files
    [take 1 demo_files; demo_files; demo_files] (World 0 None []) demo_files_ok eq_refl
    ltac:(repeat constructor; by eexists)))).
Defined.
