(* ===== verification/MigrateTx.v ===== *)
(** Migrations on SQLite and Postgres, where a file and its ledger row commit
    together: any number of processes that start at once run every file
    exactly once, in order and all or nothing. *)

From Stdlib Require Import ZArith Lia List Ascii Sorted.
From stdpp Require Import base decidable list gmap strings sorting relations.
From S2P Require Import Prelude GoStrings SqlSplit Migrate MigrateSpec.

Section tx.
Context (checksum : gostring -> gostring) (fails : call -> nat -> bool) (now : nat -> Z).
Context (d : dialect) (Hd : d <> MySQL).
Context (own : gostring) (files : list migration) (F : files_ok own files) (b0 : list gostring).

(** The first [i] files ran, and nothing else. *)
Definition done_to (i : nat) (w : world) : Prop :=
  ledger_at checksum files i 0 (rows_of own w) /\ ran w = b0 ++ script (take i files).

Lemma done_to_same i w w' : done_to i w -> rows_of own w' = rows_of own w -> ran w' = ran w -> done_to i w'.
Proof. intros [L R] E1 E2. split; [by rewrite E1|by rewrite E2]. Qed.

(** The statements of a file, in its transaction. *)
Lemma exec_all_runs f i ss w : let p := exec_all fails f i ss w in
  ledger p.1 = ledger w /\ (tick w <= tick p.1)%nat /\ (p.2 = Ok tt -> ran p.1 = ran w ++ ss)
  /\ (calm fails w -> p.2 = Ok tt).
Proof.
  revert i w. induction ss as [|s ss IH]; intros i w; cbn; [by rewrite app_nil_r|].
  unfold bind, exec, db_call. destruct (fails Exec (tick w)) eqn:E; cbn.
  - split_and!; [done|lia|done|]. intros C. by rewrite C in E.
  - specialize (IH (S i) (World (S (tick w)) (ledger w) (ran w ++ [s]))). cbn in IH.
    destruct (exec_all fails f (S i) ss _) as [w' r]; cbn in *. destruct IH as (E1 & T & E2 & NF).
    split_and!; [done|lia| |].
    + intros H. rewrite (E2 H), <- app_assoc. done.
    + intros C. apply NF. apply (calm_le _ w); [cbn; lia|done].
Qed.

(** A file's transaction: nothing, or the whole file and its row. *)
Lemma applyInTx_runs i q w f : done_to i w -> files !! q = Some f -> (q <= i)%nat ->
  let p := applyInTx fails now f w in
  (tick w <= tick p.1)%nat
  /\ (done_to i p.1 /\ (p.2 = Ok tt -> (q < i)%nat) \/ q = i /\ p.2 = Ok tt /\ done_to (S i) p.1)
  /\ (calm fails w -> p.2 = Ok tt).
Proof.
  intros [L R] Ef Lq p. destruct (files_ok_stmts _ _ _ _ F Ef) as [Ho Hne].
  set (w1 := World (S (tick w)) (ledger w) (ran w)). set (w2 := World (S (tick w1)) (ledger w) (ran w)).
  assert (Same : forall t, done_to i (World t (ledger w) (ran w))) by (intros t; by apply (done_to_same i w)).
  assert (Ea : is_applied (owner f) (version f) w2 = (q <? i)%nat).
  { unfold is_applied. rewrite Ho. by apply (ledger_at_row checksum own files i 0 (rows_of own w) q f F L). }
  assert (Ep : p = applyInTx fails now f w) by done. clearbody p. revert Ep. unfold applyInTx, runTransaction, bind at 1, db_call at 1.
  destruct (fails Begin (tick w)) eqn:E1; [intros ->; cbn; split_and!; [lia|left; split; [apply Same|done]|intros C; by rewrite C in E1]|].
  fold w1. unfold db_call at 1. destruct (fails ReadLedger (tick w1)) eqn:E2.
  { intros ->. cbn. split_and!; [lia|left; split; [apply Same|done]|]. intros C. rewrite C in E2; [done|cbn; lia]. }
  cbv beta iota. change (World (S (tick w1)) (ledger w1) (ran w1)) with w2. rewrite Ea. destruct (Nat.ltb_spec q i) as [Lt|Ge].
  { unfold db_call. destruct (fails Commit (tick w2)) eqn:E3; intros ->; cbn; (split_and!; [lia|left; done|]); [|done].
    intros C. rewrite C in E3; [done|cbn; lia]. }
  assert (q = i) as -> by lia. unfold bind.
  destruct (exec_all_runs (file f) 0 (stmts f) w2) as (El & T & Er & NF).
  destruct (exec_all fails (file f) 0 (stmts f) w2) as [w3 [[]|e]]; cbn in El, T, Er, NF.
  2:{ intros ->. cbn. split_and!; [lia|left; split; [apply Same|done]|]. intros C. exfalso. by specialize (NF (calm_le _ w w2 ltac:(cbn; lia) C)). }
  assert (Rw3 : rows_of own w3 = rows_of own w) by (unfold rows_of; by rewrite El).
  unfold insert_row. rewrite Ho, Rw3. destruct (la_here _ _ _ _ _ L f Ef) as [-> _]. cbn [partial_row].
  unfold db_call at 1. destruct (fails WriteLedger (tick w3)) eqn:E4.
  { intros ->. cbn. split_and!; [lia|left; split; [apply Same|done]|]. intros C. rewrite C in E4; [done|cbn in *; lia]. }
  unfold db_call. cbn [tick set_rows fst snd]. destruct (fails Commit (S (tick w3))) eqn:E5; intros ->; cbn.
  { split_and!; [lia|left; split; [apply Same|done]|]. intros C. rewrite C in E5; [done|cbn in *; lia]. }
  split_and!; [lia| |done]. right. split; [done|]. split; [done|]. split.
  - unfold rows_of. cbn. rewrite lookup_insert_eq. cbn.
    match goal with |- context [default ∅ ?x] => change (default ∅ x) with (rows_of own w3) end. rewrite Rw3.
    by eapply ledger_at_applied.
  - cbn. rewrite (Er eq_refl). cbn. rewrite R, <- app_assoc. f_equal. unfold script.
    rewrite (take_S_r _ _ _ Ef), map_app, concat_app. cbn. by rewrite app_nil_r.
Qed.

(** ** Processes

    A process has the files of its release, what it read of the ledger, and
    the files it has yet to look at. *)
Record proc := Proc { p_files : list migration; p_rows : gmap gostring ledgerRow; p_left : list migration }.

Definition p_newest (p : proc) : gostring := newest (status own (p_files p) (p_rows p)).

(** What [apply] checks of the ledger it read. *)
Definition agrees (fs : list migration) (rows : gmap gostring ledgerRow) : Prop :=
  List.filter (in_state drifted) (status own fs rows) = [] /\ List.filter (in_state missing) (status own fs rows) = [].

(** Any process may take its next step at any moment: wait for the lock or
    make the ledger, read it and check it, or look at a file. *)
Inductive migrate_step : world * list proc -> world * list proc -> Prop :=
| ms_lock w ps : migrate_step (w, ps) ((lockMigrations fails d w).1, ps)
| ms_ensure w ps : migrate_step (w, ps) ((ensureLedger fails w).1, ps)
| ms_read w ps fs w' rows : readLedger fails own w = (w', Ok rows) -> fs `prefix_of` files -> agrees fs rows ->
    migrate_step (w, ps) (w', Proc fs rows fs :: ps)
| ms_stay w ps fs w' rows : readLedger fails own w = (w', Ok rows) -> fs `prefix_of` files -> ~ agrees fs rows ->
    migrate_step (w, ps) (w', ps)
| ms_unread w ps w' e : readLedger fails own w = (w', Err e) -> migrate_step (w, ps) (w', ps)
| ms_file w ps ps1 p f left ps2 w' : ps = ps1 ++ p :: ps2 -> p_left p = f :: left ->
    apply_file checksum fails now d (p_rows p) (p_newest p) f w = (w', Ok tt) ->
    migrate_step (w, ps) (w', ps1 ++ Proc (p_files p) (p_rows p) left :: ps2)
| ms_stop w ps ps1 p f left ps2 w' e : ps = ps1 ++ p :: ps2 -> p_left p = f :: left ->
    apply_file checksum fails now d (p_rows p) (p_newest p) f w = (w', Err e) ->
    migrate_step (w, ps) (w', ps1 ++ ps2).

(** A process is no further than the ledger. *)
Definition proc_ok (i : nat) (p : proc) : Prop :=
  p_files p `prefix_of` files
  /\ (exists q, (q <= i)%nat /\ p_left p = drop q (p_files p))
  /\ (forall k f, files !! k = Some f -> applied_row (p_rows p !! version f) = true -> (k < i)%nat).

Definition sys_ok (s : world * list proc) : Prop := exists i, done_to i s.1 /\ Forall (proc_ok i) s.2.

Lemma proc_ok_mono i i' p : (i <= i')%nat -> proc_ok i p -> proc_ok i' p.
Proof.
  intros L (P & (q & Lq & E) & R). split; [done|]. split; [exists q; split; [lia|done]|].
  intros k f Ek A. specialize (R k f Ek A). lia.
Qed.

Lemma read_rows w w' rows : readLedger fails own w = (w', Ok rows) ->
  rows = rows_of own w /\ rows_of own w' = rows_of own w /\ ran w' = ran w.
Proof.
  unfold readLedger, db_call, rows_of. destruct (ledger w) eqn:E.
  - destruct (fails _ _); intros [= <- <-]. cbn. by rewrite ?E.
  - intros [= <- <-]. by rewrite ?E.
Qed.

Lemma lock_same dl w : rows_of own (lockMigrations fails dl w).1 = rows_of own w /\ ran (lockMigrations fails dl w).1 = ran w.
Proof. destruct dl; cbn; unfold db_call; repeat case_match; done. Qed.

Lemma ensure_same w : rows_of own (ensureLedger fails w).1 = rows_of own w /\ ran (ensureLedger fails w).1 = ran w.
Proof. unfold ensureLedger, db_call, rows_of. destruct (fails _ _); cbn; (split; [|done]); [done|]. by destruct (ledger w). Qed.

(** Looking at the next file. *)
Lemma apply_file_runs i w p f left : done_to i w -> proc_ok i p -> p_left p = f :: left ->
  let r := apply_file checksum fails now d (p_rows p) (p_newest p) f w in
  exists i', (i <= i')%nat /\ done_to i' r.1 /\ (r.2 = Ok tt -> proc_ok i' (Proc (p_files p) (p_rows p) left)).
Proof.
  intros D (P & (q & Lq & E) & R) El r. rewrite El in E.
  assert (Ef : files !! q = Some f).
  { destruct P as [tl ->]. apply lookup_app_l_Some. by rewrite <- (Nat.add_0_r q), <- lookup_drop, <- E. }
  assert (E' : left = drop (S q) (p_files p)) by (rewrite <- Nat.add_1_r, <- drop_drop, <- E; done).
  assert (Ep : r = apply_file checksum fails now d (p_rows p) (p_newest p) f w) by done. clearbody r. revert Ep. unfold apply_file.
  destruct (applied_row (p_rows p !! version f)) eqn:A.
  { intros ->. exists i. split; [done|]. split; [done|]. intros _. split; [done|]. split; [|done].
    exists (S q). split; [exact (R q f Ef A)|done]. }
  destruct (match p_rows p !! version f with Some _ => false | None => true end && str_ltb (version f) (p_newest p)).
  { intros ->. by exists i. }
  rewrite decide_False by done. intros ->. destruct (applyInTx_runs i q w f D Ef Lq) as (_ & [[D' Q]|(-> & Q & D')] & _).
  - exists i. split; [done|]. split; [done|]. intros Hok. split; [done|]. split; [|done]. exists (S q). split; [exact (Q Hok)|done].
  - exists (S i). split; [lia|]. split; [done|]. intros _. split; [done|]. split; [by exists (S i)|].
    intros k g Eg Ag. specialize (R k g Eg Ag). lia.
Qed.

Lemma migrate_step_ok s s' : migrate_step s s' -> sys_ok s -> sys_ok s'.
Proof.
  intros St (i & D & Ps). destruct St as [w ps|w ps|w ps fs w' rows E P A|w ps fs w' rows E P A|w ps w' e E
    |w ps ps1 p f left ps2 w' -> El E|w ps ps1 p f left ps2 w' e -> El E]; cbn [fst snd] in *.
  - exists i. split; [|done]. destruct (lock_same d w). by apply (done_to_same i w).
  - exists i. split; [|done]. destruct (ensure_same w). by apply (done_to_same i w).
  - exists i. destruct (read_rows _ _ _ E) as (-> & E1 & E2). split; [by apply (done_to_same i w)|].
    constructor; [|done]. split; [done|]. split; [by exists O; split; [lia|]|].
    intros k f Ek. cbn. rewrite (ledger_at_row checksum own files i 0 _ k f F (proj1 D) Ek). apply Nat.ltb_lt.
  - exists i. destruct (read_rows _ _ _ E) as (_ & E1 & E2). split; [by apply (done_to_same i w)|done].
  - exists i. split; [|done]. unfold readLedger, db_call in E. destruct (ledger w) eqn:El; [|done].
    destruct (fails _ _); [|done]. injection E as <- _. apply (done_to_same i w); [done| |done]. unfold rows_of. cbn. by rewrite El.
  - apply Forall_app in Ps as [P1 P2]. apply Forall_cons in P2 as [Pp P2].
    destruct (apply_file_runs i w p f left D Pp El) as (i' & Li & D' & Q). rewrite E in D', Q.
    exists i'. split; [done|]. apply Forall_app. split; [by eapply Forall_impl; [|intros ? ?; eapply proc_ok_mono]|].
    constructor; [by apply Q|by eapply Forall_impl; [|intros ? ?; eapply proc_ok_mono]].
  - apply Forall_app in Ps as [P1 P2]. apply Forall_cons in P2 as [Pp P2].
    destruct (apply_file_runs i w p f left D Pp El) as (i' & Li & D' & _). rewrite E in D'.
    exists i'. split; [done|]. apply Forall_app. split; by eapply Forall_impl; [|intros ? ?; eapply proc_ok_mono].
Qed.

(** ** One call of [apply] is a path of the processes *)

Lemma apply_files_path p left w ps : p_left p = left ->
  let r := apply_files checksum fails now d (p_rows p) (p_newest p) left w in
  exists ps', rtc migrate_step (w, p :: ps) (r.1, ps') /\ (r.2 = Ok tt -> exists p', p' ∈ ps' /\ p_files p' = p_files p /\ p_left p' = []).
Proof.
  revert p w. induction left as [|f left IH]; intros p w El r; subst r; cbn.
  - exists (p :: ps). split; [apply rtc_refl|]. intros _. exists p. split; [apply list_elem_of_here|done].
  - unfold bind. destruct (apply_file checksum fails now d (p_rows p) (p_newest p) f w) as [w1 [[]|e]] eqn:E.
    + destruct (IH (Proc (p_files p) (p_rows p) left) w1 eq_refl) as (ps' & R & Q). exists ps'. split; [|exact Q].
      eapply rtc_l; [|exact R]. by apply (ms_file w (p :: ps) [] p f left ps w1).
    + exists ps. split; [|done]. apply rtc_once. by apply (ms_stop w (p :: ps) [] p f left ps w1 e).
Qed.

Lemma agrees_dec fs rows : {agrees fs rows} + {~ agrees fs rows}.
Proof.
  unfold agrees. destruct (List.filter (in_state drifted) _); [|by right; intros []].
  destruct (List.filter (in_state missing) _); [by left|by right; intros []].
Defined.

Lemma apply_rows_agrees fs rows w : agrees fs rows ->
  apply_rows checksum fails now d own fs rows w = apply_files checksum fails now d rows (newest (status own fs rows)) fs w.
Proof. intros [E1 E2]. unfold apply_rows. by rewrite E1, E2. Qed.

Lemma apply_rows_disagrees fs rows w : ~ agrees fs rows -> exists e, apply_rows checksum fails now d own fs rows w = (w, Err e).
Proof.
  intros N. unfold apply_rows, agrees in *. destruct (List.filter (in_state drifted) _); [|by eexists].
  destruct (List.filter (in_state missing) _); [by destruct N|by eexists].
Qed.

Lemma apply_path fs w ps : fs `prefix_of` files ->
  let r := apply checksum fails now d own fs w in
  exists ps', rtc migrate_step (w, ps) (r.1, ps') /\ (r.2 = Ok tt -> exists p, p ∈ ps' /\ p_files p = fs /\ p_left p = []).
Proof.
  intros P r. subst r. pattern (apply checksum fails now d own fs w). unfold apply.
  apply bind_case; intros w1 a E1; (pose proof (ms_lock w ps) as S1; rewrite E1 in S1; cbn [fst] in S1);
    [|exists ps; split; [by apply rtc_once|done]].
  apply bind_case; intros w2 b E2; (pose proof (ms_ensure w1 ps) as S2; rewrite E2 in S2; cbn [fst] in S2);
    [|exists ps; split; [eapply rtc_l; [exact S1|by apply rtc_once]|done]].
  apply bind_case; intros w3 c E3;
    [|exists ps; split; [eapply rtc_l; [exact S1|]; eapply rtc_l; [exact S2|]; apply rtc_once; by eapply ms_unread|done]].
  destruct (agrees_dec fs c) as [A|A].
  - rewrite apply_rows_agrees by done. destruct (apply_files_path (Proc fs c fs) fs w3 ps eq_refl) as (ps' & R & Q).
    exists ps'. split; [|exact Q]. eapply rtc_l; [exact S1|]. eapply rtc_l; [exact S2|]. eapply rtc_l; [|exact R]. by apply ms_read.
  - destruct (apply_rows_disagrees fs c w3 A) as [e ->]. exists ps. split; [|done].
    eapply rtc_l; [exact S1|]. eapply rtc_l; [exact S2|]. apply rtc_once. by eapply ms_stay.
Qed.

Lemma path_ok s s' : rtc migrate_step s s' -> sys_ok s -> sys_ok s'.
Proof. induction 1; [done|]. intros H'. apply IHrtc. by eapply migrate_step_ok. Qed.

(** ** A call that nothing disturbs succeeds *)

Lemma apply_files_calm i p left w : done_to i w -> proc_ok i p -> p_left p = left ->
  (forall f, f ∈ left -> applied_row (p_rows p !! version f) = true \/ str_ltb (version f) (p_newest p) = false) -> calm fails w ->
  (apply_files checksum fails now d (p_rows p) (p_newest p) left w).2 = Ok tt.
Proof.
  revert i p w. induction left as [|f left IH]; intros i p w D Pp El Hn C; [done|].
  destruct (apply_file_runs i w p f left D Pp El) as (i' & Li & D' & Q). cbn [apply_files].
  assert (Hf : (apply_file checksum fails now d (p_rows p) (p_newest p) f w).2 = Ok tt
     /\ (tick w <= tick (apply_file checksum fails now d (p_rows p) (p_newest p) f w).1)%nat).
  { destruct Pp as (Pf & (q & Lq & E) & R). rewrite El in E.
    assert (Ef : files !! q = Some f).
    { destruct Pf as [tl ->]. apply lookup_app_l_Some. by rewrite <- (Nat.add_0_r q), <- lookup_drop, <- E. }
    unfold apply_file. destruct (Hn f ltac:(set_solver)) as [->|H]; [done|]. destruct (applied_row _); [done|].
    rewrite H, andb_false_r, decide_False by done. destruct (applyInTx_runs i q w f D Ef Lq) as (T & _ & X). auto. }
  unfold bind. destruct (apply_file checksum fails now d (p_rows p) (p_newest p) f w) as [w1 r1]. cbn [fst snd] in *.
  destruct Hf as [-> T]. apply (IH i' (Proc (p_files p) (p_rows p) left)); try done; [by apply Q|set_solver|by apply (calm_le _ w)].
Qed.

Lemma apply_calm i fs w : done_to i w -> fs `prefix_of` files -> (i <= length fs)%nat -> calm fails w ->
  (apply checksum fails now d own fs w).2 = Ok tt.
Proof.
  intros D P Li C. pattern (apply checksum fails now d own fs w). unfold apply.
  destruct (lock_same d w) as [A1 A2]. assert (M1 : mono (lockMigrations fails d)) by (destruct d; [by intros ?|by apply mono_call..]).
  specialize (M1 w). apply bind_case; intros w1 a E1; rewrite E1 in A1, A2, M1; cbn in A1, A2, M1.
  2:{ destruct d; [done|done|]. unfold lockMigrations, db_call in E1. rewrite C in E1 by lia. done. }
  destruct (ensure_same w1) as [B1 B2]. assert (M2 : mono (ensureLedger fails)) by (by apply mono_call).
  specialize (M2 w1). apply bind_case; intros w2 b E2; rewrite E2 in B1, B2, M2; cbn in B1, B2, M2.
  2:{ unfold ensureLedger, db_call in E2. rewrite C in E2 by lia. done. }
  assert (M3 : (tick w2 <= tick (readLedger fails own w2).1)%nat)
    by (unfold readLedger, db_call; destruct (ledger w2); [|done]; destruct (fails _ _); cbn; lia).
  apply bind_case; intros w3 c E3; rewrite E3 in M3; cbn in M3.
  2:{ unfold readLedger, db_call in E3. destruct (ledger w2); [|done]. rewrite C in E3 by lia. done. }
  destruct (read_rows _ _ _ E3) as (-> & G1 & G2).
  assert (D3 : done_to i w3) by (apply (done_to_same i w); congruence).
  rewrite <- G1. pose proof (proj1 D3) as L.
  assert (Hag : agrees fs (rows_of own w3)).
  { split; [by apply (ledger_no_drift checksum own files i 0)|]. apply (ledger_none_missing checksum own files i 0); [done..|]. lia. }
  rewrite apply_rows_agrees by done.
  assert (Hrow : forall k f, files !! k = Some f -> applied_row (rows_of own w3 !! version f) = (k <? i)%nat)
    by (intros k f; apply (ledger_at_row checksum own files i 0); done).
  apply (apply_files_calm i (Proc fs (rows_of own w3) fs)); try done.
  - split; [done|]. split; [exists O; split; [lia|done]|]. intros k f Ek. cbn. rewrite (Hrow k f Ek). apply Nat.ltb_lt.
  - intros f [k Ek]%list_elem_of_lookup. assert (Ef : files !! k = Some f) by (destruct P as [tl ->]; by apply lookup_app_l_Some).
    cbn. rewrite (Hrow k f Ef). destruct (Nat.ltb_spec k i); [by left|right].
    by apply (ledger_newest checksum own files F i 0 _ fs k f L P Ef).
  - apply (calm_le _ w); [lia|done].
Qed.
End tx.

(** [C7] On SQLite and Postgres migrations run exactly once.  However many
    processes start at once, of this release or of earlier ones, however
    their calls interleave and whichever fail: what has run is the scripts
    of the first files, each whole and once, in order, and those files are
    exactly the recorded ones.  A process that got to its end found its files
    among them; and a call of [apply] that nothing disturbs succeeds and
    leaves every file run. *)
Theorem tx_runs_once checksum fails now d own files w0 w ps :
  d <> MySQL -> files_ok own files -> rows_of own w0 = ∅ ->
  rtc (migrate_step checksum fails now d own files) (w0, []) (w, ps) ->
  exists i, ran w = ran w0 ++ script (take i files)
    /\ (forall k f, files !! k = Some f -> is_applied own (version f) w = (k <? i)%nat)
    /\ (forall p, p ∈ ps -> p_left p = [] -> (length (p_files p) <= i)%nat)
    /\ let r := apply checksum fails now d own files w in
       (r.2 = Ok tt -> ran r.1 = ran w0 ++ script files) /\ (calm fails w -> r.2 = Ok tt).
Proof.
  intros Hd F E R. assert (I : sys_ok checksum own files (ran w0) (w, ps)).
  { apply (path_ok checksum fails now d Hd own files F (ran w0) _ _ R). exists O. split; [|constructor].
    cbn [fst]. split; [rewrite E; apply ledger_at_empty|]. cbn. by rewrite app_nil_r. }
  destruct I as (i & D & Ps). cbn [fst snd] in *. exists i. split; [exact (proj2 D)|]. split.
  { intros k f Ek. by apply (ledger_at_row checksum own files i 0 _ k f F (proj1 D)). }
  assert (End : forall i p, proc_ok files i p -> p_left p = [] -> (length (p_files p) <= i)%nat).
  { intros i' p (_ & (q & Lq & Eq) & _) El. rewrite El in Eq. apply (f_equal length) in Eq. rewrite length_drop in Eq. cbn in Eq. lia. }
  split; [intros p Hp; by apply End, (proj1 (Forall_forall _ _) Ps p)|]. cbn zeta. split.
  - intros Hok. destruct (apply_path checksum fails now d own files files w ps ltac:(done)) as (ps' & R' & Q).
    destruct (Q Hok) as (p & Hp & Ef & El).
    destruct (path_ok checksum fails now d Hd own files F (ran w0) _ _ R' (ex_intro _ i (conj D Ps))) as (i' & D' & Ps').
    cbn [fst snd] in *. pose proof (End i' p (proj1 (Forall_forall _ _) Ps' p Hp) El) as L. rewrite Ef in L.
    rewrite (proj2 D'). by rewrite take_ge.
  - intros C. apply (apply_calm checksum fails now d Hd own files F (ran w0) i); try done. apply (la_size _ _ _ _ _ (proj1 D)).
Qed.

(** Two processes on SQLite: the first runs a file, the second finds it run
    and goes on with the next one, and the first finds that one run. *)
Definition demo_sum (s : gostring) : gostring := s.
Definition demo_calm (c : call) (t : nat) : bool := false.
Definition demo_now (t : nat) : Z := 0.
Definition demo_app : gostring := str "app".

Definition demo_world (i : nat) : world :=
  let read w := (readLedger demo_calm demo_app w).1 in
  let file n w := match demo_files !! n with
                  | Some f => (apply_file demo_sum demo_calm demo_now SQLite ∅ [] f w).1
                  | None => w
                  end in
  let w1 := (ensureLedger demo_calm (World 0 None [])).1 in
  let w3 := read (read w1) in
  match i with
  | O => w3
  | 1%nat => file O w3
  | 2%nat => file O (file O w3)
  | 3%nat => file 1%nat (file O (file O w3))
  | _ => file 1%nat (file 1%nat (file O (file O w3)))
  end.

Lemma demo_path : rtc (migrate_step demo_sum demo_calm demo_now SQLite demo_app demo_files)
  (World 0 None [], []) (demo_world 4, [Proc demo_files ∅ []; Proc demo_files ∅ []]).
Proof.
  pose (w1 := (ensureLedger demo_calm (World 0 None [])).1). pose (w2 := (readLedger demo_calm demo_app w1).1).
  pose (p n := Proc demo_files ∅ (drop n demo_files)).
  assert (Ag : agrees demo_app demo_files ∅) by (vm_compute; by split).
  eapply rtc_l; [apply (ms_ensure demo_sum demo_calm demo_now SQLite demo_app demo_files (World 0 None []) [])|].
  eapply rtc_l; [refine (ms_read demo_sum demo_calm demo_now SQLite demo_app demo_files w1 [] demo_files w2 ∅ _ _ Ag); [vm_compute; reflexivity|done]|].
  eapply rtc_l; [refine (ms_read demo_sum demo_calm demo_now SQLite demo_app demo_files w2 [p 0%nat] demo_files (demo_world 0) ∅ _ _ Ag); [vm_compute; reflexivity|done]|].
  eapply rtc_l; [refine (ms_file demo_sum demo_calm demo_now SQLite demo_app demo_files (demo_world 0) _ [] (p 0%nat) _ _ [p 0%nat] (demo_world 1) eq_refl eq_refl _); vm_compute; reflexivity|].
  eapply rtc_l; [refine (ms_file demo_sum demo_calm demo_now SQLite demo_app demo_files (demo_world 1) _ [p 1%nat] (p 0%nat) _ _ [] (demo_world 2) eq_refl eq_refl _); vm_compute; reflexivity|].
  eapply rtc_l; [refine (ms_file demo_sum demo_calm demo_now SQLite demo_app demo_files (demo_world 2) _ [p 1%nat] (p 1%nat) _ _ [] (demo_world 3) eq_refl eq_refl _); vm_compute; reflexivity|].
  eapply rtc_l; [refine (ms_file demo_sum demo_calm demo_now SQLite demo_app demo_files (demo_world 3) _ [] (p 1%nat) _ _ [p 2%nat] (demo_world 4) eq_refl eq_refl _); vm_compute; reflexivity|].
  apply rtc_refl.
Qed.

Lemma tx_runs_once_witness :
  ran (demo_world 4) = [str "create posts"; str "index posts"; str "create tags"]
  /\ exists i, ran (demo_world 4) = [] ++ script (take i demo_files) /\ (2 <= i)%nat.
Proof.
  split; [vm_compute; reflexivity|].
  destruct (tx_runs_once demo_sum demo_calm demo_now SQLite demo_app demo_files (World 0 None []) (demo_world 4)
    [Proc demo_files ∅ []; Proc demo_files ∅ []] ltac:(done) demo_files_ok eq_refl demo_path) as (i & E1 & _ & E2 & _).
  exists i. split; [exact E1|]. exact (E2 (Proc demo_files ∅ []) ltac:(apply list_elem_of_here) eq_refl).
Defined.
