(* ===== verification/MigrateGuard.v ===== *)
(** What the engine runs at all: the files [loadMigrations] answers, on a
    ledger they explain. *)

From Stdlib Require Import ZArith Lia List Ascii Sorted.
From stdpp Require Import base decidable list gmap strings sorting.
From S2P Require Import Prelude GoStrings SqlSplit Migrate MigrateSpec MigrateTx.

(** ** Loading *)

#[local] Instance version_le_total : Total version_le.
Proof. intros a b. apply str_leb_total. Qed.
#[local] Instance version_le_trans : Transitive version_le.
Proof. intros a b c. apply str_leb_trans. Qed.

Section load.
Context (checksum : gostring -> gostring) (own : gostring).

(** [f] is what the entry [n] holds. *)
Definition loaded_from (f : migration) (n raw : gostring) : Prop :=
  has_suffix (str ".sql") n = true /\ fileName n = Some (version f, name f) /\ file f = n /\ owner f = own
  /\ stmts f = splitSQLStatements (unix_lines raw) /\ stmts f <> [] /\ sum f = checksum (unix_lines raw).

Lemma load_entries_spec entries seen files : load_entries checksum own seen entries = Ok files ->
  (forall f, f ∈ files -> seen !! version f = None)
  /\ NoDup (map version files)
  /\ (forall f, f ∈ files -> exists raw, (file f, FFile (Some raw)) ∈ entries /\ loaded_from f (file f) raw)
  /\ (forall n raw, (n, FFile raw) ∈ entries -> has_suffix (str ".sql") n = true -> exists f, f ∈ files /\ file f = n).
Proof.
  revert seen files. induction entries as [|[n x] entries IH]; intros seen files; cbn [load_entries].
  - intros [= <-]. split_and!; try set_solver. constructor.
  - destruct x as [raw|l].
    2:{ intros (S & N & L & A)%IH. split_and!; [done|done|set_solver|]. intros m raw [E|H]%elem_of_cons; [done|exact (A m raw H)]. }
    destruct (has_suffix (str ".sql") n) eqn:Es; cbn [negb].
    2:{ intros (S & N & L & A)%IH. split_and!; [done|done|set_solver|].
        intros m raw' [[= -> ->]|H]%elem_of_cons; [congruence|exact (A m raw' H)]. }
    destruct (fileName n) as [[v nm]|] eqn:En; [|done]. destruct (seen !! v) eqn:Ev; [done|].
    destruct raw as [raw|]; [|done]. destruct (splitSQLStatements (unix_lines raw)) as [|s ss] eqn:Esp; [done|].
    intros (out & (S & N & L & A)%IH & [= <-])%rbind_Ok. split_and!.
    + intros f [->|Hf]%elem_of_cons; [done|]. specialize (S f Hf). apply lookup_insert_None in S. tauto.
    + cbn. constructor; [|done]. intros (f & E & Hf)%list_elem_of_fmap. specialize (S f Hf).
      rewrite <- E, lookup_insert_eq in S. done.
    + intros f [->|Hf]%elem_of_cons; [|destruct (L f Hf) as (r & Hr & X); exists r; split; [by right|done]].
      exists raw. split; [left|]. split_and!; cbn; done.
    + intros m raw' [[= -> ->]|H]%elem_of_cons Hm; [eexists; split; [left|done]|].
      destruct (A m raw' H Hm) as (f & Hf & E). exists f. split; [by right|done].
Qed.

Lemma sorted_before l : StronglySorted version_le l -> NoDup (map version l) -> StronglySorted before l.
Proof.
  induction 1 as [|f l S IH Hf]; cbn; intros N; [constructor|]. apply NoDup_cons in N as [N1 N]. constructor; [auto|].
  rewrite Forall_forall in Hf |- *. intros g Hg. specialize (Hf g Hg). unfold before, str_ltb. apply negb_true_iff, not_true_is_false.
  intros H. apply N1, list_elem_of_fmap. exists g. split; [|done]. by apply str_leb_antisym.
Qed.

End load.

(** What [loadMigrations] answers is a well-formed list of migrations: in
    the order of their versions, no two alike, each the statements and the
    checksum of the file it is named after, none empty; and every .sql file
    of the directory is one of them. *)
Theorem loadMigrations_ok checksum root own d files : loadMigrations checksum root own d = Ok files ->
  files_ok own files
  /\ exists entries, sql_dir root d = Ok entries
     /\ (forall f, f ∈ files -> exists raw, (file f, FFile (Some raw)) ∈ entries /\ loaded_from checksum own f (file f) raw)
     /\ (forall n raw, (n, FFile raw) ∈ entries -> has_suffix (str ".sql") n = true -> exists f, f ∈ files /\ file f = n).
Proof.
  unfold loadMigrations. intros (entries & E & H)%rbind_Ok. apply rbind_Ok in H as (out & H & [= <-]).
  destruct (load_entries_spec checksum own entries ∅ out H) as (_ & N & L & A).
  pose proof (merge_sort_Permutation version_le out) as P.
  assert (In : forall f, f ∈ merge_sort version_le out <-> f ∈ out) by (intros f; by rewrite P).
  split; [split|].
  - apply Forall_forall. intros f Hf%In. destruct (L f Hf) as (raw & _ & X). apply X.
  - apply sorted_before; [apply (StronglySorted_merge_sort version_le)|]. by rewrite (fmap_Permutation version _ _ P).
  - apply Forall_forall. intros f Hf%In. destruct (L f Hf) as (raw & _ & X). apply X.
  - exists entries. split; [done|]. split.
    + intros f Hf%In. by apply L.
    + intros n raw Hn Hs. destruct (A n raw Hn Hs) as (f & Hf & X). exists f. by rewrite In.
Qed.

Definition demo_dir : list (gostring * fnode) :=
  [(str "README.md", FFile (Some (str "notes")));
   (str "sqlite", FDir (Some [(str "20260201000000_tags.sql", FFile (Some (str "create table tags (id int);")));
                              (str "20260101000000_posts.sql", FFile (Some (str "create table posts (id int); create index i on posts (id)")))]))].

Lemma loadMigrations_ok_witness : exists files, loadMigrations (fun s => s) demo_dir (str "app") SQLite = Ok files
  /\ map version files = [str "20260101000000"; str "20260201000000"] /\ files_ok (str "app") files.
Proof.
  destruct (loadMigrations (fun s => s) demo_dir (str "app") SQLite) as [files|e] eqn:E; [|vm_compute in E; done].
  exists files. split; [done|]. split; [|exact (proj1 (loadMigrations_ok (fun s => s) demo_dir (str "app") SQLite files E))].
  vm_compute in E. injection E as <-. reflexivity.
Defined.

(** ** The guard *)

Section guard.
Context (checksum : gostring -> gostring) (fails : call -> nat -> bool) (now : nat -> Z) (d : dialect).

(** The statements a step adds are among [ss]. *)
Definition runs_only {A} (ss : list gostring) (m : step A) : Prop :=
  forall w, exists l, ran (m w).1 = ran w ++ l /\ Forall (fun s => s ∈ ss) l.

Lemma runs_nothing {A} ss (m : step A) : (forall w, ran (m w).1 = ran w) -> runs_only ss m.
Proof. intros H w. exists []. by rewrite H, app_nil_r. Qed.

Lemma runs_bind {A B} ss (m : step A) (k : A -> step B) : runs_only ss m -> (forall a, runs_only ss (k a)) -> runs_only ss (bind m k).
Proof.
  intros Hm Hk w. destruct (Hm w) as (l1 & E1 & F1). unfold bind. destruct (m w) as [w1 [a|e]]; [|by exists l1].
  destruct (Hk a w1) as (l2 & E2 & F2). cbn in E1. exists (l1 ++ l2). rewrite E2, E1, <- app_assoc. split; [done|]. by apply Forall_app.
Qed.

Lemma runs_call {A} ss (m : step A) : (forall w, ran (m w).1 = ran w) -> runs_only ss m.
Proof. apply runs_nothing. Qed.

Lemma db_call_ran c e f w : (forall w, ran (f w) = ran w) -> ran (db_call fails c e f w).1 = ran w.
Proof. intros H. unfold db_call. case_match; cbn; [done|]. by rewrite H. Qed.

Lemma runs_exec ss s e : s ∈ ss -> runs_only ss (exec fails s e).
Proof.
  intros H w. unfold exec, db_call. case_match; cbn; [exists []; by rewrite app_nil_r|]. exists [s]. split; [done|]. by constructor.
Qed.

Lemma runs_update ss own v g e : runs_only ss (update_row fails own v g e).
Proof. apply runs_nothing. intros w. by apply db_call_ran. Qed.

Lemma runs_insert ss own v r e : runs_only ss (insert_row fails own v r e).
Proof. apply runs_nothing. intros w. unfold insert_row. case_match; [done|]. by apply db_call_ran. Qed.

Lemma runs_exec_all ss f i l : (forall s, s ∈ l -> s ∈ ss) -> runs_only ss (exec_all fails f i l).
Proof.
  revert i. induction l as [|s l IH]; intros i H; cbn; [by apply runs_nothing|].
  apply runs_bind; [apply runs_exec, H; left|]. intros _. apply IH. intros x Hx. apply H. by right.
Qed.

Lemma runs_resume ss f i l has : (forall s, s ∈ l -> s ∈ ss) -> runs_only ss (resume checksum fails f i l has).
Proof.
  revert i has. induction l as [|s l IH]; intros i has H; cbn; [by apply runs_nothing|].
  apply runs_bind; [apply runs_exec, H; left|]. intros _. apply runs_bind; [destruct has; [apply runs_update|apply runs_insert]|].
  intros _. apply IH. intros x Hx. apply H. by right.
Qed.

Lemma runs_here {A} ss (m : world -> step A) : (forall w, runs_only ss (m w)) -> runs_only ss (fun w => m w w).
Proof. intros H w. apply H. Qed.

Lemma runs_tx ss (m : step unit) : runs_only ss m -> runs_only ss (runTransaction fails m).
Proof.
  intros H w. unfold runTransaction, db_call at 1. destruct (fails Begin (tick w)); [exists []; by rewrite app_nil_r|].
  set (w1 := World (S (tick w)) (ledger w) (ran w)). destruct (H w1) as (l & E & Fl). destruct (m w1) as [w2 [[]|e]]; cbn in E.
  - unfold db_call. destruct (fails Commit _); cbn; [exists []; by rewrite app_nil_r|by exists l].
  - exists []. by rewrite app_nil_r.
Qed.

Lemma runs_file rows n f : runs_only (stmts f) (apply_file checksum fails now d rows n f).
Proof.
  unfold apply_file. case_match; [by apply runs_nothing|]. case_match; [by apply runs_nothing|]. case_decide.
  - intros w. unfold applyByStatement. destruct (rows !! version f) as [r|].
    + case_match; [exists []; by rewrite app_nil_r|]. apply runs_bind.
      * apply runs_resume. intros s Hs. rewrite <- (firstn_skipn (Z.to_nat (StatementIndex r)) (stmts f)). apply elem_of_app. by right.
      * intros _. apply (runs_here _ (fun w => update_row fails _ _ _ _)). intros w'. apply runs_update.
    + apply runs_bind; [by apply runs_resume|]. intros _. apply (runs_here _ (fun w => update_row fails _ _ _ _)). intros w'. apply runs_update.
  - apply runs_tx, runs_bind; [apply runs_nothing; intros w; by apply db_call_ran|]. intros _ w. destruct (is_applied _ _ w); [exists []; by rewrite app_nil_r|].
    apply runs_bind; [by apply runs_exec_all|]. intros _. apply (runs_here _ (fun w => insert_row fails _ _ _ _)). intros w'. apply runs_insert.
Qed.

(** A file the loop may run. *)
Definition may_run (rows : gmap gostring ledgerRow) (n : gostring) (f : migration) : Prop :=
  applied_row (rows !! version f) = false /\ (rows !! version f = None -> str_ltb (version f) n = false).

Lemma file_guard rows n f w : ran (apply_file checksum fails now d rows n f w).1 <> ran w -> may_run rows n f.
Proof.
  unfold apply_file, may_run. destruct (applied_row (rows !! version f)); [done|]. intros H. split; [done|]. intros E. rewrite E in H.
  destruct (str_ltb (version f) n); done.
Qed.

Lemma files_guard rows n fs w : exists l, ran (apply_files checksum fails now d rows n fs w).1 = ran w ++ l
  /\ Forall (fun s => exists f, f ∈ fs /\ s ∈ stmts f /\ may_run rows n f) l.
Proof.
  revert w. induction fs as [|f fs IH]; intros w; cbn [apply_files]; [exists []; by rewrite app_nil_r|].
  destruct (runs_file rows n f w) as (l1 & E1 & F1).
  assert (G1 : Forall (fun s => exists g, g ∈ f :: fs /\ s ∈ stmts g /\ may_run rows n g) l1).
  { destruct l1 as [|s l1]; [constructor|]. assert (M : may_run rows n f).
    { apply (file_guard rows n f w). rewrite E1. intros X. apply (f_equal length) in X. rewrite length_app in X. cbn in X. lia. }
    eapply Forall_impl; [exact F1|]. intros x Hx. exists f. split; [left|done]. }
  unfold bind. destruct (apply_file checksum fails now d rows n f w) as [w1 [[]|e]]; cbn in E1; [|by exists l1].
  destruct (IH w1) as (l2 & E2 & F2). exists (l1 ++ l2). rewrite E2, E1, <- app_assoc. split; [done|]. apply Forall_app. split; [done|].
  eapply Forall_impl; [exact F2|]. intros x (g & Hg & X). exists g. split; [by right|done].
Qed.

Lemma newest_ge sts s : s ∈ sts -> State s = applied -> str_leb (s_Version s) (newest sts) = true.
Proof.
  unfold newest. assert (G : forall l acc, str_leb acc (fold_left (fun n s => if in_state applied s || in_state drifted s then str_max n (s_Version s) else n) l acc) = true).
  { induction l as [|x l IH]; intros acc; cbn; [apply str_leb_refl|]. eapply str_leb_trans; [|apply IH].
    case_match; [|apply str_leb_refl]. unfold str_max. destruct (str_leb (s_Version x) acc) eqn:E; [apply str_leb_refl|]. destruct (str_leb_total acc (s_Version x)); congruence. }
  generalize (@nil ascii). induction sts as [|x sts IH]; intros acc; [by intros ?%elem_of_nil|]. cbn.
  intros [->|Hs]%elem_of_cons Ha; [|by apply IH]. replace (in_state applied x) with true by (symmetry; by apply bool_decide_eq_true). cbn.
  eapply str_leb_trans; [|apply G]. unfold str_max. case_match; [done|]. apply str_leb_refl.
Qed.
End guard.

(** The files explain the ledger: each recorded version has its file, which
    has not changed since it was applied. *)
Definition explained (fs : list migration) (rows : gmap gostring ledgerRow) : Prop :=
  forall v r, rows !! v = Some r -> exists f, f ∈ fs /\ version f = v /\ (is_Some (AppliedAt r) -> l_Checksum r = sum f).

Lemma agrees_explained own fs rows : agrees own fs rows -> explained fs rows.
Proof.
  intros [Ad Am] v r Er.
  assert (Hf : exists f, f ∈ fs /\ version f = v).
  { apply has_file_spec. destruct (has_file fs v) eqn:Hh; [done|exfalso].
    assert (Hm : gone_status own (v, r) ∈ List.filter (in_state missing) (status own fs rows)).
    { apply in_states. split; [done|]. right. by exists v, r. }
    rewrite Am in Hm. by apply elem_of_nil in Hm. }
  destruct Hf as (f & Hf & <-). exists f. split; [done|]. split; [done|]. intros [t Et].
  destruct (decide (l_Checksum r = sum f)) as [|N]; [done|exfalso].
  assert (Hd : file_status rows f ∈ List.filter (in_state drifted) (status own fs rows)).
  { apply in_states. split; [|left; by exists f]. unfold file_status. rewrite Er, Et. cbn. unfold seq_eqb. by rewrite bool_decide_false. }
  rewrite Ad in Hd. by apply elem_of_nil in Hd.
Qed.

(** Nothing runs that the ledger contradicts, on any dialect, from any
    state, whichever calls fail.  A call of [apply] that runs a statement, or
    succeeds, met a ledger whose every version has its file, unchanged if it
    was applied; and what it runs are statements of files that are not
    applied and that, unless they were begun before, are not older than any
    applied file. *)
Theorem apply_guarded checksum fails now d own fs w :
  let p := apply checksum fails now d own fs w in
  let rows := rows_of own w in
  exists l, ran p.1 = ran w ++ l
    /\ (l <> [] \/ p.2 = Ok tt -> explained fs rows)
    /\ Forall (fun s => exists f, f ∈ fs /\ s ∈ stmts f /\ applied_row (rows !! version f) = false
         /\ (rows !! version f = None -> forall g, g ∈ fs -> applied_as rows g -> str_leb (version g) (version f) = true)) l.
Proof.
  cbn zeta. pattern (apply checksum fails now d own fs w). unfold apply. destruct (lock_same fails own d w) as [A1 A2].
  assert (Stop : forall w1 e, ran w1 = ran w -> exists l, ran (w1, Err e : result migrate_error unit).1 = ran w ++ l
    /\ (l <> [] \/ (w1, Err e : result migrate_error unit).2 = Ok tt -> explained fs (rows_of own w))
    /\ Forall (fun s => exists f, f ∈ fs /\ s ∈ stmts f /\ applied_row (rows_of own w !! version f) = false
         /\ (rows_of own w !! version f = None -> forall g, g ∈ fs -> applied_as (rows_of own w) g -> str_leb (version g) (version f) = true)) l).
  { intros w1 e E. exists []. rewrite app_nil_r. split; [done|]. split; [by intros [?|?]|constructor]. }
  apply bind_case; intros w1 a E1; rewrite E1 in A1, A2; cbn in A1, A2; [|by apply Stop].
  destruct (ensure_same fails own w1) as [B1 B2].
  apply bind_case; intros w2 b E2; rewrite E2 in B1, B2; cbn in B1, B2; [|apply Stop; congruence].
  apply bind_case; intros w3 c E3.
  2:{ apply Stop. unfold readLedger, db_call in E3. destruct (ledger w2); [|done]. destruct (fails _ _); [|done]. injection E3 as <- _. cbn. congruence. }
  destruct (read_rows fails own _ _ _ E3) as (-> & _ & G2). rewrite B1, A1. assert (R3 : ran w3 = ran w) by congruence.
  destruct (agrees_dec own fs (rows_of own w)) as [A|A].
  2:{ destruct (apply_rows_disagrees checksum fails now d own fs _ w3 A) as [e ->]. by apply Stop. }
  rewrite apply_rows_agrees by done. destruct (files_guard checksum fails now d (rows_of own w) (newest (status own fs (rows_of own w))) fs w3) as (l & E & Fl).
  exists l. split; [by rewrite E, R3|]. split; [intros _; by apply (agrees_explained own)|].
  eapply Forall_impl; [exact Fl|]. intros s (f & Hf & Hs & M1 & M2). exists f. split_and!; try done.
  intros N g Hg Ag. specialize (M2 N). unfold str_ltb in M2. apply negb_false_iff in M2. eapply str_leb_trans; [|exact M2].
  rewrite <- (file_status_version (rows_of own w) g). apply newest_ge; [|by apply applied_as_state].
  apply (list_elem_of_In), (filter_In (in_state applied)). apply list_elem_of_In, in_states. split; [by apply applied_as_state|]. left. by exists g.
Qed.
