(* ===== verification/LoginLimiter.v ===== *)
(** identity/ratelimit.go: the sliding-window counter of sign-in attempts.
    Below its size cap the table answers what an unbounded log of the
    attempts would, cleanups and all; and the throttle of a route bounds the
    calls that pass within a window, concurrent ones included. *)

From Stdlib Require Import ZArith Lia List Ascii.
From stdpp Require Import base decidable list gmap strings relations.
From S2P Require Import Prelude GoStrings.

(** ** The limiter *)

Definition maxLimiterEntries : Z := 100000.
Definition cleanupWatermark : Z := maxLimiterEntries * 3 / 4.

Record limiterEntry := LimiterEntry { attempts : list Z; lastSeen : Z }.

Record limiterKey := LimiterKey { Name : gostring; Value : gostring; ip : bool }.

Definition ipKey (name value : gostring) : limiterKey := LimiterKey name value true.

Definition bucket (k : limiterKey) : gostring := Name k ++ ["000"%char] ++ Value k.

Notation table := (gmap gostring limiterEntry).

(** What [newLoginLimiter] fixes, and what changes. *)
Record limiter_config := LimiterConfig { window : Z; threshold : Z; ipThreshold : Z }.

Record loginLimiter := LoginLimiter { entries : table; calls : nat; cleaning : bool; closed : bool }.

Definition newLoginLimiter : loginLimiter := LoginLimiter ∅ 0 false false.

Section limiter.
(** [iter n m] is the order in which a range over the map [m] goes at the
    [n]-th call: any. *)
Context (cfg : limiter_config) (iter : nat -> table -> list (gostring * limiterEntry)).

Definition counted (key : limiterKey) : bool :=
  negb (seq_eqb (Value key) []) && (negb (ip key) || (ipThreshold cfg >? 0)).

Definition limit_of (key : limiterKey) : Z := if ip key then ipThreshold cfg else threshold cfg.

(** t.After(cutoff), for the cutoff of [now]. *)
Definition live (now t : Z) : bool := now - window cfg <? t.

(** [check]: [None] is within the limits, otherwise the name of the first
    dimension that is full. *)
Fixpoint check (now : Z) (keys : list limiterKey) (m : table) : option gostring :=
  match keys with
  | [] => None
  | key :: keys' =>
      if negb (counted key) then check now keys' m
      else match m !! bucket key with
           | None => check now keys' m
           | Some e =>
               let count := Z.of_nat (length (List.filter (live now) (attempts e))) in
               if count >=? limit_of key then Some (Name key) else check now keys' m
           end
  end.

(** [evictOldestLocked]: the loop over the map keeps the first of the
    oldest. *)
Definition older (best : option (gostring * Z)) (p : gostring * limiterEntry) : option (gostring * Z) :=
  match best with
  | None => Some (p.1, lastSeen p.2)
  | Some (k, t) => if lastSeen p.2 <? t then Some (p.1, lastSeen p.2) else Some (k, t)
  end.

Definition oldest (l : list (gostring * limiterEntry)) : option (gostring * Z) := fold_left older l None.

Definition evictOldestLocked (n : nat) (m : table) : table :=
  match oldest (iter n m) with
  | Some (k, _) => delete k m
  | None => m
  end.

Definition recordLocked (n : nat) (now : Z) (key : gostring) (m : table) : table :=
  let m := match m !! key with
           | Some _ => m
           | None => if maxLimiterEntries <=? Z.of_nat (size m) then evictOldestLocked n m else m
           end in
  let valid := match m !! key with Some e => List.filter (live now) (attempts e) | None => [] end in
  <[key := LimiterEntry (valid ++ [now]) now]> m.

Definition record_keys (n : nat) (now : Z) (keys : list limiterKey) (m : table) : table :=
  fold_left (fun m key => if counted key then recordLocked n now (bucket key) m else m) keys m.

(** [record]: it may start the cleanup goroutine. *)
Definition record (now : Z) (keys : list limiterKey) (l : loginLimiter) : loginLimiter :=
  let m := record_keys (calls l) now keys (entries l) in
  let c := S (calls l) in
  let needsCleanup := (cleanupWatermark <=? Z.of_nat (size m)) || (c mod 100 =? 0)%nat in
  LoginLimiter m c (if closed l || negb needsCleanup then cleaning l else true) (closed l).

(** [cleanupLocked]. *)
Definition cleanupLocked (now : Z) (m : table) : table :=
  filter (fun p : gostring * limiterEntry => existsb (live now) (attempts p.2) = true) m.

(** [runCleanup], when its goroutine gets the lock. *)
Definition runCleanup (now : Z) (l : loginLimiter) : loginLimiter :=
  LoginLimiter (cleanupLocked now (entries l)) (calls l) false (closed l).

Definition Close (l : loginLimiter) : loginLimiter := LoginLimiter (entries l) (calls l) (cleaning l) true.

(** The 429 of [throttle]. *)
Record throttled := Throttled { triggered_by : gostring; retry_after : Z }.

Definition refusal (by_ : gostring) : throttled := Throttled by_ (Z.max (Z.quot (window cfg) 1000000000) 1).

(** ** The unbounded log *)

Notation log := (list (gostring * Z)).

(** The attempts of a bucket within the window that ends at [now]. *)
Definition within (now : Z) (b : gostring) (h : log) : list Z :=
  List.filter (live now) (map snd (List.filter (fun p => seq_eqb p.1 b) h)).

Definition log_record (now : Z) (keys : list limiterKey) (h : log) : log :=
  h ++ map (fun key => (bucket key, now)) (List.filter counted keys).

(** Every counted key below its limit; otherwise the first that is not. *)
Definition log_check (now : Z) (keys : list limiterKey) (h : log) : option gostring :=
  match List.filter (fun key => Z.of_nat (length (within now (bucket key) h)) >=? limit_of key)
          (List.filter counted keys) with
  | [] => None
  | key :: _ => Some (Name key)
  end.

(** The table holds what counts of the log from [now] on. *)
Definition tracks (now : Z) (h : log) (m : table) : Prop :=
  forall b now', now <= now' ->
    List.filter (live now') (match m !! b with Some e => attempts e | None => [] end) = within now' b h.

Lemma within_app now b h h' : within now b (h ++ h') = within now b h ++ within now b h'.
Proof. unfold within. by rewrite List.filter_app, map_app, List.filter_app. Qed.

Lemma live_mono now now' t : now <= now' -> live now' t = true -> live now t = true.
Proof. unfold live. lia. Qed.

Lemma filter_live_twice now now' (l : list Z) : now <= now' ->
  List.filter (live now') (List.filter (live now) l) = List.filter (live now') l.
Proof.
  intros H. induction l as [|t l IH]; [done|]. cbn. destruct (live now t) eqn:E; cbn; [by rewrite IH|].
  rewrite IH. destruct (live now' t) eqn:E'; [|done]. rewrite (live_mono now now' t H E') in E. done.
Qed.

Lemma tracks_mono now now' h m : now <= now' -> tracks now h m -> tracks now' h m.
Proof. intros H T b t Ht. apply T. lia. Qed.

Lemma tracks_record n now b h m : tracks now h m -> (m !! b = None -> Z.of_nat (size m) < maxLimiterEntries) ->
  tracks now (h ++ [(b, now)]) (recordLocked n now b m).
Proof.
  intros T Hs c now' Hn. unfold recordLocked.
  assert (E : match m !! b with Some _ => m | None => if maxLimiterEntries <=? Z.of_nat (size m) then evictOldestLocked n m else m end = m).
  { destruct (m !! b); [done|]. rewrite (proj2 (Z.leb_gt _ _)); [done|]. by apply Hs. }
  rewrite E, within_app. unfold within at 2. cbn. destruct (decide (b = c)) as [<-|N].
  - rewrite lookup_insert_eq. cbn. unfold seq_eqb. rewrite bool_decide_true by done. cbn.
    rewrite List.filter_app. f_equal. rewrite <- (T b now' Hn).
    destruct (m !! b); [by apply filter_live_twice|done].
  - rewrite lookup_insert_ne by done. unfold seq_eqb. rewrite bool_decide_false by done. cbn. rewrite app_nil_r. by apply T.
Qed.

Lemma size_record n now b m : (m !! b = None -> Z.of_nat (size m) < maxLimiterEntries) ->
  (size (recordLocked n now b m) <= S (size m))%nat.
Proof.
  intros Hs. unfold recordLocked.
  assert (E : match m !! b with Some _ => m | None => if maxLimiterEntries <=? Z.of_nat (size m) then evictOldestLocked n m else m end = m).
  { destruct (m !! b); [done|]. rewrite (proj2 (Z.leb_gt _ _)); [done|]. by apply Hs. }
  rewrite E. destruct (m !! b) eqn:Eb; [rewrite map_size_insert_Some; [lia|by rewrite Eb]|rewrite map_size_insert_None; [lia|done]].
Qed.

Lemma tracks_records n now keys h m : tracks now h m -> Z.of_nat (size m + length keys) <= maxLimiterEntries ->
  tracks now (log_record now keys h) (record_keys n now keys m).
Proof.
  unfold log_record, record_keys. revert h m. induction keys as [|key keys IH]; intros h m T Hs; cbn; [by rewrite app_nil_r|].
  cbn in Hs. destruct (counted key); cbn; [|apply IH; [done|lia]].
  replace (h ++ (bucket key, now) :: map (fun key => (bucket key, now)) (List.filter counted keys))
    with ((h ++ [(bucket key, now)]) ++ map (fun key => (bucket key, now)) (List.filter counted keys)) by (by rewrite <- app_assoc).
  apply IH; [apply tracks_record; [done|intros _; lia]|].
  pose proof (size_record n now (bucket key) m ltac:(intros _; lia)). lia.
Qed.

Lemma tracks_cleanup now h m : tracks now h m -> tracks now h (cleanupLocked now m).
Proof.
  intros T b now' Hn. rewrite <- (T b now' Hn). unfold cleanupLocked.
  destruct (m !! b) as [e|] eqn:E.
  - destruct (existsb (live now) (attempts e)) eqn:X.
    + rewrite (map_lookup_filter_Some_2 _ m b e E); done.
    + rewrite map_lookup_filter_None_2.
      * cbn. symmetry. destruct (List.filter _ _) as [|t l] eqn:F; [done|exfalso].
        assert (Ht : In t (List.filter (live now') (attempts e))) by (rewrite F; by left).
        apply filter_In in Ht as [Ht Lt]. apply not_true_iff_false in X. apply X, existsb_exists. exists t. split; [done|].
        by apply (live_mono now now').
      * right. intros e' Ee'. rewrite E in Ee'. injection Ee' as <-. cbn. by rewrite X.
  - rewrite map_lookup_filter_None_2; [done|by left].
Qed.

Lemma tracks_check now keys h m : tracks now h m -> (forall key, key ∈ keys -> counted key = true -> 0 < limit_of key) ->
  check now keys m = log_check now keys h.
Proof.
  intros T. unfold log_check. induction keys as [|key keys IH]; intros Hl; [done|]. cbn [check List.filter].
  specialize (IH ltac:(intros; apply Hl; [by right|done])). specialize (Hl key ltac:(left)).
  destruct (counted key); cbn [negb List.filter]; [|done]. specialize (T (bucket key) now ltac:(lia)).
  rewrite <- T. destruct (m !! bucket key) as [e|]; [|].
  - destruct (Z.of_nat (length (List.filter (live now) (attempts e))) >=? limit_of key); done.
  - cbn. specialize (Hl eq_refl). rewrite Z.geb_leb, (proj2 (Z.leb_gt _ _)) by lia. done.
Qed.
(** ** Any history of calls *)

Inductive limiter_op :=
| OCheck (now : Z) (keys : list limiterKey)
| ORecord (now : Z) (keys : list limiterKey)
| OCleanup (now : Z)
| OClose.

Definition op_time (clock : Z) (o : limiter_op) : Z :=
  match o with OCheck now _ | ORecord now _ | OCleanup now => now | OClose => clock end.

Fixpoint run_ops (os : list limiter_op) (l : loginLimiter) : loginLimiter * list (option gostring) :=
  match os with
  | [] => (l, [])
  | OCheck now keys :: os' => let '(l', rs) := run_ops os' l in (l', check now keys (entries l) :: rs)
  | ORecord now keys :: os' => run_ops os' (record now keys l)
  | OCleanup now :: os' => run_ops os' (if cleaning l then runCleanup now l else l)
  | OClose :: os' => run_ops os' (Close l)
  end.

Fixpoint run_log (os : list limiter_op) (h : log) : list (option gostring) :=
  match os with
  | [] => []
  | OCheck now keys :: os' => log_check now keys h :: run_log os' h
  | ORecord now keys :: os' => run_log os' (log_record now keys h)
  | OCleanup _ :: os' | OClose :: os' => run_log os' h
  end.

(** Time does not go back; and every record meets room in the table. *)
Fixpoint in_time (clock : Z) (os : list limiter_op) : Prop :=
  match os with
  | [] => True
  | o :: os' => clock <= op_time clock o /\ in_time (op_time clock o) os'
  end.

Fixpoint has_room (os : list limiter_op) (l : loginLimiter) : Prop :=
  match os with
  | [] => True
  | OCheck _ _ :: os' => has_room os' l
  | ORecord now keys :: os' => Z.of_nat (size (entries l) + length keys) <= maxLimiterEntries /\ has_room os' (record now keys l)
  | OCleanup now :: os' => has_room os' (if cleaning l then runCleanup now l else l)
  | OClose :: os' => has_room os' (Close l)
  end.

Lemma limit_pos key : 0 < threshold cfg -> counted key = true -> 0 < limit_of key.
Proof. unfold counted, limit_of. destruct (ip key); cbn; lia. Qed.

Lemma run_ops_log os clock l h : 0 < threshold cfg -> in_time clock os -> has_room os l -> tracks clock h (entries l) ->
  (run_ops os l).2 = run_log os h.
Proof.
  intros Hp. revert clock l h. induction os as [|[now keys|now keys|now|] os IH]; intros clock l h Ht Hr T; [done|..];
    destruct Ht as [Hn Ht]; cbn [op_time] in Hn, Ht; cbn [run_ops run_log has_room] in *.
  - pose proof (tracks_mono _ now _ _ Hn T) as T'. specialize (IH now l h Ht Hr T').
    destruct (run_ops os l) as [l' rs]. cbn in *. rewrite IH. f_equal. apply tracks_check; [done|].
    intros key _ C. by apply limit_pos.
  - destruct Hr as [Hs Hr]. apply (IH now); [done..|]. unfold record. cbn. apply tracks_records; [|done]. by apply (tracks_mono clock).
  - destruct (cleaning l); apply (IH now); try done; [|by apply (tracks_mono clock)].
    unfold runCleanup. cbn. apply tracks_cleanup. by apply (tracks_mono clock).
  - by apply (IH clock).
Qed.

(** ** Past the cap *)

Definition undercounts (now : Z) (h : log) (m : table) : Prop :=
  forall b now', now <= now' ->
    (length (List.filter (live now') (match m !! b with Some e => attempts e | None => [] end)) <= length (within now' b h))%nat.

Lemma undercounts_mono now now' h m : now <= now' -> undercounts now h m -> undercounts now' h m.
Proof. intros H T b t Ht. apply T. lia. Qed.

Lemma undercounts_delete now h m k : undercounts now h m -> undercounts now h (delete k m).
Proof.
  intros U b now' Hn. destruct (decide (k = b)) as [<-|N]; [rewrite lookup_delete_eq; cbn; lia|].
  rewrite lookup_delete_ne by done. by apply U.
Qed.

Lemma undercounts_evict n now h m : undercounts now h m -> undercounts now h (evictOldestLocked n m).
Proof. intros U. unfold evictOldestLocked. destruct (oldest _) as [[k t]|]; [by apply undercounts_delete|done]. Qed.

Lemma undercounts_record n now b h m : undercounts now h m -> undercounts now (h ++ [(b, now)]) (recordLocked n now b m).
Proof.
  intros U c now' Hn. unfold recordLocked. set (m' := match m !! b with Some _ => m | None => _ end).
  assert (U' : undercounts now h m').
  { unfold m'. destruct (m !! b); [done|]. case_match; [by apply undercounts_evict|done]. }
  rewrite within_app. unfold within at 2. cbn. rewrite length_app. destruct (decide (b = c)) as [<-|N].
  - rewrite lookup_insert_eq. cbn. unfold seq_eqb. rewrite bool_decide_true by done. cbn. rewrite List.filter_app, length_app.
    specialize (U' b now' Hn). cbn. destruct (m' !! b); [rewrite filter_live_twice by done|]; cbn in *; lia.
  - rewrite lookup_insert_ne by done. unfold seq_eqb. rewrite bool_decide_false by done. cbn. specialize (U' c now' Hn). lia.
Qed.

Lemma undercounts_records n now keys h m : undercounts now h m -> undercounts now (log_record now keys h) (record_keys n now keys m).
Proof.
  unfold log_record, record_keys. revert h m. induction keys as [|key keys IH]; intros h m T; cbn; [by rewrite app_nil_r|].
  destruct (counted key); cbn; [|by apply IH].
  replace (h ++ (bucket key, now) :: map (fun key => (bucket key, now)) (List.filter counted keys))
    with ((h ++ [(bucket key, now)]) ++ map (fun key => (bucket key, now)) (List.filter counted keys)) by (by rewrite <- app_assoc).
  by apply IH, undercounts_record.
Qed.

Lemma undercounts_cleanup now t h m : undercounts now h m -> undercounts now h (cleanupLocked t m).
Proof.
  intros U b now' Hn. specialize (U b now' Hn). unfold cleanupLocked. destruct (filter _ m !! b) eqn:E; [|cbn; lia].
  apply map_lookup_filter_Some in E as [E _]. by rewrite E in U.
Qed.

Lemma undercounts_check now keys h m name : undercounts now h m -> check now keys m = Some name -> log_check now keys h <> None.
Proof.
  intros U. unfold log_check. induction keys as [|key keys IH]; [done|]. cbn [check List.filter].
  destruct (counted key); cbn [negb List.filter]; [|done]. specialize (U (bucket key) now ltac:(lia)).
  destruct (m !! bucket key) as [e|]; cbn in U.
  - destruct (Z.geb_spec (Z.of_nat (length (List.filter (live now) (attempts e)))) (limit_of key)) as [L|L].
    + intros _. rewrite Z.geb_leb, (proj2 (Z.leb_le _ _)) by lia. done.
    + intros H. destruct (Z.of_nat (length (within now (bucket key) h)) >=? limit_of key); [done|by apply IH].
  - intros H. destruct (Z.of_nat (length (within now (bucket key) h)) >=? limit_of key); [done|by apply IH].
Qed.

(** The victim of an eviction was last seen no later than any other entry. *)
Definition best_of (best : option (gostring * Z)) (seen : list (gostring * limiterEntry)) : Prop :=
  match best with
  | None => seen = []
  | Some (k, t) => (exists e, (k, e) ∈ seen /\ lastSeen e = t) /\ Forall (fun p => t <= lastSeen p.2) seen
  end.

Lemma older_best best seen p : best_of best seen -> best_of (older best p) (seen ++ [p]).
Proof.
  destruct p as [k e]. unfold older, best_of. destruct best as [[k0 t0]|]; cbn.
  - intros [(e0 & He0 & E0) Fa]. destruct (Z.ltb_spec (lastSeen e) t0); (split; [|apply Forall_app; split; [|constructor; [cbn; lia|done]]]).
    + exists e. set_solver.
    + eapply Forall_impl; [exact Fa|]. cbn. lia.
    + exists e0. set_solver.
    + done.
  - intros ->. split; [exists e; set_solver|]. constructor; [cbn; lia|done].
Qed.

Lemma oldest_best l : best_of (oldest l) l.
Proof.
  unfold oldest. assert (G : forall l best seen, best_of best seen -> best_of (fold_left older l best) (seen ++ l)).
  { clear l. intros l. induction l as [|p l IH]; intros best seen H; cbn; [by rewrite app_nil_r|].
    replace (seen ++ p :: l) with ((seen ++ [p]) ++ l) by (by rewrite <- app_assoc). by apply IH, older_best. }
  by apply (G l None []).
Qed.

Context (iter_all : forall n m, iter n m ≡ₚ map_to_list m).

Lemma evict_size n m : m <> ∅ -> exists k e, m !! k = Some e /\ evictOldestLocked n m = delete k m
  /\ (forall k' e', m !! k' = Some e' -> lastSeen e <= lastSeen e').
Proof.
  intros Hm. unfold evictOldestLocked. pose proof (oldest_best (iter n m)) as B. destruct (oldest (iter n m)) as [[k t]|]; cbn in B.
  - destruct B as [(e & He & <-) Fa]. rewrite (iter_all n m) in He. apply elem_of_map_to_list in He. exists k, e. split; [done|]. split; [done|].
    intros k' e' E'. rewrite Forall_forall in Fa. apply (Fa (k', e')). rewrite (iter_all n m). by apply elem_of_map_to_list.
  - exfalso. apply Hm, map_to_list_empty_iff, Permutation_nil_r. by rewrite <- (iter_all n m), B.
Qed.

Lemma record_size n now b m : Z.of_nat (size m) <= maxLimiterEntries -> Z.of_nat (size (recordLocked n now b m)) <= maxLimiterEntries.
Proof.
  intros Hs. unfold recordLocked. destruct (m !! b) as [e|] eqn:Eb.
  - rewrite map_size_insert_Some; [done|by rewrite Eb].
  - destruct (Z.leb_spec maxLimiterEntries (Z.of_nat (size m))) as [L|L].
    + assert (Hm : m <> ∅) by (intros ->; rewrite map_size_empty in L; unfold maxLimiterEntries in L; lia).
      destruct (evict_size n m Hm) as (k & e & Ek & -> & _). rewrite map_size_insert_None; [|by apply lookup_delete_None; auto].
      rewrite map_size_delete_Some by (by rewrite Ek). unfold maxLimiterEntries in *. lia.
    + rewrite map_size_insert_None by done. lia.
Qed.
Lemma record_keys_size n now keys m : Z.of_nat (size m) <= maxLimiterEntries ->
  Z.of_nat (size (record_keys n now keys m)) <= maxLimiterEntries.
Proof.
  unfold record_keys. revert m. induction keys as [|key keys IH]; intros m Hm; cbn; [done|]. apply IH.
  destruct (counted key); [by apply record_size|done].
Qed.

Lemma run_ops_under os clock l h : in_time clock os -> undercounts clock h (entries l) -> Z.of_nat (size (entries l)) <= maxLimiterEntries ->
  Z.of_nat (size (entries (run_ops os l).1)) <= maxLimiterEntries
  /\ Forall2 (fun r s => r <> None -> s <> None) (run_ops os l).2 (run_log os h).
Proof.
  revert clock l h. induction os as [|[now keys|now keys|now|] os IH]; intros clock l h Ht U Hs; [done|..];
    destruct Ht as [Hn Ht]; cbn [op_time] in Hn, Ht; cbn [run_ops run_log]; pose proof (undercounts_mono _ _ _ _ Hn U) as U'.
  - specialize (IH now l h Ht U' Hs). destruct (run_ops os l) as [l' rs]. cbn in *. split; [apply IH|].
    constructor; [|apply IH]. intros C. destruct (check now keys (entries l)) as [nm|] eqn:E; [|done]. by eapply undercounts_check.
  - apply (IH now); [done|by apply undercounts_records|by apply record_keys_size].
  - destruct (cleaning l); apply (IH now); try done; [by apply undercounts_cleanup|].
    unfold runCleanup, cleanupLocked. cbn. etransitivity; [|exact Hs]. apply inj_le, map_subseteq_size, map_filter_subseteq.
  - by apply (IH clock).
Qed.
End limiter.

(** ** The throttle of a route

    Calls of [throttle] check, and those that pass record, each under the
    lock; others may come between.  At most [k] are between at a time, and
    [uses] are the keys the routes pass. *)

Section throttle.
Context (cfg : limiter_config) (iter : nat -> table -> list (gostring * limiterEntry)) (k : nat) (uses : list limiterKey -> Prop).

Record tstate := TState { clock : Z; lim : loginLimiter; flying : gmap nat (list limiterKey); history : list (gostring * Z) }.

Inductive throttle_step : tstate -> tstate -> Prop :=
| th_pass s id now keys : clock s <= now -> flying s !! id = None -> (size (flying s) < k)%nat ->
    uses keys -> NoDup (map bucket keys) -> check cfg now keys (entries (lim s)) = None ->
    throttle_step s (TState now (lim s) (<[id := keys]> (flying s)) (history s))
| th_refuse s now keys name : clock s <= now -> check cfg now keys (entries (lim s)) = Some name ->
    throttle_step s (TState now (lim s) (flying s) (history s))
| th_record s id now keys : clock s <= now -> flying s !! id = Some keys ->
    Z.of_nat (size (entries (lim s)) + length keys) <= maxLimiterEntries ->
    throttle_step s (TState now (record cfg iter now keys (lim s)) (delete id (flying s)) (log_record cfg now keys (history s)))
| th_cleanup s now : clock s <= now -> cleaning (lim s) = true ->
    throttle_step s (TState now (runCleanup cfg now (lim s)) (flying s) (history s)).

(** The calls between that count against a bucket. *)
Definition counts_on (b : gostring) (keys : list limiterKey) : Prop := exists key, key ∈ keys /\ counted cfg key = true /\ bucket key = b.

#[global] Instance counts_on_dec b keys : Decision (counts_on b keys).
Proof.
  refine (cast_if (decide (Exists (fun key => counted cfg key = true /\ bucket key = b) keys))); rewrite Exists_exists in *; unfold counts_on; naive_solver.
Defined.

Definition in_flight (b : gostring) (fl : gmap nat (list limiterKey)) : nat :=
  size (filter (fun p : nat * list limiterKey => counts_on b p.2) fl).

Lemma in_flight_size b fl : (in_flight b fl <= size fl)%nat.
Proof. unfold in_flight. apply map_subseteq_size, map_filter_subseteq. Qed.

Lemma within_mono now now' b h : now <= now' -> (length (within cfg now' b h) <= length (within cfg now b h))%nat.
Proof.
  intros H. unfold within. generalize (map snd (List.filter (fun p : gostring * Z => seq_eqb p.1 b) h)). intros l.
  rewrite <- (filter_live_twice cfg now now' l H). apply filter_length_le.
Qed.

Lemma within_record now b keys h : NoDup (map bucket keys) ->
  (length (within cfg now b (log_record cfg now keys h)) <= length (within cfg now b h) + if decide (counts_on b keys) then 1 else 0)%nat.
Proof.
  intros N. unfold log_record. rewrite within_app, length_app. apply Nat.add_le_mono_l.
  transitivity (length (List.filter (fun key => counted cfg key && seq_eqb (bucket key) b) keys)).
  - unfold within. induction keys as [|key keys IH]; [done|]. cbn in N. apply NoDup_cons in N as [_ N]. specialize (IH N).
    cbn. destruct (counted cfg key); cbn; [|done]. destruct (seq_eqb (bucket key) b); cbn; [|done]. case_match; cbn; lia.
  - induction keys as [|key keys IH]; [cbn; lia|]. cbn in N. apply NoDup_cons in N as [N1 N]. specialize (IH N). cbn.
    destruct (counted cfg key && seq_eqb (bucket key) b) eqn:E.
    + apply andb_true_iff in E as [E1 E2]. apply bool_decide_eq_true in E2. rewrite decide_True by (exists key; split; [left|done]).
      cbn. assert (List.filter (fun key => counted cfg key && seq_eqb (bucket key) b) keys = []) as ->; [|done].
      destruct (List.filter _ keys) as [|key' l] eqn:F; [done|exfalso].
      assert (Hk : In key' (List.filter (fun key => counted cfg key && seq_eqb (bucket key) b) keys)) by (rewrite F; by left).
      apply filter_In in Hk as [Hk [_ E']%andb_true_iff]. apply bool_decide_eq_true in E'. apply N1, list_elem_of_fmap. exists key'.
      split; [congruence|by apply list_elem_of_In].
    + destruct (decide (counts_on b keys)) as [(key' & Hk & X)|]; [|lia].
      rewrite decide_True; [done|]. exists key'. split; [by right|done].
Qed.

Lemma in_flight_insert b fl id keys : fl !! id = None ->
  in_flight b (<[id := keys]> fl) = (in_flight b fl + if decide (counts_on b keys) then 1 else 0)%nat.
Proof.
  intros E. unfold in_flight. case_decide.
  - rewrite map_filter_insert_True by done. rewrite map_size_insert_None; [lia|]. apply map_lookup_filter_None. by left.
  - rewrite map_filter_insert_False by done. rewrite delete_id by done. lia.
Qed.

Lemma in_flight_delete b fl id keys : fl !! id = Some keys ->
  in_flight b fl = (in_flight b (delete id fl) + if decide (counts_on b keys) then 1 else 0)%nat.
Proof.
  intros E. rewrite <- (in_flight_insert b (delete id fl) id keys) by apply lookup_delete_eq. by rewrite insert_delete_id.
Qed.

Lemma check_passed now keys h key : log_check cfg now keys h = None -> key ∈ keys -> counted cfg key = true ->
  Z.of_nat (length (within cfg now (bucket key) h)) < limit_of cfg key.
Proof.
  unfold log_check. intros H Hk Hc. destruct (List.filter _ (List.filter _ keys)) as [|x l] eqn:F; [|done].
  destruct (Z.ltb_spec (Z.of_nat (length (within cfg now (bucket key) h))) (limit_of cfg key)) as [|L]; [done|exfalso].
  assert (Hf : In key []); [|done]. rewrite <- F. apply filter_In. split; [|lia]. apply filter_In. split; [by apply list_elem_of_In|done].
Qed.

Context (b : gostring) (L : Z) (Hpos : 0 < threshold cfg) (HL : 0 < L).
Context (Huse : forall keys key, uses keys -> key ∈ keys -> counted cfg key = true -> bucket key = b -> limit_of cfg key <= L).

Definition th_inv (s : tstate) : Prop :=
  tracks cfg (clock s) (history s) (entries (lim s))
  /\ (forall id keys, flying s !! id = Some keys -> NoDup (map bucket keys))
  /\ Z.of_nat (length (within cfg (clock s) b (history s)) + in_flight b (flying s)) <= L - 1 + Z.of_nat k.

#[local] Arguments within : simpl never.
#[local] Arguments in_flight : simpl never.

Lemma throttle_step_inv s s' : throttle_step s s' -> th_inv s -> th_inv s'.
Proof.
  intros St (T & N & B). destruct St as [s id now keys Hc Hid Hk Hu Hn Ch|s now keys name Hc Ch|s id now keys Hc Hid Hr|s now Hc Hcl];
    cbn [clock lim flying history]; (apply (tracks_mono cfg _ now) in T; [|done]); pose proof (within_mono _ now b (history s) Hc) as M.
  - split; [done|]. split; [intros i ks; destruct (decide (id = i)) as [->|Ni]; cbn; [rewrite lookup_insert_eq; by intros [= <-]|rewrite lookup_insert_ne by done; apply N]|].
    cbn. pose proof (in_flight_size b (<[id := keys]> (flying s))) as S1. rewrite map_size_insert_None in S1 by done.
    rewrite in_flight_insert in S1 |- * by done.
    destruct (decide (counts_on b keys)) as [(key & Hkey & Hcnt & Eb)|D]; [|lia].
    rewrite (tracks_check cfg now keys (history s)) in Ch; [|done|intros; by apply limit_pos].
    pose proof (check_passed now keys (history s) key Ch Hkey Hcnt) as P. rewrite Eb in P.
    pose proof (Huse keys key Hu Hkey Hcnt Eb). lia.
  - split; [done|]. split; [done|]. cbn. lia.
  - split; [cbn; apply tracks_records; done|]. split; [cbn; intros i ks [_ H]%lookup_delete_Some; by eapply N|].
    cbn. pose proof (within_record now b keys (history s) (N _ _ Hid)). rewrite (in_flight_delete b _ _ _ Hid) in B. case_decide; lia.
  - split; [cbn; by apply tracks_cleanup|]. split; [done|]. cbn. lia.
Qed.
End throttle.

(** The throttle holds under concurrency.  While the table has room, in
    any order of the calls' checks and records, of cleanups and of refusals,
    with at most [k] calls between their check and their record at a time,
    no window ever holds more than limit + k - 1 attempts that passed against
    a key; so the limit itself where calls come one by one. *)
Theorem throttle_bound cfg iter k uses b L s :
  0 < threshold cfg -> 0 < L -> (0 < k)%nat ->
  (forall keys key, uses keys -> key ∈ keys -> counted cfg key = true -> bucket key = b -> limit_of cfg key <= L) ->
  rtc (throttle_step cfg iter k uses) (TState 0 newLoginLimiter ∅ []) s ->
  forall now, clock s <= now -> Z.of_nat (length (within cfg now b (history s))) <= L - 1 + Z.of_nat k.
Proof.
  intros Hp HL Hk Hu R now Hn. assert (I : th_inv cfg k b L (TState 0 newLoginLimiter ∅ [])).
  { split; [intros c t _; reflexivity|]. split; [intros id keys; cbn; by rewrite lookup_empty|].
    cbn. unfold in_flight. rewrite map_filter_empty, map_size_empty. cbn. lia. }
  assert (J : th_inv cfg k b L s) by (revert I; induction R as [|s1 s2 s3 H R IH]; [done|intros I; by eapply IH, throttle_step_inv]).
  destruct J as (_ & _ & B). pose proof (within_mono cfg _ now b (history s) Hn). lia.
Qed.

(** Below its cap the table forgets nothing that counts: whatever is
    recorded, checked and cleaned up, in time order, every check answers what
    it would on the log of all attempts ever recorded, down to the dimension
    it names. *)
Theorem limiter_refines cfg iter os : 0 < threshold cfg -> in_time 0 os -> has_room cfg iter os newLoginLimiter ->
  (run_ops cfg iter os newLoginLimiter).2 = run_log cfg os [].
Proof. intros Hp Ht Hr. apply (run_ops_log cfg iter os 0); try done. Qed.

(** The table never outgrows its cap, in any history and whatever order the
    maps are walked in; and a check past the cap refuses nothing that the
    full log would let pass. *)
Theorem limiter_bounded cfg iter os : (forall n m, iter n m ≡ₚ map_to_list m) -> in_time 0 os ->
  Z.of_nat (size (entries (run_ops cfg iter os newLoginLimiter).1)) <= maxLimiterEntries
  /\ Forall2 (fun r s => r <> None -> s <> None) (run_ops cfg iter os newLoginLimiter).2 (run_log cfg os []).
Proof. intros Hi Ht. apply (run_ops_under cfg iter Hi os 0); [done| |done]. intros b now' _. apply Nat.le_0_l. Qed.

Definition demo_cfg : limiter_config := LimiterConfig 100 2 3.
Definition demo_iter (n : nat) (m : table) : list (gostring * limiterEntry) := map_to_list m.
Definition demo_key : limiterKey := LimiterKey (str "email") (str "ann") false.

Definition demo_ops : list limiter_op :=
  [ORecord 0 [demo_key]; OCheck 5 [demo_key]; ORecord 10 [demo_key; ipKey (str "ip") []]; OCheck 20 [demo_key];
   OClose; OCheck 101 [demo_key]; OCheck 111 [demo_key]].

Lemma limiter_refines_witness :
  (run_ops demo_cfg demo_iter demo_ops newLoginLimiter).2 = run_log demo_cfg demo_ops []
  /\ run_log demo_cfg demo_ops [] = [None; Some (str "email"); None; None].
Proof.
  split; [|vm_compute; reflexivity]. apply (limiter_refines demo_cfg demo_iter demo_ops); [reflexivity| |].
  - cbn. repeat split; lia.
  - assert (H : forallb (fun s => Z.of_nat s + 2 <=? maxLimiterEntries)
      [size (entries newLoginLimiter); size (entries (record demo_cfg demo_iter 0 [demo_key] newLoginLimiter))] = true) by (vm_compute; reflexivity).
    cbn [forallb] in H. cbn [has_room demo_ops length]. lia.
Defined.

(** One call by itself, then two at once: three attempts against a limit of
    two. *)
Definition demo_uses (keys : list limiterKey) : Prop := keys = [demo_key].

Definition demo_state : tstate :=
  let one := record demo_cfg demo_iter 1 [demo_key] in
  TState 1 (one (one (one newLoginLimiter))) (delete 2%nat (delete 1%nat (<[2%nat := [demo_key]]> (<[1%nat := [demo_key]]> (delete 0%nat (<[0%nat := [demo_key]]> ∅))))))
    (log_record demo_cfg 1 [demo_key] (log_record demo_cfg 1 [demo_key] (log_record demo_cfg 1 [demo_key] []))).

Lemma limiter_demo_reached : rtc (throttle_step demo_cfg demo_iter 2 demo_uses) (TState 0 newLoginLimiter ∅ []) demo_state.
Proof.
  assert (N : NoDup (map bucket [demo_key])) by (apply NoDup_singleton).
  eapply rtc_l; [refine (th_pass demo_cfg demo_iter 2 demo_uses _ 0%nat 1 [demo_key] _ _ _ eq_refl N _); [vm_compute; congruence|vm_compute; reflexivity|vm_compute; lia|vm_compute; reflexivity]|].
  cbn [lim flying history].
  eapply rtc_l; [refine (th_record demo_cfg demo_iter 2 demo_uses _ 0%nat 1 [demo_key] _ _ _); [vm_compute; congruence|vm_compute; reflexivity|vm_compute; congruence]|].
  cbn [lim flying history].
  eapply rtc_l; [refine (th_pass demo_cfg demo_iter 2 demo_uses _ 1%nat 1 [demo_key] _ _ _ eq_refl N _); [vm_compute; congruence|vm_compute; reflexivity|vm_compute; lia|vm_compute; reflexivity]|].
  cbn [lim flying history].
  eapply rtc_l; [refine (th_pass demo_cfg demo_iter 2 demo_uses _ 2%nat 1 [demo_key] _ _ _ eq_refl N _); [vm_compute; congruence|vm_compute; reflexivity|vm_compute; lia|vm_compute; reflexivity]|].
  cbn [lim flying history].
  eapply rtc_l; [refine (th_record demo_cfg demo_iter 2 demo_uses _ 1%nat 1 [demo_key] _ _ _); [vm_compute; congruence|vm_compute; reflexivity|vm_compute; congruence]|].
  cbn [lim flying history].
  eapply rtc_l; [refine (th_record demo_cfg demo_iter 2 demo_uses _ 2%nat 1 [demo_key] _ _ _); [vm_compute; congruence|vm_compute; reflexivity|vm_compute; congruence]|].
  cbn [lim flying history].
  apply rtc_refl.
Qed.

Lemma throttle_bound_witness :
  length (within demo_cfg 1 (bucket demo_key) (history demo_state)) = 3%nat
  /\ Z.of_nat (length (within demo_cfg 1 (bucket demo_key) (history demo_state))) <= 2 - 1 + Z.of_nat 2.
Proof.
  split; [vm_compute; reflexivity|].
  apply (throttle_bound demo_cfg demo_iter 2 demo_uses (bucket demo_key) 2 demo_state); [reflexivity|reflexivity|lia| |apply limiter_demo_reached|reflexivity].
  intros keys key -> Hk _ _. apply list_elem_of_singleton in Hk as ->. vm_compute. done.
Defined.
