(* ===== verification/LoginCodes.v ===== *)
(** identity/passwordless.go and confirm.go: the codes mailed to an address,
    and the requests that trade them, as concurrent processes over the table
    auth_login_codes.

    Each statement of a request is one atomic step; between two statements of
    one, any other request takes any of its own.  The throttle before a
    request and the failures it counts are LoginLimiter's: here any number of
    requests may come.  What follows a code spent — the account it registers
    or takes over and the token it issues — is Accounts'. *)

From Stdlib Require Import ZArith Lia List Ascii.
From stdpp Require Import base decidable list gmap strings relations.
From S2P Require Import Prelude GoStrings.

(** ** Rows and requests *)

Record loginCode := LoginCode {
  Email : gostring; CodeHash : gostring; TokenHash : gostring; Attempts : Z; ExpiresAt : Z; CreatedAt : Z;
}.

Notation codes_t := (gmap gostring loginCode).

Record PasswordlessConfig := MkConfig { CodeTTL : Z; MaxAttempts : Z; ResendAfter : Z; AutoRegister : option bool }.

Definition autoRegister (pw : PasswordlessConfig) : bool := match AutoRegister pw with None => true | Some b => b end.

(** What a request trades: a code with its address, a magic-link token, or a
    signed-in user's confirmation code, with the user's id and address. *)
Inductive credential :=
| ByCode (email code : gostring)
| ByToken (token : gostring)
| ByConfirm (rid email code : gostring).

(** [confirmSecret]. *)
Definition confirmSecret (email code : gostring) : gostring := email ++ ["010"%char] ++ code.

(** How a request ended. *)
Inductive outcome :=
| Failed_                           (* a database error *)
| Sent (mailed : bool)              (* start: 202 *)
| CodeExpired
| InvalidCode (attempts_left : Z)
| Disabled
| Spent (email : gostring).         (* the row's address, or user id, is proven *)

(** Where a request is: its next statement. *)
Inductive phase :=
| StartUser (email code token : gostring) (mail : bool)                 (* start: the account *)
| StartUpdate (email code token : gostring) (now : Z) (mail : bool)     (* start: replace a row old enough *)
| StartInsert (email code token : gostring) (now : Z) (mail : bool)     (* start: write a first one *)
| Lookup (c : credential)
| Claim (c : credential) (id : gostring) (row : loginCode) (now : Z)
| Account (c : credential) (id : gostring) (row : loginCode) (now left_ : Z)
| Spend (c : credential) (id : gostring) (row : loginCode) (now : Z)
| Done (o : outcome).

Inductive event :=
| ESaved (email codeHash tokenHash : gostring) (expires : Z)
| ECompared (email : gostring)
| EMailed (email code token : gostring)
| ESpent (email : gostring) (c : credential) (now : Z).

(** The table, the accounts by address with whether they are active, the ids
    ever given to a row, and the record of the past. *)
Record world := World { codes : codes_t; accounts : gmap gostring bool; issued : gset gostring; trace : list event }.

Section codes.
(** [mac] is the hex of crypto/hmac under the signing key. *)
Context (mac : gostring -> gostring) (pw : PasswordlessConfig).

(** ** The statements *)

(** [saveLoginCode]'s UPDATE. *)
Definition old_enough (email : gostring) (now : Z) (r : loginCode) : bool :=
  seq_eqb (Email r) email && (CreatedAt r <=? now - ResendAfter pw).

Definition updateCode (email code token : gostring) (now : Z) (w : world) : world * nat :=
  let hit := List.filter (fun p : gostring * loginCode => old_enough email now p.2) (map_to_list (codes w)) in
  let fresh := LoginCode email (mac code) (mac token) 0 (now + CodeTTL pw) now in
  (World ((fun r => if old_enough email now r then fresh else r) <$> codes w) (accounts w) (issued w)
     (trace w ++ map (fun _ => ESaved email (mac code) (mac token) (now + CodeTTL pw)) hit), length hit).

(** Its INSERT, which yields to a row of the address. *)
Definition has_email (email : gostring) (m : codes_t) : bool :=
  existsb (fun p : gostring * loginCode => seq_eqb (Email p.2) email) (map_to_list m).

Definition insertCode (id email code token : gostring) (now : Z) (w : world) : world * nat :=
  if has_email email (codes w) then (w, O)
  else (World (<[id := LoginCode email (mac code) (mac token) 0 (now + CodeTTL pw) now]> (codes w)) (accounts w) ({[id]} ∪ issued w)
          (trace w ++ [ESaved email (mac code) (mac token) (now + CodeTTL pw)]), 1%nat).

(** The lookup of a credential's row. *)
Definition is_row (c : credential) (r : loginCode) : bool :=
  match c with
  | ByCode email _ => seq_eqb (Email r) email
  | ByToken token => seq_eqb (TokenHash r) (mac token)
  | ByConfirm rid _ _ => seq_eqb (Email r) rid
  end.

Definition take_row (c : credential) (m : codes_t) : option (gostring * loginCode) :=
  head (List.filter (fun p : gostring * loginCode => is_row c p.2) (map_to_list m)).

(** [claimAttempt]: UPDATE ... attempts + 1. *)
Definition claimAttempt (id : gostring) (now : Z) (m : codes_t) : codes_t * bool :=
  match m !! id with
  | Some r =>
      if (Attempts r <? MaxAttempts pw) && (now <? ExpiresAt r)
      then (<[id := LoginCode (Email r) (CodeHash r) (TokenHash r) (Attempts r + 1) (ExpiresAt r) (CreatedAt r)]> m, true)
      else (m, false)
  | None => (m, false)
  end.

(** [spendCode]: DELETE. *)
Definition spendCode (id : gostring) (now : Z) (m : codes_t) : codes_t * bool :=
  match m !! id with
  | Some r => if now <? ExpiresAt r then (delete id m, true) else (m, false)
  | None => (m, false)
  end.

(** [sweepLoginCodes]. *)
Definition sweepLoginCodes (now : Z) (m : codes_t) : codes_t := filter (fun p : gostring * loginCode => ~ ExpiresAt p.2 < now) m.

(** The secret of a credential, checked against the row it found: a token is
    the lookup itself. *)
Definition matches (c : credential) (r : loginCode) : bool :=
  match c with
  | ByCode _ code => seq_eqb (mac code) (CodeHash r)
  | ByToken _ => true
  | ByConfirm _ email code => seq_eqb (mac (confirmSecret email code)) (CodeHash r)
  end.

(** ** A request's next step

    [now] is the time where the step reads the clock, [id] the id a row it
    writes gets, [fails] whether the statement fails. *)
Definition with_codes (m : codes_t) (w : world) : world := World m (accounts w) (issued w) (trace w).
Definition say (e : event) (w : world) : world := World (codes w) (accounts w) (issued w) (trace w ++ [e]).

Definition mail_if (mail : bool) (email code token : gostring) (w : world) : world * phase :=
  ((if mail then say (EMailed email code token) w else w), Done (Sent mail)).

(** [passwordlessStart] reads the account. *)
Definition start_user (email code token : gostring) (now : Z) (w : world) : world * phase :=
  (w, StartUpdate email code token now
        (match (accounts w !! email : option bool) with Some active => active | None => autoRegister pw end)).

(** [saveLoginCode], and the mail of a fresh code. *)
Definition save_update (email code token : gostring) (t : Z) (mail : bool) (w : world) : world * phase :=
  let '(w, n) := updateCode email code token t w in
  if (0 <? n)%nat then mail_if mail email code token w else (w, StartInsert email code token t mail).

Definition save_insert (id email code token : gostring) (t : Z) (mail : bool) (w : world) : world * phase :=
  let '(w, n) := insertCode id email code token t w in
  if (0 <? n)%nat then mail_if mail email code token w else (w, Done (Sent false)).

(** [passwordlessVerify] and [confirmEmail] look the row up; a token goes on
    without an attempt. *)
Definition lookup_row (c : credential) (now : Z) (w : world) : world * phase :=
  match take_row c (codes w) with
  | None => (w, Done CodeExpired)
  | Some (id, row) =>
      if negb (now <? ExpiresAt row) || (Attempts row >=? MaxAttempts pw) then (w, Done CodeExpired)
      else match c with
           | ByToken _ => (w, Account c id row now (MaxAttempts pw - Attempts row))
           | _ => (w, Claim c id row now)
           end
  end.

(** They count an attempt and compare the code with the row they read. *)
Definition claim_compare (c : credential) (id : gostring) (row : loginCode) (t : Z) (w : world) : world * phase :=
  let '(m, claimed) := claimAttempt id t (codes w) in
  if negb claimed then (w, Done CodeExpired)
  else
    let w := say (ECompared (Email row)) (with_codes m w) in
    let left_ := MaxAttempts pw - Attempts row - 1 in
    if negb (matches c row) then (w, Done (InvalidCode left_))
    else (w, match c with ByConfirm _ _ _ => Spend c id row t | _ => Account c id row t left_ end).

(** [passwordlessVerify] reads the account. *)
Definition account_check (c : credential) (id : gostring) (row : loginCode) (t left_ : Z) (w : world) : world * phase :=
  match (accounts w !! Email row : option bool) with
  | None => (w, if autoRegister pw then Spend c id row t else Done (InvalidCode left_))
  | Some active => (w, if active then Spend c id row t else Done Disabled)
  end.

(** They spend the code. *)
Definition spend_row (c : credential) (id : gostring) (row : loginCode) (t : Z) (w : world) : world * phase :=
  let '(m, spent) := spendCode id t (codes w) in
  if spent then (say (ESpent (Email row) c t) (with_codes m w), Done (Spent (Email row)))
  else (w, Done CodeExpired).

Definition advance (fails : bool) (now : Z) (id : gostring) (p : phase) (w : world) : world * phase :=
  if fails then (w, match p with Done o => Done o | _ => Done Failed_ end) else
  match p with
  | StartUser email code token _ => start_user email code token now w
  | StartUpdate email code token t mail => save_update email code token t mail w
  | StartInsert email code token t mail => save_insert id email code token t mail w
  | Lookup c => lookup_row c now w
  | Claim c id row t => claim_compare c id row t w
  | Account c id row t left_ => account_check c id row t left_ w
  | Spend c id row t => spend_row c id row t w
  | Done o => (w, Done o)
  end.

(** The requests of a signed-in user: the code's row is under the user's id,
    and its secret covers the address it went to. *)
Definition confirmEmailStart (rid email code token : gostring) (now : Z) : phase :=
  StartUpdate rid (confirmSecret email code) token now true.

Definition confirmEmail (rid email code : gostring) : phase := Lookup (ByConfirm rid email code).

(** ** Requests together

    A request comes, one takes its next step, the sweep runs, or accounts
    change; an id is never given twice.  A confirmation code is started like
    any other, under the user's id and without an account to look up. *)
Definition initial (p : phase) : Prop :=
  match p with StartUser _ _ _ _ | StartUpdate _ _ _ _ _ | Lookup _ => True | _ => False end.

Inductive codes_step : world * list phase -> world * list phase -> Prop :=
| cs_come w ps p : initial p -> codes_step (w, ps) (w, p :: ps)
| cs_advance w ps1 p ps2 fails now id w' p' : id ∉ issued w -> advance fails now id p w = (w', p') ->
    codes_step (w, ps1 ++ p :: ps2) (w', ps1 ++ p' :: ps2)
| cs_sweep w ps now : codes_step (w, ps) (with_codes (sweepLoginCodes now (codes w)) w, ps)
| cs_accounts w ps a : codes_step (w, ps) (World (codes w) a (issued w) (trace w), ps).
End codes.
