(* ===== verification/LoginCodesSpec.v ===== *)
(** What the mailed codes promise, whatever requests run beside each other:
    the guesses and the sign-ins that the codes of an address allow. *)

From Stdlib Require Import ZArith Lia List Ascii.
From stdpp Require Import base decidable list gmap strings relations.
From S2P Require Import Prelude GoStrings LoginCodes.

Section spec.
Context (mac : gostring -> gostring) (pw : PasswordlessConfig).

(** ** Counting the past *)

Definition saved_for (e : gostring) (x : event) : bool := match x with ESaved e' _ _ _ => seq_eqb e' e | _ => false end.
Definition compared_for (e : gostring) (x : event) : bool := match x with ECompared e' => seq_eqb e' e | _ => false end.
Definition spent_for (e : gostring) (x : event) : bool := match x with ESpent e' _ _ => seq_eqb e' e | _ => false end.

Definition times (P : event -> bool) (tr : list event) : Z := Z.of_nat (length (List.filter P tr)).

Lemma times_app P a b : times P (a ++ b) = times P a + times P b.
Proof. unfold times. rewrite List.filter_app, length_app. lia. Qed.

Lemma times_one P x : times P [x] = if P x then 1 else 0.
Proof. unfold times. cbn. by destruct (P x). Qed.

Lemma times_const P x {A} (l : list A) : times P (map (fun _ => x) l) = if P x then Z.of_nat (length l) else 0.
Proof. unfold times. induction l as [|a l IH]; cbn; destruct (P x) eqn:E; cbn in *; rewrite ?E in *; lia. Qed.

Lemma times_pos P tr : 0 <= times P tr.
Proof. unfold times. lia. Qed.

(** ** The invariant *)

(** The row a request found was saved, and still bears its address if it is
    there; a credential was good for it while it was valid. *)
Definition was_saved (r : loginCode) (tr : list event) : Prop := ESaved (Email r) (CodeHash r) (TokenHash r) (ExpiresAt r) ∈ tr.

Definition found (w : world) (c : credential) (id : gostring) (r : loginCode) (t : Z) : Prop :=
  was_saved r (trace w) /\ is_row mac c r = true /\ t < ExpiresAt r /\ id ∈ issued w
  /\ (forall r', codes w !! id = Some r' -> Email r' = Email r).

Definition phase_ok (w : world) (p : phase) : Prop :=
  match p with
  | Claim c id r t => found w c id r t
  | Account c id r t _ | Spend c id r t => found w c id r t /\ matches mac c r = true
  | _ => True
  end.

Definition spent_ok (tr : list event) (x : event) : Prop :=
  match x with
  | ESpent e c t => exists ch th exp, ESaved e ch th exp ∈ tr /\ t < exp
      /\ match c with
         | ByCode email code => e = email /\ ch = mac code
         | ByToken token => th = mac token
         | ByConfirm rid email code => e = rid /\ ch = mac (confirmSecret email code)
         end
  | _ => True
  end.

Record world_ok (w : world) : Prop := {
  wo_issued : forall id r, codes w !! id = Some r -> id ∈ issued w;
  wo_unique : forall i j r s, codes w !! i = Some r -> codes w !! j = Some s -> Email r = Email s -> i = j;
  wo_saved : forall id r, codes w !! id = Some r -> was_saved r (trace w);
  wo_attempts : forall id r, codes w !! id = Some r -> Attempts r <= MaxAttempts pw
      /\ times (compared_for (Email r)) (trace w) + (MaxAttempts pw - Attempts r) <= MaxAttempts pw * times (saved_for (Email r)) (trace w)
      /\ times (spent_for (Email r)) (trace w) + 1 <= times (saved_for (Email r)) (trace w);
  wo_total : forall e, times (compared_for e) (trace w) <= MaxAttempts pw * times (saved_for e) (trace w)
      /\ times (spent_for e) (trace w) <= times (saved_for e) (trace w);
  wo_spent : forall x, x ∈ trace w -> spent_ok (trace w) x;
}.

Definition sys_ok (s : world * list phase) : Prop := world_ok s.1 /\ Forall (phase_ok s.1) s.2.

(** What a step may change under the other requests. *)
Definition grows (w w' : world) : Prop :=
  issued w ⊆ issued w' /\ (exists tr, trace w' = trace w ++ tr)
  /\ (forall id, id ∈ issued w -> forall r', codes w' !! id = Some r' -> exists r, codes w !! id = Some r /\ Email r = Email r').

Lemma grows_phase w w' p : grows w w' -> phase_ok w p -> phase_ok w' p.
Proof.
  intros (I & (tr & T) & C). assert (F : forall c id r t, found w c id r t -> found w' c id r t).
  { intros c id r t (S & R & L & Hi & E). split_and!; [|done|done|by apply I|].
    - unfold was_saved. rewrite T. apply elem_of_app. by left.
    - intros r' E'. destruct (C id Hi r' E') as (r0 & E0 & <-). by apply E. }
  destruct p; cbn; try done; intros; intuition.
Qed.

Lemma spent_ok_mono tr tr' x : spent_ok tr x -> spent_ok (tr ++ tr') x.
Proof.
  destruct x; try done. intros (ch & th & exp & H & L & M). exists ch, th, exp. split_and!; try done. apply elem_of_app. by left.
Qed.

Lemma was_saved_mono r tr tr' : was_saved r tr -> was_saved r (tr ++ tr').
Proof. intros H. apply elem_of_app. by left. Qed.

Lemma grows_say e w : grows w (say e w).
Proof. split_and!; [done|by exists [e]|]. intros id _ r' E. by exists r'. Qed.

Context (Hmax : 0 <= MaxAttempts pw).

(** Fewer rows, and more of the past that saves codes. *)
Lemma world_ok_less w m a tr : world_ok w -> m ⊆ codes w ->
  (forall e, times (compared_for e) tr = 0 /\ times (spent_for e) tr = 0) -> (forall x, x ∈ tr -> forall tr', spent_ok tr' x) ->
  world_ok (World m a (issued w) (trace w ++ tr)).
Proof.
  intros [I U S A T P] Sub Z N.
  assert (G : forall id r, m !! id = Some r -> codes w !! id = Some r) by (intros; by eapply lookup_weaken).
  constructor; cbn [codes issued trace].
  - intros id r E. eauto.
  - intros i j r s Ei Ej. eauto.
  - intros id r E. apply was_saved_mono. eauto.
  - intros id r E. rewrite !times_app. destruct (Z (Email r)) as [-> ->]. pose proof (times_pos (saved_for (Email r)) tr).
    destruct (A id r (G _ _ E)) as (A1 & A2 & A3). split; [done|]. nia.
  - intros e. rewrite !times_app. destruct (Z e) as [-> ->]. pose proof (times_pos (saved_for e) tr). destruct (T e). nia.
  - intros x [H|H]%elem_of_app; [by apply spent_ok_mono, P|by apply N].
Qed.

Lemma update_ok email code token now w w' n : world_ok w -> updateCode mac pw email code token now w = (w', n) -> world_ok w' /\ grows w w'.
Proof.
  intros [I U S A T P] [= <- _]. set (hit := List.filter _ _). set (ev := ESaved email (mac code) (mac token) (now + CodeTTL pw)).
  set (fresh := LoginCode email (mac code) (mac token) 0 (now + CodeTTL pw) now). set (f := fun r => if old_enough pw email now r then fresh else r).
  assert (Em : forall r, Email (f r) = Email r).
  { intros r. unfold f, old_enough. destruct (seq_eqb (Email r) email) eqn:E; cbn; [|done]. apply bool_decide_eq_true in E. by case_match. }
  assert (Lk : forall id r', (f <$> codes w) !! id = Some r' -> exists r, codes w !! id = Some r /\ r' = f r).
  { intros id r' E. rewrite lookup_fmap in E. destruct (codes w !! id) as [r|]; [|done]. injection E as <-. by exists r. }
  assert (Cs : forall e, times (compared_for e) (map (fun _ => ev) hit) = 0 /\ times (spent_for e) (map (fun _ => ev) hit) = 0)
    by (intros e; by rewrite !times_const).
  assert (Hit : forall id r, codes w !! id = Some r -> old_enough pw email now r = true ->
    1 <= times (saved_for (Email r)) (map (fun _ => ev) hit)).
  { intros id r E O. rewrite times_const. cbn. replace (seq_eqb email (Email r)) with true.
    - assert (Hin : In (id, r) hit) by (apply filter_In; split; [by apply list_elem_of_In, elem_of_map_to_list|done]).
      destruct hit; [done|cbn; lia].
    - symmetry. unfold old_enough in O. apply andb_true_iff in O as [O _]. apply bool_decide_eq_true in O. by apply bool_decide_eq_true. }
  split; [constructor; cbn [codes issued trace]|].
  - intros id r' (r & E & ->)%Lk. eauto.
  - intros i j r' s' (r & Ei & ->)%Lk (s & Ej & ->)%Lk. rewrite !Em. eauto.
  - intros id r' (r & E & ->)%Lk. unfold f. destruct (old_enough pw email now r) eqn:O; [|apply was_saved_mono; eauto].
    apply elem_of_app. right. specialize (Hit id r E O). rewrite times_const in Hit. destruct hit as [|h hit]; [destruct (saved_for _ _); cbn in Hit; lia|]. left.
  - intros id r' (r & E & ->)%Lk. rewrite Em, !times_app. destruct (Cs (Email r)) as [-> ->]. pose proof (times_pos (saved_for (Email r)) (map (fun _ => ev) hit)).
    destruct (A id r E) as (A1 & A2 & A3), (T (Email r)) as [T1 T2]. unfold f. destruct (old_enough pw email now r) eqn:O; [|split; [done|nia]].
    specialize (Hit id r E O). cbn. split; [done|nia].
  - intros e. rewrite !times_app. destruct (Cs e) as [-> ->]. pose proof (times_pos (saved_for e) (map (fun _ => ev) hit)). destruct (T e). nia.
  - intros x [H|H]%elem_of_app; [by apply spent_ok_mono, P|]. apply list_elem_of_fmap in H as (? & -> & _). done.
  - split_and!; [done|by eexists|]. intros id _ r' (r & E & ->)%Lk. exists r. by rewrite Em.
Qed.

Lemma has_email_false email m id r : has_email email m = false -> m !! id = Some r -> Email r <> email.
Proof.
  intros H E Eq. apply not_true_iff_false in H. apply H, existsb_exists. exists (id, r).
  split; [by apply list_elem_of_In, elem_of_map_to_list|]. by apply bool_decide_eq_true.
Qed.

Lemma insert_ok id email code token now w w' n : id ∉ issued w -> world_ok w -> insertCode mac pw id email code token now w = (w', n) ->
  world_ok w' /\ grows w w'.
Proof.
  intros Hid W. unfold insertCode. destruct (has_email email (codes w)) eqn:H; intros [= <- _].
  { split; [done|]. split_and!; [done|exists []; by rewrite app_nil_r|]. intros i _ r' E. by exists r'. }
  destruct W as [I U S A T P]. set (row := LoginCode _ _ _ _ _ _). set (ev := ESaved _ _ _ _).
  assert (Lk : forall i r, <[id := row]> (codes w) !! i = Some r -> (i = id /\ r = row) \/ (i <> id /\ codes w !! i = Some r)).
  { intros i r. destruct (decide (i = id)) as [->|N]; [rewrite lookup_insert_eq; intros [= <-]; by left|]. rewrite lookup_insert_ne by done. by right. }
  assert (No : forall i r, codes w !! i = Some r -> Email r <> email) by (intros; by eapply has_email_false).
  split; [constructor; cbn [codes issued trace]|].
  - intros i r [[-> ->]|[_ E]]%Lk; [set_solver|]. apply elem_of_union_r. eauto.
  - intros i j r s [[-> ->]|[Ni Ei]]%Lk [[-> ->]|[Nj Ej]]%Lk Eq; [done| | |by eapply U].
    + by destruct (No j s Ej).
    + by destruct (No i r Ei).
  - intros i r [[-> ->]|[_ E]]%Lk; [apply elem_of_app; right; left|apply was_saved_mono; eauto].
  - intros i r [[-> ->]|[_ E]]%Lk; rewrite !times_app, !times_one; cbn.
    + unfold seq_eqb. rewrite bool_decide_true by done. split; [done|]. destruct (T email). cbn. nia.
    + unfold seq_eqb. rewrite bool_decide_false by (intros Eq; by apply (No i r E)). destruct (A i r E) as (A1 & A2 & A3). split; [done|]. nia.
  - intros e. rewrite !times_app, !times_one. cbn. destruct (T e). case_match; nia.
  - intros x [Hx|Hx]%elem_of_app; [by apply spent_ok_mono, P|]. by apply list_elem_of_singleton in Hx as ->.
  - split_and!; [set_solver|by exists [ev]|]. intros i Hi r [[-> ->]|[_ E]]%Lk; [done|by exists r].
Qed.

Lemma claim_ok id r0 t w m : world_ok w -> claimAttempt pw id t (codes w) = (m, true) ->
  (forall r, codes w !! id = Some r -> Email r = Email r0) ->
  let w' := say (ECompared (Email r0)) (with_codes m w) in world_ok w' /\ grows w w'.
Proof.
  intros [I U S A T P]. unfold claimAttempt. destruct (codes w !! id) as [r|] eqn:E; [|done].
  destruct ((Attempts r <? MaxAttempts pw) && _) eqn:C; intros [= <-] Em. specialize (Em r eq_refl). cbn zeta.
  set (row := LoginCode _ _ _ _ _ _).
  assert (Lk : forall i s, <[id := row]> (codes w) !! i = Some s -> (i = id /\ s = row) \/ (i <> id /\ codes w !! i = Some s)).
  { intros i s. destruct (decide (i = id)) as [->|N]; [rewrite lookup_insert_eq; intros [= <-]; by left|]. rewrite lookup_insert_ne by done. by right. }
  destruct (A id r E) as (A1 & A2 & A3). split; [constructor; cbn [codes issued trace say with_codes]|].
  - intros i s [[-> ->]|[_ Ei]]%Lk; eauto.
  - intros i j s s' [[-> ->]|[Ni Ei]]%Lk [[-> ->]|[Nj Ej]]%Lk Eq; [done|by eapply (U _ _ r s')|by eapply (U _ _ s r)|by eapply U].
  - intros i s [[-> ->]|[_ Ei]]%Lk; apply was_saved_mono; [exact (S id r E)|eauto].
  - intros i s [[-> ->]|[Ni Ei]]%Lk; rewrite !times_app, !times_one; cbn.
    + rewrite <- Em. unfold seq_eqb. rewrite bool_decide_true by done. lia.
    + unfold seq_eqb. rewrite bool_decide_false by (intros Eq; apply Ni; eapply (U _ _ s r); [done..|congruence]).
      destruct (A i s Ei) as (B1 & B2 & B3). lia.
  - intros e. rewrite !times_app, !times_one. cbn. destruct (T e). destruct (seq_eqb (Email r0) e) eqn:Q; [|lia].
    apply bool_decide_eq_true in Q. subst e. rewrite <- Em. lia.
  - intros x [Hx|Hx]%elem_of_app; [by apply spent_ok_mono, P|]. by apply list_elem_of_singleton in Hx as ->.
  - split_and!; [done|by eexists|]. cbn. intros i _ s [[-> ->]|[_ Ei]]%Lk; [by exists r|by exists s].
Qed.

Lemma spend_ok id r0 c t w m : world_ok w -> spendCode id t (codes w) = (m, true) ->
  (forall r, codes w !! id = Some r -> Email r = Email r0) -> spent_ok (trace w) (ESpent (Email r0) c t) ->
  let w' := say (ESpent (Email r0) c t) (with_codes m w) in world_ok w' /\ grows w w'.
Proof.
  intros [I U S A T P]. unfold spendCode. destruct (codes w !! id) as [r|] eqn:E; [|done].
  destruct (t <? ExpiresAt r); intros [= <-] Em Ok. specialize (Em r eq_refl). cbn zeta.
  assert (Lk : forall i s, delete id (codes w) !! i = Some s -> i <> id /\ codes w !! i = Some s).
  { intros i s [? ?]%lookup_delete_Some. by split. }
  destruct (A id r E) as (A1 & A2 & A3). split; [constructor; cbn [codes issued trace say with_codes]|].
  - intros i s [_ Ei]%Lk; eauto.
  - intros i j s s' [_ Ei]%Lk [_ Ej]%Lk Eq. by eapply U.
  - intros i s [_ Ei]%Lk; apply was_saved_mono; eauto.
  - intros i s [Ni Ei]%Lk; rewrite !times_app, !times_one; cbn.
    unfold seq_eqb. rewrite bool_decide_false by (intros Eq; apply Ni; eapply (U _ _ s r); [done..|congruence]).
    destruct (A i s Ei) as (B1 & B2 & B3). lia.
  - intros e. rewrite !times_app, !times_one. cbn. destruct (T e). destruct (seq_eqb (Email r0) e) eqn:Q; [|lia].
    apply bool_decide_eq_true in Q. subst e. rewrite <- Em. lia.
  - intros x [Hx|Hx]%elem_of_app; [by apply spent_ok_mono, P|]. apply list_elem_of_singleton in Hx as ->. by apply spent_ok_mono.
  - split_and!; [done|by eexists|]. cbn. intros i _ s [_ Ei]%Lk. by exists s.
Qed.

Lemma grows_refl w : grows w w.
Proof. split_and!; [done|exists []; by rewrite app_nil_r|]. intros id _ r' E. by exists r'. Qed.

Lemma grows_trans w1 w2 w3 : grows w1 w2 -> grows w2 w3 -> grows w1 w3.
Proof.
  intros (I1 & (t1 & T1) & C1) (I2 & (t2 & T2) & C2). split_and!; [set_solver|exists (t1 ++ t2); by rewrite T2, T1, app_assoc|].
  intros id Hi r E. destruct (C2 id (I1 _ Hi) r E) as (s & Es & <-). by apply C1.
Qed.

Lemma mail_ok mail email code token w : world_ok w ->
  world_ok (mail_if mail email code token w).1 /\ grows w (mail_if mail email code token w).1.
Proof.
  intros W. unfold mail_if. destruct mail; cbn; [|split; [done|apply grows_refl]]. split; [|apply grows_say].
  apply (world_ok_less w (codes w) (accounts w) [EMailed email code token]); try done.
  by intros x ->%list_elem_of_singleton tr'.
Qed.

(** The saving statements, and the mail after them. *)
Lemma saved_ok mail email code token w w1 n p w' p' : world_ok w1 /\ grows w w1 -> (forall m, p = Done m -> True) ->
  (if (0 <? n)%nat then mail_if mail email code token w1 else (w1, p)) = (w', p') -> phase_ok w1 p ->
  world_ok w' /\ grows w w' /\ phase_ok w' p'.
Proof.
  intros [W G] _ E Hp. destruct (mail_ok mail email code token w1 W) as [W2 G2]. destruct (0 <? n)%nat.
  - destruct (mail_if mail email code token w1) as [w2 p2] eqn:M. injection E as <- <-. split; [done|]. split; [by eapply grows_trans|].
    unfold mail_if in M. by injection M as _ <-.
  - by injection E as <- <-.
Qed.

Lemma take_row_found c now w id row : world_ok w -> take_row mac c (codes w) = Some (id, row) -> now < ExpiresAt row -> found w c id row now.
Proof.
  intros W E L. unfold take_row in E. apply head_Some_elem_of in E. apply list_elem_of_In, filter_In in E as [E R].
  apply list_elem_of_In, elem_of_map_to_list in E. split_and!; try done.
  - by eapply wo_saved.
  - by eapply wo_issued.
  - intros r' E'. rewrite E in E'. by injection E' as <-.
Qed.

Lemma found_spent w c id r t : found w c id r t -> matches mac c r = true -> spent_ok (trace w) (ESpent (Email r) c t).
Proof.
  intros (S & R & L & _) M. exists (CodeHash r), (TokenHash r), (ExpiresAt r). split_and!; [done|done|].
  destruct c; cbn in R, M; try apply bool_decide_eq_true in R; try apply bool_decide_eq_true in M; subst; auto.
Qed.

Lemma advance_ok fails now id p w w' p' : id ∉ issued w -> world_ok w -> phase_ok w p ->
  advance mac pw fails now id p w = (w', p') -> world_ok w' /\ grows w w' /\ phase_ok w' p'.
Proof.
  intros Hid W Hp. assert (Stay : forall q, (w, q) = (w', p') -> phase_ok w q -> world_ok w' /\ grows w w' /\ phase_ok w' p').
  { intros q [= <- <-] Hq. split; [done|]. split; [apply grows_refl|done]. }
  unfold advance, start_user, save_update, save_insert, lookup_row, claim_compare, account_check, spend_row. destruct fails; [intros E; apply (Stay _ E); by destruct p|]. destruct p as [email code token mail|email code token t mail|email code token t mail|c|c i row t|c i row t lft|c i row t|o].
  - intros E. by apply (Stay _ E).
  - destruct (updateCode mac pw email code token t w) as [w1 n] eqn:U. intros E.
    apply (saved_ok mail email code token w w1 n (StartInsert email code token t mail) w' p'); [by eapply update_ok|done|exact E|done].
  - destruct (insertCode mac pw id email code token t w) as [w1 n] eqn:U. intros E.
    apply (saved_ok mail email code token w w1 n (Done (Sent false)) w' p'); [by eapply insert_ok|done|exact E|done].
  - destruct (take_row mac c (codes w)) as [[i row]|] eqn:E; [|intros E'; by apply (Stay _ E')].
    destruct (Z.ltb_spec now (ExpiresAt row)) as [L|L]; cbn [negb orb]; [|intros E'; by apply (Stay _ E')].
    case_match; [intros E'; by apply (Stay _ E')|]. pose proof (take_row_found c now w i row W E L) as Fd.
    destruct c; intros E'; apply (Stay _ E'); [exact Fd|split; [exact Fd|done]|exact Fd].
  - destruct (claimAttempt pw i t (codes w)) as [m claimed] eqn:C. destruct claimed; cbn [negb]; [|intros E; by apply (Stay _ E)].
    destruct (claim_ok i row t w m W C (proj2 (proj2 (proj2 (proj2 Hp))))) as [W1 G1]. pose proof (grows_phase _ _ (Claim c i row t) G1 Hp) as F1.
    destruct (matches mac c row) eqn:M; cbn [negb]; intros [= <- <-]; (split; [exact W1|]; split; [exact G1|]); [|done].
    destruct c; by split.
  - destruct (accounts w !! Email row : option bool) as [[]|]; [..|destruct (autoRegister pw)]; intros E; by apply (Stay _ E).
  - destruct (spendCode i t (codes w)) as [m spent] eqn:C. destruct spent; [|intros E; by apply (Stay _ E)]. destruct Hp as [Fd M].
    intros [= <- <-]. destruct (spend_ok i row c t w m W C (proj2 (proj2 (proj2 (proj2 Fd)))) (found_spent _ _ _ _ _ Fd M)) as [W1 G1]. by split_and!.
  - intros E. by apply (Stay _ E).
Qed.

Lemma codes_step_ok s s' : codes_step mac pw s s' -> sys_ok s -> sys_ok s'.
Proof.
  intros St [W Ps]. destruct St as [w ps p Hi|w ps1 p ps2 fails now id w' p' Hid E|w ps now|w ps a]; cbn [fst snd] in *.
  - split; [done|]. constructor; [|done]. by destruct p.
  - apply Forall_app in Ps as [P1 P2]. apply Forall_cons in P2 as [Pp P2].
    destruct (advance_ok fails now id p w w' p' Hid W Pp E) as (W' & G & Pp'). split; [done|].
    apply Forall_app. split; [|constructor; [done|]]; by (eapply Forall_impl; [|intros q Hq; by eapply grows_phase]).
  - assert (Sub : sweepLoginCodes now (codes w) ⊆ codes w) by apply map_filter_subseteq.
    pose proof (world_ok_less w _ (accounts w) [] W Sub) as W'. rewrite app_nil_r in W'. split.
    + apply W'; [done|by intros x ?%elem_of_nil].
    + cbn. eapply Forall_impl; [exact Ps|]. intros q. apply grows_phase. split_and!; [done|exists []; by rewrite app_nil_r|].
      intros id _ r E. exists r. split; [|done]. by eapply lookup_weaken.
  - split.
    + pose proof (world_ok_less w (codes w) a [] W) as W'. rewrite app_nil_r in W'. apply W'; [done|done|by intros x ?%elem_of_nil].
    + cbn. eapply Forall_impl; [exact Ps|]. intros q. apply grows_phase. split_and!; [done|exists []; by rewrite app_nil_r|].
      intros id _ r E. by exists r.
Qed.

Definition start : world * list phase := (World ∅ ∅ ∅ [], []).

Lemma start_ok : sys_ok start.
Proof.
  split; [|constructor]. constructor; cbn; try (intros *; rewrite lookup_empty; done); try (intros *; rewrite ?lookup_empty; done).
  - intros e. unfold times. cbn. lia.
  - by intros x ?%elem_of_nil.
Qed.

Lemma reached_ok s : rtc (codes_step mac pw) start s -> sys_ok s.
Proof. pose proof start_ok as O. intros R. induction R as [|s1 s2 s3 H R IH]; [done|]. by eapply IH, codes_step_ok. Qed.
End spec.

(** [C25] Guesses are bounded.  Whatever requests run beside each other, to
    start, to verify by code or to confirm, whichever statements fail: the
    codes compared for an address, or a user's confirmation, number at most
    [max_attempts] for each code saved for it. *)
Theorem codes_guesses mac pw w ps e : 0 <= MaxAttempts pw -> rtc (codes_step mac pw) start (w, ps) ->
  times (compared_for e) (trace w) <= MaxAttempts pw * times (saved_for e) (trace w)
  /\ (forall id r, codes w !! id = Some r -> Email r = e ->
        times (compared_for e) (trace w) <= MaxAttempts pw * times (saved_for e) (trace w) - (MaxAttempts pw - Attempts r)).
Proof.
  intros Hm R. destruct (reached_ok mac pw Hm _ R) as [W _]. split; [exact (proj1 (wo_total _ _ _ W e))|].
  intros id r E <-. destruct (wo_attempts _ _ _ W id r E) as (_ & A & _). cbn [fst] in A. lia.
Qed.

(** [C12] A mailed code signs in once, and only who was mailed it.  Under any
    interleaving: every proof of an address rests on a code or token saved
    for that very address and not expired when it was looked up, the right
    one; and an address is proven no more often than codes were saved for
    it. *)
Theorem codes_once mac pw w ps : 0 <= MaxAttempts pw -> rtc (codes_step mac pw) start (w, ps) ->
  (forall e c t, ESpent e c t ∈ trace w -> exists ch th exp, ESaved e ch th exp ∈ trace w /\ t < exp
      /\ match c with
         | ByCode email code => e = email /\ ch = mac code
         | ByToken token => th = mac token
         | ByConfirm rid email code => e = rid /\ ch = mac (confirmSecret email code)
         end)
  /\ (forall e, times (spent_for e) (trace w) <= times (saved_for e) (trace w)).
Proof.
  intros Hm R. destruct (reached_ok mac pw Hm _ R) as [W _]. split.
  - intros e c t H. exact (wo_spent _ _ _ W _ H).
  - intros e. exact (proj2 (wo_total _ _ _ W e)).
Qed.

(** A code is mailed; one wrong guess and the right one race, and a second
    request with the right code comes too late. *)
Definition demo_mac (s : gostring) : gostring := str "mac:" ++ s.
Definition demo_pw : PasswordlessConfig := MkConfig 600 5 60 None.
Definition demo_ann : gostring := str "ann@example.com".

Fixpoint demo_run (sched : list (nat * Z)) (s : world * list phase) : world * list phase :=
  match sched with
  | [] => s
  | (k, now) :: sched' =>
      match s.2 !! k with
      | Some p => let '(w, p') := advance demo_mac demo_pw false now (str "lgc" ++ format_uint now) p s.1 in
                  demo_run sched' (w, take k s.2 ++ p' :: drop (S k) s.2)
      | None => s
      end
  end.

Definition demo_phases : list phase :=
  [StartUser demo_ann (str "123456") (str "token") false; Lookup (ByCode demo_ann (str "000000"));
   Lookup (ByCode demo_ann (str "123456")); Lookup (ByToken (str "token"))].

Definition demo_sched : list (nat * Z) :=
  map (fun p => (p.1, Z.of_nat p.2)) [(0, 0); (0, 1); (0, 2); (1, 10); (2, 11); (3, 12); (1, 13); (2, 14); (2, 15); (2, 16); (3, 17); (3, 18)]%nat.

Definition demo_end : world * list phase := demo_run demo_sched (World ∅ ∅ ∅ [], demo_phases).

Fixpoint fresh_run (sched : list (nat * Z)) (s : world * list phase) : bool :=
  match sched with
  | [] => true
  | (k, now) :: sched' => bool_decide (str "lgc" ++ format_uint now ∉ issued s.1) && bool_decide (is_Some (s.2 !! k))
                          && fresh_run sched' (demo_run [(k, now)] s)
  end.

Lemma demo_run_steps sched s : fresh_run sched s = true -> rtc (codes_step demo_mac demo_pw) s (demo_run sched s).
Proof.
  revert s. induction sched as [|[k now] sched IH]; intros [w ps] H; [apply rtc_refl|]. cbn [fresh_run] in H.
  apply andb_true_iff in H as [[H1 H2]%andb_true_iff H3]. apply bool_decide_eq_true in H1, H2. destruct H2 as [p Ep]. cbn [fst snd] in *.
  specialize (IH _ H3). cbn [demo_run fst snd] in *. rewrite Ep in *.
  destruct (advance demo_mac demo_pw false now (str "lgc" ++ format_uint now) p w) as [w' p'] eqn:A.
  eapply rtc_l; [|exact IH]. rewrite <- (take_drop_middle ps k p Ep) at 1. by eapply cs_advance.
Qed.

Lemma demo_reached : rtc (codes_step demo_mac demo_pw) start demo_end.
Proof.
  etransitivity; [|apply demo_run_steps; vm_compute; reflexivity]. unfold start, demo_phases.
  eapply rtc_l; [by apply cs_come with (p := Lookup (ByToken (str "token")))|].
  eapply rtc_l; [by apply cs_come with (p := Lookup (ByCode demo_ann (str "123456")))|].
  eapply rtc_l; [by apply cs_come with (p := Lookup (ByCode demo_ann (str "000000")))|].
  eapply rtc_l; [by apply cs_come with (p := StartUser demo_ann (str "123456") (str "token") false)|]. apply rtc_refl.
Qed.

Lemma codes_guesses_witness :
  times (compared_for demo_ann) (trace demo_end.1) = 2
  /\ times (compared_for demo_ann) (trace demo_end.1) <= 5 * times (saved_for demo_ann) (trace demo_end.1).
Proof.
  split; [vm_compute; reflexivity|].
  apply (codes_guesses demo_mac demo_pw demo_end.1 demo_end.2 demo_ann); [vm_compute; congruence|].
  rewrite <- surjective_pairing. apply demo_reached.
Defined.

Lemma codes_once_witness :
  demo_end.2 = [Done (Sent true); Done (InvalidCode 4); Done (Spent demo_ann); Done CodeExpired]
  /\ times (spent_for demo_ann) (trace demo_end.1) <= times (saved_for demo_ann) (trace demo_end.1).
Proof.
  split; [vm_compute; reflexivity|].
  apply (codes_once demo_mac demo_pw demo_end.1 demo_end.2); [vm_compute; congruence|].
  rewrite <- surjective_pairing. apply demo_reached.
Defined.
