(* ===== verification/OauthSession.v ===== *)
(** identity/oauth_session.go: the signed cookie that carries a sign-in's
    session id, and the store of sessions and codes, an LRU map whose entries
    expire.  The store refines a map that forgets nothing, except what the
    least recently used pays for the capacity. *)

From Stdlib Require Import ZArith Lia List Ascii.
From stdpp Require Import base decidable list gmap strings.
From S2P Require Import Prelude GoStrings.

(** ** The cookie *)

Section cookie.
(** [mac] is the base64url text of the HMAC-SHA256 of a session id. *)
Context (mac : gostring -> gostring).

Definition dot : ascii := "."%char.

(** strings.LastIndex(s, "."), as the parts before and after it. *)
Fixpoint cut_last (s : gostring) : option (gostring * gostring) :=
  match s with
  | [] => None
  | c :: s' =>
      match cut_last s' with
      | Some (a, b) => Some (c :: a, b)
      | None => if beq c dot then Some ([], s') else None
      end
  end.

Definition sign (sid : gostring) : gostring := sid ++ [dot] ++ mac sid.

Inductive cookie_error := EMissing | EMalformed | EForged.

(** [cookieCarrier.read], of the cookie's value. *)
Definition read (cookie : option gostring) : result cookie_error gostring :=
  match cookie with
  | None => Err EMissing
  | Some v =>
      match cut_last v with
      | None => Err EMalformed
      | Some (sid, m) =>
          if seq_eqb sid [] || seq_eqb m [] then Err EMalformed
          else match cut_last (sign sid) with
               | Some (_, want) => if seq_eqb m want then Ok sid else Err EForged
               | None => Err EForged
               end
      end
  end.

Lemma cut_last_none s : dot ∉ s -> cut_last s = None.
Proof.
  induction s as [|c s IH]; intros H; [done|]. cbn. rewrite IH by set_solver. unfold beq. by rewrite bool_decide_false by set_solver.
Qed.

Lemma cut_last_app a b : dot ∉ b -> cut_last (a ++ [dot] ++ b) = Some (a, b).
Proof.
  intros H. induction a as [|c a IH]; cbn.
  - rewrite cut_last_none by done. unfold beq. by rewrite bool_decide_true.
  - cbn in IH. by rewrite IH.
Qed.

Lemma cut_last_some s a b : cut_last s = Some (a, b) -> s = a ++ [dot] ++ b.
Proof.
  revert a b. induction s as [|c s IH]; intros a b; [done|]. cbn. destruct (cut_last s) as [[x y]|].
  - intros [= <- <-]. cbn. f_equal. by apply IH.
  - unfold beq. case_bool_decide; [|done]. intros [= <- <-]. by subst.
Qed.

(** A cookie is accepted exactly when it is one the server signed: read
    answers a session id if and only if the value is that id's signed form,
    and the id is not empty.  No other value is taken, whatever the id. *)
Theorem read_sign (Hdot : forall s, dot ∉ mac s) (Hne : forall s, mac s <> []) (v sid : gostring) :
  read (Some v) = Ok sid <-> v = sign sid /\ sid <> [].
Proof.
  assert (C : forall s, cut_last (sign s) = Some (s, mac s)) by (intros s; by apply cut_last_app). split.
  - unfold read. destruct (cut_last v) as [[a m]|] eqn:E; [|done]. apply cut_last_some in E as ->. rewrite C.
    unfold seq_eqb. case_bool_decide; [done|]. case_bool_decide; [done|]. cbn. case_bool_decide; [|done]. intros [= <-]. by subst.
  - intros [-> N]. unfold read. rewrite C. unfold seq_eqb. rewrite (bool_decide_false (sid = [])) by done.
    rewrite (bool_decide_false (mac sid = [])) by done. cbn. rewrite C. by rewrite bool_decide_true.
Qed.
End cookie.

Lemma read_sign_witness :
  let mac s := str "m" ++ format_uint (Z.of_nat (length s)) in
  read mac (Some (str "abc.m3")) = Ok (str "abc") /\ read mac (Some (str "abcd.m3")) = Err EForged
  /\ (str "abc.m3" = sign mac (str "abc") /\ str "abc" <> []).
Proof.
  split; [vm_compute; reflexivity|]. split; [vm_compute; reflexivity|].
  apply (read_sign (fun s => str "m" ++ format_uint (Z.of_nat (length s)))); [|done|vm_compute; reflexivity].
  intros s H. cbn in H. apply elem_of_cons in H as [H|H]; [done|].
  pose proof (format_uint_digits (Z.of_nat (length s)) ltac:(lia)) as D. rewrite Forall_forall in D. apply D in H.
  destruct H as (d & Hd & _). vm_compute in Hd. done.
Defined.

(** ** The store *)

Section store.
Context {V : Type}.

Record memoryEntry := MemoryEntry { value : V; expiresAt : Z }.

(** [order] is the list's keys, the most recently used first. *)
Record memoryStore := MemoryStore { entries : gmap gostring memoryEntry; order : list gostring; capacity : nat }.

Definition newMemoryStore (capacity : Z) : memoryStore := MemoryStore ∅ [] (Z.to_nat (Z.max capacity 1)).

Definition remove_key (k : gostring) (s : memoryStore) : memoryStore :=
  MemoryStore (delete k (entries s)) (List.filter (fun k' => negb (seq_eqb k' k)) (order s)) (capacity s).

(** Room for one more: the least recently used goes. *)
Definition evict (s : memoryStore) : memoryStore :=
  if (capacity s <=? size (entries s))%nat
  then match last (order s) with Some oldest => remove_key oldest s | None => s end
  else s.

Definition put (now : Z) (k : gostring) (v : V) (ttl : Z) (s : memoryStore) : memoryStore :=
  let e := MemoryEntry v (now + ttl) in
  match entries s !! k with
  | Some _ => MemoryStore (<[k := e]> (entries s)) (k :: List.filter (fun k' => negb (seq_eqb k' k)) (order s)) (capacity s)
  | None =>
      let s := evict s in
      MemoryStore (<[k := e]> (entries s)) (k :: order s) (capacity s)
  end.

Definition take_ (now : Z) (k : gostring) (s : memoryStore) : memoryStore * option V :=
  match entries s !! k with
  | None => (s, None)
  | Some e => (remove_key k s, if expiresAt e <? now then None else Some (value e))
  end.

(** [sweep], from the back: the expired entries go. *)
Definition sweep (now : Z) (s : memoryStore) : memoryStore :=
  fold_right (fun k s => match entries s !! k with
                         | Some e => if expiresAt e <? now then remove_key k s else s
                         | None => s
                         end) s (order s).

(** ** Histories *)

Inductive store_op :=
| OPut (now : Z) (k : gostring) (v : V) (ttl : Z)
| OTake (now : Z) (k : gostring)
| OSweep (now : Z).

Definition do_op (o : store_op) (s : memoryStore) : memoryStore * option V :=
  match o with
  | OPut now k v ttl => (put now k v ttl s, None)
  | OTake now k => take_ now k s
  | OSweep now => (sweep now s, None)
  end.

Definition run_store (os : list store_op) (s : memoryStore) : memoryStore := fold_left (fun s o => (do_op o s).1) os s.

(** The keys and the list agree. *)
Record store_ok (s : memoryStore) : Prop := {
  so_keys : forall k, k ∈ order s <-> is_Some (entries s !! k);
  so_nodup : NoDup (order s);
  so_size : (size (entries s) <= capacity s)%nat;
  so_capacity : (0 < capacity s)%nat;
}.

Lemma elem_drop k k' l : k' ∈ List.filter (fun x => negb (seq_eqb x k)) l <-> k' ∈ l /\ k' <> k.
Proof.
  rewrite !list_elem_of_In, filter_In. unfold seq_eqb. rewrite negb_true_iff, bool_decide_eq_false. done.
Qed.

Lemma nodup_drop k (l : list gostring) : NoDup l -> NoDup (List.filter (fun x => negb (seq_eqb x k)) l).
Proof. rewrite !NoDup_ListNoDup. apply List.NoDup_filter. Qed.

Lemma order_size s : store_ok s -> length (order s) = size (entries s).
Proof.
  intros [K N _ _]. assert (E : list_to_set (order s) = dom (entries s)).
  { apply set_eq. intros k. rewrite elem_of_list_to_set, elem_of_dom. apply K. }
  rewrite <- size_dom, <- E. symmetry. by apply size_list_to_set.
Qed.

Lemma remove_ok k s : store_ok s -> store_ok (remove_key k s).
Proof.
  intros [K N Z C]. constructor; cbn.
  - intros k'. rewrite elem_drop, K. destruct (decide (k = k')) as [->|D]; [rewrite lookup_delete_eq|rewrite lookup_delete_ne by done].
    + split; [by intros [_ ?]|by intros []].
    + naive_solver.
  - by apply nodup_drop.
  - etransitivity; [apply map_subseteq_size, delete_subseteq|done].
  - done.
Qed.

Lemma put_ok now k v ttl s : store_ok s -> store_ok (put now k v ttl s).
Proof.
  intros S. unfold put. destruct (entries s !! k) as [e0|] eqn:E.
  - destruct S as [K N Z C]. constructor; cbn; [| |by rewrite map_size_insert_Some by (by rewrite E)|done].
    + intros k'. rewrite elem_of_cons, elem_drop, K. destruct (decide (k = k')) as [->|D]; [rewrite lookup_insert_eq|rewrite lookup_insert_ne by done]; naive_solver.
    + constructor; [|by apply nodup_drop]. rewrite elem_drop. naive_solver.
  - assert (X : store_ok (evict s) /\ entries (evict s) !! k = None /\ (size (entries (evict s)) < capacity (evict s))%nat).
    { unfold evict. destruct (Nat.leb_spec (capacity s) (size (entries s))) as [L|L]; [|done].
      pose proof (order_size s S) as O. pose proof (so_capacity s S). destruct (last (order s)) as [old|] eqn:La.
      2:{ apply last_None in La. rewrite La in O. cbn in O. lia. }
      split; [by apply remove_ok|]. cbn. split; [by apply lookup_delete_None; right|].
      assert (Ho : is_Some (entries s !! old)) by (apply S, (last_Some_elem_of _ _ La)).
      rewrite map_size_delete_Some by done. pose proof (so_size s S). lia. }
    destruct X as ([K N Z C] & E' & L). constructor; cbn; [| |rewrite map_size_insert_None by done; lia|done].
    + intros k'. rewrite elem_of_cons, K. destruct (decide (k = k')) as [->|D]; [rewrite lookup_insert_eq|rewrite lookup_insert_ne by done]; naive_solver.
    + constructor; [|done]. rewrite K, E'. by intros [].
Qed.

(** Removing entries one by one. *)
Inductive shrinks (P : gostring -> memoryEntry -> Prop) (s : memoryStore) : memoryStore -> Prop :=
| shrinks_refl : shrinks P s s
| shrinks_remove s' k : shrinks P s s' -> (forall e, entries s' !! k = Some e -> P k e) -> shrinks P s (remove_key k s').

Lemma sweep_shrinks now s : shrinks (fun _ e => expiresAt e < now) s (sweep now s).
Proof.
  unfold sweep. induction (order s) as [|k l IH]; cbn; [constructor|]. set (s' := fold_right _ s l) in *.
  destruct (entries s' !! k) as [e|] eqn:E; [|done]. destruct (Z.ltb_spec (expiresAt e) now); [|done].
  constructor; [done|]. intros e' E'. rewrite E in E'. by injection E' as <-.
Qed.

Lemma shrinks_ok P s s' : shrinks P s s' -> store_ok s -> store_ok s'.
Proof. induction 1; [done|]. intros S. by apply remove_ok, IHshrinks. Qed.

Lemma shrinks_sub P s s' : shrinks P s s' -> entries s' ⊆ entries s.
Proof. induction 1 as [|s' k _ IH _]; [done|]. cbn. etransitivity; [apply delete_subseteq|done]. Qed.

Lemma evict_sub s : entries (evict s) ⊆ entries s.
Proof. unfold evict. case_match; [|done]. case_match; [|done]. cbn. apply delete_subseteq. Qed.

(** ** Safety: at most once, and only the last value put *)

Fixpoint answers (os : list store_op) (s : memoryStore) : list (option V) :=
  match os with
  | [] => []
  | o :: os' => let '(s', r) := do_op o s in r :: answers os' s'
  end.

(** A map that only taking removes from. *)
Fixpoint ideal (os : list store_op) (m : gmap gostring memoryEntry) : list (option V) :=
  match os with
  | [] => []
  | OPut now k v ttl :: os' => None :: ideal os' (<[k := MemoryEntry v (now + ttl)]> m)
  | OTake now k :: os' =>
      match m !! k with
      | Some e => (if expiresAt e <? now then None else Some (value e)) :: ideal os' (delete k m)
      | None => None :: ideal os' m
      end
  | OSweep _ :: os' => None :: ideal os' m
  end.

Lemma answers_ideal os s m : entries s ⊆ m -> Forall2 (fun r i => r = None \/ r = i) (answers os s) (ideal os m).
Proof.
  revert s m. induction os as [|[now k v ttl|now k|now] os IH]; intros s m Sub; cbn; [constructor|..].
  - constructor; [by left|]. apply IH. unfold put. destruct (entries s !! k); cbn; apply insert_mono; [done|].
    etransitivity; [apply evict_sub|done].
  - unfold take_. destruct (entries s !! k) as [e|] eqn:E.
    + rewrite (lookup_weaken _ _ _ _ E Sub). constructor; [by right|]. apply IH. cbn. by apply delete_mono.
    + destruct (m !! k) as [e|]; constructor; try by left.
      * apply IH. apply map_subseteq_spec. intros k' e' E'. rewrite lookup_delete_ne; [by eapply lookup_weaken|]. intros ->. congruence.
      * by apply IH.
  - constructor; [by left|]. apply IH. etransitivity; [by eapply shrinks_sub, sweep_shrinks|done].
Qed.

(** ** Keeping: what is not outlasted is there *)

Definition put_key (o : store_op) : list gostring := match o with OPut _ k _ _ => [k] | _ => [] end.

(** [k] is there, and what was used since is among [us]. *)
Definition kept (k : gostring) (e : memoryEntry) (us : gset gostring) (s : memoryStore) : Prop :=
  store_ok s /\ entries s !! k = Some e /\ exists front back, order s = front ++ k :: back /\ (forall x, x ∈ front -> x ∈ us).

Lemma kept_remove k e us s k' : k' <> k -> kept k e us s -> kept k e us (remove_key k' s).
Proof.
  intros N (S & E & front & back & O & U). split; [by apply remove_ok|]. split; [cbn; by rewrite lookup_delete_ne|].
  exists (List.filter (fun x => negb (seq_eqb x k')) front), (List.filter (fun x => negb (seq_eqb x k')) back). split.
  - cbn. rewrite O, List.filter_app. cbn. unfold seq_eqb at 2. by rewrite bool_decide_false by done.
  - intros x [Hx _]%elem_drop. by apply U.
Qed.

Lemma kept_shrinks P k e us s s' : shrinks P s s' -> ~ P k e -> kept k e us s -> kept k e us s'.
Proof.
  intros H N K. induction H as [|s' k' _ IH Hp]; [done|]. apply kept_remove; [|done]. intros ->. apply N, Hp. apply IH.
Qed.

Lemma kept_evict k e us s k' : entries s !! k' = None -> (size ({[k']} ∪ us) < capacity s)%nat -> kept k e us s -> kept k e us (evict s).
Proof.
  intros E' Z K. unfold evict. destruct (Nat.leb_spec (capacity s) (size (entries s))) as [L|L]; [|done].
  destruct (last (order s)) as [old|] eqn:La; [|done]. apply kept_remove; [|done]. intros ->.
  destruct K as (S & E & front & back & O & U). pose proof (order_size s S) as Os. rewrite O in La, Os. pose proof (so_nodup s S) as N. rewrite O in N.
  apply NoDup_app in N as (N1 & N2 & N3). apply NoDup_cons in N3 as [N3 _].
  destruct back as [|b back].
  - assert (Hs : list_to_set front ⊆ us) by (intros x; rewrite elem_of_list_to_set; apply U).
    assert (Hk : k' ∉ front).
    { intros H. assert (X : k' ∈ order s) by (rewrite O; apply elem_of_app; by left). apply S in X. rewrite E' in X. by destruct X. }
    assert (Hc : (Datatypes.S (length front) <= size ({[k']} ∪ us))%nat).
    { transitivity (size ({[k']} ∪ list_to_set front : gset gostring)); [|apply subseteq_size; set_solver].
      rewrite size_union by (rewrite disjoint_singleton_l, elem_of_list_to_set; done). rewrite size_singleton, size_list_to_set by done. lia. }
    rewrite length_app in Os. cbn in Os. lia.
  - rewrite last_app_cons, last_cons in La. destruct (last (b :: back)) as [x|] eqn:Lb; [|by apply last_None in Lb].
    injection La as ->. apply N3. by apply last_Some_elem_of.
Qed.

Lemma kept_op k e us s o : kept k e us s ->
  match o with OPut _ k' _ _ => k' <> k /\ (size ({[k']} ∪ us) < capacity s)%nat | OTake _ k' => k' <> k | OSweep now => now <= expiresAt e end ->
  kept k e (us ∪ list_to_set (put_key o)) (do_op o s).1.
Proof.
  intros K Ho. assert (More : forall us' s, us ⊆ us' -> kept k e us s -> kept k e us' s).
  { intros us' s0 Sub (A & B & f & b & C & D). split; [done|]. split; [done|]. exists f, b. split; [done|]. intros x Hx. by apply Sub, D. }
  destruct o as [now k' v ttl|now k'|now]; cbn [do_op fst put_key].
  - destruct Ho as [N Z]. unfold put. destruct (entries s !! k') as [e'|] eqn:E'.
    + pose proof (put_ok now k' v ttl s (proj1 K)) as P. unfold put in P. rewrite E' in P. split; [done|].
      destruct (kept_remove k e us s k' N K) as (_ & E & front & back & O & U). cbn in E, O. split.
      * cbn. rewrite lookup_insert_ne by done. by rewrite lookup_delete_ne in E.
      * exists (k' :: front), back. cbn. rewrite O. split; [done|]. intros x [->|Hx]%elem_of_cons; [set_solver|]. apply elem_of_union_l. by apply U.
    + pose proof (put_ok now k' v ttl s (proj1 K)) as P. unfold put in P. rewrite E' in P. split; [done|].
      destruct (kept_evict k e us s k' E' Z K) as (_ & E & front & back & O & U). split.
      * cbn. by rewrite lookup_insert_ne.
      * exists (k' :: front), back. cbn. rewrite O. split; [done|]. intros x [->|Hx]%elem_of_cons; [set_solver|]. apply elem_of_union_l. by apply U.
  - apply More; [set_solver|]. unfold take_. destruct (entries s !! k'); [|done]. by apply kept_remove.
  - apply More; [set_solver|]. apply (kept_shrinks _ _ _ _ _ _ (sweep_shrinks now s)); [lia|done].
Qed.

Lemma capacity_op o s : capacity (do_op o s).1 = capacity s.
Proof.
  destruct o as [now k v ttl|now k|now]; cbn.
  - unfold put. destruct (entries s !! k); cbn; [done|]. unfold evict. case_match; [|done]. by case_match.
  - unfold take_. by destruct (entries s !! k).
  - pose proof (sweep_shrinks now s) as H. by induction H.
Qed.

Lemma kept_run k e os us s : kept k e us s ->
  Forall (fun o => match o with OPut _ k' _ _ | OTake _ k' => k' <> k | OSweep now => now <= expiresAt e end) os ->
  (size (us ∪ list_to_set (concat (map put_key os))) < capacity s)%nat ->
  kept k e (us ∪ list_to_set (concat (map put_key os))) (run_store os s).
Proof.
  unfold run_store. revert us s. induction os as [|o os IH]; intros us s K Fo Z; cbn.
  - cbn in Z. by rewrite union_empty_r_L in *.
  - apply Forall_cons in Fo as [Ho Fo]. cbn in Z. rewrite list_to_set_app_L, union_assoc_L in *. apply IH; [|done|by rewrite capacity_op].
    apply kept_op; [done|]. destruct o as [now k' v ttl|now k'|now]; [|done..]. split; [done|].
    eapply Nat.le_lt_trans; [|exact Z]. apply subseteq_size. cbn. set_solver.
Qed.
End store.

(** ** Sessions and codes *)

Record oauthSession := MkSession {
  State : gostring; Nonce : gostring; CodeVerifier : gostring; RedirectBack : gostring; Provider : gostring;
  LinkUserID : gostring; CreatedAt : Z;
}.

Record authCode := MkCode { UserID : gostring; c_RedirectBack : gostring; BindingHash : gostring; c_CreatedAt : Z }.

Inductive flow_value := VSession (s : oauthSession) | VCode (c : authCode).

Definition oauthSessionTTL : Z := 5 * 60 * 1000000000.
Definition authCodeTTL : Z := 5 * 1000000000.

Notation flow_store := (@memoryStore flow_value).

Inductive flow_error := ESessionNotFound | ECodeNotFound.

Definition session_key (sid : gostring) : gostring := str "session:" ++ sid.
Definition code_key (code : gostring) : gostring := str "code:" ++ code.

Definition saveSession (now : Z) (sid : gostring) (x : oauthSession) (ttl : Z) (s : flow_store) : flow_store :=
  put now (session_key sid) (VSession x) ttl s.

Definition takeSession (now : Z) (sid : gostring) (s : flow_store) : flow_store * result flow_error oauthSession :=
  let '(s, r) := take_ now (session_key sid) s in
  (s, match r with Some (VSession x) => Ok x | _ => Err ESessionNotFound end).

Definition saveCode (now : Z) (code : gostring) (x : authCode) (ttl : Z) (s : flow_store) : flow_store :=
  put now (code_key code) (VCode x) ttl s.

Definition takeCode (now : Z) (code : gostring) (s : flow_store) : flow_store * result flow_error authCode :=
  let '(s, r) := take_ now (code_key code) s in
  (s, match r with Some (VCode x) => Ok x | _ => Err ECodeNotFound end).

(** The store of sign-ins hands nothing out twice.  Over any history of
    saves, takes and sweeps, every take answers what a map that forgets only
    what is taken would, or nothing: the value last saved under that very
    key, not taken since and not expired. *)
Theorem store_refines (cap : Z) (os : list (@store_op flow_value)) :
  Forall2 (fun r i => r = None \/ r = i) (answers os (newMemoryStore cap)) (ideal os ∅).
Proof. by apply answers_ideal. Qed.

(** A flood does not push out a sign-in it does not outlast.  A session
    saved is there for its callback, and once only, as long as it has not
    expired, its key is left alone and the keys put in the meantime are fewer
    than the capacity, whatever else is put, taken and swept. *)
Theorem session_survives (s : flow_store) (os : list (@store_op flow_value)) now sid x ttl t t' :
  store_ok s -> t <= now + ttl ->
  Forall (fun o => match o with OPut _ k _ _ | OTake _ k => k <> session_key sid | OSweep u => u <= now + ttl end) os ->
  (size (list_to_set (concat (map put_key os)) : gset gostring) < capacity s)%nat ->
  let p := takeSession t sid (run_store os (saveSession now sid x ttl s)) in
  p.2 = Ok x /\ (takeSession t' sid p.1).2 = Err ESessionNotFound.
Proof.
  intros S Ht Fo Z. set (e := MemoryEntry (VSession x) (now + ttl)).
  assert (K : kept (session_key sid) e ∅ (saveSession now sid x ttl s)).
  { split; [by apply put_ok|]. unfold saveSession, put. destruct (entries s !! session_key sid); cbn;
      (split; [apply lookup_insert_eq|]); exists []; eexists; (split; [done|]); by intros y ?%elem_of_nil. }
  assert (C : capacity (saveSession now sid x ttl s) = capacity s) by apply (capacity_op (OPut now (session_key sid) (VSession x) ttl) s).
  destruct (kept_run _ e os ∅ _ K) as (_ & E & _).
  - eapply Forall_impl; [exact Fo|]. by intros [] Ho.
  - by rewrite union_empty_l_L, C.
  - unfold takeSession, take_. rewrite E. cbn. rewrite (proj2 (Z.ltb_ge _ _)) by done. split; [done|]. by rewrite lookup_delete_eq.
Qed.

Definition demo_session (n : Z) : oauthSession := MkSession (format_uint n) [] [] [] (str "github") [] n.

Lemma session_survives_witness :
  let s := saveSession 0 (str "old") (demo_session 0) 10 (newMemoryStore 3) in
  let flood := [OPut 2 (session_key (str "a")) (VSession (demo_session 2)) 10; OSweep 3;
                OPut 3 (code_key (str "b")) (VCode (MkCode [] [] [] 3)) 10; OTake 4 (session_key (str "old"))] in
  (takeSession 9 (str "me") (run_store flood (saveSession 1 (str "me") (demo_session 1) 10 s))).2 = Ok (demo_session 1).
Proof.
  intros s flood. apply (session_survives s flood 1 (str "me") (demo_session 1) 10 9 9); [|lia| |vm_compute; lia].
  - apply put_ok. constructor; cbn; [| |vm_compute; lia|vm_compute; lia].
    + intros k. rewrite elem_of_nil, lookup_empty. split; [done|by intros []].
    + constructor.
  - repeat constructor; done.
Defined.
