(* ===== verification/AccountText.v ===== *)
(** identity/password.go, and the texts of identity/users.go, user.go and
    authn.go: addresses, passwords, the masked name of an address, the list
    of roles kept in one column, and the bearer token of a header. *)

From Stdlib Require Import ZArith Lia List Ascii.
From stdpp Require Import base decidable list strings.
From S2P Require Import Prelude GoStrings.

(** ** Addresses and passwords *)

(** [normalizeEmail]. *)
Definition normalizeEmail (s : gostring) : gostring := to_lower (trim_space s).

(** The kinds of characters [checkPasswordStrength] tells apart.  It reads
    runes; every byte of a rune outside ASCII is of the last kind, as the rune
    is. *)
Inductive char_kind := lower | upper | digit | other.

#[global] Instance char_kind_eq_dec : EqDecision char_kind.
Proof. solve_decision. Defined.

Definition kind_of (c : ascii) : char_kind :=
  let v := byte_val c in
  if (97 <=? v) && (v <=? 122) then lower
  else if (65 <=? v) && (v <=? 90) then upper
  else if (48 <=? v) && (v <=? 57) then digit
  else other.

Definition has_kind (k : char_kind) (pwd : gostring) : bool := existsb (fun c => bool_decide (kind_of c = k)) pwd.

(** [checkPasswordStrength]: [true] is no error. *)
Definition checkPasswordStrength (pwd : gostring) : bool :=
  (2 <=? length (List.filter (fun k => has_kind k pwd) [lower; upper; digit; other]))%nat.

(** [hashPassword] refuses what bcrypt would truncate. *)
Definition too_long (pwd : gostring) : bool := Z.of_nat (length pwd) >? 72.

(** ** The masked name of an address *)

Definition star : gostring := str "*".
Definition dot : ascii := "."%char.
Definition at_ : ascii := "@"%char.

(** [maskPart]. *)
Definition maskPart (s : gostring) : gostring :=
  match s with
  | [] => star
  | [c] => c :: star
  | [c; _] => c :: star
  | c :: rest => c :: repeat "*"%char (length s - 2) ++ [List.last rest c]
  end.

(** The loop of [maskDomain] over the labels from the last but the first:
    how many of them the suffix keeps.  [labels] comes reversed. *)
Fixpoint suffix_labels (labels : list gostring) : nat :=
  match labels with
  | [] => O
  | l :: ls => if (3 <? length l)%nat then O else S (suffix_labels ls)
  end.

(** [maskDomain]. *)
Definition maskDomain (domain : gostring) : gostring :=
  let parts := split dot domain in
  if (length parts <=? 1)%nat then maskPart domain
  else
    let suffix := (length parts - Nat.max 1 (suffix_labels (rev (tl parts))))%nat in
    join [dot] (map maskPart (take suffix parts) ++ drop suffix parts).

(** The cut at the last [c], strings.LastIndex. *)
Fixpoint cut_at_last (c : ascii) (s : gostring) : option (gostring * gostring) :=
  match s with
  | [] => None
  | d :: s' =>
      match cut_at_last c s' with
      | Some (a, b) => Some (d :: a, b)
      | None => if beq d c then Some ([], s') else None
      end
  end.

(** [maskEmail]. *)
Definition maskEmail (email : gostring) : gostring :=
  match cut_at_last at_ email with
  | Some ((_ :: _) as local_, domain) => maskPart local_ ++ [at_] ++ maskDomain domain
  | _ => email
  end.

Example mask_alice : map maskEmail [str "alice@test.com"; str "john.doe@example.com"; str "alice@mail.test.co.jp"]
  = [str "a***e@t**t.com"; str "j******e@e*****e.com"; str "a***e@m**l.t**t.co.jp"].
Proof. reflexivity. Qed.

(** ** Roles *)

Definition comma : ascii := ","%char.
Definition adminRole : gostring := str "admin".
Definition roleMaxLen : Z := 32.
Definition rolesMaxCSV : Z := 500.

(** [User.RoleList], of the column [roles]. *)
Definition RoleList (roles : gostring) : list gostring :=
  match roles with [] => [] | _ => split comma roles end.

Inductive role_error := RoleEmpty | RoleComma (r : gostring) | RoleTooLong (r : gostring) | RolesTooLong (total : Z).

(** [checkRoles]: the loop from the [i]-th role on. *)
Fixpoint checkRoles_go (i : nat) (total : Z) (roles : list gostring) : result role_error unit :=
  match roles with
  | [] => if total >? rolesMaxCSV then Err (RolesTooLong total) else Ok tt
  | r :: roles' =>
      if seq_eqb r [] then Err RoleEmpty
      else if existsb (beq comma) r then Err (RoleComma r)
      else if Z.of_nat (length r) >? roleMaxLen then Err (RoleTooLong r)
      else checkRoles_go (S i) ((if (0 <? i)%nat then total + 1 else total) + Z.of_nat (length r)) roles'
  end.

Definition checkRoles (roles : list gostring) : result role_error unit := checkRoles_go 0 0 roles.

(** What the column gets: strings.Join(roles, ","). *)
Definition roles_csv (roles : list gostring) : gostring := join [comma] roles.

(** ** The bearer token *)

Definition maxAuthorizationLen : Z := 8192.

(** strings.Cut(header, " "). *)
Fixpoint cut_space (s : gostring) : option (gostring * gostring) :=
  match s with
  | [] => None
  | c :: s' => if beq c " "%char then Some ([], s')
               else match cut_space s' with Some (a, b) => Some (c :: a, b) | None => None end
  end.

(** [bearer]; the scheme is compared with strings.EqualFold to ASCII text,
    which agrees with comparing the lower cases. *)
Definition bearer (header : gostring) : gostring :=
  if seq_eqb header [] || (Z.of_nat (length header) >? maxAuthorizationLen) then []
  else match cut_space header with
       | Some (scheme, token) => if seq_eqb (to_lower scheme) (str "bearer") then trim_space token else []
       | None => []
       end.

Inductive credential_error := NoToken | NoCredential | BadBearer.

(** [credential]: [header] is the Authorization header, [cookie] the session
    cookie's value where the request has one. *)
Definition credential (cookies : bool) (header : gostring) (cookie : option gostring) : result credential_error gostring :=
  if negb (seq_eqb header []) || negb cookies then
    let raw := bearer header in
    if seq_eqb raw [] then Err NoToken else Ok raw
  else match cookie with
       | None | Some [] => Err NoCredential
       | Some v => if Z.of_nat (length v) >? maxAuthorizationLen then Err BadBearer else Ok v
       end.

(** ** Properties *)

(** A password is strong exactly when two of its characters differ in kind. *)
Lemma has_kind_spec k pwd : has_kind k pwd = true <-> exists c, c ∈ pwd /\ kind_of c = k.
Proof.
  unfold has_kind. rewrite existsb_exists. setoid_rewrite <- list_elem_of_In. by setoid_rewrite bool_decide_eq_true.
Qed.

Theorem strong_password pwd : checkPasswordStrength pwd = true <-> exists c d, c ∈ pwd /\ d ∈ pwd /\ kind_of c <> kind_of d.
Proof.
  unfold checkPasswordStrength. rewrite Nat.leb_le.
  assert (K : forall k, has_kind k pwd = true -> exists c, c ∈ pwd /\ kind_of c = k) by (intros k; apply has_kind_spec).
  split.
  - cbn [List.filter]. intros H.
    destruct (has_kind lower pwd) eqn:E1, (has_kind upper pwd) eqn:E2, (has_kind digit pwd) eqn:E3, (has_kind other pwd) eqn:E4;
      cbn in H; try lia;
      repeat match goal with E : has_kind _ _ = true |- _ => apply K in E as (? & ? & ?) | E : has_kind _ _ = false |- _ => clear E end;
      match goal with E1 : ?c ∈ pwd, E2 : ?d ∈ pwd |- _ => exists c, d; split_and!; [done|done|congruence] end.
  - intros (c & d & Hc & Hd & N).
    assert (Ec : has_kind (kind_of c) pwd = true) by (apply has_kind_spec; eauto).
    assert (Ed : has_kind (kind_of d) pwd = true) by (apply has_kind_spec; eauto).
    cbn [List.filter]. destruct (kind_of c), (kind_of d); try done; rewrite Ec, Ed;
      repeat match goal with |- context [if ?b then _ else _] => destruct b end; cbn; lia.
Qed.

Lemma checkRoles_go_ok i total roles : checkRoles_go i total roles = Ok tt ->
  Forall (fun r => r <> [] /\ comma ∉ r /\ Z.of_nat (length r) <= roleMaxLen) roles
  /\ total + Z.of_nat (length (join [comma] roles)) + (if (0 <? i)%nat && negb (bool_decide (roles = [])) then 1 else 0) <= rolesMaxCSV.
Proof.
  revert i total. induction roles as [|r rs IH]; intros i total.
  - cbn. rewrite andb_false_r. case_match; [discriminate|]. intros _. split; [done|]. cbn. lia.
  - cbn [checkRoles_go]. destruct (seq_eqb r []) eqn:N; [discriminate|]. apply bool_decide_eq_false in N. destruct (existsb _ _) eqn:C; [discriminate|].
    destruct (_ >? roleMaxLen) eqn:L; [discriminate|]. intros H. apply IH in H as [F T]. split.
    + constructor; [|done]. split_and!; [done| |lia]. intros Hc. apply list_elem_of_In in Hc.
      assert (existsb (beq comma) r = true) as E by (apply existsb_exists; exists comma; split; [done|apply beq_refl]). congruence.
    + rewrite bool_decide_false in * by done. destruct rs as [|q rs].
      * rewrite bool_decide_true in T by done. cbn in *. destruct i; cbn in *; lia.
      * rewrite join_cons2, !length_app. rewrite bool_decide_false in T by done. cbn [Nat.ltb Nat.leb negb andb length] in T |- *.
        destruct i; cbn [Nat.ltb Nat.leb andb negb]; lia.
Qed.

(** Roles that pass the checks fit in the column, and reading the column back
    gives them. *)
Theorem roles_roundtrip roles (H : checkRoles roles = Ok tt) :
  RoleList (roles_csv roles) = roles /\ Z.of_nat (length (roles_csv roles)) <= rolesMaxCSV.
Proof.
  apply checkRoles_go_ok in H as [F T]. unfold roles_csv. split; [|cbn [Nat.ltb Nat.leb andb] in T; lia].
  assert (S : forall q rs, Forall (fun r => r <> [] /\ comma ∉ r /\ Z.of_nat (length r) <= roleMaxLen) (q :: rs) ->
            split comma (join [comma] (q :: rs)) = q :: rs).
  { clear. intros q rs. revert q. induction rs as [|p rs IH]; intros q Hf; apply Forall_cons in Hf as [(N & C & _) Hf].
    - cbn. by apply split_no_sep.
    - rewrite join_cons2. change (q ++ [comma] ++ join [comma] (p :: rs)) with (q ++ comma :: join [comma] (p :: rs)).
      rewrite split_app_sep by done. by rewrite IH. }
  destruct roles as [|r rs]; [done|]. specialize (S r rs F). unfold RoleList. destruct (join [comma] (r :: rs)) eqn:E; [|done].
  cbn in S. apply Forall_cons in F as [(N & _) _]. by inversion S.
Qed.

Lemma roles_roundtrip_witness : checkRoles [str "editor"; adminRole] = Ok tt
  /\ RoleList (roles_csv [str "editor"; adminRole]) = [str "editor"; adminRole] /\ Z.of_nat (length (roles_csv [str "editor"; adminRole])) <= rolesMaxCSV.
Proof. split; [reflexivity|]. apply (roles_roundtrip [str "editor"; adminRole]). reflexivity. Defined.

