(* ===== verification/AuthTokens.v ===== *)
(** identity/token.go: access and reset tokens, signed and parsed by one
    key.

    The JWT library is a parameter: a function that signs claims and one that
    parses a token under the options it is given.  What is relied on of it is
    stated by [jwt_ok]: what was signed with the key comes back where its
    claims pass the checks the options ask for, and nowhere else. *)

From Stdlib Require Import ZArith Lia List Ascii.
From stdpp Require Import base decidable list gmap strings countable.
From S2P Require Import Prelude GoStrings GoTime.

(** ** Claims *)

(** A claim's value as JSON decodes it.  A number is a float64, exact for the
    integers below 2^53 that the code signs; [CFloat] is one that is no
    integer. *)
Inductive claim := CStr (s : gostring) | CInt (n : Z) | CFloat | CList (l : list gostring).

#[global] Instance claim_eq_dec : EqDecision claim.
Proof. solve_decision. Defined.

#[global] Instance claim_countable : Countable claim.
Proof.
  refine (inj_countable' (fun c => match c with CStr s => inl (inl s) | CInt n => inl (inr n) | CFloat => inr (inl tt) | CList l => inr (inr l) end)
    (fun x => match x with inl (inl s) => CStr s | inl (inr n) => CInt n | inr (inl _) => CFloat | inr (inr l) => CList l end) _).
  by intros [].
Defined.

Notation claims_t := (gmap gostring claim).

(** [intClaim]. *)
Definition intClaim (c : claims_t) (name : gostring) : option Z :=
  match c !! name with Some (CInt n) => Some n | _ => None end.

(** A claim that should be a string: the zero value where it is not. *)
Definition strClaim (c : claims_t) (name : gostring) : gostring :=
  match c !! name with Some (CStr s) => s | _ => [] end.

(** ** The manager *)

Definition issuerAccess : gostring := str "access".
Definition issuerReset : gostring := str "reset".

Definition tokenLeeway : Z := 30 * Second.
Definition maxTokenLeeway : Z := 5 * Minute.
Definition defaultTokenTTL : Z := 120 * Minute.

Record tokens := MkTokens { key : gostring; issuer : gostring; ttl : Z; leeway : Z }.

Inductive key_error := KeyEmpty | KeyShort (n : nat).

(** [newTokens]. *)
Definition newTokens (k iss : gostring) (d : Z) : result key_error tokens :=
  if seq_eqb k [] then Err KeyEmpty
  else if (length k <? 32)%nat then Err (KeyShort (length k))
  else Ok (MkTokens k iss (if d <=? 0 then defaultTokenTTL else d) tokenLeeway).

(** The options of the parser the code sets. *)
Record parser_options := Options {
  ValidMethods : list gostring; TimeFunc : Z; ExpirationRequired : bool; CheckIssuedAt : bool;
  Leeway : option Z; Issuer : option gostring;
}.

(** What the parser checks of the claims of a token signed with HS256, by the
    documentation of its options, where its dates are whole seconds. *)
Definition dated (c : claims_t) : Prop := forall n, n ∈ [str "exp"; str "iat"] -> c !! n = None \/ is_Some (intClaim c n).

Definition slack (o : parser_options) : Z := match Leeway o with Some l => l | None => 0 end.

Definition accepts (o : parser_options) (c : claims_t) : bool :=
  bool_decide (str "HS256" ∈ ValidMethods o)
  && match intClaim c (str "exp") with
     | Some e => TimeFunc o <? e * Second + slack o
     | None => negb (ExpirationRequired o)
     end
  && match intClaim c (str "iat") with
     | Some i => negb (CheckIssuedAt o) || (i * Second - slack o <=? TimeFunc o)
     | None => true
     end
  && match Issuer o with Some iss => bool_decide (c !! str "iss" = Some (CStr iss)) | None => true end.

Section tokens.
Context (jwt_sign : gostring -> claims_t -> gostring) (jwt_parse : parser_options -> gostring -> gostring -> option claims_t).

Definition jwt_ok : Prop := forall o k k' c, dated c -> jwt_parse o k' (jwt_sign k c) = if bool_decide (k = k') && accepts o c then Some c else None.

(** [sign]: the registered claims are written last. *)
Definition registered (m : tokens) (now : Z) (subject : gostring) (c : claims_t) : claims_t :=
  let c := <[str "exp" := CInt (unix (now + ttl m))]> (<[str "iat" := CInt (unix now)]> (<[str "sub" := CStr subject]> c)) in
  if seq_eqb (issuer m) [] then c else <[str "iss" := CStr (issuer m)]> c.

Definition sign (m : tokens) (now : Z) (subject : gostring) (c : claims_t) : gostring * Z :=
  (jwt_sign (key m) (registered m now subject c), now + ttl m).

(** The options [parse] builds. *)
Definition options_of (m : tokens) (now : Z) : parser_options :=
  Options [str "HS256"] now true true
    (if leeway m >? 0 then Some (Z.min (leeway m) maxTokenLeeway) else None)
    (if seq_eqb (issuer m) [] then None else Some (issuer m)).

(** [parse]: [None] is errBadToken. *)
Definition parse (m : tokens) (now : Z) (raw : gostring) : option (gostring * claims_t) :=
  match jwt_parse (options_of m now) (key m) raw with
  | None => None
  | Some c => let sub := strClaim c (str "sub") in if seq_eqb sub [] then None else Some (sub, c)
  end.

(** ** Properties *)

Lemma registered_sub m now sub c : strClaim (registered m now sub c) (str "sub") = sub.
Proof. unfold strClaim, registered. destruct (seq_eqb _ _); by simplify_map_eq. Qed.

Lemma registered_exp m now sub c : intClaim (registered m now sub c) (str "exp") = Some (unix (now + ttl m)).
Proof. unfold intClaim, registered. destruct (seq_eqb _ _); by simplify_map_eq. Qed.

Lemma registered_iat m now sub c : intClaim (registered m now sub c) (str "iat") = Some (unix now).
Proof. unfold intClaim, registered. destruct (seq_eqb _ _); by simplify_map_eq. Qed.

(** A claim of the caller's own comes back as it was. *)
Lemma registered_other m now sub c n : n ∉ [str "exp"; str "iat"; str "sub"; str "iss"] -> registered m now sub c !! n = c !! n.
Proof.
  rewrite !not_elem_of_cons. intros (? & ? & ? & ? & _). unfold registered. destruct (seq_eqb _ _); rewrite !lookup_insert_ne; done.
Qed.

Lemma registered_dated m now sub c : dated (registered m now sub c).
Proof.
  intros n. rewrite !elem_of_cons. intros [->|[->|H]]; [right; by rewrite registered_exp|right; by rewrite registered_iat|by apply elem_of_nil in H].
Qed.

Definition time_slack (m : tokens) : Z := slack (options_of m 0).

(** Parsing what was signed: with two managers of one key, a token passes
    exactly when it is of the same kind (they have the same issuer), it has a
    subject, the clock is before its expiry and not before its issue, each to
    the leeway; it comes back with the subject it was signed for and every
    claim it was signed with, the registered ones its own.  So no access token
    passes for a reset token, nor the other way round. *)
Theorem parse_sign (J : jwt_ok) m m' t now sub c (K : key m' = key m) (Hm : issuer m <> []) (Hm' : issuer m' <> []) :
  parse m' now (sign m t sub c).1
  = if bool_decide (issuer m' = issuer m /\ sub <> [] /\ now < unix (t + ttl m) * Second + time_slack m'
                    /\ unix t * Second <= now + time_slack m')
    then Some (sub, registered m t sub c) else None.
Proof.
  unfold parse, sign. cbn [fst]. rewrite J by apply registered_dated. rewrite K, (bool_decide_true (key m = key m)) by done. cbn [andb].
  assert (A : accepts (options_of m' now) (registered m t sub c)
    = bool_decide (issuer m' = issuer m /\ now < unix (t + ttl m) * Second + time_slack m' /\ unix t * Second <= now + time_slack m')).
  { unfold accepts. rewrite registered_exp, registered_iat. change (slack (options_of m' now)) with (time_slack m').
    unfold options_of. cbn [ValidMethods TimeFunc CheckIssuedAt Issuer negb orb].
    rewrite (bool_decide_true (_ ∈ _)) by set_solver. unfold seq_eqb. rewrite (bool_decide_false (issuer m' = [])) by done.
    assert (L : registered m t sub c !! str "iss" = Some (CStr (issuer m))).
    { unfold registered, seq_eqb. rewrite (bool_decide_false (issuer m = [])) by done. by simplify_map_eq. }
    rewrite L. cbn [andb]. destruct (bool_decide_reflect (Some (CStr (issuer m)) = Some (CStr (issuer m')))) as [E|E].
    - injection E as E. apply eq_true_iff_eq. rewrite !andb_true_iff, bool_decide_eq_true, Z.ltb_lt, Z.leb_le. naive_solver lia.
    - rewrite andb_false_r. symmetry. apply bool_decide_eq_false. intros [E' _]. apply E. by rewrite E'. }
  rewrite A. repeat case_bool_decide; rewrite ?registered_sub; unfold seq_eqb; repeat case_bool_decide; try done; tauto.
Qed.

(** The leeway is the one half minute the constructor gives, whatever the
    life asked for; and a life that is not positive becomes the default. *)
Lemma newTokens_ok k iss d m : newTokens k iss d = Ok m ->
  key m = k /\ issuer m = iss /\ 0 < ttl m /\ time_slack m = tokenLeeway /\ (32 <= length k)%nat.
Proof.
  unfold newTokens. destruct (seq_eqb k []); [discriminate|]. destruct (Nat.ltb_spec (length k) 32); [discriminate|].
  intros [= <-]. cbn. split_and!; [done|done| |done|lia]. destruct (Z.leb_spec d 0); [done|lia].
Qed.
End tokens.

(** ** A library that keeps [jwt_ok] *)

Fixpoint pos_text (p : positive) : gostring :=
  match p with xH => [] | xO p => "0"%char :: pos_text p | xI p => "1"%char :: pos_text p end.

Fixpoint text_pos (s : gostring) : positive :=
  match s with [] => xH | c :: s => if beq c "0"%char then xO (text_pos s) else xI (text_pos s) end.

Lemma token_pos_text p : text_pos (pos_text p) = p.
Proof. induction p as [p IH|p IH|]; cbn; by rewrite ?IH. Qed.

Definition demo_sign (k : gostring) (c : claims_t) : gostring := pos_text (encode (k, c)).

Definition demo_parse (o : parser_options) (k : gostring) (raw : gostring) : option claims_t :=
  match (decode (text_pos raw) : option (gostring * claims_t)) with
  | Some (k', c) => if bool_decide (k' = k) && accepts o c then Some c else None
  | None => None
  end.

Lemma demo_jwt_ok : jwt_ok demo_sign demo_parse.
Proof. intros o k k' c _. unfold demo_parse, demo_sign. by rewrite token_pos_text, decode_encode. Qed.

Definition demo_key : gostring := str "0123456789abcdef0123456789abcdef".

Lemma parse_sign_witness :
  let a := MkTokens demo_key issuerAccess 7200000000000 tokenLeeway in
  let r := MkTokens demo_key issuerReset 900000000000 tokenLeeway in
  let c := {[str "pv" := CInt 3]} in
  let raw := (sign demo_sign a 1000000000000 (str "usr_1") c).1 in
  parse demo_parse a 1005000000000 raw = Some (str "usr_1", registered a 1000000000000 (str "usr_1") c)
  /\ parse demo_parse r 1005000000000 raw = None /\ parse demo_parse a 8230000000000 raw = None.
Proof.
  cbn zeta. split_and!.
  - rewrite (parse_sign demo_sign demo_parse demo_jwt_ok) by done. by vm_compute.
  - rewrite (parse_sign demo_sign demo_parse demo_jwt_ok) by done. by vm_compute.
  - rewrite (parse_sign demo_sign demo_parse demo_jwt_ok) by done. by vm_compute.
Defined.
