(* ===== verification/Accounts.v ===== *)
(** identity: accounts and what changes them - users.go, routes.go, authn.go,
    admins.go, the sign-in half of passwordless.go and confirm.go, and the
    accounts of oauth.go - as concurrent requests over the tables users and
    identities.

    Each statement, and each transaction's writes, is one atomic step; between
    two steps of a request any other request takes any of its own, and what a
    request read may be old by the time it uses it.  A transaction that reads
    first (resolve, link) reads in a step of its own, as READ COMMITTED lets
    it; one that locks the row first (unlink) is one step.

    The throttle around the routes is LoginLimiter's, the codes and their rows
    LoginCodes': a request of a code starts here where its code matched.
    OauthSession keeps the sign-ins in flight: here a sign-in goes on from the
    provider's answer, and any time may pass before its code is exchanged.  A
    request's [salt] stands for everything random it draws; the last_used_at
    of a link is left out. *)

From Stdlib Require Import ZArith Lia List Ascii.
From stdpp Require Import base decidable list gmap strings relations.
From S2P Require Import Prelude GoStrings GoTime AccountText AuthTokens.

(** ** Rows *)

Record User := MkUser {
  Email : gostring; EmailVerified : bool; EmailAssumed : bool; PasswordHash : gostring; HasPassword : bool;
  PasswordVersion : Z; Name : gostring; Roles : gostring; Active : bool; Version : Z;
}.

Record linkedIdentity := MkLink { UserID : gostring; Provider : gostring; ProviderAccountID : gostring; l_Email : gostring }.

#[global] Instance User_eq_dec : EqDecision User.
Proof. solve_decision. Defined.

(** [emailProven]. *)
Definition emailProven (u : User) : bool := EmailVerified u && negb (EmailAssumed u).

(** The user as a provider knows them (identity/internal/oauth.Identity). *)
Record extIdentity := MkExt {
  e_Provider : gostring; e_AccountID : gostring; e_Email : gostring;
  EmailIsVerified : bool; EmailVerifiedAssumed : bool; IsAliasedEmail : bool; e_Name : gostring;
}.

Definition with_email (e : gostring) (x : extIdentity) : extIdentity :=
  MkExt (e_Provider x) (e_AccountID x) e (EmailIsVerified x) (EmailVerifiedAssumed x) (IsAliasedEmail x) (e_Name x).

(** [statesAddress]. *)
Definition statesAddress (x : extIdentity) (email : gostring) : bool :=
  EmailIsVerified x && negb (EmailVerifiedAssumed x) && negb (IsAliasedEmail x) && seq_eqb (normalizeEmail (e_Email x)) email.

(** ** The past *)

Inductive kind := Access | Reset.

(** Why a token was signed: what its holder showed. *)
Inductive evidence :=
| Registered
| PasswordLogin (password : gostring)
| Refreshed (raw : gostring)             (* a token still good *)
| CodeSignIn
| ProviderSignIn (provider account : gostring)
| Forgot.                                (* a reset token: nothing *)

(** Why an address counts as proven. *)
Inductive proof :=
| ByOperator
| ByResetMail (raw : gostring)
| ByCodeMail
| ByProvider (x : extIdentity).

Inductive event :=
| ESigned (k : kind) (raw rid : gostring) (pv : Z) (e : evidence)
| EMailed (email raw rid : gostring)
| EPassed (k : kind) (raw rid : gostring) (pv : Z)   (* Authn, or a reset, let the token in *)
| ERevoked (rid : gostring)
| EProven (rid email : gostring) (p : proof)
| ERolesSet (rid : gostring) (roles : list gostring)
| EGranted (rid : gostring)
| ELinked (id rid : gostring) (x : extIdentity).

Record world := World {
  users : gmap gostring User; links : gmap gostring linkedIdentity; ids : gset gostring; trace : list event;
}.

(** ** Requests *)

(** What a request behind Authn does once it is let in. *)
Inductive action :=
| ARoute                                            (* any other route *)
| ARefresh
| AChangePassword (old new salt : gostring)
| AConfirm                                          (* confirm-email, its code good *)
| ALink (x : extIdentity)                           (* link, and the provider's answer *)
| AUnlink (id : gostring).

(** What follows the grant of the admin role: a token, or the request. *)
Inductive after_grant :=
| KIssue (start : Z) (e : evidence)
| KSession (raw : gostring) (start : Z) (a : action).

Inductive admin_op := SetActive (active : bool) | SetRoles (roles : list gostring) | ResetPassword (password salt : gostring) | RevokeTokens.

Inductive outcome :=
| Token (raw : gostring) | NoContent | LetIn
| Internal | InvalidEmail | InvalidPassword | EmailTaken | BadLogin | Disabled | OAuthOnly | BadBearerToken | NoAccount | StaleToken
| SessionEnded | WrongOld | BadResetToken | BadRoles (e : role_error) | NotFound | CodeExpired | InvalidCode
| NoUserID | OAuthEmailRequired | EmailRegistered | LinkUnverified | LinkedElsewhere | LastMethod.

(** Where a request is: its next statement. *)
Inductive phase :=
| PCreate (vouched : bool) (email password name salt : gostring)
| PLogin (email password : gostring)
| PGrant (rid : gostring) (u : User) (try_ : nat) (k : after_grant)
| PGrantRead (rid : gostring) (u : User) (try_ : nat) (k : after_grant)
| PAuth (raw : gostring) (a : action)
| PSetPassword (rid password salt : gostring)
| PForgot (email : gostring)
| PReset (raw password salt : gostring)
| PResetWrite (rid : gostring) (u : User) (raw password salt : gostring)
| PCode (email salt : gostring) (t : Z)
| PCodeSpend (email salt : gostring) (t : Z) (known : option (gostring * User))
| PCodeCreate (email salt : gostring) (t : Z)
| PCodeAgain (email salt : gostring) (t : Z)
| PTakeOver (rid : gostring) (u : User) (salt : gostring) (t : Z)
| PTakenOver (rid : gostring) (t : Z)
| PConfirm (rid email : gostring)
| PResolve (x : extIdentity) (salt : gostring)
| PResolveUser (rid : gostring) (x : extIdentity)
| PResolveByEmail (x : extIdentity) (salt : gostring)
| PResolveJoin (rid : gostring) (u : User) (x : extIdentity) (salt : gostring)
| PResolveCreate (x : extIdentity) (salt : gostring)
| PExchange (rid : gostring) (x : extIdentity)
| PLinkStart (rid : gostring) (x : extIdentity)
| PLink (rid : gostring) (x : extIdentity)
| PLinkWrite (rid : gostring) (u : User) (x : extIdentity)
| PUnlink (rid id : gostring)
| PAdmin (rid : gostring) (o : admin_op)
| PMark (rid : gostring)
| PMarkWrite (rid : gostring) (u : User)
| Done (o : outcome).

(** What a step meets: whether its statement fails, the clock, two ids nobody
    has, and whether the code it spends is still there. *)
Record env := MkEnv { fails : bool; now : Z; id1 : gostring; id2 : gostring; spent : bool }.

Record settings := MkSettings {
  admins : gset gostring; linkByEmail : bool; autoRegister : bool; RefreshTTL : Z; access : tokens; reset : tokens;
}.

Definition manager (s : settings) (k : kind) : tokens := match k with Access => access s | Reset => reset s end.

Section accounts.
(** golang-jwt, and bcrypt: a hash of a password under a salt, and the
    comparison. *)
Context (jwt_sign : gostring -> claims_t -> gostring) (jwt_parse : parser_options -> gostring -> gostring -> option claims_t).
Context (bcrypt : gostring -> gostring -> gostring) (comparePassword : gostring -> gostring -> bool).
(** net/mail.ParseAddress finds the address alone. *)
Context (plainAddress : gostring -> bool).
Context (cfg : settings).

(** ** Statements *)

Definition say (e : event) (w : world) : world := World (users w) (links w) (ids w) (trace w ++ [e]).

Definition with_users (m : gmap gostring User) (w : world) : world := World m (links w) (ids w) (trace w).

Definition user_by_email (email : gostring) (w : world) : option (gostring * User) :=
  head (List.filter (fun p : gostring * User => seq_eqb (Email p.2) email) (map_to_list (users w))).

(** users.Update by RID: the row's version moves on. *)
Definition update_user (rid : gostring) (f : User -> User) (w : world) : option world :=
  match users w !! rid with
  | None => None
  | Some row =>
      let r := f row in
      Some (with_users (<[rid := MkUser (Email r) (EmailVerified r) (EmailAssumed r) (PasswordHash r) (HasPassword r) (PasswordVersion r)
                                   (Name r) (Roles r) (Active r) (Version row + 1)]> (users w)) w)
  end.

(** users.Create: the address is unique. *)
Definition create_user (id : gostring) (u : User) (w : world) : option world :=
  match user_by_email (Email u) w with
  | Some _ => None
  | None => Some (World (<[id := u]> (users w)) (links w) ({[id]} ∪ ids w) (trace w))
  end.

Definition link_of (provider account : gostring) (p : gostring * linkedIdentity) : bool :=
  seq_eqb (Provider p.2) provider && seq_eqb (ProviderAccountID p.2) account.

Definition find_link (provider account : gostring) (w : world) : option (gostring * linkedIdentity) :=
  head (List.filter (link_of provider account) (map_to_list (links w))).

(** [linkTx]: the provider's account is linked once. *)
Definition linkTx (id rid : gostring) (x : extIdentity) (w : world) : option world :=
  match find_link (e_Provider x) (e_AccountID x) w with
  | Some _ => None
  | None => Some (say (ELinked id rid x)
                    (World (users w) (<[id := MkLink rid (e_Provider x) (e_AccountID x) (e_Email x)]> (links w)) ({[id]} ∪ ids w) (trace w)))
  end.

(** links.Delete of a user's. *)
Definition drop_links (rid : gostring) (w : world) : world :=
  World (users w) (filter (fun p : gostring * linkedIdentity => UserID p.2 <> rid) (links w)) (ids w) (trace w).

Definition links_of (rid : gostring) (w : world) : list (gostring * linkedIdentity) :=
  List.filter (fun p : gostring * linkedIdentity => seq_eqb (UserID p.2) rid) (map_to_list (links w)).

(** ** Columns *)

(** The columns of a map given to store.Set. *)
Definition bump (u : User) : User :=
  MkUser (Email u) (EmailVerified u) (EmailAssumed u) (PasswordHash u) (HasPassword u) (PasswordVersion u + 1) (Name u) (Roles u) (Active u) (Version u).
Definition set_password (hash : gostring) (has : bool) (u : User) : User :=
  MkUser (Email u) (EmailVerified u) (EmailAssumed u) hash has (PasswordVersion u) (Name u) (Roles u) (Active u) (Version u).
Definition set_proven (verified : bool) (u : User) : User :=
  MkUser (Email u) (verified || EmailVerified u) false (PasswordHash u) (HasPassword u) (PasswordVersion u) (Name u) (Roles u) (Active u) (Version u).
Definition set_roles (roles : gostring) (u : User) : User :=
  MkUser (Email u) (EmailVerified u) (EmailAssumed u) (PasswordHash u) (HasPassword u) (PasswordVersion u) (Name u) roles (Active u) (Version u).
Definition set_active (b : bool) (u : User) : User :=
  MkUser (Email u) (EmailVerified u) (EmailAssumed u) (PasswordHash u) (HasPassword u) (PasswordVersion u) (Name u) (Roles u) b (Version u).
Definition at_version (v : Z) (u : User) : User :=
  MkUser (Email u) (EmailVerified u) (EmailAssumed u) (PasswordHash u) (HasPassword u) (PasswordVersion u) (Name u) (Roles u) (Active u) v.

(** [passwordColumns]: the checks, and the columns. *)
Definition password_ok (password : gostring) : bool := checkPasswordStrength password && negb (too_long password).

Definition passwordColumns (password salt : gostring) (u : User) : User := bump (set_password (bcrypt salt password) true u).

(** [verifyEmail]: [u] is the row as read before. *)
Definition verifyEmail (rid : gostring) (u : User) (set : User -> User) (p : proof) (w : world) : option world :=
  match update_user rid (fun r => set_proven true (set r)) w with
  | None => None
  | Some w' => Some (say (EProven rid (Email u) p) (if emailProven u then w' else drop_links rid w'))
  end.

(** [takeOver]. *)
Definition takeOver (rid : gostring) (u : User) (salt : gostring) (p : proof) (w : world) : option world :=
  match verifyEmail rid u (fun r => bump (if HasPassword u then set_password (bcrypt salt salt) false r else r)) p w with
  | None => None
  | Some w' => Some (say (ERevoked rid) w')
  end.

(** ** Tokens *)

Definition access_claims (u : User) (start : Z) : claims_t :=
  let c := <[str "name" := CStr (Name u)]> (<[str "pv" := CInt (PasswordVersion u)]> (<[str "sat" := CInt start]> ∅)) in
  match RoleList (Roles u) with [] => c | roles => <[str "roles" := CList roles]> c end.

Definition reset_claims (u : User) : claims_t := <[str "purpose" := CStr (str "reset")]> (<[str "pv" := CInt (PasswordVersion u)]> ∅).

(** [refreshToken]. *)
Definition refreshToken (rid : gostring) (u : User) (raw : gostring) (start : Z) (e : env) : phase :=
  if (RefreshTTL cfg >? 0) && (now e - start * Second >? RefreshTTL cfg) then Done SessionEnded
  else PGrant rid u 1 (KIssue start (Refreshed raw)).

(** [changePassword]. *)
Definition changePassword (rid : gostring) (u : User) (old new salt : gostring) : phase :=
  if comparePassword (PasswordHash u) old then
    if password_ok new then PSetPassword rid new salt else Done InvalidPassword
  else Done WrongOld.

(** What follows the grant: [issueToken]'s end, or the handler behind Authn. *)
Definition session_action (rid : gostring) (u : User) (raw : gostring) (start : Z) (a : action) (e : env) : phase :=
  match a with
  | ARoute => Done LetIn
  | ARefresh => refreshToken rid u raw start e
  | AChangePassword old new salt => changePassword rid u old new salt
  | AConfirm => if emailProven u then Done NoContent else PConfirm rid (Email u)
  | ALink x => PLinkStart rid x
  | AUnlink id => PUnlink rid id
  end.

Definition finish (rid : gostring) (u : User) (k : after_grant) (e : env) (w : world) : world * phase :=
  match k with
  | KIssue start ev =>
      let raw := (sign jwt_sign (access cfg) (now e) rid (access_claims u start)).1 in
      (say (ESigned Access raw rid (PasswordVersion u) ev) w, Done (Token raw))
  | KSession raw start a => (w, session_action rid u raw start a e)
  end.

Definition grantTries : nat := 3.

(** [grantAdmin]: a round of its loop. *)
Definition wants_grant (u : User) : bool :=
  negb (bool_decide (admins cfg = ∅)) && emailProven u && bool_decide (Email u ∈ admins cfg)
  && negb (bool_decide (adminRole ∈ RoleList (Roles u))).

Definition grantAdmin (rid : gostring) (u : User) (try_ : nat) (k : after_grant) (e : env) (w : world) : world * phase :=
  let after := RoleList (Roles u) ++ [adminRole] in
  if negb (wants_grant u) || (grantTries <? try_)%nat || negb (is_ok (checkRoles after)) || fails e then finish rid u k e w
  else match users w !! rid with
       | None => finish rid u k e w
       | Some row =>
           if Version row =? Version u then
             match update_user rid (set_roles (roles_csv after)) w with
             | Some w' => finish rid (at_version (Version u + 1) (set_roles (roles_csv after) u)) k e (say (EGranted rid) w')
             | None => finish rid u k e w
             end
           else (w, PGrantRead rid u try_ k)
       end.

Definition grant_read (rid : gostring) (u : User) (try_ : nat) (k : after_grant) (e : env) (w : world) : world * phase :=
  if fails e then finish rid u k e w
  else match users w !! rid with
       | None => finish rid u k e w
       | Some fresh => (w, PGrant rid fresh (S try_) k)
       end.

(** ** The routes

    Each is the request's step from one phase; [fails] of its statement is
    dealt with in [advance]. *)

(** [createUser], for register and for UserService.Create. *)
Definition createUser (vouched : bool) (email password name salt : gostring) (e : env) (w : world) : world * phase :=
  let email := normalizeEmail email in
  if negb (plainAddress email) then (w, Done InvalidEmail)
  else if (length password <? 8)%nat || negb (password_ok password) then (w, Done InvalidPassword)
  else
    let name := if seq_eqb name [] then maskEmail email else name in
    let u := MkUser email vouched false (bcrypt salt password) true 0 name [] true 1 in
    match create_user (id1 e) u w with
    | None => (w, Done EmailTaken)
    | Some w' => if vouched then (say (EProven (id1 e) email ByOperator) w', Done NoContent)
                 else (w', PGrant (id1 e) u 1 (KIssue (unix (now e)) Registered))
    end.

(** [login]. *)
Definition login (email password : gostring) (e : env) (w : world) : world * phase :=
  match user_by_email (normalizeEmail email) w with
  | None => (w, Done BadLogin)
  | Some (rid, u) =>
      if negb (Active u) then (w, Done Disabled)
      else if negb (HasPassword u) then (w, Done OAuthOnly)
      else if negb (comparePassword (PasswordHash u) password) then (w, Done BadLogin)
      else (w, PGrant rid u 1 (KIssue (unix (now e)) (PasswordLogin password)))
  end.

(** [authenticate]. *)
Definition authenticate (raw : gostring) (a : action) (e : env) (w : world) : world * phase :=
  match parse jwt_parse (access cfg) (now e) raw with
  | None => (w, Done BadBearerToken)
  | Some (sub, c) =>
      if fails e then (w, Done Internal) else
      match users w !! sub with
      | None => (w, Done NoAccount)
      | Some u =>
          if negb (Active u) then (w, Done Disabled)
          else match intClaim c (str "pv") with
               | Some pv =>
                   if pv =? PasswordVersion u then
                     (say (EPassed Access raw sub pv) w,
                      PGrant sub u 1 (KSession raw (default 0 (intClaim c (str "sat"))) a))
                   else (w, Done StaleToken)
               | None => (w, Done StaleToken)
               end
      end
  end.

(** A write by RID whose columns revoke the user's tokens. *)
Definition revoking (rid : gostring) (f : User -> User) (missing : outcome) (w : world) : world * phase :=
  match update_user rid (fun r => bump (f r)) w with
  | None => (w, Done missing)
  | Some w' => (say (ERevoked rid) w', Done NoContent)
  end.

(** [setPassword], its checks passed. *)
Definition setPassword (rid password salt : gostring) (w : world) : world * phase :=
  revoking rid (set_password (bcrypt salt password) true) NotFound w.

(** [forgotPassword]. *)
Definition forgotPassword (email : gostring) (e : env) (w : world) : world * phase :=
  match user_by_email (normalizeEmail email) w with
  | Some (rid, u) =>
      if Active u then
        let raw := (sign jwt_sign (reset cfg) (now e) rid (reset_claims u)).1 in
        (say (EMailed (Email u) raw rid) (say (ESigned Reset raw rid (PasswordVersion u) Forgot) w), Done NoContent)
      else (w, Done NoContent)
  | None => (w, Done NoContent)
  end.

(** [resetPassword], up to its write. *)
Definition resetPassword (raw password salt : gostring) (e : env) (w : world) : world * phase :=
  match parse jwt_parse (reset cfg) (now e) raw with
  | None => (w, Done BadResetToken)
  | Some (sub, c) =>
      if negb (seq_eqb (strClaim c (str "purpose")) (str "reset")) then (w, Done BadResetToken)
      else if fails e then (w, Done Internal)
      else match users w !! sub with
           | None => (w, Done BadResetToken)
           | Some u =>
               match intClaim c (str "pv") with
               | Some pv =>
                   if Active u && (pv =? PasswordVersion u) then
                     if password_ok password then (say (EPassed Reset raw sub pv) w, PResetWrite sub u raw password salt)
                     else (w, Done InvalidPassword)
                   else (w, Done BadResetToken)
               | None => (w, Done BadResetToken)
               end
           end
  end.

Definition reset_write (rid : gostring) (u : User) (raw password salt : gostring) (w : world) : world * phase :=
  match verifyEmail rid u (passwordColumns password salt) (ByResetMail raw) w with
  | None => (w, Done NotFound)
  | Some w' => (say (ERevoked rid) w', Done NoContent)
  end.

(** [passwordlessVerify] from where its code matched: the account, the code
    spent, the account registered ([registerByCode]) or taken over, and the
    token. *)
Definition code_user (email salt : gostring) (t : Z) (w : world) : world * phase :=
  match user_by_email email w with
  | None => if autoRegister cfg then (w, PCodeSpend email salt t None) else (w, Done InvalidCode)
  | Some (rid, u) => if Active u then (w, PCodeSpend email salt t (Some (rid, u))) else (w, Done Disabled)
  end.

Definition code_known (rid : gostring) (u : User) (salt : gostring) (t : Z) : phase :=
  if emailProven u then PGrant rid u 1 (KIssue (unix t) CodeSignIn) else PTakeOver rid u salt t.

Definition code_spend (email salt : gostring) (t : Z) (known : option (gostring * User)) (e : env) (w : world) : world * phase :=
  if negb (spent e) then (w, Done CodeExpired)
  else (w, match known with None => PCodeCreate email salt t | Some (rid, u) => code_known rid u salt t end).

Definition registerByCode (email salt : gostring) (t : Z) (e : env) (w : world) : world * phase :=
  let u := MkUser email true false (bcrypt salt salt) false 0 [] [] true 1 in
  match create_user (id1 e) u w with
  | None => (w, PCodeAgain email salt t)
  | Some w' => (say (EProven (id1 e) email ByCodeMail) w', PGrant (id1 e) u 1 (KIssue (unix t) CodeSignIn))
  end.

Definition code_again (email salt : gostring) (t : Z) (w : world) : world * phase :=
  match user_by_email email w with
  | None => (w, Done NotFound)
  | Some (rid, u) => (w, code_known rid u salt t)
  end.

Definition code_takeover (rid : gostring) (u : User) (salt : gostring) (t : Z) (w : world) : world * phase :=
  match takeOver rid u salt ByCodeMail w with
  | None => (w, Done NotFound)
  | Some w' => (w', PTakenOver rid t)
  end.

Definition taken_over (rid : gostring) (t : Z) (w : world) : world * phase :=
  match users w !! rid with
  | None => (w, Done NotFound)
  | Some u => (w, PGrant rid u 1 (KIssue (unix t) CodeSignIn))
  end.

(** The end of [confirmEmail]. *)
Definition confirm_write (rid email : gostring) (w : world) : world * phase :=
  match update_user rid (set_proven true) w with
  | None => (w, Done NotFound)
  | Some w' => (say (EProven rid email ByCodeMail) w', Done NoContent)
  end.

(** ** OAuth *)

(** [resolve]: the link, or the checks of a new one. *)
Definition resolve (x : extIdentity) (salt : gostring) (w : world) : world * phase :=
  if seq_eqb (e_Provider x) [] || seq_eqb (e_AccountID x) [] then (w, Done Internal)
  else
    let x := with_email (normalizeEmail (e_Email x)) x in
    match find_link (e_Provider x) (e_AccountID x) w with
    | Some (_, l) => (w, PResolveUser (UserID l) x)
    | None =>
        if seq_eqb (e_Email x) [] || negb (EmailIsVerified x) || IsAliasedEmail x
           || (EmailVerifiedAssumed x && bool_decide (e_Email x ∈ admins cfg)) then (w, Done OAuthEmailRequired)
        else if linkByEmail cfg && negb (EmailVerifiedAssumed x) then (w, PResolveByEmail x salt)
        else (w, PResolveCreate x salt)
    end.

Definition resolve_user (rid : gostring) (x : extIdentity) (w : world) : world * phase :=
  match users w !! rid with
  | None => (w, Done NotFound)
  | Some u => if Active u then (w, PExchange rid x) else (w, Done Disabled)
  end.

Definition resolve_by_email (x : extIdentity) (salt : gostring) (w : world) : world * phase :=
  match user_by_email (e_Email x) w with
  | Some (rid, u) => if EmailVerified u then (w, PResolveJoin rid u x salt) else (w, PResolveCreate x salt)
  | None => (w, PResolveCreate x salt)
  end.

(** Its transaction where it joins an account... *)
Definition resolve_join (rid : gostring) (u : User) (x : extIdentity) (salt : gostring) (e : env) (w : world) : world * phase :=
  match (if EmailAssumed u then takeOver rid u salt (ByProvider x) w else Some w) with
  | None => (w, Done NotFound)
  | Some w1 =>
      match linkTx (id1 e) rid x w1 with
      | None => (w, Done LinkedElsewhere)
      | Some w2 => (w2, PExchange rid x)
      end
  end.

(** ... and where it makes one. *)
Definition resolve_create (x : extIdentity) (salt : gostring) (e : env) (w : world) : world * phase :=
  let name := if seq_eqb (e_Name x) [] then maskEmail (e_Email x) else e_Name x in
  let u := MkUser (e_Email x) true (EmailVerifiedAssumed x) (bcrypt salt salt) false 0 name [] true 1 in
  match create_user (id1 e) u w with
  | None => (w, Done EmailRegistered)
  | Some w1 =>
      match linkTx (id2 e) (id1 e) x w1 with
      | None => (w, Done LinkedElsewhere)
      | Some w2 =>
          (if EmailVerifiedAssumed x then w2 else say (EProven (id1 e) (e_Email x) (ByProvider x)) w2, PExchange (id1 e) x)
      end
  end.

(** [handleExchange], its code taken. *)
Definition exchange (rid : gostring) (x : extIdentity) (e : env) (w : world) : world * phase :=
  match users w !! rid with
  | None => (w, Done NoAccount)
  | Some u => if Active u then (w, PGrant rid u 1 (KIssue (unix (now e)) (ProviderSignIn (e_Provider x) (e_AccountID x))))
              else (w, Done Disabled)
  end.

(** [handleLink], up to the redirect to the provider. *)
Definition link_start (rid : gostring) (x : extIdentity) (w : world) : world * phase :=
  match users w !! rid with
  | None => (w, Done NotFound)
  | Some u => if EmailVerified u then (w, PLink rid x) else (w, Done LinkUnverified)
  end.

(** [link], at the provider's callback. *)
Definition link_read (rid : gostring) (x : extIdentity) (w : world) : world * phase :=
  if seq_eqb (e_Provider x) [] || seq_eqb (e_AccountID x) [] then (w, Done Internal)
  else match users w !! rid with
       | None => (w, Done NotFound)
       | Some u => if EmailVerified u then (w, PLinkWrite rid u x) else (w, Done LinkUnverified)
       end.

Definition link_write (rid : gostring) (u : User) (x : extIdentity) (e : env) (w : world) : world * phase :=
  match linkTx (id1 e) rid x w with
  | None => (w, Done LinkedElsewhere)
  | Some w1 =>
      if EmailAssumed u && statesAddress x (Email u) then
        match update_user rid (set_proven false) w1 with
        | None => (w, Done NotFound)
        | Some w2 => (say (EProven rid (Email u) (ByProvider x)) w2, Done NoContent)
        end
      else (w1, Done NoContent)
  end.

(** [unlinkIdentity]. *)
Definition unlinkIdentity (rid id : gostring) (w : world) : world * phase :=
  match users w !! rid with
  | None => (w, Done NotFound)
  | Some u =>
      match links w !! id with
      | Some l =>
          if seq_eqb (UserID l) rid then
            let n := (length (links_of rid w) + (if HasPassword u then 1 else 0))%nat in
            if (n <=? 1)%nat then (w, Done LastMethod)
            else (World (users w) (delete id (links w)) (ids w) (trace w), Done NoContent)
          else (w, Done NotFound)
      | None => (w, Done NotFound)
      end
  end.

(** ** The operator *)

Definition admin_write (rid : gostring) (o : admin_op) (w : world) : world * phase :=
  match o with
  | SetActive b => if seq_eqb rid [] then (w, Done NoUserID) else revoking rid (set_active b) NotFound w
  | SetRoles roles =>
      match checkRoles roles with
      | Err e => (w, Done (BadRoles e))
      | Ok _ =>
          if seq_eqb rid [] then (w, Done NoUserID)
          else match update_user rid (fun r => bump (set_roles (roles_csv roles) r)) w with
               | None => (w, Done NotFound)
               | Some w' => (say (ERolesSet rid roles) (say (ERevoked rid) w'), Done NoContent)
               end
      end
  | ResetPassword password salt =>
      if seq_eqb rid [] then (w, Done NoUserID)
      else if (length password <? 8)%nat || negb (password_ok password) then (w, Done InvalidPassword)
      else setPassword rid password salt w
  | RevokeTokens => if seq_eqb rid [] then (w, Done NoUserID) else revoking rid (fun r => r) NotFound w
  end.

(** [MarkEmailVerified]. *)
Definition mark_read (rid : gostring) (w : world) : world * phase :=
  if seq_eqb rid [] then (w, Done NoUserID)
  else match users w !! rid with
       | None => (w, Done NotFound)
       | Some u => if EmailVerified u then (w, Done NoContent) else (w, PMarkWrite rid u)
       end.

Definition mark_write (rid : gostring) (u : User) (w : world) : world * phase :=
  match verifyEmail rid u (fun r => r) ByOperator w with
  | None => (w, Done NotFound)
  | Some w' => (w', Done NoContent)
  end.

(** ** A request's next step *)
Definition advance (e : env) (p : phase) (w : world) : world * phase :=
  match p with
  | PGrant rid u n k => grantAdmin rid u n k e w
  | PGrantRead rid u n k => grant_read rid u n k e w
  | PAuth raw a => authenticate raw a e w
  | PReset raw password salt => resetPassword raw password salt e w
  | Done o => (w, Done o)
  | _ =>
      if fails e then (w, Done Internal) else
      match p with
      | PCreate v email password name salt => createUser v email password name salt e w
      | PLogin email password => login email password e w
      | PSetPassword rid password salt => setPassword rid password salt w
      | PForgot email => forgotPassword email e w
      | PResetWrite rid u raw password salt => reset_write rid u raw password salt w
      | PCode email salt t => code_user email salt t w
      | PCodeSpend email salt t known => code_spend email salt t known e w
      | PCodeCreate email salt t => registerByCode email salt t e w
      | PCodeAgain email salt t => code_again email salt t w
      | PTakeOver rid u salt t => code_takeover rid u salt t w
      | PTakenOver rid t => taken_over rid t w
      | PConfirm rid email => confirm_write rid email w
      | PResolve x salt => resolve x salt w
      | PResolveUser rid x => resolve_user rid x w
      | PResolveByEmail x salt => resolve_by_email x salt w
      | PResolveJoin rid u x salt => resolve_join rid u x salt e w
      | PResolveCreate x salt => resolve_create x salt e w
      | PExchange rid x => exchange rid x e w
      | PLinkStart rid x => link_start rid x w
      | PLink rid x => link_read rid x w
      | PLinkWrite rid u x => link_write rid u x e w
      | PUnlink rid id => unlinkIdentity rid id w
      | PAdmin rid o => admin_write rid o w
      | PMark rid => mark_read rid w
      | PMarkWrite rid u => mark_write rid u w
      | _ => (w, p)
      end
  end.

(** ** Requests together *)

(** The requests that come from outside. *)
Definition initial (p : phase) : Prop :=
  match p with
  | PCreate _ _ _ _ _ | PLogin _ _ | PAuth _ _ | PForgot _ | PReset _ _ _ | PCode _ _ _ | PResolve _ _ | PAdmin _ _ | PMark _ => True
  | _ => False
  end.

(** The key is the server's: a token that parses under it was signed by it. *)
Definition presentable (w : world) (raw : gostring) : Prop :=
  (exists k rid pv e, ESigned k raw rid pv e ∈ trace w) \/ (forall o, jwt_parse o (key (access cfg)) raw = None).

Definition presents (w : world) (p : phase) : Prop :=
  match p with PAuth raw _ | PReset raw _ _ => presentable w raw | _ => True end.

Definition fresh_ids (e : env) (w : world) : Prop := id1 e ∉ ids w /\ id2 e ∉ ids w /\ id1 e <> id2 e /\ id1 e <> [].

Inductive acc_step : world * list phase -> world * list phase -> Prop :=
| as_come w ps p : initial p -> acc_step (w, ps) (w, p :: ps)
| as_advance w ps1 p ps2 e w' p' : presents w p -> fresh_ids e w -> advance e p w = (w', p') ->
    acc_step (w, ps1 ++ p :: ps2) (w', ps1 ++ p' :: ps2).

Definition empty_world : world := World ∅ ∅ ∅ [].

Definition acc_reach (s : world * list phase) : Prop := rtc acc_step (empty_world, []) s.
End accounts.
