(* ===== verification/AccountsInv.v ===== *)
(** The invariant of accounts (Accounts.v), whatever requests run beside each
    other: what the rows, the past and the requests on their way say of each
    other, and that every step keeps it. *)

From Stdlib Require Import ZArith Lia List Ascii.
From stdpp Require Import base decidable list gmap strings relations.
From S2P Require Import Prelude GoStrings GoTime AccountText AuthTokens Accounts.

Section spec.
Context (jwt_sign : gostring -> claims_t -> gostring) (jwt_parse : parser_options -> gostring -> gostring -> option claims_t).
Context (bcrypt : gostring -> gostring -> gostring) (comparePassword : gostring -> gostring -> bool).
Context (plainAddress : gostring -> bool) (cfg : settings).
Context (J : jwt_ok jwt_sign jwt_parse) (Hkey : key (reset cfg) = key (access cfg)).
Context (Hai : issuer (access cfg) = issuerAccess) (Hri : issuer (reset cfg) = issuerReset).

Notation advance := (advance jwt_sign jwt_parse bcrypt comparePassword plainAddress cfg).
Notation acc_step := (acc_step jwt_sign jwt_parse bcrypt comparePassword plainAddress cfg).
Notation acc_reach := (acc_reach jwt_sign jwt_parse bcrypt comparePassword plainAddress cfg).

(** ** The past *)

(** How many times a user's tokens were revoked. *)
Definition revoked_for (rid : gostring) (x : event) : bool := match x with ERevoked r => seq_eqb r rid | _ => false end.
Definition revs (rid : gostring) (tr : list event) : Z := Z.of_nat (length (List.filter (revoked_for rid) tr)).

Lemma revs_app rid a b : revs rid (a ++ b) = revs rid a + revs rid b.
Proof. unfold revs. rewrite List.filter_app, length_app. lia. Qed.

Lemma revs_pos rid tr : 0 <= revs rid tr.
Proof. unfold revs. lia. Qed.

Lemma revs_none rid tr : ERevoked rid ∉ tr -> revs rid tr = 0.
Proof.
  induction tr as [|x tr IH]; [done|]. rewrite not_elem_of_cons. intros [N H]. change (x :: tr) with ([x] ++ tr).
  rewrite revs_app, (IH H). unfold revs. cbn. destruct (revoked_for rid x) eqn:E; [|done]. destruct x; try done.
  cbn in E. apply bool_decide_eq_true in E as ->. done.
Qed.

Lemma revs_one rid r : revs rid [ERevoked r] = if seq_eqb r rid then 1 else 0.
Proof. unfold revs. cbn. by destruct (seq_eqb r rid). Qed.

(** The token [raw] is of kind [k], for [rid], at the version [pv]. *)
Definition minted (k : kind) (raw rid : gostring) (pv : Z) : Prop :=
  exists t cl, raw = (sign jwt_sign (manager cfg k) t rid cl).1 /\ intClaim cl (str "pv") = Some pv.

(** A provider states the address: in so many words, not a relay. *)
Definition vouches (x : extIdentity) (email : gostring) : Prop :=
  EmailIsVerified x = true /\ EmailVerifiedAssumed x = false /\ IsAliasedEmail x = false
  /\ (email = e_Email x \/ email = normalizeEmail (e_Email x)).

(** What of the past makes an event right. *)
Definition justified (t1 : list event) (x : event) : Prop :=
  match x with
  | ESigned k raw rid pv e => pv <= revs rid t1 /\ minted k raw rid pv
  | EPassed k raw rid pv => pv = revs rid t1 /\ exists e, ESigned k raw rid pv e ∈ t1
  | EProven rid email p =>
      match p with
      | ByResetMail raw => EMailed email raw rid ∈ t1
      | ByProvider x => vouches x email
      | ByOperator | ByCodeMail => True
      end
  | _ => True
  end.

Definition trace_ok (tr : list event) : Prop := forall t1 x t2, tr = t1 ++ x :: t2 -> justified t1 x.

Lemma trace_ok_app tr new : trace_ok tr -> (forall t1 x t2, new = t1 ++ x :: t2 -> justified (tr ++ t1) x) -> trace_ok (tr ++ new).
Proof.
  intros H N t1 x t2 E. apply app_eq_app in E as (l & [[E1 E2]|[E1 E2]]).
  - destruct l as [|y l].
    + cbn in E2. rewrite app_nil_r in E1. subst tr. specialize (N [] x t2 (eq_sym E2)). by rewrite app_nil_r in N.
    + injection E2 as <- E2. by apply (H t1 x l).
  - subst. by apply (N l x t2).
Qed.

Lemma trace_ok_snoc tr x : trace_ok tr -> justified tr x -> trace_ok (tr ++ [x]).
Proof.
  intros H Jx. apply trace_ok_app; [done|]. intros t1 y t2 E. destruct t1 as [|z t1]; [|by destruct t1].
  cbn in E. injection E as <- _. by rewrite app_nil_r.
Qed.

Lemma signed_before tr k raw rid pv e : trace_ok tr -> ESigned k raw rid pv e ∈ tr -> pv <= revs rid tr /\ minted k raw rid pv.
Proof.
  intros H (t1 & t2 & E)%list_elem_of_split. destruct (H _ _ _ E) as [L M]. split; [|done].
  rewrite E. rewrite revs_app. pose proof (revs_pos rid (ESigned k raw rid pv e :: t2)). lia.
Qed.

(** A token's text gives its kind, its user and its version. *)
Definition lax (t : Z) : parser_options := Options [str "HS256"] t false false None None.
Definition before_expiry (c : claims_t) : Z := match intClaim c (str "exp") with Some e => e * Second - 1 | None => 0 end.

Lemma lax_accepts t c : t <= before_expiry c -> accepts (lax t) c = true.
Proof.
  unfold accepts, before_expiry. intros L. rewrite (bool_decide_true (_ ∈ _)) by (cbn; set_solver).
  cbn [andb Issuer lax TimeFunc ExpirationRequired CheckIssuedAt negb orb]. rewrite andb_true_r.
  apply andb_true_intro. split; [|by destruct (intClaim c (str "iat"))].
  destruct (intClaim c (str "exp")); [|done]. unfold slack. cbn [Leeway lax]. apply Z.ltb_lt. lia.
Qed.

Lemma sign_inj k c c' : dated c -> dated c' -> jwt_sign k c = jwt_sign k c' -> c = c'.
Proof.
  intros D D' E. pose (t := Z.min (before_expiry c) (before_expiry c')).
  pose proof (J (lax t) k k c D) as P. pose proof (J (lax t) k k c' D') as P'. rewrite E in P. rewrite P in P'.
  rewrite bool_decide_true in P' by done. rewrite !lax_accepts in P' by lia. by injection P'.
Qed.

Lemma manager_key k : key (manager cfg k) = key (access cfg).
Proof. by destruct k. Qed.

Lemma manager_issuer k : issuer (manager cfg k) = match k with Access => issuerAccess | Reset => issuerReset end.
Proof. by destruct k. Qed.

Lemma registered_pv m t rid cl : intClaim (registered m t rid cl) (str "pv") = intClaim cl (str "pv").
Proof. unfold intClaim. rewrite registered_other; [done|]. rewrite !not_elem_of_cons. repeat split; try done. by apply not_elem_of_nil. Qed.

Lemma registered_iss k t rid cl : registered (manager cfg k) t rid cl !! str "iss" = Some (CStr (match k with Access => issuerAccess | Reset => issuerReset end)).
Proof. unfold registered. rewrite manager_issuer. destruct k; cbn; by simplify_map_eq. Qed.

Lemma minted_inj k k' raw rid rid' pv pv' : minted k raw rid pv -> minted k' raw rid' pv' -> k = k' /\ rid = rid' /\ pv = pv'.
Proof.
  intros (t & cl & -> & P) (t' & cl' & E & P'). unfold sign in E. cbn [fst] in E. rewrite !manager_key in E.
  apply sign_inj in E; try apply registered_dated. split_and!.
  - assert (I := registered_iss k t rid cl). rewrite E, registered_iss in I. by destruct k, k'.
  - assert (I := registered_sub (manager cfg k) t rid cl). rewrite E, registered_sub in I. done.
  - assert (I := registered_pv (manager cfg k) t rid cl). rewrite E, registered_pv, P, P' in I. by injection I.
Qed.

(** A token that parses is one that was signed, with what it was signed for. *)
Lemma parsed w k now raw sub c pv : trace_ok (trace w) -> presentable jwt_parse cfg w raw ->
  parse jwt_parse (manager cfg k) now raw = Some (sub, c) -> intClaim c (str "pv") = Some pv ->
  exists e, ESigned k raw sub pv e ∈ trace w.
Proof.
  intros T P E Hpv. unfold parse in E. destruct (jwt_parse _ _ raw) as [c'|] eqn:Ej; [|done].
  destruct P as [(k' & rid & v & e & Hs)|N]; [|by rewrite manager_key, N in Ej].
  destruct (signed_before _ _ _ _ _ _ T Hs) as [_ (t & cl & Er & Ev)].
  rewrite Er in Ej. unfold sign in Ej. cbn [fst] in Ej. rewrite J in Ej by apply registered_dated.
  destruct (bool_decide _); [|done]. cbn [andb] in Ej. destruct (accepts _ _) eqn:A; [|done]. injection Ej as <-.
  destruct (seq_eqb _ []); [done|]. injection E as <- <-. rewrite registered_pv, Ev in Hpv. injection Hpv as <-.
  assert (k = k') as <-.
  { unfold accepts in A. apply andb_true_iff in A as [_ A]. unfold options_of in A. cbn [Issuer] in A.
    destruct (seq_eqb (issuer (manager cfg k)) []) eqn:N; [rewrite manager_issuer in N; by destruct k|].
    apply bool_decide_eq_true in A. rewrite registered_iss, manager_issuer in A. by destruct k, k'. }
  rewrite registered_sub. by exists e.
Qed.

(** ** The invariant *)

(** A row's later self. *)
Definition le_user (u v : User) : Prop :=
  Email u = Email v /\ Version u <= Version v /\ (Version u = Version v -> u = v)
  /\ PasswordVersion u <= PasswordVersion v
  /\ (PasswordVersion u = PasswordVersion v -> PasswordHash u = PasswordHash v /\ HasPassword u = HasPassword v)
  /\ (emailProven u = true -> emailProven v = true).

Lemma le_user_refl u : le_user u u.
Proof. split_and!; try done; lia. Qed.

Lemma le_user_trans u v w : le_user u v -> le_user v w -> le_user u w.
Proof.
  intros (E1 & V1 & S1 & P1 & H1 & A1) (E2 & V2 & S2 & P2 & H2 & A2). split_and!; [congruence|lia| |lia| |tauto].
  - intros E. rewrite S1 by lia. apply S2. lia.
  - intros E. destruct (H1 ltac:(lia)), (H2 ltac:(lia)). split; congruence.
Qed.

(** What a request read of a row is of an earlier self of the row. *)
Definition seen (w : world) (rid : gostring) (u : User) : Prop := exists row, users w !! rid = Some row /\ le_user u row.

Definition grows (w w' : world) : Prop :=
  (exists tr, trace w' = trace w ++ tr) /\ ids w ⊆ ids w' /\ forall rid u, users w !! rid = Some u -> seen w' rid u.

Lemma acc_grows_refl w : grows w w.
Proof. split_and!; [exists []; by rewrite app_nil_r|done|]. intros rid u E. exists u. split; [done|apply le_user_refl]. Qed.

Lemma acc_grows_trans w1 w2 w3 : grows w1 w2 -> grows w2 w3 -> grows w1 w3.
Proof.
  intros ((t1 & T1) & I1 & U1) ((t2 & T2) & I2 & U2). split_and!; [|by etrans|].
  - exists (t1 ++ t2). by rewrite T2, T1, app_assoc.
  - intros rid u E. apply U1 in E as (v & E & L). apply U2 in E as (v' & E & L'). exists v'. split; [done|by eapply le_user_trans].
Qed.

Lemma seen_grows w w' rid u : grows w w' -> seen w rid u -> seen w' rid u.
Proof. intros (_ & _ & G) (row & E & L). apply G in E as (v & E & L'). exists v. split; [done|by eapply le_user_trans]. Qed.

Lemma in_grows w w' x : grows w w' -> x ∈ trace w -> x ∈ trace w'.
Proof. intros ((t & T) & _) H. rewrite T. apply elem_of_app. by left. Qed.

Lemma acc_grows_say x w : grows w (say x w).
Proof. split_and!; [by exists [x]|done|]. intros rid u E. exists u. split; [done|apply le_user_refl]. Qed.

(** The sign-in behind a token: the first of a chain of tokens, each traded
    for the next at the same version. *)
Definition is_root (e : evidence) : Prop := match e with Refreshed _ | Forgot => False | _ => True end.

Inductive rooted (tr : list event) (rid : gostring) (pv : Z) : gostring -> evidence -> Prop :=
| rooted_here raw e : ESigned Access raw rid pv e ∈ tr -> is_root e -> rooted tr rid pv raw e
| rooted_refresh raw raw' e : ESigned Access raw rid pv (Refreshed raw') ∈ tr -> rooted tr rid pv raw' e -> rooted tr rid pv raw e.

Lemma rooted_mono tr tr' rid pv raw e : tr ⊆ tr' -> rooted tr rid pv raw e -> rooted tr' rid pv raw e.
Proof. intros S H. induction H; [eapply rooted_here|eapply rooted_refresh]; eauto. Qed.

(** A sign-in that would still do for the row [u]. *)
Definition holds (u : User) (e : evidence) : Prop :=
  match e with PasswordLogin pw => HasPassword u = true /\ comparePassword (PasswordHash u) pw = true | _ => True end.

Definition ev_good (tr : list event) (rid : gostring) (u : User) (e : evidence) : Prop :=
  match e with
  | Refreshed raw => exists root, rooted tr rid (PasswordVersion u) raw root /\ holds u root
  | Forgot => False
  | _ => holds u e
  end.

Definition unlisted (u : User) : Prop := Email u ∉ admins cfg.

Record world_ok (w : world) : Prop := {
  wo_ids : forall rid u, users w !! rid = Some u -> rid ∈ ids w;
  wo_unique : forall i j u v, users w !! i = Some u -> users w !! j = Some v -> Email u = Email v -> i = j;
  wo_pv : forall rid u, users w !! rid = Some u -> PasswordVersion u = revs rid (trace w);
  wo_trace : trace_ok (trace w);
  wo_known : forall rid, ERevoked rid ∈ trace w -> is_Some (users w !! rid);
  wo_proven : forall rid u, users w !! rid = Some u -> emailProven u = true -> exists p, EProven rid (Email u) p ∈ trace w;
  wo_email : forall email raw rid, EMailed email raw rid ∈ trace w -> exists u, users w !! rid = Some u /\ Email u = email;
  wo_reset : forall raw rid pv e, ESigned Reset raw rid pv e ∈ trace w -> exists email, EMailed email raw rid ∈ trace w;
  wo_admin : forall rid u, users w !! rid = Some u -> adminRole ∈ RoleList (Roles u) ->
    (exists roles, ERolesSet rid roles ∈ trace w /\ adminRole ∈ roles) \/ (Email u ∈ admins cfg /\ emailProven u = true);
  wo_signed : forall raw rid pv e, ESigned Access raw rid pv e ∈ trace w -> exists u, users w !! rid = Some u
    /\ (pv = PasswordVersion u -> unlisted u -> exists root, rooted (trace w) rid pv raw root /\ holds u root);
}.

Definition k_ok (w : world) (rid : gostring) (u : User) (k : after_grant) : Prop :=
  unlisted u -> match k with
                | KIssue _ e => ev_good (trace w) rid u e
                | KSession raw _ _ => ev_good (trace w) rid u (Refreshed raw)
                end.

(** What a provider said that may join or make an account. *)
Definition ext_ok (x : extIdentity) : Prop := EmailIsVerified x = true /\ IsAliasedEmail x = false.

Definition has_email (w : world) (rid email : gostring) : Prop := exists u, users w !! rid = Some u /\ Email u = email.

Definition phase_ok (w : world) (p : phase) : Prop :=
  match p with
  | PGrant rid u _ k => seen w rid u /\ k_ok w rid u k
  | PGrantRead rid u _ k => seen w rid u /\ ~ unlisted u
  | PResetWrite rid u raw _ _ => seen w rid u /\ EMailed (Email u) raw rid ∈ trace w
  | PCodeSpend _ _ _ (Some (rid, u)) | PTakeOver rid u _ _ | PLinkWrite rid u _ | PMarkWrite rid u => seen w rid u
  | PResolveByEmail x _ => ext_ok x /\ EmailVerifiedAssumed x = false
  | PResolveCreate x _ => ext_ok x
  | PResolveJoin rid u x _ => seen w rid u /\ Email u = e_Email x /\ ext_ok x /\ EmailVerifiedAssumed x = false
  | PConfirm rid email => has_email w rid email
  | _ => True
  end.

Lemma ev_good_mono tr tr' rid u e : tr ⊆ tr' -> ev_good tr rid u e -> ev_good tr' rid u e.
Proof. intros S. destruct e; cbn; try done. intros (r & R & H). exists r. split; [by eapply rooted_mono|done]. Qed.

Lemma grows_trace w w' : grows w w' -> trace w ⊆ trace w'.
Proof. intros G x. by apply in_grows. Qed.

Lemma acc_grows_phase w w' p : grows w w' -> phase_ok w p -> phase_ok w' p.
Proof.
  intros G. assert (K : forall rid u k, k_ok w rid u k -> k_ok w' rid u k).
  { intros rid u k H N. specialize (H N). destruct k; (eapply ev_good_mono; [by apply grows_trace|done]). }
  destruct p; cbn; try done; repeat case_match; intros; intuition; eauto using seen_grows, in_grows.
  destruct H as (u & E & <-). destruct G as (_ & _ & G). apply G in E as (v & E & L). exists v. split; [done|]. symmetry. apply L.
Qed.

Lemma holds_le u v e : le_user u v -> PasswordVersion u = PasswordVersion v -> holds u e -> holds v e.
Proof. intros (_ & _ & _ & _ & P & _) E. destruct (P E) as [Eh Eg]. unfold holds. destruct e; try done. by rewrite Eh, Eg. Qed.

(** A request's sign-in still does for the row where the version is the same. *)
Lemma k_root tr rid u e : ev_good tr rid u e -> match e with Refreshed raw => exists root, rooted tr rid (PasswordVersion u) raw root /\ holds u root
  | _ => is_root e /\ holds u e end.
Proof. by destruct e. Qed.

(** ** What keeps the invariant *)

(** The rows of [w'], of those of [w] and what [new] says of them. *)
Definition row_ok (w w' : world) (new : list event) (rid : gostring) (u' : User) : Prop :=
  rid ∈ ids w' /\ PasswordVersion u' = (match users w !! rid with Some u => PasswordVersion u | None => 0 end) + revs rid new
  /\ (emailProven u' = true -> (exists u, users w !! rid = Some u /\ emailProven u = true) \/ exists p, EProven rid (Email u') p ∈ new)
  /\ (adminRole ∈ RoleList (Roles u') -> (exists u, users w !! rid = Some u /\ adminRole ∈ RoleList (Roles u))
       \/ (exists roles, ERolesSet rid roles ∈ new /\ adminRole ∈ roles) \/ (Email u' ∈ admins cfg /\ emailProven u' = true)).

Definition unsigned (w' : world) (x : event) : Prop :=
  match x with ESigned _ _ _ _ _ | EMailed _ _ _ => False | ERevoked rid => is_Some (users w' !! rid) | _ => True end.

Lemma signed_row w raw rid pv e u : world_ok w -> ESigned Access raw rid pv e ∈ trace w -> users w !! rid = Some u -> pv <= PasswordVersion u.
Proof. intros W H E. rewrite (wo_pv _ W rid u E). by apply (signed_before _ _ _ _ _ _ (wo_trace _ W) H). Qed.

Lemma ok_evolve w w' new : world_ok w -> trace w' = trace w ++ new -> trace_ok (trace w') -> ids w ⊆ ids w' ->
  (forall rid u, users w !! rid = Some u -> seen w' rid u) ->
  (forall rid u', users w' !! rid = Some u' -> row_ok w w' new rid u') ->
  (forall i j u v, users w' !! i = Some u -> users w' !! j = Some v -> Email u = Email v -> i = j) ->
  Forall (unsigned w') new -> world_ok w' /\ grows w w'.
Proof.
  intros W T Tok I S R U N. assert (G : grows w w') by (split_and!; [by exists new|done|done]). split; [|done].
  rewrite Forall_forall in N. assert (O : forall x, x ∈ trace w' -> ~ unsigned w' x -> x ∈ trace w).
  { intros x H Hx. rewrite T in H. apply elem_of_app in H as [H|H]; [done|]. by apply N in H. }
  constructor.
  - intros rid u E. by apply R in E as (? & _).
  - done.
  - intros rid u E. pose proof (R _ _ E) as (_ & P & _). rewrite T, revs_app, P. destruct (users w !! rid) as [u0|] eqn:E0.
    + by rewrite (wo_pv _ W _ _ E0).
    + rewrite (revs_none rid (trace w)); [lia|]. intros H. apply (wo_known _ W) in H as [? H]. congruence.
  - done.
  - intros rid H. rewrite T in H. apply elem_of_app in H as [H|H]; [|by apply N in H].
    apply (wo_known _ W) in H as [u E]. apply S in E as (v & E & _). by exists v.
  - intros rid u E Pr. pose proof (R _ _ E) as (_ & _ & P & _). rewrite T. destruct (P Pr) as [(u0 & E0 & Pr0)|(p & H)].
    + destruct (wo_proven _ W _ _ E0 Pr0) as (p & H). apply S in E0 as (v & Ev & L). assert (v = u) as -> by congruence.
      exists p. apply elem_of_app. left. destruct L as (<- & _). done.
    + exists p. apply elem_of_app. by right.
  - intros email raw rid H. apply O in H; [|by intros []]. apply (wo_email _ W) in H as (u & E & <-).
    apply S in E as (v & Ev & L). exists v. split; [done|]. symmetry. apply L.
  - intros raw rid pv e H. apply O in H; [|by intros []]. apply (wo_reset _ W) in H as (email & H). exists email. by apply (in_grows _ _ _ G).
  - intros rid u E A. pose proof (R _ _ E) as (_ & _ & _ & P). rewrite T. destruct (P A) as [(u0 & E0 & A0)|[(roles & H & Hr)|H]].
    + apply S in E0 as Hs. destruct Hs as (v & Ev & L). assert (v = u) as -> by congruence. destruct (wo_admin _ W _ _ E0 A0) as [(roles & H & Hr)|[H1 H2]].
      * left. exists roles. split; [|done]. apply elem_of_app. by left.
      * right. destruct L as (<- & _ & _ & _ & _ & L). auto.
    + left. exists roles. split; [|done]. apply elem_of_app. by right.
    + by right.
  - intros raw rid pv e H. apply O in H; [|by intros []]. destruct (wo_signed _ W _ _ _ _ H) as (u & E & C).
    apply S in E as Hs. destruct Hs as (v & Ev & L). exists v. split; [done|]. intros Pv Un.
    pose proof (signed_row _ _ _ _ _ _ W H E) as Le. assert (Eq : PasswordVersion u = PasswordVersion v) by (destruct L as (_ & _ & _ & L & _); lia).
    destruct C as (root & Hr & Ho); [lia| |].
    { unfold unlisted in *. by rewrite (proj1 L). }
    exists root. split; [eapply rooted_mono; [by apply grows_trace|done]|by eapply holds_le].
Qed.

(** A row changes, and [new] says so. *)
Lemma ok_write w rid row r L new : world_ok w -> users w !! rid = Some row -> trace_ok (trace w ++ new) ->
  Email r = Email row -> Version r = Version row + 1 -> PasswordVersion r = PasswordVersion row + revs rid new ->
  (forall rid', rid' <> rid -> revs rid' new = 0) ->
  (revs rid new = 0 -> PasswordHash r = PasswordHash row /\ HasPassword r = HasPassword row) ->
  (emailProven row = true -> emailProven r = true) ->
  (emailProven r = true -> emailProven row = true \/ exists p, EProven rid (Email row) p ∈ new) ->
  (adminRole ∈ RoleList (Roles r) -> adminRole ∈ RoleList (Roles row) \/ (exists roles, ERolesSet rid roles ∈ new /\ adminRole ∈ roles)
     \/ (Email row ∈ admins cfg /\ emailProven r = true)) ->
  (forall I, ids w ⊆ I -> Forall (fun x => match x with ESigned _ _ _ _ _ | EMailed _ _ _ => False | ERevoked i => i = rid | _ => True end) new ->
   let w' := World (<[rid := r]> (users w)) L I (trace w ++ new) in world_ok w' /\ grows w w').
Proof.
  intros W E T Em V Pv Oth Hh Pm Pr Ad I HI N. cbn zeta. apply (ok_evolve w _ new); cbn [trace ids users]; try done.
  - intros i u Hi. destruct (decide (i = rid)) as [->|Ne].
    + exists r. split; [apply lookup_insert_eq|]. assert (u = row) as -> by congruence. pose proof (revs_pos rid new).
      split_and!; [done|lia|lia|lia| |done]. intros Eq. destruct Hh; [lia|]. done.
    + exists u. split; [cbn; by rewrite lookup_insert_ne|apply le_user_refl].
  - intros i u Hi. destruct (decide (i = rid)) as [->|Ne].
    + rewrite lookup_insert_eq in Hi. injection Hi as <-. split_and!; [by eapply HI, wo_ids|by rewrite E| |].
      * intros H. rewrite Em. destruct (Pr H); eauto.
      * intros H. rewrite Em. destruct (Ad H) as [?|[?|?]]; eauto.
    + rewrite lookup_insert_ne in Hi by done. split_and!; [by eapply HI, wo_ids|rewrite Hi, (Oth i Ne); lia|eauto|eauto].
  - intros i j u v Hi Hj Eq. apply (wo_unique _ W) with (u := if decide (i = rid) then row else u) (v := if decide (j = rid) then row else v).
    + destruct (decide (i = rid)) as [->|]; [done|by rewrite lookup_insert_ne in Hi].
    + destruct (decide (j = rid)) as [->|]; [done|by rewrite lookup_insert_ne in Hj].
    + destruct (decide (i = rid)) as [->|]; [rewrite lookup_insert_eq in Hi; injection Hi as <-|];
        (destruct (decide (j = rid)) as [->|]; [rewrite lookup_insert_eq in Hj; injection Hj as <-|]); congruence.
  - eapply Forall_impl; [exact N|]. intros [] H; cbn in *; try done. subst. rewrite lookup_insert_eq. eauto.
Qed.

(** A row is made under an id nobody has. *)
Lemma ok_create w id u L new I : world_ok w -> id ∉ ids w -> user_by_email (Email u) w = None -> trace_ok (trace w ++ new) ->
  PasswordVersion u = 0 -> (emailProven u = true -> exists p, EProven id (Email u) p ∈ new) -> Roles u = [] -> {[id]} ∪ ids w ⊆ I ->
  Forall (fun x => match x with EProven _ _ _ | ELinked _ _ _ => True | _ => False end) new ->
  let w' := World (<[id := u]> (users w)) L I (trace w ++ new) in world_ok w' /\ grows w w'.
Proof.
  intros W Fr Em T Pv Pr Ro HI N. cbn zeta.
  assert (Nu : users w !! id = None) by (destruct (users w !! id) eqn:E; [by apply (wo_ids _ W) in E|done]).
  assert (R0 : forall rid, revs rid new = 0).
  { intros rid. apply revs_none. intros H. rewrite Forall_forall in N. by apply N in H. }
  assert (Ne : forall i v, users w !! i = Some v -> Email v <> Email u).
  { intros i v Hi Eq. unfold user_by_email in Em. destruct (List.filter _ _) eqn:F; [|done].
    assert (H : (i, v) ∈ List.filter (fun p : gostring * User => seq_eqb (Email p.2) (Email u)) (map_to_list (users w))).
    { apply list_elem_of_In, filter_In. split; [by apply list_elem_of_In, elem_of_map_to_list|by apply bool_decide_eq_true]. }
    rewrite F in H. by apply elem_of_nil in H. }
  apply (ok_evolve w _ new); cbn [trace ids users]; try done.
  - set_solver.
  - intros i v Hi. exists v. split; [|apply le_user_refl]. cbn. rewrite lookup_insert_ne; [done|congruence].
  - intros i v Hi. destruct (decide (i = id)) as [->|].
    + rewrite lookup_insert_eq in Hi. injection Hi as <-. split_and!; [cbn; set_solver|by rewrite Nu, R0|by right; auto|].
      rewrite Ro. intros H. by apply elem_of_nil in H.
    + rewrite lookup_insert_ne in Hi by done. split_and!; [cbn; pose proof (wo_ids _ W _ _ Hi); set_solver|rewrite Hi, R0; lia|eauto|eauto].
  - intros i j a b Hi Hj Eq. destruct (decide (i = id)) as [->|]; destruct (decide (j = id)) as [->|]; [done| | |].
    + rewrite lookup_insert_eq in Hi. rewrite lookup_insert_ne in Hj by done. injection Hi as <-. by apply Ne in Hj.
    + rewrite lookup_insert_eq in Hj. rewrite lookup_insert_ne in Hi by done. injection Hj as <-. by apply Ne in Hi.
    + rewrite lookup_insert_ne in Hi, Hj by done. by eapply (wo_unique _ W).
  - eapply Forall_impl; [exact N|]. by intros [].
Qed.

(** Events that speak of no row. *)
Lemma ok_links w L I new : world_ok w -> ids w ⊆ I -> trace_ok (trace w ++ new) ->
  Forall (fun x => match x with ELinked _ _ _ | EPassed _ _ _ _ => True | _ => False end) new ->
  let w' := World (users w) L I (trace w ++ new) in world_ok w' /\ grows w w'.
Proof.
  intros W HI T N. cbn zeta. assert (R0 : forall rid, revs rid new = 0).
  { intros rid. apply revs_none. intros H. rewrite Forall_forall in N. by apply N in H. }
  apply (ok_evolve w _ new); cbn [trace ids users]; try done.
  - intros i v Hi. exists v. split; [done|apply le_user_refl].
  - intros i v Hi. split_and!; [by eapply HI, wo_ids|rewrite Hi, R0; lia|eauto|eauto].
  - intros. by eapply (wo_unique _ W).
  - eapply Forall_impl; [exact N|]. by intros [].
Qed.

(** A token is signed for a row read before. *)
Lemma ok_signed w k t rid cl u e : world_ok w -> seen w rid u -> intClaim cl (str "pv") = Some (PasswordVersion u) ->
  (k = Access -> unlisted u -> ev_good (trace w) rid u e) ->
  let raw := (sign jwt_sign (manager cfg k) t rid cl).1 in
  let w' := say (ESigned k raw rid (PasswordVersion u) e) w in
  let w2 := match k with Access => w' | Reset => say (EMailed (Email u) raw rid) w' end in
  world_ok w2 /\ grows w w2.
Proof.
  intros W (row & E & L) Hpv Ev. cbn zeta. set (raw := (sign _ _ _ _ _).1). set (x := ESigned _ _ _ _ _).
  assert (T : trace_ok (trace w ++ [x])).
  { apply trace_ok_snoc; [by apply (wo_trace _ W)|]. split; [|by exists t, cl]. rewrite <- (wo_pv _ W _ _ E). apply L. }
  set (w2 := match k with Access => _ | Reset => _ end).
  assert (exists new, trace w2 = trace w ++ x :: new /\ users w2 = users w /\ ids w2 = ids w
    /\ match k with Access => new = [] | Reset => new = [EMailed (Email u) raw rid] end) as (new & Tr & Us & Is & Nw).
  { destruct k; [exists []|exists [EMailed (Email u) raw rid]]; split_and!; try done. subst w2. cbn. by rewrite <- app_assoc. }
  assert (G : grows w w2).
  { split_and!; [by eexists|by rewrite Is|]. intros i v Hi. exists v. rewrite Us. split; [done|apply le_user_refl]. }
  split; [|done].
  assert (O : forall y, y ∈ trace w2 -> y ∈ trace w \/ y = x \/ (k = Reset /\ y = EMailed (Email u) raw rid)).
  { intros y. rewrite Tr, elem_of_app, elem_of_cons. destruct k; subst new; set_solver. }
  constructor; rewrite ?Us, ?Is; try apply W.
  - intros i v Hi. rewrite Tr, revs_app, (wo_pv _ W _ _ Hi). assert (revs i (x :: new) = 0) as ->; [|lia].
    apply revs_none. destruct k; subst new; set_solver.
  - destruct k; subst new; rewrite Tr; [done|]. change (x :: ?l) with ([x] ++ l). rewrite app_assoc. by apply trace_ok_snoc.
  - intros i H. apply O in H as [H|[H|[_ H]]]; [by apply (wo_known _ W)|done|done].
  - intros i v Hi Pr. destruct (wo_proven _ W _ _ Hi Pr) as (p & H). exists p. rewrite Tr. apply elem_of_app. by left.
  - intros em r i H. apply O in H as [H|[H|[_ H]]]; [by eapply (wo_email _ W)|done|]. injection H as -> -> ->. exists row. split; [done|]. symmetry. apply L.
  - intros r i pv ev H. apply O in H as [H|[H|[_ H]]]; [|injection H as <- -> -> -> ->|done].
    + apply (wo_reset _ W) in H as (em & H). exists em. rewrite Tr. apply elem_of_app. by left.
    + exists (Email u). rewrite Tr, Nw. set_solver.
  - intros i v Hi A. destruct (wo_admin _ W _ _ Hi A) as [(roles & H & Hr)|H]; [left|by right]. exists roles. split; [|done].
    rewrite Tr. apply elem_of_app. by left.
  - intros r i pv ev H. apply O in H as [H|[H|[_ H]]]; [|injection H as <- -> -> -> ->|done].
    + destruct (wo_signed _ W _ _ _ _ H) as (v & Hv & C). exists v. split; [done|]. intros P N. destruct (C P N) as (root & Hr & Ho).
      exists root. split; [|done]. eapply rooted_mono; [by apply (grows_trace _ _ G)|done].
    + exists row. split; [done|]. intros P N. assert (Nu : unlisted u) by (unfold unlisted; by rewrite (proj1 L)).
      specialize (Ev eq_refl Nu). assert (Hx : x ∈ trace w2) by (rewrite Tr; set_solver).
      destruct e as [| |r'| | |]; try done; try (eexists; split; [by eapply rooted_here|]; by eapply holds_le).
      destruct Ev as (root & Hr & Ho). exists root. split; [|by eapply holds_le].
      eapply rooted_refresh; [exact Hx|]. eapply rooted_mono; [by apply (grows_trace _ _ G)|done].
Qed.

(** ** The steps *)

Definition next_row (f : User -> User) (row : User) : User := at_version (Version row + 1) (f row).

Lemma update_user_some rid f w w1 : update_user rid f w = Some w1 ->
  exists row, users w !! rid = Some row /\ w1 = with_users (<[rid := next_row f row]> (users w)) w.
Proof. unfold update_user. destruct (users w !! rid) as [row|]; [|done]. intros [= <-]. by exists row. Qed.

Lemma trace_ok_plain tr new : trace_ok tr ->
  Forall (fun x => match x with ERevoked _ | ERolesSet _ _ | EGranted _ | ELinked _ _ _ => True | EProven _ e p => match p with ByOperator | ByCodeMail => True | ByProvider x => vouches x e | ByResetMail _ => False end | _ => False end) new ->
  trace_ok (tr ++ new).
Proof.
  intros T N. apply trace_ok_app; [done|]. intros t1 x t2 ->. apply Forall_app in N as [_ N]. apply Forall_cons in N as [N _].
  destruct x; try done. by destruct p.
Qed.

(** A write that revokes the tokens. *)
Lemma revoking_ok w rid f row more : world_ok w -> users w !! rid = Some row ->
  (forall r, Email (f r) = Email r /\ PasswordVersion (f r) = PasswordVersion r /\ EmailVerified (f r) = EmailVerified r /\ EmailAssumed (f r) = EmailAssumed r) ->
  (more = [] /\ (forall r, Roles (f r) = Roles r)) \/ (exists roles, more = [ERolesSet rid roles] /\ checkRoles roles = Ok tt /\ forall r, Roles (f r) = roles_csv roles) ->
  let w' := World (<[rid := next_row (fun r => bump (f r)) row]> (users w)) (links w) (ids w) (trace w ++ ERevoked rid :: more) in
  world_ok w' /\ grows w w'.
Proof.
  intros W E F M. destruct (F row) as (F1 & F2 & F3 & F4). assert (N : Forall (fun x => match x with ESigned _ _ _ _ _ | EMailed _ _ _ => False | ERevoked i => i = rid | _ => True end) (ERevoked rid :: more)).
  { constructor; [done|]. destruct M as [[-> _]|(roles & -> & _)]; repeat constructor. }
  assert (R1 : revs rid (ERevoked rid :: more) = 1 /\ forall i, i <> rid -> revs i (ERevoked rid :: more) = 0).
  { destruct M as [[-> _]|(roles & -> & _)]; unfold revs; cbn; unfold seq_eqb; (split; [by rewrite bool_decide_true|intros i Hi; by rewrite bool_decide_false]). }
  assert (Pe : forall v, emailProven (at_version v (bump (f row))) = emailProven row) by (intros v; unfold emailProven; cbn; by rewrite F3, F4).
  apply ok_write with (row := row); try done.
  - apply trace_ok_plain; [by apply (wo_trace _ W)|]. constructor; [done|]. destruct M as [[-> _]|(roles & -> & _)]; repeat constructor.
  - cbn. rewrite F2. lia.
  - apply R1.
  - lia.
  - unfold next_row. by rewrite Pe.
  - unfold next_row. rewrite Pe. by left.
  - unfold next_row. rewrite Pe. cbn. destruct M as [[-> M]|(roles & -> & C & M)]; rewrite M; [by left|].
    intros H. right. left. exists roles. split; [set_solver|]. by rewrite (proj1 (roles_roundtrip roles C)) in H.
Qed.

(** [verifyEmail], and the revocation its columns may make. *)
Lemma verify_ok w rid u f p (rev : bool) w1 : world_ok w -> seen w rid u -> verifyEmail rid u f p w = Some w1 ->
  (forall r, Email (f r) = Email r /\ PasswordVersion (f r) = PasswordVersion r + (if rev then 1 else 0) /\ Roles (f r) = Roles r
     /\ (rev = false -> PasswordHash (f r) = PasswordHash r /\ HasPassword (f r) = HasPassword r)) ->
  justified (trace w) (EProven rid (Email u) p) ->
  let w' := if rev then say (ERevoked rid) w1 else w1 in world_ok w' /\ grows w w'.
Proof.
  intros W (row0 & E0 & L) E F Jp. cbn zeta. unfold verifyEmail in E. destruct (update_user _ _ _) as [w0|] eqn:Eu; [|done].
  apply update_user_some in Eu as (row & Er & ->). assert (row0 = row) as -> by congruence. injection E as <-.
  destruct (F row) as (F1 & F2 & F3 & F4). set (new := EProven rid (Email u) p :: (if rev then [ERevoked rid] else [])).
  assert (Ew : exists Lk, (if rev then say (ERevoked rid) (say (EProven rid (Email u) p) (if emailProven u then with_users (<[rid:=next_row (fun r => set_proven true (f r)) row]> (users w)) w
     else drop_links rid (with_users (<[rid:=next_row (fun r => set_proven true (f r)) row]> (users w)) w)))
     else say (EProven rid (Email u) p) (if emailProven u then with_users (<[rid:=next_row (fun r => set_proven true (f r)) row]> (users w)) w
     else drop_links rid (with_users (<[rid:=next_row (fun r => set_proven true (f r)) row]> (users w)) w)))
     = World (<[rid := next_row (fun r => set_proven true (f r)) row]> (users w)) Lk (ids w) (trace w ++ new)).
  { subst new. unfold say. destruct rev, (emailProven u); cbn; rewrite <- ?app_assoc; by eexists. }
  destruct Ew as (Lk & ->). assert (R1 : forall i, revs i new = if rev && seq_eqb rid i then 1 else 0).
  { intros i. subst new. unfold revs. destruct rev; cbn; [by destruct (seq_eqb rid i)|done]. }
  apply ok_write with (row := row); try done.
  - subst new. change (?x :: ?l) with ([x] ++ l). rewrite app_assoc.
    assert (T1 : trace_ok (trace w ++ [EProven rid (Email u) p])) by (apply trace_ok_snoc; [by apply (wo_trace _ W)|done]).
    destruct rev; [by apply trace_ok_snoc|by rewrite app_nil_r].
  - rewrite R1. cbn. rewrite F2. unfold seq_eqb. rewrite bool_decide_true by done. by rewrite andb_true_r.
  - intros i Hi. rewrite R1. unfold seq_eqb. rewrite bool_decide_false by done. by rewrite andb_false_r.
  - rewrite R1. unfold seq_eqb. rewrite bool_decide_true by done. rewrite andb_true_r. destruct rev; [lia|]. cbn. auto.
  - intros _. right. exists p. subst new. rewrite <- (proj1 L). set_solver.
  - cbn. rewrite F3. by left.
  - subst new. constructor; [done|]. destruct rev; repeat constructor.
Qed.

(** A request goes on as [finish] says. *)
Lemma acc_finish_ok w rid u k e w' p' : world_ok w -> seen w rid u -> k_ok w rid u k ->
  finish jwt_sign comparePassword cfg rid u k e w = (w', p') -> world_ok w' /\ grows w w' /\ phase_ok w' p'.
Proof.
  intros W S K E. destruct k as [start ev|raw start a]; cbn in E.
  - injection E as <- <-. destruct (ok_signed w Access (now e) rid (access_claims u start) u ev W S) as [W1 G1].
    + unfold access_claims, intClaim. destruct (RoleList _); by simplify_map_eq.
    + intros _. apply K.
    + by split_and!.
  - injection E as <- <-. split_and!; [done|apply acc_grows_refl|]. destruct S as (row & Er & L). destruct a; cbn; unfold refreshToken, changePassword; repeat case_match; try done.
    + split; [by exists row|]. exact K.
    + exists row. split; [done|]. symmetry. apply L.
Qed.

Lemma grant_ok w rid u n k e w' p' : world_ok w -> seen w rid u -> k_ok w rid u k ->
  grantAdmin jwt_sign comparePassword cfg rid u n k e w = (w', p') -> world_ok w' /\ grows w w' /\ phase_ok w' p'.
Proof.
  intros W S K E. unfold grantAdmin in E. destruct (_ || _) eqn:C; [by eapply acc_finish_ok|].
  rewrite !orb_false_iff in C. destruct C as [[[C1 _] C2] _]. apply negb_false_iff in C1, C2.
  unfold wants_grant in C1. rewrite !andb_true_iff in C1. destruct C1 as [[[_ P] A] _]. apply bool_decide_eq_true in A.
  destruct (users w !! rid) as [row|] eqn:Er; [|by eapply acc_finish_ok]. destruct (Z.eqb_spec (Version row) (Version u)) as [Ev|].
  2: { injection E as <- <-. split_and!; [done|apply acc_grows_refl|]. split; [done|]. intros N. by apply N. }
  destruct S as (row' & Er' & L). assert (row' = row) as -> by congruence.
  assert (u = row) as -> by (destruct L as (_ & _ & L & _); by apply L).
  set (after := RoleList (Roles row) ++ [adminRole]) in *. destruct (update_user _ _ _) as [w1|] eqn:Eu; [|by eapply acc_finish_ok; [done|exists row; split; [done|apply le_user_refl]|..]].
  apply update_user_some in Eu as (row1 & Er1 & ->). assert (row1 = row) as -> by congruence.
  destruct (ok_write w rid row (next_row (set_roles (roles_csv after)) row) (links w) [EGranted rid] W Er) with (I := ids w) as [W1 G1]; try done.
  - apply trace_ok_plain; [by apply (wo_trace _ W)|]. by repeat constructor.
  - cbn. unfold revs. cbn. lia.
  - by left.
  - right. right. split; [done|]. exact P.
  - repeat constructor.
  - assert (S1 : seen (World (<[rid := next_row (set_roles (roles_csv after)) row]> (users w)) (links w) (ids w) (trace w ++ [EGranted rid])) rid
                   (next_row (set_roles (roles_csv after)) row)) by (eexists; split; [apply lookup_insert_eq|apply le_user_refl]).
    destruct (acc_finish_ok _ rid _ k e w' p' W1 S1) with (2 := E) as (W2 & G2 & P2).
    + intros Un. exfalso. by apply Un.
    + split_and!; [done|by eapply acc_grows_trans|done].
Qed.

Definition goes (w w' : world) (p' : phase) : Prop := world_ok w' /\ grows w w' /\ phase_ok w' p'.

Lemma goes_still w p' : world_ok w -> phase_ok w p' -> goes w w p'.
Proof. intros. split_and!; [done|apply acc_grows_refl|done]. Qed.

Lemma by_email w email rid u : user_by_email email w = Some (rid, u) -> users w !! rid = Some u /\ Email u = email.
Proof.
  unfold user_by_email. intros H. assert (Hin : (rid, u) ∈ List.filter (fun p : gostring * User => seq_eqb (Email p.2) email) (map_to_list (users w))).
  { destruct (List.filter _ _); [done|]. injection H as ->. by left. }
  apply list_elem_of_In, filter_In in Hin as [H1 H2]. split; [by apply elem_of_map_to_list, list_elem_of_In|by apply bool_decide_eq_true in H2].
Qed.

Lemma seen_now w rid u : users w !! rid = Some u -> seen w rid u.
Proof. intros E. exists u. split; [done|apply le_user_refl]. Qed.

Lemma issue_k w rid u start e : (holds u e /\ is_root e) -> k_ok w rid u (KIssue start e).
Proof. intros [H R] _. by destruct e. Qed.

Lemma createUser_goes v email password name salt e w w' p' : world_ok w -> fresh_ids e w ->
  createUser bcrypt plainAddress v email password name salt e w = (w', p') -> goes w w' p'.
Proof.
  intros W (F & _) E. unfold createUser in E. destruct (negb (plainAddress _)); [injection E as <- <-; by apply goes_still|].
  destruct (_ || _); [injection E as <- <-; by apply goes_still|]. unfold create_user in E. cbn [Email] in E.
  destruct (user_by_email _ w) eqn:Em; [injection E as <- <-; by apply goes_still|].
  set (u := MkUser _ _ _ _ _ _ _ _ _ _) in *. destruct v.
  - injection E as <- <-.
    destruct (ok_create w (id1 e) u (links w) [EProven (id1 e) (normalizeEmail email) ByOperator] ({[id1 e]} ∪ ids w)) as [W1 G1]; try done.
    + apply trace_ok_plain; [by apply (wo_trace _ W)|by repeat constructor].
    + intros _. exists ByOperator. by left.
    + by repeat constructor.
  - injection E as <- <-. destruct (ok_create w (id1 e) u (links w) [] ({[id1 e]} ∪ ids w)) as [W1 G1]; try done.
    + rewrite app_nil_r. apply (wo_trace _ W).
    + rewrite app_nil_r in W1, G1. split_and!; [done|done|]. split; [apply seen_now, lookup_insert_eq|by apply issue_k].
Qed.

Lemma login_goes email password e w w' p' : world_ok w -> login comparePassword email password e w = (w', p') -> goes w w' p'.
Proof.
  intros W E. unfold login in E. destruct (user_by_email _ w) as [[rid u]|] eqn:Em; [|injection E as <- <-; by apply goes_still].
  apply by_email in Em as [Er _]. destruct (negb (Active u)); [injection E as <- <-; by apply goes_still|].
  destruct (HasPassword u) eqn:Hp; [|injection E as <- <-; by apply goes_still].
  destruct (comparePassword _ _) eqn:Hc; injection E as <- <-; apply goes_still; try done.
  split; [by apply seen_now|by apply issue_k].
Qed.

Lemma authenticate_goes raw a e w w' p' : world_ok w -> presentable jwt_parse cfg w raw ->
  authenticate jwt_parse cfg raw a e w = (w', p') -> goes w w' p'.
Proof.
  intros W P E. unfold authenticate in E. destruct (parse _ _ _ _) as [[sub c]|] eqn:Ep; [|injection E as <- <-; by apply goes_still].
  destruct (fails e); [injection E as <- <-; by apply goes_still|]. destruct (users w !! sub) as [u|] eqn:Eu; [|injection E as <- <-; by apply goes_still].
  destruct (negb (Active u)); [injection E as <- <-; by apply goes_still|]. destruct (intClaim c (str "pv")) as [pv|] eqn:Epv; [|injection E as <- <-; by apply goes_still].
  destruct (Z.eqb_spec pv (PasswordVersion u)) as [->|]; injection E as <- <-; [|by apply goes_still].
  destruct (parsed w Access (now e) raw sub c _ (wo_trace _ W) P Ep Epv) as (ev & Hs).
  destruct (ok_links w (links w) (ids w) [EPassed Access raw sub (PasswordVersion u)] W) as [W1 G1]; try done.
  { apply trace_ok_snoc; [by apply (wo_trace _ W)|]. split; [by apply (wo_pv _ W)|by exists ev]. }
  { by repeat constructor. }
  split_and!; [done|done|]. split; [by apply seen_now|]. intros N. destruct (wo_signed _ W _ _ _ _ Hs) as (v & Ev & C).
  assert (v = u) as -> by congruence. destruct (C eq_refl N) as (root & Hr & Ho). exists root. split; [|done].
  eapply rooted_mono; [|exact Hr]. by apply (grows_trace _ _ G1).
Qed.

Lemma revoking_goes rid f o w w' p' : world_ok w ->
  (forall r, Email (f r) = Email r /\ PasswordVersion (f r) = PasswordVersion r /\ EmailVerified (f r) = EmailVerified r /\ EmailAssumed (f r) = EmailAssumed r /\ Roles (f r) = Roles r) ->
  revoking rid f o w = (w', p') -> goes w w' p'.
Proof.
  intros W F E. unfold revoking in E. destruct (update_user _ _ _) as [w1|] eqn:Eu; [|injection E as <- <-; by apply goes_still].
  apply update_user_some in Eu as (row & Er & ->). injection E as <- <-.
  destruct (revoking_ok w rid f row [] W Er) as [W1 G1]; [intros r; destruct (F r); tauto|left; split; [done|intros r; apply F]|].
  by split_and!.
Qed.

Lemma forgot_goes email e w w' p' : world_ok w -> forgotPassword jwt_sign cfg email e w = (w', p') -> goes w w' p'.
Proof.
  intros W E. unfold forgotPassword in E. destruct (user_by_email _ w) as [[rid u]|] eqn:Em; [|injection E as <- <-; by apply goes_still].
  apply by_email in Em as [Er _]. destruct (Active u); injection E as <- <-; [|by apply goes_still].
  destruct (ok_signed w Reset (now e) rid (reset_claims u) u Forgot W (seen_now _ _ _ Er)) as [W1 G1]; [by unfold reset_claims, intClaim; simplify_map_eq|done|].
  by split_and!.
Qed.

Lemma reset_goes raw password salt e w w' p' : world_ok w -> presentable jwt_parse cfg w raw ->
  resetPassword jwt_parse cfg raw password salt e w = (w', p') -> goes w w' p'.
Proof.
  intros W P E. unfold resetPassword in E. destruct (parse _ _ _ _) as [[sub c]|] eqn:Ep; [|injection E as <- <-; by apply goes_still].
  destruct (negb _); [injection E as <- <-; by apply goes_still|].
  destruct (fails e); [injection E as <- <-; by apply goes_still|]. destruct (users w !! sub) as [u|] eqn:Eu; [|injection E as <- <-; by apply goes_still].
  destruct (intClaim c (str "pv")) as [pv|] eqn:Epv; [|injection E as <- <-; by apply goes_still].
  destruct (_ && _) eqn:C; [|injection E as <- <-; by apply goes_still].
  apply andb_true_iff in C as [_ C]. apply Z.eqb_eq in C as ->.
  destruct (password_ok password); injection E as <- <-; [|by apply goes_still].
  destruct (parsed w Reset (now e) raw sub c _ (wo_trace _ W) P Ep Epv) as (ev & Hs).
  destruct (ok_links w (links w) (ids w) [EPassed Reset raw sub (PasswordVersion u)] W) as [W1 G1]; try done.
  { apply trace_ok_snoc; [by apply (wo_trace _ W)|]. split; [by apply (wo_pv _ W)|by exists ev]. }
  { by repeat constructor. }
  split_and!; [done|done|]. split; [by apply seen_now|]. destruct (wo_reset _ W _ _ _ _ Hs) as (em & Hm).
  destruct (wo_email _ W _ _ _ Hm) as (v & Ev & <-). assert (v = u) as -> by congruence. by apply (in_grows _ _ _ G1).
Qed.

Lemma reset_write_goes rid u raw password salt w w' p' : world_ok w -> seen w rid u -> EMailed (Email u) raw rid ∈ trace w ->
  reset_write bcrypt rid u raw password salt w = (w', p') -> goes w w' p'.
Proof.
  intros W S H E. unfold reset_write in E. destruct (verifyEmail _ _ _ _ _) as [w1|] eqn:Ev; [|injection E as <- <-; by apply goes_still].
  injection E as <- <-. destruct (verify_ok _ _ _ _ _ true w1 W S Ev) as [W1 G1]; [by intros r; split_and!|done|]. by split_and!.
Qed.

Lemma code_known_ok w rid u salt t : seen w rid u -> phase_ok w (code_known rid u salt t).
Proof. intros S. unfold code_known. destruct (emailProven u); [|done]. split; [done|by apply issue_k]. Qed.

Lemma registerByCode_goes email salt t e w w' p' : world_ok w -> fresh_ids e w ->
  registerByCode bcrypt email salt t e w = (w', p') -> goes w w' p'.
Proof.
  intros W (F & _) E. unfold registerByCode, create_user in E. cbn [Email] in E.
  destruct (user_by_email _ w) eqn:Em; [injection E as <- <-; by apply goes_still|]. injection E as <- <-.
  set (u := MkUser _ _ _ _ _ _ _ _ _ _) in *.
  destruct (ok_create w (id1 e) u (links w) [EProven (id1 e) email ByCodeMail] ({[id1 e]} ∪ ids w)) as [W1 G1]; try done.
  - apply trace_ok_plain; [by apply (wo_trace _ W)|by repeat constructor].
  - intros _. exists ByCodeMail. by left.
  - by repeat constructor.
  - split_and!; [done|done|]. split; [apply seen_now, lookup_insert_eq|by apply issue_k].
Qed.

Lemma takeOver_ok w rid u salt p w1 : world_ok w -> seen w rid u -> takeOver bcrypt rid u salt p w = Some w1 ->
  justified (trace w) (EProven rid (Email u) p) -> world_ok w1 /\ grows w w1.
Proof.
  intros W S E Jp. unfold takeOver in E. destruct (verifyEmail _ _ _ _ _) as [w2|] eqn:Ev; [|done]. injection E as <-.
  apply (verify_ok _ _ _ _ _ true w2 W S Ev); [|done]. intros r. by destruct (HasPassword u).
Qed.

Lemma code_takeover_goes rid u salt t w w' p' : world_ok w -> seen w rid u -> code_takeover bcrypt rid u salt t w = (w', p') -> goes w w' p'.
Proof.
  intros W S E. unfold code_takeover in E. destruct (takeOver _ _ _ _ _ _) as [w1|] eqn:Et; injection E as <- <-; [|by apply goes_still].
  destruct (takeOver_ok _ _ _ _ _ _ W S Et) as [W1 G1]; [done|]. by split_and!.
Qed.

(** The writes that prove an address and nothing else. *)
Lemma set_proven_ok w rid row (v : bool) L I before p : world_ok w -> users w !! rid = Some row -> ids w ⊆ I ->
  Forall (fun x => match x with ELinked _ _ _ => True | _ => False end) before ->
  match p with ByResetMail _ => False | ByProvider x => vouches x (Email row) | _ => True end ->
  let w' := World (<[rid := next_row (set_proven v) row]> (users w)) L I (trace w ++ before ++ [EProven rid (Email row) p]) in world_ok w' /\ grows w w'.
Proof.
  intros W E HI B Jp. assert (R0 : forall i, revs i (before ++ [EProven rid (Email row) p]) = 0).
  { intros i. apply revs_none. intros H. apply elem_of_app in H as [H|H]; [|by apply list_elem_of_singleton in H]. rewrite Forall_forall in B. by apply B in H. }
  apply ok_write with (row := row); try done.
  - apply trace_ok_plain; [by apply (wo_trace _ W)|]. apply Forall_app. split; [by eapply Forall_impl; [exact B|intros []]|]. constructor; [|done]. by destruct p.
  - rewrite R0. cbn. lia.
  - unfold emailProven. cbn. rewrite !andb_true_iff. intros [-> _]. by rewrite orb_true_r.
  - intros _. right. exists p. set_solver.
  - by left.
  - apply Forall_app. split; [by eapply Forall_impl; [exact B|intros []]|by repeat constructor].
Qed.

Lemma confirm_goes rid email w w' p' : world_ok w -> has_email w rid email -> confirm_write rid email w = (w', p') -> goes w w' p'.
Proof.
  intros W (row & Er & <-) E. unfold confirm_write in E. destruct (update_user _ _ _) as [w1|] eqn:Eu; injection E as <- <-; [|by apply goes_still].
  apply update_user_some in Eu as (row' & Er' & ->). assert (row' = row) as -> by congruence.
  destruct (set_proven_ok w rid row true (links w) (ids w) [] ByCodeMail W Er) as [W1 G1]; done.
Qed.

Lemma linkTx_some id rid x w w1 : linkTx id rid x w = Some w1 ->
  exists L, w1 = World (users w) L ({[id]} ∪ ids w) (trace w ++ [ELinked id rid x]).
Proof. unfold linkTx. destruct (find_link _ _ _); [done|]. intros [= <-]. by eexists. Qed.

Lemma linkTx_ok id rid x w w1 : world_ok w -> linkTx id rid x w = Some w1 -> world_ok w1 /\ grows w w1.
Proof.
  intros W E. apply linkTx_some in E as (L & ->). apply ok_links; [done|set_solver| |by repeat constructor].
  apply trace_ok_plain; [by apply (wo_trace _ W)|by repeat constructor].
Qed.

Lemma resolve_goes x salt w w' p' : world_ok w -> resolve cfg x salt w = (w', p') -> goes w w' p'.
Proof.
  intros W E. unfold resolve in E. destruct (_ || seq_eqb (e_AccountID x) []); [injection E as <- <-; by apply goes_still|].
  set (y := with_email _ x) in *. destruct (find_link _ _ w) as [[? l]|]; [injection E as <- <-; by apply goes_still|].
  destruct (_ || (_ && _)) eqn:C; [injection E as <- <-; by apply goes_still|].
  rewrite !orb_false_iff in C. destruct C as [[[_ C1] C2] _]. apply negb_false_iff in C1.
  destruct (_ && _) eqn:D; injection E as <- <-; apply goes_still; try done.
  apply andb_true_iff in D as [_ D]. apply negb_true_iff in D. done.
Qed.

Lemma resolve_by_email_goes x salt w w' p' : world_ok w -> phase_ok w (PResolveByEmail x salt) -> resolve_by_email x salt w = (w', p') -> goes w w' p'.
Proof.
  intros W [X A] E. unfold resolve_by_email in E. destruct (user_by_email _ w) as [[rid u]|] eqn:Em; [|injection E as <- <-; by apply goes_still].
  apply by_email in Em as [Er Ee]. destruct (EmailVerified u); injection E as <- <-; apply goes_still; try done. split_and!; try done. by apply seen_now.
Qed.

Lemma resolve_join_goes rid u x salt e w w' p' : world_ok w -> phase_ok w (PResolveJoin rid u x salt) ->
  resolve_join bcrypt rid u x salt e w = (w', p') -> goes w w' p'.
Proof.
  intros W (S & Ee & [X1 X2] & A) E. unfold resolve_join in E.
  destruct (if EmailAssumed u then _ else _) as [w1|] eqn:Et; [|injection E as <- <-; by apply goes_still].
  assert (world_ok w1 /\ grows w w1) as [W1 G1].
  { destruct (EmailAssumed u); [|injection Et as <-; split; [done|apply acc_grows_refl]]. apply (takeOver_ok _ _ _ _ _ _ W S Et).
    rewrite Ee. split_and!; try done. by left. }
  destruct (linkTx _ _ _ w1) as [w2|] eqn:El; injection E as <- <-; [|by apply goes_still].
  destruct (linkTx_ok _ _ _ _ _ W1 El) as [W2 G2]. split_and!; [done|by eapply acc_grows_trans|done].
Qed.

Lemma resolve_create_goes x salt e w w' p' : world_ok w -> fresh_ids e w -> ext_ok x ->
  resolve_create bcrypt x salt e w = (w', p') -> goes w w' p'.
Proof.
  intros W (F & _) [X1 X2] E. unfold resolve_create, create_user in E. cbn [Email] in E.
  destruct (user_by_email _ w) eqn:Em; [injection E as <- <-; by apply goes_still|]. set (u := MkUser _ _ _ _ _ _ _ _ _ _) in *.
  destruct (linkTx _ _ _ _) as [w2|] eqn:El; [|injection E as <- <-; by apply goes_still]. apply linkTx_some in El as (L & ->). injection E as <- <-.
  set (new := ELinked (id2 e) (id1 e) x :: (if EmailVerifiedAssumed x then [] else [EProven (id1 e) (e_Email x) (ByProvider x)])).
  set (I := {[id2 e]} ∪ ({[id1 e]} ∪ ids w)).
  destruct (ok_create w (id1 e) u L new I) as [W1 G1]; try done.
  - apply trace_ok_plain; [by apply (wo_trace _ W)|]. subst new. constructor; [done|]. destruct (EmailVerifiedAssumed x) eqn:A; repeat constructor; try done; by left.
  - intros Pr. exists (ByProvider x). subst new. unfold emailProven in Pr. cbn in Pr. destruct (EmailVerifiedAssumed x); [done|]. set_solver.
  - set_solver.
  - subst new. constructor; [done|]. destruct (EmailVerifiedAssumed x); repeat constructor.
  - assert (Ew : (if EmailVerifiedAssumed x then World (<[id1 e := u]> (users w)) L I (trace w ++ [ELinked (id2 e) (id1 e) x])
       else say (EProven (id1 e) (e_Email x) (ByProvider x)) (World (<[id1 e := u]> (users w)) L I (trace w ++ [ELinked (id2 e) (id1 e) x])))
       = World (<[id1 e := u]> (users w)) L I (trace w ++ new)).
    { subst new. destruct (EmailVerifiedAssumed x); [done|]. unfold say. cbn. by rewrite <- app_assoc. }
    cbn [users trace ids] in *. fold I. rewrite Ew. by split_and!.
Qed.

Lemma link_write_goes rid u x e w w' p' : world_ok w -> seen w rid u -> link_write rid u x e w = (w', p') -> goes w w' p'.
Proof.
  intros W S E. unfold link_write in E. destruct (linkTx _ _ _ w) as [w1|] eqn:El; [|injection E as <- <-; by apply goes_still].
  destruct (linkTx_ok _ _ _ _ _ W El) as [W1 G1]. destruct (_ && _) eqn:C; [|injection E as <- <-; by split_and!].
  apply andb_true_iff in C as [_ C]. destruct (update_user _ _ _) as [w2|] eqn:Eu; [|injection E as <- <-; by apply goes_still].
  injection E as <- <-. apply update_user_some in Eu as (row & Er & ->). apply linkTx_some in El as (L & ->). cbn [users] in Er.
  destruct S as (row' & Er' & Le). assert (row' = row) as -> by congruence.
  destruct (set_proven_ok w rid row false L ({[id1 e]} ∪ ids w) [ELinked (id1 e) rid x] (ByProvider x) W Er) as [W2 G2]; try done; [set_solver|by repeat constructor| |].
  - unfold statesAddress in C. rewrite !andb_true_iff, !negb_true_iff in C. destruct C as [[[? ?] ?] C]. apply bool_decide_eq_true in C.
    split_and!; try done. right. rewrite <- (proj1 Le). done.
  - unfold say. cbn. rewrite <- app_assoc, (proj1 Le). by split_and!.
Qed.

Lemma unlink_goes rid id w w' p' : world_ok w -> unlinkIdentity rid id w = (w', p') -> goes w w' p'.
Proof.
  intros W E. unfold unlinkIdentity in E. destruct (users w !! rid); [|injection E as <- <-; by apply goes_still].
  destruct (links w !! id); [|injection E as <- <-; by apply goes_still]. destruct (seq_eqb _ rid); [|injection E as <- <-; by apply goes_still].
  destruct (_ <=? 1)%nat; injection E as <- <-; [by apply goes_still|].
  destruct (ok_links w (delete id (links w)) (ids w) [] W) as [W1 G1]; try done.
  - rewrite app_nil_r. by apply (wo_trace _ W).
  - rewrite app_nil_r in W1, G1. by split_and!.
Qed.

Lemma admin_goes rid o w w' p' : world_ok w -> admin_write bcrypt rid o w = (w', p') -> goes w w' p'.
Proof.
  intros W E. destruct o as [b|roles|password salt|]; cbn in E.
  - destruct (seq_eqb rid []); [injection E as <- <-; by apply goes_still|]. by eapply revoking_goes; [done| |exact E].
  - destruct (checkRoles roles) as [[]|] eqn:C; [|injection E as <- <-; by apply goes_still].
    destruct (seq_eqb rid []); [injection E as <- <-; by apply goes_still|].
    destruct (update_user _ _ _) as [w1|] eqn:Eu; injection E as <- <-; [|by apply goes_still].
    apply update_user_some in Eu as (row & Er & ->).
    destruct (revoking_ok w rid (set_roles (roles_csv roles)) row [ERolesSet rid roles] W Er) as [W1 G1]; [done|right; by exists roles|].
    unfold say. cbn. rewrite <- app_assoc. by split_and!.
  - destruct (seq_eqb rid []); [injection E as <- <-; by apply goes_still|]. destruct (_ || _); [injection E as <- <-; by apply goes_still|].
    by eapply revoking_goes; [done| |exact E].
  - destruct (seq_eqb rid []); [injection E as <- <-; by apply goes_still|]. by eapply revoking_goes; [done| |exact E].
Qed.

Lemma mark_write_goes rid u w w' p' : world_ok w -> seen w rid u -> mark_write rid u w = (w', p') -> goes w w' p'.
Proof.
  intros W S E. unfold mark_write in E. destruct (verifyEmail _ _ _ _ _) as [w1|] eqn:Ev; injection E as <- <-; [|by apply goes_still].
  destruct (verify_ok _ _ _ _ _ false w1 W S Ev) as [W1 G1]; [by intros r; split_and!; try done; cbn; lia|done|]. by split_and!.
Qed.

(** ** Reachable states *)

Lemma advance_goes e p w w' p' : world_ok w -> phase_ok w p -> presents jwt_parse cfg w p -> fresh_ids e w ->
  advance e p w = (w', p') -> goes w w' p'.
Proof.
  intros W P Pr F E. assert (Still : forall q, phase_ok w q -> (w, q) = (w', p') -> goes w w' p') by (intros q Hq [= <- <-]; by apply goes_still).
  destruct p; cbn in E; try (destruct (fails e); [by apply (Still (Done Internal))|]).
  - by eapply createUser_goes.
  - by eapply login_goes.
  - destruct P. by eapply grant_ok.
  - destruct P as [S K]. unfold grant_read in E. assert (k_ok w rid u k) by (by intros N). destruct (fails e); [by eapply acc_finish_ok|].
    destruct (users w !! rid) as [row|] eqn:Er; [|by eapply acc_finish_ok]. eapply Still; [|exact E].
    split; [by apply seen_now|]. intros N. exfalso. apply K. destruct S as (row' & Er' & L). assert (row' = row) as -> by congruence.
    unfold unlisted. by rewrite (proj1 L).
  - by eapply authenticate_goes.
  - by eapply revoking_goes; [done| |exact E].
  - by eapply forgot_goes.
  - by eapply reset_goes.
  - destruct P. by eapply reset_write_goes.
  - unfold code_user in E. destruct (user_by_email _ w) as [[rid u]|] eqn:Em.
    + apply by_email in Em as [Er _]. destruct (Active u); (eapply Still; [|exact E]); [by apply seen_now|done].
    + destruct (autoRegister cfg); by eapply Still; [|exact E].
  - unfold code_spend in E. destruct (negb (spent e)); [by eapply Still; [|exact E]|]. eapply Still; [|exact E].
    destruct known as [[rid u]|]; [by apply code_known_ok|done].
  - by eapply registerByCode_goes.
  - unfold code_again in E. destruct (user_by_email _ w) as [[rid u]|] eqn:Em; (eapply Still; [|exact E]); [|done].
    apply by_email in Em as [Er _]. by apply code_known_ok, seen_now.
  - by eapply code_takeover_goes.
  - unfold taken_over in E. destruct (users w !! rid) eqn:Er; (eapply Still; [|exact E]); [|done]. split; [by apply seen_now|by apply issue_k].
  - by eapply confirm_goes.
  - by eapply resolve_goes.
  - unfold resolve_user in E. destruct (users w !! rid) as [u|]; [destruct (Active u)|]; by eapply Still; [|exact E].
  - by eapply resolve_by_email_goes.
  - by eapply resolve_join_goes.
  - by eapply resolve_create_goes.
  - unfold exchange in E. destruct (users w !! rid) as [u|] eqn:Er; [destruct (Active u)|]; (eapply Still; [|exact E]); try done.
    split; [by apply seen_now|by apply issue_k].
  - unfold link_start in E. destruct (users w !! rid) as [u|]; [destruct (EmailVerified u)|]; by eapply Still; [|exact E].
  - unfold link_read in E. destruct (_ || _); [by eapply Still; [|exact E]|].
    destruct (users w !! rid) as [u|] eqn:Er; [destruct (EmailVerified u)|]; (eapply Still; [|exact E]); try done. by apply seen_now.
  - by eapply link_write_goes.
  - by eapply unlink_goes.
  - by eapply admin_goes.
  - unfold mark_read in E. destruct (seq_eqb rid []); [by eapply Still; [|exact E]|].
    destruct (users w !! rid) as [u|] eqn:Er; [destruct (EmailVerified u)|]; (eapply Still; [|exact E]); try done. by apply seen_now.
  - by eapply mark_write_goes.
  - by eapply Still; [|exact E].
Qed.

Definition sys_ok (s : world * list phase) : Prop := world_ok s.1 /\ Forall (phase_ok s.1) s.2.

Lemma empty_ok : world_ok empty_world.
Proof.
  constructor; cbn; try (intros *; intros H; by apply elem_of_nil in H); try done.
  intros t1 x t2 E. by destruct t1.
Qed.

Lemma acc_step_ok s s' : sys_ok s -> acc_step s s' -> sys_ok s'.
Proof.
  intros [W P] H. destruct H as [w ps p I|w ps1 p ps2 e w' p' Pr F E]; cbn [fst snd] in *.
  - split; [done|]. constructor; [by destruct p|done].
  - apply Forall_app in P as [P1 P]. apply Forall_cons in P as [Pp P2].
    destruct (advance_goes e p w w' p' W Pp Pr F E) as (W' & G & P').
    assert (M : forall l, Forall (phase_ok w) l -> Forall (phase_ok w') l) by (intros l H; eapply Forall_impl; [exact H|]; intros q; by apply acc_grows_phase).
    split; [done|]. apply Forall_app. split; [by apply M|]. constructor; [done|by apply M].
Qed.

Lemma reach_ok s : acc_reach s -> sys_ok s.
Proof.
  intros R. unfold Accounts.acc_reach in R. remember (empty_world, []) as s0 eqn:E. assert (sys_ok s0) as O by (rewrite E; split; [apply empty_ok|done]).
  clear E. induction R; [done|]. eauto using acc_step_ok.
Qed.

Lemma reach_world w ps : acc_reach (w, ps) -> world_ok w.
Proof. intros R. by apply reach_ok in R as [W _]. Qed.
End spec.
