(* ===== verification/AccountsSpec.v ===== *)
(** What accounts promise, whatever requests run beside each other: revoked
    tokens are dead, who is let in showed what is good now, and the admin role
    needs a proven address; and two runs that show where the code does less
    than it says. *)

From Stdlib Require Import ZArith Lia List Ascii.
From stdpp Require Import base decidable list gmap strings relations.
From S2P Require Import Prelude GoStrings GoTime AccountText AuthTokens Accounts AccountsInv.

Section spec.
Context (jwt_sign : gostring -> claims_t -> gostring) (jwt_parse : parser_options -> gostring -> gostring -> option claims_t).
Context (bcrypt : gostring -> gostring -> gostring) (comparePassword : gostring -> gostring -> bool).
Context (plainAddress : gostring -> bool) (cfg : settings).

Notation acc_step := (acc_step jwt_sign jwt_parse bcrypt comparePassword plainAddress cfg).
Notation acc_reach := (acc_reach jwt_sign jwt_parse bcrypt comparePassword plainAddress cfg).

(** ** Runs, to try the properties on

    Requests are numbered as they come; a move lets one in, or lets one take
    its next step. *)
Inductive move := Come (p : phase) | Next (n : nat) (e : env).

Definition initial_b (p : phase) : bool :=
  match p with
  | PCreate _ _ _ _ _ | PLogin _ _ | PAuth _ _ | PForgot _ | PReset _ _ _ | PCode _ _ _ | PResolve _ _ | PAdmin _ _ | PMark _ => true
  | _ => false
  end.

Definition presents_b (w : world) (p : phase) : bool :=
  match p with
  | PAuth raw _ | PReset raw _ _ => existsb (fun x => match x with ESigned _ r _ _ _ => seq_eqb r raw | _ => false end) (trace w)
  | _ => true
  end.

Definition fresh_b (e : env) (w : world) : bool :=
  bool_decide (id1 e ∉ ids w) && bool_decide (id2 e ∉ ids w) && negb (seq_eqb (id1 e) (id2 e)) && negb (seq_eqb (id1 e) []).

Definition play (m : move) (s : world * list phase) : option (world * list phase) :=
  match m with
  | Come p => if initial_b p then Some (s.1, p :: s.2) else None
  | Next n e =>
      let i := (length s.2 - 1 - n)%nat in
      match s.2 !! i with
      | Some p =>
          if presents_b s.1 p && fresh_b e s.1 then
            let '(w', p') := advance jwt_sign jwt_parse bcrypt comparePassword plainAddress cfg e p s.1 in
            Some (w', take i s.2 ++ p' :: drop (S i) s.2)
          else None
      | None => None
      end
  end.

Definition plays (ms : list move) (s : world * list phase) : option (world * list phase) :=
  fold_left (fun o m => match o with Some s => play m s | None => None end) ms (Some s).

Lemma play_step m s s' : play m s = Some s' -> acc_step s s'.
Proof.
  destruct s as [w ps]. destruct m as [p|n e]; cbn.
  - destruct (initial_b p) eqn:I; [|done]. intros [= <-]. constructor. by destruct p.
  - set (i := (length ps - 1 - n)%nat). destruct (ps !! i) as [p|] eqn:El; [|done]. destruct (_ && _) eqn:C; [|done].
    apply andb_true_iff in C as [Pb Fb]. destruct (advance _ _ _ _ _ _ _ _ _) as [w' p'] eqn:Ea. intros [= <-].
    rewrite <- (take_drop_middle _ _ _ El) at 1. apply as_advance with (e := e); [| |done].
    + destruct p; try done; apply existsb_exists in Pb as (x & Hx & E); destruct x; try done; apply bool_decide_eq_true in E as ->;
        left; do 4 eexists; by apply list_elem_of_In.
    + unfold fresh_b in Fb. rewrite !andb_true_iff, !bool_decide_eq_true, !negb_true_iff in Fb. destruct Fb as [[[F1 F2] F3] F4].
      apply bool_decide_eq_false in F3, F4. by split_and!.
Qed.

Lemma plays_reach ms s s' : plays ms s = Some s' -> rtc acc_step s s'.
Proof.
  unfold plays. revert s. induction ms as [|m ms IH]; intros s; cbn; [by intros [= <-]; constructor|].
  destruct (play m s) as [s1|] eqn:E.
  - intros H. eapply rtc_l; [by eapply play_step|by apply IH].
  - intros H. exfalso. revert H. clear. induction ms; [done|]. done.
Qed.

(** ** Tokens *)

Context (J : jwt_ok jwt_sign jwt_parse) (Hkey : key (reset cfg) = key (access cfg)).
Context (Hai : issuer (access cfg) = issuerAccess) (Hri : issuer (reset cfg) = issuerReset).

(** [C5] In every interleaving, whenever a token is let in - an access token by
    Authn, a reset token by reset-password - it was signed after the user's
    tokens were last revoked: by a password set, a role or the active flag
    changed, an account taken over, or RevokeTokens.  No token signed before a
    revocation is let in after it. *)
Theorem revoked_tokens_dead w ps (R : acc_reach (w, ps)) k raw rid pv t1 t2 t3
  (T : trace w = t1 ++ ERevoked rid :: t2 ++ EPassed k raw rid pv :: t3) :
  (exists e, ESigned k raw rid pv e ∈ t2) /\ (forall k' rid' pv' e, ESigned k' raw rid' pv' e ∉ t1).
Proof.
  assert (W : world_ok jwt_sign comparePassword cfg w) by (eapply reach_world; eauto). pose proof (wo_trace _ _ _ _ W) as Tok. rewrite T in Tok.
  destruct (Tok (t1 ++ ERevoked rid :: t2) (EPassed k raw rid pv) t3) as (Pv & e & Hs); [by rewrite <- app_assoc|].
  assert (M : minted jwt_sign cfg k raw rid pv).
  { apply list_elem_of_split in Hs as (a & b & Hs). assert (Hx : t1 ++ ERevoked rid :: t2 ++ EPassed k raw rid pv :: t3 = a ++ ESigned k raw rid pv e :: (b ++ EPassed k raw rid pv :: t3)).
    { change (t1 ++ ERevoked rid :: t2 ++ EPassed k raw rid pv :: t3) with (t1 ++ (ERevoked rid :: t2) ++ EPassed k raw rid pv :: t3).
      rewrite app_assoc, Hs, <- app_assoc. done. }
    by destruct (Tok _ _ _ Hx). }
  assert (Before : forall k' rid' pv' e', ESigned k' raw rid' pv' e' ∉ t1).
  { intros k' rid' pv' e' (a & b & ->)%list_elem_of_split.
    destruct (Tok a (ESigned k' raw rid' pv' e') (b ++ ERevoked rid :: t2 ++ EPassed k raw rid pv :: t3)) as [Le M']; [by rewrite <- app_assoc|].
    destruct (minted_inj _ _ _ J Hkey Hai Hri _ _ _ _ _ _ _ M M') as (<- & <- & <-).
    rewrite Pv in Le. change (?x :: t2) with ([x] ++ t2) in Le. rewrite !revs_app, revs_one in Le. unfold seq_eqb in Le. rewrite bool_decide_true in Le by done.
    pose proof (revs_pos rid t2). change (ESigned k raw rid pv e' :: b) with ([ESigned k raw rid pv e'] ++ b) in Le. rewrite revs_app in Le.
    pose proof (revs_pos rid b). pose proof (revs_pos rid [ESigned k raw rid pv e']). lia. }
  split; [|done]. exists e. apply elem_of_app in Hs as [Hs|Hs]; [by apply Before in Hs|]. by apply elem_of_cons in Hs as [|].
Qed.

(** [C20] A request that Authn lets in comes with a token of the user's present
    version.  For a user whose address auth.admins does not list, behind the
    token stands a sign-in that would still do now: through the chain of tokens
    each refreshed for the next, all of that version, it goes back to a sign-in
    with the password the account has now, or to a code, a provider or a
    registration, so that a password that was changed gets nobody in.  For a
    user auth.admins lists this second part fails: [stale_login_listed]. *)
Theorem let_in_now w ps (R : acc_reach (w, ps)) raw a e w' rid u n raw' start a' (P : presentable jwt_parse cfg w raw)
  (A : authenticate jwt_parse cfg raw a e w = (w', PGrant rid u n (KSession raw' start a'))) :
  users w !! rid = Some u /\ Active u = true /\ raw' = raw
  /\ (exists ev, ESigned Access raw rid (PasswordVersion u) ev ∈ trace w)
  /\ (Email u ∉ admins cfg -> exists root, rooted (trace w) rid (PasswordVersion u) raw root
        /\ match root with
           | PasswordLogin pw => HasPassword u = true /\ comparePassword (PasswordHash u) pw = true
           | Registered | CodeSignIn | ProviderSignIn _ _ => True
           | Refreshed _ | Forgot => False
           end).
Proof.
  assert (W : world_ok jwt_sign comparePassword cfg w) by (eapply reach_world; eauto). unfold authenticate in A.
  destruct (parse _ _ _ _) as [[sub c]|] eqn:Ep; [|done]. destruct (fails e); [done|]. destruct (users w !! sub) as [v|] eqn:Ev; [|done].
  destruct (Active v) eqn:Ac; [|done]. cbn [negb] in A. destruct (intClaim c (str "pv")) as [pv|] eqn:Epv; [|done].
  destruct (Z.eqb_spec pv (PasswordVersion v)) as [->|]; [|done]. injection A as _ <- <- _ <- _ _.
  destruct (parsed jwt_sign jwt_parse cfg J Hkey Hai Hri w Access (now e) raw sub c _ (wo_trace _ _ _ _ W) P Ep Epv) as (ev & Hs).
  split_and!; try done; [by exists ev|]. intros N. destruct (wo_signed _ _ _ _ W _ _ _ _ Hs) as (v' & Ev' & C). assert (v' = v) as -> by congruence.
  destruct (C eq_refl N) as (root & Hr & Ho). exists root. split; [done|]. assert (is_root root) by (clear -Hr; induction Hr; done). by destruct root.
Qed.

(** ** The admin role *)

(** [C8] Whoever holds the admin role was given it by the operator, or has an
    address that auth.admins lists and that is proven now, by what proves an
    address: the operator's word, a reset token that was mailed to that very
    address, a code mailed to it, or a provider that states it.  Registering
    an address, or signing in through a provider that only implies it, never
    gets the role. *)
Theorem admin_needs_proof w ps (R : acc_reach (w, ps)) rid u (E : users w !! rid = Some u) (A : adminRole ∈ RoleList (Roles u)) :
  (exists roles, ERolesSet rid roles ∈ trace w /\ adminRole ∈ roles)
  \/ (Email u ∈ admins cfg /\ emailProven u = true
      /\ exists p, EProven rid (Email u) p ∈ trace w
         /\ match p with
            | ByOperator | ByCodeMail => True
            | ByResetMail raw => EMailed (Email u) raw rid ∈ trace w
            | ByProvider x => vouches x (Email u)
            end).
Proof.
  assert (W : world_ok jwt_sign comparePassword cfg w) by (eapply reach_world; eauto).
  destruct (wo_admin _ _ _ _ W _ _ E A) as [|[L Pr]]; [by left|right]. split_and!; [done|done|].
  destruct (wo_proven _ _ _ _ W _ _ E Pr) as (p & H). exists p. split; [done|].
  apply list_elem_of_split in H as (t1 & t2 & T). pose proof (wo_trace _ _ _ _ W _ _ _ T) as Jp. destruct p; try done.
  rewrite T. apply elem_of_app. by left.
Qed.

(** ** Taking an account over *)

(** [C27] The first proof of an address by a mailed code hands the account over
    clean: the address is proven, no provider is linked to the account, the
    password its earlier holder had set does not sign in, and no token signed
    so far is of the account's present version. *)
Theorem takeover_clean w ps (R : acc_reach (w, ps)) rid u salt t (Hp : PTakeOver rid u salt t ∈ ps) (Hu : emailProven u = false) e w' :
  advance jwt_sign jwt_parse bcrypt comparePassword plainAddress cfg e (PTakeOver rid u salt t) w = (w', PTakenOver rid t) ->
  exists row, users w' !! rid = Some row /\ emailProven row = true /\ links_of rid w' = []
    /\ (HasPassword u = true -> HasPassword row = false)
    /\ forall k raw pv ev, ESigned k raw rid pv ev ∈ trace w -> pv < PasswordVersion row.
Proof.
  intros E. apply (reach_ok _ _ _ _ _ _ J Hkey Hai Hri) in R as [W P]. rewrite Forall_forall in P. pose proof (P _ Hp) as S. cbn in W, S, E.
  destruct (fails e); [done|]. unfold code_takeover, takeOver, verifyEmail in E. destruct (update_user _ _ _) as [w0|] eqn:Eu; [|done].
  apply update_user_some in Eu as (row & Er & ->). rewrite Hu in E. injection E as <-. eexists. split; [apply lookup_insert_eq|].
  split_and!.
  - by destruct (HasPassword u).
  - unfold links_of. cbn. destruct (List.filter _ _) as [|[i l] L] eqn:F; [done|]. exfalso.
    assert (H : In (i, l) (List.filter (fun p : gostring * linkedIdentity => seq_eqb (UserID p.2) rid)
              (map_to_list (filter (fun p : gostring * linkedIdentity => UserID p.2 <> rid) (links w))))) by (rewrite F; by left).
    apply filter_In in H as [H1 H2]. apply list_elem_of_In, elem_of_map_to_list, map_lookup_filter_Some in H1 as [_ H1].
    by apply bool_decide_eq_true in H2.
  - by intros ->.
  - intros k raw pv ev H. apply (signed_before jwt_sign cfg _ _ _ _ _ _ (wo_trace _ _ _ _ W)) in H as [H _]. rewrite <- (wo_pv _ _ _ _ W _ _ Er) in H.
    destruct (HasPassword u); cbn; lia.
Qed.
End spec.

(** ** Unlinking *)

(** Unlinking never takes the last way in: it removes the one link it names,
    the user's own, and the user still has a password or another link.  It
    changes no other link and no account. *)
Theorem unlink_keeps_way w w' rid id (E : unlinkIdentity rid id w = (w', Done NoContent)) :
  users w' = users w /\ links w' = delete id (links w)
  /\ exists u l, users w !! rid = Some u /\ links w !! id = Some l /\ UserID l = rid
     /\ (HasPassword u = true \/ exists j l', links w' !! j = Some l' /\ UserID l' = rid).
Proof.
  unfold unlinkIdentity in E. destruct (users w !! rid) as [u|]; [|done]. destruct (links w !! id) as [l|] eqn:El; [|done].
  destruct (seq_eqb (UserID l) rid) eqn:Eu; [|done]. apply bool_decide_eq_true in Eu. destruct (Nat.leb_spec (length (links_of rid w) + (if HasPassword u then 1 else 0)) 1) as [|H]; [done|].
  injection E as <-. split_and!; [done|done|]. exists u, l. split_and!; [done|done|done|]. destruct (HasPassword u) eqn:Hp; [by left|right].
  assert (D : exists p, p ∈ links_of rid w /\ p.1 <> id).
  { destruct (links_of rid w) as [|p [|q L]] eqn:F; cbn in H; [lia|lia|].
    assert (Nd : NoDup (map fst (links_of rid w))).
    { unfold links_of. assert (N := NoDup_fst_map_to_list (links w)). clear -N. induction (map_to_list (links w)) as [|x l IH]; [done|].
      cbn in *. apply NoDup_cons in N as [N1 N2]. destruct (seq_eqb _ _); [|by apply IH]. cbn. apply NoDup_cons. split; [|by apply IH].
      intros Hx. apply N1. apply list_elem_of_fmap in Hx as (y & -> & Hy). apply list_elem_of_In, filter_In in Hy as [Hy _].
      apply list_elem_of_fmap. exists y. split; [done|by apply list_elem_of_In]. }
    rewrite F in Nd. cbn in Nd. apply NoDup_cons in Nd as [Nd _]. destruct (decide (p.1 = id)) as [Ep|]; [exists q|exists p]; (split; [set_solver|]); [|done].
    intros Eq. apply Nd. rewrite Ep, <- Eq. by left. }
  destruct D as ([j l'] & Hj & Nj). unfold links_of in Hj. apply list_elem_of_In, filter_In in Hj as [H1 H2].
  apply list_elem_of_In, elem_of_map_to_list in H1. apply bool_decide_eq_true in H2. exists j, l'. cbn. split; [|done]. by rewrite lookup_delete_ne.
Qed.

(** ** A service to try the properties on *)

Definition demo_bcrypt (salt pw : gostring) : gostring := pw ++ str "#" ++ salt.
Definition demo_compare (h pw : gostring) : bool := has_prefix (pw ++ str "#") h.
Definition demo_plain (s : gostring) : bool := existsb (beq at_) s.

Definition demo_cfg : settings :=
  MkSettings {[str "boss@x.io"]} true true (168 * 60 * Minute)
    (MkTokens demo_key issuerAccess (120 * Minute) tokenLeeway) (MkTokens demo_key issuerReset (15 * Minute) tokenLeeway).

Abbreviation demo_plays := (plays demo_sign demo_parse demo_bcrypt demo_compare demo_plain demo_cfg).
Abbreviation demo_reachable := (acc_reach demo_sign demo_parse demo_bcrypt demo_compare demo_plain demo_cfg).
Abbreviation demo_step := (acc_step demo_sign demo_parse demo_bcrypt demo_compare demo_plain demo_cfg).

Definition start_ : world * list phase := (empty_world, []).
Definition demo_state (ms : list move) : world * list phase := default start_ (demo_plays ms start_).

Lemma demo_run ms ms' : match demo_plays (ms ++ ms') start_ with Some _ => true | None => false end = true ->
  demo_reachable (demo_state ms) /\ rtc demo_step (demo_state ms) (demo_state (ms ++ ms')).
Proof.
  unfold demo_state, plays. rewrite fold_left_app. intros H.
  assert (N : forall l, fold_left (fun o m => match o with Some s => play demo_sign demo_parse demo_bcrypt demo_compare demo_plain demo_cfg m s | None => None end) l None = None)
    by (induction l; done).
  destruct (fold_left _ ms (Some start_)) as [s|] eqn:E; [|by rewrite N in H]. destruct (fold_left _ ms' (Some s)) as [s'|] eqn:E'; [|done].
  cbn. split; eapply plays_reach; [exact E|exact E'].
Qed.

Lemma acc_demo_reached ms : match demo_plays ms start_ with Some _ => true | None => false end = true ->
  demo_reachable ((demo_state ms).1, (demo_state ms).2).
Proof. intros H. rewrite <- surjective_pairing. apply (demo_run ms []). by rewrite app_nil_r. Qed.

(** A step at [t] seconds, with ids after [i]; and the token the [n]-th
    request got. *)
Definition step_at (n : nat) (t : Z) (i : gostring) : move := Next n (MkEnv false (t * Second) (i ++ str "a") (i ++ str "b") true).

Definition token_of (n : nat) (ms : list move) : gostring :=
  let ps := (demo_state ms).2 in
  match ps !! (length ps - 1 - n)%nat with Some (Done (Token raw)) => raw | _ => [] end.

Definition old_password : gostring := str "old-Passw0rd".
Definition new_password : gostring := str "new-Passw0rd".

(** Al registers, the operator revokes the tokens, Al logs in again and comes
    with the new token. *)
Definition revoked_run : list move :=
  [Come (PCreate false (str "Al@x.io ") old_password [] (str "s")); step_at 0 100 (str "u"); step_at 0 100 (str "t");
   Come (PAdmin (str "ua") RevokeTokens); step_at 1 110 (str "v");
   Come (PLogin (str "al@x.io") old_password); step_at 2 120 (str "w"); step_at 2 120 (str "x")].

Definition revoked_end : list move := revoked_run ++ [Come (PAuth (token_of 2 revoked_run) ARoute); step_at 3 130 (str "y")].

Lemma revoked_tokens_dead_witness :
  let tr := trace (demo_state revoked_end).1 in
  (exists e, ESigned Access (token_of 2 revoked_run) (str "ua") 1 e ∈ take 1 (drop 2 tr))
  /\ (forall k rid pv e, ESigned k (token_of 2 revoked_run) rid pv e ∉ take 1 tr).
Proof.
  cbn zeta. apply (revoked_tokens_dead demo_sign demo_parse demo_bcrypt demo_compare demo_plain demo_cfg demo_jwt_ok eq_refl eq_refl eq_refl
    _ (demo_state revoked_end).2 (acc_demo_reached revoked_end ltac:(vm_compute; reflexivity)) Access _ (str "ua") 1 _ _ []).
  vm_compute. reflexivity.
Defined.

(** Al refreshes a token of a session that began with the password of now. *)
Definition refreshed_run : list move :=
  revoked_run ++ [Come (PAuth (token_of 2 revoked_run) ARefresh); step_at 3 130 (str "y"); step_at 3 130 (str "z"); step_at 3 131 (str "A")].

Lemma demo_unlisted : str "al@x.io" ∉ admins demo_cfg.
Proof. cbn. set_solver. Qed.

Lemma let_in_now_witness : exists u root,
  users (demo_state refreshed_run).1 !! str "ua" = Some u /\ Active u = true
  /\ rooted (trace (demo_state refreshed_run).1) (str "ua") (PasswordVersion u) (token_of 3 refreshed_run) root
  /\ match root with PasswordLogin pw => demo_compare (PasswordHash u) pw = true | _ => True end.
Proof.
  pose (env0 := MkEnv false (140 * Second) (str "B") (str "C") true).
  pose (u := MkUser (str "al@x.io") false false (demo_bcrypt (str "s") old_password) true 1 (str "a*@x*.io") [] true 2).
  destruct (let_in_now demo_sign demo_parse demo_bcrypt demo_compare demo_plain demo_cfg demo_jwt_ok eq_refl eq_refl eq_refl
    (demo_state refreshed_run).1 (demo_state refreshed_run).2 (acc_demo_reached refreshed_run ltac:(vm_compute; reflexivity))
    (token_of 3 refreshed_run) ARoute env0 (authenticate demo_parse demo_cfg (token_of 3 refreshed_run) ARoute env0 (demo_state refreshed_run).1).1
    (str "ua") u 1%nat (token_of 3 refreshed_run) 120 ARoute) as (Eu & Ac & _ & _ & Hr).
  - left. exists Access, (str "ua"), 1, (Refreshed (token_of 2 revoked_run)).
    assert (H : last (trace (demo_state refreshed_run).1) = Some (ESigned Access (token_of 3 refreshed_run) (str "ua") 1 (Refreshed (token_of 2 revoked_run))))
      by (vm_compute; reflexivity).
    apply last_Some in H as (l & ->). apply elem_of_app. right. apply list_elem_of_here.
  - vm_compute. reflexivity.
  - destruct Hr as (root & Hr & Hm); [exact demo_unlisted|]. exists u, root. split_and!; [exact Eu|exact Ac|exact Hr|].
    destruct root; first [exact I|exact (proj2 Hm)].
Defined.

(** The boss's account, made unverified by whoever registered the address, is
    proven with a reset token that was mailed there; at the next login the
    boss gets the role. *)
Definition boss : gostring := str "boss@x.io".

Definition forgot_run : list move :=
  [Come (PCreate false boss old_password [] (str "s")); step_at 0 100 (str "u"); step_at 0 100 (str "t");
   Come (PForgot boss); step_at 1 110 (str "v")].

Definition mailed_token (ms : list move) : gostring :=
  match last (trace (demo_state ms).1) with Some (EMailed _ raw _) => raw | _ => [] end.

Definition granted_run : list move :=
  forgot_run ++ [Come (PReset (mailed_token forgot_run) new_password (str "r")); step_at 2 120 (str "w"); step_at 2 120 (str "x");
    Come (PLogin boss new_password); step_at 3 130 (str "y"); step_at 3 130 (str "z")].

Lemma admin_needs_proof_witness : exists u, users (demo_state granted_run).1 !! str "ua" = Some u
  /\ adminRole ∈ RoleList (Roles u)
  /\ ((exists roles, ERolesSet (str "ua") roles ∈ trace (demo_state granted_run).1 /\ adminRole ∈ roles)
      \/ (Email u ∈ admins demo_cfg /\ emailProven u = true /\ exists p, EProven (str "ua") (Email u) p ∈ trace (demo_state granted_run).1)).
Proof.
  pose (u := MkUser boss true false (demo_bcrypt (str "r") new_password) true 1 (str "b**s@x*.io") adminRole true 3).
  assert (Eu : users (demo_state granted_run).1 !! str "ua" = Some u) by (vm_compute; reflexivity).
  assert (A : adminRole ∈ RoleList (Roles u)) by (apply list_elem_of_here).
  exists u. split; [exact Eu|]. split; [exact A|].
  destruct (admin_needs_proof demo_sign demo_parse demo_bcrypt demo_compare demo_plain demo_cfg demo_jwt_ok eq_refl eq_refl eq_refl
    (demo_state granted_run).1 (demo_state granted_run).2 (acc_demo_reached granted_run ltac:(vm_compute; reflexivity)) (str "ua") u Eu A)
    as [H|(L & P & p & H & _)]; [left; exact H|right]. split; [exact L|]. split; [exact P|]. exists p. exact H.
Defined.

(** Mallory signs in through Facebook with the address of Bob, begins to link
    another provider, and stops at that provider. *)
Definition bob : gostring := str "bob@x.io".
Definition facebook : extIdentity := MkExt (str "facebook") (str "f1") bob true true false (str "Bob").
Definition github : extIdentity := MkExt (str "github") (str "mallory") (str "mallory@y.io") true false false (str "M").

Definition facebook_run : list move :=
  [Come (PResolve facebook (str "s")); step_at 0 100 (str "u"); step_at 0 100 (str "u"); step_at 0 100 (str "v"); step_at 0 100 (str "v")].

Definition pending_run : list move :=
  facebook_run ++ [Come (PAuth (token_of 0 facebook_run) (ALink github)); step_at 1 110 (str "w"); step_at 1 110 (str "w"); step_at 1 110 (str "w")].

(** Bob signs in with a mailed code, which takes the account over. *)
Definition takeover_at : list move :=
  pending_run ++ [Come (PCode bob (str "c") (120 * Second)); step_at 2 120 (str "x"); step_at 2 120 (str "x")].
Definition takeover_run : list move := takeover_at ++ [step_at 2 120 (str "x")].

Lemma takeover_clean_witness : exists row, users (demo_state takeover_run).1 !! str "ua" = Some row
  /\ emailProven row = true /\ links_of (str "ua") (demo_state takeover_run).1 = []
  /\ (forall k raw pv ev, ESigned k raw (str "ua") pv ev ∈ trace (demo_state takeover_at).1 -> pv < PasswordVersion row).
Proof.
  pose (u := MkUser bob true true (demo_bcrypt (str "s") (str "s")) false 0 (str "Bob") [] true 1).
  pose (e := MkEnv false (120 * Second) (str "xa") (str "xb") true).
  destruct (takeover_clean demo_sign demo_parse demo_bcrypt demo_compare demo_plain demo_cfg demo_jwt_ok eq_refl eq_refl eq_refl
    (demo_state takeover_at).1 (demo_state takeover_at).2 (acc_demo_reached takeover_at ltac:(vm_compute; reflexivity))
    (str "ua") u (str "c") (120 * Second)) with (e := e) (w' := (demo_state takeover_run).1) as (row & E & P & L & _ & T).
  - vm_compute. left.
  - reflexivity.
  - vm_compute. reflexivity.
  - exists row. split; [exact E|]. split; [exact P|]. split; [exact L|exact T].
Defined.

(** ** Where the code does less than it says *)

(** takeOver promises that whoever held the account keeps no way in.  A link
    begun before it is completed after it: the callback checks that the address
    is verified, which it now is, and not that the session that began the link
    is still good.  Mallory, shut out, completes it, and signs in to the
    account with her own account at that provider. *)
Definition mallory_back : list move :=
  takeover_run ++ [step_at 1 200 (str "A"); step_at 1 200 (str "B");
    Come (PResolve github (str "t")); step_at 3 210 (str "C"); step_at 3 210 (str "D"); step_at 3 210 (str "E"); step_at 3 210 (str "F")].

Theorem pending_link_survives :
  exists w1 ps1 w2 ps2 id raw u, demo_reachable (w1, ps1) /\ rtc demo_step (w1, ps1) (w2, ps2)
    (* the account has just been taken over *)
    /\ PTakenOver (str "ua") (120 * Second) ∈ ps1 /\ links_of (str "ua") w1 = []
    (* and this is all that happens after *)
    /\ trace w2 = trace w1 ++ [ELinked id (str "ua") github; ESigned Access raw (str "ua") (PasswordVersion u) (ProviderSignIn (str "github") (str "mallory"))]
    (* with a token of its present version *)
    /\ users w2 !! str "ua" = Some u /\ Active u = true.
Proof.
  exists (demo_state takeover_run).1, (demo_state takeover_run).2, (demo_state mallory_back).1, (demo_state mallory_back).2, (str "Ba"), (token_of 3 mallory_back),
    (MkUser bob true false (demo_bcrypt (str "s") (str "s")) false 1 (str "Bob") [] true 2).
  rewrite <- !surjective_pairing. split; [eapply (demo_run takeover_run []); rewrite app_nil_r; vm_compute; reflexivity|].
  split; [eapply demo_run; vm_compute; reflexivity|]. split; [vm_compute; left|]. repeat (split; [vm_compute; reflexivity|]). vm_compute. reflexivity.
Qed.

(** A reset token should work once.  Two requests with it that both read the
    account before either writes both set a password. *)
Definition twice_run : list move :=
  forgot_run ++ [Come (PReset (mailed_token forgot_run) new_password (str "r")); Come (PReset (mailed_token forgot_run) old_password (str "q"));
    step_at 2 120 (str "w"); step_at 3 120 (str "w"); step_at 2 120 (str "w"); step_at 3 120 (str "w")].

Lemma reset_works_twice : exists w ps raw, demo_reachable (w, ps)
  /\ drop 3 (trace w) = [EPassed Reset raw (str "ua") 0; EPassed Reset raw (str "ua") 0;
       EProven (str "ua") boss (ByResetMail raw); ERevoked (str "ua"); EProven (str "ua") boss (ByResetMail raw); ERevoked (str "ua")].
Proof.
  exists (demo_state twice_run).1, (demo_state twice_run).2, (mailed_token forgot_run). split; [apply acc_demo_reached; vm_compute; reflexivity|].
  vm_compute. reflexivity.
Qed.

(** A login that auth.admins lists reads the account again when its grant
    meets another write, and its token bears the version read then: a login
    with the password that was replaced meanwhile gets a token that works. *)
Definition stale_run : list move :=
  [Come (PCreate true boss old_password [] (str "s")); step_at 0 100 (str "u"); Come (PLogin boss old_password); step_at 1 110 (str "v");
   Come (PAdmin (str "ua") (ResetPassword new_password (str "n"))); step_at 2 111 (str "w");
   step_at 1 112 (str "x"); step_at 1 112 (str "y"); step_at 1 112 (str "z")].

Lemma stale_login_listed : exists w ps raw u, demo_reachable (w, ps) /\ users w !! str "ua" = Some u
  /\ ESigned Access raw (str "ua") (PasswordVersion u) (PasswordLogin old_password) ∈ trace w
  /\ demo_compare (PasswordHash u) old_password = false.
Proof.
  exists (demo_state stale_run).1, (demo_state stale_run).2, (token_of 1 stale_run),
    (MkUser boss true false (demo_bcrypt (str "n") new_password) true 1 (str "b**s@x*.io") adminRole true 3).
  split; [apply acc_demo_reached; vm_compute; reflexivity|]. split; [vm_compute; reflexivity|]. split; [|vm_compute; reflexivity].
  assert (H : last (trace (demo_state stale_run).1) = Some (ESigned Access (token_of 1 stale_run) (str "ua") 1 (PasswordLogin old_password))) by (vm_compute; reflexivity).
  apply last_Some in H as (l & ->). apply elem_of_app. right. apply list_elem_of_here.
Qed.

(** Unlinking, tried. *)
Definition two_links : world :=
  World {[str "ua" := MkUser bob true false [] false 0 [] [] true 1]}
    (<[str "l1" := MkLink (str "ua") (str "github") (str "1") bob]> {[str "l2" := MkLink (str "ua") (str "google") (str "2") bob]}) ∅ [].

Lemma unlink_keeps_way_witness :
  (unlinkIdentity (str "ua") (str "l1") two_links).2 = Done NoContent
  /\ (exists j l', links (unlinkIdentity (str "ua") (str "l1") two_links).1 !! j = Some l' /\ UserID l' = str "ua")
  /\ (unlinkIdentity (str "ua") (str "l2") (unlinkIdentity (str "ua") (str "l1") two_links).1).2 = Done LastMethod.
Proof.
  split; [vm_compute; reflexivity|]. split; [|vm_compute; reflexivity].
  destruct (unlink_keeps_way two_links (unlinkIdentity (str "ua") (str "l1") two_links).1 (str "ua") (str "l1")) as (_ & _ & u & l & Eu & _ & _ & [H|H]);
    [vm_compute; reflexivity| |exact H].
  vm_compute in Eu. injection Eu as <-. discriminate.
Defined.
