(* ===== verification/Redirect.v ===== *)
(** identity/redirect.go and the redirects of oauth.go: the pages a sign-in
    may end at, and the addresses they are given as.

    url.Parse is a parameter: the parts of a URL the code reads. *)

From Stdlib Require Import ZArith Lia List Ascii.
From stdpp Require Import base decidable list sets strings.
From S2P Require Import Prelude GoStrings.

(** ** URLs *)

Record URL := MkURL {
  Scheme : gostring; Host : gostring; HasUser : bool; Path : gostring; RawQuery : gostring; ForceQuery : bool; Fragment : gostring;
}.

Definition slash : ascii := "/"%char.
Definition backslash : ascii := "\"%char.

(** url.QueryEscape. *)
Definition unreserved (c : ascii) : bool :=
  let v := byte_val c in
  ((97 <=? v) && (v <=? 122)) || ((65 <=? v) && (v <=? 90)) || ((48 <=? v) && (v <=? 57))
  || beq c "-"%char || beq c "_"%char || beq c "."%char || beq c "~"%char.

Definition hex_digit (d : Z) : ascii := if d <? 10 then ascii_of_N (Z.to_N (48 + d)) else ascii_of_N (Z.to_N (55 + d)).

Definition escape_byte (c : ascii) : gostring :=
  if unreserved c then [c]
  else if beq c " "%char then ["+"%char]
  else ["%"%char; hex_digit (byte_val c / 16); hex_digit (byte_val c mod 16)].

Definition query_escape (s : gostring) : gostring := flat_map escape_byte s.

(** [withQuery]; [withToken] of identity.go. *)
Definition withQuery (u key value : gostring) : gostring :=
  u ++ (if existsb (beq "?"%char) u then str "&" else str "?") ++ key ++ str "=" ++ query_escape value.

Definition withToken (base token : gostring) : gostring := if seq_eqb base [] then [] else withQuery base (str "token") token.

Definition linkedRedirect (frontend back provider : gostring) : gostring :=
  let target := if seq_eqb back [] then frontend else back in
  withQuery (withQuery target (str "link_status") (str "ok")) (str "provider") provider.

(** ** The allow-list *)

Record allowedRedirect := MkAllowed { scheme : gostring; host : gostring; path : gostring; pathTrailing : bool }.

Inductive redirect_error :=
| EmptyEntry | ParseError | SchemeNotAllowed (s : gostring) | HostEmpty | UserInfo | QueryNotAllowed | FragmentNotAllowed   (* an entry *)
| RelativeOnly | NotFull | NotInAllowlist.                                                                             (* a redirect_back *)

Section redirect.
Context (url_parse : gostring -> option URL).

(** [parseAllowedRedirect]. *)
Definition parseAllowedRedirect (raw : gostring) : result redirect_error allowedRedirect :=
  if seq_eqb raw [] then Err EmptyEntry else
  match url_parse raw with
  | None => Err ParseError
  | Some u =>
      if negb (seq_eqb (Scheme u) (str "https")) && negb (seq_eqb (Scheme u) (str "http")) then Err (SchemeNotAllowed (Scheme u))
      else if seq_eqb (Host u) [] then Err HostEmpty
      else if HasUser u then Err UserInfo
      else if negb (seq_eqb (RawQuery u) []) || ForceQuery u then Err QueryNotAllowed
      else if negb (seq_eqb (Fragment u) []) then Err FragmentNotAllowed
      else Ok (MkAllowed (Scheme u) (to_lower (Host u)) (if seq_eqb (Path u) [] then [slash] else Path u)
                 (has_suffix [slash] (Path u) || seq_eqb (Path u) []))
  end.

(** [matches]. *)
Definition matches (a : allowedRedirect) (s h p : gostring) : bool :=
  if negb (seq_eqb (scheme a) s) then false
  else if negb (seq_eqb (host a) h) then false
  else if pathTrailing a then has_prefix (path a) p
  else if seq_eqb p (path a) then true
  else if has_prefix (path a) p then
    match drop (length (path a)) p with
    | next :: _ => beq next slash || beq next "?"%char || beq next "#"%char
    | [] => false
    end
  else false.

(** [isSafeRelativePath]. *)
Definition safe_byte (c : ascii) : bool := negb (beq c backslash) && (32 <=? byte_val c) && (byte_val c <? 127).

Definition isSafeRelativePath (s : gostring) : bool :=
  match s with
  | c :: rest =>
      beq c slash
      && negb (match rest with d :: _ => beq d slash || beq d backslash | [] => false end)
      && forallb safe_byte s
  | [] => false
  end.

(** [validateRedirectBack]. *)
Definition validateRedirectBack (allowed : list allowedRedirect) (back : gostring) : result redirect_error unit :=
  if seq_eqb back [] then Ok tt
  else if isSafeRelativePath back then Ok tt
  else match allowed with
       | [] => Err RelativeOnly
       | _ =>
           match url_parse back with
           | None => Err ParseError
           | Some u =>
               if seq_eqb (Scheme u) [] || seq_eqb (Host u) [] then Err NotFull
               else if HasUser u then Err UserInfo
               else
                 let p := if seq_eqb (Path u) [] then [slash] else Path u in
                 if existsb (fun a => matches a (Scheme u) (to_lower (Host u)) p) allowed then Ok tt else Err NotInAllowlist
           end
       end.

(** The loop of newOAuthFlow over allowed_redirect_backs. *)
Fixpoint parse_entries (raws : list gostring) : result redirect_error (list allowedRedirect) :=
  match raws with
  | [] => Ok []
  | r :: rs => let? a := parseAllowedRedirect r in let? l := parse_entries rs in Ok (a :: l)
  end.

(** ** What a browser makes of a relative reference

    By the URL standard it drops leading and trailing controls and spaces and
    every tab and line break, reads a backslash as a slash, and leaves the
    origin for what starts with two slashes or with a scheme. *)
Definition is_c0_or_space (c : ascii) : bool := byte_val c <=? 32.
Definition is_break (c : ascii) : bool := (byte_val c =? 9) || (byte_val c =? 10) || (byte_val c =? 13).

Fixpoint drop_c0 (s : gostring) : gostring :=
  match s with c :: s' => if is_c0_or_space c then drop_c0 s' else s | [] => [] end.

Definition browser_reads (s : gostring) : gostring :=
  map (fun c => if beq c backslash then slash else c)
    (List.filter (fun c => negb (is_break c)) (rev (drop_c0 (rev (drop_c0 s))))).

(** A path on the same origin: it starts with one slash. *)
Definition same_origin (s : gostring) : Prop :=
  exists rest, browser_reads s = slash :: rest /\ forall rest', rest <> slash :: rest'.

Lemma filter_safe s : forallb safe_byte s = true -> List.filter (fun c => negb (is_break c)) s = s /\ map (fun c => if beq c backslash then slash else c) s = s.
Proof.
  induction s as [|c s IH]; [done|]. cbn. rewrite andb_true_iff. intros [H Hs]. destruct (IH Hs) as [-> ->]. unfold safe_byte in H.
  rewrite !andb_true_iff, negb_true_iff in H. destruct H as [[-> H] H2].
  unfold is_break. rewrite !(proj2 (Z.eqb_neq _ _)) by lia. done.
Qed.

Lemma forallb_drop_c0 s : forallb safe_byte s = true -> forallb safe_byte (drop_c0 s) = true.
Proof. induction s as [|c s IH]; [done|]. cbn. rewrite andb_true_iff. intros [H Hs]. destruct (is_c0_or_space c); [auto|]. cbn. by rewrite H, Hs. Qed.

Lemma forallb_rev (s : gostring) : forallb safe_byte (rev s) = forallb safe_byte s.
Proof. apply eq_true_iff_eq. rewrite !forallb_forall. setoid_rewrite <- in_rev. done. Qed.

Lemma drop_c0_last s c : is_c0_or_space c = false -> exists t, rev (drop_c0 (rev (c :: s))) = c :: t /\ exists u, s = t ++ u.
Proof.
  intros Hc. cbn. induction s as [|d s IH] using rev_ind.
  - cbn. rewrite Hc. exists []. split; [done|]. by exists [].
  - rewrite rev_app_distr. cbn. destruct (is_c0_or_space d).
    + destruct IH as (t & E & u & ->). exists t. split; [done|]. exists (u ++ [d]). by rewrite app_assoc.
    + exists (s ++ [d]). split; [|by exists []; rewrite app_nil_r].
      change (rev (d :: rev s ++ [c]) = c :: s ++ [d]). cbn. rewrite rev_app_distr, rev_involutive. done.
Qed.

(** A relative path that is taken for safe is one to a browser: whatever it
    strips or rewrites, it stays on the server's own origin. *)
Theorem safe_path_stays s (H : isSafeRelativePath s = true) : same_origin s.
Proof.
  destruct s as [|c rest]; [done|]. cbn in H. rewrite !andb_true_iff, negb_true_iff in H. destruct H as [[Hc Hd] [Hs Hr]].
  apply beq_true in Hc as ->. unfold same_origin, browser_reads. change (drop_c0 (slash :: rest)) with (slash :: rest).
  destruct (drop_c0_last rest slash eq_refl) as (t & E & u & Er).
  assert (Ht : forallb safe_byte (slash :: t) = true).
  { rewrite <- E, forallb_rev. apply forallb_drop_c0. rewrite forallb_rev. cbn. by rewrite Hr. }
  rewrite E. destruct (filter_safe _ Ht) as [-> ->]. exists t. split; [done|]. intros t' ->. subst rest. cbn in Hd. by rewrite beq_refl in Hd.
Qed.

(** ** What is accepted *)

(** The path is the entry's, or goes on after it at a boundary; below an
    entry that ends with a slash it is any path that starts with it. *)
Definition under (a : allowedRedirect) (p : gostring) : Prop :=
  exists rest, p = path a ++ rest
    /\ (rest = [] \/ pathTrailing a = true \/ exists c rest', rest = c :: rest' /\ c ∈ [slash; "?"%char; "#"%char]).

Lemma matches_under a s h p : matches a s h p = true -> scheme a = s /\ host a = h /\ under a p.
Proof.
  unfold matches. destruct (seq_eqb (scheme a) s) eqn:Es; [|done]. destruct (seq_eqb (host a) h) eqn:Eh; [|done].
  apply bool_decide_eq_true in Es, Eh. cbn [negb]. intros H. split_and!; [done|done|]. destruct (pathTrailing a) eqn:Et.
  - apply has_prefix_spec in H as (t & ->). exists t. eauto.
  - destruct (seq_eqb p (path a)) eqn:Ep; [apply bool_decide_eq_true in Ep as ->; exists []; rewrite app_nil_r; eauto|].
    destruct (has_prefix (path a) p) eqn:Hp; [|done]. apply has_prefix_spec in Hp as (t & ->). rewrite drop_app_length in H.
    exists t. split; [done|]. destruct t as [|c t]; [by left|]. right. right. exists c, t. split; [done|].
    rewrite !orb_true_iff in H. destruct H as [[H|H]|H]; apply beq_true in H as ->; set_solver.
Qed.

Lemma parse_all_in raws allowed a : parse_entries raws = Ok allowed -> a ∈ allowed -> exists r, r ∈ raws /\ parseAllowedRedirect r = Ok a.
Proof.
  revert allowed. induction raws as [|r raws IH]; intros allowed H Ha; cbn in H.
  - injection H as <-. by apply elem_of_nil in Ha.
  - apply rbind_Ok in H as (b & Eb & H). apply rbind_Ok in H as (l & El & H). injection H as <-. apply elem_of_cons in Ha as [->|Ha].
    + exists r. split; [by left|done].
    + destruct (IH l El Ha) as (r' & Hr & E). exists r'. split; [by right|done].
Qed.

(** [C34] No open redirect: a redirect_back that is accepted is empty, or stays on
    the server's own origin, or is a URL without user information whose scheme
    - http or https - and host are those of an entry of the configuration, with
    a path the entry admits. *)
Theorem redirect_back_ok raws allowed back (C : parse_entries raws = Ok allowed) (V : validateRedirectBack allowed back = Ok tt) :
  back = [] \/ same_origin back
  \/ exists u raw e a, url_parse back = Some u /\ HasUser u = false
     /\ raw ∈ raws /\ url_parse raw = Some e /\ parseAllowedRedirect raw = Ok a
     /\ Scheme u = Scheme e /\ (Scheme u = str "https" \/ Scheme u = str "http")
     /\ to_lower (Host u) = to_lower (Host e) /\ Host e <> []
     /\ under a (if seq_eqb (Path u) [] then [slash] else Path u).
Proof.
  unfold validateRedirectBack in V. destruct (seq_eqb back []) eqn:E0; [left; by apply bool_decide_eq_true in E0|right].
  destruct (isSafeRelativePath back) eqn:Es; [left; by apply safe_path_stays|right].
  destruct allowed as [|a0 al] eqn:Ea; [done|]. rewrite <- Ea in *. clear Ea a0 al. destruct (url_parse back) as [u|] eqn:Eu; [|done].
  destruct (_ || _); [done|]. destruct (HasUser u) eqn:Hu; [done|]. destruct (existsb _ allowed) eqn:Ex; [|done].
  apply existsb_exists in Ex as (a & Ha & M). apply list_elem_of_In in Ha. destruct (parse_all_in _ _ _ C Ha) as (raw & Hr & Pa).
  apply matches_under in M as (M1 & M2 & M3). pose proof Pa as Pa'. unfold parseAllowedRedirect in Pa'. destruct (seq_eqb raw []); [done|].
  destruct (url_parse raw) as [e|] eqn:Ee; [|done]. destruct (negb _ && negb _) eqn:Sc; [done|]. destruct (seq_eqb (Host e) []) eqn:He; [done|].
  apply bool_decide_eq_false in He. destruct (HasUser e); [done|]. destruct (negb (seq_eqb (RawQuery e) []) || ForceQuery e); [done|]. destruct (negb (seq_eqb (Fragment e) [])); [done|]. injection Pa' as <-. cbn in M1, M2.
  exists u, raw, e. eexists. rewrite andb_false_iff, !negb_false_iff in Sc. unfold seq_eqb in Sc. rewrite !bool_decide_eq_true in Sc.
  split_and!; try done. by rewrite <- M1.
Qed.
End redirect.

(** A parser for the URLs tried here: scheme, host and path of an absolute
    one. *)
Definition demo_url (s : gostring) : option URL :=
  if has_prefix (str "https://") s then
    let r := drop 8 s in
    let n := match index_byte slash r with Z.neg _ => length r | i => Z.to_nat i end in
    Some (MkURL (str "https") (take n r) false (drop n r) [] false [])
  else None.

Definition demo_allowed : list gostring := [str "https://App.example.com/landing"; str "https://docs.example.com/a/"].

Lemma redirect_back_ok_witness : exists allowed, parse_entries demo_url demo_allowed = Ok allowed
  /\ validateRedirectBack demo_url allowed (str "https://app.example.com/landing/x") = Ok tt
  /\ validateRedirectBack demo_url allowed (str "https://app.example.com/landing-evil") = Err NotInAllowlist
  /\ validateRedirectBack demo_url allowed (str "https://app.example.com.evil.com/landing") = Err NotInAllowlist
  /\ validateRedirectBack demo_url allowed (str "//evil.com") = Err ParseError
  /\ (str "https://app.example.com/landing/x" = [] \/ same_origin (str "https://app.example.com/landing/x")
      \/ exists u, demo_url (str "https://app.example.com/landing/x") = Some u /\ HasUser u = false).
Proof.
  eexists. split; [reflexivity|]. do 4 (split; [vm_compute; reflexivity|]).
  destruct (redirect_back_ok demo_url demo_allowed _ (str "https://app.example.com/landing/x") eq_refl eq_refl) as [H|[H|(u & _ & _ & _ & H & Hu & _)]];
    [by left|right; by left|right; right]. exists u. split; [exact H|exact Hu].
Defined.

Lemma safe_path_stays_witness : isSafeRelativePath (str "/a/b?c=/\") = false /\ isSafeRelativePath (str "/a//b?c=d") = true /\ same_origin (str "/a//b?c=d").
Proof. split; [reflexivity|]. split; [reflexivity|]. apply (safe_path_stays (str "/a//b?c=d")). reflexivity. Defined.

(** The entry /a/ admits a path that a browser resolves outside of it. *)
Lemma dot_segments_escape : exists allowed, parse_entries demo_url demo_allowed = Ok allowed
  /\ validateRedirectBack demo_url allowed (str "https://docs.example.com/a/../private") = Ok tt.
Proof. eexists. split; [reflexivity|]. vm_compute. reflexivity. Qed.
