(* ===== verification/ClientIP.v ===== *)
(** internal/clientip: the address of a client behind reverse proxies.

    net/netip is a parameter: addresses, prefixes and the operations on them
    the code calls.  A request's headers are its lines, in order. *)

From Stdlib Require Import ZArith Lia List Ascii.
From stdpp Require Import base decidable list sets strings.
From S2P Require Import Prelude GoStrings.

(** net/netip, as far as the code uses it. *)
Class NetIP := {
  addr : Type; prefix : Type;
  ParseAddr : gostring -> option addr; ParsePrefix : gostring -> option prefix;
  Masked : prefix -> prefix; Unmap : addr -> addr; WithoutZone : addr -> addr;
  BitLen : addr -> Z; PrefixFrom : addr -> Z -> prefix; Contains : prefix -> addr -> bool; AddrString : addr -> gostring;
}.

Section clientip.
Context `{NetIP}.

Definition headers_ : list gostring := [str "X-Forwarded-For"; str "X-Real-Ip"].

Inductive resolver_error := EmptyProxy | InvalidProxy (p : gostring).

(** [NewResolver]. *)
Fixpoint NewResolver (proxies : list gostring) : result resolver_error (list prefix) :=
  match proxies with
  | [] => Ok []
  | p :: ps =>
      let p := trim_space p in
      if seq_eqb p [] then Err EmptyProxy
      else
        match ParsePrefix p with
        | Some pfx => let? l := NewResolver ps in Ok (Masked pfx :: l)
        | None =>
            match ParseAddr p with
            | Some a => let a := Unmap a in let? l := NewResolver ps in Ok (PrefixFrom a (BitLen a) :: l)
            | None => Err (InvalidProxy p)
            end
        end
  end.

(** net.SplitHostPort: the host, where the text is host:port or [host]:port. *)
Definition colon : ascii := ":"%char.

Fixpoint cut_last_colon (s : gostring) : option (gostring * gostring) :=
  match s with
  | [] => None
  | c :: s' =>
      match cut_last_colon s' with
      | Some (a, b) => Some (c :: a, b)
      | None => if beq c colon then Some ([], s') else None
      end
  end.

Fixpoint cut_at (c : ascii) (s : gostring) : option (gostring * gostring) :=
  match s with
  | [] => None
  | d :: s' => if beq d c then Some ([], s') else match cut_at c s' with Some (a, b) => Some (d :: a, b) | None => None end
  end.

Definition no_brackets (s : gostring) : bool := negb (existsb (fun c => beq c "["%char || beq c "]"%char) s).

Definition SplitHostPort (s : gostring) : option gostring :=
  match cut_last_colon s with
  | None => None
  | Some (before, port) =>
      match before with
      | c :: rest =>
          if beq c "["%char then
            match cut_at "]"%char rest with
            | Some (h, []) => if no_brackets h && no_brackets port then Some h else None
            | _ => None
            end
          else if existsb (beq colon) before || negb (no_brackets before) || negb (no_brackets port) then None else Some before
      | [] => if no_brackets port then Some [] else None
      end
  end.

(** strings.TrimPrefix and strings.TrimSuffix of one byte. *)
Definition trim_prefix (c : ascii) (s : gostring) : gostring := match s with d :: s' => if beq d c then s' else s | [] => [] end.
Definition trim_suffix (c : ascii) (s : gostring) : gostring := rev (trim_prefix c (rev s)).

(** [parseAddr]. *)
Definition parseAddr (s : gostring) : option addr :=
  let s := trim_space s in
  if seq_eqb s [] then None
  else
    let host := match SplitHostPort s with Some h => h | None => s end in
    let host := trim_prefix "["%char (trim_suffix "]"%char host) in
    match ParseAddr host with Some a => Some (WithoutZone (Unmap a)) | None => None end.

Definition isTrusted (trusted : list prefix) (a : addr) : bool := existsb (fun p => Contains p a) trusted.

(** The loop of [fromHeader] over the items from the last: [items] comes
    reversed, and the last of it is item 0. *)
Fixpoint from_items (trusted : list prefix) (items : list gostring) : option gostring :=
  match items with
  | [] => None
  | item :: rest =>
      match parseAddr (trim_space item) with
      | None => None
      | Some a => if bool_decide (rest = []) || negb (isTrusted trusted a) then Some (AddrString a) else from_items trusted rest
      end
  end.

(** [fromHeader]. *)
Definition fromHeader (trusted : list prefix) (value : gostring) : option gostring :=
  if seq_eqb value [] then None else from_items trusted (rev (split ","%char value)).

(** http.Header.Get of a canonical name: the first line's value. *)
Definition header_lines := list (gostring * gostring).

Fixpoint HeaderGet (h : header_lines) (name : gostring) : gostring :=
  match h with [] => [] | (n, v) :: h' => if seq_eqb n name then v else HeaderGet h' name end.

Fixpoint first_header (trusted : list prefix) (h : header_lines) (names : list gostring) : option gostring :=
  match names with
  | [] => None
  | n :: ns => match fromHeader trusted (HeaderGet h n) with Some ip => Some ip | None => first_header trusted h ns end
  end.

(** [ClientIP]. *)
Definition ClientIP (trusted : list prefix) (remote : gostring) (h : header_lines) : gostring :=
  match parseAddr remote with
  | None => []
  | Some peer =>
      if negb (isTrusted trusted peer) then AddrString peer
      else match first_header trusted h headers_ with Some ip => ip | None => AddrString peer end
  end.

(** [Ignored]: the loop over the headers. *)
Fixpoint ignored_go (trusted : list prefix) (remote : gostring) (h : header_lines) (names : list gostring) : gostring * gostring :=
  match names with
  | [] => ([], [])
  | n :: ns =>
      if seq_eqb (HeaderGet h n) [] then ignored_go trusted remote h ns
      else match parseAddr remote with
           | None => ([], [])
           | Some a => if isTrusted trusted a then ([], []) else (n, AddrString a)
           end
  end.

Definition Ignored (trusted : list prefix) (remote : gostring) (h : header_lines) : gostring * gostring := ignored_go trusted remote h headers_.

(** ** What it promises *)

(** A hop as a proxy writes it: an address without commas. *)
Definition hop (s : gostring) (a : addr) : Prop := ","%char ∉ s /\ parseAddr (trim_space s) = Some a.

Lemma split_join_hops (l : list gostring) : l <> [] -> Forall (fun s => ","%char ∉ s) l -> split ","%char (join [","%char] l) = l.
Proof.
  induction l as [|p l IH]; [done|]. intros _ F. apply Forall_cons in F as [Hp F]. destruct l as [|q l].
  - by apply split_no_sep.
  - rewrite join_cons2. change (p ++ [","%char] ++ ?t) with (p ++ ","%char :: t). by rewrite split_app_sep, IH.
Qed.

Lemma from_items_hops trusted hops s a before :
  Forall (fun x => exists b, hop x b /\ isTrusted trusted b = true) hops -> hop s a -> isTrusted trusted a = false ->
  from_items trusted (hops ++ s :: before) = Some (AddrString a).
Proof.
  intros F [_ P] T. induction F as [|x hops (b & [_ Pb] & Tb) F IH]; cbn [app from_items].
  - rewrite P, T. by rewrite orb_true_r.
  - rewrite Pb, Tb. cbn [negb]. rewrite orb_false_r, bool_decide_false; [done|]. by destruct hops.
Qed.

(** [C19] No spoofing.  A client that connects itself is its socket's address,
    whatever headers it sends.  One that comes through trusted proxies that
    each append the address they were reached from to the one forwarding
    header, is the address the first of them saw, whatever the client had
    put in the header - [junk] - or in any other. *)
Theorem ClientIP_no_spoof trusted remote peer h (P : parseAddr remote = Some peer) :
  (isTrusted trusted peer = false -> ClientIP trusted remote h = AddrString peer /\ (Ignored trusted remote h).2 ∈ [[]; AddrString peer])
  /\ (isTrusted trusted peer = true -> forall junk s a hops,
        Forall (fun x => ","%char ∉ x) junk -> hop s a -> isTrusted trusted a = false ->
        Forall (fun x => exists b, hop x b /\ isTrusted trusted b = true) hops ->
        HeaderGet h (str "X-Forwarded-For") = join [","%char] (junk ++ s :: hops) ->
        ClientIP trusted remote h = AddrString a).
Proof.
  unfold ClientIP, Ignored. rewrite P. split.
  - intros T. rewrite T. split; [done|]. unfold headers_. cbn [ignored_go]. rewrite P, T.
    destruct (seq_eqb _ []); [destruct (seq_eqb _ [])|]; cbn [snd]; set_solver.
  - intros T junk s a hops Fj Hs Ta Fh E. rewrite T. cbn [negb first_header headers_]. unfold headers_. cbn [first_header]. rewrite E. unfold fromHeader.
    assert (S : split ","%char (join [","%char] (junk ++ s :: hops)) = junk ++ s :: hops).
    { apply split_join_hops; [by destruct junk|]. apply Forall_app. split; [done|]. constructor; [apply Hs|].
      eapply Forall_impl; [exact Fh|]. intros x (b & [Hb _] & _). exact Hb. }
    destruct (seq_eqb _ []) eqn:En.
    { apply bool_decide_eq_true in En. rewrite En in S. cbn in S. destruct junk as [|j junk]; cbn in S.
      - injection S as <- S. destruct Hs as [_ Hp]. by vm_compute in Hp.
      - injection S as _ S. by destruct junk. }
    rewrite S, rev_app_distr. cbn [rev]. rewrite <- app_assoc. cbn [app]. erewrite from_items_hops; [done| |done|done].
    apply Forall_rev. exact Fh.
Qed.

(** Where a proxy adds a line of its own instead, the first line is read, and
    that is the client's. *)
Theorem two_lines_spoof trusted remote peer (P : parseAddr remote = Some peer) (T : isTrusted trusted peer = true)
  forged a real rest (F : hop forged a) :
  ClientIP trusted remote ((str "X-Forwarded-For", forged) :: (str "X-Forwarded-For", real) :: rest) = AddrString a.
Proof.
  unfold ClientIP. rewrite P, T. cbn [negb]. unfold headers_. cbn [first_header HeaderGet]. unfold seq_eqb at 1. rewrite bool_decide_true by done.
  unfold fromHeader. destruct F as [Nc Pf]. rewrite split_no_sep by done. cbn. rewrite Pf. destruct (seq_eqb forged []) eqn:E; [|done].
  apply bool_decide_eq_true in E as ->. by vm_compute in Pf.
Qed.

Lemma NewResolver_ok proxies trusted : NewResolver proxies = Ok trusted -> length trusted = length proxies /\ Forall (fun p => trim_space p <> []) proxies.
Proof.
  revert trusted. induction proxies as [|p ps IH]; intros trusted E; cbn in E; [by injection E as <-|].
  destruct (seq_eqb _ []) eqn:Ee; [done|]. apply bool_decide_eq_false in Ee. destruct (ParsePrefix _); [|destruct (ParseAddr _); [|done]];
    apply rbind_Ok in E as (l & El & E); injection E as <-; destruct (IH l El) as [L F]; (split; [cbn; by rewrite L|by constructor]).
Qed.
End clientip.

(** IPv4 addresses, to try it on. *)
Definition demo_v4 (s : gostring) : option (list Z) :=
  let parts := map atoi (split "."%char s) in
  if (length parts =? 4)%nat && forallb (fun o => match o with Some n => (0 <=? n) && (n <? 256) | None => false end) parts
  then Some (map (default 0) parts) else None.

Definition demo_netip : NetIP := {|
  addr := list Z; prefix := list Z * Z; ParseAddr := demo_v4; ParsePrefix := fun _ => None; Masked := fun p => p; Unmap := fun a => a;
  WithoutZone := fun a => a; BitLen := fun _ => 32; PrefixFrom := pair; Contains := fun p a => bool_decide (p.1 = a);
  AddrString := fun a => join (str ".") (map format_uint a);
|}.

Lemma ClientIP_no_spoof_witness :
  let trusted := [([10; 0; 0; 1], 32); ([10; 0; 0; 2], 32)] : list (@prefix demo_netip) in
  @NewResolver demo_netip [str "10.0.0.1"; str " 10.0.0.2"] = Ok trusted
  /\ @ClientIP demo_netip trusted (str "10.0.0.1:443") [(str "X-Forwarded-For", str "6.6.6.6, evil,203.0.113.9, 10.0.0.2")] = str "203.0.113.9"
  /\ @ClientIP demo_netip trusted (str "203.0.113.9:5000") [(str "X-Forwarded-For", str "6.6.6.6")] = str "203.0.113.9".
Proof.
  cbn zeta. split; [vm_compute; reflexivity|]. split.
  - apply (proj2 (@ClientIP_no_spoof demo_netip [([10; 0; 0; 1], 32); ([10; 0; 0; 2], 32)] (str "10.0.0.1:443") [10; 0; 0; 1]
      [(str "X-Forwarded-For", str "6.6.6.6, evil,203.0.113.9, 10.0.0.2")] eq_refl)) with (junk := [str "6.6.6.6"; str " evil"]) (s := str "203.0.113.9") (a := [203; 0; 113; 9]) (hops := [str " 10.0.0.2"]).
    + vm_compute. reflexivity.
    + by repeat constructor; cbn; set_solver.
    + split; [cbn; set_solver|vm_compute; reflexivity].
    + vm_compute. reflexivity.
    + constructor; [|done]. exists [10; 0; 0; 2]. split; [split; [cbn; set_solver|vm_compute; reflexivity]|vm_compute; reflexivity].
    + vm_compute. reflexivity.
  - apply (proj1 (@ClientIP_no_spoof demo_netip [([10; 0; 0; 1], 32); ([10; 0; 0; 2], 32)] (str "203.0.113.9:5000") [203; 0; 113; 9]
      [(str "X-Forwarded-For", str "6.6.6.6")] eq_refl)). vm_compute. reflexivity.
Defined.
