(* ===== verification/AuditLog.v ===== *)
(** identity/audit.go: the audit log.  Events go through a bounded queue to one
    writer that inserts them in batches; Log, the writer and close run beside
    each other, one step at a time, in any order.

    A step is what one goroutine does between two points where others may
    run: a channel operation, an atomic counter, a statement of the database.
    The state also keeps what happened to every event, for the theorems to
    speak of; no step reads it. *)

From Stdlib Require Import ZArith Lia List Ascii.
From stdpp Require Import base decidable list strings relations.
From S2P Require Import Prelude GoStrings GoTime Utf8.

(** ** Events and records *)

Section records.
(** The documents an event carries, and their JSON where they have one. *)
Context {doc : Type} (marshal : doc -> option gostring).

Record Event := MkEvent {
  OccurredAt : Z; Action : gostring; Result : gostring; Resource : gostring; ResourceID : gostring;
  ActorID : gostring; ActorType : gostring; ActorIP : gostring; Before : option doc; After : option doc;
  Reason : gostring; Metadata : option doc; TraceID : gostring; RequestID : gostring;
}.

Record auditRow := MkRow {
  r_ID : gostring; r_OccurredAt : Z; r_Action : gostring; r_Result : gostring; r_Resource : gostring; r_ResourceID : gostring;
  r_ActorID : gostring; r_ActorType : gostring; r_ActorIP : gostring; BeforeData : gostring; AfterData : gostring;
  r_Reason : gostring; r_Metadata : gostring; r_TraceID : gostring; r_RequestID : gostring;
}.

Definition ResultSuccess : gostring := str "success".
Definition ActorUser : gostring := str "user".
Definition auditReasonMax : nat := 512.

Definition or_else (s t : gostring) : gostring := if seq_eqb s [] then t else s.

(** [mergeContext]: the principal's id, the client's address, the request's id
    and the trace's where telemetry is linked. *)
Definition mergeContext (principal : option gostring) (ip request : gostring) (trace : option gostring) (e : Event) : Event :=
  let '(aid, aty) :=
    if seq_eqb (ActorID e) [] then
      match principal with
      | Some p => if seq_eqb p [] then (ActorID e, ActorType e) else (p, or_else (ActorType e) ActorUser)
      | None => (ActorID e, ActorType e)
      end
    else (ActorID e, ActorType e) in
  MkEvent (OccurredAt e) (Action e) (Result e) (Resource e) (ResourceID e) aid aty (or_else (ActorIP e) ip) (Before e) (After e)
    (Reason e) (Metadata e) (match trace with Some t => or_else (TraceID e) t | None => TraceID e end) (or_else (RequestID e) request).

Inductive row_error := NoAction | BadBefore | BadAfter | BadMetadata.

(** [marshalJSON]: nothing for nil. *)
Definition marshalJSON (d : option doc) (err : row_error) : result row_error gostring :=
  match d with
  | None => Ok []
  | Some d => match marshal d with Some j => Ok j | None => Err err end
  end.

(** [row]. *)
Definition row (now : Z) (id : gostring) (e : Event) : result row_error auditRow :=
  if seq_eqb (Action e) [] then Err NoAction
  else
    let at_ := if OccurredAt e =? zero_time then now else OccurredAt e in
    let ty := if seq_eqb (ActorType e) [] && negb (seq_eqb (ActorID e) []) then ActorUser else ActorType e in
    let reason := if (auditReasonMax <? length (Reason e))%nat then take auditReasonMax (Reason e) else Reason e in
    let? before := marshalJSON (Before e) BadBefore in
    let? after := marshalJSON (After e) BadAfter in
    let? meta := marshalJSON (Metadata e) BadMetadata in
    Ok (MkRow id at_ (Action e) (or_else (Result e) ResultSuccess) (Resource e) (ResourceID e) (ActorID e) ty (ActorIP e) before after
          reason meta (TraceID e) (RequestID e)).
End records.

Arguments Event : clear implicits.

(** ** The log *)

Section audit.
Context {doc : Type} (marshal : doc -> option gostring).

(** A call of Log: before it takes the read lock, at its select, past a send
    and before it counts it, and at its end. *)
Inductive sender := SEnter (e : Event doc) | SSelect (e : Event doc) | SAdd | SSent | SDropped.

(** The writer: at its select, or in [flush] and where it goes on from. *)
Inductive after_flush := OnFull | OnTimer | OnClosed.
Inductive writer := WLoop | WFlush (k : after_flush) | WDone.

(** close: not called, past close(stopping), past the lock, past the end of
    its context, and returned with the error's count. *)
Inductive closer := CNone | CStopping | CWaiting | CGaveUp | CClosed (err : option Z).

Record audit := MkAudit {
  queue : list (Event doc); senders : list sender; wr : writer; batch : list auditRow; cl : closer; stopping : bool; closed : bool; canceled : bool;
  table : list auditRow; lastErr : option Z;
  pending : Z; dropped : Z; written : Z; failed : Z;
  (* what happened *)
  sent : list (Event doc); received : list (Event doc * option auditRow); flushed : list (list auditRow * bool);
}.

Record config := MkConfig { buffer : nat; dropOnFull : bool }.

Definition auditBatchSize : nat := 100.
Definition auditFailWindow : Z := Minute.

Context (c : config).

(** [newAudit], with the log enabled. *)
Definition newAudit : audit := MkAudit [] [] WLoop [] CNone false false false [] None 0 0 0 0 [] [] [].

Definition cap : nat := Nat.max (buffer c) 1.

(** *** Log *)

Inductive choice := TakeLock | Send | DropFull | DropStopping | DropCtx | Count.

Definition set_senders (l : list sender) (s : audit) : audit :=
  MkAudit (queue s) l (wr s) (batch s) (cl s) (stopping s) (closed s) (canceled s) (table s) (lastErr s) (pending s) (dropped s) (written s) (failed s)
    (sent s) (received s) (flushed s).

Definition drop_ (s : audit) : audit :=
  MkAudit (queue s) (senders s) (wr s) (batch s) (cl s) (stopping s) (closed s) (canceled s) (table s) (lastErr s) (pending s) (dropped s + 1) (written s) (failed s)
    (sent s) (received s) (flushed s).

Definition enqueue (e : Event doc) (s : audit) : audit :=
  MkAudit (queue s ++ [e]) (senders s) (wr s) (batch s) (cl s) (stopping s) (closed s) (canceled s) (table s) (lastErr s) (pending s) (dropped s) (written s) (failed s)
    (sent s ++ [e]) (received s) (flushed s).

Definition add_pending (n : Z) (s : audit) : audit :=
  MkAudit (queue s) (senders s) (wr s) (batch s) (cl s) (stopping s) (closed s) (canceled s) (table s) (lastErr s) (pending s + n) (dropped s) (written s) (failed s)
    (sent s) (received s) (flushed s).

(** What a call of Log does next, where it can. *)
Definition log_step (x : sender) (ch : choice) (s : audit) : option (sender * audit) :=
  match x, ch with
  | SEnter e, TakeLock => Some (if closed s then (SDropped, drop_ s) else (SSelect e, s))
  | SSelect e, Send => if (length (queue s) <? cap)%nat then Some (SAdd, enqueue e s) else None
  | SSelect e, DropFull => if dropOnFull c && negb (length (queue s) <? cap)%nat then Some (SDropped, drop_ s) else None
  | SSelect e, DropStopping => if negb (dropOnFull c) && stopping s then Some (SDropped, drop_ s) else None
  | SSelect e, DropCtx => if negb (dropOnFull c) then Some (SDropped, drop_ s) else None
  | SAdd, Count => Some (SSent, add_pending 1 s)
  | _, _ => None
  end.

(** *** The writer *)

Definition set_writer (w : writer) (s : audit) : audit :=
  MkAudit (queue s) (senders s) w (batch s) (cl s) (stopping s) (closed s) (canceled s) (table s) (lastErr s) (pending s) (dropped s) (written s) (failed s)
    (sent s) (received s) (flushed s).

(** It takes an event off the queue. *)
Definition receive (now : Z) (id : gostring) (s : audit) : option audit :=
  match wr s, queue s with
  | WLoop, e :: q =>
      match row marshal now id e with
      | Err _ =>
          Some (MkAudit q (senders s) WLoop (batch s) (cl s) (stopping s) (closed s) (canceled s) (table s) (lastErr s) (pending s - 1) (dropped s) (written s) (failed s + 1)
                  (sent s) (received s ++ [(e, None)]) (flushed s))
      | Ok r =>
          let b := batch s ++ [r] in
          Some (MkAudit q (senders s) (if (auditBatchSize <=? length b)%nat then WFlush OnFull else WLoop) b (cl s) (stopping s) (closed s) (canceled s) (table s) (lastErr s)
                  (pending s - 1) (dropped s) (written s) (failed s) (sent s) (received s ++ [(e, Some r)]) (flushed s))
      end
  | _, _ => None
  end.

(** [fail] and [succeed]: the failure Health reports. *)
Definition after_fail (now : Z) (s : audit) : option Z := if canceled s then lastErr s else Some now.

(** [flush]'s statement, and where the writer goes on. *)
Definition flush (ok : bool) (now : Z) (s : audit) : option audit :=
  match wr s with
  | WFlush k =>
      let w := match k with OnClosed => WDone | _ => WLoop end in
      let n := Z.of_nat (length (batch s)) in
      if (length (batch s) =? 0)%nat then Some (set_writer w s)
      else if ok then
        Some (MkAudit (queue s) (senders s) w [] (cl s) (stopping s) (closed s) (canceled s) (table s ++ batch s) None (pending s) (dropped s) (written s + n) (failed s)
                (sent s) (received s) (flushed s ++ [(batch s, true)]))
      else
        Some (MkAudit (queue s) (senders s) w [] (cl s) (stopping s) (closed s) (canceled s) (table s) (after_fail now s) (pending s) (dropped s) (written s) (failed s + n)
                (sent s) (received s) (flushed s ++ [(batch s, false)]))
  | _ => None
  end.

(** *** close *)

Definition holds_lock (x : sender) : bool := match x with SSelect _ | SAdd => true | _ => false end.

Definition close_stop (s : audit) : option audit :=
  match cl s with
  | CNone => Some (MkAudit (queue s) (senders s) (wr s) (batch s) CStopping true (closed s) (canceled s) (table s) (lastErr s) (pending s) (dropped s) (written s) (failed s)
                     (sent s) (received s) (flushed s))
  | _ => None
  end.

Definition close_lock (s : audit) : option audit :=
  match cl s with
  | CStopping =>
      if existsb holds_lock (senders s) then None
      else Some (MkAudit (queue s) (senders s) (wr s) (batch s) CWaiting (stopping s) true (canceled s) (table s) (lastErr s) (pending s) (dropped s) (written s) (failed s)
                   (sent s) (received s) (flushed s))
  | _ => None
  end.

Definition set_close (x : closer) (cancel : bool) (s : audit) : audit :=
  MkAudit (queue s) (senders s) (wr s) (batch s) x (stopping s) (closed s) cancel (table s) (lastErr s) (pending s) (dropped s) (written s) (failed s)
    (sent s) (received s) (flushed s).

Definition close_done (s : audit) : option audit :=
  match cl s, wr s with
  | CWaiting, WDone => Some (set_close (CClosed None) true s)
  | CGaveUp, WDone => Some (set_close (CClosed (Some (pending s))) true s)
  | _, _ => None
  end.

Definition close_give_up (s : audit) : option audit :=
  match cl s with CWaiting => Some (set_close CGaveUp true s) | _ => None end.

(** *** Steps *)

Inductive label :=
| LLog (e : Event doc)                         (* a call of Log begins *)
| LSender (i : nat) (ch : choice)
| LReceive (now : Z) (id : gostring) | LQueueClosed | LTimer | LCtxDone
| LFlush (ok : bool) (now : Z)
| LStop | LLock | LReturn | LGiveUp.

Definition step (l : label) (s : audit) : option audit :=
  match l with
  | LLog e => Some (set_senders (senders s ++ [SEnter e]) s)
  | LSender i ch =>
      match senders s !! i with
      | Some x => match log_step x ch s with Some (x', s') => Some (set_senders (<[i := x']> (senders s')) s') | None => None end
      | None => None
      end
  | LReceive now id => receive now id s
  | LQueueClosed => match wr s, queue s with WLoop, [] => if closed s then Some (set_writer (WFlush OnClosed) s) else None | _, _ => None end
  | LTimer => match wr s with WLoop => Some (set_writer (WFlush OnTimer) s) | _ => None end
  | LCtxDone => match wr s with WLoop => if canceled s then Some (set_writer WDone s) else None | _ => None end
  | LFlush ok now => flush ok now s
  | LStop => close_stop s
  | LLock => close_lock s
  | LReturn => close_done s
  | LGiveUp => close_give_up s
  end.

Fixpoint steps (ls : list label) (s : audit) : option audit :=
  match ls with [] => Some s | l :: ls' => match step l s with Some s' => steps ls' s' | None => None end end.

Definition reached (s : audit) : Prop := exists ls, steps ls newAudit = Some s.

(** [health]: the failure is recent. *)
Definition health (now : Z) (s : audit) : bool :=
  match lastErr s with Some t => negb (now - t <? auditFailWindow) | None => true end.

(** *** Retention *)

Definition auditPurgeBatch : nat := 1000.

(** [purge]: [fuel] bounds the rounds; the oldest rows before [cutoff] go, a
    batch at a time.  [select] answers a round's ids, [None] where a statement
    fails or the context ended. *)
Fixpoint purge (fuel : nat) (cutoff : Z) (select : list auditRow -> list auditRow) (ok : nat -> bool) (total : Z) (rows : list auditRow)
  : list auditRow * (Z * bool) :=
  match fuel with
  | O => (rows, (total, false))
  | S fuel' =>
      if negb (ok fuel') then (rows, (total, false))
      else
        let hit := take auditPurgeBatch (select (List.filter (fun r => r_OccurredAt r <? cutoff) rows)) in
        match hit with
        | [] => (rows, (total, true))
        | _ =>
            let rows' := List.filter (fun r => negb (existsb (fun h => seq_eqb (r_ID h) (r_ID r)) hit)) rows in
            let total' := total + (Z.of_nat (length rows) - Z.of_nat (length rows')) in
            if (length hit <? auditPurgeBatch)%nat then (rows', (total', true)) else purge fuel' cutoff select ok total' rows'
        end
  end.
End audit.
