(* ===== verification/AuditSpec.v ===== *)
(** What the audit log promises: every event is written once and in order, or
    counted among those that were not; nothing is sent on a closed channel;
    close without a deadline loses nothing.  And a run in which it loses
    events it does not report, and a record no database may take. *)

From Stdlib Require Import ZArith Lia List Ascii.
From stdpp Require Import base decidable list sets strings relations.
From S2P Require Import Prelude GoStrings GoTime Utf8 AuditLog.

Section spec.
Context {doc : Type} (marshal : doc -> option gostring) (c : config).

Notation step := (step marshal c).
Notation steps := (steps marshal c).
Notation reached := (reached marshal c).

(** The rows of what was received, and of what was flushed. *)
Definition rows_of (l : list (Event doc * option auditRow)) : list auditRow := omap snd l.
Definition bad (l : list (Event doc * option auditRow)) : list (Event doc * option auditRow) := List.filter (fun p => match p.2 with None => true | Some _ => false end) l.
Definition flushed_ok (l : list (list auditRow * bool)) : list auditRow := concat (map fst (List.filter (fun p => p.2) l)).
Definition flushed_bad (l : list (list auditRow * bool)) : list auditRow := concat (map fst (List.filter (fun p => negb p.2) l)).

Definition counting (P : sender -> bool) (s : audit (doc := doc)) : Z := Z.of_nat (length (List.filter P (senders s))).
Definition is_add (x : sender (doc := doc)) : bool := match x with SAdd => true | _ => false end.
Definition is_sent (x : sender (doc := doc)) : bool := match x with SAdd | SSent => true | _ => false end.
Definition is_dropped (x : sender (doc := doc)) : bool := match x with SDropped => true | _ => false end.

(** What the writer makes of an event: its row, or none for the caller's mistake. *)
Definition is_row (p : Event doc * option auditRow) : Prop :=
  exists now id, match p.2 with Some r => row marshal now id p.1 = Ok r | None => exists err, row marshal now id p.1 = Err err end.

Record audit_ok (s : audit (doc := doc)) : Prop := {
  ao_sent : sent s = map fst (received s) ++ queue s;
  ao_each : Forall is_row (received s);
  ao_rows : rows_of (received s) = concat (map fst (flushed s)) ++ batch s;
  ao_table : table s = flushed_ok (flushed s);
  ao_written : written s = Z.of_nat (length (table s));
  ao_failed : failed s = Z.of_nat (length (bad (received s))) + Z.of_nat (length (flushed_bad (flushed s)));
  ao_pending : pending s = Z.of_nat (length (queue s)) - counting is_add s;
  ao_dropped : dropped s = counting is_dropped s;
  ao_counted : counting is_sent s = Z.of_nat (length (sent s));
  ao_bound : (length (queue s) <= cap c)%nat /\ (length (batch s) <= auditBatchSize)%nat /\ (wr s = WLoop -> (length (batch s) < auditBatchSize)%nat);
  ao_lock : closed s = true -> forall x, x ∈ senders s -> holds_lock x = false;
  ao_close : (closed s = true <-> match cl s with CNone | CStopping => False | _ => True end)
             /\ (canceled s = true -> match cl s with CGaveUp | CClosed _ => True | _ => False end);
  ao_end : (wr s = WFlush OnClosed -> queue s = [] /\ closed s = true)
           /\ (wr s = WDone -> canceled s = false -> queue s = [] /\ batch s = [] /\ closed s = true);
  ao_done : match cl s with CClosed None => queue s = [] /\ batch s = [] /\ wr s = WDone | CClosed (Some _) => wr s = WDone | _ => True end;
}.

Lemma flushed_ok_snoc l b ok : flushed_ok (l ++ [(b, ok)]) = flushed_ok l ++ (if ok then b else []).
Proof. unfold flushed_ok. rewrite List.filter_app, map_app, concat_app. destruct ok; cbn; by rewrite ?app_nil_r. Qed.

Lemma flushed_bad_snoc l b ok : flushed_bad (l ++ [(b, ok)]) = flushed_bad l ++ (if ok then [] else b).
Proof. unfold flushed_bad. rewrite List.filter_app, map_app, concat_app. destruct ok; cbn; by rewrite ?app_nil_r. Qed.

Lemma counting_insert P s i x y : senders s !! i = Some x ->
  Z.of_nat (length (List.filter P (<[i := y]> (senders s)))) = counting P s - (if P x then 1 else 0) + (if P y then 1 else 0).
Proof.
  unfold counting. generalize (senders s). intros l. revert i. induction l as [|z l IH]; intros [|i] E; [done|done| |].
  - injection E as ->. cbn. destruct (P x), (P y); cbn; lia.
  - cbn in E. specialize (IH i E). change (<[S i:=y]> (z :: l)) with (z :: <[i:=y]> l). cbn [List.filter]. destruct (P z); cbn [length]; lia.
Qed.

Lemma newAudit_ok : audit_ok newAudit.
Proof. constructor; cbn; try done; try lia; repeat split; try done; unfold counting, auditBatchSize; cbn; lia. Qed.

Lemma batch_pos : (0 < auditBatchSize)%nat.
Proof. unfold auditBatchSize. lia. Qed.

Opaque auditBatchSize.

(** A call of Log, which touches its own place, the queue and the counters. *)
Lemma log_ok s i x ch x' s' : audit_ok s -> senders s !! i = Some x -> log_step c x ch s = Some (x', s') ->
  audit_ok (set_senders (<[i := x']> (senders s')) s').
Proof.
  intros O Ex E. assert (Cnt : forall P y, Z.of_nat (length (List.filter P (<[i := y]> (senders s)))) = counting P s - (if P x then 1 else 0) + (if P y then 1 else 0))
    by (intros; by apply counting_insert).
  assert (Lk : forall y, holds_lock y = false -> closed s = true -> forall z, z ∈ <[i := y]> (senders s) -> holds_lock z = false).
  { intros y Hy Hc z Hz. apply list_elem_of_lookup in Hz as (j & Hj). destruct (decide (i = j)) as [<-|N].
    - rewrite list_lookup_insert_eq in Hj by (by eapply lookup_lt_Some). by injection Hj as <-.
    - rewrite list_lookup_insert_ne in Hj by done. eapply (ao_lock _ O Hc), list_elem_of_lookup. eauto. }
  assert (Open : holds_lock x = true -> closed s = false).
  { intros Hx. destruct (closed s) eqn:Ec; [|done]. rewrite (ao_lock _ O Ec x) in Hx; [done|]. apply list_elem_of_lookup. eauto. }
  destruct O. unfold log_step in E. destruct x as [e|e| | |], ch; try done;
    repeat match type of E with (if ?b then _ else _) = _ => destruct b eqn:? | (match ?b with _ => _ end) = _ => destruct b eqn:? | Some (if ?b then _ else _) = _ => destruct b eqn:? end; try done;
    injection E as <- <-; cbn [holds_lock] in Open;
    (constructor; cbn [set_senders drop_ enqueue add_pending queue senders wr batch cl stopping closed canceled table lastErr pending dropped written failed sent received flushed];
       unfold counting in *; cbn [senders set_senders]; rewrite ?Cnt; cbn [is_add is_sent is_dropped]; try done; try lia).
  all: try match goal with H : closed _ = _ |- _ => rewrite ?H in * end; try done.
  all: try (by apply Lk).
  all: try (intros Hc; rewrite Open in Hc by done; done).
  - rewrite ao_sent0. by rewrite app_assoc.
  - rewrite length_app. cbn. lia.
  - rewrite length_app. cbn. lia.
  - rewrite length_app. cbn. apply Nat.ltb_lt in Heqb. split_and!; [lia|apply ao_bound0|apply ao_bound0].
  - specialize (Open eq_refl). split; [intros W; apply ao_end0 in W as [_ W]; congruence|].
    intros W C. destruct ao_end0 as [_ D]. destruct (D W C) as (_ & _ & D'). congruence.
  - specialize (Open eq_refl). destruct (cl s) as [| | | |[err|]] eqn:Ecl; try done. exfalso. destruct ao_close0 as [[_ Cc] _]. rewrite Cc in Open; done.
Qed.

Lemma receive_ok now id s s' : audit_ok s -> receive marshal now id s = Some s' -> audit_ok s'.
Proof.
  intros O E. unfold receive in E. destruct (wr s) eqn:Ew; [|done|done]. destruct (queue s) as [|e q] eqn:Eq; [done|].
  destruct O. rewrite Eq, Ew in *. specialize (proj2 (proj2 ao_bound0) eq_refl) as Lt.
  assert (Rw : forall o, rows_of (received s ++ [(e, o)]) = rows_of (received s) ++ (match o with Some r => [r] | None => [] end)).
  { intros o. unfold rows_of. rewrite omap_app. cbn. by destruct o. }
  assert (Bd : forall o, length (bad (received s ++ [(e, o)])) = (length (bad (received s)) + (match o with Some _ => 0 | None => 1 end))%nat).
  { intros o. unfold bad. rewrite List.filter_app, length_app. by destruct o. }
  assert (Nd : match cl s with CClosed None => False | CClosed (Some _) => False | _ => True end).
  { destruct (cl s) as [| | | |[err|]]; try done. by destruct ao_done0. }
  assert (Ea : Forall is_row (received s ++ [(e, match row marshal now id e with Ok r => Some r | Err _ => None end)])).
  { apply Forall_app. split; [done|]. repeat constructor. exists now, id. cbn. destruct (row marshal now id e); eauto. }
  destruct (row marshal now id e) as [r|]; injection E as <-; constructor;
    cbn [queue senders wr batch cl stopping closed canceled table lastErr pending dropped written failed sent received flushed];
    unfold counting in *; cbn [senders]; rewrite ?map_app, ?Rw, ?Bd, ?app_nil_r, <- ?app_assoc; cbn [map app fst length] in *; try done; try lia.
  - rewrite ao_rows0, <- app_assoc. done.
  - rewrite length_app. cbn [length]. split_and!; [lia|lia|]. destruct (Nat.leb_spec auditBatchSize (length (batch s) + 1)); [done|lia].
  - destruct (auditBatchSize <=? _)%nat; done.
  - destruct (cl s) as [| | | |[err|]]; done.
  - destruct (cl s) as [| | | |[err|]]; done.
Qed.

Lemma flush_ok ok now s s' : audit_ok s -> flush ok now s = Some s' -> audit_ok s'.
Proof.
  intros O E. unfold flush in E. destruct (wr s) as [|k|] eqn:Ew; [done| |done]. destruct O. rewrite Ew in *.
  assert (Nd : match cl s with CClosed None => False | CClosed (Some _) => False | _ => True end).
  { destruct (cl s) as [| | | |[err|]]; try done. by destruct ao_done0 as (_ & _ & ?). }
  pose proof batch_pos.
  destruct (Nat.eqb_spec (length (batch s)) 0) as [Z|Nz].
  - apply length_zero_iff_nil in Z. injection E as <-. constructor; cbn [set_writer queue senders wr batch cl stopping closed canceled table lastErr pending dropped written failed sent received flushed]; try done.
    + rewrite Z. cbn. split_and!; [apply ao_bound0|lia|lia].
    + destruct k; split; try done. intros _ _. destruct ao_end0 as [D _]. destruct (D eq_refl). done.
    + destruct (cl s) as [| | | |[err|]]; done.
  - destruct ok; injection E as <-; constructor;
      cbn [queue senders wr batch cl stopping closed canceled table lastErr pending dropped written failed sent received flushed];
      rewrite ?map_app, ?concat_app, ?flushed_ok_snoc, ?flushed_bad_snoc, ?app_nil_r, ?length_app; cbn [map fst concat length app]; rewrite ?app_nil_r; try done; try lia.
    + by rewrite ao_table0.
    + destruct k; split; try done. intros _ _. destruct ao_end0 as [D _]. destruct (D eq_refl). done.
    + destruct (cl s) as [| | | |[err|]]; done.
    + destruct k; split; try done. intros _ _. destruct ao_end0 as [D _]. destruct (D eq_refl). done.
    + destruct (cl s) as [| | | |[err|]]; done.
Qed.
(** The steps of close, of the writer's select, and of a call that begins. *)
Lemma writer_ok s w : audit_ok s -> wr s = WLoop -> (w = WFlush OnTimer \/ w = WFlush OnClosed /\ queue s = [] /\ closed s = true \/ w = WDone /\ canceled s = true) ->
  audit_ok (set_writer w s).
Proof.
  intros O Ew C. destruct O. rewrite Ew in *.
  assert (Nd : match cl s with CClosed _ => False | _ => True end). { destruct (cl s) as [| | | |[err|]]; try done. by destruct ao_done0 as (_ & _ & ?). }
  constructor; cbn [set_writer queue senders wr batch cl stopping closed canceled table lastErr pending dropped written failed sent received flushed]; try done.
  - split_and!; [apply ao_bound0..|intros _; by apply ao_bound0].
  - destruct C as [->|[(-> & Q & Cd)|(-> & Cc)]]; split; try done. intros _ ?. congruence.
  - destruct (cl s); done.
Qed.

Lemma unlocked l : existsb (holds_lock (doc := doc)) l = false -> forall x, x ∈ l -> holds_lock x = false.
Proof.
  intros E x Hx. destruct (holds_lock x) eqn:Eh; [|done]. rewrite <- E. symmetry. apply existsb_exists. exists x. by split; [apply list_elem_of_In|].
Qed.

Lemma close_ok s s' : audit_ok s -> close_stop s = Some s' \/ close_lock s = Some s' \/ close_done s = Some s' \/ close_give_up s = Some s' -> audit_ok s'.
Proof.
  intros O E. assert (H : closed s = true -> ~ (cl s = CNone \/ cl s = CStopping)).
  { intros Hc [H|H]; apply (proj1 (ao_close _ O)) in Hc; by rewrite H in Hc. }
  destruct O, ao_close0 as [C1 C2], ao_end0 as [E1 E2].
  assert (Cn : (match cl s with CNone | CStopping | CWaiting => True | _ => False end) -> canceled s = false).
  { intros M. destruct (canceled s); [|done]. specialize (C2 eq_refl). by destruct (cl s). }
  unfold close_stop, close_lock, close_done, close_give_up in E. destruct E as [E|[E|[E|E]]], (cl s) as [| | | |?] eqn:Ec; try done.
  all: try (destruct (wr s) eqn:Ew; try done).
  all: try (destruct (existsb holds_lock (senders s)) eqn:Ex; try done).
  all: injection E as <-; constructor;
    cbn [set_close queue senders wr batch cl stopping closed canceled table lastErr pending dropped written failed sent received flushed]; rewrite ?Ew; try done.
  all: try (intros _; by apply unlocked).
  all: try (split; [intros D; destruct (E1 D); by split|intros D Cc; destruct (E2 D Cc) as (? & ? & ?); by split_and!]).
  all: destruct (E2 eq_refl (Cn I)) as (? & ? & ?); by split_and!.
Qed.

Lemma begin_ok s e : audit_ok s -> audit_ok (set_senders (senders s ++ [SEnter e]) s).
Proof.
  intros O. destruct O. constructor; cbn [set_senders queue senders wr batch cl stopping closed canceled table lastErr pending dropped written failed sent received flushed]; try done;
    unfold counting in *; cbn [senders set_senders]; rewrite ?List.filter_app; cbn; rewrite ?app_nil_r; try done.
  intros Hc x [Hx|Hx]%elem_of_app; [by apply ao_lock0|]. by apply list_elem_of_singleton in Hx as ->.
Qed.

Lemma audit_step_ok l s s' : audit_ok s -> step l s = Some s' -> audit_ok s'.
Proof.
  intros O E. destruct l as [e|i ch|now id| | | |ok now| | | |]; cbn in E.
  - injection E as <-. by apply begin_ok.
  - destruct (senders s !! i) as [x|] eqn:Ex; [|done]. destruct (log_step c x ch s) as [[x' s1]|] eqn:El; [|done].
    injection E as <-. by eapply log_ok.
  - by eapply receive_ok.
  - destruct (wr s) eqn:Ew; [|done|done]. destruct (queue s) eqn:Eq; [|done]. destruct (closed s) eqn:Ec; [|done].
    injection E as <-. apply writer_ok; auto 6.
  - destruct (wr s) eqn:Ew; [|done|done]. injection E as <-. apply writer_ok; auto.
  - destruct (wr s) eqn:Ew; [|done|done]. destruct (canceled s) eqn:Ec; [|done]. injection E as <-. apply writer_ok; auto 6.
  - by eapply flush_ok.
  - eapply close_ok; eauto.
  - eapply close_ok; eauto.
  - eapply close_ok; eauto.
  - eapply close_ok; eauto 6.
Qed.

Lemma audit_reached_ok s : reached s -> audit_ok s.
Proof.
  intros (ls & E). assert (H : forall ls s0, audit_ok s0 -> steps ls s0 = Some s -> audit_ok s).
  { clear. induction ls as [|l ls IH]; intros s0 O E; cbn in E; [by injection E as <-|]. destruct (step l s0) as [s1|] eqn:E1; [|done]. eapply IH; [|done]. by eapply audit_step_ok. }
  eapply H; [apply newAudit_ok|exact E].
Qed.

Lemma received_split l : length l = (length (rows_of l) + length (bad l))%nat.
Proof. unfold rows_of, bad. induction l as [|[e [r|]] l IH]; cbn; [done|rewrite IH; cbn; lia|rewrite IH; cbn; lia]. Qed.

Lemma flushed_split l : length (concat (map fst l)) = (length (flushed_ok l) + length (flushed_bad l))%nat.
Proof.
  unfold flushed_ok, flushed_bad. induction l as [|[b ok] l IH]; [done|]. cbn. destruct ok; cbn; rewrite !length_app, IH; lia.
Qed.

Lemma flushed_sublist l : flushed_ok l `sublist_of` concat (map fst l).
Proof.
  induction l as [|[b ok] l IH]; [constructor|]. unfold flushed_ok. cbn. destruct ok; cbn.
  - by apply sublist_app.
  - by apply sublist_inserts_l.
Qed.

Lemma conserved s : audit_ok s -> Z.of_nat (length (sent s)) = written s + failed s + Z.of_nat (length (batch s)) + Z.of_nat (length (queue s)).
Proof.
  intros []. rewrite ao_sent0, ao_written0, ao_failed0, ao_table0, length_app, length_map, (received_split (received s)), ao_rows0, length_app, flushed_split. lia.
Qed.

(** [C13] Every event that Log queued is accounted for, in any interleaving of
    the callers, the writer and close: the queue continues, in order, what the
    writer received; each event received became the row that [row] makes of
    it, or was refused as the caller's mistake; the table holds rows received,
    in their order and none twice; and the counters agree: queued = written +
    failed + in the batch + in the queue, with at most the buffer's capacity
    waiting and 100 in the batch. *)
Theorem audit_accounts (s : audit (doc := doc)) :
  reached s ->
  Forall is_row (received s) /\ sent s = map fst (received s) ++ queue s /\ table s `sublist_of` rows_of (received s)
  /\ Z.of_nat (length (sent s)) = written s + failed s + Z.of_nat (length (batch s)) + Z.of_nat (length (queue s))
  /\ written s = Z.of_nat (length (table s)) /\ pending s + counting is_add s = Z.of_nat (length (queue s)) /\ dropped s = counting is_dropped s
  /\ (length (queue s) <= cap c)%nat /\ (length (batch s) <= auditBatchSize)%nat.
Proof.
  intros O%audit_reached_ok. pose proof (conserved s O). destruct O, ao_bound0 as (? & ? & ?). split_and!; try done; try lia.
  rewrite ao_table0, ao_rows0. apply sublist_inserts_r, flushed_sublist.
Qed.

(** Once the channel is closed and the writer gone, nothing is sent or written. *)
Lemma over_step l s s' : audit_ok s -> closed s = true -> wr s = WDone -> step l s = Some s' ->
  closed s' = true /\ wr s' = WDone /\ table s' = table s /\ sent s' = sent s.
Proof.
  intros O Hc Ew E. destruct l as [e|i ch|now id| | | |ok now| | | |]; cbn in E.
  - injection E as <-. done.
  - destruct (senders s !! i) as [x|] eqn:Ex; [|done]. destruct (log_step c x ch s) as [[x' s1]|] eqn:El; [|done]. injection E as <-.
    assert (Hx : holds_lock x = false) by (apply (ao_lock _ O Hc), list_elem_of_lookup; eauto).
    unfold log_step in El. destruct x, ch; try done. rewrite Hc in El. by injection El as <- <-.
  - unfold receive in E. by rewrite Ew in E.
  - by rewrite Ew in E.
  - by rewrite Ew in E.
  - by rewrite Ew in E.
  - unfold flush in E. by rewrite Ew in E.
  - unfold close_stop in E. destruct (cl s); try done. by injection E as <-.
  - unfold close_lock in E. destruct (cl s); try done. destruct (existsb holds_lock (senders s)); try done. by injection E as <-.
  - unfold close_done in E. rewrite Ew in E. destruct (cl s); try done; by injection E as <-.
  - unfold close_give_up in E. destruct (cl s); try done. by injection E as <-.
Qed.

Lemma over_steps ls s s' : audit_ok s -> closed s = true -> wr s = WDone -> steps ls s = Some s' -> table s' = table s /\ sent s' = sent s.
Proof.
  revert s. induction ls as [|l ls IH]; intros s O Hc Ew E; cbn in E; [by injection E as <-|].
  destruct (step l s) as [s1|] eqn:E1; [|done]. destruct (over_step _ _ _ O Hc Ew E1) as (Hc1 & Ew1 & <- & <-).
  apply IH; try done. by eapply audit_step_ok.
Qed.

(** A close that returns no error lost nothing: the queue and the batch are
    empty, every event Log queued is written or counted failed, nobody is left
    at its send, and whatever runs after it neither queues nor writes. *)
Theorem audit_close_complete (s : audit (doc := doc)) (H : reached s) (Hc : cl s = CClosed None) :
  queue s = [] /\ batch s = [] /\ Z.of_nat (length (sent s)) = written s + failed s /\ (forall x, x ∈ senders s -> holds_lock x = false)
  /\ forall ls s', steps ls s = Some s' -> table s' = table s /\ sent s' = sent s.
Proof.
  apply audit_reached_ok in H as O. pose proof (conserved s O) as Cs. pose proof (ao_done _ O) as D. pose proof (ao_close _ O) as [[_ Cl] _].
  rewrite Hc in D, Cl. destruct D as (Q & B & W). specialize (Cl I). rewrite Q, B in *. cbn in Cs. split_and!; try done; try lia.
  - by apply ao_lock.
  - intros ls s'. by apply over_steps.
Qed.

(** No send on a closed channel: while a call of Log is at its send the
    channel is open, and close, which would close it, does not get the lock. *)
Theorem audit_send_open (s : audit (doc := doc)) (i : nat) (x : sender) (H : reached s) (Hi : senders s !! i = Some x) (Hx : holds_lock x = true) :
  closed s = false /\ close_lock s = None.
Proof.
  apply audit_reached_ok in H as O. assert (Hin : x ∈ senders s) by (apply list_elem_of_lookup; eauto). split.
  - destruct (closed s) eqn:Hc; [|done]. by rewrite (ao_lock _ O Hc x Hin) in Hx.
  - unfold close_lock. destruct (cl s); try done. destruct (existsb holds_lock (senders s)) eqn:Ex; [done|].
    by rewrite (unlocked _ Ex x Hin) in Hx.
Qed.
End spec.

(** ** What a record may hold *)

Lemma purge_pos : (0 < auditPurgeBatch)%nat.
Proof. unfold auditPurgeBatch. lia. Qed.

Opaque auditReasonMax auditPurgeBatch.

Lemma seq_eqb_nil s : seq_eqb s [] = false -> s <> [].
Proof. intros E ->. done. Qed.

(** [row] refuses an event without an Action, and gives the columns their
    defaults and the reason its bound. *)
Lemma row_fits {doc} (marshal : doc -> option gostring) now id e r : row marshal now id e = Ok r ->
  r_Action r = Action e /\ r_Action r <> [] /\ r_Result r <> [] /\ (length (r_Reason r) <= auditReasonMax)%nat /\ (r_ActorID r <> [] -> r_ActorType r <> []).
Proof.
  unfold row. intros E. destruct (seq_eqb (Action e) []) eqn:Ea; [discriminate|].
  destruct (marshalJSON marshal (Before e) BadBefore) as [b|]; [|discriminate].
  destruct (marshalJSON marshal (After e) BadAfter) as [a|]; [|discriminate].
  destruct (marshalJSON marshal (Metadata e) BadMetadata) as [m|]; [|discriminate]. injection E as <-.
  cbn [r_Action r_Result r_Reason r_ActorID r_ActorType]. split; [reflexivity|]. split; [by apply seq_eqb_nil|]. split; [|split].
  - unfold or_else. destruct (seq_eqb (Result e) []) eqn:Er; [discriminate|by apply seq_eqb_nil].
  - destruct (Nat.ltb_spec auditReasonMax (length (Reason e))) as [L|L]; [rewrite length_take|]; lia.
  - intros Na. destruct (seq_eqb (ActorType e) []) eqn:Et; [|by apply seq_eqb_nil].
    destruct (seq_eqb (ActorID e) []) eqn:Ei; [|done]. unfold seq_eqb in Ei. by apply bool_decide_eq_true_1 in Ei.
Qed.

(** ** Retention *)

Lemma purged_ids (rows hit : list auditRow) : NoDup (map r_ID rows) -> hit ⊆ rows ->
  forall r, r ∈ rows -> existsb (fun h => seq_eqb (r_ID h) (r_ID r)) hit = true <-> r ∈ hit.
Proof.
  intros Nd Sub r Hr. rewrite existsb_exists. split.
  - intros (h & Hh%list_elem_of_In & Eh). unfold seq_eqb in Eh. apply bool_decide_eq_true_1 in Eh.
    assert (h = r) as <-; [|done]. pose proof (Sub _ Hh) as Hh'. apply list_elem_of_lookup in Hr as (i & Hi). apply list_elem_of_lookup in Hh' as (j & Hj).
    assert (i = j) as <-; [|congruence]. eapply (NoDup_lookup _ i j (r_ID r) Nd); rewrite list_lookup_fmap, ?Hi, ?Hj; cbn; congruence.
  - intros Hh. exists r. split; [by apply list_elem_of_In|]. unfold seq_eqb. by apply bool_decide_eq_true_2.
Qed.

Lemma filter_both {A} (f g : A -> bool) l : (forall x, x ∈ l -> f x = true -> g x = true) -> List.filter f (List.filter g l) = List.filter f l.
Proof.
  induction l as [|x l IH]; intros H; [done|]. cbn. destruct (g x) eqn:Eg; cbn.
  - destruct (f x); rewrite IH; try done; intros y Hy; apply H; by right.
  - destruct (f x) eqn:Ef; [rewrite (H x) in Eg; [done|by left|done]|]. apply IH. intros y Hy. apply H. by right.
Qed.

Section purge.
Context (cutoff : Z) (select : list auditRow -> list auditRow) (Select : forall l, select l ≡ₚ l).

Definition expired (r : auditRow) : bool := r_OccurredAt r <? cutoff.
Definition kept (r : auditRow) : bool := negb (expired r).

Lemma expired_split rows : (length (List.filter expired rows) + length (List.filter kept rows) = length rows)%nat.
Proof. unfold kept. pose proof (List.filter_length expired rows). lia. Qed.

(** One round: what goes is expired and among the rows, the whole of it when
    it does not fill a batch. *)
Lemma purge_round rows hit : NoDup (map r_ID rows) -> hit = take auditPurgeBatch (select (List.filter expired rows)) ->
  let rows' := List.filter (fun r => negb (existsb (fun h => seq_eqb (r_ID h) (r_ID r)) hit)) rows in
  List.filter kept rows' = List.filter kept rows /\ NoDup (map r_ID rows')
  /\ (hit <> [] -> (length (List.filter expired rows') < length (List.filter expired rows))%nat)
  /\ ((length hit < auditPurgeBatch)%nat -> rows' = List.filter kept rows).
Proof.
  intros Nd Eh rows'.
  assert (In : forall r, r ∈ hit -> r ∈ rows /\ expired r = true).
  { intros r Hr. rewrite Eh in Hr. apply elem_of_take in Hr as (i & Hi & _). apply list_elem_of_lookup_2 in Hi.
    rewrite Select in Hi. by apply list_elem_of_In, filter_In in Hi as [Hi%list_elem_of_In ?]. }
  assert (Ids := fun r => purged_ids rows hit Nd (fun r Hr => proj1 (In r Hr)) r).
  assert (Kept : List.filter kept rows' = List.filter kept rows).
  { apply filter_both. intros r Hr Hk. apply negb_true_iff. destruct (existsb _ hit) eqn:E; [|done].
    apply Ids, In in E as [_ E]; [|done]. unfold kept in Hk. by rewrite E in Hk. }
  split_and!; [done| | |].
  - unfold rows'. clear -Nd. generalize (fun r => negb (existsb (fun h => seq_eqb (r_ID h) (r_ID r)) hit)). intros g.
    induction rows as [|r rows IH]; cbn in *; [constructor|]. apply NoDup_cons in Nd as [N Nd]. destruct (g r); cbn; [|by apply IH].
    apply NoDup_cons. split; [|by apply IH]. intros H. apply N. apply list_elem_of_fmap in H as (x & -> & Hx%list_elem_of_In).
    apply filter_In in Hx as [Hx _]. by apply list_elem_of_fmap_2, list_elem_of_In.
  - intros Nz. destruct hit as [|h hit']; [done|]. destruct (In h) as [Hr He]; [by left|].
    pose proof (expired_split rows) as S1. pose proof (expired_split rows') as S2. rewrite Kept in S2.
    assert (length rows' < length rows)%nat; [|lia]. apply (filter_shorter _ _ h); [by apply list_elem_of_In|]. apply negb_false_iff, Ids; [done|by left].
  - intros L. unfold rows'. apply filter_ext_in. intros r Hr%list_elem_of_In. unfold kept. f_equal.
    assert (Full : r ∈ hit <-> r ∈ List.filter expired rows).
    { rewrite Eh, take_ge, Select; [done|]. rewrite Eh, length_take in L. lia. }
    destruct (expired r) eqn:E.
    + apply Ids, Full, list_elem_of_In, filter_In; [done|]. split; [by apply list_elem_of_In|done].
    + apply not_true_is_false. intros H%Ids%Full; [|done]. apply list_elem_of_In, filter_In in H as [_ H]. by rewrite E in H.
Qed.

(** A sweep that no statement stops deletes the records that occurred
    before the cutoff, all of them and no other, in batches of 1000, and
    returns how many; the rounds end, one more than the expired records being
    enough of them. *)
Theorem purge_exact (fuel : nat) (total : Z) (rows : list auditRow) (Nd : NoDup (map r_ID rows))
  (Fuel : (length (List.filter expired rows) < fuel)%nat) :
  purge fuel cutoff select (fun _ => true) total rows
  = (List.filter kept rows, (total + Z.of_nat (length (List.filter expired rows)), true)).
Proof.
  revert total rows Nd Fuel. induction fuel as [|fuel IH]; intros total rows Nd Fuel; [lia|]. cbn [purge negb].
  fold expired. set (hit := take auditPurgeBatch (select (List.filter expired rows))).
  destruct (purge_round rows hit Nd eq_refl) as (Kept & Nd' & Less & Whole). pose proof (expired_split rows) as S1.
  destruct hit as [|h hit'] eqn:Eh.
  - assert (Z0 : length (List.filter expired rows) = 0%nat).
    { rewrite <- (Permutation_length (Select (List.filter expired rows))). unfold hit in Eh. apply (f_equal length) in Eh. rewrite length_take in Eh. cbn in Eh. pose proof purge_pos. lia. }
    rewrite <- Whole by apply purge_pos. rewrite Z0. cbn. rewrite forallb_filter_id by (apply forallb_forall; done). by rewrite Z.add_0_r.
  - set (rows' := List.filter (fun r => negb (existsb (fun h0 => seq_eqb (r_ID h0) (r_ID r)) (h :: hit'))) rows) in *. pose proof (expired_split rows') as S2. rewrite Kept in S2.
    destruct (Nat.ltb_spec (length (h :: hit')) auditPurgeBatch) as [L|L].
    + rewrite Whole by done. f_equal. f_equal. lia.
    + rewrite IH; [|done|specialize (Less ltac:(done)); lia]. rewrite Kept. f_equal. f_equal. lia.
Qed.
End purge.

(** ** Concrete runs *)

Section demo.
Definition demo_marshal (d : unit) : option gostring := Some (str "{}").
Definition demo_config : config := MkConfig 2 true.
Definition demo_event (action : gostring) : Event unit :=
  MkEvent 5 action [] (str "user") (str "usr_1") (str "usr_1") [] (str "10.0.0.1") None (Some tt) (str "signed in") None [] (str "req_1").

Notation run ls := (steps demo_marshal demo_config ls newAudit).

(** One event written at close, one refused for want of an Action, a third
    dropped for a full queue. *)
Definition demo_clean : list (label (doc := unit)) :=
  [LLog (demo_event (str "login")); LLog (demo_event []); LLog (demo_event (str "late"));
   LSender 0 TakeLock; LSender 0 Send; LSender 1 TakeLock; LSender 1 Send; LSender 2 TakeLock; LSender 2 DropFull;
   LReceive 9 (str "aud_1"); LSender 0 Count; LReceive 9 (str "aud_2"); LSender 1 Count;
   LStop; LLock; LQueueClosed; LFlush true 10; LReturn].

(** Two calls wait at their sends. *)
Definition demo_waiting : list (label (doc := unit)) :=
  [LLog (demo_event (str "login")); LSender 0 TakeLock; LStop].

Definition demo_state (ls : list (label (doc := unit))) : audit (doc := unit) := match run ls with Some s => s | None => newAudit end.

Lemma audit_demo_reached ls : (match run ls with Some _ => true | None => false end) = true -> reached demo_marshal demo_config (demo_state ls).
Proof. intros H. exists ls. unfold demo_state. by destruct (run ls). Qed.

Lemma audit_accounts_witness :
  (let s := demo_state demo_clean in
   (length (sent s), written s, failed s, pending s, dropped s) = (2%nat, 1, 1, 0, 1) /\ map r_ID (table s) = [str "aud_1"])
  /\ Z.of_nat (length (sent (demo_state demo_clean))) = written (demo_state demo_clean) + failed (demo_state demo_clean)
       + Z.of_nat (length (batch (demo_state demo_clean))) + Z.of_nat (length (queue (demo_state demo_clean))).
Proof.
  split; [vm_compute; split; reflexivity|].
  destruct (audit_accounts demo_marshal demo_config (demo_state demo_clean) (audit_demo_reached demo_clean ltac:(vm_compute; reflexivity))) as (_ & _ & _ & H & _). exact H.
Defined.

Lemma audit_close_complete_witness : queue (demo_state demo_clean) = [].
Proof.
  exact (proj1 (audit_close_complete demo_marshal demo_config (demo_state demo_clean)
    (audit_demo_reached demo_clean ltac:(vm_compute; reflexivity)) ltac:(vm_compute; reflexivity))).
Defined.

Lemma audit_send_open_witness : close_lock (demo_state demo_waiting) = None.
Proof.
  refine (proj2 (audit_send_open demo_marshal demo_config (demo_state demo_waiting) 0 (SSelect (demo_event (str "login")))
    (audit_demo_reached demo_waiting ltac:(vm_compute; reflexivity)) _ _)); vm_compute; reflexivity.
Defined.

Definition demo_row (id : gostring) (at_ : Z) : auditRow := MkRow id at_ (str "login") ResultSuccess [] [] [] [] [] [] [] [] [] [] [].

Lemma purge_exact_witness :
  purge 3 10 (fun l => l) (fun _ => true) 0 [demo_row (str "aud_1") 4; demo_row (str "aud_2") 12; demo_row (str "aud_3") 9]
  = ([demo_row (str "aud_2") 12], (2, true)).
Proof.
  rewrite (purge_exact 10 (fun l => l) (fun l => Permutation_refl l) 3 0 [demo_row (str "aud_1") 4; demo_row (str "aud_2") 12; demo_row (str "aud_3") 9]).
  - vm_compute. reflexivity.
  - apply (bool_decide_unpack _). vm_compute. exact I.
  - vm_compute. lia.
Defined.

(** close gives up on its context with a batch in the writer's hands: the
    event is neither written nor counted failed, and the error reports no
    event lost. *)
Lemma close_loses_batch :
  let s := demo_state [LLog (demo_event (str "login")); LSender 0 TakeLock; LSender 0 Send; LSender 0 Count; LReceive 9 (str "aud_1");
                       LStop; LLock; LGiveUp; LCtxDone; LReturn] in
  cl s = CClosed (Some 0) /\ length (sent s) = 1%nat /\ written s = 0 /\ failed s = 0 /\ table s = [] /\ length (batch s) = 1%nat.
Proof. vm_compute. repeat split. Qed.

(** The reason is cut at 512 bytes, inside a character: a reason that is valid
    UTF-8 becomes a column that is not. *)
Lemma reason_cut_invalid :
  let reason := repeat (ascii_of_nat 97) 511 ++ [ascii_of_nat 195; ascii_of_nat 169] in
  let e := MkEvent (doc := unit) 5 (str "login") [] [] [] [] [] [] None None reason None [] [] in
  ValidString reason = true
  /\ match row demo_marshal 9 (str "aud_1") e with Ok r => ValidString (r_Reason r) = false | Err _ => False end.
Proof. vm_compute. split; reflexivity. Qed.
End demo.
