(* ===== verification/App.v ===== *)
(** app.go, health.go, signal.go: the life of an App.  Registration, the one
    call of Run or Close that owns the components, and, on a clock, how a run
    starts, serves and stops.

    What is outside - the components' methods, the listener, when contexts end
    and signals come - is an environment of functions of the instant.  Calls
    of the App's own take no time; it passes where the code waits.  Where a
    select finds several channels ready Go takes any of them: here a result
    comes before the end of a context, and that before a timer. *)

From Stdlib Require Import ZArith Lia List Ascii.
From stdpp Require Import base decidable list sorting relations.
From S2P Require Import Prelude GoStrings GoTime.

(** ** Registration *)

Record component := Component {
  c_name : gostring; isStarter : bool; isCloser : bool; isHealther : bool; isMounter : bool; isInstrumenter : bool;
}.

Record App := MkApp {
  components : list component; instrumenters : list component; mounted : list component; started : bool; handlerBuilt : bool;
}.

Definition newApp : App := MkApp [] [] [] false false.

Inductive panic := UseAfterRun | UseNil | UseInstrumenterLate.

Definition implements_any (c : component) : bool := isStarter c || isCloser c || isHealther c || isMounter c || isInstrumenter c.

Definition register (c : component) (a : App) : App :=
  MkApp (components a ++ [c]) (if isInstrumenter c then instrumenters a ++ [c] else instrumenters a) (mounted a) (started a) (handlerBuilt a).

(** [Use]'s loop: [mount] is what it will mount once it has let go of the lock;
    a panic leaves what was registered before it. *)
Fixpoint use_loop (cs : list (option component)) (mount : list component) (a : App) : App * (option panic * list component) :=
  match cs with
  | [] => (a, (None, mount))
  | None :: _ => (a, (Some UseNil, []))
  | Some c :: cs' =>
      if isInstrumenter c && handlerBuilt a then (a, (Some UseInstrumenterLate, []))
      else if negb (implements_any c) then use_loop cs' mount a
      else use_loop cs' (if isMounter c then mount ++ [c] else mount) (register c a)
  end.

Definition Use (cs : list (option component)) (a : App) : App * option panic :=
  if started a then (a, Some UseAfterRun)
  else
    let '(a', (p, mount)) := use_loop cs [] a in
    (MkApp (components a') (instrumenters a') (mounted a' ++ mount) (started a') (handlerBuilt a'), p).

(** [Handler]'s first call fixes the middleware stack. *)
Definition Handler (a : App) : App := MkApp (components a) (instrumenters a) (mounted a) (started a) true.

(** ** The environment of a run *)

Inductive cause := Canceled | FastStop | DeadlineExceeded.

Record environment := Env {
  e_ctx : option (Z * cause);                        (* when Run's context ends, and of what *)
  e_hurry : option Z;                                (* when a stop turns fast *)
  e_fails : nat -> option Z;                         (* when a Start fails by itself *)
  e_stops : nat -> Z -> option (Z * bool);           (* how long it takes to return once canceled, and without error? *)
  e_health : nat -> Z -> option (Z * bool);          (* a check called at an instant: how long it takes, and its answer *)
  e_listen : bool; e_serve : option Z;               (* the listener opens; when serving fails *)
  e_probed : option Z;                               (* the first probe *)
  e_shutdown : Z -> option Z;                        (* how long open requests take *)
  e_close : nat -> Z -> Z -> option (Z * bool);      (* a Close called at, its context ending at: how long, and without error? *)
}.

Record base := Base {
  HTTPEnabled : bool; StartTimeout : Z; ShutdownTimeout : Z; DrainDelay : Z; HTTPShutdownTimeout : Z; ProbeTimeout : Z;
}.

Definition timeout_or (d dflt : Z) : Z := if d <=? 0 then dflt else d.

Definition fastStopBudget : Z := 5 * Second.
Definition closeGrace : Z := Second.

Definition passed (t : Z) (o : option Z) : bool := match o with Some x => x <=? t | None => false end.

(** The sooner of an instant and one that may never come. *)
Definition sooner (t : Z) (o : option Z) : Z := match o with Some x => Z.min t x | None => t end.

Section run.
Context (b : base) (e : environment).

(** Components with their places. *)
Definition numbered (cs : list component) : list (nat * component) := imap pair cs.

(** ** Health *)

Record healthEntry := HealthEntry { h_component : gostring; h_up : bool }.

Definition by_component (x y : healthEntry) : Prop := str_le (h_component x) (h_component y).
#[local] Instance by_component_dec : RelDecision by_component.
Proof. intros x y. unfold by_component. apply _. Defined.

(** [callHealth] under a context that ends at [lim]. *)
Definition callHealth (i : nat) (t lim : Z) : Z * bool :=
  match e_health e i t with
  | Some (d, ok) => if t + d <=? Z.max t lim then (t + d, ok) else (Z.max t lim, false)
  | None => (Z.max t lim, false)
  end.

(** [checkHealth], called at [t] under a context that ends at [ctx]: when it
    answers, whether all are up, and the report, by name. *)
Definition checkHealth (cs : list component) (t ctx : Z) : Z * (bool * list healthEntry) :=
  let lim := Z.min (t + timeout_or (ProbeTimeout b) (3 * Second)) ctx in
  let checks := map (fun p => (callHealth p.1 t lim, p.2)) (List.filter (fun p => isHealther p.2) (numbered cs)) in
  let entries := map (fun x => HealthEntry (c_name x.2) x.1.2) checks in
  (foldr (fun x m => Z.max x.1.1 m) t checks,
   (forallb h_up entries, merge_sort by_component entries)).

(** ** Start *)

(** The first Start to fail by itself. *)
Definition first_of (x y : option (Z * nat)) : option (Z * nat) :=
  match x, y with
  | Some (t, i), Some (u, j) => if u <? t then Some (u, j) else Some (t, i)
  | Some _, None => x
  | None, _ => y
  end.

Definition first_failure (cs : list component) : option (Z * nat) :=
  foldr (fun p acc => if isStarter p.2 then match e_fails e p.1 with Some t => first_of (Some (t, p.1)) acc | None => acc end else acc)
    None (numbered cs).

(** What the channel of failures holds by [t]. *)
Definition failed_by (cs : list component) (t : Z) : option (nat * Z) :=
  match first_failure cs with Some (f, i) => if f <=? t then Some (i, f) else None | None => None end.

Inductive awaited := Healthy (t : Z) | StartFailed (i : nat) (t : Z) | NotHealthy (report : list healthEntry) (t : Z) | OutOfFuel.

(** [awaitHealthy], from a poll at [t]; [ctx] is when its context ends. *)
Fixpoint awaitHealthy (fuel : nat) (cs : list component) (t wait ctx : Z) : awaited :=
  match fuel with
  | O => OutOfFuel
  | S fuel' =>
      match failed_by cs t with
      | Some (i, _) => StartFailed i t
      | None =>
          let '(t', (up, report)) := checkHealth cs t ctx in
          if up then Healthy t'
          else
            match failed_by cs (Z.min (Z.max t' ctx) (t' + wait)) with
            | Some (i, f) => StartFailed i (Z.max t' f)
            | None =>
                if ctx <=? t' + wait then NotHealthy report (Z.max t' ctx)
                else awaitHealthy fuel' cs (t' + wait) (Z.min (2 * wait) (500 * Millisecond)) ctx
            end
      end
  end.

Definition start_deadline (t : Z) : Z := sooner (t + timeout_or (StartTimeout b) (30 * Second)) (option_map fst (e_ctx e)).

(** ** Stop *)

Inductive app_error :=
| EStart (i : nat) | ENotHealthy | EListen | EServe | EComponent (i : nat) | EDeadline
| EShutdown | EStillRunning | EClose (i : nat) | EAbandoned (i : nat).

(** When the context of a stop begun at [begin] ends: its budget is spent, or
    what was left of it when the stop turned fast. *)
Definition stop_deadline (begin : Z) (fast : bool) : Z :=
  let budget := timeout_or (ShutdownTimeout b) (30 * Second) in
  let budget := if fast then Z.min budget fastStopBudget else budget in
  match e_hurry e with
  | Some h => let h := Z.max h begin in if fastStopBudget <? begin + budget - h then h + fastStopBudget else begin + budget
  | None => begin + budget
  end.

(** How long the drain lasts: until when. *)
Definition drain (begin : Z) (fast : bool) (dl : Z) : Z :=
  if (DrainDelay b <=? 0) || fast then begin
  else if negb (passed begin (e_probed e)) then begin
  else Z.max begin (Z.min (sooner (begin + DrainDelay b) (e_hurry e)) dl).

(** [srv.Shutdown] under its own timeout. *)
Definition shutdown (t dl : Z) : Z * list app_error :=
  let lim := Z.max t (Z.min (t + timeout_or (HTTPShutdownTimeout b) (10 * Second)) dl) in
  match e_shutdown e t with
  | Some d => if t + d <=? lim then (t + d, []) else (lim, [EShutdown])
  | None => (lim, [EShutdown])
  end.

(** When a Starter, canceled at [t], has returned. *)
Definition starter_end (t : Z) (i : nat) : option Z :=
  match e_fails e i with
  | Some f => if f <=? t then Some f else option_map (fun r => t + r.1) (e_stops e i t)
  | None => option_map (fun r => t + r.1) (e_stops e i t)
  end.

(** The wait for all of them. *)
Definition starters_wait (cs : list component) (t dl : Z) : Z * list app_error :=
  let ends := map (fun p => starter_end t p.1) (List.filter (fun p => isStarter p.2) (numbered cs)) in
  let all := foldr (fun o m => match o, m with Some x, Some y => Some (Z.max x y) | _, _ => None end) (Some t) ends in
  match all with
  | Some u => if u <=? Z.max t dl then (u, []) else (Z.max t dl, [EStillRunning])
  | None => (Z.max t dl, [EStillRunning])
  end.

Record close_call := CloseCall { cc_index : nat; cc_at : Z; cc_left : Z; cc_err : list app_error }.

(** [closeOne], called at [t]. *)
Definition closeOne (i : nat) (t dl : Z) : close_call :=
  let lim := Z.max t dl + closeGrace in
  match e_close e i t dl with
  | Some (d, ok) => if t + d <=? lim then CloseCall i t (t + d) (if ok then [] else [EClose i]) else CloseCall i t lim [EAbandoned i]
  | None => CloseCall i t lim [EAbandoned i]
  end.

(** [closeAll], over the Closers in reverse order. *)
Fixpoint close_each (l : list (nat * component)) (t dl : Z) : list close_call :=
  match l with
  | [] => []
  | (i, c) :: l' => if isCloser c then let r := closeOne i t dl in r :: close_each l' (cc_left r) dl else close_each l' t dl
  end.

Definition closeAll (cs : list component) (t dl : Z) : list close_call := close_each (rev (numbered cs)) t dl.

Definition close_end (t : Z) (l : list close_call) : Z := match last l with Some r => cc_left r | None => t end.

Record stopped := Stopped {
  st_begin : Z; st_deadline : Z; st_drained : Z; st_canceled : Z; st_waited : Z; st_closes : list close_call; st_end : Z; st_errs : list app_error;
}.

(** [stop]; [srv] says whether there is an HTTP server to shut down. *)
Definition stop (srv : bool) (cs : list component) (begin : Z) (fast : bool) : stopped :=
  let dl := stop_deadline begin fast in
  let drained := if srv then drain begin fast dl else begin in
  let '(canceled, e1) := if srv then shutdown drained dl else (drained, []) in
  let '(waited, e2) := starters_wait cs canceled dl in
  let calls := closeAll cs waited dl in
  Stopped begin dl drained canceled waited calls (close_end waited calls) (e1 ++ e2 ++ concat (map cc_err calls)).

(** ** Run *)

Record outcome := Outcome { o_ready : option Z; o_stop : stopped; o_errs : list app_error }.

(** The first thing to end a run that is up at [t]. *)
Inductive ending := ByContext (c : cause) | ByFailure (err : app_error).

Definition first_end (cs : list component) (t : Z) : option (Z * ending) :=
  let fail := match first_failure cs, (if HTTPEnabled b then e_serve e else None) with
              | Some (f, i), Some s => Some (if s <? f then (s, EServe) else (f, EComponent i))
              | Some (f, i), None => Some (f, EComponent i)
              | None, Some s => Some (s, EServe)
              | None, None => None
              end in
  match e_ctx e, fail with
  | Some (x, c), Some (f, err) => if x <? f then Some (Z.max t x, ByContext c) else Some (Z.max t f, ByFailure err)
  | Some (x, c), None => Some (Z.max t x, ByContext c)
  | None, Some (f, err) => Some (Z.max t f, ByFailure err)
  | None, None => None
  end.

(** The context's cause says fast by [t]. *)
Definition fast_by (t : Z) : bool := match e_ctx e with Some (x, FastStop) => x <=? t | _ => false end.

(** [run], from [t]: none when nothing ever ends it. *)
Definition run (fuel : nat) (cs : list component) (t : Z) : option outcome :=
  match awaitHealthy fuel cs t (10 * Millisecond) (start_deadline t) with
  | OutOfFuel => None
  | StartFailed i u => let s := stop false cs u (fast_by u) in Some (Outcome None s (EStart i :: st_errs s))
  | NotHealthy _ u => let s := stop false cs u (fast_by u) in Some (Outcome None s (ENotHealthy :: st_errs s))
  | Healthy u =>
      if HTTPEnabled b && negb (e_listen e) then let s := stop false cs u false in Some (Outcome None s (EListen :: st_errs s))
      else
        match first_end cs u with
        | None => None
        | Some (v, ByContext c) =>
            let s := stop (HTTPEnabled b) cs v (match c with FastStop => true | _ => false end) in
            Some (Outcome (Some u) s ((match c with DeadlineExceeded => [EDeadline] | _ => [] end) ++ st_errs s))
        | Some (v, ByFailure err) => let s := stop (HTTPEnabled b) cs v false in Some (Outcome (Some u) s (err :: st_errs s))
        end
  end.
End run.

(** ** Who runs it *)

Section life.
(** What Run ([true]) and Close do with the components, where they end: the
    errors they return, and the Closers they called. *)
Context (body : bool -> list component -> option (list app_error * list nat)).

Inductive answer := RanTwice | Answer (errs : list app_error) | CtxEnded.

(** A call of Run or Close: not begun, owning the components, a Close that
    waits for the owner, and returned. *)
Inductive caller := Before (is_run : bool) | Owner (is_run : bool) (cs : list component) | Waiting | Returned (a : answer).

Record life := Life { app : App; callers : list caller; finished : bool; closeErr : list app_error; closings : list nat }.

Definition new_life : life := Life newApp [] false [] [].

Inductive life_label := LUse (cs : list (option component)) | LHandler | LCall (is_run : bool) | LBegin (i : nat) | LFinish (i : nat) | LWake (i : nat) | LCtx (i : nat).

Definition set_caller (i : nat) (c : caller) (s : life) : life := Life (app s) (<[i := c]> (callers s)) (finished s) (closeErr s) (closings s).

Definition start_app (a : App) : App := MkApp (components a) (instrumenters a) (mounted a) true (handlerBuilt a).

(** [Run] and [Close] up to the lock's release, their ends, and Close's select. *)
Definition life_step (l : life_label) (s : life) : option life :=
  match l with
  | LUse cs => Some (Life (Use cs (app s)).1 (callers s) (finished s) (closeErr s) (closings s))
  | LHandler => Some (Life (Handler (app s)) (callers s) (finished s) (closeErr s) (closings s))
  | LCall r => Some (Life (app s) (callers s ++ [Before r]) (finished s) (closeErr s) (closings s))
  | LBegin i =>
      match callers s !! i with
      | Some (Before r) =>
          if started (app s) then Some (set_caller i (if r then Returned RanTwice else Waiting) s)
          else Some (Life (start_app (app s)) (<[i := Owner r (components (app s))]> (callers s)) (finished s) (closeErr s) (closings s))
      | _ => None
      end
  | LFinish i =>
      match callers s !! i with
      | Some (Owner r cs) =>
          match body r cs with
          | Some (errs, closed) => Some (Life (app s) (<[i := Returned (Answer errs)]> (callers s)) true (if r then closeErr s else errs) (closings s ++ closed))
          | None => None
          end
      | _ => None
      end
  | LWake i => match callers s !! i with Some Waiting => if finished s then Some (set_caller i (Returned (Answer (closeErr s))) s) else None | _ => None end
  | LCtx i => match callers s !! i with Some Waiting => Some (set_caller i (Returned CtxEnded) s) | _ => None end
  end.

Fixpoint life_steps (ls : list life_label) (s : life) : option life :=
  match ls with [] => Some s | l :: ls' => match life_step l s with Some s' => life_steps ls' s' | None => None end end.
End life.

(** [Run] from [t], and [Close] from [t] with a context that ends at [dl]. *)
Definition app_body (b : base) (e : environment) (fuel : nat) (t dl : Z) (is_run : bool) (cs : list component) : option (list app_error * list nat) :=
  if is_run then option_map (fun o => (o_errs o, map cc_index (st_closes (o_stop o)))) (run b e fuel cs t)
  else let calls := closeAll e cs t dl in Some (concat (map cc_err calls), map cc_index calls).

(** ** Signals *)

Inductive signal := SIGINT | SIGTERM | SIGQUIT | SIGHUP.

(** [Execute]'s goroutine, over the signals as they come: when the context ends
    and of what, and when the stop turns fast. *)
Fixpoint signals (l : list (Z * signal)) (ctx : option (Z * cause)) (hurry : option Z) : option (Z * cause) * option Z :=
  match l with
  | [] => (ctx, hurry)
  | (t, s) :: l' =>
      match s, ctx with
      | SIGHUP, _ => signals l' ctx hurry
      | _, Some _ => signals l' ctx (match hurry with Some h => Some h | None => Some t end)
      | SIGQUIT, None => signals l' (Some (t, FastStop)) hurry
      | _, None => signals l' (Some (t, Canceled)) hurry
      end
  end.

(** [reloadLogLevel], from the level in force, with what the file says and
    whether other settings changed: what it sets and what it logs, in order,
    each line at its level. *)
Inductive reload_act := SetLevel (l : Z) | LogAt (l : Z).

Definition LevelInfo : Z := 0.
Definition LevelWarn : Z := 4.

Definition reloadLogLevel (old : Z) (level : option Z) (othersChanged : bool) : list reload_act :=
  let lv := default old level in
  let lo := Z.min old lv in
  let announce := (if lv =? old then [] else [LogAt (Z.max LevelInfo lo)]) ++ (if othersChanged then [LogAt (Z.max LevelWarn lo)] else []) in
  if lv <? old then SetLevel lv :: announce else announce ++ [SetLevel lv].

(** ** The probes *)

(** The status of /readyz at [t], of a run that is ready from [ready] and stops
    from [stopping]. *)
Definition readyz (ready stopping : option Z) (t : Z) : bool := passed t ready && negb (passed t stopping).
