(* ===== verification/AppSpec.v ===== *)
(** What the App promises of a stop, a start and its callers: a stop ends
    within its budget and a second for each Close that overruns it, every
    Closer is closed once, in reverse order, by the one call that owns the
    components, and a run is ready only when every component was healthy. *)

From Stdlib Require Import ZArith Lia List Ascii.
From stdpp Require Import base decidable list sorting strings relations.
From S2P Require Import Prelude GoStrings GoTime App.

(** Nothing ends before it begins. *)
Record env_ok (e : environment) : Prop := {
  env_health : forall i t d ok, e_health e i t = Some (d, ok) -> 0 <= d;
  env_stops : forall i t d ok, e_stops e i t = Some (d, ok) -> 0 <= d;
  env_shutdown : forall t d, e_shutdown e t = Some d -> 0 <= d;
  env_close : forall i t dl d ok, e_close e i t dl = Some (d, ok) -> 0 <= d;
}.

Lemma grace_pos : 0 < closeGrace /\ 0 < fastStopBudget.
Proof. unfold closeGrace, fastStopBudget, Second. lia. Qed.

Lemma timeout_pos d k : 0 < k -> 0 < timeout_or d k.
Proof. unfold timeout_or. destruct (Z.leb_spec d 0); lia. Qed.

Opaque closeGrace fastStopBudget.

Section stop.
Context (b : base) (e : environment) (Ok : env_ok e).

(** ** Closers *)

Definition overran (dl : Z) (r : close_call) : bool := dl <? cc_left r.
Definition late (dl : Z) (l : list close_call) : Z := Z.of_nat (length (List.filter (overran dl) l)).

Lemma closeOne_time i t dl : cc_at (closeOne e i t dl) = t /\ cc_index (closeOne e i t dl) = i
  /\ t <= cc_left (closeOne e i t dl) <= Z.max t dl + closeGrace.
Proof.
  pose proof grace_pos. unfold closeOne. destruct (e_close e i t dl) as [[d ok]|] eqn:E; [|cbn; lia].
  pose proof (env_close _ Ok _ _ _ _ _ E). destruct (Z.leb_spec (t + d) (Z.max t dl + closeGrace)); cbn; lia.
Qed.

Lemma close_end_cons t r l : close_end t (r :: l) = close_end (cc_left r) l.
Proof. unfold close_end. destruct l as [|r' l]; [done|]. change (last (r :: r' :: l)) with (last (r' :: l)). destruct (last (r' :: l)) eqn:E; [done|]. by apply last_None in E. Qed.

Lemma close_each_bound l t dl : close_end t (close_each e l t dl) <= Z.max t dl + closeGrace * late dl (close_each e l t dl).
Proof.
  pose proof grace_pos. revert t. induction l as [|[i c] l IH]; intros t; cbn; [unfold close_end, late; cbn; lia|].
  destruct (isCloser c); [|done]. rewrite close_end_cons. specialize (IH (cc_left (closeOne e i t dl))).
  destruct (closeOne_time i t dl) as (_ & _ & T). unfold late in *. cbn [List.filter].
  destruct (overran dl (closeOne e i t dl)) eqn:O; unfold overran in O; apply Z.ltb_lt in O || apply Z.ltb_ge in O;
    cbn [length]; rewrite ?Nat2Z.inj_succ, ?Z.mul_succ_r; lia.
Qed.

(** Each call begins where the one before was left. *)
Fixpoint chained (t : Z) (l : list close_call) : Prop :=
  match l with [] => True | r :: l' => cc_at r = t /\ t <= cc_left r /\ chained (cc_left r) l' end.

Lemma close_each_chained l t dl : chained t (close_each e l t dl).
Proof.
  revert t. induction l as [|[i c] l IH]; intros t; cbn; [done|]. destruct (isCloser c); [|done].
  destruct (closeOne_time i t dl) as (A & _ & T). cbn. by split_and!; [|lia|].
Qed.

Definition closers (cs : list component) : list nat := map fst (List.filter (fun p => isCloser p.2) (numbered cs)).

Lemma close_each_index l t dl : map cc_index (close_each e l t dl) = map fst (List.filter (fun p => isCloser p.2) l).
Proof.
  revert t. induction l as [|[i c] l IH]; intros t; cbn; [done|]. destruct (isCloser c); cbn; [|done]. rewrite IH. f_equal.
  unfold closeOne. destruct (e_close e i t dl) as [[d ok]|]; [|done]. by destruct (_ <=? _).
Qed.

Lemma closeAll_index cs t dl : map cc_index (closeAll e cs t dl) = rev (closers cs).
Proof. unfold closeAll, closers. by rewrite close_each_index, List.filter_rev, map_rev. Qed.

Lemma stop_index srv cs begin fast : map cc_index (st_closes (stop b e srv cs begin fast)) = rev (closers cs).
Proof.
  unfold stop. set (x := if srv then shutdown b e _ _ else _). destruct x as [ca e1]. destruct (starters_wait e cs ca _). apply closeAll_index.
Qed.

(** What a call reports: nothing when Close returned no error in its time,
    its error, or that it was abandoned. *)
Definition close_told (dl : Z) (r : close_call) : Prop :=
  match e_close e (cc_index r) (cc_at r) dl with
  | Some (d, ok) =>
      if cc_at r + d <=? Z.max (cc_at r) dl + closeGrace then cc_left r = cc_at r + d /\ cc_err r = (if ok then [] else [EClose (cc_index r)])
      else cc_left r = Z.max (cc_at r) dl + closeGrace /\ cc_err r = [EAbandoned (cc_index r)]
  | None => cc_left r = Z.max (cc_at r) dl + closeGrace /\ cc_err r = [EAbandoned (cc_index r)]
  end.

Lemma close_each_told l t dl : Forall (close_told dl) (close_each e l t dl).
Proof.
  revert t. induction l as [|[i c] l IH]; intros t; cbn; [constructor|]. destruct (isCloser c); [|done]. constructor; [|done].
  destruct (closeOne_time i t dl) as (A & I & _). unfold close_told. rewrite A, I. unfold closeOne.
  destruct (e_close e i t dl) as [[d ok]|]; [|done]. by destruct (_ <=? _).
Qed.

(** ** The phases of a stop *)

Lemma stop_deadline_bounds begin fast :
  begin <= stop_deadline b e begin fast <= begin + timeout_or (ShutdownTimeout b) (30 * Second)
  /\ (fast = true -> stop_deadline b e begin fast <= begin + fastStopBudget)
  /\ (forall h, e_hurry e = Some h -> stop_deadline b e begin fast <= Z.max h begin + fastStopBudget).
Proof.
  pose proof grace_pos. assert (0 < timeout_or (ShutdownTimeout b) (30 * Second)) by (apply timeout_pos; unfold Second; lia).
  unfold stop_deadline. set (B := timeout_or _ _) in *. clearbody B.
  assert (Hb : 0 < (if fast then Z.min B fastStopBudget else B) <= B /\ (fast = true -> (if fast then Z.min B fastStopBudget else B) <= fastStopBudget)) by (destruct fast; lia).
  set (C := if fast then _ else _) in *. clearbody C. destruct (e_hurry e) as [h|].
  - cbn zeta. destruct (Z.ltb_spec fastStopBudget (begin + C - Z.max h begin)); (split_and!; [lia|lia|intros F; pose proof (proj2 Hb F); lia|intros h' [= <-]; lia]).
  - split_and!; [lia|lia|intros F; pose proof (proj2 Hb F); lia|done].
Qed.

Lemma drain_bounds begin fast dl : begin <= dl -> begin <= drain b e begin fast dl <= dl.
Proof. unfold drain. intros. destruct (_ || fast); [lia|]. destruct (negb _); [lia|]. lia. Qed.

Lemma shutdown_bounds t dl : t <= dl -> t <= (shutdown b e t dl).1 <= dl.
Proof.
  assert (0 < timeout_or (HTTPShutdownTimeout b) (10 * Second)) by (apply timeout_pos; unfold Second; lia).
  unfold shutdown. intros. destruct (e_shutdown e t) as [d|] eqn:E; [|cbn; lia].
  pose proof (env_shutdown _ Ok _ _ E). destruct (Z.leb_spec (t + d) (Z.max t (Z.min (t + timeout_or (HTTPShutdownTimeout b) (10 * Second)) dl))); cbn; lia.
Qed.

(** The latest of the starters' ends. *)
Definition all_ended (cs : list component) (t u : Z) : Prop :=
  forall i c, cs !! i = Some c -> isStarter c = true -> exists x, starter_end e t i = Some x /\ x <= u.

Lemma latest_spec (l : list (option Z)) t :
  match foldr (fun o m => match o, m with Some x, Some y => Some (Z.max x y) | _, _ => None end) (Some t) l with
  | Some u => t <= u /\ (forall o, o ∈ l -> exists x, o = Some x /\ x <= u) /\ (u = t \/ Some u ∈ l)
  | None => None ∈ l
  end.
Proof.
  induction l as [|o l IH]; cbn; [split_and!; [lia|intros o Ho; by apply elem_of_nil in Ho|by left]|].
  destruct o as [x|], (foldr _ _ l) as [y|]; try (by left); try (right; done).
  destruct IH as (T & A & W). split_and!; [lia| |].
  - intros o [->|Ho]%elem_of_cons; [exists x; split; [done|lia]|]. destruct (A o Ho) as (z & -> & Hz). exists z. split; [done|lia].
  - destruct (Z.max_spec x y) as [[_ ->]|[_ ->]]; [|right; left]. destruct W as [->|W]; [by left|right; by right].
Qed.

Lemma numbered_in (f : nat -> option Z) cs o :
  o ∈ map (fun p => f p.1) (List.filter (fun p => isStarter p.2) (numbered cs)) <-> exists i c, cs !! i = Some c /\ isStarter c = true /\ o = f i.
Proof.
  rewrite list_elem_of_In, in_map_iff. setoid_rewrite filter_In. setoid_rewrite <- list_elem_of_In. unfold numbered. split.
  - intros ([i c] & <- & Hi & Hs). apply elem_of_lookup_imap in Hi as (i' & c' & [= -> ->] & Hc). eauto.
  - intros (i & c & Hc & Hs & ->). exists (i, c). split_and!; try done. apply elem_of_lookup_imap. eauto.
Qed.

Lemma starters_wait_spec cs t dl : t <= dl ->
  let '(u, errs) := starters_wait e cs t dl in
  t <= u <= dl /\ ((errs = [] /\ all_ended cs t u) \/ (errs = [EStillRunning] /\ u = dl /\ ~ all_ended cs t dl)).
Proof.
  intros Ht. unfold starters_wait. set (ends := map _ _).
  assert (In : forall o, o ∈ ends <-> exists i c, cs !! i = Some c /\ isStarter c = true /\ o = starter_end e t i).
  { intros o. apply (numbered_in (starter_end e t)). }
  pose proof (latest_spec ends t) as L. destruct (foldr _ _ ends) as [u|].
  - destruct L as (T & A & W). destruct (Z.leb_spec u (Z.max t dl)).
    + split; [lia|]. left. split; [done|]. intros i c Hc Hs. apply A. apply In. eauto 6.
    + split; [lia|]. right. split_and!; [done|lia|]. intros All. destruct W as [->|W]; [lia|].
      apply In in W as (i & c & Hc & Hs & Hu). destruct (All i c Hc Hs) as (x & Hx & Lx). rewrite <- Hu in Hx. injection Hx as <-. lia.
  - split; [lia|]. right. split_and!; [done|lia|]. intros All. apply In in L as (i & c & Hc & Hs & Hu).
    destruct (All i c Hc Hs) as (x & Hx & _). by rewrite <- Hu in Hx.
Qed.
Definition budget : Z := timeout_or (ShutdownTimeout b) (30 * Second).

Lemma stop_parts srv cs begin fast : let s := stop b e srv cs begin fast in
  st_begin s = begin /\ st_deadline s = stop_deadline b e begin fast
  /\ begin <= st_drained s /\ st_drained s <= st_canceled s /\ st_canceled s <= st_waited s /\ st_waited s <= st_deadline s
  /\ st_closes s = closeAll e cs (st_waited s) (st_deadline s) /\ st_end s = close_end (st_waited s) (st_closes s)
  /\ ((all_ended cs (st_canceled s) (st_waited s) /\ EStillRunning ∉ st_errs s)
      \/ (~ all_ended cs (st_canceled s) (st_deadline s) /\ st_waited s = st_deadline s /\ EStillRunning ∈ st_errs s))
  /\ (forall r x, r ∈ st_closes s -> x ∈ cc_err r -> x ∈ st_errs s).
Proof.
  unfold stop. destruct (stop_deadline_bounds begin fast) as [[B _] _]. set (dl := stop_deadline b e begin fast) in *. clearbody dl.
  assert (D : begin <= (if srv then drain b e begin fast dl else begin) <= dl) by (destruct srv; [by apply drain_bounds|lia]).
  set (dr := if srv then _ else _) in *. clearbody dr. cbn zeta.
  assert (Sh : dr <= (if srv then shutdown b e dr dl else (dr, [])).1 <= dl) by (destruct srv; [apply shutdown_bounds; lia|cbn; lia]).
  assert (E1 : EStillRunning ∉ (if srv then shutdown b e dr dl else (dr, [])).2).
  { destruct srv; [|by intros ?%elem_of_nil]. unfold shutdown. destruct (e_shutdown e dr) as [d|]; [destruct (_ <=? _)|]; cbn; set_solver. }
  destruct (if srv then shutdown b e dr dl else (dr, [])) as [ca e1]. cbn [fst snd] in Sh, E1.
  pose proof (starters_wait_spec cs ca dl (proj2 Sh)) as W. destruct (starters_wait e cs ca dl) as [wa e2]. destruct W as [Wb W].
  cbn [st_begin st_deadline st_drained st_canceled st_waited st_closes st_end st_errs]. split_and!; try done; try lia.
  - destruct W as [[-> A]|(-> & -> & A)]; [left|right; split_and!; [done|done|set_solver]]. split; [done|]. rewrite !elem_of_app.
    intros [H|[H|H]]; [done|by apply elem_of_nil in H|]. apply list_elem_of_In, in_concat in H as (l & Hl & Hx). apply in_map_iff in Hl as (r & <- & Hr).
    pose proof (close_each_told (rev (numbered cs)) wa dl) as T. rewrite Forall_forall in T. specialize (T r (proj2 (list_elem_of_In _ _) Hr)).
    unfold close_told in T. destruct (e_close e (cc_index r) (cc_at r) dl) as [[d ok]|]; [destruct (_ <=? _)|]; destruct T as [_ T]; rewrite T in Hx; try destruct ok; cbn in Hx; intuition discriminate.
  - intros r x Hr Hx. rewrite !elem_of_app. right. right. apply list_elem_of_In, in_concat. exists (cc_err r). split; [apply in_map, list_elem_of_In, Hr|by apply list_elem_of_In].
Qed.

(** [C14] A stop ends in its time: by the end of its budget and one second more for
    each Close that runs past it - and a fast stop, or one that turns fast,
    has five seconds from then for a budget.  When every Close heeds its
    context, the budget is all it takes. *)
Theorem stop_bounded (srv : bool) (cs : list component) (begin : Z) (fast : bool) :
  let s := stop b e srv cs begin fast in
  st_end s <= st_deadline s + closeGrace * late (st_deadline s) (st_closes s)
  /\ st_deadline s <= begin + budget
  /\ (fast = true -> st_deadline s <= begin + fastStopBudget)
  /\ (forall h, e_hurry e = Some h -> st_deadline s <= Z.max h begin + fastStopBudget)
  /\ ((forall i t dl, exists d ok, e_close e i t dl = Some (d, ok) /\ t + d <= Z.max t dl) -> st_end s <= st_deadline s).
Proof.
  cbn zeta. destruct (stop_parts srv cs begin fast) as (_ & Dl & _ & _ & _ & W & C & En & _). cbn zeta in *.
  set (s := stop b e srv cs begin fast) in *. clearbody s.
  destruct (stop_deadline_bounds begin fast) as ([_ B] & F & H). rewrite <- Dl in *. split_and!; [|exact B|exact F|exact H|].
  - rewrite En, C. unfold closeAll. pose proof (close_each_bound (rev (numbered cs)) (st_waited s) (st_deadline s)). lia.
  - intros Heed. rewrite En, C. unfold closeAll. generalize (rev (numbered cs)) (st_waited s) W. clear -Heed Ok.
    intros l. induction l as [|[i c] l IH]; intros t Ht; cbn; [done|]. destruct (isCloser c); [|by apply IH]. rewrite close_end_cons. apply IH.
    unfold closeOne. destruct (Heed i t (st_deadline s)) as (d & ok & -> & Hd). pose proof grace_pos.
    destruct (Z.leb_spec (t + d) (Z.max t (st_deadline s) + closeGrace)); cbn; lia.
Qed.

(** A stop leaves nothing open: every Closer is called, once, in reverse order
    of Use, one after the other, and only after every Starter has returned -
    or the budget was spent waiting for one, which the stop reports.  What a
    Close returned in its time, or that it was abandoned, is reported, and
    what came of one changes nothing for the next. *)
Theorem stop_closes_all (srv : bool) (cs : list component) (begin : Z) (fast : bool) :
  let s := stop b e srv cs begin fast in
  map cc_index (st_closes s) = rev (closers cs)
  /\ chained (st_waited s) (st_closes s)
  /\ (all_ended cs (st_canceled s) (st_waited s) \/ (st_waited s = st_deadline s /\ EStillRunning ∈ st_errs s))
  /\ Forall (close_told (st_deadline s)) (st_closes s)
  /\ (forall r x, r ∈ st_closes s -> x ∈ cc_err r -> x ∈ st_errs s).
Proof.
  cbn zeta. destruct (stop_parts srv cs begin fast) as (_ & _ & _ & _ & _ & _ & C & _ & W & R). cbn zeta in *.
  set (s := stop b e srv cs begin fast) in *. clearbody s. rewrite C. split_and!.
  - apply closeAll_index.
  - apply close_each_chained.
  - destruct W as [[? _]|(_ & ? & ?)]; [by left|by right].
  - apply close_each_told.
  - by rewrite <- C.
Qed.
End stop.

(** ** Start *)

Section start.
Context (b : base) (e : environment) (Ok : env_ok e).

(** Every Healther, asked at [p], answered that it is healthy, in its time and
    by [u]. *)
Definition healthy_at (cs : list component) (p u : Z) : Prop :=
  forall i c, cs !! i = Some c -> isHealther c = true ->
    exists d, e_health e i p = Some (d, true) /\ d <= timeout_or (ProbeTimeout b) (3 * Second) /\ p + d <= u.

Lemma probe_pos : 0 < timeout_or (ProbeTimeout b) (3 * Second).
Proof. apply timeout_pos. unfold Second. lia. Qed.

Lemma callHealth_time i t lim : t <= (callHealth e i t lim).1 <= Z.max t lim.
Proof.
  unfold callHealth. destruct (e_health e i t) as [[d ok]|] eqn:E; [|cbn; lia]. pose proof (env_health _ Ok _ _ _ _ E).
  destruct (Z.leb_spec (t + d) (Z.max t lim)); cbn; lia.
Qed.

Lemma max_from {A} (f : A -> Z) l t hi : (forall x, x ∈ l -> t <= f x <= hi) -> t <= hi ->
  t <= foldr (fun x m => Z.max (f x) m) t l <= hi /\ forall x, x ∈ l -> f x <= foldr (fun x m => Z.max (f x) m) t l.
Proof.
  intros B H. induction l as [|x l IH]; cbn; [split; [lia|intros x Hx; by apply elem_of_nil in Hx]|].
  destruct IH as [T L]; [intros y Hy; apply B; by right|]. pose proof (B x ltac:(by left)). split; [lia|].
  intros y [->|Hy]%elem_of_cons; [lia|]. specialize (L y Hy). lia.
Qed.

Lemma checkHealth_spec cs t ctx : let '(t', (up, _)) := checkHealth b e cs t ctx in
  t <= t' <= Z.max t ctx /\ (up = true -> healthy_at cs t t').
Proof.
  pose proof probe_pos as Hp. unfold checkHealth. set (lim := Z.min _ ctx).
  set (checks := map _ (List.filter _ (numbered cs))). unfold numbered in checks.
  assert (In : forall i c, cs !! i = Some c -> isHealther c = true -> (callHealth e i t lim, c) ∈ checks).
  { intros i c Hc Hh. apply list_elem_of_In, in_map_iff. exists (i, c). split; [done|]. apply filter_In. split; [|done].
    apply list_elem_of_In, elem_of_lookup_imap. eauto. }
  destruct (max_from (fun x : Z * bool * component => x.1.1) checks t (Z.max t ctx)) as [T L].
  - intros x Hx. apply list_elem_of_In, in_map_iff in Hx as ([i c] & <- & _). cbn. pose proof (callHealth_time i t lim). lia.
  - lia.
  - split; [done|]. intros Up i c Hc Hh. specialize (In i c Hc Hh). specialize (L _ In). cbn in L.
    assert (U : (callHealth e i t lim).2 = true).
    { rewrite forallb_forall in Up. apply list_elem_of_In in In. apply (in_map (fun x => HealthEntry (c_name x.2) x.1.2)) in In. by apply Up in In. }
    unfold callHealth in *. destruct (e_health e i t) as [[d ok]|] eqn:E; [|done].
    destruct (Z.leb_spec (t + d) (Z.max t lim)); [|done]. cbn in *. subst ok. exists d. split_and!; [done|lia|lia].
Qed.

Lemma first_failure_spec cs : match first_failure e cs with
  | Some (f, i) => exists c, cs !! i = Some c /\ isStarter c = true /\ e_fails e i = Some f
  | None => forall i c, cs !! i = Some c -> isStarter c = true -> e_fails e i = None
  end.
Proof.
  unfold first_failure.
  assert (H : forall l, match foldr (fun p acc => if isStarter p.2 then match e_fails e p.1 with Some t => first_of (Some (t, p.1)) acc | None => acc end else acc) None l with
    | Some (f, i) => exists c, (i, c) ∈ l /\ isStarter c = true /\ e_fails e i = Some f
    | None => forall i c, (i, c) ∈ l -> isStarter c = true -> e_fails e i = None end).
  { induction l as [|[i c] l IH]; cbn; [intros i c Hx; by apply elem_of_nil in Hx|]. destruct (isStarter c) eqn:Es.
    - destruct (e_fails e i) as [f|] eqn:Ef.
      + destruct (foldr _ None l) as [[g j]|]; cbn; [destruct (g <? f)|].
        * destruct IH as (c' & ? & ?). exists c'. split; [by right|done].
        * exists c. split_and!; [by left|done|done].
        * exists c. split_and!; [by left|done|done].
      + destruct (foldr _ None l) as [[g j]|]; [destruct IH as (c' & ? & ?); exists c'; split; [by right|done]|].
        intros j c' [[= -> ->]|Hx]%elem_of_cons Hs; [done|]. by eapply IH.
    - destruct (foldr _ None l) as [[g j]|]; [destruct IH as (c' & ? & ?); exists c'; split; [by right|done]|].
      intros j c' [[= -> ->]|Hx]%elem_of_cons Hs; [congruence|]. by eapply IH. }
  specialize (H (numbered cs)). unfold numbered in *. destruct (foldr _ None _) as [[f i]|].
  - destruct H as (c & Hi & ?). apply elem_of_lookup_imap in Hi as (i' & c' & [= -> ->] & Hc). eauto.
  - intros i c Hc Hs. apply (H i c); [|done]. apply elem_of_lookup_imap. eauto.
Qed.

(** A Start that failed by itself at [f]. *)
Definition start_failed (cs : list component) (i : nat) (f : Z) : Prop :=
  exists c, cs !! i = Some c /\ isStarter c = true /\ e_fails e i = Some f.

Lemma failed_by_spec cs u : match failed_by e cs u with Some (i, f) => start_failed cs i f /\ f <= u | None => True end.
Proof.
  unfold failed_by. pose proof (first_failure_spec cs) as F. destruct (first_failure e cs) as [[f i]|]; [|done].
  by destruct (Z.leb_spec f u).
Qed.

Definition awaited_ok (cs : list component) (t ctx : Z) (a : awaited) : Prop :=
  match a with
  | OutOfFuel => False
  | Healthy u => t <= u <= Z.max t ctx /\ exists p, t <= p <= u /\ healthy_at cs p u /\ failed_by e cs p = None
  | StartFailed i u => t <= u <= Z.max t ctx /\ exists f, start_failed cs i f /\ f <= u
  | NotHealthy _ u => u = Z.max t ctx
  end.

(** The wait for health ends, at the latest with its context, having polled
    every component healthy, or met a Start that failed, or spent its time. *)
Lemma await_ok fuel cs t wait ctx : 10 * Millisecond <= wait -> ctx - t < Z.of_nat fuel * (10 * Millisecond) -> (0 < fuel)%nat ->
  awaited_ok cs t ctx (awaitHealthy b e fuel cs t wait ctx).
Proof.
  assert (M : 0 < 10 * Millisecond <= 500 * Millisecond) by (unfold Millisecond; lia). revert t wait.
  induction fuel as [|fuel IH]; intros t wait W F N; [lia|]. cbn [awaitHealthy]. pose proof (failed_by_spec cs t) as Fb.
  destruct (failed_by e cs t) as [[i f]|] eqn:Ef; [split; [lia|by exists f]|]. clear Fb.
  pose proof (checkHealth_spec cs t ctx) as C. destruct (checkHealth b e cs t ctx) as [t' [up report]]. destruct C as [T H].
  destruct up; [split; [done|]; exists t; split_and!; [lia|lia|by apply H|done]|].
  pose proof (failed_by_spec cs (Z.min (Z.max t' ctx) (t' + wait))) as Fb. destruct (failed_by e cs (Z.min (Z.max t' ctx) (t' + wait))) as [[i f]|].
  { cbn. split; [lia|]. exists f. split; [apply Fb|lia]. }
  destruct (Z.leb_spec ctx (t' + wait)); [cbn; lia|].
  assert (N' : (0 < fuel)%nat) by (destruct fuel; lia).
  assert (I : awaited_ok cs (t' + wait) ctx (awaitHealthy b e fuel cs (t' + wait) (Z.min (2 * wait) (500 * Millisecond)) ctx)) by (apply IH; lia).
  destruct (awaitHealthy b e fuel cs (t' + wait) _ ctx); cbn in *; [|split; [lia|apply I]|lia|done].
  destruct I as [? (p & ? & ?)]. split; [lia|]. exists p. split; [lia|done].
Qed.
End start.

(** ** Run *)

Section run.
Context (b : base) (e : environment) (Ok : env_ok e).

(** What being ready took: at a poll before it every component was healthy and
    no Start had failed, and the listener is open where there is one. *)
Definition ready_ok (cs : list component) (t u : Z) : Prop :=
  (exists p, t <= p <= u /\ healthy_at b e cs p u /\ failed_by e cs p = None) /\ (HTTPEnabled b = true -> e_listen e = true).

(** What ended a run, from what the environment says. *)
Definition ended_by (cs : list component) (v : Z) (w : ending) : Prop :=
  match w with
  | ByContext c => exists x, e_ctx e = Some (x, c) /\ x <= v
  | ByFailure (EComponent i) => exists f, start_failed e cs i f /\ f <= v
  | ByFailure EServe => HTTPEnabled b = true /\ exists s, e_serve e = Some s /\ s <= v
  | ByFailure _ => False
  end.

Lemma first_end_spec cs t : match first_end b e cs t with
  | Some (v, w) => t <= v /\ ended_by cs v w
  | None => e_ctx e = None /\ first_failure e cs = None
  end.
Proof.
  unfold first_end. pose proof (first_failure_spec e cs) as F.
  destruct (first_failure e cs) as [[f i]|], (if HTTPEnabled b then e_serve e else None) as [s|] eqn:Es, (e_ctx e) as [[x c]|] eqn:Ec; try done;
    try (assert (Hs : HTTPEnabled b = true /\ e_serve e = Some s) by (by destruct (HTTPEnabled b))); cbn;
    repeat match goal with |- context [if ?x <? ?y then _ else _] => destruct (Z.ltb_spec x y) end; cbn;
    (split; [lia|]); try (exists x; split; [done|lia]); try (split; [apply Hs|exists s; split; [apply Hs|lia]]); exists f; (split; [done|lia]).
Qed.

(** [C29] A run that starts at [t], with polls enough for its start timeout, returns
    unless it is up and nothing ever ends it.  It is ready only once it polled
    every component healthy with no Start failed and the listener open; it
    stops after that, or after the start failed - an error where its context
    had not ended by then; nothing is said of the error of a start whose
    context ended (see canceled_start_fails).  One that was ready ends with what came first: it
    returns no error exactly where its context was canceled or told to stop
    fast, and the stop reports none; and it returns the end of the context's
    deadline, or the failure that ended it. *)
Theorem run_returns (fuel : nat) (cs : list component) (t : Z)
  (Fuel : timeout_or (StartTimeout b) (30 * Second) < Z.of_nat fuel * (10 * Millisecond)) :
  match run b e fuel cs t with
  | None => e_ctx e = None /\ first_failure e cs = None /\ exists u, t <= u /\ ready_ok cs t u
  | Some o =>
      exists srv begin fast, o_stop o = stop b e srv cs begin fast /\ t <= begin /\
      match o_ready o with
      | None => (forall x c, e_ctx e = Some (x, c) -> begin < x) -> o_errs o <> []
      | Some u =>
          t <= u <= begin /\ ready_ok cs t u /\
          exists w, first_end b e cs u = Some (begin, w) /\ ended_by cs begin w /\
            (o_errs o = [] <-> (exists c, w = ByContext c /\ c <> DeadlineExceeded) /\ st_errs (o_stop o) = []) /\
            (w = ByContext DeadlineExceeded -> In EDeadline (o_errs o)) /\ (forall err, w = ByFailure err -> In err (o_errs o))
      end
  end.
Proof.
  assert (Sp : 0 < timeout_or (StartTimeout b) (30 * Second)) by (apply timeout_pos; unfold Second; lia).
  unfold run. pose proof (await_ok b e Ok fuel cs t (10 * Millisecond) (start_deadline b e t)) as A.
  assert (Dl : start_deadline b e t - t < Z.of_nat fuel * (10 * Millisecond)) by (unfold start_deadline, sooner; destruct (option_map fst (e_ctx e)); lia).
  specialize (A ltac:(lia) Dl ltac:(destruct fuel; lia)).
  destruct (awaitHealthy b e fuel cs t (10 * Millisecond) (start_deadline b e t)) as [u|i u|r u|]; [| | |done].
  - destruct A as [T P]. destruct (HTTPEnabled b && negb (e_listen e)) eqn:L; [by exists false, u, false; split_and!; [|lia|]|].
    assert (R : ready_ok cs t u) by (split; [done|]; intros Hh; rewrite Hh in L; by destruct (e_listen e)).
    pose proof (first_end_spec cs u) as E. destruct (first_end b e cs u) as [[v w]|] eqn:Ef; [|destruct E as [Ec Ff]; split_and!; [done|done|]; exists u; split; [lia|done]].
    destruct E as [Lv E]. destruct w as [c|err]; cbn [o_stop o_ready o_errs].
    + eexists _, v, _. split; [reflexivity|]. split; [lia|]. split; [lia|]. split; [done|]. exists (ByContext c). split_and!; try done.
      * split; [intros Z0; split; [exists c; destruct c; done|by destruct c]|]. intros ((c' & [= <-] & Nc) & Es). rewrite Es. by destruct c.
      * intros [= ->]. by left.
    + eexists _, v, _. split; [reflexivity|]. split; [lia|]. split; [lia|]. split; [done|]. exists (ByFailure err). split_and!; try done.
      * split; [done|]. by intros ((c' & [=] & _) & _).
      * intros x [= ->]. by left.
  - destruct A as [T _]. eexists _, u, _. by split_and!; [reflexivity|lia|].
  - eexists _, u, _. split_and!; [reflexivity| |done]. cbn in A. lia.
Qed.
End run.

(** ** One owner *)

Section life.
Context (body : bool -> list component -> option (list app_error * list nat)).

Definition owner (s : life) (i : nat) : Prop := exists r, callers s !! i = Some (Owner r (components (app s))).
Definition no_owner (s : life) : Prop := forall i r cs, callers s !! i <> Some (Owner r cs).

Definition life_ok (s : life) : Prop :=
  if started (app s) then
    (exists i, owner s i /\ (forall j r cs, callers s !! j = Some (Owner r cs) -> j = i) /\ finished s = false /\ closings s = [])
    \/ (no_owner s /\ finished s = true /\ exists r errs, body r (components (app s)) = Some (errs, closings s))
  else no_owner s /\ finished s = false /\ closings s = [].

(** A call that becomes no owner changes nothing of it. *)
Lemma other_ok s i x c : life_ok s -> callers s !! i = Some x -> (forall r cs, x <> Owner r cs) -> (forall r cs, c <> Owner r cs) -> life_ok (set_caller i c s).
Proof.
  intros O Hx Nx Nc. unfold life_ok in *. cbn [app set_caller callers finished closings].
  assert (Back : forall j r cs, <[i := c]> (callers s) !! j = Some (Owner r cs) -> callers s !! j = Some (Owner r cs)).
  { intros j r cs Hj. destruct (decide (i = j)) as [<-|N].
    - rewrite list_lookup_insert_eq in Hj by (by eapply lookup_lt_Some). injection Hj as Hj. by apply Nc in Hj.
    - by rewrite list_lookup_insert_ne in Hj. }
  assert (No : no_owner s -> no_owner (set_caller i c s)) by (intros H j r cs Hj; by apply Back, H in Hj).
  destruct (started (app s)).
  - destruct O as [(j & (r & Hj) & U & ? & ?)|(? & ? & ?)]; [left|right; split; [by apply No|done]].
    exists j. split_and!; [|intros k r' cs' Hk; by eapply U, Back|done|done]. exists r. cbn.
    rewrite list_lookup_insert_ne; [done|]. intros <-. rewrite Hx in Hj. injection Hj as ->. by eapply Nx.
  - destruct O as (? & ? & ?). split; [by apply No|done].
Qed.

Lemma life_step_ok l s s' : life_ok s -> life_step body l s = Some s' -> life_ok s'.
Proof.
  intros O E. destruct l as [cs| |r|i|i|i|i]; cbn in E.
  - injection E as <-. unfold life_ok in *. cbn [app callers finished closings]. unfold Use in *. destruct (started (app s)) eqn:St; [cbn; by rewrite St|].
    destruct (use_loop cs [] (app s)) as [a [p m]] eqn:Eu. cbn.
    assert (H : forall cs m a, started (use_loop cs m a).1 = started a).
    { clear. induction cs as [|[c|] cs IH]; intros m a; cbn; [done| |done]. destruct (_ && _); [done|]. destruct (negb _); [apply IH|]. by rewrite IH. }
    specialize (H cs [] (app s)). rewrite Eu in H. cbn in H. by rewrite H, St.
  - injection E as <-. exact O.
  - injection E as <-. unfold life_ok, no_owner, owner in *. cbn [app callers finished closings].
    assert (Back : forall j x cs, (callers s ++ [Before r]) !! j = Some (Owner x cs) -> callers s !! j = Some (Owner x cs)).
    { intros j x cs [Hj|[_ Hj]]%lookup_app_Some; [done|]. by apply list_lookup_singleton_Some in Hj as [_ Hj]. }
    destruct (started (app s)).
    + destruct O as [(j & (x & Hj) & U & ?)|(N & ?)]; [left|right].
      * exists j. split; [exists x; by apply lookup_app_l_Some|]. split; [|done]. intros k x' cs' Hk. by eapply U, Back.
      * split; [|done]. intros k x' cs' Hk. by eapply N, Back.
    + destruct O as (N & ?). split; [|done]. intros k x' cs' Hk. by eapply N, Back.
  - destruct (callers s !! i) as [[r| | |]|] eqn:Ei; try done. destruct (started (app s)) eqn:St.
    + injection E as <-. eapply other_ok; [done|exact Ei|done|by destruct r].
    + injection E as <-. unfold life_ok in *. rewrite St in O. destruct O as (N & F & C). cbn. left. exists i. split_and!; try done.
      * exists r. cbn. apply list_lookup_insert_eq. by eapply lookup_lt_Some.
      * intros j r' cs' Hj. destruct (decide (i = j)) as [->|Ne]; [done|]. rewrite list_lookup_insert_ne in Hj by done. by apply N in Hj.
  - destruct (callers s !! i) as [[|r cs| |]|] eqn:Ei; try done. destruct (body r cs) as [[errs closed]|] eqn:Eb; [|done]. injection E as <-.
    unfold life_ok in *. cbn [app callers finished closings]. destruct (started (app s)).
    + destruct O as [(j & (x & Hj) & U & F & C)|(N & _)]; [|by apply N in Ei]. right. pose proof (U _ _ _ Ei) as ->.
      rewrite Ei in Hj. injection Hj as -> ->. rewrite C. split_and!; [|done|by exists x, errs].
      intros k r' cs' Hk. cbn in Hk. destruct (decide (j = k)) as [<-|Ne].
      * by rewrite list_lookup_insert_eq in Hk by (by eapply lookup_lt_Some).
      * rewrite list_lookup_insert_ne in Hk by done. apply U in Hk. congruence.
    + destruct O as (N & _). by apply N in Ei.
  - destruct (callers s !! i) as [[| | |]|] eqn:Ei; try done. destruct (finished s); [|done]. injection E as <-. eapply other_ok; [done|exact Ei|done|done].
  - destruct (callers s !! i) as [[| | |]|] eqn:Ei; try done. injection E as <-. eapply other_ok; [done|exact Ei|done|done].
Qed.

Lemma life_steps_ok ls s s' : life_ok s -> life_steps body ls s = Some s' -> life_ok s'.
Proof.
  revert s. induction ls as [|l ls IH]; intros s O E; cbn in E; [by injection E as <-|].
  destruct (life_step body l s) as [s1|] eqn:E1; [|done]. eapply IH; [|exact E]. by eapply life_step_ok.
Qed.

Lemma new_life_ok : life_ok new_life.
Proof. cbn. split_and!; done. Qed.
End life.

Lemma run_stop b e fuel cs t o : run b e fuel cs t = Some o -> exists srv begin fast, o_stop o = stop b e srv cs begin fast.
Proof.
  unfold run. intros E. destruct (awaitHealthy b e fuel cs t _ _) as [u|i u|rep u|]; [|injection E as <-; eexists _, _, _; reflexivity|injection E as <-; eexists _, _, _; reflexivity|discriminate].
  destruct (HTTPEnabled b && negb (e_listen e)); [injection E as <-; eexists _, _, _; reflexivity|].
  destruct (first_end b e cs u) as [[v [c|err]]|]; [injection E as <-; eexists _, _, _; reflexivity|injection E as <-; eexists _, _, _; reflexivity|discriminate].
Qed.

(** [C39] However calls of Use, Handler, Run and Close come beside each other, one
    call at most owns the components, and it closes each Closer ever
    registered once, in reverse order - or, before it has ended, none; no Use
    adds a component that nobody closes. *)
Theorem app_closes_once (b : base) (e : environment) (fuel : nat) (t dl : Z) (ls : list life_label) (s : life) :
  life_steps (app_body b e fuel t dl) ls new_life = Some s ->
  (forall i j r cs r' cs', callers s !! i = Some (Owner r cs) -> callers s !! j = Some (Owner r' cs') -> i = j)
  /\ (if finished s then closings s = rev (closers (components (app s))) else closings s = []).
Proof.
  intros E. pose proof (life_steps_ok _ _ _ _ (new_life_ok _) E) as O. unfold life_ok in O. destruct (started (app s)).
  - destruct O as [(k & _ & U & -> & ->)|(N & -> & r & errs & B)].
    + split; [|done]. intros i j r cs r' cs' Hi Hj. apply U in Hi, Hj. congruence.
    + split; [intros i j r' cs r'' cs'' Hi; by apply N in Hi|]. unfold app_body in B. destruct r.
      * destruct (run b e fuel (components (app s)) t) as [o|] eqn:Er; [|done]. injection B as _ <-.
        destruct (run_stop _ _ _ _ _ _ Er) as (srv & begin & fast & ->). apply stop_index.
      * injection B as _ <-. apply closeAll_index.
  - destruct O as (N & -> & ->). split; [|done]. intros i j r cs r' cs' Hi. by apply N in Hi.
Qed.

(** ** Signals *)

Definition stops (l : list (Z * signal)) : list (Z * signal) := List.filter (fun p => match p.2 with SIGHUP => false | _ => true end) l.

(** The first signal but SIGHUP cancels the context, the second turns the stop
    fast, and no other does anything. *)
Lemma signals_spec l : signals l None None =
  (match stops l with (t, SIGQUIT) :: _ => Some (t, FastStop) | (t, _) :: _ => Some (t, Canceled) | [] => None end,
   match stops l with _ :: (t, _) :: _ => Some t | _ => None end).
Proof.
  assert (H2 : forall l x h, signals l (Some x) (Some h) = (Some x, Some h)).
  { clear. induction l as [|[t s] l IH]; intros x h; cbn; [done|]. destruct s; apply IH. }
  assert (H1 : forall l x, signals l (Some x) None = (Some x, match stops l with (t, _) :: _ => Some t | [] => None end)).
  { clear -H2. induction l as [|[t s] l IH]; intros x; cbn; [done|]. destruct s; cbn; try apply H2. apply IH. }
  induction l as [|[t s] l IH]; cbn; [done|]. destruct s; cbn; try apply H1. apply IH.
Qed.

(** Two signals end the App: from the second on, when it stops already, a stop
    takes five seconds at most, and one for each Close that overruns them. *)
Theorem second_signal_bounds (b : base) (e : environment) (Ok : env_ok e) (l : list (Z * signal)) (t1 t2 : Z) (s1 s2 : signal) (rest : list (Z * signal))
  (Env : signals l None None = (e_ctx e, e_hurry e)) (Two : stops l = (t1, s1) :: (t2, s2) :: rest)
  (srv : bool) (cs : list component) (begin : Z) (fast : bool) (Begun : begin <= t2) :
  let s := stop b e srv cs begin fast in st_end s <= t2 + fastStopBudget + closeGrace * late (st_deadline s) (st_closes s).
Proof.
  rewrite signals_spec, Two in Env. injection Env as _ Hh. cbn zeta.
  destruct (stop_parts b e Ok srv cs begin fast) as (_ & Dl & _ & _ & _ & W & C & En & _). cbn zeta in *.
  set (s := stop b e srv cs begin fast) in *. clearbody s. destruct (stop_deadline_bounds b e begin fast) as (_ & _ & H). rewrite <- Dl in H.
  specialize (H t2 (eq_sym Hh)). rewrite En, C. pose proof (close_each_bound e Ok (rev (numbered cs)) (st_waited s) (st_deadline s)). unfold closeAll. lia.
Qed.

(** ** Reload *)

(** The levels in force while a reload speaks, and whether each line passed. *)
Fixpoint heard (l : list reload_act) (level : Z) : bool * Z :=
  match l with
  | [] => (true, level)
  | SetLevel v :: l' => heard l' v
  | LogAt v :: l' => let '(ok, last) := heard l' level in ((level <=? v) && ok, last)
  end.

(** A reload leaves the level of the file in force, and neither line it logs is
    filtered by the change. *)
Lemma reload_heard old level others : heard (reloadLogLevel old level others) old = (true, default old level).
Proof.
  unfold reloadLogLevel. set (lv := default old level). destruct (Z.ltb_spec lv old), (Z.eqb_spec lv old), others; cbn; try lia; repeat f_equal; Zbool;
    repeat (destruct (Z.leb_spec old (Z.max LevelInfo (Z.min old lv))) || destruct (Z.leb_spec lv (Z.max LevelInfo (Z.min old lv)))
      || destruct (Z.leb_spec old (Z.max LevelWarn (Z.min old lv))) || destruct (Z.leb_spec lv (Z.max LevelWarn (Z.min old lv)))); try lia; done.
Qed.

(** ** Concrete runs *)

Section demo.
Definition demo_comp (name : string) (s c h : bool) : component := Component (str name) s c h false false.
Definition demo_comps : list component := [demo_comp "db" false true true; demo_comp "jobs" true false false; demo_comp "mail" false true false].
Definition demo_base : base := Base true (2 * Second) (10 * Second) 0 (3 * Second) Second.

(** The database is healthy after 50ms, its context is canceled after three
    seconds and the stop turns fast a second later; jobs takes its time and
    mail never returns. *)
Definition demo_env : environment :=
  Env (Some (3 * Second, Canceled)) (Some (4 * Second)) (fun _ => None) (fun _ _ => Some (Second, true))
    (fun _ t => Some (Millisecond, 50 * Millisecond <=? t)) true None None (fun _ => Some Second)
    (fun i _ _ => match i with 2%nat => None | _ => Some (Millisecond, true) end).

Lemma demo_env_ok : env_ok demo_env.
Proof.
  constructor; cbn.
  - intros i t d ok [= <- _]. unfold Millisecond. lia.
  - intros i t d ok [= <- _]. unfold Second. lia.
  - intros t d [= <-]. unfold Second. lia.
  - intros i t dl d ok. destruct i as [|[|[|i]]]; intros [=]; subst; unfold Millisecond; lia.
Qed.
(** The run: ready at 74ms, by the fourth poll; the stop begins at 3s; jobs has
    returned at 5s; mail is waited for until 9s - the fast stop's 4s + 5s -
    and a second more; the database closes after it. *)
Definition demo_outcome : outcome := match run demo_base demo_env 300 demo_comps 0 with Some o => o | None => Outcome None (stop demo_base demo_env false [] 0 false) [] end.

Definition demo_stop : stopped := o_stop demo_outcome.

Lemma stop_bounded_witness : st_end demo_stop <= 9 * Second + closeGrace * 2 /\ st_end demo_stop = 10 * Second + Millisecond.
Proof.
  split; [|vm_compute; reflexivity]. refine (Z.le_trans _ _ _ (proj1 (stop_bounded demo_base demo_env demo_env_ok true demo_comps (3 * Second) false)) _).
  vm_compute. discriminate.
Defined.

Lemma stop_closes_all_witness : map cc_index (st_closes (stop demo_base demo_env true demo_comps (3 * Second) false)) = [2%nat; 0%nat]
  /\ st_errs (stop demo_base demo_env true demo_comps (3 * Second) false) = [EAbandoned 2].
Proof.
  split; [|vm_compute; reflexivity]. rewrite (proj1 (stop_closes_all demo_base demo_env demo_env_ok true demo_comps (3 * Second) false)). vm_compute. reflexivity.
Defined.

Lemma run_returns_witness : o_ready demo_outcome = Some (74 * Millisecond) /\ exists srv begin fast, o_stop demo_outcome = stop demo_base demo_env srv demo_comps begin fast /\ 0 <= begin.
Proof.
  split; [vm_compute; reflexivity|].
  assert (F : timeout_or (StartTimeout demo_base) (30 * Second) < Z.of_nat 300 * (10 * Millisecond)) by (vm_compute; reflexivity).
  pose proof (run_returns demo_base demo_env demo_env_ok 300 demo_comps 0 F) as R.
  unfold demo_outcome. destruct (run demo_base demo_env 300 demo_comps 0) as [o|]; [|destruct R as [R _]; discriminate].
  destruct R as (srv & begin & fast & S & B & _). exists srv, begin, fast. split; [exact S|exact B].
Defined.

(** Run and Close called together: Close waits, one of them closes, and the
    second Run is refused. *)
Definition demo_calls : list life_label :=
  [LUse (map Some demo_comps); LCall true; LCall false; LCall true; LBegin 0; LUse [None]; LBegin 1; LBegin 2; LFinish 0; LWake 1].

Definition demo_life : life := match life_steps (app_body demo_base demo_env 300 0 0) demo_calls new_life with Some s => s | None => new_life end.

Lemma app_closes_once_witness : finished demo_life = true /\ closings demo_life = [2%nat; 0%nat].
Proof.
  split; [vm_compute; reflexivity|].
  assert (E : life_steps (app_body demo_base demo_env 300 0 0) demo_calls new_life = Some demo_life) by (vm_compute; reflexivity).
  pose proof (proj2 (app_closes_once demo_base demo_env 300 0 0 demo_calls demo_life E)) as C. vm_compute in C |- *. exact C.
Defined.

Lemma second_signal_bounds_witness : st_end (stop demo_base demo_env true demo_comps (3 * Second) false) <= 4 * Second + fastStopBudget + closeGrace * 2.
Proof.
  refine (Z.le_trans _ _ _ (second_signal_bounds demo_base demo_env demo_env_ok [(Second, SIGHUP); (3 * Second, SIGTERM); (4 * Second, SIGINT)]
    (3 * Second) (4 * Second) SIGTERM SIGINT [] eq_refl eq_refl true demo_comps (3 * Second) false _) _); vm_compute; discriminate.
Defined.

(** "Run returns nil when ctx is canceled": not while the App starts. *)
Lemma canceled_start_fails :
  let e := Env (Some (Second, Canceled)) None (fun _ => None) (fun _ _ => Some (0, true)) (fun _ _ => Some (0, false)) true None None (fun _ => Some 0) (fun _ _ _ => Some (0, true)) in
  option_map o_errs (run demo_base e 300 demo_comps 0) = Some [ENotHealthy].
Proof. vm_compute. reflexivity. Qed.

(** A Start that fails while the App drains is reported by nobody. *)
Lemma late_failure_unreported :
  let b := Base true (2 * Second) (10 * Second) (5 * Second) (3 * Second) Second in
  let e := Env (Some (Second, Canceled)) None (fun _ => Some (2 * Second)) (fun _ _ => Some (0, true)) (fun _ _ => Some (0, true)) true None (Some 0) (fun _ => Some 0) (fun _ _ _ => Some (0, true)) in
  match run b e 300 demo_comps 0 with Some o => o_errs o = [] /\ st_canceled (o_stop o) = 6 * Second | None => False end.
Proof. vm_compute. split; reflexivity. Qed.
End demo.
