(* ===== verification/Rbac.v ===== *)
(** identity/rbac: the rules in the database (adapter.go), the decision and
    the policies' service (engine.go, model.go, policy.go, rbac.go), and the
    watcher that keeps replicas alike (watcher.go).

    casbin is not part of this: its enforcer is an interface, with laws that
    state what it documents.  How the database compares text is [sql_eq]. *)

From Stdlib Require Import ZArith Lia List Ascii.
From stdpp Require Import base decidable list strings relations.
From S2P Require Import Prelude GoStrings.

(** ** Rules and rows *)

Notation rule := (list gostring).

Record casbinRule := CasbinRule {
  ID : Z; Ptype : gostring; V0 : gostring; V1 : gostring; V2 : gostring; V3 : gostring; V4 : gostring; V5 : gostring;
}.

Definition maxRuleColumns : nat := 6.

Definition values (r : casbinRule) : list gostring := [V0 r; V1 r; V2 r; V3 r; V4 r; V5 r].

(** A field of a rule, empty past its end. *)
Definition field (l : list gostring) (i : nat) : gostring := nth i l [].

Inductive adapter_error := TooManyFields | StatementFailed | OldRuleMissing | NoConstraint | LengthsDiffer | OnlyInserts | UniqueViolation | EmptyPtype (id : Z) | BadRule (id : Z).

Definition ruleToRow (ptype : gostring) (r : rule) : result adapter_error casbinRule :=
  if (maxRuleColumns <? length r)%nat then Err TooManyFields
  else Ok (CasbinRule 0 ptype (field r 0) (field r 1) (field r 2) (field r 3) (field r 4) (field r 5)).

Fixpoint rulesToRows (ptype : gostring) (rs : list rule) : result adapter_error (list casbinRule) :=
  match rs with
  | [] => Ok []
  | r :: rs' => let? row := ruleToRow ptype r in let? rows := rulesToRows ptype rs' in Ok (row :: rows)
  end.

(** The index past the last field that is not empty. *)
Fixpoint rule_end (l : list gostring) : nat :=
  match l with
  | [] => 0
  | v :: l' => match rule_end l' with O => if seq_eqb v [] then 0 else 1 | S n => S (S n) end
  end.

Definition rowToRule (r : casbinRule) : rule := take (rule_end (values r)) (values r).

Definition rowToLoadArray (r : casbinRule) : list gostring := Ptype r :: rowToRule r.

(** ** The adapter *)

Section adapter.
Context (sql_eq : gostring -> gostring -> bool).

(** The table, in the order of its ids. *)
Record rules := Rules { rows : list casbinRule; next_id : Z }.

(** A WHERE on columns. *)
Notation conds := (list (nat * gostring)).

Fixpoint applyValueColumns (idx : nat) (r : rule) : conds :=
  match r with [] => [] | v :: r' => if (maxRuleColumns <=? idx)%nat then [] else (idx, v) :: applyValueColumns (S idx) r' end.

Definition applyExactRule (r : rule) : conds := map (fun i => (i, if (i <? length r)%nat then field r i else [])) (seq 0 maxRuleColumns).

Fixpoint applyValueColumnsFiltered (idx : nat) (vs : list gostring) : conds :=
  match vs with
  | [] => []
  | v :: vs' => if (maxRuleColumns <=? idx)%nat then [] else if seq_eqb v [] then applyValueColumnsFiltered (S idx) vs' else (idx, v) :: applyValueColumnsFiltered (S idx) vs'
  end.

(** [hasAnyMappedConstraint]'s loop, and the whole. *)
Fixpoint any_constraint (idx : nat) (vs : list gostring) : bool :=
  match vs with
  | [] => false
  | v :: vs' => if (maxRuleColumns <=? idx)%nat then false else if seq_eqb v [] then any_constraint (S idx) vs' else true
  end.

Definition hasAnyMappedConstraint (fieldIndex : Z) (vs : list gostring) : bool :=
  if fieldIndex <? 0 then false else any_constraint (Z.to_nat fieldIndex) vs.

Definition hits (ptype : gostring) (c : conds) (r : casbinRule) : bool :=
  sql_eq (Ptype r) ptype && forallb (fun p => sql_eq (field (values r) p.1) p.2) c.

Definition delete_where (ptype : gostring) (c : conds) (t : rules) : rules :=
  Rules (List.filter (fun r => negb (hits ptype c r)) (rows t)) (next_id t).

(** The unique index over the type and the values. *)
Definition same_key (r s : casbinRule) : bool :=
  sql_eq (Ptype r) (Ptype s) && forallb (fun p => sql_eq p.1 p.2) (combine (values r) (values s)).

Definition with_id (i : Z) (r : casbinRule) : casbinRule := CasbinRule i (Ptype r) (V0 r) (V1 r) (V2 r) (V3 r) (V4 r) (V5 r).

Definition insert_row (r : casbinRule) (t : rules) : rules := Rules (rows t ++ [with_id (next_id t) r]) (next_id t + 1).

(** INSERT … ON CONFLICT DO NOTHING, and a plain INSERT. *)
Definition insert_ignore (r : casbinRule) (t : rules) : rules := if existsb (same_key r) (rows t) then t else insert_row r t.

Fixpoint insert_all (rs : list casbinRule) (t : rules) : result adapter_error rules :=
  match rs with
  | [] => Ok t
  | r :: rs' => if existsb (same_key r) (rows t) then Err UniqueViolation else insert_all rs' (insert_row r t)
  end.

(** Operations run against the table; [fails k] says that the [k]-th statement
    of the call fails. *)
Context (fails : nat -> bool).

Definition statement {A} (k : nat) (x : result adapter_error A) : result adapter_error A := if fails k then Err StatementFailed else x.

(** [LoadPolicy]: every row in the order of the ids, handed to casbin's model. *)
Section load.
Context {M : Type} (LoadPolicyArray : list gostring -> M -> option M).

Fixpoint load_rows (rs : list casbinRule) (m : M) : result adapter_error M :=
  match rs with
  | [] => Ok m
  | r :: rs' =>
      if seq_eqb (Ptype r) [] then Err (EmptyPtype (ID r))
      else match LoadPolicyArray (rowToLoadArray r) m with Some m' => load_rows rs' m' | None => Err (BadRule (ID r)) end
  end.

Definition LoadPolicy (t : rules) (m : M) : result adapter_error M := statement 0 (load_rows (rows t) m).
End load.

(** [SavePolicy]; [m] holds the model's rules by type, in the order it yields
    them. *)
Fixpoint save_rows (m : list (gostring * list rule)) : result adapter_error (list casbinRule) :=
  match m with
  | [] => Ok []
  | (p, rs) :: m' => let? a := rulesToRows p rs in let? b := save_rows m' in Ok (a ++ b)
  end.

Definition SavePolicy (m : list (gostring * list rule)) (t : rules) : result adapter_error rules :=
  let? rs := save_rows m in
  let? _ := statement 0 (Ok tt) in
  let cleared := Rules [] (next_id t) in
  match rs with [] => Ok cleared | _ => statement 1 (Ok (fold_left (fun t r => insert_ignore r t) rs cleared)) end.

Definition AddPolicy (ptype : gostring) (r : rule) (t : rules) : result adapter_error rules :=
  let? row := ruleToRow ptype r in statement 0 (Ok (insert_ignore row t)).

Definition RemovePolicy (ptype : gostring) (r : rule) (t : rules) : result adapter_error rules :=
  statement 0 (Ok (delete_where ptype (applyValueColumns 0 r) t)).

Definition RemoveFilteredPolicy (ptype : gostring) (fieldIndex : Z) (vs : list gostring) (t : rules) : result adapter_error rules :=
  if negb (hasAnyMappedConstraint fieldIndex vs) then Err NoConstraint
  else statement 0 (Ok (delete_where ptype (applyValueColumnsFiltered (Z.to_nat fieldIndex) vs) t)).

Definition AddPolicies (ptype : gostring) (rs : list rule) (t : rules) : result adapter_error rules :=
  match rs with
  | [] => Ok t
  | _ => let? new := rulesToRows ptype rs in statement 0 (Ok (fold_left (fun t r => insert_ignore r t) new t))
  end.

(** In one transaction, a statement each. *)
Fixpoint remove_each (k : nat) (ptype : gostring) (rs : list rule) (t : rules) : result adapter_error rules :=
  match rs with
  | [] => Ok t
  | r :: rs' => let? t' := statement k (Ok (delete_where ptype (applyValueColumns 0 r) t)) in remove_each (S k) ptype rs' t'
  end.

Definition RemovePolicies (ptype : gostring) (rs : list rule) (t : rules) : result adapter_error rules := remove_each 0 ptype rs t.

(** An update's DELETE: it must hit a row. *)
Definition delete_old (k : nat) (ptype : gostring) (old : rule) (t : rules) : result adapter_error rules :=
  let t' := delete_where ptype (applyExactRule old) t in
  let? t' := statement k (Ok t') in
  if (length (rows t') =? length (rows t))%nat then Err OldRuleMissing else Ok t'.

Definition UpdatePolicy (ptype : gostring) (old new : rule) (t : rules) : result adapter_error rules :=
  if (maxRuleColumns <? length old)%nat then Err TooManyFields
  else
    let? row := ruleToRow ptype new in
    let? t' := delete_old 0 ptype old t in
    let? t' := statement 1 (Ok t') in insert_all [row] t'.

Fixpoint delete_olds (k : nat) (ptype : gostring) (olds : list rule) (t : rules) : result adapter_error rules :=
  match olds with [] => Ok t | r :: rs => let? t' := delete_old k ptype r t in delete_olds (S k) ptype rs t' end.

Definition UpdatePolicies (ptype : gostring) (olds news : list rule) (t : rules) : result adapter_error rules :=
  if negb (length olds =? length news)%nat then Err LengthsDiffer
  else match olds with
       | [] => Ok t
       | _ =>
           if existsb (fun r => (maxRuleColumns <? length r)%nat) olds then Err TooManyFields
           else
             let? new := rulesToRows ptype news in
             let? t' := delete_olds 0 ptype olds t in
             let? t' := statement (length olds) (Ok t') in insert_all new t'
       end.

(** Answers the rules it replaced as well. *)
Definition UpdateFilteredPolicies (ptype : gostring) (news : list rule) (fieldIndex : Z) (vs : list gostring) (t : rules)
  : result adapter_error (rules * list rule) :=
  if negb (hasAnyMappedConstraint fieldIndex vs) then Err NoConstraint
  else
    let? new := rulesToRows ptype news in
    let c := applyValueColumnsFiltered (Z.to_nat fieldIndex) vs in
    let old := List.filter (hits ptype c) (rows t) in
    let? _ := statement 0 (Ok tt) in
    if (length old =? 0)%nat && negb (length new =? 0)%nat then Err OnlyInserts
    else
      let? t' := statement 1 (Ok (delete_where ptype c t)) in
      let? t' := (match new with [] => Ok t' | _ => let? t' := statement 2 (Ok t') in insert_all new t' end) in
      Ok (t', map rowToRule old).
End adapter.

(** ** The engine and the policies *)

Definition globalDomain : gostring := str "*".
Definition rbac_adminRole : gostring := str "admin".

Record Permission := MkPermission { Object : gostring; PAction : gostring }.

(** What the code uses of casbin's enforcer, with a call that can fail
    answering [None]. *)
Class Enforcer (E : Type) := {
  GetPolicy : E -> list rule;
  GetGroupingPolicy : E -> list rule;
  EAddPolicy : rule -> E -> option (bool * E);
  ERemovePolicy : rule -> E -> option (bool * E);
  EAddGrouping : rule -> E -> option (bool * E);       (* AddRoleForUserInDomain *)
  ERemoveGrouping : rule -> E -> option (bool * E);    (* DeleteRoleForUserInDomain *)
  GetRolesForUserInDomain : E -> gostring -> gostring -> list gostring;
  Enforce : E -> gostring -> gostring -> gostring -> gostring -> option bool;
}.

Section engine.
Context {E : Type} `{Enforcer E}.

Definition normalizeDomain (d : gostring) : gostring := if seq_eqb d [] then globalDomain else d.

(** [decide]: the loop over the subjects, and the whole. *)
Fixpoint decide_any (e : E) (subs : list gostring) (dom obj act : gostring) : option bool :=
  match subs with
  | [] => Some false
  | sub :: subs' =>
      if seq_eqb sub [] then decide_any e subs' dom obj act
      else match Enforce e sub dom obj act with Some false => decide_any e subs' dom obj act | r => r end
  end.

Definition decide (e : E) (userID : gostring) (roles : list gostring) (dom obj act : gostring) : option bool :=
  if bool_decide (rbac_adminRole ∈ roles) then Some true else decide_any e (userID :: roles) (normalizeDomain dom) obj act.

(** What a call answers, and the record of it: action, role, object, action. *)
Inductive policy_error := ReservedDomain | NeedsTenant | EnforcerFailed | UserReadFailed.
Notation audit_rec := (gostring * gostring * gostring * gostring)%type.

Definition rejectGlobalAsTenant (domain : gostring) : result policy_error unit := if seq_eqb domain globalDomain then Err ReservedDomain else Ok tt.

Definition rejectGlobalMembership (domain : gostring) : result policy_error unit :=
  if seq_eqb domain [] then Err NeedsTenant else rejectGlobalAsTenant domain.

(** A change through the enforcer, recorded when it changed something. *)
Definition changing (r : option (bool * E)) (rec : audit_rec) (log : list audit_rec) : result policy_error (E * list audit_rec) :=
  match r with
  | None => Err EnforcerFailed
  | Some (changed, e') => Ok (e', if changed then log ++ [rec] else log)
  end.

Section service.
Context (e : E) (log : list audit_rec).

Definition AddUserToRoleInDomain (userID role domain : gostring) : result policy_error (E * list audit_rec) :=
  let? _ := rejectGlobalMembership domain in
  changing (EAddGrouping [userID; role; domain] e) (str "AddUserToRoleInDomain", role, userID, domain) log.

Definition RemoveUserFromRoleInDomain (userID role domain : gostring) : result policy_error (E * list audit_rec) :=
  let? _ := rejectGlobalMembership domain in
  changing (ERemoveGrouping [userID; role; domain] e) (str "RemoveUserFromRoleInDomain", role, userID, domain) log.

Definition GrantRole (role obj act : gostring) : result policy_error (E * list audit_rec) :=
  changing (EAddPolicy [role; globalDomain; obj; act] e) (str "GrantRole", role, obj, act) log.

Definition RevokeRole (role obj act : gostring) : result policy_error (E * list audit_rec) :=
  changing (ERemovePolicy [role; globalDomain; obj; act] e) (str "RevokeRole", role, obj, act) log.

Definition GrantRoleInDomain (role obj act domain : gostring) : result policy_error (E * list audit_rec) :=
  let? _ := rejectGlobalAsTenant domain in
  changing (EAddPolicy [role; normalizeDomain domain; obj; act] e) (str "GrantRoleInDomain", role, obj, act) log.

Definition RevokeRoleInDomain (role obj act domain : gostring) : result policy_error (E * list audit_rec) :=
  let? _ := rejectGlobalAsTenant domain in
  changing (ERemovePolicy [role; normalizeDomain domain; obj; act] e) (str "RevokeRoleInDomain", role, obj, act) log.

Definition GrantUser (userID obj act : gostring) : result policy_error (E * list audit_rec) :=
  changing (EAddPolicy [userID; globalDomain; obj; act] e) (str "GrantUser", str "(direct)", userID, obj ++ str "/" ++ act) log.

Definition RevokeUser (userID obj act : gostring) : result policy_error (E * list audit_rec) :=
  changing (ERemovePolicy [userID; globalDomain; obj; act] e) (str "RevokeUser", str "(direct)", userID, obj ++ str "/" ++ act) log.
End service.

(** The service's changes, as calls. *)
Inductive policy_call :=
| PAddUser (userID role domain : gostring) | PRemoveUser (userID role domain : gostring)
| PGrant (role obj act : gostring) | PRevoke (role obj act : gostring)
| PGrantIn (role obj act domain : gostring) | PRevokeIn (role obj act domain : gostring)
| PGrantUser (userID obj act : gostring) | PRevokeUser (userID obj act : gostring).

Definition policy_step (c : policy_call) (e : E) (log : list audit_rec) : result policy_error (E * list audit_rec) :=
  match c with
  | PAddUser u r d => AddUserToRoleInDomain e log u r d
  | PRemoveUser u r d => RemoveUserFromRoleInDomain e log u r d
  | PGrant r o a => GrantRole e log r o a
  | PRevoke r o a => RevokeRole e log r o a
  | PGrantIn r o a d => GrantRoleInDomain e log r o a d
  | PRevokeIn r o a d => RevokeRoleInDomain e log r o a d
  | PGrantUser u o a => GrantUser e log u o a
  | PRevokeUser u o a => RevokeUser e log u o a
  end.

(** [UserRolesInDomain], [DomainsForUser]. *)
Definition UserRolesInDomain (e : E) (userID domain : gostring) : result policy_error (list gostring) :=
  let? _ := rejectGlobalMembership domain in Ok (GetRolesForUserInDomain e userID domain).

Fixpoint domains_go (rs : list rule) (userID : gostring) (out : list gostring) : list gostring :=
  match rs with
  | [] => out
  | r :: rs' =>
      if (length r <? 3)%nat || negb (seq_eqb (field r 0) userID) || seq_eqb (field r 2) globalDomain then domains_go rs' userID out
      else domains_go rs' userID (if bool_decide (field r 2 ∈ out) then out else out ++ [field r 2])
  end.

Definition DomainsForUser (e : E) (userID : gostring) : list gostring := domains_go (GetGroupingPolicy e) userID [].

(** [RolePermissions] and [RolePermissionsInDomain]; the filter is
    GetFilteredPolicy's. *)
Definition permissions_of (e : E) (role dom : gostring) : list Permission :=
  map (fun r => MkPermission (field r 2) (field r 3))
    (List.filter (fun r => negb (length r <? 4)%nat) (List.filter (fun r => seq_eqb (field r 0) role && seq_eqb (field r 1) dom) (GetPolicy e))).

Definition RolePermissions (e : E) (role : gostring) : list Permission := permissions_of e role globalDomain.

Definition RolePermissionsInDomain (e : E) (role domain : gostring) : result policy_error (list Permission) :=
  let? _ := rejectGlobalAsTenant domain in Ok (permissions_of e role (normalizeDomain domain)).

(** A user as identity answers it: whether it is active, and its roles. *)
Inductive user_read := UserMissing | UserError | UserFound (active : bool) (roles : list gostring).

Definition hasPermission (users : gostring -> user_read) (e : E) (userID dom obj act : gostring) : result policy_error bool :=
  if seq_eqb userID [] then Ok false
  else match users userID with
       | UserMissing => Ok false
       | UserError => Err UserReadFailed
       | UserFound active roles =>
           if negb active then Ok false
           else match decide e userID roles dom obj act with Some b => Ok b | None => Err EnforcerFailed end
       end.

Definition HasPermission (users : gostring -> user_read) (e : E) (userID obj act : gostring) : result policy_error bool :=
  hasPermission users e userID [] obj act.

Definition HasPermissionInDomain (users : gostring -> user_read) (e : E) (userID obj act domain : gostring) : result policy_error bool :=
  let? _ := rejectGlobalAsTenant domain in hasPermission users e userID domain obj act.

(** [require]: a route's answer, and whether the denial is recorded. *)
Inductive required := Unauthorized | NoDomain | DecisionFailed | Forbidden | Passed.

Definition require (e : E) (principal : option (gostring * list gostring)) (domain : option gostring) (obj act : gostring) : required :=
  match principal with
  | None => Unauthorized
  | Some (userID, roles) =>
      if seq_eqb userID [] then Unauthorized
      else match domain with
           | Some [] => NoDomain
           | _ =>
               match decide e userID roles (default [] domain) obj act with
               | None => DecisionFailed
               | Some false => Forbidden
               | Some true => Passed
               end
           end
  end.
End engine.

(** The matcher of the model's text, over a policy; [linked] is casbin's role
    links, [keyMatch] its function of the name. *)
Definition matcher (linked : gostring -> gostring -> gostring -> bool) (keyMatch : gostring -> gostring -> bool)
  (sub dom obj act : gostring) (p : rule) : bool :=
  (seq_eqb sub (field p 0) || (negb (seq_eqb dom globalDomain) && linked sub (field p 0) dom))
  && (seq_eqb dom (field p 1) || seq_eqb (field p 1) globalDomain)
  && keyMatch obj (field p 2)
  && (seq_eqb act (field p 3) || seq_eqb (field p 3) (str "*")).

(** ** The watcher *)

Section watcher.
(** What a replica reads from the database and applies of its own. *)
Context {D C : Type} (apply : C -> D -> D).

Inductive payload := Change (from : nat) | Resubscribed.

Record replica := Replica {
  memory : D; inbox : list payload; reload : bool; w_closed : bool; callback : bool; reloadFailures : Z; publishFailures : Z;
  missed : bool;   (* a change it was not told of, or could not read, since it last read all; no step reads it *)
}.

Record cluster := Cluster { db : D; replicas : list replica }.

Inductive w_label :=
| WChange (i : nat) (c : C) (published : bool) (heard : nat -> bool)   (* a mutation at replica i; who gets the message *)
| WReceive (i : nat)                                                   (* receiveLoop *)
| WReconnect (i : nat)
| WReload (i : nat) (ok tick : bool)                                   (* reloadLoop, on the signal or the ticker *)
| WClose (i : nat).

Definition set_replica (i : nat) (r : replica) (s : cluster) : cluster := Cluster (db s) (<[i := r]> (replicas s)).

(** A peer's view of a change: the message, or the loss of it. *)
Definition told (i j : nat) (published : bool) (heard : nat -> bool) (r : replica) : replica :=
  if published && heard j then Replica (memory r) (inbox r ++ [Change i]) (reload r) (w_closed r) (callback r) (reloadFailures r) (publishFailures r) (missed r)
  else Replica (memory r) (inbox r) (reload r) (w_closed r) (callback r) (reloadFailures r) (publishFailures r) true.

Definition own (i : nat) (c : C) (published : bool) (r : replica) : replica :=
  Replica (apply c (memory r)) (if published then inbox r ++ [Change i] else inbox r) (reload r) (w_closed r) (callback r) (reloadFailures r)
    (if published then publishFailures r else publishFailures r + 1) (missed r).

(** [signalReload]. *)
Definition signalReload (q : list payload) (r : replica) : replica :=
  Replica (memory r) q true (w_closed r) (callback r) (reloadFailures r) (publishFailures r) (missed r).

Definition w_step (l : w_label) (s : cluster) : option cluster :=
  match l with
  | WChange i c published heard =>
      match replicas s !! i with
      | Some r =>
          if w_closed r then None
          else Some (Cluster (apply c (db s)) (imap (fun j r => if (j =? i)%nat then own i c published r else told i j published heard r) (replicas s)))
      | None => None
      end
  | WReceive i =>
      match replicas s !! i with
      | Some r =>
          if w_closed r then None
          else match inbox r with
               | [] => None
               | Change j :: q =>
                   Some (set_replica i (if (j =? i)%nat
                     then Replica (memory r) q (reload r) (w_closed r) (callback r) (reloadFailures r) (publishFailures r) (missed r)
                     else signalReload q r) s)
               | Resubscribed :: q => Some (set_replica i (signalReload q r) s)
               end
      | None => None
      end
  | WReconnect i =>
      match replicas s !! i with
      | Some r => if w_closed r then None
                  else Some (set_replica i (Replica (memory r) (inbox r ++ [Resubscribed]) (reload r) (w_closed r) (callback r) (reloadFailures r) (publishFailures r) (missed r)) s)
      | None => None
      end
  | WReload i ok tick =>
      match replicas s !! i with
      | Some r =>
          if w_closed r || negb (reload r || tick) then None
          else
            let flag := if tick then reload r else false in
            if negb (callback r) then
              Some (set_replica i (Replica (memory r) (inbox r) flag (w_closed r) (callback r) (reloadFailures r) (publishFailures r) true) s)
            else if ok then
              Some (set_replica i (Replica (db s) (inbox r) flag (w_closed r) (callback r) (reloadFailures r) (publishFailures r) false) s)
            else
              Some (set_replica i (Replica (memory r) (inbox r) flag (w_closed r) (callback r) (reloadFailures r + 1) (publishFailures r) true) s)
      | None => None
      end
  | WClose i =>
      match replicas s !! i with
      | Some r => Some (set_replica i (Replica (memory r) (inbox r) (reload r) true false (reloadFailures r) (publishFailures r) (missed r)) s)
      | None => None
      end
  end.

Fixpoint w_steps (ls : list w_label) (s : cluster) : option cluster :=
  match ls with [] => Some s | l :: ls' => match w_step l s with Some s' => w_steps ls' s' | None => None end end.

(** A replica from the moment New read its policies, its callback set.  It
    subscribes only after that; until then it hears no change, which is a
    [WChange] it is not among the [heard] of. *)
Definition newReplica (d : D) : replica := Replica d [] false false true 0 0 false.
End watcher.
