(* ===== verification/RbacSpec.v ===== *)
(** What rbac promises: the table holds the set of rules the calls describe;
    a decision is the policies' of its own tenant and the global ones; replicas
    that heard of every change agree with the database. *)

From Stdlib Require Import ZArith Lia List Ascii.
From stdpp Require Import base decidable list strings relations.
From S2P Require Import Prelude GoStrings Rbac.

(** ** Rules without their empty tails *)

Definition trim (l : rule) : rule := take (rule_end l) l.

Lemma trim_cons v l : trim (v :: l) = match trim l with [] => if seq_eqb v [] then [] else [v] | t => v :: t end.
Proof.
  unfold trim. cbn [rule_end]. destruct (rule_end l) as [|n] eqn:E; cbn.
  - destruct (seq_eqb v []); done.
  - destruct l as [|w l]; [done|]. done.
Qed.

Lemma field_trim l i : field (trim l) i = field l i.
Proof.
  revert i. induction l as [|v l IH]; intros i; [done|]. rewrite trim_cons. unfold field in *. destruct (trim l) as [|w t] eqn:E.
  - destruct (seq_eqb v []) eqn:Ev.
    + apply bool_decide_eq_true_1 in Ev as ->. destruct i as [|i]; [done|]. cbn. rewrite <- IH. by destruct i.
    + destruct i as [|i]; [done|]. cbn. rewrite <- IH. by destruct i.
  - destruct i as [|i]; [done|]. cbn [nth]. by rewrite <- IH.
Qed.

Lemma trim_nil l : (forall i, field l i = []) -> trim l = [].
Proof.
  induction l as [|v l IH]; intros H; [done|]. rewrite trim_cons, IH by (intros i; exact (H (S i))).
  specialize (H 0%nat). cbn in H. subst v. done.
Qed.

(** A trimmed rule is its fields. *)
Lemma trim_ext l l' : (forall i, field l i = field l' i) -> trim l = trim l'.
Proof.
  revert l'. induction l as [|v l IH]; intros [|v' l'] H; [done| | |].
  - symmetry. apply trim_nil. intros i. rewrite <- H. by destruct i.
  - apply trim_nil. intros i. rewrite H. by destruct i.
  - rewrite !trim_cons, (IH l') by (intros i; exact (H (S i))). pose proof (H 0%nat) as Hv. cbn in Hv. by subst v'.
Qed.

Lemma trim_trim l : trim (trim l) = trim l.
Proof. apply trim_ext. intros i. apply field_trim. Qed.

Lemma field_past l i : (length l <= i)%nat -> field l i = [].
Proof. intros H. unfold field. by apply nth_overflow. Qed.

Lemma length_trim l : (length (trim l) <= length l)%nat.
Proof. unfold trim. rewrite length_take. lia. Qed.

Lemma field_values r i : (i < 6)%nat -> field (values r) i = nth i [V0 r; V1 r; V2 r; V3 r; V4 r; V5 r] [].
Proof. done. Qed.

Lemma rowToRule_trim r : rowToRule r = trim (values r).
Proof. done. Qed.

Lemma row_trim p r : (length r <= maxRuleColumns)%nat ->
  rowToRule (CasbinRule 0 p (field r 0) (field r 1) (field r 2) (field r 3) (field r 4) (field r 5)) = trim r.
Proof.
  intros L. rewrite rowToRule_trim. apply trim_ext. intros i. unfold values. cbn [V0 V1 V2 V3 V4 V5]. unfold maxRuleColumns in L.
  destruct i as [|[|[|[|[|[|i]]]]]]; try done. rewrite !field_past; cbn; try lia; done.
Qed.

(** What is stored is read back: a rule of at most six fields whose last is
    not empty comes back from its row as it was; one with empty fields at its
    end comes back without them; a longer one is refused. *)
Theorem rule_roundtrip (ptype : gostring) (r : rule) :
  match ruleToRow ptype r with
  | Ok row => (length r <= maxRuleColumns)%nat /\ Ptype row = ptype /\ rowToRule row = trim r
              /\ (default [] (last r) <> [] -> rowToRule row = r)
  | Err e => (maxRuleColumns < length r)%nat /\ e = TooManyFields
  end.
Proof.
  unfold ruleToRow. destruct (Nat.ltb_spec maxRuleColumns (length r)) as [L|L]; [done|].
  pose proof (row_trim ptype r L) as T.
  split_and!; [done|done|done|]. intros N. rewrite T. clear -N. induction r as [|v r IH]; [done|]. rewrite trim_cons.
  destruct r as [|w r]; [cbn in *; unfold seq_eqb; by rewrite bool_decide_eq_false_2|]. rewrite IH by exact N. done.
Qed.

(** ** The table as a set of rules *)

Notation entry := (gostring * rule)%type.

Definition entry_of (r : casbinRule) : entry := (Ptype r, rowToRule r).
Definition stored (t : rules) : list entry := map entry_of (rows t).

Definition wide (r : rule) : bool := (maxRuleColumns <? length r)%nat.

Lemma rule_row p r : match ruleToRow p r with Ok row => (length r <= maxRuleColumns)%nat /\ entry_of row = (p, trim r) | Err _ => (maxRuleColumns < length r)%nat end.
Proof.
  unfold ruleToRow. destruct (Nat.ltb_spec maxRuleColumns (length r)) as [L|L]; [done|]. split; [done|]. unfold entry_of. f_equal. by apply row_trim.
Qed.

(** What a condition asks of an entry. *)
Definition asks (ptype : gostring) (c : list (nat * gostring)) (x : entry) : bool :=
  seq_eqb x.1 ptype && forallb (fun p => seq_eqb (field x.2 p.1) p.2) c.

Lemma hits_asks ptype c r : hits seq_eqb ptype c r = asks ptype c (entry_of r).
Proof.
  unfold hits, asks, entry_of. cbn [fst snd]. f_equal. rewrite rowToRule_trim. induction c as [|[i v] c IH]; [done|].
  cbn [forallb fst snd]. by rewrite field_trim, IH.
Qed.

Lemma filter_map {A B} (f : A -> B) (g : B -> bool) l : List.filter g (map f l) = map f (List.filter (fun x => g (f x)) l).
Proof. induction l as [|x l IH]; [done|]. cbn. rewrite IH. by destruct (g (f x)). Qed.

Lemma delete_stored ptype c t : stored (delete_where seq_eqb ptype c t) = List.filter (fun x => negb (asks ptype c x)) (stored t).
Proof. unfold stored, delete_where. cbn. rewrite filter_map. f_equal. apply filter_ext. intros r. by rewrite hits_asks. Qed.

Lemma seq_eqb_spec s t : seq_eqb s t = true <-> s = t.
Proof. unfold seq_eqb. apply bool_decide_eq_true. Qed.

(** The conditions of an exact rule ask for it alone. *)
Lemma asks_exact ptype old x : (length old <= maxRuleColumns)%nat -> (length x.2 <= maxRuleColumns)%nat -> trim x.2 = x.2 ->
  asks ptype (applyExactRule old) x = true <-> x = (ptype, trim old).
Proof.
  intros Lo Lx Tx. destruct x as [p ru]. cbn [fst snd] in *. unfold asks. cbn [fst snd]. rewrite andb_true_iff, seq_eqb_spec, forallb_forall. split.
  - intros [-> H]. f_equal. rewrite <- Tx. apply trim_ext. intros i. destruct (Nat.lt_ge_cases i maxRuleColumns) as [L|L].
    + assert (I : In (i, if (i <? length old)%nat then field old i else []) (applyExactRule old)) by (apply in_map_iff; exists i; split; [done|apply in_seq; lia]).
      specialize (H _ I). cbn [fst snd] in H. apply seq_eqb_spec in H. rewrite H. destruct (Nat.ltb_spec i (length old)); [done|]. symmetry. by apply field_past.
    + rewrite !field_past by lia. done.
  - intros [= -> ->]. split; [done|]. intros [i v] Hin. apply in_map_iff in Hin as (j & [= <- <-] & _). apply seq_eqb_spec. cbn [fst snd]. rewrite field_trim.
    destruct (Nat.ltb_spec j (length old)); [done|]. by apply field_past.
Qed.

Lemma same_key_spec r s : same_key seq_eqb r s = true <-> entry_of r = entry_of s.
Proof.
  unfold same_key, entry_of. rewrite !rowToRule_trim, andb_true_iff, seq_eqb_spec. destruct r as [i1 p1 a0 a1 a2 a3 a4 a5], s as [i2 p2 b0 b1 b2 b3 b4 b5]. unfold values. cbn [V0 V1 V2 V3 V4 V5 Ptype combine forallb fst snd]. rewrite !andb_true_iff, !seq_eqb_spec. split.
  - intros (-> & -> & -> & -> & -> & -> & -> & _). done.
  - intros [= -> E]. assert (F : forall i, field [a0; a1; a2; a3; a4; a5] i = field [b0; b1; b2; b3; b4; b5] i).
    { intros i. rewrite <- (field_trim [a0; a1; a2; a3; a4; a5]), E. apply field_trim. }
    pose proof (F 0%nat). pose proof (F 1%nat). pose proof (F 2%nat). pose proof (F 3%nat). pose proof (F 4%nat). pose proof (F 5%nat). cbn in *. by split_and!.
Qed.

(** ** The specification: a set of rules, in the order they came *)

Definition put (x : entry) (S : list entry) : list entry := if bool_decide (x ∈ S) then S else S ++ [x].
Definition without (P : entry -> bool) (S : list entry) : list entry := List.filter (fun x => negb (P x)) S.

Fixpoint put_new (xs : list entry) (S : list entry) : option (list entry) :=
  match xs with [] => Some S | x :: xs' => if bool_decide (x ∈ S) then None else put_new xs' (S ++ [x]) end.

Fixpoint drop_old (xs : list entry) (S : list entry) : option (list entry) :=
  match xs with [] => Some S | x :: xs' => if bool_decide (x ∈ S) then drop_old xs' (without (fun y => bool_decide (y = x)) S) else None end.

Inductive adapter_call :=
| CSave (m : list (gostring * list rule)) | CAdd (p : gostring) (r : rule) | CAdds (p : gostring) (rs : list rule)
| CRemove (p : gostring) (r : rule) | CRemoves (p : gostring) (rs : list rule) | CRemoveFiltered (p : gostring) (i : Z) (vs : list gostring)
| CUpdate (p : gostring) (old new : rule) | CUpdates (p : gostring) (olds news : list rule)
| CUpdateFiltered (p : gostring) (news : list rule) (i : Z) (vs : list gostring).

Definition adapter_step (sql_eq : gostring -> gostring -> bool) (fails : nat -> bool) (c : adapter_call) (t : rules) : result adapter_error rules :=
  match c with
  | CSave m => SavePolicy sql_eq fails m t
  | CAdd p r => AddPolicy sql_eq fails p r t
  | CAdds p rs => AddPolicies sql_eq fails p rs t
  | CRemove p r => RemovePolicy sql_eq fails p r t
  | CRemoves p rs => RemovePolicies sql_eq fails p rs t
  | CRemoveFiltered p i vs => RemoveFilteredPolicy sql_eq fails p i vs t
  | CUpdate p o n => UpdatePolicy sql_eq fails p o n t
  | CUpdates p os ns => UpdatePolicies sql_eq fails p os ns t
  | CUpdateFiltered p ns i vs => let? x := UpdateFilteredPolicies sql_eq fails p ns i vs t in Ok x.1
  end.

Definition entries (p : gostring) (rs : list rule) : list entry := map (fun r => (p, trim r)) rs.

(** A rule that a prefix is of: its fields are the given ones, as far as these
    go; and one whose fields from a position on are the given ones, where these
    are not empty.  A row has six fields. *)
Definition begins (p : gostring) (r : rule) (x : entry) : bool :=
  seq_eqb x.1 p && forallb (fun i => seq_eqb (field x.2 i) (field r i)) (seq 0 (Nat.min (length r) 6)).

Definition fits (p : gostring) (i : nat) (vs : rule) (x : entry) : bool :=
  seq_eqb x.1 p && forallb (fun j => (6 <=? i + j)%nat || seq_eqb (field vs j) [] || seq_eqb (field x.2 (i + j)) (field vs j)) (seq 0 (length vs)).

(** A filter that says something of some field. *)
Definition says (i : Z) (vs : rule) : bool :=
  (0 <=? i) && existsb (fun j => (Z.to_nat i + j <? 6)%nat && negb (seq_eqb (field vs j) [])) (seq 0 (length vs)).

Definition spec_call (c : adapter_call) (S : list entry) : option (list entry) :=
  match c with
  | CSave m => if existsb (fun x => existsb wide x.2) m then None else Some (fold_left (fun S x => put x S) (flat_map (fun x => entries x.1 x.2) m) [])
  | CAdd p r => if wide r then None else Some (put (p, trim r) S)
  | CAdds p rs => if existsb wide rs then None else Some (fold_left (fun S x => put x S) (entries p rs) S)
  | CRemove p r => Some (without (begins p r) S)
  | CRemoves p rs => Some (fold_left (fun S r => without (begins p r) S) rs S)
  | CRemoveFiltered p i vs => if says i vs then Some (without (fits p (Z.to_nat i) vs) S) else None
  | CUpdate p o n =>
      if wide o || wide n then None
      else match drop_old [(p, trim o)] S with Some S' => put_new [(p, trim n)] S' | None => None end
  | CUpdates p os ns =>
      if negb (length os =? length ns)%nat || existsb wide os || existsb wide ns then None
      else match drop_old (entries p os) S with Some S' => put_new (entries p ns) S' | None => None end
  | CUpdateFiltered p ns i vs =>
      let P := fits p (Z.to_nat i) vs in
      if negb (says i vs) || existsb wide ns || (negb (existsb P S) && negb (length ns =? 0)%nat) then None
      else put_new (entries p ns) (without P S)
  end.

(** ** The adapter refines it *)

Lemma forallb_same {A} (f g : A -> bool) l : (forall x, f x = g x) -> forallb f l = forallb g l.
Proof. intros H. induction l as [|x l IH]; [done|]. cbn. by rewrite H, IH. Qed.

Lemma existsb_same {A} (f g : A -> bool) l : (forall x, f x = g x) -> existsb f l = existsb g l.
Proof. intros H. induction l as [|x l IH]; [done|]. cbn. by rewrite H, IH. Qed.

Lemma seq_forall (f : nat -> bool) n : forallb f (seq 0 (S n)) = f 0%nat && forallb (fun j => f (S j)) (seq 0 n).
Proof. cbn. f_equal. rewrite <- seq_shift. generalize (seq 0 n). intros l. induction l as [|x l IH]; [done|]. cbn. by rewrite IH. Qed.

Lemma seq_exists (f : nat -> bool) n : existsb f (seq 0 (S n)) = f 0%nat || existsb (fun j => f (S j)) (seq 0 n).
Proof. cbn. f_equal. rewrite <- seq_shift. generalize (seq 0 n). intros l. induction l as [|x l IH]; [done|]. cbn. by rewrite IH. Qed.

Lemma value_columns k r x : (k <= 6)%nat ->
  forallb (fun q => seq_eqb (field x q.1) q.2) (applyValueColumns k r) = forallb (fun i => seq_eqb (field x (k + i)) (field r i)) (seq 0 (Nat.min (length r) (6 - k))).
Proof.
  revert k. induction r as [|v r IH]; intros k L; [done|]. cbn [applyValueColumns length]. unfold maxRuleColumns. destruct (Nat.leb_spec 6 k) as [G|G].
  - replace (6 - k)%nat with 0%nat by lia. by rewrite Nat.min_0_r.
  - replace (Nat.min (S (length r)) (6 - k))%nat with (S (Nat.min (length r) (6 - S k))) by lia. rewrite seq_forall. cbn [forallb fst snd]. rewrite Nat.add_0_r, IH by lia.
    f_equal. apply forallb_same. intros i. by rewrite Nat.add_succ_r.
Qed.

Lemma asks_begins p r x : asks p (applyValueColumns 0 r) x = begins p r x.
Proof. unfold asks, begins. f_equal. by rewrite value_columns by lia. Qed.

Lemma filtered_columns k vs x :
  forallb (fun q => seq_eqb (field x q.1) q.2) (applyValueColumnsFiltered k vs)
  = forallb (fun j => (6 <=? k + j)%nat || seq_eqb (field vs j) [] || seq_eqb (field x (k + j)) (field vs j)) (seq 0 (length vs)).
Proof.
  revert k. induction vs as [|v vs IH]; intros k; [done|]. cbn [applyValueColumnsFiltered length]. rewrite seq_forall, Nat.add_0_r. unfold maxRuleColumns.
  destruct (Nat.leb_spec 6 k) as [G|G]; cbn [orb andb].
  - symmetry. apply forallb_forall. intros j _. by rewrite (proj2 (Nat.leb_le _ _)) by lia.
  - change (field (v :: vs) 0) with v. destruct (seq_eqb v []) eqn:Ev; cbn [orb andb forallb fst snd]; rewrite IH.
    + apply forallb_same. intros j. by rewrite Nat.add_succ_r.
    + f_equal. apply forallb_same. intros j. by rewrite Nat.add_succ_r.
Qed.

Lemma asks_fits p i vs x : asks p (applyValueColumnsFiltered i vs) x = fits p i vs x.
Proof. unfold asks, fits. f_equal. apply filtered_columns. Qed.

Lemma any_says k vs : any_constraint k vs = existsb (fun j => (k + j <? 6)%nat && negb (seq_eqb (field vs j) [])) (seq 0 (length vs)).
Proof.
  revert k. induction vs as [|v vs IH]; intros k; [done|]. cbn [any_constraint length]. rewrite seq_exists, Nat.add_0_r. unfold maxRuleColumns.
  change (field (v :: vs) 0) with v. destruct (Nat.leb_spec 6 k) as [G|G].
  - symmetry. rewrite (proj2 (Nat.ltb_ge _ _)) by done. cbn [andb orb]. apply not_true_is_false. intros (j & _ & H)%existsb_exists.
    rewrite (proj2 (Nat.ltb_ge _ _)) in H by lia. done.
  - rewrite (proj2 (Nat.ltb_lt _ _)) by done. destruct (seq_eqb v []); cbn [negb andb orb]; [|done]. rewrite IH. apply existsb_same. intros j. by rewrite Nat.add_succ_r.
Qed.

Lemma constraint_says i vs : hasAnyMappedConstraint i vs = says i vs.
Proof. unfold hasAnyMappedConstraint, says. rewrite any_says. destruct (Z.ltb_spec i 0), (Z.leb_spec 0 i); try lia; done. Qed.

Lemma without_ext P Q S : (forall x, P x = Q x) -> without P S = without Q S.
Proof. intros H. unfold without. apply filter_ext. intros x. by rewrite H. Qed.

Lemma stored_insert row t : stored (insert_row row t) = stored t ++ [entry_of row].
Proof. unfold stored, insert_row. cbn [rows]. by rewrite map_app. Qed.

Lemma exists_key row t : existsb (same_key seq_eqb row) (rows t) = bool_decide (entry_of row ∈ stored t).
Proof.
  apply eq_true_iff_eq. rewrite existsb_exists, bool_decide_eq_true. unfold stored. rewrite list_elem_of_In, in_map_iff. split.
  - intros (x & Hx & K%same_key_spec). eauto.
  - intros (x & E & Hx). exists x. split; [done|]. by apply same_key_spec.
Qed.

Lemma insert_ignore_stored row t : stored (insert_ignore seq_eqb row t) = put (entry_of row) (stored t).
Proof. unfold insert_ignore, put. rewrite exists_key. destruct (bool_decide _); [done|apply stored_insert]. Qed.

Lemma fold_ignore_stored new t : stored (fold_left (fun t r => insert_ignore seq_eqb r t) new t) = fold_left (fun S x => put x S) (map entry_of new) (stored t).
Proof. revert t. induction new as [|r new IH]; intros t; [done|]. cbn. by rewrite IH, insert_ignore_stored. Qed.

Lemma insert_all_stored new t : match insert_all seq_eqb new t with
  | Ok t' => put_new (map entry_of new) (stored t) = Some (stored t')
  | Err _ => put_new (map entry_of new) (stored t) = None
  end.
Proof.
  revert t. induction new as [|r new IH]; intros t; [done|]. cbn. rewrite exists_key. destruct (bool_decide _); [done|].
  rewrite <- stored_insert. apply IH.
Qed.

Lemma rulesToRows_spec p rs : match rulesToRows p rs with
  | Ok new => existsb wide rs = false /\ map entry_of new = entries p rs
  | Err _ => existsb wide rs = true
  end.
Proof.
  induction rs as [|r rs IH]; [done|]. cbn [rulesToRows existsb entries map]. pose proof (rule_row p r) as R. destruct (ruleToRow p r) as [row|e].
  - destruct R as (L & E). assert (wide r = false) as -> by (by apply Nat.ltb_ge). cbn [rbind orb]. destruct (rulesToRows p rs) as [new|]; cbn [rbind]; [|done].
    destruct IH as [-> I]. split; [done|]. cbn [map]. by rewrite E, I.
  - assert (wide r = true) as -> by (by apply Nat.ltb_lt). done.
Qed.

Lemma entry_ok r : (length (entry_of r).2 <= maxRuleColumns)%nat /\ trim (entry_of r).2 = (entry_of r).2.
Proof. unfold entry_of. cbn [snd]. rewrite rowToRule_trim. split; [|apply trim_trim]. pose proof (length_trim (values r)). cbn [values length] in H. unfold maxRuleColumns. lia. Qed.

Lemma exact_without p old t : (length old <= maxRuleColumns)%nat ->
  List.filter (fun x => negb (asks p (applyExactRule old) x)) (stored t) = without (fun y => bool_decide (y = (p, trim old))) (stored t).
Proof.
  intros L. unfold without, stored. apply filter_ext_in. intros x Hx. apply in_map_iff in Hx as (r & <- & _). f_equal.
  destruct (entry_ok r) as [L1 T1]. apply eq_true_iff_eq. rewrite bool_decide_eq_true. by apply asks_exact.
Qed.

Lemma delete_old_stored k p old t : (length old <= maxRuleColumns)%nat ->
  match delete_old seq_eqb (fun _ => false) k p old t with
  | Ok t' => bool_decide ((p, trim old) ∈ stored t) = true /\ stored t' = without (fun y => bool_decide (y = (p, trim old))) (stored t)
  | Err _ => bool_decide ((p, trim old) ∈ stored t) = false
  end.
Proof.
  intros L. unfold delete_old, statement. cbn [rbind].
  pose proof (delete_stored p (applyExactRule old) t) as D. rewrite (exact_without p old t L) in D.
  set (t' := delete_where seq_eqb p (applyExactRule old) t) in *. clearbody t'.
  assert (Lt : length (rows t') = length (without (fun y => bool_decide (y = (p, trim old))) (stored t))) by (rewrite <- D; unfold stored; by rewrite length_map).
  assert (Ls : length (rows t) = length (stored t)) by (unfold stored; by rewrite length_map).
  destruct (Nat.eqb_spec (length (rows t')) (length (rows t))) as [E|E].
  - apply bool_decide_eq_false. intros Hin. rewrite Lt, Ls in E. unfold without in E.
    pose proof (filter_shorter (fun x => negb (bool_decide (x = (p, trim old)))) (stored t) (p, trim old)) as S.
    rewrite E in S. specialize (S (proj1 (list_elem_of_In _ _) Hin)). rewrite bool_decide_eq_true_2 in S by done. specialize (S eq_refl). lia.
  - split; [|done]. apply bool_decide_eq_true. destruct (base.decide ((p, trim old) ∈ stored t)) as [|N]; [done|]. exfalso. apply E. rewrite Lt, Ls. f_equal.
    unfold without. apply forallb_filter_id, forallb_forall. intros x Hx. apply negb_true_iff, bool_decide_eq_false. intros ->. by apply N, list_elem_of_In.
Qed.

Lemma delete_olds_stored k p olds t : existsb wide olds = false ->
  match delete_olds seq_eqb (fun _ => false) k p olds t with
  | Ok t' => drop_old (entries p olds) (stored t) = Some (stored t')
  | Err _ => drop_old (entries p olds) (stored t) = None
  end.
Proof.
  revert k t. induction olds as [|r olds IH]; intros k t W; [done|]. cbn [existsb] in W. apply orb_false_iff in W as [Wr W].
  cbn [delete_olds entries map drop_old]. pose proof (delete_old_stored k p r t) as D. destruct (delete_old seq_eqb _ k p r t) as [t'|]; cbn [rbind].
  - destruct D as [-> <-]; [by apply Nat.ltb_ge|]. by apply IH.
  - rewrite D; [done|by apply Nat.ltb_ge].
Qed.

Lemma remove_each_stored k p rs t : match remove_each seq_eqb (fun _ => false) k p rs t with
  | Ok t' => fold_left (fun S r => without (begins p r) S) rs (stored t) = stored t'
  | Err _ => False
  end.
Proof.
  revert k t. induction rs as [|r rs IH]; intros k t; [done|]. cbn [remove_each]. unfold statement at 1. cbn [rbind fold_left].
  pose proof (delete_stored p (applyValueColumns 0 r) t) as D. fold (without (asks p (applyValueColumns 0 r)) (stored t)) in D.
  rewrite (without_ext _ _ _ (asks_begins p r)) in D. rewrite <- D. apply IH.
Qed.

Lemma save_rows_spec m : match save_rows m with
  | Ok new => existsb (fun x => existsb wide x.2) m = false /\ map entry_of new = flat_map (fun x => entries x.1 x.2) m
  | Err _ => existsb (fun x => existsb wide x.2) m = true
  end.
Proof.
  induction m as [|[p rs] m IH]; [done|]. cbn [save_rows existsb flat_map fst snd]. pose proof (rulesToRows_spec p rs) as R.
  destruct (rulesToRows p rs) as [a|]; cbn [rbind]; [|by rewrite R]. destruct R as [-> Ra]. cbn [orb].
  destruct (save_rows m) as [b|]; cbn [rbind]; [|done]. destruct IH as [-> Rb]. split; [done|]. by rewrite map_app, Ra, Rb.
Qed.

(** Where no statement fails. *)
Lemma adapter_exact (c : adapter_call) (t : rules) :
  match adapter_step seq_eqb (fun _ => false) c t with
  | Ok t' => spec_call c (stored t) = Some (stored t')
  | Err _ => spec_call c (stored t) = None
  end.
Proof.
  destruct c as [m|p r|p rs|p r|p rs|p i vs|p o n|p os ns|p ns i vs]; cbn [adapter_step spec_call].
  - unfold SavePolicy. pose proof (save_rows_spec m) as S. destruct (save_rows m) as [new|]; cbn [rbind]; [|by rewrite S].
    destruct S as [-> <-]. unfold statement. cbn [rbind]. destruct new as [|r new]; [done|]. by rewrite fold_ignore_stored.
  - unfold AddPolicy. pose proof (rule_row p r) as R. destruct (ruleToRow p r) as [row|]; cbn [rbind].
    + destruct R as [L <-]. unfold statement. assert (wide r = false) as -> by (by apply Nat.ltb_ge). by rewrite insert_ignore_stored.
    + assert (wide r = true) as -> by (by apply Nat.ltb_lt). done.
  - unfold AddPolicies. destruct rs as [|r rs]; [done|]. pose proof (rulesToRows_spec p (r :: rs)) as R.
    destruct (rulesToRows p (r :: rs)) as [new|]; cbn [rbind]; [|by rewrite R]. destruct R as [-> <-]. unfold statement. by rewrite fold_ignore_stored.
  - unfold RemovePolicy, statement. rewrite delete_stored. f_equal. symmetry. exact (without_ext _ _ _ (asks_begins p r)).
  - unfold RemovePolicies. pose proof (remove_each_stored 0 p rs t) as R. destruct (remove_each _ _ _ _ _ _); [by rewrite R|done].
  - unfold RemoveFilteredPolicy. rewrite constraint_says. destruct (says i vs); [|done]. cbn [negb]. unfold statement. rewrite delete_stored. f_equal.
    symmetry. exact (without_ext _ _ _ (asks_fits p (Z.to_nat i) vs)).
  - unfold UpdatePolicy. fold (wide o). destruct (wide o) eqn:Wo; [done|]. cbn [orb]. pose proof (rule_row p n) as R.
    destruct (ruleToRow p n) as [row|]; cbn [rbind]; [|by assert (wide n = true) as -> by (by apply Nat.ltb_lt)].
    destruct R as [L <-]. assert (wide n = false) as -> by (by apply Nat.ltb_ge). cbn [drop_old].
    pose proof (delete_old_stored 0 p o t) as D. destruct (delete_old seq_eqb _ 0 p o t) as [t'|]; cbn [rbind].
    + destruct D as [-> <-]; [by apply Nat.ltb_ge|]. unfold statement. cbn [rbind]. apply (insert_all_stored [row] t').
    + rewrite D; [done|by apply Nat.ltb_ge].
  - unfold UpdatePolicies. destruct (negb (length os =? length ns)%nat) eqn:Ln; [done|]. cbn [orb].
    destruct os as [|o os]; [destruct ns; [done|done]|]. change (existsb (fun r => (maxRuleColumns <? length r)%nat) (o :: os)) with (existsb wide (o :: os)). destruct (existsb wide (o :: os)) eqn:Wo; [done|]. cbn [orb].
    pose proof (rulesToRows_spec p ns) as R. destruct (rulesToRows p ns) as [new|]; cbn [rbind]; [|by rewrite R]. destruct R as [-> <-].
    pose proof (delete_olds_stored 0 p (o :: os) t Wo) as D. destruct (delete_olds seq_eqb _ 0 p (o :: os) t) as [t'|]; cbn [rbind]; rewrite D; [|done].
    unfold statement. cbn [rbind]. apply insert_all_stored.
  - unfold UpdateFilteredPolicies. rewrite constraint_says. destruct (says i vs); [|done]. cbn [negb orb].
    rewrite <- (without_ext _ _ (stored t) (asks_fits p (Z.to_nat i) vs)), <- (existsb_same _ _ (stored t) (asks_fits p (Z.to_nat i) vs)).
    pose proof (rulesToRows_spec p ns) as R. destruct (rulesToRows p ns) as [new|]; cbn [rbind]; [|by rewrite R]. destruct R as [-> Rn].
    unfold statement. cbn [rbind orb]. set (cs := applyValueColumnsFiltered (Z.to_nat i) vs).
    assert (Ex : existsb (asks p cs) (stored t) = negb (length (List.filter (hits seq_eqb p cs) (rows t)) =? 0)%nat).
    { unfold stored. induction (rows t) as [|r l IH]; [done|]. cbn [map existsb List.filter]. rewrite hits_asks, IH. by destruct (asks p cs (entry_of r)). }
    assert (Ln : (length ns =? 0)%nat = (length new =? 0)%nat).
    { rewrite <- (length_map entry_of new), Rn. unfold entries. by rewrite length_map. }
    rewrite Ex, Ln, negb_involutive. destruct ((length (List.filter _ (rows t)) =? 0)%nat && negb (length new =? 0)%nat); [done|].
    rewrite <- Rn. unfold without. rewrite <- delete_stored. pose proof (insert_all_stored new (delete_where seq_eqb p cs t)) as I.
    destruct new as [|r new]; [done|]. destruct (insert_all seq_eqb (r :: new) _); done.
Qed.

(** A statement that fails ends the call with its error. *)
Definition same_or {A} (fails : nat -> bool) (x y : result adapter_error A) : Prop := x = y \/ x = Err StatementFailed /\ exists k, fails k = true.

Lemma or_same {A} fails (x : result adapter_error A) : same_or fails x x.
Proof. by left. Qed.

Lemma statement_or {A} fails k (x : result adapter_error A) : same_or fails (statement fails k x) (statement (fun _ => false) k x).
Proof. unfold statement. destruct (fails k) eqn:F; [right; eauto|apply or_same]. Qed.

Lemma bind_or {A B} fails (x y : result adapter_error A) (f g : A -> result adapter_error B) :
  same_or fails x y -> (forall a, same_or fails (f a) (g a)) -> same_or fails (rbind x f) (rbind y g).
Proof. intros [->|[-> K]] H; [|by right]. destruct y; [apply H|apply or_same]. Qed.

Lemma remove_each_or fails k p rs t :
  same_or fails (remove_each seq_eqb fails k p rs t) (remove_each seq_eqb (fun _ => false) k p rs t).
Proof.
  revert k t. induction rs as [|r rs IH]; intros k t; [apply or_same|]. cbn [remove_each]. apply bind_or; [apply statement_or|]. intros t'. apply IH.
Qed.

Lemma delete_old_or fails k p r t :
  same_or fails (delete_old seq_eqb fails k p r t) (delete_old seq_eqb (fun _ => false) k p r t).
Proof. unfold delete_old. apply bind_or; [apply statement_or|]. intros ?. apply or_same. Qed.

Lemma delete_olds_or fails k p rs t :
  same_or fails (delete_olds seq_eqb fails k p rs t) (delete_olds seq_eqb (fun _ => false) k p rs t).
Proof.
  revert k t. induction rs as [|r rs IH]; intros k t; [apply or_same|]. cbn [delete_olds]. apply bind_or; [apply delete_old_or|]. intros t'. apply IH.
Qed.

Lemma adapter_or fails c t :
  same_or fails (adapter_step seq_eqb fails c t) (adapter_step seq_eqb (fun _ => false) c t).
Proof.
  destruct c as [m|p r|p rs|p r|p rs|p i vs|p o n|p os ns|p ns i vs]; cbn [adapter_step].
  - unfold SavePolicy. apply bind_or; [apply or_same|]. intros rs. apply bind_or; [apply statement_or|]. intros _. destruct rs; [apply or_same|]. apply statement_or.
  - unfold AddPolicy. apply bind_or; [apply or_same|]. intros row. apply statement_or.
  - unfold AddPolicies. destruct rs; [apply or_same|]. apply bind_or; [apply or_same|]. intros new. apply statement_or.
  - apply statement_or.
  - apply remove_each_or.
  - unfold RemoveFilteredPolicy. destruct (negb _); [apply or_same|]. apply statement_or.
  - unfold UpdatePolicy. destruct (_ <? _)%nat; [apply or_same|]. apply bind_or; [apply or_same|]. intros row. apply bind_or; [apply delete_old_or|]. intros t'.
    apply bind_or; [apply statement_or|]. intros ?. apply or_same.
  - unfold UpdatePolicies. destruct (negb _); [apply or_same|]. destruct os; [apply or_same|]. destruct (existsb _ _); [apply or_same|]. apply bind_or; [apply or_same|]. intros new.
    apply bind_or; [apply delete_olds_or|]. intros t'. apply bind_or; [apply statement_or|]. intros ?. apply or_same.
  - unfold UpdateFilteredPolicies. apply bind_or; [|intros ?; apply or_same]. destruct (negb _); [apply or_same|]. apply bind_or; [apply or_same|]. intros new.
    apply bind_or; [apply statement_or|]. intros _. destruct (_ && _); [apply or_same|]. apply bind_or; [apply statement_or|]. intros t'.
    apply bind_or; [|intros ?; apply or_same]. destruct new; [apply or_same|]. apply bind_or; [apply statement_or|]. intros ?. apply or_same.
Qed.

(** [C15] The table is the set of rules that the calls describe, where the
    database compares text exactly: whichever statements fail, a call of the
    adapter that succeeds - single or in batches, of removals by prefix or by
    fields, of updates - did to the table's rules what the specification says; a
    call that the specification refuses is refused; and one that it does not
    refuse succeeds unless a statement fails. *)
Theorem adapter_refines (fails : nat -> bool) (c : adapter_call) (t : rules) :
  match adapter_step seq_eqb fails c t, spec_call c (stored t) with
  | Ok t', Some want => stored t' = want
  | Ok _, None => False
  | Err e, Some _ => e = StatementFailed /\ exists k, fails k = true
  | Err _, None => True
  end.
Proof.
  pose proof (adapter_exact c t) as X. destruct (adapter_or fails c t) as [->|[-> K]].
  - by destruct (adapter_step seq_eqb _ c t) as [t'|e]; rewrite X.
  - by destruct (spec_call c (stored t)).
Qed.

(** ** Decisions *)

(** What casbin documents of its enforcer: a decision is the matcher's over
    the policies, role links in a domain depend on the bindings of that domain
    alone, and a change adds or removes the one rule, telling whether it did. *)
Class EnforcerLaws (E : Type) `{Enforcer E} (linked : list rule -> gostring -> gostring -> gostring -> bool) (keyMatch : gostring -> gostring -> bool) := {
  enforce_matcher : forall e s d o a b, Enforce e s d o a = Some b -> b = existsb (matcher (linked (GetGroupingPolicy e)) keyMatch s d o a) (GetPolicy e);
  linked_domain : forall G G' s r d, (forall x, field x 2 = d -> x ∈ G <-> x ∈ G') -> linked G s r d = linked G' s r d;
  add_policy : forall r e b e', EAddPolicy r e = Some (b, e') ->
    (forall x, x ∈ GetPolicy e' <-> x = r \/ x ∈ GetPolicy e) /\ GetGroupingPolicy e' = GetGroupingPolicy e /\ (b = true <-> r ∉ GetPolicy e);
  remove_policy : forall r e b e', ERemovePolicy r e = Some (b, e') ->
    (forall x, x ∈ GetPolicy e' <-> x <> r /\ x ∈ GetPolicy e) /\ GetGroupingPolicy e' = GetGroupingPolicy e /\ (b = true <-> r ∈ GetPolicy e);
  add_grouping : forall r e b e', EAddGrouping r e = Some (b, e') ->
    (forall x, x ∈ GetGroupingPolicy e' <-> x = r \/ x ∈ GetGroupingPolicy e) /\ GetPolicy e' = GetPolicy e /\ (b = true <-> r ∉ GetGroupingPolicy e);
  remove_grouping : forall r e b e', ERemoveGrouping r e = Some (b, e') ->
    (forall x, x ∈ GetGroupingPolicy e' <-> x <> r /\ x ∈ GetGroupingPolicy e) /\ GetPolicy e' = GetPolicy e /\ (b = true <-> r ∈ GetGroupingPolicy e);
}.

Section decisions.
Context {E : Type} `{Enforcer E} {linked : list rule -> gostring -> gostring -> gostring -> bool} {keyMatch : gostring -> gostring -> bool}
  `{!EnforcerLaws E linked keyMatch}.

(** Some policy lets the subject. *)
Definition lets (e : E) (sub dom obj act : gostring) : Prop :=
  exists p, p ∈ GetPolicy e /\ matcher (linked (GetGroupingPolicy e)) keyMatch sub dom obj act p = true.

Definition allows (e : E) (userID : gostring) (roles : list gostring) (dom obj act : gostring) : Prop :=
  rbac_adminRole ∈ roles \/ exists sub, sub ∈ userID :: roles /\ sub <> [] /\ lets e sub (normalizeDomain dom) obj act.

Lemma Enforce_lets e s d o a b : Enforce e s d o a = Some b -> b = true <-> lets e s d o a.
Proof.
  intros ->%enforce_matcher. unfold lets. rewrite existsb_exists. by setoid_rewrite list_elem_of_In.
Qed.

Lemma decide_any_spec e subs d o a b : decide_any e subs d o a = Some b -> b = true <-> exists sub, sub ∈ subs /\ sub <> [] /\ lets e sub d o a.
Proof.
  induction subs as [|s subs IH]; cbn; [intros [= <-]; split; [done|intros (s & Hs & _); by apply elem_of_nil in Hs]|].
  destruct (seq_eqb s []) eqn:Es.
  - intros I%IH. rewrite I. apply seq_eqb_spec in Es as ->. split; intros (x & Hx & N & L); exists x; (split; [|done]); [by right|].
    by apply elem_of_cons in Hx as [->|Hx].
  - assert (Ns : s <> []) by (intros ->; done). destruct (Enforce e s d o a) as [[|]|] eqn:En; [| |done].
    + intros [= <-]. apply Enforce_lets in En. split; [|done]. intros _. exists s. split_and!; [by left|done|by apply En].
    + intros I%IH. rewrite I. apply Enforce_lets in En. split; intros (x & Hx & N & L); exists x; (split; [|done]); [by right|].
      apply elem_of_cons in Hx as [->|Hx]; [|done]. by apply En in L.
Qed.

(** A decision is the policies': a user is let in exactly when its global
    roles hold admin - whatever the policies and even when casbin fails - or
    when a policy of the domain, or a global one, matches the user, one of its
    roles, or a role bound to one of these in the domain. *)
Theorem decide_allows (e : E) (userID : gostring) (roles : list gostring) (dom obj act : gostring) (b : bool) :
  (rbac_adminRole ∈ roles -> decide e userID roles dom obj act = Some true)
  /\ (decide e userID roles dom obj act = Some b -> b = true <-> allows e userID roles dom obj act).
Proof.
  unfold decide, allows. destruct (bool_decide_reflect (rbac_adminRole ∈ roles)) as [A|A].
  - split; [done|]. intros [= <-]. split; [by left|done].
  - split; [done|]. intros D%decide_any_spec. rewrite D. split; [by right|]. by intros [?|?].
Qed.

(** ** Tenants *)

(** The tenant a call is about; the others are about every domain. *)
Definition call_tenant (c : policy_call) : option gostring :=
  match c with
  | PAddUser _ _ d | PRemoveUser _ _ d | PGrantIn _ _ _ d | PRevokeIn _ _ _ d => Some d
  | _ => None
  end.

Lemma field_dom a d o act : field [a; d; o; act] 1 = d.
Proof. done. Qed.

(** What a policy of another domain does not change. *)
Lemma lets_policy e e' s d o a r : GetGroupingPolicy e' = GetGroupingPolicy e -> field r 1 <> d -> field r 1 <> globalDomain ->
  (forall x, x <> r -> x ∈ GetPolicy e' <-> x ∈ GetPolicy e) -> lets e' s d o a <-> lets e s d o a.
Proof.
  intros G N1 N2 P. unfold lets. rewrite G. apply exist_proper. intros p. split; intros [Hp M]; (split; [|done]); apply P; try done; intros ->;
    unfold matcher in M; rewrite !andb_true_iff, !orb_true_iff, !seq_eqb_spec in M; destruct M as [[[_ [M|M]] _] _]; congruence.
Qed.

Lemma lets_binding e e' s d o a r : GetPolicy e' = GetPolicy e -> field r 2 <> d ->
  (forall x, x <> r -> x ∈ GetGroupingPolicy e' <-> x ∈ GetGroupingPolicy e) -> lets e' s d o a <-> lets e s d o a.
Proof.
  intros Pe N G. unfold lets. rewrite Pe. apply exist_proper. intros p. unfold matcher.
  assert (linked (GetGroupingPolicy e') s (field p 0) d = linked (GetGroupingPolicy e) s (field p 0) d) as ->; [|done].
  apply (linked_domain (EnforcerLaws := EnforcerLaws0)). intros x Hx. apply G. by intros ->.
Qed.

(** [C10] Tenants are apart: a call about one tenant - a grant in it, a role
    bound in it, or either taken back - is refused for the name of the global
    scope; after it every decision that is made is what the policies now allow
    in the domain asked about, and in another tenant or the global scope it is
    what they allowed before the call. *)
Theorem tenants_apart (c : policy_call) (e e' : E) (log log' : list (gostring * gostring * gostring * gostring)) (t : gostring)
  (Ht : call_tenant c = Some t) (St : policy_step c e log = Ok (e', log')) (Nt : t <> []) :
  t <> globalDomain
  /\ forall userID roles dom obj act b, decide e' userID roles dom obj act = Some b ->
       (b = true <-> allows e' userID roles dom obj act)
       /\ (normalizeDomain dom <> t -> b = true <-> allows e userID roles dom obj act).
Proof.
  assert (Rj : forall d, rejectGlobalAsTenant d = Ok tt -> d <> globalDomain).
  { intros d. unfold rejectGlobalAsTenant. destruct (seq_eqb d globalDomain) eqn:Ed; [done|]. intros _ ->. done. }
  assert (Rm : forall d, rejectGlobalMembership d = Ok tt -> d <> globalDomain).
  { intros d. unfold rejectGlobalMembership. destruct (seq_eqb d []); [done|apply Rj]. }
  assert (Nd : normalizeDomain t = t) by (unfold normalizeDomain; destruct (seq_eqb t []) eqn:Et; [by apply seq_eqb_spec in Et|done]).
  assert (Lift : (forall s d o a, d <> t -> lets e' s d o a <-> lets e s d o a) ->
    forall u rs d o a b, decide e' u rs d o a = Some b ->
      (b = true <-> allows e' u rs d o a) /\ (normalizeDomain d <> t -> b = true <-> allows e u rs d o a)).
  { intros L u rs d o a b Db. apply (proj2 (decide_allows _ _ _ _ _ _ b)) in Db. split; [done|]. intros N. rewrite Db. unfold allows. by setoid_rewrite L. }
  destruct c as [u r d|u r d|r o a|r o a|r o a d|r o a d|u o a|u o a]; cbn in Ht; try done; injection Ht as ->; cbn in St;
    unfold AddUserToRoleInDomain, RemoveUserFromRoleInDomain, GrantRoleInDomain, RevokeRoleInDomain, changing in St.
  - destruct (rejectGlobalMembership t) as [[]|] eqn:Er; [|done]. cbn in St. destruct (EAddGrouping _ e) as [[b e1]|] eqn:Ea; [|done]. injection St as <- _.
    destruct (add_grouping _ _ _ _ Ea) as (G & P & _). split; [by apply Rm|]. apply Lift. intros s d o a N. apply (lets_binding e _ s d o a [u; r; t]); [done|cbn; congruence|].
    intros x Hx. rewrite G. naive_solver.
  - destruct (rejectGlobalMembership t) as [[]|] eqn:Er; [|done]. cbn in St. destruct (ERemoveGrouping _ e) as [[b e1]|] eqn:Ea; [|done]. injection St as <- _.
    destruct (remove_grouping _ _ _ _ Ea) as (G & P & _). split; [by apply Rm|]. apply Lift. intros s d o a N. apply (lets_binding e _ s d o a [u; r; t]); [done|cbn; congruence|].
    intros x Hx. rewrite G. naive_solver.
  - destruct (rejectGlobalAsTenant t) as [[]|] eqn:Er; [|done]. cbn in St. rewrite Nd in St. destruct (EAddPolicy _ e) as [[b e1]|] eqn:Ea; [|done]. injection St as <- _.
    destruct (add_policy _ _ _ _ Ea) as (P & G & _). split; [by apply Rj|]. apply Lift. intros s d o' a' N. apply (lets_policy e _ s d o' a' [r; t; o; a]); [done|cbn; congruence|cbn; by apply Rj|].
    intros x Hx. rewrite P. naive_solver.
  - destruct (rejectGlobalAsTenant t) as [[]|] eqn:Er; [|done]. cbn in St. rewrite Nd in St. destruct (ERemovePolicy _ e) as [[b e1]|] eqn:Ea; [|done]. injection St as <- _.
    destruct (remove_policy _ _ _ _ Ea) as (P & G & _). split; [by apply Rj|]. apply Lift. intros s d o' a' N. apply (lets_policy e _ s d o' a' [r; t; o; a]); [done|cbn; congruence|cbn; by apply Rj|].
    intros x Hx. rewrite P. naive_solver.
Qed.
End decisions.

(** ** Replicas *)

Section replicas.
Context {D C : Type} (apply : C -> D -> D).

Definition foreign (i : nat) (m : payload) : bool := match m with Change j => negb (j =? i)%nat | Resubscribed => true end.

(** A replica that does not hold what the database holds has a reload before
    it, a message that will bring one, or has missed something. *)
Definition replica_ok (d : D) (i : nat) (r : replica (D := D)) : Prop :=
  memory r = d \/ reload r = true \/ existsb (foreign i) (inbox r) = true \/ missed r = true.

Definition cluster_ok (s : cluster (D := D)) : Prop := forall i r, replicas s !! i = Some r -> replica_ok (db s) i r.

Lemma set_replica_ok i r s : cluster_ok s -> replica_ok (db s) i r -> cluster_ok (set_replica i r s).
Proof.
  intros O R j r' Hj. cbn in *. apply list_lookup_insert_Some in Hj as [(<- & <- & _)|[_ Hj]]; [done|by apply O].
Qed.

Lemma w_step_ok l s s' : cluster_ok s -> w_step apply l s = Some s' -> cluster_ok s'.
Proof.
  intros O E. destruct l as [i c published heard|i|i|i ok tick|i]; cbn in E; destruct (replicas s !! i) as [r|] eqn:Ei; try done;
    pose proof (O i r Ei) as R; unfold replica_ok in R.
  - destruct (w_closed r); [done|]. injection E as <-. intros j r' Hj. cbn in Hj |- *. apply list_lookup_imap_Some in Hj as (q & Hq & ->).
    pose proof (O j q Hq) as Q. destruct (Nat.eqb_spec j i) as [->|N]; unfold replica_ok in *; cbn.
    + destruct Q as [->|[Q|[Q|Q]]]; [by left|by right; left|right; right; left|by right; right; right].
      destruct published; [|done]. by rewrite existsb_app, Q.
    + unfold told. destruct (published && heard j); cbn; [|by right; right; right]. right; right; left. rewrite existsb_app. cbn.
      destruct (Nat.eqb_spec i j); [congruence|]. by rewrite orb_true_r.
  - destruct (w_closed r); [done|]. destruct (inbox r) as [|[j|] q] eqn:Eq; [done| |]; injection E as <-; apply set_replica_ok; try done.
    + destruct (Nat.eqb_spec j i) as [->|N]; unfold replica_ok in *; cbn; [|by right; left].
      cbn in R. rewrite Nat.eqb_refl in R. exact R.
    + by right; left.
  - destruct (w_closed r); [done|]. injection E as <-. apply set_replica_ok; [done|]. unfold replica_ok. cbn. right; right; left. by rewrite existsb_app, orb_true_r.
  - destruct (w_closed r || negb (reload r || tick)); [done|]. destruct (callback r); cbn in E; [destruct ok|]; injection E as <-; apply set_replica_ok; try done.
    + by left.
    + by right; right; right.
    + by right; right; right.
  - injection E as <-. apply set_replica_ok; [done|exact R].
Qed.

Lemma w_steps_ok ls s s' : cluster_ok s -> w_steps apply ls s = Some s' -> cluster_ok s'.
Proof.
  revert s. induction ls as [|l ls IH]; intros s O E; cbn in E; [by injection E as <-|].
  destruct (w_step apply l s) as [s1|] eqn:E1; [|done]. eapply IH; [|exact E]. by eapply w_step_ok.
Qed.

(** [C28] Replicas converge: in every run of replicas that change policies, hear
    of each other's changes or lose them, lose and regain their connection and
    reload, a replica that has missed nothing since it last read all, has no
    message of a peer waiting and no reload pending, decides by exactly what
    the database holds; and whatever it missed, its next reload - the ticker
    brings one - restores that. *)
Theorem replicas_converge (n : nat) (d : D) (ls : list w_label) (s : cluster) (i : nat) (r : replica)
  (St : w_steps apply ls (Cluster d (replicate n (newReplica d))) = Some s) (Hr : replicas s !! i = Some r) :
  (reload r = false -> existsb (foreign i) (inbox r) = false -> missed r = false -> memory r = db s)
  /\ (w_closed r = false -> callback r = true -> exists s' r', w_step apply (WReload i true true) s = Some s' /\ replicas s' !! i = Some r' /\ memory r' = db s' /\ missed r' = false).
Proof.
  assert (O : cluster_ok s).
  { eapply w_steps_ok; [|exact St]. intros j q Hj. cbn in Hj. apply lookup_replicate in Hj as [-> _]. by left. }
  split.
  - intros R I M. destruct (O i r Hr) as [Q|[Q|[Q|Q]]]; [done|congruence..].
  - intros Cl Cb. cbn. rewrite Hr, Cl, orb_true_r, Cb. cbn. eexists _, _. split; [reflexivity|]. cbn.
    split; [apply list_lookup_insert_eq; by eapply lookup_lt_Some|done].
Qed.
End replicas.

(** ** A concrete enforcer *)

Section demo.
Record demo_enforcer := DemoEnforcer { demo_policies : list rule; demo_bindings : list rule }.

Definition demo_linked (G : list rule) (s r d : gostring) : bool := bool_decide ([s; r; d] ∈ G).
Definition demo_keyMatch (k p : gostring) : bool := seq_eqb k p || seq_eqb p (str "*").

Definition demo_put (r : rule) (l : list rule) : bool * list rule := if bool_decide (r ∈ l) then (false, l) else (true, l ++ [r]).
Definition demo_cut (r : rule) (l : list rule) : bool * list rule := (bool_decide (r ∈ l), List.filter (fun x => negb (bool_decide (x = r))) l).

Lemma demo_put_spec r l : (forall x, x ∈ (demo_put r l).2 <-> x = r \/ x ∈ l) /\ ((demo_put r l).1 = true <-> r ∉ l).
Proof.
  unfold demo_put. destruct (bool_decide_reflect (r ∈ l)) as [I|I]; cbn; (split; [|done]); intros x; [split; [by right|by intros [->|?]]|].
  rewrite elem_of_app, list_elem_of_singleton. tauto.
Qed.

Lemma demo_cut_spec r l : (forall x, x ∈ (demo_cut r l).2 <-> x <> r /\ x ∈ l) /\ ((demo_cut r l).1 = true <-> r ∈ l).
Proof.
  unfold demo_cut. cbn [fst snd]. split; [|by rewrite bool_decide_eq_true]. intros x.
  rewrite !list_elem_of_In, filter_In, negb_true_iff, bool_decide_eq_false. tauto.
Qed.

#[local] Instance demo_casbin : Enforcer demo_enforcer := {
  GetPolicy := demo_policies;
  GetGroupingPolicy := demo_bindings;
  EAddPolicy r e := Some ((demo_put r (demo_policies e)).1, DemoEnforcer (demo_put r (demo_policies e)).2 (demo_bindings e));
  ERemovePolicy r e := Some ((demo_cut r (demo_policies e)).1, DemoEnforcer (demo_cut r (demo_policies e)).2 (demo_bindings e));
  EAddGrouping r e := Some ((demo_put r (demo_bindings e)).1, DemoEnforcer (demo_policies e) (demo_put r (demo_bindings e)).2);
  ERemoveGrouping r e := Some ((demo_cut r (demo_bindings e)).1, DemoEnforcer (demo_policies e) (demo_cut r (demo_bindings e)).2);
  GetRolesForUserInDomain e u d := map (fun x => field x 1) (List.filter (fun x => seq_eqb (field x 0) u && seq_eqb (field x 2) d) (demo_bindings e));
  Enforce e s d o a := Some (existsb (matcher (demo_linked (demo_bindings e)) demo_keyMatch s d o a) (demo_policies e));
}.

#[local] Instance demo_laws : EnforcerLaws demo_enforcer demo_linked demo_keyMatch.
Proof.
  constructor.
  - intros e s d o a b [= <-]. done.
  - intros G G' s r d X. unfold demo_linked. apply bool_decide_ext, X. done.
  - intros r e b e' [= <- <-]. destruct (demo_put_spec r (demo_policies e)). done.
  - intros r e b e' [= <- <-]. destruct (demo_cut_spec r (demo_policies e)). done.
  - intros r e b e' [= <- <-]. destruct (demo_put_spec r (demo_bindings e)). done.
  - intros r e b e' [= <- <-]. destruct (demo_cut_spec r (demo_bindings e)). done.
Qed.

Definition demo_state_ : demo_enforcer :=
  DemoEnforcer [[str "editor"; globalDomain; str "post"; str "write"]; [str "owner"; str "acme"; str "*"; str "*"]] [[str "usr_1"; str "owner"; str "acme"]].

Lemma decide_allows_witness :
  allows (linked := demo_linked) (keyMatch := demo_keyMatch) demo_state_ (str "usr_1") [] (str "acme") (str "invoice") (str "read")
  /\ ~ allows (linked := demo_linked) (keyMatch := demo_keyMatch) demo_state_ (str "usr_1") [] (str "umbrella") (str "invoice") (str "read").
Proof.
  split.
  - apply (proj1 (proj2 (decide_allows (linked := demo_linked) (keyMatch := demo_keyMatch) (H := demo_casbin) demo_state_ (str "usr_1") [] (str "acme") (str "invoice") (str "read") true) ltac:(vm_compute; reflexivity))). reflexivity.
  - intros A. pose proof (proj2 (proj2 (decide_allows (linked := demo_linked) (keyMatch := demo_keyMatch) (H := demo_casbin) demo_state_ (str "usr_1") [] (str "umbrella") (str "invoice") (str "read") false) ltac:(vm_compute; reflexivity)) A). discriminate.
Defined.

Definition demo_grant : policy_call := PGrantIn (str "guest") (str "post") (str "read") (str "acme").
Definition demo_granted : demo_enforcer * list (gostring * gostring * gostring * gostring) :=
  match policy_step demo_grant demo_state_ [] with Ok x => x | Err _ => (demo_state_, []) end.

Lemma tenants_apart_witness :
  policy_step demo_grant demo_state_ [] = Ok demo_granted
  /\ decide demo_granted.1 (str "usr_2") [str "guest"] (str "umbrella") (str "post") (str "read") = Some false
  /\ (false = true <-> allows (linked := demo_linked) (keyMatch := demo_keyMatch) demo_state_ (str "usr_2") [str "guest"] (str "umbrella") (str "post") (str "read")).
Proof.
  assert (St : policy_step demo_grant demo_state_ [] = Ok demo_granted) by (vm_compute; reflexivity). split; [exact St|].
  assert (Db : decide demo_granted.1 (str "usr_2") [str "guest"] (str "umbrella") (str "post") (str "read") = Some false) by (vm_compute; reflexivity).
  split; [exact Db|].
  refine (proj2 (proj2 (tenants_apart (linked := demo_linked) (keyMatch := demo_keyMatch) demo_grant demo_state_ demo_granted.1 [] demo_granted.2 (str "acme") eq_refl St _) _ _ _ _ _ _ Db) _);
    vm_compute; discriminate.
Defined.

(** Two replicas: one changes, the other misses the message, and the ticker
    tells it. *)
Definition demo_cluster_run : list (w_label (C := nat)) := [WChange 0 7%nat true (fun _ => false); WReceive 0; WReload 1 true true].

Lemma replicas_converge_witness : match w_steps Nat.add demo_cluster_run (Cluster 1%nat (replicate 2 (newReplica 1%nat))) with
  | Some s => match replicas s !! 1%nat with Some r => memory r = db s /\ db s = 8%nat | None => False end | None => False end.
Proof.
  pose proof (fun s i r St Hr => proj1 (replicas_converge Nat.add 2 1%nat demo_cluster_run s i r St Hr)) as T.
  split; [|reflexivity]. apply (T _ 1%nat _ eq_refl eq_refl); reflexivity.
Defined.

(** A grant of an empty action is stored with four fields and read back with
    three: not the shape that was added. *)
Lemma empty_action_reads_short :
  let r := [str "editor"; globalDomain; str "post"; []] in
  match AddPolicy seq_eqb (fun _ => false) (str "p") r (Rules [] 1) with
  | Ok t => LoadPolicy (fun _ => false) (fun x m => Some (m ++ [x])) t [] = Ok [[str "p"; str "editor"; globalDomain; str "post"]]
  | Err _ => False
  end.
Proof. vm_compute. reflexivity. Qed.

(** Where the database compares text without case, a rule that differs from
    another in case alone is not stored, and taking it back deletes the other. *)
Lemma caseless_collation_diverges :
  let eq s t := seq_eqb (to_lower s) (to_lower t) in
  let r := [str "editor"; globalDomain; str "post"; str "write"] in
  let r' := [str "Editor"; globalDomain; str "post"; str "write"] in
  match AddPolicy eq (fun _ => false) (str "p") r (Rules [] 1) with
  | Ok t => match AddPolicy eq (fun _ => false) (str "p") r' t with
            | Ok t' => stored t' = [(str "p", r)] /\ (match RemovePolicy eq (fun _ => false) (str "p") r' t' with Ok t'' => stored t'' = [] | Err _ => False end)
            | Err _ => False end
  | Err _ => False
  end.
Proof. vm_compute. split; reflexivity. Qed.
End demo.
