(* ===== verification/GoMaps.v ===== *)
(** Go maps with string keys, as lists of keys and values: what the code does
    with map[string]T where the order of the keys, or a value that holds maps
    itself, makes gmap the less convenient.  Keys are unique in a Go map; the
    lemmas say where they need it. *)

From Stdlib Require Import ZArith Lia List Ascii.
From stdpp Require Import base decidable list sets sorting strings.
From S2P Require Import Prelude GoStrings.

Fixpoint mget {A} (k : gostring) (m : list (gostring * A)) : option A :=
  match m with [] => None | (k', v) :: m' => if seq_eqb k' k then Some v else mget k m' end.

Fixpoint mset {A} (k : gostring) (v : A) (m : list (gostring * A)) : list (gostring * A) :=
  match m with [] => [(k, v)] | (k', v') :: m' => if seq_eqb k' k then (k, v) :: m' else (k', v') :: mset k v m' end.

Definition has_key {A} (k : gostring) (m : list (gostring * A)) : bool := match mget k m with Some _ => true | None => false end.

(** [slices.Sorted(maps.Keys(m))]. *)
Definition sorted_keys {A} (m : list (gostring * A)) : list gostring := merge_sort str_le (map fst m).

(** delete(m, k). *)
Definition mdel {A} (k : gostring) (m : list (gostring * A)) : list (gostring * A) := List.filter (fun kv => negb (seq_eqb kv.1 k)) m.

(** ** Laws *)

Lemma seq_eqbP s t : reflect (s = t) (seq_eqb s t).
Proof. apply bool_decide_reflect. Qed.

Lemma mget_mset {A} k k' (v : A) m : mget k (mset k' v m) = if seq_eqb k' k then Some v else mget k m.
Proof.
  induction m as [|[k1 v1] m IH]; cbn; [done|]. destruct (seq_eqbP k1 k') as [->|N]; cbn; [by destruct (seq_eqbP k' k)|].
  destruct (seq_eqbP k1 k) as [->|N1]; [by destruct (seq_eqbP k' k) as [->|]|apply IH].
Qed.

Lemma mset_keys {A} k (v : A) m x : x ∈ map fst (mset k v m) <-> x = k \/ x ∈ map fst m.
Proof.
  induction m as [|[k1 v1] m IH]; cbn; [set_solver|]. destruct (seq_eqbP k1 k) as [->|N]; cbn; [set_solver|].
  rewrite !elem_of_cons, IH. tauto.
Qed.

Lemma mset_nodup {A} k (v : A) m : NoDup (map fst m) -> NoDup (map fst (mset k v m)).
Proof.
  induction m as [|[k1 v1] m IH]; cbn; intros N; [apply NoDup_singleton|]. apply NoDup_cons in N as [N1 N2].
  destruct (seq_eqbP k1 k) as [->|N]; cbn; apply NoDup_cons; split; auto. rewrite mset_keys. naive_solver.
Qed.

Lemma mget_none {A} k (m : list (gostring * A)) : k ∉ map fst m -> mget k m = None.
Proof.
  induction m as [|[k1 v1] m IH]; cbn; [done|]. intros N. apply not_elem_of_cons in N as [N1 N2].
  destruct (seq_eqbP k1 k) as [->|]; [done|by apply IH].
Qed.

Lemma mget_app {A} k (m m' : list (gostring * A)) : mget k (m ++ m') = match mget k m with Some v => Some v | None => mget k m' end.
Proof. induction m as [|[k1 v] m IH]; cbn; [done|]. by destruct (seq_eqb k1 k). Qed.
