(* ===== verification/Conf.v ===== *)
(** internal/conf: how a configuration is loaded.  A YAML document, the
    environment and flags become layers of one raw tree (tree.go), which is
    decoded into a typed value, problem by problem (decode.go, schema.go);
    conf.go finds the file and puts it together.

    A Go type is described by [ctype]; the values reflection fills are [value].
    The parsers of strconv and time are arguments, and so are a type's own
    UnmarshalText and the validation.  An alias stands for what it names, so a
    document whose anchor holds an alias to itself is outside [node].  Maps are lists of keys and values;
    ToUpper is exact on ASCII. *)

From Stdlib Require Import ZArith Lia List Ascii.
From stdpp Require Import base decidable list sorting strings.
From S2P Require Import Prelude GoStrings GoMaps.

(** ** Raw trees *)

Inductive raw := RNil | RStr (s : gostring) | RList (l : list raw) | RMap (m : list (gostring * raw)).
Notation raw_map := (list (gostring * raw)).

Definition dot : ascii := ".".
Definition join_path (path key : gostring) : gostring := if seq_eqb path [] then key else path ++ [dot] ++ key.

(** *** YAML *)

(** A node of yaml.v3, with aliases in the place of what they name. *)
Inductive node :=
| NDocument (content : list node) | NAlias (target : node) | NScalar (tag value : gostring) (line : Z)
| NSequence (items : list node) (line : Z) | NMapping (pairs : list (node * node)) (line : Z) | NOther (line : Z).

Inductive yaml_error := KeyNotPlain (line : Z) | DuplicateKey (line : Z) (path : gostring) | MergeNeedsMapping (line : Z) | UnsupportedNode (line : Z) | TopNotMapping.

Notation lines_t := (list (gostring * Z)).

Definition node_line (n : node) : Z := match n with NScalar _ _ l | NSequence _ l | NMapping _ l | NOther l => l | _ => 0 end.

Definition index_path (path : gostring) (i : Z) : gostring := path ++ str "[" ++ format_uint i ++ str "]".

(** Merge keys fill what the mapping does not set. *)
Definition fill (out m : raw_map) : raw_map := fold_left (fun out kv => if has_key kv.1 out then out else out ++ [kv]) m out.

Fixpoint nodeValue (n : node) (path : gostring) (lines : lines_t) : result yaml_error (raw * lines_t) :=
  match n with
  | NDocument content => match content with [] => Ok (RNil, lines) | c :: _ => nodeValue c path lines end
  | NAlias t => nodeValue t path lines
  | NScalar tag value _ => Ok (if seq_eqb tag (str "!!null") then RNil else RStr value, lines)
  | NSequence items _ =>
      let? '(l, lines) :=
        (fix items_go (its : list node) (i : Z) (lines : lines_t) : result yaml_error (list raw * lines_t) :=
          match its with
          | [] => Ok ([], lines)
          | c :: its' =>
              let? '(v, lines) := nodeValue c (index_path path i) lines in
              let? '(l, lines) := items_go its' (i + 1) lines in Ok (v :: l, lines)
          end) items 0 lines in
      Ok (RList l, lines)
  | NMapping pairs _ =>
      let mergeSources := fix mergeSources (x : node) (lines : lines_t) : result yaml_error (list raw_map * lines_t) :=
        match x with
        | NSequence items _ =>
            (fix go (its : list node) (lines : lines_t) : result yaml_error (list raw_map * lines_t) :=
              match its with
              | [] => Ok ([], lines)
              | c :: its' => let? '(m, lines) := mergeSources c lines in let? '(ms, lines) := go its' lines in Ok (m ++ ms, lines)
              end) items lines
        | _ =>
            let? '(v, lines) := nodeValue x path lines in
            match v with RMap m => Ok ([m], lines) | _ => Err (MergeNeedsMapping (node_line x)) end
        end in
      let? '(p, lines) :=
        (fix pairs_go (ps : list (node * node)) (out : raw_map) (merged : list raw_map) (lines : lines_t) : result yaml_error (raw_map * list raw_map * lines_t) :=
          match ps with
          | [] => Ok (out, merged, lines)
          | (k, val) :: ps' =>
              match k with
              | NScalar tag key line =>
                  if seq_eqb tag (str "!!merge") then
                    let? '(ms, lines) := mergeSources val lines in pairs_go ps' out (merged ++ ms) lines
                  else if has_key key out then Err (DuplicateKey line (join_path path key))
                  else
                    let p := join_path path key in
                    let? '(v, lines) := nodeValue val p (mset p line lines) in pairs_go ps' (out ++ [(key, v)]) merged lines
              | _ => Err (KeyNotPlain (node_line k))
              end
          end) pairs [] [] lines in
      Ok (RMap (fold_left fill p.2 p.1), lines)
  | NOther line => Err (UnsupportedNode line)
  end.

(** [parseYAML], from the document. *)
Definition parseYAML (doc : node) (lines : lines_t) : result yaml_error (raw_map * lines_t) :=
  let? '(v, lines) := nodeValue doc [] lines in
  match v with RNil => Ok ([], lines) | RMap m => Ok (m, lines) | _ => Err TopNotMapping end.

(** *** Layers *)

(** [merge], for one key: what is laid over what was there. *)
Fixpoint overlay (dst : option raw) (v : raw) {struct v} : option raw :=
  match v with
  | RNil => dst
  | RMap sm =>
      let base := match dst with Some (RMap dm) => dm | _ => [] end in
      Some (RMap ((fix go (sm : raw_map) (acc : raw_map) : raw_map :=
        match sm with
        | [] => acc
        | (k, x) :: sm' => go sm' (match overlay (mget k acc) x with Some y => mset k y acc | None => acc end)
        end) sm base))
  | _ => Some v
  end.

Fixpoint merge (dst src : raw_map) : raw_map :=
  match src with
  | [] => dst
  | (k, x) :: src' => merge (match overlay (mget k dst) x with Some y => mset k y dst | None => dst end) src'
  end.

(** [setPath], over the split path. *)
Fixpoint set_keys (keys : list gostring) (v : raw) (m : raw_map) : raw_map :=
  match keys with
  | [] => m
  | [k] => mset k v m
  | k :: ks => mset k (RMap (set_keys ks v (match mget k m with Some (RMap s) => s | _ => [] end))) m
  end.

Definition setPath (tree : raw_map) (path : gostring) (v : raw) : raw_map := set_keys (split dot path) v tree.

Definition subtree (tree : raw_map) (key : gostring) : raw_map := match mget key tree with Some (RMap m) => m | _ => [] end.

Definition upper_byte (c : ascii) : ascii := let b := byte_val c in if (97 <=? b) && (b <=? 122) then ascii_of_N (Z.to_N (b - 32)) else c.
Definition to_upper (s : gostring) : gostring := map upper_byte s.

Definition underscore (c : ascii) : ascii := if beq c "."%char || beq c "-"%char then "_"%char else c.

Definition EnvName (prefix path : gostring) : gostring := prefix ++ str "_" ++ to_upper (map underscore path).

Definition Prefix (name : gostring) : gostring := to_upper (map underscore name).

(** ** Types *)

Inductive kind := KString | KBool | KInt (bits : Z) | KUint (bits : Z) | KFloat (bits : Z) | KDuration | KText (id : nat).

(** The declared type of a struct's field, before embedded ones are flattened. *)
Record tags := Tags { t_name : gostring; t_yaml : gostring; t_default : option gostring; t_secret : bool; t_anonymous : bool; t_exported : bool }.

Inductive gtype :=
| GScalar (k : kind) | GStruct (fs : list (tags * gtype)) | GMap (string_keys : bool) (e : gtype) | GSlice (e : gtype) | GPtr (e : gtype) | GAny | GOther.

Record field := Field { f_key : gostring; f_def : option gostring; f_secret : bool }.

(** A type as conf sees it: a struct is its flat list of keys. *)
Inductive ctype :=
| TScalar (k : kind) | TStruct (fs : list (field * ctype)) | TMap (string_keys : bool) (e : ctype) | TSlice (e : ctype) | TPtr (e : ctype) | TAny | TOther.

(** [parseYAMLTag]. *)
Definition parseYAMLTag (tag : gostring) : gostring * bool :=
  match split "," tag with
  | [] => ([], false)
  | name :: opts => (name, existsb (fun o => seq_eqb o (str "inline")) opts)
  end.

(** [collectFields]: embedded structs without a name, and inlined ones, give
    their keys to their parent. *)
Fixpoint ctype_of (t : gtype) : ctype :=
  match t with
  | GScalar k => TScalar k
  | GMap b e => TMap b (ctype_of e)
  | GSlice e => TSlice (ctype_of e)
  | GPtr e => TPtr (ctype_of e)
  | GAny => TAny
  | GOther => TOther
  | GStruct fs =>
      TStruct ((fix collectFields (fs : list (tags * gtype)) : list (field * ctype) :=
        match fs with
        | [] => []
        | (g, ft) :: fs' =>
            let '(name, inline) := parseYAMLTag (t_yaml g) in
            if seq_eqb name (str "-") then collectFields fs'
            else
              let keyed := if negb (t_exported g) then [] else [(Field (if seq_eqb name [] then to_lower (t_name g) else name) (t_default g) (t_secret g), ctype_of ft)] in
              if (t_anonymous g && seq_eqb name []) || inline then
                match ctype_of ft with TStruct sub => sub ++ collectFields fs' | _ => keyed ++ collectFields fs' end
              else keyed ++ collectFields fs'
        end) fs)
  end.

Fixpoint deref (t : ctype) : ctype := match t with TPtr e => deref e | _ => t end.

Definition isScalar (t : ctype) : bool := match t with TScalar _ => true | _ => false end.

Definition isLeaf (t : ctype) : bool :=
  match deref t with TScalar _ => true | TSlice e => isScalar (deref e) | _ => false end.

Definition isSection (t : ctype) : bool := match deref t with TStruct _ => true | _ => false end.

(** [collectKeys]: the documented keys; a map's entries are one, under <name>,
    and so are a list's, under []. *)
Fixpoint collectKeys (t : ctype) (path : gostring) : list (gostring * field) :=
  match t with
  | TPtr e => collectKeys e path
  | TStruct fs =>
      (fix go (fs : list (field * ctype)) : list (gostring * field) :=
        match fs with
        | [] => []
        | (f, ft) :: fs' =>
            let p := join_path path (f_key f) in
            (if isLeaf ft then [(p, f)]
             else if isSection ft then collectKeys ft p
             else (fix under (ft : ctype) : list (gostring * field) :=
                  match ft with
                  | TPtr x => under x
                  | TMap _ et => if isSection et then collectKeys et (p ++ str ".<name>") else [(p, f)]
                  | TSlice et => if isSection et then collectKeys et (p ++ str "[]") else [(p, f)]
                  | _ => [(p, f)]
                  end) ft) ++ go fs'
        end) fs
  | _ => []
  end.

(** [Keys], sorted by path. *)
Definition key_le (x y : gostring * field) : Prop := str_le x.1 y.1.
#[export] Instance key_le_dec : RelDecision key_le := fun x y => decide (str_le x.1 y.1).
Definition Keys (t : ctype) : list (gostring * field) := merge_sort key_le (collectKeys t []).

(** [leaves]: the paths an environment variable can set. *)
Fixpoint leaves (t : ctype) (prefix path : gostring) (base : raw_map) : list (gostring * gostring) :=
  match t with
  | TPtr e => leaves e prefix path base
  | TStruct fs =>
      (fix go (fs : list (field * ctype)) : list (gostring * gostring) :=
        match fs with
        | [] => []
        | (f, ft) :: fs' =>
            let p := join_path path (f_key f) in
            (if isLeaf ft then [(p, EnvName prefix p)]
             else if isSection ft then leaves ft prefix p (subtree base (f_key f))
             else (fix under (ft : ctype) : list (gostring * gostring) :=
                  match ft with
                  | TPtr x => under x
                  | TMap _ et =>
                      let entries := subtree base (f_key f) in
                      flat_map (fun k =>
                        if isSection et then leaves et prefix (join_path p k) (subtree entries k)
                        else if isLeaf et then [(join_path p k, EnvName prefix (join_path p k))] else []) (sorted_keys entries)
                  | _ => []
                  end) ft) ++ go fs'
        end) fs
  | _ => []
  end.

(** ** Suggestions *)

(** [editDistance]: the row of the table below [prev]. *)
Fixpoint next_row (a : ascii) (b : gostring) (prev : list Z) (left : Z) : list Z :=
  match b, prev with
  | c :: b', diag :: ((up :: _) as prev') =>
      let cost := if beq a c then 0 else 1 in
      let x := Z.min (Z.min (up + 1) (left + 1)) (diag + cost) in
      x :: next_row a b' prev' x
  | _, _ => []
  end.

Fixpoint rows_go (i : Z) (a b : gostring) (prev : list Z) : list Z :=
  match a with [] => prev | c :: a' => rows_go (i + 1) a' b (i :: next_row c b prev i) end.

Definition editDistance (a b : gostring) : Z := List.last (rows_go 1 a b (map Z.of_nat (seq 0 (S (length b))))) 0.

(** [suggest]: the closest candidate within distance 2. *)
Fixpoint suggest_go (word : gostring) (cs : list gostring) (best : gostring) (bestDist : Z) : gostring :=
  match cs with
  | [] => best
  | c :: cs' => let d := editDistance word c in if d <? bestDist then suggest_go word cs' c d else suggest_go word cs' best bestDist
  end.

Definition suggest (word : gostring) (cs : list gostring) : option gostring :=
  let best := suggest_go word cs [] 3 in if seq_eqb best [] then None else Some best.

(** ** Environment and flags *)

(** strings.Cut. *)
Definition cut (sep : ascii) (s : gostring) : gostring * gostring * bool :=
  let i := index_byte sep s in
  if i <? 0 then (s, [], false) else (take (Z.to_nat i) s, drop (S (Z.to_nat i)) s, true).

Definition path_of_env (paths : list (gostring * gostring)) (name : gostring) : option gostring :=
  fold_left (fun acc p => if seq_eqb p.2 name then Some p.1 else acc) paths None.

Record env_warning := EnvWarning { w_name : gostring; w_suggest : option gostring }.

(** [envLayer]'s loop. *)
Fixpoint env_go (paths : list (gostring * gostring)) (prefix : gostring) (environ : list gostring) (layer : raw_map) (warnings : list env_warning)
  : raw_map * list env_warning :=
  match environ with
  | [] => (layer, warnings)
  | kv :: environ' =>
      let '(name, val, ok) := cut "=" kv in
      if negb ok || negb (has_prefix (prefix ++ str "_") name) || seq_eqb name (prefix ++ str "_CONFIG") then env_go paths prefix environ' layer warnings
      else match path_of_env paths name with
           | Some p => env_go paths prefix environ' (setPath layer p (RStr val)) warnings
           | None => env_go paths prefix environ' layer (warnings ++ [EnvWarning name (suggest name (map snd paths))])
           end
  end.

Definition envLayer (paths : list (gostring * gostring)) (prefix : gostring) (environ : list gostring) : raw_map * list env_warning :=
  env_go paths prefix environ [] [].

(** A changed flag: its name, and its text or its list. *)
Inductive flag_value := FText (s : gostring) | FSlice (l : list gostring).

Fixpoint flag_go (flags : list (gostring * flag_value)) (paths : list (gostring * gostring)) (layer : raw_map) : raw_map :=
  match flags with
  | [] => layer
  | (n, v) :: flags' =>
      if negb (has_key n paths) then flag_go flags' paths layer
      else flag_go flags' paths (setPath layer n (match v with FText s => RStr s | FSlice l => RList (map RStr l) end))
  end.

Definition flagLayer (flags : list (gostring * flag_value)) (paths : list (gostring * gostring)) : raw_map := flag_go flags paths [].

(** ** Values and decoding *)

Inductive scalar := SString (s : gostring) | SBool (b : bool) | SInt (n : Z) | SFloat (f : gostring) | SDuration (d : Z) | SText (id : nat) (s : gostring).

Inductive value :=
| VScalar (s : scalar) | VStruct (l : list (gostring * value)) | VMap (l : list (gostring * value)) | VSlice (l : list value)
| VPtr (v : option value) | VAny (r : raw) | VOther.

Inductive problem :=
| NotSingle (path : gostring) | BadScalar (path text : gostring) | NotMapping (path : gostring) | NotList (path : gostring)
| UnknownKey (path key : gostring) (s : option gostring) | CannotDecode (path : gostring) | BadMapKeys (path : gostring) | Invalid (path : gostring) (what : gostring).

Section decode.
(** strconv's, time's and the types' own parsers. *)
Context (ParseInt ParseUint : Z -> gostring -> option Z) (ParseFloat : Z -> gostring -> option gostring) (ParseDuration : gostring -> option Z)
  (UnmarshalText : nat -> gostring -> bool).

(** strconv.ParseBool. *)
Definition ParseBool (s : gostring) : option bool :=
  if existsb (seq_eqb s) (map str ["1"; "t"; "T"; "true"; "TRUE"; "True"]%string) then Some true
  else if existsb (seq_eqb s) (map str ["0"; "f"; "F"; "false"; "FALSE"; "False"]%string) then Some false
  else None.

(** [decodeScalar], and a type that reads its text itself. *)
Definition parse_scalar (k : kind) (s : gostring) : option scalar :=
  match k with
  | KString => Some (SString s)
  | KBool => option_map SBool (ParseBool s)
  | KInt bits => option_map SInt (ParseInt bits s)
  | KUint bits => option_map SInt (ParseUint bits s)
  | KFloat bits => option_map SFloat (ParseFloat bits s)
  | KDuration => option_map SDuration (ParseDuration s)
  | KText id => if UnmarshalText id s then Some (SText id s) else None
  end.

Definition zero_scalar (k : kind) : scalar :=
  match k with
  | KString => SString [] | KBool => SBool false | KInt _ | KUint _ => SInt 0 | KFloat _ => SFloat (str "0") | KDuration => SDuration 0 | KText id => SText id []
  end.

(** A type's zero value. *)
Fixpoint zero (t : ctype) : value :=
  match t with
  | TScalar k => VScalar (zero_scalar k)
  | TStruct fs => VStruct ((fix go (fs : list (field * ctype)) := match fs with [] => [] | (f, ft) :: fs' => (f_key f, zero ft) :: go fs' end) fs)
  | TMap _ _ => VMap []
  | TSlice _ => VSlice []
  | TPtr _ => VPtr None
  | TAny => VAny RNil
  | TOther => VOther
  end.

(** The items of a list: a scalar for a list of scalars is split at commas. *)
Definition comma_items (s : gostring) : list raw :=
  map RStr (List.filter (fun x => negb (seq_eqb x [])) (map trim_space (split "," s))).

Definition unknown_keys (path : gostring) (known : list gostring) (m : raw_map) : list problem :=
  flat_map (fun k => if existsb (seq_eqb k) known then [] else [UnknownKey path k (suggest k known)]) (sorted_keys m).

Definition is_struct (t : ctype) : bool := match t with TStruct _ => true | _ => false end.

(** [decode], over the value [v] as it is: the value it leaves and the problems
    it met. *)
Fixpoint decode (path : gostring) (r : raw) (t : ctype) (v : value) {struct t} : value * list problem :=
  match r with
  | RNil => (v, [])
  | _ =>
      match t with
      | TPtr e =>
          let cur := match v with VPtr (Some x) => x | _ => zero e end in
          let '(x, ps) := decode path r e cur in (VPtr (Some x), ps)
      | TScalar k =>
          match r with
          | RStr s => match parse_scalar k s with Some x => (VScalar x, []) | None => (v, [BadScalar path s]) end
          | _ => (v, [NotSingle path])
          end
      | TStruct fs =>
          match r with
          | RMap m =>
              let old := match v with VStruct l => l | _ => [] end in
              let '(l, ps) :=
                (fix go (fs : list (field * ctype)) : list (gostring * value) * list problem :=
                  match fs with
                  | [] => ([], [])
                  | (f, ft) :: fs' =>
                      let p := join_path path (f_key f) in
                      let cur := default (zero ft) (mget (f_key f) old) in
                      let '(x, ps) :=
                        match mget (f_key f) m with
                        | Some RNil | None =>
                            match f_def f with
                            | Some d => decode p (RStr d) ft cur
                            | None => if is_struct ft then decode p (RMap []) ft cur else (cur, [])
                            end
                        | Some x => decode p x ft cur
                        end in
                      let '(l, qs) := go fs' in ((f_key f, x) :: l, ps ++ qs)
                  end) fs in
              (VStruct l, ps ++ unknown_keys path (map (fun p => f_key p.1) fs) m)
          | _ => (v, [NotMapping path])
          end
      | TMap ok e =>
          if negb ok then (v, [BadMapKeys path])
          else match r with
               | RMap m =>
                   let l := map (fun k =>
                     let x := default RNil (mget k m) in
                     let x := match x with RNil => if isSection e then RMap [] else RNil | _ => x end in
                     (k, decode (join_path path k) x e (zero e))) (sorted_keys m) in
                   (VMap (map (fun y => (y.1, y.2.1)) l), flat_map (fun y => y.2.2) l)
               | _ => (v, [NotMapping path])
               end
      | TSlice e =>
          match (match r with RList l => Some l | RStr s => if isScalar (deref e) then Some (comma_items s) else None | _ => None end) with
          | Some items =>
              let l := imap (fun i x =>
                let x := match x with RNil => if isSection e then RMap [] else RNil | _ => x end in
                decode (index_path path (Z.of_nat i)) x e (zero e)) items in
              (VSlice (map fst l), flat_map snd l)
          | None => (v, [NotList path])
          end
      | TAny => (VAny r, [])
      | TOther => (v, [CannotDecode path])
      end
  end.

(** ** Loading *)

Record options := Options {
  o_name : gostring; o_envPrefix : gostring; o_override : gostring; o_file : gostring; o_flags : list (gostring * flag_value); o_environ : list gostring;
  o_only : list gostring;
}.

Inductive file := FileDoc (doc : node) | FileBad (text : gostring) | FileMissing | FileUnreadable.

Context (files : gostring -> file) (validateTree : ctype -> value -> list problem).

(** [locate]'s loop over the environment, and the whole. *)
Fixpoint env_config (prefix : gostring) (environ : list gostring) : option gostring :=
  match environ with
  | [] => None
  | kv :: environ' =>
      let '(name, val, ok) := cut "=" kv in
      if ok && seq_eqb name (prefix ++ str "_CONFIG") && negb (seq_eqb val []) then Some val else env_config prefix environ'
  end.

Definition exists_file (p : gostring) : bool := match files p with FileMissing => false | _ => true end.

Definition locate (o : options) (prefix : gostring) : gostring * bool :=
  if negb (seq_eqb (o_override o) []) then (o_override o, true)
  else match env_config prefix (o_environ o) with
       | Some p => (p, true)
       | None =>
           if negb (seq_eqb (o_file o) []) then (o_file o, true)
           else
             let candidates := str "chok.yaml" :: (if seq_eqb (o_name o) [] then [] else [o_name o ++ str ".yaml"; str "configs/" ++ o_name o ++ str ".yaml"]) in
             match List.filter exists_file candidates with c :: _ => (c, false) | [] => ([], false) end
       end.

Inductive load_error := FileError (file : gostring) | YamlError (file : gostring) (err : yaml_error) | Problems (ps : list problem).

Record loaded := Loaded { l_value : value; l_file : gostring; l_warnings : list env_warning }.

Definition read_file (o : options) (prefix : gostring) : result load_error (raw_map * gostring) :=
  let '(path, explicit) := locate o prefix in
  if seq_eqb path [] then Ok ([], [])
  else match files path with
       | FileDoc doc =>
           match parseYAML doc [] with
           | Ok (ft, _) =>
               let ft := match o_only o with [] => ft | only => List.filter (fun kv => existsb (seq_eqb kv.1) only) ft end in
               Ok (merge [] ft, path)
           | Err err => Err (YamlError path err)
           end
       | FileBad _ => Err (FileError path)
       | FileMissing => if explicit then Err (FileError path) else Ok ([], [])
       | FileUnreadable => Err (FileError path)
       end.

Definition load_prefix (o : options) : gostring := to_upper (if seq_eqb (o_envPrefix o) [] then Prefix (o_name o) else o_envPrefix o).

(** The tree of all layers. *)
Definition layers (t : ctype) (o : options) (tree : raw_map) : raw_map * list env_warning :=
  let prefix := load_prefix o in
  let paths := leaves t prefix [] tree in
  let '(envTree, warnings) := envLayer paths prefix (o_environ o) in
  let warnings :=
    match o_only o with
    | [] => warnings
    | only => List.filter (fun w => existsb (fun section => has_prefix (EnvName prefix section ++ str "_") (w_name w)) only) warnings
    end in
  (merge (merge tree envTree) (flagLayer (o_flags o) paths), warnings).

(** [dedupe] sorts and drops repeats; [problem_le] is the order of their texts. *)
Context (problem_le : problem -> problem -> Prop) `{!RelDecision problem_le} `{!EqDecision problem}.

Fixpoint compact (l : list problem) : list problem :=
  match l with
  | x :: ((y :: _) as l') => if decide (x = y) then compact l' else x :: compact l'
  | _ => l
  end.

Definition dedupe (l : list problem) : list problem := compact (merge_sort problem_le l).

Definition Load (t : ctype) (o : options) : result load_error loaded :=
  let? '(tree, path) := read_file o (load_prefix o) in
  let '(tree, warnings) := layers t o tree in
  let '(out, ps) := decode [] (RMap tree) t (zero t) in
  let ps := match ps with [] => validateTree t out | _ => ps end in
  match ps with [] => Ok (Loaded out path warnings) | _ => Err (Problems (dedupe ps)) end.

(** [Defaults], over a value as it is. *)
Definition Defaults (t : ctype) (v : value) : value * list problem := decode [] (RMap []) t v.

(** [Check]. *)
Definition Check_ (t : ctype) (v : value) : list problem := dedupe (validateTree t v).

(** ** Dump *)

(** How a scalar that is no text is written. *)
Context (DurationString : Z -> gostring) (MarshalText : nat -> gostring -> gostring) (dump_other : node).

Definition Masked : gostring := str "***".

(** A scalar's YAML tag and text. *)
Definition scalar_text (s : scalar) : gostring * gostring :=
  match s with
  | SString x => (str "!!str", x)
  | SBool b => (str "!!bool", str (if b then "true" else "false"))
  | SInt n => (str "!!int", format_int n)
  | SFloat f => (str "!!float", f)
  | SDuration d => (str "!!str", DurationString d)
  | SText id x => (str "!!str", MarshalText id x)
  end.

Definition dump_scalar (secret : bool) (x : gostring * gostring) : node :=
  if secret && negb (seq_eqb x.2 []) then NScalar (str "!!str") Masked 0 else NScalar x.1 x.2 0.

Definition null_node : node := NScalar (str "!!null") (str "null") 0.
Definition key_node (k : gostring) : node := NScalar (str "!!str") k 0.

Fixpoint dump_raw (r : raw) (secret : bool) : node :=
  match r with
  | RNil => null_node
  | RStr s => dump_scalar secret (str "!!str", s)
  | RList l => NSequence (map (fun x => dump_raw x secret) l) 0
  | RMap m =>
      let ds := map (fun kv => (kv.1, dump_raw kv.2 secret)) m in
      NMapping (map (fun k => (key_node k, default null_node (mget k ds))) (sorted_keys m)) 0
  end.

(** [dumpValue]. *)
Fixpoint dumpValue (t : ctype) (v : value) (secret : bool) : node :=
  match t, v with
  | TPtr e, VPtr (Some x) => dumpValue e x secret
  | TPtr _, _ => null_node
  | TScalar _, VScalar s => dump_scalar secret (scalar_text s)
  | TStruct fs, VStruct l =>
      NMapping ((fix go (fs : list (field * ctype)) : list (node * node) :=
        match fs with
        | [] => []
        | (f, ft) :: fs' => (key_node (f_key f), dumpValue ft (default (zero ft) (mget (f_key f) l)) (f_secret f)) :: go fs'
        end) fs) 0
  | TMap _ e, VMap l => NMapping (map (fun k => (key_node k, dumpValue e (default (zero e) (mget k l)) secret)) (sorted_keys l)) 0
  | TSlice e, VSlice l => NSequence (map (fun x => dumpValue e x secret) l) 0
  | TAny, VAny r => dump_raw r secret
  | _, _ => dump_other
  end.

(** [Dump], before it is written out. *)
Definition Dump (t : ctype) (v : value) : node := dumpValue t v false.

(** [Field]: the value at a dotted path, through the pointers on the way. *)
Fixpoint strip (v : value) : option value := match v with VPtr (Some x) => strip x | VPtr None => None | _ => Some v end.

Fixpoint field_keys (keys : list gostring) (v : value) : option value :=
  match keys with
  | [] => Some v
  | k :: ks => match strip v with Some (VStruct l) => x ← mget k l; field_keys ks x | _ => None end
  end.

Definition Field_at (v : value) (path : gostring) : option value := field_keys (split dot path) v.
End decode.
