(* ===== verification/ConfSpec.v ===== *)
(** What a configuration is worth once loaded: where a key's value comes from,
    that it has its type, and that the tree the sources make together holds no
    key the type does not name.  And that the suggestions' distance is the edit
    distance. *)

From Stdlib Require Import ZArith Lia List Ascii.
From stdpp Require Import base decidable list sets sorting strings.
From S2P Require Import Prelude GoStrings GoMaps Conf.

Section ctype_ind'.
Context (P : ctype -> Prop).
Hypotheses (HScalar : forall k, P (TScalar k)) (HStruct : forall fs, Forall (fun f => P f.2) fs -> P (TStruct fs)) (HMap : forall b e, P e -> P (TMap b e))
  (HSlice : forall e, P e -> P (TSlice e)) (HPtr : forall e, P e -> P (TPtr e)) (HAny : P TAny) (HOther : P TOther).

Fixpoint ctype_ind' (t : ctype) : P t :=
  match t with
  | TScalar k => HScalar k
  | TStruct fs => HStruct fs ((fix go (fs : list (field * ctype)) : Forall (fun f => P f.2) fs :=
      match fs with [] => Forall_nil_2 _ | f :: fs' => Forall_cons_2 _ f fs' (ctype_ind' f.2) (go fs') end) fs)
  | TMap b e => HMap b e (ctype_ind' e)
  | TSlice e => HSlice e (ctype_ind' e)
  | TPtr e => HPtr e (ctype_ind' e)
  | TAny => HAny
  | TOther => HOther
  end.
End ctype_ind'.

(** ** Edit distance *)

(** A script of insertions, deletions and substitutions, and its cost. *)
Inductive edit : gostring -> gostring -> Z -> Prop :=
| edit_nil : edit [] [] 0
| edit_keep c a b n : edit a b n -> edit (c :: a) (c :: b) n
| edit_subst c d a b n : edit a b n -> edit (c :: a) (d :: b) (n + 1)
| edit_insert d a b n : edit a b n -> edit a (d :: b) (n + 1)
| edit_delete c a b n : edit a b n -> edit (c :: a) b (n + 1).

(** The recursion on last characters, the strings reversed. *)
Fixpoint lev (a : gostring) : gostring -> Z :=
  match a with
  | [] => fun b => Z.of_nat (length b)
  | x :: a' => fix lev_b (b : gostring) : Z :=
      match b with
      | [] => Z.of_nat (length (x :: a'))
      | y :: b' => Z.min (Z.min (lev a' b + 1) (lev_b b' + 1)) (lev a' b' + (if beq x y then 0 else 1))
      end
  end.

Lemma lev_cons x a y b : lev (x :: a) (y :: b) = Z.min (Z.min (lev a (y :: b) + 1) (lev (x :: a) b + 1)) (lev a b + (if beq x y then 0 else 1)).
Proof. done. Qed.

Lemma lev_nil_r a : lev a [] = Z.of_nat (length a).
Proof. by destruct a. Qed.

Lemma lev_edit a b : edit a b (lev a b).
Proof.
  revert b. induction a as [|x a IH]; intros b.
  - induction b as [|y b IHb]; [constructor|]. change (lev [] (y :: b)) with (Z.of_nat (S (length b))). rewrite Nat2Z.inj_succ. by constructor.
  - induction b as [|y b IHb].
    + rewrite lev_nil_r. cbn [length]. rewrite Nat2Z.inj_succ, <- lev_nil_r. constructor. apply IH.
    + rewrite lev_cons. destruct (Z.min_spec (Z.min (lev a (y :: b) + 1) (lev (x :: a) b + 1)) (lev a b + (if beq x y then 0 else 1))) as [[_ ->]|[_ ->]].
      * destruct (Z.min_spec (lev a (y :: b) + 1) (lev (x :: a) b + 1)) as [[_ ->]|[_ ->]]; [apply edit_delete, IH|by apply edit_insert].
      * destruct (beq x y) eqn:E; [apply beq_true in E as ->; rewrite Z.add_0_r; apply edit_keep, IH|apply edit_subst, IH].
Qed.

Lemma lev_step a y b : lev a (y :: b) <= lev a b + 1.
Proof. destruct a as [|x a]; [cbn; lia|rewrite lev_cons; lia]. Qed.

Lemma lev_drop x a b : lev (x :: a) b <= lev a b + 1.
Proof. destruct b as [|y b]; [rewrite !lev_nil_r; cbn; lia|rewrite lev_cons; lia]. Qed.

Lemma lev_least a b n : edit a b n -> lev a b <= n.
Proof.
  induction 1 as [|c a b n _ IH|c d a b n _ IH|d a b n _ IH|c a b n _ IH]; [done| | | |].
  - rewrite lev_cons, beq_refl. lia.
  - rewrite lev_cons. destruct (beq c d); lia.
  - pose proof (lev_step a d b). lia.
  - pose proof (lev_drop c a b). lia.
Qed.

Lemma edit_app a b n a' b' n' : edit a b n -> edit a' b' n' -> edit (a ++ a') (b ++ b') (n + n').
Proof.
  intros E E'. induction E as [|c a b n _ IH|c d a b n _ IH|d a b n _ IH|c a b n _ IH]; cbn; [done|by constructor|..].
  - replace (n + 1 + n') with (n + n' + 1) by lia. by constructor.
  - replace (n + 1 + n') with (n + n' + 1) by lia. by constructor.
  - replace (n + 1 + n') with (n + n' + 1) by lia. by constructor.
Qed.

Lemma edit_rev a b n : edit a b n -> edit (rev a) (rev b) n.
Proof.
  induction 1 as [|c a b n _ IH|c d a b n _ IH|d a b n _ IH|c a b n _ IH]; cbn; [constructor|..].
  - rewrite <- (Z.add_0_r n). apply edit_app; [done|]. apply edit_keep, edit_nil.
  - apply edit_app; [done|]. apply (edit_subst c d [] [] 0), edit_nil.
  - rewrite <- (app_nil_r (rev a)). apply edit_app; [done|]. apply (edit_insert d [] [] 0), edit_nil.
  - rewrite <- (app_nil_r (rev b)). apply edit_app; [done|]. apply (edit_delete c [] [] 0), edit_nil.
Qed.

(** The table: row [a1] holds the distances to the prefixes of [b]. *)
Definition row (a1 b : gostring) (from n : nat) : list Z := map (fun j => lev (rev a1) (rev (take j b))) (seq from n).

Lemma next_row_spec a1 c b b1 b2 left : b = b1 ++ b2 -> left = lev (rev (a1 ++ [c])) (rev b1) ->
  next_row c b2 (row a1 b (length b1) (S (length b2))) left = row (a1 ++ [c]) b (S (length b1)) (length b2).
Proof.
  intros -> ->. revert b1. induction b2 as [|d b2 IH]; intros b1; [done|]. unfold row. cbn [length seq map next_row].
  assert (T1 : take (length b1) (b1 ++ d :: b2) = b1) by (by rewrite take_app_length).
  assert (T2 : take (S (length b1)) (b1 ++ d :: b2) = b1 ++ [d]).
  { replace (S (length b1)) with (length (b1 ++ [d])) by (rewrite length_app; cbn; lia). rewrite (cons_middle d b1 b2), app_assoc. by rewrite take_app_length. }
  rewrite T1, T2.
  assert (X : Z.min (Z.min (lev (rev a1) (rev (b1 ++ [d])) + 1) (lev (rev (a1 ++ [c])) (rev b1) + 1)) (lev (rev a1) (rev b1) + (if beq c d then 0 else 1))
              = lev (rev (a1 ++ [c])) (rev (b1 ++ [d]))) by (by rewrite !rev_unit, lev_cons).
  rewrite X. f_equal. specialize (IH (b1 ++ [d])). rewrite length_app in IH. cbn [length] in IH. rewrite Nat.add_1_r in IH.
  rewrite <- app_assoc in IH. cbn [app] in IH. unfold row in IH. cbn [seq map] in IH. rewrite T2 in IH. exact IH.
Qed.

Lemma rows_go_spec a a1 b : rows_go (Z.of_nat (length a1) + 1) a b (row a1 b 0 (S (length b))) = row (a1 ++ a) b 0 (S (length b)).
Proof.
  revert a1. induction a as [|c a IH]; intros a1; [by rewrite app_nil_r|]. cbn [rows_go].
  pose proof (next_row_spec a1 c b [] b (Z.of_nat (length a1) + 1) eq_refl) as N. cbn [length] in N. rewrite N.
  - specialize (IH (a1 ++ [c])). rewrite length_app in IH. cbn [length] in IH. rewrite <- app_assoc in IH. cbn [app] in IH. rewrite <- IH.
    replace (Z.of_nat (length a1 + 1) + 1) with (Z.of_nat (length a1) + 1 + 1) by lia. f_equal.
    unfold row. cbn [seq map]. f_equal. cbn [rev take]. rewrite lev_nil_r, length_rev, length_app. cbn. lia.
  - cbn [rev]. rewrite lev_nil_r, length_rev, length_app. cbn. lia.
Qed.

(** The two-row table computes the edit distance: it is the cost of a script
    of insertions, deletions and substitutions from one word to the other, and
    no script costs less. *)
Theorem editDistance_least (a b : gostring) :
  edit a b (editDistance a b) /\ forall n, edit a b n -> editDistance a b <= n.
Proof.
  assert (D : editDistance a b = lev (rev a) (rev b)).
  { unfold editDistance. assert (R0 : map Z.of_nat (seq 0 (S (length b))) = row [] b 0 (S (length b))).
    { unfold row. apply map_ext_in. intros j Hj. apply in_seq in Hj. cbn. rewrite length_rev, length_take. f_equal. lia. }
    rewrite R0. pose proof (rows_go_spec a [] b) as R. cbn [length app] in R. change (Z.of_nat 0 + 1) with 1 in R. rewrite R.
    unfold row. rewrite seq_S, map_app. cbn [map]. rewrite last_last, Nat.add_0_l. by rewrite firstn_all. }
  rewrite D. split.
  - rewrite <- (rev_involutive a) at 1. rewrite <- (rev_involutive b) at 1. apply edit_rev, lev_edit.
  - intros n E. by apply lev_least, edit_rev.
Qed.


(** ** Paths in a tree *)

Fixpoint get_keys (ks : list gostring) (m : raw_map) : option raw :=
  match ks with
  | [] => None
  | [k] => mget k m
  | k :: ks => match mget k m with Some (RMap s) => get_keys ks s | _ => None end
  end.

Definition leaf (v : raw) : bool := match v with RStr _ | RList _ => true | _ => false end.

(** The tree says nothing along the path. *)
Fixpoint silent (ks : list gostring) (m : raw_map) : Prop :=
  match ks with
  | [] => False
  | k :: ks => match mget k m with None | Some RNil => True | Some (RMap s) => silent ks s | _ => False end
  end.

(** Keys are unique in every mapping the path crosses. *)
Fixpoint tidy (ks : list gostring) (m : raw_map) : Prop :=
  NoDup (map fst m) /\ match ks with [] => True | k :: ks => match mget k m with Some (RMap s) => tidy ks s | _ => True end end.

(** *** Merging *)

Lemma overlay_map dst sm : overlay dst (RMap sm) = Some (RMap (merge (match dst with Some (RMap dm) => dm | _ => [] end) sm)).
Proof.
  cbn. f_equal. f_equal. generalize (match dst with Some (RMap dm) => dm | _ => [] end).
  induction sm as [|[k x] sm IH]; intros acc; cbn; [done|apply IH].
Qed.

Lemma merge_mget k dst src : NoDup (map fst src) ->
  mget k (merge dst src) = match mget k src with Some x => overlay (mget k dst) x | None => mget k dst end.
Proof.
  revert dst. induction src as [|[k1 x] src IH]; intros dst N; cbn [merge mget map fst] in *; [done|]. apply NoDup_cons in N as [N1 N2].
  rewrite IH by done. destruct (seq_eqbP k1 k) as [->|E].
  - rewrite mget_none by done. destruct (overlay (mget k dst) x) eqn:O; [rewrite mget_mset; by destruct (seq_eqbP k k)|].
    destruct x; cbn in O; try discriminate. done.
  - assert (G : mget k (match overlay (mget k1 dst) x with Some y => mset k1 y dst | None => dst end) = mget k dst).
    { destruct (overlay (mget k1 dst) x); [rewrite mget_mset; by destruct (seq_eqbP k1 k)|done]. }
    by rewrite G.
Qed.

Lemma get_keys_nil ks : get_keys ks [] = None.
Proof. by destruct ks as [|k [|k' ks]]. Qed.

Lemma get_keys_cons k ks m : ks <> [] -> get_keys (k :: ks) m = match mget k m with Some (RMap s) => get_keys ks s | _ => None end.
Proof. by destruct ks. Qed.

Lemma merge_leaf ks dst src v : tidy ks src -> leaf v = true -> get_keys ks src = Some v -> get_keys ks (merge dst src) = Some v.
Proof.
  revert dst src. induction ks as [|k ks IH]; intros dst src [N T] L G; [done|]. destruct (decide (ks = [])) as [->|K].
  - cbn [get_keys] in *. rewrite merge_mget, G by done. by destruct v.
  - rewrite get_keys_cons in * by done. rewrite merge_mget by done. destruct (mget k src) as [[|s|l|m]|]; try discriminate.
    rewrite overlay_map. by apply IH.
Qed.

Lemma merge_silent ks dst src : tidy ks src -> silent ks src -> get_keys ks (merge dst src) = get_keys ks dst.
Proof.
  revert dst src. induction ks as [|k ks IH]; intros dst src [N T] S; [done|]. cbn [silent] in S. destruct (decide (ks = [])) as [->|K].
  - cbn [get_keys]. rewrite merge_mget by done. destruct (mget k src) as [[|s|l|m]|]; done.
  - rewrite !get_keys_cons by done. rewrite merge_mget by done. destruct (mget k src) as [[|s|l|m]|]; try done.
    rewrite overlay_map. rewrite IH by done. destruct (mget k dst) as [[|s|l|m']|]; try done; apply get_keys_nil.
Qed.

(** *** Setting a path *)

(** Neither path runs along the other. *)
Fixpoint apart (ks qs : list gostring) : bool :=
  match ks, qs with k :: ks, q :: qs => if seq_eqb k q then apart ks qs else true | _, _ => false end.

Lemma set_keys_cons k ks v m : ks <> [] -> set_keys (k :: ks) v m = mset k (RMap (set_keys ks v (match mget k m with Some (RMap s) => s | _ => [] end))) m.
Proof. by destruct ks. Qed.

Lemma get_set_same ks v m : ks <> [] -> get_keys ks (set_keys ks v m) = Some v.
Proof.
  revert m. induction ks as [|k ks IH]; intros m N; [done|]. destruct (decide (ks = [])) as [->|K].
  - cbn. rewrite mget_mset. by destruct (seq_eqbP k k).
  - rewrite set_keys_cons, get_keys_cons, mget_mset by done. destruct (seq_eqbP k k); [|done]. by apply IH.
Qed.

Lemma get_set_apart ks qs v m : apart ks qs = true -> get_keys qs (set_keys ks v m) = get_keys qs m.
Proof.
  revert qs m. induction ks as [|k ks IH]; intros qs m A; [done|]. destruct qs as [|q qs]; [done|]. cbn [apart] in A.
  assert (S : forall x, k <> q -> get_keys (q :: qs) (mset k x m) = get_keys (q :: qs) m).
  { intros x E. destruct (decide (qs = [])) as [->|K]; [cbn|rewrite !get_keys_cons by done]; rewrite mget_mset; by destruct (seq_eqbP k q). }
  destruct (decide (ks = [])) as [->|K]; [cbn [set_keys]; destruct (seq_eqbP k q); [done|by apply S]|].
  rewrite set_keys_cons by done. destruct (seq_eqbP k q) as [->|E]; [|by apply S].
  assert (qs <> []) by (destruct qs; [by destruct ks|done]).
  rewrite !get_keys_cons, mget_mset by done. destruct (seq_eqbP q q); [|done]. rewrite IH by done.
  destruct (mget q m) as [[|s|l|m']|]; try done; apply get_keys_nil.
Qed.

Lemma silent_set_apart ks qs v m : apart ks qs = true -> silent qs m -> silent qs (set_keys ks v m).
Proof.
  revert qs m. induction ks as [|k ks IH]; intros qs m A S; [done|]. destruct qs as [|q qs]; [done|]. cbn [apart] in A.
  destruct (decide (ks = [])) as [->|K].
  - cbn [set_keys]. destruct (seq_eqbP k q) as [->|E]; [done|]. cbn [silent] in *. rewrite mget_mset. by destruct (seq_eqbP k q).
  - rewrite set_keys_cons by done. cbn [silent] in *. rewrite mget_mset. destruct (seq_eqbP k q) as [->|E]; [|done].
    apply IH; [done|]. destruct (mget q m) as [[|s|l|m']|]; try done; by destruct qs; [destruct ks|].
Qed.

Lemma tidy_set ks qs v m : leaf v = true -> tidy qs m -> tidy qs (set_keys ks v m).
Proof.
  intros L. revert qs m. induction ks as [|k ks IH]; intros qs m T; [done|]. destruct qs as [|q qs].
  - destruct T as [N _]. split; [|done]. destruct ks; by apply mset_nodup.
  - destruct T as [N T]. destruct (decide (ks = [])) as [->|K].
    + split; [by apply mset_nodup|]. cbn [set_keys]. rewrite mget_mset. destruct (seq_eqbP k q); [by destruct v|done].
    + rewrite set_keys_cons by done. split; [by apply mset_nodup|]. rewrite mget_mset. destruct (seq_eqbP k q) as [->|]; [|done].
      apply IH. destruct (mget q m) as [[|s|l|m']|]; try done; destruct qs; split; cbn; auto; constructor.
Qed.

Lemma tidy_nil qs : tidy qs [].
Proof. destruct qs; (split; [constructor|done]). Qed.

(** ** Layers *)

(** The last value the environment gives a variable, and the last a flag gets. *)
Fixpoint env_value (environ : list gostring) (n : gostring) : option gostring :=
  match environ with
  | [] => None
  | kv :: environ' =>
      match env_value environ' n with
      | Some v => Some v
      | None => let '(name, val, ok) := cut "=" kv in if ok && seq_eqb name n then Some val else None
      end
  end.

Definition flag_raw (v : flag_value) : raw := match v with FText s => RStr s | FSlice l => RList (map RStr l) end.

Fixpoint flag_of (flags : list (gostring * flag_value)) (p : gostring) : option raw :=
  match flags with
  | [] => None
  | (n, v) :: flags' => match flag_of flags' p with Some x => Some x | None => if seq_eqb n p then Some (flag_raw v) else None end
  end.

(** What a layer says of a path. *)
Definition says (ks : list gostring) (layer : raw_map) (r : option raw) : Prop :=
  tidy ks layer /\ match r with Some v => leaf v = true /\ get_keys ks layer = Some v | None => silent ks layer end.

Lemma says_set_same ks layer r v : ks <> [] -> leaf v = true -> says ks layer r -> says ks (set_keys ks v layer) (Some v).
Proof. intros K L [T _]. split; [by apply tidy_set|]. split; [done|by apply get_set_same]. Qed.

Lemma says_set_apart qs ks layer r v : apart qs ks = true -> leaf v = true -> says ks layer r -> says ks (set_keys qs v layer) r.
Proof.
  intros A L [T S]. split; [by apply tidy_set|]. destruct r as [x|]; [rewrite get_set_apart by done; done|by apply silent_set_apart].
Qed.

Lemma says_merge ks dst layer r : says ks layer r -> get_keys ks (merge dst layer) = match r with Some v => Some v | None => get_keys ks dst end.
Proof. intros [T S]. destruct r as [v|]; [destruct S; by apply merge_leaf|by apply merge_silent]. Qed.

Lemma path_of_env_in paths name p : path_of_env paths name = Some p -> (p, name) ∈ paths.
Proof.
  unfold path_of_env. assert (G : forall acc, fold_left (fun acc p => if seq_eqb p.2 name then Some p.1 else acc) paths acc = Some p -> (p, name) ∈ paths \/ acc = Some p).
  { induction paths as [|[q n] paths IH]; intros acc H; cbn in *; [by right|]. apply IH in H as [H|H]; [left; by right|].
    destruct (seq_eqbP n name) as [->|]; [injection H as ->; left; left|by right]. }
  intros H. by apply G in H as [H|H].
Qed.

Lemma path_of_env_some paths name p : (p, name) ∈ paths -> path_of_env paths name <> None.
Proof.
  unfold path_of_env. assert (G : forall acc, (p, name) ∈ paths \/ acc <> None -> fold_left (fun acc p => if seq_eqb p.2 name then Some p.1 else acc) paths acc <> None).
  { induction paths as [|[q n] paths IH]; intros acc H; cbn in *; [destruct H as [H|H]; [by apply elem_of_nil in H|done]|]. apply IH.
    destruct H as [H|H]; [apply elem_of_cons in H as [[= <- <-]|H]; [right; by destruct (seq_eqbP name name)|by left]|right; by destruct (seq_eqb n name)]. }
  intros H. apply G. by left.
Qed.

(** The paths of a type are apart and their variables distinct: the case for
    which an override is well defined. *)
Definition distinct (prefix : gostring) (paths : list (gostring * gostring)) : bool :=
  bool_decide (NoDup (map snd paths)) &&
  forallb (fun x => seq_eqb x.2 (EnvName prefix x.1) && forallb (fun y => seq_eqb x.1 y.1 || apart (split dot x.1) (split dot y.1)) paths) paths.

Lemma distinct_spec prefix paths p q : distinct prefix paths = true -> p ∈ paths -> q ∈ paths ->
  p.2 = EnvName prefix p.1 /\ (q.2 = p.2 -> q = p) /\ (q.1 = p.1 \/ apart (split dot q.1) (split dot p.1) = true).
Proof.
  unfold distinct. intros D P Q. apply andb_prop in D as [N D]. apply bool_decide_eq_true in N. rewrite forallb_forall in D.
  pose proof (D p (proj1 (list_elem_of_In _ _) P)) as DP. pose proof (D q (proj1 (list_elem_of_In _ _) Q)) as DQ.
  apply andb_prop in DP as [EP _], DQ as [EQ DQ]. destruct (seq_eqbP p.2 (EnvName prefix p.1)) as [E|]; [|done]. split; [done|]. split.
  - clear -N P Q. induction paths as [|x l IH]; [by apply elem_of_nil in P|]. cbn in N. apply NoDup_cons in N as [N1 N2].
    apply elem_of_cons in P as [->|P], Q as [->|Q]; try done; [..|by apply IH]; intros E; contradict N1; [rewrite <- E|rewrite E]; by apply list_elem_of_fmap_2.
  - rewrite forallb_forall in DQ. specialize (DQ p (proj1 (list_elem_of_In _ _) P)). apply orb_prop in DQ as [DQ|DQ]; [left; by destruct (seq_eqbP q.1 p.1)|by right].
Qed.

Section precedence.
Context (prefix : gostring) (paths : list (gostring * gostring)) (p n : gostring).
Hypotheses (D : distinct prefix paths = true) (P : (p, n) ∈ paths) (C : n <> prefix ++ str "_CONFIG").

Let ks := split dot p.

Lemma path_of_env_self : path_of_env paths n = Some p.
Proof.
  destruct (path_of_env paths n) as [q|] eqn:E; [|by apply path_of_env_some in P]. apply path_of_env_in in E.
  destruct (distinct_spec _ _ _ _ D P E) as (_ & U & _). by injection (U eq_refl) as ->.
Qed.

Lemma other_apart name q : name <> n -> path_of_env paths name = Some q -> apart (split dot q) ks = true.
Proof.
  intros N E. apply path_of_env_in in E. destruct (distinct_spec _ _ _ _ D P E) as (F & U & [X|X]); [|done].
  destruct (distinct_spec _ _ _ _ D E P) as (F' & _ & _). cbn in *. congruence.
Qed.

Lemma name_has_prefix : has_prefix (prefix ++ str "_") n = true.
Proof.
  destruct (distinct_spec _ _ _ _ D P P) as (F & _ & _). cbn in F. subst n. unfold EnvName. rewrite app_assoc. apply has_prefix_spec. eauto.
Qed.

Lemma env_go_says environ layer warnings r : says ks layer r ->
  says ks (env_go paths prefix environ layer warnings).1 (match env_value environ n with Some s => Some (RStr s) | None => r end).
Proof.
  revert layer warnings r. induction environ as [|kv environ IH]; intros layer warnings r S; [done|]. cbn [env_go env_value].
  destruct (cut "=" kv) as [[name val] ok]. destruct (_ || _) eqn:Skip.
  - apply IH with (warnings := warnings) in S. destruct (env_value environ n); [done|]. destruct ok; [|done]. cbn [andb].
    destruct (seq_eqbP name n) as [->|]; [|done]. rewrite name_has_prefix in Skip. by destruct (seq_eqbP n (prefix ++ str "_CONFIG")).
  - apply orb_false_elim in Skip as [Skip _]. apply orb_false_elim in Skip as [Ok _]. destruct ok; [|done]. cbn [andb].
    destruct (seq_eqbP name n) as [->|N].
    + rewrite path_of_env_self. assert (S' : says ks (setPath layer p (RStr val)) (Some (RStr val))) by (apply says_set_same with r; [apply split_nonempty|done..]).
      apply IH with (warnings := warnings) in S'. by destruct (env_value environ n).
    + assert (S' : forall w, says ks (env_go paths prefix environ layer w).1 (match env_value environ n with Some s => Some (RStr s) | None => r end)) by (intros w; by apply IH).
      destruct (path_of_env paths name) as [q|] eqn:Q.
      * pose proof (IH (setPath layer q (RStr val)) warnings r) as H. destruct (env_value environ n); apply H; apply says_set_apart; eauto using other_apart.
      * specialize (S' (warnings ++ [EnvWarning name (suggest name (map snd paths))])). by destruct (env_value environ n).
Qed.

Lemma flag_go_says flags layer r : says ks layer r ->
  says ks (flag_go flags paths layer) (match flag_of flags p with Some v => Some v | None => r end).
Proof.
  revert layer r. induction flags as [|[f v] flags IH]; intros layer r S; [done|]. cbn [flag_go flag_of].
  change (match v with FText s => RStr s | FSlice l => RList (map RStr l) end) with (flag_raw v).
  assert (L : leaf (flag_raw v) = true) by (by destruct v). destruct (seq_eqbP f p) as [->|N].
  - assert (K : has_key p paths = true).
    { unfold has_key. clear -P. induction paths as [|[q m] l IH]; [by apply elem_of_nil in P|]. cbn. destruct (seq_eqbP q p) as [->|N]; [done|].
      apply IH. by apply elem_of_cons in P as [[= -> ->]|P]. }
    rewrite K. cbn [negb]. assert (S' : says ks (setPath layer p (flag_raw v)) (Some (flag_raw v))) by (apply says_set_same with r; [apply split_nonempty|done..]).
    apply IH in S'. by destruct (flag_of flags p).
  - destruct (has_key f paths) eqn:K; cbn [negb].
    + assert (Q : exists m, (f, m) ∈ paths).
      { unfold has_key in K. clear -K. induction paths as [|[q m] l IH]; [done|]. cbn in K. destruct (seq_eqbP q f) as [->|N]; [exists m; left|].
        destruct (IH K) as [m' H]. exists m'. by right. }
      destruct Q as [m Q]. assert (A : apart (split dot f) ks = true) by (destruct (distinct_spec _ _ _ _ D P Q) as (_ & _ & [X|X]); done).
      pose proof (IH (setPath layer f (flag_raw v)) r (says_set_apart _ _ _ _ _ A L S)) as H. by destruct (flag_of flags p).
    + pose proof (IH layer r S) as H. by destruct (flag_of flags p).
Qed.
End precedence.

Lemma says_nil ks : ks <> [] -> says ks [] None.
Proof. intros K. split; [apply tidy_nil|by destruct ks]. Qed.

(** *** The keys of a type

    A key as it is met in the type, by the names on the way: a struct's fields,
    and the entries that a map has in the file. *)
Inductive location : ctype -> raw_map -> list gostring -> Prop :=
| loc_ptr e base ks : location e base ks -> location (TPtr e) base ks
| loc_leaf fs base f ft : (f, ft) ∈ fs -> isLeaf ft = true -> location (TStruct fs) base [f_key f]
| loc_section fs base f ft ks : (f, ft) ∈ fs -> isSection ft = true -> location ft (subtree base (f_key f)) ks -> location (TStruct fs) base (f_key f :: ks)
| loc_entry fs base f ft b et k : (f, ft) ∈ fs -> deref ft = TMap b et -> has_key k (subtree base (f_key f)) = true -> isLeaf et = true -> location (TStruct fs) base [f_key f; k]
| loc_entry_section fs base f ft b et k ks : (f, ft) ∈ fs -> deref ft = TMap b et -> has_key k (subtree base (f_key f)) = true -> isSection et = true ->
    location et (subtree (subtree base (f_key f)) k) ks -> location (TStruct fs) base (f_key f :: k :: ks).

Definition path_from (path : gostring) (ks : list gostring) : gostring := fold_left join_path ks path.

(** What one field of a struct adds to the settable paths. *)
Definition field_leaves (prefix path : gostring) (base : raw_map) (x : field * ctype) : list (gostring * gostring) :=
  let p := join_path path (f_key x.1) in
  if isLeaf x.2 then [(p, EnvName prefix p)]
  else if isSection x.2 then leaves x.2 prefix p (subtree base (f_key x.1))
  else match deref x.2 with
       | TMap _ et => flat_map (fun k => if isSection et then leaves et prefix (join_path p k) (subtree (subtree base (f_key x.1)) k)
                                        else if isLeaf et then [(join_path p k, EnvName prefix (join_path p k))] else []) (sorted_keys (subtree base (f_key x.1)))
       | _ => []
       end.

Lemma leaves_struct fs prefix path base : leaves (TStruct fs) prefix path base = flat_map (field_leaves prefix path base) fs.
Proof.
  induction fs as [|[f ft] fs IH]; [done|]. cbn [flat_map]. rewrite <- IH. cbn [leaves]. f_equal. unfold field_leaves. cbn [fst snd].
  destruct (isLeaf ft); [done|]. destruct (isSection ft); [done|]. clear. induction ft as [| | | |e IH| |] using ctype_ind'; done.
Qed.

Lemma elem_sorted_keys k (m : raw_map) : has_key k m = true -> In k (sorted_keys m).
Proof.
  intros H. apply list_elem_of_In. unfold sorted_keys. rewrite merge_sort_Permutation. destruct (decide (k ∈ map fst m)) as [|N]; [done|]. unfold has_key in H. by rewrite mget_none in H.
Qed.

(** Every key has its variable. *)
Lemma location_leaves t prefix base ks : location t base ks -> forall path, In (path_from path ks, EnvName prefix (path_from path ks)) (leaves t prefix path base).
Proof.
  assert (LS : forall ft, isSection ft = true -> isLeaf ft = false) by (intros ft; unfold isSection, isLeaf; by destruct (deref ft)).
  assert (LM : forall ft b et, deref ft = TMap b et -> isLeaf ft = false /\ isSection ft = false) by (intros ft b et E; unfold isSection, isLeaf; by rewrite E).
  induction 1 as [e base ks _ IH|fs base f ft I L|fs base f ft ks I Se _ IH|fs base f ft b et k I E H L|fs base f ft b et k ks I E H Se _ IH]; intros path; [by apply IH|..];
    rewrite leaves_struct; apply in_flat_map; exists (f, ft); (split; [by apply list_elem_of_In|]); unfold field_leaves; cbn [fst snd].
  - rewrite L. by left.
  - rewrite (LS _ Se), Se. apply IH.
  - destruct (LM _ _ _ E) as [-> ->]. rewrite E. apply in_flat_map. exists k. split; [by apply elem_sorted_keys|].
    rewrite L. replace (isSection et) with false; [by left|]. destruct (isSection et) eqn:Se; [|done]. by rewrite (LS _ Se) in L.
  - destruct (LM _ _ _ E) as [-> ->]. rewrite E. apply in_flat_map. exists k. split; [by apply elem_sorted_keys|]. rewrite Se. apply (IH (join_path (join_path path (f_key f)) k)).
Qed.

(** Names that a dotted path can tell apart. *)
Definition plain_key (k : gostring) : bool := negb (seq_eqb k []) && negb (bool_decide (dot ∈ k)).

Lemma plain_key_spec k : plain_key k = true -> k <> [] /\ dot ∉ k.
Proof.
  unfold plain_key. destruct (seq_eqbP k []); [done|]. cbn. rewrite negb_true_iff, bool_decide_eq_false. done.
Qed.

Lemma split_path_from path ks : path <> [] -> forallb plain_key ks = true -> dot ∉ path -> split dot (path_from path ks) = path :: ks.
Proof.
  assert (G : forall ks path, path <> [] -> forallb plain_key ks = true -> split dot (path_from path ks) = split dot path ++ ks).
  { clear path ks. induction ks as [|k ks IH]; intros path N K; [by rewrite app_nil_r|]. cbn [forallb] in K. apply andb_true_iff in K as [K1 K2]. destruct (plain_key_spec _ K1) as [Nk Dk].
    unfold path_from. cbn [fold_left]. fold (path_from (join_path path k) ks). unfold join_path. destruct (seq_eqbP path []) as [|_]; [done|].
    rewrite IH; [|by destruct path|done]. change (k :: ks) with ([k] ++ ks). rewrite (app_assoc (split dot path) [k] ks). f_equal. change ([dot] ++ k) with (dot :: k).
    clear -Dk. induction path as [|c path IH]; cbn [app].
    - cbn [split]. rewrite beq_refl. by rewrite split_no_sep.
    - cbn [split]. destruct (beq c dot); [by rewrite IH|]. rewrite IH. by destruct (split_cons dot path) as (q & qs & ->). }
  intros N K Dp. rewrite G, split_no_sep; done.
Qed.

(** [C31] The value a key gets is its flag's, else its environment variable's, else
    the file's; whatever the other flags, variables and keys say.  A key is met
    by the names on its way, none of which holds a dot (see
    dotted_entry_unread); the keys of the type have variables of their own, and
    paths none of which runs along another. *)
Theorem layers_precedence (t : ctype) (o : options) (tree : raw_map) (k : gostring) (ks : list gostring) :
  let p := path_from k ks in
  let n := EnvName (load_prefix o) p in
  location t tree (k :: ks) -> forallb plain_key (k :: ks) = true ->
  distinct (load_prefix o) (leaves t (load_prefix o) [] tree) = true -> n <> load_prefix o ++ str "_CONFIG" ->
  get_keys (k :: ks) (layers t o tree).1 =
    match flag_of (o_flags o) p, env_value (o_environ o) n with
    | Some v, _ => Some v
    | None, Some s => Some (RStr s)
    | None, None => get_keys (k :: ks) tree
    end.
Proof.
  intros p n L K D C. cbn [forallb] in K. apply andb_true_iff in K as [K1 K2]. destruct (plain_key_spec _ K1) as [Nk Dk].
  pose proof (location_leaves t (load_prefix o) tree (k :: ks) L []) as P. unfold path_from in P. cbn [fold_left] in P. change (join_path [] k) with k in P. fold (path_from k ks) in P. fold p n in P.
  apply list_elem_of_In in P. assert (E : split dot p = k :: ks) by by apply split_path_from. rewrite <- E.
  set (paths := leaves t (load_prefix o) [] tree) in *. unfold layers. fold paths. destruct (envLayer paths (load_prefix o) (o_environ o)) as [envTree ws] eqn:El. cbn [fst].
  assert (K : split dot p <> []) by apply split_nonempty.
  pose proof (flag_go_says _ paths p n D P (o_flags o) [] None (says_nil _ K)) as SF.
  pose proof (env_go_says _ paths p n D P C (o_environ o) [] [] None (says_nil _ K)) as SE.
  unfold envLayer in El. rewrite El in SE. cbn [fst] in SE. fold (flagLayer (o_flags o) paths) in SF.
  rewrite (says_merge _ _ _ _ SF), (says_merge _ _ _ _ SE). destruct (flag_of (o_flags o) p); [done|]. by destruct (env_value (o_environ o) n).
Qed.

(** A type with a section, a list and a map of sections, and what is said of it. *)
Definition sample_type : ctype :=
  TStruct [(Field (str "http") None false, TStruct [(Field (str "addr") (Some (str ":80")) false, TScalar KString); (Field (str "tags") None false, TSlice (TScalar KString))]);
           (Field (str "db") None false, TMap true (TStruct [(Field (str "dsn") None true, TScalar KString)]))].

Definition sample_tree : raw_map :=
  [(str "http", RMap [(str "addr", RStr (str ":8080"))]); (str "db", RMap [(str "main", RMap [(str "dsn", RStr (str "x"))])])].

Definition sample_options : options :=
  Options (str "app") [] [] [] [(str "http.addr", FText (str ":9"))] [str "APP_HTTP_ADDR=:1"; str "APP_DB_MAIN_DSN=y"; str "APP_HTTP_ADR=:2"] [].

Lemma layers_precedence_witness :
  get_keys [str "db"; str "main"; str "dsn"] (layers sample_type sample_options sample_tree).1 = Some (RStr (str "y")) /\
  get_keys [str "http"; str "addr"] (layers sample_type sample_options sample_tree).1 = Some (RStr (str ":9")).
Proof.
  split.
  - rewrite (layers_precedence sample_type sample_options sample_tree (str "db") [str "main"; str "dsn"]); try by vm_compute.
    eapply (loc_entry_section _ _ (Field (str "db") None false) _ true _ (str "main") [str "dsn"]); [right; left|done|done|done|].
    by apply (loc_leaf _ _ (Field (str "dsn") None true) (TScalar KString)); [left|].
  - rewrite (layers_precedence sample_type sample_options sample_tree (str "http") [str "addr"]); try by vm_compute.
    eapply (loc_section _ _ (Field (str "http") None false) _ [str "addr"]); [left|done|].
    by apply (loc_leaf _ _ (Field (str "addr") (Some (str ":80")) false) (TScalar KString)); [left|].
Defined.

(** An entry of a map whose name holds a dot: its variable makes another entry. *)
Example dotted_entry_unread :
  let t := TStruct [(Field (str "hosts") None false, TMap true (TScalar KString))] in
  let tree := [(str "hosts", RMap [(str "a.b", RStr (str "file"))])] in
  let o := Options (str "app") [] [] [] [] [str "APP_HOSTS_A_B=env"] [] in
  layers t o tree = ([(str "hosts", RMap [(str "a.b", RStr (str "file")); (str "a", RMap [(str "b", RStr (str "env"))])])], []).
Proof. vm_compute. reflexivity. Qed.

(** Two keys with one variable: it sets the one met last. *)
Example shared_variable :
  let t := TStruct [(Field (str "a_b") None false, TScalar KString); (Field (str "a") None false, TStruct [(Field (str "b") None false, TScalar KString)])] in
  leaves t (str "APP") [] [] = [(str "a_b", str "APP_A_B"); (str "a.b", str "APP_A_B")].
Proof. vm_compute. reflexivity. Qed.

(** ** Types *)

Definition scalar_of (k : kind) (s : scalar) : bool :=
  match k, s with
  | KString, SString _ | KBool, SBool _ | KFloat _, SFloat _ => true
  | KInt bits, SInt n => (- 2 ^ (bits - 1) <=? n) && (n <? 2 ^ (bits - 1))
  | KUint bits, SInt n => (0 <=? n) && (n <? 2 ^ bits)
  | KDuration, SDuration d => (MinInt64 <=? d) && (d <=? MaxInt64)
  | KText id, SText id' _ => Nat.eqb id id'
  | _, _ => false
  end.

(** A value of a type: a struct has its keys in their order, each of its type. *)
Fixpoint typed (t : ctype) (v : value) : bool :=
  match t, v with
  | TScalar k, VScalar s => scalar_of k s
  | TStruct fs, VStruct l =>
      (fix go (fs : list (field * ctype)) (l : list (gostring * value)) : bool :=
        match fs, l with
        | [], [] => true
        | (f, ft) :: fs', (k, x) :: l' => seq_eqb (f_key f) k && typed ft x && go fs' l'
        | _, _ => false
        end) fs l
  | TMap _ e, VMap l => forallb (fun x => typed e x.2) l
  | TSlice e, VSlice l => forallb (typed e) l
  | TPtr e, VPtr (Some x) => typed e x
  | TPtr _, VPtr None => true
  | TAny, VAny _ => true
  | TOther, VOther => true
  | _, _ => false
  end.

(** A type whose structs name a key once, and whose widths are Go's. *)
Fixpoint sound (t : ctype) : bool :=
  match t with
  | TScalar (KInt bits) | TScalar (KUint bits) => 0 <? bits
  | TScalar _ | TAny | TOther => true
  | TStruct fs =>
      bool_decide (NoDup (map (fun p => f_key p.1) fs)) && (fix go (fs : list (field * ctype)) := match fs with [] => true | p :: fs' => sound p.2 && go fs' end) fs
  | TMap _ e | TSlice e | TPtr e => sound e
  end.

(** No key of the tree is unknown to the type. *)
Fixpoint covered (t : ctype) (r : raw) : bool :=
  match r with
  | RNil => true
  | _ =>
      match t with
      | TPtr e => covered e r
      | TScalar _ => match r with RStr _ => true | _ => false end
      | TStruct fs =>
          match r with
          | RMap m =>
              forallb (fun k => existsb (seq_eqb k) (map (fun p => f_key p.1) fs)) (map fst m) &&
              (fix go (fs : list (field * ctype)) : bool :=
                match fs with [] => true | (f, ft) :: fs' => match mget (f_key f) m with Some x => covered ft x | None => true end && go fs' end) fs
          | _ => false
          end
      | TMap ok e => ok && match r with RMap m => forallb (fun k => covered e (default RNil (mget k m))) (map fst m) | _ => false end
      | TSlice e => match r with RList l => forallb (covered e) l | RStr _ => isScalar (deref e) | _ => false end
      | TAny => true
      | TOther => false
      end
  end.

Section decoding.
Context (ParseInt ParseUint : Z -> gostring -> option Z) (ParseFloat : Z -> gostring -> option gostring) (ParseDuration : gostring -> option Z)
  (UnmarshalText : nat -> gostring -> bool).
(** strconv and time give numbers that fit. *)
Hypotheses (HInt : forall bits s n, ParseInt bits s = Some n -> - 2 ^ (bits - 1) <= n < 2 ^ (bits - 1))
  (HUint : forall bits s n, ParseUint bits s = Some n -> 0 <= n < 2 ^ bits)
  (HDuration : forall s d, ParseDuration s = Some d -> MinInt64 <= d <= MaxInt64).

Notation decode := (decode ParseInt ParseUint ParseFloat ParseDuration UnmarshalText).

Lemma parse_scalar_typed k s x : parse_scalar ParseInt ParseUint ParseFloat ParseDuration UnmarshalText k s = Some x -> scalar_of k x = true.
Proof.
  destruct k; cbn; intros E; [by injection E as <-|..].
  - destruct (ParseBool s); [by injection E as <-|done].
  - destruct (ParseInt bits s) eqn:N; [injection E as <-|done]. apply HInt in N. cbn. lia.
  - destruct (ParseUint bits s) eqn:N; [injection E as <-|done]. apply HUint in N. cbn. lia.
  - destruct (ParseFloat bits s); [by injection E as <-|done].
  - destruct (ParseDuration s) eqn:N; [injection E as <-|done]. apply HDuration in N. cbn. lia.
  - destruct (UnmarshalText id s); [injection E as <-; cbn; apply Nat.eqb_refl|done].
Qed.

Lemma zero_typed t : sound t = true -> typed t (zero t) = true.
Proof.
  induction t as [k|fs IH|b e _|e _|e _| |] using ctype_ind'; intros S; try done.
  - destruct k; try done; cbn in *; [|..].
    + pose proof (Z.pow_pos_nonneg 2 (bits - 1)). lia.
    + pose proof (Z.pow_pos_nonneg 2 bits). lia.
    + apply Nat.eqb_refl.
  - cbn in *. apply andb_prop in S as [_ S]. induction IH as [|[f ft] fs H _ IHs]; cbn in *; [done|]. apply andb_prop in S as [S1 S2].
    destruct (seq_eqbP (f_key f) (f_key f)); [|done]. rewrite H by done. by apply IHs.
Qed.

(** What a struct's key holds has its type. *)
Lemma typed_get fs l f ft : typed (TStruct fs) (VStruct l) = true -> NoDup (map (fun p => f_key p.1) fs) -> (f, ft) ∈ fs ->
  exists x, mget (f_key f) l = Some x /\ typed ft x = true.
Proof.
  revert l. induction fs as [|[g gt] fs IH]; intros [|[k x] l] T N I; try done; [by apply elem_of_nil in I|]. cbn in T, N |- *.
  apply NoDup_cons in N as [N1 N2]. destruct (seq_eqbP (f_key g) k) as [<-|]; [|done]. cbn in T. apply andb_prop in T as [T1 T2].
  apply elem_of_cons in I as [[= -> ->]|I]; [destruct (seq_eqbP (f_key g) (f_key g)); [by exists x|done]|].
  destruct (seq_eqbP (f_key g) (f_key f)) as [E|]; [|by apply IH]. contradict N1. rewrite E. apply list_elem_of_In, (in_map (fun p => f_key p.1) fs (f, ft)). by apply list_elem_of_In.
Qed.

(** A field's part of a struct's decoding. *)
Definition field_step (path : gostring) (m : raw_map) (old : list (gostring * value)) (p : field * ctype) : value * list problem :=
  let f := p.1 in let ft := p.2 in
  let cur := default (zero ft) (mget (f_key f) old) in
  match mget (f_key f) m with
  | Some RNil | None =>
      match f_def f with
      | Some d => decode (join_path path (f_key f)) (RStr d) ft cur
      | None => if is_struct ft then decode (join_path path (f_key f)) (RMap []) ft cur else (cur, [])
      end
  | Some x => decode (join_path path (f_key f)) x ft cur
  end.

Lemma decode_struct path m fs v : decode path (RMap m) (TStruct fs) v =
  let old := match v with VStruct l => l | _ => [] end in
  (VStruct (map (fun p => (f_key p.1, (field_step path m old p).1)) fs),
   flat_map (fun p => (field_step path m old p).2) fs ++ unknown_keys path (map (fun p => f_key p.1) fs) m).
Proof.
  cbn [Conf.decode]. set (old := match v with VStruct l => l | _ => [] end).
  match goal with |- (let '(l, ps) := ?g fs in _) = _ =>
    assert (E : g fs = (map (fun p => (f_key p.1, (field_step path m old p).1)) fs, flat_map (fun p => (field_step path m old p).2) fs)) end.
  { induction fs as [|[f ft] fs IH]; [done|]. cbn [map flat_map]. rewrite IH. unfold field_step; cbn [fst snd].
    match goal with |- (let '(_, _) := ?d in _) = _ => destruct d end. done. }
  by rewrite E.
Qed.

Lemma sound_fields fs f ft : sound (TStruct fs) = true -> (f, ft) ∈ fs -> sound ft = true /\ NoDup (map (fun p => f_key p.1) fs).
Proof.
  cbn. intros S I. apply andb_prop in S as [N S]. apply bool_decide_eq_true in N. split; [|done]. clear N.
  induction fs as [|p fs IH]; [by apply elem_of_nil in I|]. apply andb_prop in S as [S1 S2]. apply elem_of_cons in I as [<-|I]; [done|by apply IH].
Qed.

Lemma typed_struct fs g : (forall p, p ∈ fs -> typed p.2 (g p) = true) -> typed (TStruct fs) (VStruct (map (fun p => (f_key p.1, g p)) fs)) = true.
Proof.
  intros H. induction fs as [|[f ft] fs IH]; [done|]. cbn in *. destruct (seq_eqbP (f_key f) (f_key f)); [|done].
  pose proof (H (f, ft) ltac:(left)) as H1. cbn in H1. rewrite H1. apply IH. intros p I. apply H. by right.
Qed.

Lemma forallb_in {A} (q : A -> bool) l : (forall x, x ∈ l -> q x = true) -> forallb q l = true.
Proof. intros H. apply forallb_forall. intros x I. by apply H, list_elem_of_In. Qed.

(** Decoding leaves a value of its type, whatever the tree, and whatever
    problems it meets: integers within their width, a struct's keys in order. *)
Theorem decode_typed (t : ctype) (path : gostring) (r : raw) (v : value) :
  sound t = true -> typed t v = true -> typed t (decode path r t v).1 = true.
Proof.
  revert path r v. induction t as [k|fs IH|b e IH|e IH|e IH| |] using ctype_ind'; intros path r v S T.
  - destruct r as [|s|l|m]; try done. cbn. destruct (parse_scalar _ _ _ _ _ k s) eqn:P; [|done]. by apply parse_scalar_typed in P.
  - destruct r as [|s|l|m]; try done. destruct v as [|old| | | | |]; try done. rewrite decode_struct. cbn [fst]. apply typed_struct. intros [f ft] I.
    rewrite Forall_forall in IH. specialize (IH _ I). destruct (sound_fields _ _ _ S I) as [Sf N]. destruct (typed_get _ _ _ _ T N I) as (cur & G & Tc).
    unfold field_step. cbn [fst snd] in *. rewrite G. cbn [default].
    destruct (mget (f_key f) m) as [[]|]; try (by apply IH); (destruct (f_def f); [by apply IH|]); destruct (is_struct ft); try done; by apply IH.
  - destruct b; cbn [Conf.decode negb]; [|by destruct r]. destruct r as [|s|l|m]; try done. cbn [fst typed]. apply forallb_in. intros y I.
    rewrite map_map in I. apply list_elem_of_In, in_map_iff in I as (k & <- & _). cbn [fst snd]. apply IH; [done|by apply zero_typed].
  - assert (G : forall items, forallb (typed e) (map fst (imap (fun i x => decode (index_path path (Z.of_nat i)) (match x with RNil => if isSection e then RMap [] else RNil | _ => x end) e (zero e)) items)) = true).
    { intros items. apply forallb_in. intros y I. apply list_elem_of_In, in_map_iff in I as (z & <- & I). apply list_elem_of_In, elem_of_lookup_imap in I as (i & x & -> & _).
      apply IH; [done|by apply zero_typed]. }
    destruct r as [|s|l|m]; try done; cbn; [destruct (isScalar (deref e)); [|done]|]; apply G.
  - assert (G : forall r', typed (TPtr e) (let '(x, ps) := decode path r' e (match v with VPtr (Some x) => x | _ => zero e end) in (VPtr (Some x), ps)).1 = true).
    { intros r'. specialize (IH path r' (match v with VPtr (Some x) => x | _ => zero e end) S). destruct (decode path r' e _) as [x ps]. cbn [fst typed]. apply IH.
      destruct v as [| | | |[x'|]| |]; cbn in T |- *; try done; by apply zero_typed. }
    destruct r; try done; apply G.
  - by destruct r, v.
  - by destruct r.
Qed.

(** A map's entry, and a list's item, as they are decoded. *)
Definition entry_of_type (e : ctype) (x : raw) : raw := match x with RNil => if isSection e then RMap [] else RNil | _ => x end.

Lemma covered_entry e x : covered e (entry_of_type e x) = true -> covered e x = true.
Proof. destruct x; [by destruct e|done..]. Qed.

Lemma unknown_none path known m : unknown_keys path known m = [] -> forallb (fun k => existsb (seq_eqb k) known) (map fst m) = true.
Proof.
  unfold unknown_keys. intros U. apply forallb_in. intros k I. rewrite <- (merge_sort_Permutation str_le) in I. fold (sorted_keys m) in I.
  destruct (existsb (seq_eqb k) known) eqn:E; [done|]. assert (X : UnknownKey path k (suggest k known) ∈ flat_map (fun k => if existsb (seq_eqb k) known then [] else [UnknownKey path k (suggest k known)]) (sorted_keys m)).
  { apply list_elem_of_In, in_flat_map. exists k. split; [by apply list_elem_of_In|]. rewrite E. by left. }
  rewrite U in X. by apply elem_of_nil in X.
Qed.

Lemma flat_map_nil {A B} (g : A -> list B) l x : flat_map g l = [] -> x ∈ l -> g x = [].
Proof. intros F I. destruct (g x) as [|y ys] eqn:E; [done|]. assert (In y (flat_map g l)) as H by (apply in_flat_map; exists x; rewrite E; split; [by apply list_elem_of_In|by left]). by rewrite F in H. Qed.

(** A tree decoded without a problem has no key the type does not name, at
    any depth, and every value the shape its type wants. *)
Theorem decode_strict (t : ctype) (path : gostring) (r : raw) (v : value) : (decode path r t v).2 = [] -> covered t r = true.
Proof.
  revert path r v. induction t as [k|fs IH|b e IH|e IH|e IH| |] using ctype_ind'; intros path r v N.
  - by destruct r.
  - destruct r as [|s|l|m]; try done. rewrite decode_struct in N. cbn [snd] in N. apply app_eq_nil in N as [N U]. cbn [covered]. rewrite (unknown_none _ _ _ U). cbn [andb].
    set (old := match v with VStruct l => l | _ => [] end) in *. clearbody old. clear U. induction IH as [|[f ft] fs IH _ IHs]; [done|]. cbn [flat_map] in N. apply app_eq_nil in N as [N1 N2].
    rewrite IHs by done. rewrite andb_true_r. unfold field_step in N1. cbn [fst snd] in N1, IH. destruct (mget (f_key f) m) as [x|]; [|done].
    destruct x; [by destruct ft|by apply IH in N1..].
  - destruct r as [|s|l|m]; [done|destruct b; done..|]. destruct b; [|done]. cbn in N |- *. apply forallb_in. intros k I.
    rewrite <- (merge_sort_Permutation str_le) in I. fold (sorted_keys m) in I. apply (covered_entry e).
    rewrite flat_map_concat_map, map_map, <- flat_map_concat_map in N. by apply (flat_map_nil _ _ k N), IH in I.
  - destruct r as [|s|l|m]; try done; cbn in N |- *; [by destruct (isScalar (deref e))|]. apply forallb_in. intros x I. apply list_elem_of_lookup_1 in I as [i I]. apply (covered_entry e).
    assert (J : decode (index_path path (Z.of_nat i)) (entry_of_type e x) e (zero e) ∈ imap (fun i x => decode (index_path path (Z.of_nat i)) (entry_of_type e x) e (zero e)) l) by (apply elem_of_lookup_imap; eauto).
    by apply (flat_map_nil _ _ _ N), IH in J.
  - assert (G : r <> RNil -> (decode path r e (match v with VPtr (Some x) => x | _ => zero e end)).2 = []).
    { intros R. destruct r; [done|..]; cbn [Conf.decode] in N; match goal with N : (let '(_, _) := ?d in _).2 = _ |- _ => destruct d end; done. }
    destruct r; [done|..]; by apply (IH _ _ _ (G ltac:(done))).
  - by destruct r.
  - by destruct r.
Qed.
End decoding.

(** ** Dump *)

Section dumping.
Context (DurationString : Z -> gostring) (MarshalText : nat -> gostring -> gostring) (dump_other : node).

(** Two scalars an onlooker may not tell apart: the same, or both set and secret. *)
Definition alike (secret : bool) (a b : gostring * gostring) : Prop :=
  a = b \/ secret = true /\ a.2 <> [] /\ b.2 <> [].

Fixpoint raw_agree (secret : bool) (r r' : raw) : Prop :=
  match r, r' with
  | RStr a, RStr b => alike secret (str "!!str", a) (str "!!str", b)
  | RList l, RList l' => (fix go (l l' : list raw) : Prop := match l, l' with x :: l, x' :: l' => raw_agree secret x x' /\ go l l' | [], [] => True | _, _ => False end) l l'
  | RMap m, RMap m' => (fix go (m m' : raw_map) : Prop := match m, m' with (k, x) :: m, (k', x') :: m' => k = k' /\ raw_agree secret x x' /\ go m m' | [], [] => True | _, _ => False end) m m'
  | _, _ => r = r'
  end.

(** Two values that differ in what is secret alone: a field is secret that is
    tagged so, with all that is in it. *)
Fixpoint agree (t : ctype) (secret : bool) (v v' : value) : Prop :=
  match t, v, v' with
  | TScalar _, VScalar s, VScalar s' => alike secret (scalar_text DurationString MarshalText s) (scalar_text DurationString MarshalText s')
  | TStruct fs, VStruct l, VStruct l' =>
      (fix go (fs : list (field * ctype)) : Prop :=
        match fs with
        | [] => True
        | (f, ft) :: fs' => agree ft (secret || f_secret f) (default (zero ft) (mget (f_key f) l)) (default (zero ft) (mget (f_key f) l')) /\ go fs'
        end) fs
  | TMap _ e, VMap l, VMap l' =>
      sorted_keys l = sorted_keys l' /\ Forall (fun k => agree e secret (default (zero e) (mget k l)) (default (zero e) (mget k l'))) (sorted_keys l)
  | TSlice e, VSlice l, VSlice l' => Forall2 (agree e secret) l l'
  | TPtr e, VPtr (Some x), VPtr (Some x') => agree e secret x x'
  | TAny, VAny r, VAny r' => raw_agree secret r r'
  | _, _, _ => v = v'
  end.

(** No section is tagged secret: the tag is on values, and on lists, maps and
    pointers of values. *)
Fixpoint secrets_below (t : ctype) (secret : bool) : bool :=
  match t with
  | TStruct fs => negb secret && (fix go (fs : list (field * ctype)) : bool := match fs with [] => true | (f, ft) :: fs' => secrets_below ft (f_secret f) && go fs' end) fs
  | TMap _ e | TSlice e | TPtr e => secrets_below e secret
  | _ => true
  end.

Notation dumpValue := (dumpValue DurationString MarshalText dump_other).

Lemma dump_scalar_alike secret a b : alike secret a b -> dump_scalar secret a = dump_scalar secret b.
Proof.
  intros [->|(-> & A & B)]; [done|]. unfold dump_scalar. destruct (seq_eqbP a.2 []); [done|]. by destruct (seq_eqbP b.2 []).
Qed.

Section raw_ind'.
Context (P : raw -> Prop) (HNil : P RNil) (HStr : forall s, P (RStr s)) (HList : forall l, Forall P l -> P (RList l)) (HMap : forall m, Forall (fun kv => P kv.2) m -> P (RMap m)).

Fixpoint raw_ind' (r : raw) : P r :=
  match r with
  | RNil => HNil
  | RStr s => HStr s
  | RList l => HList l ((fix go (l : list raw) : Forall P l := match l with [] => Forall_nil_2 _ | x :: l' => Forall_cons_2 _ x l' (raw_ind' x) (go l') end) l)
  | RMap m => HMap m ((fix go (m : raw_map) : Forall (fun kv => P kv.2) m := match m with [] => Forall_nil_2 _ | kv :: m' => Forall_cons_2 _ kv m' (raw_ind' kv.2) (go m') end) m)
  end.
End raw_ind'.

Lemma dump_raw_agree secret r r' : raw_agree secret r r' -> dump_raw r secret = dump_raw r' secret.
Proof.
  revert r'. induction r as [|s|l IH|m IH] using raw_ind'; intros r' A; destruct r' as [|s'|l'|m']; try done; cbn [raw_agree dump_raw] in *.
  - by apply dump_scalar_alike.
  - f_equal. revert l' A. induction IH as [|x l Hx _ IHl]; intros [|x' l'] A; try done. destruct A as [A1 A2]. cbn. by rewrite (Hx _ A1), (IHl _ A2).
  - assert (E : map fst m = map fst m' /\ map (fun kv => (kv.1, dump_raw kv.2 secret)) m = map (fun kv => (kv.1, dump_raw kv.2 secret)) m').
    { revert m' A. induction IH as [|[k x] m Hx _ IHm]; intros [|[k' x'] m'] A; try done. destruct A as (<- & A1 & A2). cbn in Hx |- *.
      destruct (IHm _ A2) as [E1 E2]. by rewrite (Hx _ A1), E1, E2. }
    destruct E as [E1 E2]. rewrite E2. unfold sorted_keys. by rewrite E1.
Qed.

(** [C33] What --check-config prints does not depend on the secrets: two
    configurations that differ in the set values that fields tagged secret hold,
    their maps' keys and their lists' lengths apart, are printed alike.  No
    section is tagged secret: the tag of one is lost (secret_section_shown). *)
Theorem dump_masks (t : ctype) (secret : bool) (v v' : value) : secrets_below t secret = true -> agree t secret v v' -> dumpValue t v secret = dumpValue t v' secret.
Proof.
  revert secret v v'. induction t as [k|fs IH|b e IH|e IH|e IH| |] using ctype_ind'; intros secret v v' S A.
  - destruct v, v'; try (cbn in A; congruence). cbn in A |- *. by apply dump_scalar_alike.
  - destruct v as [|l| | | | |], v' as [|l'| | | | |]; try (cbn in A; congruence). cbn in S, A |- *. apply andb_true_iff in S as [N S]. apply negb_true_iff in N as ->. f_equal.
    induction IH as [|[f ft] fs IH _ IHs]; [done|]. destruct A as [A1 A2]. apply andb_true_iff in S as [S1 S2]. cbn [snd orb] in IH, A1. by rewrite (IH _ _ _ S1 A1), IHs.
  - destruct v as [| |l| | | |], v' as [| |l'| | | |]; try (cbn in A; congruence). cbn in S, A |- *. destruct A as [K A]. rewrite <- K. f_equal.
    apply map_ext_Forall. eapply Forall_impl; [exact A|]. intros k Ak. cbn in Ak |- *. by rewrite (IH _ _ _ S Ak).
  - destruct v as [| | |l| | |], v' as [| | |l'| | |]; try (cbn in A; congruence). cbn in S, A |- *. f_equal.
    induction A as [|x x' l l' Ax _ IHl]; [done|]. cbn. by rewrite (IH _ _ _ S Ax), IHl.
  - destruct v as [| | | |[x|]| |], v' as [| | | |[x'|]| |]; try (cbn in A; congruence). cbn in S, A |- *. by apply IH.
  - destruct v, v'; try (cbn in A; congruence). cbn in A |- *. by apply dump_raw_agree.
  - destruct v, v'; cbn in A; congruence.
Qed.
End dumping.

(** ** Loading *)

Section loading.
Context (ParseInt ParseUint : Z -> gostring -> option Z) (ParseFloat : Z -> gostring -> option gostring) (ParseDuration : gostring -> option Z)
  (UnmarshalText : nat -> gostring -> bool) (files : gostring -> file) (validateTree : ctype -> value -> list problem)
  (problem_le : problem -> problem -> Prop) `{!RelDecision problem_le} `{!EqDecision problem}.
Hypotheses (HInt : forall bits s n, ParseInt bits s = Some n -> - 2 ^ (bits - 1) <= n < 2 ^ (bits - 1))
  (HUint : forall bits s n, ParseUint bits s = Some n -> 0 <= n < 2 ^ bits)
  (HDuration : forall s d, ParseDuration s = Some d -> MinInt64 <= d <= MaxInt64).

Notation Load := (Load ParseInt ParseUint ParseFloat ParseDuration UnmarshalText files validateTree problem_le).
Notation decode := (decode ParseInt ParseUint ParseFloat ParseDuration UnmarshalText).

Lemma compact_nil l : compact l = [] -> l = [].
Proof.
  induction l as [|x l IH]; [done|]. cbn. destruct l as [|y l]; [done|]. destruct (decide (x = y)); [intros H; by apply IH in H|done].
Qed.

Lemma dedupe_nil l : dedupe problem_le l = [] -> l = [].
Proof.
  unfold dedupe. intros H. apply compact_nil in H. destruct l as [|x l]; [done|]. pose proof (merge_sort_Permutation problem_le (x :: l)) as P. rewrite H in P.
  by apply Permutation_nil in P.
Qed.
(** The variables of the application that name no key. *)
Lemma env_go_warns paths prefix environ layer warnings name :
  name ∈ map w_name (env_go paths prefix environ layer warnings).2 <->
  name ∈ map w_name warnings \/
  exists val, (name, val, true) ∈ map (cut "=") environ /\ has_prefix (prefix ++ str "_") name = true /\ name <> prefix ++ str "_CONFIG" /\ path_of_env paths name = None.
Proof.
  revert layer warnings. induction environ as [|kv environ IH]; intros layer warnings; cbn [env_go map].
  { split; [by left|]. intros [H|(v & H & _)]; [done|by apply elem_of_nil in H]. }
  destruct (cut "=" kv) as [[n v] ok]. destruct (_ || _ || _) eqn:Skip; [|destruct (path_of_env paths n) as [q|] eqn:Q].
  - rewrite IH. split; (intros [H|(w & H & P)]; [by left|right; exists w; split; [|done]]); [by right|]. apply elem_of_cons in H as [[= -> -> <-]|H]; [|done].
    destruct P as (P1 & P2 & _). rewrite P1 in Skip. cbn [negb orb] in Skip. by destruct (seq_eqbP n (prefix ++ str "_CONFIG")).
  - rewrite IH. split; (intros [H|(w & H & P)]; [by left|right; exists w; split; [|done]]); [by right|]. apply elem_of_cons in H as [[= -> -> <-]|H]; [|done]. destruct P as (_ & _ & P). congruence.
  - rewrite IH, map_app, elem_of_app. cbn [map w_name]. apply orb_false_elim in Skip as [Skip NC]. apply orb_false_elim in Skip as [Ok Px]. apply negb_false_iff in Ok as ->. apply negb_false_iff in Px.
    split.
    + intros [[H|H]|(w & H & P)]; [by left| |right; exists w; split; [by right|done]]. apply list_elem_of_singleton in H as ->. right. exists v. split; [by left|]. split; [done|]. split; [|done].
      by destruct (seq_eqbP n (prefix ++ str "_CONFIG")).
    + intros [H|(w & H & P)]; [left; by left|]. apply elem_of_cons in H as [[= -> ->]|H]; [left; right; by apply list_elem_of_singleton|]. right. by exists w.
Qed.

(** [C32] A configuration that loads is of its type, integers within their width,
    and passed validation.  The tree that the file, the environment and the
    flags make together has no key the type does not name - what the file sets
    to null, and what a layer above replaces, is not in it (null_key_unchecked)
    - and a variable under the application's prefix that names no key is among
    the warnings, where the load is not of some sections alone.  One that does
    not load names a problem or the file. *)
Theorem load_sound (t : ctype) (o : options) : sound t = true ->
  match Load t o with
  | Ok l =>
      exists tree, read_file files o (load_prefix o) = Ok (tree, l_file l) /\ typed t (l_value l) = true /\
        covered t (RMap (layers t o tree).1) = true /\ l_value l = (decode [] (RMap (layers t o tree).1) t (zero t)).1 /\ validateTree t (l_value l) = [] /\
        (o_only o = [] -> forall name, name ∈ map w_name (l_warnings l) <->
           exists val, (name, val, true) ∈ map (cut "=") (o_environ o) /\ has_prefix (load_prefix o ++ str "_") name = true /\
             name <> load_prefix o ++ str "_CONFIG" /\ forall p, (p, name) ∉ leaves t (load_prefix o) [] tree)
  | Err (Problems ps) => ps <> []
  | Err e => read_file files o (load_prefix o) = Err e
  end.
Proof.
  intros S. unfold Conf.Load. destruct (read_file files o (load_prefix o)) as [[tree path]|e] eqn:R; cbn.
  - destruct (layers t o tree) as [tr ws] eqn:L. destruct (decode [] (RMap tr) t (zero t)) as [out ps] eqn:E.
    assert (T : typed t out = true).
    { replace out with (decode [] (RMap tr) t (zero t)).1 by by rewrite E. by apply decode_typed, zero_typed. }
    assert (D : forall x, x <> [] -> dedupe problem_le x <> []) by (intros x N D; by apply dedupe_nil in D).
    destruct ps as [|p ps]; [|by apply D]. destruct (validateTree t out) as [|q qs] eqn:V; [|by apply D]. exists tree. cbn [l_value l_file l_warnings]. rewrite L. cbn [fst]. rewrite E.
    split; [done|]. split; [done|]. split; [|split; [done|split; [done|]]].
    + apply (decode_strict ParseInt ParseUint ParseFloat ParseDuration UnmarshalText t [] _ (zero t)). cbn [fst]. by rewrite E.
    + intros On name. replace ws with (envLayer (leaves t (load_prefix o) [] tree) (load_prefix o) (o_environ o)).2.
      2: { unfold layers in L. rewrite On in L. destruct (envLayer _ _ _). injection L as _ <-. done. }
      unfold envLayer. rewrite env_go_warns. split.
      * intros [H|(v & H1 & H2 & H3 & H4)]; [by apply elem_of_nil in H|]. exists v. split_and!; try done. intros p P. by apply path_of_env_some in P.
      * intros (v & H1 & H2 & H3 & H4). right. exists v. split_and!; try done. destruct (path_of_env _ name) as [q|] eqn:Q; [|done]. by apply path_of_env_in, H4 in Q.
  - destruct e; try done. exfalso. revert R. unfold read_file. destruct (locate files o (load_prefix o)) as [p e]. destruct (seq_eqb p []); [done|].
    destruct (files p); try done; [|by destruct e]. by destruct (parseYAML doc []) as [[? ?]|].
Qed.
End loading.

(** *** Merge keys *)

Lemma fill_mget k out m : mget k (fill out m) = match mget k out with Some v => Some v | None => mget k m end.
Proof.
  unfold fill. revert out. induction m as [|[k1 v] m IH]; intros out; cbn; [by destruct (mget k out)|]. rewrite IH. unfold has_key.
  destruct (mget k1 out) eqn:K; [destruct (mget k out) eqn:O; [done|]; destruct (seq_eqbP k1 k); [congruence|done]|].
  rewrite mget_app. destruct (mget k out) eqn:O; [done|]. cbn. by destruct (seq_eqbP k1 k).
Qed.

(** A key of a mapping with merge keys: its own value, else the first merge's
    that has it. *)
Lemma merge_keys_first k out ms : mget k (fold_left fill ms out) = match mget k out with Some v => Some v | None => mget k (concat ms) end.
Proof.
  revert out. induction ms as [|m ms IH]; intros out; cbn; [by destruct (mget k out)|]. rewrite IH, fill_mget, mget_app. by destruct (mget k out).
Qed.

(** ** Examples *)

Definition sample_int (bits : Z) (s : gostring) : option Z :=
  n ← atoi s; if (- 2 ^ (bits - 1) <=? n) && (n <? 2 ^ (bits - 1)) then Some n else None.
Definition sample_uint (bits : Z) (s : gostring) : option Z := n ← atoi s; if (0 <=? n) && (n <? 2 ^ bits) then Some n else None.
Definition sample_duration (s : gostring) : option Z := n ← atoi s; if (MinInt64 <=? n) && (n <=? MaxInt64) then Some n else None.

Lemma sample_int_fits bits s n : sample_int bits s = Some n -> - 2 ^ (bits - 1) <= n < 2 ^ (bits - 1).
Proof. unfold sample_int. destruct (atoi s) as [m|]; cbn; [|done]. destruct (_ && _) eqn:E; [intros [= <-]; lia|done]. Qed.

Lemma sample_uint_fits bits s n : sample_uint bits s = Some n -> 0 <= n < 2 ^ bits.
Proof. unfold sample_uint. destruct (atoi s) as [m|]; cbn; [|done]. destruct (_ && _) eqn:E; [intros [= <-]; lia|done]. Qed.

Lemma sample_duration_fits s n : sample_duration s = Some n -> MinInt64 <= n <= MaxInt64.
Proof. unfold sample_duration. destruct (atoi s) as [m|]; cbn; [|done]. destruct (_ && _) eqn:E; [intros [= <-]; lia|done]. Qed.

Definition ports_type : ctype := TStruct [(Field (str "port") (Some (str "80")) false, TScalar (KInt 8)); (Field (str "hosts") None false, TMap true (TSlice (TScalar KString)))].

Lemma decode_typed_witness :
  let d := decode sample_int sample_uint (fun _ s => Some s) sample_duration (fun _ _ => true) [] (RMap [(str "port", RStr (str "300")); (str "prot", RStr (str "1"))]) ports_type (zero ports_type) in
  typed ports_type d.1 = true /\ d.2 = [BadScalar (str "port") (str "300"); UnknownKey [] (str "prot") (Some (str "port"))].
Proof.
  split.
  - apply (decode_typed sample_int sample_uint (fun _ s => Some s) sample_duration (fun _ _ => true) sample_int_fits sample_uint_fits sample_duration_fits); by vm_compute.
  - by vm_compute.
Defined.

Lemma decode_strict_witness :
  covered ports_type (RMap [(str "port", RStr (str "8")); (str "hosts", RMap [(str "a", RStr (str "x, y"))])]) = true.
Proof.
  apply (decode_strict sample_int sample_uint (fun _ s => Some s) sample_duration (fun _ _ => true) ports_type [] _ (zero ports_type)). by vm_compute.
Defined.

Definition secret_type : ctype := TStruct [(Field (str "user") None false, TScalar KString); (Field (str "password") None true, TScalar KString)].
Definition a_login (u p : string) : value := VStruct [(str "user", VScalar (SString (str u))); (str "password", VScalar (SString (str p)))].

Lemma dump_masks_witness :
  dumpValue (fun _ => []) (fun _ s => s) null_node secret_type (a_login "me" "one") false = dumpValue (fun _ => []) (fun _ s => s) null_node secret_type (a_login "me" "two") false.
Proof.
  apply dump_masks; [reflexivity|]. cbn. split; [by left|]. split; [|done]. right. by vm_compute.
Defined.

(** A section tagged secret is printed: its keys answer for themselves. *)
Example secret_section_shown :
  dumpValue (fun _ => []) (fun _ s => s) null_node (TStruct [(Field (str "smtp") None true, TStruct [(Field (str "password") None false, TScalar KString)])])
    (VStruct [(str "smtp", VStruct [(str "password", VScalar (SString (str "hunter2")))])]) false
  = NMapping [(key_node (str "smtp"), NMapping [(key_node (str "password"), NScalar (str "!!str") (str "hunter2") 0)] 0)] 0.
Proof. by vm_compute. Qed.

#[export] Instance problem_eq_dec : EqDecision problem.
Proof. solve_decision. Defined.
Definition any_order (p q : problem) : Prop := True.
#[export] Instance any_order_dec : RelDecision any_order := fun _ _ => left I.

Definition sample_files (p : gostring) : file :=
  if seq_eqb p (str "chok.yaml") then FileDoc (NMapping [(NScalar (str "!!str") (str "port") 1, NScalar (str "!!int") (str "8") 1)] 1) else FileMissing.
Definition plain_options (environ : list gostring) : options := Options (str "app") [] [] [] [] environ [].

Lemma load_sound_witness :
  exists tree, read_file sample_files (plain_options [str "APP_PORT=9"]) (str "APP") = Ok (tree, str "chok.yaml") /\
    covered ports_type (RMap (layers ports_type (plain_options [str "APP_PORT=9"]) tree).1) = true.
Proof.
  pose proof (load_sound sample_int sample_uint (fun _ s => Some s) sample_duration (fun _ _ => true) sample_files (fun _ _ => []) any_order
    sample_int_fits sample_uint_fits sample_duration_fits ports_type (plain_options [str "APP_PORT=9"]) eq_refl) as H.
  assert (L : Load sample_int sample_uint (fun _ s => Some s) sample_duration (fun _ _ => true) sample_files (fun _ _ => []) any_order ports_type (plain_options [str "APP_PORT=9"])
    = Ok (Loaded (VStruct [(str "port", VScalar (SInt 9)); (str "hosts", VMap [])]) (str "chok.yaml") [])) by (vm_compute; reflexivity).
  rewrite L in H. destruct H as (tree & R & _ & C & _). exists tree. split; [exact R|exact C].
Defined.

(** An unknown key that the file gives no value is no problem: nulls are dropped
    before keys are checked. *)
Example null_key_unchecked :
  let files p := if seq_eqb p (str "chok.yaml") then FileDoc (NMapping [(NScalar (str "!!str") (str "prot") 1, NScalar (str "!!null") [] 1)] 1) else FileMissing in
  match Load sample_int sample_uint (fun _ s => Some s) sample_duration (fun _ _ => true) files (fun _ _ => []) any_order ports_type (plain_options [str "APP_PROT=9"]) with
  | Ok l => map w_name (l_warnings l) = [str "APP_PROT"] | Err _ => False
  end.
Proof. vm_compute. reflexivity. Qed.
