(* ===== verification/Mail.v ===== *)
(** Package mail: how a message is composed (message.go), where its body comes
    from (template.go), how it leaves (transport.go), and how a mailer is built
    and used (mail.go, config.go).

    net/mail's addresses, the template engines, quoted-printable, base64 and the
    media types of mime are arguments; so are the answers of a relay and of the
    file system, and what crypto/rand and the clock gave.  RFC 2047's Q encoding
    and the header keys of net/textproto are written out.  A map of headers is
    its list of keys and values: where the code walks it, it does so in some
    order, here the list's. *)

From Stdlib Require Import ZArith Lia List Ascii.
From stdpp Require Import base decidable list sorting strings.
From S2P Require Import Prelude GoStrings GoMaps Utf8.

Definition cr : ascii := ascii_of_nat 13.
Definition lf : ascii := ascii_of_nat 10.
Definition crlf : gostring := [cr; lf].

(** ** Header text: mime.QEncoding *)

Definition printable (c : ascii) : bool := (32 <=? byte_val c) && (byte_val c <=? 126).

Definition needsEncoding (s : gostring) : bool := existsb (fun c => negb (printable c) && negb (byte_val c =? 9)) s.

Definition upper_hex (d : Z) : ascii := nth (Z.to_nat d) (str "0123456789ABCDEF") "0"%char.

(** A byte that stands for itself in an encoded word. *)
Definition q_plain (c : ascii) : bool := printable c && negb (beq c "=") && negb (beq c "?") && negb (beq c "_").

Definition q_byte (c : ascii) : gostring :=
  if beq c " " then ["_"%char] else if q_plain c then [c] else ["="%char; upper_hex (byte_val c / 16); upper_hex (byte_val c mod 16)].

Fixpoint conts (k : nat) (lo hi : Z) (s : gostring) : bool :=
  match k, s with O, _ => true | S k', d :: s' => cont lo hi d && conts k' 0x80 0xBF s' | _, [] => false end.

(** The length utf8.DecodeRuneInString gives. *)
Definition rune_len (s : gostring) : nat :=
  match s with
  | [] => 0
  | c :: s' => match rune_start c with Some (k, (lo, hi)) => if conts k lo hi s' then S k else 1 | None => 1 end
  end.

Definition open_word : gostring := str "=?utf-8?q?".
Definition close_word : gostring := str "?=".

(** qEncode: a word holds at most 63 characters between its marks; [skip] bytes
    of the rune begun are left. *)
Fixpoint q_go (skip : nat) (cur : Z) (s : gostring) : gostring :=
  match s with
  | [] => []
  | c :: s' =>
      match skip with
      | S k => q_byte c ++ q_go k cur s'
      | O =>
          let n := if q_plain c then 1%nat else rune_len s in
          let enc := if q_plain c then 1 else 3 * Z.of_nat n in
          if 63 <? cur + enc then close_word ++ " "%char :: open_word ++ q_byte c ++ q_go (n - 1) enc s'
          else q_byte c ++ q_go (n - 1) (cur + enc) s'
      end
  end.

Definition encodeText (s : gostring) : gostring := if needsEncoding s then open_word ++ q_go 0 0 s ++ close_word else s.

Definition oneLine (s : gostring) : gostring := join [" "%char] (fields s).

(** ** Header fields *)

(** net/textproto's token characters, and its canonical keys. *)
Definition letter (c : ascii) : bool := let b := byte_val c in (97 <=? b) && (b <=? 122) || (65 <=? b) && (b <=? 90).
Definition token_byte (c : ascii) : bool :=
  letter c || (48 <=? byte_val c) && (byte_val c <=? 57) || existsb (beq c) (str "!#$%&'*+-.^_`|~").

Definition upper_case (c : ascii) : ascii := let b := byte_val c in if (97 <=? b) && (b <=? 122) then ascii_of_N (Z.to_N (b - 32)) else c.

Fixpoint canonical_go (upper : bool) (s : gostring) : gostring :=
  match s with [] => [] | c :: s' => (if upper then upper_case c else lower_byte c) :: canonical_go (beq c "-") s' end.

Definition CanonicalMIMEHeaderKey (s : gostring) : gostring := if forallb token_byte s then canonical_go true s else s.

Definition foldWidth : Z := 76.

(** [writeField]'s loop over the words. *)
Fixpoint fold_words (width : Z) (words : list gostring) : gostring :=
  match words with
  | [] => crlf
  | word :: words' =>
      let n := Z.of_nat (length word) in
      if (foldWidth <? width + 1 + n) && (1 <? width) then crlf ++ " "%char :: word ++ fold_words (0 + 1 + n) words'
      else " "%char :: word ++ fold_words (width + 1 + n) words'
  end.

Definition writeField (b name value : gostring) : gostring :=
  b ++ name ++ ":"%char :: fold_words (Z.of_nat (length name) + 1) (split " " value).

Definition validFieldName (k : gostring) : bool :=
  negb (seq_eqb k []) && forallb (fun c => negb ((byte_val c <=? 32) || (126 <? byte_val c) || beq c ":")) k.

Definition protected : list gostring := map str ["Bcc"; "Cc"; "Date"; "From"; "Message-Id"; "Mime-Version"; "Subject"; "To"]%string.

Inductive mail_error :=
| BadAddress (field s : gostring) | NoRecipient | BadFieldName (k : gostring) | OwnHeader (k : gostring) | SpansLines (k : gostring) | TwiceHeader (k : gostring)
| NoBody | BadAttachment (name : gostring) | BadInline (name : gostring) | BadContentType (name ct : gostring)
| TwoBodies | NoTemplates (name : gostring) | NoTemplate (name : gostring) | TemplateFailed (name : gostring)
| BadTemplate (path : gostring) | SharedName (path other : gostring) | WalkFailed | EmptyTemplates.

(** [extraFields]' loop. *)
Fixpoint extra_go (l out : list (gostring * gostring)) : result mail_error (list (gostring * gostring)) :=
  match l with
  | [] => Ok out
  | (k, v) :: l' =>
      if negb (validFieldName k) then Err (BadFieldName k)
      else
        let ck := CanonicalMIMEHeaderKey k in
        if existsb (seq_eqb ck) protected || has_prefix (str "Content-") ck then Err (OwnHeader k)
        else if existsb (fun c => beq c cr || beq c lf) v then Err (SpansLines k)
        else if has_key ck out then Err (TwiceHeader ck)
        else extra_go l' (mset ck (encodeText v) out)
  end.

Definition extraFields (l : list (gostring * gostring)) : result mail_error (list (gostring * gostring)) := extra_go l [].

(** ** Messages *)

Record address := Address { a_name : gostring; a_addr : gostring }.

Record attachment := Attachment { Name : gostring; ContentType : gostring; Content : gostring; Inline : bool }.

Record message {D : Type} := Message {
  To : list gostring; Cc : list gostring; Bcc : list gostring; Subject : gostring; Text : gostring; HTML : gostring;
  Template : gostring; Data : option D; Headers : list (gostring * gostring); Attachments : list attachment;
}.
Arguments message : clear implicits.

Record part := Part { header : list (gostring * gostring); body : gostring }.

Section compose.
Context (ParseAddress : gostring -> option address) (AddrString : address -> gostring).
Context (quoted_printable base64 : gostring -> gostring) (TypeByExtension : gostring -> gostring).
Context (ParseMediaType : gostring -> option (gostring * list (gostring * gostring))) (FormatMediaType : gostring -> list (gostring * gostring) -> gostring).
(** What crypto/rand and the clock gave: the id, a boundary per subtype, the date. *)
Context (message_id : gostring) (boundary : gostring -> gostring) (date : gostring).
Context {D : Type}.
Notation message := (message D).

Fixpoint addresses (field : gostring) (l : list gostring) : result mail_error (list address) :=
  match l with
  | [] => Ok []
  | s :: l' => match ParseAddress s with Some a => let? r := addresses field l' in Ok (a :: r) | None => Err (BadAddress field s) end
  end.

Definition add_once (out : list gostring) (a : address) : list gostring := if existsb (seq_eqb (a_addr a)) out then out else out ++ [a_addr a].

Definition recipients (msg : message) : result mail_error (list gostring) :=
  let? to := addresses (str "to") (To msg) in
  let? cc := addresses (str "cc") (Cc msg) in
  let? bcc := addresses (str "bcc") (Bcc msg) in
  let out := fold_left add_once (to ++ cc ++ bcc) [] in
  match out with [] => Err NoRecipient | _ => Ok out end.

Definition joinAddresses (l : list address) : gostring := join (str ", ") (map AddrString l).

(** path.Ext, of a name. *)
Definition path_ext (s : gostring) : gostring :=
  let r := rev s in
  let i := index_byte "." r in let j := index_byte "/" r in
  if (i <? 0) || (0 <=? j) && (j <? i) then [] else rev (take (S (Z.to_nat i)) r).

Definition control (c : ascii) : bool := (byte_val c <? 32) || (byte_val c =? 127).

Definition crlf_free (s : gostring) : bool := forallb (fun c => negb (beq c cr) && negb (beq c lf)) s.

Fixpoint base64_lines (fuel : nat) (enc : gostring) : gostring :=
  match fuel with
  | O => enc ++ crlf
  | S fuel' => if (76 <? length enc)%nat then take 76 enc ++ crlf ++ base64_lines fuel' (drop 76 enc) else enc ++ crlf
  end.

Definition base64Lines (b : gostring) : gostring := base64_lines (length (base64 b)) (base64 b).

Definition attachmentPart (a : attachment) : result mail_error part :=
  if seq_eqb (Name a) [] || existsb control (Name a) then Err (BadAttachment (Name a))
  else if Inline a && existsb (fun c => beq c " " || beq c "<" || beq c ">" || beq c (ascii_of_nat 34) || beq c "\") (Name a) then Err (BadInline (Name a))
  else
    let ct := if seq_eqb (ContentType a) [] then TypeByExtension (path_ext (Name a)) else ContentType a in
    let ct := if seq_eqb ct [] then str "application/octet-stream" else ct in
    match ParseMediaType ct with
    | None => Err (BadContentType (Name a) ct)
    | Some (mediaType, params) =>
        Ok (Part ([(str "Content-Type", FormatMediaType mediaType (mset (str "name") (Name a) params));
                   (str "Content-Disposition", FormatMediaType (if Inline a then str "inline" else str "attachment") [(str "filename", Name a)]);
                   (str "Content-Transfer-Encoding", str "base64")]
                  ++ (if Inline a then [(str "Content-Id", "<"%char :: Name a ++ [">"%char])] else []))
                 (base64Lines (Content a)))
    end.

(** strings.ReplaceAll(text, CRLF, LF). *)
Fixpoint unix_lines (s : gostring) : gostring :=
  match s with
  | [] => []
  | c :: s' => match s' with d :: s'' => if beq c cr && beq d lf then lf :: unix_lines s'' else c :: unix_lines s' | [] => [c] end
  end.

Definition textPart (mediaType text : gostring) : part :=
  Part [(str "Content-Type", mediaType ++ str "; charset=utf-8"); (str "Content-Transfer-Encoding", str "quoted-printable")] (quoted_printable (unix_lines text)).

(** mime/multipart's Writer: a part's header, its keys in order. *)
Definition part_header (h : list (gostring * gostring)) : gostring :=
  concat (map (fun k => k ++ str ": " ++ default [] (mget k h) ++ crlf) (sorted_keys h)).

Fixpoint write_parts (b : gostring) (first : bool) (ps : list part) : gostring :=
  match ps with
  | [] => []
  | p :: ps' => (if first then [] else crlf) ++ str "--" ++ b ++ crlf ++ part_header (header p) ++ crlf ++ body p ++ write_parts b false ps'
  end.

Definition multipartOf (subtype : gostring) (ps : list part) : part :=
  let b := boundary subtype in
  Part [(str "Content-Type", str "multipart/" ++ subtype ++ str "; boundary=" ++ b)] (write_parts b true ps ++ crlf ++ str "--" ++ b ++ str "--" ++ crlf).

Fixpoint attachment_parts (l : list attachment) (inline attached : list part) : result mail_error (list part * list part) :=
  match l with
  | [] => Ok (inline, attached)
  | a :: l' => let? p := attachmentPart a in if Inline a then attachment_parts l' (inline ++ [p]) attached else attachment_parts l' inline (attached ++ [p])
  end.

Definition bodyOf (msg : message) : result mail_error part :=
  let alts := (if seq_eqb (Text msg) [] then [] else [textPart (str "text/plain") (Text msg)]) ++ (if seq_eqb (HTML msg) [] then [] else [textPart (str "text/html") (HTML msg)]) in
  match alts with
  | [] => Err NoBody
  | p :: rest =>
      let b := match rest with [] => p | _ => multipartOf (str "alternative") alts end in
      let? '(inline, attached) := attachment_parts (Attachments msg) [] [] in
      let b := match inline with [] => b | _ => multipartOf (str "related") (b :: inline) end in
      Ok (match attached with [] => b | _ => multipartOf (str "mixed") (b :: attached) end)
  end.

Record mailer := Mailer { m_from : address; m_replyTo : option address; m_domain : gostring }.

(** The fields of a map in the order of their keys. *)
Definition write_sorted (h : gostring) (m : list (gostring * gostring)) : gostring :=
  fold_left (fun h k => writeField h k (default [] (mget k m))) (sorted_keys m) h.

Definition compose (m : mailer) (msg : message) : result mail_error gostring :=
  let? _ := recipients msg in
  let? to := addresses (str "to") (To msg) in
  let? cc := addresses (str "cc") (Cc msg) in
  let h := writeField [] (str "From") (AddrString (m_from m)) in
  let replyTo := match m_replyTo m with Some a => AddrString a | None => [] end in
  let? extra := extraFields (Headers msg) in
  let '(replyTo, extra) := match mget (str "Reply-To") extra with Some v => (v, mdel (str "Reply-To") extra) | None => (replyTo, extra) end in
  let h := if seq_eqb replyTo [] then h else writeField h (str "Reply-To") replyTo in
  let h := match to with [] => h | _ => writeField h (str "To") (joinAddresses to) end in
  let h := match cc with [] => h | _ => writeField h (str "Cc") (joinAddresses cc) end in
  let h := writeField h (str "Subject") (encodeText (oneLine (Subject msg))) in
  let h := writeField h (str "Date") date in
  let h := writeField h (str "Message-ID") ("<"%char :: message_id ++ "@"%char :: m_domain m ++ [">"%char]) in
  let h := write_sorted h extra in
  let h := writeField h (str "MIME-Version") (str "1.0") in
  let? b := bodyOf msg in
  Ok (write_sorted h (header b) ++ crlf ++ body b).

(** ** Templates *)

(** A parsed template: its text for data, and the subject it defines. *)
Record template := Tmpl { execute : option D -> option gostring; subject : option (option D -> option gostring) }.

Record page := Page { p_html : option template; p_text : option template }.

Context (UnescapeString : gostring -> gostring).

Definition page_render (p : page) (data : option D) : option (gostring * gostring * gostring) :=
  htmlBody ← match p_html p with Some t => execute t data | None => Some [] end;
  text ← match p_text p with Some t => execute t data | None => Some [] end;
  match p_text p with
  | Some (Tmpl _ (Some f)) => s ← f data; Some (s, text, htmlBody)
  | _ =>
      match p_html p with
      | Some (Tmpl _ (Some f)) => s ← f data; Some (UnescapeString s, text, htmlBody)
      | _ => Some ([], text, htmlBody)
      end
  end.

Definition set_body (msg : message) (subject text html : gostring) : message :=
  Message D (To msg) (Cc msg) (Bcc msg) subject text html (Template msg) (Data msg) (Headers msg) (Attachments msg).

Definition render (templates : option (list (gostring * page))) (msg : message) : result mail_error message :=
  if seq_eqb (Template msg) [] then
    if seq_eqb (Text msg) [] && seq_eqb (HTML msg) [] then Err NoBody else Ok msg
  else if negb (seq_eqb (Text msg) []) || negb (seq_eqb (HTML msg) []) then Err TwoBodies
  else match templates with
       | None => Err (NoTemplates (Template msg))
       | Some byName =>
           match mget (Template msg) byName with
           | None => Err (NoTemplate (Template msg))
           | Some p =>
               match page_render p (Data msg) with
               | None => Err (TemplateFailed (Template msg))
               | Some (subject, text, html) => Ok (set_body msg (if seq_eqb (Subject msg) [] then subject else Subject msg) text html)
               end
           end
       end.

(** A file of the file system, in the order of the walk: what reading it gives. *)
Record source := Source { s_path : gostring; s_body : option gostring }.

(** The parsers: of a partial, and of a template with the partials before it. *)
Context (parse_partial : gostring -> source -> bool) (parse_template : gostring -> list source -> source -> option template).

Definition path_base (p : gostring) : gostring := List.last (split "/" p) [].

Definition html_ext : gostring := str ".html".
Definition txt_ext : gostring := str ".txt".

(** What the walk found: pages by name and extension, partials, and the names seen. *)
Record walk := Walk { w_pages : list (gostring * list (gostring * source)); w_partials : list (gostring * list source); w_seen : list (gostring * gostring) }.

Definition walk_step (w : walk) (f : source) : result mail_error walk :=
  let base := path_base (s_path f) in let ext := path_ext (s_path f) in
  if negb (seq_eqb ext html_ext) && negb (seq_eqb ext txt_ext) then Ok w
  else match mget base (w_seen w) with
       | Some other => Err (SharedName (s_path f) other)
       | None =>
           let seen := mset base (s_path f) (w_seen w) in
           match s_body f with
           | None => Err WalkFailed
           | Some _ =>
               if has_prefix (str "_") base then Ok (Walk (w_pages w) (mset ext (default [] (mget ext (w_partials w)) ++ [f]) (w_partials w)) seen)
               else
                 let name := take (length base - length ext) base in
                 Ok (Walk (mset name (mset ext f (default [] (mget name (w_pages w)))) (w_pages w)) (w_partials w) seen)
           end
       end.

Fixpoint walk_files (w : walk) (l : list source) : result mail_error walk :=
  match l with [] => Ok w | f :: l' => let? w := walk_step w f in walk_files w l' end.

(** One kind of a page: its partials, then the file itself. *)
Definition parse_kind (w : walk) (ext : gostring) (files : list (gostring * source)) : result mail_error (option template) :=
  match mget ext files with
  | None => Ok None
  | Some src =>
      let partials := default [] (mget ext (w_partials w)) in
      match find (fun s => negb (parse_partial ext s)) partials with
      | Some s => Err (BadTemplate (s_path s))
      | None => match parse_template ext partials src with Some t => Ok (Some t) | None => Err (BadTemplate (s_path src)) end
      end
  end.

Fixpoint parse_pages (w : walk) (names : list gostring) : result mail_error (list (gostring * page)) :=
  match names with
  | [] => Ok []
  | name :: names' =>
      let files := default [] (mget name (w_pages w)) in
      let? h := parse_kind w html_ext files in
      let? t := parse_kind w txt_ext files in
      let? rest := parse_pages w names' in Ok ((name, Page h t) :: rest)
  end.

Definition parseTemplates (l : list source) : result mail_error (list (gostring * page)) :=
  let? w := walk_files (Walk [] [] []) l in
  match w_pages w with [] => Err EmptyTemplates | _ => parse_pages w (sorted_keys (w_pages w)) end.

(** ** Configuration *)

Record smtp_config := SMTPConfig { Host : gostring; Port : Z; Username : gostring; Password : gostring; TLS : gostring }.
Record config := Config { Transport : gostring; From : gostring; ReplyTo : gostring; Dir : gostring; Timeout : Z; SMTP : smtp_config }.

Definition defaultTransport : gostring := str "smtp".
Definition defaultTimeout : Z := 15 * 10 ^ 9.
Definition defaultPort : Z := 587.
Definition defaultTLS : gostring := str "starttls".

Definition or_default (s d : gostring) : gostring := if seq_eqb s [] then d else s.

Definition withDefaults (c : config) : config :=
  let s := SMTP c in
  Config (or_default (Transport c) defaultTransport) (From c) (ReplyTo c) (Dir c) (if Timeout c =? 0 then defaultTimeout else Timeout c)
    (SMTPConfig (Host s) (if Port s =? 0 then defaultPort else Port s) (Username s) (Password s) (or_default (TLS s) defaultTLS)).

Inductive config_error := FromRequired | BadFrom | BadReplyTo | NegativeTimeout | BadPort | BadTransport | BadTLS.

Definition Validate (c : config) : list config_error :=
  (if seq_eqb (trim_space (From c)) [] then [FromRequired] else match ParseAddress (From c) with None => [BadFrom] | Some _ => [] end)
  ++ (if seq_eqb (ReplyTo c) [] then [] else match ParseAddress (ReplyTo c) with None => [BadReplyTo] | Some _ => [] end)
  ++ (if Timeout c <? 0 then [NegativeTimeout] else [])
  ++ (if (Port (SMTP c) <? 0) || (65535 <? Port (SMTP c)) then [BadPort] else []).

(** The validate tags, then Validate: conf.Check. *)
Definition check_config (c : config) : list config_error :=
  (if existsb (seq_eqb (Transport c)) (map str [""; "smtp"; "dir"; "log"]%string) then [] else [BadTransport])
  ++ (if existsb (seq_eqb (TLS (SMTP c))) (map str [""; "starttls"; "implicit"; "none"]%string) then [] else [BadTLS])
  ++ Validate c.

(** net.ParseIP(host).IsLoopback(). *)
Context (loopback_ip : gostring -> bool).

Definition isLoopback (host : gostring) : bool := seq_eqb host (str "localhost") || loopback_ip host.

Inductive new_error :=
| NilOption | BadConfig (l : list config_error) | TemplatesTwice | TemplatesNil | SenderNil | TemplatesFailed (e : mail_error)
| DirRequired | MkdirFailed | HostRequired | ClearText (host : gostring).

Definition setupSMTP (c : config) : result new_error () :=
  if seq_eqb (Host (SMTP c)) [] then Err HostRequired
  else if seq_eqb (TLS (SMTP c)) (str "none") && negb (isLoopback (Host (SMTP c))) then Err (ClearText (Host (SMTP c)))
  else Ok tt.

(** The options of New, in order; a file system is the list of its files. *)
Inductive mail_option := OptNil | OptTemplates (fsys : option (list source)) | OptSender (set : bool) | OptLogger.

Record opts := Opts { o_templates : option (list source); o_templatesSet : Z; o_sender : bool; o_senderSet : bool }.

Fixpoint apply_options (l : list mail_option) (o : opts) : result new_error opts :=
  match l with
  | [] => Ok o
  | OptNil :: _ => Err NilOption
  | OptTemplates f :: l' => apply_options l' (Opts f (o_templatesSet o + 1) (o_sender o) (o_senderSet o))
  | OptSender b :: l' => apply_options l' (Opts (o_templates o) (o_templatesSet o) b true)
  | OptLogger :: l' => apply_options l' o
  end.

Inductive delivery := BySender | WriteFile | LogOnly | SendSMTP.

Record sender := Sender { s_cfg : config; s_mailer : mailer; s_templates : option (list (gostring * page)); s_deliver : delivery }.

(** What follows the last "@". *)
Definition domain_of (addr : gostring) : gostring := List.last (split "@" addr) [].

(** [New]; [mkdir] is what os.MkdirAll does with the directory. *)
Definition New (mkdir : gostring -> bool) (cfg : config) (l : list mail_option) : result new_error sender :=
  let? o := apply_options l (Opts None 0 false false) in
  let cfg := withDefaults cfg in
  match check_config cfg with
  | _ :: _ => Err (BadConfig (check_config cfg))
  | [] =>
      if 1 <? o_templatesSet o then Err TemplatesTwice
      else if (o_templatesSet o =? 1) && (match o_templates o with None => true | Some _ => false end) then Err TemplatesNil
      else if o_senderSet o && negb (o_sender o) then Err SenderNil
      else
        let from := default (Address [] []) (ParseAddress (From cfg)) in
        let m := Mailer from (if seq_eqb (ReplyTo cfg) [] then None else ParseAddress (ReplyTo cfg)) (domain_of (a_addr from)) in
        let? templates := match o_templates o with
                          | None => Ok None
                          | Some l => match parseTemplates l with Ok t => Ok (Some t) | Err e => Err (TemplatesFailed e) end
                          end in
        if o_sender o then Ok (Sender cfg m templates BySender)
        else if seq_eqb (Transport cfg) (str "dir") then
          if seq_eqb (Dir cfg) [] then Err DirRequired else if negb (mkdir (Dir cfg)) then Err MkdirFailed else Ok (Sender cfg m templates WriteFile)
        else if seq_eqb (Transport cfg) (str "log") then Ok (Sender cfg m templates LogOnly)
        else let? _ := setupSMTP cfg in Ok (Sender cfg m templates SendSMTP)
  end.

(** ** Transports *)

(** What a mailer does to a relay, in order. *)
Inductive cmd :=
| Dial (host : gostring) (port : Z) | Handshake | Greeting | Ehlo | StartTLS | Auth (user pass : gostring)
| MailFrom (addr : gostring) | RcptTo (addr : gostring) | DataCmd | DataWrite (raw : gostring) | DataEnd | QuitCmd.

(** The relay: whether it takes a command, after those before it; and whether it
    offers STARTTLS. *)
Context (takes : list cmd -> cmd -> bool) (offers_tls : bool).

Inductive send_error := Refused (c : cmd) | NoStartTLS | Unsent (e : mail_error).

(** A session: the commands so far, and how it ended if it did. *)
Definition session : Type := list cmd * option send_error.

Definition say (c : cmd) (s : session) : session :=
  match s with (l, None) => (l ++ [c], if takes l c then None else Some (Refused c)) | _ => s end.

Definition smtpSession (cfg : config) (m : mailer) (msg : message) (raw : gostring) : session :=
  match recipients msg with
  | Err e => ([], Some (Unsent e))
  | Ok rcpt =>
      let c := SMTP cfg in
      let s := say (Dial (Host c) (Port c)) ([], None) in
      let s := if seq_eqb (TLS c) (str "implicit") then say Handshake s else s in
      let s := say Ehlo (say Greeting s) in
      let s := if seq_eqb (TLS c) (str "starttls") then
                 match s with (l, None) => if offers_tls then say StartTLS s else (l, Some NoStartTLS) | _ => s end
               else s in
      let s := if seq_eqb (Username c) [] then s else say (Auth (Username c) (Password c)) s in
      let s := say (MailFrom (a_addr (m_from m))) s in
      let s := fold_left (fun s to => say (RcptTo to) s) rcpt s in
      say QuitCmd (say DataEnd (say (DataWrite raw) (say DataCmd s)))
  end.

(** A directory; what happens to the system calls of [writeFile]: a write that
    fails leaves some of the text. *)
Notation dir := (list (gostring * gostring)).
Record fs_events := FsEvents { fs_create : bool; fs_write : option nat; fs_close : bool; fs_rename : bool }.

(** The directory after each of [writeFile]'s calls, and while it writes; and
    whether the mail is there. *)
Definition writeFile (tmp name raw : gostring) (e : fs_events) (d : dir) : list dir * bool :=
  if negb (fs_create e) then ([d], false)
  else
    let written n := map (fun k => mset tmp (take k raw) d) (seq 0 (S n)) in
    match fs_write e with
    | Some n => (d :: written n ++ [mdel tmp d], false)
    | None =>
        let l := d :: written (length raw) in
        if negb (fs_close e) || negb (fs_rename e) then (l ++ [mdel tmp d], false) else (l ++ [mset name raw (mdel tmp d)], true)
    end.

(** [Send]: what was handed to the transport, and its end. *)
Definition Send (s : sender) (deliver : message -> gostring -> option send_error) (msg : message) : option send_error :=
  match render (s_templates s) msg with
  | Err e => Some (Unsent e)
  | Ok rendered =>
      match compose (s_mailer s) rendered with
      | Err e => Some (Unsent e)
      | Ok raw => deliver rendered raw
      end
  end.

Definition sendSMTP (s : sender) (msg : message) (raw : gostring) : option send_error := (smtpSession (s_cfg s) (s_mailer s) msg raw).2.

Definition SendTemplate (s : sender) (deliver : message -> gostring -> option send_error) (to tmpl : gostring) (data : option D) : option send_error :=
  Send s deliver (Message D [to] [] [] [] [] [] tmpl data [] []).
End compose.
