(* ===== verification/MailSpec.v ===== *)
(** What a mail is, once written: a reader of RFC 5322 finds the mailer's fields
    and the checked ones of the message and nothing else, whatever the texts;
    and what a relay and a directory see of it. *)

From Stdlib Require Import ZArith Lia List Ascii.
From stdpp Require Import base decidable list sets sorting strings.
From S2P Require Import Prelude GoStrings GoMaps Utf8 Mail.

(** ** A reader of messages *)

(** The lines of the header, up to the empty one, and the body after it. *)
Fixpoint read_lines (cur s : gostring) : option (list gostring * gostring) :=
  match s with
  | [] => None
  | c :: s' =>
      match s' with
      | d :: s'' =>
          if beq c cr && beq d lf then
            match cur with [] => Some ([], s'') | _ => match read_lines [] s'' with Some (ls, b) => Some (rev cur :: ls, b) | None => None end end
          else read_lines (c :: cur) s'
      | [] => None
      end
  end.

Definition continues (l : gostring) : bool := match l with c :: _ => beq c " " || (byte_val c =? 9) | [] => false end.

(** Unfolding: a line that begins with white space continues the one before. *)
Fixpoint unfold_lines (cur : gostring) (l : list gostring) : list gostring :=
  match l with [] => [cur] | x :: l' => if continues x then unfold_lines (cur ++ x) l' else cur :: unfold_lines x l' end.

(** A field: its name up to the colon, its text after the space. *)
Definition read_field (l : gostring) : gostring * gostring :=
  let i := Z.to_nat (index_byte ":" l) in (take i l, drop (i + 2) l).

Definition read_message (raw : gostring) : option (list (gostring * gostring) * gostring) :=
  match read_lines [] raw with
  | Some (x :: ls, b) => if continues x then None else Some (map read_field (unfold_lines x ls), b)
  | _ => None
  end.

(** ** Bytes *)

Definition clean_byte (c : ascii) : bool := negb (beq c cr) && negb (beq c lf).

Lemma crlf_free_forall s : crlf_free s = forallb clean_byte s.
Proof. done. Qed.

Lemma crlf_free_app s t : crlf_free (s ++ t) = crlf_free s && crlf_free t.
Proof. apply forallb_app. Qed.

Lemma crlf_free_cons c s : crlf_free (c :: s) = clean_byte c && crlf_free s.
Proof. done. Qed.

Lemma crlf_free_concat l : crlf_free (concat l) = forallb crlf_free l.
Proof. induction l as [|x l IH]; cbn; [done|]. by rewrite crlf_free_app, IH. Qed.

Lemma printable_clean c : printable c = true -> clean_byte c = true.
Proof.
  unfold printable, clean_byte. intros P. destruct (beq c cr) eqn:E; [apply beq_true in E as ->; done|]. destruct (beq c lf) eqn:F; [apply beq_true in F as ->; done|done].
Qed.

(** A fact of a byte, by its 256 values. *)
Ltac each_byte c := destruct c as [[] [] [] [] [] [] [] []].

(** ** Fields are read back *)

(** The lines of one field: [cur] is the line begun. *)
Fixpoint fold_lines (cur : gostring) (width : Z) (words : list gostring) : list gostring :=
  match words with
  | [] => [cur]
  | w :: ws =>
      let n := Z.of_nat (length w) in
      if (foldWidth <? width + 1 + n) && (1 <? width) then cur :: fold_lines (" "%char :: w) (0 + 1 + n) ws
      else fold_lines (cur ++ " "%char :: w) (width + 1 + n) ws
  end.

Definition field_lines (name value : gostring) : list gostring := fold_lines (name ++ [":"%char]) (Z.of_nat (length name) + 1) (split " " value).

Definition with_crlf (l : gostring) : gostring := l ++ crlf.

Lemma fold_words_lines cur width words : cur ++ fold_words width words = concat (map with_crlf (fold_lines cur width words)).
Proof.
  revert cur width. induction words as [|w ws IH]; intros cur width; cbn [fold_words fold_lines]; [cbn; by rewrite app_nil_r|].
  destruct (_ && _).
  - cbn [map concat]. rewrite <- IH. unfold with_crlf. rewrite <- app_assoc. done.
  - rewrite <- IH, <- app_assoc. done.
Qed.

Lemma writeField_lines b name value : writeField b name value = b ++ concat (map with_crlf (field_lines name value)).
Proof. unfold writeField, field_lines. rewrite <- fold_words_lines, <- app_assoc. done. Qed.

Lemma fold_lines_concat cur width words : concat (fold_lines cur width words) = cur ++ concat (map (fun w => " "%char :: w) words).
Proof.
  revert cur width. induction words as [|w ws IH]; intros cur width; cbn [fold_lines]; [by cbn; rewrite app_nil_r|].
  destruct (_ && _); cbn [concat map]; rewrite IH; [done|]. by rewrite <- app_assoc.
Qed.

Lemma join_words words : words <> [] -> concat (map (fun w => " "%char :: w) words) = " "%char :: join [" "%char] words.
Proof.
  destruct words as [|w ws]; [done|intros _]. revert w. induction ws as [|w' ws IH]; intros w; [cbn; by rewrite app_nil_r|].
  cbn [map concat] in IH |- *. rewrite (IH w'). rewrite join_cons2. done.
Qed.

Lemma field_lines_concat name value : concat (field_lines name value) = name ++ ":"%char :: " "%char :: value.
Proof.
  unfold field_lines. rewrite fold_lines_concat, join_words by apply split_nonempty. rewrite join_split, <- app_assoc. done.
Qed.

(** The first line begins as [cur] does; the others are continuations. *)
Lemma fold_lines_head cur width words : exists t ls, fold_lines cur width words = (cur ++ t) :: ls /\ forallb continues ls = true.
Proof.
  revert cur width. induction words as [|w ws IH]; intros cur width; cbn [fold_lines]; [exists [], []; by rewrite app_nil_r|].
  destruct (_ && _).
  - exists [], (fold_lines (" "%char :: w) (0 + 1 + Z.of_nat (length w)) ws). rewrite app_nil_r. split; [done|].
    destruct (IH (" "%char :: w) (0 + 1 + Z.of_nat (length w))) as (t & ls & -> & H). cbn [forallb]. by rewrite H.
  - destruct (IH (cur ++ " "%char :: w) (width + 1 + Z.of_nat (length w))) as (t & ls & -> & H). exists ((" "%char :: w) ++ t), ls. by rewrite <- app_assoc.
Qed.

Lemma valid_name_cons k : validFieldName k = true -> exists c k', k = c :: k' /\ continues k = false /\ crlf_free k = true /\ (":"%char ∉ k).
Proof.
  unfold validFieldName. intros V. apply andb_prop in V as [N V]. destruct k as [|c k]; [done|]. exists c, k. split; [done|].
  assert (B : forall d, negb ((byte_val d <=? 32) || (126 <? byte_val d) || beq d ":") = true -> clean_byte d = true /\ d <> ":"%char /\ (beq d " " || (byte_val d =? 9)) = false).
  { intros d H. apply negb_true_iff, orb_false_iff in H as [H Hc]. apply orb_false_iff in H as [H1 H2]. apply beq_false in Hc. repeat split; [|done|].
    - apply printable_clean. unfold printable. lia.
    - destruct (beq d " ") eqn:S; [apply beq_true in S as ->; done|]. cbn. lia. }
  split; [|split].
  - cbn in V. apply andb_prop in V as [V _]. apply B, V.
  - rewrite crlf_free_forall. rewrite forallb_forall in V |- *. intros d I. apply B, V, I.
  - rewrite forallb_forall in V. intros I. apply list_elem_of_In, V, B in I. by destruct I as (_ & I & _).
Qed.

(** Reading lines. *)
Lemma read_lines_line cur l s : crlf_free l = true -> cur ++ l <> [] ->
  read_lines cur (l ++ crlf ++ s) = match read_lines [] s with Some (ls, b) => Some ((rev cur ++ l) :: ls, b) | None => None end.
Proof.
  revert cur. induction l as [|c l IH]; intros cur F N.
  - rewrite app_nil_r in *. cbn. destruct cur as [|x cur]; [done|]. done.
  - rewrite crlf_free_cons in F. apply andb_prop in F as [Fc F]. unfold clean_byte in Fc. apply andb_prop in Fc as [Fc _].
    cbn [app]. destruct (l ++ crlf ++ s) as [|d t] eqn:E; [by destruct l|].
    apply negb_true_iff in Fc. transitivity (read_lines (c :: cur) (d :: t)); [cbn [read_lines]; by rewrite Fc|].
    rewrite IH by done. cbn [rev]. by rewrite <- app_assoc.
Qed.

Lemma read_lines_lines ls s : forallb (fun l => crlf_free l && negb (seq_eqb l [])) ls = true ->
  read_lines [] (concat (map with_crlf ls) ++ crlf ++ s) = Some (ls, s).
Proof.
  induction ls as [|l ls IH]; intros F; [done|]. cbn [forallb] in F. apply andb_prop in F as [F Fs]. apply andb_prop in F as [F N].
  cbn [map concat]. unfold with_crlf at 1. rewrite <- !app_assoc, read_lines_line; [by rewrite IH|done|]. by destruct (seq_eqbP l []).
Qed.

(** Unfolding the lines of fields gives their texts. *)
Lemma unfold_continues cur ls rest : forallb continues ls = true -> unfold_lines cur (ls ++ rest) = unfold_lines (cur ++ concat ls) rest.
Proof.
  revert cur. induction ls as [|l ls IH]; intros cur C; cbn [app concat]; [by rewrite app_nil_r|]. cbn [forallb] in C. apply andb_prop in C as [C Cs].
  cbn [unfold_lines]. rewrite C, IH by done. by rewrite <- app_assoc.
Qed.

Definition field_text (f : gostring * gostring) : gostring := f.1 ++ ":"%char :: " "%char :: f.2.
Definition good_field (f : gostring * gostring) : bool := validFieldName f.1 && crlf_free f.2.

Lemma good_lines f : good_field f = true -> exists x ls, field_lines f.1 f.2 = x :: ls /\ continues x = false /\ x <> [] /\ forallb continues ls = true /\
  forallb (fun l => crlf_free l && negb (seq_eqb l [])) (x :: ls) = true.
Proof.
  intros G. apply andb_prop in G as [V F]. destruct (valid_name_cons _ V) as (c & k & K & C & Fk & _).
  destruct (fold_lines_head (f.1 ++ [":"%char]) (Z.of_nat (length f.1) + 1) (split " " f.2)) as (t & ls & E & Cs). change (fold_lines (f.1 ++ [":"%char]) (Z.of_nat (length f.1) + 1) (split " " f.2)) with (field_lines f.1 f.2) in E.
  exists ((f.1 ++ [":"%char]) ++ t), ls. split; [done|]. split; [by rewrite K in *|]. split; [by rewrite K|]. split; [done|].
  assert (A : crlf_free (concat (field_lines f.1 f.2)) = true).
  { rewrite field_lines_concat, crlf_free_app, Fk, !crlf_free_cons, F. done. }
  rewrite E, crlf_free_concat in A. apply forallb_forall. intros l I. rewrite forallb_forall in A. rewrite (A l I). cbn [andb].
  destruct I as [<-|I]; [by rewrite K|]. rewrite forallb_forall in Cs. specialize (Cs l I). by destruct l.
Qed.

Definition header_text (fs : list (gostring * gostring)) : gostring := concat (map (fun f => writeField [] f.1 f.2) fs).

Lemma header_text_lines fs : header_text fs = concat (map with_crlf (concat (map (fun f => field_lines f.1 f.2) fs))).
Proof. induction fs as [|f fs IH]; [done|]. unfold header_text in *. cbn [map concat]. rewrite map_app, concat_app, <- IH, writeField_lines. done. Qed.

Lemma unfold_fields f fs : forallb good_field (f :: fs) = true -> exists x ls, concat (map (fun f => field_lines f.1 f.2) (f :: fs)) = x :: ls /\
  continues x = false /\ unfold_lines x ls = map field_text (f :: fs).
Proof.
  revert f. induction fs as [|f' fs IH]; intros f G; cbn [forallb] in G; apply andb_prop in G as [G Gs]; destruct (good_lines f G) as (x & ls & E & C & _ & Cs & _);
    assert (T : x ++ concat ls = field_text f) by (change (concat (x :: ls) = field_text f); rewrite <- E, field_lines_concat; done).
  - exists x, ls. cbn [map concat]. rewrite app_nil_r, E. split; [done|]. split; [done|]. rewrite <- (app_nil_r ls), unfold_continues, T by done. done.
  - destruct (IH f' Gs) as (x' & ls' & E' & C' & U). exists x, (ls ++ x' :: ls'). cbn [map concat] in E' |- *. rewrite E, E'. split; [done|]. split; [done|].
    rewrite unfold_continues, T by done. cbn [unfold_lines]. rewrite C'. cbn [map] in U. by rewrite U.
Qed.

Lemma index_byte_app c s t : c ∉ s -> index_byte c (s ++ c :: t) = Z.of_nat (length s).
Proof.
  induction s as [|d s IH]; intros N; cbn; [by rewrite beq_refl|]. apply not_elem_of_cons in N as [N1 N2].
  destruct (beq c d) eqn:E; [by apply beq_true in E|]. rewrite IH by done. destruct (Z.ltb_spec (Z.of_nat (length s)) 0); lia.
Qed.

Lemma read_field_text f : good_field f = true -> read_field (field_text f) = f.
Proof.
  intros G. apply andb_prop in G as [V _]. destruct (valid_name_cons _ V) as (_ & _ & _ & _ & _ & N). unfold read_field, field_text.
  rewrite index_byte_app, Nat2Z.id by done. rewrite take_app_length. rewrite <- drop_drop, drop_app_length. by destruct f.
Qed.

(** Fields whose names and values are checked are what a reader finds, whatever
    the folding. *)
Lemma read_written f fs b : forallb good_field (f :: fs) = true -> read_message (header_text (f :: fs) ++ crlf ++ b) = Some (f :: fs, b).
Proof.
  intros G. unfold read_message. rewrite header_text_lines, read_lines_lines.
  - destruct (unfold_fields f fs G) as (x & ls & -> & C & U). rewrite C, U. do 2 f_equal. rewrite map_map.
    transitivity (map id (f :: fs)); [|by rewrite map_id]. apply map_ext_in. intros g I. rewrite forallb_forall in G. by apply read_field_text, G.
  - apply forallb_forall. intros l I. apply in_concat in I as (ls & Il & I). apply in_map_iff in Il as (g & <- & Ig).
    rewrite forallb_forall in G. destruct (good_lines g (G g Ig)) as (x & ls & E & _ & _ & _ & F). rewrite E in I. rewrite forallb_forall in F. by apply F.
Qed.

(** ** Header texts *)

Lemma q_byte_printable c : forallb printable (q_byte c) = true.
Proof. each_byte c; vm_compute; reflexivity. Qed.

Lemma printable_free s : forallb printable s = true -> crlf_free s = true.
Proof. rewrite crlf_free_forall, !forallb_forall. intros P c I. by apply printable_clean, P. Qed.

Lemma q_go_printable skip cur s : forallb printable (q_go skip cur s) = true.
Proof.
  revert skip cur. induction s as [|c s IH]; intros skip cur; [done|]. cbn [q_go]. destruct skip as [|k]; [|by rewrite forallb_app, q_byte_printable, IH].
  destruct (63 <? _); [rewrite forallb_app|]; [|by rewrite forallb_app, q_byte_printable, IH].
  cbn [forallb]. rewrite forallb_app, forallb_app, q_byte_printable, IH. done.
Qed.

(** Whatever the text, its encoding is on one line. *)
Lemma encodeText_free s : crlf_free (encodeText s) = true.
Proof.
  unfold encodeText. destruct (needsEncoding s) eqn:N.
  - rewrite !crlf_free_app, (printable_free (q_go 0 0 s)) by apply q_go_printable. done.
  - rewrite crlf_free_forall. apply forallb_forall. intros c I. destruct (clean_byte c) eqn:C; [done|]. assert (needsEncoding s = true); [|congruence].
    apply existsb_exists. exists c. split; [done|]. destruct (printable c) eqn:P; [apply printable_clean in P; congruence|]. cbn.
    unfold clean_byte in C. apply andb_false_iff in C as [C|C]; apply negb_false_iff, beq_true in C as ->; done.
Qed.

Lemma canonical_byte_valid u c : negb ((byte_val c <=? 32) || (126 <? byte_val c) || beq c ":") = true ->
  negb ((byte_val (if u : bool then upper_case c else lower_byte c) <=? 32) || (126 <? byte_val (if u then upper_case c else lower_byte c)) || beq (if u then upper_case c else lower_byte c) ":") = true.
Proof. destruct u; each_byte c; vm_compute; done. Qed.

Lemma canonical_valid k : validFieldName k = true -> validFieldName (CanonicalMIMEHeaderKey k) = true.
Proof.
  unfold CanonicalMIMEHeaderKey. destruct (forallb token_byte k); [|done]. unfold validFieldName. intros V. apply andb_prop in V as [N V]. apply andb_true_intro. split.
  - by destruct k.
  - assert (G : forall u, forallb (fun c => negb ((byte_val c <=? 32) || (126 <? byte_val c) || beq c ":")) (canonical_go u k) = true); [|apply G].
    clear N. induction k as [|c k IH]; intros u; [done|]. cbn [canonical_go forallb] in *. apply andb_prop in V as [V Vs].
    rewrite IH by done. rewrite canonical_byte_valid by done. done.
Qed.

(** *** The checked fields of a message *)

Definition own_field (k : gostring) : bool := existsb (seq_eqb k) protected || has_prefix (str "Content-") k.

(** What every extra field satisfies. *)
Definition extra_ok (f : gostring * gostring) : Prop := good_field f = true /\ own_field f.1 = false /\ exists k, f.1 = CanonicalMIMEHeaderKey k.

Lemma mset_forall {A} (P : gostring * A -> Prop) k v m : P (k, v) -> Forall P m -> Forall P (mset k v m).
Proof. intros K. induction 1 as [|[k1 v1] m F Fm IH]; cbn; [by constructor|]. destruct (seq_eqb k1 k); by constructor. Qed.

Lemma extra_good l out e : extra_go l out = Ok e -> Forall extra_ok out -> Forall extra_ok e.
Proof.
  revert out. induction l as [|[k v] l IH]; intros out E G; cbn [extra_go] in E; [by injection E as <-|].
  destruct (validFieldName k) eqn:V; cbn [negb] in E; [|done]. destruct (existsb _ protected || _) eqn:O; [done|]. destruct (existsb _ v); [done|].
  destruct (has_key (CanonicalMIMEHeaderKey k) out); [done|]. apply IH in E; [done|]. apply mset_forall; [|done].
  split; [unfold good_field; cbn [fst snd]; by rewrite encodeText_free, canonical_valid|]. split; [exact O|by exists k].
Qed.

Lemma mdel_forall {A} (P : gostring * A -> Prop) k m : Forall P m -> Forall P (mdel k m).
Proof. intros F. apply Forall_forall. intros x I. apply list_elem_of_In, filter_In in I as [I _]. rewrite Forall_forall in F. by apply F, list_elem_of_In. Qed.

(** The fields of a map, in the order they are written. *)
Definition sorted_fields (m : list (gostring * gostring)) : list (gostring * gostring) := map (fun k => (k, default [] (mget k m))) (sorted_keys m).

Lemma mget_in {A} k v (m : list (gostring * A)) : mget k m = Some v -> (k, v) ∈ m.
Proof.
  induction m as [|[k1 v1] m IH]; cbn; [done|]. destruct (seq_eqbP k1 k) as [->|]; [intros [= ->]; left|intros H; right; by apply IH].
Qed.

Lemma mget_key {A} k (m : list (gostring * A)) : k ∈ map fst m -> exists v, mget k m = Some v.
Proof.
  induction m as [|[k1 v1] m IH]; cbn; intros I; [by apply elem_of_nil in I|]. destruct (seq_eqbP k1 k) as [->|N]; [eauto|].
  apply elem_of_cons in I as [->|I]; [done|by apply IH].
Qed.

Lemma sorted_fields_in m f : f ∈ sorted_fields m -> f ∈ m.
Proof.
  unfold sorted_fields, sorted_keys. intros I. apply list_elem_of_In, in_map_iff in I as (k & <- & I). apply list_elem_of_In in I. rewrite merge_sort_Permutation in I.
  destruct (mget_key k m I) as [v E]. rewrite E. by apply mget_in.
Qed.

Lemma sorted_fields_good m : Forall (fun f => good_field f = true) m -> forallb good_field (sorted_fields m) = true.
Proof. intros F. apply forallb_forall. intros f I. rewrite Forall_forall in F. by apply F, sorted_fields_in, list_elem_of_In. Qed.

Lemma write_sorted_text h m : write_sorted h m = h ++ header_text (sorted_fields m).
Proof.
  unfold write_sorted, sorted_fields, header_text. rewrite map_map. revert h. induction (sorted_keys m) as [|k l IH]; intros h; cbn [fold_left map concat fst snd]; [by rewrite app_nil_r|].
  rewrite IH, writeField_lines, <- app_assoc. by rewrite writeField_lines.
Qed.

(** ** The message *)

Section message.
Context (ParseAddress : gostring -> option address) (AddrString : address -> gostring).
Context (quoted_printable base64 : gostring -> gostring) (TypeByExtension : gostring -> gostring).
Context (ParseMediaType : gostring -> option (gostring * list (gostring * gostring))) (FormatMediaType : gostring -> list (gostring * gostring) -> gostring).
Context (message_id : gostring) (boundary : gostring -> gostring) (date : gostring).
Context {D : Type}.

(** net/mail writes an address on one line, and its address proper holds no line
    break; mime does so with a media type; ids, boundaries and dates are plain. *)
Hypotheses (HString : forall s a, ParseAddress s = Some a -> crlf_free (AddrString a) = true /\ crlf_free (a_addr a) = true)
  (HMedia : forall t ps, crlf_free (FormatMediaType t ps) = true)
  (HId : crlf_free message_id = true) (HBoundary : forall s, crlf_free (boundary s) = true) (HDate : crlf_free date = true).

Notation message := (message D).
Notation compose := (compose ParseAddress AddrString quoted_printable base64 TypeByExtension ParseMediaType FormatMediaType message_id boundary date).
Notation bodyOf := (bodyOf quoted_printable base64 TypeByExtension ParseMediaType FormatMediaType boundary).
Notation addresses := (addresses ParseAddress).
Notation recipients := (recipients ParseAddress).

(** A mailer as New makes it. *)
Definition made (m : mailer) : Prop :=
  (exists s, ParseAddress s = Some (m_from m)) /\ (forall a, m_replyTo m = Some a -> exists s, ParseAddress s = Some a) /\ m_domain m = domain_of (a_addr (m_from m)).

(** The fields of a mail: the address lists, and Reply-To, only when there is
    something in them. *)
Definition optional (name value : gostring) : list (gostring * gostring) := if seq_eqb value [] then [] else [(name, value)].
Definition listed (name : gostring) (l : list address) : list (gostring * gostring) := match l with [] => [] | _ => [(name, joinAddresses AddrString l)] end.

Definition reply_to (m : mailer) (extra : list (gostring * gostring)) : gostring :=
  match mget (str "Reply-To") extra with Some v => v | None => match m_replyTo m with Some a => AddrString a | None => [] end end.

Definition mail_fields (m : mailer) (to cc : list address) (subject : gostring) (extra : list (gostring * gostring)) (b : part) : list (gostring * gostring) :=
  (str "From", AddrString (m_from m)) :: optional (str "Reply-To") (reply_to m extra) ++ listed (str "To") to ++ listed (str "Cc") cc
  ++ [(str "Subject", encodeText (oneLine subject)); (str "Date", date); (str "Message-ID", "<"%char :: message_id ++ "@"%char :: m_domain m ++ [">"%char])]
  ++ sorted_fields (mdel (str "Reply-To") extra) ++ [(str "MIME-Version", str "1.0")] ++ sorted_fields (header b).

Lemma header_text_app fs gs : header_text (fs ++ gs) = header_text fs ++ header_text gs.
Proof. unfold header_text. by rewrite map_app, concat_app. Qed.

Lemma write_one h name value : writeField h name value = h ++ header_text [(name, value)].
Proof. unfold header_text. cbn [map concat fst snd]. rewrite app_nil_r, writeField_lines. by rewrite (writeField_lines []). Qed.

Lemma mdel_absent {A} k (m : list (gostring * A)) : mget k m = None -> mdel k m = m.
Proof.
  induction m as [|[k1 v1] m IH]; cbn; [done|]. destruct (seq_eqbP k1 k) as [->|N]; [done|]. intros E. cbn. f_equal. by apply IH.
Qed.

Lemma compose_fields m (msg : message) raw : compose m msg = Ok raw ->
  exists to cc extra b, addresses (str "to") (To msg) = Ok to /\ addresses (str "cc") (Cc msg) = Ok cc /\ extraFields (Headers msg) = Ok extra /\ bodyOf msg = Ok b /\
    raw = header_text (mail_fields m to cc (Subject msg) extra b) ++ crlf ++ body b.
Proof.
  unfold Mail.compose. intros E. apply rbind_Ok in E as (rc & _ & E). apply rbind_Ok in E as (to & Eto & E). apply rbind_Ok in E as (cc & Ecc & E).
  apply rbind_Ok in E as (extra & Ex & E). exists to, cc, extra.
  assert (R : (match mget (str "Reply-To") extra with Some v => (v, mdel (str "Reply-To") extra) | None => (match m_replyTo m with Some a => AddrString a | None => [] end, extra) end)
    = (reply_to m extra, mdel (str "Reply-To") extra)).
  { unfold reply_to. destruct (mget (str "Reply-To") extra) eqn:G; [done|]. by rewrite (mdel_absent _ _ G). }
  rewrite R in E. apply rbind_Ok in E as (b & Eb & E). exists b. injection E as <-. repeat split; try done.
  rewrite !write_sorted_text, !write_one. unfold mail_fields. change (?x :: ?l ++ ?r) with ([x] ++ l ++ r). change [?x; ?y; ?z] with ([x] ++ [y] ++ [z]).
  rewrite !header_text_app. unfold optional, listed.
  destruct (seq_eqb (reply_to m extra) []), to as [|t to], cc as [|c cc]; rewrite ?write_one, <- ?app_assoc; done.
Qed.

Lemma split_free sep s : crlf_free s = true -> forallb crlf_free (split sep s) = true.
Proof.
  induction s as [|c s IH]; [done|]. rewrite crlf_free_cons. intros F. apply andb_prop in F as [F Fs]. specialize (IH Fs). cbn [split].
  destruct (beq c sep); [done|]. destruct (split sep s) as [|p ps]; cbn [forallb] in *; [by rewrite crlf_free_cons, F|]. by rewrite crlf_free_cons, F.
Qed.

Lemma domain_free s : crlf_free s = true -> crlf_free (domain_of s) = true.
Proof.
  intros F. unfold domain_of. apply (split_free "@") in F. destruct (exists_last (split_nonempty "@" s)) as (l & x & E). rewrite E in *. rewrite last_last.
  rewrite forallb_app in F. apply andb_prop in F as [_ F]. cbn in F. by rewrite andb_true_r in F.
Qed.

Lemma addresses_made field l as_ : addresses field l = Ok as_ -> Forall (fun a => exists s, ParseAddress s = Some a) as_.
Proof.
  revert as_. induction l as [|s l IH]; intros as_ E; cbn in E; [injection E as <-; constructor|]. destruct (ParseAddress s) as [a|] eqn:P; [|done].
  apply rbind_Ok in E as (r & Er & E). injection E as <-. constructor; [eauto|by apply IH].
Qed.

Lemma join_free sep l : crlf_free sep = true -> forallb crlf_free l = true -> crlf_free (join sep l) = true.
Proof.
  intros S. induction l as [|x l IH]; [done|]. cbn [forallb]. intros F. apply andb_prop in F as [F Fs]. destruct l as [|y l]; [done|].
  rewrite join_cons2, !crlf_free_app, F, S. by apply IH.
Qed.

Lemma joined_free l : Forall (fun a => exists s, ParseAddress s = Some a) l -> crlf_free (joinAddresses AddrString l) = true.
Proof.
  intros F. apply join_free; [done|]. induction F as [|a l [s P] _ IH]; [done|]. cbn. destruct (HString _ _ P) as [-> _]. exact IH.
Qed.

(** A body's own header: what it may be. *)
Definition body_header (b : part) : Prop :=
  Forall (fun f => good_field f = true) (header b) /\ (map fst (header b) = [str "Content-Type"; str "Content-Transfer-Encoding"] \/ map fst (header b) = [str "Content-Type"]).

Lemma text_header t s : t = str "text/plain" \/ t = str "text/html" -> body_header (textPart quoted_printable t s).
Proof. intros [-> | ->]; (split; [repeat constructor|by left]). Qed.

Lemma multipart_header s ps : crlf_free s = true -> body_header (multipartOf boundary s ps).
Proof.
  intros F. split; [|by right]. repeat constructor. unfold good_field. cbn [fst snd].
  rewrite !crlf_free_app, F, HBoundary. done.
Qed.

(** Nor does an attachment's name or type break its part's header. *)
Lemma attachment_header a p : attachmentPart base64 TypeByExtension ParseMediaType FormatMediaType a = Ok p -> Forall (fun f => good_field f = true) (header p).
Proof.
  unfold attachmentPart. destruct (seq_eqb (Name a) [] || existsb control (Name a)) eqn:C; [done|]. apply orb_false_iff in C as [_ C]. destruct (_ && _); [done|].
  destruct (ParseMediaType _) as [[t ps]|]; [|done]. intros [= <-]. cbn [header].
  assert (Nm : crlf_free (Name a) = true).
  { rewrite crlf_free_forall. apply forallb_forall. intros c I. destruct (clean_byte c) eqn:B; [done|]. assert (existsb control (Name a) = true); [|congruence].
    apply existsb_exists. exists c. split; [done|]. unfold clean_byte in B. apply andb_false_iff in B as [B|B]; apply negb_false_iff, beq_true in B as ->; done. }
  repeat (apply Forall_cons_2; [unfold good_field; cbn [fst snd]; rewrite ?HMedia; done|]). cbn [app].
  destruct (Inline a); [|constructor]. apply Forall_singleton. unfold good_field. cbn [fst snd]. by rewrite crlf_free_cons, crlf_free_app, Nm.
Qed.

Lemma opt_part (c : bool) p : body_header p -> Forall body_header (if c then [] else [p]).
Proof. destruct c; [constructor|]. by intros B; apply Forall_singleton. Qed.

Lemma bodyOf_header (msg : message) b : bodyOf msg = Ok b -> body_header b.
Proof.
  unfold Mail.bodyOf. set (alts := _ ++ _). assert (A : Forall body_header alts).
  { unfold alts. apply Forall_app. split; apply opt_part, text_header; auto. }
  destruct alts as [|p rest] eqn:Al; [done|]. rewrite <- Al in *. intros E. apply rbind_Ok in E as ([inl att] & _ & E). injection E as <-.
  assert (B : body_header (match rest with [] => p | _ => multipartOf boundary (str "alternative") alts end)).
  { destruct rest; [|by apply multipart_header]. rewrite Al in A. by inversion A. }
  destruct att; [destruct inl|]; try done; by apply multipart_header.
Qed.

Lemma mail_fields_good m to cc subject extra b : made m -> Forall (fun a => exists s, ParseAddress s = Some a) to -> Forall (fun a => exists s, ParseAddress s = Some a) cc ->
  Forall (fun f => good_field f = true) extra -> body_header b -> forallb good_field (mail_fields m to cc subject extra b) = true.
Proof.
  intros ([s P] & R & Dm) T C X [B _]. unfold mail_fields. cbn [forallb]. destruct (HString _ _ P) as [Fs Fa]. rewrite !forallb_app. cbn [forallb].
  rewrite (sorted_fields_good _ B), (sorted_fields_good _ (mdel_forall _ _ _ X)). unfold good_field at 1. cbn [fst snd]. rewrite Fs.
  assert (Ro : forallb good_field (optional (str "Reply-To") (reply_to m extra)) = true).
  { unfold optional. destruct (seq_eqb _ _); [done|]. cbn [forallb]. unfold good_field. cbn [fst snd]. unfold reply_to.
    destruct (mget (str "Reply-To") extra) as [v|] eqn:G.
    - apply mget_in in G. rewrite Forall_forall in X. specialize (X _ G). apply andb_prop in X as [_ X]. cbn [fst snd] in X. by rewrite X.
    - destruct (m_replyTo m) as [a|] eqn:A; [|done]. destruct (R a eq_refl) as [s' P']. destruct (HString _ _ P') as [-> _]. done. }
  assert (L : forall n l, validFieldName n = true -> Forall (fun a => exists s, ParseAddress s = Some a) l -> forallb good_field (listed n l) = true).
  { intros n l V F. destruct l as [|a l]; [done|]. cbn [listed forallb]. unfold good_field. cbn [fst snd]. by rewrite V, joined_free. }
  rewrite Ro, !L by done. unfold good_field. cbn [fst snd]. rewrite encodeText_free, HDate, !crlf_free_cons, !crlf_free_app, HId, !crlf_free_cons, crlf_free_app, Dm, domain_free by done. done.
Qed.

(** *** No field twice *)

Definition lower_name (k : gostring) : gostring := map lower_byte k.
Definition count_name (n : gostring) (l : list gostring) : nat := length (List.filter (fun k => seq_eqb (lower_name k) (lower_name n)) l).

Definition own_names : list gostring :=
  map str ["From"; "Reply-To"; "To"; "Cc"; "Bcc"; "Subject"; "Date"; "Message-ID"; "MIME-Version"; "Content-Type"; "Content-Transfer-Encoding"]%string.

Lemma token_lower c : token_byte (lower_byte c) = token_byte c.
Proof. each_byte c; vm_compute; reflexivity. Qed.
Lemma upper_lower c : upper_case (lower_byte c) = upper_case c /\ lower_byte (lower_byte c) = lower_byte c /\ beq (lower_byte c) "-" = beq c "-" /\
  beq (upper_case c) "-" = beq c "-" /\ lower_byte (upper_case c) = lower_byte c /\ token_byte (upper_case c) = token_byte c.
Proof. each_byte c; vm_compute; split_and!; reflexivity. Qed.

Lemma canonical_lower u k : canonical_go u (lower_name k) = canonical_go u k.
Proof. revert u. induction k as [|c k IH]; intros u; [done|]. cbn. destruct (upper_lower c) as (U & L & Dc & _). rewrite IH, Dc. by destruct u; rewrite ?U, ?L. Qed.

Lemma lower_canonical u k : lower_name (canonical_go u k) = lower_name k.
Proof. revert u. induction k as [|c k IH]; intros u; [done|]. cbn. unfold lower_name in IH. rewrite IH. destruct (upper_lower c) as (U & L & _ & _ & LU & _). by destruct u; rewrite ?L, ?LU. Qed.

Lemma token_lower_all k : forallb token_byte (lower_name k) = forallb token_byte k.
Proof. induction k as [|c k IH]; [done|]. cbn. unfold lower_name in IH. by rewrite IH, token_lower. Qed.

(** A key that is some name, case ignored, has that name's canonical form. *)
Lemma canonical_unique k n : forallb token_byte n = true -> lower_name (CanonicalMIMEHeaderKey k) = lower_name n -> CanonicalMIMEHeaderKey k = canonical_go true n.
Proof.
  intros T E. unfold CanonicalMIMEHeaderKey in *. destruct (forallb token_byte k) eqn:K.
  - rewrite lower_canonical in E. rewrite <- (canonical_lower true k), E. apply canonical_lower.
  - rewrite <- token_lower_all, E, token_lower_all in K. congruence.
Qed.

Lemma count_app n l r : count_name n (l ++ r) = (count_name n l + count_name n r)%nat.
Proof. unfold count_name. by rewrite List.filter_app, length_app. Qed.

Lemma count_extra n extra : n ∈ own_names -> Forall extra_ok extra -> count_name n (map fst (sorted_fields (mdel (str "Reply-To") extra))) = 0%nat.
Proof.
  intros N X. unfold count_name. destruct (List.filter _ _) as [|k ks] eqn:E; [done|]. exfalso.
  assert (I : In k (k :: ks)) by (by left). rewrite <- E in I. apply filter_In in I as [I L]. apply in_map_iff in I as (f & <- & I). apply list_elem_of_In, sorted_fields_in, list_elem_of_In, filter_In in I as [I R].
  rewrite Forall_forall in X. destruct (X f) as (_ & O & k' & K); [by apply list_elem_of_In|]. apply bool_decide_eq_true in L.
  assert (T : forallb token_byte n = true /\ (own_field (canonical_go true n) = true \/ canonical_go true n = str "Reply-To")).
  { unfold own_names in N. repeat (apply elem_of_cons in N as [->|N]; [vm_compute; auto|]). by apply elem_of_nil in N. }
  destruct T as [T U]. rewrite K in L. apply canonical_unique in L; [|done]. rewrite <- K in L. rewrite <- L in U. destruct U as [U|U]; [congruence|].
  rewrite U in R. by destruct (seq_eqbP (str "Reply-To") (str "Reply-To")).
Qed.

Lemma count_own n m to cc subject extra b : n ∈ own_names -> Forall extra_ok extra -> body_header b ->
  (count_name n (map fst (mail_fields m to cc subject extra b)) <= if seq_eqb n (str "Bcc") then 0 else 1)%nat.
Proof.
  intros N X [_ B]. unfold mail_fields. cbn [map]. rewrite !map_app, <- (app_nil_l (_ :: _)), app_comm_cons. change (?x :: ?l) with ([x] ++ l). rewrite !count_app, count_extra by done.
  assert (Bh : map fst (sorted_fields (header b)) = [str "Content-Transfer-Encoding"; str "Content-Type"] \/ map fst (sorted_fields (header b)) = [str "Content-Type"]).
  { unfold sorted_fields, sorted_keys. rewrite map_map. cbn [fst]. rewrite map_id. destruct B as [-> | ->]; [left|right]; vm_compute; reflexivity. }
  unfold optional, listed. destruct (seq_eqb (reply_to m extra) []), to as [|t to], cc as [|c cc], Bh as [-> | ->]; cbn [map fst];
    unfold own_names in N; repeat (apply elem_of_cons in N as [->|N]; [vm_compute; lia|]); by apply elem_of_nil in N.
Qed.

(** [C21] No text gets into the header but as the text of its own field: a reader
    of RFC 5322 finds in a composed mail the mailer's fields and the checked
    extra ones, in order, with these texts; none of the mailer's fields twice,
    in any spelling; and no Bcc. *)
Theorem compose_reads (m : mailer) (msg : message) (raw : gostring) : made m -> compose m msg = Ok raw ->
  exists to cc extra b,
    addresses (str "to") (To msg) = Ok to /\ addresses (str "cc") (Cc msg) = Ok cc /\ extraFields (Headers msg) = Ok extra /\ bodyOf msg = Ok b /\
    read_message raw = Some (mail_fields m to cc (Subject msg) extra b, body b) /\
    forall n, n ∈ own_names -> (count_name n (map fst (mail_fields m to cc (Subject msg) extra b)) <= if seq_eqb n (str "Bcc") then 0 else 1)%nat.
Proof.
  intros M E. apply compose_fields in E as (to & cc & extra & b & Et & Ec & Ex & Eb & ->). exists to, cc, extra, b. repeat split; try done.
  - assert (X : Forall extra_ok extra) by (eapply extra_good; [exact Ex|constructor]).
    apply read_written. apply mail_fields_good; eauto using addresses_made, bodyOf_header. eapply Forall_impl; [exact X|]. by intros f (G & _).
  - intros n N. apply count_own; eauto using bodyOf_header. eapply extra_good; [exact Ex|constructor].
Qed.

(** *** Blind copies *)

Definition with_bcc (msg : message) (l : list gostring) : message :=
  Message D (To msg) (Cc msg) l (Subject msg) (Text msg) (HTML msg) (Template msg) (Data msg) (Headers msg) (Attachments msg).

(** A mail does not show its Bcc: with other blind recipients, that are
    addresses too, it is composed the same. *)
Theorem bcc_hidden (m : mailer) (msg : message) (l : list gostring) (raw : gostring) :
  compose m msg = Ok raw -> is_ok (recipients (with_bcc msg l)) = true -> compose m (with_bcc msg l) = Ok raw.
Proof.
  unfold Mail.compose. intros E R. apply rbind_Ok in E as (rc & _ & E). destruct (recipients (with_bcc msg l)) as [rc'|]; [|done]. cbn [rbind]. exact E.
Qed.
End message.

(** ** Folding *)

(** A line of a field is short, or holds nothing but the name, or a word too long
    for any line. *)
Definition narrow (name value l : gostring) : Prop :=
  (Z.of_nat (length l) <= foldWidth) \/ l = name ++ [":"%char] \/ exists w, w ∈ split " " value /\ (l = " "%char :: w \/ l = str "  " ++ w).

Lemma fold_narrow name value cur width words : width = Z.of_nat (length cur) ->
  (narrow name value cur /\ (width <= 1 -> cur = str " ")) -> (forall w, w ∈ words -> w ∈ split " " value) -> Forall (narrow name value) (fold_lines cur width words).
Proof.
  revert cur width. induction words as [|w ws IH]; intros cur width W [N S] I; cbn [fold_lines]; [by constructor|].
  assert (Iw : forall x, x ∈ ws -> x ∈ split " " value) by (intros x Hx; apply I; by right).
  destruct (Z.ltb_spec foldWidth (width + 1 + Z.of_nat (length w))) as [L|L]; cbn [andb].
  - destruct (Z.ltb_spec 1 width) as [L1|L1].
    + constructor; [done|]. apply IH; [cbn [length]; lia| |done]. split.
      * right. right. exists w. split; [apply I; by left|by left].
      * intros L2. destruct w; [done|cbn [length] in L2; lia].
    + specialize (S L1) as ->. apply IH; [cbn in *; lia| |done]. split; [|cbn in *; unfold foldWidth in *; lia].
      right. right. exists w. split; [apply I; by left|by right].
  - apply IH; [rewrite length_app; cbn [length]; lia| |done]. split; [left; rewrite length_app; cbn [length]; lia|].
    intros L2. assert (length cur = 0%nat) as E by lia. apply nil_length_inv in E as ->. exfalso. cbn in W. subst width. specialize (S ltac:(lia)). done.
Qed.

(** Every line of a field fits 76 characters wherever a word allows it. *)
Lemma field_narrow name value : name <> [] -> Forall (narrow name value) (field_lines name value).
Proof.
  intros N. apply fold_narrow; [rewrite length_app; cbn; lia| |done]. split; [by right; left|]. destruct name; [done|cbn [length]; lia].
Qed.

(** A value with three spaces in a row can fold into a line of white space only. *)
Example blank_line_folded :
  field_lines (str "X-A") (replicate 71 "x"%char ++ str "   " ++ replicate 75 "y"%char) =
    [str "X-A: " ++ replicate 71 "x"%char; str "  "; " "%char :: replicate 75 "y"%char].
Proof. vm_compute. reflexivity. Qed.

(** ** Encoded words are read back *)

Definition hex_digit (c : ascii) : option Z :=
  let b := byte_val c in
  if (48 <=? b) && (b <=? 57) then Some (b - 48) else if (65 <=? b) && (b <=? 70) then Some (b - 55) else if (97 <=? b) && (b <=? 102) then Some (b - 87) else None.

(** RFC 2047's Q encoding: "=XX" is a byte, "_" a space. *)
Fixpoint q_decode (s : gostring) : option gostring :=
  match s with
  | [] => Some []
  | c :: s' =>
      if beq c "_" then option_map (cons " "%char) (q_decode s')
      else if beq c "=" then
        match s' with
        | a :: b :: s'' => match hex_digit a, hex_digit b with Some x, Some y => option_map (cons (ascii_of_N (Z.to_N (x * 16 + y)))) (q_decode s'') | _, _ => None end
        | _ => None
        end
      else if printable c then option_map (cons c) (q_decode s') else None
  end.

(** The text before the first [pat], and what follows it. *)
Fixpoint cut_at (pat s : gostring) : option (gostring * gostring) :=
  if has_prefix pat s then Some ([], drop (length pat) s)
  else match s with [] => None | c :: s' => option_map (fun p => (c :: p.1, p.2)) (cut_at pat s') end.

Fixpoint holds_mark (s : gostring) : bool := has_prefix (str "=?") s || match s with [] => false | _ :: s' => holds_mark s' end.

Section reader.
(** How the reader takes words of other charsets, and of the B encoding. *)
Context (other : gostring -> ascii -> gostring -> option gostring).

(** An encoded word that [s] begins with: what it says, and what follows. *)
Definition read_word (s : gostring) : option (gostring * gostring) :=
  if negb (has_prefix (str "=?") s) then None
  else match cut_at (str "?") (drop 2 s) with
       | Some (charset, e :: q :: s') =>
           if negb (beq q "?") then None
           else match cut_at (str "?=") s' with
                | Some (text, rest) =>
                    option_map (fun t => (t, rest))
                      (if seq_eqb (to_lower charset) (str "utf-8") && (beq e "q" || beq e "Q") then q_decode text else other charset e text)
                | None => None
                end
       | _ => None
       end.

(** A reader of RFC 2047: encoded words are read wherever they stand, and the
    white space between two of them is dropped. *)
Fixpoint decode_go (fuel : nat) (between : bool) (gap s : gostring) : gostring :=
  match fuel, s with
  | S fuel', c :: s' =>
      match read_word s with
      | Some (t, rest) => (if between && forallb (fun c => existsb (beq c) [" "; "009"; "010"; "013"]%char) gap then [] else gap) ++ t ++ decode_go fuel' true [] rest
      | None => decode_go fuel' between (gap ++ [c]) s'
      end
  | _, _ => gap ++ s
  end.

Definition decodeText (s : gostring) : gostring := decode_go (length s) false [] s.

Lemma q_byte_decode c s : q_decode (q_byte c ++ s) = option_map (cons c) (q_decode s).
Proof.
  assert (Q : (q_byte c = ["_"%char] /\ c = " "%char) \/ (q_byte c = [c] /\ printable c = true /\ beq c "_" = false /\ beq c "=" = false) \/
    exists a b x y, q_byte c = ["="%char; a; b] /\ hex_digit a = Some x /\ hex_digit b = Some y /\ ascii_of_N (Z.to_N (x * 16 + y)) = c).
  { unfold q_byte. destruct (beq c " ") eqn:E; [apply beq_true in E; by left|]. right. destruct (q_plain c) eqn:P.
    - left. unfold q_plain in P. apply andb_prop in P as [P U]. apply andb_prop in P as [P _]. apply andb_prop in P as [P Q]. apply negb_true_iff in U, Q. done.
    - right. exists (upper_hex (byte_val c / 16)), (upper_hex (byte_val c mod 16)), (byte_val c / 16), (byte_val c mod 16). split; [done|]. clear E P. each_byte c; vm_compute; repeat split. }
  destruct Q as [[-> ->]|[(-> & P & E1 & E2)|(a & b & x & y & -> & Ha & Hb & E)]]; [done| |].
  - cbn [app q_decode]. by rewrite E1, E2, P.
  - cbn [app q_decode]. change (beq "=" "_") with false. rewrite beq_refl, Ha, Hb. by rewrite E.
Qed.

Lemma q_bytes_decode d : q_decode (flat_map q_byte d) = Some d.
Proof. induction d as [|c d IH]; [done|]. cbn [flat_map]. by rewrite q_byte_decode, IH. Qed.

Lemma q_byte_marks c : forallb (fun x => negb (beq x "?")) (q_byte c) = true.
Proof.
  each_byte c; vm_compute; reflexivity.
Qed.

Lemma cut_at_close t rest : forallb (fun x => negb (beq x "?")) t = true -> cut_at (str "?=") (t ++ close_word ++ rest) = Some (t, rest).
Proof.
  induction t as [|c t IH]; intros N; [done|]. cbn [forallb] in N. apply andb_prop in N as [N1 N2]. apply negb_true_iff in N1.
  cbn [app cut_at]. assert (P : has_prefix (str "?=") (c :: t ++ close_word ++ rest) = false).
  { destruct (has_prefix _ _) eqn:P; [|done]. apply has_prefix_spec in P as [u E]. injection E as -> _. by rewrite beq_refl in N1. }
  by rewrite P, (IH N2).
Qed.

Lemma read_word_open d rest : read_word (open_word ++ flat_map q_byte d ++ close_word ++ rest) = Some (d, rest).
Proof.
  assert (N : forallb (fun x => negb (beq x "?")) (flat_map q_byte d) = true).
  { induction d as [|c d IH]; [done|]. cbn [flat_map]. by rewrite forallb_app, q_byte_marks, IH. }
  unfold read_word. change (cut_at (str "?") (drop 2 (open_word ++ flat_map q_byte d ++ close_word ++ rest))) with (Some (str "utf-8", str "q?" ++ flat_map q_byte d ++ close_word ++ rest)).
  cbn [app str String.list_ascii_of_string has_prefix open_word]. rewrite (cut_at_close _ _ N), q_bytes_decode. done.
Qed.

(** The words of a text, read from within the first. *)
Lemma q_go_decode skip cur s : forall d fuel between gap, between && forallb (fun c => existsb (beq c) [" "; "009"; "010"; "013"]%char) gap = true \/ gap = [] ->
  (length (open_word ++ flat_map q_byte d ++ q_go skip cur s ++ close_word) <= fuel)%nat ->
  decode_go fuel between gap (open_word ++ flat_map q_byte d ++ q_go skip cur s ++ close_word) = d ++ s.
Proof.
  assert (Step : forall d rest fuel between gap, between && forallb (fun c => existsb (beq c) [" "; "009"; "010"; "013"]%char) gap = true \/ gap = [] ->
    decode_go (S fuel) between gap (open_word ++ flat_map q_byte d ++ close_word ++ rest) = d ++ decode_go fuel true [] rest).
  { intros d rest fuel between gap G. change (decode_go (S fuel) between gap (open_word ++ flat_map q_byte d ++ close_word ++ rest)) with
      (match read_word (open_word ++ flat_map q_byte d ++ close_word ++ rest) with
       | Some (t, rest) => (if between && forallb (fun c => existsb (beq c) [" "; "009"; "010"; "013"]%char) gap then [] else gap) ++ t ++ decode_go fuel true [] rest
       | None => decode_go fuel between (gap ++ ["="%char]) (drop 1 (open_word ++ flat_map q_byte d ++ close_word ++ rest)) end).
    rewrite read_word_open. destruct G as [->| ->]; [done|]. by destruct (between && _). }
  revert skip cur. induction s as [|c s IH]; intros skip cur d fuel between gap G L; (destruct fuel as [|fuel]; [cbn in L; lia|]).
  - cbn [q_go app]. rewrite <- (app_nil_r close_word), Step by done. by destruct fuel.
  - assert (Snoc : forall k n, (length (open_word ++ flat_map q_byte d ++ (q_byte c ++ q_go k n s) ++ close_word) <= S fuel)%nat ->
      decode_go (S fuel) between gap (open_word ++ flat_map q_byte d ++ (q_byte c ++ q_go k n s) ++ close_word) = d ++ c :: s).
    { intros k n. replace (flat_map q_byte d ++ (q_byte c ++ q_go k n s) ++ close_word) with (flat_map q_byte (d ++ [c]) ++ q_go k n s ++ close_word) by (by rewrite flat_map_app; cbn [flat_map]; rewrite app_nil_r, <- !app_assoc).
      intros Ln. rewrite IH by done. by rewrite <- app_assoc. }
    cbn [q_go] in L |- *. destruct skip as [|k]; [|by apply Snoc]. destruct (63 <? _); [|by apply Snoc].
    set (n := if q_plain c then 1%nat else _) in *. set (e := if q_plain c then 1 else _) in *. clearbody n e. clear Snoc.
    assert (E : (close_word ++ " "%char :: open_word ++ q_byte c ++ q_go (n - 1) e s) ++ close_word = close_word ++ " "%char :: (open_word ++ flat_map q_byte [c] ++ q_go (n - 1) e s ++ close_word)).
    { cbn [flat_map]. rewrite app_nil_r. rewrite <- !app_assoc. cbn [app]. by rewrite <- !app_assoc. }
    rewrite E in L |- *. rewrite Step by done. f_equal. rewrite !length_app in L. cbn [length] in L. destruct fuel as [|fuel]; [change (length open_word) with 10%nat in L; lia|].
    change (decode_go (S fuel) true [] (" "%char :: ?x)) with (decode_go fuel true [" "%char] x). rewrite IH; [done|by left|].
    change (length open_word) with 10%nat in L. rewrite !length_app in L |- *. change (length open_word) with 10%nat in *. change (length close_word) with 2%nat in *. lia.
Qed.

Lemma plain_decode s : holds_mark s = false -> forall fuel between gap, decode_go fuel between gap s = gap ++ s.
Proof.
  induction s as [|c s IH]; intros M fuel between gap; [by destruct fuel|]. cbn [holds_mark] in M. apply orb_false_elim in M as [M1 M2].
  destruct fuel as [|fuel]; [done|]. cbn [decode_go]. unfold read_word. rewrite M1. cbn [negb]. rewrite (IH M2), <- app_assoc. done.
Qed.

(** A subject or header text comes back from its encoding under a reader of
    RFC 2047 that reads encoded words wherever they stand, however it takes
    other charsets and encodings: whatever its bytes - invalid UTF-8, line
    breaks, marks - where it is not plain ASCII; a text of plain ASCII goes out
    as it is, and reads as itself unless the mark "=?" of a word is in it. *)
Theorem encodeText_decode (s : gostring) : needsEncoding s || negb (holds_mark s) = true -> decodeText (encodeText s) = s.
Proof.
  unfold encodeText, decodeText. destruct (needsEncoding s); cbn [orb]; intros H.
  - by apply (q_go_decode 0 0 s [] _ false []); [right|].
  - apply negb_true_iff in H. by apply plain_decode.
Qed.
End reader.

Lemma encodeText_decode_witness : decodeText (fun _ _ _ => None) (encodeText (str "a=b? =?utf-8?q?x?=_" ++ map ascii_of_nat [195; 169; 13; 10; 255]%nat)) = str "a=b? =?utf-8?q?x?=_" ++ map ascii_of_nat [195; 169; 13; 10; 255]%nat.
Proof. apply encodeText_decode. vm_compute. reflexivity. Defined.

(** A plain text that reads as an encoded word does not come back. *)
Example plain_mark_read : encodeText (str "=?utf-8?q?Re:_hi?=") = str "=?utf-8?q?Re:_hi?=" /\ decodeText (fun _ _ _ => None) (str "=?utf-8?q?Re:_hi?=") = str "Re: hi".
Proof. vm_compute. split; reflexivity. Qed.

(** ** The relay *)

Section smtp.
Context (ParseAddress : gostring -> option address) (takes : list cmd -> cmd -> bool) (offers_tls : bool) {D : Type}.
Notation say := (say takes).
Notation recipients := (recipients ParseAddress).
Notation smtpSession := (smtpSession ParseAddress takes offers_tls (D := D)).

(** The commands of a session nothing goes wrong in. *)
Definition plan (cfg : config) (m : mailer) (rcpt : list gostring) (raw : gostring) : list cmd :=
  let c := SMTP cfg in
  [Dial (Host c) (Port c)] ++ (if seq_eqb (TLS c) (str "implicit") then [Handshake] else []) ++ [Greeting; Ehlo]
  ++ (if seq_eqb (TLS c) (str "starttls") then [StartTLS] else []) ++ (if seq_eqb (Username c) [] then [] else [Auth (Username c) (Password c)])
  ++ [MailFrom (a_addr (m_from m))] ++ map RcptTo rcpt ++ [DataCmd; DataWrite raw; DataEnd; QuitCmd].

(** Its part before the recipients. *)
Definition front (cfg : config) (m : mailer) : list cmd :=
  let c := SMTP cfg in
  [Dial (Host c) (Port c)] ++ (if seq_eqb (TLS c) (str "implicit") then [Handshake] else []) ++ [Greeting; Ehlo]
  ++ (if seq_eqb (TLS c) (str "starttls") then [StartTLS] else []) ++ (if seq_eqb (Username c) [] then [] else [Auth (Username c) (Password c)])
  ++ [MailFrom (a_addr (m_from m))].

Definition run (cs : list cmd) (s : session) : session := fold_left (fun s c => say c s) cs s.

Lemma run_app cs ds s : run (cs ++ ds) s = run ds (run cs s).
Proof. apply fold_left_app. Qed.

Lemma run_dead cs l e : run cs (l, Some e) = (l, Some e).
Proof. by induction cs. Qed.

(** A run says a part of its commands: all of them were taken but the last, when
    it ended in an error. *)
Lemma run_part cs l : exists k, (run cs (l, None)).1 = l ++ take k cs /\
  ((run cs (l, None)).2 = None -> take k cs = cs) /\
  (forall i c, take k cs !! i = Some c -> (S i < k)%nat \/ (run cs (l, None)).2 = None -> takes (l ++ take i cs) c = true).
Proof.
  revert l. induction cs as [|c cs IH]; intros l; [exists 0%nat; cbn; rewrite app_nil_r; done|]. cbn [run fold_left Mail.say].
  destruct (takes l c) eqn:T.
  - destruct (IH (l ++ [c])) as (k & E & F & G). exists (S k). unfold run in *. rewrite E, <- app_assoc. split; [done|]. split; [intros H; cbn; by rewrite (F H)|].
    intros [|i] d H L; cbn [take] in *; [injection H as <-; cbn; by rewrite app_nil_r|]. cbn in H. change (l ++ c :: take i cs) with (l ++ [c] ++ take i cs). rewrite app_assoc. apply G; [done|]. destruct L; [left; lia|by right].
  - exists 1%nat. fold (run cs (l ++ [c], Some (Refused c))). rewrite run_dead. cbn. split; [done|]. split; [done|]. intros [|i] d H [L|L]; try done; lia.
Qed.

(** A session is part of its plan: what it said was taken, but the last when it
    failed. *)
Definition part_of (cs : list cmd) (s : session) : Prop :=
  exists k, s.1 = take k cs /\ (s.2 = None -> take k cs = cs) /\
    forall i c, s.1 !! i = Some c -> (S i < k)%nat \/ s.2 = None -> takes (take i cs) c = true.

Lemma run_part_of cs : part_of cs (run cs ([], None)).
Proof.
  destruct (run_part cs []) as (k & E & F & G). exists k. cbn [app] in *. split; [done|]. split; [done|]. intros i c H. rewrite E in H. by apply G.
Qed.

Lemma part_of_app cs ds l e : part_of cs (l, Some e) -> part_of (cs ++ ds) (l, Some e).
Proof.
  intros (k & E & _ & G). cbn [fst snd] in *. exists (k `min` length cs)%nat. cbn [fst snd].
  assert (T : take (k `min` length cs) (cs ++ ds) = l) by (rewrite take_app_le by lia; rewrite E, <- take_take, (take_ge cs (length cs)) by lia; done).
  split; [done|]. split; [done|]. intros i c H [L|L]; [|done]. rewrite take_app_le by lia. apply G; [done|left; lia].
Qed.

Lemma part_of_end cs l e : run cs ([], None) = (l, None) -> part_of cs (l, Some e).
Proof.
  intros R. destruct (run_part_of cs) as (k & E & F & G). rewrite R in *. cbn [fst snd] in *. exists (k `max` S (length cs))%nat. cbn [fst snd].
  rewrite E, (F eq_refl) in *. rewrite take_ge by lia. split; [done|]. split; [done|]. intros i c H _. apply G; [done|by right].
Qed.

Lemma run_map {A} (f : A -> cmd) l s : run (map f l) s = fold_left (fun s x => say (f x) s) l s.
Proof. revert s. induction l as [|x l IH]; intros s; [done|apply IH]. Qed.

Lemma session_part cfg m (msg : message D) raw rcpt : recipients msg = Ok rcpt -> part_of (plan cfg m rcpt raw) (smtpSession cfg m msg raw).
Proof.
  intros R. unfold Mail.smtpSession. rewrite R. set (c := SMTP cfg).
  set (pre := [Dial (Host c) (Port c)] ++ (if seq_eqb (TLS c) (str "implicit") then [Handshake] else []) ++ [Greeting; Ehlo]).
  set (post := (if seq_eqb (Username c) [] then [] else [Auth (Username c) (Password c)]) ++ [MailFrom (a_addr (m_from m))] ++ map RcptTo rcpt ++ [DataCmd; DataWrite raw; DataEnd; QuitCmd]).
  assert (P : plan cfg m rcpt raw = pre ++ (if seq_eqb (TLS c) (str "starttls") then [StartTLS] else []) ++ post) by (unfold plan, pre, post; fold c; by rewrite <- !app_assoc).
  assert (S1 : say Ehlo (say Greeting (if seq_eqb (TLS c) (str "implicit") then say Handshake (say (Dial (Host c) (Port c)) ([], None)) else say (Dial (Host c) (Port c)) ([], None))) = run pre ([], None)).
  { unfold pre. by destruct (seq_eqb (TLS c) (str "implicit")). }
  cbv zeta. rewrite S1. clear S1.
  assert (S2 : forall s, say QuitCmd (say DataEnd (say (DataWrite raw) (say DataCmd (fold_left (fun s to => say (RcptTo to) s) rcpt
    (say (MailFrom (a_addr (m_from m))) (if seq_eqb (Username c) [] then s else say (Auth (Username c) (Password c)) s)))))) = run post s).
  { intros s. unfold post. rewrite !run_app, run_map. by destruct (seq_eqb (Username c) []). }
  rewrite S2, P. destruct (seq_eqb (TLS c) (str "starttls")); [|cbn [app]; rewrite <- run_app; apply run_part_of].
  destruct (run pre ([], None)) as [l [e|]] eqn:E.
  - rewrite run_dead. apply part_of_app. rewrite <- E. apply run_part_of.
  - destruct offers_tls; [|rewrite run_dead; by apply part_of_app, part_of_end]. rewrite <- E. change (say StartTLS (run pre ([], None))) with (run [StartTLS] (run pre ([], None))).
    rewrite <- !run_app. apply run_part_of.
Qed.

Lemma before (x y : cmd) P1 P2 i : x ∉ P1 -> x <> y -> (P1 ++ y :: P2) !! i = Some x -> (length P1 < i)%nat.
Proof.
  intros N Ne H. destruct (decide (i < length P1)%nat) as [L|L]; [rewrite lookup_app_l in H by done; by apply list_elem_of_lookup_2 in H|].
  rewrite lookup_app_r in H by lia. destruct (i - length P1)%nat as [|k] eqn:E; [cbn in H; congruence|lia].
Qed.

Lemma part_before cs s P1 y P2 i x : part_of cs s -> cs = P1 ++ y :: P2 -> x ∉ P1 -> x <> y -> s.1 !! i = Some x ->
  exists j, (j < i)%nat /\ s.1 !! j = Some y /\ takes (take j s.1) y = true.
Proof.
  intros (k & E & _ & G) C N Ne H. assert (Hc : cs !! i = Some x) by (rewrite E in H; by apply lookup_take_Some in H as [H _]).
  assert (Lk : (i < k)%nat) by (rewrite E in H; by apply lookup_take_Some in H as [_ H]).
  assert (L : (length P1 < i)%nat) by (rewrite C in Hc; by apply before in Hc). exists (length P1). split; [done|].
  assert (Y : s.1 !! length P1 = Some y) by (rewrite E, lookup_take_lt by lia; rewrite C, list_lookup_middle; done). split; [done|].
  rewrite E, take_take, Nat.min_l by lia. apply G; [done|left; lia].
Qed.

Context (parse_partial : gostring -> source -> bool) (parse_template : gostring -> list source -> source -> option (@template D)) (loopback_ip : gostring -> bool).
Notation New := (New ParseAddress parse_partial parse_template loopback_ip).

(** A mailer that sends by SMTP was built with one of the three ways of TLS, and
    in the clear to this host only; and every mailer's addresses are parsed. *)
Lemma New_made mkdir cfg l s : New mkdir cfg l = Ok s -> made ParseAddress (s_mailer s) /\
  (s_deliver s = SendSMTP -> let c := SMTP (s_cfg s) in
    (TLS c = str "starttls" \/ TLS c = str "implicit" \/ TLS c = str "none" /\ isLoopback loopback_ip (Host c) = true)).
Proof.
  unfold Mail.New. intros E. apply rbind_Ok in E as (o & _ & E). set (cf := withDefaults cfg) in *. destruct (check_config ParseAddress cf) eqn:Ck; [|done].
  destruct (1 <? o_templatesSet o); [done|]. destruct (_ && _); [done|]. destruct (_ && _); [done|]. apply rbind_Ok in E as (t & _ & E).
  unfold check_config in Ck. apply app_eq_nil in Ck as [_ Ck]. apply app_eq_nil in Ck as [Ct Ck]. unfold Validate in Ck. apply app_eq_nil in Ck as [Cf Ck]. apply app_eq_nil in Ck as [Cr _].
  assert (M : made ParseAddress (Mailer (default (Address [] []) (ParseAddress (From cf))) (if seq_eqb (ReplyTo cf) [] then None else ParseAddress (ReplyTo cf)) (domain_of (a_addr (default (Address [] []) (ParseAddress (From cf))))))).
  { destruct (seq_eqb (trim_space (From cf)) []); [done|]. destruct (ParseAddress (From cf)) eqn:P; [|done]. repeat split; cbn; [eauto|].
    intros b B. destruct (seq_eqb _ _); [done|eauto]. }
  assert (T : existsb (seq_eqb (TLS (SMTP cf))) (map str [""; "starttls"; "implicit"; "none"]%string) = true) by (by destruct (existsb _ _)).
  assert (N : TLS (SMTP cf) <> []) by (cbn; unfold or_default; destruct (seq_eqbP (TLS (SMTP cfg)) []); done).
  destruct (o_sender o); [injection E as <-; by split|]. destruct (seq_eqb (Transport cf) (str "dir")); [destruct (seq_eqb (Dir cf) []); [done|]; destruct (negb (mkdir (Dir cf))); [done|]; injection E as <-; by split|].
  destruct (seq_eqb (Transport cf) (str "log")); [injection E as <-; by split|]. apply rbind_Ok in E as (u & Es & E). injection E as <-. split; [exact M|]. intros _. cbn [s_cfg].
  apply existsb_exists in T as (x & I & X). destruct (seq_eqbP (TLS (SMTP cf)) x) as [Ex|]; [|done]. rewrite Ex in *. clearbody cf.
  destruct I as [<-|[<-|[<-|[<-|[]]]]]; [done|by left|by right; left|]. right. right. split; [done|]. unfold setupSMTP in Es. rewrite Ex in Es.
  destruct (seq_eqb (Host (SMTP cf)) []); [done|]. cbn in Es. by destruct (isLoopback loopback_ip (Host (SMTP cf))).
Qed.

(** What a member of a plan is. *)
Ltac in_plan W :=
  repeat match type of W with
    | _ ∈ _ ++ _ => apply elem_of_app in W as [W|W]
    | _ ∈ _ :: _ => apply elem_of_cons in W as [W|W]
    | _ ∈ [] => by apply elem_of_nil in W
    | _ ∈ (if ?b then _ else _) => destruct b
    | _ ∈ map _ _ => apply list_elem_of_fmap in W as (? & W & _)
    end; congruence.

Ltac not_in := repeat (apply not_elem_of_cons; split; [done|]); apply not_elem_of_nil.

(** [C22] The relay's password is sent over TLS only, or to this host: in every
    session of a mailer New made, a handshake that succeeded comes before AUTH. *)
Theorem credentials_encrypted mkdir cfg l s msg raw i u p : New mkdir cfg l = Ok s -> s_deliver s = SendSMTP ->
  let t := (smtpSession (s_cfg s) (s_mailer s) msg raw).1 in t !! i = Some (Auth u p) ->
  isLoopback loopback_ip (Host (SMTP (s_cfg s))) = true \/
  exists j c, (j < i)%nat /\ t !! j = Some c /\ (c = Handshake \/ c = StartTLS) /\ takes (take j t) c = true.
Proof.
  intros N Dl t A. destruct (New_made _ _ _ _ N) as [_ T]. specialize (T Dl). cbn zeta in T. destruct (recipients msg) as [rcpt|e] eqn:R; [|unfold t, Mail.smtpSession in A; by rewrite R in A].
  pose proof (session_part (s_cfg s) (s_mailer s) msg raw rcpt R) as P. destruct T as [T|[T|[_ T]]]; [right..|by left].
  - destruct (part_before _ _ ([Dial (Host (SMTP (s_cfg s))) (Port (SMTP (s_cfg s)))] ++ [Greeting; Ehlo]) StartTLS
      ((if seq_eqb (Username (SMTP (s_cfg s))) [] then [] else [Auth (Username (SMTP (s_cfg s))) (Password (SMTP (s_cfg s)))]) ++ [MailFrom (a_addr (m_from (s_mailer s)))] ++ map RcptTo rcpt ++ [DataCmd; DataWrite raw; DataEnd; QuitCmd])
      i (Auth u p) P) as (j & L & J & K); [unfold plan; rewrite T; done|not_in|done|exact A|]. exists j, StartTLS. auto.
  - destruct (part_before _ _ [Dial (Host (SMTP (s_cfg s))) (Port (SMTP (s_cfg s)))] Handshake
      ([Greeting; Ehlo] ++ (if seq_eqb (Username (SMTP (s_cfg s))) [] then [] else [Auth (Username (SMTP (s_cfg s))) (Password (SMTP (s_cfg s)))]) ++ [MailFrom (a_addr (m_from (s_mailer s)))] ++ map RcptTo rcpt ++ [DataCmd; DataWrite raw; DataEnd; QuitCmd])
      i (Auth u p) P) as (j & L & J & K); [unfold plan; rewrite T; done|not_in|done|exact A|]. exists j, Handshake. auto.
Qed.

(** A mail goes to all its recipients or to none: its text is given to the
    relay only after the relay took every one of them, and Send reports success
    only when it took the text's end. *)
Theorem smtp_all_or_nothing cfg m msg raw rcpt : recipients msg = Ok rcpt ->
  let s := smtpSession cfg m msg raw in
  (forall i text, s.1 !! i = Some (DataWrite text) -> text = raw /\ forall a, a ∈ rcpt -> exists j, (j < i)%nat /\ s.1 !! j = Some (RcptTo a) /\ takes (take j s.1) (RcptTo a) = true) /\
  (s.2 = None -> exists i, s.1 !! i = Some DataEnd /\ takes (take i s.1) DataEnd = true).
Proof.
  intros R s. pose proof (session_part cfg m msg raw rcpt R) as P. fold s in P. split.
  - intros i text W. split.
    + destruct P as (k & E & _). rewrite E in W. apply list_elem_of_lookup_2, elem_of_take in W as (j & W & _). apply list_elem_of_lookup_2 in W. unfold plan in W.
      in_plan W.
    + intros a A. apply list_elem_of_split in A as (r1 & r2 & ->).
      assert (Pl : plan cfg m (r1 ++ a :: r2) raw = (front cfg m ++ map RcptTo r1) ++ RcptTo a :: (map RcptTo r2 ++ [DataCmd; DataWrite raw; DataEnd; QuitCmd]))
        by (unfold plan, front; rewrite map_app; cbn [map]; by rewrite <- !app_assoc).
      apply (part_before _ _ _ _ _ _ (DataWrite text) P Pl); [|done|exact W]. unfold front. intros I. in_plan I.
  - intros Z. destruct P as (k & E & F & G). specialize (F Z). rewrite F in E.
    assert (Pl : plan cfg m rcpt raw = (front cfg m ++ map RcptTo rcpt ++ [DataCmd; DataWrite raw]) ++ [DataEnd; QuitCmd]) by (unfold plan, front; by rewrite <- !app_assoc).
    exists (length (front cfg m ++ map RcptTo rcpt ++ [DataCmd; DataWrite raw])).
    assert (L : s.1 !! length (front cfg m ++ map RcptTo rcpt ++ [DataCmd; DataWrite raw]) = Some DataEnd) by (rewrite E, Pl; by apply list_lookup_middle).
    split; [done|]. rewrite E. apply G; [done|by right].
Qed.
End smtp.

(** A relay that takes the mail and then fails QUIT: the mail is sent, and the
    send an error. *)
Example quit_after_delivery :
  let t := smtpSession (fun s => Some (Address [] s)) (fun _ c => match c with QuitCmd => false | _ => true end) true (D := unit)
    (Config [] [] [] [] 0 (SMTPConfig (str "mx") 25 [] [] (str "none"))) (Mailer (Address [] (str "me@x")) None (str "x")) (Message unit [str "you@y"] [] [] [] [] [] [] None [] []) (str "raw") in
  t.1 !! 7%nat = Some DataEnd /\ t.2 = Some (Refused QuitCmd).
Proof. vm_compute. done. Qed.

(** ** The directory *)

(** Whoever lists transport dir's directory, at any moment of a write, sees
    only whole mails: a name but the temporary one holds what it held, or the
    whole text. *)
Theorem dir_whole (tmp name raw : gostring) (e : fs_events) (d : list (gostring * gostring)) :
  tmp <> name -> mget tmp d = None ->
  let r := writeFile tmp name raw e d in
  (forall d' k, d' ∈ r.1 -> k <> tmp -> mget k d' = mget k d \/ k = name /\ mget k d' = Some raw) /\
  (exists last, List.last r.1 [] = last /\ mget tmp last = None /\ mget name last = if r.2 then Some raw else mget name d).
Proof.
  intros N T r. assert (Dl : forall k, mget k (mdel tmp d) = mget k d).
  { intros k. unfold mdel. clear r. induction d as [|[k1 v] l IH]; [done|]. cbn in *. destruct (seq_eqbP k1 tmp) as [->|N1]; [done|]. cbn.
    destruct (seq_eqb k1 k); [done|by apply IH]. }
  assert (W : forall n d' k, d' ∈ map (fun j => mset tmp (take j raw) d) (seq 0 (S n)) -> k <> tmp -> mget k d' = mget k d).
  { intros n d' k I Ne. apply list_elem_of_fmap in I as (j & -> & _). rewrite mget_mset. destruct (seq_eqbP tmp k); [congruence|done]. }
  assert (S : forall k, mget k (mset name raw (mdel tmp d)) = if seq_eqb name k then Some raw else mget k d) by (intros k; by rewrite mget_mset, Dl).
  unfold r, writeFile. destruct (fs_create e); cbn [negb fst snd].
  2:{ split; [intros d' k I _; apply list_elem_of_singleton in I as ->; by left|]. exists d. done. }
  destruct (fs_write e) as [n|]; [|destruct (negb (fs_close e) || negb (fs_rename e))]; cbn [fst snd].
  - split.
    + intros d' k I Ne. left. apply elem_of_cons in I as [->|I]; [done|]. apply elem_of_app in I as [I|I]; [by apply (W n)|]. by apply list_elem_of_singleton in I as ->.
    + exists (mdel tmp d). rewrite app_comm_cons, last_last, !Dl. done.
  - split.
    + intros d' k I Ne. left. apply elem_of_app in I as [I|I]; [|by apply list_elem_of_singleton in I as ->]. apply elem_of_cons in I as [->|I]; [done|by apply (W (length raw))].
    + exists (mdel tmp d). rewrite last_last, !Dl. done.
  - split.
    + intros d' k I Ne. apply elem_of_app in I as [I|I]; [left; apply elem_of_cons in I as [->|I]; [done|by apply (W (length raw))]|]. apply list_elem_of_singleton in I as ->.
      rewrite S. destruct (seq_eqbP name k) as [<-|]; [by right|by left].
    + exists (mset name raw (mdel tmp d)). rewrite last_last, !S. destruct (seq_eqbP name name); [|done]. destruct (seq_eqbP name tmp); [congruence|done].
Qed.

(** ** Base64 *)

(** An attachment's lines: at most 76 characters each, and together its text. *)
Lemma base64_lines_spec fuel enc : (length enc <= fuel)%nat ->
  exists ls, base64_lines fuel enc = concat (map with_crlf ls) /\ concat ls = enc /\ Forall (fun l => (length l <= 76)%nat) ls.
Proof.
  revert enc. induction fuel as [|fuel IH]; intros enc L; cbn [base64_lines].
  - exists [enc]. cbn. rewrite !app_nil_r. split; [done|]. split; [done|]. repeat constructor. lia.
  - destruct (Nat.ltb_spec 76 (length enc)) as [H|H].
    + destruct (IH (drop 76 enc)) as (ls & -> & E & F); [rewrite length_drop; lia|]. exists (take 76 enc :: ls). cbn [map concat]. unfold with_crlf at 2. rewrite <- app_assoc.
      split; [done|]. rewrite E, take_drop. split; [done|]. constructor; [rewrite length_take; lia|done].
    + exists [enc]. cbn [map concat]. unfold with_crlf. rewrite !app_nil_r. split; [done|]. split; [done|]. by apply Forall_singleton.
Qed.

(** ** Examples *)

Definition sample_parse (s : gostring) : option address := if crlf_free s && negb (seq_eqb s []) then Some (Address [] s) else None.
Definition sample_string (a : address) : gostring := "<"%char :: filter (fun c => clean_byte c = true) (a_addr a) ++ [">"%char].
Definition sample_format (t : gostring) (ps : list (gostring * gostring)) : gostring := filter (fun c => clean_byte c = true) t.

Lemma filter_clean s : crlf_free (filter (fun c => clean_byte c = true) s) = true.
Proof. rewrite crlf_free_forall. apply forallb_forall. intros c I. apply list_elem_of_In, list_elem_of_filter in I. by destruct I. Qed.

Lemma sample_string_free s a : sample_parse s = Some a -> crlf_free (sample_string a) = true /\ crlf_free (a_addr a) = true.
Proof.
  unfold sample_parse. destruct (crlf_free s) eqn:F; [|done]. destruct (negb (seq_eqb s [])); [|done]. intros [= <-]. cbn [a_addr]. split; [|done].
  unfold sample_string. cbn [a_addr]. rewrite crlf_free_cons, crlf_free_app, filter_clean. done.
Qed.

Definition sample_mailer : mailer := Mailer (Address [] (str "shop@x.example")) None (str "x.example").

(** A subject and a file name that try to add a field. *)
Definition sample_message (bcc : list gostring) : message unit :=
  Message unit [str "you@y.example"] [] bcc (str "Hi" ++ crlf ++ str "Bcc: evil@z.example") (str "text") [] [] None
    [(str "list-id", str "<news>"); (str "X-Word", map ascii_of_nat [195; 169]%nat)] [].

Notation sample_compose := (compose sample_parse sample_string id id id (fun s => Some (s, [])) sample_format (str "0123") (fun _ => str "b") (str "now")).

Lemma compose_reads_witness : exists raw, sample_compose sample_mailer (sample_message []) = Ok raw /\ exists fs b, read_message raw = Some (fs, b) /\
  (count_name (str "bcc") (map fst fs) = 0)%nat /\ mget (str "Subject") fs = Some (str "Hi Bcc: evil@z.example").
Proof.
  destruct (sample_compose sample_mailer (sample_message [])) as [raw|e] eqn:E; [|vm_compute in E; discriminate E]. exists raw. split; [reflexivity|].
  destruct (compose_reads sample_parse sample_string id id id (fun s => Some (s, [])) sample_format (str "0123") (fun _ => str "b") (str "now")
    sample_string_free eq_refl (fun _ => eq_refl) eq_refl sample_mailer (sample_message []) raw) as (to & cc & extra & b & Et & Ec & Ex & Eb & R & N).
  - split; [exists (str "shop@x.example"); vm_compute; reflexivity|]. split; [intros a A; discriminate A|vm_compute; reflexivity].
  - exact E.
  - vm_compute in Et, Ec, Ex, Eb. injection Et as <-. injection Ec as <-. injection Ex as <-. injection Eb as <-. eexists _, _. split; [exact R|]. split; vm_compute; reflexivity.
Defined.

Lemma bcc_hidden_witness : exists raw, sample_compose sample_mailer (sample_message []) = Ok raw /\ sample_compose sample_mailer (sample_message [str "boss@x.example"]) = Ok raw.
Proof.
  destruct (sample_compose sample_mailer (sample_message [])) as [raw|e] eqn:E; [|vm_compute in E; discriminate E]. exists raw. split; [reflexivity|].
  apply (bcc_hidden _ _ _ _ _ _ _ _ _ _ sample_mailer (sample_message []) [str "boss@x.example"]); [exact E|vm_compute; reflexivity].
Defined.

Definition sample_config : config := Config [] (str "shop@x.example") [] [] 0 (SMTPConfig (str "mx.example") 0 (str "u") (str "p") []).
Notation sample_new := (New sample_parse (D := unit) (fun _ _ => true) (fun _ _ _ => None) (fun _ => false) (fun _ => true)).

Lemma credentials_encrypted_witness : exists s, sample_new sample_config [] = Ok s /\
  exists j, (j < 4)%nat /\ (smtpSession sample_parse (fun _ _ => true) true (s_cfg s) (s_mailer s) (sample_message []) (str "raw")).1 !! j = Some StartTLS.
Proof.
  destruct (sample_new sample_config []) as [s|e] eqn:E; [|vm_compute in E; discriminate E]. exists s. split; [reflexivity|].
  pose proof (credentials_encrypted sample_parse (fun _ _ => true) true (fun _ _ => true) (fun _ _ _ => None) (fun _ => false) (fun _ => true) sample_config [] s (sample_message []) (str "raw") 4 (str "u") (str "p") E) as H.
  vm_compute in E. injection E as <-. destruct (H eq_refl) as [L|(j & c & J & C & [->| ->] & _)]; [vm_compute; reflexivity|vm_compute in L; discriminate L| |].
  - exfalso. destruct j as [|[|[|[|j]]]]; try (vm_compute in C; discriminate C). lia.
  - exists j. split; [exact J|exact C].
Defined.

Lemma smtp_all_or_nothing_witness :
  exists j, (j < 7)%nat /\ (smtpSession sample_parse (fun _ _ => true) true sample_config sample_mailer (sample_message []) (str "raw")).1 !! j = Some (RcptTo (str "you@y.example")).
Proof.
  destruct (smtp_all_or_nothing sample_parse (fun _ _ => true) true sample_config sample_mailer (sample_message []) (str "raw") [str "you@y.example"]) as [H _]; [vm_compute; reflexivity|].
  destruct (H 7%nat (str "raw")) as [_ R]; [vm_compute; reflexivity|]. destruct (R (str "you@y.example")) as (j & J & C & _); [left|]. exists j. split; [exact J|exact C].
Defined.

Lemma dir_whole_witness :
  let r := writeFile (str ".mail-1") (str "1-ab.eml") (str "text") (FsEvents true (Some 2%nat) true true) [] in
  mget (str "1-ab.eml") (List.last r.1 []) = None /\ mget (str ".mail-1") (List.last r.1 []) = None.
Proof.
  destruct (dir_whole (str ".mail-1") (str "1-ab.eml") (str "text") (FsEvents true (Some 2%nat) true true) []) as [_ (l & E & T & N)]; [discriminate|reflexivity|].
  cbv zeta in *. rewrite E. split; [exact N|exact T].
Defined.
