(* ===== verification/StoreAgg.v ===== *)
(** store/aggregate.go: Sum, Avg, Min, Max, CountDistinct and GroupBy, Pluck and
    PluckIDs, ListIn and ListByIDs.

    A SELECT without an order reads rows by key.  What a database's SUM, AVG,
    MIN and MAX answer, how its driver hands values over and SQLite's strftime
    are parameters, as are the layouts of time.Parse and float64's conversions. *)

From Stdlib Require Import ZArith Lia List Ascii.
From stdpp Require Import base decidable list gmap strings sorting.
From S2P Require Import Prelude GoStrings StoreWhere Store StoreCursor StoreRead.

(** What a driver scans into an [any]. *)
Inductive raw :=
| RNull | RInt (z : Z) | RUint (z : Z) | RFloat (f : Z) | RBool (b : bool) | RBytes (s : gostring) | RText (s : gostring) | RTime (t : Z).

Inductive agg_fn := SUM | AVG | MIN | MAX.

(** The database of an aggregate; [agg_raw] is over the values that are not
    NULL, and [None] where the statement fails. *)
Record AggDb := MkAggDb { sqlite : bool; strftime : value -> value; raw_of : value -> raw; agg_raw : agg_fn -> list value -> option raw }.

(** time.Parse by layout, and float64 of an integer. *)
Record Convert := MkConvert { parse_layout : gostring -> gostring -> option Z; float_of_int : Z -> Z }.

(** What gorm and reflect know of a column: what its GormDBDataType method
    answers if it has one, the type tag, the data type, the serializer tag, and
    what specOf answers. *)
Record column_info := MkInfo { GormDBDataType : option gostring; type_tag : gostring; DataType : gostring; serializer : gostring; specOf : option fieldSpec }.

Inductive agg_error :=
| AStore (e : store_error)
| AOtherTable (col : gostring) | ANoColumn (col : gostring) | AJson (field : gostring) | ANotScalar (field : gostring)
| ATextual (field : gostring) | ANeeds (field : gostring) (kind : gostring) | AReadAs (field : gostring)
| ANoAggregates | AKeyType | AKeyKind (field : gostring) | ANullKey (field : gostring)
| ACountField | AUnknownFunc (fn : gostring)
| AAggregate (i : nat) (e : agg_error)
| ADriver | ARange (s : gostring) | ANegativeKey (z : Z) | ANotNumber (s : gostring) | ANotTime (s : gostring) | ANotBool.

(** ** Kinds *)

Inductive aggKind := aggInt | aggFloat | aggTime.

(** AggValue; [ANull] is its kind aggNull. *)
Inductive AggValue := ANull | AInt (i : Z) | AFloat (f : Z) | ATime (t : Z).

Definition IsNull (v : AggValue) : bool := match v with ANull => true | _ => false end.
Definition Int64 (v : AggValue) : option Z := match v with AInt i => Some i | _ => None end.
Definition Float64 (C : Convert) (v : AggValue) : option Z := match v with AFloat f => Some f | AInt i => Some (float_of_int C i) | _ => None end.
Definition Time (v : AggValue) : option Z := match v with ATime t => Some t | _ => None end.

(** What Sum, Min and Max are read as, and what GroupBy's keys are. *)
Inductive scalar_type := SInt64 | SFloat64 | STime.
Inductive key_type := KeyString | KeyInt64 | KeyUint64 | KeyFloat64 | KeyBool | KeyTime | KeyOther.

(** strings.Contains. *)
Fixpoint contains (sub s : gostring) : bool := has_prefix sub s || match s with [] => false | _ :: s' => contains sub s' end.

Definition declaredType (f : column_info) : gostring :=
  match GormDBDataType f with
  | Some t => if seq_eqb t [] then to_lower (type_tag f) else to_lower t
  | None => to_lower (type_tag f)
  end.

Definition textual_types : list gostring :=
  map str ["char"; "character"; "varchar"; "nchar"; "nvarchar"; "text"; "tinytext"; "mediumtext"; "longtext"; "clob"; "string"; "citext"; "enum"; "set"; "uuid"]%string.

Definition textual (declared : gostring) : bool :=
  match fields (cut "(" declared).1 with
  | [] => false
  | w :: _ => existsb (seq_eqb w) textual_types
  end.

(** fieldSpec, with its textual. *)
Record agg_spec := MkAggSpec { a_kind : gostring; a_textual : bool }.

Definition resultKind (fn : agg_fn) (field : gostring) (spec : agg_spec) : result agg_error aggKind :=
  if a_textual spec then Err (ATextual field)
  else if seq_eqb (a_kind spec) kindInt || seq_eqb (a_kind spec) kindUint then Ok (match fn with AVG => aggFloat | _ => aggInt end)
  else if seq_eqb (a_kind spec) kindFloat then Ok aggFloat
  else if seq_eqb (a_kind spec) kindTime && match fn with MIN | MAX => true | _ => false end then Ok aggTime
  else Err (ANeeds field (a_kind spec)).

Definition readAs (n : scalar_type) (field : gostring) (kind : aggKind) : result agg_error aggKind :=
  match n, kind with
  | SInt64, aggInt => Ok aggInt
  | SFloat64, (aggInt | aggFloat) => Ok aggFloat
  | STime, aggTime => Ok aggTime
  | _, _ => Err (AReadAs field)
  end.

Definition checkKey (k : key_type) (field : gostring) (spec : agg_spec) : result agg_error unit :=
  let need want := if seq_eqb (a_kind spec) want then Ok tt else Err (AKeyKind field) in
  match k with
  | KeyString => need kindString
  | KeyInt64 => need kindInt
  | KeyUint64 => need kindUint
  | KeyFloat64 => need kindFloat
  | KeyBool => need kindBool
  | KeyTime => need kindTime
  | KeyOther => Err AKeyType
  end.

(** ** What the driver returned *)
Section convert.
Context (K : Codec) (C : Convert).

Definition parseInt (s : gostring) : result agg_error Z :=
  match parse_int (trim_space s) 64 with Some i => Ok i | None => Err (ARange s) end.

Definition toInt64 (r : raw) : result agg_error Z :=
  match r with
  | RInt v => Ok v
  | RBytes s | RText s => parseInt s
  | _ => Err ADriver
  end.

Definition toFloat64 (r : raw) : result agg_error Z :=
  match r with
  | RFloat f => Ok f
  | RInt v => Ok (float_of_int C v)
  | RBytes s | RText s => match parse_float K (trim_space s) 64 with Some f => Ok f | None => Err (ANotNumber s) end
  | _ => Err ADriver
  end.

Definition timeLayouts : list gostring :=
  map str ["2006-01-02 15:04:05.999999999"; "2006-01-02T15:04:05.999999999Z07:00"; "2006-01-02 15:04:05.999999999-07:00";
    "2006-01-02T15:04:05.999999999"; "2006-01-02"]%string.

Fixpoint first_layout (layouts : list gostring) (s : gostring) : option Z :=
  match layouts with
  | [] => None
  | l :: layouts' => match parse_layout C l s with Some t => Some t | None => first_layout layouts' s end
  end.

Definition toTime (r : raw) : result agg_error Z :=
  match r with
  | RTime t => Ok t
  | RBytes s | RText s => match first_layout timeLayouts s with Some t => Ok t | None => Err (ANotTime s) end
  | _ => Err ADriver
  end.

Definition toBool (r : raw) : result agg_error bool :=
  match r with
  | RBool b => Ok b
  | RInt v => if (v =? 0) || (v =? 1) then Ok (v =? 1) else Err ANotBool
  | RBytes s | RText s => match parse_bool s with Some b => Ok b | None => Err ANotBool end
  | _ => Err ANotBool
  end.

Definition toAggValue (r : raw) (kind : aggKind) : result agg_error AggValue :=
  match r with
  | RNull => Ok ANull
  | _ =>
      match kind with
      | aggInt => let? i := toInt64 r in Ok (AInt i)
      | aggFloat => let? f := toFloat64 r in Ok (AFloat f)
      | aggTime => let? t := toTime r in Ok (ATime t)
      end
  end.

Definition toKey (k : key_type) (r : raw) : result agg_error value :=
  match k with
  | KeyString => match r with RText s | RBytes s => Ok (VStr s) | _ => Err ADriver end
  | KeyInt64 => let? i := toInt64 r in Ok (VInt i)
  | KeyUint64 =>
      match r with
      | RUint u => Ok (VUint u)
      | RBytes s => match parse_uint s 64 with Some u => Ok (VUint u) | None => Err (ARange s) end
      | _ => let? i := toInt64 r in if i <? 0 then Err (ANegativeKey i) else Ok (VUint i)
      end
  | KeyFloat64 => let? f := toFloat64 r in Ok (VFloat f)
  | KeyBool => let? b := toBool r in Ok (VBool b)
  | KeyTime => let? t := toTime r in Ok (VTime t)
  | KeyOther => Err ADriver  (* not reached: checkKey refuses it *)
  end.
End convert.

(** ** Expressions *)

(** A column as an aggregate reads it: itself, or through SQLite's strftime. *)
Inductive expr := ECol (col : gostring) | EStrftime (col : gostring).

Definition expr_text (e : expr) : gostring :=
  match e with
  | ECol col => col
  | EStrftime col =>
      str "CASE WHEN typeof(" ++ col ++ str ") IN ('integer','real')" ++
      str " THEN strftime('%Y-%m-%d %H:%M:%f', " ++ col ++ str ", 'unixepoch')" ++
      str " ELSE strftime('%Y-%m-%d %H:%M:%f', " ++ col ++ str ") END"
  end.

(** One selected aggregate. *)
Inductive selection := SelCount | SelDistinct (e : expr) | SelFn (fn : agg_fn) (e : expr).

Record Aggregate := MkAggregate { Func : gostring; Field_ : gostring }.

(** ** The operations *)
Section aggregate.
Context (D : Db) (A : AggDb) (K : Codec) (C : Convert) (info : gostring -> option column_info).

Definition aggExpr (col kind : gostring) : expr := if seq_eqb kind kindTime && sqlite A then EStrftime col else ECol col.

Definition aggField (s : store) (field : gostring) : result agg_error (gostring * agg_spec) :=
  match Column (columns s) field with
  | Err e => Err (AStore (codeError e))
  | Ok col =>
      if bool_decide ("."%char ∈ col) && negb (seq_eqb (cut "." col).1 (s_table s)) then Err (AOtherTable col)
      else match info (bare col) with
           | None => Err (ANoColumn col)
           | Some f =>
               let declared := declaredType f in
               if contains (str "json") declared || contains (str "json") (to_lower (DataType f)) || seq_eqb (to_lower (serializer f)) (str "json")
               then Err (AJson field)
               else match specOf f with
                    | None => Err (ANotScalar field)
                    | Some spec => Ok (qualify s col, MkAggSpec (spec_kind spec) (textual declared))
                    end
           end
  end.

(** *** What the database computes *)

(** The rows a SELECT reads.  Nothing orders them in the statement; the model
    takes them by key, as a database scans its clustered index. *)
Definition scan_rows (s : store) (tx : query) (tb : table) : list (Z * row) := order_by D [(str "id", false)] (selected (vcmp D) s tx tb).

Definition eval (e : expr) (x : Z * row) : value :=
  match e with ECol col => get x (bare col) | EStrftime col => strftime A (get x (bare col)) end.

Definition not_null (vs : list value) : list value := List.filter (fun v => negb (is_null v)) vs.

(** Equal values, as DISTINCT and GROUP BY tell them apart. *)
Definition equal (v w : value) : bool := match ocmp D v w with Eq => true | _ => false end.

Fixpoint distinct (vs : list value) : list value :=
  match vs with
  | [] => []
  | v :: vs' => v :: List.filter (fun w => negb (equal v w)) (distinct vs')
  end.

Definition select1 (sel : selection) (rows : list (Z * row)) : option raw :=
  match sel with
  | SelCount => Some (RInt (Z.of_nat (length rows)))
  | SelDistinct e => Some (RInt (Z.of_nat (length (distinct (not_null (map (eval e) rows))))))
  | SelFn fn e => agg_raw A fn (not_null (map (eval e) rows))
  end.

Fixpoint select_all (sels : list selection) (rows : list (Z * row)) : option (list raw) :=
  match sels with
  | [] => Some []
  | sel :: sels' => r ← select1 sel rows; rs ← select_all sels' rows; Some (r :: rs)
  end.

(** GROUP BY e ORDER BY e: the runs of equal keys of the sorted rows; those of a
    group are read by key as well. *)
Definition key_cmp (e : expr) (x y : Z * row) : comparison :=
  match ocmp D (eval e x) (eval e y) with Eq => order_cmp D [(str "id", false)] x y | c => c end.
Definition key_le (e : expr) (x y : Z * row) : Prop := key_cmp e x y <> Gt.
#[local] Instance key_le_dec e : RelDecision (key_le e).
Proof. intros x y. unfold key_le. apply _. Defined.

Definition sort_by_key (e : expr) (l : list (Z * row)) : list (Z * row) := merge_sort (key_le e) l.

Fixpoint runs (e : expr) (l : list (Z * row)) : list (list (Z * row)) :=
  match l with
  | [] => []
  | x :: l' =>
      match runs e l' with
      | (y :: g) :: gs => if equal (eval e x) (eval e y) then (x :: y :: g) :: gs else [x] :: (y :: g) :: gs
      | gs => [x] :: gs
      end
  end.

Definition groups_of (e : expr) (s : store) (tx : query) (tb : table) : list (list (Z * row)) := runs e (sort_by_key e (scan_rows s tx tb)).

(** One row of the result: the key and the aggregates. *)
Definition group_row (e : expr) (sels : list selection) (g : list (Z * row)) : option (raw * list raw) :=
  match g with
  | [] => None
  | x :: _ => rs ← select_all sels g; Some (raw_of A (eval e x), rs)
  end.

Fixpoint omap_all {X Y} (f : X -> option Y) (l : list X) : option (list Y) :=
  match l with
  | [] => Some []
  | x :: l' => y ← f x; ys ← omap_all f l'; Some (y :: ys)
  end.

(** *** One aggregate *)

Definition store_r {X} (r : result store_error X) : result agg_error X := match r with Ok x => Ok x | Err e => Err (AStore e) end.

(** [single]; [None] where there was no value. *)
Definition single (n : scalar_type) (s : store) (c : ctx) (fn : agg_fn) (field : gostring) (opts : list where_option) (tb : table)
  : result agg_error (option AggValue) :=
  let? '(col, spec) := aggField s field in
  let? kind := resultKind fn field spec in
  let? kind := readAs n field kind in
  let? '(tx, _) := store_r (read s c true opts) in
  if fails D StSelect then Err (AStore EDatabase)
  else match select1 (SelFn fn (aggExpr col (a_kind spec))) (scan_rows s tx tb) with
       | None => Err (AStore EDatabase)
       | Some RNull => Ok None
       | Some r => let? v := toAggValue K C r kind in Ok (Some v)
       end.

Definition Sum (n : scalar_type) s c field opts tb := single n s c SUM field opts tb.
Definition Avg s c field opts tb := single SFloat64 s c AVG field opts tb.
Definition Min (n : scalar_type) s c field opts tb := single n s c MIN field opts tb.
Definition Max (n : scalar_type) s c field opts tb := single n s c MAX field opts tb.

Definition CountDistinct (s : store) (c : ctx) (field : gostring) (opts : list where_option) (tb : table) : result agg_error Z :=
  let? '(col, spec) := aggField s field in
  let? '(tx, _) := store_r (read s c true opts) in
  if fails D StSelect then Err (AStore EDatabase)
  else match select1 (SelDistinct (aggExpr col (a_kind spec))) (scan_rows s tx tb) with
       | None => Err (AStore EDatabase)
       | Some RNull => Ok 0
       | Some r => toInt64 r
       end.

(** *** Groups *)

Definition aggPlan (s : store) (a : Aggregate) : result agg_error (selection * aggKind) :=
  let fn := to_lower (Func a) in
  if seq_eqb fn (str "count") then
    if seq_eqb (Field_ a) [] then Ok (SelCount, aggInt) else Err ACountField
  else
    let? '(col, spec) := aggField s (Field_ a) in
    let e := aggExpr col (a_kind spec) in
    let of_fn f := let? kind := resultKind f (Field_ a) spec in Ok (SelFn f e, kind) in
    if seq_eqb fn (str "count_distinct") then Ok (SelDistinct e, aggInt)
    else if seq_eqb fn (str "sum") then of_fn SUM
    else if seq_eqb fn (str "avg") then of_fn AVG
    else if seq_eqb fn (str "min") then of_fn MIN
    else if seq_eqb fn (str "max") then of_fn MAX
    else Err (AUnknownFunc (Func a)).

Fixpoint aggPlans (s : store) (i : nat) (aggs : list Aggregate) : result agg_error (list (selection * aggKind)) :=
  match aggs with
  | [] => Ok []
  | a :: aggs' =>
      match aggPlan s a with
      | Err e => Err (AAggregate i e)
      | Ok p => let? ps := aggPlans s (S i) aggs' in Ok (p :: ps)
      end
  end.

Fixpoint toAggValues (i : nat) (rs : list raw) (kinds : list aggKind) : result agg_error (list AggValue) :=
  match rs, kinds with
  | r :: rs', k :: kinds' =>
      match toAggValue K C r k with
      | Err e => Err (AAggregate i e)
      | Ok v => let? vs := toAggValues (S i) rs' kinds' in Ok (v :: vs)
      end
  | _, _ => Ok []
  end.

Record Group := MkGroup { Key : value; Values_ : list AggValue }.

(** One scanned row. *)
Definition to_group (k : key_type) (field : gostring) (kinds : list aggKind) (r : raw * list raw) : result agg_error Group :=
  match r.1 with
  | RNull => Err (ANullKey field)
  | key => let? v := toKey K C k key in let? vs := toAggValues 0 r.2 kinds in Ok (MkGroup v vs)
  end.

Definition GroupBy (k : key_type) (s : store) (c : ctx) (field : gostring) (aggs : list Aggregate) (opts : list where_option) (tb : table)
  : result agg_error (list Group) :=
  match aggs with
  | [] => Err ANoAggregates
  | _ =>
      let? '(keyCol, keySpec) := aggField s field in
      let? _ := checkKey k field keySpec in
      let key := aggExpr keyCol (a_kind keySpec) in
      let? plans := aggPlans s 0 aggs in
      let? '(tx, cfg) := store_r (read s c false opts) in
      if HasPage cfg || HasOrder cfg || Count cfg || negb (0 =? Z.of_nat (length (Preloads cfg))) then Err (AStore (EQuery EInvalidParam))
      else if fails D StSelect then Err (AStore EDatabase)
      else match omap_all (group_row key (map fst plans)) (groups_of key s tx tb) with
           | None => Err (AStore EDatabase)
           | Some rows => rmap (to_group k field (map snd plans)) rows
           end
  end.

(** *** One column of every row *)

(** The part of the rows a page asks for: OFFSET and LIMIT. *)
Definition pluck_page (s : store) (cfg : Config) {X} (l : list X) : list X :=
  if HasPage cfg then
    let size := if Limit cfg =? 0 then (pageSizes s).1 else Limit cfg in
    let offset := if PageNumber cfg >? 0 then int64 ((PageNumber cfg - 1) * size) else Offset cfg in
    take (Z.to_nat size) (drop (Z.to_nat offset) l)
  else l.

(** [pluck]; rows that where.Order leaves equal are read by key. *)
Definition pluck (s : store) (c : ctx) (col : gostring) (opts : list where_option) (tb : table) : result agg_error (list value) :=
  let? '(tx, cfg) := store_r (read s c false opts) in
  if negb (seq_eqb (Cursor cfg) []) || FirstPage cfg then Err (AStore (EQuery EInvalidParam))
  else if fails D StSelect then Err (AStore EDatabase)
  else Ok (map (fun x => get x (bare col)) (pluck_page s cfg (order_by D (order_keys cfg) (selected (vcmp D) s tx tb)))).

Definition Pluck (s : store) (c : ctx) (field : gostring) (opts : list where_option) (tb : table) : result agg_error (list value) :=
  match Column (columns s) field with
  | Err e => Err (AStore (codeError e))
  | Ok col => pluck s c (qualify s col) opts tb
  end.

Definition PluckIDs (s : store) (c : ctx) (opts : list where_option) (tb : table) : result agg_error (list value) :=
  pluck s c (s_table s ++ str ".id") opts tb.

(** *** Rows by many values *)

(** The values once each, in the order they were given; [seen] is the map of
    those before. *)
Fixpoint unique (seen : list value) (vs : list value) : list value :=
  match vs with
  | [] => []
  | v :: vs' => if bool_decide (v ∈ seen) then unique seen vs' else v :: unique (v :: seen) vs'
  end.

(** slices.Chunk. *)
Fixpoint chunks {X} (n : nat) (fuel : nat) (l : list X) : list (list X) :=
  match fuel, l with
  | S fuel', _ :: _ => take n l :: chunks n fuel' (drop n l)
  | _, _ => []
  end.

(** What builds the filter of a chunk: where.In on a field, or idIn. *)
Inductive in_filter := InField (field : gostring) | InIDs.

Definition read_in (s : store) (c : ctx) (f : in_filter) (vs : list value) (opts : list where_option) : result store_error (query * Config) :=
  match f with
  | InField field => read s c false (opts ++ [In_ field (Values vs)])
  | InIDs => let? '(tx, cfg) := read s c false opts in Ok (where_ [match vs with [] => CFalse | _ => CIn (s_table s ++ str ".id") vs end] tx, cfg)
  end.

(** [listChunk]; [None] stands for nil values, which are only checked. *)
Definition listChunk (s : store) (c : ctx) (f : in_filter) (vs : option (list value)) (opts : list where_option) (tb : table)
  : result agg_error (list (Z * row)) :=
  let? '(tx, cfg) := store_r (read_in s c f (default [] vs) opts) in
  if HasPage cfg || HasOrder cfg || Count cfg then Err (AStore (EQuery EInvalidParam))
  else match vs with
       | None => Ok []
       | Some _ => if fails D StSelect then Err (AStore EDatabase) else Ok (scan_rows s tx tb)
       end.

(** The rows of a chunk that no earlier one had. *)
Fixpoint add_new (out items : list (Z * row)) : list (Z * row) :=
  match items with
  | [] => out
  | x :: items' => add_new (if existsb (fun y => y.1 =? x.1) out then out else out ++ [x]) items'
  end.

Fixpoint list_chunks (s : store) (c : ctx) (f : in_filter) (cs : list (list value)) (opts : list where_option) (tb : table) (out : list (Z * row))
  : result agg_error (list (Z * row)) :=
  match cs with
  | [] => Ok out
  | vs :: cs' => let? items := listChunk s c f (Some vs) opts tb in list_chunks s c f cs' opts tb (add_new out items)
  end.

Definition listIn (s : store) (c : ctx) (f : in_filter) (values : list value) (opts : list where_option) (tb : table)
  : result agg_error (list (Z * row)) :=
  match unique [] values with
  | [] => listChunk s c f None opts tb
  | u => list_chunks s c f (chunks 500 (length u) u) opts tb []
  end.

Definition ListIn (s : store) (c : ctx) (field : gostring) (values : list value) (opts : list where_option) (tb : table)
  : result agg_error (list (Z * row)) := listIn s c (InField field) values opts tb.

(** ListByIDs sorts the keys first. *)
Definition ListByIDs (s : store) (c : ctx) (ids : list Z) (opts : list where_option) (tb : table) : result agg_error (list (Z * row)) :=
  listIn s c InIDs (map VUint (merge_sort Z.le ids)) opts tb.
End aggregate.
