(* ===== verification/StoreAggSpec.v ===== *)
(** What aggregates promise: they stay behind the owner fence, the groups of
    GroupBy are what the other calls answer of each key, and ListIn and
    ListByIDs find every row once however many values they are given. *)

From Stdlib Require Import ZArith Lia List Ascii.
From stdpp Require Import base decidable list gmap strings sorting.
From S2P Require Import Prelude GoStrings StoreWhere StoreWhereSpec Store StoreCursor StoreRead StoreList StoreKeyset StoreLock StoreFence StoreDemo StoreAgg.

(** ** The owner fence *)
Section fence.
Context (D : Db) (A : AggDb) (K : Codec) (C : Convert) (info : gostring -> option column_info) (s : store) (c : ctx) (OW : owned s = true)
  (O : ocmp_ok (ocmp D)) (tb : table) (AP : apart D tb).
Notation own := (visible_to D s c tb).

Lemma scan_fenced tx : fenced D s c tx -> scan_rows D s tx tb = scan_rows D s tx own.
Proof. intros F. unfold scan_rows. apply selected_fenced_order; [done| |done]. apply (id_keys_apart D []), AP. Qed.

Lemma store_read_fenced fo opts tx cfg : store_r (read s c fo opts) = Ok (tx, cfg) -> fenced D s c tx.
Proof. unfold store_r. destruct (read s c fo opts) as [[]|] eqn:R; [|done]. intros [= <- <-]. by eapply read_fenced. Qed.

Lemma single_fenced n fn field opts : single D A K C info n s c fn field opts tb = single D A K C info n s c fn field opts own.
Proof.
  unfold single. destruct (aggField info s field) as [[col spec]|]; [|done]. cbn [rbind]. destruct (resultKind _ _ _); [|done]. cbn [rbind].
  destruct (readAs _ _ _); [|done]. cbn [rbind]. destruct (store_r _) as [[tx cfg]|] eqn:R; [|done]. cbn [rbind]. by rewrite (scan_fenced tx (store_read_fenced _ _ _ _ R)).
Qed.

Lemma CountDistinct_fenced field opts : CountDistinct D A info s c field opts tb = CountDistinct D A info s c field opts own.
Proof.
  unfold CountDistinct. destruct (aggField info s field) as [[col spec]|]; [|done]. cbn [rbind].
  destruct (store_r _) as [[tx cfg]|] eqn:R; [|done]. cbn [rbind]. by rewrite (scan_fenced tx (store_read_fenced _ _ _ _ R)).
Qed.

Lemma GroupBy_fenced k field aggs opts : GroupBy D A K C info k s c field aggs opts tb = GroupBy D A K C info k s c field aggs opts own.
Proof.
  unfold GroupBy. destruct aggs as [|a aggs]; [done|]. destruct (aggField info s field) as [[col spec]|]; [|done]. cbn [rbind].
  destruct (checkKey _ _ _); [|done]. cbn [rbind]. destruct (aggPlans _ _ _ _ _); [|done]. cbn [rbind].
  destruct (store_r _) as [[tx cfg]|] eqn:R; [|done]. cbn [rbind]. unfold groups_of. by rewrite (scan_fenced tx (store_read_fenced _ _ _ _ R)).
Qed.

Lemma pluck_fenced col opts : pluck D s c col opts tb = pluck D s c col opts own.
Proof.
  unfold pluck. destruct (store_r _) as [[tx cfg]|] eqn:R; [|done]. cbn [rbind].
  unfold order_keys. by rewrite (selected_fenced_order D s c _ tx tb O (id_keys_apart D _ tb AP) (store_read_fenced _ _ _ _ R)).
Qed.

Lemma read_in_fenced f vs opts tx cfg : store_r (read_in s c f vs opts) = Ok (tx, cfg) -> fenced D s c tx.
Proof.
  destruct f as [field|]; cbn [read_in]; [apply store_read_fenced|]. destruct (read s c false opts) as [[tx0 cfg0]|] eqn:R; [|done]. cbn.
  intros [= <- <-]. apply fenced_where. by eapply read_fenced.
Qed.

Lemma listIn_fenced f values opts : listIn D s c f values opts tb = listIn D s c f values opts own.
Proof.
  assert (L : forall vs, listChunk D s c f vs opts tb = listChunk D s c f vs opts own).
  { intros vs. unfold listChunk. destruct (store_r _) as [[tx cfg]|] eqn:R; [|done]. cbn [rbind]. by rewrite (scan_fenced tx (read_in_fenced _ _ _ _ _ R)). }
  unfold listIn. destruct (unique [] values) as [|u us]; [apply L|]. generalize (chunks 500 (length (u :: us)) (u :: us)) as cs. generalize (@nil (Z * row)) as out.
  intros out cs. revert out. induction cs as [|vs cs IH]; intros out; [done|]. cbn. rewrite L. destruct (listChunk _ _ _ _ _ _ _); [|done]. apply IH.
Qed.
End fence.

(** [C3] Aggregates are fenced: on an owner-scoped store Sum, Avg, Min, Max,
    CountDistinct, GroupBy, Pluck, PluckIDs, ListIn and ListByIDs answer what
    they would on a table that holds the caller's rows alone, errors included,
    so that no sum, group, key or count tells of another owner's rows. *)
Theorem aggregates_fenced D A K C info s c tb :
  owned s = true -> ocmp_ok (ocmp D) -> apart D tb ->
  let own := visible_to D s c tb in
  (forall n field opts, Sum D A K C info n s c field opts tb = Sum D A K C info n s c field opts own) /\
  (forall field opts, Avg D A K C info s c field opts tb = Avg D A K C info s c field opts own) /\
  (forall n field opts, Min D A K C info n s c field opts tb = Min D A K C info n s c field opts own) /\
  (forall n field opts, Max D A K C info n s c field opts tb = Max D A K C info n s c field opts own) /\
  (forall field opts, CountDistinct D A info s c field opts tb = CountDistinct D A info s c field opts own) /\
  (forall k field aggs opts, GroupBy D A K C info k s c field aggs opts tb = GroupBy D A K C info k s c field aggs opts own) /\
  (forall field opts, Pluck D s c field opts tb = Pluck D s c field opts own) /\
  (forall opts, PluckIDs D s c opts tb = PluckIDs D s c opts own) /\
  (forall field values opts, ListIn D s c field values opts tb = ListIn D s c field values opts own) /\
  (forall ids opts, ListByIDs D s c ids opts tb = ListByIDs D s c ids opts own).
Proof.
  intros OW O AP own. repeat split; intros.
  1-4: by apply single_fenced.
  - by apply CountDistinct_fenced.
  - by apply GroupBy_fenced.
  - unfold Pluck. destruct (Column _ _); [by apply pluck_fenced|done].
  - by apply pluck_fenced.
  - by apply listIn_fenced.
  - by apply listIn_fenced.
Qed.

(** ** One more filter *)

(** A configuration as a call that takes filters only has it. *)
Definition filters_only (cfg : Config) : Config :=
  MkConfig false (HasFilter cfg) (HasPage cfg) (HasOrder cfg) (Degenerate cfg) (WithTrashed cfg) (OnlyTrashed cfg) (Version cfg)
    (Preloads cfg) (Cursor cfg) (CursorSize cfg) (FirstPage cfg) (Orders cfg) true (PageNumber cfg) (Offset cfg) (Limit cfg) (FromQuery_ cfg).

Lemma apply_option_filters_only o fields st : apply_option o fields (st.1, filters_only st.2) = (let? s := apply_option o fields st in Ok (s.1, filters_only s.2)).
Proof.
  revert st. induction o; intros [cs cfg]; cbn [apply_option fst snd]; unfold apply_compare, filter_on, apply_In, apply_Order, apply_Page, apply_Limit, apply_Offset, apply_Cursor.
  all: try (repeat case_match; cbn; try done; repeat match goal with |- context [rbind ?x _] => destruct x; cbn end; done).
  pose proof (IHo (cs, cfg)) as H. cbn [fst snd] in H. rewrite H. by destruct (apply_option o fields (cs, cfg)) as [[]|].
Qed.

Lemma apply_options_filters_only os fields st : apply_options os fields (st.1, filters_only st.2) = (let? s := apply_options os fields st in Ok (s.1, filters_only s.2)).
Proof.
  revert st. induction os as [|o os IH]; intros st; cbn; [done|]. rewrite apply_option_filters_only. destruct (apply_option o fields st) as [st'|]; [|done]. apply IH.
Qed.

(** Queries that select the same rows of any table, given what else they must meet. *)
Definition narrowed (D : Db) (s : store) (tx : query) (p : Z * row -> bool) (tx' : query) : Prop :=
  forall x, matches (vcmp D) s tx' x = matches (vcmp D) s tx x && p x.

Lemma selected_narrowed D s tx p tx' tb : narrowed D s tx p tx' -> selected (vcmp D) s tx' tb = List.filter p (selected (vcmp D) s tx tb).
Proof.
  intros N. unfold selected. induction (map_to_list tb) as [|x l IH]; [done|]. cbn. rewrite (N x). destruct (matches (vcmp D) s tx x); cbn; [|done].
  destruct (p x); by rewrite IH.
Qed.

Lemma matches_where D s tx cs x : matches (vcmp D) s (where_ cs tx) x = matches (vcmp D) s tx x && sat_all (vcmp D) (get x) cs.
Proof. unfold matches, visible, where_, sat_all. cbn [unscoped conds]. by rewrite forallb_app, andb_assoc. Qed.

(** Preloads change neither the conditions nor what is hidden. *)
Lemma preload_matches D s c tx r tx' x : preload s c tx r = Ok tx' -> matches (vcmp D) s tx' x = matches (vcmp D) s tx x.
Proof.
  intros P. unfold matches, visible. rewrite (preload_conds _ _ _ _ _ P).
  enough (unscoped tx' = unscoped tx) as -> by done. revert P. unfold preload.
  assert (P1 : forall tx r tx', preload1 s c tx r = Ok tx' -> unscoped tx' = unscoped tx).
  { clear. unfold preload1. intros tx r tx' (tx1 & W & H)%rbind_Ok. assert (unscoped tx1 = unscoped tx) as <-.
    { revert W. generalize (relations s) as rels, (@nil ascii) as path. revert tx. induction (split "." r) as [|p parts IH]; intros tx rels path; cbn; [by intros [= <-]|].
      destruct (rels !! p) as [m|]; [|done]. destruct (schemas s !! m) as [sch|]; [|done]. intros H1%IH. rewrite H1. by destruct (associationFence s c sch). }
    injection H as <-. by destruct (preloads tx1 !! r). }
  destruct (_ || _); [|apply P1]. apply (rfold_inv (fun t => unscoped t = unscoped tx)); [|done]. intros a b a' Ea E. by rewrite (P1 _ _ _ E).
Qed.

Lemma preloads_matches D s c rels tx tx' x : rfold (preload s c) rels tx = Ok tx' -> matches (vcmp D) s tx' x = matches (vcmp D) s tx x.
Proof.
  apply (rfold_inv (fun t => matches (vcmp D) s t x = matches (vcmp D) s tx x)); [|done]. intros a b a' Ea E. by rewrite (preload_matches _ _ _ _ _ _ _ E).
Qed.

Lemma trash_matches D s cfg cfg' cs tx x : OnlyTrashed cfg' = OnlyTrashed cfg -> WithTrashed cfg' = WithTrashed cfg ->
  forall cd, matches (vcmp D) s (trash_scope s cfg' (where_ (cs ++ cd) tx)) x = matches (vcmp D) s (trash_scope s cfg (where_ cs tx)) x && sat_all (vcmp D) (get x) cd.
Proof.
  intros E1 E2 cd. unfold trash_scope. rewrite E1, E2.
  assert (B : forall u, matches (vcmp D) s (MkQuery (conds tx ++ cs ++ cd) u (preloads tx)) x = matches (vcmp D) s (MkQuery (conds tx ++ cs) u (preloads tx)) x && sat_all (vcmp D) (get x) cd).
  { intros u. rewrite app_assoc. exact (matches_where D s (MkQuery (conds tx ++ cs) u (preloads tx)) cd x). }
  destruct (OnlyTrashed cfg); [destruct (soft s)|destruct (WithTrashed cfg)].
  - rewrite !matches_where. unfold Unscoped, where_. cbn [conds unscoped preloads]. rewrite B. by rewrite <- !andb_assoc, (andb_comm (sat_all _ _ [_])).
  - rewrite !(matches_where _ _ _ [CFalse]). cbn [sat_all forallb sat andb]. by rewrite !andb_false_r.
  - apply (B true).
  - apply (B (unscoped tx)).
Qed.

(** Nor does it depend on them whether an association is known. *)
Lemma preload_known s c tx tx' r : is_ok (preload s c tx r) = is_ok (preload s c tx' r).
Proof.
  assert (P1 : forall tx tx' r, is_ok (preload1 s c tx r) = is_ok (preload1 s c tx' r)).
  { clear. intros tx tx' r. unfold preload1.
    enough (W : forall parts path rels tx tx', is_ok (preload_walk s c r parts path rels tx) = is_ok (preload_walk s c r parts path rels tx')).
    { specialize (W (split "." r) [] (relations s) tx tx'). by destruct (preload_walk _ _ _ _ _ _ tx), (preload_walk _ _ _ _ _ _ tx'). }
    clear. induction parts as [|p parts IH]; intros path rels tx tx'; cbn; [done|].
    destruct (rels !! p) as [m|]; [|done]. destruct (schemas s !! m) as [sch|]; [|done]. apply IH. }
  unfold preload. destruct (_ || _); [|apply P1]. revert tx tx'. induction (sortedKeys (relations s)) as [|r' rs IH]; intros tx tx'; [done|]. cbn.
  specialize (P1 tx tx' r'). destruct (preload1 s c tx r'), (preload1 s c tx' r'); try done. apply IH.
Qed.

Lemma preloads_ok s c rels tx tx' t : rfold (preload s c) rels tx = Ok t -> exists t', rfold (preload s c) rels tx' = Ok t'.
Proof.
  revert tx tx'. induction rels as [|r rels IH]; intros tx tx'; cbn; [by eauto|].
  pose proof (preload_known s c tx tx' r) as P. destruct (preload s c tx r), (preload s c tx' r); try done. apply IH.
Qed.

(** A filter after the others narrows what is read, for calls that take filters
    only and for the others. *)
Lemma read_filter D s c opts o cd tx cfg :
  (forall st, exists deg, apply_option o (columns s) st = Ok (st.1 ++ [cd], set_filter deg st.2)) ->
  read s c false opts = Ok (tx, cfg) ->
  (exists tx' cfg', read s c true opts = Ok (tx', cfg') /\ narrowed D s tx (fun _ => true) tx') /\
  (exists tx' cfg', read s c true (opts ++ [o]) = Ok (tx', cfg') /\ narrowed D s tx (fun x => sat (vcmp D) (get x) cd) tx') /\
  (exists tx' deg, read s c false (opts ++ [o]) = Ok (tx', set_filter deg cfg) /\ narrowed D s tx (fun x => sat (vcmp D) (get x) cd) tx').
Proof.
  intros F. unfold read. destruct (readScoped s c start_query) as [q|]; [|done]. cbn [rbind]. unfold apply. rewrite !apply_options_snoc.
  pose proof (apply_options_filters_only opts (columns s) ([], new_Config false)) as FO0. cbn [fst snd] in FO0.
  change (filters_only (new_Config false)) with (new_Config true) in FO0. rewrite !FO0. clear FO0.
  destruct (apply_options opts (columns s) ([], new_Config false)) as [[cs cf]|]; [|done]. cbn [rbind fst snd].
  assert (FO : FiltersOnly cf = false \/ FiltersOnly cf = true) by (destruct (FiltersOnly cf); auto).
  intros (tx0 & P & E)%rbind_Ok. injection E as <- <-.
  assert (M : forall x, matches (vcmp D) s tx0 x = matches (vcmp D) s (trash_scope s cf (where_ cs q)) x).
  { intros x. destruct (FiltersOnly cf); [by injection P as <-|]. by eapply preloads_matches. }
  assert (T : forall cf' cd' x, OnlyTrashed cf' = OnlyTrashed cf -> WithTrashed cf' = WithTrashed cf ->
    matches (vcmp D) s (trash_scope s cf' (where_ (cs ++ cd') q)) x = matches (vcmp D) s tx0 x && sat_all (vcmp D) (get x) cd').
  { intros. rewrite M. by apply trash_matches. }
  repeat split.
  - eexists _, _. split; [reflexivity|]. intros x. rewrite <- (app_nil_r cs) at 1. by rewrite T.
  - destruct (F (cs, filters_only cf)) as [deg ->]. cbn [rbind fst snd]. eexists _, _. split; [reflexivity|]. intros x. rewrite T by done. by cbn; rewrite andb_true_r.
  - destruct (F (cs, cf)) as [deg ->]. cbn [rbind fst snd FiltersOnly set_filter Preloads].
    destruct (FiltersOnly cf).
    + eexists _, deg. split; [reflexivity|]. intros x. rewrite (T _ [cd]) by done. cbn. by rewrite andb_true_r.
    + destruct (preloads_ok s c _ _ (trash_scope s (set_filter deg cf) (where_ (cs ++ [cd]) q)) _ P) as [t' P']. exists t', deg.
      unfold set_filter in P' |- *. rewrite P'. split; [done|]. intros x. rewrite (preloads_matches _ _ _ _ _ _ _ P').
      refine (eq_trans (T (set_filter deg cf) [cd] x eq_refl eq_refl) _). cbn. by rewrite andb_true_r.
Qed.

(** ** Rows by many values *)

Lemma chunks_spec {X} (n fuel : nat) (l : list X) : (0 < n)%nat -> (length l <= fuel)%nat ->
  concat (chunks n fuel l) = l /\ Forall (fun ch => ch <> [] /\ (length ch <= n)%nat) (chunks n fuel l).
Proof.
  intros N. revert l. induction fuel as [|fuel IH]; intros l L; [by destruct l; cbn in L; [|lia]|].
  destruct l as [|x l]; [done|]. cbn [chunks concat]. destruct (IH (drop n (x :: l))) as [E F]; [rewrite length_drop; cbn in *; lia|].
  rewrite E, take_drop. split; [done|]. constructor; [|done]. rewrite length_take. split; [|lia]. destruct n; [lia|done].
Qed.

Lemma elem_of_unique seen vs v : v ∈ unique seen vs <-> v ∈ vs /\ v ∉ seen.
Proof.
  revert seen. induction vs as [|w vs IH]; intros seen; cbn; [set_solver|]. case_bool_decide as B.
  - rewrite IH. set_solver.
  - rewrite elem_of_cons, IH, !elem_of_cons. destruct (decide (v = w)) as [->|]; set_solver.
Qed.

Lemma unique_sublist seen vs : unique seen vs `sublist_of` vs.
Proof. revert seen. induction vs as [|v vs IH]; intros seen; cbn; [done|]. case_bool_decide; [by apply sublist_cons|by apply sublist_skip]. Qed.

Lemma unique_NoDup seen vs : NoDup (unique seen vs).
Proof.
  revert seen. induction vs as [|v vs IH]; intros seen; cbn; [constructor|]. case_bool_decide; [done|]. constructor; [|done]. rewrite elem_of_unique. set_solver.
Qed.

Lemma elem_of_lfilter {X} (p : X -> bool) l x : x ∈ List.filter p l <-> x ∈ l /\ p x = true.
Proof. by rewrite !list_elem_of_In, filter_In. Qed.

Section list_in.
Context (D : Db) (s : store) (c : ctx) (opts : list where_option) (tb : table) (tx : query).
Context (O : ocmp_ok (ocmp D)) (AP : apart D tb).
Notation rows := (scan_rows D s tx tb).

Lemma elem_of_scan tx' x : x ∈ scan_rows D s tx' tb <-> x ∈ selected (vcmp D) s tx' tb.
Proof. apply elem_of_order_by. Qed.

Lemma scan_in_table tx' x : x ∈ scan_rows D s tx' tb -> tb !! x.1 = Some x.2.
Proof. rewrite elem_of_scan. by intros [? _]%elem_of_selected. Qed.

Lemma scan_NoDup tx' : NoDup (scan_rows D s tx' tb).
Proof. unfold scan_rows. rewrite order_by_perm. apply NoDup_selected. Qed.

(** Rows of the table in key order are determined by which they are. *)
Lemma by_id_unique l l' : (forall x, x ∈ l -> tb !! x.1 = Some x.2) ->
  StronglySorted (order_le D [(str "id", false)]) l -> StronglySorted (order_le D [(str "id", false)]) l' -> l ≡ₚ l' -> l = l'.
Proof.
  intros I S S' P. apply (StronglySorted_unique_strong (order_le D [(str "id", false)])); [|done..].
  intros x y Hx Hy. rewrite <- P in Hy. unfold order_le. rewrite (order_cmp_opp D O _ x y). intros A B.
  apply (id_keys_apart D [] tb AP); [by apply I..|]. cbn [app]. by destruct (order_cmp D _ x y).
Qed.

Lemma sorted_filter {X} (le : X -> X -> Prop) (p : X -> bool) l : StronglySorted le l -> StronglySorted le (List.filter p l).
Proof.
  induction 1 as [|x l S IH F]; cbn; [constructor|]. destruct (p x); [|done]. constructor; [done|]. rewrite Forall_forall in *.
  intros y [? _]%elem_of_lfilter. by apply F.
Qed.

Lemma lfilter_perm {X} (p : X -> bool) l l' : l ≡ₚ l' -> List.filter p l ≡ₚ List.filter p l'.
Proof. induction 1 as [| | |? ? ? _ IH1 _ IH2]; cbn; repeat case_match; auto using Permutation_swap. by transitivity (List.filter p l'). Qed.

Lemma scan_narrowed p tx' : narrowed D s tx p tx' -> scan_rows D s tx' tb = List.filter p rows.
Proof.
  intros N. apply by_id_unique.
  - apply scan_in_table.
  - by apply order_by_sorted.
  - apply sorted_filter. by apply order_by_sorted.
  - unfold scan_rows. rewrite (order_by_perm D). rewrite (selected_narrowed _ _ _ _ _ _ N). apply lfilter_perm. by rewrite (order_by_perm D).
Qed.

(** *** The rows of all chunks *)

Lemma add_new_spec items out : (forall x, x ∈ items -> tb !! x.1 = Some x.2) -> (forall x, x ∈ out -> tb !! x.1 = Some x.2) -> NoDup out ->
  NoDup (add_new out items) /\ (forall x, x ∈ add_new out items <-> x ∈ out \/ x ∈ items).
Proof.
  revert out. induction items as [|y items IH]; intros out I I' N; cbn; [set_solver|].
  destruct (existsb (fun z => z.1 =? y.1) out) eqn:E.
  - destruct (IH out) as [N' M]; [set_solver..|]. split; [done|]. intros x. rewrite M, elem_of_cons.
    apply existsb_exists in E as (z & Hz & E%Z.eqb_eq). rewrite <- list_elem_of_In in Hz.
    assert (z = y) as -> by (apply (same_row tb); [by apply I'|apply I; by left|done]). naive_solver.
  - destruct (IH (out ++ [y])) as [N' M]; [set_solver|set_solver| |].
    { apply NoDup_app. split; [done|]. split; [|apply NoDup_singleton]. intros x Hx ->%list_elem_of_singleton.
      assert (F : existsb (fun z => z.1 =? y.1) out = true); [|congruence]. apply existsb_exists. exists y. rewrite <- list_elem_of_In. by rewrite Z.eqb_refl. }
    split; [done|]. intros x. rewrite M. set_solver.
Qed.

(** A chunk that starts after the rows so far adds its own. *)
Lemma add_new_after items out : NoDup (map fst items) -> (forall x y, x ∈ out -> y ∈ items -> x.1 <> y.1) -> add_new out items = out ++ items.
Proof.
  revert out. induction items as [|y items IH]; intros out N A; cbn; [by rewrite app_nil_r|].
  apply NoDup_cons in N as [Ny N]. destruct (existsb (fun z => z.1 =? y.1) out) eqn:E.
  - apply existsb_exists in E as (z & Hz%list_elem_of_In & E%Z.eqb_eq). exfalso. apply (A z y); [done|by left|done].
  - rewrite IH; [by rewrite <- app_assoc|done|]. intros x z [Hx|Hx%list_elem_of_singleton]%elem_of_app Hz; [apply A; [done|by right]|].
    subst x. intros E'. apply Ny. rewrite E'. by apply list_elem_of_fmap_2.
Qed.

(** What one chunk answers. *)
Context (f : in_filter) (p : list value -> Z * row -> bool)
  (HChunk : forall vs, vs <> [] -> (length vs <= 500)%nat -> listChunk D s c f (Some vs) opts tb = Ok (List.filter (p vs) rows))
  (HNone : listChunk D s c f None opts tb = Ok []).

Definition all_chunks (cs : list (list value)) (out : list (Z * row)) : list (Z * row) := fold_left (fun out vs => add_new out (List.filter (p vs) rows)) cs out.

Lemma list_chunks_all cs out : Forall (fun ch => ch <> [] /\ (length ch <= 500)%nat) cs -> list_chunks D s c f cs opts tb out = Ok (all_chunks cs out).
Proof. intros F. revert out. induction F as [|vs cs [N L] _ IH]; intros out; cbn; [done|]. rewrite HChunk by done. apply IH. Qed.

Lemma all_chunks_spec cs out : (forall x, x ∈ out -> tb !! x.1 = Some x.2) -> NoDup out ->
  NoDup (all_chunks cs out) /\ (forall x, x ∈ all_chunks cs out <-> x ∈ out \/ x ∈ rows /\ existsb (fun vs => p vs x) cs = true).
Proof.
  revert out. induction cs as [|vs cs IH]; intros out I N; cbn; [by intuition|].
  assert (I' : forall x, x ∈ List.filter (p vs) rows -> tb !! x.1 = Some x.2).
  { intros x [? _]%elem_of_lfilter. by eapply scan_in_table. }
  destruct (add_new_spec (List.filter (p vs) rows) out I' I N) as [N' M].
  destruct (IH (add_new out (List.filter (p vs) rows))) as [N2 M2]; [|done|].
  { intros x. rewrite M. intros [?|?]; auto. }
  split; [done|]. intros x. rewrite M2, M, elem_of_lfilter, orb_true_iff. tauto.
Qed.

Lemma listIn_spec values : exists out, listIn D s c f values opts tb = Ok out /\ NoDup out /\
  out = all_chunks (chunks 500 (length (unique [] values)) (unique [] values)) [] /\
  forall x, x ∈ out <-> x ∈ rows /\ existsb (fun vs => p vs x) (chunks 500 (length (unique [] values)) (unique [] values)) = true.
Proof.
  unfold listIn. destruct (all_chunks_spec (chunks 500 (length (unique [] values)) (unique [] values)) []) as [N M]; [set_solver|constructor|].
  exists (all_chunks (chunks 500 (length (unique [] values)) (unique [] values)) []). split; [|split; [done|split; [done|]]].
  - destruct (unique [] values) as [|u us] eqn:E; [by rewrite HNone|]. apply list_chunks_all, chunks_spec; lia.
  - intros x. rewrite M. set_solver.
Qed.
End list_in.

(** Any number of values: the values of all chunks are those given. *)
Lemma existsb_chunks (g : value -> bool) values :
  existsb (existsb g) (chunks 500 (length (unique [] values)) (unique [] values)) = existsb g values.
Proof.
  destruct (chunks_spec 500 (length (unique [] values)) (unique [] values)) as [E _]; [lia..|].
  apply eq_true_iff_eq. rewrite !existsb_exists. setoid_rewrite <- list_elem_of_In. split.
  - intros (vs & Hvs & (v & Hv & G)%existsb_exists). rewrite <- list_elem_of_In in Hv. exists v. split; [|done].
    assert (U : v ∈ unique [] values) by (rewrite <- E; apply list_elem_of_In, in_concat; exists vs; by rewrite <- !list_elem_of_In).
    by apply elem_of_unique in U as [? _].
  - intros (v & Hv & G). assert (U : v ∈ unique [] values) by (apply elem_of_unique; set_solver).
    rewrite <- E in U. apply list_elem_of_In, in_concat in U as (vs & Hvs & H). exists vs. split; [by apply list_elem_of_In|]. apply existsb_exists. by exists v.
Qed.

Lemma chunk_field D s c field opts tb tx cfg col vs : ocmp_ok (ocmp D) -> apart D tb -> (forall v, vcmp D v VNull = None) ->
  read s c false opts = Ok (tx, cfg) -> HasPage cfg || HasOrder cfg || Count cfg = false -> fails D StSelect = false ->
  Column (columns s) field = Ok col -> (length vs <= 500)%nat ->
  listChunk D s c (InField field) (Some vs) opts tb = Ok (List.filter (fun x => existsb (sat_cmp (vcmp D) OpEq (get x (bare col))) vs) (scan_rows D s tx tb)) /\
  listChunk D s c (InField field) None opts tb = Ok [].
Proof.
  intros O AP NU R HP NF HC L. unfold listChunk, read_in.
  assert (G : forall vs, (length vs <= 500)%nat -> exists tx' deg, read s c false (opts ++ [In_ field (Values vs)]) = Ok (tx', set_filter deg cfg) /\
    narrowed D s tx (fun x => existsb (sat_cmp (vcmp D) OpEq (get x (bare col))) vs) tx').
  { clear vs L. intros vs L. set (args := match Values vs with Values [VNull] => [] | OneSlice vs | Values vs => vs end).
    assert (A : forall x, existsb (sat_cmp (vcmp D) OpEq (get x (bare col))) args = existsb (sat_cmp (vcmp D) OpEq (get x (bare col))) vs).
    { intros x. unfold args. destruct vs as [|[] []]; try done. cbn. unfold sat_cmp. by rewrite NU. }
    assert (La : (length args <= 500)%nat) by (unfold args; destruct vs as [|[] []]; cbn in *; lia).
    assert (I : In_ field (Values vs) = OIn field args) by done. clearbody args. rewrite I.
    destruct (read_filter D s c opts (OIn field args) (match args with [] => CFalse | _ => CIn col args end) tx cfg) as (_ & _ & tx' & deg & E & N); [|done|].
    { intros st. cbn [apply_option]. unfold apply_In. rewrite HC. cbn [rbind]. unfold maxInList.
      destruct (Z.gtb_spec (Z.of_nat (length args)) 500); [lia|]. destruct args; cbn; eauto. }
    exists tx', deg. split; [exact E|]. intros x. rewrite (N x), <- (A x). by destruct args. }
  split.
  - destruct (G vs L) as (tx' & deg & E & N). change (default [] (Some vs)) with vs. rewrite E. cbn [store_r rbind HasPage HasOrder Count set_filter]. rewrite HP, NF.
    by rewrite (scan_narrowed D s tb tx O AP _ tx' N).
  - destruct (G [] ltac:(cbn; lia)) as (tx' & deg & E & N). change (default [] None) with (@nil value). rewrite E. cbn [store_r rbind HasPage HasOrder Count set_filter]. by rewrite HP.
Qed.

(** *** By keys, in key order *)

(** Keys compare as the numbers they are. *)
Definition keys_ok (D : Db) : Prop := forall a b, ocmp D (VUint a) (VUint b) = (a ?= b) /\ vcmp D (VUint a) (VUint b) = Some (a ?= b).

Definition key_in (D : Db) (vs : list value) (x : Z * row) : bool := existsb (sat_cmp (vcmp D) OpEq (VUint x.1)) vs.

Lemma chunk_ids D s c opts tb tx cfg vs : ocmp_ok (ocmp D) -> apart D tb ->
  read s c false opts = Ok (tx, cfg) -> HasPage cfg || HasOrder cfg || Count cfg = false -> fails D StSelect = false -> vs <> [] ->
  listChunk D s c InIDs (Some vs) opts tb = Ok (List.filter (key_in D vs) (scan_rows D s tx tb)) /\
  listChunk D s c InIDs None opts tb = Ok [].
Proof.
  intros O AP R HP NF N. unfold listChunk, read_in. change (default [] (Some vs)) with vs. change (default [] None) with (@nil value).
  rewrite R. cbn [rbind store_r]. rewrite HP, NF. split; [|done]. f_equal. apply scan_narrowed; [done..|]. intros x. rewrite matches_where. f_equal.
  destruct vs as [|v vs]; [done|]. cbn [sat_all forallb sat]. rewrite andb_true_r.
  change (s_table s ++ str ".id") with (s_table s ++ str "." ++ str "id"). by rewrite bare_qualified by (apply dot_free; reflexivity).
Qed.

(** Values that are keys, each below the next. *)
Definition vlt (v w : value) : Prop := exists a b, v = VUint a /\ w = VUint b /\ a < b.

Lemma unique_ascending seen ids : StronglySorted Z.le ids -> StronglySorted vlt (unique seen (map VUint ids)).
Proof.
  intros S. revert seen. induction S as [|z ids S IH F]; intros seen; cbn; [constructor|]. case_bool_decide; [done|]. constructor; [done|].
  rewrite Forall_forall in F. apply Forall_forall. intros w [Hw Nw]%elem_of_unique. apply list_elem_of_fmap in Hw as (b & -> & Hb). exists z, b. split; [done|]. split; [done|].
  specialize (F b Hb). assert (b <> z) by set_solver. lia.
Qed.

Lemma key_in_elem D vs x : keys_ok D -> Forall (fun v => exists z, v = VUint z) vs -> key_in D vs x = true <-> VUint x.1 ∈ vs.
Proof.
  intros KO. unfold key_in. induction 1 as [|v vs [z ->] _ IH]; cbn; [set_solver|]. rewrite orb_true_iff, IH, elem_of_cons.
  unfold sat_cmp. destruct (KO x.1 z) as [_ ->]. destruct (Z.compare_spec x.1 z); cbn; naive_solver lia.
Qed.

Lemma sorted_app {X} (le : X -> X -> Prop) l m : StronglySorted le l -> StronglySorted le m -> (forall x y, x ∈ l -> y ∈ m -> le x y) -> StronglySorted le (l ++ m).
Proof.
  intros S S' A. induction S as [|x l S IH F]; cbn; [done|]. constructor; [apply IH; intros; apply A; [by right|done]|].
  apply Forall_app. split; [done|]. apply Forall_forall. intros y Hy. apply A; [by left|done].
Qed.

Section by_ids.
Context (D : Db) (s : store) (tb : table) (tx : query) (O : ocmp_ok (ocmp D)) (AP : apart D tb) (KO : keys_ok D).
Notation rows := (scan_rows D s tx tb).
Notation by_id := (order_le D [(str "id", false)]).

Lemma by_id_lt x y : x.1 < y.1 -> by_id x y.
Proof.
  intros L. unfold order_le. cbn [order_cmp]. change (get x (str "id")) with (VUint x.1). change (get y (str "id")) with (VUint y.1).
  destruct (KO x.1 y.1) as [-> _]. by destruct (Z.compare_spec x.1 y.1); try lia.
Qed.

Lemma rows_keys p : NoDup (map fst (List.filter p rows)).
Proof.
  assert (N : NoDup (List.filter p rows)) by apply NoDup_filter_bool, scan_NoDup.
  assert (I : forall x, x ∈ List.filter p rows -> tb !! x.1 = Some x.2) by (intros x [Hx _]%elem_of_lfilter; by eapply scan_in_table).
  induction N as [|x l Hx N IH]; cbn; [constructor|]. constructor; [|apply IH; intros; apply I; by right].
  intros (y & E & Hy)%list_elem_of_fmap. apply Hx. rewrite (same_row tb x y); [done|apply I; by left|apply I; by right|done].
Qed.

Lemma chunks_ascending cs out : StronglySorted vlt (concat cs) -> Forall (fun v => exists z, v = VUint z) (concat cs) -> StronglySorted by_id out ->
  (forall x z, x ∈ out -> VUint z ∈ concat cs -> x.1 < z) -> StronglySorted by_id (all_chunks D s tb tx (key_in D) cs out).
Proof.
  revert out. induction cs as [|vs cs IH]; intros out S U So B; [done|]. cbn [concat] in *. apply Forall_app in U as [U U'].
  assert (S' : StronglySorted vlt (concat cs) /\ forall v w, v ∈ vs -> w ∈ concat cs -> vlt v w).
  { clear -S. induction vs as [|v vs IH]; cbn in S; [split; [done|set_solver]|]. apply StronglySorted_inv in S as [S F]. destruct (IH S) as [S1 H1].
    split; [done|]. rewrite Forall_forall in F. intros v' w [->|Hv]%elem_of_cons Hw; [apply F, elem_of_app; by right|by apply H1]. }
  destruct S' as [S' A]. unfold all_chunks. cbn [fold_left].
  rewrite add_new_after; [| |].
  - apply IH; [done|done| |].
    + apply sorted_app; [done|apply sorted_filter; by apply order_by_sorted|]. intros x y Hx [Hy M]%elem_of_lfilter. apply key_in_elem in M; [|done..].
      apply by_id_lt, B; [done|]. apply elem_of_app. by left.
    + intros x z [Hx|[Hx M]%elem_of_lfilter]%elem_of_app Hz; [apply B; [done|apply elem_of_app; by right]|]. apply key_in_elem in M; [|done..].
      destruct (A _ _ M Hz) as (a & b & [= <-] & [= <-] & ?). done.
  - apply rows_keys.
  - intros x y Hx [Hy M]%elem_of_lfilter E. apply key_in_elem in M; [|done..]. specialize (B x y.1 Hx ltac:(apply elem_of_app; by left)). lia.
Qed.
End by_ids.

(** [C36] However many values they are given, ListIn and ListByIDs answer each
    matching row exactly once: ListIn the rows its options select whose field is
    one of the values, and ListByIDs exactly the list that one query for all the
    keys would answer, in key order, the order and repetition of its argument
    aside. *)
Theorem ListIn_complete D s c opts tb tx cfg :
  ocmp_ok (ocmp D) -> apart D tb -> (forall v, vcmp D v VNull = None) -> keys_ok D ->
  read s c false opts = Ok (tx, cfg) -> HasPage cfg || HasOrder cfg || Count cfg = false -> fails D StSelect = false ->
  (forall field col values, Column (columns s) field = Ok col ->
     exists out, ListIn D s c field values opts tb = Ok out /\ NoDup out /\
       forall x, x ∈ out <-> x ∈ selected (vcmp D) s tx tb /\ existsb (sat_cmp (vcmp D) OpEq (get x (bare col))) values = true) /\
  (forall ids, ListByIDs D s c ids opts tb = Ok (List.filter (fun x => bool_decide (x.1 ∈ ids)) (scan_rows D s tx tb))).
Proof.
  intros O AP NU KO R HP NF. split.
  - intros field col values HC. destruct (listIn_spec D s c opts tb tx O AP (InField field) (fun vs x => existsb (sat_cmp (vcmp D) OpEq (get x (bare col))) vs)) with (values := values) as (out & E & N & _ & M).
    + intros vs _ L. by eapply chunk_field.
    + by eapply (chunk_field _ _ _ _ _ _ _ _ _ []); cbn; try lia.
    + exists out. split; [done|]. split; [done|]. intros x. rewrite M, elem_of_scan. by rewrite <- (existsb_chunks (sat_cmp (vcmp D) OpEq (get x (bare col))) values).
  - intros ids. set (values := map VUint (merge_sort Z.le ids)).
    assert (V : Forall (fun v => exists z, v = VUint z) values) by (apply Forall_forall; intros v (z & -> & _)%list_elem_of_fmap; by exists z).
    destruct (listIn_spec D s c opts tb tx O AP InIDs (key_in D)) with (values := values) as (out & E & N & Eo & M).
    { intros vs Nv _. by eapply chunk_ids. }
    { by eapply (chunk_ids _ _ _ _ _ _ _ [VNull]). }
    unfold ListByIDs. fold values. rewrite E. f_equal. destruct (chunks_spec 500 (length (unique [] values)) (unique [] values)) as [Ec _]; [lia..|].
    assert (MV : forall x, x ∈ out <-> x ∈ scan_rows D s tx tb /\ x.1 ∈ ids).
    { intros x. rewrite M. change (existsb (fun vs => key_in D vs x) ?l) with (existsb (existsb (sat_cmp (vcmp D) OpEq (VUint x.1))) l).
      rewrite (existsb_chunks (sat_cmp (vcmp D) OpEq (VUint x.1)) values). change (existsb _ values) with (key_in D values x). rewrite (key_in_elem D values x KO V). unfold values. rewrite list_elem_of_fmap.
      split; intros [Hx H]; (split; [done|]).
      - destruct H as (z & [= ->] & Hz). by rewrite merge_sort_Permutation in Hz.
      - exists x.1. by rewrite merge_sort_Permutation. }
    apply (by_id_unique D tb O AP).
    + intros x [Hx _]%MV. by eapply scan_in_table.
    + rewrite Eo. apply chunks_ascending; try done; rewrite ?Ec.
      * apply unique_ascending, StronglySorted_merge_sort; apply _.
      * eapply Forall_forall. intros v Hv. apply elem_of_unique in Hv as [Hv _]. rewrite Forall_forall in V. by apply V.
      * constructor.
      * set_solver.
    + apply sorted_filter. by apply order_by_sorted.
    + apply NoDup_Permutation; [done|apply NoDup_filter_bool, scan_NoDup|]. intros x. rewrite MV, elem_of_lfilter, bool_decide_eq_true. done.
Qed.

(** ** Groups *)
Section groups.
Context (D : Db) (A : AggDb) (O : ocmp_ok (ocmp D)).
Notation equal := (equal D).
Notation runs := (runs D A).
Notation val e x := (eval A e x).

Lemma equal_true v w : equal v w = true <-> ocmp D v w = Eq.
Proof. unfold StoreAgg.equal. by destruct (ocmp D v w). Qed.

Lemma ocmp_sym v w : ocmp D v w = Eq -> ocmp D w v = Eq.
Proof. intros E. by rewrite (ocmp_opp _ O v w), E. Qed.

Lemma ocmp_Eq_r u v w : ocmp D v w = Eq -> ocmp D u v = ocmp D u w.
Proof. intros E. rewrite (ocmp_opp _ O v u), (ocmp_opp _ O w u). by rewrite (ocmp_Eq_l D O v w u E). Qed.

Lemma ocmp_Lt_trans u v w : ocmp D u v = Lt -> ocmp D v w = Lt -> ocmp D u w = Lt.
Proof.
  intros E1 E2. pose proof (ocmp_trans _ O u v w ltac:(by rewrite E1) ltac:(by rewrite E2)) as T.
  destruct (ocmp D u w) eqn:E; [|done|done]. rewrite (ocmp_Eq_l D O u w v E), (ocmp_opp _ O v w), E2 in E1. done.
Qed.

Lemma key_cmp_opp e x y : key_cmp D A e y x = CompOpp (key_cmp D A e x y).
Proof.
  unfold key_cmp. rewrite (ocmp_opp _ O (val e x) (val e y)). destruct (ocmp D (val e x) (val e y)); [|done..]. cbn [CompOpp]. by apply order_cmp_opp.
Qed.

#[local] Instance key_le_dec' e : RelDecision (key_le D A e).
Proof. intros x y. unfold key_le. apply _. Defined.

#[local] Instance key_le_total e : base.Total (key_le D A e).
Proof. intros x y. unfold key_le. rewrite (key_cmp_opp e x y). destruct (key_cmp D A e x y); cbn; auto. Qed.

#[local] Instance key_le_trans e : Transitive (key_le D A e).
Proof.
  intros x y z. unfold key_le, key_cmp. destruct (ocmp D (val e x) (val e y)) eqn:E1; [| |done].
  - rewrite (ocmp_Eq_l D O _ _ (val e z) E1). destruct (ocmp D (val e y) (val e z)) eqn:E2; [|done|done].
    intros H1 H2. apply (order_cmp_trans D O [(str "id", false)] x y z); done.
  - destruct (ocmp D (val e y) (val e z)) eqn:E2; [| |done]; intros _ _.
    + by rewrite <- (ocmp_Eq_r (val e x) _ _ E2), E1.
    + by rewrite (ocmp_Lt_trans _ _ _ E1 E2).
Qed.

Definition below (e : expr) (g h : list (Z * row)) : Prop := forall x y, x ∈ g -> y ∈ h -> ocmp D (val e x) (val e y) = Lt.

(** Runs of sorted rows: the rows with one key each, in key order. *)
Lemma runs_spec e l : StronglySorted (key_le D A e) l ->
  concat (runs e l) = l /\ StronglySorted (below e) (runs e l) /\
  Forall (fun g => g <> [] /\ StronglySorted (order_le D [(str "id", false)]) g /\ forall x y, x ∈ g -> y ∈ g -> ocmp D (val e x) (val e y) = Eq) (runs e l).
Proof.
  induction 1 as [|x l S (C & B & G) F]; [by repeat constructor|]. cbn. destruct (runs e l) as [|[|y g] gs].
  - cbn in C. subst l. split; [done|]. split; repeat constructor; [done|]. intros u v ->%list_elem_of_singleton ->%list_elem_of_singleton. by apply ocmp_refl.
  - apply Forall_cons in G as [[]]; done.
  - cbn in C. subst l. pose proof G as G0. apply Forall_cons in G as [(_ & Sg & E) G]. pose proof B as B0. apply StronglySorted_inv in B as [B L]. rewrite Forall_forall in L. rewrite Forall_forall in F.
    destruct (equal (val e x) (val e y)) eqn:Q.
    + rewrite equal_true in Q. split; [done|]. split.
      * constructor; [done|]. apply Forall_forall. intros h Hh u v [->|Hu]%elem_of_cons Hv; [|by apply (L h Hh)].
        rewrite (ocmp_Eq_l D O _ _ _ Q). apply (L h Hh); [by left|done].
      * constructor; [|done]. split; [done|].
        assert (E' : forall u, u ∈ y :: g -> ocmp D (val e x) (val e u) = Eq) by (intros u Hu; rewrite (ocmp_Eq_l D O _ _ _ Q); apply E; [by left|done]).
        split.
        -- constructor; [done|]. apply Forall_forall. intros u Hu. specialize (F u ltac:(change (y :: g ++ concat gs) with ((y :: g) ++ concat gs); apply elem_of_app; by left)).
           unfold key_le, key_cmp in F. by rewrite (E' u Hu) in F.
        -- intros u v [->|Hu]%elem_of_cons [->|Hv]%elem_of_cons; [by apply ocmp_refl|by apply E'|by apply ocmp_sym, E'|by apply E].
    + assert (Lt1 : forall u, u ∈ y :: g -> ocmp D (val e x) (val e u) = Lt).
      { intros u Hu. rewrite <- (ocmp_Eq_r (val e x) (val e y) (val e u)) by (apply E; [by left|done]).
        specialize (F y ltac:(by left)). unfold key_le, key_cmp in F. destruct (ocmp D (val e x) (val e y)) eqn:Q'; [|done|done].
        apply equal_true in Q'. congruence. }
      split; [done|]. split.
      * constructor; [done|]. apply Forall_cons. split.
        -- intros u v ->%list_elem_of_singleton Hv. by apply Lt1.
        -- apply Forall_forall. intros h Hh u v ->%list_elem_of_singleton Hv. eapply ocmp_Lt_trans; [apply (Lt1 y); by left|]. apply (L h Hh); [by left|done].
      * constructor; [|done]. split; [done|]. split; [by repeat constructor|]. intros u v ->%list_elem_of_singleton ->%list_elem_of_singleton. by apply ocmp_refl.
Qed.
End groups.

(** The kind of a key type. *)
Definition key_kind (k : key_type) : gostring :=
  match k with
  | KeyString => kindString | KeyInt64 => kindInt | KeyUint64 => kindUint | KeyFloat64 => kindFloat | KeyBool => kindBool | KeyTime => kindTime | KeyOther => []
  end.

Lemma checkKey_kind k field spec u : checkKey k field spec = Ok u -> a_kind spec = key_kind k.
Proof. destruct k; cbn; try done; unfold seq_eqb; by case_bool_decide. Qed.

(** A column to group by: NULL or of its kind in every row, and handed over by
    the driver as it is stored; NULL equals nothing, in a condition or a key. *)
Record groupable (D : Db) (A : AggDb) (K : Codec) (C : Convert) (k : key_type) (col : gostring) (tb : table) : Prop := {
  gr_value x : tb !! x.1 = Some x.2 -> get x col = VNull \/
    value_kind (get x col) = Some (key_kind k) /\ toKey K C k (raw_of A (get x col)) = Ok (get x col);
  gr_null_raw : raw_of A VNull = RNull;
  gr_null_cond v : vcmp D VNull v = None;
  gr_null_key v : ocmp D VNull v = Eq -> v = VNull;
}.

Section agrees.
Context (D : Db) (A : AggDb) (K : Codec) (C : Convert) (info : gostring -> option column_info) (s : store) (c : ctx) (tb : table).

Definition fn_names : list (agg_fn * gostring) := [(SUM, str "sum"); (AVG, str "avg"); (MIN, str "min"); (MAX, str "max")].

(** An aggregate of a group is what the call of that name answers of [opts]. *)
Definition answers (opts : list where_option) (a : Aggregate) (v : AggValue) : Prop :=
  let fn := to_lower (Func a) in
  if seq_eqb fn (str "count") then exists n, v = AInt n /\ CountRows D s c opts tb = Ok n
  else if seq_eqb fn (str "count_distinct") then exists n, v = AInt n /\ CountDistinct D A info s c (Field_ a) opts tb = Ok n
  else exists f n, (f, fn) ∈ fn_names /\ single D A K C info n s c f (Field_ a) opts tb = Ok (if IsNull v then None else Some v).

Context (O : ocmp_ok (ocmp D)) (AP : apart D tb) (NS : fails D StSelect = false) (NC : fails D StCount = false).

(** What a plan computes of the rows of a query is what the call answers. *)
Lemma plan_answers opts tx cfg a sel kind r v : read s c true opts = Ok (tx, cfg) ->
  aggPlan A info s a = Ok (sel, kind) -> select1 D A sel (scan_rows D s tx tb) = Some r -> toAggValue K C r kind = Ok v -> answers opts a v.
Proof.
  intros R P S V. unfold aggPlan in P. unfold answers. destruct (seq_eqb (to_lower (Func a)) (str "count")).
  - destruct (seq_eqb (Field_ a) []); [|done]. injection P as <- <-. cbn in S. injection S as <-. cbn in V. injection V as <-.
    eexists. split; [reflexivity|]. unfold CountRows. rewrite R. cbn [rbind]. rewrite NC. unfold scan_rows. by rewrite (order_by_perm D).
  - destruct (aggField info s (Field_ a)) as [[col spec]|] eqn:F; [|done]. cbn [rbind] in P.
    destruct (seq_eqb (to_lower (Func a)) (str "count_distinct")).
    { injection P as <- <-. cbn in S. injection S as <-. cbn in V. injection V as <-. eexists. split; [reflexivity|].
      unfold CountDistinct. rewrite F. cbn [rbind]. rewrite R. cbn [store_r rbind]. by rewrite NS. }
    assert (G : forall f, (let? kind := resultKind f (Field_ a) spec in Ok (SelFn f (aggExpr A col (a_kind spec)), kind)) = Ok (sel, kind) ->
      exists n, single D A K C info n s c f (Field_ a) opts tb = Ok (if IsNull v then None else Some v)).
    { intros f (kd & RK & [= <- <-])%rbind_Ok. exists (match kd with aggInt => SInt64 | aggFloat => SFloat64 | aggTime => STime end).
      unfold single. rewrite F. cbn [rbind]. rewrite RK. cbn [rbind]. rewrite R.
      assert (E : forall n, n = match kd with aggInt => SInt64 | aggFloat => SFloat64 | aggTime => STime end -> readAs n (Field_ a) kd = Ok kd) by (intros n ->; by destruct kd).
      rewrite (E _ eq_refl). cbn [rbind store_r]. rewrite NS, S. destruct r; cbn in V |- *; try (injection V as <-; done).
      all: rewrite V; cbn; destruct kd; cbn in V; first [done | apply rbind_Ok in V as (? & _ & [= <-]); done | by injection V as <-]. }
    unfold seq_eqb in P.
    repeat match type of P with (if bool_decide (?x = ?y) then _ else _) = _ =>
      destruct (decide (x = y)) as [E|]; [rewrite bool_decide_true in P by done; destruct (G _ P) as [n' Hn]; eexists _, n'; split; [|exact Hn]; rewrite E; apply list_elem_of_In; cbn; tauto
        |rewrite bool_decide_false in P by done] end.
    done.
Qed.
End agrees.

Lemma omap_all_Forall2 {X Y} (f : X -> option Y) l m : omap_all f l = Some m -> Forall2 (fun x y => f x = Some y) l m.
Proof.
  revert m. induction l as [|x l IH]; intros m; cbn; [by intros [= <-]|]. destruct (f x) as [y|] eqn:E; [|done]. cbn.
  destruct (omap_all f l); [|done]. cbn. intros [= <-]. constructor; auto.
Qed.

(** The aggregates of one group. *)
Lemma values_answers D A K C info s c tb opts tx cfg g aggs : ocmp_ok (ocmp D) -> fails D StSelect = false -> fails D StCount = false ->
  read s c true opts = Ok (tx, cfg) -> scan_rows D s tx tb = g ->
  forall i j plans rs vs, aggPlans A info s i aggs = Ok plans -> select_all D A (map fst plans) g = Some rs -> toAggValues K C j rs (map snd plans) = Ok vs ->
  Forall2 (answers D A K C info s c tb opts) aggs vs.
Proof.
  intros O NS NC R <-. induction aggs as [|a aggs IH]; intros i j plans rs vs P S V; cbn in P.
  { injection P as <-. cbn in S. injection S as <-. cbn in V. by injection V as <-. }
  destruct (aggPlan A info s a) as [[sel kind]|] eqn:E; [|done]. apply rbind_Ok in P as (ps & P & [= <-]). cbn [map fst snd select_all] in S, V.
  destruct (select1 D A sel _) as [r|] eqn:E1; [|done]. cbn [mbind option_bind] in S. destruct (select_all D A (map fst ps) _) as [rs'|] eqn:E2; [|done]. injection S as <-.
  cbn [toAggValues] in V. destruct (toAggValue K C r kind) as [v|] eqn:E3; [|done]. apply rbind_Ok in V as (vs' & V & [= <-]).
  constructor; [by eapply plan_answers|]. by eapply IH.
Qed.

Section group_by.
Context (D : Db) (A : AggDb) (K : Codec) (C : Convert) (k : key_type) (s : store) (c : ctx) (opts : list where_option) (tb : table) (tx : query) (col : gostring).
Context (DO : db_ok D) (AP : apart D tb) (GR : groupable D A K C k (bare col) tb).
Notation e := (ECol col).
Notation O := (db_order D DO).

Lemma groups_spec : let gs := groups_of D A e s tx tb in
  concat gs ≡ₚ scan_rows D s tx tb /\ StronglySorted (below D A e) gs /\
  Forall (fun g => g <> [] /\ StronglySorted (order_le D [(str "id", false)]) g /\ forall x y, x ∈ g -> y ∈ g -> ocmp D (eval A e x) (eval A e y) = Eq) gs.
Proof.
  cbv zeta. unfold groups_of. destruct (runs_spec D A O e (sort_by_key D A e (scan_rows D s tx tb))) as (E & B & G).
  - apply StronglySorted_merge_sort; [apply key_le_trans, O|apply key_le_total, O].
  - split; [|done]. rewrite E. apply merge_sort_Permutation.
Qed.

Lemma in_group x g : g ∈ groups_of D A e s tx tb -> x ∈ g -> x ∈ scan_rows D s tx tb.
Proof. intros G X. rewrite <- (proj1 groups_spec). apply list_elem_of_In, in_concat. exists g. by rewrite <- !list_elem_of_In. Qed.

(** The rows of one group are those its key selects. *)
Lemma group_scan g x tx' : g ∈ groups_of D A e s tx tb -> x ∈ g -> get x (bare col) <> VNull ->
  narrowed D s tx (fun y => sat (vcmp D) (get y) (CCmp col OpEq (get x (bare col)))) tx' -> scan_rows D s tx' tb = g.
Proof.
  intros G X NN N. destruct groups_spec as (P & B & F). rewrite Forall_forall in F. destruct (F g G) as (_ & S & E).
  assert (I : forall y, y ∈ scan_rows D s tx tb -> tb !! y.1 = Some y.2) by apply scan_in_table.
  assert (V : forall y, y ∈ scan_rows D s tx tb -> get y (bare col) = VNull \/ value_kind (get y (bare col)) = Some (key_kind k)).
  { intros y Hy. destruct (gr_value _ _ _ _ _ _ _ GR y (I y Hy)) as [?|[? _]]; auto. }
  assert (Kx : value_kind (get x (bare col)) = Some (key_kind k)) by (destruct (V x (in_group x g G X)); done).
  assert (Q : forall y, y ∈ scan_rows D s tx tb -> sat (vcmp D) (get y) (CCmp col OpEq (get x (bare col))) = true <-> ocmp D (get y (bare col)) (get x (bare col)) = Eq).
  { intros y Hy. cbn [sat]. unfold sat_cmp. destruct (V y Hy) as [->|Ky].
    - rewrite (gr_null_cond _ _ _ _ _ _ _ GR). split; [done|]. intros Z. by apply (gr_null_key _ _ _ _ _ _ _ GR) in Z.
    - rewrite (db_compare D DO _ _ _ Ky Kx). by destruct (ocmp D _ _). }
  rewrite (scan_narrowed D s tb tx O AP _ tx' N). apply (by_id_unique D tb O AP).
  - intros y [Hy _]%elem_of_lfilter. by apply I.
  - apply sorted_filter. by apply order_by_sorted, O.
  - exact S.
  - apply NoDup_Permutation; [apply NoDup_filter_bool, scan_NoDup| |].
    + assert (ND : NoDup (concat (groups_of D A e s tx tb))) by (rewrite P; apply scan_NoDup). clear -G ND.
      induction (groups_of D A e s tx tb) as [|h gs IH]; [set_solver|]. cbn in ND. apply NoDup_app in ND as (N1 & _ & N2).
      apply elem_of_cons in G as [->|G]; auto.
    + intros y. rewrite elem_of_lfilter. split.
      * intros [Hy M]. apply Q in M; [|done]. rewrite <- P in Hy. apply list_elem_of_In, in_concat in Hy as (h & Hh & Yh). apply list_elem_of_In in Hh. apply list_elem_of_In in Yh.
        destruct (decide (h = g)) as [->|Ne]; [done|]. exfalso.
        assert (T : below D A e h g \/ below D A e g h).
        { clear -B Hh G Ne. induction B as [|f fs B IH L]; [set_solver|]. rewrite Forall_forall in L.
          apply elem_of_cons in Hh as [->|Hh], G as [->|G]; [done|left; by apply L|right; by apply L|auto]. }
        destruct T as [T|T]; [specialize (T y x Yh X)|specialize (T x y X Yh)]; cbn [eval] in T; [congruence|]. rewrite (ocmp_opp _ O (get y (bare col))), M in T. done.
      * intros Hy. pose proof (in_group y g G Hy) as Hs. split; [done|]. apply Q; [done|]. by apply (E y x).
Qed.
End group_by.

Lemma aggField_column info s field col spec : aggField info s field = Ok (col, spec) -> exists col0, Column (columns s) field = Ok col0 /\ col = qualify s col0.
Proof.
  unfold aggField. destruct (Column (columns s) field) as [col0|]; [|done]. destruct (_ && _); [done|]. destruct (info _) as [f|]; [|done].
  destruct (_ || _); [done|]. destruct (specOf f); [|done]. intros [= <- <-]. by exists col0.
Qed.

(** The sum of the rows of groups. *)
Fixpoint total_of (ns : list Z) : Z := match ns with [] => 0 | n :: ns' => n + total_of ns' end.

Lemma Forall2_in {X Y} (P : X -> Y -> Prop) l m : Forall2 P l m -> Forall2 (fun x y => x ∈ l /\ P x y) l m.
Proof. induction 1 as [|x y l m H F IH]; constructor; [split; [by left|done]|]. eapply Forall2_impl; [exact IH|]. intros u v [? ?]. split; [by right|done]. Qed.

Lemma Forall2_compose {X Y Z} (P : X -> Y -> Prop) (Q : Y -> Z -> Prop) (R : X -> Z -> Prop) l m n :
  Forall2 P l m -> Forall2 Q m n -> (forall x y z, P x y -> Q y z -> R x z) -> Forall2 R l n.
Proof. intros H. revert n. induction H; intros n H' C; inversion H'; subst; constructor; eauto. Qed.

(** One group of the answer and the rows behind it. *)
Definition group_of (D : Db) (A : AggDb) (K : Codec) (C : Convert) (info : gostring -> option column_info) (s : store) (c : ctx) (tb : table) (opts : list where_option) (field : gostring) (aggs : list Aggregate) (col : gostring) (rs : list (Z * row)) (g : Group) : Prop :=
  let opts' := opts ++ [Eq_ field (Key g)] in
  (exists x, x ∈ rs /\ Key g = get x col) /\ CountRows D s c opts' tb = Ok (Z.of_nat (length rs)) /\ Forall2 (answers D A K C info s c tb opts') aggs (Values_ g).

Lemma group_answers D A K C (info : gostring -> option column_info) (k : key_type) (s : store) (c : ctx) tb opts field aggs col0 tx cfg plans rs r g :
  db_ok D -> apart D tb -> fails D StCount = false -> fails D StSelect = false -> Column (columns s) field = Ok col0 ->
  groupable D A K C k (bare (qualify s col0)) tb -> read s c false opts = Ok (tx, cfg) -> aggPlans A info s 0 aggs = Ok plans ->
  rs ∈ groups_of D A (ECol (qualify s col0)) s tx tb -> group_row D A (ECol (qualify s col0)) (map fst plans) rs = Some r ->
  to_group K C k field (map snd plans) r = Ok g -> group_of D A K C info s c tb opts field aggs (bare (qualify s col0)) rs g.
Proof.
  intros DO AP NC NS HC GR R P Hrs RW TG. pose proof (db_order D DO) as O. destruct rs as [|x rs]; [done|]. cbn [group_row] in RW.
  destruct (select_all D A _ _) as [raws|] eqn:SA; [|done]. injection RW as <-. cbn [eval] in TG.
  set (col := qualify s col0) in *. set (v := get x (bare col)) in *.
  assert (Ix : tb !! x.1 = Some x.2) by (eapply scan_in_table, (in_group D A s tb tx col DO); [exact Hrs|by left]).
  unfold to_group in TG. cbn [fst snd] in TG. destruct (gr_value _ _ _ _ _ _ _ GR x Ix) as [E|[Kx TK]]; fold v in E || fold v in Kx, TK.
  { rewrite E, (gr_null_raw _ _ _ _ _ _ _ GR) in TG. done. }
  assert (TG' : exists vs, toAggValues K C 0 raws (map snd plans) = Ok vs /\ g = MkGroup v vs).
  { destruct (raw_of A v) eqn:RV; [done|..]; rewrite TK in TG; cbn [rbind] in TG; apply rbind_Ok in TG as (vs & V & [= <-]); by exists vs. }
  destruct TG' as (vs & V & ->). assert (NN : v <> VNull) by (intros E; by rewrite E in Kx).
  destruct (read_filter D s c opts (Eq_ field v) (CCmp col0 OpEq v) tx cfg) as (_ & (tx' & cfg' & R' & N) & _); [|done|].
  { intros st. exists false. cbn. unfold apply_compare, filter_on. rewrite HC. cbn [rbind]. by destruct v. }
  assert (SG : scan_rows D s tx' tb = x :: rs).
  { apply (group_scan D A K C k s tb tx col DO AP GR _ x); [done|by left|done|]. intros y. rewrite (N y). fold v. cbn [sat].
    assert (Eb : bare col = bare col0) by apply bare_qualify. by rewrite Eb. }
  split; [exists x; split; [by left|done]|]. cbn [Key Values_]. split.
  - unfold CountRows. rewrite R'. cbn [rbind]. rewrite NC, <- SG. unfold scan_rows. by rewrite (order_by_perm D).
  - by eapply values_answers.
Qed.

(** [C35] GroupBy accounts for every row: the groups come in ascending order of
    their keys, each key once; the rows a filter on each key counts add up to
    the rows counted without it; and each aggregate of a group is what Count,
    CountDistinct, Sum, Avg, Min or Max answer with that filter.  For a column
    that the driver hands over as it is stored (groupable), and not for time
    keys on SQLite, where rows are grouped by the millisecond. *)
Theorem GroupBy_agrees D A K C (info : gostring -> option column_info) (k : key_type) (s : store) (c : ctx) field aggs opts tb gs col0 tx cfg :
  db_ok D -> apart D tb -> fails D StCount = false -> sqlite A = false \/ k <> KeyTime ->
  Column (columns s) field = Ok col0 -> groupable D A K C k (bare col0) tb -> read s c false opts = Ok (tx, cfg) ->
  GroupBy D A K C info k s c field aggs opts tb = Ok gs ->
  StronglySorted (fun g h => ocmp D (Key g) (Key h) = Lt) gs /\
  (exists ns, Forall2 (fun g n => 0 < n /\ CountRows D s c (opts ++ [Eq_ field (Key g)]) tb = Ok n) gs ns /\ CountRows D s c opts tb = Ok (total_of ns)) /\
  (forall g, g ∈ gs -> Forall2 (answers D A K C info s c tb (opts ++ [Eq_ field (Key g)])) aggs (Values_ g)).
Proof.
  intros DO AP NC ST HC GR R H. pose proof (db_order D DO) as O. unfold GroupBy in H. destruct aggs as [|a0 aggs0]; [done|]. remember (a0 :: aggs0) as aggs eqn:Ea. clear Ea a0 aggs0.
  apply rbind_Ok in H as ([col spec] & F & H). destruct (aggField_column _ _ _ _ _ F) as (col1 & HC1 & Ec). rewrite HC in HC1. injection HC1 as <-.
  apply rbind_Ok in H as (u & CK & H). apply checkKey_kind in CK. apply rbind_Ok in H as (plans & P & H). rewrite R in H. cbn [store_r rbind] in H.
  destruct (_ || _); [done|]. destruct (fails D StSelect) eqn:NS; [done|].
  assert (Ee : aggExpr A col (a_kind spec) = ECol col).
  { unfold aggExpr. rewrite CK. destruct ST as [->|Nk]; [by rewrite andb_false_r|]. by destruct k. }
  rewrite Ee in H. clear Ee. destruct (omap_all _ _) as [rows|] eqn:OM; [|done]. apply omap_all_Forall2 in OM. apply rmap_Ok in H.
  assert (Eb : bare col = bare col0) by (by rewrite Ec, bare_qualify). rewrite <- Eb in GR.
  destruct (groups_spec D A s tb tx col DO) as (GP & GB & GF). rewrite Forall_forall in GF.
  assert (G : Forall2 (group_of D A K C info s c tb opts field aggs (bare col)) (groups_of D A (ECol col) s tx tb) gs).
  { apply Forall2_in in OM. refine (Forall2_compose _ _ _ _ _ _ OM H _). intros rs r g [Hrs RW] TG. subst col. by eapply group_answers. }
  clear OM H. split; [|split].
  - clear -GB G O. revert gs G. induction GB as [|rs rss B IH L]; intros gs G; inversion G as [|? g ? gs' Hg G']; subst; constructor; [by apply IH|].
    apply Forall_forall. intros h Hh. destruct Hg as ((x & Hx & ->) & _). apply list_elem_of_lookup in Hh as [i Hi].
    destruct (Forall2_lookup_r _ _ _ _ _ G' Hi) as (rs' & Hr & (y & Hy & ->) & _). rewrite Forall_forall in L. apply (L rs'); [by eapply list_elem_of_lookup_2|done|done].
  - exists (map (fun rs => Z.of_nat (length rs)) (groups_of D A (ECol col) s tx tb)). split.
    + apply Forall2_fmap_r. apply Forall2_flip. eapply Forall2_impl; [exact G|]. intros rs g ((x & Hx & _) & E & _). split; [|done]. destruct rs; [set_solver|cbn; lia].
    + destruct (read_filter D s c opts (OIn field []) CFalse tx cfg) as ((tx' & cfg' & R' & N) & _); [intros st; cbn; unfold apply_In; rewrite HC; eauto|done|].
      unfold CountRows. rewrite R'. cbn [rbind]. rewrite NC, (selected_narrowed _ _ _ _ _ _ N). f_equal.
      transitivity (Z.of_nat (length (concat (groups_of D A (ECol col) s tx tb)))).
      * rewrite GP. unfold scan_rows. rewrite (order_by_perm D). f_equal. clear. induction (selected _ _ _ _); cbn; congruence.
      * clear. induction (groups_of _ _ _ _ _ _) as [|rs rss IH]; cbn; [done|]. rewrite length_app. lia.
  - intros g Hg. apply list_elem_of_lookup in Hg as [i Hi]. destruct (Forall2_lookup_r _ _ _ _ _ G Hi) as (rs & _ & _ & _ & E). done.
Qed.

(** ** Sums *)

(** A driver's answer that is the integer [z]: an int64, or its decimal text,
    which strconv reads where it fits. *)
Definition in_int64 (z : Z) : bool := (MinInt64 <=? z) && (z <=? MaxInt64).
Definition driver_int (r : raw) (z : Z) : Prop :=
  (r = RInt z /\ in_int64 z = true) \/ exists t, (r = RBytes t \/ r = RText t) /\ parse_int (trim_space t) 64 = if in_int64 z then Some z else None.

(** Sum as int64 is exact, and fails past the range of int64: it never wraps. *)
Lemma Sum_exact D A K C (info : gostring -> option column_info) (s : store) (c : ctx) tb field opts col spec tx cfg zs :
  aggField info s field = Ok (col, spec) -> a_textual spec = false -> a_kind spec = kindInt -> read s c true opts = Ok (tx, cfg) -> fails D StSelect = false ->
  not_null (map (fun x => get x (bare col)) (scan_rows D s tx tb)) = map VInt zs ->
  match zs with [] => agg_raw A SUM [] = Some RNull | _ => exists r, agg_raw A SUM (map VInt zs) = Some r /\ driver_int r (total_of zs) end ->
  match zs with
  | [] => Sum D A K C info SInt64 s c field opts tb = Ok None
  | _ => if in_int64 (total_of zs) then Sum D A K C info SInt64 s c field opts tb = Ok (Some (AInt (total_of zs)))
         else exists t, Sum D A K C info SInt64 s c field opts tb = Err (ARange t)
  end.
Proof.
  intros F T Kd R NF V L. unfold Sum, single. rewrite F. cbn [rbind]. unfold resultKind. rewrite T, Kd.
  change (seq_eqb kindInt kindInt || seq_eqb kindInt kindUint) with true. cbn [rbind readAs]. rewrite R. cbn [store_r rbind]. rewrite NF.
  unfold aggExpr. change (seq_eqb kindInt kindTime) with false. cbn [andb select1 eval]. change (fun x => get x (bare col)) with (eval A (ECol col)) in V. rewrite V.
  destruct zs as [|z zs]; [by cbn [map]; rewrite L|]. destruct L as (r & -> & [[-> I]|(t & Er & P)]).
  - by rewrite I.
  - destruct (in_int64 (total_of (z :: zs))); destruct Er as [-> | ->]; cbn; unfold parseInt; rewrite P; eauto.
Qed.

(** ** Witnesses *)

Definition demo_raw (v : value) : raw :=
  match v with VNull => RNull | VInt z => RInt z | VUint z => RUint z | VBool b => RBool b | VStr s => RText s | VTime t => RTime t | VFloat f => RFloat f end.

Definition ints_of (vs : list value) : list Z := flat_map (fun v => match v with VInt z => [z] | _ => [] end) vs.

(** A driver that returns sums as decimal text. *)
Definition demo_fn (f : agg_fn) (vs : list value) : option raw :=
  match ints_of vs with
  | [] => Some RNull
  | z :: zs =>
      Some (match f with
            | SUM => RBytes (format_int (fold_right Z.add z zs))
            | AVG => RFloat (fold_right Z.add z zs / (1 + Z.of_nat (length zs)))
            | MIN => RInt (fold_right Z.min z zs)
            | MAX => RInt (fold_right Z.max z zs)
            end)
  end.

Definition demo_agg : AggDb := MkAggDb false (fun v => v) demo_raw demo_fn.
Definition demo_convert : Convert := MkConvert (fun _ _ => None) (fun z => z).
Definition demo_info (col : gostring) : option column_info :=
  match posts_kinds !! col with Some (kd, _) => Some (MkInfo None [] [] [] (scalarSpec kd)) | None => None end.

Lemma aggregates_fenced_witness :
  Sum demo_db demo_agg demo_codec demo_convert demo_info SInt64 (posts true true) ann (str "rank") [] some_posts = Ok (Some (AInt 7))
  /\ Sum demo_db demo_agg demo_codec demo_convert demo_info SInt64 (posts true true) ann (str "rank") [] some_posts
     = Sum demo_db demo_agg demo_codec demo_convert demo_info SInt64 (posts true true) ann (str "rank") [] (visible_to demo_db (posts true true) ann some_posts).
Proof.
  split; [vm_compute; reflexivity|].
  exact (proj1 (aggregates_fenced demo_db demo_agg demo_codec demo_convert demo_info (posts true true) ann some_posts
    eq_refl demo_ocmp_ok (demo_apart some_posts ltac:(vm_compute; reflexivity))) SInt64 (str "rank") []).
Defined.

Lemma demo_null_cond v : vcmp demo_db v VNull = None.
Proof. cbn. unfold demo_vcmp. by rewrite orb_true_r. Qed.

Lemma demo_keys : keys_ok demo_db.
Proof. intros a b. unfold demo_db, vcmp, ocmp, demo_vcmp, demo_ocmp. cbn. by destruct (a ?= b). Qed.

Lemma ListIn_complete_witness :
  (match ListByIDs demo_db (posts true true) ann [4; 1; 2; 4] [] some_posts with Ok l => map fst l | Err _ => [] end) = [1; 4]
  /\ exists out, ListIn demo_db (posts true true) ann (str "title") [VStr (str "two"); VStr (str "three")] [] some_posts = Ok out /\ NoDup out.
Proof.
  split; [vm_compute; reflexivity|].
  destruct (read (posts true true) ann false []) as [[tx cfg]|] eqn:R; [|vm_compute in R; discriminate R].
  assert (P : HasPage cfg || HasOrder cfg || Count cfg = false) by (vm_compute in R; injection R as _ <-; reflexivity).
  destruct (proj1 (ListIn_complete demo_db (posts true true) ann [] some_posts tx cfg demo_ocmp_ok (demo_apart some_posts ltac:(vm_compute; reflexivity)) demo_null_cond demo_keys R P eq_refl)
    (str "title") (str "title") [VStr (str "two"); VStr (str "three")] ltac:(vm_compute; reflexivity)) as (out & E & N & _).
  exact (ex_intro _ out (conj E N)).
Defined.

Lemma demo_groupable : groupable demo_db demo_agg demo_codec demo_convert KeyInt64 (str "rank") some_posts.
Proof.
  split; [|done| |].
  - intros x Hx. right.
    assert (P : match get x (str "rank") with VInt _ => true | _ => false end = true) by (revert x Hx; apply (all_rows (fun x => match get x (str "rank") with VInt _ => true | _ => false end)); vm_compute; reflexivity).
    by destruct (get x (str "rank")).
  - done.
  - intros v E. symmetry. by apply demo_ocmp_Eq.
Qed.

Lemma GroupBy_agrees_witness :
  let aggs := [MkAggregate (str "count") []; MkAggregate (str "Sum") (str "rank")] in
  let gs := [MkGroup (VInt 2) [AInt 2; AInt 4]; MkGroup (VInt 3) [AInt 1; AInt 3]] in
  GroupBy demo_db demo_agg demo_codec demo_convert demo_info KeyInt64 (posts true true) ann (str "rank") aggs [] some_posts = Ok gs /\
  Forall2 (answers demo_db demo_agg demo_codec demo_convert demo_info (posts true true) ann some_posts [Eq_ (str "rank") (VInt 2)]) aggs [AInt 2; AInt 4].
Proof.
  cbn zeta. match goal with |- ?G /\ _ => assert (H : G) by (vm_compute; reflexivity) end. split; [exact H|].
  destruct (read (posts true true) ann false []) as [[tx cfg]|] eqn:R; [|vm_compute in R; discriminate R].
  refine (proj2 (proj2 (GroupBy_agrees demo_db demo_agg demo_codec demo_convert demo_info KeyInt64 (posts true true) ann (str "rank") _ [] some_posts _ (str "rank") tx cfg
    demo_db_ok (demo_apart some_posts ltac:(vm_compute; reflexivity)) eq_refl (or_introl eq_refl) _ _ R H)) (MkGroup (VInt 2) [AInt 2; AInt 4]) _).
  - vm_compute. reflexivity.
  - exact demo_groupable.
  - by left.
Defined.

(** A page so far that the product wraps around is the first one: the size that
    Page checks is zero, and the store's own comes after the check. *)
Example far_page_wraps :
  let p := 2 ^ 62 + 1 in
  Pluck demo_db (posts true true) ann (str "title") [OPage p 0] some_posts = Ok [VStr (str "one"); VStr (str "three"); VStr (str "four")] /\
  Pluck demo_db (posts true true) ann (str "title") [OPage 2 0] some_posts = Ok [].
Proof. cbn zeta. split; vm_compute; reflexivity. Qed.
