(* ===== verification/StoreUpsert.v ===== *)
(** store/write.go: Upsert and BatchUpsert, their conflict columns, the checks
    before the write, and INSERT ... ON CONFLICT; store/errors.go and
    store/store.go: the names of unique constraints.

    Which row a row conflicts with is the database's: a parameter, which may
    answer for MySQL what ON DUPLICATE KEY would.  [between] is what others
    commit between the check of the deleted rows and the write. *)

From Stdlib Require Import ZArith Lia List Ascii.
From stdpp Require Import base decidable list gmap strings sorting.
From S2P Require Import Prelude GoStrings GoMaps StoreWhere Store StoreCursor StoreRead StoreWrite StoreAgg.

(** ** The schema *)

(** An index declared with SoftUnique or Unique; one of gorm's tags, whose
    fields may be none of the model's. *)
Record u_index := MkUIndex { ix_name : gostring; ix_columns : list gostring; ix_soft : bool }.
Record p_index := MkPIndex { px_name : gostring; px_unique : bool; px_fields : list (option gostring) }.

(** What gorm knows of the model: [lookup_field] its columns, with the unique
    tag and the public name; [defaults] the columns with a default, which gorm
    knows or leaves to the database; the zero time. *)
Record u_schema := MkUSchema {
  indexes : list u_index; parsed : list p_index; lookup_field : gmap gostring (bool * gostring);
  defaults : gmap gostring (option value); declared_constraints : list (gostring * gostring); zero_time : Z;
}.

(** The database of an upsert. *)
Record UpsertDb := MkUpsertDb {
  arbitrable : list gostring -> bool;                        (* a unique index is over the columns *)
  arbiter : list gostring -> table -> row -> option Z;       (* the row that a row conflicts with *)
  twice : bool;                                              (* one statement may update a row again *)
  own_default : gostring -> value;
  go_text : value -> gostring;                               (* fmt.Sprintf of %T:%v *)
  between : table -> table;
}.

Inductive upsert_error :=
| UStore (e : store_error)
| UNilObject | UScoped
| UConflict (e : where_error) | URepeats (field col : gostring)
| UNilItem (i : nat) | UBefore (i : nat) (e : store_error)
| USame (j i : nat)
| UDeleted (constraint field : gostring).

Definition store_u {A} (r : result store_error A) : result upsert_error A := match r with Ok a => Ok a | Err e => Err (UStore e) end.

Definition sameSet (a b : list gostring) : bool := forallb (fun x => existsb (seq_eqb x) b) a.

Definition over (cols idx : list gostring) : bool := (length idx =? length cols)%nat && sameSet idx cols.

(** ** Names of constraints *)

(** The name of a column in a map of fields; Go's map has no order. *)
Definition name_in (m : fields_t) (c : gostring) : option gostring := option_map fst (List.find (fun nc => seq_eqb nc.2 c) (map_to_list m)).

Fixpoint fieldOfColumns (s : store) (U : u_schema) (cols : list gostring) : gostring :=
  match cols with
  | [] => []
  | c :: cols' =>
      if seq_eqb c (str "owner_id") || seq_eqb c (str "delete_token") then fieldOfColumns s U cols'
      else match name_in (queryFields s) c, name_in (updateFields s) c, name_in (columns s) c, lookup_field U !! c with
           | Some n, _, _, _ | None, Some n, _, _ | None, None, Some n, _ => n
           | None, None, None, Some (_, public) => public
           | None, None, None, None => c
           end
  end.

Definition uni_name (s : store) (col : gostring) : gostring := str "uni_" ++ s_table s ++ str "_" ++ col.

(** The map that New fills; of two of a name the later one counts. *)
Definition named (s : store) (U : u_schema) (name : gostring) (cols : list gostring) (m : gmap gostring gostring) : gmap gostring gostring :=
  let f := fieldOfColumns s U cols in if seq_eqb f [] then m else <[name := f]> m.

Definition constraints (s : store) (U : u_schema) : gmap gostring gostring :=
  let m := fold_left (fun m idx => if px_unique idx then named s U (px_name idx) (omap id (px_fields idx)) m else m) (parsed U) ∅ in
  let m := fold_left (fun m cf => if cf.2.1 : bool then <[uni_name s cf.1 := fieldOfColumns s U [cf.1]]> m else m) (map_to_list (lookup_field U)) m in
  let m := fold_left (fun m idx => named s U (ix_name idx) (ix_columns idx) m) (indexes U) m in
  fold_left (fun m nf => <[nf.1 := nf.2]> m) (declared_constraints U) m.

Definition columnsField (s : store) (U : u_schema) (cols : list gostring) : gostring :=
  match constraints s U !! join (str ",") cols with
  | Some f => f
  | None =>
      match cols with
      | [c] => match constraints s U !! c with Some f => f | None => fieldOfColumns s U cols end
      | _ => fieldOfColumns s U cols
      end
  end.

(** [sqliteCode]: a code in parentheses at the end, and the space before it. *)
Definition re_space (c : ascii) : bool := existsb (Z.eqb (byte_val c)) [9; 10; 12; 13; 32].

Fixpoint drop_while (p : ascii -> bool) (s : gostring) : gostring :=
  match s with c :: s' => if p c then drop_while p s' else s | [] => [] end.

Definition strip_code (name : gostring) : gostring :=
  match rev name with
  | c :: r =>
      if beq c ")" then
        match drop_while digit r with
        | o :: r' => if beq o "(" && negb (seq_eqb r (o :: r')) then rev (drop_while re_space r') else name
        | [] => name
        end
      else name
  | [] => name
  end.

Definition constraintField (s : store) (U : u_schema) (name : gostring) : gostring :=
  match constraints s U !! name with
  | Some f => f
  | None =>
      if negb (existsb (beq ".") name) then []
      else columnsField s U (map (fun seg => let seg := trim_space seg in if existsb (beq ".") seg then (cut "." seg).2 else seg) (split "," (strip_code name)))
  end.

(** ** The conflict columns *)

Definition add_target (s : store) (cols : list gostring) (f : gostring) : result upsert_error (list gostring) :=
  match Column (columns s) f with
  | Err e => Err (UConflict e)
  | Ok col => if existsb (seq_eqb col) cols then Err (URepeats f col) else Ok (cols ++ [col])
  end.

(** Live is that only live rows hold the values. *)
Definition conflictTarget (s : store) (U : u_schema) (fields : list gostring) : result upsert_error (list gostring * bool) :=
  let fields := match fields with [] => [str "id"] | _ => fields end in
  let? cols := rfold (add_target s) fields [] in
  Ok (match (if soft s then List.find (fun idx => ix_soft idx && over cols (ix_columns idx)) (indexes U) else None) with
      | Some idx => (ix_columns idx ++ [str "delete_token"], true)
      | None => (cols, false)
      end).

(** ** The objects *)

(** The value of a field; a Go field is never missing. *)
Definition val (r : row) (col : gostring) : value := default VNull (r !! col).

Definition is_zero (U : u_schema) (v : value) : bool :=
  match v with
  | VNull => true
  | VInt n | VUint n | VFloat n => n =? 0
  | VBool b => negb b
  | VStr t => seq_eqb t []
  | VTime t => t =? zero_time U
  end.

Definition nul : ascii := "000"%char.

(** The key of an object's conflict values; [None] for one whose RID is still
    empty. *)
Fixpoint conflict_key (D : UpsertDb) (U : u_schema) (cols : list gostring) (obj : row) : option gostring :=
  match cols with
  | [] => Some []
  | col :: cols' =>
      match lookup_field U !! col with
      | None => conflict_key D U cols' obj
      | Some _ =>
          let v := val obj col in
          if seq_eqb col (str "rid") && is_zero U v then None
          else option_map (fun k => go_text D v ++ [nul] ++ k) (conflict_key D U cols' obj)
      end
  end.

Fixpoint distinct_from (D : UpsertDb) (U : u_schema) (target : list gostring) (i : nat) (objs : list row) (seen : gmap gostring nat) : option upsert_error :=
  match objs with
  | [] => None
  | obj :: objs' =>
      match conflict_key D U target obj with
      | None => distinct_from D U target (S i) objs' seen
      | Some key =>
          match seen !! key with
          | Some j => Some (USame j i)
          | None => distinct_from D U target (S i) objs' (<[key := i]> seen)
          end
      end
  end.

Definition distinctConflicts (D : UpsertDb) (U : u_schema) (objs : list row) (target : list gostring) : option upsert_error :=
  distinct_from D U target 0 objs ∅.

(** ** Deleted rows *)

(** The value an insert writes to a column; [None] for one assigned at insert. *)
Definition insert_value (U : u_schema) (obj : row) (col : gostring) : option value :=
  let v := val obj col in
  let v := if is_zero U v
           then if seq_eqb col (str "rid") then None
                else match defaults U !! col with Some None => None | Some (Some d) => Some d | None => Some v end
           else Some v in
  match v with Some VNull => None | v => v end.

Definition insertValues (U : u_schema) (cols : list gostring) (obj : row) : option (list value) := mapM (insert_value U obj) cols.

Definition equal_on (E : Env) (cols : list gostring) (vs : list value) (r : row) : bool :=
  forallb (fun cv => sat_cmp (vcmp (db E)) OpEq (val r cv.1) cv.2) (combine cols vs).

Definition is_deleted (r : row) : bool := negb (is_null (val r (str "deleted_at"))).

Definition deleted_holder (E : Env) (cols : list gostring) (groups : list (list value)) (tb : table) : bool :=
  existsb (fun x => is_deleted x.2 && existsb (fun vs => equal_on E cols vs x.2) groups) (map_to_list tb).

Definition uniqueIndexOf (s : store) (U : u_schema) (cols : list gostring) : gostring :=
  match List.find (fun idx => negb (ix_soft idx) && over cols (ix_columns idx)) (indexes U) with
  | Some idx => ix_name idx
  | None =>
      match List.find (fun idx => px_unique idx && (length (px_fields idx) =? length cols)%nat
                                  && (let c := omap id (px_fields idx) in (length c =? length cols)%nat && sameSet c cols)) (parsed U) with
      | Some idx => px_name idx
      | None =>
          match cols with
          | [c] => match lookup_field U !! c with Some (true, _) => uni_name s c | _ => [] end
          | _ => []
          end
      end
  end.

Definition deletedDuplicate (s : store) (U : u_schema) (target : list gostring) : upsert_error :=
  let constraint := uniqueIndexOf s U target in
  let field := if seq_eqb constraint [] then [] else constraintField s U constraint in
  UDeleted constraint (if seq_eqb field [] then columnsField s U target else field).

Definition batchSize : nat := 100.

Fixpoint deleted_chunks (E : Env) (s : store) (U : u_schema) (target : list gostring) (cs : list (list row)) (tb : table) : option upsert_error :=
  match cs with
  | [] => None
  | chunk :: cs' =>
      match omap (insertValues U target) chunk with
      | [] => deleted_chunks E s U target cs' tb
      | groups =>
          if fails (db E) StSelect then Some (UStore EDatabase)
          else if deleted_holder E target groups tb then Some (deletedDuplicate s U target)
          else deleted_chunks E s U target cs' tb
      end
  end.

Definition deletedConflict (E : Env) (s : store) (U : u_schema) (objs : list row) (target : list gostring) (tb : table) : option upsert_error :=
  if forallb (fun col => match lookup_field U !! col with Some _ => true | None => false end) target
  then deleted_chunks E s U target (chunks batchSize (length objs) objs) tb
  else None.

(** ** The write *)

(** A row as it is inserted: BeforeCreate, the time stamps, the defaults. *)
Definition with_default (D : UpsertDb) (U : u_schema) (col : gostring) (d : option value) (obj : row) : row :=
  if is_zero U (val obj col) then <[col := match d with Some d => d | None => own_default D col end]> obj else obj.

Definition inserted (E : Env) (D : UpsertDb) (U : u_schema) (acc : list row * list Z) (obj : row) : result store_error (list row * list Z) :=
  let? '(obj, rest) := BeforeCreate E acc.2 obj in
  let obj := stamp E (str "updated_at") (stamp E (str "created_at") obj) in
  Ok (acc.1 ++ [map_fold (with_default D U) obj (defaults U)], rest).

(** The columns of DO UPDATE besides the version. *)
Definition update_set (s : store) : list gostring := merge_sort str_le (map snd (map_to_list (updateFields s))) ++ [str "updated_at"].

Definition assign (set : list gostring) (p r : row) : row :=
  <[str "version" := VInt (version_of r + 1)]> (fold_left (fun r col => <[col := val p col]> r) set r).

(** One row of an INSERT ... ON CONFLICT: the rows the statement wrote so far. *)
Definition upsert_row (E : Env) (D : UpsertDb) (target set : list gostring) (acc : table * list Z) (p : row) : result store_error (table * list Z) :=
  let '(tb, touched) := acc in
  let write i r := let tb' := <[i := r]> tb in
                   match dup E tb' with Some constraint => Err (EDuplicate constraint) | None => Ok (tb', i :: touched) end in
  match arbiter D target tb p with
  | Some i =>
      match tb !! i with
      | Some r => if existsb (Z.eqb i) touched && negb (twice D) then Err EDatabase else write i (assign set p r)
      | None => Err EDatabase
      end
  | None => write (next_id E tb) p
  end.

(** CreateInBatches, a statement for each batch. *)
Fixpoint upsert_batches (E : Env) (D : UpsertDb) (U : u_schema) (target set : list gostring) (cs : list (list row)) (random : list Z) (tb : table)
  : result store_error table :=
  match cs with
  | [] => Ok tb
  | chunk :: cs' =>
      let? '(ps, random) := rfold (inserted E D U) chunk ([], random) in
      if fails (db E) StInsert || negb (arbitrable D target) then Err EDatabase
      else
        let? '(tb, _) := rfold (upsert_row E D target set) ps (tb, []) in
        upsert_batches E D U target set cs' random tb
  end.

Fixpoint before_each (s : store) (c : ctx) (i : nat) (objs : list (option row)) : result upsert_error (list row) :=
  match objs with
  | [] => Ok []
  | None :: _ => Err (UNilItem i)
  | Some obj :: objs' =>
      match beforeCreate s c obj with
      | Err e => Err (UBefore i e)
      | Ok obj => let? objs' := before_each s c (S i) objs' in Ok (obj :: objs')
      end
  end.

(** The statements, in one transaction: [Err] leaves what others wrote. *)
Definition upsert_tx (E : Env) (D : UpsertDb) (s : store) (U : u_schema) (objs : list row) (target : list gostring) (live : bool) (tb : table) : table * option upsert_error :=
  match (if soft s && negb live then deletedConflict E s U objs target tb else None) with
  | Some e => (tb, Some e)
  | None =>
      let tb := between D tb in
      match upsert_batches E D U target (update_set s) (chunks batchSize (length objs) objs) (rid_random E) tb with
      | Err e => (tb, Some (UStore e))
      | Ok tb' => (tb', None)
      end
  end.

Definition BatchUpsert (E : Env) (D : UpsertDb) (s : store) (U : u_schema) (c : ctx) (objs : list (option row)) (conflict : list gostring) (tb : table) : table * option upsert_error :=
  if owned s || negb (match scopes s with [] => true | _ => false end) then (tb, Some UScoped)
  else
    match objs with
    | [] => (tb, None)
    | _ =>
        match (let? '(target, live) := conflictTarget s U conflict in let? objs := before_each s c 0 objs in Ok (target, live, objs)) with
        | Err e => (tb, Some e)
        | Ok (target, live, objs) =>
            match distinctConflicts D U objs target with
            | Some e => (tb, Some e)
            | None => upsert_tx E D s U objs target live tb
            end
        end
    end.

Definition Upsert (E : Env) (D : UpsertDb) (s : store) (U : u_schema) (c : ctx) (obj : option row) (conflict : list gostring) (tb : table) : table * option upsert_error :=
  match obj with
  | None => (tb, Some UNilObject)
  | Some obj => BatchUpsert E D s U c [Some obj] conflict tb
  end.
