(* ===== verification/StoreUpsertSpec.v ===== *)
(** What BatchUpsert of StoreUpsert.v leaves: every object in the table once,
    the rows it does not name as they were, and no deleted row changed. *)

From Stdlib Require Import ZArith Lia List Ascii.
From stdpp Require Import base decidable list gmap strings sorting.
From S2P Require Import Prelude GoStrings GoMaps StoreWhere Store StoreCursor StoreRead StoreList StoreWrite StoreDemo StoreAgg StoreAggSpec StoreUpsert.

(** Two rows hold the same conflict values, none of them NULL. *)
Definition same (target : list gostring) (p r : row) : Prop := forall c, c ∈ target -> val p c = val r c /\ val p c <> VNull.

(** What becomes of a row that an object conflicts with. *)
Definition overwritten (set : list gostring) (p r r' : row) : Prop :=
  version_of r' = version_of r + 1
  /\ (forall c, c ∈ set -> val r' c = val p c)
  /\ (forall c, c ∉ set -> c <> str "version" -> r' !! c = r !! c).

Lemma val_insert_ne (r : row) c c' v : c <> c' -> val (<[c := v]> r) c' = val r c'.
Proof. intros N. unfold val. by rewrite lookup_insert_ne. Qed.

Lemma set_cols set p r c : (c ∈ set -> val (fold_left (fun r col => <[col := val p col]> r) set r) c = val p c)
  /\ (c ∉ set -> fold_left (fun r col => <[col := val p col]> r) set r !! c = r !! c).
Proof.
  revert r. induction set as [|x set IH]; intros r; cbn; [by split; [intros ?%elem_of_nil|]|].
  destruct (IH (<[x := val p x]> r)) as [I1 I2]. split.
  - intros H. destruct (decide (c ∈ set)) as [|N]; [by apply I1|]. apply elem_of_cons in H as [->|]; [|done].
    unfold val at 1. rewrite I2 by done. by rewrite lookup_insert_eq.
  - intros [N1 N2]%not_elem_of_cons. rewrite I2 by done. by rewrite lookup_insert_ne.
Qed.

Lemma assign_overwrites set p r : str "version" ∉ set -> overwritten set p r (assign set p r).
Proof.
  intros V. unfold assign, overwritten. split_and!.
  - unfold version_of at 1. by rewrite lookup_insert_eq.
  - intros c H. rewrite val_insert_ne by (by intros <-). by apply (set_cols set p r c).
  - intros c H N. rewrite lookup_insert_ne by done. by apply (set_cols set p r c).
Qed.

Section rows.
Context (target set : list gostring) (Hv : str "version" ∉ target) (Hs : str "version" ∉ set).

Lemma assign_target p r c : same target p r -> c ∈ target -> val (assign set p r) c = val p c.
Proof.
  intros S H. destruct (assign_overwrites set p r Hs) as (_ & I & O). destruct (decide (c ∈ set)) as [|N]; [by apply I|].
  unfold val at 1. rewrite O by (try done; by intros ->). by destruct (S c H).
Qed.

Lemma same_assign q p r : same target p r -> same target q (assign set p r) <-> same target q r.
Proof.
  intros S. split; intros Q c H; destruct (Q c H) as [E N]; (split; [|done]); rewrite E.
  - rewrite assign_target by done. by destruct (S c H).
  - rewrite assign_target by done. by destruct (S c H).
Qed.

Lemma same_both p q r : same target p r -> same target q r -> same target p q.
Proof. intros P Q c H. destruct (P c H) as [E N], (Q c H) as [E' N']. split; [congruence|done]. Qed.

(** One row of the statement: an update of a row it conflicts with, or an insert. *)
Definition upserts1 (p : row) (tb tb' : table) : Prop :=
  (exists i r, tb !! i = Some r /\ same target p r /\ tb' = <[i := assign set p r]> tb)
  \/ (exists i, tb !! i = None /\ (forall j r, tb !! j = Some r -> ~ same target p r) /\ tb' = <[i := p]> tb).

Inductive upserts : list row -> table -> table -> Prop :=
| upserts_nil tb : upserts [] tb tb
| upserts_cons p ps tb tb1 tb' : upserts1 p tb tb1 -> upserts ps tb1 tb' -> upserts (p :: ps) tb tb'.

Lemma upserts_app ps qs tb tb1 tb' : upserts ps tb tb1 -> upserts qs tb1 tb' -> upserts (ps ++ qs) tb tb'.
Proof. induction 1; [done|]. intros Q. cbn. econstructor; eauto. Qed.

Fixpoint apart (ps : list row) : Prop :=
  match ps with [] => True | p :: ps' => (forall q, q ∈ ps' -> ~ same target q p) /\ apart ps' end.

(** A row is overwritten by the one object it conflicts with, or left. *)
Lemma upserts_old ps tb tb' : upserts ps tb tb' -> apart ps -> forall i r, tb !! i = Some r ->
  tb' !! i = Some r \/ exists p, p ∈ ps /\ same target p r /\ tb' !! i = Some (assign set p r).
Proof.
  induction 1 as [|p ps tb tb1 tb' U1 U IH]; [by left|]. intros [A1 A2] i r E. destruct U1 as [(i0 & r0 & E0 & S & ->)|(i0 & E0 & _ & ->)].
  - destruct (decide (i0 = i)) as [->|N].
    + rewrite E in E0. injection E0 as <-. right. exists p. split; [by apply elem_of_cons; left|]. split; [done|].
      destruct (IH A2 i (assign set p r)) as [H|(q & Hq & Sq & _)]; [by rewrite lookup_insert_eq|done|].
      exfalso. apply (A1 q Hq). apply same_assign in Sq; [|done]. by eapply same_both.
    + destruct (IH A2 i r) as [H|(q & Hq & Sq & H)]; [by rewrite lookup_insert_ne|by left|]. right. exists q. split; [by apply elem_of_cons; right|done].
  - destruct (IH A2 i r) as [H|(q & Hq & Sq & H)]; [by rewrite lookup_insert_ne by congruence|by left|]. right. exists q. split; [by apply elem_of_cons; right|done].
Qed.

(** Every object is there. *)
Lemma upserts_there ps tb tb' : upserts ps tb tb' -> apart ps -> forall p, p ∈ ps ->
  exists i r', tb' !! i = Some r' /\ forall c, c ∈ target \/ c ∈ set -> val r' c = val p c.
Proof.
  induction 1 as [|p ps tb tb1 tb' U1 U IH]; [by intros _ p ?%elem_of_nil|]. intros [A1 A2] q [->|Hq]%elem_of_cons; [|by apply IH].
  assert (X : exists i r1, tb1 !! i = Some r1 /\ (forall q, same target q r1 -> same target q p) /\ forall c, c ∈ target \/ c ∈ set -> val r1 c = val p c).
  { destruct U1 as [(i & r & E & S & ->)|(i & E & _ & ->)]; exists i; rewrite lookup_insert_eq; [|by exists p].
    exists (assign set p r). split; [done|]. split.
    - intros q Q. apply same_assign in Q; [|done]. by eapply same_both.
    - intros c [H|H]; [by apply assign_target|]. by apply (assign_overwrites set p r Hs). }
  destruct X as (i & r1 & E1 & S1 & V1). destruct (upserts_old _ _ _ U A2 i r1 E1) as [H|(q & Hq & Sq & _)]; [by exists i, r1|].
  exfalso. by apply (A1 q Hq), S1.
Qed.

(** What is new is an object that no row conflicted with. *)
Lemma upserts_new ps tb tb' : upserts ps tb tb' -> apart ps -> forall i r', tb !! i = None -> tb' !! i = Some r' ->
  r' ∈ ps /\ forall j r, tb !! j = Some r -> ~ same target r' r.
Proof.
  induction 1 as [|p ps tb tb1 tb' U1 U IH]; [by intros _ i r' ->|]. intros [A1 A2] i r' E E'. rewrite elem_of_cons.
  destruct U1 as [(i0 & r0 & E0 & S & ->)|(i0 & E0 & No & ->)].
  - destruct (IH A2 i r') as [I N]; [by rewrite lookup_insert_ne by congruence|done|]. split; [by right|]. intros j r Ej Sj.
    destruct (decide (i0 = j)) as [->|Nj].
    + rewrite Ej in E0. injection E0 as <-. apply (N j (assign set p r)); [by rewrite lookup_insert_eq|by apply same_assign].
    + apply (N j r); [by rewrite lookup_insert_ne|done].
  - destruct (decide (i0 = i)) as [->|Ni].
    + destruct (upserts_old _ _ _ U A2 i p) as [H|(q & Hq & Sq & _)]; [by rewrite lookup_insert_eq| |by destruct (A1 q Hq)].
      rewrite H in E'. injection E' as <-. by split; [left|].
    + destruct (IH A2 i r') as [I N]; [by rewrite lookup_insert_ne|done|]. split; [by right|]. intros j r Ej Sj. apply (N j r); [|done].
      by rewrite lookup_insert_ne by congruence.
Qed.
End rows.

(** ** The rows that are written *)

(** The objects as they are inserted, batch by batch. *)
Fixpoint prepare (E : Env) (D : UpsertDb) (U : u_schema) (cs : list (list row)) (random : list Z) : result store_error (list row) :=
  match cs with
  | [] => Ok []
  | chunk :: cs' =>
      let? '(ps, random) := rfold (inserted E D U) chunk ([], random) in
      let? qs := prepare E D U cs' random in
      Ok (ps ++ qs)
  end.

Definition prepared (E : Env) (D : UpsertDb) (U : u_schema) (objs : list row) : result store_error (list row) :=
  prepare E D U (chunks batchSize (length objs) objs) (rid_random E).

(** What is relied on: the database answers a row of equal values for a
    conflict, if there is one, gives new keys, and finds equal values equal; the
    conflict columns are fields of the model, without a default but the delete
    token's, and neither the version nor a time stamp; no managed column is an
    update field (New sees to it); RIDs are texts, and a random one is new. *)
Record upsert_ok (E : Env) (D : UpsertDb) (s : store) (U : u_schema) (target : list gostring) (live : bool) (objs : list row) (tb : table) : Prop := {
  uo_arbiter : forall tb p, match arbiter D target tb p with
                            | Some i => exists r, tb !! i = Some r /\ same target p r
                            | None => forall i r, tb !! i = Some r -> ~ same target p r
                            end;
  uo_key : forall tb : table, tb !! next_id E tb = None;
  uo_equal : forall v, v <> VNull -> sat_cmp (vcmp (db E)) OpEq v v = true;
  uo_known : forall c, c ∈ target -> is_Some (lookup_field U !! c);
  uo_default : forall c, c ∈ target -> defaults U !! c = None \/ c = str "delete_token" /\ defaults U !! c = Some (Some (VStr []));
  uo_plain : forall c, c ∈ target -> c ∉ map str ["version"; "created_at"; "updated_at"]%string;
  uo_update : forall f c, updateFields s !! f = Some c -> protected c = false;
  uo_rid : forall obj, obj ∈ objs -> exists t, val obj (str "rid") = VStr t;
  uo_token : forall obj, obj ∈ objs -> val obj (str "delete_token") = VStr [];
  uo_tokens : forall i r, tb !! i = Some r -> is_deleted r = true -> val r (str "delete_token") <> VStr [];
  uo_live : live = true -> str "delete_token" ∈ target;
  uo_fresh : forall ps n obj p, prepared E D U objs = Ok ps -> objs !! n = Some obj -> ps !! n = Some p -> val obj (str "rid") = VStr [] ->
      (forall i r, between D tb !! i = Some r -> val r (str "rid") <> val p (str "rid"))
      /\ (forall m q, ps !! m = Some q -> m <> n -> val q (str "rid") <> val p (str "rid"));
}.

Section upsert.
Context (E : Env) (D : UpsertDb) (s : store) (U : u_schema) (target : list gostring) (live : bool) (objs : list row) (tb : table).
Context (W : upsert_ok E D s U target live objs tb).

(** How an object is inserted: as it is in the conflict columns, but for a RID,
    and in every column that is not managed and has no default. *)
Definition inserts (obj p : row) : Prop :=
  (forall c, c ∈ target -> c <> str "rid" \/ val obj (str "rid") <> VStr [] -> val p c = val obj c)
  /\ forall c, c ∉ map str ["rid"; "version"; "created_at"; "updated_at"]%string -> defaults U !! c = None -> val p c = val obj c.

Lemma default_keeps obj c : defaults U !! c = None \/ c = str "delete_token" /\ defaults U !! c = Some (Some (VStr [])) -> val obj (str "delete_token") = VStr [] -> val (map_fold (with_default D U) obj (defaults U)) c = val obj c.
Proof.
  intros H Ht. apply (map_fold_weak_ind (fun r m => (m ⊆ defaults U) -> val r c = val obj c)); [done| |done].
  intros x d m r Nm IH Sub. assert (Sm : m ⊆ defaults U) by (etransitivity; [by apply insert_subseteq|done]).
  unfold with_default. destruct (is_zero U (val r x)) eqn:Z; [|by apply IH]. destruct (decide (x = c)) as [->|N]; [|rewrite val_insert_ne by done; by apply IH].
  pose proof (lookup_weaken (<[c:=d]> m) (defaults U) c d ltac:(by rewrite lookup_insert_eq) Sub) as L.
  destruct H as [X|[-> X]]; [congruence|]. rewrite X in L. injection L as <-.
  unfold val at 1. by rewrite lookup_insert_eq.
Qed.

Lemma stamp_keeps col c obj : c <> col -> val (stamp E col obj) c = val obj c.
Proof. intros N. unfold stamp. destruct (obj !! col) as [[]|]; try done; by rewrite val_insert_ne. Qed.

Lemma before_keeps random obj obj' rest c t : BeforeCreate E random obj = Ok (obj', rest) -> val obj (str "rid") = VStr t ->
  c <> str "version" -> (c <> str "rid" \/ t <> []) -> val obj' c = val obj c.
Proof.
  unfold BeforeCreate. set (o := if version_of obj =? 0 then _ else obj). intros H R Nv Nr.
  assert (K : forall c, c <> str "version" -> val o c = val obj c).
  { intros c' N. subst o. destruct (version_of obj =? 0); [|done]. by rewrite val_insert_ne. }
  assert (T : text_of (o !! str "rid") = t).
  { pose proof (K (str "rid") ltac:(done)) as X. rewrite R in X. unfold val in X. destruct (o !! str "rid"); cbn in *; by simplify_eq. }
  rewrite T in H. destruct (seq_eqb t []) eqn:Et; cbn [negb] in H.
  - apply bool_decide_eq_true in Et. destruct Nr as [Nr|Nr]; [|done].
    destruct (rid_prefix E) as [p|]; [destruct (validatePrefix p); [|done]|]; destruct (randBase62 _ _) as [[id rest']|]; try done;
      injection H as <- _; rewrite val_insert_ne by done; by apply K.
  - destruct (validateRID t); [|done]. injection H as <- _. by apply K.
Qed.

Lemma inserted_keeps acc obj acc' : inserted E D U acc obj = Ok acc' -> obj ∈ objs -> exists p, acc'.1 = acc.1 ++ [p] /\ inserts obj p.
Proof.
  unfold inserted. destruct (BeforeCreate E acc.2 obj) as [[o rest]|] eqn:B; [|done]. cbn. intros [= <-] I. eexists. split; [done|].
  destruct (uo_rid _ _ _ _ _ _ _ _ W obj I) as [t R].
  assert (G : forall c, c ∉ map str ["version"; "created_at"; "updated_at"]%string -> defaults U !! c = None \/ c = str "delete_token" /\ defaults U !! c = Some (Some (VStr [])) ->
    c <> str "rid" \/ t <> [] -> val (map_fold (with_default D U) (stamp E (str "updated_at") (stamp E (str "created_at") o)) (defaults U)) c = val obj c).
  { intros c P Df Hr. cbn in P. apply not_elem_of_cons in P as [P1 P]. apply not_elem_of_cons in P as [P2 P]. apply not_elem_of_cons in P as [P3 _].
    rewrite default_keeps; [| |rewrite !stamp_keeps by done; rewrite (before_keeps _ _ _ _ _ t B R) by (try done; by left); by apply (uo_token _ _ _ _ _ _ _ _ W)]; [|done].
    rewrite !stamp_keeps by done. by apply (before_keeps _ _ _ _ _ t B R). }
  split.
  - intros c H Hr. apply G; [by apply (uo_plain _ _ _ _ _ _ _ _ W)|by apply (uo_default _ _ _ _ _ _ _ _ W)|]. destruct Hr as [|Hr]; [by left|]. right. intros ->. by apply Hr.
  - intros c P Df. cbn in P. apply not_elem_of_cons in P as [P1 P]. apply G; [done|by left|by left].
Qed.

Lemma inserted_all chunk acc acc' : rfold (inserted E D U) chunk acc = Ok acc' -> (forall o, o ∈ chunk -> o ∈ objs) ->
  exists ps, acc'.1 = acc.1 ++ ps /\ Forall2 inserts chunk ps.
Proof.
  revert acc. induction chunk as [|o chunk IH]; intros acc; cbn; [intros [= <-] _; exists []; by rewrite app_nil_r|].
  destruct (inserted E D U acc o) as [acc1|] eqn:I; [|done]. intros H Sub. apply inserted_keeps in I as (p & E1 & Ip); [|by apply Sub, elem_of_cons; left].
  destruct (IH acc1 H) as (ps & -> & F); [intros x Hx; by apply Sub, elem_of_cons; right|]. exists (p :: ps). rewrite E1, <- app_assoc. by split; [|constructor].
Qed.

Lemma prepare_inserts cs random ps : prepare E D U cs random = Ok ps -> (forall o, o ∈ concat cs -> o ∈ objs) -> Forall2 inserts (concat cs) ps.
Proof.
  revert random ps. induction cs as [|chunk cs IH]; intros random ps; cbn; [by intros [= <-]|].
  destruct (rfold _ chunk _) as [[ps1 rest]|] eqn:R; [|done]. cbn. destruct (prepare E D U cs rest) as [qs|] eqn:Q; [|done]. intros [= <-] Sub.
  apply inserted_all in R as (ps' & E1 & F); [|intros o Ho; apply Sub, elem_of_app; by left]. cbn in E1. subst ps'.
  apply Forall2_app; [done|]. eapply IH; [done|]. intros o Ho. apply Sub, elem_of_app. by right.
Qed.

(** The statements do [upserts]. *)
Lemma upsert_row_ok acc p acc' set : upsert_row E D target set acc p = Ok acc' -> upserts1 target set p acc.1 acc'.1.
Proof.
  destruct acc as [t touched]. unfold upsert_row. pose proof (uo_arbiter _ _ _ _ _ _ _ _ W t p) as A. destruct (arbiter D target t p) as [i|].
  - destruct A as (r & Ei & S). rewrite Ei. destruct (existsb _ _ && _); [done|]. destruct (dup E _); [done|]. intros [= <-]. left. by exists i, r.
  - destruct (dup E _); [done|]. intros [= <-]. right. exists (next_id E t). split; [apply (uo_key _ _ _ _ _ _ _ _ W)|done].
Qed.

Lemma upsert_rows_ok ps acc acc' set : rfold (upsert_row E D target set) ps acc = Ok acc' -> upserts target set ps acc.1 acc'.1.
Proof.
  revert acc. induction ps as [|p ps IH]; intros acc; cbn; [intros [= <-]; constructor|].
  destruct (upsert_row E D target set acc p) as [acc1|] eqn:R; [|done]. intros H. econstructor; [by eapply upsert_row_ok|by apply IH].
Qed.

Lemma batches_ok cs random t t' set : upsert_batches E D U target set cs random t = Ok t' ->
  exists ps, prepare E D U cs random = Ok ps /\ upserts target set ps t t'.
Proof.
  revert random t. induction cs as [|chunk cs IH]; intros random t; cbn; [intros [= <-]; exists []; by split; [|constructor]|].
  destruct (rfold _ chunk _) as [[ps rest]|]; [|done]. cbn. destruct (fails _ _ || _); [done|].
  destruct (rfold (upsert_row _ _ _ _) ps (t, [])) as [[t1 touched]|] eqn:R; [|done]. cbn. intros H. apply IH in H as (qs & -> & Q). exists (ps ++ qs).
  split; [done|]. eapply upserts_app; [|done]. by apply (upsert_rows_ok _ _ _ _ R).
Qed.

(** ** No two objects conflict, and none with a deleted row *)

Lemma distinct_keys i os seen : distinct_from D U target i os seen = None ->
  (forall n o k, os !! n = Some o -> conflict_key D U target o = Some k -> seen !! k = None)
  /\ (forall n m o o' k, (n < m)%nat -> os !! n = Some o -> os !! m = Some o' -> conflict_key D U target o = Some k -> conflict_key D U target o' <> Some k).
Proof.
  revert i seen. induction os as [|o os IH]; intros i seen; cbn; [done|]. destruct (conflict_key D U target o) as [k|] eqn:K.
  - destruct (seen !! k) eqn:Sk; [done|]. intros H. destruct (IH _ _ H) as [I1 I2]. split.
    + intros [|n] o' k'; cbn; [intros [= <-]; congruence|]. intros Eo Ek. specialize (I1 n o' k' Eo Ek).
      by apply lookup_insert_None in I1 as [? _].
    + intros [|n] [|m] o1 o2 k' L; cbn; try lia.
      * intros [= <-] E2 E1 E3. rewrite K in E1. injection E1 as <-. specialize (I1 m o2 k E2 E3). by rewrite lookup_insert_eq in I1.
      * intros E1 E2. apply (I2 n m o1 o2); [lia|done..].
  - intros H. destruct (IH _ _ H) as [I1 I2]. split.
    + intros [|n] o' k'; cbn; [intros [= <-]; congruence|]. by apply I1.
    + intros [|n] [|m] o1 o2 k' L; cbn; try lia; [by intros [= <-] E2; rewrite K|]. intros E1 E2. apply (I2 n m o1 o2); [lia|done..].
Qed.

Lemma same_key o o' cols : (forall c, c ∈ cols -> val o c = val o' c) -> (str "rid" ∈ cols -> is_zero U (val o (str "rid")) = false) ->
  exists k, conflict_key D U cols o = Some k /\ conflict_key D U cols o' = Some k.
Proof.
  induction cols as [|c cols IH]; intros V R; cbn -[seq_eqb str]; [by exists []|].
  destruct IH as (k & K1 & K2); [intros x Hx; by apply V, elem_of_cons; right|intros Hx; by apply R, elem_of_cons; right|].
  destruct (lookup_field U !! c); [|by exists k]. rewrite <- (V c) by (apply elem_of_cons; by left).
  assert (Z : seq_eqb c (str "rid") && is_zero U (val o c) = false).
  { unfold seq_eqb. case_bool_decide as Ec; [|done]. subst c. cbn. apply R, elem_of_cons. by left. }
  rewrite Z, K1, K2. by eexists.
Qed.

Context (ps : list row) (Hps : prepared E D U objs = Ok ps).

Lemma objs_inserts : Forall2 inserts objs ps.
Proof.
  pose proof (prepare_inserts _ _ _ Hps) as F. rewrite (proj1 (chunks_spec batchSize (length objs) objs ltac:(unfold batchSize; lia) ltac:(lia))) in F. by apply F.
Qed.

Lemma rid_cases o : o ∈ objs -> val o (str "rid") = VStr [] \/ val o (str "rid") <> VStr [] /\ is_zero U (val o (str "rid")) = false.
Proof.
  intros I. destruct (uo_rid _ _ _ _ _ _ _ _ W o I) as [[|c t] ->]; [by left|by right].
Qed.

Lemma rows_apart_at n m o o' p q : distinctConflicts D U objs target = None -> (n < m)%nat -> objs !! n = Some o -> objs !! m = Some o' ->
  ps !! n = Some p -> ps !! m = Some q -> ~ same target q p.
Proof.
  intros Dc L Eo Eo' Ep Eq S. pose proof objs_inserts as F. pose proof (Forall2_lookup_lr _ _ _ _ _ _ F Eo Ep) as I. pose proof (Forall2_lookup_lr _ _ _ _ _ _ F Eo' Eq) as I'.
  pose proof (list_elem_of_lookup_2 _ _ _ Eo) as Mo. pose proof (list_elem_of_lookup_2 _ _ _ Eo') as Mo'.
  assert (R : str "rid" ∈ target -> val o (str "rid") <> VStr [] /\ is_zero U (val o (str "rid")) = false /\ val o' (str "rid") <> VStr []).
  { intros Ht. destruct (S _ Ht) as [Er _]. destruct (rid_cases o Mo) as [Z|[Z1 Z2]].
    { destruct (uo_fresh _ _ _ _ _ _ _ _ W ps n o p Hps Eo Ep Z) as [_ N]. exfalso. by apply (N m q Eq); [lia|]. }
    destruct (rid_cases o' Mo') as [Z|[Z3 _]]; [|done].
    destruct (uo_fresh _ _ _ _ _ _ _ _ W ps m o' q Hps Eo' Eq Z) as [_ N]. exfalso. by apply (N n p Ep); [lia|]. }
  assert (Vs : forall c, c ∈ target -> val o c = val o' c).
  { intros c H. destruct (S c H) as [E1 _]. rewrite <- (proj1 I c H), <- (proj1 I' c H), E1; [done|..]; (destruct (decide (c = str "rid")) as [->|]; [right; by apply R|by left]). }
  destruct (same_key o o' target Vs) as (k & K1 & K2); [intros H; by apply R|].
  destruct (distinct_keys _ _ _ Dc) as [_ X]. by apply (X n m o o' k).
Qed.

Lemma rows_apart : distinctConflicts D U objs target = None -> apart target ps.
Proof.
  intros Dc. assert (X : forall n m p q, (n < m)%nat -> ps !! n = Some p -> ps !! m = Some q -> ~ same target q p).
  { intros n m p q L Ep Eq. pose proof objs_inserts as F. destruct (Forall2_lookup_r _ _ _ _ _ F Ep) as (o & Eo & _), (Forall2_lookup_r _ _ _ _ _ F Eq) as (o' & Eo' & _).
    by eapply rows_apart_at. }
  clear Hps. induction ps as [|p l IH]; cbn; [done|]. split.
  - intros q (m & Em)%list_elem_of_lookup. by apply (X 0%nat (S m)); [lia|..].
  - apply IH. intros n m a b L. apply (X (S n) (S m)). lia.
Qed.

Lemma insertValues_same o p r : inserts o p -> o ∈ objs -> (str "rid" ∈ target -> val o (str "rid") <> VStr []) -> same target p r ->
  exists vs, insertValues U target o = Some vs /\ equal_on E target vs r = true.
Proof.
  intros I Mo R S. unfold insertValues, equal_on. pose proof (uo_default _ _ _ _ _ _ _ _ W) as Df. pose proof (uo_equal _ _ _ _ _ _ _ _ W) as Eq.
  assert (V : forall c, c ∈ target -> insert_value U o c = Some (val r c) /\ val r c <> VNull).
  { intros c H. destruct (S c H) as [E1 N]. assert (Ec : val p c = val o c) by (apply (proj1 I); [done|]; destruct (decide (c = str "rid")) as [->|]; [right; by apply R|by left]).
    rewrite <- E1, Ec in *. split; [|done]. unfold insert_value. destruct (is_zero U (val o c)) eqn:Z.
    - unfold seq_eqb. case_bool_decide as Er.
      { subst c. destruct (rid_cases o Mo) as [Y|[_ Y]]; [by destruct (R H)|congruence]. }
      destruct (Df c H) as [->|[-> ->]]; [by destruct (val o c)|]. by rewrite (uo_token _ _ _ _ _ _ _ _ W o Mo).
    - by destruct (val o c). }
  clear I R S Df. revert V. generalize target as l. induction l as [|c l IH]; intros V; [by exists []|]. destruct (V c ltac:(apply elem_of_cons; by left)) as [E1 N].
  destruct IH as (vs & Em & Eq'); [intros x Hx; by apply V, elem_of_cons; right|]. exists (val r c :: vs). cbn. rewrite E1. cbn. rewrite Em. split; [done|].
  rewrite Eq by done. done.
Qed.

Lemma rid_free o p r : o ∈ objs -> inserts o p -> (exists n, objs !! n = Some o /\ ps !! n = Some p) -> same target p r ->
  (exists i, between D tb !! i = Some r) -> str "rid" ∈ target -> val o (str "rid") <> VStr [].
Proof.
  intros Mo I (n & Eo & Ep) S (i & Ei) H Z. destruct (uo_fresh _ _ _ _ _ _ _ _ W ps n o p Hps Eo Ep Z) as [N _]. destruct (S _ H) as [E1 _]. by apply (N i r Ei).
Qed.

(** No object conflicts with a row that was deleted, and still is. *)
Lemma deleted_apart i r p : (if soft s && negb live then deletedConflict E s U objs target tb else None) = None -> soft s = true ->
  tb !! i = Some r -> is_deleted r = true -> between D tb !! i = Some r -> p ∈ ps -> ~ same target p r.
Proof.
  intros Dc So Ei Dl Eb (n & Ep)%list_elem_of_lookup S. pose proof objs_inserts as F. destruct (Forall2_lookup_r _ _ _ _ _ F Ep) as (o & Eo & I).
  pose proof (list_elem_of_lookup_2 _ _ _ Eo) as Mo. rewrite So in Dc. cbn [andb] in Dc. destruct (Bool.bool_dec live true) as [Lv|Lv%Bool.not_true_is_false]; rewrite Lv in Dc; cbn [negb] in Dc.
  - pose proof (uo_live _ _ _ _ _ _ _ _ W Lv) as H. destruct (S _ H) as [E1 _]. rewrite (proj1 I _ H) in E1 by (by left). rewrite (uo_token _ _ _ _ _ _ _ _ W o Mo) in E1.
    apply (uo_tokens _ _ _ _ _ _ _ _ W i r Ei Dl). congruence.
  - unfold deletedConflict in Dc. assert (Kn : forallb (fun col => match lookup_field U !! col with Some _ => true | None => false end) target = true).
    { apply forallb_forall. intros c Hc%list_elem_of_In. by destruct (uo_known _ _ _ _ _ _ _ _ W c Hc) as [x ->]. }
    rewrite Kn in Dc. destruct (insertValues_same o p r I Mo) as (vs & Ev & Eq); [by eapply rid_free; eauto|done|].
    assert (Mc : o ∈ concat (chunks batchSize (length objs) objs)) by (rewrite (proj1 (chunks_spec batchSize (length objs) objs ltac:(unfold batchSize; lia) ltac:(lia))); done).
    revert Dc Mc. generalize (chunks batchSize (length objs) objs) as cs. induction cs as [|chunk cs IH]; cbn; [by intros _ ?%elem_of_nil|]. intros Dc [Mc|Mc]%elem_of_app.
    + assert (V : vs ∈ omap (insertValues U target) chunk) by (apply list_elem_of_omap; eauto). destruct (omap (insertValues U target) chunk) as [|g groups] eqn:G; [by apply elem_of_nil in V|].
      destruct (fails _ _); [done|]. destruct (deleted_holder E target (g :: groups) tb) eqn:H; [done|]. unfold deleted_holder in H.
      assert (X : existsb (fun x => is_deleted x.2 && existsb (fun vs => equal_on E target vs x.2) (g :: groups)) (map_to_list tb) = true); [|congruence].
      apply existsb_exists. exists (i, r). split; [by apply list_elem_of_In, elem_of_map_to_list|]. cbn [snd]. rewrite Dl. cbn [andb]. apply existsb_exists. exists vs. by split; [apply list_elem_of_In|].
    + apply IH; [|done]. destruct (omap (insertValues U target) chunk); [done|]. destruct (fails _ _); [done|]. by destruct (deleted_holder _ _ _ _).
Qed.
End upsert.

Lemma update_set_plain (s : store) : (forall f c, updateFields s !! f = Some c -> protected c = false) -> str "version" ∉ update_set s.
Proof.
  intros H. unfold update_set. rewrite merge_sort_Permutation. intros [(x & E & I)%list_elem_of_fmap|I]%elem_of_app; [|by apply list_elem_of_singleton in I].
  destruct x as [f c]. apply elem_of_map_to_list in I. cbn in E. subst c. specialize (H _ _ I). vm_compute in H. done.
Qed.

(** What a call of BatchUpsert that succeeded leaves of the table [old] it wrote
    to, [ps] being its objects as rows. *)
Record upserted (target set : list gostring) (ps : list row) (old new : table) : Prop := {
  ud_old : forall i r, old !! i = Some r -> new !! i = Some r \/ exists p r', p ∈ ps /\ same target p r /\ new !! i = Some r' /\ overwritten set p r r';
  ud_there : forall p, p ∈ ps -> exists i r', new !! i = Some r' /\ forall c, c ∈ target \/ c ∈ set -> val r' c = val p c;
  ud_new : forall i r', old !! i = None -> new !! i = Some r' -> r' ∈ ps /\ forall j r, old !! j = Some r -> ~ same target r' r;
}.


(** ** A concrete upsert *)

Definition holds_values (target : list gostring) (p r : row) : bool := forallb (fun c => bool_decide (val p c = val r c) && negb (is_null (val p c))) target.

Lemma holds_same target p r : holds_values target p r = true <-> same target p r.
Proof.
  unfold holds_values, same. rewrite forallb_forall. split; intros H c Hc.
  - apply list_elem_of_In, H, andb_true_iff in Hc as [Hv%bool_decide_eq_true Hn]. split; [done|]. by destruct (val p c).
  - apply list_elem_of_In in Hc. destruct (H c Hc) as [E N]. rewrite bool_decide_true by done. by destruct (val p c).
Qed.

Definition demo_arbiter (target : list gostring) (tb : table) (p : row) : option Z := option_map fst (List.find (fun x => holds_values target p x.2) (map_to_list tb)).

Lemma demo_arbiter_ok target tb p : match demo_arbiter target tb p with
  | Some i => exists r, tb !! i = Some r /\ same target p r
  | None => forall i r, tb !! i = Some r -> ~ same target p r
  end.
Proof.
  unfold demo_arbiter. destruct (List.find _ _) as [[i r]|] eqn:F; cbn.
  - apply find_some in F as [I H]. exists r. split; [by apply elem_of_map_to_list, list_elem_of_In|by apply holds_same].
  - intros i r Ei S. apply holds_same in S. assert (In (i, r) (map_to_list tb)) as I by by apply list_elem_of_In, elem_of_map_to_list. pose proof (find_none _ _ F _ I) as X. cbn in X. congruence.
Qed.

Definition demo_text (v : value) : gostring :=
  match v with VStr t => str "string:" ++ t | VInt n => str "int64:" ++ format_int n | _ => str "other" end.

Definition demo_upsert (own : value) : UpsertDb := MkUpsertDb (fun _ => true) demo_arbiter false (fun _ => own) demo_text (fun tb => tb).

Definition upsert_env : Env := MkEnv demo_db 100 (str "tok") (fun _ => None) (fun tb => fresh (dom tb : gset Z)) None (map Z.of_nat (seq 0 40)).

Definition posts_schema (soft_index : bool) (d : gmap gostring (option value)) : u_schema :=
  MkUSchema [MkUIndex (str "uq_title") [str "title"] soft_index] []
    (list_to_map (map (fun c => (str c, (false, str c))) ["rid"; "title"; "rank"; "version"; "created_at"; "updated_at"; "deleted_at"; "delete_token"]%string)) d [] 0.

(** A deleted post, and two of which one replaces post 1 by its title. *)
Definition gone : row := <[str "deleted_at" := VTime 5]> (<[str "delete_token" := VStr (str "t5")]> (post "eee" "gone" "ann" 5 1)).
Definition with_gone : table := <[5 := gone]> some_posts.
Definition new_posts : list row := [post "" "one" "ann" 7 0; post "" "gone" "ann" 8 0].
Definition by_title : list gostring := [str "title"; str "delete_token"].

Notation demo_prepared := (prepared upsert_env (demo_upsert VNull) (posts_schema true ∅) new_posts).

Lemma demo_upsert_ok : upsert_ok upsert_env (demo_upsert VNull) (posts false true) (posts_schema true ∅) by_title true new_posts with_gone.
Proof.
  split.
  - apply demo_arbiter_ok.
  - intros tb. change (next_id upsert_env tb) with (fresh (dom tb : gset Z)). apply (not_elem_of_dom (D := gset Z)). apply is_fresh.
  - intros v N. unfold sat_cmp. cbn. unfold demo_vcmp. pose proof (ocmp_refl demo_db demo_ocmp_ok v) as R. cbn in R. by destruct v; rewrite ?R.
  - intros c H. apply (Forall_forall (fun c => is_Some (lookup_field (posts_schema true ∅) !! c)) by_title); [|done]. repeat constructor; by vm_compute; eexists.
  - intros c _. left. apply lookup_empty.
  - intros c H. apply (Forall_forall (fun c => c ∉ map str ["version"; "created_at"; "updated_at"]%string) by_title); [|done].
    repeat constructor; apply (bool_decide_eq_true_1 _); vm_compute; reflexivity.
  - intros f c H. pose proof (map_Forall_lookup_1 (fun _ c => protected c = false) (updateFields (posts false true)) f c) as X. apply X; [|done].
    apply (bool_decide_eq_true_1 _). vm_compute. reflexivity.
  - intros o H. apply (Forall_forall (fun o => exists t, val o (str "rid") = VStr t) new_posts); [|done]. repeat constructor; eexists; vm_compute; reflexivity.
  - intros o H. apply (Forall_forall (fun o => val o (str "delete_token") = VStr []) new_posts); [|done]. repeat constructor; vm_compute; reflexivity.
  - intros i r Ei Dl.
    assert (C : forallb (fun x => negb (is_deleted x.2) || negb (bool_decide (val x.2 (str "delete_token") = VStr []))) (map_to_list with_gone) = true) by (vm_compute; reflexivity).
    pose proof (all_rows _ with_gone C (i, r) Ei) as X.
    cbn [snd] in X. rewrite Dl in X. cbn in X. by apply negb_true_iff, bool_decide_eq_false in X.
  - intros _. right. left.
  - intros ps n obj p Hps _ Ep _. assert (C : match demo_prepared with
      | Ok ps => forallb (fun p => forallb (fun x => negb (bool_decide (val x.2 (str "rid") = val p (str "rid")))) (map_to_list with_gone)) ps && bool_decide (NoDup (map (fun p => val p (str "rid")) ps))
      | Err _ => false end = true) by (vm_compute; reflexivity). rewrite Hps in C. apply andb_true_iff in C as [C1 C2]. apply bool_decide_eq_true in C2. split.
    + intros i r Ei. rewrite forallb_forall in C1. specialize (C1 p ltac:(apply list_elem_of_In; by eapply list_elem_of_lookup_2)).
      pose proof (all_rows (fun x => negb (bool_decide (val x.2 (str "rid") = val p (str "rid")))) with_gone C1 (i, r) Ei) as X. by apply negb_true_iff, bool_decide_eq_false in X.
    + intros m q Eq Nm E. apply Nm. eapply NoDup_lookup; [exact C2|..]; rewrite list_lookup_fmap; [by rewrite Eq|rewrite Ep; cbn -[val str]; by rewrite E].
Qed.

Lemma gone_there : with_gone !! 5 = Some gone.
Proof. apply lookup_insert_eq. Qed.


(** Two keys of a batch whose values differ are taken for one: the byte between
    two values can be in a value. *)
Example nul_keys_collide :
  let obj a b := list_to_map [(str "title", VStr a); (str "rank", VStr b)] : row in
  distinctConflicts (demo_upsert VNull) (posts_schema true ∅) [obj (str "a" ++ nul :: str "string:b") (str "c"); obj (str "a") (str "b" ++ nul :: str "string:c")] [str "title"; str "rank"]
  = Some (USame 0 1).
Proof. vm_compute. reflexivity. Qed.

(** A deleted row that holds the value of the database's own default is
    overwritten: the check leaves an object with that default out. *)
Example default_overwrites_deleted :
  let x := Upsert upsert_env (demo_upsert (VStr (str "gone"))) (posts false true) (posts_schema false {[ str "title" := None ]}) ann (Some (post "" "" "ann" 8 0)) [str "title"] with_gone in
  x.2 = None /\ option_map (fun r => (val r (str "rank"), is_deleted r)) (x.1 !! 5) = Some (VInt 8, true)
  /\ (Upsert upsert_env (demo_upsert VNull) (posts false true) (posts_schema false ∅) ann (Some (post "" "gone" "ann" 8 0)) [str "title"] with_gone).2 = Some (UDeleted (str "uq_title") (str "title")).
Proof. vm_compute. repeat split. Qed.
