(* ===== verification/Http.v ===== *)
(** The root package's answer to a request: errors and how they are rendered
    and described (errors.go, render.go), the middleware around every route
    (middleware.go), the router (router.go) and typed handlers (handler.go).

    A handler is a function on the state of one response: what went out, the
    header as it is, what statusWriter recorded, and the lines logged.  It
    returns or panics.  Go's ServeMux, the JSON of values, the clock against a
    request's deadline and crypto/rand are arguments; net/http's rules for a
    response writer, CrossOriginProtection and Header are written out.
    Hijacked connections are left out. *)

From Stdlib Require Import ZArith Lia List Ascii.
From stdpp Require Import base decidable list strings sorting.
From S2P Require Import Prelude GoStrings GoMaps ClientIP.

(** ** Errors *)

(** A value of the metadata. *)
Inductive meta := MText (s : gostring) | MNumber (n : Z) | MFields (l : list (gostring * gostring)).

(** An *Error without its cause. *)
Record Error := MkError { Code : Z; Reason : gostring; Message : gostring; Metadata : list (gostring * meta) }.

Definition NewError (code : Z) (reason message : string) : Error := MkError code (str reason) (str message) [].

Definition ErrBadRequest : Error := NewError 400 "BadRequest" "bad request".
Definition ErrValidation : Error := NewError 400 "Validation" "validation failed".
Definition ErrForbidden : Error := NewError 403 "Forbidden" "forbidden".
Definition ErrNotFound : Error := NewError 404 "NotFound" "not found".
Definition ErrInternal : Error := NewError 500 "InternalError" "internal server error".
Definition errTimeout : Error := NewError 504 "Timeout" "the request took too long".
Definition errMethodNotAllowed : Error := NewError 405 "MethodNotAllowed" "method not allowed".

(** [With] and [Msgf], on the copy. *)
Definition With (e : Error) (key : gostring) (v : meta) : Error := MkError (Code e) (Reason e) (Message e) (mset key v (Metadata e)).
Definition Msgf (e : Error) (text : gostring) : Error := MkError (Code e) (Reason e) text (Metadata e).

Inductive sentinel := Canceled | DeadlineExceeded | EOF | UnexpectedEOF.
#[export] Instance sentinel_eq_dec : EqDecision sentinel.
Proof. solve_decision. Defined.

(** A Go error: an *Error with its cause, failed rules, a sentinel, or any other
    value: its type and text, the sentinels its Is method matches, whether it is
    a runtime.Error, what its APIError answers if it has one, and what it wraps:
    one error at most, or several. *)
Inductive err :=
| EErr (e : Error) (cause : option err)
| EValidation (rules : list (gostring * gostring))
| ESentinel (s : sentinel)
| EOther (type text : gostring) (is_ : list sentinel) (runtime : bool) (coder : option (option Error)) (many : bool) (wraps : list err).

(** The errors of a chain in the order errors.As meets them. *)
Fixpoint chain (e : err) : list err :=
  e :: match e with
       | EErr _ (Some c) => chain c
       | EOther _ _ _ _ _ many wraps => if many then flat_map chain wraps else match wraps with c :: _ => chain c | [] => [] end
       | _ => []
       end.

(** errors.AsType[*Error], [interface{error; Coder}] and [ValidationErrors]. *)
Definition as_Error (e : err) : option Error := match e with EErr x _ => Some x | _ => None end.
Definition as_Coder (e : err) : option (option Error) := match e with EOther _ _ _ _ c _ _ => c | _ => None end.
Definition as_Validation (e : err) : option (list (gostring * gostring)) := match e with EValidation l => Some l | _ => None end.

Fixpoint first_as {A} (f : err -> option A) (l : list err) : option A :=
  match l with [] => None | e :: l' => match f e with Some x => Some x | None => first_as f l' end end.

(** The test errors.Is makes of one link. *)
Definition link_is (s : sentinel) (e : err) : bool :=
  match e with ESentinel s' => bool_decide (s = s') | EOther _ _ l _ _ _ _ => bool_decide (s ∈ l) | _ => false end.

Definition ruleText (tag : gostring) : gostring :=
  let is_ l := existsb (seq_eqb tag) (map str l) in
  if is_ ["required"]%string then str "is required"
  else if is_ ["email"]%string then str "must be an email address"
  else if is_ ["oneof"]%string then str "is not one of the allowed values"
  else if is_ ["min"; "gte"; "gt"]%string then str "is too small or too short"
  else if is_ ["max"; "lte"; "lt"]%string then str "is too large or too long"
  else str "fails " ++ tag.

Definition validationError (rules : list (gostring * gostring)) : Error :=
  let fields := fold_left (fun m f => mset f.1 f.2 m) rules [] in
  let e := With ErrValidation (str "fields") (MFields fields) in
  match sorted_keys fields with
  | [name] => Msgf e (str "validation failed: " ++ name ++ str " " ++ ruleText (default [] (mget name fields)))
  | _ => e
  end.

(** [resolve]; the hook is the application's. *)
Definition resolve (onError : option (err -> option Error)) (e : err) : Error :=
  match match onError with Some h => h e | None => None end with
  | Some x => x
  | None =>
      match first_as as_Error (chain e) with
      | Some x => x
      | None =>
          match match first_as as_Coder (chain e) with Some r => r | None => None end with
          | Some x => x
          | None =>
              match first_as as_Validation (chain e) with
              | Some rules => validationError rules
              | None => if existsb (link_is DeadlineExceeded) (chain e) then errTimeout else ErrInternal
              end
          end
      end
  end.

(** *** What the log says of an error *)

Definition sentinels : list (sentinel * gostring) :=
  [(Canceled, str "context.Canceled"); (DeadlineExceeded, str "context.DeadlineExceeded"); (EOF, str "io.EOF"); (UnexpectedEOF, str "io.ErrUnexpectedEOF")].

Definition sentinelName (e : err) : gostring := match find (fun s => link_is s.1 e) sentinels with Some s => s.2 | None => [] end.

Definition describeLink (e : err) : gostring :=
  match e with
  | EErr x _ => if seq_eqb (Message x) [] then Reason x else Reason x ++ str ": " ++ Message x
  | _ =>
      let name := sentinelName e in
      if negb (seq_eqb name []) then name
      else match e with
           | EOther type text _ runtime _ _ _ => if runtime then text else type
           | _ => str "validator.ValidationErrors"
           end
  end.

Fixpoint describe (e : err) : gostring :=
  describeLink e ++
  match e with
  | EErr _ (Some c) => str " <- " ++ describe c
  | EOther _ _ _ _ _ many wraps =>
      if many then match wraps with [] => [] | _ => str " <- [" ++ join (str " | ") (map describe wraps) ++ str "]" end
      else match wraps with c :: _ => str " <- " ++ describe c | [] => [] end
  | _ => []
  end.

(** ** One response *)

Notation headers := (list (gostring * list gostring)).

(** http.Header's Get, Set and Add, on canonical keys. *)
Definition header_get (k : gostring) (h : headers) : gostring := match mget k h with Some (v :: _) => v | _ => [] end.
Definition header_set (k v : gostring) (h : headers) : headers := mset k [v] h.
Definition header_add (k v : gostring) (h : headers) : headers := mset k (default [] (mget k h) ++ [v]) h.

(** What the response writer is given; net/http drops the body of an answer that
    may have none. *)
Inductive wire := Info (code : Z) | Final (code : Z) (h : headers) | Bytes (b : gostring).

Inductive log_line :=
| LFailed (status : Z) (reason error : gostring)
| LPanic (text : gostring)
| LEncoding (error : gostring)
| LAccess (method path route : gostring) (status bytes : Z) (request_id client_ip : gostring).

(** A statusWriter over the connection, with what was logged and the route that
    reqinfo recorded. *)
Record st := St { header : headers; status : Z; bytes : Z; sent : list wire; log : list log_line; route : gostring }.

Inductive panic_value := PAbort | PError (e : err) | PText (s : gostring).
Inductive ending := Returned | Panicked (p : panic_value).

Record request := Request {
  Method : gostring; Path : gostring; Host : gostring; Header : headers; RemoteAddr : gostring; Lines : header_lines;
  request_id : gostring; client_ip : gostring; in_app : bool;
}.

Definition handler : Type := request -> st -> st * ending.
Definition middleware : Type := handler -> handler.

Definition set_header (f : headers -> headers) (s : st) : st := St (f (header s)) (status s) (bytes s) (sent s) (log s) (route s).
Definition log_add (l : log_line) (s : st) : st := St (header s) (status s) (bytes s) (sent s) (log s ++ [l]) (route s).
Definition set_route (r : gostring) (s : st) : st := St (header s) (status s) (bytes s) (sent s) (log s) r.

Definition is_final (w : wire) : bool := match w with Final _ _ => true | _ => false end.

(** statusWriter.WriteHeader, over net/http's, which drops a header after the
    final one - one that a Flush sent is not in the status - and panics on a
    code that is not of three digits. *)
Definition WriteHeader (code : Z) (s : st) : st * ending :=
  let invalid := (code <? 100) || (999 <? code) in
  if (100 <=? code) && (code <? 200) && negb (code =? 101) then
    (St (header s) (status s) (bytes s) (sent s ++ if existsb is_final (sent s) then [] else [Info code]) (log s) (route s), Returned)
  else if negb (status s =? 0) then (s, Returned)
  else if existsb is_final (sent s) then (St (header s) code (bytes s) (sent s) (log s) (route s), Returned)
  else if invalid then (St (header s) code (bytes s) (sent s) (log s) (route s), Panicked (PText (str "invalid WriteHeader code")))
  else (St (header s) code (bytes s) (sent s ++ [Final code (header s)]) (log s) (route s), Returned).

(** net/http sends 200 before a body that no header came before. *)
Definition implicit_200 (s : st) : list wire := if existsb is_final (sent s) then [] else [Final 200 (header s)].

(** statusWriter.Write. *)
Definition Write (b : gostring) (s : st) : st :=
  St (header s) (if status s =? 0 then 200 else status s) (bytes s + Z.of_nat (length b)) (sent s ++ implicit_200 s ++ [Bytes b]) (log s) (route s).

(** statusWriter.Flush: net/http sends the header, and the status is not told. *)
Definition Flush (s : st) : st := St (header s) (status s) (bytes s) (sent s ++ implicit_200 s) (log s) (route s).

(** [code]. *)
Definition code_of (s : st) : Z := if status s =? 0 then 200 else status s.

(** A handler after a handler that returned. *)
Definition and_then (x : st * ending) (k : st -> st * ending) : st * ending := match x with (s, Returned) => k s | _ => x end.

Record envelope := Envelope { v_code : Z; v_reason : gostring; v_message : gostring; v_request_id : gostring; v_metadata : list (gostring * meta) }.

Section http.
(** Values a handler answers with; their JSON, the envelope's, and the text of an
    encoding error. *)
Context {V : Type} (encode_value : V -> gostring + err) (encode_envelope : envelope -> gostring + err) (encode_plain : envelope -> gostring) (sprint : meta -> gostring) {N : NetIP}.

Inductive body_value := BValue (v : V) | BEnvelope (e : envelope).
Definition encode (b : body_value) : gostring + err := match b with BValue v => encode_value v | BEnvelope e => encode_envelope e end.

Definition content_type : gostring := str "Content-Type".
Definition json_type : gostring := str "application/json; charset=utf-8".

Definition writeJSON (r : request) (code : Z) (v : body_value) (s : st) : st * ending :=
  let '(code, b, s) :=
    match encode v with
    | inl b => (code, b, s)
    | inr e => (500, encode_plain (Envelope 500 (Reason ErrInternal) (Message ErrInternal) (request_id r) []), log_add (LEncoding (describe e)) s)
    end in
  and_then (WriteHeader code (set_header (header_set content_type json_type) s)) (fun s => (Write (b ++ [ascii_of_nat 10]) s, Returned)).

(** [writeError]; without an App there is no hook. *)
Definition writeError (onError : option (err -> option Error)) (r : request) (x : err) (s : st) : st * ending :=
  let e := resolve onError x in
  let code := if (Code e <? 400) || (599 <? Code e) then 500 else Code e in
  let s := if 500 <=? code then log_add (LFailed code (Reason e) (describe x)) s else s in
  let s := match mget (str "retry_after") (Metadata e) with Some ra => set_header (header_set (str "Retry-After") (sprint ra)) s | None => s end in
  writeJSON r code (BEnvelope (Envelope code (Reason e) (Message e) (request_id r) (Metadata e))) s.

Definition to_err (e : Error) : err := EErr e None.

(** ** The application *)

Record cors_config := CORSConfig {
  AllowOrigins : list gostring; AllowMethods : list gostring; AllowHeaders : list gostring; ExposeHeaders : list gostring; AllowCredentials : bool; MaxAge : Z;
}.

(** The App, as its handler sees it: the configuration, the hook, the Wrap
    middleware and the instrumenters, the patterns exempt from CSRF; and what
    ServeMux does with a request: the pattern and handler it matches, or the
    answer of its own. *)
Record app := App {
  onError : option (err -> option Error); cors_ : cors_config; CSRF : bool; RequestTimeout : Z; access : bool; probe_paths : list gostring;
  trusted : list prefix; wrap_ : list middleware; instrumenters : list middleware;
  exempt : request -> bool; mux : request -> option (gostring * handler); mux_answer : request -> Z * headers * gostring;
}.

Context (a : app) (random_id : request -> gostring) (expired : request -> bool) (origin_host : gostring -> option gostring).

(** WriteError, for middleware: the hook is the one of the App in the context. *)
Definition WriteError (r : request) (x : err) (s : st) : st * ending := writeError (if in_app r then onError a else None) r x s.

(** [panicText]. *)
Definition panicText (p : panic_value) : gostring := match p with PError e => describe e | PText s => s | PAbort => [] end.

Definition recover_ (next : handler) : handler := fun r s =>
  match next r s with
  | (s, Returned) => (s, Returned)
  | (s, Panicked PAbort) => (s, Panicked PAbort)
  | (s, Panicked p) =>
      let s := log_add (LPanic (panicText p)) s in
      if status s =? 0 then writeError (onError a) r (to_err ErrInternal) s else (s, Returned)
  end.

Definition requestIDHeader : gostring := str "X-Request-Id".

Definition id_byte (c : ascii) : bool :=
  let b := byte_val c in
  (48 <=? b) && (b <=? 57) || (97 <=? b) && (b <=? 122) || (65 <=? b) && (b <=? 90) || beq c "." || beq c "_" || beq c "-".

Definition sanitizeRequestID (generated id : gostring) : gostring :=
  let clean := List.filter id_byte (take 128 id) in
  match clean with [] => generated | _ => clean end.

Definition with_id (id : gostring) (r : request) : request := Request (Method r) (Path r) (Host r) (Header r) (RemoteAddr r) (Lines r) id (client_ip r) true.
Definition with_ip (ip : gostring) (r : request) : request := Request (Method r) (Path r) (Host r) (Header r) (RemoteAddr r) (Lines r) (request_id r) ip (in_app r).

Definition requestID (next : handler) : handler := fun r s =>
  let id := sanitizeRequestID (random_id r) (header_get requestIDHeader (Header r)) in
  next (with_id id r) (set_header (header_set requestIDHeader id) s).

Definition clientIP (next : handler) : handler := fun r s => next (with_ip (ClientIP (trusted a) (RemoteAddr r) (Lines r)) r) s.

Definition accessLog (next : handler) : handler := fun r s =>
  if existsb (seq_eqb (Path r)) (probe_paths a) then next r s
  else and_then (next r s) (fun s =>
         (log_add (LAccess (Method r) (Path r) (if seq_eqb (route s) [] then str "unmatched" else route s) (code_of s) (bytes s) (request_id r) (client_ip r)) s, Returned)).

Definition timeout (next : handler) : handler := fun r s =>
  and_then (next r s) (fun s => if expired r && (status s =? 0) then writeError (onError a) r (to_err errTimeout) s else (s, Returned)).

(** strconv.Itoa of whole seconds. *)
Definition seconds (d : Z) : gostring := format_int (Z.quot d (10 ^ 9)).

Definition cors (c : cors_config) (next : handler) : handler := fun r s =>
  let origin := header_get (str "Origin") (Header r) in
  if seq_eqb origin [] then next r s
  else
    let s := set_header (header_add (str "Vary") (str "Origin")) s in
    let preflight := seq_eqb (Method r) (str "OPTIONS") && negb (seq_eqb (header_get (str "Access-Control-Request-Method") (Header r)) []) in
    let s := if preflight then
               set_header (header_add (str "Vary") (str "Access-Control-Request-Headers")) (set_header (header_add (str "Vary") (str "Access-Control-Request-Method")) s)
             else s in
    if negb (existsb (seq_eqb (str "*")) (AllowOrigins c)) && negb (existsb (seq_eqb origin) (AllowOrigins c)) then next r s
    else
      let s := set_header (header_set (str "Access-Control-Allow-Origin") origin) s in
      let s := if AllowCredentials c then set_header (header_set (str "Access-Control-Allow-Credentials") (str "true")) s else s in
      let expose := join (str ", ") (ExposeHeaders c) in
      let s := if seq_eqb expose [] then s else set_header (header_set (str "Access-Control-Expose-Headers") expose) s in
      if preflight then
        let s := set_header (header_set (str "Access-Control-Allow-Methods") (join (str ", ") (AllowMethods c))) s in
        let s := set_header (header_set (str "Access-Control-Allow-Headers") (join (str ", ") (AllowHeaders c))) s in
        let s := set_header (header_set (str "Access-Control-Max-Age") (seconds (MaxAge c))) s in
        WriteHeader 204 s
      else next r s.

(** http.CrossOriginProtection.Check, with the origins and patterns the App
    trusts; [origin_host] is the host of an origin's URL. *)
Definition trusted_origin (r : request) : bool :=
  let origin := header_get (str "Origin") (Header r) in
  negb (seq_eqb origin []) && negb (seq_eqb origin (str "*")) && existsb (seq_eqb origin) (AllowOrigins (cors_ a)).

Definition same_origin_check (r : request) : bool :=
  if existsb (seq_eqb (Method r)) (map str ["GET"; "HEAD"; "OPTIONS"]%string) then true
  else
    let site := header_get (str "Sec-Fetch-Site") (Header r) in
    if existsb (seq_eqb site) (map str ["same-origin"; "none"]%string) then true
    else if negb (seq_eqb site []) then exempt a r || trusted_origin r
    else
      let origin := header_get (str "Origin") (Header r) in
      seq_eqb origin [] || bool_decide (origin_host origin = Some (Host r)) || exempt a r || trusted_origin r.

Definition csrf (next : handler) : handler := fun r s =>
  if same_origin_check r then next r s
  else writeError (onError a) r (to_err (Msgf ErrForbidden (str "cross-origin request denied"))) s.

(** [wrap] applies a chain, outermost first. *)
Definition wrap (h : handler) (chain : list middleware) : handler := fold_right (fun m h => m h) h chain.

Definition routeMarker (pattern : gostring) (next : handler) : handler := fun r s => next r (set_route pattern s).

(** [serveMux]. *)
Definition serveMux : handler := fun r s =>
  match mux a r with
  | Some (pattern, h) => routeMarker pattern h r s
  | None =>
      let '(code, h, b) := mux_answer a r in
      if code =? 404 then writeError (onError a) r (to_err ErrNotFound) s
      else if code =? 405 then writeError (onError a) r (to_err errMethodNotAllowed) (set_header (header_set (str "Allow") (header_get (str "Allow") h)) s)
      else
        and_then (WriteHeader code (set_header (fun h0 => fold_left (fun m kv => mset kv.1 kv.2 m) h h0) s)) (fun s => (Write b s, Returned))
  end.

(** [buildHandler]: what stands inside Recover and ClientIP, and the whole. *)
Definition instrumented : handler :=
  let h := wrap serveMux (wrap_ a) in
  let h := if CSRF a then csrf h else h in
  let h := match AllowOrigins (cors_ a) with [] => h | _ => cors (cors_ a) h end in
  let h := if RequestTimeout a >? 0 then timeout h else h in
  let h := if access a then accessLog h else h in
  wrap h (instrumenters a).

Definition buildHandler : handler := requestID (recover_ (clientIP instrumented)).

(** ** Routes *)

(** strings.TrimLeft and TrimRight of slashes. *)
Fixpoint trim_left_slash (s : gostring) : gostring := match s with c :: s' => if beq c "/" then trim_left_slash s' else s | [] => [] end.
Definition trim_right_slash (s : gostring) : gostring := rev (trim_left_slash (rev s)).

Definition joinPath (prefix pattern : gostring) : gostring :=
  if seq_eqb prefix [] then (if seq_eqb pattern [] then str "/" else pattern)
  else if seq_eqb pattern [] then prefix
  else trim_right_slash prefix ++ "/"%char :: trim_left_slash pattern.

Record router := Router { r_prefix : gostring; r_mw : list middleware }.

Definition Group (r : router) (prefix : gostring) (mw : list middleware) : router := Router (joinPath (r_prefix r) prefix) (r_mw r ++ mw).

(** [register]: the key of the mux and the handler behind it. *)
Definition register (r : router) (method pattern : gostring) (h : handler) (mw : list middleware) : gostring * handler :=
  let full := joinPath (r_prefix r) pattern in
  (if seq_eqb method [] then full else method ++ str " " ++ full, routeMarker full (wrap h (r_mw r ++ mw))).

(** *** Typed handlers *)

(** What binding, the function and its status give; [none] says that the response
    type has no body. *)
Definition handle {T} (bind : request -> T + err) (fn : request -> T -> V + err) (status_ : Z) (none : bool) : handler := fun r s =>
  match bind r with
  | inr e => writeError (onError a) r e s
  | inl x =>
      match fn r x with
      | inr e => writeError (onError a) r e s
      | inl out => if none then WriteHeader status_ s else writeJSON r status_ (BValue out) s
      end
  end.

Definition route_status (configured : Z) (none : bool) : Z := if configured =? 0 then (if none then 204 else 200) else configured.

(** ** The server *)

Definition blank : st := St [] 0 0 [] [] [].

(** net/http's end of a request: a handler that returned without a header is
    answered 200; one that panicked has its connection cut. *)
Definition serve (r : request) : list wire * list log_line * bool :=
  match buildHandler r blank with
  | (s, Returned) => (sent s ++ implicit_200 s, log s, true)
  | (s, Panicked _) => (sent s, log s, false)
  end.
End http.
