(* ===== verification/HttpSpec.v ===== *)
(** What a client and the log see of a request: one response whatever the
    handlers do, no text of an error's cause, no cross-site request past the
    check, and no origin granted that was not listed. *)

From Stdlib Require Import ZArith Lia List Ascii.
From stdpp Require Import base decidable list sets strings sorting.
From S2P Require Import Prelude GoStrings GoMaps ClientIP Http.

(** ** One response *)

(** What goes out: informational codes, then one final header, then its body. *)
Fixpoint well_sent (begun : bool) (l : list wire) : bool :=
  match l with
  | [] => true
  | Info _ :: l' => negb begun && well_sent begun l'
  | Final _ _ :: l' => negb begun && well_sent true l'
  | Bytes _ :: l' => begun && well_sent begun l'
  end.

Definition bodiless (l : list wire) : bool := forallb (fun w => match w with Bytes _ => false | _ => true end) l.

Definition finals (l : list wire) : nat := length (List.filter is_final l).

Lemma well_sent_app b l m : well_sent b (l ++ m) = well_sent b l && well_sent (b || existsb is_final l) m.
Proof.
  revert b. induction l as [|w l IH]; intros b; cbn; [by rewrite orb_false_r|].
  destruct w; cbn; rewrite ?IH; destruct b; cbn; done.
Qed.

Lemma well_sent_finals l : well_sent true l = true -> finals l = 0%nat.
Proof. induction l as [|[]]; cbn; try done; auto. Qed.

Lemma well_sent_one l : well_sent false l = true -> finals l = if existsb is_final l then 1%nat else 0%nat.
Proof.
  induction l as [|w l IH]; [done|]. destruct w; cbn; try done. intros W. f_equal. by apply well_sent_finals.
Qed.

(** *** What a handler can do to its response

    A Go handler has the response only by the methods of its writer; it may also
    log, and name its route. *)
Inductive response_op := ASetHeader (f : headers -> headers) | AWriteHeader (code : Z) | AWrite (b : gostring) | AFlush | ALog (l : log_line) | ARoute (r : gostring).

Definition act (x : response_op) (s : st) : st * ending :=
  match x with
  | ASetHeader f => (set_header f s, Returned)
  | AWriteHeader code => WriteHeader code s
  | AWrite b => (Write b s, Returned)
  | AFlush => (Flush s, Returned)
  | ALog l => (log_add l s, Returned)
  | ARoute r => (set_route r s, Returned)
  end.

Inductive responds (s : st) : st -> Prop :=
| responds_refl : responds s s
| responds_step s' x : responds s s' -> responds s (act x s').1.

Definition good (h : handler) : Prop := forall r s, responds s (h r s).1.
Definition good_mw (m : middleware) : Prop := forall h, good h -> good (m h).

Lemma responds_trans s t u : responds s t -> responds t u -> responds s u.
Proof. intros A B. induction B; [done|by constructor]. Qed.

Lemma responds_one x s : responds s (act x s).1.
Proof. constructor. constructor. Qed.

Lemma responds_then s x k : responds s x.1 -> (forall t, responds t (k t).1) -> responds s (and_then x k).1.
Proof. destruct x as [t []]; cbn; intros H K; [|done]. eapply responds_trans; [exact H|apply K]. Qed.

(** What that keeps: the order of what went out; that a response whose status
    is not set has no body; and all that went out before. *)
Record response_ok (s t : st) : Prop := {
  ro_order : well_sent false (sent s) = true -> well_sent false (sent t) = true;
  ro_body : (status s = 0 -> bodiless (sent s) = true) -> status t = 0 -> bodiless (sent t) = true;
  ro_prefix : exists l, sent t = sent s ++ l;
}.

Lemma well_sent_end (s : list wire) w : well_sent false s = true -> (is_final w = true -> existsb is_final s = false) ->
  match w with Bytes _ => existsb is_final s = true | Info _ => existsb is_final s = false | _ => True end -> well_sent false (s ++ [w]) = true.
Proof.
  intros W F B. rewrite well_sent_app, W. cbn [andb orb]. destruct w; cbn in *; [by rewrite B|by rewrite F|by rewrite B].
Qed.

Lemma act_ok x s : response_ok s (act x s).1.
Proof.
  assert (Same : forall t, sent t = sent s -> status t = status s -> response_ok s t).
  { intros t E1 E2. constructor; rewrite ?E1, ?E2; [done|done|]. exists []. by rewrite app_nil_r. }
  destruct x as [f|code|b| |l|rt]; cbn [act fst]; try (by apply Same).
  - unfold WriteHeader. destruct (_ && negb (code =? 101)).
    { cbn [fst]. destruct (existsb is_final (sent s)) eqn:F; [apply Same; cbn; [by rewrite app_nil_r|done]|].
      constructor; cbn; [intros W; by apply well_sent_end| |by eexists]. intros B Z. by unfold bodiless in *; rewrite forallb_app, B. }
    destruct (Z.eqb_spec (status s) 0) as [Z|Z]; cbn [negb]; [|by apply Same]. destruct (existsb is_final (sent s)) eqn:F.
    { cbn [fst]. constructor; cbn; [done| |exists []; by rewrite app_nil_r]. intros B _. by apply B. }
    destruct (_ || _); cbn [fst].
    + constructor; cbn; [done| |exists []; by rewrite app_nil_r]. intros B _. by apply B.
    + constructor; cbn; [intros W; by apply well_sent_end| |by eexists]. intros B _. by unfold bodiless in *; rewrite forallb_app, (B Z).
  - unfold Write, implicit_200. constructor; cbn.
    + intros W. rewrite app_assoc. destruct (existsb is_final (sent s)) eqn:F.
      * rewrite app_nil_r. by apply well_sent_end.
      * apply well_sent_end; [by apply well_sent_end|done|]. by rewrite existsb_app, F.
    + destruct (Z.eqb_spec (status s) 0); done.
    + by eexists.
  - unfold Flush, implicit_200. destruct (existsb is_final (sent s)) eqn:F; [apply Same; cbn; [by rewrite app_nil_r|done]|].
    constructor; cbn; [intros W; by apply well_sent_end| |by eexists]. intros B Z. by unfold bodiless in *; rewrite forallb_app, B.
Qed.

Lemma responds_ok s t : responds s t -> response_ok s t.
Proof.
  induction 1 as [|t x _ IH]; [constructor; try done; exists []; by rewrite app_nil_r|]. pose proof (act_ok x t) as [A B [l E]]. destruct IH as [A' B' [l' E']].
  constructor; [auto|auto|]. exists (l' ++ l). by rewrite E, E', app_assoc.
Qed.

(** A handler given by what it does and how it ends. *)
Definition acts (l : list response_op) (e : ending) (s : st) : st * ending := fold_right (fun x k s => and_then (act x s) k) (fun s => (s, e)) l s.

Lemma good_acts (f : request -> list response_op * ending) : good (fun r => acts (f r).1 (f r).2).
Proof.
  intros r s. destruct (f r) as [l e]. cbn [fst snd]. revert s. induction l as [|x l IH]; intros s; [constructor|].
  apply responds_then; [apply responds_one|done].
Qed.

(** An instrumenter that watches: it hands the request on once, and touches
    neither what goes out nor the status. *)
Definition quiet (f : request -> st -> st) : Prop := forall r s, sent (f r s) = sent s /\ status (f r s) = status s.
Definition watches (m : middleware) : Prop := exists before after : request -> st -> st, quiet before /\ quiet after
  /\ forall h r s, m h r s = let '(t, e) := h r (before r s) in (after r t, e).

(** *** Who answers *)

Definition allow_origin : gostring := str "Access-Control-Allow-Origin".
Definition allow_credentials : gostring := str "Access-Control-Allow-Credentials".

(** The requests that CORS grants: with an origin of the list, or any under "*". *)
Definition granted (c : cors_config) (r : request) : bool :=
  let origin := header_get (str "Origin") (Header r) in
  negb (seq_eqb origin []) && (existsb (seq_eqb (str "*")) (AllowOrigins c) || existsb (seq_eqb origin) (AllowOrigins c)).

Definition is_preflight (r : request) : bool :=
  seq_eqb (Method r) (str "OPTIONS") && negb (seq_eqb (header_get (str "Access-Control-Request-Method") (Header r)) []).

(** A preflight is answered for an origin that is granted, and nothing else is. *)
Theorem cors_grants (c : cors_config) (next : handler) (r : request) (s : st) :
  exists s', cors c next r s = (if granted c r && is_preflight r then WriteHeader 204 s' else next r s') /\ sent s' = sent s /\ status s' = status s /\
    mget allow_origin (header s') = (if granted c r then Some [header_get (str "Origin") (Header r)] else mget allow_origin (header s)) /\
    mget allow_credentials (header s') = (if granted c r && AllowCredentials c then Some [str "true"] else mget allow_credentials (header s)).
Proof.
  unfold cors, granted. fold (is_preflight r). destruct (seq_eqb _ []); [by exists s|]. cbv zeta. cbn [negb andb].
  rewrite <- negb_orb. destruct (existsb _ _ || existsb _ _); cbn [negb andb].
  - destruct (is_preflight r), (AllowCredentials c), (seq_eqb (join _ _) []); (eexists; split; [reflexivity|]); repeat split;
      cbn [set_header header]; unfold header_set, header_add; rewrite ?mget_mset; reflexivity.
  - destruct (is_preflight r); (eexists; split; [reflexivity|]); repeat split; cbn [set_header header]; unfold header_add; rewrite ?mget_mset; reflexivity.
Qed.

(** What an error of chok adds to a response whose status is not set. *)
Definition errored (t : list wire) (out : list wire) : Prop :=
  exists c hd b, 400 <= c <= 599 /\ out = t ++ (if existsb is_final t then [] else [Final c hd]) ++ [Bytes b].

(** What net/http adds at the end. *)
Definition ended (t : list wire) (out : list wire) : Prop := exists hd, out = t ++ (if existsb is_final t then [] else [Final 200 hd]).

Section one.
Context {V : Type} (encode_value : V -> gostring + err) (encode_envelope : envelope -> gostring + err) (encode_plain : envelope -> gostring) (sprint : meta -> gostring) {N : NetIP}.
Notation writeJSON := (writeJSON encode_value encode_envelope encode_plain).
Notation writeError := (writeError encode_value encode_envelope encode_plain sprint).

Lemma responds_body code f b s : responds s (and_then (WriteHeader code (set_header f s)) (fun s => (Write b s, Returned))).1.
Proof.
  apply responds_then; [|intros t; apply (responds_one (AWrite b))]. eapply responds_trans; [apply (responds_one (ASetHeader f))|apply (responds_one (AWriteHeader code))].
Qed.

Lemma responds_writeJSON r code v s : responds s (writeJSON r code v s).1.
Proof.
  unfold Http.writeJSON. destruct (encode _ _ _) as [b|e]; [apply responds_body|].
  eapply responds_trans; [|apply responds_body]. apply (responds_one (ALog (LEncoding (describe e)))).
Qed.

Lemma responds_writeError h r x s : responds s (writeError h r x s).1.
Proof.
  unfold Http.writeError. eapply responds_trans; [|apply responds_writeJSON]. set (t := if 500 <=? _ then _ else s).
  assert (T : responds s t) by (unfold t; destruct (500 <=? _); [apply (responds_one (ALog _))|constructor]).
  destruct (mget _ _) as [ra|]; [|done]. eapply responds_trans; [exact T|apply (responds_one (ASetHeader (header_set (str "Retry-After") (sprint ra))))].
Qed.

(** writeError returns: its code is one of an error. *)
Lemma error_code e : let c := if (Code e <? 400) || (599 <? Code e) then 500 else Code e in 400 <= c <= 599.
Proof. cbv zeta. destruct (Code e <? 400) eqn:A, (599 <? Code e) eqn:B; cbn; lia. Qed.

Lemma writeJSON_returns r code v s : 200 <= code <= 599 ->
  exists c b h l, writeJSON r code v s = (Write b (if status s =? 0 then St h c (bytes s) (sent s ++ if existsb is_final (sent s) then [] else [Final c h]) l (route s) else St h (status s) (bytes s) (sent s) l (route s)), Returned) /\
    (c = code \/ c = 500 /\ exists e, encode encode_value encode_envelope v = inr e) /\ h = header_set content_type json_type (header s).
Proof.
  intros B. unfold Http.writeJSON, WriteHeader.
  assert (C : exists code' b s', match encode encode_value encode_envelope v with inl b => (code, b, s) | inr e => (500, encode_plain (Envelope 500 (Reason ErrInternal) (Message ErrInternal) (request_id r) []), log_add (LEncoding (describe e)) s) end = (code', b, s') /\
    (code' = code \/ code' = 500 /\ exists e, encode encode_value encode_envelope v = inr e) /\ header s' = header s /\ status s' = status s /\ bytes s' = bytes s /\ sent s' = sent s /\ route s' = route s).
  { destruct (encode _ _ _) eqn:X; repeat eexists; [by left|by right; eauto]. }
  destruct C as (c & b & s' & -> & C & H1 & H2 & H3 & H4 & H5). cbn [set_header status header bytes sent log route]. rewrite H1, H2, H3, H4, H5.
  replace ((100 <=? c) && (c <? 200) && negb (c =? 101)) with false by (symmetry; rewrite !andb_false_iff, Z.ltb_ge; lia).
  replace ((c <? 100) || (999 <? c)) with false by (symmetry; rewrite orb_false_iff, !Z.ltb_ge; lia).
  exists c, (b ++ [ascii_of_nat 10]), (header_set content_type json_type (header s)), (log s'). split; [|done].
  destruct s', s; cbn in *; subst. destruct (_ =? 0); [|done]. cbn. destruct (existsb is_final _); [|done]. by rewrite app_nil_r.
Qed.

Lemma writeError_returns h r x s : (writeError h r x s).2 = Returned.
Proof.
  unfold Http.writeError. edestruct writeJSON_returns as (? & ? & ? & ? & -> & _); [|done]. pose proof (error_code (resolve h x)) as H. cbv zeta in H. lia.
Qed.

(** Where the status is not set an error goes out, and sets it. *)
Lemma writeError_answers h r x s : status s = 0 -> errored (sent s) (sent (writeError h r x s).1) /\ status (writeError h r x s).1 <> 0.
Proof.
  intros Z. unfold Http.writeError. pose proof (error_code (resolve h x)) as B. cbv zeta in B. set (code := if _ || _ then 500 else Code _) in *.
  set (s1 := match mget _ _ with Some ra => _ | None => _ end).
  assert (S1 : sent s1 = sent s /\ status s1 = 0) by (unfold s1; destruct (mget _ _), (500 <=? code); done). destruct S1 as [E1 E2].
  edestruct (writeJSON_returns r code (BEnvelope (Envelope code (Reason (resolve h x)) (Message (resolve h x)) (request_id r) (Metadata (resolve h x)))) s1) as (c & b & hd & l & -> & C & _); [lia|].
  assert (Bc : 400 <= c <= 599) by (destruct C as [->|[-> _]]; lia). rewrite E2. cbn [Z.eqb fst]. rewrite E1. split.
  - exists c, hd, b. split; [done|]. unfold Write, implicit_200. cbn [sent]. destruct (existsb is_final (sent s)) eqn:F.
    + by rewrite app_nil_r, F.
    + rewrite existsb_app, orb_true_r. cbn. by rewrite <- app_assoc.
  - unfold Write. cbn [status]. destruct (Z.eqb_spec c 0); lia.
Qed.

Context (a : app) (random_id : request -> gostring) (expired : request -> bool) (origin_host : gostring -> option gostring).
Notation instrumented := (instrumented encode_value encode_envelope encode_plain sprint a expired origin_host).
Notation serve := (serve encode_value encode_envelope encode_plain sprint a random_id expired origin_host).

(** The application: its routes, its Wrap middleware, and what the mux answers. *)
Definition application : handler := wrap (serveMux encode_value encode_envelope encode_plain sprint a) (wrap_ a).

(** What chok answers in its place: a request CSRF protection refuses, and a
    preflight from an origin it grants. *)
Definition turned_away (r : request) : bool := CSRF a && negb (same_origin_check a origin_host r) || granted (cors_ a) r && is_preflight r.

Lemma good_application : (forall r p h, mux a r = Some (p, h) -> good h) -> Forall good_mw (wrap_ a) -> good application.
Proof.
  intros HMux HWrap. unfold application. induction HWrap as [|m l M _ IH]; [|by apply M]. intros r s. cbn [wrap fold_right]. unfold serveMux.
  destruct (mux a r) as [[p h]|] eqn:M.
  { unfold routeMarker. eapply responds_trans; [apply (responds_one (ARoute p))|]. by apply (HMux _ _ _ M). }
  destruct (mux_answer a r) as [[code h] b]. destruct (code =? 404); [apply responds_writeError|]. destruct (code =? 405); [|apply responds_body].
  eapply responds_trans; [apply (responds_one (ASetHeader (header_set (str "Allow") (header_get (str "Allow") h))))|apply responds_writeError].
Qed.

(** The same on the wire, and in what Recover looks at. *)
Definition same_end (x y : st * ending) : Prop := sent x.1 = sent y.1 /\ status x.1 = status y.1 /\ x.2 = y.2.

(** An answer of chok's own: a header, and a body perhaps. *)
Definition own_answer (x : st * ending) : Prop :=
  (exists c hd b, sent x.1 = Final c hd :: b /\ (b = [] \/ exists z, b = [Bytes z])) /\ status x.1 <> 0 /\ x.2 = Returned.

(** How a handler around the application answers [own] requests, and all
    others, from a response on which nothing went out: as the application does,
    or with an error where the application returned [late] and set no status. *)
Definition outcome (own : request -> bool) (late : request -> Prop) (h : handler) : Prop := forall r s, sent s = [] -> status s = 0 ->
  if own r then own_answer (h r s)
  else exists s', sent s' = [] /\ status s' = 0 /\
    (same_end (h r s) (application r s')
     \/ (application r s').2 = Returned /\ status (application r s').1 = 0 /\ late r
        /\ errored (sent (application r s').1) (sent (h r s).1) /\ status (h r s).1 <> 0 /\ (h r s).2 = Returned).

Lemma outcome_application : outcome (fun _ => false) (fun _ => False) application.
Proof. intros r s E1 E2. exists s. split; [done|]. split; [done|]. by left. Qed.

(** A handler that does to the response as another does. *)
Lemma outcome_as own late (h k : handler) : outcome own late k ->
  (forall r s, exists s', sent s' = sent s /\ status s' = status s /\ same_end (h r s) (k r s')) -> outcome own late h.
Proof.
  intros K H r s E1 E2. destruct (H r s) as (s' & S1 & S2 & Eq). pose proof Eq as (X1 & X2 & X3). rewrite <- S1 in E1. rewrite <- S2 in E2. specialize (K r s' E1 E2).
  destruct (own r); [unfold own_answer in *; by rewrite X1, X2, X3|]. destruct K as (s2 & Y1 & Y2 & [(Z1 & Z2 & Z3)|K]); exists s2; split; [done| |done|]; split; try done.
  - left. split; [by rewrite X1|]. split; [by rewrite X2|by rewrite X3].
  - right. by rewrite X1, X2, X3.
Qed.

Lemma outcome_csrf : outcome (fun r => CSRF a && negb (same_origin_check a origin_host r)) (fun _ => False)
  (if CSRF a then csrf encode_value encode_envelope encode_plain sprint a origin_host application else application).
Proof.
  destruct (CSRF a); [|apply outcome_application]. intros r s E1 E2. unfold csrf. cbn [andb]. destruct (same_origin_check a origin_host r); cbn [negb].
  { by apply outcome_application. }
  destruct (writeError_answers (onError a) r (to_err (Msgf ErrForbidden (str "cross-origin request denied"))) s E2) as [(c & hd & b & Bc & Es) Nz].
  split; [|split; [done|apply writeError_returns]]. rewrite Es, E1. exists c, hd, [Bytes b]. split; [done|]. right. by exists b.
Qed.

Lemma outcome_cors c own late h : outcome own late h -> outcome (fun r => own r || granted c r && is_preflight r) late (cors c h).
Proof.
  intros O r s E1 E2. destruct (cors_grants c h r s) as (s' & -> & S1 & S2 & _). rewrite E1 in S1. rewrite E2 in S2.
  destruct (granted c r && is_preflight r); [|rewrite orb_false_r; by apply O]. rewrite orb_true_r.
  unfold WriteHeader. rewrite S1, S2. cbn. split; [|done]. exists 204, (header s'), []. split; [done|by left].
Qed.

Lemma outcome_timeout own h : outcome own (fun _ => False) h -> outcome own (fun r => expired r = true) (timeout encode_value encode_envelope encode_plain sprint a expired h).
Proof.
  intros O r s E1 E2. specialize (O r s E1 E2). unfold timeout. destruct (h r s) as [t e]. destruct (own r).
  - destruct O as (S & Nz & R). cbn [fst snd] in *. subst e. cbn. apply Z.eqb_neq in Nz as Nz'. by rewrite Nz', andb_false_r.
  - destruct O as (s' & S1 & S2 & [(A1 & A2 & A3)|(_ & _ & [] & _)]). cbn [fst snd] in *. subst e. exists s'. split; [done|]. split; [done|].
    destruct ((application r s').2) eqn:Ra; cbn [and_then]; [|by left]. destruct (expired r) eqn:Ex; cbn [andb]; [|by left].
    destruct (Z.eqb_spec (status t) 0) as [Z|Z]; [|by left]. right.
    destruct (writeError_answers (onError a) r (to_err errTimeout) t Z) as [G Nz]. rewrite <- A1, <- A2. split_and!; try done. apply writeError_returns.
Qed.

Lemma outcome_accessLog own late h : outcome own late h -> outcome own late (accessLog a h).
Proof.
  intros O. eapply outcome_as; [exact O|]. intros r s. exists s. split; [done|]. split; [done|]. unfold accessLog.
  destruct (existsb _ _); [done|]. by destruct (h r s) as [t []].
Qed.

Lemma outcome_watched own late h l : Forall watches l -> outcome own late h -> outcome own late (wrap h l).
Proof.
  induction 1 as [|m l (f & g & F & G & M) _ IH]; [done|]. intros O. eapply outcome_as; [by apply IH|]. intros r s. cbn [wrap fold_right].
  exists (f r s). split; [apply F|]. split; [apply F|]. fold (wrap h l). rewrite M. destruct (wrap h l r (f r s)) as [t e]. repeat split; apply G.
Qed.

(** The request outlived the timeout there is. *)
Definition outlived (r : request) : Prop := 0 < RequestTimeout a /\ expired r = true.

Lemma outcome_mono own own' (late late' : request -> Prop) h : (forall r, own r = own' r) -> (forall r, late r -> late' r) -> outcome own late h -> outcome own' late' h.
Proof.
  intros E L O r s E1 E2. specialize (O r s E1 E2). rewrite <- E. destruct (own r); [done|]. destruct O as (s' & S1 & S2 & [X|(A & B & C & D)]); exists s'; split; try done; split; try done.
  - by left.
  - right. split; [done|]. split; [done|]. by split; [apply L|].
Qed.

Lemma outcome_instrumented : Forall watches (instrumenters a) -> outcome turned_away outlived instrumented.
Proof.
  intros HInst. unfold Http.instrumented. apply outcome_watched; [done|]. fold application.
  match goal with |- outcome _ _ (if _ then accessLog _ ?h else _) => cut (outcome turned_away outlived h); [by intros; destruct (access a); [apply outcome_accessLog|]|] end.
  match goal with |- outcome _ _ (if _ then timeout _ _ _ _ _ _ ?h else _) => assert (C : outcome turned_away (fun _ => False) h) end.
  { destruct (AllowOrigins (cors_ a)) eqn:AO; [|exact (outcome_cors (cors_ a) _ _ _ outcome_csrf)]. refine (outcome_mono _ _ _ _ _ _ (fun _ F => F) outcome_csrf).
    intros r. unfold turned_away, granted. rewrite AO. cbn. by rewrite andb_false_r, orb_false_r. }
  destruct (Z.gtb_spec (RequestTimeout a) 0) as [T|].
  - refine (outcome_mono _ _ _ _ _ (fun _ => eq_refl) _ (outcome_timeout _ _ C)). intros r X. by split; [lia|].
  - by refine (outcome_mono _ _ _ _ _ (fun _ => eq_refl) _ C).
Qed.

(** The request as the application is given it. *)
Definition asked (r : request) : request :=
  let r := with_id (sanitizeRequestID (random_id r) (header_get requestIDHeader (Header r))) r in with_ip (ClientIP (trusted a) (RemoteAddr r) (Lines r)) r.

(** What the application did becomes the response: as it is where a handler
    aborted; with an error where one panicked, or returned late, before a
    status was set; and with the 200 net/http adds where there is no header. *)
Definition response_of (r : request) (x : st * ending) (out : list wire) (kept : bool) : Prop :=
  match x.2 with
  | Panicked PAbort => kept = false /\ out = sent x.1
  | Panicked _ => kept = true /\ if status x.1 =? 0 then errored (sent x.1) out else ended (sent x.1) out
  | Returned => kept = true /\ (ended (sent x.1) out \/ status x.1 = 0 /\ outlived r /\ errored (sent x.1) out)
  end.

Lemma ended_self s : ended (sent s) (sent s ++ implicit_200 s).
Proof. by eexists. Qed.

(** What an error added is not added to. *)
Lemma errored_final t out : errored t out -> existsb is_final out = true.
Proof.
  intros (c & hd & b & _ & ->). rewrite existsb_app. destruct (existsb is_final t) eqn:F; [done|]. by rewrite orb_true_r.
Qed.

Lemma implicit_none s : existsb is_final (sent s) = true -> sent s ++ implicit_200 s = sent s.
Proof. unfold implicit_200. intros ->. apply app_nil_r. Qed.

(** Recover and net/http's end, around what is inside. *)
Lemma recover_outcome h (f : request -> request) r s : outcome turned_away outlived h -> sent s = [] -> status s = 0 ->
  let '(t, e) := recover_ encode_value encode_envelope encode_plain sprint a (fun r => h (f r)) r s in
  let out := match e with Returned => sent t ++ implicit_200 t | _ => sent t end in
  let kept := match e with Returned => true | _ => false end in
  if turned_away (f r) then kept = true /\ exists c hd b, out = Final c hd :: b /\ (b = [] \/ exists z, b = [Bytes z])
  else exists s', sent s' = [] /\ status s' = 0 /\ response_of (f r) (application (f r) s') out kept.
Proof.
  intros O E1 E2. specialize (O (f r) s E1 E2). unfold recover_. destruct (h (f r) s) as [t e]. destruct (turned_away (f r)).
  { destruct O as ((c & hd & b & S & B) & _ & R). cbn [fst snd] in *. subst e. split; [done|]. rewrite implicit_none by (by rewrite S). eauto. }
  destruct O as (s' & S1 & S2 & O).
  destruct O as [(A1 & A2 & A3)|(A & Z & Lt & G & Nz & R)]; cbn [fst snd] in *; subst e.
  2: { exists s'. unfold response_of. rewrite A. split_and!; try done. right. split; [done|]. split; [done|].
    rewrite implicit_none; [done|]. by eapply errored_final. }
  assert (P : forall l p, (application (f r) s').2 = Panicked p -> p <> PAbort ->
    let '(t, e) := if status (log_add l t) =? 0 then writeError (onError a) r (to_err ErrInternal) (log_add l t) else (log_add l t, Returned) in
    let out := match e with Returned => sent t ++ implicit_200 t | _ => sent t end in
    let kept := match e with Returned => true | _ => false end in
    exists s', sent s' = [] /\ status s' = 0 /\ response_of (f r) (application (f r) s') out kept).
  { intros l p E Np. cbn [log_add status]. rewrite A2. destruct (status (application (f r) s').1 =? 0) eqn:Z.
    - pose proof (writeError_answers (onError a) r (to_err ErrInternal) (log_add l t)) as [G _]; [cbn; rewrite A2; by apply Z.eqb_eq|].
      pose proof (writeError_returns (onError a) r (to_err ErrInternal) (log_add l t)) as R. destruct (writeError _ _ _ _) as [u e]. cbn [fst snd] in *. subst e.
      exists s'. split_and!; try done. unfold response_of. rewrite E, Z, implicit_none by (by eapply errored_final). rewrite <- A1. by destruct p.
    - exists s'. split_and!; try done. unfold response_of. rewrite E, Z, <- A1. pose proof (ended_self (log_add l t)). by destruct p. }
  destruct ((application (f r) s').2) as [|[|x|x]] eqn:Ra; [| |by apply (P _ _ eq_refl)|by apply (P _ _ eq_refl)]; exists s'; unfold response_of; rewrite Ra, <- A1; split_and!; try done.
  left. apply ended_self.
Qed.

(** The order of what goes out, through the last step. *)
Lemma well_sent_header t w : well_sent false t = true -> is_final w = true -> well_sent false (t ++ if existsb is_final t then [] else [w]) = true.
Proof. intros W F. destruct (existsb is_final t) eqn:E; [by rewrite app_nil_r|]. apply well_sent_end; [done|done|by destruct w]. Qed.

Lemma ended_ordered t out : well_sent false t = true -> ended t out -> well_sent false out = true /\ existsb is_final out = true.
Proof.
  intros W [hd ->]. split; [by apply well_sent_header|]. rewrite existsb_app. destruct (existsb is_final t) eqn:E; [done|]. by rewrite orb_true_r.
Qed.

Lemma errored_ordered t out : well_sent false t = true -> errored t out -> well_sent false out = true /\ existsb is_final out = true.
Proof.
  intros W E. split; [|by eapply errored_final]. destruct E as (c & hd & b & _ & ->). rewrite app_assoc. apply well_sent_end; [by apply well_sent_header|done|].
  rewrite existsb_app. destruct (existsb is_final t) eqn:E; [done|]. by rewrite orb_true_r.
Qed.

Lemma response_ordered r x out kept : well_sent false (sent x.1) = true -> response_of r x out kept -> well_sent false out = true /\ (kept = true -> existsb is_final out = true).
Proof.
  intros W. unfold response_of. destruct (x.2) as [|[]]; intros [-> R].
  - destruct R as [R|(_ & _ & R)]; [apply ended_ordered in R as []|apply errored_ordered in R as []]; try done; by split.
  - by subst.
  - destruct (_ =? 0); [apply errored_ordered in R as []|apply ended_ordered in R as []]; try done; by split.
  - destruct (_ =? 0); [apply errored_ordered in R as []|apply ended_ordered in R as []]; try done; by split.
Qed.

(** [C30] Every request is answered once.  chok answers in place of the
    application a request its CSRF check refuses and a preflight from an origin
    it grants.  Any other is answered by the application, with all that it sent
    and nothing else, except that an error of chok is added where no status was
    set - and then no body was sent - by a handler that panicked or outlived the
    timeout, and the 200 of net/http where there is no header; a handler that
    panics with ErrAbortHandler has its connection cut.  So informational codes
    come first, then one final header, then its body.  The application may do
    anything with its response writer, panics included; an instrumenter only
    watches. *)
Theorem one_response (r : request) :
  (forall r p h, mux a r = Some (p, h) -> good h) -> Forall good_mw (wrap_ a) -> Forall watches (instrumenters a) ->
  let '(out, _, kept) := serve r in
  well_sent false out = true /\ (finals out <= 1)%nat /\ (kept = true -> finals out = 1%nat) /\
  if turned_away (asked r) then kept = true /\ exists c hd b, out = Final c hd :: b /\ (b = [] \/ exists z, b = [Bytes z])
  else exists s, sent s = [] /\ status s = 0 /\
    let x := application (asked r) s in (status x.1 = 0 -> bodiless (sent x.1) = true) /\ response_of (asked r) x out kept.
Proof.
  intros HMux HWrap HInst. unfold Http.serve, buildHandler, requestID. set (s0 := set_header _ blank).
  pose proof (recover_outcome instrumented (fun r => with_ip (ClientIP (trusted a) (RemoteAddr r) (Lines r)) r)
    (with_id (sanitizeRequestID (random_id r) (header_get requestIDHeader (Header r))) r) s0 (outcome_instrumented HInst) eq_refl eq_refl) as R.
  unfold clientIP. destruct (recover_ _ _ _ _ _ _ _ _) as [t e]. fold (asked r) in R. cbv zeta in R.
  assert (G : forall out kept, (if turned_away (asked r) then kept = true /\ exists c hd b, out = Final c hd :: b /\ (b = [] \/ exists z, b = [Bytes z])
    else exists s', sent s' = [] /\ status s' = 0 /\ response_of (asked r) (application (asked r) s') out kept) ->
    well_sent false out = true /\ (kept = true -> existsb is_final out = true) /\
    if turned_away (asked r) then kept = true /\ exists c hd b, out = Final c hd :: b /\ (b = [] \/ exists z, b = [Bytes z])
    else exists s, sent s = [] /\ status s = 0 /\ let x := application (asked r) s in (status x.1 = 0 -> bodiless (sent x.1) = true) /\ response_of (asked r) x out kept).
  { intros out kept. destruct (turned_away (asked r)).
    - intros H. pose proof H as (_ & c & hd & b & -> & B). split; [|by split]. by destruct B as [->|[z ->]].
    - intros (s & E1 & E2 & X). destruct (responds_ok _ _ (good_application HMux HWrap (asked r) s)) as [W B _]. rewrite E1 in W, B.
      destruct (response_ordered _ _ _ _ (W eq_refl) X). split; [done|]. split; [done|]. exists s. split; [done|]. split; [done|]. split; [by apply B|done]. }
  assert (F : forall out kept, well_sent false out = true /\ (kept = true -> existsb is_final out = true) -> well_sent false out = true /\ (finals out <= 1)%nat /\ (kept = true -> finals out = 1%nat)).
  { intros out kept [W K]. rewrite (well_sent_one out W). split; [done|]. split; [destruct (existsb _ _); lia|]. intros X. by rewrite (K X). }
  destruct e; apply G in R as (A & B & C); destruct (F _ _ (conj A B)) as (F1 & F2 & F3); by split_and!.
Qed.
End one.

(** ** What an error tells *)

Section err_ind.
Context (P : err -> Prop) (HE : forall e c, (forall x, c = Some x -> P x) -> P (EErr e c)) (HV : forall l, P (EValidation l)) (HS : forall s, P (ESentinel s))
  (HO : forall t x i rt co many ws, Forall P ws -> P (EOther t x i rt co many ws)).

(** Induction through the causes of an error, and the several it wraps. *)
Fixpoint err_ind' (e : err) : P e.
Proof.
  destruct e as [e c| | |t x i rt co many ws].
  - apply HE. intros x. destruct c as [y|]; [|discriminate]. intros E. injection E as <-. apply err_ind'.
  - apply HV.
  - apply HS.
  - apply HO. induction ws; constructor; [apply err_ind'|exact IHws].
Qed.
End err_ind.

(** An error without the texts that errors other than chok's, and than the
    runtime's, have. *)
Fixpoint without_texts (e : err) : err :=
  match e with
  | EErr x c => EErr x (option_map without_texts c)
  | EOther type text is_ runtime coder many wraps => EOther type (if runtime then text else []) is_ runtime coder many (map without_texts wraps)
  | _ => e
  end.

(** And without any cause, type or text: the *Error, the answer, the failed rules
    and the deadline that a chain has. *)
Fixpoint bare (e : err) : err :=
  match e with
  | EErr x _ => EErr x None
  | EValidation l => EValidation l
  | ESentinel s => if bool_decide (s = DeadlineExceeded) then e else EOther [] [] [] false None false []
  | EOther _ _ is_ _ coder many wraps => EOther [] [] (List.filter (fun s => bool_decide (s = DeadlineExceeded)) is_) false coder many (map bare wraps)
  end.

Lemma first_as_app {A} (f : err -> option A) l m : first_as f (l ++ m) = match first_as f l with Some x => Some x | None => first_as f m end.
Proof. induction l as [|e l IH]; cbn; [done|]. by destruct (f e). Qed.

(** Chains that are resolved alike. *)
Definition alike (l m : list err) : Prop :=
  first_as as_Error l = first_as as_Error m /\
  (first_as as_Error m = None ->
   first_as as_Coder l = first_as as_Coder m /\ first_as as_Validation l = first_as as_Validation m /\
   existsb (link_is DeadlineExceeded) l = existsb (link_is DeadlineExceeded) m).

Lemma alike_app l l' m m' : alike l m -> alike l' m' -> alike (l ++ l') (m ++ m').
Proof.
  intros [E H] [E' H']. unfold alike. rewrite !first_as_app, !existsb_app, E, E'. split; [done|].
  destruct (first_as as_Error m); [done|]. intros N. destruct (H eq_refl) as (-> & -> & ->), (H' N) as (-> & -> & ->). done.
Qed.

Lemma alike_one x y l m : alike [x] [y] -> alike l m -> alike (x :: l) (y :: m).
Proof. apply (alike_app [x] l [y] m). Qed.

Lemma alike_flat_map (f : err -> err) ws : Forall (fun e => alike (chain (f e)) (chain e)) ws -> alike (flat_map chain (map f ws)) (flat_map chain ws).
Proof. induction 1; [done|]. by apply alike_app. Qed.

Lemma alike_wraps (f : err -> err) (many : bool) ws : Forall (fun e => alike (chain (f e)) (chain e)) ws ->
  alike (if many then flat_map chain (map f ws) else match map f ws with c :: _ => chain c | [] => [] end)
    (if many then flat_map chain ws else match ws with c :: _ => chain c | [] => [] end).
Proof. intros F. destruct many; [by apply alike_flat_map|]. by destruct F. Qed.

Lemma deadline_filter l : bool_decide (DeadlineExceeded ∈ List.filter (fun s => bool_decide (s = DeadlineExceeded)) l) = bool_decide (DeadlineExceeded ∈ l).
Proof.
  apply bool_decide_ext. rewrite !list_elem_of_In, filter_In. split; [by intros []|]. intros I. split; [done|]. by apply bool_decide_eq_true.
Qed.

Lemma alike_bare e : alike (chain (bare e)) (chain e).
Proof.
  induction e as [x c _|l|s|t x i rt co many ws IH] using err_ind'; [by split| done| |].
  - cbn. destruct (bool_decide (s = DeadlineExceeded)) eqn:D; [done|]. split; [done|]. cbn.
    intros _. repeat split. rewrite bool_decide_eq_false in D. rewrite bool_decide_false by set_solver. by rewrite (bool_decide_false (DeadlineExceeded = s)) by congruence.
  - cbn [chain bare]. apply alike_one; [|by apply alike_wraps]. split; [done|]. intros _. repeat split. cbn. by rewrite deadline_filter.
Qed.

Lemma alike_without_texts e : alike (chain (without_texts e)) (chain e).
Proof.
  induction e as [x c IH|l|s|t x i rt co many ws IH] using err_ind'; [by split|done|done|].
  cbn [chain without_texts]. by apply alike_one; [|apply alike_wraps].
Qed.

Lemma resolve_alike x y : alike (chain x) (chain y) -> resolve None x = resolve None y.
Proof.
  intros [E H]. unfold resolve. rewrite E. destruct (first_as as_Error (chain y)); [done|]. by destruct H as (-> & -> & ->).
Qed.

Lemma describe_without_texts e : describe (without_texts e) = describe e.
Proof.
  induction e as [x c IH|l|s|t x i rt co many ws IH] using err_ind'; [|done|done|].
  - cbn. destruct c as [y|]; [|done]. cbn. by rewrite (IH y).
  - cbn. f_equal.
    + unfold sentinelName. cbn. by destruct rt.
    + destruct many.
      * assert (E : map describe (map without_texts ws) = map describe ws) by (rewrite map_map; by induction IH; cbn; [|f_equal]).
        destruct ws; [done|]. cbn [map] in *. by rewrite E.
      * destruct IH as [|c ws Hc _]; [done|]. cbn. by rewrite Hc.
Qed.

(** What the client sees of a response. *)
Definition seen (s : st) : headers * Z * Z * list wire := (header s, status s, bytes s, sent s).

Section unseen.
Context {V : Type} (encode_value : V -> gostring + err) (encode_envelope : envelope -> gostring + err) (encode_plain : envelope -> gostring) (sprint : meta -> gostring) {N : NetIP} (a : app).
Notation writeError := (writeError encode_value encode_envelope encode_plain sprint).
Notation writeJSON := (writeJSON encode_value encode_envelope encode_plain).
Notation recover := (recover_ encode_value encode_envelope encode_plain sprint).

(** A header and a body, whatever was logged. *)
Lemma answer_seen code f b s s' : seen s = seen s' ->
  seen (and_then (WriteHeader code (set_header f s)) (fun s => (Write b s, Returned))).1 = seen (and_then (WriteHeader code (set_header f s')) (fun s => (Write b s, Returned))).1.
Proof.
  destruct s, s'. unfold seen. cbn. intros E. simplify_eq. unfold WriteHeader. cbn -[Z.leb Z.ltb Z.eqb]. repeat (case_match; cbn -[Z.leb Z.ltb Z.eqb]; try done).
Qed.

Lemma writeJSON_seen r code v s s' : seen s = seen s' -> seen (writeJSON r code v s).1 = seen (writeJSON r code v s').1.
Proof. intros E. unfold Http.writeJSON. destruct (encode _ _ _); by apply answer_seen. Qed.

(** [C23] No text of an error gets out that chok did not mean to.  The client's
    response depends only on what the chain classifies as, never on a cause, a
    type or a text; the log besides on causes and types, never on the text of
    an error that is neither chok's nor the runtime's.  The same holds of an
    error a handler panicked with, and of one that the JSON of an answer failed
    with; neither is in the response at all, nor is any other panic's value,
    whose words are the application's and are in the log.  A hook that resolves
    errors itself is taken to resolve the two alike. *)
Theorem error_texts_unseen (hook : option (err -> option Error)) (r : request) (x y : err) (s : st) :
  match hook with Some h => h x = h y | None => True end ->
  (bare x = bare y -> seen (writeError hook r x s).1 = seen (writeError hook r y s).1) /\
  (without_texts x = without_texts y -> writeError hook r x s = writeError hook r y s) /\
  (forall p q (h k : handler), h r s = (s, Panicked p) -> k r s = (s, Panicked q) -> p <> PAbort -> q <> PAbort ->
     seen (recover a h r s).1 = seen (recover a k r s).1 /\ (p = PError x -> q = PError y -> without_texts x = without_texts y -> recover a h r s = recover a k r s)) /\
  (forall code code' v w, encode encode_value encode_envelope v = inr x -> encode encode_value encode_envelope w = inr y ->
     seen (writeJSON r code v s).1 = seen (writeJSON r code' w s).1 /\ (without_texts x = without_texts y -> writeJSON r code v s = writeJSON r code' w s)).
Proof.
  intros H.
  assert (R : (resolve None x = resolve None y) -> resolve hook x = resolve hook y).
  { unfold resolve at 3 4. destruct hook as [h|]; [rewrite H; destruct (h y); [done|]|]; auto. }
  assert (D : without_texts x = without_texts y -> describe x = describe y) by (intros E; by rewrite <- (describe_without_texts x), <- (describe_without_texts y), E).
  split; [|split; [|split]].
  - intros E. assert (R' : resolve hook x = resolve hook y).
    { apply R. by rewrite <- (resolve_alike _ _ (alike_bare x)), <- (resolve_alike _ _ (alike_bare y)), E. }
    unfold Http.writeError. rewrite R'. apply writeJSON_seen. destruct (500 <=? _), (mget _ _); done.
  - intros E. assert (R' : resolve hook x = resolve hook y).
    { apply R. by rewrite <- (resolve_alike _ _ (alike_without_texts x)), <- (resolve_alike _ _ (alike_without_texts y)), E. }
    unfold Http.writeError. by rewrite R', (D E).
  - intros p q h k Hh Hk Np Nq. unfold recover_. rewrite Hh, Hk. split.
    + destruct p as [|e|t], q as [|e'|t']; try done; cbn [log_add status]; destruct (status s =? 0); try done; unfold Http.writeError; apply writeJSON_seen; by destruct (500 <=? _), (mget _ _).
    + intros -> -> E. cbn [panicText]. by rewrite (D E).
  - intros code code' v w Ev Ew. unfold Http.writeJSON. rewrite Ev, Ew. split; [|intros E; by rewrite (D E)].
    by apply answer_seen.
Qed.
End unseen.

(** ** Origins *)

Section origins.
Context {V : Type} (encode_value : V -> gostring + err) (encode_envelope : envelope -> gostring + err) (encode_plain : envelope -> gostring) (sprint : meta -> gostring) {N : NetIP}.

Context (random_id : request -> gostring) (expired : request -> bool) (origin_host : gostring -> option gostring).
Notation serve a r := (serve encode_value encode_envelope encode_plain sprint a random_id expired origin_host r).
Notation writeError := (writeError encode_value encode_envelope encode_plain sprint).

(** The App with other routes, and other middleware in front of them. *)
Definition with_routes (a : app) (w : list middleware) (m : request -> option (gostring * handler)) (ans : request -> Z * headers * gostring) : app :=
  App (onError a) (cors_ a) (CSRF a) (RequestTimeout a) (access a) (probe_paths a) (trusted a) w (instrumenters a) (exempt a) m ans.

(** A request another site made: not safe, and marked so by the browser. *)
Definition cross_site (r : request) : bool :=
  negb (existsb (seq_eqb (Method r)) (map str ["GET"; "HEAD"; "OPTIONS"]%string)) &&
  existsb (seq_eqb (header_get (str "Sec-Fetch-Site") (Header r))) (map str ["cross-site"; "same-site"]%string).

Lemma cross_site_denied (a : app) r : cross_site r = true -> exempt a r = false -> existsb (seq_eqb (header_get (str "Origin") (Header r))) (AllowOrigins (cors_ a)) = false ->
  same_origin_check a origin_host r = false.
Proof.
  unfold cross_site, same_origin_check, trusted_origin. intros C X O. apply andb_true_iff in C as [M S]. apply negb_true_iff in M. rewrite M, X, O, !andb_false_r.
  cbn [map existsb] in S. rewrite orb_false_r in S. apply orb_true_iff in S as [S|S]; match type of S with seq_eqb ?x ?y = true => destruct (seq_eqbP x y) as [E|]; [rewrite E|done] end; reflexivity.
Qed.

(** What asks the next handler only of this request. *)
Definition same_on (r : request) (h k : handler) : Prop := forall s, h r s = k r s.

Lemma cors_same c r h k : same_on r h k -> same_on r (cors c h) (cors c k).
Proof. intros E s. unfold cors. cbv zeta. by rewrite !E. Qed.

Lemma csrf_denied a h r s : same_origin_check a origin_host r = false ->
  csrf encode_value encode_envelope encode_plain sprint a origin_host h r s = writeError (onError a) r (to_err (Msgf ErrForbidden (str "cross-origin request denied"))) s.
Proof. unfold csrf. by intros ->. Qed.

Lemma writeError_fresh hook r x s : sent s = [] -> status s = 0 -> exists c h b l,
  writeError hook r x s = (Write b (St h c (bytes s) [Final c h] l (route s)), Returned) /\ 400 <= c <= 599 /\
  ((forall e, exists b, encode_envelope e = inl b) -> c = let k := Code (resolve hook x) in if (k <? 400) || (599 <? k) then 500 else k).
Proof.
  intros Em Z. unfold Http.writeError. pose proof (error_code (resolve hook x)) as B. cbv zeta in B.
  edestruct (writeJSON_returns encode_value encode_envelope encode_plain) as (c & b & h & l & -> & C & _); [split; [|apply B]; lia|].
  exists c, h, b, l. split; [|split].
  - destruct (mget _ _), (500 <=? _); cbn [set_header log_add status bytes sent route]; by rewrite Z, Em.
  - destruct C as [->|[-> _]]; lia.
  - intros H. destruct C as [->|[_ [e Y]]]; [done|]. cbn in Y. destruct (H (Envelope (if (Code (resolve hook x) <? 400) || (599 <? Code (resolve hook x)) then 500 else Code (resolve hook x)) (Reason (resolve hook x)) (Message (resolve hook x)) (request_id r) (Metadata (resolve hook x)))) as [b' Y']. congruence.
Qed.

(** An instrumenter that watches asks the next handler of the same request. *)
Lemma watched_same l r h k : Forall watches l -> same_on r h k -> same_on r (wrap h l) (wrap k l).
Proof.
  induction 1 as [|m l (f & g & _ & _ & M) _ IH]; [done|]. intros E s. cbn [wrap fold_right]. fold (wrap h l) (wrap k l). rewrite !M. by rewrite (IH E (f r s)).
Qed.

Section denied.
Context (a : app) (r : request) (HC : CSRF a = true) (HD : same_origin_check a origin_host r = false) (HP : is_preflight r = false) (HI : Forall watches (instrumenters a)).
Notation instrumented a := (instrumented encode_value encode_envelope encode_plain sprint a expired origin_host).

(** The routes are not asked. *)
Lemma denied_same w m ans : same_on r (instrumented a) (instrumented (with_routes a w m ans)).
Proof.
  unfold Http.instrumented, with_routes. cbn [CSRF cors_ RequestTimeout access instrumenters wrap_]. rewrite HC. apply watched_same; [done|].
  match goal with |- same_on _ (if _ then accessLog _ ?t1 else _) (if _ then accessLog _ ?t2 else _) => assert (T : same_on r t1 t2) end.
  { match goal with |- same_on _ (if _ then timeout _ _ _ _ _ _ ?c1 else _) (if _ then timeout _ _ _ _ _ _ ?c2 else _) => assert (C : same_on r c1 c2) end.
    { assert (D : same_on r (csrf encode_value encode_envelope encode_plain sprint a origin_host (wrap (serveMux encode_value encode_envelope encode_plain sprint a) (wrap_ a)))
        (csrf encode_value encode_envelope encode_plain sprint (with_routes a w m ans) origin_host (wrap (serveMux encode_value encode_envelope encode_plain sprint (with_routes a w m ans)) w))).
      { intros s. by rewrite !csrf_denied. }
      destruct (AllowOrigins (cors_ a)); [exact D|]. by apply cors_same. }
    destruct (RequestTimeout a >? 0); [|done]. intros s. unfold timeout. by rewrite C. }
  destruct (access a); [|done]. intros s. unfold accessLog. cbn [probe_paths with_routes]. by rewrite T.
Qed.

(** An answer that refuses, to a response on which nothing went out. *)
Definition refused (h : handler) : Prop := forall s, sent s = [] -> status s = 0 -> exists c hd b,
  sent (h r s).1 = [Final c hd; Bytes b] /\ status (h r s).1 <> 0 /\ (h r s).2 = Returned /\ 400 <= c <= 599 /\
  (onError a = None -> (forall e, exists b, encode_envelope e = inl b) -> c = 403).

Lemma refused_csrf h : refused (csrf encode_value encode_envelope encode_plain sprint a origin_host h).
Proof.
  intros s Em Z. rewrite csrf_denied by done. destruct (writeError_fresh (onError a) r (to_err (Msgf ErrForbidden (str "cross-origin request denied"))) s Em Z) as (c & hd & b & l & -> & B & F).
  exists c, hd, b. cbn. repeat split; [destruct (Z.eqb_spec c 0); lia|lia|lia|]. intros N' E. rewrite (F E), N'. done.
Qed.

(** What does to the response as a refusal does. *)
Lemma refused_as (h k : handler) : refused k -> (forall s, status s = 0 -> sent s = [] -> exists s', sent s' = sent s /\ status s' = status s /\ same_end (h r s) (k r s')) -> refused h.
Proof.
  intros K H s Em Z. destruct (H s Z Em) as (s' & S1 & S2 & X1 & X2 & X3). unfold refused in K. rewrite X1, X2, X3. apply K; congruence.
Qed.

Lemma refused_watched l h : Forall watches l -> refused h -> refused (wrap h l).
Proof.
  induction 1 as [|m l (f & g & F & G & M) _ IH]; [done|]. intros K. eapply refused_as; [by apply IH|]. intros s _ _. cbn [wrap fold_right]. fold (wrap h l).
  exists (f r s). split; [apply F|]. split; [apply F|]. rewrite M. destruct (wrap h l r (f r s)) as [t e]. repeat split; apply G.
Qed.

Lemma refused_instrumented : refused (instrumented a).
Proof.
  unfold Http.instrumented. rewrite HC. apply refused_watched; [done|].
  match goal with |- refused (if _ then accessLog _ ?t1 else _) => assert (T : refused t1) end.
  { match goal with |- refused (if _ then timeout _ _ _ _ _ _ ?c1 else _) => assert (C : refused c1) end.
    { match goal with |- context [csrf ?e1 ?e2 ?e3 ?e4 ?a ?o ?h] => pose proof (refused_csrf h) as D end.
      destruct (AllowOrigins (cors_ a)); [exact D|]. eapply refused_as; [exact D|]. intros s Z _.
      match goal with |- context [cors ?c ?h] => destruct (cors_grants c h r s) as (s' & E & E1 & E2 & _) end.
      rewrite HP, andb_false_r in E. exists s'. by rewrite E. }
    destruct (RequestTimeout a >? 0); [|done]. intros s Em Z. destruct (C s Em Z) as (c & hd & b & S & Nz & R & B). exists c, hd, b. unfold timeout.
    match goal with |- context [and_then ?x] => destruct x as [t e] end. cbn [fst snd] in *. subst e. cbn [and_then]. apply Z.eqb_neq in Nz as Nz'. by rewrite Nz', andb_false_r. }
  destruct (access a); [|done]. eapply refused_as; [exact T|]. intros s _ _. exists s. split; [done|]. split; [done|]. unfold accessLog. destruct (existsb _ _); [done|].
  match goal with |- same_end (and_then ?x _) _ => by destruct x as [t []] end.
Qed.
End denied.

(** [C24] With CSRF protection on, a request that is not safe and that a browser
    marks as made by another site, from an origin not trusted and to a route
    not exempt, reaches no route and no Wrap middleware: what is sent and
    logged is the same whatever they are, and it is one error.  That is a 403
    where there is no hook and the envelope encodes.  Instrumenters stand
    outside the check; they are taken to pass the request on and to leave the
    response alone, as those of telemetry do. *)
Theorem csrf_blocks (a : app) (r : request) (w : list middleware) (m : request -> option (gostring * handler)) (ans : request -> Z * headers * gostring) :
  CSRF a = true -> Forall watches (instrumenters a) -> cross_site r = true -> (forall id ip, exempt a (with_ip ip (with_id id r)) = false) ->
  existsb (seq_eqb (header_get (str "Origin") (Header r))) (AllowOrigins (cors_ a)) = false ->
  serve a r = serve (with_routes a w m ans) r /\
  exists c hd b l, serve a r = ([Final c hd; Bytes b], l, true) /\ 400 <= c <= 599 /\
    (onError a = None -> (forall e, exists b, encode_envelope e = inl b) -> c = 403).
Proof.
  intros HC HI HX HE HO. unfold Http.serve, buildHandler, requestID, recover_, clientIP. cbn [trusted with_routes].
  set (r1 := with_ip _ _). set (s0 := set_header _ blank).
  assert (D : same_origin_check a origin_host r1 = false) by (apply cross_site_denied; [exact HX|apply HE|exact HO]).
  assert (P : is_preflight r1 = false).
  { unfold cross_site in HX. apply andb_true_iff in HX as [M _]. apply negb_true_iff in M. cbn [map existsb] in M. rewrite !orb_false_iff in M.
    unfold is_preflight. cbn [Method r1 with_ip with_id]. destruct M as (_ & _ & -> & _). done. }
  rewrite <- (denied_same a r1 HC D HI w m ans s0).
  destruct (refused_instrumented a r1 HC D P HI s0 eq_refl eq_refl) as (c & hd & b & S & Nz & R & B & F). split; [done|].
  destruct (Http.instrumented _ _ _ _ _ _ _ r1 s0) as [t e]. cbn [fst snd] in *. subst e.
  exists c, hd, b, (log t). unfold implicit_200. rewrite S. done.
Qed.
End origins.

(** ** Request ids *)

Lemma filter_id_byte_idem l : List.filter id_byte (List.filter id_byte l) = List.filter id_byte l.
Proof. induction l as [|c l IH]; [done|]. cbn. destruct (id_byte c) eqn:E; [cbn; by rewrite E, IH|done]. Qed.

Definition plain_id (id : gostring) : Prop := id <> [] /\ (length id <= 128)%nat /\ forallb id_byte id = true.

(** The id that is logged and echoed is short and plain whatever the client sent,
    and an id that already is passes unchanged. *)
Lemma request_id_plain (generated id : gostring) : plain_id generated ->
  plain_id (sanitizeRequestID generated id) /\ (plain_id id -> sanitizeRequestID generated id = id).
Proof.
  intros G. split.
  - unfold sanitizeRequestID. destruct (List.filter id_byte (take 128 id)) as [|c l] eqn:E; [done|]. split; [done|]. rewrite <- E. split.
    + etransitivity; [apply List.filter_length_le|]. rewrite length_take. lia.
    + apply forallb_forall. intros x [_ X]%filter_In. done.
  - intros (N & L & P). unfold sanitizeRequestID. rewrite take_ge by done.
    assert (F : List.filter id_byte id = id) by (clear N L; induction id as [|c id IH]; cbn in *; [done|]; apply andb_true_iff in P as [-> P]; by rewrite IH).
    rewrite F. by destruct id.
Qed.

(** ** A concrete App *)

Section demo.
Local Instance demo_ip : NetIP := demo_netip.

Definition demo_envelope (e : envelope) : gostring + err := inl (v_reason e).
Definition demo_encode (_ : unit) : gostring + err := inl (str "{}").

(** An instrumenter that notes how every request ended. *)
Definition demo_watch : middleware := fun h r s => let '(t, e) := h r s in (log_add (LFailed (code_of t) (str "seen") []) t, e).

Lemma demo_watches : Forall watches [demo_watch].
Proof. repeat constructor. by exists (fun _ s => s), (fun _ t => log_add (LFailed (code_of t) (str "seen") []) t). Qed.

Definition demo_app (csrf_on : bool) (m : request -> option (gostring * handler)) : app :=
  App None (CORSConfig [str "https://ok.example"] [str "GET"] [] [] true (600 * 10 ^ 9)) csrf_on (10 ^ 9) true [] [] [] [demo_watch] (fun _ => false) m (fun _ => (404, [], [])).

Definition demo_route (r : request) : option handler :=
  if seq_eqb (Path r) (str "/panic") then Some (fun _ => acts [] (Panicked (PText (str "oops"))))
  else if seq_eqb (Path r) (str "/ok") then Some (fun _ => acts [AWriteHeader 103; AWrite (str "a"); AWriteHeader 500; AWrite (str "b")] Returned)
  else if seq_eqb (Path r) (str "/flush") then Some (fun _ => acts [ASetHeader (header_set content_type (str "text/event-stream")); AFlush] (Panicked (PText (str "oops"))))
  else if seq_eqb (Path r) (str "/code") then
    Some (handle demo_encode demo_envelope v_reason (fun _ => []) (demo_app false (fun _ => None)) (fun _ => inl tt) (fun _ _ => inl tt) (route_status 1000 false) false)
  else None.
Definition demo_mux (r : request) : option (gostring * handler) := option_map (pair (Path r)) (demo_route r).

Definition demo_request (method path : string) (h : headers) : request := Request (str method) (str path) (str "ok.example") h (str "10.0.0.1:443") [] [] [] false.
Definition demo_serve (csrf_on : bool) (r : request) := serve demo_encode demo_envelope v_reason (fun _ => []) (demo_app csrf_on demo_mux) (fun _ => str "id") (fun _ => false) (fun _ => None) r.

Definition codes (l : list wire) : list Z := flat_map (fun w => match w with Final c _ => [c] | Info c => [c] | Bytes _ => [] end) l.

Lemma demo_mux_good csrf_on : forall r p h, mux (demo_app csrf_on demo_mux) r = Some (p, h) -> good h.
Proof.
  intros r p h. cbn. unfold demo_mux, demo_route. repeat case_match; cbn; intros E; simplify_eq.
  - apply (good_acts (fun _ => (_, _))).
  - apply (good_acts (fun _ => (_, _))).
  - apply (good_acts (fun _ => (_, _))).
  - intros r' s. unfold handle. by apply responds_writeJSON.
Qed.

(** A second header is dropped, and what follows goes out as the body. *)
Lemma one_response_witness :
  exists h, (demo_serve false (demo_request "GET" "/ok" [])).1.1 = [Info 103; Final 200 h; Bytes (str "a"); Bytes (str "b")] /\
  well_sent false (demo_serve false (demo_request "GET" "/ok" [])).1.1 = true.
Proof.
  eexists. split; [vm_compute; reflexivity|].
  exact (proj1 (one_response demo_encode demo_envelope v_reason (fun _ => []) (demo_app false demo_mux) (fun _ => str "id") (fun _ => false) (fun _ => None)
    (demo_request "GET" "/ok" []) (demo_mux_good false) (List.Forall_nil _) demo_watches)).
Defined.

(** A handler that panics is answered 500, and leaves no line in the access log. *)
Example panic_without_access_line :
  let '(out, l, kept) := demo_serve false (demo_request "GET" "/panic" []) in
  codes out = [500] /\ kept = true /\ access (demo_app false demo_mux) = true /\ forallb (fun x => match x with LAccess _ _ _ _ _ _ _ => false | _ => true end) l = true.
Proof. vm_compute. repeat split. Qed.

(** A stream that panics before its first write, but after a Flush, ends with the
    body of an error under the 200 and the type that went out. *)
Example flushed_panic :
  let '(out, l, kept) := demo_serve false (demo_request "GET" "/flush" []) in
  kept = true /\ match out with [Final c h; Bytes b] => c = 200 /\ header_get content_type h = str "text/event-stream" /\ b = str "InternalError" ++ [ascii_of_nat 10] | _ => False end /\
  In (LFailed 500 (str "InternalError") (str "InternalError: internal server error")) l.
Proof. vm_compute. repeat split; auto. Qed.

(** A route whose status is not of three digits is answered 200 without a body. *)
Example bad_status_is_200 :
  let '(out, l, _) := demo_serve false (demo_request "GET" "/code" []) in
  codes out = [200] /\ length out = 1%nat /\ In (LPanic (str "invalid WriteHeader code")) l.
Proof. vm_compute. repeat split; auto. Qed.

Lemma csrf_blocks_witness :
  let r := demo_request "POST" "/ok" [(str "Sec-Fetch-Site", [str "cross-site"]); (str "Origin", [str "https://evil.example"])] in
  codes (demo_serve true r).1.1 = [403] /\
  demo_serve true r = serve demo_encode demo_envelope v_reason (fun _ => []) (with_routes (demo_app true demo_mux) [] (fun _ => None) (fun _ => (404, [], []))) (fun _ => str "id") (fun _ => false) (fun _ => None) r.
Proof.
  cbn zeta. split; [vm_compute; reflexivity|].
  refine (proj1 (csrf_blocks demo_encode demo_envelope v_reason (fun _ => []) (fun _ => str "id") (fun _ => false) (fun _ => None) (demo_app true demo_mux) _ [] (fun _ => None) (fun _ => (404, [], [])) _ _ _ _ _));
    try (vm_compute; reflexivity); try exact demo_watches.
Defined.

Lemma error_texts_unseen_witness :
  let wrapped := EErr ErrInternal (Some (EOther (str "*pq.Error") (str "duplicate key alice@example.com") [] false None false [])) in
  let other := EErr ErrInternal (Some (EOther (str "*pq.Error") (str "duplicate key bob@example.com") [] false None false [])) in
  (writeError demo_encode demo_envelope v_reason (fun _ => []) None (demo_request "GET" "/ok" []) wrapped blank).1 =
    (writeError demo_encode demo_envelope v_reason (fun _ => []) None (demo_request "GET" "/ok" []) other blank).1 /\
  log (writeError demo_encode demo_envelope v_reason (fun _ => []) None (demo_request "GET" "/ok" []) wrapped blank).1 =
    [LFailed 500 (str "InternalError") (str "InternalError: internal server error <- *pq.Error")].
Proof.
  cbn zeta. split; [|vm_compute; reflexivity].
  refine (f_equal fst (proj1 (proj2 (error_texts_unseen demo_encode demo_envelope v_reason (fun _ => []) (demo_app false demo_mux) None (demo_request "GET" "/ok" []) _ _ blank I)) _)). vm_compute. reflexivity.
Defined.
End demo.
