(* ===== verification/OauthFlow.v ===== *)
(** identity/oauth.go: an OAuth sign-in from its start through the provider's
    callback to the exchange of its code, and a link of one more provider.

    The flow is a transition system over the store of OauthSession.v: a step is
    what one request does between two calls out of the process.  The provider
    (BeginAuth, CompleteAuth), the accounts (resolve, link, the user of an
    exchange: Accounts.v), the random ids and the clock are inputs of the steps;
    HMAC and SHA-256 are parameters.  The log says what happened and in which
    browser. *)

From Stdlib Require Import ZArith Lia List Ascii.
From stdpp Require Import base decidable list gmap sorting strings.
From S2P Require Import Prelude GoStrings GoMaps OauthSession Redirect.

(** ** Providers *)

Record Capabilities := MkCapabilities {
  CallbackMethod : gostring; RequiresNonce : bool; SupportsPKCE : bool; RequiresFormPost : bool; RedirectURL : gostring; AssumesEmail : bool;
}.

(** A provider: its name, how its sign-in runs, and what its Check answers. *)
Record provider := MkProvider { p_name : gostring; p_caps : Capabilities; p_check : option Z }.

(** strings.EqualFold of ASCII. *)
Definition equal_fold (a b : gostring) : bool := seq_eqb (to_lower a) (to_lower b).

Definition callbackMethod (p : provider) : gostring :=
  if equal_fold (CallbackMethod (p_caps p)) (str "POST") || RequiresFormPost (p_caps p) then str "POST" else str "GET".

(** The routes that [mount] registers for the providers, in order; the callback
    may be posted from another site. *)
Definition mounted (names : list gostring) (providers : gmap gostring provider) : list (gostring * gostring) :=
  flat_map (fun n => match providers !! n with
                     | Some p => [(str "GET", str "/" ++ n ++ str "/start"); (callbackMethod p, str "/" ++ n ++ str "/callback")]
                     | None => []
                     end) names.

(** providerShape: a lower-case letter, then letters, digits, _ or -. *)
Inductive provider_error := PNilProvider (i : nat) | PShape (name : gostring) | PTwice (name : gostring) | PCheck (name : gostring) (e : Z) | PNoFrontend | PEntry (e : redirect_error).

Section new.
Context (providerShape : gostring -> bool) (url_parse : gostring -> option URL) (hostname : URL -> gostring).

Definition isLocalDevRedirect (raw : gostring) : bool :=
  match url_parse raw with
  | Some u => seq_eqb (Scheme u) (str "http") && existsb (seq_eqb (hostname u)) (map str ["localhost"; "127.0.0.1"; "::1"]%string)
  | None => false
  end.

(** The providers of a flow: by name, whether one assumes its addresses, and the
    development mode, which the first decides. *)
Record provider_set := MkSet { by_name : gmap gostring provider; names : list gostring; assumesEmail : bool; devMode : bool }.

Fixpoint add_providers (i : nat) (ps : list (option provider)) (acc : provider_set) : result provider_error provider_set :=
  match ps with
  | [] => Ok acc
  | None :: _ => Err (PNilProvider i)
  | Some p :: ps' =>
      if negb (providerShape (p_name p)) then Err (PShape (p_name p))
      else match by_name acc !! p_name p with
           | Some _ => Err (PTwice (p_name p))
           | None =>
               match p_check p with
               | Some e => Err (PCheck (p_name p) e)
               | None =>
                   add_providers (S i) ps'
                     (MkSet (<[p_name p := p]> (by_name acc)) (names acc ++ [p_name p]) (assumesEmail acc || AssumesEmail (p_caps p))
                        (if (i =? 0)%nat then isLocalDevRedirect (RedirectURL (p_caps p)) else devMode acc))
               end
           end
  end.

(** The carrier's secret, of hkdf, which does not fail at this length, and the
    log's lines apart. *)
Definition newOAuthFlow (frontend : gostring) (allowed : list gostring) (ps : list (option provider)) : result provider_error (provider_set * list allowedRedirect) :=
  if seq_eqb frontend [] then Err PNoFrontend
  else
    let? f := add_providers 0 ps (MkSet ∅ [] false false) in
    match parse_entries url_parse allowed with
    | Err e => Err (PEntry e)
    | Ok l => Ok (MkSet (by_name f) (merge_sort str_le (names f)) (assumesEmail f) (devMode f), l)
    end.
End new.

(** ** Cookies *)

Record cookie := MkCookie { ck_name : gostring; ck_value : gostring; MaxAge : Z; Secure : bool; SameSiteNone : bool }.

Definition sessionCookie : gostring := str "_chok_oauth_sid".
Definition bindingCookie : gostring := str "_chok_oauth_xchg".
Definition bindingMaxAge : Z := 60.
Definition memoryCapacity : Z := 10000.

(** [flowCookie]; HttpOnly and on / always. *)
Definition flowCookie (name value : gostring) (maxAge : Z) (dev : bool) : cookie := MkCookie name value maxAge (negb dev) (negb dev).

(** ** The flow *)

(** A browser, as the holder of cookies. *)
Notation browser := Z.

(** What the provider says of the signer, as far as the flow reads it. *)
Record external := MkExternal { x_provider : gostring; x_account : gostring }.

(** A start, with the user a link is for; a session taken, with the callback's
    provider and state; a link; a code; a token. *)
Inductive flow_event :=
| EBegun (b : browser) (sid : gostring) (sess : oauthSession) (principal : option gostring) (t : Z)
| ETaken (b : browser) (sid : gostring) (sess : oauthSession) (name state : gostring) (t : Z)
| ELinked (b : browser) (sid user : gostring) (x : external)
| ESigned (b : browser) (sid : gostring) (x : external) (user code binding back : gostring) (t : Z)
| EToken (b : browser) (code user back : gostring) (t : Z).

(** A request that waits for the provider. *)
Inductive pending_call := PBegin (b : browser) (sid : gostring) (link : bool) | PCallback (b : browser) (sid : gostring) (sess : oauthSession).

(** [ACallee] is an error of a call, written as it is. *)
Inductive flow_answer :=
| ARedirect (url : gostring) (set : list cookie)
| ALinkResponse (to : gostring) (set : list cookie)
| AExchangeResponse (token back : gostring) (set : list cookie)
| ABadRequest (why : gostring) (set : list cookie)
| AInvalid (why : gostring)
| AUnauthorized (why : gostring) | ADisabled | ALinkUnverified | ANotFound | AInternal
| ACallee (set : list cookie)
| AGone (why : gostring) (set : list cookie)
| AWaiting
| ANone.

(** The server and what happened: the cookies it gave each browser, the session
    ids and codes in use, and the log are for the statements alone. *)
Record flow := MkFlow {
  f_store : flow_store; pending : list pending_call;
  issued : list (browser * gostring); bindings : list (browser * gostring); used : list gostring; log : list flow_event;
}.

Definition set_store (st : flow_store) (s : flow) : flow := MkFlow st (pending s) (issued s) (bindings s) (used s) (log s).
Definition set_pending (l : list pending_call) (s : flow) : flow := MkFlow (f_store s) l (issued s) (bindings s) (used s) (log s).
Definition note (e : flow_event) (s : flow) : flow := MkFlow (f_store s) (pending s) (issued s) (bindings s) (used s) (log s ++ [e]).

(** The random ids of a start. *)
Record start_ids := MkIds { r_state : gostring; r_nonce : gostring; r_verifier : gostring; r_sid : gostring }.

(** What the user of an exchange is found as; [XActive None] is a token that
    cannot be issued. *)
Inductive exchange_user := XMissing | XFailed | XDisabled | XActive (token : option gostring).

Inductive step :=
| SBegin (b : browser) (name back : gostring) (now : Z) (r : start_ids)
| SLink (b : browser) (principal : option gostring) (user : option bool) (body : option (gostring * gostring)) (now : Z) (r : start_ids)
| SBegan (i : nat) (to : option gostring) (now : Z)
| SCallback (b : browser) (name : gostring) (sid_cookie : option gostring) (query_state : gostring) (form_state : option gostring) (now : Z)
| SCompleted (i : nat) (x : option external) (link : gostring -> external -> bool) (resolve : external -> option gostring) (now : Z) (binding code : gostring)
| SExchange (b : browser) (body : option gostring) (binding_cookie : option gostring) (now : Z) (user : gostring -> exchange_user)
| SSweep (now : Z).

Section flow.
Context (mac sha pkce : gostring -> gostring) (url_parse : gostring -> option URL).
Context (providers : gmap gostring provider) (allowed : list allowedRedirect) (frontend : gostring) (dev cookie_on cookie_only : bool) (token_cookie : gostring -> cookie).

Definition pkceChallenge (verifier : gostring) : gostring := if seq_eqb verifier [] then [] else pkce verifier.

(** [start], up to the call of BeginAuth. *)
Definition start (b : browser) (p : provider) (back : gostring) (principal : option gostring) (now : Z) (r : start_ids) (s : flow) : flow * flow_answer :=
  let sess := MkSession (r_state r) (if RequiresNonce (p_caps p) then r_nonce r else []) (if SupportsPKCE (p_caps p) then r_verifier r else [])
                back (p_name p) (default [] principal) now in
  (MkFlow (saveSession now (r_sid r) sess oauthSessionTTL (f_store s)) (pending s ++ [PBegin b (r_sid r) (bool_decide (is_Some principal))]) (issued s) (bindings s)
     (r_sid r :: used s) (log s ++ [EBegun b (r_sid r) sess principal now]), AWaiting).

(** And after it: [None] is its error. *)
Definition began (b : browser) (sid : gostring) (link : bool) (to : option gostring) (now : Z) (s : flow) : flow * flow_answer :=
  match to with
  | None => (set_store (takeSession now sid (f_store s)).1 s, AInternal)
  | Some to =>
      let ck := flowCookie sessionCookie (sign mac sid) (oauthSessionTTL / 1000000000) dev in
      (MkFlow (f_store s) (pending s) ((b, sid) :: issued s) (bindings s) (used s) (log s),
       if link then ALinkResponse to [ck] else ARedirect to [ck])
  end.

Definition handleBegin (b : browser) (name back : gostring) (now : Z) (r : start_ids) (s : flow) : flow * flow_answer :=
  match providers !! name with
  | None => (s, ANotFound)
  | Some p =>
      match validateRedirectBack url_parse allowed back with
      | Err _ => (s, ABadRequest (str "redirect_back not allowed") [])
      | Ok _ => start b p back None now r s
      end
  end.

Definition handleLink (b : browser) (principal : option gostring) (user : option bool) (body : option (gostring * gostring)) (now : Z) (r : start_ids) (s : flow) : flow * flow_answer :=
  match principal with
  | None => (s, AUnauthorized [])
  | Some rid =>
      match user with
      | None => (s, ANotFound)
      | Some false => (s, ALinkUnverified)
      | Some true =>
          match body with
          | None => (s, ABadRequest [] [])
          | Some (name, back) =>
              match providers !! name with
              | None => (s, ABadRequest (str "unknown provider") [])
              | Some p =>
                  match validateRedirectBack url_parse allowed back with
                  | Err _ => (s, ABadRequest (str "redirect_back not allowed") [])
                  | Ok _ => start b p back (Some rid) now r s
                  end
              end
          end
      end
  end.

(** What [cookieCarrier.read] sets: the session cookie, cleared. *)
Definition cleared : list cookie := [flowCookie sessionCookie [] (-1) dev].

(** [handleCallback], up to the call of CompleteAuth. *)
Definition handleCallback (b : browser) (name : gostring) (sid_cookie : option gostring) (query_state : gostring) (form_state : option gostring) (now : Z) (s : flow) : flow * flow_answer :=
  match providers !! name with
  | None => (s, ANotFound)
  | Some p =>
      match read mac sid_cookie with
      | Err _ => (s, ABadRequest (str "oauth session id missing or invalid") [])
      | Ok sid =>
          match takeSession now sid (f_store s) with
          | (st, Err _) => (set_store st s, AGone (str "oauth session expired") cleared)
          | (st, Ok sess) =>
              let s := set_store st s in
              if negb (seq_eqb (Provider sess) name) then (s, AGone (str "oauth session expired") cleared)
              else match (if RequiresFormPost (p_caps p) then form_state else Some query_state) with
                   | None => (s, ABadRequest (str "invalid form body") cleared)
                   | Some state =>
                       if negb (seq_eqb state (State sess)) then (s, ABadRequest (str "oauth state mismatch") cleared)
                       else (note (ETaken b sid sess name state now) (set_pending (pending s ++ [PCallback b sid sess]) s), AWaiting)
                   end
          end
      end
  end.

(** And after it: [x] is what CompleteAuth answers, [link] and [resolve] the
    calls that link an account and find or make one. *)
Definition completed (b : browser) (sid : gostring) (sess : oauthSession) (x : option external) (link : gostring -> external -> bool)
    (resolve : external -> option gostring) (now : Z) (binding code : gostring) (s : flow) : flow * flow_answer :=
  match x with
  | None => (s, ACallee cleared)
  | Some x =>
      let x := if seq_eqb (x_provider x) [] then MkExternal (Provider sess) (x_account x) else x in
      if negb (seq_eqb (LinkUserID sess) []) then
        if link (LinkUserID sess) x
        then (note (ELinked b sid (LinkUserID sess) x) s, ARedirect (linkedRedirect frontend (RedirectBack sess) (Provider sess)) cleared)
        else (s, ACallee cleared)
      else
        match resolve x with
        | None => (s, ACallee cleared)
        | Some user =>
            (MkFlow (saveCode now code (MkCode user (RedirectBack sess) (sha binding) 0) authCodeTTL (f_store s)) (pending s) (issued s)
               ((b, binding) :: bindings s) (code :: used s) (log s ++ [ESigned b sid x user code binding (RedirectBack sess) now]),
             ARedirect (withQuery frontend (str "code") code) (cleared ++ [flowCookie bindingCookie binding bindingMaxAge dev]))
        end
  end.

Definition handleExchange (b : browser) (body : option gostring) (binding_cookie : option gostring) (now : Z) (user : gostring -> exchange_user) (s : flow) : flow * flow_answer :=
  match body with
  | None => (s, ABadRequest [] [])
  | Some code =>
      if seq_eqb code [] then (s, AInvalid (str "code is required"))
      else
        match binding_cookie with
        | None | Some [] => (s, AUnauthorized (str "oauth exchange binding missing"))
        | Some ck =>
            match takeCode now code (f_store s) with
            | (st, Err _) => (set_store st s, AGone (str "oauth code expired or already used") [])
            | (st, Ok data) =>
                let s := set_store st s in
                if negb (seq_eqb (sha ck) (BindingHash data)) then (s, AUnauthorized (str "oauth exchange binding invalid"))
                else match user (OauthSession.UserID data) with
                     | XMissing => (s, AUnauthorized [])
                     | XFailed | XActive None => (s, ACallee [])
                     | XDisabled => (s, ADisabled)
                     | XActive (Some token) =>
                         (note (EToken b code (OauthSession.UserID data) (c_RedirectBack data) now) s,
                          AExchangeResponse (if cookie_on && cookie_only then [] else token) (c_RedirectBack data)
                            (flowCookie bindingCookie [] (-1) dev :: if cookie_on then [token_cookie token] else []))
                     end
            end
        end
  end.

Definition drop_nth {X} (i : nat) (l : list X) : list X := take i l ++ drop (S i) l.

Definition flow_step (x : step) (s : flow) : flow * flow_answer :=
  match x with
  | SBegin b name back now r => handleBegin b name back now r s
  | SLink b principal user body now r => handleLink b principal user body now r s
  | SBegan i to now =>
      match pending s !! i with
      | Some (PBegin b sid link) => began b sid link to now (set_pending (drop_nth i (pending s)) s)
      | _ => (s, ANone)
      end
  | SCallback b name ck query_state form_state now => handleCallback b name ck query_state form_state now s
  | SCompleted i x link resolve now binding code =>
      match pending s !! i with
      | Some (PCallback b sid sess) => completed b sid sess x link resolve now binding code (set_pending (drop_nth i (pending s)) s)
      | _ => (s, ANone)
      end
  | SExchange b body ck now user => handleExchange b body ck now user s
  | SSweep now => (set_store (sweep now (f_store s)) s, ANone)
  end.

(** ** Histories *)

(** What a step may be given: random ids are new, and a browser sends a session
    cookie that verifies only if the server gave it to this one, and a binding
    the server gave to a browser only if it gave it to this one (the cookies are
    HttpOnly, the one signed, the other of 128 random bits). *)
Definition honest (x : step) (s : flow) : Prop :=
  match x with
  | SBegin _ _ _ _ r | SLink _ _ _ _ _ r => r_sid r ∉ used s
  | SCompleted _ _ _ _ _ _ code => code ∉ used s
  | SCallback b _ (Some v) _ _ _ => forall sid, read mac (Some v) = Ok sid -> (b, sid) ∈ issued s
  | SExchange b _ (Some ck) _ _ => forall b', (b', ck) ∈ bindings s -> b' = b
  | _ => True
  end.

Inductive flow_reach : flow -> Prop :=
| flow_init : flow_reach (MkFlow (newMemoryStore memoryCapacity) [] [] [] [] [])
| flow_next s x : flow_reach s -> honest x s -> flow_reach (flow_step x s).1.
End flow.

(** ** Login methods *)

(** [loginMethods], of the user's password and links. *)
Record loginMethod := MkMethod { lm_type : gostring; IdentityID : gostring; lm_email : gostring }.

Definition loginMethods (has_password : bool) (email : gostring) (links : list (gostring * gostring * gostring)) : list loginMethod :=
  (if has_password then [MkMethod (str "password") [] email] else []) ++ map (fun l => MkMethod l.1.1 l.1.2 l.2) links.

(** [missingFor], of what a provider's identity holds. *)
Definition missingFor (email : gostring) (verified aliased assumed : bool) : gostring :=
  if seq_eqb email [] then str "email"
  else if negb verified then str "verified"
  else if aliased then str "non_aliased"
  else if assumed then str "verified"
  else [].

Fixpoint firstNonEmpty (values : list gostring) : gostring :=
  match values with
  | [] => []
  | v :: values' => if seq_eqb v [] then firstNonEmpty values' else v
  end.
