(* ===== verification/OauthFlowSpec.v ===== *)
(** What the flow of OauthFlow.v promises: a token is only given to the browser
    that started the sign-in, came back from the provider with its state, and
    holds the binding; each once, and in time. *)

From Stdlib Require Import ZArith Lia List Ascii.
From stdpp Require Import base decidable list gmap sorting strings.
From S2P Require Import Prelude GoStrings GoMaps OauthSession Redirect OauthFlow.

(** ** The log *)

Definition begun_sid (e : flow_event) : option gostring := match e with EBegun _ sid _ _ _ => Some sid | _ => None end.
Definition taken_sid (e : flow_event) : option gostring := match e with ETaken _ sid _ _ _ _ => Some sid | _ => None end.
(** A callback ends in a link or a code. *)
Definition ended_sid (e : flow_event) : option gostring := match e with ELinked _ sid _ _ | ESigned _ sid _ _ _ _ _ _ => Some sid | _ => None end.
Definition signed_code (e : flow_event) : option gostring := match e with ESigned _ _ _ _ code _ _ _ => Some code | _ => None end.
Definition token_code (e : flow_event) : option gostring := match e with EToken _ code _ _ _ => Some code | _ => None end.
Definition callback_sid (p : pending_call) : option gostring := match p with PCallback _ sid _ => Some sid | _ => None end.

Lemma omap_snoc {A B} (f : A -> option B) (l : list A) x : omap f (l ++ [x]) = omap f l ++ match f x with Some y => [y] | None => [] end.
Proof. rewrite omap_app. cbn. by destruct (f x). Qed.

Lemma elem_snoc {A} (l : list A) e x : x ∈ l ++ [e] <-> x ∈ l \/ x = e.
Proof. by rewrite elem_of_app, list_elem_of_singleton. Qed.

Lemma elem_omap {A B} (f : A -> option B) (l : list A) x y : x ∈ l -> f x = Some y -> y ∈ omap f l.
Proof. intros. apply list_elem_of_omap. eauto. Qed.

Lemma nodup_omap {A B} (f : A -> option B) (l : list A) x y z : NoDup (omap f l) -> x ∈ l -> y ∈ l -> f x = Some z -> f y = Some z -> x = y.
Proof.
  intros N Hx Hy Fx Fy. induction l as [|a l IH]; [by apply elem_of_nil in Hx|]. cbn in N. apply elem_of_cons in Hx, Hy.
  assert (T : forall w, w ∈ l -> f w = Some z -> f a = Some z -> False).
  { intros w Hw Fw Fa. rewrite Fa in N. apply NoDup_cons in N as [N _]. by apply N, (elem_omap f l w). }
  destruct Hx as [->|Hx], Hy as [->|Hy]; [done|by destruct (T y)|by destruct (T x)|]. apply IH; [|done..].
  destruct (f a); [by apply NoDup_cons in N as [_ N]|done].
Qed.

Lemma drop_nth_perm {X} i (l : list X) x : l !! i = Some x -> l ≡ₚ x :: drop_nth i l.
Proof.
  intros E. unfold drop_nth. rewrite <- (take_drop_middle l i x E) at 1. by rewrite Permutation_middle.
Qed.

Lemma session_key_inj x y : session_key x = session_key y -> x = y.
Proof. apply app_inv_head. Qed.
Lemma code_key_inj x y : code_key x = code_key y -> x = y.
Proof. apply app_inv_head. Qed.

Section spec.
Context (mac sha : gostring -> gostring) (url_parse : gostring -> option URL).
Context (providers : gmap gostring provider) (allowed : list allowedRedirect) (frontend : gostring) (dev cookie_on cookie_only : bool) (token_cookie : gostring -> cookie).

(** What an entry of the store is of. *)
Definition entry_ok (l : list flow_event) (k : gostring) (e : memoryEntry) : Prop :=
  match value e with
  | VSession sess => exists b sid p t, k = session_key sid /\ EBegun b sid sess p t ∈ l /\ expiresAt e = t + oauthSessionTTL /\ sid ∉ omap taken_sid l
  | VCode c => exists b sid x code binding t, k = code_key code /\ ESigned b sid x (UserID c) code binding (c_RedirectBack c) t ∈ l
      /\ BindingHash c = sha binding /\ expiresAt e = t + authCodeTTL /\ code ∉ omap token_code l
  end.

(** What an event of the log follows from. *)
Definition event_ok (l : list flow_event) (e : flow_event) : Prop :=
  match e with
  | EBegun _ _ sess p _ => LinkUserID sess = default [] p /\ validateRedirectBack url_parse allowed (RedirectBack sess) = Ok tt
  | ETaken b sid sess name state t => name = Provider sess /\ state = State sess /\ exists p t0, EBegun b sid sess p t0 ∈ l /\ t <= t0 + oauthSessionTTL
  | ELinked b sid user x => user <> [] /\ exists sess t, ETaken b sid sess (Provider sess) (State sess) t ∈ l /\ LinkUserID sess = user
  | ESigned b sid x _ _ _ back _ => exists sess t, ETaken b sid sess (Provider sess) (State sess) t ∈ l /\ LinkUserID sess = [] /\ RedirectBack sess = back
  | EToken b code user back t => exists sid x binding t0, ESigned b sid x user code binding back t0 ∈ l /\ t <= t0 + authCodeTTL
  end.

Definition begun_by (l : list flow_event) (b : browser) (sid : gostring) : Prop := exists sess p t, EBegun b sid sess p t ∈ l.
Definition taken_as (l : list flow_event) (b : browser) (sid : gostring) (sess : oauthSession) : Prop :=
  exists t, ETaken b sid sess (Provider sess) (State sess) t ∈ l.

Lemma begun_snoc l e b sid : begun_by l b sid -> begun_by (l ++ [e]) b sid.
Proof. intros (x & p & t & H). exists x, p, t. apply elem_snoc. by left. Qed.
Lemma taken_snoc l e b sid sess : taken_as l b sid sess -> taken_as (l ++ [e]) b sid sess.
Proof. intros (t & H). exists t. apply elem_snoc. by left. Qed.

Record flow_ok (s : flow) : Prop := {
  fo_entry : forall k e, entries (f_store s) !! k = Some e -> entry_ok (log s) k e;
  fo_event : forall e, e ∈ log s -> event_ok (log s) e;
  fo_waits : forall b sid sess, PCallback b sid sess ∈ pending s -> taken_as (log s) b sid sess;
  fo_asks : forall b sid link, PBegin b sid link ∈ pending s -> begun_by (log s) b sid;
  fo_issued : forall b sid, (b, sid) ∈ issued s -> begun_by (log s) b sid;
  fo_bound : forall b sid x user code binding back t, ESigned b sid x user code binding back t ∈ log s -> (b, binding) ∈ bindings s;
  fo_used : forall e, e ∈ log s -> forall id, begun_sid e = Some id \/ signed_code e = Some id -> id ∈ used s;
  fo_begun : NoDup (omap begun_sid (log s));
  fo_taken : NoDup (omap taken_sid (log s));
  fo_ended : NoDup (omap callback_sid (pending s) ++ omap ended_sid (log s));
  fo_ends : forall sid, sid ∈ omap callback_sid (pending s) ++ omap ended_sid (log s) -> sid ∈ omap taken_sid (log s);
  fo_tokens : NoDup (omap token_code (log s));
}.

(** ** Keeping the invariant *)

Lemma event_ok_mono l l' e : l ⊆ l' -> event_ok l e -> event_ok l' e.
Proof. intros S. destruct e; cbn; naive_solver. Qed.

Lemma event_snoc l e e' : (forall x, x ∈ l -> event_ok l x) -> event_ok l e -> e' ∈ l ++ [e] -> event_ok (l ++ [e]) e'.
Proof.
  intros Ev He [H| ->]%elem_snoc; (eapply event_ok_mono; [|by eauto]); intros x Hx; apply elem_of_app; by left.
Qed.

Lemma entry_mono l e k v :
  entry_ok l k v -> (forall sid, taken_sid e = Some sid -> k <> session_key sid) -> (forall code, token_code e = Some code -> k <> code_key code) -> entry_ok (l ++ [e]) k v.
Proof.
  unfold entry_ok. destruct (value v) as [sess|c].
  - intros (b & sid & p & t & -> & H & X & F) Ht _. exists b, sid, p, t. rewrite elem_of_app, omap_snoc. split_and!; [done|by left|done|].
    destruct (taken_sid e) as [y|]; [|by rewrite app_nil_r]. intros [?| ->]%elem_snoc; [done|]. by destruct (Ht y).
  - intros (b & sid & x & code & bd & t & -> & H & B & X & F) _ Hc. exists b, sid, x, code, bd, t. rewrite elem_of_app, omap_snoc.
    split_and!; [done|by left|done|done|]. destruct (token_code e) as [y|]; [|by rewrite app_nil_r].
    intros [?| ->]%elem_snoc; [done|]. by destruct (Hc y).
Qed.

Lemma ok_store s st : entries st ⊆ entries (f_store s) -> flow_ok s -> flow_ok (set_store st s).
Proof. intros S []. constructor; cbn; try done. intros k e E. eapply fo_entry0, lookup_weaken; eauto. Qed.

Lemma ok_drop s i p : pending s !! i = Some p -> flow_ok s -> flow_ok (set_pending (drop_nth i (pending s)) s).
Proof.
  intros E []. pose proof (drop_nth_perm i _ _ E) as P.
  assert (Sub : forall q, q ∈ drop_nth i (pending s) -> q ∈ pending s) by (intros q H; rewrite P; by apply elem_of_cons; right).
  assert (Pe : omap callback_sid (pending s) ++ omap ended_sid (log s) ≡ₚ
               (match callback_sid p with Some x => [x] | None => [] end) ++ omap callback_sid (drop_nth i (pending s)) ++ omap ended_sid (log s)).
  { rewrite P at 1. cbn. by destruct (callback_sid p). }
  constructor; cbn; try done; [by eauto..| |].
  - rewrite Pe in fo_ended0. by apply NoDup_app in fo_ended0 as (_ & _ & ?).
  - intros sid H. apply fo_ends0. rewrite Pe. apply elem_of_app. by right.
Qed.

Lemma put_entry now k v ttl (st : flow_store) k' e : entries (put now k v ttl st) !! k' = Some e ->
  (k' = k /\ e = MemoryEntry v (now + ttl)) \/ (k' <> k /\ entries st !! k' = Some e).
Proof.
  unfold put. destruct (entries st !! k); cbn; intros [[<- <-]|[N E]]%lookup_insert_Some; [by left|by right|by left|].
  right. split; [done|]. eapply lookup_weaken; [exact E|apply evict_sub].
Qed.

Lemma take_entry now k (st st' : flow_store) r : take_ now k st = (st', r) ->
  entries st' ⊆ entries st /\ forall v, r = Some v -> exists x, entries st !! k = Some (MemoryEntry v x) /\ now <= x /\ entries st' !! k = None.
Proof.
  unfold take_. destruct (entries st !! k) as [[v x]|] eqn:E; intros [= <- <-]; [|done]. split; [apply delete_subseteq|]. cbn.
  intros v' H. destruct (Z.ltb_spec x now); [done|]. injection H as <-. exists x. by rewrite lookup_delete_eq.
Qed.

Lemma sweep_entry now (st : flow_store) : entries (sweep now st) ⊆ entries st.
Proof. eapply shrinks_sub, sweep_shrinks. Qed.

(** ** The steps *)

(** The common part of a step that adds an event. *)
Lemma taken_begun s sid : flow_ok s -> sid ∈ omap taken_sid (log s) -> exists b sess p t, EBegun b sid sess p t ∈ log s.
Proof.
  intros F ([] & H & [= <-])%list_elem_of_omap. apply (fo_event s F) in H as (_ & _ & p & t0 & H & _). eauto 6.
Qed.

Lemma begun_used s b sid sess p t : flow_ok s -> EBegun b sid sess p t ∈ log s -> sid ∈ used s.
Proof. intros F H. eapply (fo_used s F); [exact H|by left]. Qed.

Lemma token_used s code : flow_ok s -> code ∈ omap token_code (log s) -> code ∈ used s.
Proof.
  intros F ([] & H & [= <-])%list_elem_of_omap. apply (fo_event s F) in H as (sid & x & bd & t0 & H & _).
  eapply (fo_used s F); [exact H|by right].
Qed.

Lemma ok_begin b sid sess p now link s :
  sid ∉ used s -> LinkUserID sess = default [] p -> validateRedirectBack url_parse allowed (RedirectBack sess) = Ok tt -> flow_ok s ->
  flow_ok (MkFlow (saveSession now sid sess oauthSessionTTL (f_store s)) (pending s ++ [PBegin b sid link]) (issued s) (bindings s)
     (sid :: used s) (log s ++ [EBegun b sid sess p now])).
Proof.
  intros U L V F. pose proof F as F0. destruct F. constructor; cbn.
  - intros k e [[-> ->]|[N E]]%put_entry.
    + exists b, sid, p, now. rewrite elem_snoc, omap_snoc, app_nil_r. split_and!; [done|by right|done|].
      intros H. apply taken_begun in H as (b' & sess' & p' & t' & H); [|done]. by eapply U, begun_used.
    + apply entry_mono; [by apply fo_entry0|done..].
  - intros e He. eapply event_snoc; [done| |done]. done.
  - intros b' sid' sess' [H|H]%elem_snoc; [|done]. eauto using taken_snoc.
  - intros b' sid' link' [H|[= -> -> ->]]%elem_snoc.
    + eauto using begun_snoc.
    + exists sess, p, now. apply elem_snoc. by right.
  - eauto using begun_snoc.
  - intros b' sid' x user code bd back t [H|H]%elem_snoc; [by eauto|done].
  - intros e [H| ->]%elem_snoc id Hid; apply elem_of_cons; [right; by eauto|]. left. by destruct Hid as [[= <-]|].
  - rewrite omap_snoc. cbn. apply NoDup_app. split_and!; [done| |by apply NoDup_singleton].
    intros y Hy ->%list_elem_of_singleton. apply U. apply list_elem_of_omap in Hy as (e & He & E). eapply fo_used0; [exact He|by left].
  - by rewrite omap_snoc, app_nil_r.
  - by rewrite !omap_snoc, !app_nil_r.
  - intros sid'. rewrite !omap_snoc, !app_nil_r. by auto.
  - by rewrite omap_snoc, app_nil_r.
Qed.

Lemma ok_issue b sid s : begun_by (log s) b sid -> flow_ok s ->
  flow_ok (MkFlow (f_store s) (pending s) ((b, sid) :: issued s) (bindings s) (used s) (log s)).
Proof. intros H []. constructor; cbn; try done. intros b' sid' [[= -> ->]|H']%elem_of_cons; eauto. Qed.

(** A session taken: [st] is the store without it. *)
Lemma ok_taken b b0 sid sess p t0 now st s :
  entries st ⊆ entries (f_store s) -> entries st !! session_key sid = None ->
  EBegun b0 sid sess p t0 ∈ log s -> now <= t0 + oauthSessionTTL -> sid ∉ omap taken_sid (log s) -> (b, sid) ∈ issued s -> flow_ok s ->
  flow_ok (note (ETaken b sid sess (Provider sess) (State sess) now) (set_pending (pending s ++ [PCallback b sid sess]) (set_store st s))).
Proof.
  intros Sub Gone Bg Le Un Is F. pose proof F as F0. destruct F.
  assert (b0 = b) as ->.
  { destruct (fo_issued0 _ _ Is) as (sess' & p' & t' & H). by pose proof (nodup_omap begun_sid _ _ _ sid fo_begun0 Bg H eq_refl eq_refl) as [= -> _]. }
  assert (En : sid ∉ omap callback_sid (pending s) ++ omap ended_sid (log s)) by (intros H; by apply Un, fo_ends0).
  constructor; cbn.
  - intros k e E. apply entry_mono; [|intros sid' [= <-] ->; congruence|done]. eapply fo_entry0, lookup_weaken; eauto.
  - intros e He. eapply event_snoc; [done| |done]. cbn. eauto 6.
  - intros b' sid' sess' [H|[= -> -> ->]]%elem_snoc; [by eauto using taken_snoc|]. exists now. apply elem_snoc. by right.
  - intros b' sid' link' [H|H]%elem_snoc; [|done]. eauto using begun_snoc.
  - eauto using begun_snoc.
  - intros b' sid' x user code bd back t [H|H]%elem_snoc; [by eauto|done].
  - intros e [H| ->]%elem_snoc id Hid; [by eauto|]. by destruct Hid.
  - by rewrite omap_snoc, app_nil_r.
  - rewrite omap_snoc. apply NoDup_app. split_and!; [done| |by apply NoDup_singleton]. by intros y Hy ->%list_elem_of_singleton.
  - rewrite !omap_snoc, app_nil_r. cbn. rewrite <- app_assoc, (Permutation_app_comm [sid]), app_assoc. apply NoDup_app.
    split_and!; [done| |by apply NoDup_singleton]. by intros y Hy ->%list_elem_of_singleton.
  - intros sid'. rewrite !omap_snoc, app_nil_r. cbn. rewrite !elem_of_app.
    intros [[H|H]|H]; [left|by right|left]; apply fo_ends0, elem_of_app; auto.
  - by rewrite omap_snoc, app_nil_r.
Qed.

(** A callback that ends: it is not waiting any more. *)
Lemma ok_linked b sid user x s :
  (exists sess t, ETaken b sid sess (Provider sess) (State sess) t ∈ log s /\ LinkUserID sess = user) -> user <> [] ->
  sid ∉ omap callback_sid (pending s) ++ omap ended_sid (log s) -> sid ∈ omap taken_sid (log s) -> flow_ok s ->
  flow_ok (note (ELinked b sid user x) s).
Proof.
  intros Tk Ne Un Ta F. destruct F. constructor; cbn.
  - intros k e E. apply entry_mono; [by apply fo_entry0|done..].
  - intros e He. eapply event_snoc; [done| |done]. done.
  - eauto using taken_snoc.
  - eauto using begun_snoc.
  - eauto using begun_snoc.
  - intros b' sid' y u code bd back t [H|H]%elem_snoc; [by eauto|done].
  - intros e [H| ->]%elem_snoc id Hid; [by eauto|]. by destruct Hid.
  - by rewrite omap_snoc, app_nil_r.
  - by rewrite omap_snoc, app_nil_r.
  - rewrite omap_snoc, app_assoc. cbn. apply NoDup_app. split_and!; [done| |by apply NoDup_singleton]. by intros y Hy ->%list_elem_of_singleton.
  - intros sid'. rewrite !omap_snoc, app_nil_r, app_assoc. intros [H| ->]%elem_snoc; [by apply fo_ends0|done].
  - by rewrite omap_snoc, app_nil_r.
Qed.

Lemma ok_code b sid sess x user code binding now s :
  taken_as (log s) b sid sess -> LinkUserID sess = [] -> code ∉ used s ->
  sid ∉ omap callback_sid (pending s) ++ omap ended_sid (log s) -> sid ∈ omap taken_sid (log s) -> flow_ok s ->
  flow_ok (MkFlow (saveCode now code (MkCode user (RedirectBack sess) (sha binding) 0) authCodeTTL (f_store s)) (pending s) (issued s)
             ((b, binding) :: bindings s) (code :: used s) (log s ++ [ESigned b sid x user code binding (RedirectBack sess) now])).
Proof.
  intros (t1 & Tk) L Un Ue Ta F. pose proof F as F0. destruct F. constructor; cbn.
  - intros k e [[-> ->]|[N E]]%put_entry.
    + exists b, sid, x, code, binding, now. cbn. rewrite elem_snoc, omap_snoc, app_nil_r. split_and!; [done|by right|done..|].
      intros H. by apply Un, token_used.
    + apply entry_mono; [by apply fo_entry0|done..].
  - intros e He. eapply event_snoc; [done| |done]. cbn. eauto 6.
  - eauto using taken_snoc.
  - eauto using begun_snoc.
  - eauto using begun_snoc.
  - intros b' sid' y u code' bd back t [H|H]%elem_snoc; apply elem_of_cons; [right; by eauto|left]. congruence.
  - intros e [H| ->]%elem_snoc id Hid; apply elem_of_cons; [right; by eauto|]. left. by destruct Hid as [|[= <-]].
  - by rewrite omap_snoc, app_nil_r.
  - by rewrite omap_snoc, app_nil_r.
  - rewrite omap_snoc, app_assoc. cbn. apply NoDup_app. split_and!; [done| |by apply NoDup_singleton]. by intros y Hy ->%list_elem_of_singleton.
  - intros sid'. rewrite !omap_snoc, app_nil_r, app_assoc. intros [H| ->]%elem_snoc; [by apply fo_ends0|done].
  - by rewrite omap_snoc, app_nil_r.
Qed.

Lemma ok_token b sid x user code binding back t0 now st s :
  entries st ⊆ entries (f_store s) -> entries st !! code_key code = None ->
  ESigned b sid x user code binding back t0 ∈ log s -> now <= t0 + authCodeTTL -> code ∉ omap token_code (log s) -> flow_ok s ->
  flow_ok (note (EToken b code user back now) (set_store st s)).
Proof.
  intros Sub Gone Sg Le Un F. destruct F. constructor; cbn.
  - intros k e E. apply entry_mono; [|done|intros code' [= <-] ->; congruence]. eapply fo_entry0, lookup_weaken; eauto.
  - intros e He. eapply event_snoc; [done| |done]. cbn. eauto 8.
  - eauto using taken_snoc.
  - eauto using begun_snoc.
  - eauto using begun_snoc.
  - intros b' sid' y u code' bd back' t [H|H]%elem_snoc; [by eauto|done].
  - intros e [H| ->]%elem_snoc id Hid; [by eauto|]. by destruct Hid.
  - by rewrite omap_snoc, app_nil_r.
  - by rewrite omap_snoc, app_nil_r.
  - by rewrite omap_snoc, app_nil_r.
  - intros sid'. rewrite !omap_snoc, !app_nil_r. by auto.
  - rewrite omap_snoc. apply NoDup_app. split_and!; [done| |by apply NoDup_singleton]. by intros y Hy ->%list_elem_of_singleton.
Qed.

(** A call that waited goes on: a callback's sid is in nothing else. *)
Lemma went_on s i b sid sess : pending s !! i = Some (PCallback b sid sess) -> flow_ok s ->
  taken_as (log s) b sid sess /\ sid ∈ omap taken_sid (log s) /\ sid ∉ omap callback_sid (drop_nth i (pending s)) ++ omap ended_sid (log s).
Proof.
  intros E F. pose proof (list_elem_of_lookup_2 _ _ _ E) as I. pose proof (drop_nth_perm i _ _ E) as P. split_and!.
  - by apply (fo_waits s F).
  - apply (fo_ends s F), elem_of_app. left. by eapply elem_omap; [exact I|].
  - pose proof (fo_ended s F) as N. rewrite P in N. cbn in N. by apply NoDup_cons in N as [N _].
Qed.

Lemma oauth_begin_ok b p back principal now r s : r_sid r ∉ used s -> validateRedirectBack url_parse allowed back = Ok tt -> flow_ok s ->
  flow_ok (start b p back principal now r s).1.
Proof. intros U V F. by apply ok_begin. Qed.

Lemma callback_ok b name ck qs fs now s : honest mac (SCallback b name ck qs fs now) s -> flow_ok s -> flow_ok (handleCallback mac providers dev b name ck qs fs now s).1.
Proof.
  intros H F. unfold handleCallback. destruct (providers !! name) as [p|]; [|done].
  destruct (read mac ck) as [sid|] eqn:R; [|done]. destruct (takeSession now sid (f_store s)) as [st r] eqn:T. unfold takeSession in T.
  destruct (take_ now (session_key sid) (f_store s)) as [st' v] eqn:Tk. injection T as <- Er. apply take_entry in Tk as [Sub Tk].
  pose proof (ok_store s st' Sub F) as F'. destruct r as [sess|]; [|done]. destruct v as [[sess'|]|]; simplify_eq.
  destruct (Tk _ eq_refl) as (x & E & Le & Gone).
  destruct (seq_eqb (Provider sess) name) eqn:Ep; [|done]. cbn -[entries]. apply bool_decide_eq_true in Ep as <-.
  case_match; [|done]. destruct (seq_eqb _ (State sess)) eqn:Es; [|done]. cbn -[entries]. apply bool_decide_eq_true in Es as ->.
  destruct (fo_entry s F _ _ E) as (b0 & sid' & pr & t0 & K & Bg & X & Un). apply session_key_inj in K as <-. cbn in X. subst x.
  destruct ck as [ck|]; [|done]. by eapply ok_taken; eauto.
Qed.

Lemma completed_ok i b sid sess x link resolve now binding code s :
  pending s !! i = Some (PCallback b sid sess) -> code ∉ used s -> flow_ok s ->
  flow_ok (completed sha frontend dev b sid sess x link resolve now binding code (set_pending (drop_nth i (pending s)) s)).1.
Proof.
  intros E U F. destruct (went_on _ _ _ _ _ E F) as (Tk & Ta & Un). pose proof (ok_drop s i _ E F) as F'. unfold completed.
  destruct x as [x|]; [|done]. cbn zeta. set (y := if seq_eqb _ _ then _ else _). destruct (seq_eqb (LinkUserID sess) []) eqn:L; cbn [negb].
  - apply bool_decide_eq_true in L. destruct (resolve y); [|done]. by apply ok_code.
  - apply bool_decide_eq_false in L. destruct (link _ _); [|done]. apply ok_linked; [|done..]. destruct Tk as [t Tk]. by exists sess, t.
Qed.

Lemma exchange_ok (Hsha : forall x y, sha x = sha y -> x = y) b body ck now user s :
  honest mac (SExchange b body ck now user) s -> flow_ok s -> flow_ok (handleExchange sha dev cookie_on cookie_only token_cookie b body ck now user s).1.
Proof.
  intros H F. unfold handleExchange. destruct body as [code|]; [|done]. destruct (seq_eqb code []); [done|].
  destruct ck as [[|c0 ck]|]; [done| |done]. destruct (takeCode now code (f_store s)) as [st r] eqn:T. unfold takeCode in T.
  destruct (take_ now (code_key code) (f_store s)) as [st' v] eqn:Tk. injection T as <- Er. apply take_entry in Tk as [Sub Tk].
  pose proof (ok_store s st' Sub F) as F'. destruct r as [data|]; [|done]. destruct v as [[|data']|]; simplify_eq.
  destruct (Tk _ eq_refl) as (x & E & Le & Gone). destruct (seq_eqb (sha _) _) eqn:Eb; [|done]. cbn -[entries]. apply bool_decide_eq_true in Eb.
  destruct (user _) as [| | |[token|]]; [done..| |done].
  destruct (fo_entry s F _ _ E) as (b0 & sid & ext & code' & bd & t0 & K & Sg & B & X & Un). cbn in *. apply code_key_inj in K as <-. subst x.
  rewrite B in Eb. apply Hsha in Eb as <-. assert (b0 = b) as -> by (eapply H, (fo_bound s F), Sg). by eapply ok_token.
Qed.

Lemma flow_step_ok (Hsha : forall x y, sha x = sha y -> x = y) x s : honest mac x s -> flow_ok s ->
  flow_ok (flow_step mac sha url_parse providers allowed frontend dev cookie_on cookie_only token_cookie x s).1.
Proof.
  intros H F. destruct x as [b name back now r|b pr user body now r|i to now|b name ck qs fs now|i x link resolve now binding code|b body ck now user|now]; cbn [flow_step].
  - unfold handleBegin. destruct (providers !! name); [|done]. destruct (validateRedirectBack _ _ _) as [[]|] eqn:V; [|done]. by apply oauth_begin_ok.
  - unfold handleLink. destruct pr; [|done]. destruct user as [[]|]; [|done..]. destruct body as [[name back]|]; [|done].
    destruct (providers !! name); [|done]. destruct (validateRedirectBack _ _ _) as [[]|] eqn:V; [|done]. by apply oauth_begin_ok.
  - destruct (pending s !! i) as [[b sid link|]|] eqn:E; [|done..]. pose proof (ok_drop s i _ E F) as F'. unfold began. destruct to as [to|].
    + apply ok_issue; [|done]. eapply (fo_asks s F), list_elem_of_lookup_2, E.
    + cbn. unfold takeSession. destruct (take_ now (session_key sid) _) as [st v] eqn:T. apply take_entry in T as [Sub _]. by apply ok_store.
  - by apply callback_ok.
  - destruct (pending s !! i) as [[|b sid sess]|] eqn:E; [done| |done]. by apply completed_ok.
  - by eapply exchange_ok.
  - apply ok_store; [apply sweep_entry|done].
Qed.

Notation reachable := (flow_reach mac sha url_parse providers allowed frontend dev cookie_on cookie_only token_cookie).

Lemma oauth_reach_ok (Hsha : forall x y, sha x = sha y -> x = y) s : reachable s -> flow_ok s.
Proof.
  induction 1 as [|s x R IH H]; [|by apply flow_step_ok]. constructor; cbn; try constructor; intros *; rewrite ?lookup_empty, ?elem_of_nil; done.
Qed.

(** [C9] A sign-in cannot be handed to another browser.  Whatever the requests
    and in whatever order, a token went out only to the browser that began the
    sign-in, whose callback came for the same provider with the state it was
    given, within the session's five minutes and the code's five seconds; it is
    of the user that callback resolved, and the page to return to passed the
    allow-list at the start.  A link went only to the user who was signed in when
    that browser began it, and never became a sign-in.  Each session ends in at
    most one code or link, and each code in at most one token. *)
Theorem oauth_bound (Hsha : forall x y, sha x = sha y -> x = y) (s : flow) : reachable s ->
  (forall b code user back t, EToken b code user back t ∈ log s -> exists sid x binding t2 sess t1 pr t0,
     ESigned b sid x user code binding back t2 ∈ log s /\ ETaken b sid sess (Provider sess) (State sess) t1 ∈ log s /\ EBegun b sid sess pr t0 ∈ log s
     /\ default [] pr = [] /\ RedirectBack sess = back /\ validateRedirectBack url_parse allowed back = Ok tt
     /\ t1 <= t0 + oauthSessionTTL /\ t <= t2 + authCodeTTL)
  /\ (forall b sid user x, ELinked b sid user x ∈ log s -> exists sess t1 t0,
     ETaken b sid sess (Provider sess) (State sess) t1 ∈ log s /\ EBegun b sid sess (Some user) t0 ∈ log s /\ t1 <= t0 + oauthSessionTTL)
  /\ (forall b sid sess name state t, ETaken b sid sess name state t ∈ log s -> name = Provider sess /\ state = State sess)
  /\ NoDup (omap taken_sid (log s)) /\ NoDup (omap ended_sid (log s)) /\ NoDup (omap token_code (log s)).
Proof.
  intros F%(oauth_reach_ok Hsha). pose proof (fo_event s F) as Ev. split_and!.
  - intros b code user back t (sid & x & bd & t2 & Sg & Le)%Ev. pose proof Sg as (sess & t1 & Tk & L & Bk)%Ev.
    pose proof Tk as (_ & _ & pr & t0 & Bg & Le1)%Ev. pose proof Bg as (L' & V)%Ev. rewrite L in L'. subst back.
    by exists sid, x, bd, t2, sess, t1, pr, t0.
  - intros b sid user x (Ne & sess & t1 & Tk & L)%Ev. pose proof Tk as (_ & _ & pr & t0 & Bg & Le1)%Ev. pose proof Bg as (L' & _)%Ev.
    destruct pr as [u|]; cbn in L'; [|by rewrite <- L, L' in Ne]. rewrite L in L'. subst u. by exists sess, t1, t0.
  - intros b sid sess name state t (-> & -> & _)%Ev. done.
  - apply F.
  - pose proof (fo_ended s F) as N. by apply NoDup_app in N as (_ & _ & N).
  - apply F.
Qed.
End spec.

Definition demo_providers : gmap gostring provider :=
  {[str "github" := MkProvider (str "github") (MkCapabilities [] false true false (str "https://app/cb") false) None]}.

Definition demo_flow : step -> flow -> flow * flow_answer :=
  flow_step (fun _ => str "m") id (fun _ => None) demo_providers [] (str "https://app/in") false false false (fun t => MkCookie (str "t") t 0 true false).

(** Two browsers begin; the second comes back with the first's code. *)
Definition demo_steps : list step :=
  [SBegin 1 (str "github") (str "/home") 0 (MkIds (str "s1") (str "n1") (str "v1") (str "id1"));
   SBegin 2 (str "github") [] 1 (MkIds (str "s2") (str "n2") (str "v2") (str "id2"));
   SBegan 0 (Some (str "https://github")) 2; SBegan 0 (Some (str "https://github")) 3;
   SCallback 1 (str "github") (Some (str "id1.m")) (str "s1") None 4;
   SCompleted 0 (Some (MkExternal [] (str "octo"))) (fun _ _ => true) (fun _ => Some (str "usr_1")) 5 (str "bind1") (str "code1");
   SExchange 1 (Some (str "code1")) (Some (str "bind1")) 6 (fun _ => XActive (Some (str "jwt")));
   SExchange 1 (Some (str "code1")) (Some (str "bind1")) 7 (fun _ => XActive (Some (str "jwt")))].

Definition demo_end (steps : list step) : flow := fold_left (fun s x => (demo_flow x s).1) steps (MkFlow (newMemoryStore memoryCapacity) [] [] [] [] []).

Lemma demo_reach : flow_reach (fun _ => str "m") id (fun _ => None) demo_providers [] (str "https://app/in") false false false (fun t => MkCookie (str "t") t 0 true false)
  (demo_end demo_steps).
Proof.
  unfold demo_end, demo_steps. cbn [fold_left]. repeat apply flow_next; [apply flow_init|..]; cbn [honest]; try exact I.
  1-2: vm_compute; set_solver.
  - intros sid H. vm_compute in H. injection H as <-. vm_compute. set_solver.
  - vm_compute. set_solver.
  - intros b' H. vm_compute in H. set_solver.
  - intros b' H. vm_compute in H. set_solver.
Qed.

Lemma oauth_bound_witness : exists sid x binding t2 sess t1 pr t0,
  ESigned 1 sid x (str "usr_1") (str "code1") binding (str "/home") t2 ∈ log (demo_end demo_steps)
  /\ ETaken 1 sid sess (Provider sess) (State sess) t1 ∈ log (demo_end demo_steps) /\ EBegun 1 sid sess pr t0 ∈ log (demo_end demo_steps).
Proof.
  destruct (proj1 (oauth_bound (fun _ => str "m") id (fun _ => None) demo_providers [] (str "https://app/in") false false false (fun t => MkCookie (str "t") t 0 true false)
    (fun x y H => H) (demo_end demo_steps) demo_reach) 1 (str "code1") (str "usr_1") (str "/home") 6) as (sid & x & bd & t2 & sess & t1 & pr & t0 & A & B & C & _).
  - vm_compute. repeat first [apply list_elem_of_here | apply list_elem_of_further].
  - by exists sid, x, bd, t2, sess, t1, pr, t0.
Defined.
